(* ===== verification/_CoqProject ===== *)
-Q . S2P
Prelude.v
Slices.v
Unicode.v
Classes.v
Program.v
Parser.v
Lower.v
Exec.v
Api.v
Backtrack.v
Spec.v
Simulate.v
Leaves.v
Emit.v
Loops.v
Passes.v
Possessive.v
FirstSet.v
Correctness.v
RunSkip.v
Search.v
Prescan.v
ParserSound.v
ParserTotal.v
Names.v
EndToEnd.v
Iterate.v
Findings.v
Opcode.v
Schema.v
Encoding.v
EncodingProps.v
DecodeProps.v
Wordcode.v
WordcodeProps.v
Bytecode.v
ModuleGraph.v
ResolveProps.v
ExportTables.v
OrderProps.v
LinkProps.v
EntryProps.v
GraphProps.v
Bits.v
Value.v
ValueProps.v
SlotProps.v
Swar.v
Microtask.v
MicrotaskProps.v
Base64.v
Base64Props.v
Cfg.v
CfgProps.v
Dom.v
RpoProps.v
DomTheory.v
DomProps.v
Dominance.v
DomChecks.v
Ssa.v
SsaProps.v
Liveness.v
LivenessProps.v
LivenessChecks.v
Repr.v
Regalloc.v
Moves.v
Allocate.v
FrameState.v
Deopt.v
MoveProps.v
ScanProps.v
LinearProps.v
IntervalProps.v
EdgeProps.v
AllocProps.v
ReprProps.v
FrameProps.v
DeoptProps.v
