(* ===== verification/Prelude.v ===== *)
(** * Verification of the Otter JavaScript engine

    Otter is a JavaScript runtime in Rust: a compiler from source to bytecode, a
    virtual machine with an optimising compiler, a regular-expression engine, a
    module loader and the runtime around them.  This development models the parts
    listed here, translated from the sources under [src/crates/] with their
    names, and proves the theorems that make each of them correct.

    ** The parts and their files

    Shared: [Prelude] (machine widths, the result type with its bind, tactics,
    hints), [Slices] (slice operations, graph reachability by a work list), [Bits]
    (masks and shifts in arithmetic form).

    (1) The regular-expression engine, all of [otter-regex].  A pattern goes
    through four stages.  [parser/mod.rs] pre-scans the UTF-16 pattern for its
    capturing groups, then parses it by recursive descent into the tree of
    [parser/ast.rs], resolving [\p{...}] through [unicode/] and building character
    classes with [classes.rs].  [ir.rs] lowers the tree to the instructions of
    [program.rs] and runs passes over them.  [exec/backtrack.rs] runs a program at
    one position with an explicit backtrack stack, an undo log and a step budget.
    [api.rs] scans a text for matches.
    - Model: [Unicode] (flags, errors, folding, decoding; the ICU tables, the
      identifier tables and the generated emoji tables are the class [Icu], what is
      relied on of them [IcuLaws] and [IcuNames], with the instance [ascii_icu]),
      [Classes], [Program], [Parser], [Lower], [Exec], [Api].
    - Proofs: [Backtrack] (a stackless backtracking semantics [bt] which the
      executor refines, with an exact account of its budget); [Spec] (the
      reference semantics: [paths] lists the ways a tree matches in the priority
      order of ECMA-262); [Simulate], [Leaves], [Emit], [Loops]
      (emitted code simulates the paths of its tree); [Passes], [Possessive],
      [FirstSet] (the passes keep that); [Correctness]; [RunSkip], [Search]
      (leftmost match); [Prescan], [ParserSound], [ParserTotal], [Names]; [EndToEnd]; [Iterate] (the API); [Findings]
      (inputs on which the code departs from ECMA-262).

    (2) The bytecode, [otter-bytecode].  [Opcode] ([lib.rs]) and [Schema]
    ([opcode_schema.rs]) are the opcodes with their operand shapes, successors and
    byte assignment; [Encoding] ([encoding.rs]) the verifier, the two-pass encoder
    with jump fixups and the decoder of the wire format; [Wordcode]
    ([wordcode.rs]) the in-memory instruction words and their builder; [Bytecode]
    the containers of a compiled module.  [EncodingProps], [DecodeProps] and
    [WordcodeProps] hold the proofs.

    (3) The module linker, [otter-runtime/src/module_graph.rs].  [ModuleGraph]
    models everything after the modules are loaded: export resolution,
    validation, export tables, evaluation order, the merge of the fragments with
    relocation of their constants, the synthesised entry function, and
    [ModuleGraph::link].  Proofs: [ResolveProps], [ExportTables], [OrderProps],
    [LinkProps], [EntryProps], [GraphProps].  It uses the bytecode of (2).

    (4) Values of the virtual machine, [otter-vm/src/value/].  [Value] models the
    64-bit tagged word ([tag.rs], [mod.rs]) and the 32-bit property slot
    ([compressed.rs]); the heap is an interface that stores type tags and boxes
    numbers ([HeapNumbersLaws] states what it promises).  Proofs: [ValueProps],
    [SlotProps].

    (5) Routines of the virtual machine: [Swar] ([swar.rs], the
    word-at-a-time searches); [Microtask], [MicrotaskProps] (the microtask queue
    and the drain loop of the interpreter; the body of a task is a parameter);
    [Base64], [Base64Props] ([uint8_base64.rs]).

    (6) The middle end of the optimising compiler, [otter-jit/src/ir/]: a graph
    is verified, its dominators computed, SSA form over it verified, liveness
    solved, representations selected, registers allocated, and the interpreter
    state before every instruction recorded for deoptimization, each stage with a
    self-check the pipeline runs.
    - [Cfg] is the graph and its verifier ([cfg.rs]), [Dom] the dominator analysis
      ([dom.rs]).  [CfgProps] derives what an accepted graph satisfies; [RpoProps]
      the depth-first order; [DomTheory] the theory of the Cooper-Harvey-Kennedy
      iteration on an abstract graph; [DomProps] connects the code to it;
      [Dominance] and [DomChecks] state the results on routes of the graph.
    - [Ssa] is SSA form with its verifier ([ssa.rs]); [SsaProps] derives the
      contract [ssa_wf] the later stages rely on and runs the verifier on spliced
      callees.  [Liveness] is [liveness.rs]; [LivenessProps] relates
      the fixpoint to the paths that need a value, [LivenessChecks] states the
      results.
    - [Regalloc] (intervals and the linear scan), [Moves] (phi moves and their
      sequentialization) and [Allocate] (the whole allocation and its self-check)
      are [regalloc.rs].  [MoveProps]: sequentialized moves are the parallel copy;
      [ScanProps]: the scan; [LinearProps]: the numbering of points;
      [IntervalProps]: intervals reach every use; [EdgeProps]: the moves of an
      edge; [AllocProps]: the allocation as a whole.
    - [Repr] is [repr.rs]: the feedback tables, the widening fixpoint, the
      conversions and the self-check.  [ReprProps] shows that it finds the least
      solution and composes the stages: [Pipeline.analyze] (in [FrameState]) is
      [OptimizationPipeline::analyze] ([optimizing/pipeline.rs]) from the check of
      the graph to the check of the allocation.
    - [FrameState] is [frame_state.rs]: the walk of the dominator forest that finds
      the value of every register before every instruction, and the check of its
      table; [Pipeline.assign_homes] is the rest of the pipeline, which gives the
      values a state needs homes of their own and rebuilds the phi moves.
      [FrameProps] relates the walk to the nearest definitions up the forest and
      shows what the final homes satisfy.
    - [Deopt] is the check of the inline tree ([inline.rs]), the exit table, stack
      maps and safepoints of the virtual machine ([otter-vm/src/deopt.rs]) and the
      lowering of frame states to that table ([deopt_lower.rs]).  [DeoptProps] shows
      what the frames of an exit read and runs the whole pipeline on units where it
      goes wrong.

    ** State and effects

    A [&mut self] method of the source takes its record and returns the new one.
    [res] has the value, the source's error, [Panic] for what panics in Rust, and
    [OutOfFuel] for a model whose fuel ran out.  Code units, code points, words
    and counters are [Z] with the width's wrapping, truncation or saturation
    written out; indices are [nat].  Maps that are only looked up are association
    lists; ordered maps are lists in key order.

    ** Fuel

    The regex executor's loops take arbitrary fuel; [settles f r] says that [f]
    returns [r] from some fuel on, and every statement about an attempt or a scan
    has that form, so that it includes termination.  Elsewhere the fuel is fixed
    and a theorem proves it enough:
    - [next_loop] [len + 2] (each turn moves a unit), [first_loop] [2 * len + 2]
      (a point is expanded once and pushes two), repetition [min + len + 1],
      [parse] [8 * (len + 2)] and class sets [8 * (len + 1)] (a level of nesting
      uses up to seven calls and consumes a unit);
    - the decoder and the SWAR scans [len + 1], base64 [len + 1] (each turn reads a
      unit);
    - export resolution: one more than the pairs of module and name that can be on
      the active path; exported names: one more than the modules; the evaluation
      order: modules plus dependency entries; the asynchronous-module pass: one
      round per module; reachability: the edges plus two;
    - the microtask drain: the iteration cap plus two;
    - the depth-first search: blocks plus edges plus two; a climb: the number of
      blocks; the dominator iteration: blocks squared, since a pass that changes
      anything moves a dominator up;
    - liveness: twice the blocks times the values mentioned, since a pass that
      changes anything adds a value to a set; sequentialization: twice the moves
      plus one, since breaking a cycle makes a move ready; representations: twice
      the values plus one, since a pass that changes anything widens a value and
      a value widens at most twice; the frame-state walk: twice the blocks plus
      one, since a block is entered once and left once; a chain of callers: one more than the
      states, and a path to the root of the inline tree: one more than the frames,
      since callers come first; the bits of a stack-map word: 65.

    ** What the theorems show

    Regex: from pattern text to the leftmost match of the reference semantics with
    its captures, under every sufficient budget ([EndToEnd]); behind it the
    refinements, the soundness of prefilter, skips and possessive marks, exact
    budgets, well-formed and terminating parsing, the algebra of classes, progress
    of the iterator.  Bytecode: encoding and decoding are inverse with branch
    distances relocated, decoding any bytes is safe and exact, the word builder
    refines a list and lays out alike.  Linker: resolution, validation and tables
    are exact, the order is topological up to cycles, linking preserves what code
    refers to, the entry function evaluates what is eagerly reachable, and [link]
    fails only with the errors of its contract.  Values: encodings are injective,
    classified as the language says, and slots round-trip and relocate.  Queue:
    generations implement one queue in arrival order, and every task runs.
    Codecs: round trips and bounds.  Dominators: the computed tree and frontier
    are those of the routes of the graph, and the self-checks accept exactly
    them.  Liveness is exact for the paths of the graph.  Register allocation
    fails only for lack of 32-bit numbers or on a phi that cannot be widened, and
    otherwise passes its whole self-check; values live at once have different
    locations, and the moves on edges deliver the phis.  Representation selection
    terminates with the least solution of its rules, and its self-check rejects
    it only where an integer is required of a double.  Composed, the stages never
    panic and none of the self-checks fires for any other reason.  Frame states
    hold the nearest definition of every register; the final homes of the values
    of one state are different, and the moves still deliver the phis; the exits
    lowered from them read exactly the values of the interpreter registers, and the
    lowering fails only for reasons the theorem lists, without spliced frames only
    for lack of byte offsets.

    ** What is not covered

    The regex correctness theorems leave out [v]-mode classes with strings,
    case-insensitive classes in Unicode mode (folded through ICU closures),
    lookbehind in non-Unicode patterns with possessive marks, and repeats over
    [MAX_REPEAT]; [Findings] has counterexamples where the code is at fault.  The
    variable part of two parser messages is not modelled.  Not modelled at all:
    the lowering of syntax trees (over a third-party parser), the interpreter's
    dispatch, objects and built-ins, the garbage collector, the construction of
    control-flow graphs and inline trees from compile snapshots, SSA construction,
    native code, the loading of modules, and the
    package manager, hosted modules and command line, which are I/O.  The theorem
    that live values are apart is stated for values defined no later in block
    order than where they are live, which is how the compiler lays code out and
    what the intervals assume; the verifier of SSA form does not check the inputs
    of spliced call results, so theorems about later stages assume them dominated,
    and that every instruction has a frame and PC of its own and every register
    move one input and a result, which SSA construction provides.  Frame states
    assume that the register windows of a unit fit 16 bits together and that a
    spliced call names registers of its caller ([unit_ok]); the lowering, that the
    bodies of a unit have the windows and instructions of its SSA form
    ([bodies_ok]).  That a home still holds its value when an exit reads it is not
    claimed: [DeoptProps] has units in which another value has overwritten it. *)

From Stdlib Require Export ZArith Lia.
From Stdlib Require Export Ascii.
From Stdlib Require Import String.
From stdpp Require Export base tactics option list.

(** Every numeral without a scope annotation is a [nat] (an index, a slice
    position); code units, code points and machine words are [Z]. *)
#[export] Set Default Goal Selector "!".
Global Open Scope nat_scope.

(** ** Machine widths *)

Definition u32_max : Z := 4294967295.
Definition u64_max : Z := 18446744073709551615.

(** [u64] addition as compiled in release mode: it wraps. *)
Definition u64_wrapping_succ (x : Z) : Z := ((x + 1) mod 18446744073709551616)%Z.

(** [u32::saturating_add], [u32::saturating_sub], [u32::checked_*]. *)
Definition u32_saturating_add (x y : Z) : Z := Z.min u32_max (x + y).
Definition u32_saturating_sub (x y : Z) : Z := Z.max 0 (x - y).
Definition u32_checked (x : Z) : option Z :=
  if (x <=? u32_max)%Z then Some x else None.

(** ** Byte literals: [b'x'] of the source *)

Definition b8 (a : ascii) : Z := Z.of_N (N_of_ascii a).
Arguments b8 _%_char_scope : simpl never.

(** The code points of an ASCII string literal. *)
Fixpoint chars (s : string) : list Z :=
  match s with
  | EmptyString => []
  | String a s => b8 a :: chars s
  end.

(** [(lo..=hi).contains(&x)]. *)
Definition in_range (lo hi x : Z) : bool := ((lo <=? x) && (x <=? hi))%Z.

(** ** Results: a value, an error of the source, a Rust panic, or a model that
    ran out of fuel (no claim is ever made with [OutOfFuel] as the outcome). *)

Inductive res (E A : Type) : Type :=
| Ok (a : A)
| Err (e : E)
| Panic
| OutOfFuel.
Arguments Ok {E A} a.
Arguments Err {E A} e.
Arguments Panic {E A}.
Arguments OutOfFuel {E A}.

Definition rbind {E A B} (m : res E A) (f : A -> res E B) : res E B :=
  match m with
  | Ok a => f a
  | Err e => Err e
  | Panic => Panic
  | OutOfFuel => OutOfFuel
  end.

Declare Scope otter_scope.
Delimit Scope otter_scope with otter.
Notation "'let*' x ':=' m 'in' k" := (rbind m (fun x => k))
  (at level 10, x pattern, m at level 100, k at level 200)
  : otter_scope.
Global Open Scope otter_scope.

(** [for x in l { f(x)?; }], and the same with the position ([enumerate]). *)
Fixpoint for_each {E A} (f : A -> res E unit) (l : list A) : res E unit :=
  match l with
  | [] => Ok tt
  | x :: l => let* _ := f x in for_each f l
  end.

Fixpoint for_each_i {E A} (f : nat -> A -> res E unit) (i : nat) (l : list A) : res E unit :=
  match l with
  | [] => Ok tt
  | x :: l => let* _ := f i x in for_each_i f (S i) l
  end.

(** [map_err]. *)
Definition map_err {E F A} (f : E -> F) (m : res E A) : res F A :=
  match m with
  | Ok a => Ok a
  | Err e => Err (f e)
  | Panic => Panic
  | OutOfFuel => OutOfFuel
  end.

(** Indexing [v[i]]: a panic when out of range. *)
Definition index {E A} (l : list A) (i : nat) : res E A :=
  match l !! i with
  | Some x => Ok x
  | None => Panic
  end.

(** ** Shared lemmas *)

Lemma in_range_spec lo hi x : in_range lo hi x = true <-> (lo <= x <= hi)%Z.
Proof. unfold in_range. lia. Qed.

Lemma in_range_false lo hi x : in_range lo hi x = false <-> ~ (lo <= x <= hi)%Z.
Proof. unfold in_range. lia. Qed.

Lemma rbind_Ok {E A B} (m : res E A) (f : A -> res E B) b :
  rbind m f = Ok b -> exists a, m = Ok a /\ f a = Ok b.
Proof. destruct m; simpl; try discriminate; eauto. Qed.

Lemma rbind_OutOfFuel {E A B} (m : res E A) (f : A -> res E B) :
  rbind m f = OutOfFuel -> m = OutOfFuel \/ exists a, m = Ok a /\ f a = OutOfFuel.
Proof. destruct m; simpl; try discriminate; eauto. Qed.

(** Take a successful bind apart. *)
Ltac inv_bind H :=
  let a := fresh "a" in
  let Ha := fresh "Hbind" in
  apply rbind_Ok in H as (a & Ha & H).

Lemma for_each_Ok {E A} (f : A -> res E unit) l :
  for_each f l = Ok tt <-> Forall (fun x => f x = Ok tt) l.
Proof.
  induction l as [|x l IH]; simpl; [by split; constructor|]. rewrite Forall_cons, <- IH.
  destruct (f x) as [[]| | |]; simpl; intuition done.
Qed.

Lemma for_each_i_Ok {E A} (f : nat -> A -> res E unit) i l :
  for_each_i f i l = Ok tt <-> forall j x, l !! j = Some x -> f (i + j) x = Ok tt.
Proof.
  revert i. induction l as [|x l IH]; intros i; simpl; [done|]. split.
  - intros H. inv_bind H. destruct a. intros [|j] y Hy; simpl in Hy.
    + rewrite Nat.add_0_r. by simplify_eq.
    + rewrite Nat.add_succ_r, <- Nat.add_succ_l. by apply (proj1 (IH (S i)) H).
  - intros H. pose proof (H 0 x eq_refl) as H0. rewrite Nat.add_0_r in H0. rewrite H0. simpl.
    apply IH. intros j y Hy. rewrite Nat.add_succ_l, <- Nat.add_succ_r. by apply H.
Qed.

Lemma rbind_unit_ext {E A} (m m' : res E unit) (k k' : res E A) :
  m = m' -> k = k' -> rbind m (fun _ => k) = rbind m' (fun _ => k').
Proof. by intros -> ->. Qed.

Lemma map_err_Ok {E F A} (f : E -> F) (m : res E A) a : map_err f m = Ok a <-> m = Ok a.
Proof. destruct m; simpl; split; congruence. Qed.

Lemma index_Ok {E A} (l : list A) i x : @index E A l i = Ok x <-> l !! i = Some x.
Proof. unfold index. destruct (l !! i); split; congruence. Qed.

Lemma iter_succ_r {A} n (f : A -> A) x : Nat.iter (S n) f x = Nat.iter n f (f x).
Proof. induction n as [|n IH]; [done|]. simpl in *. by rewrite IH. Qed.

Lemma for_each_cases {E A} (f : A -> res E unit) l :
  (for_each f l = Ok tt /\ Forall (fun x => f x = Ok tt) l)
  \/ exists x, x ∈ l /\ f x <> Ok tt /\ for_each f l = f x.
Proof.
  induction l as [|x l IH]; simpl; [by left; split; constructor|].
  destruct (f x) as [[]| | |] eqn:Hx; simpl.
  2-4: right; exists x; rewrite Hx; split_and!; [by left|done|done].
  destruct IH as [[-> IH]|(y & Hy & Hne & ->)]; [left; by split; [|constructor]|].
  right. exists y. split_and!; [by right|done|done].
Qed.

Lemma find_elem_of {A} (f : A -> bool) l x : List.find f l = Some x -> x ∈ l /\ f x = true.
Proof. intros H. apply List.find_some in H. by rewrite list_elem_of_In. Qed.

(** A list without repetition inside another is no longer. *)
Lemma NoDup_length_le {A} (l l' : list A) : NoDup l -> l ⊆ l' -> length l <= length l'.
Proof.
  intros Hnd Hsub. apply List.NoDup_incl_length.
  - by apply NoDup_ListNoDup.
  - intros x Hx. apply list_elem_of_In. apply Hsub. by apply list_elem_of_In.
Qed.

Lemma filter_length_lt {A} (P Q : A -> Prop) `{!forall x, Decision (P x), !forall x, Decision (Q x)} l x :
  (forall y, Q y -> P y) -> x ∈ l -> P x -> ~ Q x -> length (filter Q l) < length (filter P l).
Proof.
  intros HQP Hin HP HQ.
  assert (Hle : forall l, length (filter Q l) <= length (filter P l)).
  { induction l0 as [|y l0 IH]; [done|]. rewrite !filter_cons.
    repeat case_decide; simpl; try lia. exfalso; auto. }
  induction l as [|y l IH]; [by apply elem_of_nil in Hin|]. rewrite !filter_cons.
  apply elem_of_cons in Hin as [<- |Hin].
  - rewrite decide_False, decide_True by done. simpl. specialize (Hle l). lia.
  - specialize (IH Hin). repeat case_decide; simpl; try lia. exfalso; auto.
Qed.

Lemma map_lookup {A B} (f : A -> B) (l : list A) i : map f l !! i = f <$> l !! i.
Proof. apply list_lookup_fmap. Qed.

(** ** Tactics *)

(** Boolean comparisons in hypotheses and goal to propositions. *)
Ltac boolprop :=
  repeat match goal with
  | H : (_ && _)%bool = true |- _ => apply andb_prop in H as [? ?]
  | H : (_ || _)%bool = false |- _ => apply orb_false_elim in H as [? ?]
  | H : negb _ = true |- _ => apply negb_true_iff in H
  | H : negb _ = false |- _ => apply negb_false_iff in H
  | H : Nat.eqb _ _ = true |- _ => apply Nat.eqb_eq in H
  | H : Nat.eqb _ _ = false |- _ => apply Nat.eqb_neq in H
  | H : Nat.leb _ _ = true |- _ => apply Nat.leb_le in H
  | H : Nat.leb _ _ = false |- _ => apply Nat.leb_gt in H
  | H : Nat.ltb _ _ = true |- _ => apply Nat.ltb_lt in H
  | H : Nat.ltb _ _ = false |- _ => apply Nat.ltb_ge in H
  | H : Z.eqb _ _ = true |- _ => apply Z.eqb_eq in H
  | H : Z.eqb _ _ = false |- _ => apply Z.eqb_neq in H
  | H : Z.leb _ _ = true |- _ => apply Z.leb_le in H
  | H : Z.leb _ _ = false |- _ => apply Z.leb_gt in H
  | H : Z.ltb _ _ = true |- _ => apply Z.ltb_lt in H
  | H : Z.ltb _ _ = false |- _ => apply Z.ltb_ge in H
  | H : in_range _ _ _ = true |- _ => apply in_range_spec in H
  | H : in_range _ _ _ = false |- _ => apply in_range_false in H
  end.

Create HintDb otter.
#[export] Hint Resolve Nat.le_refl Nat.le_trans : otter.
