(* ===== verification/Slices.v ===== *)
(** * Slices and work lists

    What several components use of Rust's slices and integers: the binary search
    of [slice::binary_search_by], and the little-endian byte images of
    [to_le_bytes] and [from_le_bytes]; and reachability by a work list, which the
    graph searches of the module linker and of the compiler share. *)

From stdpp Require Import relations.
From S2P Require Import Prelude.
#[local] Set Warnings "-clear-no-such-hyp".

(** ** Binary search *)

(** [slice::binary_search_by]: halve the window, then test the last candidate.
    The window shrinks at every turn, so its length is fuel enough. *)
Fixpoint bsearch_loop {A} (fuel : nat) (cmp : A -> comparison) (l : list A)
    (base size : nat) : nat :=
  match fuel with
  | 0 => base
  | S fuel =>
      if 1 <? size then
        let half := Nat.div2 size in
        let mid := base + half in
        match l !! mid with
        | Some x =>
            bsearch_loop fuel cmp l (match cmp x with Gt => base | _ => mid end) (size - half)
        | None => base
        end
      else base
  end.

Definition binary_search_is_ok {A} (cmp : A -> comparison) (l : list A) : bool :=
  match l !! bsearch_loop (length l) cmp l 0 (length l) with
  | Some x => match cmp x with Eq => true | _ => false end
  | None => false
  end.

Section BinarySearch.
Context {A : Type} (cmp : A -> comparison) (l : list A).

(** The list is ordered with respect to the comparison: elements below the
    target, then the matching ones, then those above. *)
Hypothesis up : forall i j x y, l !! i = Some x -> l !! j = Some y -> i <= j -> cmp x = Gt -> cmp y = Gt.
Hypothesis down : forall i j x y, l !! i = Some x -> l !! j = Some y -> i < j -> cmp y = Lt -> cmp x = Lt.

(** The loop keeps: everything right of the window is above the target, and the
    window's base (unless it is 0) is not above it. *)
Lemma bsearch_loop_inv fuel base size :
  1 <= size -> size <= S fuel -> base + size <= length l ->
  (base = 0 \/ exists x, l !! base = Some x /\ cmp x <> Gt) ->
  (forall j x, base + size <= j -> l !! j = Some x -> cmp x = Gt) ->
  let b := bsearch_loop fuel cmp l base size in
  b < length l /\ (b = 0 \/ exists x, l !! b = Some x /\ cmp x <> Gt) /\
  (forall j x, b < j -> l !! j = Some x -> cmp x = Gt).
Proof.
  revert base size. induction fuel as [|fuel IH]; intros base size H1 Hf Hlen Hb Hgt; simpl.
  - replace size with 1 in * by lia. split; [lia|]. split; [done|]. intros; eapply Hgt; [|done]. lia.
  - destruct (1 <? size) eqn:Hs; boolprop.
    2: { replace size with 1 in * by lia. split; [lia|]. split; [done|].
         intros; eapply Hgt; [|done]; lia. }
    assert (Hd : 1 <= Nat.div2 size < size /\ 2 * Nat.div2 size <= size).
    { rewrite Nat.div2_div. pose proof (Nat.div_mod_eq size 2). pose proof (Nat.mod_upper_bound size 2). lia. }
    destruct (lookup_lt_is_Some_2 l (base + Nat.div2 size)) as [x Hx]; [lia|]. rewrite Hx.
    destruct (cmp x) eqn:Hc; apply IH; try lia; try done.
    + right. exists x. by rewrite Hc.
    + intros j r Hj; apply Hgt. lia.
    + right. exists x. by rewrite Hc.
    + intros j r Hj; apply Hgt. lia.
    + intros j r Hj Hr. eapply up; [exact Hx|exact Hr| |done]. lia.
Qed.

Lemma binary_search_correct : binary_search_is_ok cmp l = true <-> exists i x, l !! i = Some x /\ cmp x = Eq.
Proof using up down.
  unfold binary_search_is_ok. destruct (decide (length l = 0)) as [H0|H0].
  { destruct l as [|y l']; [|by simpl in H0]. split; [done|]. by intros (i & x & Hx & _). }
  destruct (bsearch_loop_inv (length l) 0 (length l)) as (Hlt & Hb & Hgt);
    [lia|lia|lia|by left|intros j r Hj Hr; apply lookup_lt_Some in Hr; lia|].
  set (b := bsearch_loop _ _ _ _ _) in *.
  destruct (lookup_lt_is_Some_2 l b Hlt) as [x Hx]. rewrite Hx.
  destruct (cmp x) eqn:Hc; [by split; eauto|split; [done|]..]; intros (i & y & Hi & Heq).
  - destruct (lt_eq_lt_dec i b) as [[Hl| -> ]|Hg]; [|congruence|by rewrite (Hgt i y) in Heq].
    by rewrite (down i b y x Hi Hx Hl Hc) in Heq.
  - destruct Hb as [Hb|(r & Hr & Hng)]; [|congruence].
    destruct (decide (i = b)) as [->|Hne]; [congruence|]. by rewrite (Hgt i y ltac:(lia) Hi) in Heq.
Qed.

(** A target that occurs is found. *)
Lemma binary_search_found i x : l !! i = Some x -> cmp x = Eq ->
  exists y, l !! bsearch_loop (length l) cmp l 0 (length l) = Some y /\ cmp y = Eq.
Proof using up down.
  intros Hx Hc. pose proof (proj2 binary_search_correct (ex_intro _ i (ex_intro _ x (conj Hx Hc)))) as H.
  unfold binary_search_is_ok in H. destruct (l !! bsearch_loop _ _ _ _ _) as [y|]; [|done].
  exists y. split; [done|]. by destruct (cmp y).
Qed.
End BinarySearch.

(** ** Little-endian images *)

(** [to_le_bytes] of a [8 * n]-bit value: the value modulo the width, low byte
    first.  A negative argument is a two's-complement integer. *)
Fixpoint to_le_bytes (n : nat) (x : Z) : list Z :=
  match n with
  | 0 => []
  | S n => (x mod 256)%Z :: to_le_bytes n (x / 256)%Z
  end.

(** The unsigned [from_le_bytes]. *)
Fixpoint from_le_bytes (l : list Z) : Z :=
  match l with
  | [] => 0
  | b :: l => b + 256 * from_le_bytes l
  end%Z.

Lemma length_to_le_bytes n x : length (to_le_bytes n x) = n.
Proof. revert x. induction n as [|n IH]; intros x; simpl; [done|]. by rewrite IH. Qed.

Lemma from_to_le_bytes n x : from_le_bytes (to_le_bytes n x) = (x mod 256 ^ Z.of_nat n)%Z.
Proof.
  revert x. induction n as [|n IH]; intros x; cbn [to_le_bytes from_le_bytes]; [by rewrite Z.mod_1_r|].
  rewrite IH, Nat2Z.inj_succ, Z.pow_succ_r by lia.
  rewrite (Z.rem_mul_r x 256 (256 ^ Z.of_nat n)) by lia. lia.
Qed.

Definition is_byte (b : Z) : Prop := (0 <= b <= 255)%Z.

Lemma to_le_bytes_ok n x : Forall is_byte (to_le_bytes n x).
Proof.
  revert x. induction n as [|n IH]; intros x; simpl; constructor; [|apply IH].
  unfold is_byte. pose proof (Z.mod_pos_bound x 256). lia.
Qed.

Lemma to_from_le_bytes l : Forall is_byte l -> to_le_bytes (length l) (from_le_bytes l) = l.
Proof.
  induction 1 as [|b l Hb Hl IH]; simpl; [done|]. unfold is_byte in Hb.
  rewrite (Z.mul_comm 256), Z.mod_add, Z.mod_small by lia.
  rewrite Z.div_add, Z.div_small by lia. by rewrite Z.add_0_l, IH.
Qed.

Lemma from_le_bytes_bound l : Forall is_byte l -> (0 <= from_le_bytes l < 256 ^ Z.of_nat (length l))%Z.
Proof.
  induction 1 as [|b l Hb Hl IH]; [done|]. cbn [from_le_bytes length]. unfold is_byte in Hb.
  rewrite Nat2Z.inj_succ, Z.pow_succ_r by lia. lia.
Qed.

(** ** Reachability by a work list

    A stack of pending nodes, popped one at a time, expanded on the first visit. *)

Lemma sum_filter_mono {A} (f : A -> nat) (P Q : A -> Prop)
    `{!forall x, Decision (P x), !forall x, Decision (Q x)} (U : list A) :
  (forall x, Q x -> P x) -> sum_list (map f (filter Q U)) <= sum_list (map f (filter P U)).
Proof.
  intros HQP. induction U as [|x U IH]; [done|]. rewrite !filter_cons. repeat case_decide; simpl; try lia.
  exfalso; auto.
Qed.

Lemma sum_filter_drop {A} (f : A -> nat) (P Q : A -> Prop)
    `{!forall x, Decision (P x), !forall x, Decision (Q x)} (U : list A) v :
  (forall x, Q x -> P x) -> v ∈ U -> P v -> ~ Q v ->
  f v + sum_list (map f (filter Q U)) <= sum_list (map f (filter P U)).
Proof.
  intros HQP Hin HP HQ. induction U as [|x U IH]; [by apply elem_of_nil in Hin|]. rewrite !filter_cons.
  apply elem_of_cons in Hin as [<- |Hin].
  - rewrite decide_False, decide_True by done. simpl. pose proof (sum_filter_mono f P Q U HQP). lia.
  - specialize (IH Hin). repeat case_decide; simpl; try lia. exfalso; auto.
Qed.

Lemma sum_filter_le {A} (f : A -> nat) (P : A -> Prop) `{!forall x, Decision (P x)} (U : list A) :
  sum_list (map f (filter P U)) <= sum_list (map f U).
Proof. induction U as [|x U IH]; [done|]. rewrite filter_cons. case_decide; simpl in *; lia. Qed.

Section Worklist.
Context {A : Type} `{EqDecision A} (children : A -> list A).

Fixpoint worklist {E : Type} (fuel : nat) (seen work : list A) : res E (list A) :=
  match fuel with
  | 0 => OutOfFuel
  | S fuel =>
      match work with
      | [] => Ok seen
      | u :: work =>
          if bool_decide (u ∈ seen) then worklist fuel seen work
          else worklist fuel (u :: seen) (children u ++ work)
      end
  end.

Definition child (u v : A) : Prop := v ∈ children u.

Definition work_weight (U seen work : list A) : nat :=
  length work + sum_list (map (fun u => length (children u)) (filter (fun u => u ∉ seen) U)).

Lemma worklist_spec {E} U : (forall u, u ∉ U -> children u = []) -> forall fuel seen work,
  work_weight U seen work < fuel ->
  (forall a b, a ∈ seen -> child a b -> b ∈ seen ++ work) ->
  exists seen', worklist (E := E) fuel seen work = Ok seen'
  /\ (forall u, u ∈ seen ++ work -> u ∈ seen')
  /\ (forall a b, a ∈ seen' -> child a b -> b ∈ seen')
  /\ (forall u, u ∈ seen' -> u ∈ seen \/ exists w, w ∈ work /\ rtc child w u).
Proof.
  intros HU. induction fuel as [|fuel IH]; intros seen work Hw Hcl; [lia|]. cbn [worklist].
  destruct work as [|u work].
  { exists seen. rewrite app_nil_r in *. split_and!; [done|done|done|by left]. }
  case_bool_decide as Hu.
  - destruct (IH seen work) as (seen' & -> & H1 & H2 & H3).
    + unfold work_weight in *. simpl in Hw. lia.
    + intros a b Ha Hb. specialize (Hcl a b Ha Hb). set_solver.
    + exists seen'. split_and!; [done|set_solver|done|]. intros v Hv.
      destruct (H3 v Hv) as [?|(w & Hw' & Hr)]; [by left|]. right. exists w. split; [by right|done].
  - destruct (IH (u :: seen) (children u ++ work)) as (seen' & -> & H1 & H2 & H3).
    + unfold work_weight in *. rewrite length_app. cbn [length] in Hw. destruct (decide (u ∈ U)) as [Hin|Hin].
      * pose proof (sum_filter_drop (fun u => length (children u)) (fun v => v ∉ seen) (fun v => v ∉ u :: seen) U u
          ltac:(set_solver) Hin Hu ltac:(set_solver)). simpl in *. lia.
      * rewrite (HU u Hin). pose proof (sum_filter_mono (fun u => length (children u)) (fun v => v ∉ seen)
          (fun v => v ∉ u :: seen) U ltac:(set_solver)). simpl in *. lia.
    + intros a b [-> |Ha]%elem_of_cons Hb; [|specialize (Hcl a b Ha Hb)]; unfold child in *; set_solver.
    + exists seen'. split_and!; [done|set_solver|done|]. intros v Hv.
      destruct (H3 v Hv) as [[-> |?]%elem_of_cons|(w & [Hw'|Hw']%elem_of_app & Hr)]; [|by left| |].
      * right. exists u. split; [by left|constructor].
      * right. exists u. split; [by left|]. by eapply rtc_l.
      * right. exists w. split; [by right|done].
Qed.

Lemma worklist_exact {E} U fuel w : (forall u, u ∉ U -> children u = []) ->
  1 + sum_list (map (fun u => length (children u)) U) < fuel ->
  exists seen, worklist (E := E) fuel [] [w] = Ok seen /\ forall u, u ∈ seen <-> rtc child w u.
Proof.
  intros HU Hf. destruct (worklist_spec (E := E) U HU fuel [] [w]) as (seen & Heq & H1 & H2 & H3).
  - unfold work_weight. cbn [length]. eapply Nat.le_lt_trans; [|exact Hf]. apply Nat.add_le_mono_l, sum_filter_le.
  - by intros a b ?%elem_of_nil.
  - exists seen. split; [done|]. intros u. split.
    + intros Hu. destruct (H3 u Hu) as [?%elem_of_nil|(w' & ->%list_elem_of_singleton & Hr)]; done.
    + intros Hr. assert (Hw : w ∈ seen) by (apply H1; set_solver). clear H1 H3 Heq.
      induction Hr as [x|x y z Hs Hr IH]; [done|]. apply IH. by eapply H2.
Qed.
End Worklist.
