(* ===== verification/Unicode.v ===== *)
(** * Flags, case folding, input traversal and the external Unicode data

    Models [src/crates/otter-regex/src/]: [flags.rs] ([Flags]), [error.rs]
    ([RegexError], [ExecError]), [casefold.rs] and [cursor.rs], with the
    decoding helpers of [exec/backtrack.rs] and [api.rs] that read the subject.
    The Unicode tables of the ICU4X and unicode-ident crates and the emoji
    tables generated by [build.rs] are not code of the repository: they are the
    operations of the class [Icu], and [IcuLaws] states the documented facts
    the engine relies on. *)

From Stdlib Require Import String.
From S2P Require Import Prelude.

(** ** flags.rs *)

Record Flags : Type := mkFlags {
  ignore_case : bool;
  multiline : bool;
  dot_all : bool;
  unicode : bool;
  unicode_sets : bool
}.

Definition flags_default : Flags := mkFlags false false false false false.

Definition is_unicode_mode (f : Flags) : bool := unicode f || unicode_sets f.

(** One character of [Flags::from_str_lossy]'s loop. *)
Definition flag_char (f : Flags) (c : Z) : Flags :=
  if (c =? b8 "i")%Z then mkFlags true (multiline f) (dot_all f) (unicode f) (unicode_sets f)
  else if (c =? b8 "m")%Z then mkFlags (ignore_case f) true (dot_all f) (unicode f) (unicode_sets f)
  else if (c =? b8 "s")%Z then mkFlags (ignore_case f) (multiline f) true (unicode f) (unicode_sets f)
  else if (c =? b8 "u")%Z then mkFlags (ignore_case f) (multiline f) (dot_all f) true (unicode_sets f)
  else if (c =? b8 "v")%Z then mkFlags (ignore_case f) (multiline f) (dot_all f) (unicode f) true
  else f.

Definition from_str_lossy (s : list Z) : Flags := fold_left flag_char s flags_default.

(** ** error.rs *)

Inductive RegexError : Type :=
| Syntax (message : string) (offset : option nat)  (* [None]: [usize::MAX] *)
| TooDeep (limit : nat).

Inductive ExecError : Type := StepLimitExceeded.

(** ** External Unicode data *)

(** The General_Category groups [general_category_group] names. *)
Inductive GeneralCategoryGroup : Type :=
| GcLetter | GcCasedLetter | GcMark | GcNumber | GcPunctuation | GcSymbol
| GcSeparator | GcOther.

(** The tables of the generated [emoji_data] module. *)
Inductive EmojiTable : Type :=
| BASIC_EMOJI | EMOJI_KEYCAP_SEQUENCE | RGI_EMOJI_FLAG_SEQUENCE
| RGI_EMOJI_MODIFIER_SEQUENCE | RGI_EMOJI_TAG_SEQUENCE | RGI_EMOJI_ZWJ_SEQUENCE.

Class Icu : Type := {
  (** [icu_casemap::CaseMapper::simple_fold] *)
  simple_fold : Z -> Z;
  (** the characters [CaseMapper::add_case_closure_to] gives to [add_char] *)
  case_closure : Z -> list Z;
  (** [unicode_ident::is_xid_start], [is_xid_continue] *)
  is_xid_start : Z -> bool;
  is_xid_continue : Z -> bool;
  (** [CodePointSetData::new_for_ecma262], its [iter_ranges] *)
  new_for_ecma262 : list Z -> option (list (Z * Z));
  (** [PropertyParser::<GeneralCategory>::get_strict], the value's set *)
  gc_strict_set : list Z -> option (list (Z * Z));
  gc_group_set : GeneralCategoryGroup -> list (Z * Z);
  (** [PropertyParser::<Script>::get_strict], the script's set and extensions *)
  script_strict_set : list Z -> option (list (Z * Z));
  script_strict_ext : list Z -> option (list (Z * Z));
  (** [emoji_data]: the [_RANGES] and [_STRINGS] of a table *)
  emoji_ranges : EmojiTable -> list (Z * Z);
  emoji_strings : EmojiTable -> list (list Z)
}.

(** A Unicode scalar value: what [char::from_u32] accepts. *)
Definition is_scalar (cp : Z) : bool :=
  in_range 0 1114111 cp && negb (in_range 55296 57343 cp).

(** ** casefold.rs *)

Definition canonicalize (cp : Z) : Z :=
  if in_range 65 90 cp then (cp + 32)%Z else cp.

Definition fold_unicode `{Icu} (cp : Z) : Z :=
  if is_scalar cp then simple_fold cp else cp.

Definition ascii_other_case (cp : Z) : Z :=
  if in_range 65 90 cp then (cp + 32)%Z
  else if in_range 97 122 cp then (cp - 32)%Z
  else cp.

(** Documented facts about the external case data (UCD CaseFolding.txt, statuses
    C and S): a fold is a scalar value, folding is idempotent, and on ASCII it
    is the ASCII fold. *)
Class IcuLaws `{Icu} : Prop := {
  simple_fold_scalar : forall c, is_scalar c = true -> is_scalar (simple_fold c) = true;
  simple_fold_idem : forall c, is_scalar c = true ->
    simple_fold (simple_fold c) = simple_fold c;
  simple_fold_ascii : forall c, (0 <= c < 128)%Z -> simple_fold c = canonicalize c
}.

(** ** cursor.rs *)

Record Input : Type := mkInput {
  units : list Z;
  code_point_mode : bool
}.

Definition is_high_surrogate (u : Z) : bool := in_range 55296 56319 u.
Definition is_low_surrogate (u : Z) : bool := in_range 56320 57343 u.

(** [0x10000 + ((hi - 0xD800) << 10) + (lo - 0xDC00)]. *)
Definition combine_surrogates (hi lo : Z) : Z :=
  (65536 + Z.shiftl (hi - 55296) 10 + (lo - 56320))%Z.

(** ** Decoding (exec/backtrack.rs, api.rs) *)

(** [Matcher::decode]. *)
Definition decode (inp : Input) (pos : nat) : option (Z * nat) :=
  match units inp !! pos with
  | None => None
  | Some hi =>
      if code_point_mode inp && is_high_surrogate hi then
        match units inp !! (pos + 1) with
        | Some lo =>
            if is_low_surrogate lo then Some (combine_surrogates hi lo, 2)
            else Some (hi, 1)
        | None => Some (hi, 1)
        end
      else Some (hi, 1)
  end.

(** [Matcher::prev_codepoint]; [units[pos - 1]] panics past the end, which no
    caller reaches: positions never exceed the subject length. *)
Definition prev_codepoint (inp : Input) (pos : nat) : option Z :=
  match pos with
  | 0 => None
  | S p =>
      match units inp !! p with
      | None => None
      | Some lo =>
          if code_point_mode inp && is_low_surrogate lo && (2 <=? pos) then
            match units inp !! (pos - 2) with
            | Some hi =>
                if is_high_surrogate hi then Some (combine_surrogates hi lo) else Some lo
            | None => Some lo
            end
          else Some lo
      end
  end.

(** [Matcher::decode_back]. *)
Definition decode_back (inp : Input) (pos : nat) : option (Z * nat) :=
  match prev_codepoint inp pos with
  | None => None
  | Some cp => Some (cp, if (65535 <? cp)%Z then 2 else 1)
  end.

(** [Matcher::decode_dir]. *)
Definition decode_dir (inp : Input) (pos : nat) (backward : bool) : option (Z * nat) :=
  if backward then decode_back inp pos else decode inp pos.

(** [decode_at] of api.rs; [None] is the index panic. *)
Definition decode_at (text : list Z) (pos : nat) (uni : bool) : option (Z * nat) :=
  decode (mkInput text uni) pos.

(** [advance_scan] of api.rs. *)
Definition advance_scan (text : list Z) (pos : nat) (uni : bool) : nat :=
  if uni then
    match text !! pos, text !! (pos + 1) with
    | Some hi, Some lo =>
        if is_high_surrogate hi && is_low_surrogate lo then pos + 2 else pos + 1
    | _, _ => pos + 1
    end
  else pos + 1.

Definition is_line_terminator (cp : Z) : bool :=
  ((cp =? 10) || (cp =? 13) || (cp =? 8232) || (cp =? 8233))%Z.

Definition is_word (cp : Z) : bool :=
  in_range 48 57 cp || in_range 65 90 cp || in_range 97 122 cp || (cp =? 95)%Z.

(** ** Lemmas *)

(** Code units are 16-bit words. *)
Definition wf_units (us : list Z) : Prop := Forall (fun u => (0 <= u < 65536)%Z) us.

Lemma wf_units_lookup us i u : wf_units us -> us !! i = Some u -> (0 <= u < 65536)%Z.
Proof. intros Hw Hi. exact (proj1 (Forall_lookup _ us) Hw i u Hi). Qed.

Lemma combine_surrogates_eq hi lo :
  combine_surrogates hi lo = (65536 + (hi - 55296) * 1024 + (lo - 56320))%Z.
Proof. unfold combine_surrogates. by rewrite Z.shiftl_mul_pow2 by lia. Qed.

Lemma combine_surrogates_bounds hi lo :
  is_high_surrogate hi = true -> is_low_surrogate lo = true ->
  (65536 <= combine_surrogates hi lo <= 1114111)%Z.
Proof.
  unfold is_high_surrogate, is_low_surrogate. intros. boolprop.
  rewrite combine_surrogates_eq. lia.
Qed.

Lemma canonicalize_idem cp : canonicalize (canonicalize cp) = canonicalize cp.
Proof. unfold canonicalize, in_range. repeat case_match; lia. Qed.

Lemma canonicalize_other_case cp : canonicalize (ascii_other_case cp) = canonicalize cp.
Proof. unfold canonicalize, ascii_other_case, in_range. repeat case_match; lia. Qed.

Lemma ascii_other_case_ascii cp :
  (0 <= cp < 128)%Z -> (0 <= ascii_other_case cp < 128)%Z.
Proof. unfold ascii_other_case, in_range. repeat case_match; lia. Qed.

Lemma ascii_other_case_invol cp : ascii_other_case (ascii_other_case cp) = cp.
Proof. unfold ascii_other_case, in_range. repeat case_match; lia. Qed.

Lemma ascii_other_case_high cp : (128 <= cp)%Z -> ascii_other_case cp = cp.
Proof. unfold ascii_other_case, in_range. repeat case_match; lia. Qed.

Lemma fold_unicode_idem `{IcuLaws} cp : fold_unicode (fold_unicode cp) = fold_unicode cp.
Proof.
  unfold fold_unicode. destruct (is_scalar cp) eqn:E; [|by rewrite E].
  rewrite simple_fold_scalar by done. by apply simple_fold_idem.
Qed.

Lemma decode_in_bounds inp pos cp w :
  decode inp pos = Some (cp, w) -> pos + w <= length (units inp) /\ 1 <= w <= 2.
Proof.
  unfold decode. intros Hd.
  destruct (units inp !! pos) as [hi|] eqn:Hp; [|done].
  apply lookup_lt_Some in Hp.
  destruct (code_point_mode inp && is_high_surrogate hi); [|simplify_eq; lia].
  destruct (units inp !! (pos + 1)) as [lo|] eqn:Hl; [|simplify_eq; lia].
  apply lookup_lt_Some in Hl. destruct (is_low_surrogate lo); simplify_eq; lia.
Qed.

Lemma decode_back_in_bounds inp pos cp w :
  wf_units (units inp) -> decode_back inp pos = Some (cp, w) -> w <= pos /\ 1 <= w <= 2.
Proof.
  unfold decode_back, prev_codepoint. intros Hwf Hd. destruct pos as [|p]; [done|].
  destruct (units inp !! p) as [lo|] eqn:Hp; [|done].
  pose proof (wf_units_lookup _ _ _ Hwf Hp).
  destruct (code_point_mode inp && is_low_surrogate lo && (2 <=? S p)) eqn:Hc.
  - boolprop. destruct (units inp !! (S p - 2)) as [hi|] eqn:Hh.
    + destruct (is_high_surrogate hi); repeat case_match; simplify_eq; lia.
    + repeat case_match; simplify_eq; lia.
  - repeat case_match; simplify_eq; lia.
Qed.

(** A consumed code point moves the position strictly, inside the subject. *)
Lemma decode_fwd_unit inp pos u :
  units inp !! pos = Some u -> is_high_surrogate u = false -> decode inp pos = Some (u, 1).
Proof. intros Hu Hs. unfold decode. rewrite Hu, Hs. by destruct (code_point_mode inp). Qed.

Lemma decode_back_unit inp p u :
  units inp !! p = Some u -> is_low_surrogate u = false -> (u < 65536)%Z ->
  decode_back inp (S p) = Some (u, 1).
Proof.
  intros Hu Hs Hlt. unfold decode_back, prev_codepoint. rewrite Hu, Hs.
  rewrite andb_false_r. simpl. by destruct (65535 <? u)%Z eqn:E; [lia|].
Qed.

Lemma decode_nonunicode inp pos :
  code_point_mode inp = false -> decode inp pos = (fun u => (u, 1)) <$> (units inp !! pos).
Proof. intros Hm. unfold decode. rewrite Hm. by destruct (units inp !! pos). Qed.

Lemma advance_scan_gt text pos uni : pos < advance_scan text pos uni.
Proof. unfold advance_scan. repeat case_match; lia. Qed.

(** ** A concrete instance: case data restricted to ASCII, no property tables *)

Definition ascii_icu : Icu := {|
  simple_fold := canonicalize;
  case_closure c := if (ascii_other_case c =? c)%Z then [] else [ascii_other_case c];
  is_xid_start c := in_range 65 90 c || in_range 97 122 c;
  is_xid_continue := is_word;
  new_for_ecma262 _ := None;
  gc_strict_set _ := None;
  gc_group_set _ := [];
  script_strict_set _ := None;
  script_strict_ext _ := None;
  emoji_ranges _ := [];
  emoji_strings _ := []
|}.

Lemma ascii_icu_laws : @IcuLaws ascii_icu.
Proof.
  split; simpl; intros c Hc.
  - unfold is_scalar, canonicalize, in_range in *. repeat case_match; lia.
  - apply canonicalize_idem.
  - done.
Qed.
