(* ===== verification/Classes.v ===== *)
(** * Code-point sets and class sets

    Models [src/crates/otter-regex/src/classes.rs]: [CodePointSet], a vector of
    inclusive ranges kept sorted, disjoint and merged, with its set algebra, and
    [ClassSet], a code-point set with the string alternatives of [v] mode and
    the ASCII bitmap the executor tests.  A [RangeInclusive<u32>] is a pair.

    The theorems show that every operation keeps the representation canonical
    ([wf_set]), that membership is the set-theoretic one through the binary
    search the code runs, that the representation is unique (two canonical sets
    with the same members are equal), and that the ASCII bitmap and the baked
    case folding agree with the membership test they replace. *)

From S2P Require Import Prelude Slices Unicode.

Definition MAX_CP : Z := 1114111.

Record CodePointSet : Type := mkSet { ranges : list (Z * Z) }.

Definition cps_new : CodePointSet := mkSet [].
Definition cps_is_empty (s : CodePointSet) : bool :=
  match ranges s with [] => true | _ => false end.

(** [sort_by_key(|r| *r.start())]: a stable sort on the start. *)
Fixpoint insert_by_start (r : Z * Z) (l : list (Z * Z)) : list (Z * Z) :=
  match l with
  | [] => [r]
  | x :: l' => if (r.1 <=? x.1)%Z then r :: x :: l' else x :: insert_by_start r l'
  end.
Definition sort_by_start (l : list (Z * Z)) : list (Z * Z) :=
  foldr insert_by_start [] l.

(** One turn of [normalize]'s merge loop; [merged] is held in reverse, so its
    head is [merged.last_mut()]. *)
Definition merge_step (merged : list (Z * Z)) (r : Z * Z) : list (Z * Z) :=
  match merged with
  | last :: rest =>
      if (r.1 <=? u32_saturating_add last.2 1)%Z then
        if (last.2 <? r.2)%Z then (last.1, r.2) :: rest else merged
      else r :: merged
  | [] => [r]
  end.

Definition normalize (s : CodePointSet) : CodePointSet :=
  if length (ranges s) <? 2 then s
  else mkSet (rev (fold_left merge_step (sort_by_start (ranges s)) [])).

Definition from_ranges (l : list (Z * Z)) : CodePointSet := normalize (mkSet l).

Definition insert_range (s : CodePointSet) (lo hi : Z) : CodePointSet :=
  if (hi <? lo)%Z then s else normalize (mkSet (ranges s ++ [(lo, hi)])).

Definition insert (s : CodePointSet) (cp : Z) : CodePointSet := insert_range s cp cp.

Definition range_cmp (cp : Z) (r : Z * Z) : comparison :=
  if (cp <? r.1)%Z then Gt else if (r.2 <? cp)%Z then Lt else Eq.

Definition contains (s : CodePointSet) (cp : Z) : bool :=
  binary_search_is_ok (range_cmp cp) (ranges s).

Definition union_with (s other : CodePointSet) : CodePointSet :=
  normalize (mkSet (ranges s ++ ranges other)).

(** The loop of [negate] with its running [next] and its early return. *)
Fixpoint negate_loop (next : Z) (l : list (Z * Z)) : list (Z * Z) :=
  match l with
  | [] => if (next <=? MAX_CP)%Z then [(next, MAX_CP)] else []
  | (lo, hi) :: l' =>
      (if (next <? lo)%Z then [(next, lo - 1)%Z] else []) ++
      (if (MAX_CP <=? hi)%Z then [] else negate_loop (hi + 1) l')
  end.
Definition negate (s : CodePointSet) : CodePointSet := mkSet (negate_loop 0 (ranges s)).

(** The two-pointer sweep; each turn drops one range, so the sum of the lengths
    is fuel enough. *)
Fixpoint intersection_loop (fuel : nat) (a b : list (Z * Z)) : list (Z * Z) :=
  match fuel with
  | 0 => []
  | S fuel =>
      match a, b with
      | (alo, ahi) :: a', (blo, bhi) :: b' =>
          let lo := Z.max alo blo in
          let hi := Z.min ahi bhi in
          (if (lo <=? hi)%Z then [(lo, hi)] else []) ++
          (if (ahi <? bhi)%Z then intersection_loop fuel a' b
           else intersection_loop fuel a b')
      | _, _ => []
      end
  end.
Definition intersection (s other : CodePointSet) : CodePointSet :=
  mkSet (intersection_loop (length (ranges s) + length (ranges other))
           (ranges s) (ranges other)).

Definition difference (s other : CodePointSet) : CodePointSet :=
  intersection s (negate other).

(** ** ClassSet *)

Record ClassSet : Type := mkClass {
  code_points : CodePointSet;
  strings : list (list Z);
  ascii_lo : Z
}.

Definition class_default : ClassSet := mkClass cps_new [] 0.
Definition from_code_points (s : CodePointSet) : ClassSet := mkClass s [] 0.

Definition may_contain_strings (c : ClassSet) : bool :=
  match strings c with [] => false | _ => true end.

(** [Vec<Vec<u32>>::contains]. *)
Definition strings_contain (l : list (list Z)) (s : list Z) : bool := bool_decide (s ∈ l).

Definition add_alternative (c : ClassSet) (alt : list Z) : ClassSet :=
  match alt with
  | [cp] => mkClass (insert (code_points c) cp) (strings c) (ascii_lo c)
  | _ =>
      if strings_contain (strings c) alt then c
      else mkClass (code_points c) (strings c ++ [alt]) (ascii_lo c)
  end.

Definition push_string (l : list (list Z)) (s : list Z) : list (list Z) :=
  if strings_contain l s then l else l ++ [s].

Definition class_union_with (c other : ClassSet) : ClassSet :=
  mkClass (union_with (code_points c) (code_points other))
    (fold_left push_string (strings other) (strings c)) (ascii_lo c).

Definition class_intersection (c other : ClassSet) : ClassSet :=
  mkClass (intersection (code_points c) (code_points other))
    (filter (fun s => strings_contain (strings other) s = true) (strings c)) 0.

Definition class_difference (c other : ClassSet) : ClassSet :=
  mkClass (difference (code_points c) (code_points other))
    (filter (fun s => strings_contain (strings other) s = false) (strings c)) 0.

Definition negate_code_points (c : ClassSet) : ClassSet :=
  mkClass (negate (code_points c)) [] 0.

(** [lo..=hi] as a list. *)
Definition range_list (lo hi : Z) : list Z := seqZ lo (hi - lo + 1).

(** [for r in ranges { if lo >= 128 { continue } for cp in lo..=hi.min(127) }]. *)
Definition ascii_members (s : CodePointSet) : list Z :=
  flat_map (fun r : Z * Z => if (128 <=? r.1)%Z then [] else range_list r.1 (Z.min r.2 127))
    (ranges s).

Definition fold_ascii_case (c : ClassSet) : ClassSet :=
  let adds := flat_map (fun cp =>
      let other := ascii_other_case cp in
      if (other =? cp)%Z then [] else [other]) (ascii_members (code_points c)) in
  mkClass (fold_left insert adds (code_points c)) (strings c) (ascii_lo c).

Definition code_point_count (c : ClassSet) : Z :=
  fold_left (fun n (r : Z * Z) =>
      u32_saturating_add n (u32_saturating_add (u32_saturating_sub r.2 r.1) 1))
    (ranges (code_points c)) 0%Z.

Definition fold_unicode_case `{Icu} (c : ClassSet) : ClassSet :=
  let adds := flat_map (fun r : Z * Z =>
      flat_map (fun cp => if is_scalar cp then case_closure cp else [])
        (range_list r.1 r.2)) (ranges (code_points c)) in
  mkClass (fold_left insert adds (code_points c)) (strings c) (ascii_lo c).

Definition finalize_ascii (c : ClassSet) : ClassSet :=
  mkClass (code_points c) (strings c)
    (fold_left (fun bits cp => Z.lor bits (Z.shiftl 1 cp)) (ascii_members (code_points c)) 0%Z).

Definition ascii_contains (c : ClassSet) (cp : Z) : bool :=
  (Z.land (Z.shiftr (ascii_lo c) cp) 1 =? 1)%Z.

(** ** Specification *)

(** Membership in a list of ranges, as a set. *)
Definition in_ranges (l : list (Z * Z)) (cp : Z) : bool :=
  existsb (fun r : Z * Z => in_range r.1 r.2 cp) l.

(** The representation invariant: from [lo] up, ranges are non-empty, ascending,
    disjoint, not adjacent, and end inside the code space. *)
Fixpoint wf_from (lo : Z) (l : list (Z * Z)) : Prop :=
  match l with
  | [] => True
  | (a, b) :: l' => (lo <= a <= b)%Z /\ (b <= MAX_CP)%Z /\ wf_from (b + 2) l'
  end.
Definition wf_set (s : CodePointSet) : Prop := wf_from 0 (ranges s).

(** Ranges a caller may hand in: non-empty and inside the code space. *)
Definition range_ok (r : Z * Z) : Prop := (0 <= r.1 <= r.2)%Z /\ (r.2 <= MAX_CP)%Z.

Fixpoint sorted_from (lo : Z) (l : list (Z * Z)) : Prop :=
  match l with
  | [] => True
  | r :: l' => (lo <= r.1)%Z /\ sorted_from r.1 l'
  end.

(** [normalize]'s merge, read forwards from the range being grown. *)
Fixpoint merge_from (cur : Z * Z) (l : list (Z * Z)) : list (Z * Z) :=
  match l with
  | [] => [cur]
  | r :: l' =>
      if (r.1 <=? cur.2 + 1)%Z then merge_from (cur.1, Z.max cur.2 r.2) l'
      else cur :: merge_from r l'
  end.

(** ** Lemmas: sorting and merging *)

Lemma in_ranges_cons a b l cp : in_ranges ((a, b) :: l) cp = in_range a b cp || in_ranges l cp.
Proof. done. Qed.

Lemma in_ranges_app l1 l2 cp : in_ranges (l1 ++ l2) cp = in_ranges l1 cp || in_ranges l2 cp.
Proof. apply existsb_app. Qed.

Lemma in_ranges_insert r l cp :
  in_ranges (insert_by_start r l) cp = in_range r.1 r.2 cp || in_ranges l cp.
Proof.
  induction l as [|x l IH]; [done|]. simpl. destruct (r.1 <=? x.1)%Z; [done|].
  simpl. rewrite IH. by destruct (in_range x.1 x.2 cp), (in_range r.1 r.2 cp).
Qed.

Lemma in_ranges_sort l cp : in_ranges (sort_by_start l) cp = in_ranges l cp.
Proof. induction l as [|x l IH]; [done|]. simpl. by rewrite in_ranges_insert, IH. Qed.

Lemma Forall_insert_by_start P r l : P r -> Forall P l -> Forall P (insert_by_start r l).
Proof.
  induction 2 as [|x l Hx Hl IH]; simpl; [by repeat constructor|].
  destruct (r.1 <=? x.1)%Z; by repeat constructor.
Qed.

Lemma Forall_sort P l : Forall P l -> Forall P (sort_by_start l).
Proof. induction 1; simpl; [done|by apply Forall_insert_by_start]. Qed.

Lemma sorted_from_weaken lo lo' l : (lo' <= lo)%Z -> sorted_from lo l -> sorted_from lo' l.
Proof. destruct l; simpl; [done|]. intros ? [??]; split; [lia|done]. Qed.

Lemma sorted_from_insert lo r l :
  (lo <= r.1)%Z -> sorted_from lo l -> sorted_from lo (insert_by_start r l).
Proof.
  revert lo. induction l as [|x l IH]; simpl; intros lo Hr Hs; [done|].
  destruct Hs as [Hx Hs]. destruct (r.1 <=? x.1)%Z eqn:E; simpl.
  - repeat split; [lia|lia|done].
  - split; [done|]. apply IH; [lia|done].
Qed.

Lemma sorted_from_sort l : Forall range_ok l -> sorted_from 0 (sort_by_start l).
Proof.
  induction 1 as [|x l Hx Hl IH]; simpl; [done|].
  apply sorted_from_insert; [|done]. destruct Hx. lia.
Qed.

Lemma merge_fold cur acc l :
  range_ok cur -> Forall range_ok l ->
  rev (fold_left merge_step l (cur :: acc)) = rev acc ++ merge_from cur l.
Proof.
  intros Hc Hl. revert cur acc Hc. induction Hl as [|r l Hr Hl IH]; intros cur acc Hc; [done|].
  simpl. unfold u32_saturating_add. rewrite Z.min_r by (destruct Hc; unfold u32_max, MAX_CP in *; lia).
  destruct (r.1 <=? cur.2 + 1)%Z eqn:E.
  - destruct Hc as [Hc1 Hc2], Hr as [Hr1 Hr2].
    destruct (cur.2 <? r.2)%Z eqn:E2.
    + rewrite IH by (split; simpl; lia). by rewrite Z.max_r by lia.
    + rewrite IH by (split; simpl; lia). rewrite Z.max_l by lia. by destruct cur.
  - rewrite IH by done. simpl. by rewrite <- app_assoc.
Qed.

Lemma in_ranges_merge cur l cp :
  range_ok cur -> Forall range_ok l -> sorted_from cur.1 l ->
  in_ranges (merge_from cur l) cp = in_range cur.1 cur.2 cp || in_ranges l cp.
Proof.
  intros Hc Hl. revert cur Hc. induction Hl as [|r l Hr Hl IH]; intros cur Hc Hs; [done|].
  simpl in *. destruct Hs as [Hs1 Hs2]. destruct Hc as [Hc1 Hc2], Hr as [Hr1 Hr2].
  destruct (r.1 <=? cur.2 + 1)%Z eqn:E.
  - rewrite IH; simpl; [|split; simpl; lia|eapply sorted_from_weaken; [|done]; lia].
    rewrite orb_assoc. f_equal. unfold in_range. lia.
  - simpl. rewrite IH; [done|split; done|done].
Qed.

Lemma wf_from_merge lo cur l :
  (lo <= cur.1)%Z -> range_ok cur -> Forall range_ok l -> sorted_from cur.1 l ->
  wf_from lo (merge_from cur l).
Proof.
  intros Hlo Hc Hl. revert lo cur Hlo Hc.
  induction Hl as [|r l Hr Hl IH]; intros lo cur Hlo [Hc1 Hc2] Hs; simpl in *.
  - destruct cur; simpl in *. repeat split; lia.
  - destruct Hs as [Hs1 Hs2], Hr as [Hr1 Hr2]. destruct (r.1 <=? cur.2 + 1)%Z eqn:E.
    + apply IH; simpl; [lia|split; simpl; lia|]. eapply sorted_from_weaken; [|done]. lia.
    + destruct cur as [a b]; simpl in *. repeat split; try lia. apply IH; [lia|done|done].
Qed.

Lemma wf_from_weaken lo lo' l : (lo' <= lo)%Z -> wf_from lo l -> wf_from lo' l.
Proof. destruct l as [|[a b] l]; simpl; [done|]. intros ? (?&?&?). repeat split; [lia|lia|lia|done]. Qed.

Lemma wf_from_range_ok lo l : (0 <= lo)%Z -> wf_from lo l -> Forall range_ok l.
Proof.
  revert lo. induction l as [|[a b] l IH]; intros lo Hlo; simpl; [constructor|].
  intros (?&?&Hw). constructor; [split; simpl; lia|]. apply (IH (b + 2)%Z); [lia|done].
Qed.

Lemma wf_set_range_ok s : wf_set s -> Forall range_ok (ranges s).
Proof. by apply wf_from_range_ok. Qed.

Lemma normalize_correct s cp :
  Forall range_ok (ranges s) ->
  wf_set (normalize s) /\ in_ranges (ranges (normalize s)) cp = in_ranges (ranges s) cp.
Proof.
  intros Hok. unfold normalize. destruct (length (ranges s) <? 2) eqn:Hlen; boolprop.
  - split; [|done]. unfold wf_set. destruct (ranges s) as [|[a b] [|? ?]]; simpl in *; [done| |lia].
    inversion Hok as [|? ? [Ha Hb]]; simpl in *. repeat split; lia.
  - pose proof (Forall_sort range_ok _ Hok) as Hso. pose proof (sorted_from_sort _ Hok) as Hss.
    rewrite <- (in_ranges_sort (ranges s)).
    destruct (sort_by_start (ranges s)) as [|r l] eqn:E; [done|].
    inversion Hso as [|? ? Hr Hl]; subst. destruct Hss as [Hr0 Hss].
    simpl fold_left. simpl ranges. rewrite merge_fold by done. simpl. split.
    + apply wf_from_merge; done.
    + rewrite in_ranges_merge by done. done.
Qed.

(** ** Lemmas: the binary search *)

Lemma wf_from_lb lo l i r : wf_from lo l -> l !! i = Some r -> (lo <= r.1 <= r.2)%Z.
Proof.
  revert lo i. induction l as [|[a b] l IH]; intros lo i Hw Hi; [done|].
  simpl in Hw. destruct Hw as (?&?&Hw). destruct i as [|i]; simpl in Hi.
  - simplify_eq. simpl. lia.
  - specialize (IH _ _ Hw Hi). lia.
Qed.

Lemma wf_from_lt lo l i j r1 r2 :
  wf_from lo l -> l !! i = Some r1 -> l !! j = Some r2 -> i < j -> (r1.2 + 1 < r2.1)%Z.
Proof.
  revert lo i j. induction l as [|[a b] l IH]; intros lo i j Hw Hi Hj Hlt; [done|].
  simpl in Hw. destruct Hw as (?&?&Hw). destruct j as [|j]; [lia|]. simpl in Hj.
  destruct i as [|i]; simpl in Hi.
  - simplify_eq. simpl. pose proof (wf_from_lb _ _ _ _ Hw Hj). lia.
  - apply (IH _ i j Hw Hi Hj). lia.
Qed.

Lemma in_ranges_lookup l cp :
  in_ranges l cp = true <-> exists i r, l !! i = Some r /\ range_cmp cp r = Eq.
Proof.
  unfold in_ranges. rewrite existsb_exists. split.
  - intros (r & Hr & Hin). apply list_elem_of_In, list_elem_of_lookup in Hr as [i Hi].
    exists i, r. split; [done|]. unfold range_cmp. boolprop. repeat case_match; lia || done.
  - intros (i & r & Hi & Hc). exists r. split.
    + apply list_elem_of_In, list_elem_of_lookup. eauto.
    + unfold range_cmp in Hc. apply in_range_spec. repeat case_match; try done. lia.
Qed.

Lemma contains_in_ranges s cp : wf_set s -> contains s cp = in_ranges (ranges s) cp.
Proof.
  intros Hw. unfold wf_set in Hw. apply Bool.eq_true_iff_eq. unfold contains.
  rewrite in_ranges_lookup. apply binary_search_correct; intros i j x y Hi Hj Hle Hc.
  - destruct (decide (i = j)) as [->|Hne]; [congruence|].
    pose proof (wf_from_lt _ _ i j x y Hw Hi Hj ltac:(lia)). pose proof (wf_from_lb _ _ _ _ Hw Hi).
    unfold range_cmp in *. repeat case_match; try done; lia.
  - pose proof (wf_from_lt _ _ i j x y Hw Hi Hj Hle). pose proof (wf_from_lb _ _ _ _ Hw Hj).
    pose proof (wf_from_lb _ _ _ _ Hw Hi).
    unfold range_cmp in *. repeat case_match; try done; lia.
Qed.

(** ** Lemmas: the set algebra *)

Lemma in_ranges_below lo l cp : wf_from lo l -> (cp < lo)%Z -> in_ranges l cp = false.
Proof.
  revert lo. induction l as [|[a b] l IH]; intros lo Hw Hlt; simpl in *; [done|].
  destruct Hw as (?&?&Hw). rewrite (IH _ Hw) by lia. unfold in_range. lia.
Qed.

Lemma in_ranges_bounds lo l cp :
  wf_from lo l -> in_ranges l cp = true -> (lo <= cp <= MAX_CP)%Z.
Proof.
  revert lo. induction l as [|[a b] l IH]; intros lo Hw Hin; simpl in *; [done|].
  destruct Hw as (?&?&Hw). apply orb_true_iff in Hin as [Hin|Hin].
  - boolprop. simpl in *. lia.
  - specialize (IH _ Hw Hin). lia.
Qed.

Lemma negate_loop_correct next l cp :
  (0 <= next)%Z -> wf_from next l ->
  wf_from next (negate_loop next l) /\
  in_ranges (negate_loop next l) cp = in_range next MAX_CP cp && negb (in_ranges l cp).
Proof.
  revert next. induction l as [|[a b] l IH]; intros next Hn Hw; simpl in *.
  - destruct (next <=? MAX_CP)%Z eqn:E; simpl.
    + split; [repeat split; lia|]. by rewrite orb_false_r, andb_true_r.
    + split; [done|]. unfold in_range. lia.
  - destruct Hw as (?&?&Hw).
    assert (Hrest : wf_from (b + 1) (if (MAX_CP <=? b)%Z then [] else negate_loop (b + 1) l) /\
      in_ranges (if (MAX_CP <=? b)%Z then [] else negate_loop (b + 1) l) cp =
      in_range (b + 1) MAX_CP cp && negb (in_ranges l cp)).
    { destruct (MAX_CP <=? b)%Z eqn:E.
      - split; [done|]. unfold in_range. simpl. lia.
      - apply IH; [lia|]. eapply wf_from_weaken; [|exact Hw]. lia. }
    destruct Hrest as [Hw' Hin]. rewrite in_ranges_app, Hin.
    pose proof (in_ranges_below _ _ cp Hw) as Hbelow. split.
    + destruct (next <? a)%Z eqn:E; simpl.
      * repeat split; try lia. eapply wf_from_weaken; [|exact Hw']. lia.
      * eapply wf_from_weaken; [|exact Hw']. lia.
    + destruct (next <? a)%Z eqn:E; simpl; unfold in_range.
      * destruct (decide (cp < b + 2)%Z); [rewrite Hbelow by lia; lia|].
        destruct (in_ranges l cp); lia.
      * destruct (decide (cp < b + 2)%Z); [rewrite Hbelow by lia; lia|].
        destruct (in_ranges l cp); lia.
Qed.

Lemma intersection_loop_correct fuel a b la lb cp :
  length a + length b <= fuel -> wf_from la a -> wf_from lb b ->
  wf_from (Z.max la lb) (intersection_loop fuel a b) /\
  in_ranges (intersection_loop fuel a b) cp = in_ranges a cp && in_ranges b cp.
Proof.
  revert a b la lb. induction fuel as [|fuel IH]; intros a b la lb Hf Ha Hb.
  { destruct a, b; simpl in *; lia. }
  destruct a as [|[alo ahi] a]; [done|].
  destruct b as [|[blo bhi] b]; [split; [done|by rewrite andb_false_r]|].
  assert (Ha' := Ha). assert (Hb' := Hb). simpl in Ha, Hb, Hf.
  destruct Ha as (?&?&Ha), Hb as (?&?&Hb).
  pose proof (in_ranges_below _ _ cp Ha) as Hba. pose proof (in_ranges_below _ _ cp Hb) as Hbb.
  cbn [intersection_loop]. rewrite in_ranges_app.
  destruct (ahi <? bhi)%Z eqn:E.
  - destruct (IH a ((blo, bhi) :: b) _ _ ltac:(simpl; lia) Ha Hb') as [Hw Hi]. rewrite Hi. split.
    + destruct (Z.max alo blo <=? Z.min ahi bhi)%Z eqn:El; simpl.
      * repeat split; try lia. eapply wf_from_weaken; [|exact Hw]. lia.
      * eapply wf_from_weaken; [|exact Hw]. lia.
    + rewrite !in_ranges_cons.
      destruct (decide (cp < ahi + 2)%Z); [rewrite Hba by lia|destruct (in_ranges a cp)];
      (destruct (decide (cp < bhi + 2)%Z); [rewrite Hbb by lia|destruct (in_ranges b cp)]);
      destruct (Z.max alo blo <=? Z.min ahi bhi)%Z eqn:El; simpl; unfold in_range; lia.
  - destruct (IH ((alo, ahi) :: a) b _ _ ltac:(simpl; lia) Ha' Hb) as [Hw Hi]. rewrite Hi. split.
    + destruct (Z.max alo blo <=? Z.min ahi bhi)%Z eqn:El; simpl.
      * repeat split; try lia. eapply wf_from_weaken; [|exact Hw]. lia.
      * eapply wf_from_weaken; [|exact Hw]. lia.
    + rewrite !in_ranges_cons.
      destruct (decide (cp < ahi + 2)%Z); [rewrite Hba by lia|destruct (in_ranges a cp)];
      (destruct (decide (cp < bhi + 2)%Z); [rewrite Hbb by lia|destruct (in_ranges b cp)]);
      destruct (Z.max alo blo <=? Z.min ahi bhi)%Z eqn:El; simpl; unfold in_range; lia.
Qed.

(** A canonical list of ranges is determined by its members. *)
Lemma wf_from_ext lo a b :
  wf_from lo a -> wf_from lo b -> (forall cp, in_ranges a cp = in_ranges b cp) -> a = b.
Proof.
  revert lo b. induction a as [|[alo ahi] a IH]; intros lo b Ha Hb Heq.
  - destruct b as [|[blo bhi] b]; [done|]. simpl in Hb. specialize (Heq blo). simpl in Heq.
    unfold in_range in Heq. lia.
  - destruct b as [|[blo bhi] b].
    { simpl in Ha. specialize (Heq alo). simpl in Heq. unfold in_range in Heq. lia. }
    simpl in Ha, Hb. destruct Ha as (?&?&Ha), Hb as (?&?&Hb).
    assert (Hin : forall cp, in_range alo ahi cp || in_ranges a cp = in_range blo bhi cp || in_ranges b cp)
      by exact Heq.
    assert (Hba := fun cp => in_ranges_below _ _ cp Ha). assert (Hbb := fun cp => in_ranges_below _ _ cp Hb).
    assert (alo = blo) as <-.
    { pose proof (Hin alo) as Hx. pose proof (Hin blo) as Hy. unfold in_range in Hx, Hy.
      destruct (decide (alo < blo)%Z); [rewrite (Hbb alo) in Hx by lia; lia|].
      destruct (decide (blo < alo)%Z); [rewrite (Hba blo) in Hy by lia; lia|]. lia. }
    assert (ahi = bhi) as <-.
    { pose proof (Hin (ahi + 1)%Z) as Hx. pose proof (Hin (bhi + 1)%Z) as Hy. unfold in_range in Hx, Hy.
      destruct (decide (ahi < bhi)%Z); [rewrite (Hba (ahi + 1)%Z) in Hx by lia; lia|].
      destruct (decide (bhi < ahi)%Z); [rewrite (Hbb (bhi + 1)%Z) in Hy by lia; lia|]. lia. }
    f_equal. apply (IH (ahi + 2)%Z); [done|done|]. intros cp. specialize (Hin cp).
    destruct (decide (cp < ahi + 2)%Z); [by rewrite Hba, Hbb by lia|].
    unfold in_range in Hin. destruct (in_ranges a cp), (in_ranges b cp); lia.
Qed.

Lemma push_range_ok s lo hi :
  wf_set s -> (0 <= lo <= hi)%Z -> (hi <= MAX_CP)%Z -> Forall range_ok (ranges s ++ [(lo, hi)]).
Proof.
  intros Hw ??. apply Forall_app. split; [by apply wf_set_range_ok|]. by repeat constructor; simpl; lia.
Qed.

Lemma insert_range_wf s lo hi :
  wf_set s -> (0 <= lo)%Z -> (hi <= MAX_CP)%Z -> wf_set (insert_range s lo hi).
Proof.
  intros Hw H0 Hm. unfold insert_range. destruct (hi <? lo)%Z eqn:E; [done|].
  apply (normalize_correct (mkSet _) 0), push_range_ok; [done|lia|done].
Qed.

Lemma insert_range_members s lo hi cp :
  wf_set s -> (0 <= lo)%Z -> (hi <= MAX_CP)%Z ->
  contains (insert_range s lo hi) cp = contains s cp || in_range lo hi cp.
Proof.
  intros Hw H0 Hm. rewrite !contains_in_ranges; [|done|by apply insert_range_wf].
  unfold insert_range. destruct (hi <? lo)%Z eqn:E.
  - replace (in_range lo hi cp) with false; [by rewrite orb_false_r|]. unfold in_range. lia.
  - destruct (normalize_correct (mkSet (ranges s ++ [(lo, hi)])) cp) as [_ ->].
    + apply push_range_ok; [done|lia|done].
    + simpl. rewrite in_ranges_app. simpl. by rewrite orb_false_r.
Qed.

Lemma insert_wf s cp : wf_set s -> (0 <= cp <= MAX_CP)%Z -> wf_set (insert s cp).
Proof. intros. apply insert_range_wf; [done|lia|lia]. Qed.

Lemma insert_members s x cp :
  wf_set s -> (0 <= x <= MAX_CP)%Z -> contains (insert s x) cp = contains s cp || (cp =? x)%Z.
Proof.
  intros. unfold insert. rewrite insert_range_members by (done || lia).
  f_equal. unfold in_range. lia.
Qed.

Lemma insert_all_wf s l :
  wf_set s -> Forall (fun x => 0 <= x <= MAX_CP)%Z l -> wf_set (fold_left insert l s).
Proof. intros Hw Hl. revert s Hw. induction Hl; intros s Hw; simpl; [done|]. apply IHHl. by apply insert_wf. Qed.

Lemma insert_all_members s l cp :
  wf_set s -> Forall (fun x => 0 <= x <= MAX_CP)%Z l ->
  contains (fold_left insert l s) cp = contains s cp || existsb (Z.eqb cp) l.
Proof.
  intros Hw Hl. revert s Hw. induction Hl as [|x l Hx Hl IH]; intros s Hw; simpl.
  - by rewrite orb_false_r.
  - rewrite IH by (by apply insert_wf). rewrite insert_members by done. by rewrite orb_assoc.
Qed.

Lemma union_with_correct a b cp :
  wf_set a -> wf_set b ->
  wf_set (union_with a b) /\ contains (union_with a b) cp = contains a cp || contains b cp.
Proof.
  intros Ha Hb. unfold union_with.
  destruct (normalize_correct (mkSet (ranges a ++ ranges b)) cp) as [Hw Hi].
  { simpl. apply Forall_app. by split; apply wf_set_range_ok. }
  split; [done|]. rewrite !contains_in_ranges by done. by rewrite Hi, <- in_ranges_app.
Qed.

Lemma negate_correct a cp :
  wf_set a ->
  wf_set (negate a) /\ contains (negate a) cp = in_range 0 MAX_CP cp && negb (contains a cp).
Proof.
  intros Ha. destruct (negate_loop_correct 0 (ranges a) cp ltac:(lia) Ha) as [Hw Hi].
  split; [done|]. by rewrite !contains_in_ranges.
Qed.

Lemma intersection_correct a b cp :
  wf_set a -> wf_set b ->
  wf_set (intersection a b) /\ contains (intersection a b) cp = contains a cp && contains b cp.
Proof.
  intros Ha Hb.
  destruct (intersection_loop_correct _ (ranges a) (ranges b) 0 0 cp (Nat.le_refl _) Ha Hb) as [Hw Hi].
  split; [done|]. by rewrite !contains_in_ranges.
Qed.

Lemma contains_bounds a cp : wf_set a -> contains a cp = true -> (0 <= cp <= MAX_CP)%Z.
Proof. intros Ha. rewrite contains_in_ranges by done. by apply in_ranges_bounds. Qed.

Lemma wf_set_ext a b :
  wf_set a -> wf_set b -> (forall cp, contains a cp = contains b cp) -> a = b.
Proof.
  intros Ha Hb Heq. destruct a as [a], b as [b]. f_equal. apply (wf_from_ext 0); [done|done|].
  intros cp. specialize (Heq cp). by rewrite !contains_in_ranges in Heq.
Qed.

Lemma wf_set_new : wf_set cps_new.
Proof. done. Qed.

#[export] Hint Resolve wf_set_new insert_wf insert_range_wf : otter.

(** ** Lemmas: ASCII members, bitmap and baked folding *)

Lemma range_list_elem lo hi x : x ∈ range_list lo hi <-> (lo <= x <= hi)%Z.
Proof. unfold range_list. rewrite elem_of_seqZ. lia. Qed.

Lemma ascii_members_spec s cp :
  wf_set s -> In cp (ascii_members s) <-> contains s cp = true /\ (cp < 128)%Z.
Proof.
  intros Hw. rewrite contains_in_ranges by done. unfold ascii_members, in_ranges.
  rewrite in_flat_map, existsb_exists. split.
  - intros (r & Hr & Hin). destruct (128 <=? r.1)%Z eqn:E; [done|].
    apply list_elem_of_In, range_list_elem in Hin. split; [|lia]. exists r. split; [done|].
    apply in_range_spec. lia.
  - intros ((r & Hr & Hin) & Hlt). boolprop. exists r. split; [done|].
    destruct (128 <=? r.1)%Z eqn:E; [lia|]. apply list_elem_of_In, range_list_elem. lia.
Qed.

Lemma testbit_fold_lor l bits i :
  (0 <= i)%Z -> Forall (fun x => 0 <= x)%Z l ->
  Z.testbit (fold_left (fun b cp => Z.lor b (Z.shiftl 1 cp)) l bits) i
  = Z.testbit bits i || existsb (Z.eqb i) l.
Proof.
  intros Hi Hl. revert bits. induction Hl as [|x l Hx Hl IH]; intros bits; simpl.
  - by rewrite orb_false_r.
  - rewrite IH, Z.lor_spec, <- orb_assoc. do 2 f_equal.
    rewrite Z.shiftl_spec by done.
    destruct (i =? x)%Z eqn:E; boolprop.
    + subst. by rewrite Z.sub_diag.
    + destruct (decide (i < x)%Z).
      * by rewrite Z.testbit_neg_r by lia.
      * change 1%Z with (2 ^ 0)%Z. rewrite Z.pow2_bits_false by lia. done.
Qed.

Lemma ascii_contains_testbit c cp : (0 <= cp)%Z -> ascii_contains c cp = Z.testbit (ascii_lo c) cp.
Proof.
  intros Hcp. unfold ascii_contains.
  replace (Z.testbit (ascii_lo c) cp) with (Z.testbit (Z.shiftr (ascii_lo c) cp) 0)
    by (by rewrite Z.shiftr_spec, Z.add_0_l by lia).
  rewrite Z.bit0_odd. change 1%Z with (Z.ones 1). rewrite Z.land_ones by lia.
  change (2 ^ 1)%Z with 2%Z. rewrite Zmod_odd. by destruct (Z.odd _).
Qed.

Lemma existsb_In_Z cp l : existsb (Z.eqb cp) l = true <-> In cp l.
Proof.
  rewrite existsb_exists. split.
  - intros (x & Hx & He). boolprop. by subst.
  - intros Hin. exists cp. split; [done|]. apply Z.eqb_refl.
Qed.

Lemma finalize_ascii_contains c cp :
  wf_set (code_points c) -> (0 <= cp < 128)%Z ->
  ascii_contains (finalize_ascii c) cp = contains (code_points c) cp.
Proof.
  intros Hw Hcp. rewrite ascii_contains_testbit by lia. simpl.
  assert (Hpos : Forall (fun x => 0 <= x)%Z (ascii_members (code_points c))).
  { apply Forall_forall. intros x Hx. apply list_elem_of_In, ascii_members_spec in Hx; [|done].
    destruct Hx as [Hx _]. apply contains_bounds in Hx; [lia|done]. }
  rewrite testbit_fold_lor by (done || lia). rewrite Z.bits_0. simpl.
  apply eq_iff_eq_true. rewrite existsb_In_Z, ascii_members_spec by done. intuition lia.
Qed.

Definition fold_ascii_adds (s : CodePointSet) : list Z :=
  flat_map (fun cp => let other := ascii_other_case cp in
      if (other =? cp)%Z then [] else [other]) (ascii_members s).

Lemma fold_ascii_adds_spec s cp :
  wf_set s -> In cp (fold_ascii_adds s) <->
  contains s (ascii_other_case cp) = true /\ ascii_other_case cp <> cp /\ (cp < 128)%Z.
Proof.
  intros Hw. unfold fold_ascii_adds. rewrite in_flat_map. split.
  - intros (x & Hx & Hin). apply ascii_members_spec in Hx as [Hc Hlt]; [|done].
    pose proof (contains_bounds _ _ Hw Hc). cbv zeta in Hin.
    destruct (ascii_other_case x =? x)%Z eqn:E; [done|]. boolprop.
    destruct Hin as [<-|[]]. rewrite ascii_other_case_invol.
    pose proof (ascii_other_case_ascii x ltac:(lia)). repeat split; [done|congruence|lia].
  - intros (Hc & Hne & Hlt). exists (ascii_other_case cp). split.
    + apply ascii_members_spec; [done|]. split; [done|].
      pose proof (contains_bounds _ _ Hw Hc).
      unfold ascii_other_case, in_range in *. repeat case_match; lia.
    + cbv zeta. rewrite ascii_other_case_invol.
      destruct (cp =? ascii_other_case cp)%Z eqn:E; boolprop; [congruence|]. by left.
Qed.

Lemma fold_ascii_case_correct c cp :
  wf_set (code_points c) ->
  wf_set (code_points (fold_ascii_case c)) /\
  contains (code_points (fold_ascii_case c)) cp =
    contains (code_points c) cp || contains (code_points c) (ascii_other_case cp).
Proof.
  intros Hw. change (code_points (fold_ascii_case c)) with
    (fold_left insert (fold_ascii_adds (code_points c)) (code_points c)).
  assert (Hok : Forall (fun x => 0 <= x <= MAX_CP)%Z (fold_ascii_adds (code_points c))).
  { apply Forall_forall. intros x Hx. apply list_elem_of_In, fold_ascii_adds_spec in Hx; [|done].
    destruct Hx as (Hc & _ & Hlt). apply contains_bounds in Hc; [|done].
    unfold ascii_other_case, in_range, MAX_CP in *. repeat case_match; lia. }
  split; [by apply insert_all_wf|]. rewrite insert_all_members by done.
  destruct (contains (code_points c) cp) eqn:Ec; [done|]. simpl. apply eq_iff_eq_true.
  rewrite existsb_In_Z, fold_ascii_adds_spec by done. split; [by intros (?&_)|].
  intros Hc. split; [done|]. destruct (decide (ascii_other_case cp = cp)) as [Heq|Hne]; [congruence|].
  split; [done|]. unfold ascii_other_case, in_range in Hne. repeat case_match; lia.
Qed.

(** ** Properties *)

(** C40: the set operations of [CodePointSet] compute union, intersection,
    difference, complement within [0..=0x10FFFF] and range insertion: each
    result is again sorted, disjoint and merged, and its membership test (the
    binary search of [contains]) is the Boolean combination of the operands'. *)
Theorem codepointset_algebra a b lo hi cp :
  wf_set a -> wf_set b -> (0 <= lo)%Z -> (hi <= MAX_CP)%Z ->
  (wf_set (union_with a b) /\ wf_set (intersection a b) /\ wf_set (difference a b) /\
   wf_set (negate a) /\ wf_set (insert_range a lo hi)) /\
  contains (union_with a b) cp = contains a cp || contains b cp /\
  contains (intersection a b) cp = contains a cp && contains b cp /\
  contains (difference a b) cp = contains a cp && negb (contains b cp) /\
  contains (negate a) cp = in_range 0 MAX_CP cp && negb (contains a cp) /\
  contains (insert_range a lo hi) cp = contains a cp || in_range lo hi cp.
Proof.
  intros Ha Hb Hlo Hhi.
  destruct (union_with_correct a b cp Ha Hb), (intersection_correct a b cp Ha Hb),
    (negate_correct a cp Ha), (negate_correct b cp Hb) as [Hnb Hcb].
  destruct (intersection_correct a (negate b) cp Ha Hnb) as [Hd Hcd].
  repeat split; try done; [by apply insert_range_wf| |by apply insert_range_members].
  unfold difference. rewrite Hcd, Hcb. destruct (contains a cp) eqn:E; [|done].
  apply contains_bounds in E; [|done]. by rewrite (proj2 (in_range_spec 0 MAX_CP cp)).
Qed.

(** The witness sets: lower-case letters, and letters with digits. *)
Definition set_az : CodePointSet := insert_range cps_new 97 122.
Definition set_alnum : CodePointSet := insert_range (insert_range cps_new 48 57) 97 109.

Lemma codepointset_algebra_witness :
  contains (difference set_az set_alnum) 110 = true /\ ranges (negate set_az) = [(0, 96); (123, 1114111)]%Z.
Proof.
  split; [|vm_compute; reflexivity].
  destruct (codepointset_algebra set_az set_alnum 5 9 110) as (_ & _ & _ & Hd & _).
  - vm_compute. intuition discriminate.
  - vm_compute. intuition discriminate.
  - lia.
  - unfold MAX_CP; lia.
  - rewrite Hd. vm_compute. reflexivity.
Defined.

(** The range representation is canonical: two well-formed sets with the
    same members are the same vector of ranges, so complementing twice gives
    the set back (what the [negate_round_trips] unit test samples). *)
Theorem codepointset_canonical a b :
  wf_set a -> wf_set b ->
  ((forall cp, contains a cp = contains b cp) <-> a = b) /\ negate (negate a) = a.
Proof.
  intros Ha Hb. split.
  - split; [by apply wf_set_ext|by intros ->].
  - destruct (negate_correct a 0 Ha) as [Hn _]. apply wf_set_ext; [apply (negate_correct _ 0 Hn)|done|].
    intros cp. rewrite (proj2 (negate_correct _ cp Hn)), (proj2 (negate_correct a cp Ha)).
    destruct (contains a cp) eqn:E.
    + apply contains_bounds in E; [|done]. by rewrite (proj2 (in_range_spec 0 MAX_CP cp)).
    + by destruct (in_range 0 MAX_CP cp).
Qed.

Lemma codepointset_canonical_witness : negate (negate set_alnum) = set_alnum.
Proof. apply (codepointset_canonical set_alnum set_az); vm_compute; intuition discriminate. Defined.

(** Baking the ASCII case closure into a class ([fold_ascii_case]) and
    precomputing its bitmap ([finalize_ascii]) are exact: after both, the plain
    membership test, through the bitmap for ASCII and the ranges above it,
    answers what the non-Unicode [i]-flag test answers on the original class. *)
Theorem class_ascii_folding_exact c cp :
  wf_set (code_points c) -> (0 <= cp)%Z ->
  let c' := finalize_ascii (fold_ascii_case c) in
  (if (cp <? 128)%Z then ascii_contains c' cp else contains (code_points c') cp) =
  contains (code_points c) cp || contains (code_points c) (ascii_other_case cp).
Proof.
  intros Hw Hcp c'. destruct (fold_ascii_case_correct c cp Hw) as [Hw' Hf].
  destruct (cp <? 128)%Z eqn:E; [|exact Hf].
  unfold c'. rewrite finalize_ascii_contains by (done || lia). exact Hf.
Qed.

Lemma class_ascii_folding_exact_witness :
  ascii_contains (finalize_ascii (fold_ascii_case (from_code_points set_az))) 65 = true.
Proof.
  exact (class_ascii_folding_exact (from_code_points set_az) 65
    ltac:(vm_compute; intuition discriminate) ltac:(lia)).
Defined.
