(* ===== verification/Program.v ===== *)
(** * The pattern tree and the matcher program

    Models [src/crates/otter-regex/src/parser/ast.rs] (module [Node]: the
    pattern tree, quantifiers, assertions, group kinds) and [program.rs]
    (module [Insn]: the matcher instructions; [Prefilter]; [Program]).
    Instruction indices, slots and group numbers are [nat]; code points and
    repeat bounds are [Z].  The theorem at the end shows that the scan
    prefilter's table, high set and single-literal form all answer membership
    in the set it was built from. *)

From S2P Require Import Prelude Unicode Classes.

#[local] Set Warnings "-register-all".

(** ** parser/ast.rs *)

Record Quantifier : Type := mkQuant { qmin : Z; qmax : option Z; qgreedy : bool }.

Inductive Assertion : Type :=
| StartOfLine (multiline : bool)
| EndOfLine (multiline : bool)
| WordBoundary (invert ignore_case : bool).

Inductive GroupKind : Type :=
| Capturing (index : nat) (name : option (list Z))
| NonCapturing
| Lookahead (negate : bool)
| Lookbehind (negate : bool).

Module Node.
Inductive Node : Type :=
| Empty
| Char (cp : Z) (ignore_case : bool)
| AnyChar (dot_all : bool)
| Class (set : ClassSet) (negate ignore_case : bool)
| Assert (a : Assertion)
| BackRef (indices : list nat) (ignore_case : bool)
| Concat (nodes : list Node)
| Alternate (alts : list Node)
| Repeat (node : Node) (quant : Quantifier)
| Group (kind : GroupKind) (body : Node).
End Node.
Abbreviation Node := Node.Node.

(** ** parser/mod.rs: the parser's output and its repeat ceiling *)

Definition MAX_REPEAT : Z := 100000.

Record Parsed : Type := mkParsed {
  root : Node;
  parsed_group_count : nat;
  parsed_group_names : list (option (list Z))
}.

(** ** program.rs *)

Inductive RepeatAtom : Type :=
| AtomChar (cp : Z) (ignore_case : bool)
| AtomClass (class : nat) (negate ignore_case : bool)
| AtomAny (dot_all : bool).

Module Insn.
Inductive Insn : Type :=
| Char (cp : Z) (ignore_case : bool)
| Class (class : nat) (negate ignore_case : bool)
| CharSeq (seq : list Z)
| AnyChar (dot_all : bool)
| Repeat (atom : RepeatAtom) (min : Z) (greedy possessive : bool)
| Fail
| Jump (target : nat)
| Split (a b : nat)
| Save (index : nat)
| ClearCapture (index : nat)
| SetMark (index : nat)
| CheckProgress (index : nat)
| BackRef (indices : list nat) (ignore_case : bool)
| AssertStart (multiline : bool)
| AssertEnd (multiline : bool)
| WordBoundary (invert ignore_case : bool)
| Look (negate behind : bool) (entry : nat)
| LookMatch
| Match.
End Insn.
Abbreviation Insn := Insn.Insn.

Record Prefilter : Type := mkPrefilter {
  table : list bool;
  has_high : bool;
  high : CodePointSet;
  single : option Z;
  canon_mode : option bool
}.

Definition TABLE : Z := 256.

(** The inner loops of [Prefilter::build]: set every table entry of a range. *)
Definition table_members (s : CodePointSet) : list Z :=
  flat_map (fun r : Z * Z => range_list r.1 (Z.min r.2 (TABLE - 1))) (ranges s).

Definition prefilter_build (s : CodePointSet) (canon : option bool) : Prefilter :=
  mkPrefilter
    (fold_left (fun t cp => <[Z.to_nat cp := true]> t) (table_members s) (replicate 256 false))
    (existsb (fun r : Z * Z => TABLE <=? r.2)%Z (ranges s))
    s
    (match canon, ranges s with
     | None, [r] =>
         if ((r.1 =? r.2) && (r.1 <? 65536))%Z && negb (in_range 55296 57343 r.1)
         then Some r.1 else None
     | _, _ => None
     end)
    canon.

Definition from_set (s : CodePointSet) : Prefilter := prefilter_build s None.
Definition from_set_canon (s : CodePointSet) (uni : bool) : Prefilter :=
  prefilter_build s (Some uni).

Definition cp_may_start `{Icu} (pf : Prefilter) (cp : Z) : bool :=
  let cp := match canon_mode pf with
            | Some true => fold_unicode cp
            | Some false => canonicalize cp
            | None => cp
            end in
  if (cp <? TABLE)%Z then default false (table pf !! Z.to_nat cp)
  else has_high pf && contains (high pf) cp.

Record Program : Type := mkProgram {
  insns : list Insn;
  classes : list ClassSet;
  group_count : nat;
  names : list (list Z);
  prog_unicode : bool;
  loop_marks : nat;
  prefilter : option Prefilter;
  lead_possessive : bool
}.

Definition slot_count (p : Program) : nat := 2 * (group_count p + 1) + loop_marks p.

(** ** Specification *)

(** The fold a case-insensitive prefilter applies to its input. *)
Definition canon_of `{Icu} (canon : option bool) (cp : Z) : Z :=
  match canon with
  | Some true => fold_unicode cp
  | Some false => canonicalize cp
  | None => cp
  end.

(** ** Lemmas *)

(** Induction over the pattern tree, with the hypothesis on every child of a
    concatenation or alternation. *)
Section NodeInd.
Variable P : Node -> Prop.
Hypothesis Hempty : P Node.Empty.
Hypothesis Hchar : forall cp ic, P (Node.Char cp ic).
Hypothesis Hany : forall da, P (Node.AnyChar da).
Hypothesis Hclass : forall s n ic, P (Node.Class s n ic).
Hypothesis Hassert : forall a, P (Node.Assert a).
Hypothesis Hbackref : forall l ic, P (Node.BackRef l ic).
Hypothesis Hconcat : forall l, Forall P l -> P (Node.Concat l).
Hypothesis Halt : forall l, Forall P l -> P (Node.Alternate l).
Hypothesis Hrepeat : forall n q, P n -> P (Node.Repeat n q).
Hypothesis Hgroup : forall k n, P n -> P (Node.Group k n).

Fixpoint node_ind' (n : Node) : P n :=
  let all := fix all (l : list Node) : Forall P l :=
    match l with
    | [] => Forall_nil_2 _
    | x :: l => Forall_cons_2 _ _ _ (node_ind' x) (all l)
    end in
  match n with
  | Node.Empty => Hempty
  | Node.Char cp ic => Hchar cp ic
  | Node.AnyChar da => Hany da
  | Node.Class s n ic => Hclass s n ic
  | Node.Assert a => Hassert a
  | Node.BackRef l ic => Hbackref l ic
  | Node.Concat l => Hconcat l (all l)
  | Node.Alternate l => Halt l (all l)
  | Node.Repeat n q => Hrepeat n q (node_ind' n)
  | Node.Group k n => Hgroup k n (node_ind' n)
  end.
End NodeInd.

Lemma table_fold_lookup l t i :
  i < length t -> Forall (fun x => 0 <= x)%Z l ->
  fold_left (fun t cp => <[Z.to_nat cp := true]> t) l t !! i =
  (fun b => b || existsb (Z.eqb (Z.of_nat i)) l) <$> (t !! i).
Proof.
  intros Hi Hl. revert t Hi. induction Hl as [|x l Hx Hl IH]; intros t Hi; simpl.
  - destruct (t !! i); simpl; [by rewrite orb_false_r|done].
  - rewrite IH by (by rewrite length_insert). destruct (decide (Z.to_nat x = i)) as [<-|Hne].
    + rewrite list_lookup_insert_eq by done. destruct (lookup_lt_is_Some_2 t _ Hi) as [b ->]. simpl.
      rewrite Z2Nat.id, Z.eqb_refl by done. by rewrite orb_true_r.
    + rewrite list_lookup_insert_ne by done. destruct (t !! i); simpl; [|done].
      destruct (Z.of_nat i =? x)%Z eqn:E; [lia|done].
Qed.

Lemma table_members_spec s cp :
  wf_set s -> In cp (table_members s) <-> contains s cp = true /\ (cp < TABLE)%Z.
Proof.
  intros Hw. rewrite contains_in_ranges by done. unfold table_members, in_ranges.
  rewrite in_flat_map, existsb_exists. split.
  - intros (r & Hr & Hin). apply list_elem_of_In, range_list_elem in Hin. split; [|lia].
    exists r. split; [done|]. apply in_range_spec. lia.
  - intros ((r & Hr & Hin) & Hlt). boolprop. exists r. split; [done|].
    apply list_elem_of_In, range_list_elem. lia.
Qed.

Lemma has_high_spec s cp :
  wf_set s -> contains s cp = true -> (TABLE <= cp)%Z ->
  existsb (fun r : Z * Z => TABLE <=? r.2)%Z (ranges s) = true.
Proof.
  intros Hw. rewrite contains_in_ranges by done. unfold in_ranges.
  intros (r & Hr & Hin)%existsb_exists Hge. apply existsb_exists. exists r.
  boolprop. split; [done|]. lia.
Qed.

Lemma prefilter_table s canon cp :
  wf_set s -> (0 <= cp < TABLE)%Z ->
  table (prefilter_build s canon) !! Z.to_nat cp = Some (contains s cp).
Proof.
  intros Hw Hcp. unfold TABLE in Hcp. unfold prefilter_build. cbn [table]. rewrite table_fold_lookup.
  - rewrite lookup_replicate_2 by lia. simpl. f_equal. apply eq_iff_eq_true.
    rewrite Z2Nat.id by lia. rewrite existsb_In_Z, table_members_spec by done.
    unfold TABLE. intuition lia.
  - rewrite length_replicate. lia.
  - apply Forall_forall. intros x Hx. apply list_elem_of_In, table_members_spec in Hx; [|done].
    destruct Hx as [Hx _]. apply contains_bounds in Hx; [lia|done].
Qed.

Lemma cp_may_start_exact `{Icu} s canon cp :
  wf_set s -> (0 <= canon_of canon cp)%Z ->
  cp_may_start (prefilter_build s canon) cp = contains s (canon_of canon cp).
Proof.
  intros Hw Hcp. unfold cp_may_start. change (canon_mode (prefilter_build s canon)) with canon.
  change (match canon with Some true => fold_unicode cp | Some false => canonicalize cp | None => cp end)
    with (canon_of canon cp). set (c := canon_of canon cp) in *.
  destruct (c <? TABLE)%Z eqn:E; [by rewrite prefilter_table by (done || lia)|].
  simpl. destruct (contains s c) eqn:Ec; [|apply andb_false_r].
  rewrite (has_high_spec s c) by (done || lia). done.
Qed.

Lemma single_exact s canon u :
  wf_set s -> single (prefilter_build s canon) = Some u ->
  canon = None /\ (0 <= u < 65536)%Z /\ in_range 55296 57343 u = false /\
  forall x, contains s x = (x =? u)%Z.
Proof.
  intros Hw. simpl. destruct canon; [done|].
  destruct (ranges s) as [|[a b] [|? ?]] eqn:Er; try done. simpl.
  destruct ((a =? b) && (a <? 65536))%Z eqn:E; [|done]. simpl.
  destruct (in_range 55296 57343 a) eqn:Es; [done|]. simpl. intros [= <-]. boolprop. subst b.
  assert (Hw' := Hw). unfold wf_set in Hw'. rewrite Er in Hw'. simpl in Hw'.
  split; [done|]. split; [lia|]. split; [apply in_range_false; done|].
  intros x. rewrite contains_in_ranges by done. rewrite Er. simpl. unfold in_range. lia.
Qed.

(** ** Properties *)

(** The prefilter is exact: for any decoded code point whose fold is not
    negative, [cp_may_start] answers whether the folded code point is in the
    set the prefilter was built from, and a single-literal prefilter denotes
    exactly that one BMP, non-surrogate code unit. *)
Theorem prefilter_exact `{Icu} s canon cp :
  wf_set s -> (0 <= canon_of canon cp)%Z ->
  cp_may_start (prefilter_build s canon) cp = contains s (canon_of canon cp) /\
  (forall u, single (prefilter_build s canon) = Some u ->
     canon = None /\ (0 <= u < 65536)%Z /\ in_range 55296 57343 u = false /\
     forall x, contains s x = (x =? u)%Z).
Proof.
  intros Hw Hcp. split; [by apply cp_may_start_exact|]. intros u. by apply single_exact.
Qed.

Lemma prefilter_exact_witness :
  @cp_may_start ascii_icu (prefilter_build set_az (Some false)) 65 = true /\
  single (prefilter_build (insert cps_new 97) None) = Some 97%Z.
Proof.
  split; [|vm_compute; reflexivity].
  destruct (@prefilter_exact ascii_icu set_az (Some false) 65) as [H _].
  - vm_compute. intuition discriminate.
  - vm_compute. discriminate.
  - rewrite H. vm_compute. reflexivity.
Defined.
