(* ===== verification/Parser.v ===== *)
(** * The pattern parser

    Models [src/crates/otter-regex/src/parser/mod.rs] and the property
    resolution of [unicode/mod.rs] and [unicode/string_props.rs]: the pre-scan
    that numbers and names the capturing groups, the recursive-descent grammar
    with its nesting limit, quantifiers, escapes, legacy and [v]-mode classes,
    and the duplicate-name check.

    A [&mut self] method takes the [Parser] record and returns it with its
    result; [?] is [let*].  An [expect], an index out of range and the like are
    [Panic].  Loops and the mutual recursion take fuel ([OutOfFuel] when it runs
    out); [parse] starts with [parse_fuel]. *)

From Stdlib Require Import String.
From S2P Require Import Prelude Unicode Classes Program.

Definition MAX_NESTING_DEPTH : nat := 1000.

Record Parser : Type := mkParser {
  p_units : list Z;
  pos : nat;
  p_flags : Flags;
  depth : nat;
  total_groups : nat;
  p_group_names : list (option (list Z));
  next_group : nat
}.

Definition with_pos (n : nat) (p : Parser) : Parser :=
  mkParser (p_units p) n (p_flags p) (depth p) (total_groups p) (p_group_names p) (next_group p).
Definition with_flags (f : Flags) (p : Parser) : Parser :=
  mkParser (p_units p) (pos p) f (depth p) (total_groups p) (p_group_names p) (next_group p).
Definition with_depth (n : nat) (p : Parser) : Parser :=
  mkParser (p_units p) (pos p) (p_flags p) n (total_groups p) (p_group_names p) (next_group p).
Definition with_next_group (n : nat) (p : Parser) : Parser :=
  mkParser (p_units p) (pos p) (p_flags p) (depth p) (total_groups p) (p_group_names p) n.

(** [self.pos += n]. *)
Definition bump (n : nat) (p : Parser) : Parser := with_pos (pos p + n) p.

Definition parser_new (us : list Z) (f : Flags) : Parser := mkParser us 0 f 0 0 [] 0.

(** The result of a parsing method. *)
Definition PM (A : Type) : Type := res RegexError (A * Parser).

Definition p_unicode (p : Parser) : bool := is_unicode_mode (p_flags p).
Definition p_err {A} (p : Parser) (msg : string) : res RegexError A := Err (Syntax msg (Some (pos p))).
Arguments p_err {A} p msg%_string_scope.

Definition peek (p : Parser) : option Z := p_units p !! pos p.
Definition peek_at (off : nat) (p : Parser) : option Z := p_units p !! (pos p + off).

(** [x == Some(b'c' as u16)]. *)
Definition is_ch (c : ascii) (o : option Z) : bool :=
  match o with Some u => (u =? b8 c)%Z | None => false end.
Arguments is_ch c%_char_scope o.

(** [eat]: whether the unit was there, and the parser after it. *)
Definition eat (c : ascii) (p : Parser) : bool * Parser :=
  if is_ch c (peek p) then (true, bump 1 p) else (false, p).
Arguments eat c%_char_scope p.

Definition char_node (p : Parser) (cp : Z) : Node := Node.Char cp (ignore_case (p_flags p)).
Definition class_node (p : Parser) (set : ClassSet) (neg : bool) : Node :=
  Node.Class set neg (ignore_case (p_flags p)).
Definition backref_node (p : Parser) (indices : list nat) : Node :=
  Node.BackRef indices (ignore_case (p_flags p)).

(** ** Decimal bounds *)

Definition is_digit (c : Z) : bool := in_range 48 57 c.
Definition is_octal (c : Z) : bool := in_range 48 55 c.

(** Lexicographic comparison of equal-length digit strings. *)
Fixpoint lex_cmp (a b : list Z) : comparison :=
  match a, b with
  | [], [] => Eq
  | [], _ => Lt
  | _, [] => Gt
  | x :: a, y :: b => match Z.compare x y with Eq => lex_cmp a b | c => c end
  end.

Definition decimal_digits_cmp (a b : list Z) : comparison :=
  match Nat.compare (length a) (length b) with Eq => lex_cmp a b | c => c end.

Fixpoint digits_loop (value : Z) (digits : list Z) : Z :=
  match digits with
  | [] => value
  | d :: digits =>
      match u32_checked (value * 10)%Z with
      | Some scaled =>
          match u32_checked (scaled + d)%Z with
          | Some next => digits_loop next digits
          | None => u32_max
          end
      | None => u32_max
      end
  end.
Definition decimal_digits_to_u32 (digits : list Z) : Z := digits_loop 0 digits.

(** The run of digits at the cursor, as values. *)
Fixpoint digit_run (l : list Z) : list Z :=
  match l with
  | c :: l => if is_digit c then (c - 48)%Z :: digit_run l else []
  | [] => []
  end.

Fixpoint strip_zeros (l : list Z) : list Z :=
  match l with
  | 0%Z :: l => strip_zeros l
  | _ => l
  end.

Definition read_decimal_digits (p : Parser) : list Z * Parser :=
  let run := digit_run (drop (pos p) (p_units p)) in
  (strip_zeros run, bump (length run) p).

Definition read_decimal (p : Parser) : Z * Parser :=
  let run := digit_run (drop (pos p) (p_units p)) in
  (fold_left (fun v d => Z.min (v * 10 + d) u32_max) run 0%Z, bump (length run) p).

(** ** Group names *)

Definition hex_digit (c : Z) : option Z :=
  if in_range 48 57 c then Some (c - 48)%Z
  else if in_range 97 102 c then Some (c - 97 + 10)%Z
  else if in_range 65 70 c then Some (c - 65 + 10)%Z
  else None.

(** [char::from_u32(cp).map(|ch| (ch, next))]. *)
Definition scalar_at (cp : Z) (next : nat) : option (Z * nat) :=
  if is_scalar cp then Some (cp, next) else None.

Fixpoint fixed_hex (n : nat) (us : list Z) (i : nat) (value : Z) : option (Z * nat) :=
  match n with
  | 0 => Some (value, i)
  | S n =>
      match us !! i with
      | None => None
      | Some c =>
          match hex_digit c with
          | None => None
          | Some d => fixed_hex n us (S i) (value * 16 + d)%Z
          end
      end
  end.
Definition read_group_name_fixed_hex (us : list Z) (start : nat) : option (Z * nat) :=
  fixed_hex 4 us start 0%Z.

(** The [\u{...}] loop; the value stays below [0x10FFFF], so the checked
    operations of the source never fail on their own. *)
Fixpoint braced_hex (fuel : nat) (us : list Z) (i : nat) (value : Z) (any : bool) : option (Z * nat) :=
  match fuel with
  | 0 => None
  | S fuel =>
      match us !! i with
      | None => None
      | Some c =>
          if (c =? b8 "}")%Z then if any then scalar_at value (S i) else None
          else match hex_digit c with
               | None => None
               | Some d =>
                   let value := (value * 16 + d)%Z in
                   if (1114111 <? value)%Z then None
                   else braced_hex fuel us (S i) value true
               end
      end
  end.

Definition read_group_name_unicode_escape (us : list Z) (start : nat) : option (Z * nat) :=
  if is_ch "{" (us !! start) then braced_hex (S (length us)) us (S start) 0%Z false
  else
    match read_group_name_fixed_hex us start with
    | None => None
    | Some (hi, next) =>
        if is_high_surrogate hi && is_ch "\" (us !! next) && is_ch "u" (us !! (next + 1)) then
          match read_group_name_fixed_hex us (next + 2) with
          | Some (lo, after) =>
              if is_low_surrogate lo then scalar_at (combine_surrogates hi lo) after
              else scalar_at hi next
          | None => scalar_at hi next
          end
        else scalar_at hi next
    end.

Definition read_group_name_code_point (us : list Z) (start : nat) : option (Z * nat) :=
  match us !! start with
  | None => None
  | Some hi =>
      match us !! (start + 1) with
      | Some lo =>
          if is_high_surrogate hi && is_low_surrogate lo
          then scalar_at (combine_surrogates hi lo) (start + 2)
          else scalar_at hi (start + 1)
      | None => scalar_at hi (start + 1)
      end
  end.

Section Icu.
Context `{Icu}.

Definition is_group_name_start (c : Z) : bool :=
  (c =? b8 "$")%Z || (c =? b8 "_")%Z || is_xid_start c.
Definition is_group_name_continue (c : Z) : bool :=
  is_group_name_start c || is_xid_continue c || ((c =? 8204) || (c =? 8205))%Z.

Fixpoint group_name_loop (fuel : nat) (us : list Z) (i : nat) (name : list Z) (first : bool)
    : option (list Z * nat) :=
  match fuel with
  | 0 => None
  | S fuel =>
      match us !! i with
      | None => None
      | Some c =>
          if (c =? b8 ">")%Z then match name with [] => None | _ => Some (name, S i) end
          else
            match (if (c =? b8 "\")%Z && is_ch "u" (us !! (i + 1))
                   then read_group_name_unicode_escape us (i + 2)
                   else read_group_name_code_point us i) with
            | None => None
            | Some (ch, next) =>
                if (if first then is_group_name_start ch else is_group_name_continue ch)
                then group_name_loop fuel us next (name ++ [ch]) false
                else None
            end
      end
  end.
Definition read_group_name (us : list Z) (start : nat) : option (list Z * nat) :=
  group_name_loop (S (length us)) us start [] true.

(** ** Pre-scan *)

(** The loop: index, whether a class is open, and the names found so far (the
    group count is their number). *)
Fixpoint prescan_loop (fuel : nat) (us : list Z) (i : nat) (in_class : bool)
    (names : list (option (list Z))) : res RegexError (list (option (list Z))) :=
  match fuel with
  | 0 => OutOfFuel
  | S fuel =>
      match us !! i with
      | None => Ok names
      | Some c =>
          if (c =? b8 "\")%Z then prescan_loop fuel us (i + 2) in_class names
          else if in_class then
            prescan_loop fuel us (i + 1) (negb (c =? b8 "]")%Z) names
          else if (c =? b8 "[")%Z then prescan_loop fuel us (i + 1) true names
          else if (c =? b8 "(")%Z then
            if is_ch "?" (us !! (i + 1)) then
              if is_ch "<" (us !! (i + 2)) && negb (is_ch "=" (us !! (i + 3)))
                 && negb (is_ch "!" (us !! (i + 3))) then
                match read_group_name us (i + 3) with
                | None => Err (Syntax "invalid group name" (Some (i + 3)))
                | Some (name, next) => prescan_loop fuel us next in_class (names ++ [Some name])
                end
              else prescan_loop fuel us (i + 1) in_class names
            else prescan_loop fuel us (i + 1) in_class (names ++ [None])
          else prescan_loop fuel us (i + 1) in_class names
      end
  end.

Definition prescan (p : Parser) : res RegexError Parser :=
  let* names := prescan_loop (S (length (p_units p))) (p_units p) 0 false [] in
  Ok (mkParser (p_units p) (pos p) (p_flags p) (depth p) (length names) names (next_group p)).
End Icu.

Definition name_to_indices (p : Parser) (name : list Z) : list nat :=
  omap (fun x => x) (imap (fun idx n => if bool_decide (n = Some name) then Some (idx + 1) else None)
    (p_group_names p)).

Definition enter (p : Parser) : res RegexError Parser :=
  if MAX_NESTING_DEPTH <? depth p + 1 then Err (TooDeep MAX_NESTING_DEPTH)
  else Ok (with_depth (depth p + 1) p).
Definition leave (p : Parser) : Parser := with_depth (depth p - 1) p.

(** ** Quantifiers *)

Definition looks_like_quantifier (p : Parser) : bool :=
  is_ch "{" (peek p) &&
  let run := digit_run (drop (pos p + 1) (p_units p)) in
  match run with
  | [] => false
  | _ =>
      let c := p_units p !! (pos p + 1 + length run) in
      is_ch "}" c || is_ch "," c
  end.

Definition peek_is_quantifier (p : Parser) : bool :=
  is_ch "*" (peek p) || is_ch "+" (peek p) || is_ch "?" (peek p) ||
  (is_ch "{" (peek p) && looks_like_quantifier p).

Definition is_assertion_node (n : Node) : bool :=
  match n with
  | Node.Assert _ => true
  | Node.Group (Lookahead _) _ | Node.Group (Lookbehind _) _ => true
  | _ => false
  end.

(** [parse_brace_quantifier]: bounds, and whether they are inverted. *)
Definition parse_brace_quantifier (p : Parser) : PM (Z * option Z * bool) :=
  let p := bump 1 p in
  let (min, p) := read_decimal_digits p in
  let (comma, p) := eat "," p in
  let (max, p) :=
    if comma then
      if is_ch "}" (peek p) then (None, p)
      else let (m, p) := read_decimal_digits p in (Some m, p)
    else (Some min, p) in
  let (close, p) := eat "}" p in
  if close then
    let inverted := match max with
                    | Some m => match decimal_digits_cmp m min with Lt => true | _ => false end
                    | None => false
                    end in
    Ok ((decimal_digits_to_u32 min, decimal_digits_to_u32 <$> max, inverted), p)
  else p_err p "unterminated quantifier".

Definition maybe_quantify (atom : Node) (p : Parser) : PM Node :=
  if p_unicode p && is_assertion_node atom && peek_is_quantifier p then
    p_err p "quantifier may not follow an assertion in unicode mode"
  else
    let finish (q : Z * option Z * bool) (p : Parser) : PM Node :=
      let '(min, max, inverted) := q in
      let (lazy, p) := eat "?" p in
      if inverted then p_err p "quantifier min exceeds max"
      else Ok (Node.Repeat atom (mkQuant min max (negb lazy)), p) in
    if is_ch "*" (peek p) then finish (0%Z, None, false) (bump 1 p)
    else if is_ch "+" (peek p) then finish (1%Z, None, false) (bump 1 p)
    else if is_ch "?" (peek p) then finish (0%Z, Some 1%Z, false) (bump 1 p)
    else if is_ch "{" (peek p) && looks_like_quantifier p then
      let* (q, p) := parse_brace_quantifier p in finish q p
    else Ok (atom, p).

(** ** Characters and escapes *)

Definition read_pattern_codepoint (p : Parser) : PM Z :=
  let* hi := index (p_units p) (pos p) in
  let p := bump 1 p in
  match peek p with
  | Some lo =>
      if p_unicode p && is_high_surrogate hi && is_low_surrogate lo
      then Ok (combine_surrogates hi lo, bump 1 p)
      else Ok (hi, p)
  | None => Ok (hi, p)
  end.

(** The octal digits after the first, at most [more] of them. *)
Fixpoint octal_loop (more : nat) (val : Z) (p : Parser) : Z * Parser :=
  match more with
  | 0 => (val, p)
  | S more =>
      match peek p with
      | Some c => if is_octal c then octal_loop more (val * 8 + (c - 48))%Z (bump 1 p) else (val, p)
      | None => (val, p)
      end
  end.
Definition read_legacy_octal (p : Parser) : PM Z :=
  let* c := index (p_units p) (pos p) in
  let first := (c - 48)%Z in
  Ok (octal_loop (if (first <=? 3)%Z then 2 else 1) first (bump 1 p)).

Fixpoint read_fixed_hex (n : nat) (v : Z) (p : Parser) : PM Z :=
  match n with
  | 0 => Ok (v, p)
  | S n =>
      match peek p with
      | None => p_err p "incomplete hex escape"
      | Some c =>
          match hex_digit c with
          | None => p_err p "invalid hex digit"
          | Some d => read_fixed_hex n (v * 16 + d)%Z (bump 1 p)
          end
      end
  end.

(** The digits of [\u{...}] up to the brace. *)
Fixpoint braced_escape (fuel : nat) (v : Z) (any : bool) (p : Parser) : PM (Z * bool) :=
  match fuel with
  | 0 => OutOfFuel
  | S fuel =>
      match peek p with
      | None => Ok ((v, any), p)
      | Some c =>
          if (c =? b8 "}")%Z then Ok ((v, any), p)
          else match hex_digit c with
               | None => p_err p "invalid hex digit"
               | Some d =>
                   let v := (Z.min u32_max (v * 16) + d)%Z in
                   if (1114111 <? v)%Z then p_err p "code point out of range"
                   else braced_escape fuel v true (bump 1 p)
               end
      end
  end.

Definition read_unicode_escape (p : Parser) : PM Z :=
  let (brace, p) := eat "{" p in
  if brace then
    if p_unicode p then
      let* ((v, any), p) := braced_escape (S (length (p_units p))) 0%Z false p in
      if any then
        let (close, p) := eat "}" p in
        if close then Ok (v, p) else p_err p "malformed \u{...} escape"
      else p_err p "malformed \u{...} escape"
    else p_err p "\u{...} requires the u flag"
  else
    let* (hi, p) := read_fixed_hex 4 0%Z p in
    if p_unicode p && is_high_surrogate hi then
      let (b1, p1) := eat "\" p in
      let (b2, p2) := eat "u" p1 in
      if b1 && b2 then
        match read_fixed_hex 4 0%Z p2 with
        | Ok (lo, p3) =>
            if is_low_surrogate lo then Ok (combine_surrogates hi lo, p3) else Ok (hi, p)
        | _ => Ok (hi, p)
        end
      else Ok (hi, p)
    else Ok (hi, p).

(** [c as u8 as char] keeps the low byte; the final test excludes the rest. *)
Definition is_syntax_char (c : Z) : bool :=
  existsb (Z.eqb (c mod 256)%Z) (chars "^$\.*+?()[]{}|") && (c <? 128)%Z.

(** [\cX]: [None] leaves the letter to the caller. *)
Definition control_letter (p : Parser) (in_class : bool) : option Z :=
  match peek_at 1 p with
  | Some l =>
      if in_range 65 90 l || in_range 97 122 l then Some (l mod 32)%Z
      else if in_class && negb (p_unicode p) && (is_digit l || (l =? b8 "_")%Z)
      then Some (l mod 32)%Z
      else None
  | None => None
  end.

Definition parse_char_escape (in_class : bool) (p : Parser) : PM Z :=
  match peek p with
  | None => Panic (* expect("char escape at end") *)
  | Some c =>
      if (c =? b8 "n")%Z then Ok (10%Z, bump 1 p)
      else if (c =? b8 "t")%Z then Ok (9%Z, bump 1 p)
      else if (c =? b8 "r")%Z then Ok (13%Z, bump 1 p)
      else if (c =? b8 "f")%Z then Ok (12%Z, bump 1 p)
      else if (c =? b8 "v")%Z then Ok (11%Z, bump 1 p)
      else if (c =? b8 "0")%Z then
        if match peek_at 1 p with Some d => is_digit d | None => false end then
          if p_unicode p then p_err p "invalid escape: \0 followed by a digit"
          else read_legacy_octal p
        else Ok (0%Z, bump 1 p)
      else if (c =? b8 "x")%Z then
        let p := bump 1 p in
        let two_hex :=
          match peek p, peek_at 1 p with
          | Some a, Some b =>
              match hex_digit a, hex_digit b with Some _, Some _ => true | _, _ => false end
          | _, _ => false
          end in
        if negb (p_unicode p) && negb two_hex then Ok (b8 "x", p)
        else read_fixed_hex 2 0%Z p
      else if (c =? b8 "u")%Z then
        let p := bump 1 p in
        if p_unicode p then read_unicode_escape p
        else match read_unicode_escape p with
             | Err _ => Ok (b8 "u", p)
             | r => r
             end
      else if (c =? b8 "c")%Z then
        match control_letter p in_class with
        | Some v => Ok (v, bump 2 p)
        | None =>
            if p_unicode p then p_err p "invalid \c escape" else Ok (b8 "\", p)
        end
      else if p_unicode p && negb (is_syntax_char c) && negb (c =? b8 "/")%Z
              && negb (in_class && (c =? b8 "-")%Z) then
        p_err p "invalid identity escape"
      else read_pattern_codepoint p
  end.

Definition parse_class_char_escape (p : Parser) : PM Z :=
  if is_ch "b" (peek p) then Ok (8%Z, bump 1 p)
  else if negb (p_unicode p) &&
          match peek p with Some c => in_range 49 55 c | None => false end
  then read_legacy_octal p
  else parse_char_escape true p.

Definition digit_set : CodePointSet := insert_range cps_new 48 57.
Definition word_set : CodePointSet :=
  insert (insert_range (insert_range (insert_range cps_new 48 57) 65 90) 97 122) 95.
Definition space_set : CodePointSet :=
  insert_range (fold_left insert
    [9; 10; 11; 12; 13; 32; 160; 5760; 8232; 8233; 8239; 8287; 12288; 65279]%Z cps_new)
    8192 8202.

(** ** Property escapes (unicode/mod.rs, unicode/string_props.rs) *)

(** [String::from_utf16_lossy]. *)
Fixpoint utf16_lossy (us : list Z) : list Z :=
  match us with
  | [] => []
  | hi :: rest =>
      match rest with
      | lo :: rest' =>
          if is_high_surrogate hi && is_low_surrogate lo
          then combine_surrogates hi lo :: utf16_lossy rest'
          else (if in_range 55296 57343 hi then 65533%Z else hi) :: utf16_lossy rest
      | [] => [if in_range 55296 57343 hi then 65533%Z else hi]
      end
  end.

Definition is_name (s : string) (n : list Z) : bool := bool_decide (n = chars s).
Arguments is_name s%_string_scope n.

Definition general_category_group (v : list Z) : option GeneralCategoryGroup :=
  if is_name "L" v || is_name "Letter" v then Some GcLetter
  else if is_name "LC" v || is_name "Cased_Letter" v then Some GcCasedLetter
  else if is_name "M" v || is_name "Mark" v || is_name "Combining_Mark" v then Some GcMark
  else if is_name "N" v || is_name "Number" v then Some GcNumber
  else if is_name "P" v || is_name "Punctuation" v || is_name "punct" v then Some GcPunctuation
  else if is_name "S" v || is_name "Symbol" v then Some GcSymbol
  else if is_name "Z" v || is_name "Separator" v then Some GcSeparator
  else if is_name "C" v || is_name "Other" v then Some GcOther
  else None.

Definition unknown_property {A} : res RegexError A := Err (Syntax "unknown Unicode property" None).

Definition some_or_unknown {A} (o : option A) : res RegexError A :=
  match o with Some a => Ok a | None => unknown_property end.

Section Properties.
Context `{Icu}.

Definition general_category (v : list Z) : option CodePointSet :=
  match gc_strict_set v with
  | Some l => Some (from_ranges l)
  | None => (fun g => from_ranges (gc_group_set g)) <$> general_category_group v
  end.

Definition binary_or_general_category (name : list Z) : option CodePointSet :=
  if is_name "Any" name then Some (insert_range cps_new 0 MAX_CP)
  else if is_name "ASCII" name then Some (insert_range cps_new 0 127)
  else if is_name "Assigned" name then negate <$> general_category (chars "Cn")
  else
    let name := if is_name "space" name then chars "White_Space" else name in
    match new_for_ecma262 name with
    | Some l => Some (from_ranges l)
    | None => general_category name
    end.

Definition script (v : list Z) (extensions : bool) : option CodePointSet :=
  from_ranges <$> (if extensions then script_strict_ext v else script_strict_set v).

(** The error's message also quotes the name; the model keeps its constant part. *)
Definition resolve_property (name : list Z) (value : option (list Z))
    : res RegexError CodePointSet :=
  match value with
  | None => some_or_unknown (binary_or_general_category name)
  | Some v =>
      if is_name "General_Category" name || is_name "gc" name then
        some_or_unknown (general_category v)
      else if is_name "Script" name || is_name "sc" name then some_or_unknown (script v false)
      else if is_name "Script_Extensions" name || is_name "scx" name then
        some_or_unknown (script v true)
      else unknown_property
  end.

Definition string_property (name : list Z) : option (option EmojiTable) :=
  if is_name "Basic_Emoji" name then Some (Some BASIC_EMOJI)
  else if is_name "Emoji_Keycap_Sequence" name then Some (Some EMOJI_KEYCAP_SEQUENCE)
  else if is_name "RGI_Emoji" name then Some None
  else if is_name "RGI_Emoji_Flag_Sequence" name then Some (Some RGI_EMOJI_FLAG_SEQUENCE)
  else if is_name "RGI_Emoji_Modifier_Sequence" name then Some (Some RGI_EMOJI_MODIFIER_SEQUENCE)
  else if is_name "RGI_Emoji_Tag_Sequence" name then Some (Some RGI_EMOJI_TAG_SEQUENCE)
  else if is_name "RGI_Emoji_ZWJ_Sequence" name then Some (Some RGI_EMOJI_ZWJ_SEQUENCE)
  else None.

Definition is_string_property (name : list Z) : bool :=
  match string_property name with Some _ => true | None => false end.

Definition class_set_from (t : EmojiTable) : ClassSet :=
  fold_left add_alternative (emoji_strings t)
    (from_code_points
       (fold_left (fun s (r : Z * Z) => insert_range s r.1 r.2) (emoji_ranges t) cps_new)).

Definition resolve_string_property (name : list Z) : res RegexError ClassSet :=
  match string_property name with
  | Some (Some t) => Ok (class_set_from t)
  | Some None =>
      Ok (fold_left (fun s t => class_union_with s (class_set_from t))
            [EMOJI_KEYCAP_SEQUENCE; RGI_EMOJI_FLAG_SEQUENCE; RGI_EMOJI_MODIFIER_SEQUENCE;
             RGI_EMOJI_TAG_SEQUENCE; RGI_EMOJI_ZWJ_SEQUENCE] (class_set_from BASIC_EMOJI))
  | None => Err (Syntax "unknown Unicode string property" None)
  end.
End Properties.

(** The scan for the closing brace: its index and the first [=] before it. *)
Fixpoint property_scan (l : list Z) (i : nat) (eq : option nat) : nat * option nat :=
  match l with
  | [] => (i, eq)
  | c :: l =>
      if (c =? b8 "}")%Z then (i, eq)
      else property_scan l (S i)
             (match eq with None => if (c =? b8 "=")%Z then Some i else None | _ => eq end)
  end.

Definition read_property_name_body (p : Parser) : PM (list Z * option (list Z)) :=
  let (brace, p) := eat "{" p in
  if brace then
    let start := pos p in
    let (close, eq) := property_scan (drop start (p_units p)) start None in
    let p := with_pos close p in
    let slice a b := utf16_lossy (take (b - a) (drop a (p_units p))) in
    let (closed, p) := eat "}" p in
    if closed then
      Ok (match eq with
          | Some eq => (slice start eq, Some (slice (eq + 1) close))
          | None => (slice start close, None)
          end, p)
    else p_err p "unterminated \p{...}"
  else p_err p "expected `{` after \p".

Section Grammar.
Context `{Icu}.

Definition parse_property_body (p : Parser) : PM CodePointSet :=
  let* ((name, value), p) := read_property_name_body p in
  let* set := resolve_property name value in
  Ok (set, p).

Definition parse_property_set_v (neg : bool) (p : Parser) : PM ClassSet :=
  let* ((name, value), p) := read_property_name_body p in
  if match value with None => true | _ => false end && is_string_property name then
    if neg then p_err p "a negated property may not contain strings"
    else let* set := resolve_string_property name in Ok (set, p)
  else
    let* set := resolve_property name value in
    Ok (from_code_points (if neg then negate set else set), p).

(** [\d \D \w \W \s \S] and, in unicode mode, [\p] / [\P]. *)
Definition try_class_escape_set (p : Parser) : PM (option (CodePointSet * bool)) :=
  match peek p with
  | None => Panic (* expect("class escape at end") *)
  | Some c =>
      if (c =? b8 "d")%Z then Ok (Some (digit_set, false), bump 1 p)
      else if (c =? b8 "D")%Z then Ok (Some (digit_set, true), bump 1 p)
      else if (c =? b8 "w")%Z then Ok (Some (word_set, false), bump 1 p)
      else if (c =? b8 "W")%Z then Ok (Some (word_set, true), bump 1 p)
      else if (c =? b8 "s")%Z then Ok (Some (space_set, false), bump 1 p)
      else if (c =? b8 "S")%Z then Ok (Some (space_set, true), bump 1 p)
      else if ((c =? b8 "p")%Z || (c =? b8 "P")%Z) && p_unicode p then
        let* (set, p) := parse_property_body (bump 1 p) in
        Ok (Some (if (c =? b8 "P")%Z then negate set else set, false), p)
      else Ok (None, p)
  end.

Definition parse_numeric_backref (p : Parser) : PM Node :=
  let start := pos p in
  let (value, p') := read_decimal p in
  if (value <=? Z.of_nat (total_groups p))%Z then Ok (backref_node p' [Z.to_nat value], p')
  else if p_unicode p then
    Err (Syntax "backreference to non-existent group" (Some start))
  else
    match peek p with
    | None => Panic
    | Some c =>
        if in_range 49 55 c then
          let* (cp, p) := read_legacy_octal p in Ok (char_node p cp, p)
        else Ok (char_node p c, bump 1 p)
    end.

Definition has_named (p : Parser) : bool :=
  existsb (fun n => match n with Some _ => true | None => false end) (p_group_names p).

Definition parse_named_backref (p : Parser) : PM Node :=
  let named := p_unicode p || has_named p in
  if named && is_ch "<" (peek_at 1 p) then
    match read_group_name (p_units p) (pos p + 2) with
    | None => p_err p "invalid backreference name"
    | Some (name, next) =>
        let p := with_pos next p in
        match name_to_indices p name with
        | [] => p_err p "backreference to unknown group name"
        | indices => Ok (backref_node p indices, p)
        end
    end
  else if named then p_err p "invalid \k escape"
  else Ok (char_node p (b8 "k"), bump 1 p).

Definition parse_escape_atom (p : Parser) : PM Node :=
  let p := bump 1 p in
  match peek p with
  | None => p_err p "trailing backslash"
  | Some c =>
      let ic := ignore_case (p_flags p) in
      if (c =? b8 "b")%Z then Ok (Node.Assert (WordBoundary false ic), bump 1 p)
      else if (c =? b8 "B")%Z then Ok (Node.Assert (WordBoundary true ic), bump 1 p)
      else if (c =? b8 "k")%Z then parse_named_backref p
      else if in_range 49 57 c then parse_numeric_backref p
      else if ((c =? b8 "p")%Z || (c =? b8 "P")%Z) && unicode_sets (p_flags p) then
        let* (set, p) := parse_property_set_v (c =? b8 "P")%Z (bump 1 p) in
        Ok (class_node p set false, p)
      else
        let* (o, p) := try_class_escape_set p in
        match o with
        | Some (set, neg) => Ok (class_node p (from_code_points set) neg, p)
        | None => let* (cp, p) := parse_char_escape false p in Ok (char_node p cp, p)
        end
  end.

(** ** Legacy classes *)

Definition insert_class_range (set : CodePointSet) (lo hi : Z) (p : Parser) : PM CodePointSet :=
  if (hi <? lo)%Z then p_err p "character class range out of order"
  else Ok (insert_range set lo hi, p).

Definition next_is_class_escape (p : Parser) : bool :=
  existsb (fun c => is_ch c (peek p)) ["d"; "D"; "w"; "W"; "s"; "S"]%char.

Definition finish_class_atom (set : CodePointSet) (lo : Z) (p : Parser) : PM CodePointSet :=
  if is_ch "-" (peek p) && negb (is_ch "]" (peek_at 1 p)) then
    let p := bump 1 p in
    if is_ch "\" (peek p) then
      let p := bump 1 p in
      if next_is_class_escape p then
        if p_unicode p then p_err p "invalid class range"
        else
          let set := insert (insert set lo) (b8 "-") in
          let* (o, p) := try_class_escape_set p in
          match o with
          | Some (sub, neg) => Ok (union_with set (if neg then negate sub else sub), p)
          | None => Panic (* expect("checked next_is_class_escape") *)
          end
      else
        let* (hi, p) := parse_class_char_escape p in insert_class_range set lo hi p
    else
      let* (hi, p) := read_pattern_codepoint p in insert_class_range set lo hi p
  else Ok (insert set lo, p).

Definition parse_class_member (set : CodePointSet) (p : Parser) : PM CodePointSet :=
  if is_ch "\" (peek p) then
    let p := bump 1 p in
    let* (o, p) := try_class_escape_set p in
    match o with
    | Some (sub, neg) =>
        let set := union_with set (if neg then negate sub else sub) in
        if p_unicode p && is_ch "-" (peek p) && negb (is_ch "]" (peek_at 1 p))
        then p_err p "invalid class range"
        else Ok (set, p)
    | None => let* (lo, p) := parse_class_char_escape p in finish_class_atom set lo p
    end
  else let* (lo, p) := read_pattern_codepoint p in finish_class_atom set lo p.

Fixpoint class_members (fuel : nat) (set : CodePointSet) (p : Parser) : PM CodePointSet :=
  match fuel with
  | 0 => OutOfFuel
  | S fuel =>
      match peek p with
      | None => p_err p "unterminated character class"
      | Some c =>
          if (c =? b8 "]")%Z then Ok (set, bump 1 p)
          else let* (set, p) := parse_class_member set p in class_members fuel set p
      end
  end.

(** ** [v]-mode classes *)

Definition finish_class_set (set : ClassSet) (neg : bool) (p : Parser) : PM (ClassSet * bool) :=
  if neg then
    if may_contain_strings set then p_err p "negated character class may contain strings"
    else Ok ((negate_code_points set, true), p)
  else Ok ((set, false), p).

Definition try_class_set_character (p : Parser) : PM (option Z) :=
  match peek p with
  | None => Ok (None, p)
  | Some c =>
      if (c =? b8 "]")%Z || (c =? b8 "[")%Z then Ok (None, p)
      else if (c =? b8 "\")%Z then
        let next := peek_at 1 p in
        if existsb (fun c => is_ch c next) ["d"; "D"; "w"; "W"; "s"; "S"; "q"]%char
           || ((is_ch "p" next || is_ch "P" next) && p_unicode p)
        then Ok (None, p)
        else let* (cp, p) := parse_class_char_escape (bump 1 p) in Ok (Some cp, p)
      else let* (cp, p) := read_pattern_codepoint p in Ok (Some cp, p)
  end.

(** One alternative of [\q{...}], up to [|] or the brace. *)
Fixpoint string_alternative (fuel : nat) (alt : list Z) (p : Parser) : PM (list Z) :=
  match fuel with
  | 0 => OutOfFuel
  | S fuel =>
      match peek p with
      | None => Ok (alt, p)
      | Some c =>
          if (c =? b8 "|")%Z || (c =? b8 "}")%Z then Ok (alt, p)
          else
            let* (o, p) := try_class_set_character p in
            match o with
            | None => p_err p "invalid \q{...} alternative"
            | Some cp => string_alternative fuel (alt ++ [cp]) p
            end
      end
  end.

Fixpoint string_disjunction (fuel : nat) (set : ClassSet) (p : Parser) : PM ClassSet :=
  match fuel with
  | 0 => OutOfFuel
  | S fuel =>
      let* (alt, p) := string_alternative (S (length (p_units p))) [] p in
      let set := add_alternative set alt in
      let (close, p) := eat "}" p in
      if close then Ok (set, p)
      else
        let (bar, p) := eat "|" p in
        if bar then string_disjunction fuel set p else p_err p "unterminated \q{...}"
  end.

Definition parse_class_string_disjunction (p : Parser) : PM ClassSet :=
  let (brace, p) := eat "{" p in
  if brace then string_disjunction (S (length (p_units p))) class_default p
  else p_err p "expected `{` after \q".

(** A single code point as an operand. *)
Definition singleton_class (cp : Z) : ClassSet := from_code_points (insert cps_new cp).

(** Both units of a two-character operator. *)
Definition at_double (c : ascii) (p : Parser) : bool := is_ch c (peek p) && is_ch c (peek_at 1 p).

Fixpoint parse_class_set (fuel : nat) (p : Parser) : PM (ClassSet * bool) :=
  match fuel with
  | 0 => OutOfFuel
  | S fuel =>
      let* p := enter p in
      let p := bump 1 p in
      let (neg, p) := eat "^" p in
      if is_ch "]" (peek p) then finish_class_set class_default neg (leave (bump 1 p))
      else
        let* (set, p) := parse_class_set_union_member fuel class_default p in
        let* (set, p) :=
          if at_double "&" p then class_set_operators fuel true set p
          else if at_double "-" p then class_set_operators fuel false set p
          else class_set_union fuel set p in
        let (close, p) := eat "]" p in
        if close then finish_class_set set neg (leave p)
        else p_err p "unterminated character class"
  end
(** [while && { ... }] ([inter]) or [while -- { ... }]. *)
with class_set_operators (fuel : nat) (inter : bool) (set : ClassSet) (p : Parser) : PM ClassSet :=
  match fuel with
  | 0 => OutOfFuel
  | S fuel =>
      if at_double (if inter then "&" else "-")%char p then
        let* (operand, p) := parse_class_set_operand fuel (bump 2 p) in
        class_set_operators fuel inter
          (if inter then class_intersection set operand else class_difference set operand) p
      else Ok (set, p)
  end
with class_set_union (fuel : nat) (set : ClassSet) (p : Parser) : PM ClassSet :=
  match fuel with
  | 0 => OutOfFuel
  | S fuel =>
      match peek p with
      | None => Ok (set, p)
      | Some c =>
          if (c =? b8 "]")%Z then Ok (set, p)
          else
            let* (set, p) := parse_class_set_union_member fuel set p in
            class_set_union fuel set p
      end
  end
with parse_class_set_union_member (fuel : nat) (acc : ClassSet) (p : Parser) : PM ClassSet :=
  match fuel with
  | 0 => OutOfFuel
  | S fuel =>
      let* (o, p) := try_class_set_character p in
      match o with
      | Some lo =>
          if is_ch "-" (peek p) && negb (is_ch "-" (peek_at 1 p))
             && negb (is_ch "]" (peek_at 1 p)) then
            let* (o, p) := try_class_set_character (bump 1 p) in
            match o with
            | None => p_err p "character class range needs a character upper bound"
            | Some hi =>
                if (hi <? lo)%Z then p_err p "character class range out of order"
                else Ok (mkClass (insert_range (code_points acc) lo hi) (strings acc) (ascii_lo acc), p)
            end
          else Ok (mkClass (insert (code_points acc) lo) (strings acc) (ascii_lo acc), p)
      | None =>
          let* (operand, p) := parse_class_set_operand fuel p in
          Ok (class_union_with acc operand, p)
      end
  end
with parse_class_set_operand (fuel : nat) (p : Parser) : PM ClassSet :=
  match fuel with
  | 0 => OutOfFuel
  | S fuel =>
      if is_ch "[" (peek p) then
        let* ((set, _), p) := parse_class_set fuel p in Ok (set, p)
      else if is_ch "\" (peek p) then
        if is_ch "q" (peek_at 1 p) then parse_class_string_disjunction (bump 2 p)
        else if (is_ch "p" (peek_at 1 p) || is_ch "P" (peek_at 1 p)) && p_unicode p then
          parse_property_set_v (is_ch "P" (peek_at 1 p)) (bump 2 p)
        else
          let* (o, p) := try_class_escape_set (bump 1 p) in
          match o with
          | Some (sub, neg) => Ok (from_code_points (if neg then negate sub else sub), p)
          | None => let* (cp, p) := parse_class_char_escape p in Ok (singleton_class cp, p)
          end
      else
        let* (o, p) := try_class_set_character p in
        match o with
        | None => p_err p "expected character class operand"
        | Some cp => Ok (singleton_class cp, p)
        end
  end.

Definition class_fuel (p : Parser) : nat := 8 * (length (p_units p) + 1).

Definition parse_class (p : Parser) : PM Node :=
  if unicode_sets (p_flags p) then
    let* ((set, neg), p) := parse_class_set (class_fuel p) p in
    Ok (class_node p set neg, p)
  else
    let* p := enter p in
    let p := bump 1 p in
    let (neg, p) := eat "^" p in
    let* (set, p) := class_members (S (length (p_units p))) cps_new p in
    let p := leave p in
    Ok (class_node p (from_code_points set) neg, p).

(** ** Groups and the grammar *)

(** One modifier letter: which flag it sets and whether it was seen. *)
Definition modifier_index (c : Z) : option nat :=
  if (c =? b8 "i")%Z then Some 0
  else if (c =? b8 "m")%Z then Some 1
  else if (c =? b8 "s")%Z then Some 2
  else None.

Definition set_modifier (i : nat) (v : bool) (f : Flags) : Flags :=
  match i with
  | 0 => mkFlags v (multiline f) (dot_all f) (unicode f) (unicode_sets f)
  | 1 => mkFlags (ignore_case f) v (dot_all f) (unicode f) (unicode_sets f)
  | _ => mkFlags (ignore_case f) (multiline f) v (unicode f) (unicode_sets f)
  end.

(** The add ([v = true]) or remove loop: [seen] and the letter count. *)
Fixpoint modifier_loop (fuel : nat) (v : bool) (seen : list nat) (count : nat) (p : Parser)
    : PM (list nat * nat) :=
  match fuel with
  | 0 => OutOfFuel
  | S fuel =>
      match peek p with
      | None => Ok ((seen, count), p)
      | Some c =>
          match modifier_index c with
          | None => Ok ((seen, count), p)
          | Some i =>
              if bool_decide (i ∈ seen) then p_err p "duplicate modifier flag"
              else modifier_loop fuel v (i :: seen) (S count)
                     (bump 1 (with_flags (set_modifier i v (p_flags p)) p))
          end
      end
  end.

(** The letters of [(?add-remove:], leaving the cursor after the colon. *)
Definition parse_modifiers (p : Parser) : PM unit :=
  let* ((seen, added), p) := modifier_loop 4 true [] 0 p in
  let (dash, p) := eat "-" p in
  let* ((_, removed), p) :=
    if dash then modifier_loop 4 false seen 0 p else Ok ((seen, 0), p) in
  if (added =? 0) && (removed =? 0) then p_err p "empty modifier group"
  else
    let (colon, p) := eat ":" p in
    if colon then Ok (tt, p) else p_err p "expected ':' in modifier group".

(** The group opener after [(]: its kind, or [None] for a modifier group. *)
Definition parse_group_kind (p : Parser) : PM (option GroupKind) :=
  let (question, p) := eat "?" p in
  if question then
    if is_ch ":" (peek p) then Ok (Some NonCapturing, bump 1 p)
    else if is_ch "=" (peek p) then Ok (Some (Lookahead false), bump 1 p)
    else if is_ch "!" (peek p) then Ok (Some (Lookahead true), bump 1 p)
    else if is_ch "<" (peek p) then
      if is_ch "=" (peek_at 1 p) then Ok (Some (Lookbehind false), bump 2 p)
      else if is_ch "!" (peek_at 1 p) then Ok (Some (Lookbehind true), bump 2 p)
      else
        match read_group_name (p_units p) (pos p + 1) with
        | None => p_err p "invalid group name"
        | Some (name, next) =>
            let p := with_next_group (next_group p + 1) (with_pos next p) in
            Ok (Some (Capturing (next_group p) (Some name)), p)
        end
    else if is_ch "i" (peek p) || is_ch "m" (peek p) || is_ch "s" (peek p) || is_ch "-" (peek p)
    then Ok (None, p)
    else p_err p "unsupported group modifier"
  else
    let p := with_next_group (next_group p + 1) p in
    Ok (Some (Capturing (next_group p) None), p).

(** The atoms that are not groups; [None] at an opening parenthesis. *)
Definition parse_simple_atom (p : Parser) : option (PM Node) :=
  match peek p with
  | None => Some Panic (* expect("parse_atom at end of input") *)
  | Some c =>
      if (c =? b8 "^")%Z then
        Some (Ok (Node.Assert (StartOfLine (multiline (p_flags p))), bump 1 p))
      else if (c =? b8 "$")%Z then
        Some (Ok (Node.Assert (EndOfLine (multiline (p_flags p))), bump 1 p))
      else if (c =? b8 ".")%Z then Some (Ok (Node.AnyChar (dot_all (p_flags p)), bump 1 p))
      else if (c =? b8 "(")%Z then None
      else if (c =? b8 "[")%Z then Some (parse_class p)
      else if (c =? b8 "\")%Z then Some (parse_escape_atom p)
      else if (c =? b8 "*")%Z || (c =? b8 "+")%Z || (c =? b8 "?")%Z then
        Some (p_err p "nothing to repeat")
      else if (c =? b8 "{")%Z then
        if looks_like_quantifier p then Some (p_err p "nothing to repeat")
        else if p_unicode p then Some (p_err p "lone quantifier brace")
        else Some (Ok (char_node p c, bump 1 p))
      else if (c =? b8 "]")%Z || (c =? b8 "}")%Z then
        if p_unicode p then Some (p_err p "lone bracket")
        else Some (Ok (char_node p c, bump 1 p))
      else Some (let* (cp, p) := read_pattern_codepoint p in Ok (char_node p cp, p))
  end.

Definition alternative_node (terms : list Node) : Node :=
  match terms with
  | [] => Node.Empty
  | [t] => t
  | _ => Node.Concat terms
  end.

Definition disjunction_node (alts : list Node) : Node :=
  match alts with
  | [a] => a
  | _ => Node.Alternate alts
  end.

Fixpoint parse_disjunction (fuel : nat) (p : Parser) : PM Node :=
  match fuel with
  | 0 => OutOfFuel
  | S fuel =>
      let* p := enter p in
      let* (a, p) := parse_alternative fuel [] p in
      let* (alts, p) := alternatives_loop fuel [a] p in
      Ok (disjunction_node alts, leave p)
  end
(** [while self.eat(b'|') { alts.push(self.parse_alternative()?) }]. *)
with alternatives_loop (fuel : nat) (alts : list Node) (p : Parser) : PM (list Node) :=
  match fuel with
  | 0 => OutOfFuel
  | S fuel =>
      let (bar, p) := eat "|" p in
      if bar then
        let* (a, p) := parse_alternative fuel [] p in
        alternatives_loop fuel (alts ++ [a]) p
      else Ok (alts, p)
  end
(** [while let Some(term) = self.parse_term()? { terms.push(term) }]. *)
with parse_alternative (fuel : nat) (terms : list Node) (p : Parser) : PM Node :=
  match fuel with
  | 0 => OutOfFuel
  | S fuel =>
      let* (t, p) := parse_term fuel p in
      match t with
      | Some t => parse_alternative fuel (terms ++ [t]) p
      | None => Ok (alternative_node terms, p)
      end
  end
with parse_term (fuel : nat) (p : Parser) : PM (option Node) :=
  match fuel with
  | 0 => OutOfFuel
  | S fuel =>
      match peek p with
      | None => Ok (None, p)
      | Some c =>
          if (c =? b8 "|")%Z || (c =? b8 ")")%Z then Ok (None, p)
          else
            let* (atom, p) := parse_atom fuel p in
            let* (atom, p) := maybe_quantify atom p in
            Ok (Some atom, p)
      end
  end
with parse_atom (fuel : nat) (p : Parser) : PM Node :=
  match fuel with
  | 0 => OutOfFuel
  | S fuel =>
      match parse_simple_atom p with
      | Some r => r
      | None => parse_group fuel p
      end
  end
with parse_group (fuel : nat) (p : Parser) : PM Node :=
  match fuel with
  | 0 => OutOfFuel
  | S fuel =>
      let* (kind, p) := parse_group_kind (bump 1 p) in
      match kind with
      | Some kind =>
          let* (body, p) := parse_disjunction fuel p in
          let (close, p) := eat ")" p in
          if close then Ok (Node.Group kind body, p) else p_err p "unterminated group"
      | None => parse_modifier_group fuel p
      end
  end
(** [parse_modifier_group]: the flags are restored on the way out. *)
with parse_modifier_group (fuel : nat) (p : Parser) : PM Node :=
  match fuel with
  | 0 => OutOfFuel
  | S fuel =>
      let saved := p_flags p in
      let* (_, p) := parse_modifiers p in
      let* (body, p) := parse_disjunction fuel p in
      let (close, p) := eat ")" p in
      if close then Ok (Node.Group NonCapturing body, with_flags saved p)
      else p_err p "unterminated group"
  end.

(** ** Duplicate names *)

(** A capturing group's name joins every path state, unless one has it. *)
Definition add_name (name : list Z) (states : list (list (list Z)))
    : res RegexError (list (list (list Z))) :=
  if existsb (fun st => bool_decide (name ∈ st)) states
  then Err (Syntax "duplicate named capturing group in the same alternative" (Some 0))
  else Ok (map (cons name) states).

Fixpoint validate_names (n : Node) (states : list (list (list Z)))
    : res RegexError (list (list (list Z))) :=
  match n with
  | Node.Concat nodes =>
      fold_left (fun acc n => let* states := acc in validate_names n states) nodes (Ok states)
  | Node.Alternate alts =>
      fold_left (fun acc n =>
          let* out := acc in let* sts := validate_names n states in Ok (out ++ sts))
        alts (Ok [])
  | Node.Repeat node _ => validate_names node states
  | Node.Group kind body =>
      match kind with
      | Capturing _ (Some name) =>
          let* states := add_name name states in validate_names body states
      | _ => validate_names body states
      end
  | _ => Ok states
  end.

(** ** Entry point *)

Definition parse_fuel (us : list Z) : nat := 8 * (length us + 2).

Definition parse (pattern : list Z) (f : Flags) : res RegexError Parsed :=
  let* p := prescan (parser_new pattern f) in
  let* (root, p) := parse_disjunction (parse_fuel pattern) p in
  if pos p =? length (p_units p) then
    let* _ := validate_names root [[]] in
    Ok (mkParsed root (total_groups p) (p_group_names p))
  else p_err p "unmatched ')'".
End Grammar.
