(* ===== verification/Lower.v ===== *)
(** * Lowering the pattern tree to a matcher program

    Models [src/crates/otter-regex/src/ir.rs]: the [Emitter] that walks the
    tree and patches jump targets, the case-folding and bitmap passes, the
    auto-possessification of fused repeats, the computation of the first set
    for the scan prefilter, and [lower].

    [&mut self] methods are functions from [Emitter] to [Emitter]; an assignment
    [self.insns[i] = x] to an index the emitter pushed itself is [set_insn]. *)

From S2P Require Import Prelude Unicode Classes Program.

(** ** The emitter *)

Record Emitter : Type := mkEmitter {
  e_insns : list Insn;
  e_classes : list ClassSet;
  next_mark : nat;
  e_unicode : bool;
  backward : bool
}.

Definition here (e : Emitter) : nat := length (e_insns e).

(** [emit]; the index it returns is [here] of the emitter it is given. *)
Definition emit (i : Insn) (e : Emitter) : Emitter :=
  mkEmitter (e_insns e ++ [i]) (e_classes e) (next_mark e) (e_unicode e) (backward e).

Definition set_insn (at_ : nat) (i : Insn) (e : Emitter) : Emitter :=
  mkEmitter (<[at_ := i]> (e_insns e)) (e_classes e) (next_mark e) (e_unicode e) (backward e).

Definition set_backward (b : bool) (e : Emitter) : Emitter :=
  mkEmitter (e_insns e) (e_classes e) (next_mark e) (e_unicode e) b.

(** [intern_class]; the index it returns is the length before. *)
Definition intern_class (set : ClassSet) (e : Emitter) : nat * Emitter :=
  (length (e_classes e),
   mkEmitter (e_insns e) (e_classes e ++ [set]) (next_mark e) (e_unicode e) (backward e)).

Definition new_mark (e : Emitter) : nat * Emitter :=
  (next_mark e,
   mkEmitter (e_insns e) (e_classes e) (S (next_mark e)) (e_unicode e) (backward e)).

Definition flush_char_run (run : list Z) (e : Emitter) : Emitter :=
  let run := if backward e then rev run else run in
  match run with
  | [] => e
  | [u] => emit (Insn.Char u false) e
  | _ => emit (Insn.CharSeq run) e
  end.

Definition clear_captures (captures : list nat) (e : Emitter) : Emitter :=
  fold_left (fun e index => emit (Insn.ClearCapture index) e) captures e.

(** ** Static facts about a node *)

Fixpoint capture_indices (n : Node) : list nat :=
  match n with
  | Node.Group kind body =>
      (match kind with Capturing index _ => [index] | _ => [] end) ++ capture_indices body
  | Node.Concat nodes | Node.Alternate nodes => flat_map capture_indices nodes
  | Node.Repeat node _ => capture_indices node
  | _ => []
  end.

Fixpoint consumes_input (n : Node) : bool :=
  match n with
  | Node.Char _ _ | Node.AnyChar _ => true
  | Node.Class set _ _ => match strings set with [] => true | _ => false end
  | Node.Group kind body =>
      match kind with
      | Capturing _ _ | NonCapturing => consumes_input body
      | Lookahead _ | Lookbehind _ => false
      end
  | Node.Concat nodes => existsb consumes_input nodes
  | Node.Alternate alts => match alts with [] => false | _ => forallb consumes_input alts end
  | Node.Repeat node quant => (1 <=? qmin quant)%Z && consumes_input node
  | Node.Empty | Node.Assert _ | Node.BackRef _ _ => false
  end.

(** ** Leaves *)

(** The literal that joins a fused run: case-sensitive, BMP, not a surrogate. *)
Definition run_literal (n : Node) : option Z :=
  match n with
  | Node.Char cp false =>
      if (cp <? 65536)%Z && negb (in_range 55296 57343 cp) then Some cp else None
  | _ => None
  end.

(** One turn of the [Concat] loop; [comp] compiles the node itself. *)
Definition concat_step (n : Node) (comp : Emitter -> Emitter) (st : list Z * Emitter)
    : list Z * Emitter :=
  match run_literal n with
  | Some cp => (st.1 ++ [cp], st.2)
  | None => ([], comp (flush_char_run st.1 st.2))
  end.

Definition compile_class (set : ClassSet) (neg ic : bool) (e : Emitter) : Emitter :=
  let (class, e) := intern_class set e in emit (Insn.Class class neg ic) e.

Definition compile_assert (a : Assertion) (e : Emitter) : Emitter :=
  emit (match a with
        | StartOfLine ml => Insn.AssertStart ml
        | EndOfLine ml => Insn.AssertEnd ml
        | WordBoundary invert ic => Insn.WordBoundary invert ic
        end) e.

(** ** Alternation *)

(** The loop of [compile_alternation]: all but the last alternative get a split
    and an exit jump; the jumps are collected for patching. *)
Section Alternation.
Variable A : Type.
Variable comp : A -> Emitter -> Emitter.

Fixpoint alt_loop (alts : list A) (exit_jumps : list nat) (e : Emitter) : list nat * Emitter :=
  match alts with
  | [] => (exit_jumps, e)
  | alt :: rest =>
      match rest with
      | [] => (exit_jumps, comp alt e)
      | _ :: _ =>
          let split := here e in
          let e := emit (Insn.Split 0 0) e in
          let a_start := here e in
          let e := comp alt e in
          let jump := here e in
          let e := emit (Insn.Jump 0) e in
          let b_start := here e in
          let e := set_insn split (Insn.Split a_start b_start) e in
          alt_loop rest (exit_jumps ++ [jump]) e
      end
  end.

Definition compile_alternation (alts : list A) (e : Emitter) : Emitter :=
  let (exit_jumps, e) := alt_loop alts [] e in
  let end_ := here e in
  fold_left (fun e j => set_insn j (Insn.Jump end_) e) exit_jumps e.
End Alternation.
Arguments alt_loop {A} comp alts exit_jumps e.
Arguments compile_alternation {A} comp alts e.

(** ** String-bearing classes *)

(** [strings.sort_by_key(|s| Reverse(s.len()))]: stable, longest first. *)
Fixpoint insert_by_len (s : list Z) (l : list (list Z)) : list (list Z) :=
  match l with
  | [] => [s]
  | x :: l' => if length x <=? length s then s :: x :: l' else x :: insert_by_len s l'
  end.
Definition sort_longest_first (l : list (list Z)) : list (list Z) := foldr insert_by_len [] l.

(** The alternatives a string-bearing class is expanded to. *)
Definition string_alternatives (set : ClassSet) (ic : bool) : list Node :=
  map (fun s => match s with
                | [] => Node.Empty
                | _ => Node.Concat (map (fun cp => Node.Char cp ic) s)
                end) (sort_longest_first (strings set)) ++
  (if cps_is_empty (code_points set) then []
   else [Node.Class (from_code_points (code_points set)) false ic]).

(** [compile] on the nodes that expansion builds: an empty node, a
    concatenation of literals, or a string-free class. *)
Definition compile_literal (n : Node) (e : Emitter) : Emitter :=
  match n with
  | Node.Char cp ic => emit (Insn.Char cp ic) e
  | _ => e
  end.
Definition compile_flat (n : Node) (e : Emitter) : Emitter :=
  match n with
  | Node.Concat nodes =>
      let st :=
        if backward e
        then fold_right (fun n st => concat_step n (compile_literal n) st) ([], e) nodes
        else fold_left (fun st n => concat_step n (compile_literal n) st) nodes ([], e) in
      flush_char_run st.1 st.2
  | Node.Class set neg ic => compile_class set neg ic e
  | _ => e
  end.

(** ** Quantifiers *)

Definition fuseable_atom (n : Node) (e : Emitter) : option (RepeatAtom * Emitter) :=
  match n with
  | Node.Char cp ic => Some (AtomChar cp ic, e)
  | Node.AnyChar da => Some (AtomAny da, e)
  | Node.Class set neg ic =>
      match strings set with
      | [] => let (class, e) := intern_class set e in Some (AtomClass class neg ic, e)
      | _ => None
      end
  | _ => None
  end.

Definition split_pref (greedy : bool) (body out : nat) : Insn :=
  if greedy then Insn.Split body out else Insn.Split out body.

(** [compile_star]; [comp] compiles the body. *)
Definition compile_star (consumes : bool) (comp : Emitter -> Emitter) (greedy : bool)
    (captures : list nat) (e : Emitter) : Emitter :=
  if consumes then
    let entry := here e in
    let e := emit (Insn.Split 0 0) e in
    let body := here e in
    let e := comp (clear_captures captures e) in
    let back := here e in
    let e := emit (Insn.Split 0 0) e in
    let out := here e in
    set_insn back (split_pref greedy body out) (set_insn entry (split_pref greedy body out) e)
  else
    let (mark, e) := new_mark e in
    let head := here e in
    let e := emit (Insn.SetMark mark) e in
    let split := here e in
    let e := emit (Insn.Split 0 0) e in
    let body := here e in
    let e := comp (clear_captures captures e) in
    let e := emit (Insn.CheckProgress mark) e in
    let e := emit (Insn.Jump head) e in
    let out := here e in
    set_insn split (split_pref greedy body out) e.

(** One optional copy of [compile_bounded]'s loop; the splits are collected. *)
Definition bounded_copy (guard_empty : bool) (comp : Emitter -> Emitter) (captures : list nat)
    (st : list nat * Emitter) : list nat * Emitter :=
  let (splits, e) := st in
  let splits := splits ++ [here e] in
  let e := emit (Insn.Split 0 0) e in
  if guard_empty then
    let (mark, e) := new_mark e in
    let e := emit (Insn.SetMark mark) e in
    let e := comp (clear_captures captures e) in
    (splits, emit (Insn.CheckProgress mark) e)
  else (splits, comp (clear_captures captures e)).

Definition compile_bounded (consumes : bool) (comp : Emitter -> Emitter) (count : nat)
    (greedy : bool) (captures : list nat) (e : Emitter) : Emitter :=
  let (splits, e) := Nat.iter count (bounded_copy (negb consumes) comp captures) ([], e) in
  let end_ := here e in
  fold_left (fun e s => set_insn s (split_pref greedy (s + 1) end_) e) splits e.

Definition compile_repeat (node : Node) (comp : Emitter -> Emitter) (quant : Quantifier)
    (e : Emitter) : Emitter :=
  let max := match qmax quant with
             | Some m => if (m <=? MAX_REPEAT)%Z then Some m else None
             | None => None
             end in
  if (MAX_REPEAT <? qmin quant)%Z && consumes_input node then emit Insn.Fail e
  else
    let min := Z.min (qmin quant) MAX_REPEAT in
    let unfused :=
      let captures := capture_indices node in
      let e := Nat.iter (Z.to_nat min) (fun e => comp (clear_captures captures e)) e in
      match max with
      | None => compile_star (consumes_input node) comp (qgreedy quant) captures e
      | Some max =>
          compile_bounded (consumes_input node) comp (Z.to_nat (max - min)) (qgreedy quant)
            captures e
      end in
    match max with
    | None =>
        if e_unicode e then unfused
        else match fuseable_atom node e with
             | Some (atom, e) => emit (Insn.Repeat atom min (qgreedy quant) false) e
             | None => unfused
             end
    | Some _ => unfused
    end.

(** ** Groups *)

Definition compile_look (behind neg : bool) (comp : Emitter -> Emitter) (e : Emitter) : Emitter :=
  let look := here e in
  let e := emit (Insn.Look neg behind 0) e in
  let jump := here e in
  let e := emit (Insn.Jump 0) e in
  let entry := here e in
  let outer := backward e in
  let e := set_backward outer (comp (set_backward behind e)) in
  let e := emit Insn.LookMatch e in
  let after := here e in
  set_insn jump (Insn.Jump after) (set_insn look (Insn.Look neg behind entry) e).

Definition compile_group (kind : GroupKind) (comp : Emitter -> Emitter) (e : Emitter) : Emitter :=
  match kind with
  | Capturing index _ =>
      let slot := 2 * index in
      let (first, last) := if backward e then (slot + 1, slot) else (slot, slot + 1) in
      emit (Insn.Save last) (comp (emit (Insn.Save first) e))
  | NonCapturing => comp e
  | Lookahead neg => compile_look false neg comp e
  | Lookbehind neg => compile_look true neg comp e
  end.

(** ** [Emitter::compile] *)

Fixpoint compile (n : Node) (e : Emitter) : Emitter :=
  match n with
  | Node.Empty => e
  | Node.Char cp ic => emit (Insn.Char cp ic) e
  | Node.AnyChar da => emit (Insn.AnyChar da) e
  | Node.Class set neg ic =>
      match strings set with
      | [] => compile_class set neg ic e
      | _ => compile_alternation compile_flat (string_alternatives set ic) e
      end
  | Node.Assert a => compile_assert a e
  | Node.BackRef indices ic => emit (Insn.BackRef indices ic) e
  | Node.Concat nodes =>
      let st :=
        if backward e
        then fold_right (fun n st => concat_step n (compile n) st) ([], e) nodes
        else fold_left (fun st n => concat_step n (compile n) st) nodes ([], e) in
      flush_char_run st.1 st.2
  | Node.Alternate alts => compile_alternation compile alts e
  | Node.Repeat node quant => compile_repeat node (compile node) quant e
  | Node.Group kind body => compile_group kind (compile body) e
  end.

(** ** Case-folding passes of [lower] *)

(** The class operand of an instruction that tests one case-insensitively. *)
Definition folded_class (i : Insn) : option nat :=
  match i with
  | Insn.Class class _ true => Some class
  | Insn.Repeat (AtomClass class _ true) _ _ _ => Some class
  | _ => None
  end.

(** [*ignore_case = false] on that operand. *)
Definition clear_ignore_case (i : Insn) : Insn :=
  match i with
  | Insn.Class class neg _ => Insn.Class class neg false
  | Insn.Repeat (AtomClass class neg _) min greedy poss =>
      Insn.Repeat (AtomClass class neg false) min greedy poss
  | _ => i
  end.

(** Non-Unicode mode: every case-insensitive class is folded. *)
Definition fold_ascii_insn (classes : list ClassSet) (i : Insn) : list ClassSet * Insn :=
  match folded_class i with
  | Some c => (alter fold_ascii_case c classes, clear_ignore_case i)
  | None => (classes, i)
  end.

Definition UNICODE_FOLD_CLASS_LIMIT : Z := 1024.

(** Unicode mode: only classes of at most the limit's code points are folded. *)
Definition fold_unicode_insn `{Icu} (classes : list ClassSet) (i : Insn) : list ClassSet * Insn :=
  match folded_class i with
  | Some c =>
      match classes !! c with
      | Some set =>
          if (code_point_count set <=? UNICODE_FOLD_CLASS_LIMIT)%Z
          then (alter fold_unicode_case c classes, clear_ignore_case i)
          else (classes, i)
      | None => (classes, i)
      end
  | None => (classes, i)
  end.

Fixpoint fold_pass (f : list ClassSet -> Insn -> list ClassSet * Insn)
    (classes : list ClassSet) (l : list Insn) : list ClassSet * list Insn :=
  match l with
  | [] => (classes, [])
  | i :: l =>
      let (classes, i) := f classes i in
      let (classes, l) := fold_pass f classes l in
      (classes, i :: l)
  end.

(** ** Auto-possessification *)

Definition ir_fold `{Icu} (cp : Z) (uni : bool) : Z :=
  if uni then fold_unicode cp else canonicalize cp.

Definition char_matches `{Icu} (target c : Z) (ic uni : bool) : bool :=
  (c =? target)%Z || (ic && (ir_fold c uni =? ir_fold target uni)%Z).

Definition class_matches `{Icu} (set : ClassSet) (neg : bool) (c : Z) (ic uni : bool) : bool :=
  let inside := contains (code_points set) c in
  let inside :=
    if negb inside && ic then
      let inside := contains (code_points set) (ascii_other_case c) in
      if negb inside && uni then contains (code_points set) (fold_unicode c) else inside
    else inside in
  xorb inside neg.

Definition repeat_atom_set (atom : RepeatAtom) (classes : list ClassSet) : option CodePointSet :=
  match atom with
  | AtomChar cp false => Some (insert cps_new cp)
  | AtomClass class neg false =>
      match classes !! class with
      | Some set => Some (if neg then negate (code_points set) else code_points set)
      | None => None
      end
  | _ => None
  end.

(** The counting loop with its early exit, then the expansion. *)
Fixpoint members_within (cap total : Z) (l : list (Z * Z)) : bool :=
  match l with
  | [] => true
  | r :: l =>
      let total := (total + (r.2 - r.1) + 1)%Z in
      if (cap <? total)%Z then false else members_within cap total l
  end.
Definition bounded_members (s : CodePointSet) (cap : Z) : option (list Z) :=
  if members_within cap 0 (ranges s)
  then Some (flat_map (fun r : Z * Z => range_list r.1 r.2) (ranges s))
  else None.

(** [for _ in 0..=insns.len()]: at most [len + 1] hops. *)
Fixpoint follower_loop (fuel : nat) (l : list Insn) (pc : nat) : option nat :=
  match fuel with
  | 0 => None
  | S fuel =>
      match l !! pc with
      | None => None
      | Some i =>
          match i with
          | Insn.Save _ | Insn.ClearCapture _ | Insn.SetMark _ | Insn.CheckProgress _ =>
              follower_loop fuel l (pc + 1)
          | Insn.Jump t => follower_loop fuel l t
          | Insn.Char _ _ | Insn.CharSeq _ | Insn.Class _ _ _ | Insn.AnyChar _ => Some pc
          | Insn.Repeat _ min _ _ => if (1 <=? min)%Z then Some pc else None
          | _ => None
          end
      end
  end.
Definition follower_pc (l : list Insn) (start : nat) : option nat :=
  follower_loop (length l + 1) l start.

Definition follower_class `{Icu} (classes : list ClassSet) (class : nat) (neg : bool) (c : Z)
    (ic uni : bool) : bool :=
  match classes !! class with
  | Some set => class_matches set neg c ic uni
  | None => true
  end.

Definition follower_matches `{Icu} (i : Insn) (classes : list ClassSet) (c : Z) (uni : bool) : bool :=
  match i with
  | Insn.Char cp ic => char_matches cp c ic uni
  | Insn.CharSeq seq => match seq with u :: _ => (c =? u)%Z | [] => true end
  | Insn.Class class neg ic => follower_class classes class neg c ic uni
  | Insn.AnyChar da => da || negb (is_line_terminator c)
  | Insn.Repeat atom _ _ _ =>
      match atom with
      | AtomChar cp ic => char_matches cp c ic uni
      | AtomClass class neg ic => follower_class classes class neg c ic uni
      | AtomAny da => da || negb (is_line_terminator c)
      end
  | _ => true
  end.

Definition REP_CAP : Z := 2048.

(** Whether [mark_possessive] marks the instruction at index [i]. *)
Definition is_possessifiable `{Icu} (l : list Insn) (classes : list ClassSet) (uni : bool)
    (i : nat) (insn : Insn) : bool :=
  match insn with
  | Insn.Repeat atom _ true false =>
      match repeat_atom_set atom classes with
      | None => false
      | Some rep =>
          match bounded_members rep REP_CAP with
          | None => false
          | Some chars =>
              match follower_pc l (i + 1) with
              | None => false
              | Some fpc =>
                  match l !! fpc with
                  | Some f => forallb (fun c => negb (follower_matches f classes c uni)) chars
                  | None => false
                  end
              end
          end
      end
  | _ => false
  end.

Definition set_possessive (i : Insn) : Insn :=
  match i with
  | Insn.Repeat atom min greedy _ => Insn.Repeat atom min greedy true
  | _ => i
  end.

Definition mark_possessive `{Icu} (l : list Insn) (classes : list ClassSet) (uni : bool) : list Insn :=
  imap (fun i insn => if is_possessifiable l classes uni i insn then set_possessive insn else insn) l.

(** ** The leading possessive run *)

Fixpoint lead_possessive_loop (fuel : nat) (l : list Insn) (pc : nat) : bool :=
  match fuel with
  | 0 => false
  | S fuel =>
      match l !! pc with
      | Some (Insn.Save _ | Insn.ClearCapture _ | Insn.SetMark _ | Insn.CheckProgress _) =>
          lead_possessive_loop fuel l (pc + 1)
      | Some (Insn.Jump t) => lead_possessive_loop fuel l t
      | Some (Insn.Repeat _ min true true) => (1 <=? min)%Z
      | _ => false
      end
  end.
Definition lead_possessive_run (l : list Insn) : bool := lead_possessive_loop (length l + 1) l 0.

(** ** The first set *)

Definition MAX_FOLD : Z := 4096.

Fixpoint within_max_fold (count : Z) (l : list (Z * Z)) : bool :=
  match l with
  | [] => true
  | r :: l =>
      let count := u32_saturating_add count (r.2 - r.1 + 1) in
      if (MAX_FOLD <? count)%Z then false else within_max_fold count l
  end.

Definition canonicalize_set `{Icu} (s : CodePointSet) (uni : bool) : option CodePointSet :=
  if within_max_fold 0 (ranges s) then
    Some (fold_left (fun out cp => insert out (ir_fold cp uni))
            (flat_map (fun r : Z * Z => range_list r.1 r.2) (ranges s)) cps_new)
  else None.

(** The members a string-free class contributes to the first set. *)
Definition first_class (classes : list ClassSet) (class : nat) (neg : bool)
    (out : CodePointSet) : option CodePointSet :=
  match classes !! class with
  | Some set =>
      match strings set with
      | [] => Some (union_with out (if neg then negate (code_points set) else code_points set))
      | _ => None
      end
  | None => None
  end.

(** What one popped instruction does: more program points, the grown set and the
    case flag, or [None] when the start cannot be characterised.  An empty literal
    run or a class index out of range, on which the source would panic, is also
    [None]; the emitter never produces either. *)
Definition first_insn (classes : list ClassSet) (pc : nat) (i : Insn) (out : CodePointSet)
    (canon : bool) : option (list nat * CodePointSet * bool) :=
  match i with
  | Insn.Save _ | Insn.ClearCapture _ | Insn.SetMark _ | Insn.CheckProgress _ =>
      Some ([pc + 1], out, canon)
  | Insn.AssertStart _ | Insn.AssertEnd _ | Insn.WordBoundary _ _ => Some ([pc + 1], out, canon)
  | Insn.Jump t => Some ([t], out, canon)
  | Insn.Split a b => Some ([b; a], out, canon)
  | Insn.Char cp ic => Some ([], insert out cp, canon || ic)
  | Insn.CharSeq seq => match seq with u :: _ => Some ([], insert out u, canon) | [] => None end
  | Insn.Class class neg ic =>
      match first_class classes class neg out with
      | Some out => Some ([], out, canon || ic)
      | None => None
      end
  | Insn.Repeat atom min _ _ =>
      let more := if (min =? 0)%Z then [pc + 1] else [] in
      match atom with
      | AtomChar cp ic => Some (more, insert out cp, canon || ic)
      | AtomClass class neg ic =>
          match first_class classes class neg out with
          | Some out => Some (more, out, canon || ic)
          | None => None
          end
      | AtomAny _ => None
      end
  | _ => None
  end.

(** The work-list loop: [work]'s head is popped first.  A point is expanded at
    most once and pushes at most two, so [2 * len + 2] pops suffice. *)
Fixpoint first_loop (fuel : nat) (l : list Insn) (classes : list ClassSet) (work visited : list nat)
    (out : CodePointSet) (canon : bool) : option (CodePointSet * bool) :=
  match fuel with
  | 0 => None
  | S fuel =>
      match work with
      | [] => Some (out, canon)
      | pc :: work =>
          match l !! pc with
          | None => first_loop fuel l classes work visited out canon
          | Some i =>
              if bool_decide (pc ∈ visited) then first_loop fuel l classes work visited out canon
              else
                match first_insn classes pc i out canon with
                | None => None
                | Some (more, out, canon) =>
                    first_loop fuel l classes (more ++ work) (pc :: visited) out canon
                end
          end
      end
  end.

Definition compute_first_set `{Icu} (l : list Insn) (classes : list ClassSet) (ic uni : bool)
    : option (CodePointSet * bool) :=
  match first_loop (2 * length l + 2) l classes [0] [] cps_new ic with
  | None => None
  | Some (out, needs_canon) =>
      if cps_is_empty out then None
      else if needs_canon then
        match canonicalize_set out uni with
        | None => None
        | Some out => if cps_is_empty out then None else Some (out, true)
        end
      else Some (out, false)
  end.

(** ** [lower] *)

Definition emit_root (n : Node) (group_count : nat) (uni : bool) : Emitter :=
  emit Insn.Match (compile n (mkEmitter [] [] (2 * (group_count + 1)) uni false)).

Definition lower `{Icu} (parsed : Parsed) (flags : Flags) : Program :=
  let uni := is_unicode_mode flags in
  let mark_base := 2 * (parsed_group_count parsed + 1) in
  let e := emit_root (root parsed) (parsed_group_count parsed) uni in
  let (classes, insns) :=
    fold_pass (if uni then fold_unicode_insn else fold_ascii_insn) (e_classes e) (e_insns e) in
  let classes := map finalize_ascii classes in
  let insns := mark_possessive insns classes uni in
  mkProgram insns classes (parsed_group_count parsed)
    (map (default []) (parsed_group_names parsed)) uni
    (next_mark e - mark_base)
    (match compute_first_set insns classes (ignore_case flags) uni with
     | Some (set, true) => Some (from_set_canon set uni)
     | Some (set, false) => Some (from_set set)
     | None => None
     end)
    (lead_possessive_run insns).
