(* ===== verification/Exec.v ===== *)
(** * The bounded backtracking executor

    Models [src/crates/otter-regex/src/exec/backtrack.rs] (and [ExecConfig] of
    [exec/mod.rs]): the matcher's predicates on the subject, one definition per
    group of instruction arms of [Matcher::run], the explicit backtrack stack
    with its undo log, the step budget, the recursive evaluation of lookaround
    bodies and [attempt].

    A [Vec] used as a stack is a list whose head is the top.  The main loop has
    no structural measure, so [run_frames] and [run_inner] take fuel; running
    out is [OutOfFuel], a Rust panic (an index out of range) is [Panic].  Slot
    values and positions are [nat]: they never leave [0..=len]. *)

From S2P Require Import Prelude Unicode Classes Program.

Record ExecConfig : Type := mkConfig { step_limit : option Z }.

(** Capture slots followed by loop marks: [SmallVec<[Option<usize>; 8]>]. *)
Abbreviation Caps := (list (option nat)).
Abbreviation UndoEntry := (nat * option nat)%type.

Inductive Resume : Type :=
| At
| RepeatGreedy (low : nat)
| RepeatLazy (high : nat).

Record Frame : Type := mkFrame {
  f_pc : nat;
  f_pos : nat;
  f_log_mark : nat;
  f_resume : Resume
}.

(** [step]: move by [width] units in the region's direction. *)
Definition step (pos width : nat) (backward : bool) : nat :=
  if backward then pos - width else pos + width.

Section Matcher.
Context `{Icu}.
Variable prog : Program.
Variable inp : Input.

(** ** Predicates on the subject *)

Definition canon (cp : Z) : Z :=
  if prog_unicode prog then fold_unicode cp else canonicalize cp.

Definition char_eq (target cp : Z) (ic : bool) : bool :=
  (cp =? target)%Z || (ic && (canon cp =? canon target)%Z).

Definition class_member (set : ClassSet) (neg : bool) (cp : Z) (ic : bool) : bool :=
  let inside :=
    if (cp <? 128)%Z then
      ascii_contains set cp || (ic && ascii_contains set (ascii_other_case cp))
    else
      let m := contains (code_points set) cp in
      if negb m && ic then
        let m := contains (code_points set) (ascii_other_case cp) in
        if negb m && prog_unicode prog then contains (code_points set) (fold_unicode cp)
        else m
      else m in
  xorb inside neg.

Definition at_start (pos : nat) (ml : bool) : bool :=
  match pos with
  | 0 => true
  | _ => ml && match prev_codepoint inp pos with
               | Some cp => is_line_terminator cp
               | None => false
               end
  end.

Definition at_end (pos : nat) (ml : bool) : bool :=
  if length (units inp) <=? pos then true
  else ml && match decode inp pos with
             | Some (cp, _) => is_line_terminator cp
             | None => false
             end.

Definition is_w (ic : bool) (cp : Z) : bool :=
  is_word cp || (ic && prog_unicode prog && ((cp =? 383) || (cp =? 8490))%Z).

Definition word_boundary (pos : nat) (ic : bool) : bool :=
  let before := match prev_codepoint inp pos with Some cp => is_w ic cp | None => false end in
  let after := match decode inp pos with Some (cp, _) => is_w ic cp | None => false end in
  xorb before after.

(** ** Backreferences *)

(** [caps.get(2 * g)], [caps.get(2 * g + 1)]: both set. *)
Definition group_range (caps : Caps) (g : nat) : option (nat * nat) :=
  match caps !! (2 * g), caps !! (2 * g + 1) with
  | Some (Some s), Some (Some e) => Some (s, e)
  | _, _ => None
  end.

Fixpoint find_group (caps : Caps) (groups : list nat) : option (nat * nat) :=
  match groups with
  | [] => None
  | g :: groups =>
      match group_range caps g with
      | Some r => Some r
      | None => find_group caps groups
      end
  end.

Definition unit_eq (a b : Z) (ic : bool) : bool :=
  (a =? b)%Z || (ic && (canon a =? canon b)%Z).

(** The comparison loop [for k in 0..len]; both reads panic out of range. *)
Fixpoint backref_loop (k start at_ : nat) (ic : bool) : res ExecError bool :=
  match k with
  | 0 => Ok true
  | S k =>
      let* a := index (units inp) start in
      let* b := index (units inp) at_ in
      if unit_eq a b ic then backref_loop k (S start) (S at_) ic else Ok false
  end.

Definition match_backref (groups : list nat) (pos : nat) (caps : Caps)
    (ic backward : bool) : res ExecError (option nat) :=
  match find_group caps groups with
  | None => Ok (Some pos)
  | Some (start, end_) =>
      let len := end_ - start in
      if len =? 0 then Ok (Some pos)
      else if backward && (pos <? len) then Ok None
      else
        let at_ := if backward then pos - len else pos in
        if length (units inp) <? at_ + len then Ok None
        else
          let* eq := backref_loop len start at_ ic in
          Ok (if eq then Some (if backward then at_ else at_ + len) else None)
  end.

(** ** Consuming instructions *)

Definition consume_char (c : Z) (ic : bool) (pos : nat) (backward : bool) : option nat :=
  match decode_dir inp pos backward with
  | Some (cp, w) => if char_eq c cp ic then Some (step pos w backward) else None
  | None => None
  end.

Definition consume_seq (seq : list Z) (pos : nat) (backward : bool) : option nat :=
  if backward && (pos <? length seq) then None
  else
    let lo := if backward then pos - length seq else pos in
    let hi := if backward then pos else pos + length seq in
    if (hi <=? length (units inp)) &&
       bool_decide (take (length seq) (drop lo (units inp)) = seq)
    then Some (if backward then lo else hi) else None.

Definition consume_any (da : bool) (pos : nat) (backward : bool) : option nat :=
  match decode_dir inp pos backward with
  | Some (cp, w) => if da || negb (is_line_terminator cp) then Some (step pos w backward) else None
  | None => None
  end.

Definition consume_class (set : ClassSet) (neg ic : bool) (pos : nat) (backward : bool)
    : option nat :=
  match decode_dir inp pos backward with
  | Some (cp, w) => if class_member set neg cp ic then Some (step pos w backward) else None
  | None => None
  end.

(** ** The fused repeat *)

(** The case-sensitive class test on the two 64-bit halves of the bitmap. *)
Definition bitmap_member (set : ClassSet) (u : Z) : bool :=
  let lo := (ascii_lo set mod 18446744073709551616)%Z in
  let hi := (Z.shiftr (ascii_lo set) 64 mod 18446744073709551616)%Z in
  if (u <? 64)%Z then negb (Z.land (Z.shiftr lo u) 1 =? 0)%Z
  else if (u <? 128)%Z then negb (Z.land (Z.shiftr hi (u - 64)) 1 =? 0)%Z
  else contains (code_points set) u.

(** The per-unit test of a repeat atom, chosen once outside the loop. *)
Definition atom_test (atom : RepeatAtom) : res ExecError (Z -> bool) :=
  match atom with
  | AtomChar cp ic => Ok (fun u => char_eq cp u ic)
  | AtomAny da => Ok (fun u => da || negb (is_line_terminator u))
  | AtomClass class neg ic =>
      let* set := index (classes prog) class in
      Ok (fun u => if ic then class_member set neg u true else xorb (bitmap_member set u) neg)
  end.

(** [while more(end) && test(unit_at(end)) { end = advance(end) }]: at most
    [len] turns. *)
Fixpoint scan_loop (fuel : nat) (test : Z -> bool) (backward : bool) (end_ : nat) : nat :=
  match fuel with
  | 0 => end_
  | S fuel =>
      match (if backward then match end_ with 0 => None | S e => units inp !! e end
             else units inp !! end_) with
      | Some u =>
          if test u then scan_loop fuel test backward (step end_ 1 backward) else end_
      | None => end_
      end
  end.

Definition scan (test : Z -> bool) (backward : bool) (pos : nat) : nat :=
  scan_loop (S (length (units inp))) test backward pos.

Definition abs_diff (a b : nat) : nat := (a - b) + (b - a).

(** The [Repeat] arm after the scan: the position to continue at and the
    give-back frame to push, or failure. *)
Definition exec_repeat (min : Z) (greedy possessive backward : bool)
    (pc pos end_ log_len : nat) : option (nat * option Frame) :=
  if (Z.of_nat (abs_diff pos end_) <? min)%Z then None
  else
    let low := step pos (Z.to_nat min) backward in
    if greedy then
      Some (end_,
        if negb possessive && negb (end_ =? low)
        then Some (mkFrame (pc + 1) (step end_ 1 (negb backward)) log_len (RepeatGreedy low))
        else None)
    else
      Some (low,
        if negb (end_ =? low)
        then Some (mkFrame (pc + 1) (step low 1 backward) log_len (RepeatLazy end_))
        else None).

(** ** Slot writes *)

(** [log.push((slot, caps[slot])); caps[slot] = v]. *)
Definition write_slot (caps : Caps) (log : list UndoEntry) (slot : nat) (v : option nat)
    : res ExecError (Caps * list UndoEntry) :=
  let* old := index caps slot in
  Ok (<[slot := v]> caps, (slot, old) :: log).

(** [Save]: slots 0 and 1 are written without an undo entry. *)
Definition exec_save (slot pos : nat) (caps : Caps) (log : list UndoEntry)
    : res ExecError (Caps * list UndoEntry) :=
  if 1 <? slot then write_slot caps log slot (Some pos)
  else let* _ := index caps slot in Ok (<[slot := Some pos]> caps, log).

(** [ClearCapture]: both slots of the group. *)
Definition exec_clear (g : nat) (caps : Caps) (log : list UndoEntry)
    : res ExecError (Caps * list UndoEntry) :=
  let* (caps, log) := write_slot caps log (2 * g) None in
  write_slot caps log (2 * g + 1) None.

(** Roll the slots back: [while log.len() > mark]. *)
Fixpoint rollback (log : list UndoEntry) (mark : nat) (caps : Caps)
    : res ExecError (Caps * list UndoEntry) :=
  match log with
  | [] => Ok (caps, [])
  | (slot, old) :: log' =>
      if mark <? length log then
        let* _ := index caps slot in
        rollback log' mark (<[slot := old]> caps)
      else Ok (caps, log)
  end.

(** Apply a lookaround's slots, logging each overwrite. *)
Definition look_apply_one (updated : Caps) (st : Caps * list UndoEntry) (i : nat)
    : Caps * list UndoEntry :=
  match st.1 !! i, updated !! i with
  | Some a, Some b => if bool_decide (a = b) then st else (<[i := b]> st.1, (i, a) :: st.2)
  | _, _ => st
  end.
Definition look_apply (caps updated : Caps) (log : list UndoEntry) : Caps * list UndoEntry :=
  fold_left (look_apply_one updated) (seq 0 (length caps)) (caps, log).

(** A popped give-back frame schedules the next length first. *)
Definition push_resume (fr : Frame) (backward : bool) (stack : list Frame) : list Frame :=
  match f_resume fr with
  | At => stack
  | RepeatGreedy low =>
      if f_pos fr =? low then stack
      else mkFrame (f_pc fr) (step (f_pos fr) 1 (negb backward)) (f_log_mark fr)
             (RepeatGreedy low) :: stack
  | RepeatLazy high =>
      if f_pos fr =? high then stack
      else mkFrame (f_pc fr) (step (f_pos fr) 1 backward) (f_log_mark fr)
             (RepeatLazy high) :: stack
  end.

(** ** One instruction *)

Inductive Outcome : Type :=
| Next (pc pos : nat) (caps : Caps) (stack : list Frame) (log : list UndoEntry)
| Accept (pos : nat) (caps : Caps)
| Reject.

(** [Some pos]: continue after this instruction; [None]: [break None]. *)
Definition goto_next (pc : nat) (caps : Caps) (stack : list Frame) (log : list UndoEntry)
    (r : option nat) : Outcome :=
  match r with
  | Some pos => Next (pc + 1) pos caps stack log
  | None => Reject
  end.

Definition exec_insn (insn : Insn) (backward : bool) (pc pos : nat) (caps : Caps)
    (stack : list Frame) (log : list UndoEntry) : res ExecError Outcome :=
  let next r := Ok (goto_next pc caps stack log r) in
  let test (b : bool) := next (if b then Some pos else None) in
  match insn with
  | Insn.Match => let* _ := index caps 1 in Ok (Accept pos (<[1 := Some pos]> caps))
  | Insn.LookMatch => Ok (Accept pos caps)
  | Insn.Char c ic => next (consume_char c ic pos backward)
  | Insn.CharSeq seq => next (consume_seq seq pos backward)
  | Insn.AnyChar da => next (consume_any da pos backward)
  | Insn.Class class neg ic =>
      let* set := index (classes prog) class in next (consume_class set neg ic pos backward)
  | Insn.Repeat atom min greedy possessive =>
      let* tst := atom_test atom in
      let end_ := scan tst backward pos in
      match exec_repeat min greedy possessive backward pc pos end_ (length log) with
      | None => Ok Reject
      | Some (pos', None) => Ok (Next (pc + 1) pos' caps stack log)
      | Some (pos', Some fr) => Ok (Next (pc + 1) pos' caps (fr :: stack) log)
      end
  | Insn.Fail => Ok Reject
  | Insn.Jump t => Ok (Next t pos caps stack log)
  | Insn.Split a b => Ok (Next a pos caps (mkFrame b pos (length log) At :: stack) log)
  | Insn.Save slot =>
      let* (caps, log) := exec_save slot pos caps log in Ok (Next (pc + 1) pos caps stack log)
  | Insn.SetMark slot =>
      let* (caps, log) := write_slot caps log slot (Some pos) in
      Ok (Next (pc + 1) pos caps stack log)
  | Insn.ClearCapture g =>
      let* (caps, log) := exec_clear g caps log in Ok (Next (pc + 1) pos caps stack log)
  | Insn.CheckProgress slot =>
      let* v := index caps slot in test (negb (bool_decide (v = Some pos)))
  | Insn.AssertStart ml => test (at_start pos ml)
  | Insn.AssertEnd ml => test (at_end pos ml)
  | Insn.WordBoundary invert ic => test (xorb (word_boundary pos ic) invert)
  | Insn.BackRef indices ic =>
      let* r := match_backref indices pos caps ic backward in next r
  | Insn.Look _ _ _ => Panic (* dispatched by [run_inner] *)
  end.

(** [eval_look]'s verdict: the slots to continue with when the assertion holds. *)
Definition look_verdict (negate : bool) (found : option Caps) (caps : Caps) : option Caps :=
  match negate, found with
  | false, Some updated => Some updated
  | false, None => None
  | true, Some _ => None
  | true, None => Some caps
  end.

(** ** The two loops of [run] *)

Variable limit : Z.  (* [self.step_limit.unwrap_or(u64::MAX)] *)

Fixpoint run_frames (fuel : nat) (steps : Z) (backward : bool) (caps : Caps)
    (stack : list Frame) (log : list UndoEntry)
    : res ExecError (Z * option (nat * Caps)) :=
  match fuel with
  | 0 => OutOfFuel
  | S fuel =>
      match stack with
      | [] => Ok (steps, None)
      | fr :: stack =>
          let steps := u64_wrapping_succ steps in
          if (limit <? steps)%Z then Err StepLimitExceeded
          else
            let* (caps, log) := rollback log (f_log_mark fr) caps in
            run_inner fuel steps backward (f_pc fr) (f_pos fr) caps
              (push_resume fr backward stack) log
      end
  end
with run_inner (fuel : nat) (steps : Z) (backward : bool) (pc pos : nat) (caps : Caps)
    (stack : list Frame) (log : list UndoEntry)
    : res ExecError (Z * option (nat * Caps)) :=
  match fuel with
  | 0 => OutOfFuel
  | S fuel =>
      let* insn := index (insns prog) pc in
      match insn with
      | Insn.Look negate behind entry =>
          (* [eval_look]: a sub-run of the body on buffers of its own *)
          let* (steps, found) :=
            run_frames fuel steps behind caps [mkFrame entry pos 0 At] [] in
          match look_verdict negate (snd <$> found) caps with
          | Some updated =>
              let '(caps, log) := look_apply caps updated log in
              run_inner fuel steps backward (pc + 1) pos caps stack log
          | None => run_frames fuel steps backward caps stack log
          end
      | _ =>
          let* out := exec_insn insn backward pc pos caps stack log in
          match out with
          | Next pc pos caps stack log => run_inner fuel steps backward pc pos caps stack log
          | Accept pos caps => Ok (steps, Some (pos, caps))
          | Reject => run_frames fuel steps backward caps stack log
          end
      end
  end.
End Matcher.

(** [run] from an entry point: one initial frame on cleared buffers. *)
Definition run `{Icu} (prog : Program) (inp : Input) (limit : Z) (fuel : nat) (steps : Z)
    (entry start : nat) (backward : bool) (caps : Caps)
    : res ExecError (Z * option (nat * Caps)) :=
  run_frames prog inp limit fuel steps backward caps [mkFrame entry start 0 At] [].

Definition step_bound (config : ExecConfig) : Z := default u64_max (step_limit config).

(** [attempt]; the scratch buffers are cleared by [run], so they carry nothing. *)
Definition attempt `{Icu} (prog : Program) (inp : Input) (at_ : nat) (config : ExecConfig)
    (fuel : nat) : res ExecError (option Caps) :=
  let caps := <[0 := Some at_]> (replicate (slot_count prog) None) in
  let* r := run prog inp (step_bound config) fuel 0 0 at_ false caps in
  Ok (snd <$> r.2).
