(* ===== verification/Api.v ===== *)
(** * The public matcher API

    Models [src/crates/otter-regex/src/api.rs]: the [Matches] iterator (prefilter
    skip, attempt, advance, leading-run skip), [build_match], and [Match] with
    its group accessors and the deduplicating [NamedGroups] iterator.  [Range]s
    are pairs; the iterator's state is the record [MatchesState]. *)

From S2P Require Import Prelude Unicode Classes Program Parser Lower Exec.

Record Regex : Type := mkRegex { program : Program; regex_flags : Flags }.

Record Match_ : Type := mkMatch {
  m_range : nat * nat;
  captures : list (option (nat * nat));
  group_names : list (list Z)
}.

(** [Regex::compile_utf16] ([compile_str] encodes its text and calls it). *)
Definition compile_utf16 `{Icu} (pattern : list Z) (f : Flags) : res RegexError Regex :=
  let* parsed := parse pattern f in Ok (mkRegex (lower parsed f) f).

(** [Matches], less the borrowed regex, text and config. *)
Record MatchesState : Type := mkMatchesState { next_start : nat; done_ : bool }.

(** [Regex::find_utf16]. *)
Definition find_utf16 (start : nat) : MatchesState := mkMatchesState start false.

(** [t.iter().position(|&u| u == unit)]. *)
Fixpoint position_of (u : Z) (l : list Z) : option nat :=
  match l with
  | [] => None
  | x :: l => if (x =? u)%Z then Some 0 else S <$> position_of u l
  end.

Section Search.
Context `{Icu}.

(** Skip to the next position whose code point satisfies [keep], or stops being
    one: [while pos < len && !keep(cp) { advance }].  [unicode] decodes pairs
    and steps over them. *)
Fixpoint skip_until (fuel : nat) (text : list Z) (uni : bool) (stop : Z -> bool) (pos : nat) : nat :=
  match fuel with
  | 0 => pos
  | S fuel =>
      match decode_at text pos uni with
      | None => pos
      | Some (cp, _) =>
          if stop cp then pos
          else skip_until fuel text uni stop (advance_scan text pos uni)
      end
  end.

(** The prefilter skip at the head of [next]'s loop. *)
Definition prefilter_skip (pf : Prefilter) (text : list Z) (uni : bool) (pos : nat) : nat :=
  match single pf with
  | Some u =>
      if pos <=? length text then
        match position_of u (drop pos text) with
        | Some off => pos + off
        | None => length text + 1
        end
      else length text + 1
  | None => skip_until (length text) text uni (cp_may_start pf) pos
  end.

(** The step after a failed attempt. *)
Definition advance_after_failure (p : Program) (text : list Z) (pos : nat) : nat :=
  let uni := prog_unicode p in
  match lead_possessive p, prefilter p with
  | true, Some pf =>
      skip_until (length text) text uni (fun cp => negb (cp_may_start pf cp))
        (advance_scan text pos uni)
  | _, _ => advance_scan text pos uni
  end.

(** [build_match]. *)
Definition build_match (p : Program) (caps : Caps) : Match_ :=
  mkMatch
    (default 0 (default None (caps !! 0)), default 0 (default None (caps !! 1)))
    (map (fun g => group_range caps g) (seq 1 (group_count p)))
    (names p).

(** The loop of [Matches::next]; [efuel] bounds one attempt, [fuel] the scan. *)
Fixpoint next_loop (fuel efuel : nat) (p : Program) (text : list Z) (config : ExecConfig)
    (next_start pos : nat) : res ExecError (option Match_) * MatchesState :=
  match fuel with
  | 0 => (OutOfFuel, mkMatchesState next_start false)
  | S fuel =>
      let uni := prog_unicode p in
      let pos := match prefilter p with
                 | Some pf => prefilter_skip pf text uni pos
                 | None => pos
                 end in
      if length text <? pos then (Ok None, mkMatchesState next_start true)
      else
        match attempt p (mkInput text uni) pos config efuel with
        | Err e => (Err e, mkMatchesState next_start true)
        | Panic => (Panic, mkMatchesState next_start false)
        | OutOfFuel => (OutOfFuel, mkMatchesState next_start false)
        | Ok (Some caps) =>
            let mat := build_match p caps in
            let end_ := (m_range mat).2 in
            (Ok (Some mat),
             mkMatchesState (if pos <? end_ then end_ else advance_scan text pos uni) false)
        | Ok None =>
            next_loop fuel efuel p text config next_start (advance_after_failure p text pos)
        end
  end.

(** [Matches::next]: every turn moves at least one unit, so the number of units
    left (and one turn past the end) is fuel enough for the scan. *)
Definition matches_next (efuel : nat) (p : Program) (text : list Z) (config : ExecConfig)
    (st : MatchesState) : res ExecError (option Match_) * MatchesState :=
  if done_ st then (Ok None, st)
  else next_loop (length text + 2) efuel p text config (next_start st) (next_start st).
End Search.

(** ** Match accessors *)

Definition match_group (m : Match_) (index : nat) : option (nat * nat) :=
  match index with
  | 0 => Some (m_range m)
  | S i => default None (captures m !! i)
  end.

(** The loop of [named_group]: the first set capture under that name; [best]
    only ever holds the unset capture of the first occurrence. *)
Fixpoint named_group_loop (caps : list (option (nat * nat))) (idx : nat) (gnames : list (list Z))
    (name : list Z) (best : option (nat * nat)) : option (nat * nat) :=
  match gnames with
  | [] => best
  | gname :: gnames =>
      if bool_decide (gname = name) then
        let cap := default None (caps !! idx) in
        match cap with
        | Some _ => cap
        | None => named_group_loop caps (S idx) gnames name
                    (match best with None => cap | _ => best end)
        end
      else named_group_loop caps (S idx) gnames name best
  end.

Definition named_group (m : Match_) (name : list Z) : option (nat * nat) :=
  match name with
  | [] => None
  | _ => named_group_loop (captures m) 0 (group_names m) name None
  end.

(** [NamedGroups::next]: the yielded pair and the new cursor. *)
Fixpoint named_groups_next (fuel : nat) (m : Match_) (next : nat)
    : option (list Z * option (nat * nat) * nat) :=
  match fuel with
  | 0 => None
  | S fuel =>
      match group_names m !! next with
      | None => None
      | Some name =>
          if bool_decide (name = []) || bool_decide (name ∈ take next (group_names m))
          then named_groups_next fuel m (S next)
          else Some (name, named_group m name, S next)
      end
  end.

(** The sequence the iterator yields from cursor [next]. *)
Fixpoint named_groups_from (fuel : nat) (m : Match_) (next : nat)
    : list (list Z * option (nat * nat)) :=
  match fuel with
  | 0 => []
  | S fuel =>
      match named_groups_next (S (length (group_names m))) m next with
      | None => []
      | Some (name, range, next') => (name, range) :: named_groups_from fuel m next'
      end
  end.
Definition named_groups (m : Match_) : list (list Z * option (nat * nat)) :=
  named_groups_from (S (length (group_names m))) m 0.
