(* ===== verification/Backtrack.v ===== *)
(** * What the executor computes: a backtracking semantics without a stack

    [bt prog inp backward pc pos caps r d] says that running the program from
    [pc] at [pos] with slots [caps], with no alternative pending, explores [d]
    backtrack points and ends in [r]: a match position with its slots, or
    failure.  It is defined over immutable slot vectors: no backtrack stack, no
    undo log, no give-back frames.  The refinement theorem shows that the
    machine of [Exec] (explicit stack, in-place slots with an undo log, chained
    give-back frames, a step counter) computes exactly this relation, and that
    it stops with [StepLimitExceeded] exactly when the number of backtrack
    points exceeds the configured budget. *)

From S2P Require Import Prelude Unicode Classes Program Exec.

Section Semantics.
Context `{Icu}.
Variable prog : Program.
Variable inp : Input.

(** Instructions with one successor: [Some None] fails, [Some (Some _)]
    continues at the next instruction; [None] for the other instructions and
    for operands out of range. *)
Definition simple_insn (i : Insn) (bw : bool) (pos : nat) (caps : Caps)
    : option (option (nat * Caps)) :=
  let move (r : option nat) := Some ((fun p => (p, caps)) <$> r) in
  let test (b : bool) := Some (if b then Some (pos, caps) else None) in
  match i with
  | Insn.Char c ic => move (consume_char prog inp c ic pos bw)
  | Insn.CharSeq s => move (consume_seq inp s pos bw)
  | Insn.AnyChar da => move (consume_any inp da pos bw)
  | Insn.Class c neg ic =>
      match classes prog !! c with
      | Some set => move (consume_class prog inp set neg ic pos bw)
      | None => None
      end
  | Insn.Fail => Some None
  | Insn.Save slot =>
      if (1 <? slot) && (slot <? length caps)
      then Some (Some (pos, <[slot := Some pos]> caps)) else None
  | Insn.SetMark slot =>
      if slot <? length caps then Some (Some (pos, <[slot := Some pos]> caps)) else None
  | Insn.ClearCapture g =>
      if 2 * g + 1 <? length caps
      then Some (Some (pos, <[2 * g + 1 := None]> (<[2 * g := None]> caps))) else None
  | Insn.CheckProgress slot =>
      match caps !! slot with
      | Some v => test (negb (bool_decide (v = Some pos)))
      | None => None
      end
  | Insn.AssertStart ml => test (at_start inp pos ml)
  | Insn.AssertEnd ml => test (at_end inp pos ml)
  | Insn.WordBoundary invert ic => test (xorb (word_boundary prog inp pos ic) invert)
  | Insn.BackRef indices ic =>
      match match_backref prog inp indices pos caps ic bw with
      | Ok r => move r
      | _ => None
      end
  | _ => None
  end.

(** The positions a fused repeat offers, in order: the first, then the rest. *)
Definition repeat_positions (min : Z) (greedy possessive bw : bool) (pos end_ : nat)
    : option (nat * list nat) :=
  if (Z.of_nat (abs_diff pos end_) <? min)%Z then None
  else
    let low := step pos (Z.to_nat min) bw in
    let n := abs_diff low end_ in
    if greedy then
      Some (end_, if possessive then []
                  else map (fun i => step end_ (S i) (negb bw)) (seq 0 n))
    else Some (low, map (fun i => step low (S i) bw) (seq 0 n)).

(** Instructions with alternatives: where to continue, and the program point
    and positions to fall back to. *)
Definition choice_insn (i : Insn) (bw : bool) (pc pos : nat)
    : option (option (nat * nat * (nat * list nat))) :=
  match i with
  | Insn.Jump t => Some (Some (t, pos, (t, [])))
  | Insn.Split a b => Some (Some (a, pos, (b, [pos])))
  | Insn.Repeat atom min greedy possessive =>
      match atom_test prog atom with
      | Ok tst =>
          Some ((fun '(p, ps) => (pc + 1, p, (pc + 1, ps))) <$>
                repeat_positions min greedy possessive bw pos (scan inp tst bw pos))
      | _ => None
      end
  | _ => None
  end.

Inductive bt : bool -> nat -> nat -> Caps -> option (nat * Caps) -> nat -> Prop :=
| bt_match bw pc pos caps :
    insns prog !! pc = Some Insn.Match -> 1 < length caps ->
    bt bw pc pos caps (Some (pos, <[1 := Some pos]> caps)) 0
| bt_look_match bw pc pos caps :
    insns prog !! pc = Some Insn.LookMatch ->
    bt bw pc pos caps (Some (pos, caps)) 0
| bt_next bw pc pos caps i pos' caps' r d :
    insns prog !! pc = Some i -> simple_insn i bw pos caps = Some (Some (pos', caps')) ->
    bt bw (pc + 1) pos' caps' r d -> bt bw pc pos caps r d
| bt_fail bw pc pos caps i :
    insns prog !! pc = Some i ->
    simple_insn i bw pos caps = Some None \/ choice_insn i bw pc pos = Some None ->
    bt bw pc pos caps None 0
| bt_hit bw pc pos caps i pc1 pos1 alts x d :
    insns prog !! pc = Some i -> choice_insn i bw pc pos = Some (Some (pc1, pos1, alts)) ->
    bt bw pc1 pos1 caps (Some x) d -> bt bw pc pos caps (Some x) d
| bt_miss bw pc pos caps i pc1 pos1 pc2 ps r d1 d2 :
    insns prog !! pc = Some i -> choice_insn i bw pc pos = Some (Some (pc1, pos1, (pc2, ps))) ->
    bt bw pc1 pos1 caps None d1 -> bt_list bw pc2 ps caps r d2 ->
    bt bw pc pos caps r (d1 + d2)
| bt_look_holds bw pc pos caps neg behind entry rl dl u r d :
    insns prog !! pc = Some (Insn.Look neg behind entry) ->
    bt behind entry pos caps rl dl -> look_verdict neg (snd <$> rl) caps = Some u ->
    bt bw (pc + 1) pos u r d -> bt bw pc pos caps r (S dl + d)
| bt_look_fails bw pc pos caps neg behind entry rl dl :
    insns prog !! pc = Some (Insn.Look neg behind entry) ->
    bt behind entry pos caps rl dl -> look_verdict neg (snd <$> rl) caps = None ->
    bt bw pc pos caps None (S dl)
(** Pending positions at one program point, each a backtrack point of its own. *)
with bt_list : bool -> nat -> list nat -> Caps -> option (nat * Caps) -> nat -> Prop :=
| btl_nil bw pc caps : bt_list bw pc [] caps None 0
| btl_hit bw pc p ps caps x d :
    bt bw pc p caps (Some x) d -> bt_list bw pc (p :: ps) caps (Some x) (S d)
| btl_miss bw pc p ps caps r d1 d2 :
    bt bw pc p caps None d1 -> bt_list bw pc ps caps r d2 ->
    bt_list bw pc (p :: ps) caps r (S d1 + d2).
End Semantics.

Scheme bt_mut := Induction for bt Sort Prop
with bt_list_mut := Induction for bt_list Sort Prop.
Combined Scheme bt_mutind from bt_mut, bt_list_mut.

(** ** Machine evaluation, up to fuel *)

Section Refinement.
Context `{Icu}.
Variable prog : Program.
Variable inp : Input.
Variable limit : Z.

Local Abbreviation result := (res ExecError (Z * option (nat * Caps))).

(** The machine reaches [r] with enough fuel. *)
Definition frames_to (steps : Z) (bw : bool) (caps : Caps) (stack : list Frame)
    (log : list UndoEntry) (r : result) : Prop :=
  r <> OutOfFuel /\ exists fuel, run_frames prog inp limit fuel steps bw caps stack log = r.
Definition inner_to (steps : Z) (bw : bool) (pc pos : nat) (caps : Caps) (stack : list Frame)
    (log : list UndoEntry) (r : result) : Prop :=
  r <> OutOfFuel /\ exists fuel, run_inner prog inp limit fuel steps bw pc pos caps stack log = r.

(** [caps'] and [log'] are [caps] and [log] with later writes on top. *)
Definition rolls_to (caps' : Caps) (log' : list UndoEntry) (caps : Caps) (log : list UndoEntry)
    : Prop :=
  length log <= length log' /\ rollback log' (length log) caps' = Ok (caps, log).

(** The positions a frame stands for. *)
Definition frame_positions (bw : bool) (fr : Frame) : list nat :=
  match f_resume fr with
  | At => [f_pos fr]
  | RepeatGreedy low =>
      map (fun i => step (f_pos fr) i (negb bw)) (seq 0 (S (abs_diff (f_pos fr) low)))
  | RepeatLazy high =>
      map (fun i => step (f_pos fr) i bw) (seq 0 (S (abs_diff (f_pos fr) high)))
  end.

(** A give-back frame lies on the right side of its last position. *)
Definition frame_ok (bw : bool) (fr : Frame) : Prop :=
  match f_resume fr with
  | At => True
  | RepeatGreedy low => if bw then f_pos fr <= low else low <= f_pos fr
  | RepeatLazy high => if bw then high <= f_pos fr else f_pos fr <= high
  end.

(** ** Fuel *)

#[local] Arguments run_frames : simpl never.
#[local] Arguments run_inner : simpl never.

Lemma run_frames_S fuel steps bw caps stack log :
  run_frames prog inp limit (S fuel) steps bw caps stack log =
  match stack with
  | [] => Ok (steps, None)
  | fr :: stack =>
      if (limit <? u64_wrapping_succ steps)%Z then Err StepLimitExceeded
      else let* (caps, log) := rollback log (f_log_mark fr) caps in
        run_inner prog inp limit fuel (u64_wrapping_succ steps) bw (f_pc fr) (f_pos fr) caps
          (push_resume fr bw stack) log
  end.
Proof. reflexivity. Qed.

Lemma run_inner_S fuel steps bw pc pos caps stack log :
  run_inner prog inp limit (S fuel) steps bw pc pos caps stack log =
  let* insn := index (insns prog) pc in
  match insn with
  | Insn.Look neg behind entry =>
      let* (steps, found) :=
        run_frames prog inp limit fuel steps behind caps [mkFrame entry pos 0 At] [] in
      match look_verdict neg (snd <$> found) caps with
      | Some updated =>
          let '(caps, log) := look_apply caps updated log in
          run_inner prog inp limit fuel steps bw (pc + 1) pos caps stack log
      | None => run_frames prog inp limit fuel steps bw caps stack log
      end
  | _ =>
      let* out := exec_insn prog inp insn bw pc pos caps stack log in
      match out with
      | Next pc pos caps stack log => run_inner prog inp limit fuel steps bw pc pos caps stack log
      | Accept pos caps => Ok (steps, Some (pos, caps))
      | Reject => run_frames prog inp limit fuel steps bw caps stack log
      end
  end.
Proof. reflexivity. Qed.

Lemma run_fuel_S fuel :
  (forall steps bw caps stack log,
     run_frames prog inp limit fuel steps bw caps stack log <> OutOfFuel ->
     run_frames prog inp limit (S fuel) steps bw caps stack log =
     run_frames prog inp limit fuel steps bw caps stack log) /\
  (forall steps bw pc pos caps stack log,
     run_inner prog inp limit fuel steps bw pc pos caps stack log <> OutOfFuel ->
     run_inner prog inp limit (S fuel) steps bw pc pos caps stack log =
     run_inner prog inp limit fuel steps bw pc pos caps stack log).
Proof.
  induction fuel as [|fuel [IHf IHi]]; [by split|]. split.
  - intros steps bw caps stack log. rewrite (run_frames_S (S fuel)), (run_frames_S fuel).
    destruct stack as [|fr stack]; [done|]. destruct (limit <? _)%Z; [done|].
    destruct (rollback log (f_log_mark fr) caps) as [[caps1 log1]| | |]; simpl; try done.
    intros Hne. by rewrite IHi.
  - intros steps bw pc pos caps stack log. rewrite (run_inner_S (S fuel)), (run_inner_S fuel).
    destruct (index (insns prog) pc) as [i| | |]; simpl; try done.
    destruct i; try (destruct (exec_insn _ _ _ _ _ _ _ _ _) as [[? ? ? ? ?|? ?|]| | |];
      simpl; try done; intros Hne; [by rewrite IHi|by rewrite IHf]).
    intros Hne.
    assert (Hsub : run_frames prog inp limit fuel steps behind caps [mkFrame entry pos 0 At] []
      <> OutOfFuel) by (intros E; by rewrite E in Hne).
    rewrite (IHf _ _ _ _ _ Hsub).
    destruct (run_frames prog inp limit fuel steps behind caps [mkFrame entry pos 0 At] [])
      as [[s found]|e| |]; simpl in *; try done.
    destruct (look_verdict _ _ _) as [u|]; [|by rewrite IHf].
    destruct (look_apply caps u log). by rewrite IHi.
Qed.

Lemma run_frames_mono fuel fuel' steps bw caps stack log r :
  fuel <= fuel' -> r <> OutOfFuel ->
  run_frames prog inp limit fuel steps bw caps stack log = r ->
  run_frames prog inp limit fuel' steps bw caps stack log = r.
Proof.
  induction 1 as [|fuel' Hle IH]; [done|]. intros Hne Hr. specialize (IH Hne Hr).
  rewrite (proj1 (run_fuel_S fuel')); [done|congruence].
Qed.

Lemma run_inner_mono fuel fuel' steps bw pc pos caps stack log r :
  fuel <= fuel' -> r <> OutOfFuel ->
  run_inner prog inp limit fuel steps bw pc pos caps stack log = r ->
  run_inner prog inp limit fuel' steps bw pc pos caps stack log = r.
Proof.
  induction 1 as [|fuel' Hle IH]; [done|]. intros Hne Hr. specialize (IH Hne Hr).
  rewrite (proj2 (run_fuel_S fuel')); [done|congruence].
Qed.

(** ** One machine move, read backwards from its outcome *)

Lemma frames_to_nil steps bw caps log : frames_to steps bw caps [] log (Ok (steps, None)).
Proof. split; [done|]. by exists 1. Qed.

Lemma frames_to_limit steps bw caps fr stack log :
  (limit < u64_wrapping_succ steps)%Z ->
  frames_to steps bw caps (fr :: stack) log (Err StepLimitExceeded).
Proof.
  intros Hl. split; [done|]. exists 1. rewrite run_frames_S.
  by rewrite (proj2 (Z.ltb_lt _ _) Hl).
Qed.

Lemma frames_to_pop steps bw caps fr stack log caps1 log1 r :
  (u64_wrapping_succ steps <= limit)%Z ->
  rollback log (f_log_mark fr) caps = Ok (caps1, log1) ->
  inner_to (u64_wrapping_succ steps) bw (f_pc fr) (f_pos fr) caps1
    (push_resume fr bw stack) log1 r ->
  frames_to steps bw caps (fr :: stack) log r.
Proof.
  intros Hl Hr [Hne [fuel Hf]]. split; [done|]. exists (S fuel). rewrite run_frames_S.
  rewrite (proj2 (Z.ltb_ge _ _) Hl), Hr. done.
Qed.

Lemma inner_to_exec steps bw pc pos caps stack log i out r :
  insns prog !! pc = Some i -> (forall n b e, i <> Insn.Look n b e) ->
  exec_insn prog inp i bw pc pos caps stack log = Ok out ->
  match out with
  | Next pc pos caps stack log => inner_to steps bw pc pos caps stack log r
  | Accept pos caps => r = Ok (steps, Some (pos, caps))
  | Reject => frames_to steps bw caps stack log r
  end ->
  inner_to steps bw pc pos caps stack log r.
Proof.
  intros Hi Hl He Hout.
  assert (Hidx : @index ExecError _ (insns prog) pc = Ok i) by (by apply index_Ok).
  destruct out as [pc' pos' caps' stack' log'|pos' caps'|].
  - destruct Hout as [Hne [fuel Hf]]. split; [done|]. exists (S fuel).
    rewrite run_inner_S, Hidx. simpl. destruct i; try (by rewrite He); by exfalso; eapply Hl.
  - subst r. split; [done|]. exists 1. rewrite run_inner_S, Hidx. simpl.
    destruct i; try (by rewrite He); by exfalso; eapply Hl.
  - destruct Hout as [Hne [fuel Hf]]. split; [done|]. exists (S fuel).
    rewrite run_inner_S, Hidx. simpl. destruct i; try (by rewrite He); by exfalso; eapply Hl.
Qed.

Lemma inner_to_look steps bw pc pos caps stack log neg behind entry steps1 found r :
  insns prog !! pc = Some (Insn.Look neg behind entry) ->
  frames_to steps behind caps [mkFrame entry pos 0 At] [] (Ok (steps1, found)) ->
  match look_verdict neg (snd <$> found) caps with
  | Some u =>
      inner_to steps1 bw (pc + 1) pos (look_apply caps u log).1 stack (look_apply caps u log).2 r
  | None => frames_to steps1 bw caps stack log r
  end ->
  inner_to steps bw pc pos caps stack log r.
Proof.
  intros Hi [_ [f1 Hf1]] Hv.
  assert (Hidx : @index ExecError _ (insns prog) pc = Ok (Insn.Look neg behind entry))
    by (by apply index_Ok).
  assert (Hsub : forall f, f1 <= f ->
    run_frames prog inp limit f steps behind caps [mkFrame entry pos 0 At] [] = Ok (steps1, found))
    by (intros f Hle; by apply (run_frames_mono f1)).
  destruct (look_verdict neg (snd <$> found) caps) as [u|] eqn:Ev;
    destruct Hv as [Hne [f2 Hf2]]; split; try done; exists (S (max f1 f2));
    rewrite run_inner_S, Hidx; simpl; rewrite (Hsub (max f1 f2)) by lia; simpl; rewrite Ev.
  - destruct (look_apply caps u log) as [c l]. simpl in Hf2.
    by apply (run_inner_mono f2); [lia|done|].
  - by apply (run_frames_mono f2); [lia|done|].
Qed.

(** A frame run stopped by the budget inside a lookaround body stops the whole. *)
Lemma inner_to_look_limit steps bw pc pos caps stack log neg behind entry :
  insns prog !! pc = Some (Insn.Look neg behind entry) ->
  frames_to steps behind caps [mkFrame entry pos 0 At] [] (Err StepLimitExceeded) ->
  inner_to steps bw pc pos caps stack log (Err StepLimitExceeded).
Proof.
  intros Hi [_ [f1 Hf1]]. split; [done|]. exists (S f1). rewrite run_inner_S.
  assert (Hidx : @index ExecError _ (insns prog) pc = Ok (Insn.Look neg behind entry))
    by (by apply index_Ok).
  rewrite Hidx. simpl. by rewrite Hf1.
Qed.

(** ** The undo log *)

Lemma rollback_length log m caps caps' log' :
  rollback log m caps = Ok (caps', log') -> length caps' = length caps.
Proof.
  revert caps. induction log as [|[slot old] log IH]; intros caps Hr; cbn [rollback] in Hr.
  - by simplify_eq.
  - destruct (m <? _); [|by simplify_eq].
    destruct (index caps slot) eqn:E; simpl in Hr; try done.
    apply IH in Hr. by rewrite length_insert in Hr.
Qed.

Lemma rolls_to_refl caps log : rolls_to caps log caps log.
Proof.
  split; [done|]. destruct log as [|[slot old] log]; [done|]. cbn [rollback].
  by rewrite Nat.ltb_irrefl.
Qed.

Lemma rollback_lower caps' log' caps log m :
  rolls_to caps' log' caps log -> m <= length log -> rollback log' m caps' = rollback log m caps.
Proof.
  intros [Hle Hr] Hm. revert caps' Hle Hr.
  induction log' as [|[slot old] log' IH]; intros caps' Hle Hr; cbn [rollback] in Hr.
  - by simplify_eq.
  - destruct (length log <? _) eqn:E; boolprop; [|by simplify_eq].
    destruct (index caps' slot) eqn:Ei; simpl in Hr; try done.
    cbn [rollback]. rewrite (proj2 (Nat.ltb_lt _ _)) by (simpl in *; lia).
    rewrite Ei. simpl. apply IH; [simpl in E; lia|done].
Qed.

Lemma rolls_to_trans c2 l2 c1 l1 c l :
  rolls_to c2 l2 c1 l1 -> rolls_to c1 l1 c l -> rolls_to c2 l2 c l.
Proof.
  intros H21 [Hle Hr]. destruct H21 as [Hle' Hr'] eqn:E.
  split; [lia|]. by rewrite (rollback_lower c2 l2 c1 l1).
Qed.

Lemma rolls_to_length c1 l1 c l : rolls_to c1 l1 c l -> length c = length c1.
Proof. intros [_ Hr]. by eapply rollback_length. Qed.

Lemma write_slot_rolls caps log slot v :
  slot < length caps ->
  exists old, write_slot caps log slot v = Ok (<[slot := v]> caps, (slot, old) :: log) /\
    rolls_to (<[slot := v]> caps) ((slot, old) :: log) caps log.
Proof.
  intros Hs. destruct (lookup_lt_is_Some_2 caps slot Hs) as [old Hold]. exists old.
  unfold write_slot. rewrite (proj2 (index_Ok caps slot old) Hold). split; [done|].
  split; [simpl; lia|]. cbn [rollback]. rewrite (proj2 (Nat.ltb_lt _ _)) by (simpl; lia).
  assert (Hx : <[slot := v]> caps !! slot = Some v) by (by apply list_lookup_insert_eq).
  rewrite (proj2 (index_Ok _ _ _) Hx). simpl. rewrite list_insert_insert_eq.
  rewrite list_insert_id by done. apply rolls_to_refl.
Qed.

Lemma look_apply_prefix caps u log k :
  length u = length caps -> k <= length caps ->
  let st := fold_left (look_apply_one u) (seq 0 k) (caps, log) in
  length st.1 = length caps /\ rolls_to st.1 st.2 caps log /\
  (forall i, i < k -> st.1 !! i = u !! i) /\ (forall i, k <= i -> st.1 !! i = caps !! i).
Proof.
  intros Hu. induction k as [|k IH]; intros Hk.
  - simpl. split; [done|]. split; [apply rolls_to_refl|]. split; [lia|done].
  - rewrite seq_S, fold_left_app. simpl.
    destruct (IH ltac:(lia)) as (Hlen & Hroll & Hlow & Hhigh).
    set (st := fold_left _ _ _) in *. unfold look_apply_one.
    destruct (lookup_lt_is_Some_2 st.1 k ltac:(lia)) as [a Ha].
    destruct (lookup_lt_is_Some_2 u k ltac:(lia)) as [b Hb]. rewrite Ha, Hb.
    case_bool_decide as Hab.
    + subst b. split; [done|]. split; [done|]. split; [|intros i Hi; apply Hhigh; lia].
      intros i Hi. destruct (decide (i = k)) as [->|Hne]; [congruence|]. apply Hlow. lia.
    + simpl. split; [by rewrite length_insert|]. split.
      { destruct (write_slot_rolls st.1 st.2 k b ltac:(lia)) as (old & Hw & Hr).
        unfold write_slot in Hw. rewrite (proj2 (index_Ok st.1 k a) Ha) in Hw. simpl in Hw.
        simplify_eq. by eapply rolls_to_trans. }
      split.
      * intros i Hi. destruct (decide (i = k)) as [->|Hne].
        -- by rewrite list_lookup_insert_eq by lia.
        -- rewrite list_lookup_insert_ne by done. apply Hlow. lia.
      * intros i Hi. rewrite list_lookup_insert_ne by lia. apply Hhigh. lia.
Qed.

Lemma look_apply_rolls caps u log :
  length u = length caps ->
  exists log', look_apply caps u log = (u, log') /\ rolls_to u log' caps log.
Proof.
  intros Hu. destruct (look_apply_prefix caps u log (length caps) Hu (Nat.le_refl _))
    as (Hlen & Hroll & Hlow & Hhigh).
  unfold look_apply. destruct (fold_left _ _ _) as [c l]; simpl in *.
  assert (c = u) as ->.
  { apply list_eq. intros i. destruct (decide (i < length caps)); [by apply Hlow|].
    rewrite !lookup_ge_None_2 by lia. done. }
  by exists l.
Qed.

(** ** Instructions *)

Lemma exec_simple_next i bw pc pos caps stack log pos' caps' :
  simple_insn prog inp i bw pos caps = Some (Some (pos', caps')) ->
  exists log', exec_insn prog inp i bw pc pos caps stack log = Ok (Next (pc + 1) pos' caps' stack log')
    /\ rolls_to caps' log' caps log.
Proof.
  intros Hs.
  assert (Hmove : forall r : option nat, (fun p => (p, caps)) <$> r = Some (pos', caps') ->
    caps' = caps /\ goto_next pc caps stack log r = Next (pc + 1) pos' caps' stack log).
  { intros [p|] Hr; simpl in Hr; by simplify_eq. }
  assert (Htest : forall b : bool, (if b then Some (pos, caps) else None) = Some (pos', caps') ->
    caps' = caps /\ goto_next pc caps stack log (if b then Some pos else None)
                    = Next (pc + 1) pos' caps' stack log).
  { intros [|] Hb; by simplify_eq. }
  destruct i; cbn [simple_insn exec_insn] in Hs |- *; try done.
  all: try (injection Hs as Hs; first [apply Hmove in Hs|apply Htest in Hs];
    destruct Hs as [-> ->]; exists log; split; [done|apply rolls_to_refl]).
  - destruct (classes prog !! class) as [set|] eqn:Ec; [|done].
    rewrite (proj2 (index_Ok _ _ _) Ec). simpl. injection Hs as Hs.
    apply Hmove in Hs as [-> ->]. exists log. split; [done|apply rolls_to_refl].
  - destruct ((1 <? index) && (index <? length caps)) eqn:E; [|done]. boolprop. simplify_eq.
    unfold exec_save. rewrite (proj2 (Nat.ltb_lt _ _)) by done.
    destruct (write_slot_rolls caps log index (Some pos')) as (old & Hw & Hr); [done|].
    rewrite Hw. simpl. eauto.
  - destruct (2 * index + 1 <? length caps) eqn:E; [|done]. boolprop. simplify_eq.
    unfold exec_clear.
    destruct (write_slot_rolls caps log (2 * index) None) as (old & Hw & Hr); [lia|].
    rewrite Hw. cbn [rbind].
    destruct (write_slot_rolls (<[2 * index := None]> caps) ((2 * index, old) :: log)
      (2 * index + 1) None) as (old' & Hw' & Hr'); [rewrite length_insert; lia|].
    rewrite Hw'. cbn [rbind]. eexists. split; [done|]. by eapply rolls_to_trans.
  - destruct (index <? length caps) eqn:E; [|done]. boolprop. simplify_eq.
    destruct (write_slot_rolls caps log index (Some pos')) as (old & Hw & Hr); [done|].
    rewrite Hw. simpl. eauto.
  - destruct (caps !! index) as [v|] eqn:Ec; [|done].
    rewrite (proj2 (index_Ok _ _ _) Ec). simpl. injection Hs as Hs.
    apply Htest in Hs as [-> ->]. exists log. split; [done|apply rolls_to_refl].
  - destruct (match_backref _ _ _ _ _ _ _) as [r| | |]; try done. simpl. injection Hs as Hs.
    apply Hmove in Hs as [-> ->]. exists log. split; [done|apply rolls_to_refl].
Qed.

Lemma exec_simple_fail i bw pc pos caps stack log :
  simple_insn prog inp i bw pos caps = Some None ->
  exec_insn prog inp i bw pc pos caps stack log = Ok Reject.
Proof.
  intros Hs.
  assert (Hmove : forall r : option nat, (fun p => (p, caps)) <$> r = None ->
    goto_next pc caps stack log r = Reject) by (by intros [p|]).
  assert (Htest : forall b : bool, (if b then Some (pos, caps) else None) = None ->
    goto_next pc caps stack log (if b then Some pos else None) = Reject) by (by intros [|]).
  destruct i; cbn [simple_insn exec_insn] in Hs |- *; try done.
  all: try (injection Hs as Hs; by rewrite ?(Hmove _ Hs), ?(Htest _ Hs)).
  - destruct (classes prog !! class) as [set|] eqn:Ec; [|done].
    rewrite (proj2 (index_Ok _ _ _) Ec). simpl. injection Hs as Hs. by rewrite Hmove.
  - by destruct (_ && _).
  - by destruct (_ <? _).
  - by destruct (_ <? _).
  - destruct (caps !! index) as [v|] eqn:Ec; [|done].
    rewrite (proj2 (index_Ok _ _ _) Ec). simpl. injection Hs as Hs. by rewrite Htest.
  - destruct (match_backref _ _ _ _ _ _ _) as [r| | |]; try done. simpl. injection Hs as Hs.
    by rewrite Hmove.
Qed.

Lemma scan_loop_dir fuel (tst : Z -> bool) (bw : bool) (e : nat) :
  if bw then scan_loop inp fuel tst bw e <= e else e <= scan_loop inp fuel tst bw e.
Proof.
  revert e. induction fuel as [|fuel IH]; intros e; simpl; [by destruct bw|].
  destruct bw.
  - destruct e as [|e]; [done|]. destruct (units inp !! e); [|done]. destruct (tst z); [|done].
    specialize (IH (step (S e) 1 true)). unfold step in *. lia.
  - destruct (units inp !! e); [|done]. destruct (tst z); [|done].
    specialize (IH (step e 1 false)). unfold step in *. lia.
Qed.

(** The give-back frame [exec_repeat] pushes stands for the remaining positions. *)
Lemma exec_repeat_positions min greedy possessive (bw : bool) (pc pos e len : nat) :
  (if bw then e <= pos else pos <= e) ->
  match repeat_positions min greedy possessive bw pos e with
  | None => exec_repeat min greedy possessive bw pc pos e len = None
  | Some (p, ps) =>
      (ps = [] /\ exec_repeat min greedy possessive bw pc pos e len = Some (p, None)) \/
      (exists fr, exec_repeat min greedy possessive bw pc pos e len = Some (p, Some fr) /\
         ps <> [] /\ frame_positions bw fr = ps /\ frame_ok bw fr /\
         f_pc fr = pc + 1 /\ f_log_mark fr = len)
  end.
Proof.
  intros Hdir. unfold repeat_positions, exec_repeat.
  destruct (Z.of_nat (abs_diff pos e) <? min)%Z eqn:E; [done|].
  set (low := step pos (Z.to_nat min) bw).
  assert (Hlow : if bw then e <= low else low <= e).
  { apply Z.ltb_ge in E. unfold low, step, abs_diff in *. clear low. destruct bw; simpl in *; lia. }
  clearbody low. clear E Hdir.
  destruct greedy; [destruct possessive; [by left|]|]; simpl; destruct (e =? low) eqn:Ee; boolprop; simpl.
  1, 3: subst; left; unfold abs_diff; by rewrite Nat.sub_diag.
  - right. eexists. split; [done|]. unfold frame_positions, frame_ok; cbn [f_resume f_pos f_pc f_log_mark]. split; [|split; [|split]].
    + unfold abs_diff. destruct bw; intros Hm; apply map_eq_nil in Hm;
        apply (f_equal (@length nat)) in Hm; rewrite length_seq in Hm; simpl in Hm; lia.
    + replace (S (abs_diff (step e 1 (negb bw)) low)) with (abs_diff low e)
        by (unfold step, abs_diff; destruct bw; simpl; lia).
      apply map_ext. intros i. unfold step. destruct bw; simpl; lia.
    + unfold step. destruct bw; simpl; lia.
    + done.
  - right. eexists. split; [done|]. unfold frame_positions, frame_ok; cbn [f_resume f_pos f_pc f_log_mark]. split; [|split; [|split]].
    + unfold abs_diff. destruct bw; intros Hm; apply map_eq_nil in Hm;
        apply (f_equal (@length nat)) in Hm; rewrite length_seq in Hm; simpl in Hm; lia.
    + replace (S (abs_diff (step low 1 bw) e)) with (abs_diff low e)
        by (unfold step, abs_diff; destruct bw; simpl; lia).
      apply map_ext. intros i. unfold step. destruct bw; simpl; lia.
    + unfold step. destruct bw; simpl; lia.
    + done.
Qed.

Lemma exec_choice i bw pc pos caps stack log pc1 pos1 pc2 ps :
  choice_insn prog inp i bw pc pos = Some (Some (pc1, pos1, (pc2, ps))) ->
  (ps = [] /\ exec_insn prog inp i bw pc pos caps stack log = Ok (Next pc1 pos1 caps stack log)) \/
  (exists fr, exec_insn prog inp i bw pc pos caps stack log = Ok (Next pc1 pos1 caps (fr :: stack) log) /\
     ps <> [] /\ frame_positions bw fr = ps /\ frame_ok bw fr /\
     f_pc fr = pc2 /\ f_log_mark fr = length log).
Proof.
  destruct i; cbn [choice_insn exec_insn]; try done.
  - destruct (atom_test prog atom) as [tst| | |]; try done. cbn [rbind]. intros [= Hr].
    pose proof (exec_repeat_positions min greedy possessive bw pc pos (scan inp tst bw pos) (length log)
      (scan_loop_dir _ _ _ _)) as Hx.
    destruct (repeat_positions _ _ _ _ _ _) as [[p ps']|]; simpl in Hr; [|done]. simplify_eq.
    destruct Hx as [[-> ->]|(fr & -> & Hfr)]; [by left|right]. exists fr. done.
  - intros [= <- <- <- <-]. by left.
  - intros [= <- <- <- <-]. right. eexists. done.
Qed.

Lemma exec_choice_fail i bw pc pos caps stack log :
  choice_insn prog inp i bw pc pos = Some None ->
  exec_insn prog inp i bw pc pos caps stack log = Ok Reject.
Proof.
  destruct i; cbn [choice_insn exec_insn]; try done.
  destruct (atom_test prog atom) as [tst| | |]; try done. cbn [rbind]. intros [= Hr].
  pose proof (exec_repeat_positions min greedy possessive bw pc pos (scan inp tst bw pos) (length log)
    (scan_loop_dir _ _ _ _)) as Hx.
  destruct (repeat_positions _ _ _ _ _ _) as [[p ps']|]; simpl in Hr; [done|]. by rewrite Hx.
Qed.

(** Popping a frame leaves a frame for the positions after its first. *)
Lemma push_resume_positions bw fr stack p ps :
  frame_positions bw fr = p :: ps -> frame_ok bw fr ->
  p = f_pos fr /\
  ((ps = [] /\ push_resume fr bw stack = stack) \/
   (exists fr', push_resume fr bw stack = fr' :: stack /\ ps <> [] /\
      frame_positions bw fr' = ps /\ frame_ok bw fr' /\
      f_pc fr' = f_pc fr /\ f_log_mark fr' = f_log_mark fr)).
Proof.
  intros Hp Hok. unfold frame_positions, frame_ok, push_resume in *.
  destruct (f_resume fr) as [|low|high].
  - simplify_eq. split; [done|]. by left.
  - cbn [seq map] in Hp. injection Hp as <- Hps.
    split; [unfold step; destruct bw; simpl; lia|].
    destruct (f_pos fr =? low) eqn:E; boolprop.
    + left. rewrite E in Hps. unfold abs_diff in Hps. by rewrite Nat.sub_diag in Hps.
    + right. eexists. split; [done|]. cbn [f_resume f_pos f_pc f_log_mark]. split; [|split; [|split; [|done]]].
      * intros ->. apply map_eq_nil, (f_equal (@length nat)) in Hps. rewrite length_seq in Hps.
        unfold abs_diff in Hps. simpl in Hps. lia.
      * rewrite <- Hps. rewrite <- seq_shift, map_map.
        replace (abs_diff (f_pos fr) low) with (S (abs_diff (step (f_pos fr) 1 (negb bw)) low))
          by (unfold step, abs_diff; destruct bw; simpl; lia).
        apply map_ext. intros i. unfold step. destruct bw; simpl; lia.
      * unfold step. destruct bw; simpl; lia.
  - cbn [seq map] in Hp. injection Hp as <- Hps.
    split; [unfold step; destruct bw; simpl; lia|].
    destruct (f_pos fr =? high) eqn:E; boolprop.
    + left. rewrite E in Hps. unfold abs_diff in Hps. by rewrite Nat.sub_diag in Hps.
    + right. eexists. split; [done|]. cbn [f_resume f_pos f_pc f_log_mark]. split; [|split; [|split; [|done]]].
      * intros ->. apply map_eq_nil, (f_equal (@length nat)) in Hps. rewrite length_seq in Hps.
        unfold abs_diff in Hps. simpl in Hps. lia.
      * rewrite <- Hps. rewrite <- seq_shift, map_map.
        replace (abs_diff (f_pos fr) high) with (S (abs_diff (step (f_pos fr) 1 bw) high))
          by (unfold step, abs_diff; destruct bw; simpl; lia).
        apply map_ext. intros i. unfold step. destruct bw; simpl; lia.
      * unfold step. destruct bw; simpl; lia.
Qed.

(** ** Simulation *)

Lemma u64_succ_small x : (0 <= x < u64_max)%Z -> u64_wrapping_succ x = (x + 1)%Z.
Proof. unfold u64_wrapping_succ, u64_max. intros ?. apply Z.mod_small. lia. Qed.

(** Starting [go] with [steps] on the counter amounts to [d] backtrack points
    ending in [r]: the run succeeds with the counter advanced by [d], or fails
    over to the pending [stack] with slots and log that roll back to [caps]
    and [log]; and it stops at the limit when [d] does not fit the budget. *)
Definition sim (go : result -> Prop) (steps : Z) (bw : bool) (stack : list Frame) (caps : Caps)
    (log : list UndoEntry) (r : option (nat * Caps)) (d : nat) : Prop :=
  (steps + Z.of_nat d <= limit ->
   match r with
   | Some x => go (Ok ((steps + Z.of_nat d)%Z, Some x))
   | None => exists caps' log', rolls_to caps' log' caps log /\
       forall o, frames_to (steps + Z.of_nat d) bw caps' stack log' o -> go o
   end)%Z /\
  (steps <= limit < u64_max -> limit < steps + Z.of_nat d -> go (Err StepLimitExceeded))%Z.

Lemma sim_impl (go go' : result -> Prop) steps bw stack caps log r d :
  (forall o, go o -> go' o) ->
  sim go steps bw stack caps log r d -> sim go' steps bw stack caps log r d.
Proof.
  intros Hgo [H1 H2]. split; [|by intros; apply Hgo, H2]. intros Hl. specialize (H1 Hl).
  destruct r as [x|]; [by apply Hgo|]. destruct H1 as (c & l & Hr & Ho). exists c, l. eauto.
Qed.

Lemma sim_rebase go steps bw stack caps' log' caps log r d :
  rolls_to caps' log' caps log ->
  sim go steps bw stack caps' log' r d -> sim go steps bw stack caps log r d.
Proof.
  intros Hroll [H1 H2]. split; [|done]. intros Hl. specialize (H1 Hl).
  destruct r as [x|]; [done|]. destruct H1 as (c & l & Hr & Ho). exists c, l.
  split; [|done]. by eapply rolls_to_trans.
Qed.

Lemma sim_rejected steps bw stack caps' log' caps log :
  rolls_to caps' log' caps log ->
  sim (frames_to steps bw caps' stack log') steps bw stack caps log None 0.
Proof.
  intros Hr. split; [|lia]. intros _. exists caps', log'. split; [done|].
  by rewrite Z.add_0_r.
Qed.

Lemma sim_then go steps bw stack' stack caps log r d1 d2 :
  sim go steps bw stack' caps log None d1 ->
  (forall caps' log', rolls_to caps' log' caps log ->
     sim (frames_to (steps + Z.of_nat d1) bw caps' stack' log') (steps + Z.of_nat d1) bw stack
       caps log r d2) ->
  sim go steps bw stack caps log r (d1 + d2).
Proof.
  intros [H1 H2] Hk. unfold sim. rewrite Nat2Z.inj_add, Z.add_assoc. split.
  - intros Hl. destruct (H1 ltac:(lia)) as (c & l & Hr & Ho).
    destruct (sim_impl _ _ _ _ _ _ _ _ _ Ho (Hk c l Hr)) as [H3 _]. by apply H3.
  - intros Hl Hover. destruct (decide (limit < steps + Z.of_nat d1)%Z) as [|Hge]; [by apply H2|].
    destruct (H1 ltac:(lia)) as (c & l & Hr & Ho).
    destruct (sim_impl _ _ _ _ _ _ _ _ _ Ho (Hk c l Hr)) as [_ H3]. apply H3; lia.
Qed.

(** Popping a frame whose alternative behaves like [d] points costs [S d]. *)
Lemma sim_pop steps bw caps1 fr stack0 stack log1 caps log r d :
  (0 <= steps)%Z -> (limit <= u64_max)%Z -> f_log_mark fr = length log ->
  rolls_to caps1 log1 caps log ->
  sim (inner_to (steps + 1) bw (f_pc fr) (f_pos fr) caps (push_resume fr bw stack0) log)
    (steps + 1) bw stack caps log r d ->
  sim (frames_to steps bw caps1 (fr :: stack0) log1) steps bw stack caps log r (S d).
Proof.
  intros H0 Hlim Hmark [_ Hroll] [H1 H2].
  assert (Hpop : forall o, (steps + 1 <= limit)%Z ->
    inner_to (steps + 1) bw (f_pc fr) (f_pos fr) caps (push_resume fr bw stack0) log o ->
    frames_to steps bw caps1 (fr :: stack0) log1 o).
  { intros o Hl Ho. eapply frames_to_pop; rewrite ?Hmark, ?u64_succ_small; eauto; lia. }
  unfold sim. replace (steps + Z.of_nat (S d))%Z with (steps + 1 + Z.of_nat d)%Z by lia. split.
  - intros Hl. specialize (H1 Hl). destruct r as [x|]; [apply Hpop; [lia|done]|].
    destruct H1 as (c & l & Hr & Ho). exists c, l. split; [done|].
    intros o Hf. apply Hpop; [lia|]. by apply Ho.
  - intros Hl Hover. destruct (decide (limit < steps + 1)%Z).
    + apply frames_to_limit. rewrite u64_succ_small; lia.
    + apply Hpop; [lia|]. apply H2; lia.
Qed.

(** A run on buffers of its own: the initial frame is a backtrack point too. *)
Lemma sim_run steps bw entry pos caps r d :
  (0 <= steps)%Z -> (limit <= u64_max)%Z ->
  sim (inner_to (steps + 1) bw entry pos caps [] []) (steps + 1) bw [] caps [] r d ->
  let go := frames_to steps bw caps [mkFrame entry pos 0 At] [] in
  (steps + Z.of_nat (S d) <= limit -> go (Ok ((steps + Z.of_nat (S d))%Z, r)))%Z /\
  (steps <= limit < u64_max -> limit < steps + Z.of_nat (S d) -> go (Err StepLimitExceeded))%Z.
Proof.
  intros H0 Hlim Hsim. apply (sim_pop _ _ caps (mkFrame entry pos 0 At) [] [] []) in Hsim;
    [|done|done|done|apply rolls_to_refl].
  destruct Hsim as [H1 H2]. split; [|done]. intros Hl. specialize (H1 Hl).
  destruct r as [x|]; [done|]. destruct H1 as (c & l & _ & Ho). apply Ho, frames_to_nil.
Qed.

Lemma simple_insn_length i bw pos caps pos' caps' :
  simple_insn prog inp i bw pos caps = Some (Some (pos', caps')) -> length caps' = length caps.
Proof.
  intros Hs. destruct (exec_simple_next i bw 0 pos caps [] [] pos' caps' Hs) as (l & _ & Hr).
  symmetry. by eapply rolls_to_length.
Qed.

Lemma look_verdict_length neg caps (found : option Caps) u :
  look_verdict neg found caps = Some u ->
  (forall c, found = Some c -> length c = length caps) -> length u = length caps.
Proof. destruct neg, found; simpl; intros ? Hf; simplify_eq; eauto. Qed.

Lemma bt_length :
  (forall bw pc pos caps r d, bt prog inp bw pc pos caps r d ->
     forall p c, r = Some (p, c) -> length c = length caps) /\
  (forall bw pc ps caps r d, bt_list prog inp bw pc ps caps r d ->
     forall p c, r = Some (p, c) -> length c = length caps).
Proof.
  apply bt_mutind; intros; simplify_eq; rewrite ?length_insert; eauto.
  - rewrite <- (simple_insn_length i bw pos caps pos' caps'); eauto.
  - rewrite <- (look_verdict_length neg caps (snd <$> rl) u); [eauto|done|].
    intros c' Hc. destruct rl as [[p' c'']|]; simplify_eq/=; eauto.
Qed.

Lemma bt_caps_length bw pc pos caps p c d :
  bt prog inp bw pc pos caps (Some (p, c)) d -> length c = length caps.
Proof. intros Hb. by eapply (proj1 bt_length). Qed.

Lemma sim_choice bw pc pos caps stack log steps i pc1 pos1 pc2 ps r d1 d2 :
  insns prog !! pc = Some i ->
  choice_insn prog inp i bw pc pos = Some (Some (pc1, pos1, (pc2, ps))) ->
  (ps = [] -> r = None /\ d2 = 0) ->
  (forall stack', sim (inner_to steps bw pc1 pos1 caps stack' log) steps bw stack' caps log None d1) ->
  (forall fr caps1 log1, ps <> [] -> frame_positions bw fr = ps -> frame_ok bw fr ->
     f_pc fr = pc2 -> f_log_mark fr = length log -> rolls_to caps1 log1 caps log ->
     sim (frames_to (steps + Z.of_nat d1) bw caps1 (fr :: stack) log1) (steps + Z.of_nat d1)
       bw stack caps log r d2) ->
  sim (inner_to steps bw pc pos caps stack log) steps bw stack caps log r (d1 + d2).
Proof.
  intros Hi Hc Hnil H1 H2.
  assert (Hnl : forall n b e, i <> Insn.Look n b e) by (by intros ? ? ? ->).
  destruct (exec_choice i bw pc pos caps stack log pc1 pos1 pc2 ps Hc)
    as [[-> He]|(fr & He & Hne & Hp & Hok & Hpc & Hm)].
  - destruct (Hnil eq_refl) as [-> ->]. rewrite Nat.add_0_r.
    eapply sim_impl; [|by apply H1]. intros o Ho. by eapply inner_to_exec.
  - apply (sim_then _ _ _ (fr :: stack)).
    + eapply sim_impl; [|by apply H1]. intros o Ho. by eapply inner_to_exec.
    + intros caps' log' Hr. by apply H2.
Qed.

Lemma sim_look_holds steps bw pc pos caps stack log neg behind entry rl dl u log' r d :
  insns prog !! pc = Some (Insn.Look neg behind entry) ->
  look_verdict neg (snd <$> rl) caps = Some u -> look_apply caps u log = (u, log') ->
  (steps + Z.of_nat (S dl) <= limit ->
   frames_to steps behind caps [mkFrame entry pos 0 At] [] (Ok ((steps + Z.of_nat (S dl))%Z, rl)))%Z ->
  (steps <= limit < u64_max -> limit < steps + Z.of_nat (S dl) ->
   frames_to steps behind caps [mkFrame entry pos 0 At] [] (Err StepLimitExceeded))%Z ->
  sim (inner_to (steps + Z.of_nat (S dl)) bw (pc + 1) pos u stack log')
    (steps + Z.of_nat (S dl)) bw stack caps log r d ->
  sim (inner_to steps bw pc pos caps stack log) steps bw stack caps log r (S dl + d).
Proof.
  intros Hi Hv Ha Hrun Hstop [H1 H2].
  assert (Hgo : forall o, (steps + Z.of_nat (S dl) <= limit)%Z ->
    inner_to (steps + Z.of_nat (S dl)) bw (pc + 1) pos u stack log' o ->
    inner_to steps bw pc pos caps stack log o).
  { intros o Hl Ho. eapply inner_to_look; [done|by apply Hrun|]. by rewrite Hv, Ha. }
  unfold sim. rewrite Nat2Z.inj_add, Z.add_assoc. split.
  - intros Hl. specialize (H1 Hl). destruct r as [x|]; [apply Hgo; [lia|done]|].
    destruct H1 as (c & l & Hr' & Ho). exists c, l. split; [done|].
    intros o Hf. apply Hgo; [lia|]. by apply Ho.
  - intros Hl Hover. destruct (decide (limit < steps + Z.of_nat (S dl))%Z).
    + eapply inner_to_look_limit; [done|]. by apply Hstop.
    + apply Hgo; [lia|]. apply H2; lia.
Qed.

Lemma machine_sim :
  (limit <= u64_max)%Z ->
  (forall bw pc pos caps r d, bt prog inp bw pc pos caps r d ->
     forall steps stack log, (0 <= steps)%Z ->
     sim (inner_to steps bw pc pos caps stack log) steps bw stack caps log r d) /\
  (forall bw pc ps caps r d, bt_list prog inp bw pc ps caps r d ->
     forall steps fr stack caps1 log1 log, (0 <= steps)%Z ->
     ps <> [] -> frame_positions bw fr = ps -> frame_ok bw fr -> f_pc fr = pc ->
     f_log_mark fr = length log -> rolls_to caps1 log1 caps log ->
     sim (frames_to steps bw caps1 (fr :: stack) log1) steps bw stack caps log r d).
Proof.
  intros Hlim. apply bt_mutind.
  - intros bw pc pos caps Hi Hlen steps stack log H0. split; [|lia]. intros _. rewrite Z.add_0_r.
    apply (inner_to_exec steps bw pc pos caps stack log Insn.Match (Accept pos (<[1 := Some pos]> caps)));
      [done|done| |done]. cbn [exec_insn].
    destruct (lookup_lt_is_Some_2 caps 1 Hlen) as [v Hv]. by rewrite (proj2 (index_Ok _ _ _) Hv).
  - intros bw pc pos caps Hi steps stack log H0. split; [|lia]. intros _. rewrite Z.add_0_r.
    by apply (inner_to_exec steps bw pc pos caps stack log Insn.LookMatch (Accept pos caps)).
  - intros bw pc pos caps i pos' caps' r d Hi Hs _ IH steps stack log H0.
    destruct (exec_simple_next i bw pc pos caps stack log pos' caps' Hs) as (log' & He & Hr).
    eapply sim_rebase; [done|]. eapply sim_impl; [|by apply IH].
    intros o Ho. eapply inner_to_exec; [done| |done|done]. by intros ? ? ? ->.
  - intros bw pc pos caps i Hi Hs steps stack log H0.
    assert (He : exec_insn prog inp i bw pc pos caps stack log = Ok Reject)
      by (destruct Hs; [by apply exec_simple_fail|by apply exec_choice_fail]).
    eapply sim_impl; [|apply sim_rejected, rolls_to_refl].
    intros o Ho. eapply inner_to_exec; [done| |done|done]. by intros ? ? ? ->.
  - intros bw pc pos caps i pc1 pos1 [pc2 ps] x d Hi Hc _ IH steps stack log H0.
    destruct (exec_choice i bw pc pos caps stack log pc1 pos1 pc2 ps Hc)
      as [[-> He]|(fr & He & _)].
    all: match type of He with _ = Ok (Next _ _ _ ?stk _) =>
           destruct (IH steps stk log H0) as [H1 H2] end.
    all: split; [intros Hl; eapply inner_to_exec; [done|by intros ? ? ? ->|done|by apply H1]|].
    all: intros Hl Hover; eapply inner_to_exec; [done|by intros ? ? ? ->|done|by apply H2].
  - intros bw pc pos caps i pc1 pos1 pc2 ps r d1 d2 Hi Hc _ IH1 Hb2 IH2 steps stack log H0.
    eapply sim_choice; [done|done| |by intros; apply IH1|].
    + intros ->. by inversion Hb2.
    + intros. eapply IH2; try done. lia.
  - intros bw pc pos caps neg behind entry rl dl u r d Hi Hb1 IH1 Hv _ IH2 steps stack log H0.
    destruct (sim_run steps behind entry pos caps rl dl H0 Hlim (IH1 (steps + 1)%Z [] [] ltac:(lia)))
      as [Hrun Hstop].
    destruct (look_apply_rolls caps u log) as (log' & Ha & Hr).
    { eapply look_verdict_length; [done|]. intros c Hc. destruct rl as [[p' c']|]; simplify_eq/=.
      by eapply bt_caps_length. }
    eapply sim_look_holds; eauto. eapply sim_rebase; [done|]. apply IH2. lia.
  - intros bw pc pos caps neg behind entry rl dl Hi Hb1 IH1 Hv steps stack log H0.
    destruct (sim_run steps behind entry pos caps rl dl H0 Hlim (IH1 (steps + 1)%Z [] [] ltac:(lia)))
      as [Hrun Hstop].
    split.
    + intros Hl. exists caps, log. split; [apply rolls_to_refl|]. intros o Ho.
      eapply inner_to_look; [done|by apply Hrun|]. by rewrite Hv.
    + intros Hl Hover. eapply inner_to_look_limit; [done|]. by apply Hstop.
  - done.
  - intros bw pc p ps caps x d _ IH steps fr stack caps1 log1 log H0 _ Hp Hok Hpc Hm Hr.
    destruct (push_resume_positions bw fr stack p ps Hp Hok) as [-> _]. subst pc.
    destruct (sim_pop steps bw caps1 fr stack (push_resume fr bw stack) log1 caps log (Some x) d
      H0 Hlim Hm Hr) as [H1 H2]; [by apply IH; lia|]. split; [exact H1|exact H2].
  - intros bw pc p ps caps r d1 d2 _ IH1 Hb2 IH2 steps fr stack caps1 log1 log H0 _ Hp Hok Hpc Hm Hr.
    destruct (push_resume_positions bw fr stack p ps Hp Hok) as [-> Hpush]. subst pc.
    eapply sim_then; [eapply sim_pop; eauto; apply IH1; lia|]. intros caps' log' Hr'.
    destruct Hpush as [[-> ->]|(fr' & -> & Hne & Hp' & Hok' & Hpc' & Hm')].
    + inversion Hb2; subst. by apply sim_rejected.
    + eapply IH2; try done; [lia|congruence].
Qed.
End Refinement.

(** ** Attempts *)

(** [m] settles on [v] once the fuel is large enough. *)
Definition settles {A} (m : nat -> A) (v : A) : Prop :=
  exists fuel, forall fuel', fuel <= fuel' -> m fuel' = v.

Definition initial_caps (prog : Program) (at_ : nat) : Caps :=
  <[0 := Some at_]> (replicate (slot_count prog) None).

Lemma attempt_settles `{Icu} prog inp at_ config r :
  frames_to prog inp (step_bound config) 0 false (initial_caps prog at_) [mkFrame 0 at_ 0 At] [] r ->
  settles (attempt prog inp at_ config) (let* x := r in Ok (snd <$> x.2)).
Proof.
  intros [Hne [fuel Hf]]. exists fuel. intros fuel' Hle. unfold attempt, run.
  fold (initial_caps prog at_).
  by rewrite (run_frames_mono prog inp (step_bound config) fuel fuel' _ _ _ _ _ r Hle Hne Hf).
Qed.

Lemma attempt_sim `{Icu} prog inp at_ config r d :
  bt prog inp false 0 at_ (initial_caps prog at_) r d -> (step_bound config <= u64_max)%Z ->
  (Z.of_nat (S d) <= step_bound config ->
   settles (attempt prog inp at_ config) (Ok (snd <$> r)))%Z /\
  (0 <= step_bound config < u64_max -> step_bound config < Z.of_nat (S d) ->
   settles (attempt prog inp at_ config) (Err StepLimitExceeded))%Z.
Proof.
  intros Hb Hlim.
  destruct (sim_run prog inp (step_bound config) 0 false 0 at_ _ r d ltac:(lia) Hlim
    (proj1 (machine_sim prog inp _ Hlim) _ _ _ _ _ _ Hb 1%Z [] [] ltac:(lia))) as [H1 H2].
  split.
  - intros Hl. by apply (attempt_settles _ _ _ _ _ (H1 Hl)).
  - intros Hl Hover. by apply (attempt_settles _ _ _ _ _ (H2 Hl Hover)).
Qed.

Lemma run_budget_mono `{Icu} prog inp limit limit' fuel :
  (limit <= limit')%Z ->
  (forall steps bw caps stack log x,
     run_frames prog inp limit fuel steps bw caps stack log = Ok x ->
     run_frames prog inp limit' fuel steps bw caps stack log = Ok x) /\
  (forall steps bw pc pos caps stack log x,
     run_inner prog inp limit fuel steps bw pc pos caps stack log = Ok x ->
     run_inner prog inp limit' fuel steps bw pc pos caps stack log = Ok x).
Proof.
  intros Hle. induction fuel as [|fuel [IHf IHi]]; [by split|]. split.
  - intros steps bw caps stack log x. rewrite !run_frames_S. destruct stack as [|fr stack]; [done|].
    destruct (limit <? _)%Z eqn:E; [done|]. rewrite (proj2 (Z.ltb_ge limit' _)) by lia.
    intros Hx. inv_bind Hx. rewrite Hbind. destruct a as [c l]. simpl in *. by apply IHi.
  - intros steps bw pc pos caps stack log x. rewrite !run_inner_S. intros Hx. inv_bind Hx.
    rewrite Hbind. cbn [rbind]. destruct a as [| | | | | | | | | | | | | | | |neg behind entry| |];
      try (apply rbind_Ok in Hx as (out & Hout & Hx); rewrite Hout; cbn [rbind];
        destruct out; [by apply IHi|done|by apply IHf]).
    apply rbind_Ok in Hx as ([s found] & Hbind0 & Hx). rewrite (IHf _ _ _ _ _ _ Hbind0). cbn [rbind].
    destruct (look_verdict _ _ _) as [u|]; [|by apply IHf].
    destruct (look_apply caps u log). by apply IHi.
Qed.

(** ** Properties *)

(** C39: an attempt computes the backtracking semantics.  Whenever the stackless
    semantics explores [d] backtrack points and ends in [r], the executor, with
    its explicit stack, undo log and chained give-back frames, returns the slots
    of [r] under every budget of at least [d + 1] steps. *)
Theorem attempt_refines_semantics `{Icu} prog inp at_ config r d :
  bt prog inp false 0 at_ (initial_caps prog at_) r d ->
  (Z.of_nat (S d) <= step_bound config <= u64_max)%Z ->
  settles (attempt prog inp at_ config) (Ok (snd <$> r)).
Proof. intros Hb Hl. destruct (attempt_sim prog inp at_ config r d Hb); [lia|]. auto with lia. Qed.

(** [a*a] as a program. *)
Definition prog_astar_a : Program :=
  mkProgram [Insn.Repeat (AtomChar 97 false) 0 true false; Insn.Char 97 false; Insn.Match]
    [] 0 [] false 0 None false.
Definition input_aa : Input := mkInput [97; 97]%Z false.

Lemma astar_a_bt :
  @bt ascii_icu prog_astar_a input_aa false 0 0 (initial_caps prog_astar_a 0)
    (Some (2, [Some 0; Some 2])) 1.
Proof.
  eapply (bt_miss _ _ _ _ _ _ _ 1 2 1 [1; 0] _ 0 1); [reflexivity|vm_compute; reflexivity| |].
  - eapply bt_fail; [reflexivity|]. left. reflexivity.
  - apply btl_hit. eapply bt_next; [reflexivity|vm_compute; reflexivity|].
    apply (bt_match prog_astar_a input_aa false 2 2 [Some 0; None]); [reflexivity|simpl; lia].
Qed.

Lemma attempt_refines_semantics_witness :
  settles (@attempt ascii_icu prog_astar_a input_aa 0 (mkConfig (Some 2%Z)))
    (Ok (Some [Some 0; Some 2])).
Proof.
  apply (@attempt_refines_semantics ascii_icu prog_astar_a input_aa 0 (mkConfig (Some 2%Z))
    (Some (2, [Some 0; Some 2])) 1).
  - apply astar_a_bt.
  - vm_compute. split; discriminate.
Defined.

(** The step budget is exact.  With a budget smaller than the [d + 1]
    backtrack points the search needs, the executor stops with
    [StepLimitExceeded], wherever the search is, lookaround bodies included. *)
Theorem attempt_budget_exact `{Icu} prog inp at_ config r d :
  bt prog inp false 0 at_ (initial_caps prog at_) r d ->
  (0 <= step_bound config < u64_max)%Z -> (step_bound config < Z.of_nat (S d))%Z ->
  settles (attempt prog inp at_ config) (Err StepLimitExceeded).
Proof. intros Hb Hl Hover. destruct (attempt_sim prog inp at_ config r d Hb); [lia|]. auto. Qed.

Lemma attempt_budget_exact_witness :
  settles (@attempt ascii_icu prog_astar_a input_aa 0 (mkConfig (Some 1%Z))) (Err StepLimitExceeded).
Proof.
  apply (@attempt_budget_exact ascii_icu prog_astar_a input_aa 0 (mkConfig (Some 1%Z))
    (Some (2, [Some 0; Some 2])) 1).
  - apply astar_a_bt.
  - vm_compute. split; [discriminate|reflexivity].
  - vm_compute. reflexivity.
Defined.

(** Raising the budget never changes an answer: an attempt that completes
    (with a match or without) under one budget completes with the same answer
    under any larger one, for every program, compiled or not. *)
Theorem attempt_budget_monotone `{Icu} prog inp at_ config config' fuel r :
  (step_bound config <= step_bound config')%Z ->
  attempt prog inp at_ config fuel = Ok r -> attempt prog inp at_ config' fuel = Ok r.
Proof.
  intros Hle Hr. unfold attempt, run in *. inv_bind Hr.
  by rewrite (proj1 (run_budget_mono prog inp _ _ fuel Hle) _ _ _ _ _ _ Hbind).
Qed.

Lemma attempt_budget_monotone_witness :
  @attempt ascii_icu prog_astar_a input_aa 0 (mkConfig (Some 50%Z)) 9 = Ok (Some [Some 0; Some 2]).
Proof.
  apply (@attempt_budget_monotone ascii_icu _ _ _ (mkConfig (Some 2%Z))).
  - vm_compute. discriminate.
  - vm_compute. reflexivity.
Defined.
