(* ===== verification/Spec.v ===== *)
(** * The reference semantics of patterns

    [paths n bw st] is the list of all ways the pattern tree [n] matches from
    the state [st] in direction [bw], in the order ECMA-262's backtracking
    matcher tries them: the list form of the specification's continuation
    semantics (section 22.2.2).  A state is a position and the captures of the
    groups; a capture is set when its group closes, and [RepeatMatcher] clears
    the captures of the body before every iteration and rejects an empty
    iteration once the minimum is reached.  No instruction, slot, mark or stack
    appears here.

    Repetition is defined with fuel; [min + length + 1] is enough because an
    iteration past the minimum moves the position. *)

From S2P Require Import Prelude Unicode Classes Program Exec Lower.

Record State : Type := mkState {
  s_pos : nat;
  s_caps : list (option (nat * nat))
}.

Definition move_to (p : nat) (st : State) : State := mkState p (s_caps st).
Definition set_capture (g : nat) (v : option (nat * nat)) (st : State) : State :=
  mkState (s_pos st) (<[g := v]> (s_caps st)).
Definition clear_groups (gs : list nat) (st : State) : State :=
  fold_left (fun st g => set_capture g None st) gs st.

(** The span between two positions of a region, in subject order. *)
Definition span (bw : bool) (from to : nat) : nat * nat := if bw then (to, from) else (from, to).

(** Sequencing of matchers. *)
Definition spec_seq (fs : list (State -> list State)) : State -> list State :=
  foldr (fun f k st => flat_map k (f st)) (fun st => [st]) fs.

(** RepeatMatcher. *)
Section RepeatMatcher.
Variable m : State -> list State.
Variable gs : list nat.
Variable greedy : bool.

Fixpoint spec_repeat (fuel min : nat) (max : option nat) (st : State) : list State :=
  match fuel with
  | 0 => []
  | S fuel =>
      match max with
      | Some 0 => [st]
      | _ =>
          let again :=
            flat_map (fun y =>
              if (min =? 0) && (s_pos y =? s_pos st) then []
              else spec_repeat fuel (pred min) (pred <$> max) y) (m (clear_groups gs st)) in
          match min with
          | S _ => again
          | 0 => if greedy then again ++ [st] else st :: again
          end
      end
  end.
End RepeatMatcher.

Section Spec.
Context `{Icu}.
Variable inp : Input.
Variable uni : bool.

Definition spec_canon (cp : Z) : Z := if uni then fold_unicode cp else canonicalize cp.

Definition spec_char (target : Z) (ic : bool) (cp : Z) : bool :=
  (cp =? target)%Z || (ic && (spec_canon cp =? spec_canon target)%Z).

(** CharacterSetMatcher: some member of the class has the same canonical form. *)
Definition spec_class (set : ClassSet) (neg ic : bool) (cp : Z) : bool :=
  let members := flat_map (fun r : Z * Z => range_list r.1 r.2) (ranges (code_points set)) in
  xorb (if ic then existsb (fun m => spec_canon m =? spec_canon cp)%Z members
        else contains (code_points set) cp) neg.

Definition spec_consume (test : Z -> bool) (bw : bool) (st : State) : list State :=
  match decode_dir inp (s_pos st) bw with
  | Some (cp, w) => if test cp then [move_to (step (s_pos st) w bw) st] else []
  | None => []
  end.

Definition spec_is_word (ic : bool) (cp : Z) : bool :=
  is_word cp || (ic && uni && ((cp =? 383) || (cp =? 8490))%Z).

Definition spec_assert (a : Assertion) (pos : nat) : bool :=
  match a with
  | StartOfLine ml => at_start inp pos ml
  | EndOfLine ml => at_end inp pos ml
  | WordBoundary invert ic =>
      xorb (xorb (default false (spec_is_word ic <$> prev_codepoint inp pos))
                 (default false ((fun d => spec_is_word ic d.1) <$> decode inp pos))) invert
  end.

(** The first participating capture among the groups that share a name. *)
Fixpoint spec_capture (caps : list (option (nat * nat))) (gs : list nat) : option (nat * nat) :=
  match gs with
  | [] => None
  | g :: gs => match caps !! g with Some (Some r) => Some r | _ => spec_capture caps gs end
  end.

Definition slice (lo len : nat) : list Z := take len (drop lo (units inp)).

Definition spec_backref (gs : list nat) (ic bw : bool) (st : State) : list State :=
  match spec_capture (s_caps st) gs with
  | None => [st]
  | Some (s, e) =>
      let len := e - s in
      let p := s_pos st in
      if bw && (p <? len) then []
      else
        let at_ := if bw then p - len else p in
        if (at_ + len <=? length (units inp)) &&
           forallb (fun ab : Z * Z => spec_char ab.2 ic ab.1) (zip (slice s len) (slice at_ len))
        then [move_to (step p len bw) st] else []
  end.

(** An assertion keeps the position; a positive one keeps the captures of the
    first way its body matches. *)
Definition spec_look (neg : bool) (found : list State) (st : State) : list State :=
  match found with
  | [] => if neg then [st] else []
  | y :: _ => if neg then [] else [mkState (s_pos st) (s_caps y)]
  end.

Definition repeat_fuel (min : Z) : nat := Z.to_nat min + length (units inp) + 1.

Fixpoint paths (n : Node) (bw : bool) (st : State) : list State :=
  match n with
  | Node.Empty => [st]
  | Node.Char cp ic => spec_consume (spec_char cp ic) bw st
  | Node.AnyChar da => spec_consume (fun cp => da || negb (is_line_terminator cp)) bw st
  | Node.Class set neg ic => spec_consume (spec_class set neg ic) bw st
  | Node.Assert a => if spec_assert a (s_pos st) then [st] else []
  | Node.BackRef gs ic => spec_backref gs ic bw st
  | Node.Concat nodes =>
      let fs := map (fun n => paths n bw) nodes in
      spec_seq (if bw then rev fs else fs) st
  | Node.Alternate alts => flat_map (fun n => paths n bw st) alts
  | Node.Repeat node q =>
      spec_repeat (paths node bw) (capture_indices node) (qgreedy q)
        (repeat_fuel (qmin q)) (Z.to_nat (qmin q)) (Z.to_nat <$> qmax q) st
  | Node.Group (Capturing g _) body =>
      map (fun y => set_capture g (Some (span bw (s_pos st) (s_pos y))) y) (paths body bw st)
  | Node.Group NonCapturing body => paths body bw st
  | Node.Group (Lookahead neg) body => spec_look neg (paths body false st) st
  | Node.Group (Lookbehind neg) body => spec_look neg (paths body true st) st
  end.
End Spec.

(** ** Well-formed trees

    What the parser guarantees of the trees it builds, and the limits of the
    lowering: code points in range, repeat bounds within [MAX_REPEAT], group numbers used once and in
    range, no empty alternation, no string-bearing class, and in Unicode mode no
    case-insensitive class. *)
Fixpoint wf_node (uni : bool) (gc : nat) (n : Node) : Prop :=
  match n with
  | Node.Char cp _ => (0 <= cp <= MAX_CP)%Z
  | Node.Class set _ ic =>
      strings set = [] /\ wf_set (code_points set) /\ (ic = true -> uni = false)
  | Node.BackRef gs _ => Forall (fun g => 1 <= g <= gc) gs
  | Node.Concat nodes => foldr (fun n P => wf_node uni gc n /\ P) True nodes
  | Node.Alternate alts => alts <> [] /\ foldr (fun n P => wf_node uni gc n /\ P) True alts
  | Node.Repeat node q =>
      wf_node uni gc node /\ (0 <= qmin q <= MAX_REPEAT)%Z /\
      match qmax q with Some m => (qmin q <= m <= MAX_REPEAT)%Z | None => True end
  | Node.Group kind body =>
      wf_node uni gc body /\
      match kind with Capturing g _ => 1 <= g <= gc | _ => True end
  | _ => True
  end.

Lemma wf_nodes_In uni gc n l :
  foldr (fun n P => wf_node uni gc n /\ P) True l -> In n l -> wf_node uni gc n.
Proof. induction l as [|x l IH]; simpl; [done|]. intros [Hx Hl] [->|Hn]; auto. Qed.

(** ** Where a match can go *)

Definition cap_ok (inp : Input) (v : option (nat * nat)) : Prop :=
  match v with Some (s, e) => s <= e <= length (units inp) | None => True end.

Definition st_ok (inp : Input) (st : State) : Prop :=
  s_pos st <= length (units inp) /\ Forall (cap_ok inp) (s_caps st).

Definition ahead (bw : bool) (p p' : nat) : Prop := if bw then p' <= p else p <= p'.

(** [st'] is a sane state further along the direction, that differs from [st] at
    most in the captures [gs]. *)
Record reaches (inp : Input) (bw : bool) (gs : list nat) (st st' : State) : Prop := mkReaches {
  reach_ok : st_ok inp st';
  reach_dir : ahead bw (s_pos st) (s_pos st');
  reach_len : length (s_caps st') = length (s_caps st);
  reach_frame : forall g, ~ In g gs -> s_caps st' !! g = s_caps st !! g
}.

Definition moves (inp : Input) (bw : bool) (gs : list nat) (P : State -> list State) : Prop :=
  forall st st', st_ok inp st -> In st' (P st) -> reaches inp bw gs st st'.

(** How far a position can still move. *)
Definition room (inp : Input) (bw : bool) (pos : nat) : nat :=
  if bw then pos else length (units inp) - pos.

Section Reach.
Context `{Icu}.
Variable inp : Input.
Variable uni : bool.
Hypothesis Hunits : wf_units (units inp).

Lemma ahead_refl bw p : ahead bw p p.
Proof. unfold ahead. by destruct bw. Qed.

Lemma ahead_trans bw p q r : ahead bw p q -> ahead bw q r -> ahead bw p r.
Proof. unfold ahead. destruct bw; lia. Qed.

Lemma reaches_refl bw gs st : st_ok inp st -> reaches inp bw gs st st.
Proof. intros Hok. split; auto using ahead_refl. Qed.

Lemma reaches_trans bw gs st1 st2 st3 :
  reaches inp bw gs st1 st2 -> reaches inp bw gs st2 st3 -> reaches inp bw gs st1 st3.
Proof.
  intros [? ? ? H1] [? ? ? H2]. split; [done|by eapply ahead_trans|congruence|].
  intros g Hg. by rewrite H2, H1.
Qed.

Lemma reaches_weaken bw gs gs' st st' :
  incl gs gs' -> reaches inp bw gs st st' -> reaches inp bw gs' st st'.
Proof. intros Hi [? ? ? Hf]. split; try done. intros g Hg. apply Hf. auto. Qed.

Lemma reaches_move bw gs st p :
  st_ok inp st -> ahead bw (s_pos st) p -> p <= length (units inp) ->
  reaches inp bw gs st (move_to p st).
Proof. intros [? ?] Hd Hp. split; [by split|done|done|done]. Qed.

Lemma st_ok_set_capture g v st : st_ok inp st -> cap_ok inp v -> st_ok inp (set_capture g v st).
Proof. intros [Hp Hc] Hv. split; [done|]. simpl. by apply Forall_insert. Qed.

Lemma reaches_set_capture bw gs g v st :
  st_ok inp st -> cap_ok inp v -> In g gs -> reaches inp bw gs st (set_capture g v st).
Proof.
  intros Hok Hv Hg. split; [by apply st_ok_set_capture|apply ahead_refl|by simpl; rewrite length_insert|].
  intros g' Hg'. simpl. apply list_lookup_insert_ne. by intros ->.
Qed.

Lemma clear_groups_pos gs st : s_pos (clear_groups gs st) = s_pos st.
Proof. revert st. induction gs as [|g gs IH]; intros st; [done|]. simpl. by rewrite IH. Qed.

Lemma reaches_clear bw gs gs' st :
  incl gs gs' -> st_ok inp st -> reaches inp bw gs' st (clear_groups gs st).
Proof.
  revert st. induction gs as [|g gs IH]; intros st Hi Hok; simpl; [by apply reaches_refl|].
  assert (Hr : reaches inp bw gs' st (set_capture g None st))
    by (apply reaches_set_capture; [done|done|apply Hi; by left]).
  eapply reaches_trans; [done|]. apply IH; [|apply Hr]. intros x Hx. apply Hi. by right.
Qed.

Lemma clear_groups_None gs g st :
  In g gs -> g < length (s_caps st) -> s_caps (clear_groups gs st) !! g = Some None.
Proof.
  assert (Hkeep : forall gs st, s_caps st !! g = Some None ->
    s_caps (clear_groups gs st) !! g = Some None).
  { clear. induction gs as [|x gs IH]; intros st Hs; simpl; [done|]. apply IH. simpl.
    destruct (decide (x = g)) as [->|]; [|by rewrite list_lookup_insert_ne].
    apply list_lookup_insert_eq. by eapply lookup_lt_Some. }
  revert st. induction gs as [|x gs IH]; intros st Hin Hlt; [done|]. simpl.
  destruct Hin as [->|Hin].
  - apply Hkeep. simpl. by apply list_lookup_insert_eq.
  - apply IH; [done|]. simpl. by rewrite length_insert.
Qed.

(** Consuming a code point moves strictly. *)
Lemma decode_dir_moves bw pos cp w :
  pos <= length (units inp) -> decode_dir inp pos bw = Some (cp, w) ->
  1 <= w /\ ahead bw pos (step pos w bw) /\ step pos w bw <= length (units inp) /\
  step pos w bw <> pos.
Proof.
  intros Hp Hd. unfold decode_dir, step, ahead in *. destruct bw.
  - apply decode_back_in_bounds in Hd; [lia|done].
  - apply decode_in_bounds in Hd. lia.
Qed.

Lemma spec_consume_inv test bw st st' :
  In st' (spec_consume inp test bw st) ->
  exists cp w, decode_dir inp (s_pos st) bw = Some (cp, w) /\ test cp = true /\
    st' = move_to (step (s_pos st) w bw) st.
Proof.
  unfold spec_consume. destruct (decode_dir _ _ _) as [[cp w]|]; [|done].
  destruct (test cp) eqn:E; [|done]. intros [<-|[]]. eauto.
Qed.

Lemma moves_consume test bw gs : moves inp bw gs (spec_consume inp test bw).
Proof.
  intros st st' Hok Hin. apply spec_consume_inv in Hin as (cp & w & Hd & _ & ->).
  apply decode_dir_moves in Hd as (_ & ? & ? & _); [|apply Hok]. by apply reaches_move.
Qed.

Lemma moves_seq bw gs fs : Forall (moves inp bw gs) fs -> moves inp bw gs (spec_seq fs).
Proof.
  induction 1 as [|f fs Hf _ IH]; intros st st' Hok Hin; simpl in Hin.
  - destruct Hin as [<-|[]]. by apply reaches_refl.
  - apply in_flat_map in Hin as (y & Hy & Hin). specialize (Hf _ _ Hok Hy).
    eapply reaches_trans; [done|]. apply IH; [apply Hf|done].
Qed.

Lemma moves_repeat bw gs m greedy fuel min max :
  moves inp bw gs m -> moves inp bw gs (spec_repeat m gs greedy fuel min max).
Proof.
  intros Hm. revert min max. induction fuel as [|fuel IH]; intros min max st st' Hok Hin; [done|].
  cbn [spec_repeat] in Hin.
  set (again := flat_map _ _) in Hin.
  assert (Hagain : In st' again -> reaches inp bw gs st st').
  { intros Ha. apply in_flat_map in Ha as (y & Hy & Ha).
    assert (Hc : reaches inp bw gs st (clear_groups gs st)) by (apply reaches_clear; [apply incl_refl|done]).
    specialize (Hm _ _ (reach_ok _ _ _ _ _ Hc) Hy).
    destruct ((min =? 0) && _); [done|].
    eapply reaches_trans; [done|]. eapply reaches_trans; [done|]. eapply IH; [apply Hm|done]. }
  assert (Hself : reaches inp bw gs st st) by (by apply reaches_refl).
  destruct max as [[|max]|]; [by destruct Hin as [<-|[]]| |];
    (destruct min as [|min]; [destruct greedy|]; [apply in_app_or in Hin as [?|[<-|[]]]; auto
      |destruct Hin as [<-|?]; auto|auto]).
Qed.

Lemma moves_backref groups ic bw gs : moves inp bw gs (spec_backref inp uni groups ic bw).
Proof.
  intros st st' Hok Hin. unfold spec_backref in Hin.
  destruct (spec_capture _ _) as [[s e]|]; [|destruct Hin as [<-|[]]; by apply reaches_refl].
  destruct (bw && _) eqn:Eb; [done|]. destruct (_ && forallb _ _) eqn:E; [|done].
  boolprop. destruct Hin as [<-|[]]. destruct Hok as [Hp Hc].
  apply reaches_move; [by split| |]; unfold step, ahead in *; destruct bw; simpl in *; boolprop; lia.
Qed.

Lemma moves_look neg bw bw' gs P : moves inp bw' gs P -> moves inp bw gs (fun st => spec_look neg (P st) st).
Proof.
  intros HP st st' Hok Hin. unfold spec_look in Hin. destruct (P st) as [|y l] eqn:E; destruct neg; try done.
  - destruct Hin as [<-|[]]. by apply reaches_refl.
  - destruct Hin as [<-|[]]. destruct (HP st y Hok) as [Hy _ Hl Hf]; [rewrite E; by left|].
    split; [split; [apply Hok|apply Hy]|apply ahead_refl|done|done].
Qed.

Lemma moves_group bw gs g P :
  moves inp bw gs P ->
  moves inp bw (g :: gs) (fun st => map (fun y => set_capture g (Some (span bw (s_pos st) (s_pos y))) y) (P st)).
Proof.
  intros HP st st' Hok Hin. apply in_map_iff in Hin as (y & <- & Hy).
  specialize (HP _ _ Hok Hy). eapply reaches_trans.
  - eapply reaches_weaken; [|done]. apply incl_tl, incl_refl.
  - apply reaches_set_capture; [apply HP| |by left].
    destruct HP as [[Hy' _] Hd _ _]. destruct Hok as [Hp _].
    unfold ahead, span in *. destruct bw; simpl; lia.
Qed.

Lemma moves_weaken bw gs gs' P : incl gs gs' -> moves inp bw gs P -> moves inp bw gs' P.
Proof. intros Hi HP st st' Hok Hin. eapply reaches_weaken; eauto. Qed.

Theorem paths_moves n bw : moves inp bw (capture_indices n) (paths inp uni n bw).
Proof.
  revert bw. induction n as [|cp ic|da|s n ic|a|gs ic|l IH|l IH|n q IH|k n IH] using node_ind'; intros bw.
  - intros st st' Hok [<-|[]]. by apply reaches_refl.
  - apply moves_consume.
  - apply moves_consume.
  - apply moves_consume.
  - intros st st' Hok Hin. simpl in Hin. destruct (spec_assert _ _ _ _); [|done].
    destruct Hin as [<-|[]]. by apply reaches_refl.
  - apply moves_backref.
  - simpl. assert (Hall : Forall (moves inp bw (flat_map capture_indices l)) (map (fun n => paths inp uni n bw) l)).
    { apply Forall_forall. intros f Hf. apply list_elem_of_In, in_map_iff in Hf as (n & <- & Hn).
      eapply moves_weaken; [|by apply (proj1 (Forall_forall _ _) IH n); apply list_elem_of_In].
      intros g Hg. apply in_flat_map. eauto. }
    intros st st'. apply moves_seq. destruct bw; [|done]. by apply Forall_rev.
  - intros st st' Hok Hin. simpl in Hin. apply in_flat_map in Hin as (n & Hn & Hin).
    eapply reaches_weaken; [|by apply (proj1 (Forall_forall _ _) IH n); [apply list_elem_of_In| |]].
    intros g Hg. simpl. apply in_flat_map. eauto.
  - apply moves_repeat, IH.
  - destruct k; simpl.
    + apply moves_group, IH.
    + apply IH.
    + by apply (moves_look _ _ false).
    + by apply (moves_look _ _ true).
Qed.

(** ** Progress *)

Lemma ahead_ne bw p q r : ahead bw p q -> ahead bw q r -> p <> q \/ q <> r -> r <> p.
Proof. unfold ahead. destruct bw; lia. Qed.

Lemma seq_progress bw gs fs :
  Forall (moves inp bw gs) fs ->
  (exists f, In f fs /\ forall st st', st_ok inp st -> In st' (f st) -> s_pos st' <> s_pos st) ->
  forall st st', st_ok inp st -> In st' (spec_seq fs st) -> s_pos st' <> s_pos st.
Proof.
  induction 1 as [|f fs Hf Hfs IH]; intros (f0 & Hin0 & Hp) st st' Hok Hin; [done|].
  simpl in Hin. apply in_flat_map in Hin as (y & Hy & Hin).
  pose proof (Hf _ _ Hok Hy) as Hr.
  pose proof (moves_seq bw gs fs Hfs _ _ (reach_ok _ _ _ _ _ Hr) Hin) as Hr'.
  eapply ahead_ne; [apply Hr|apply Hr'|]. destruct Hin0 as [->|Hin0].
  - left. intros E. by apply (Hp _ _ Hok Hy).
  - right. intros E. eapply IH; [eauto|apply Hr|done|done].
Qed.

Lemma repeat_progress bw gs m greedy fuel min max st st' :
  moves inp bw gs m ->
  (forall st st', st_ok inp st -> In st' (m st) -> s_pos st' <> s_pos st) ->
  min <> 0 -> match max with Some k => k <> 0 | None => True end ->
  st_ok inp st -> In st' (spec_repeat m gs greedy fuel min max st) -> s_pos st' <> s_pos st.
Proof.
  intros Hm Hp Hmin Hmax Hok Hin. destruct fuel as [|fuel]; [done|]. cbn [spec_repeat] in Hin.
  destruct min as [|min]; [done|]. simpl (S min =? 0) in Hin. cbn [andb pred] in Hin.
  assert (Hin' : exists y k, In y (m (clear_groups gs st)) /\
    In st' (spec_repeat m gs greedy fuel min k y)).
  { destruct max as [[|max]|]; [done| |]; apply in_flat_map in Hin as (y & Hy & Hin); eauto. }
  destruct Hin' as (y & k & Hy & Hst').
  assert (Hc : reaches inp bw gs st (clear_groups gs st)) by (apply reaches_clear; [apply incl_refl|done]).
  pose proof (Hm _ _ (reach_ok _ _ _ _ _ Hc) Hy) as Hr.
  pose proof (moves_repeat bw gs m greedy fuel min k Hm _ _ (reach_ok _ _ _ _ _ Hr) Hst') as Hr'.
  eapply ahead_ne; [eapply ahead_trans; [apply Hc|apply Hr]|apply Hr'|]. left.
  intros E. eapply (Hp _ _ (reach_ok _ _ _ _ _ Hc) Hy). by rewrite clear_groups_pos.
Qed.

Lemma consumes_progress gc n bw st st' :
  wf_node uni gc n -> consumes_input n = true ->
  st_ok inp st -> In st' (paths inp uni n bw st) -> s_pos st' <> s_pos st.
Proof.
  revert bw st st'.
  induction n as [|cp ic|da|s n ic|a|gs ic|l IH|l IH|n q IH|k n IH] using node_ind';
    intros bw st st' Hwf Hc Hok Hin; try done.
  1-3: apply spec_consume_inv in Hin as (cp' & w & Hd & _ & ->);
    apply decode_dir_moves in Hd as (_ & _ & _ & Hne); [done|apply Hok].
  - simpl in Hin, Hc, Hwf. apply existsb_exists in Hc as (n & Hn & Hc).
    assert (Hwn : wf_node uni gc n) by (by eapply wf_nodes_In).
    assert (Hall : Forall (moves inp bw (flat_map capture_indices l)) (map (fun n => paths inp uni n bw) l)).
    { apply Forall_forall. intros f Hf. apply list_elem_of_In, in_map_iff in Hf as (n' & <- & Hn').
      eapply moves_weaken; [|apply paths_moves]. intros g Hg. apply in_flat_map. eauto. }
    eapply seq_progress in Hin; [done| | |done].
    + destruct bw; [by apply Forall_rev|exact Hall].
    + exists (paths inp uni n bw). split; [destruct bw; [rewrite <- in_rev|]; apply in_map_iff; eauto|].
      intros x x' Hx Hx'. by eapply (proj1 (Forall_forall _ _) IH n); [apply list_elem_of_In| | | |].
  - simpl in Hin, Hc, Hwf. destruct Hwf as [_ Hwf]. apply in_flat_map in Hin as (n & Hn & Hin).
    assert (Hwn : wf_node uni gc n) by (by eapply wf_nodes_In).
    assert (Hcn : consumes_input n = true) by (destruct l; [done|]; by apply (proj1 (forallb_forall _ _) Hc)).
    by eapply (proj1 (Forall_forall _ _) IH n); [apply list_elem_of_In| | | |].
  - simpl in Hin, Hc, Hwf. destruct Hwf as (Hwn & Hq & Hm). boolprop.
    eapply repeat_progress in Hin; [done|apply paths_moves| | | |done].
    + intros x x'. eauto.
    + lia.
    + destruct (qmax q) as [m|]; simpl; [|done]. lia.
  - simpl in Hin, Hc, Hwf. destruct Hwf as [Hwn _]. destruct k; try done.
    + apply in_map_iff in Hin as (y & <- & Hy). simpl. by eapply IH.
    + by eapply IH.
Qed.

(** ** Repetition without fuel *)

Lemma ahead_room bw p p' : ahead bw p p' -> p <= length (units inp) -> p' <= length (units inp) ->
  room inp bw p' <= room inp bw p /\ (p' <> p -> room inp bw p' < room inp bw p).
Proof. unfold ahead, room. destruct bw; lia. Qed.

Lemma flat_map_ext_In {A B} (f g : A -> list B) l :
  (forall x, In x l -> f x = g x) -> flat_map f l = flat_map g l.
Proof.
  induction l as [|x l IH]; intros Hf; simpl; [done|]. rewrite Hf by (by left).
  f_equal. apply IH. intros y Hy. apply Hf. by right.
Qed.

Section Repetition.
Variables (bw : bool) (m : State -> list State) (gs : list nat) (greedy : bool).
Hypothesis Hm : moves inp bw gs m.

(** One iteration: a sane state, no further away than before. *)
Lemma iteration_reaches st y :
  st_ok inp st -> In y (m (clear_groups gs st)) -> reaches inp bw gs st y.
Proof.
  intros Hok Hy. assert (Hc : reaches inp bw gs st (clear_groups gs st))
    by (apply reaches_clear; [apply incl_refl|done]).
  eapply reaches_trans; [exact Hc|]. apply Hm; [apply Hc|done].
Qed.

Lemma iteration_room st y :
  st_ok inp st -> In y (m (clear_groups gs st)) ->
  st_ok inp y /\ room inp bw (s_pos y) <= room inp bw (s_pos st) /\
  (s_pos y <> s_pos st -> room inp bw (s_pos y) < room inp bw (s_pos st)).
Proof.
  intros Hok Hy. pose proof (iteration_reaches st y Hok Hy) as Hr. split; [apply Hr|].
  apply ahead_room; [apply Hr|apply Hok|apply Hr].
Qed.

Lemma repeat_fuel_irrelevant f1 f2 min max st :
  st_ok inp st -> min + room inp bw (s_pos st) < f1 -> min + room inp bw (s_pos st) < f2 ->
  spec_repeat m gs greedy f1 min max st = spec_repeat m gs greedy f2 min max st.
Proof.
  revert f2 min max st. induction f1 as [|f1 IH]; intros f2 min max st Hok H1 H2; [lia|].
  destruct f2 as [|f2]; [lia|]. cbn [spec_repeat].
  rewrite (flat_map_ext_In _ (fun y => if (min =? 0) && (s_pos y =? s_pos st) then []
    else spec_repeat m gs greedy f2 (pred min) (pred <$> max) y)); [done|].
  intros y Hy. destruct (iteration_room st y Hok Hy) as (Hoky & Hle & Hlt).
  destruct ((min =? 0) && (s_pos y =? s_pos st)) eqn:E; [done|].
  apply IH; [done| |]; destruct min; simpl in E |- *; boolprop; [specialize (Hlt E)| |specialize (Hlt E)|]; lia.
Qed.

Definition rep (min : nat) (max : option nat) (st : State) : list State :=
  spec_repeat m gs greedy (min + length (units inp) + 1) min max st.

Definition rep_again (min : nat) (max : option nat) (st : State) : list State :=
  flat_map (fun y => if (min =? 0) && (s_pos y =? s_pos st) then [] else rep (pred min) (pred <$> max) y)
    (m (clear_groups gs st)).

Lemma room_le p : p <= length (units inp) -> room inp bw p <= length (units inp).
Proof. unfold room. destruct bw; lia. Qed.

Lemma rep_unfold min max st :
  st_ok inp st -> max <> Some 0 ->
  rep min max st =
  match min with
  | S _ => rep_again min max st
  | 0 => if greedy then rep_again 0 max st ++ [st] else st :: rep_again 0 max st
  end.
Proof.
  intros Hok Hmax. unfold rep. rewrite Nat.add_1_r. cbn [spec_repeat].
  assert (Heq : flat_map (fun y => if (min =? 0) && (s_pos y =? s_pos st) then []
    else spec_repeat m gs greedy (min + length (units inp)) (pred min) (pred <$> max) y)
    (m (clear_groups gs st)) = rep_again min max st).
  { apply flat_map_ext_In. intros y Hy. destruct (iteration_room st y Hok Hy) as (Hoky & Hle & Hlt).
    destruct ((min =? 0) && (s_pos y =? s_pos st)) eqn:E; [done|]. unfold rep.
    pose proof (room_le _ (proj1 Hok)). pose proof (room_le _ (proj1 Hoky)).
    apply repeat_fuel_irrelevant; [done| |]; destruct min; simpl in E |- *; boolprop;
      [specialize (Hlt E)| | |]; lia. }
  rewrite Heq. destruct max as [[|k]|]; [done| |]; by destruct min.
Qed.

Lemma rep_zero min st : rep min (Some 0) st = [st].
Proof. unfold rep. by rewrite Nat.add_1_r. Qed.

Lemma rep_stop max st : st_ok inp st -> In st (rep 0 max st).
Proof.
  intros Hok. destruct (decide (max = Some 0)) as [->|Hne]; [rewrite rep_zero; by left|].
  rewrite rep_unfold by done. destruct greedy; [apply in_or_app; right|]; by left.
Qed.

Lemma rep_more max st y st' :
  st_ok inp st -> max <> Some 0 -> In y (m (clear_groups gs st)) -> s_pos y <> s_pos st ->
  In st' (rep 0 (pred <$> max) y) -> In st' (rep 0 max st).
Proof.
  intros Hok Hmax Hy Hne Hin. rewrite rep_unfold by done.
  assert (Ha : In st' (rep_again 0 max st)).
  { apply in_flat_map. exists y. split; [done|]. by rewrite (proj2 (Nat.eqb_neq _ _) Hne). }
  destruct greedy; [apply in_or_app; by left|by right].
Qed.
End Repetition.
End Reach.
