(* ===== verification/Simulate.v ===== *)
(** * Relating program points to the reference semantics

    [Sim pc0 pc1 bw m0 m1 P cs ns] says that the code between [pc0] and [pc1]
    implements the matcher [P]: whatever follows at [pc1], running from [pc0]
    tries the states of [P] in order and takes the first one from which the rest
    succeeds.  The slots of the machine and the captures of the specification
    are related by [Rel], which knows which groups are open (entered and not yet
    left); [m0..m1] are the loop marks the code may write; [cs] are the groups
    the code writes and [ns] those it needs unset on entry.

    The file holds the relation, its preservation by every slot write, and one
    lemma per instruction of the machine. *)

From S2P Require Import Prelude Unicode Classes Program Exec Backtrack Lower Spec.

(** ** The first success *)

Fixpoint first_some {A X} (K : A -> option X) (l : list A) : option X :=
  match l with
  | [] => None
  | a :: l => match K a with Some x => Some x | None => first_some K l end
  end.

Definition orelse {X} (o1 o2 : option X) : option X :=
  match o1 with Some x => Some x | None => o2 end.

Lemma first_some_app {A X} (K : A -> option X) l1 l2 :
  first_some K (l1 ++ l2) = orelse (first_some K l1) (first_some K l2).
Proof. induction l1 as [|a l1 IH]; simpl; [done|]. by destruct (K a). Qed.

Lemma first_some_flat_map {A B X} (K : B -> option X) (f : A -> list B) l :
  first_some K (flat_map f l) = first_some (fun a => first_some K (f a)) l.
Proof.
  induction l as [|a l IH]; simpl; [done|]. rewrite first_some_app, IH.
  by destruct (first_some K (f a)).
Qed.

Lemma first_some_map {A B X} (K : B -> option X) (f : A -> B) l :
  first_some K (map f l) = first_some (fun a => K (f a)) l.
Proof. induction l as [|a l IH]; simpl; [done|]. by rewrite IH. Qed.

Lemma first_some_ext {A X} (K K' : A -> option X) l :
  (forall a, In a l -> K a = K' a) -> first_some K l = first_some K' l.
Proof.
  induction l as [|a l IH]; intros Hk; simpl; [done|].
  rewrite (Hk a) by (by left). rewrite IH; [done|]. intros b Hb. apply Hk. by right.
Qed.

Lemma first_some_In {A X} (K : A -> option X) l x :
  first_some K l = Some x -> exists a, In a l /\ K a = Some x.
Proof.
  induction l as [|a l IH]; simpl; [done|]. destruct (K a) eqn:E.
  - intros [= ->]. exists a. auto.
  - intros Hf. destruct (IH Hf) as (b & Hb & Hk). eauto.
Qed.

Lemma first_some_head {A} (l : list A) : first_some Some l = head l.
Proof. by destruct l. Qed.

Lemma decode_dir_cp inp pos bw cp w :
  wf_units (units inp) -> decode_dir inp pos bw = Some (cp, w) -> (0 <= cp <= 1114111)%Z.
Proof.
  intros Hw Hd. unfold decode_dir, decode_back, prev_codepoint, decode in Hd.
  repeat case_match; simplify_eq; boolprop;
    repeat match goal with
    | E : units inp !! _ = Some ?u |- _ =>
        pose proof (wf_units_lookup _ _ _ Hw E); clear E end; try lia;
    match goal with |- (0 <= combine_surrogates ?h ?l <= _)%Z =>
      pose proof (combine_surrogates_bounds h l); intuition lia end.
Qed.

Section Sim.
Context `{Icu}.
Variable prog : Program.
Variable inp : Input.

Local Abbreviation gc := (group_count prog).
Local Abbreviation uni := (prog_unicode prog).
Local Abbreviation base := (2 * (group_count prog + 1)).

(** ** Runs *)

Definition agrees (RR : State -> nat -> Caps -> Prop) (o : option State)
    (r : option (nat * Caps)) : Prop :=
  match o, r with
  | None, None => True
  | Some x, Some (p, c) => RR x p c
  | _, _ => False
  end.

Definition runs (RR : State -> nat -> Caps -> Prop) (bw : bool) (pc pos : nat) (vm : Caps)
    (o : option State) : Prop :=
  exists r d, bt prog inp bw pc pos vm r d /\ agrees RR o r.

Lemma runs_next RR bw pc pos vm i pos' vm' o :
  insns prog !! pc = Some i -> simple_insn prog inp i bw pos vm = Some (Some (pos', vm')) ->
  runs RR bw (pc + 1) pos' vm' o -> runs RR bw pc pos vm o.
Proof. intros Hi Hs (r & d & Hb & Ha). exists r, d. split; [by eapply bt_next|done]. Qed.

Lemma runs_fail RR bw pc pos vm i :
  insns prog !! pc = Some i -> simple_insn prog inp i bw pos vm = Some None ->
  runs RR bw pc pos vm None.
Proof. intros Hi Hs. exists None, 0. split; [|done]. eapply bt_fail; eauto. Qed.

Lemma runs_jump RR bw pc t pos vm o :
  insns prog !! pc = Some (Insn.Jump t) -> runs RR bw t pos vm o -> runs RR bw pc pos vm o.
Proof.
  intros Hi (r & d & Hb & Ha). destruct r as [x|].
  - exists (Some x), d. split; [|done]. by eapply bt_hit.
  - exists None, (d + 0). split; [|done]. eapply bt_miss; [done|done|done|constructor].
Qed.

Lemma runs_split RR bw pc a b pos vm o1 o2 :
  insns prog !! pc = Some (Insn.Split a b) ->
  runs RR bw a pos vm o1 -> (o1 = None -> runs RR bw b pos vm o2) ->
  runs RR bw pc pos vm (orelse o1 o2).
Proof.
  intros Hi (r & d & Hb & Ha) H2. destruct o1 as [x|], r as [[p c]|]; try done; simpl.
  - exists (Some (p, c)), d. split; [|done]. by eapply bt_hit.
  - destruct (H2 eq_refl) as (r2 & d2 & Hb2 & Ha2). destruct r2 as [x2|].
    + exists (Some x2), (d + S d2). split; [|done]. eapply bt_miss; [done|done|done|]. by constructor.
    + exists None, (d + (S d2 + 0)). split; [|done]. eapply bt_miss; [done|done|done|].
      apply btl_miss; [done|constructor].
Qed.

Lemma runs_positions RR bw pc vm (K : nat -> option State) ps :
  (forall p, In p ps -> runs RR bw pc p vm (K p)) ->
  exists r d, bt_list prog inp bw pc ps vm r d /\ agrees RR (first_some K ps) r.
Proof.
  induction ps as [|p ps IH]; intros Hps; [exists None, 0; split; [constructor|done]|].
  destruct (Hps p) as (r & d & Hb & Ha); [by left|]. simpl.
  destruct (K p) as [x|], r as [[q c]|]; try done.
  - exists (Some (q, c)), (S d). split; [by constructor|done].
  - destruct IH as (r2 & d2 & Hb2 & Ha2); [intros q Hq; apply Hps; by right|].
    exists r2, (S d + d2). split; [by apply btl_miss|done].
Qed.

Lemma runs_choice RR bw pc i pos vm pc1 p ps (K : nat -> option State) :
  insns prog !! pc = Some i -> choice_insn prog inp i bw pc pos = Some (Some (pc1, p, (pc1, ps))) ->
  (forall q, In q (p :: ps) -> runs RR bw pc1 q vm (K q)) ->
  runs RR bw pc pos vm (first_some K (p :: ps)).
Proof.
  intros Hi Hc Hps. destruct (Hps p) as (r & d & Hb & Ha); [by left|].
  destruct (runs_positions RR bw pc1 vm K ps) as (r2 & d2 & Hb2 & Ha2);
    [intros q Hq; apply Hps; by right|].
  simpl. destruct (K p) as [x|], r as [[q c]|]; try done.
  - exists (Some (q, c)), d. split; [by eapply bt_hit|done].
  - exists r2, (d + d2). split; [by eapply bt_miss|done].
Qed.

(** ** Slots and captures *)

Definition grp_rel (o : option (bool * nat)) (a b : option nat) (v : option (nat * nat)) : Prop :=
  match o with
  | None => match v with
            | Some (s, e) => a = Some s /\ b = Some e
            | None => a = None /\ b = None
            end
  | Some (bw, p) => v = None /\ if bw then a = None /\ b = Some p else a = Some p /\ b = None
  end.

(** [O] gives the direction and entry position of every open group. *)
Record Rel (O : nat -> option (bool * nat)) (vm : Caps) (st : State) : Prop := mkRel {
  rel_len : length vm = slot_count prog;
  rel_slen : length (s_caps st) = S gc;
  rel_groups : forall g, 1 <= g <= gc ->
    exists a b v, vm !! (2 * g) = Some a /\ vm !! (2 * g + 1) = Some b /\
      s_caps st !! g = Some v /\ grp_rel (O g) a b v
}.

Definition same_outside (m0 m1 : nat) (vm vm' : Caps) : Prop :=
  forall i, i < 2 \/ (base <= i /\ (i < m0 \/ m1 <= i)) -> vm' !! i = vm !! i.

Definition upd (O : nat -> option (bool * nat)) (g : nat) (v : bool * nat) :=
  fun x => if x =? g then Some v else O x.

Lemma same_outside_refl m0 m1 vm : same_outside m0 m1 vm vm.
Proof. done. Qed.

Lemma same_outside_trans m0 m1 a b c :
  same_outside m0 m1 a b -> same_outside m0 m1 b c -> same_outside m0 m1 a c.
Proof. intros H1 H2 i Hi. by rewrite H2, H1. Qed.

Lemma same_outside_widen m0 m1 n0 n1 a b :
  n0 <= m0 -> m1 <= n1 -> same_outside m0 m1 a b -> same_outside n0 n1 a b.
Proof. intros H0 H1 Hs i Hi. apply Hs. lia. Qed.

Lemma same_outside_insert m0 m1 vm i v :
  2 <= i -> (base <= i -> m0 <= i < m1) -> same_outside m0 m1 vm (<[i := v]> vm).
Proof. intros H2 Hi j Hj. apply list_lookup_insert_ne. intros ->. lia. Qed.

Lemma rel_move O vm st p : Rel O vm st -> Rel O vm (move_to p st).
Proof. intros [? ? ?]. by split. Qed.

Lemma rel_mark O vm st i v : Rel O vm st -> base <= i -> Rel O (<[i := v]> vm) st.
Proof.
  intros [Hl Hs Hg] Hi. split; [by rewrite length_insert|done|]. intros g Hr.
  destruct (Hg g Hr) as (a & b & w & Ha & Hb & Hw & Hrel). exists a, b, w.
  rewrite !list_lookup_insert_ne by lia. done.
Qed.

(** Writing the slots of one group changes the relation at that group only. *)
Lemma rel_write O O' vm st g vm' v :
  Rel O vm st -> 1 <= g <= gc -> length vm' = length vm ->
  (forall i, i <> 2 * g -> i <> 2 * g + 1 -> vm' !! i = vm !! i) ->
  (forall x, x <> g -> O' x = O x) ->
  (exists a b, vm' !! (2 * g) = Some a /\ vm' !! (2 * g + 1) = Some b /\ grp_rel (O' g) a b v) ->
  Rel O' vm' (set_capture g v st).
Proof.
  intros [Hl Hs Hg] Hr Hlen Hother HO (a & b & Ha & Hb & Hrel).
  split; [congruence|by simpl; rewrite length_insert|]. intros x Hx. simpl.
  destruct (decide (x = g)) as [->|Hne].
  - exists a, b, v. rewrite list_lookup_insert_eq by lia. done.
  - destruct (Hg x Hx) as (a' & b' & v' & Ha' & Hb' & Hv' & Hrel'). exists a', b', v'.
    rewrite !Hother by lia. rewrite list_lookup_insert_ne by done. by rewrite HO.
Qed.

Lemma rel_slots O vm st : Rel O vm st -> forall g, 1 <= g <= gc -> 2 * g + 1 < length vm.
Proof. intros [Hl _ _] g Hg. unfold slot_count in Hl. lia. Qed.

Lemma rel_clear O vm st g :
  Rel O vm st -> 1 <= g <= gc -> O g = None ->
  Rel O (<[2 * g + 1 := None]> (<[2 * g := None]> vm)) (set_capture g None st).
Proof.
  intros Hrel Hg HO. pose proof (rel_slots _ _ _ Hrel g Hg). eapply rel_write; [done|done| | |done|].
  - by rewrite !length_insert.
  - intros i H1 H2. by rewrite !list_lookup_insert_ne by done.
  - exists None, None. rewrite list_lookup_insert_ne, list_lookup_insert_eq by lia.
    rewrite list_lookup_insert_eq by (rewrite length_insert; lia). by rewrite HO.
Qed.

Lemma set_capture_same g v st : s_caps st !! g = Some v -> set_capture g v st = st.
Proof. intros Hv. unfold set_capture. rewrite list_insert_id by done. by destruct st. Qed.

(** The slot written on entering a group, and the one written on leaving. *)
Definition first_slot (bw : bool) (g : nat) : nat := if bw then 2 * g + 1 else 2 * g.
Definition last_slot (bw : bool) (g : nat) : nat := if bw then 2 * g else 2 * g + 1.

Lemma rel_open O vm st g bw p :
  Rel O vm st -> 1 <= g <= gc -> O g = None -> s_caps st !! g = Some None ->
  Rel (upd O g (bw, p)) (<[first_slot bw g := Some p]> vm) st.
Proof.
  intros Hrel Hg HO Hc. pose proof (rel_slots _ _ _ Hrel g Hg).
  destruct (rel_groups _ _ _ Hrel g Hg) as (a & b & v & Ha & Hb & Hv & Hr).
  rewrite HO in Hr. simplify_eq. destruct Hr as [-> ->].
  rewrite <- (set_capture_same g None st Hc).
  eapply rel_write; [done|done|by rewrite length_insert| | |].
  - intros i H1 H2. apply list_lookup_insert_ne. unfold first_slot. destruct bw; lia.
  - intros x Hx. unfold upd. by rewrite (proj2 (Nat.eqb_neq _ _) Hx).
  - unfold upd. rewrite Nat.eqb_refl. unfold first_slot. destruct bw.
    + exists None, (Some p). rewrite list_lookup_insert_ne, list_lookup_insert_eq by lia. done.
    + exists (Some p), None. rewrite list_lookup_insert_eq, list_lookup_insert_ne by lia. done.
Qed.

Lemma rel_close O vm st g bw p q :
  Rel (upd O g (bw, p)) vm st -> 1 <= g <= gc -> O g = None ->
  Rel O (<[last_slot bw g := Some q]> vm) (set_capture g (Some (span bw p q)) st).
Proof.
  intros Hrel Hg HO. pose proof (rel_slots _ _ _ Hrel g Hg).
  destruct (rel_groups _ _ _ Hrel g Hg) as (a & b & v & Ha & Hb & Hv & Hr).
  unfold upd in Hr. rewrite Nat.eqb_refl in Hr. destruct Hr as [-> Hr].
  eapply rel_write; [done|done|by rewrite length_insert| | |].
  - intros i H1 H2. apply list_lookup_insert_ne. unfold last_slot. destruct bw; lia.
  - intros x Hx. unfold upd. by rewrite (proj2 (Nat.eqb_neq _ _) Hx).
  - rewrite HO. unfold last_slot, span. destruct bw; destruct Hr as [-> ->].
    + exists (Some q), (Some p). rewrite list_lookup_insert_eq, list_lookup_insert_ne by lia. done.
    + exists (Some p), (Some q). rewrite list_lookup_insert_ne, list_lookup_insert_eq by lia. done.
Qed.

Lemma rel_group_range O vm st g :
  Rel O vm st -> 1 <= g <= gc -> group_range vm g = mjoin (s_caps st !! g).
Proof.
  intros Hrel Hg. destruct (rel_groups _ _ _ Hrel g Hg) as (a & b & v & Ha & Hb & Hv & Hr).
  unfold group_range. rewrite Ha, Hb, Hv. simpl. unfold grp_rel in Hr.
  destruct (O g) as [[bw p]|]; [|destruct v as [[s e]|]; by destruct Hr as [-> ->]].
  destruct Hr as [-> Hr]. destruct bw; by destruct Hr as [-> ->].
Qed.

(** ** Implementing a matcher *)

Definition Sim (pc0 pc1 : nat) (bw : bool) (m0 m1 : nat) (P : State -> list State)
    (cs ns : list nat) : Prop :=
  forall O RR K vm st,
    Rel O vm st -> st_ok inp st ->
    (forall g, In g cs -> O g = None) -> (forall g, In g ns -> s_caps st !! g = Some None) ->
    (forall st' vm', In st' (P st) -> Rel O vm' st' -> same_outside m0 m1 vm vm' ->
       runs RR bw pc1 (s_pos st') vm' (K st')) ->
    runs RR bw pc0 (s_pos st) vm (first_some K (P st)).

Lemma sim_ext pc0 pc1 bw m0 m1 P P' cs ns :
  (forall st, st_ok inp st -> P' st = P st) ->
  Sim pc0 pc1 bw m0 m1 P cs ns -> Sim pc0 pc1 bw m0 m1 P' cs ns.
Proof.
  intros HP HS O RR K vm st Hrel Hok Hcs Hns Hk. rewrite HP by done. rewrite HP in Hk by done.
  by eapply HS.
Qed.

Lemma sim_nop pc bw m0 m1 cs ns : Sim pc pc bw m0 m1 (fun st => [st]) cs ns.
Proof.
  intros O RR K vm st Hrel Hok Hcs Hns Hk.
  assert (Hr : runs RR bw pc (s_pos st) vm (K st)) by (apply Hk; [by left|done|done]).
  simpl. by destruct (K st).
Qed.

(** Sequential composition. *)
Lemma sim_seq pc0 pc1 pc2 bw m0 m1 m2 P1 P2 cs ns ns2 :
  m0 <= m1 <= m2 -> Sim pc0 pc1 bw m0 m1 P1 cs ns -> Sim pc1 pc2 bw m1 m2 P2 cs ns2 ->
  (forall st st', st_ok inp st -> length (s_caps st) = S gc ->
     (forall g, In g ns -> s_caps st !! g = Some None) ->
     In st' (P1 st) -> st_ok inp st' /\ (forall g, In g ns2 -> s_caps st' !! g = Some None)) ->
  Sim pc0 pc2 bw m0 m2 (fun st => flat_map P2 (P1 st)) cs ns.
Proof.
  intros Hm H1 H2 Hmid O RR K vm st Hrel Hok Hcs Hns Hk. rewrite first_some_flat_map.
  eapply H1; try done. intros st' vm' Hin Hrel' Hsame.
  destruct (Hmid st st' Hok (rel_slen _ _ _ Hrel) Hns Hin) as [Hok' Hns'].
  eapply H2; try done. intros st2 vm2 Hin2 Hrel2 Hsame2. apply Hk; [|done|].
  - apply in_flat_map. eauto.
  - apply (same_outside_trans _ _ _ vm').
    + apply (same_outside_widen m0 m1); [lia|lia|done].
    + apply (same_outside_widen m1 m2); [lia|lia|done].
Qed.

(** An instruction that tests and moves, without writing slots. *)
Lemma sim_simple pc bw m0 m1 i (f : State -> option nat) cs ns :
  insns prog !! pc = Some i ->
  (forall O vm st, Rel O vm st -> st_ok inp st ->
     simple_insn prog inp i bw (s_pos st) vm = Some ((fun p => (p, vm)) <$> f st)) ->
  Sim pc (pc + 1) bw m0 m1
    (fun st => match f st with Some p => [move_to p st] | None => [] end) cs ns.
Proof.
  intros Hi Hs O RR K vm st Hrel Hok Hcs Hns Hk. specialize (Hs O vm st Hrel Hok).
  destruct (f st) as [p|] eqn:E; simpl in Hs |- *; [|by eapply runs_fail].
  assert (Hr : runs RR bw (pc + 1) (s_pos (move_to p st)) vm (K (move_to p st))).
  { apply Hk; [by left|by apply rel_move|done]. }
  eapply runs_next; [done|done|]. by destruct (K _).
Qed.
End Sim.
