(* ===== verification/Leaves.v ===== *)
(** * Single instructions against the reference semantics

    One lemma per consuming, asserting, clearing or repeating instruction: the
    code [pc .. pc + 1] implements the matcher the specification gives to the
    corresponding leaf of the pattern tree.  The fused [CharSeq] is the sequence
    of its literals; the fused [Repeat] is the specification's RepeatMatcher on
    a one-unit body. *)

From S2P Require Import Prelude Unicode Classes Program Exec Backtrack Lower Spec Simulate.

(** The code unit next to a position in a direction. *)
Definition unit_at (inp : Input) (bw : bool) (pos : nat) : option Z :=
  if bw then match pos with 0 => None | S e => units inp !! e end else units inp !! pos.

(** A code point that a literal run may hold. *)
Definition plain_unit (c : Z) : Prop := (c < 65536)%Z /\ in_range 55296 57343 c = false.

Lemma room_step inp bw pos u :
  unit_at inp bw pos = Some u ->
  room inp bw (step pos 1 bw) < room inp bw pos /\ step pos 1 bw <> pos /\
  (pos <= length (units inp) -> step pos 1 bw <= length (units inp)).
Proof.
  unfold unit_at, room, step. destruct bw.
  - destruct pos; [done|]. lia.
  - intros Hu%lookup_lt_Some. lia.
Qed.

Lemma move_to_eta st p : p = s_pos st -> move_to p st = st.
Proof. intros ->. by destruct st. Qed.

Section Leaves.
Context `{Icu}.
Variable prog : Program.
Variable inp : Input.
Hypothesis Hunits : wf_units (units inp).

Local Abbreviation uni := (prog_unicode prog).
Local Abbreviation gc := (group_count prog).

(** ** Consuming one code point *)

Lemma sim_consume pc bw m0 m1 cs ns i (tst test : Z -> bool) :
  insns prog !! pc = Some i ->
  (forall pos vm, simple_insn prog inp i bw pos vm =
     Some ((fun p => (p, vm)) <$>
       match decode_dir inp pos bw with
       | Some (cp, w) => if tst cp then Some (step pos w bw) else None
       | None => None
       end)) ->
  (forall cp, (0 <= cp <= 1114111)%Z -> tst cp = test cp) ->
  Sim prog inp pc (pc + 1) bw m0 m1 (spec_consume inp test bw) cs ns.
Proof.
  intros Hi Hs Ht.
  apply (sim_ext _ _ _ _ _ _ _ (fun st => match
    (match decode_dir inp (s_pos st) bw with
     | Some (cp, w) => if tst cp then Some (step (s_pos st) w bw) else None
     | None => None end) with Some p => [move_to p st] | None => [] end)).
  - intros st Hok. unfold spec_consume. destruct (decode_dir inp (s_pos st) bw) as [[cp w]|] eqn:E; [|done].
    apply decode_dir_cp in E; [|done]. rewrite Ht by done. by destruct (test cp).
  - eapply sim_simple; [done|]. intros O vm st _ _. apply Hs.
Qed.

Lemma sim_char pc bw m0 m1 cs ns c ic :
  insns prog !! pc = Some (Insn.Char c ic) ->
  Sim prog inp pc (pc + 1) bw m0 m1 (spec_consume inp (spec_char uni c ic) bw) cs ns.
Proof.
  intros Hi. eapply (sim_consume _ _ _ _ _ _ _ (fun cp => char_eq prog c cp ic)); [done| |done].
  intros pos vm. simpl. unfold consume_char. by destruct (decode_dir inp pos bw) as [[cp w]|].
Qed.

Lemma sim_any pc bw m0 m1 cs ns da :
  insns prog !! pc = Some (Insn.AnyChar da) ->
  Sim prog inp pc (pc + 1) bw m0 m1
    (spec_consume inp (fun cp => da || negb (is_line_terminator cp)) bw) cs ns.
Proof.
  intros Hi. eapply (sim_consume _ _ _ _ _ _ _ (fun cp => da || negb (is_line_terminator cp)));
    [done| |done].
  intros pos vm. simpl. unfold consume_any. by destruct (decode_dir inp pos bw) as [[cp w]|].
Qed.

Lemma sim_class pc bw m0 m1 cs ns c neg ic set test :
  insns prog !! pc = Some (Insn.Class c neg ic) -> classes prog !! c = Some set ->
  (forall cp, (0 <= cp <= 1114111)%Z -> class_member prog set neg cp ic = test cp) ->
  Sim prog inp pc (pc + 1) bw m0 m1 (spec_consume inp test bw) cs ns.
Proof.
  intros Hi Hc Ht. eapply (sim_consume _ _ _ _ _ _ _ (fun cp => class_member prog set neg cp ic));
    [done| |done].
  intros pos vm. simpl. rewrite Hc. unfold consume_class.
  by destruct (decode_dir inp pos bw) as [[cp w]|].
Qed.

(** ** Assertions *)

Lemma sim_assert pc bw m0 m1 cs ns a :
  insns prog !! pc = Some (match a with
    | StartOfLine ml => Insn.AssertStart ml
    | EndOfLine ml => Insn.AssertEnd ml
    | WordBoundary invert ic => Insn.WordBoundary invert ic
    end) ->
  Sim prog inp pc (pc + 1) bw m0 m1
    (fun st => if spec_assert inp uni a (s_pos st) then [st] else []) cs ns.
Proof.
  intros Hi.
  apply (sim_ext _ _ _ _ _ _ _ (fun st => match
    (if spec_assert inp uni a (s_pos st) then Some (s_pos st) else None) with
    | Some p => [move_to p st] | None => [] end)).
  - intros st _. destruct (spec_assert _ _ _ _); [|done]. by rewrite move_to_eta.
  - eapply sim_simple; [done|]. intros O vm st _ _.
    assert (Hb : simple_insn prog inp (match a with
      | StartOfLine ml => Insn.AssertStart ml | EndOfLine ml => Insn.AssertEnd ml
      | WordBoundary invert ic => Insn.WordBoundary invert ic end) bw (s_pos st) vm =
      Some (if spec_assert inp uni a (s_pos st) then Some (s_pos st, vm) else None)).
    { destruct a; [done|done|]. simpl. unfold word_boundary, is_w, spec_is_word.
      by destruct (prev_codepoint inp (s_pos st)), (decode inp (s_pos st)) as [[? ?]|]. }
    rewrite Hb. by destruct (spec_assert _ _ _ _).
Qed.

(** ** Backreferences *)

Lemma find_group_spec O vm st gs :
  Rel prog O vm st -> Forall (fun g => 1 <= g <= gc) gs ->
  find_group vm gs = spec_capture (s_caps st) gs.
Proof.
  intros Hrel. induction 1 as [|g gs Hg _ IH]; [done|]. cbn [find_group spec_capture].
  rewrite (rel_group_range prog O vm st g Hrel Hg).
  destruct (s_caps st !! g) as [[r|]|]; simpl; [done|done|done].
Qed.

Lemma backref_loop_spec ic k s at_ :
  s + k <= length (units inp) -> at_ + k <= length (units inp) ->
  backref_loop prog inp k s at_ ic =
  Ok (forallb (fun ab : Z * Z => spec_char uni ab.2 ic ab.1) (zip (slice inp s k) (slice inp at_ k))).
Proof.
  revert s at_. induction k as [|k IH]; intros s at_ Hs Ha; [done|]. cbn [backref_loop].
  destruct (lookup_lt_is_Some_2 (units inp) s ltac:(lia)) as [x Hx].
  destruct (lookup_lt_is_Some_2 (units inp) at_ ltac:(lia)) as [y Hy].
  rewrite (proj2 (index_Ok _ _ _) Hx), (proj2 (index_Ok _ _ _) Hy). cbn [rbind].
  unfold slice. rewrite (drop_S _ _ _ Hx), (drop_S _ _ _ Hy). cbn [take zip zip_with forallb].
  cbn [fst snd]. change (unit_eq prog x y ic) with (spec_char uni y ic x).
  destruct (spec_char uni y ic x); [|done]. simpl andb. apply IH; lia.
Qed.

Lemma spec_capture_ok caps gs r :
  Forall (cap_ok inp) caps -> spec_capture caps gs = Some r -> cap_ok inp (Some r).
Proof.
  intros Hf. induction gs as [|g gs IH]; simpl; [done|].
  destruct (caps !! g) as [[r'|]|] eqn:E; try done. intros [= ->].
  exact (proj1 (Forall_lookup _ _) Hf _ _ E).
Qed.

Lemma sim_backref pc bw m0 m1 cs ns gs ic :
  insns prog !! pc = Some (Insn.BackRef gs ic) -> Forall (fun g => 1 <= g <= gc) gs ->
  Sim prog inp pc (pc + 1) bw m0 m1 (spec_backref inp uni gs ic bw) cs ns.
Proof.
  intros Hi Hgs.
  set (f := fun st => match spec_capture (s_caps st) gs with
    | None => Some (s_pos st)
    | Some (s, e) =>
        if bw && (s_pos st <? e - s) then None
        else let at_ := if bw then s_pos st - (e - s) else s_pos st in
          if (at_ + (e - s) <=? length (units inp)) &&
             forallb (fun ab : Z * Z => spec_char uni ab.2 ic ab.1)
               (zip (slice inp s (e - s)) (slice inp at_ (e - s)))
          then Some (step (s_pos st) (e - s) bw) else None
    end).
  apply (sim_ext _ _ _ _ _ _ _ (fun st => match f st with Some p => [move_to p st] | None => [] end)).
  - intros st _. unfold f, spec_backref. destruct (spec_capture _ _) as [[s e]|];
      [|by rewrite move_to_eta].
    destruct (bw && _); [done|]. by destruct (_ && forallb _ _).
  - eapply sim_simple; [done|]. intros O vm st Hrel [Hp Hc].
    cbn [simple_insn]. unfold match_backref. rewrite (find_group_spec O vm st) by done.
    unfold f. destruct (spec_capture (s_caps st) gs) as [[s e]|] eqn:E; [|done].
    apply spec_capture_ok in E; [|done]. simpl in E.
    destruct (e - s =? 0) eqn:El; boolprop.
    + rewrite El. rewrite andb_false_r.
      replace ((if bw then s_pos st - 0 else s_pos st) + 0) with (s_pos st) by (destruct bw; lia).
      rewrite (proj2 (Nat.leb_le _ _) Hp). simpl. unfold step. by destruct bw; rewrite ?Nat.sub_0_r, ?Nat.add_0_r.
    + destruct (bw && (s_pos st <? e - s)) eqn:Eb; [done|].
      set (at_ := if bw then _ else _). destruct (length (units inp) <? at_ + (e - s)) eqn:Eo; boolprop.
      * rewrite (proj2 (Nat.leb_gt _ _)) by lia. done.
      * rewrite (proj2 (Nat.leb_le _ _)) by lia. rewrite backref_loop_spec by lia. cbn [rbind andb].
        destruct (forallb _ _); [|done]. unfold at_, step. by destruct bw.
Qed.

(** ** Fused literal runs *)

Lemma literal_step c bw st :
  plain_unit c -> st_ok inp st ->
  spec_consume inp (spec_char uni c false) bw st =
  match unit_at inp bw (s_pos st) with
  | Some u => if (u =? c)%Z then [move_to (step (s_pos st) 1 bw) st] else []
  | None => []
  end.
Proof.
  intros [Hlt Hsur] [Hp _]. unfold spec_consume, spec_char. cbn [andb].
  assert (Hns : forall u, is_high_surrogate u = true \/ is_low_surrogate u = true -> (u =? c)%Z = false).
  { intros u Hu. unfold is_high_surrogate, is_low_surrogate in Hu.
    destruct Hu as [Hu|Hu]; boolprop; apply Z.eqb_neq; lia. }
  assert (Hbig : forall h l, is_high_surrogate h = true -> is_low_surrogate l = true ->
    (combine_surrogates h l =? c)%Z = false).
  { intros h l Hh Hl. pose proof (combine_surrogates_bounds h l Hh Hl). apply Z.eqb_neq. lia. }
  unfold decode_dir, decode_back, prev_codepoint, decode, unit_at. destruct bw.
  - destruct (s_pos st) as [|p]; [done|]. destruct (units inp !! p) as [u|] eqn:Eu; [|done].
    pose proof (wf_units_lookup _ _ _ Hunits Eu).
    destruct (code_point_mode inp && is_low_surrogate u && (2 <=? S p)) eqn:Em; boolprop.
    + rewrite (Hns u) by auto. destruct (units inp !! (S p - 2)) as [h|] eqn:Eh;
        [destruct (is_high_surrogate h) eqn:Eh'|]; rewrite ?Hbig, ?Hns, orb_false_r by auto; done.
    + rewrite orb_false_r. destruct (65535 <? u)%Z eqn:E; [lia|]. done.
  - destruct (units inp !! s_pos st) as [u|] eqn:Eu; [|done].
    destruct (code_point_mode inp && is_high_surrogate u) eqn:Em; boolprop; [|by rewrite orb_false_r].
    rewrite (Hns u) by auto. destruct (units inp !! (s_pos st + 1)) as [l|] eqn:Eh;
      [destruct (is_low_surrogate l) eqn:Eh'|]; rewrite ?Hbig, ?Hns, orb_false_r by auto; done.
Qed.

Lemma st_ok_move st p : st_ok inp st -> p <= length (units inp) -> st_ok inp (move_to p st).
Proof. intros [_ Hc] Hp. by split. Qed.

Lemma literal_run_forward run st :
  Forall plain_unit run -> st_ok inp st ->
  spec_seq (map (fun c => spec_consume inp (spec_char uni c false) false) run) st =
  if (s_pos st + length run <=? length (units inp)) &&
     bool_decide (take (length run) (drop (s_pos st) (units inp)) = run)
  then [move_to (s_pos st + length run) st] else [].
Proof.
  intros Hrun. revert st. induction Hrun as [|c run Hc _ IH]; intros st Hok; cbn [map spec_seq foldr length].
  - destruct Hok as [Hp _]. rewrite Nat.add_0_r, (proj2 (Nat.leb_le _ _) Hp). simpl.
    by rewrite move_to_eta.
  - rewrite literal_step by done. unfold unit_at.
    destruct (units inp !! s_pos st) as [u|] eqn:Eu.
    + rewrite (drop_S _ _ _ Eu). cbn [take]. apply lookup_lt_Some in Eu.
      destruct (u =? c)%Z eqn:E; boolprop.
      * subst u. cbn [flat_map]. rewrite app_nil_r. unfold spec_seq in IH.
        rewrite IH by (apply st_ok_move; [done|unfold step; lia]). cbn [s_pos move_to].
        unfold step. replace (s_pos st + 1 + length run) with (s_pos st + S (length run)) by lia.
        replace (S (s_pos st)) with (s_pos st + 1) by lia.
        destruct (_ <=? _); [|done]. simpl.
        destruct (decide (take (length run) (drop (s_pos st + 1) (units inp)) = run)) as [Ht|Ht].
        -- rewrite !bool_decide_eq_true_2 by congruence. done.
        -- rewrite !bool_decide_eq_false_2 by congruence. done.
      * rewrite bool_decide_eq_false_2 by congruence. by rewrite andb_false_r.
    + apply lookup_ge_None in Eu. rewrite (proj2 (Nat.leb_gt _ _)) by lia. done.
Qed.

Lemma literal_run_backward run st :
  Forall plain_unit run -> st_ok inp st ->
  spec_seq (map (fun c => spec_consume inp (spec_char uni c false) true) run) st =
  if (length run <=? s_pos st) &&
     bool_decide (take (length run) (drop (s_pos st - length run) (units inp)) = rev run)
  then [move_to (s_pos st - length run) st] else [].
Proof.
  intros Hrun. revert st. induction Hrun as [|c run Hc _ IH]; intros st Hok; cbn [map spec_seq foldr length].
  - simpl. by rewrite move_to_eta by lia.
  - rewrite literal_step by done. unfold unit_at. destruct Hok as [Hp Hcap].
    destruct (s_pos st) as [|p] eqn:Es; [done|].
    destruct (lookup_lt_is_Some_2 (units inp) p ltac:(lia)) as [u Eu]. rewrite Eu.
    destruct (S (length run) <=? S p) eqn:El; boolprop.
    + replace (S p - S (length run)) with (p - length run) by lia.
      assert (Hu : drop (p - length run) (units inp) !! length run = Some u).
      { rewrite lookup_drop. replace (p - length run + length run) with p by lia. done. }
      rewrite (take_S_r _ _ _ Hu). cbn [rev].
      destruct (u =? c)%Z eqn:E; boolprop.
      * subst u. cbn [flat_map]. rewrite app_nil_r. unfold spec_seq in IH.
        rewrite IH by (split; [unfold step; simpl; lia|done]). cbn [s_pos move_to].
        unfold step. replace (S p - 1) with p by lia. rewrite (proj2 (Nat.leb_le _ _)) by lia.
        cbn [andb]. destruct (decide (take (length run) (drop (p - length run) (units inp)) = rev run)) as [Ht|Ht].
        -- rewrite !bool_decide_eq_true_2 by congruence. done.
        -- rewrite !bool_decide_eq_false_2; [done| |done]. intros Heq. apply app_inj_tail in Heq. tauto.
      * rewrite bool_decide_eq_false_2; [by rewrite andb_false_r|].
        intros Heq. apply app_inj_tail in Heq. tauto.
    + destruct (u =? c)%Z; [|done]. cbn [flat_map]. rewrite app_nil_r. unfold spec_seq in IH.
      rewrite IH by (split; [unfold step; simpl; lia|done]). cbn [s_pos move_to].
      unfold step. rewrite (proj2 (Nat.leb_gt _ _)) by lia. done.
Qed.

(** [run] in the order the region reads it; the instruction holds subject order. *)
Lemma sim_charseq pc (bw : bool) m0 m1 cs ns run :
  insns prog !! pc = Some (Insn.CharSeq (if bw then rev run else run)) -> Forall plain_unit run ->
  Sim prog inp pc (pc + 1) bw m0 m1
    (spec_seq (map (fun c => spec_consume inp (spec_char uni c false) bw) run)) cs ns.
Proof.
  intros Hi Hrun.
  apply (sim_ext _ _ _ _ _ _ _ (fun st => match
    consume_seq inp (if bw then rev run else run) (s_pos st) bw with
    | Some p => [move_to p st] | None => [] end)).
  - intros st Hok. unfold consume_seq. destruct bw.
    + rewrite literal_run_backward, length_rev by done. cbn [andb].
      destruct (s_pos st <? length run) eqn:E; boolprop.
      * rewrite (proj2 (Nat.leb_gt _ _)) by lia. done.
      * rewrite (proj2 (Nat.leb_le (length run) _)) by lia.
        rewrite (proj2 (Nat.leb_le (s_pos st) _)) by apply Hok. cbn [andb].
        by destruct (bool_decide _).
    + rewrite literal_run_forward by done. cbn [andb]. by destruct (_ && _).
  - eapply sim_simple; [done|]. intros O vm st _ _. done.
Qed.

(** ** Clearing captures *)

Lemma sim_clear_one pc bw m0 m1 cs ns g :
  insns prog !! pc = Some (Insn.ClearCapture g) -> 1 <= g <= gc -> In g cs ->
  Sim prog inp pc (pc + 1) bw m0 m1 (fun st => [set_capture g None st]) cs ns.
Proof.
  intros Hi Hg Hin O RR K vm st Hrel Hok Hcs Hns Hk.
  pose proof (rel_slots prog _ _ _ Hrel g Hg).
  eapply runs_next; [done| |].
  - cbn [simple_insn]. rewrite (proj2 (Nat.ltb_lt _ _)) by lia. done.
  - assert (Hr : runs prog inp RR bw (pc + 1) (s_pos (set_capture g None st))
      (<[2 * g + 1 := None]> (<[2 * g := None]> vm)) (K (set_capture g None st))).
    { apply Hk; [by left|by apply rel_clear; auto|].
      eapply same_outside_trans; apply same_outside_insert; lia. }
    cbn [first_some]. by destruct (K _).
Qed.

(** ** Fused repeats *)

Section Fused.
Variables (bw : bool) (tst test : Z -> bool).
Hypothesis Hmode : code_point_mode inp = false.
Hypothesis Htest : forall u, (0 <= u < 65536)%Z -> tst u = test u.

Lemma unit_at_range pos u : unit_at inp bw pos = Some u -> (0 <= u < 65536)%Z.
Proof.
  unfold unit_at. intros Hu. destruct bw; [destruct pos; [done|]|]; by eapply wf_units_lookup.
Qed.

Lemma unit_step st :
  spec_consume inp test bw st =
  match unit_at inp bw (s_pos st) with
  | Some u => if tst u then [move_to (step (s_pos st) 1 bw) st] else []
  | None => []
  end.
Proof.
  destruct (unit_at inp bw (s_pos st)) as [u|] eqn:E.
  - pose proof (unit_at_range _ _ E). rewrite Htest by done.
    unfold spec_consume, decode_dir, decode_back, prev_codepoint, decode, unit_at in *.
    destruct bw; [destruct (s_pos st) as [|p]; [done|]|]; rewrite E, Hmode; cbn [andb]; [|done].
    destruct (65535 <? u)%Z eqn:E'; [lia|done].
  - unfold spec_consume, decode_dir, decode_back, prev_codepoint, decode, unit_at in *.
    destruct bw; [destruct (s_pos st) as [|p]; [done|]|]; by rewrite E.
Qed.

Lemma scan_loop_fuel f1 f2 e :
  room inp bw e < f1 -> room inp bw e < f2 -> scan_loop inp f1 tst bw e = scan_loop inp f2 tst bw e.
Proof.
  revert f2 e. induction f1 as [|f1 IH]; intros f2 e H1 H2; [lia|]. destruct f2 as [|f2]; [lia|].
  cbn [scan_loop]. fold (unit_at inp bw e).
  change (if bw then match e with 0 => None | S e0 => units inp !! e0 end else units inp !! e)
    with (unit_at inp bw e).
  destruct (unit_at inp bw e) as [u|] eqn:E; [|done]. destruct (tst u); [|done].
  apply room_step in E as (Hr & _ & _). apply IH; lia.
Qed.

Lemma scan_step pos :
  pos <= length (units inp) ->
  scan inp tst bw pos =
  match unit_at inp bw pos with
  | Some u => if tst u then scan inp tst bw (step pos 1 bw) else pos
  | None => pos
  end.
Proof.
  intros Hp. unfold scan at 1. cbn [scan_loop].
  change (if bw then match pos with 0 => None | S e0 => units inp !! e0 end else units inp !! pos)
    with (unit_at inp bw pos).
  destruct (unit_at inp bw pos) as [u|] eqn:E; [|done]. destruct (tst u); [|done].
  apply room_step in E as (Hr & _ & Hle). unfold scan. apply scan_loop_fuel.
  - unfold room in *. destruct bw; lia.
  - specialize (Hle Hp). unfold room in *. destruct bw; lia.
Qed.

Lemma scan_dir pos : ahead bw pos (scan inp tst bw pos).
Proof. unfold ahead, scan. apply scan_loop_dir. Qed.

(** The positions of a completed star, in the order they are tried. *)
Definition star_positions (greedy : bool) (pos end_ : nat) : list nat :=
  if greedy then map (fun i => step end_ i (negb bw)) (seq 0 (S (abs_diff pos end_)))
  else map (fun i => step pos i bw) (seq 0 (S (abs_diff pos end_))).

Lemma star_positions_stop greedy pos : star_positions greedy pos pos = [pos].
Proof.
  unfold star_positions, abs_diff. rewrite Nat.sub_diag. simpl.
  destruct greedy, bw; simpl; f_equal; lia.
Qed.

Lemma star_positions_more greedy pos end_ :
  ahead bw (step pos 1 bw) end_ -> (bw = true -> 1 <= pos) ->
  star_positions greedy pos end_ =
  if greedy then star_positions greedy (step pos 1 bw) end_ ++ [pos]
  else pos :: star_positions greedy (step pos 1 bw) end_.
Proof.
  intros Hd Hpos. unfold star_positions.
  assert (Hk : abs_diff pos end_ = S (abs_diff (step pos 1 bw) end_)).
  { unfold abs_diff, step, ahead in *. destruct bw; [specialize (Hpos eq_refl)|]; lia. }
  rewrite Hk. destruct greedy.
  - rewrite (seq_S (S _)), map_app. cbn [map]. f_equal. f_equal.
    unfold abs_diff, step, ahead in *. destruct bw; simpl; [specialize (Hpos eq_refl)|]; lia.
  - rewrite <- cons_seq, <- seq_shift, map_cons, map_map. f_equal.
    + unfold step. destruct bw; lia.
    + apply map_ext. intros i. unfold step. destruct bw; lia.
Qed.

Lemma star_paths greedy fuel st :
  st_ok inp st -> room inp bw (s_pos st) < fuel ->
  spec_repeat (spec_consume inp test bw) [] greedy fuel 0 None st =
  map (fun p => move_to p st) (star_positions greedy (s_pos st) (scan inp tst bw (s_pos st))).
Proof.
  revert st. induction fuel as [|fuel IH]; intros st Hok Hf; [lia|]. cbn [spec_repeat clear_groups fold_left].
  rewrite unit_step. rewrite scan_step by apply Hok.
  destruct (unit_at inp bw (s_pos st)) as [u|] eqn:E; [destruct (tst u)|].
  2-3: rewrite star_positions_stop; destruct greedy; simpl; by rewrite move_to_eta.
  pose proof (room_step _ _ _ _ E) as (Hr & Hne & Hle). specialize (Hle (proj1 Hok)).
  rewrite star_positions_more; [|apply scan_dir|].
  2:{ intros Hb. unfold unit_at in E. rewrite Hb in E. destruct (s_pos st); [done|lia]. }
  cbn [flat_map Nat.eqb andb pred]. change (Init.Nat.pred <$> None) with (@None nat).
  cbn [move_to s_pos]. rewrite (proj2 (Nat.eqb_neq _ _) Hne), app_nil_r.
  rewrite IH by (try apply st_ok_move; simpl; done || lia). cbn [move_to s_pos].
  destruct greedy; cbn [map]; rewrite ?map_app; cbn [map]; rewrite (move_to_eta st (s_pos st)) by done;
    reflexivity.
Qed.

Lemma repeat_paths greedy min fuel st :
  st_ok inp st -> min + length (units inp) < fuel ->
  spec_repeat (spec_consume inp test bw) [] greedy fuel min None st =
  match repeat_positions (Z.of_nat min) greedy false bw (s_pos st) (scan inp tst bw (s_pos st)) with
  | Some (p, ps) => map (fun p => move_to p st) (p :: ps)
  | None => []
  end.
Proof.
  revert min st. induction fuel as [|fuel IH]; intros min st Hok Hf; [lia|].
  destruct min as [|min].
  - rewrite star_paths by (done || (pose proof (proj1 Hok); unfold room; destruct bw; lia)).
    unfold repeat_positions. rewrite (proj2 (Z.ltb_ge _ _)) by lia.
    change (Z.to_nat (Z.of_nat 0)) with 0.
    replace (step (s_pos st) 0 bw) with (s_pos st) by (unfold step; destruct bw; lia).
    unfold star_positions. destruct greedy; rewrite <- cons_seq, <- seq_shift, map_cons, map_map;
      f_equal; f_equal; f_equal; unfold step; destruct bw; simpl; lia.
  - cbn [spec_repeat clear_groups fold_left]. rewrite unit_step. rewrite scan_step by apply Hok.
    destruct (unit_at inp bw (s_pos st)) as [u|] eqn:E; [destruct (tst u)|].
    2-3: unfold repeat_positions, abs_diff; rewrite Nat.sub_diag;
      rewrite (proj2 (Z.ltb_lt _ _)) by lia; done.
    pose proof (room_step _ _ _ _ E) as (Hr & Hne & Hle). specialize (Hle (proj1 Hok)).
    cbn [flat_map Nat.eqb andb pred]. change (Init.Nat.pred <$> None) with (@None nat).
    rewrite app_nil_r, IH by (try (apply st_ok_move; done); lia). cbn [move_to s_pos].
    set (e := scan inp tst bw (step (s_pos st) 1 bw)).
    pose proof (scan_dir (step (s_pos st) 1 bw)) as Hd. fold e in Hd.
    assert (Hpos : bw = true -> 1 <= s_pos st).
    { intros Hb. unfold unit_at in E. rewrite Hb in E. destruct (s_pos st); [done|lia]. }
    assert (Hk : abs_diff (s_pos st) e = S (abs_diff (step (s_pos st) 1 bw) e)).
    { unfold abs_diff, step, ahead in *. destruct bw; [specialize (Hpos eq_refl)|]; lia. }
    unfold repeat_positions. rewrite Hk.
    assert (Hlow : step (s_pos st) (Z.to_nat (Z.of_nat (S min))) bw =
                   step (step (s_pos st) 1 bw) (Z.to_nat (Z.of_nat min)) bw).
    { rewrite !Nat2Z.id. unfold step. destruct bw; lia. }
    rewrite Hlow.
    destruct (Z.of_nat (abs_diff (step (s_pos st) 1 bw) e) <? Z.of_nat min)%Z eqn:El.
    + rewrite (proj2 (Z.ltb_lt _ _)) by lia. done.
    + rewrite (proj2 (Z.ltb_ge _ _)) by lia. by destruct greedy.
Qed.

Lemma sim_repeat pc m0 m1 cs ns atom min greedy fuel :
  insns prog !! pc = Some (Insn.Repeat atom min greedy false) -> atom_test prog atom = Ok tst ->
  (0 <= min)%Z -> Z.to_nat min + length (units inp) < fuel ->
  Sim prog inp pc (pc + 1) bw m0 m1
    (spec_repeat (spec_consume inp test bw) [] greedy fuel (Z.to_nat min) None) cs ns.
Proof.
  intros Hi Ht Hmin Hfuel O RR K vm st Hrel Hok Hcs Hns Hk.
  rewrite repeat_paths in Hk |- * by done. rewrite Z2Nat.id in Hk |- * by done.
  assert (Hc : choice_insn prog inp (Insn.Repeat atom min greedy false) bw pc (s_pos st) =
    Some ((fun '(p, ps) => (pc + 1, p, (pc + 1, ps))) <$>
      repeat_positions min greedy false bw (s_pos st) (scan inp tst bw (s_pos st)))).
  { cbn [choice_insn]. by rewrite Ht. }
  destruct (repeat_positions _ _ _ _ _ _) as [[p ps]|]; simpl in Hc.
  - rewrite first_some_map. eapply runs_choice; [done|done|].
    intros q Hq. apply (Hk (move_to q st)); [|by apply rel_move|done]. apply in_map_iff. eauto.
  - exists None, 0. split; [|done]. eapply bt_fail; eauto.
Qed.
End Fused.
End Leaves.
