(* ===== verification/Emit.v ===== *)
(** * The emitter's combinators

    [correct comp P cs ns]: whatever emitter [comp] starts from, the code it
    appends implements the matcher [P] (for either direction), in any program
    that keeps that code.  One lemma per function of the emitter that puts code
    together: sequencing, literal runs, clearing, alternation, the two forms of
    the star loop, bounded copies, capturing groups and lookarounds.  Programs
    are compared with the emitted code through [realizes]: instructions are kept
    except that a class operand may have been folded into an equivalent one. *)

From S2P Require Import Prelude Unicode Classes Program Exec Backtrack Lower Spec Simulate Leaves.

(** ** Emitters that extend one another *)

(** [e'] has at least the code of [e], equal from index [lo] on. *)
Record agree (lo : nat) (e e' : Emitter) : Prop := mkAgree {
  ag_here : here e <= here e';
  ag_insns : forall pc, lo <= pc < here e -> e_insns e' !! pc = e_insns e !! pc;
  ag_classes : e_classes e `prefix_of` e_classes e';
  ag_marks : next_mark e <= next_mark e';
  ag_unicode : e_unicode e' = e_unicode e;
  ag_backward : backward e' = backward e
}.

Lemma agree_refl lo e : agree lo e e.
Proof. by split. Qed.

Lemma agree_trans lo e1 e2 e3 : agree lo e1 e2 -> agree lo e2 e3 -> agree lo e1 e3.
Proof.
  intros [H1 I1 C1 M1 U1 B1] [H2 I2 C2 M2 U2 B2]. split; try lia; try congruence.
  - intros pc Hpc. rewrite I2, I1 by lia. done.
  - by etrans.
Qed.

Lemma agree_weaken lo lo' e e' : lo <= lo' -> agree lo e e' -> agree lo' e e'.
Proof. intros Hle [? Hi ? ? ? ?]. split; try done. intros pc Hpc. apply Hi. lia. Qed.

Lemma here_emit i e : here (emit i e) = S (here e).
Proof. unfold here, emit. simpl. rewrite length_app. simpl. lia. Qed.

Lemma lookup_emit i e : e_insns (emit i e) !! here e = Some i.
Proof. unfold here, emit. simpl. by rewrite list_lookup_middle. Qed.

Lemma agree_emit lo i e : agree lo e (emit i e).
Proof.
  split; try done; [rewrite here_emit; lia|]. intros pc [_ Hpc]. unfold emit. simpl.
  by apply lookup_app_l.
Qed.

Lemma here_set i x e : here (set_insn i x e) = here e.
Proof. unfold here, set_insn. simpl. apply length_insert. Qed.

Lemma lookup_set i x e : i < here e -> e_insns (set_insn i x e) !! i = Some x.
Proof. intros Hi. unfold set_insn. simpl. by apply list_lookup_insert_eq. Qed.

Lemma lookup_set_ne i x e pc : pc <> i -> e_insns (set_insn i x e) !! pc = e_insns e !! pc.
Proof. intros Hi. unfold set_insn. simpl. by apply list_lookup_insert_ne. Qed.

(** Patching below [lo] or above the shared part keeps the agreement. *)
Lemma agree_set lo e e' i x : agree lo e e' -> i < lo \/ here e <= i -> agree lo e (set_insn i x e').
Proof.
  intros [? Hi ? ? ? ?] Hx. split; try done; [by rewrite here_set|].
  intros pc Hpc. rewrite lookup_set_ne by lia. by apply Hi.
Qed.

(** Patching a list of indices. *)
Lemma patch_here f js e : here (fold_left (fun e j => set_insn j (f j) e) js e) = here e.
Proof. revert e. induction js as [|j js IH]; intros e; simpl; [done|]. by rewrite IH, here_set. Qed.

Lemma patch_lookup f js e pc :
  pc < here e ->
  e_insns (fold_left (fun e j => set_insn j (f j) e) js e) !! pc =
  if bool_decide (pc ∈ js) then Some (f pc) else e_insns e !! pc.
Proof.
  revert e. induction js as [|j js IH]; intros e Hpc; simpl; [done|].
  rewrite IH by (by rewrite here_set).
  destruct (decide (pc ∈ js)) as [Hin|Hin].
  - rewrite !bool_decide_eq_true_2; [done|by apply list_elem_of_further|done].
  - rewrite (bool_decide_eq_false_2 _ Hin). destruct (decide (pc = j)) as [->|Hne].
    + rewrite lookup_set by done. by rewrite bool_decide_eq_true_2 by apply list_elem_of_here.
    + rewrite lookup_set_ne by done. rewrite bool_decide_eq_false_2; [done|].
      intros [->|?]%elem_of_cons; done.
Qed.

Lemma patch_agree f js lo e e' :
  agree lo e e' -> Forall (fun j => here e <= j) js ->
  agree lo e (fold_left (fun e j => set_insn j (f j) e) js e').
Proof.
  intros Ha Hjs. revert e' Ha. induction Hjs as [|j js Hj _ IH]; intros e' Ha; simpl; [done|].
  apply IH. apply agree_set; auto.
Qed.

Lemma patch_rest f js e :
  let e' := fold_left (fun e j => set_insn j (f j) e) js e in
  e_classes e' = e_classes e /\ next_mark e' = next_mark e /\ e_unicode e' = e_unicode e /\
  backward e' = backward e.
Proof. revert e. induction js as [|j js IH]; intros e; simpl; [done|]. exact (IH (set_insn j (f j) e)). Qed.

Section Emit.
Context `{Icu}.
Variable prog : Program.
Variable inp : Input.
Variable raw : list Insn.
Variable rawc : list ClassSet.

Local Abbreviation uni := (prog_unicode prog).
Local Abbreviation gc := (group_count prog).
Local Abbreviation base := (2 * (group_count prog + 1)).

(** [i'] stands for the emitted [i] in the finished program. *)
Definition realizes (i i' : Insn) : Prop :=
  match i with
  | Insn.Class c neg ic => exists set set' ic',
      rawc !! c = Some set /\ classes prog !! c = Some set' /\ i' = Insn.Class c neg ic' /\
      forall cp, (0 <= cp <= 1114111)%Z -> class_member prog set' neg cp ic' = spec_class uni set neg ic cp
  | Insn.Repeat (AtomClass c neg ic) min greedy possessive => exists set a' tst,
      rawc !! c = Some set /\ i' = Insn.Repeat a' min greedy possessive /\
      atom_test prog a' = Ok tst /\
      forall u, (0 <= u < 65536)%Z -> tst u = spec_class uni set neg ic u
  | _ => i' = i
  end.

Hypothesis Hunits : wf_units (units inp).
Hypothesis Hmode : code_point_mode inp = uni.
Hypothesis Hreal : forall pc i, raw !! pc = Some i ->
  exists i', insns prog !! pc = Some i' /\ realizes i i'.

(** The finished code contains what was emitted between [e0] and [e1], with the
    instructions at [js] patched to [f]. *)
Record segp (f : nat -> Insn) (js : list nat) (e0 e1 : Emitter) : Prop := mkSeg {
  sg_insns : forall pc, here e0 <= pc < here e1 ->
    raw !! pc = if bool_decide (pc ∈ js) then Some (f pc) else e_insns e1 !! pc;
  sg_classes : e_classes e1 `prefix_of` rawc;
  sg_base : base <= next_mark e0;
  sg_marks : next_mark e1 <= slot_count prog;
  sg_unicode : e_unicode e1 = uni
}.
Definition seg : Emitter -> Emitter -> Prop := segp (fun _ => Insn.Fail) [].

Lemma seg_lookup e0 e1 pc : seg e0 e1 -> here e0 <= pc < here e1 -> raw !! pc = e_insns e1 !! pc.
Proof. intros Hs Hpc. rewrite (sg_insns _ _ _ _ Hs) by done. by rewrite bool_decide_eq_false_2 by apply not_elem_of_nil. Qed.

(** A sub-range of an unpatched part. *)
Lemma seg_sub f js e0 ef ea eb :
  segp f js e0 ef -> here e0 <= here ea -> next_mark e0 <= next_mark ea ->
  agree (here ea) eb ef -> Forall (fun j => j < here ea \/ here eb <= j) js -> seg ea eb.
Proof.
  intros [Hi Hc Hb Hm Hu] Hh Hn Ha Hjs. split.
  - intros pc Hpc. pose proof (ag_here _ _ _ Ha). rewrite Hi by lia.
    rewrite !bool_decide_eq_false_2; [by apply Ha|apply not_elem_of_nil|].
    intros Hin. apply (proj1 (Forall_forall _ _) Hjs) in Hin. lia.
  - etrans; [apply Ha|done].
  - lia.
  - pose proof (ag_marks _ _ _ Ha). lia.
  - by rewrite <- (ag_unicode _ _ _ Ha).
Qed.

Lemma seg_split e0 e1 e2 : agree 0 e0 e1 -> agree 0 e1 e2 -> seg e0 e2 -> seg e0 e1 /\ seg e1 e2.
Proof.
  intros H1 H2 Hs. split.
  - eapply seg_sub; [done|done|done|by eapply agree_weaken; [|done]; lia|constructor].
  - eapply seg_sub; [done|apply H1|apply H1|apply agree_refl|constructor].
Qed.

Lemma seg_patched f js e0 e1 :
  seg e0 (fold_left (fun e j => set_insn j (f j) e) js e1) -> segp f js e0 e1.
Proof.
  intros Hs. destruct (patch_rest f js e1) as (Hc & Hm & Hu & Hb). split.
  - intros pc Hpc. rewrite (seg_lookup _ _ pc Hs) by (rewrite patch_here; lia).
    apply patch_lookup. lia.
  - rewrite <- Hc. apply Hs.
  - apply Hs.
  - rewrite <- Hm. apply Hs.
  - rewrite <- Hu. apply Hs.
Qed.

(** ** Correct emission *)

Definition correct_at (e : Emitter) (comp : Emitter -> Emitter)
    (P : bool -> State -> list State) (cs ns : list nat) : Prop :=
  agree 0 e (comp e) /\
  (seg e (comp e) ->
   Sim prog inp (here e) (here (comp e)) (backward e) (next_mark e) (next_mark (comp e))
     (P (backward e)) cs ns).

Definition correct (comp : Emitter -> Emitter) (P : bool -> State -> list State)
    (cs ns : list nat) : Prop := forall e, correct_at e comp P cs ns.

Lemma correct_at_eq e comp comp' P cs ns :
  comp e = comp' e -> correct_at e comp' P cs ns -> correct_at e comp P cs ns.
Proof. unfold correct_at. by intros ->. Qed.

Lemma correct_weaken comp P cs ns cs' ns' :
  incl cs cs' -> incl ns ns' -> correct comp P cs ns -> correct comp P cs' ns'.
Proof.
  intros Hc Hn Hcomp e. destruct (Hcomp e) as [Ha Hs]. split; [done|]. intros Hseg.
  intros O RR K vm st Hrel Hok Hcs Hns Hk. apply (Hs Hseg O); auto.
Qed.

Lemma correct_ext comp P P' cs ns :
  (forall bw st, st_ok inp st -> P' bw st = P bw st) -> correct comp P cs ns -> correct comp P' cs ns.
Proof.
  intros HP Hcomp e. destruct (Hcomp e) as [Ha Hs]. split; [done|]. intros Hseg.
  eapply sim_ext; [|by apply Hs]. auto.
Qed.

Lemma correct_nop P cs ns : (forall bw st, P bw st = [st]) -> correct (fun e => e) P cs ns.
Proof.
  intros HP e. split; [apply agree_refl|]. intros _. eapply sim_ext; [|apply sim_nop]. auto.
Qed.

(** What the first part guarantees the second. *)
Definition hands_over (P : bool -> State -> list State) (ns ns2 : list nat) : Prop :=
  forall bw st st', st_ok inp st -> length (s_caps st) = S gc ->
    (forall g, In g ns -> s_caps st !! g = Some None) ->
    In st' (P bw st) -> st_ok inp st' /\ (forall g, In g ns2 -> s_caps st' !! g = Some None).

Lemma correct_seq_at e c1 c2 P1 P2 cs ns ns2 :
  correct_at e c1 P1 cs ns -> correct_at (c1 e) c2 P2 cs ns2 -> hands_over P1 ns ns2 ->
  correct_at e (fun e => c2 (c1 e)) (fun bw st => flat_map (P2 bw) (P1 bw st)) cs ns.
Proof.
  intros [A1 S1] [A2 S2] Hh. split; [by eapply agree_trans|]. intros Hseg.
  destruct (seg_split _ _ _ A1 A2 Hseg) as [Hs1 Hs2].
  eapply sim_seq; [|by apply S1| |].
  - split; [apply A1|apply A2].
  - rewrite <- (ag_backward _ _ _ A1). by apply S2.
  - intros st st'. apply Hh.
Qed.

Lemma correct_seq c1 c2 P1 P2 cs ns ns2 :
  correct c1 P1 cs ns -> correct c2 P2 cs ns2 -> hands_over P1 ns ns2 ->
  correct (fun e => c2 (c1 e)) (fun bw st => flat_map (P2 bw) (P1 bw st)) cs ns.
Proof. intros H1 H2 Hh e. eapply correct_seq_at; eauto. Qed.

(** [hands_over] from the frame of the first part. *)
Lemma hands_over_moves P gs ns ns2 :
  (forall bw, moves inp bw gs (P bw)) -> incl ns2 ns -> (forall g, In g ns2 -> ~ In g gs) ->
  hands_over P ns ns2.
Proof.
  intros HP Hi Hd bw st st' Hok _ Hns Hin. specialize (HP bw st st' Hok Hin).
  split; [apply HP|]. intros g Hg. rewrite (reach_frame _ _ _ _ _ HP) by auto. auto.
Qed.

(** ** Emitting one instruction *)

(** Instructions that [realizes] keeps as they are. *)
Definition plain (i : Insn) : Prop :=
  match i with Insn.Class _ _ _ | Insn.Repeat (AtomClass _ _ _) _ _ _ => False | _ => True end.

Lemma raw_plain pc i : raw !! pc = Some i -> plain i -> insns prog !! pc = Some i.
Proof.
  intros Hr Hi. destruct (Hreal pc i Hr) as (i' & Hp & Hre).
  destruct i as [| | | |[]| | | | | | | | | | | | | |]; try done; simpl in Hre; by subst.
Qed.

Lemma seg_emitted e i : seg e (emit i e) -> raw !! here e = Some i.
Proof. intros Hs. rewrite (seg_lookup _ _ _ Hs) by (rewrite here_emit; lia). apply lookup_emit. Qed.

Lemma correct_emit_at e i P cs ns :
  plain i ->
  (forall pc m0 m1, insns prog !! pc = Some i ->
     Sim prog inp pc (pc + 1) (backward e) m0 m1 (P (backward e)) cs ns) ->
  correct_at e (emit i) P cs ns.
Proof.
  intros Hi Hs. split; [apply agree_emit|]. intros Hseg. rewrite here_emit.
  replace (S (here e)) with (here e + 1) by lia. apply Hs. apply raw_plain; [|done].
  by apply seg_emitted.
Qed.

Lemma correct_emit i P cs ns :
  plain i ->
  (forall pc bw m0 m1, insns prog !! pc = Some i -> Sim prog inp pc (pc + 1) bw m0 m1 (P bw) cs ns) ->
  correct (emit i) P cs ns.
Proof. intros Hi Hs e. apply correct_emit_at; auto. Qed.

Lemma correct_class set neg ic cs ns :
  correct (compile_class set neg ic) (fun bw => spec_consume inp (spec_class uni set neg ic) bw) cs ns.
Proof.
  intros e.
  set (e1 := mkEmitter (e_insns e) (e_classes e ++ [set]) (next_mark e) (e_unicode e) (backward e)).
  unfold correct_at. change (compile_class set neg ic e) with (emit (Insn.Class (length (e_classes e)) neg ic) e1).
  assert (Ha : agree 0 e e1) by (split; try done; by eexists).
  split; [eapply agree_trans; [exact Ha|apply agree_emit]|]. intros Hseg.
  change (here e) with (here e1). change (here e) with (here e1) in Hseg.
  assert (Hr : raw !! here e1 = Some (Insn.Class (length (e_classes e)) neg ic)).
  { rewrite (seg_lookup _ _ _ Hseg) by (rewrite here_emit; unfold here; simpl; lia). apply lookup_emit. }
  destruct (Hreal _ _ Hr) as (i' & Hp & set0 & set' & ic' & Hc & Hc' & -> & Ht).
  assert (set0 = set) as ->.
  { eapply prefix_lookup_Some in Hc; [|apply reflexivity]. pose proof (sg_classes _ _ _ _ Hseg) as Hpre.
    eapply prefix_lookup_Some in Hpre; [|apply list_lookup_middle; reflexivity]. simpl in Hpre. congruence. }
  rewrite here_emit. replace (S (here e1)) with (here e1 + 1) by lia. by eapply sim_class.
Qed.

(** ** Clearing captures *)

Lemma correct_clear gs cs :
  Forall (fun g => 1 <= g <= gc) gs -> incl gs cs ->
  correct (clear_captures gs) (fun _ st => [clear_groups gs st]) cs [].
Proof.
  induction 1 as [|g gs Hg _ IH]; intros Hi; [by apply correct_nop|].
  assert (Hone : correct (emit (Insn.ClearCapture g)) (fun _ st => [set_capture g None st]) cs []).
  { apply correct_emit; [done|]. intros pc bw m0 m1 Hp. apply sim_clear_one; [done|done|].
    apply Hi. by left. }
  eapply correct_ext; [|apply (correct_seq (emit (Insn.ClearCapture g)) (clear_captures gs) _
    (fun _ st => [clear_groups gs st]) cs [] [] Hone)].
  - done.
  - apply IH. intros x Hx. apply Hi. by right.
  - intros bw st st' Hok _ _ [<-|[]]. split; [|done]. by apply st_ok_set_capture.
Qed.

(** ** Literal runs and concatenation *)

Definition literal (c : Z) (bw : bool) : State -> list State :=
  spec_consume inp (spec_char uni c false) bw.

Lemma correct_flush run cs ns :
  Forall plain_unit run ->
  correct (flush_char_run run) (fun bw => spec_seq (map (fun c => literal c bw) run)) cs ns.
Proof.
  intros Hrun e. destruct run as [|a [|b run]].
  - assert (Hn : flush_char_run [] e = e) by (unfold flush_char_run; by destruct (backward e)).
    unfold correct_at. rewrite Hn. split; [apply agree_refl|]. intros _. apply sim_nop.
  - assert (Hn : flush_char_run [a] e = emit (Insn.Char a false) e)
      by (unfold flush_char_run; by destruct (backward e)).
    eapply correct_at_eq; [exact Hn|]. apply correct_emit_at; [done|]. intros pc m0 m1 Hp.
    eapply sim_ext; [|by apply sim_char]. intros st _. simpl. unfold literal.
    destruct (spec_consume _ _ _ st) as [|x [|y l]] eqn:E; [done|done|].
    exfalso. unfold spec_consume in E. by repeat case_match.
  - set (r := a :: b :: run) in *.
    assert (Hn : flush_char_run r e = emit (Insn.CharSeq (if backward e then rev r else r)) e).
    { unfold flush_char_run. destruct (if backward e then rev r else r) as [|x [|y l]] eqn:E; [| |done].
      - destruct (backward e); apply (f_equal (@length Z)) in E; rewrite ?length_rev in E; done.
      - destruct (backward e); apply (f_equal (@length Z)) in E; rewrite ?length_rev in E; done. }
    eapply correct_at_eq; [exact Hn|]. apply correct_emit_at; [done|]. intros pc m0 m1 Hp. by apply sim_charseq.
Qed.

Lemma moves_literals bw run : moves inp bw [] (spec_seq (map (fun c => literal c bw) run)).
Proof.
  apply moves_seq. apply Forall_forall. intros f Hf. apply list_elem_of_In, in_map_iff in Hf as (c & <- & _).
  by apply moves_consume.
Qed.

Lemma flat_map_assoc {A B C} (f : A -> list B) (g : B -> list C) l :
  flat_map g (flat_map f l) = flat_map (fun x => flat_map g (f x)) l.
Proof. induction l as [|x l IH]; simpl; [done|]. by rewrite flat_map_app, IH. Qed.

Lemma spec_seq_app fs gs st : spec_seq (fs ++ gs) st = flat_map (spec_seq gs) (spec_seq fs st).
Proof.
  revert st. induction fs as [|f fs IH]; intros st; simpl; [by rewrite app_nil_r|].
  rewrite flat_map_assoc. apply flat_map_ext. intros x. apply IH.
Qed.

Lemma run_literal_inv n cp : run_literal n = Some cp -> n = Node.Char cp false /\ plain_unit cp.
Proof.
  destruct n as [|c []| | | | | | | |]; simpl; try done.
  destruct ((c <? 65536)%Z && _) eqn:E; [|done]. intros [= <-]. boolprop. split; [done|].
  split; [lia|by apply in_range_false].
Qed.

Definition compile_nodes (nodes : list Node) (run : list Z) (e : Emitter) : Emitter :=
  let st := fold_left (fun st n => concat_step n (compile n) st) nodes (run, e) in
  flush_char_run st.1 st.2.

Lemma compile_concat_eq nodes e :
  compile (Node.Concat nodes) e = compile_nodes (if backward e then rev nodes else nodes) [] e.
Proof.
  simpl. unfold compile_nodes. destruct (backward e); [|done].
  by rewrite <- !fold_left_rev_right, !rev_involutive.
Qed.

Lemma compile_nodes_literal n nodes run cp e :
  run_literal n = Some cp -> compile_nodes (n :: nodes) run e = compile_nodes nodes (run ++ [cp]) e.
Proof. intros El. unfold compile_nodes. cbn [fold_left]. unfold concat_step at 2 4. by rewrite El. Qed.

Lemma compile_nodes_other n nodes run e :
  run_literal n = None ->
  compile_nodes (n :: nodes) run e = compile_nodes nodes [] (compile n (flush_char_run run e)).
Proof. intros El. unfold compile_nodes. cbn [fold_left]. unfold concat_step at 2 4. by rewrite El. Qed.

Lemma correct_concat nodes run cs :
  Forall plain_unit run ->
  Forall (fun n => correct (compile n) (paths inp uni n) (capture_indices n) (capture_indices n)) nodes ->
  NoDup (flat_map capture_indices nodes) -> incl (flat_map capture_indices nodes) cs ->
  correct (compile_nodes nodes run)
    (fun bw => spec_seq (map (fun c => literal c bw) run ++ map (fun n => paths inp uni n bw) nodes))
    cs (flat_map capture_indices nodes).
Proof.
  intros Hrun Hn. revert run Hrun. induction Hn as [|n nodes Hn Hall IH]; intros run Hrun Hnd Hi.
  - eapply correct_ext; [|by apply correct_flush]. intros bw st _. simpl. by rewrite app_nil_r.
  - simpl in Hnd, Hi. apply NoDup_app in Hnd as (_ & Hdis & Hnd').
    assert (Hi' : incl (flat_map capture_indices nodes) cs)
      by (intros g Hg; apply Hi, in_or_app; by right).
    destruct (run_literal n) as [cp|] eqn:El.
    + pose proof (run_literal_inv _ _ El) as [-> Hcp].
      intros e. eapply correct_at_eq; [by apply compile_nodes_literal|]. revert e.
      eapply correct_ext; [|apply (IH (run ++ [cp])); [|done|done]].
      * intros bw st _. cbv beta. by rewrite map_app, <- app_assoc.
      * apply Forall_app. auto.
    + intros e. apply (correct_at_eq _ _ (fun e => compile_nodes nodes [] (compile n (flush_char_run run e))));
        [by apply compile_nodes_other|]. revert e.
      eapply correct_ext; [|apply (correct_seq (flush_char_run run) (fun e => compile_nodes nodes [] (compile n e))
        (fun bw => spec_seq (map (fun c => literal c bw) run))
        (fun bw st => flat_map (spec_seq (map (fun n => paths inp uni n bw) nodes)) (paths inp uni n bw st))
        cs _ (capture_indices n ++ flat_map capture_indices nodes))].
      * intros bw st _. by rewrite spec_seq_app.
      * by apply correct_flush.
      * apply (correct_seq (compile n) (compile_nodes nodes []) (paths inp uni n)
          (fun bw => spec_seq (map (fun n => paths inp uni n bw) nodes)) cs _ (flat_map capture_indices nodes)).
        -- eapply correct_weaken; [| |done]; intros g Hg; [apply Hi|]; apply in_or_app; by left.
        -- by apply (IH []).
        -- eapply hands_over_moves; [intros bw; by apply paths_moves| |].
           ++ intros g Hg. apply in_or_app. by right.
           ++ intros g Hg Hg'. eapply Hdis; by apply list_elem_of_In.
      * eapply hands_over_moves; [intros bw; apply moves_literals|apply incl_refl|]. by intros ? ? [].
Qed.

(** ** Alternation *)

Lemma sim_branch pc out a a1 b bw m0 m1 m2 m3 P1 P2 cs ns :
  insns prog !! pc = Some (Insn.Split a b) -> insns prog !! a1 = Some (Insn.Jump out) ->
  m0 <= m1 -> m1 <= m3 -> m0 <= m2 -> m2 <= m3 ->
  Sim prog inp a a1 bw m0 m1 P1 cs ns -> Sim prog inp b out bw m2 m3 P2 cs ns ->
  Sim prog inp pc out bw m0 m3 (fun st => P1 st ++ P2 st) cs ns.
Proof.
  intros Hsplit Hjump ? ? ? ? S1 S2 O RR K vm st Hrel Hok Hcs Hns Hk. rewrite first_some_app.
  eapply runs_split; [exact Hsplit| |intros _].
  - apply (S1 O RR K); try done. intros st' vm' Hin Hrel' Hsame.
    eapply runs_jump; [exact Hjump|]. apply Hk; [apply in_or_app; by left|done|].
    eapply same_outside_widen; [| |exact Hsame]; lia.
  - apply (S2 O RR K); try done. intros st' vm' Hin Hrel' Hsame.
    apply Hk; [apply in_or_app; by right|done|].
    eapply same_outside_widen; [| |exact Hsame]; lia.
Qed.

Section Alternatives.
Variable A : Type.
Variable comp : A -> Emitter -> Emitter.
Variable PA : A -> bool -> State -> list State.
Variables cs ns : list nat.

Lemma alt_loop_correct alts js e :
  alts <> [] -> Forall (fun a => correct (comp a) (PA a) cs ns) alts ->
  exists new e', alt_loop comp alts js e = (js ++ new, e') /\
    Forall (fun j => here e <= j < here e') new /\ agree 0 e e' /\
    (segp (fun _ => Insn.Jump (here e')) new e e' ->
     Sim prog inp (here e) (here e') (backward e) (next_mark e) (next_mark e')
       (fun st => flat_map (fun a => PA a (backward e) st) alts) cs ns).
Proof.
  intros Hne Hall. revert js e Hne. induction Hall as [|a alts Ha Hall IH]; intros js e Hne; [done|].
  destruct alts as [|b alts].
  - exists [], (comp a e). cbn [alt_loop]. rewrite app_nil_r. destruct (Ha e) as [Hag HS].
    split; [done|]. split; [constructor|]. split; [done|]. intros Hseg.
    eapply sim_ext; [|apply HS].
    + intros st _. simpl. by rewrite app_nil_r.
    + eapply seg_sub; [done|done|done|apply agree_refl|constructor].
  - set (rest := b :: alts) in *.
    set (e1 := emit (Insn.Split 0 0) e). set (e2 := comp a e1). set (e3 := emit (Insn.Jump 0) e2).
    set (e4 := set_insn (here e) (Insn.Split (here e1) (here e3)) e3).
    destruct (IH (js ++ [here e2]) e4 ltac:(done)) as (new & e' & Hl & Hnew & Hag & HS).
    destruct (Ha e1) as [Ha1 HS1]. fold e2 in Ha1, HS1.
    assert (He1 : here e1 = S (here e)) by apply here_emit.
    assert (He3 : here e3 = S (here e2)) by apply here_emit.
    assert (He4 : here e4 = here e3) by apply here_set.
    assert (H2 : here e1 <= here e2) by apply Ha1. assert (H4' : here e4 <= here e') by apply Hag.
    assert (A03 : agree 0 e e3).
    { eapply agree_trans; [apply agree_emit|]. eapply agree_trans; [exact Ha1|apply agree_emit]. }
    assert (A04 : agree 0 e e4) by (apply agree_set; [done|lia]).
    assert (A24 : agree (here e1) e2 e').
    { eapply agree_trans; [|by eapply agree_weaken; [|exact Hag]; lia].
      apply agree_set; [apply agree_emit|lia]. }
    exists (here e2 :: new), e'. split; [|split; [|split]].
    + change (alt_loop comp (a :: rest) js e) with (alt_loop comp rest (js ++ [here e2]) e4).
      by rewrite Hl, <- app_assoc.
    + constructor; [lia|]. eapply Forall_impl; [done|]. simpl. lia.
    + by eapply agree_trans.
    + intros Hseg. pose proof (sg_insns _ _ _ _ Hseg) as Hraw.
      assert (Hsplit : insns prog !! here e = Some (Insn.Split (here e1) (here e4))).
      { apply raw_plain; [|done]. rewrite Hraw by lia. rewrite bool_decide_eq_false_2.
        - rewrite (ag_insns _ _ _ Hag) by lia. rewrite He4. by apply lookup_set; lia.
        - intros [E|Hin]%elem_of_cons; [lia|]. apply (proj1 (Forall_forall _ _) Hnew) in Hin. lia. }
      assert (Hjump : insns prog !! here e2 = Some (Insn.Jump (here e'))).
      { apply raw_plain; [|done]. rewrite Hraw by lia.
        by rewrite bool_decide_eq_true_2 by apply list_elem_of_here. }
      assert (S1 : seg e1 e2).
      { eapply seg_sub; [exact Hseg|lia|done|exact A24|].
        constructor; [lia|]. eapply Forall_impl; [done|]. simpl. lia. }
      assert (S2 : segp (fun _ => Insn.Jump (here e')) new e4 e').
      { destruct Hseg as [_ Hc Hb Hm Hu]. split; try done; [|pose proof (ag_marks _ _ _ A04); lia].
        intros pc Hpc. rewrite Hraw by lia.
        destruct (decide (pc ∈ new)) as [Hin|Hin].
        - by rewrite !bool_decide_eq_true_2 by (done || by apply list_elem_of_further).
        - rewrite !bool_decide_eq_false_2; [done|done|]. intros [E|?]%elem_of_cons; [lia|done]. }
      specialize (HS1 S1). specialize (HS S2). rewrite (ag_backward _ _ _ A04) in HS.
      eapply (sim_branch _ _ (here e1) (here e2) (here e4)); [done|done| | | | |done|done].
      * exact (ag_marks _ _ _ Ha1).
      * exact (ag_marks _ _ _ Hag).
      * exact (ag_marks _ _ _ A04).
      * exact (ag_marks _ _ _ Hag).
Qed.

Lemma correct_alternation alts :
  alts <> [] -> Forall (fun a => correct (comp a) (PA a) cs ns) alts ->
  correct (compile_alternation comp alts) (fun bw st => flat_map (fun a => PA a bw st) alts) cs ns.
Proof.
  intros Hne Hall e. destruct (alt_loop_correct alts [] e Hne Hall) as (new & e' & Hl & Hnew & Ha & HS).
  assert (Heq : compile_alternation comp alts e =
    fold_left (fun e j => set_insn j ((fun _ => Insn.Jump (here e')) j) e) new e').
  { unfold compile_alternation. by rewrite Hl. }
  unfold correct_at. rewrite Heq. split.
  - apply patch_agree; [done|]. eapply Forall_impl; [done|]. simpl. lia.
  - intros Hseg. rewrite patch_here, (proj1 (proj2 (patch_rest _ _ _))). by apply HS, seg_patched.
Qed.
End Alternatives.

(** ** Groups *)

Lemma correct_capture g name comp P gs :
  1 <= g <= gc -> ~ In g gs -> correct comp P gs gs ->
  correct (compile_group (Capturing g name) comp)
    (fun bw st => map (fun y => set_capture g (Some (span bw (s_pos st) (s_pos y))) y) (P bw st))
    (g :: gs) (g :: gs).
Proof.
  intros Hg Hnin Hc e.
  apply (correct_at_eq _ _ (fun e => emit (Insn.Save (last_slot (backward e) g))
    (comp (emit (Insn.Save (first_slot (backward e) g)) e)))).
  { unfold compile_group, first_slot, last_slot. by destruct (backward e). }
  set (e1 := emit (Insn.Save (first_slot (backward e) g)) e).
  destruct (Hc e1) as [A1 S1]. set (e2 := comp e1) in *.
  assert (He1 : here e1 = S (here e)) by apply here_emit.
  split; [eapply agree_trans; [apply agree_emit|]; eapply agree_trans; [exact A1|apply agree_emit]|].
  intros Hseg. fold e1 in Hseg |- *. fold e2 in Hseg |- *.
  pose proof (ag_here _ _ _ A1).
  assert (Hfirst : insns prog !! here e = Some (Insn.Save (first_slot (backward e) g))).
  { apply raw_plain; [|done]. rewrite (seg_lookup _ _ _ Hseg) by (rewrite here_emit; lia).
    rewrite (ag_insns 0 e2) by (apply agree_emit || lia). rewrite (ag_insns 0 e1) by (done || lia).
    apply lookup_emit. }
  assert (Hlast : insns prog !! here e2 = Some (Insn.Save (last_slot (backward e) g))).
  { apply raw_plain; [|done]. rewrite (seg_lookup _ _ _ Hseg) by (rewrite here_emit; lia). apply lookup_emit. }
  assert (Hs1 : seg e1 e2).
  { eapply seg_sub; [exact Hseg|lia|done|apply agree_emit|constructor]. }
  specialize (S1 Hs1). change (backward e1) with (backward e) in S1.
  change (next_mark e1) with (next_mark e) in S1. rewrite He1 in S1.
  rewrite here_emit. intros O RR K vm st Hrel Hok Hcs Hns Hk.
  assert (HO : O g = None) by (apply Hcs; by left).
  assert (Hslots : 2 * g + 1 < length vm) by (by apply (rel_slots prog _ _ _ Hrel)).
  rewrite first_some_map. eapply runs_next; [exact Hfirst| |].
  - cbn [simple_insn]. rewrite (proj2 (Nat.ltb_lt _ _)) by (unfold first_slot; destruct (backward e); lia).
    rewrite (proj2 (Nat.ltb_lt _ _)) by (unfold first_slot; destruct (backward e); lia). done.
  - replace (here e + 1) with (S (here e)) by lia.
    apply (S1 (upd O g (backward e, s_pos st)) RR); [by apply rel_open; auto using in_eq|done| | |].
    + intros x Hx. unfold upd. rewrite (proj2 (Nat.eqb_neq x g)) by (by intros ->). apply Hcs. by right.
    + intros x Hx. apply Hns. by right.
    + intros y vm' Hy Hrel' Hsame.
      assert (Hslots' : 2 * g + 1 < length vm') by (by apply (rel_slots prog _ _ _ Hrel')).
      eapply runs_next; [exact Hlast| |].
      * cbn [simple_insn]. rewrite (proj2 (Nat.ltb_lt _ _)) by (unfold last_slot; destruct (backward e); lia).
        rewrite (proj2 (Nat.ltb_lt _ _)) by (unfold last_slot; destruct (backward e); lia). done.
      * replace (here e2 + 1) with (S (here e2)) by lia.
        apply (Hk (set_capture g (Some (span (backward e) (s_pos st) (s_pos y))) y)).
        -- apply in_map_iff. eauto.
        -- by apply rel_close.
        -- apply (same_outside_trans _ _ _ _ (<[first_slot (backward e) g := Some (s_pos st)]> vm));
             [apply same_outside_insert; unfold first_slot; destruct (backward e); lia|].
           eapply same_outside_trans; [exact Hsame|].
           apply same_outside_insert; unfold last_slot; destruct (backward e); lia.
Qed.

(** ** Lookaround *)

Lemma runs_look RR bw pc pos vm neg behind entry rl dl u o :
  insns prog !! pc = Some (Insn.Look neg behind entry) ->
  bt prog inp behind entry pos vm rl dl -> look_verdict neg (snd <$> rl) vm = Some u ->
  runs prog inp RR bw (pc + 1) pos u o -> runs prog inp RR bw pc pos vm o.
Proof. intros Hi Hb Hv (r & d & Hr & Ha). exists r, (S dl + d). split; [by eapply bt_look_holds|done]. Qed.

Lemma runs_look_fails RR bw pc pos vm neg behind entry rl dl :
  insns prog !! pc = Some (Insn.Look neg behind entry) ->
  bt prog inp behind entry pos vm rl dl -> look_verdict neg (snd <$> rl) vm = None ->
  runs prog inp RR bw pc pos vm None.
Proof. intros Hi Hb Hv. exists None, (S dl). split; [by eapply bt_look_fails|done]. Qed.

Lemma sim_look pc entry pe after bw behind neg m0 m1 P gs :
  insns prog !! pc = Some (Insn.Look neg behind entry) ->
  insns prog !! (pc + 1) = Some (Insn.Jump after) -> insns prog !! pe = Some Insn.LookMatch ->
  Sim prog inp entry pe behind m0 m1 P gs gs ->
  Sim prog inp pc after bw m0 m1 (fun st => spec_look neg (P st) st) gs gs.
Proof.
  intros Hl Hj Hm HS O RR K vm st Hrel Hok Hcs Hns Hk.
  set (RR' := fun x (p : nat) c => Rel prog O c x /\ same_outside prog m0 m1 vm c).
  assert (Hsub : runs prog inp RR' behind entry (s_pos st) vm (first_some Some (P st))).
  { apply (HS O RR' Some); try done. intros x c _ Hx Hc.
    exists (Some (s_pos x, c)), 0. split; [by apply bt_look_match|done]. }
  rewrite first_some_head in Hsub. destruct Hsub as (rl & dl & Hb & Ha).
  assert (Hgo : forall x c, s_pos x = s_pos st -> In x (spec_look neg (P st) st) ->
    Rel prog O c x -> same_outside prog m0 m1 vm c ->
    runs prog inp RR bw (pc + 1) (s_pos st) c (K x)).
  { intros x c Hp Hin Hx Hc. eapply runs_jump; [done|]. rewrite <- Hp. by apply Hk. }
  assert (Hone : forall x, first_some K [x] = K x) by (intros x; simpl; by destruct (K x)).
  destruct (P st) as [|y l], rl as [[p c]|]; simpl in Ha; try done; destruct neg; simpl spec_look in *.
  - rewrite Hone. eapply runs_look; [done|done|done|]. by apply Hgo; [|left| |].
  - by eapply runs_look_fails.
  - by eapply runs_look_fails.
  - rewrite Hone. eapply runs_look; [done|done|done|]. destruct Ha as [Hc Hsame].
    apply Hgo; [done|by left| |done]. destruct Hc. by split.
Qed.

Lemma correct_look behind neg comp P gs :
  correct comp P gs gs ->
  correct (compile_look behind neg comp) (fun _ st => spec_look neg (P behind st) st) gs gs.
Proof.
  intros Hc e. set (e1 := emit (Insn.Look neg behind 0) e). set (e2 := emit (Insn.Jump 0) e1).
  set (eb := set_backward behind e2). destruct (Hc eb) as [A1 S1].
  set (e3 := set_backward (backward e2) (comp eb)). set (e4 := emit Insn.LookMatch e3).
  set (ef := set_insn (here e1) (Insn.Jump (here e4)) (set_insn (here e) (Insn.Look neg behind (here e2)) e4)).
  apply (correct_at_eq _ _ (fun _ => ef)); [done|].
  assert (He1 : here e1 = S (here e)) by apply here_emit.
  assert (He2 : here e2 = S (here e1)) by apply here_emit.
  assert (He4 : here e4 = S (here e3)) by apply here_emit.
  assert (Hef : here ef = here e4) by (unfold ef; by rewrite !here_set).
  assert (A3 : agree 0 e2 e3) by (destruct A1; by split).
  assert (A4 : agree 0 e e4).
  { eapply agree_trans; [apply agree_emit|]. eapply agree_trans; [apply agree_emit|].
    eapply agree_trans; [exact A3|apply agree_emit]. }
  assert (H23 : here e2 <= here e3) by apply A3.
  split; [apply agree_set; [apply agree_set; [done|lia]|lia]|]. intros Hseg. rewrite Hef.
  assert (Hraw : forall pc i, here e <= pc < here e4 -> e_insns ef !! pc = Some i -> plain i ->
    insns prog !! pc = Some i).
  { intros pc i Hpc Hlook Hi. apply raw_plain; [|done]. by rewrite (seg_lookup _ _ _ Hseg) by lia. }
  change (next_mark ef) with (next_mark (comp eb)). change (next_mark e) with (next_mark eb).
  eapply (sim_look (here e) (here e2) (here e3)).
  - apply Hraw; [lia| |done]. unfold ef. rewrite lookup_set_ne by lia. apply lookup_set. lia.
  - apply Hraw; [lia| |done]. replace (here e + 1) with (here e1) by lia.
    apply lookup_set. rewrite here_set. lia.
  - apply Hraw; [lia| |done]. unfold ef. rewrite !lookup_set_ne by lia. apply lookup_emit.
  - apply S1. assert (Hs : seg e2 e3).
    { eapply seg_sub; [exact Hseg|lia|done| |constructor].
      apply agree_set; [apply agree_set; [apply agree_emit|lia]|lia]. }
    destruct Hs. by split.
Qed.
End Emit.
