(* ===== verification/Loops.v ===== *)
(** * Compiled patterns

    The star loop with and without a progress mark, the optional copies of a
    bounded repeat, the mandatory copies in front of them and the fused repeat,
    each against RepeatMatcher of the specification.  Then [compile_correct]: the
    code [compile] emits for a well-formed tree implements the reference semantics
    of that tree. *)

From S2P Require Import Prelude Unicode Classes Program Exec Backtrack Lower Spec Simulate Leaves Emit.

Section Loops.
Context `{Icu}.
Variable prog : Program.
Variable inp : Input.
Variable raw : list Insn.
Variable rawc : list ClassSet.

Local Abbreviation uni := (prog_unicode prog).
Local Abbreviation gc := (group_count prog).
Local Abbreviation base := (2 * (group_count prog + 1)).
Local Abbreviation correct := (correct prog inp raw rawc).
Local Abbreviation seg := (seg prog raw rawc).

Hypothesis Hunits : wf_units (units inp).
Hypothesis Hmode : code_point_mode inp = uni.
Hypothesis Hreal : forall pc i, raw !! pc = Some i ->
  exists i', insns prog !! pc = Some i' /\ realizes prog rawc i i'.

(** ** Single moves of a loop *)

Lemma runs_split_pref RR bw pc greedy body out pos vm o1 o2 :
  insns prog !! pc = Some (split_pref greedy body out) ->
  runs prog inp RR bw body pos vm o1 -> runs prog inp RR bw out pos vm o2 ->
  runs prog inp RR bw pc pos vm (if greedy then orelse o1 o2 else orelse o2 o1).
Proof. intros Hi H1 H2. destruct greedy; by eapply runs_split. Qed.

Lemma runs_mark RR bw pc pos vm mark o :
  insns prog !! pc = Some (Insn.SetMark mark) -> mark < length vm ->
  runs prog inp RR bw (pc + 1) pos (<[mark := Some pos]> vm) o -> runs prog inp RR bw pc pos vm o.
Proof.
  intros Hi Hm Hr. eapply runs_next; [done| |done]. simpl. by rewrite (proj2 (Nat.ltb_lt _ _) Hm).
Qed.

Lemma runs_check RR bw pc pos vm mark p o :
  insns prog !! pc = Some (Insn.CheckProgress mark) -> vm !! mark = Some (Some p) ->
  (pos <> p -> runs prog inp RR bw (pc + 1) pos vm o) ->
  runs prog inp RR bw pc pos vm (if pos =? p then None else o).
Proof.
  intros Hi Hm Hr. destruct (pos =? p) eqn:E; boolprop.
  - eapply runs_fail; [done|]. simpl. rewrite Hm, bool_decide_eq_true_2 by congruence. done.
  - eapply runs_next; [done| |by apply Hr]. simpl. rewrite Hm, bool_decide_eq_false_2 by congruence. done.
Qed.

Section Body.
Variables (P : State -> list State) (gs : list nat) (greedy bw : bool).
Hypothesis Hmv : moves inp bw gs P.

Local Abbreviation rep := (rep inp P gs greedy).

(** What follows an iteration that ends in [y]. *)
Definition after_iteration (K : State -> option State) (max : option nat) (st y : State)
    : option State :=
  if s_pos y =? s_pos st then None else first_some K (rep 0 (pred <$> max) y).

Lemma first_some_rep K max st :
  st_ok inp st -> max <> Some 0 ->
  let o1 := first_some (after_iteration K max st) (P (clear_groups gs st)) in
  first_some K (rep 0 max st) = if greedy then orelse o1 (K st) else orelse (K st) o1.
Proof.
  intros Hok Hmax o1. rewrite (rep_unfold inp bw P gs greedy Hmv) by done.
  assert (Ha : first_some K (rep_again inp P gs greedy 0 max st) = o1).
  { unfold rep_again. rewrite first_some_flat_map. apply first_some_ext. intros y _.
    unfold after_iteration. simpl. by destruct (s_pos y =? s_pos st). }
  assert (Hone : first_some K [st] = K st) by (simpl; by destruct (K st)).
  destruct greedy.
  - by rewrite first_some_app, Ha, Hone.
  - change (st :: rep_again inp P gs false 0 max st) with ([st] ++ rep_again inp P gs false 0 max st).
    by rewrite first_some_app, Ha, Hone.
Qed.

(** ** Star loops *)

(** Both splits of the unmarked loop behave as the loop's entry. *)
Lemma sim_star_consuming entry body back out m0 m1 :
  insns prog !! entry = Some (split_pref greedy body out) ->
  insns prog !! back = Some (split_pref greedy body out) ->
  (forall st y, st_ok inp st -> In y (P st) -> s_pos y <> s_pos st) ->
  Sim prog inp body back bw m0 m1 (fun st => P (clear_groups gs st)) gs [] ->
  Sim prog inp entry out bw m0 m1 (rep 0 None) gs [].
Proof.
  intros He Hb Hprog HS O RR K vm st Hrel Hok Hcs _ Hk.
  assert (Hloop : forall n st vm pc, room inp bw (s_pos st) < n -> Rel prog O vm st -> st_ok inp st ->
    insns prog !! pc = Some (split_pref greedy body out) ->
    (forall st' vm', In st' (rep 0 None st) -> Rel prog O vm' st' ->
       same_outside prog m0 m1 vm vm' -> runs prog inp RR bw out (s_pos st') vm' (K st')) ->
    runs prog inp RR bw pc (s_pos st) vm (first_some K (rep 0 None st))).
  2:{ eapply (Hloop (S (room inp bw (s_pos st)))); auto. }
  clear st vm Hrel Hok Hk. induction n as [|n IH]; intros st vm pc Hn Hrel Hok Hpc Hk; [lia|].
  rewrite first_some_rep by done.
  apply (runs_split_pref _ _ _ greedy body out); [done| |].
  - apply (HS O RR (after_iteration K None st)); [done|done|done|done|].
    intros y vm' Hy Hrel' Hsame. unfold after_iteration.
    destruct (iteration_room inp bw P gs Hmv st y Hok Hy) as (Hoky & _ & Hlt).
    assert (Hne : s_pos y <> s_pos st).
    { rewrite <- (clear_groups_pos gs st). apply (Hprog (clear_groups gs st)); [|done].
      apply (reach_ok inp bw gs st). apply reaches_clear; [apply incl_refl|done]. }
    rewrite (proj2 (Nat.eqb_neq _ _) Hne).
    apply IH; [specialize (Hlt Hne); lia|done|done|done|].
    intros st' vm2 Hin Hrel2 Hsame2. apply Hk; [|done|by eapply same_outside_trans].
    by apply (rep_more inp bw P gs greedy Hmv None st y).
  - apply Hk; [by apply (rep_stop inp bw)|done|done].
Qed.

Lemma sim_star_marked head body check out mark m1 :
  insns prog !! head = Some (Insn.SetMark mark) ->
  insns prog !! (head + 1) = Some (split_pref greedy body out) ->
  insns prog !! check = Some (Insn.CheckProgress mark) ->
  insns prog !! (check + 1) = Some (Insn.Jump head) ->
  base <= mark -> S mark <= m1 -> mark < slot_count prog ->
  Sim prog inp body check bw (S mark) m1 (fun st => P (clear_groups gs st)) gs [] ->
  Sim prog inp head out bw mark m1 (rep 0 None) gs [].
Proof.
  intros Hh Hsp Hch Hj Hb Hm1 Hsc HS O RR K vm st Hrel Hok Hcs _ Hk.
  remember (S (room inp bw (s_pos st))) as n eqn:En. assert (Hn : room inp bw (s_pos st) < n) by lia.
  clear En. revert st vm Hn Hrel Hok Hk. induction n as [|n IH]; intros st vm Hn Hrel Hok Hk; [lia|].
  assert (Hml : mark < length vm) by (by rewrite (rel_len prog _ _ _ Hrel)).
  assert (Hset : same_outside prog mark m1 vm (<[mark := Some (s_pos st)]> vm))
    by (apply same_outside_insert; lia).
  rewrite first_some_rep by done. eapply runs_mark; [done|done|].
  apply (runs_split_pref _ _ _ greedy body out); [done| |].
  - apply (HS O RR (after_iteration K None st)); [by apply rel_mark|done|done|done|].
    intros y vm' Hy Hrel' Hsame.
    destruct (iteration_room inp bw P gs Hmv st y Hok Hy) as (Hoky & _ & Hlt).
    eapply runs_check; [done| |].
    + rewrite Hsame by lia. by rewrite list_lookup_insert_eq.
    + intros Hne. eapply runs_jump; [done|]. apply IH; [specialize (Hlt Hne); lia|done|done|].
      intros st' vm2 Hin Hrel2 Hsame2. apply Hk; [|done|].
      * by apply (rep_more inp bw P gs greedy Hmv None st y).
      * eapply same_outside_trans; [exact Hset|]. eapply same_outside_trans; [|exact Hsame2].
        eapply same_outside_widen; [| |exact Hsame]; lia.
  - apply Hk; [by apply (rep_stop inp bw)|by apply rel_mark|done].
Qed.

(** ** One optional copy in front of the rest *)

(** The code from [pc] runs one iteration and goes on at [next], unless the
    iteration was empty. *)
Definition iterates (pc next m0 m1 : nat) : Prop :=
  forall O RR K vm st, Rel prog O vm st -> st_ok inp st -> (forall g, In g gs -> O g = None) ->
    (forall y vm', In y (P (clear_groups gs st)) -> s_pos y <> s_pos st -> Rel prog O vm' y ->
       same_outside prog m0 m1 vm vm' -> runs prog inp RR bw next (s_pos y) vm' (K y)) ->
    runs prog inp RR bw pc (s_pos st) vm
      (first_some (fun y => if s_pos y =? s_pos st then None else K y) (P (clear_groups gs st))).

Lemma iterates_consuming pc next m0 m1 :
  (forall st y, st_ok inp st -> In y (P st) -> s_pos y <> s_pos st) ->
  Sim prog inp pc next bw m0 m1 (fun st => P (clear_groups gs st)) gs [] ->
  iterates pc next m0 m1.
Proof.
  intros Hprog HS O RR K vm st Hrel Hok Hcs Hk.
  apply (HS O RR (fun y => if s_pos y =? s_pos st then None else K y)); [done|done|done|done|].
  intros y vm' Hy Hrel' Hsame.
  assert (Hne : s_pos y <> s_pos st).
  { rewrite <- (clear_groups_pos gs st). apply (Hprog (clear_groups gs st)); [|done].
    apply (reach_ok inp bw gs st). apply reaches_clear; [apply incl_refl|done]. }
  rewrite (proj2 (Nat.eqb_neq _ _) Hne). by apply Hk.
Qed.

Lemma iterates_marked pc check mark m1 :
  insns prog !! pc = Some (Insn.SetMark mark) ->
  insns prog !! check = Some (Insn.CheckProgress mark) ->
  base <= mark -> S mark <= m1 -> mark < slot_count prog ->
  Sim prog inp (pc + 1) check bw (S mark) m1 (fun st => P (clear_groups gs st)) gs [] ->
  iterates pc (check + 1) mark m1.
Proof.
  intros Hset Hch Hb Hm1 Hsc HS O RR K vm st Hrel Hok Hcs Hk.
  assert (Hml : mark < length vm) by (by rewrite (rel_len prog _ _ _ Hrel)).
  eapply runs_mark; [done|done|].
  apply (HS O RR (fun y => if s_pos y =? s_pos st then None else K y)); [by apply rel_mark|done|done|done|].
  intros y vm' Hy Hrel' Hsame. eapply runs_check; [done| |].
  - rewrite Hsame by lia. by rewrite list_lookup_insert_eq.
  - intros Hne. apply Hk; [done|done|done|].
    apply (same_outside_trans _ _ _ _ (<[mark := Some (s_pos st)]> vm)).
    + apply same_outside_insert; lia.
    + eapply same_outside_widen; [| |exact Hsame]; lia.
Qed.

Lemma sim_optional pc out next k m0 m1 m2 :
  insns prog !! pc = Some (split_pref greedy (pc + 1) out) ->
  m0 <= m1 -> m1 <= m2 -> iterates (pc + 1) next m0 m1 ->
  Sim prog inp next out bw m1 m2 (rep 0 (Some k)) gs [] ->
  Sim prog inp pc out bw m0 m2 (rep 0 (Some (S k))) gs [].
Proof.
  intros Hsp H01 H12 Hbody HS O RR K vm st Hrel Hok Hcs _ Hk. rewrite first_some_rep by done.
  apply (runs_split_pref _ _ _ greedy (pc + 1) out); [done| |].
  - apply (Hbody O RR (fun y => first_some K (rep 0 (Some k) y))); [done|done|done|].
    intros y vm' Hy Hne Hrel' Hsame.
    destruct (iteration_room inp bw P gs Hmv st y Hok Hy) as (Hoky & _).
    apply (HS O RR K); [done|done|done|done|]. intros st' vm2 Hin Hrel2 Hsame2.
    apply Hk; [by apply (rep_more inp bw P gs greedy Hmv (Some (S k)) st y)|done|].
    eapply same_outside_trans; eapply same_outside_widen; [| |exact Hsame| | |exact Hsame2]; lia.
  - apply Hk; [by apply (rep_stop inp bw)|done|done].
Qed.
End Body.

(** ** Emitted loops *)

Section Emitted.
Variables (comp : Emitter -> Emitter) (P : bool -> State -> list State) (gs : list nat).
Hypothesis Hcomp : correct comp P gs gs.
Hypothesis Hmv : forall bw, moves inp bw gs (P bw).
Hypothesis Hgs : Forall (fun g => 1 <= g <= gc) gs.

Definition body (e : Emitter) : Emitter := comp (clear_captures gs e).

Lemma correct_body : correct body (fun bw st => P bw (clear_groups gs st)) gs [].
Proof.
  eapply correct_ext; [|apply (correct_seq _ _ _ _ (clear_captures gs) comp
    (fun _ st => [clear_groups gs st]) P gs [] gs)].
  - intros bw st _. simpl. by rewrite app_nil_r.
  - apply correct_clear; [done|done|apply incl_refl].
  - done.
  - intros bw st st' Hok Hlen _ [<-|[]]. split.
    + apply (reach_ok inp bw gs st). apply reaches_clear; [apply incl_refl|done].
    + intros g Hg. apply clear_groups_None; [done|]. rewrite Hlen.
      apply list_elem_of_In, (proj1 (Forall_forall _ _) Hgs) in Hg. lia.
Qed.

Definition progresses : Prop :=
  forall bw st y, st_ok inp st -> In y (P bw st) -> s_pos y <> s_pos st.

(** Reading an instruction of the finished code off the emitter. *)
Lemma seg_insn e ef pc i :
  seg e ef -> here e <= pc < here ef -> e_insns ef !! pc = Some i -> plain i ->
  insns prog !! pc = Some i.
Proof.
  intros Hs Hpc Hl Hp. apply (raw_plain prog raw rawc Hreal); [|done].
  by rewrite (seg_lookup _ _ _ _ _ _ Hs).
Qed.

Lemma plain_split_pref greedy a b : plain (split_pref greedy a b).
Proof. by destruct greedy. Qed.

Lemma correct_star_consuming greedy :
  progresses -> correct (compile_star true comp greedy gs) (fun bw => rep inp (P bw) gs greedy 0 None) gs [].
Proof.
  intros Hprog e. set (e1 := emit (Insn.Split 0 0) e). destruct (correct_body e1) as [A1 S1].
  set (eb := body e1) in *. set (e2 := emit (Insn.Split 0 0) eb).
  set (sp := split_pref greedy (here e1) (here e2)).
  set (ef := set_insn (here eb) sp (set_insn (here e) sp e2)).
  apply (correct_at_eq _ _ _ _ _ _ (fun _ => ef)); [done|].
  assert (He1 : here e1 = S (here e)) by apply here_emit.
  assert (He2 : here e2 = S (here eb)) by apply here_emit.
  assert (Hef : here ef = here e2) by (unfold ef; by rewrite !here_set).
  pose proof (ag_here _ _ _ A1) as H1b.
  split.
  { apply agree_set; [apply agree_set|]; [|lia|lia].
    eapply agree_trans; [apply agree_emit|]. eapply agree_trans; [exact A1|apply agree_emit]. }
  intros Hseg. rewrite Hef. change (next_mark ef) with (next_mark eb). change (next_mark e) with (next_mark e1).
  apply (sim_star_consuming (P (backward e)) gs greedy (backward e) (Hmv _) _ (here e1) (here eb)).
  - eapply seg_insn; [exact Hseg|lia| |apply plain_split_pref]. unfold ef.
    rewrite lookup_set_ne by lia. apply lookup_set. lia.
  - eapply seg_insn; [exact Hseg|lia| |apply plain_split_pref]. apply lookup_set. rewrite here_set. lia.
  - apply Hprog.
  - apply S1. eapply seg_sub; [exact Hseg|lia|done| |constructor].
    apply agree_set; [apply agree_set; [apply agree_emit|lia]|lia].
Qed.

Lemma correct_star_marked greedy :
  correct (compile_star false comp greedy gs) (fun bw => rep inp (P bw) gs greedy 0 None) gs [].
Proof.
  intros e. set (e0 := (new_mark e).2). set (e1 := emit (Insn.SetMark (next_mark e)) e0).
  set (e2 := emit (Insn.Split 0 0) e1). destruct (correct_body e2) as [A1 S1].
  set (eb := body e2) in *. set (e3 := emit (Insn.CheckProgress (next_mark e)) eb).
  set (e4 := emit (Insn.Jump (here e0)) e3).
  set (ef := set_insn (here e1) (split_pref greedy (here e2) (here e4)) e4).
  apply (correct_at_eq _ _ _ _ _ _ (fun _ => ef)); [done|].
  assert (He1 : here e1 = S (here e)) by exact (here_emit _ e0).
  assert (He2 : here e2 = S (here e1)) by apply here_emit.
  assert (He3 : here e3 = S (here eb)) by apply here_emit.
  assert (He4 : here e4 = S (here e3)) by apply here_emit.
  assert (Hef : here ef = here e4) by (unfold ef; by rewrite here_set).
  pose proof (ag_here _ _ _ A1) as H2b. pose proof (ag_marks _ _ _ A1) as Hm2b.
  change (next_mark e2) with (S (next_mark e)) in Hm2b.
  assert (A0 : agree 0 e e2).
  { eapply agree_trans; [|eapply agree_trans; apply agree_emit]. split; try done. simpl. lia. }
  assert (A34 : forall lo, agree lo eb e4) by (intros lo; eapply agree_trans; apply agree_emit).
  split; [apply agree_set; [|lia]; eapply agree_trans; [exact A0|by eapply agree_trans]|].
  intros Hseg. rewrite Hef. change (next_mark ef) with (next_mark eb).
  pose proof (sg_marks _ _ _ _ _ _ _ Hseg) as Hsc. change (next_mark ef) with (next_mark eb) in Hsc.
  apply (sim_star_marked (P (backward e)) gs greedy (backward e) (Hmv _) (here e) (here e2) (here eb)).
  - eapply seg_insn; [exact Hseg|lia| |done]. unfold ef. rewrite lookup_set_ne by lia.
    rewrite (ag_insns _ _ _ (A34 0)) by lia. rewrite (ag_insns _ _ _ A1) by lia.
    rewrite (ag_insns 0 e1) by (apply agree_emit || lia). exact (lookup_emit _ e0).
  - replace (here e + 1) with (here e1) by lia.
    eapply seg_insn; [exact Hseg|lia| |apply plain_split_pref]. apply lookup_set. lia.
  - eapply seg_insn; [exact Hseg|lia| |done]. unfold ef. rewrite lookup_set_ne by lia.
    rewrite (ag_insns 0 e3) by (apply agree_emit || lia). apply lookup_emit.
  - replace (here eb + 1) with (here e3) by lia. eapply seg_insn; [exact Hseg|lia| |done].
    unfold ef. rewrite lookup_set_ne by lia. apply lookup_emit.
  - apply Hseg.
  - done.
  - lia.
  - apply S1. eapply seg_sub; [exact Hseg|lia|simpl; lia| |constructor].
    apply agree_set; [apply A34|lia].
Qed.

(** ** Bounded copies *)

Lemma bounded_copy_correct consumes splits e :
  (consumes = true -> progresses) ->
  exists en, bounded_copy (negb consumes) comp gs (splits, e) = (splits ++ [here e], en) /\
    agree 0 e en /\ here e < here en /\
    (seg (emit (Insn.Split 0 0) e) en ->
     iterates (P (backward e)) gs (backward e) (here e + 1) (here en) (next_mark e) (next_mark en)).
Proof.
  intros Hprog. set (e1 := emit (Insn.Split 0 0) e).
  assert (He1 : here e1 = here e + 1) by (unfold e1; rewrite here_emit; lia).
  destruct consumes; simpl bounded_copy; fold e1.
  - destruct (correct_body e1) as [A1 S1]. exists (body e1). pose proof (ag_here _ _ _ A1).
    split; [done|]. split; [eapply agree_trans; [apply agree_emit|exact A1]|]. split; [lia|].
    intros Hseg. rewrite <- He1. apply iterates_consuming; [by apply Hprog|by apply S1].
  - set (e2 := emit (Insn.SetMark (next_mark e)) (new_mark e1).2).
    destruct (correct_body e2) as [A1 S1]. set (eb := body e2) in *.
    set (e3 := emit (Insn.CheckProgress (next_mark e)) eb). exists e3.
    assert (He2 : here e2 = S (here e1)) by exact (here_emit _ (new_mark e1).2).
    assert (He3 : here e3 = S (here eb)) by apply here_emit.
    pose proof (ag_here _ _ _ A1). pose proof (ag_marks _ _ _ A1) as Hm.
    change (next_mark e2) with (S (next_mark e)) in Hm.
    assert (A12 : agree 0 e1 e2).
    { eapply agree_trans; [|apply agree_emit]. split; try done. simpl. lia. }
    split; [done|]. split.
    { eapply agree_trans; [apply agree_emit|]. eapply agree_trans; [exact A12|].
      eapply agree_trans; [exact A1|apply agree_emit]. }
    split; [lia|]. intros Hseg. rewrite He3. replace (S (here eb)) with (here eb + 1) by lia.
    change (next_mark e3) with (next_mark eb). pose proof (sg_marks _ _ _ _ _ _ _ Hseg) as Hsc.
    change (next_mark e3) with (next_mark eb) in Hsc.
    rewrite <- He1. apply iterates_marked; [| |apply Hseg|done|lia|].
    + eapply seg_insn; [exact Hseg|lia| |done].
      rewrite (ag_insns 0 eb) by (apply agree_emit || lia). rewrite (ag_insns _ _ _ A1) by lia.
      exact (lookup_emit _ (new_mark e1).2).
    + eapply seg_insn; [exact Hseg|lia| |done]. apply lookup_emit.
    + replace (here e1 + 1) with (here e2) by lia. apply S1.
      eapply seg_sub; [exact Hseg|lia|simpl; lia|apply agree_emit|constructor].
Qed.

Lemma bounded_copies_correct consumes greedy count splits e :
  (consumes = true -> progresses) ->
  exists new e', Nat.iter count (bounded_copy (negb consumes) comp gs) (splits, e) = (splits ++ new, e') /\
    Forall (fun j => here e <= j < here e') new /\ agree 0 e e' /\
    (segp prog raw rawc (fun s => split_pref greedy (s + 1) (here e')) new e e' ->
     Sim prog inp (here e) (here e') (backward e) (next_mark e) (next_mark e')
       (rep inp (P (backward e)) gs greedy 0 (Some count)) gs []).
Proof.
  intros Hprog. revert splits e. induction count as [|k IH]; intros splits e.
  - exists [], e. rewrite app_nil_r. split; [done|]. split; [constructor|]. split; [apply agree_refl|].
    intros _. eapply sim_ext; [|apply sim_nop]. intros st _. apply rep_zero.
  - rewrite iter_succ_r. destruct (bounded_copy_correct consumes splits e Hprog) as (en & Hc & An & Hlt & Hit).
    rewrite Hc. destruct (IH (splits ++ [here e]) en) as (new & e' & Hr & Hnew & Ae & HS).
    pose proof (ag_here _ _ _ Ae) as Hne.
    exists (here e :: new), e'. split; [by rewrite Hr, <- app_assoc|]. split; [|split].
    + constructor; [lia|]. eapply Forall_impl; [done|]. simpl. lia.
    + by eapply agree_trans.
    + intros Hseg. pose proof (sg_insns _ _ _ _ _ _ _ Hseg) as Hraw. rewrite (ag_backward _ _ _ An) in HS.
      eapply (sim_optional (P (backward e)) gs greedy (backward e) (Hmv _) _ _ (here en)).
      * apply (raw_plain prog raw rawc Hreal); [|apply plain_split_pref]. rewrite Hraw by lia.
        by rewrite bool_decide_eq_true_2 by apply list_elem_of_here.
      * apply An.
      * apply Ae.
      * apply Hit. eapply seg_sub; [exact Hseg|rewrite here_emit; lia|done| |].
        -- eapply agree_weaken; [|exact Ae]. lia.
        -- rewrite here_emit. constructor; [lia|]. eapply Forall_impl; [exact Hnew|]. simpl. lia.
      * apply HS. destruct Hseg as [_ Hcl Hb Hm Hu]. split; try done; [|pose proof (ag_marks _ _ _ An); lia].
        intros pc Hpc. rewrite Hraw by lia. destruct (decide (pc ∈ new)) as [Hin|Hin].
        -- by rewrite !bool_decide_eq_true_2 by (done || by apply list_elem_of_further).
        -- rewrite !bool_decide_eq_false_2; [done|done|]. intros [E|?]%elem_of_cons; [lia|done].
Qed.

Lemma correct_bounded consumes greedy count :
  (consumes = true -> progresses) ->
  correct (compile_bounded consumes comp count greedy gs)
    (fun bw => rep inp (P bw) gs greedy 0 (Some count)) gs [].
Proof.
  intros Hprog e.
  destruct (bounded_copies_correct consumes greedy count [] e Hprog) as (new & e' & Hr & Hnew & Ha & HS).
  assert (Heq : compile_bounded consumes comp count greedy gs e =
    fold_left (fun e s => set_insn s ((fun s => split_pref greedy (s + 1) (here e')) s) e) new e').
  { unfold compile_bounded. by rewrite Hr. }
  unfold correct_at. rewrite Heq. split.
  - apply patch_agree; [done|]. eapply Forall_impl; [done|]. simpl. lia.
  - intros Hseg. rewrite patch_here, (proj1 (proj2 (patch_rest _ _ _))). by apply HS, seg_patched.
Qed.

Lemma correct_star consumes greedy :
  (consumes = true -> progresses) ->
  correct (compile_star consumes comp greedy gs) (fun bw => rep inp (P bw) gs greedy 0 None) gs [].
Proof.
  intros Hprog. destruct consumes; [by apply correct_star_consuming, Hprog|apply correct_star_marked].
Qed.

(** ** Mandatory copies, then the rest *)

Lemma correct_copies tail greedy extra k :
  correct tail (fun bw => rep inp (P bw) gs greedy 0 extra) gs [] ->
  correct (fun e => tail (Nat.iter k body e))
    (fun bw => rep inp (P bw) gs greedy k (Nat.add k <$> extra)) gs [].
Proof.
  intros Ht. induction k as [|k IH].
  - eapply correct_ext; [|exact Ht]. intros bw st _. by destruct extra.
  - intros e. apply (correct_at_eq _ _ _ _ _ _ (fun e => tail (Nat.iter k body (body e))));
      [by rewrite iter_succ_r|]. revert e.
    eapply correct_ext; [|apply (correct_seq _ _ _ _ body (fun e => tail (Nat.iter k body e)) _ _ gs [] []
      correct_body IH)].
    + intros bw st Hok. rewrite (rep_unfold inp bw) by (auto; by destruct extra).
      unfold rep_again. simpl. by destruct extra.
    + intros bw st y Hok _ _ Hin. split; [|done]. by apply (iteration_room inp bw (P bw) gs (Hmv bw) st y).
Qed.
End Emitted.

(** ** Fused repeats *)

(** Only a non-Unicode emitter fuses. *)
Lemma seg_nonunicode e e' : agree 0 e e' -> seg e e' -> e_unicode e = false -> uni = false.
Proof.
  intros Ha Hseg Hu. by rewrite <- (sg_unicode _ _ _ _ _ _ _ Hseg), (ag_unicode _ _ _ Ha).
Qed.

Lemma correct_fused_atom e atom test min greedy :
  e_unicode e = false -> (0 <= min)%Z ->
  match atom with
  | AtomChar cp ic => test = spec_char uni cp ic
  | AtomAny da => test = (fun cp => da || negb (is_line_terminator cp))
  | AtomClass _ _ _ => False
  end ->
  correct_at prog inp raw rawc e (emit (Insn.Repeat atom min greedy false))
    (fun bw => rep inp (spec_consume inp test bw) [] greedy (Z.to_nat min) None) [] [].
Proof.
  intros Hu Hmin Ht. split; [apply agree_emit|]. intros Hseg.
  pose proof (seg_nonunicode _ _ (agree_emit 0 _ e) Hseg Hu) as Hnu.
  rewrite here_emit. replace (S (here e)) with (here e + 1) by lia. unfold rep.
  eapply (sim_repeat prog inp Hunits (backward e) test test); [congruence|done| | |done|lia].
  - eapply seg_insn; [exact Hseg|rewrite here_emit; lia|apply lookup_emit|by destruct atom].
  - destruct atom; try done; by subst test.
Qed.

Lemma correct_fused_class e set neg ic min greedy :
  e_unicode e = false -> (0 <= min)%Z ->
  correct_at prog inp raw rawc e (fun e => emit (Insn.Repeat (AtomClass (length (e_classes e)) neg ic) min greedy false)
                      (intern_class set e).2)
    (fun bw => rep inp (spec_consume inp (spec_class uni set neg ic) bw) [] greedy (Z.to_nat min) None) [] [].
Proof.
  intros Hu Hmin. set (e1 := (intern_class set e).2).
  assert (Ha : agree 0 e e1) by (split; try done; by eexists).
  set (i := Insn.Repeat (AtomClass (length (e_classes e)) neg ic) min greedy false).
  assert (Ha' : agree 0 e (emit i e1)) by (eapply agree_trans; [exact Ha|apply agree_emit]).
  split; [exact Ha'|]. intros Hseg. fold e1 in Hseg |- *.
  pose proof (seg_nonunicode _ _ Ha' Hseg Hu) as Hnu.
  assert (Hr : raw !! here e1 = Some (Insn.Repeat (AtomClass (length (e_classes e)) neg ic) min greedy false)).
  { rewrite (seg_lookup _ _ _ _ _ _ Hseg) by (rewrite here_emit; unfold here; simpl; lia). apply lookup_emit. }
  destruct (Hreal _ _ Hr) as (i' & Hp & set0 & a' & tst & Hc & -> & Hat & Ht).
  assert (set0 = set) as ->.
  { pose proof (sg_classes _ _ _ _ _ _ _ Hseg) as Hpre.
    eapply prefix_lookup_Some in Hpre; [|apply list_lookup_middle; reflexivity]. simpl in Hpre. congruence. }
  change (here e) with (here e1). rewrite here_emit. replace (S (here e1)) with (here e1 + 1) by lia.
  unfold rep. eapply (sim_repeat prog inp Hunits (backward e) tst); [congruence|done|done|done|done|lia].
Qed.
End Loops.

Lemma capture_range uni gc n : wf_node uni gc n -> Forall (fun g => 1 <= g <= gc) (capture_indices n).
Proof.
  induction n as [|cp ic|da|s n ic|a|gs ic|l IH|l IH|n q IH|k n IH] using node_ind'; intros Hwf; try constructor.
  1-2: simpl in Hwf |- *; try destruct Hwf as [_ Hwf]; apply Forall_forall; intros g Hg;
    apply list_elem_of_In, in_flat_map in Hg as (n & Hn & Hg);
    assert (Hall : Forall (fun g => 1 <= g <= gc) (capture_indices n))
      by (apply (proj1 (Forall_forall _ _) IH n); [by apply list_elem_of_In|by eapply wf_nodes_In]);
    apply (proj1 (Forall_forall _ _) Hall); by apply list_elem_of_In.
  - apply IH. apply Hwf.
  - simpl in Hwf |- *. destruct Hwf as [Hwf Hk]. apply Forall_app. split; [|by apply IH].
    destruct k; auto using Forall_nil_2, Forall_cons_2.
Qed.

Section Compile.
Context `{Icu}.
Variable prog : Program.
Variable inp : Input.
Variable raw : list Insn.
Variable rawc : list ClassSet.

Local Abbreviation uni := (prog_unicode prog).
Local Abbreviation gc := (group_count prog).
Local Abbreviation correct := (correct prog inp raw rawc).

Hypothesis Hunits : wf_units (units inp).
Hypothesis Hmode : code_point_mode inp = uni.
Hypothesis Hreal : forall pc i, raw !! pc = Some i ->
  exists i', insns prog !! pc = Some i' /\ realizes prog rawc i i'.

(** The unfused form of a repeat. *)
Lemma correct_unfused n q :
  wf_node uni gc (Node.Repeat n q) ->
  correct (compile n) (paths inp uni n) (capture_indices n) (capture_indices n) ->
  correct (fun e =>
      let e := Nat.iter (Z.to_nat (qmin q)) (fun e => compile n (clear_captures (capture_indices n) e)) e in
      match qmax q with
      | None => compile_star (consumes_input n) (compile n) (qgreedy q) (capture_indices n) e
      | Some m => compile_bounded (consumes_input n) (compile n) (Z.to_nat (m - qmin q)) (qgreedy q)
                    (capture_indices n) e
      end) (paths inp uni (Node.Repeat n q)) (capture_indices n) (capture_indices n).
Proof.
  intros (Hwf & Hmin & Hmax) Hn.
  assert (Hmv : forall bw, moves inp bw (capture_indices n) (paths inp uni n bw))
    by (intros bw; by apply paths_moves).
  assert (Hgs : Forall (fun g => 1 <= g <= gc) (capture_indices n)) by (by eapply capture_range).
  assert (Hprog : consumes_input n = true -> progresses inp (paths inp uni n)).
  { intros Hc bw st y Hok Hy. by eapply consumes_progress. }
  eapply correct_weaken; [apply incl_refl|apply incl_nil_l|].
  destruct (qmax q) as [m|] eqn:Eq.
  - eapply correct_ext; [|apply (correct_copies prog inp raw rawc Hreal (compile n) (paths inp uni n)
      (capture_indices n) Hn Hmv Hgs _ (qgreedy q) (Some (Z.to_nat (m - qmin q)))); by apply correct_bounded].
    intros bw st _. simpl. rewrite Eq. unfold rep, repeat_fuel. simpl. do 2 f_equal.
    change (Z.to_nat m = Z.to_nat (qmin q) + Z.to_nat (m - qmin q)). lia.
  - eapply correct_ext; [|apply (correct_copies prog inp raw rawc Hreal (compile n) (paths inp uni n)
      (capture_indices n) Hn Hmv Hgs _ (qgreedy q) None); by apply correct_star].
    intros bw st _. simpl. by rewrite Eq.
Qed.

Lemma compile_repeat_eq n q e :
  wf_node uni gc (Node.Repeat n q) ->
  compile (Node.Repeat n q) e =
  match qmax q, e_unicode e, fuseable_atom n e with
  | None, false, Some (atom, e') => emit (Insn.Repeat atom (qmin q) (qgreedy q) false) e'
  | _, _, _ =>
      let e := Nat.iter (Z.to_nat (qmin q)) (fun e => compile n (clear_captures (capture_indices n) e)) e in
      match qmax q with
      | None => compile_star (consumes_input n) (compile n) (qgreedy q) (capture_indices n) e
      | Some m => compile_bounded (consumes_input n) (compile n) (Z.to_nat (m - qmin q)) (qgreedy q)
                    (capture_indices n) e
      end
  end.
Proof.
  intros (Hwf & Hmin & Hmax). cbn [compile]. unfold compile_repeat.
  rewrite (proj2 (Z.ltb_ge _ _)) by lia. cbn [andb]. rewrite Z.min_l by lia.
  destruct (qmax q) as [m|]; [rewrite (proj2 (Z.leb_le _ _)) by lia; done|].
  by destruct (e_unicode e), (fuseable_atom n e) as [[? ?]|].
Qed.

Lemma correct_repeat n q :
  wf_node uni gc (Node.Repeat n q) ->
  correct (compile n) (paths inp uni n) (capture_indices n) (capture_indices n) ->
  correct (compile (Node.Repeat n q)) (paths inp uni (Node.Repeat n q)) (capture_indices n) (capture_indices n).
Proof.
  intros Hwf Hn e. pose proof (correct_unfused n q Hwf Hn e) as Hun.
  pose proof (compile_repeat_eq n q e Hwf) as Heq.
  destruct (qmax q) as [m|] eqn:Eq; [eapply correct_at_eq; [|exact Hun]; exact Heq|].
  destruct (e_unicode e) eqn:Eu; [eapply correct_at_eq; [|exact Hun]; exact Heq|].
  destruct (fuseable_atom n e) as [[atom e']|] eqn:Ef; [|eapply correct_at_eq; [|exact Hun]; exact Heq].
  assert (Hfused : forall c, compile (Node.Repeat n q) e = c e -> capture_indices n = [] ->
    correct_at prog inp raw rawc e c (fun bw => rep inp (paths inp uni n bw) []
      (qgreedy q) (Z.to_nat (qmin q)) None) [] [] ->
    correct_at prog inp raw rawc e (compile (Node.Repeat n q)) (paths inp uni (Node.Repeat n q))
      (capture_indices n) (capture_indices n)).
  { intros c Hce Hcap [Ha Hs]. eapply correct_at_eq; [exact Hce|]. rewrite Hcap. split; [done|].
    intros Hseg. eapply sim_ext; [|by apply Hs]. intros st _. simpl. by rewrite Eq, Hcap. }
  assert (Hmin : (0 <= qmin q)%Z) by apply Hwf.
  destruct n as [|cp ic|da|set neg ic| | | | | |]; simpl in Ef; try done.
  - simplify_eq. eapply Hfused; [exact Heq|done|]. by apply correct_fused_atom.
  - simplify_eq. eapply Hfused; [exact Heq|done|]. by apply correct_fused_atom.
  - destruct (strings set); [|done]. simplify_eq.
    apply (Hfused (fun e => emit (Insn.Repeat (AtomClass (length (e_classes e)) neg ic) (qmin q)
      (qgreedy q) false) (intern_class set e).2)); [exact Heq|done|]. by apply correct_fused_class.
Qed.

Lemma NoDup_flat_map_In {A} (f : A -> list nat) l x :
  NoDup (flat_map f l) -> In x l -> NoDup (f x).
Proof.
  induction l as [|a l IH]; simpl; [done|]. intros (Ha & _ & Hl)%NoDup_app [->|Hx]; auto.
Qed.

Lemma rev_perm {A} (l : list A) : rev l ≡ₚ l.
Proof. symmetry. apply Permutation_rev. Qed.

Lemma correct_concat_node l :
  Forall (fun n => correct (compile n) (paths inp uni n) (capture_indices n) (capture_indices n)) l ->
  NoDup (flat_map capture_indices l) ->
  correct (compile (Node.Concat l)) (paths inp uni (Node.Concat l))
    (flat_map capture_indices l) (flat_map capture_indices l).
Proof.
  intros Hall Hnd e.
  assert (Hc : forall l', l' ≡ₚ l -> correct (compile_nodes l' [])
    (fun bw => spec_seq (map (fun n => paths inp uni n bw) l'))
    (flat_map capture_indices l) (flat_map capture_indices l)).
  { intros l' Hp. assert (Hi : incl (flat_map capture_indices l') (flat_map capture_indices l)).
    { intros g (n & Hn & Hg)%in_flat_map. apply in_flat_map. exists n. split; [|done].
      apply list_elem_of_In. rewrite <- Hp. by apply list_elem_of_In. }
    eapply correct_weaken; [apply incl_refl|exact Hi|].
    apply (correct_concat prog inp raw rawc Hunits Hreal l' []); [constructor|by rewrite Hp| |done].
    assert (Hpp : flat_map capture_indices l' ≡ₚ flat_map capture_indices l)
      by (clear -Hp; induction Hp; simpl; [done|by f_equiv|by rewrite !(assoc app), (Permutation_app_comm (capture_indices y))|by etrans]).
    by rewrite Hpp. }
  destruct (backward e) eqn:Eb.
  - destruct (Hc (rev l) (rev_perm l) e) as [Ha Hs].
    apply (correct_at_eq _ _ _ _ _ _ (compile_nodes (rev l) [])).
    { by rewrite compile_concat_eq, Eb. }
    split; [done|]. intros Hseg. eapply sim_ext; [|by apply Hs].
    intros st _. simpl. by rewrite Eb, map_rev.
  - destruct (Hc l (reflexivity l) e) as [Ha Hs].
    apply (correct_at_eq _ _ _ _ _ _ (compile_nodes l [])); [simpl; by rewrite Eb|].
    split; [done|]. intros Hseg. eapply sim_ext; [|by apply Hs].
    intros st _. simpl. by rewrite Eb.
Qed.

Theorem compile_correct n :
  wf_node uni gc n -> NoDup (capture_indices n) ->
  correct (compile n) (paths inp uni n) (capture_indices n) (capture_indices n).
Proof.
  induction n as [|cp ic|da|s n ic|a|gs ic|l IH|l IH|n q IH|k n IH] using node_ind'; intros Hwf Hnd.
  - by apply correct_nop.
  - apply correct_emit; [done|done|]. intros pc bw m0 m1 Hp. by apply sim_char.
  - apply correct_emit; [done|done|]. intros pc bw m0 m1 Hp. by apply sim_any.
  - intros e. destruct Hwf as [Hs _]. eapply correct_at_eq; [simpl; by rewrite Hs|].
    by apply correct_class.
  - apply correct_emit; [done|by destruct a|]. intros pc bw m0 m1 Hp. by apply sim_assert.
  - apply correct_emit; [done|done|]. intros pc bw m0 m1 Hp. by apply sim_backref.
  - simpl in Hwf, Hnd |- *.
    assert (Hall : Forall (fun n => correct (compile n) (paths inp uni n) (capture_indices n) (capture_indices n)) l).
    { apply Forall_forall. intros n Hn%list_elem_of_In. apply (proj1 (Forall_forall _ _) IH n);
        [by apply list_elem_of_In|by eapply wf_nodes_In|by eapply NoDup_flat_map_In]. }
    apply correct_concat_node; [done|done].
  - simpl in Hwf, Hnd |- *. destruct Hwf as [Hne Hwf]. apply correct_alternation; [done|done|].
    apply Forall_forall. intros n Hn%list_elem_of_In.
    eapply correct_weaken; [| |apply (proj1 (Forall_forall _ _) IH n);
        [by apply list_elem_of_In|by eapply wf_nodes_In|by eapply NoDup_flat_map_In]];
      intros g Hg; apply in_flat_map; eauto.
  - exact (correct_repeat n q Hwf (IH (proj1 Hwf) Hnd)).
  - simpl in Hwf, Hnd |- *. destruct Hwf as [Hwf Hk]. destruct k as [g name| |neg|neg]; simpl in Hnd |- *.
    + apply NoDup_cons in Hnd as [Hg Hnd]. apply (correct_capture prog inp raw rawc Hreal g name (compile n) (paths inp uni n)); [done| |by apply IH].
      intros Hin. apply Hg. by apply list_elem_of_In.
    + by apply IH.
    + by apply (correct_look prog inp raw rawc Hreal false neg (compile n) (paths inp uni n)), IH.
    + by apply (correct_look prog inp raw rawc Hreal true neg (compile n) (paths inp uni n)), IH.
Qed.
End Compile.
