(* ===== verification/Passes.v ===== *)
(** * The class passes of [lower]

    After the walk, [lower] bakes case folding into the class operands and
    precomputes their ASCII bitmaps.  Both rewrite a class shared table in
    place, which is sound because every interned class has a single user; this
    file proves that invariant of the emitter, that a baked and finalised class
    answers exactly the case-insensitive test it replaces, and that the
    resulting program [realizes] the emitted code. *)

From S2P Require Import Prelude Unicode Classes Program Exec Lower Spec Leaves Emit.

(** ** Every class operand has one user *)

Definition class_ref (i : Insn) : option nat :=
  match i with
  | Insn.Class c _ _ | Insn.Repeat (AtomClass c _ _) _ _ _ => Some c
  | _ => None
  end.

(** A code unit of a literal run. *)
Definition literal_unit (c : Z) : Prop := (0 <= c)%Z /\ plain_unit c.

(** Instructions the walk may produce: a case-insensitive class or a fused repeat
    only outside Unicode mode, no repeat marked yet, and a backward lookaround
    only when the pattern has one ([lb]); literal runs hold plain code units. *)
Definition allowed (uni lb : bool) (i : Insn) : Prop :=
  (folded_class i <> None -> uni = false) /\
  match i with
  | Insn.Char cp _ => (0 <= cp <= MAX_CP)%Z
  | Insn.Repeat atom mn _ possessive => possessive = false /\ uni = false /\ (0 <= mn)%Z /\
      match atom with AtomChar cp _ => (0 <= cp <= MAX_CP)%Z | _ => True end
  | Insn.Look _ behind _ => behind = true -> lb = true
  | Insn.CharSeq run => run <> [] /\ Forall literal_unit run
  | _ => True
  end.

Record class_inv (uni lb : bool) (e : Emitter) : Prop := mkClassInv {
  ci_bound : forall pc i c, e_insns e !! pc = Some i -> class_ref i = Some c -> c < length (e_classes e);
  ci_once : forall pc pc' i i' c, e_insns e !! pc = Some i -> e_insns e !! pc' = Some i' ->
    class_ref i = Some c -> class_ref i' = Some c -> pc = pc';
  ci_wf : Forall (fun s => wf_set (code_points s)) (e_classes e);
  ci_allowed : forall pc i, e_insns e !! pc = Some i -> allowed uni lb i;
  ci_unicode : e_unicode e = uni
}.

(** Patterns with a lookbehind. *)
Fixpoint has_lookbehind (n : Node) : bool :=
  match n with
  | Node.Concat l | Node.Alternate l => existsb has_lookbehind l
  | Node.Repeat n _ => has_lookbehind n
  | Node.Group (Lookbehind _) _ => true
  | Node.Group _ n => has_lookbehind n
  | _ => false
  end.

Section Invariant.
Variables uni lb : bool.

(** An instruction that uses no class and may be emitted or patched in freely. *)
Definition neutral (i : Insn) : Prop := class_ref i = None /\ allowed uni lb i.

Definition preserves (comp : Emitter -> Emitter) : Prop :=
  forall e, class_inv uni lb e -> class_inv uni lb (comp e).

Lemma folded_ref i c : folded_class i = Some c -> class_ref i = Some c.
Proof. by destruct i as [|? ? []| | |[|? ? []|]| | | | | | | | | | | | | |]. Qed.

Lemma lookup_emit_inv i e pc x :
  e_insns (emit i e) !! pc = Some x -> e_insns e !! pc = Some x \/ (pc = here e /\ x = i).
Proof.
  unfold emit, here. simpl. intros Hl. apply lookup_snoc_Some in Hl as [[_ Hl]|[-> <-]]; auto.
Qed.

Lemma lookup_set_inv i x e pc y :
  e_insns (set_insn i x e) !! pc = Some y -> e_insns e !! pc = Some y \/ y = x.
Proof.
  unfold set_insn. simpl. intros Hl. apply list_lookup_insert_Some in Hl as [(_ & -> & _)|[_ Hl]]; auto.
Qed.

Lemma preserves_emit i : neutral i -> preserves (emit i).
Proof.
  intros [Hr Hi] e [Hb Ho Hw Hm Hu]. split; [| |done| |done].
  - intros pc x c [Hl|[-> ->]]%lookup_emit_inv Hx; [by eapply Hb|congruence].
  - intros pc pc' x x' c [Hl|[-> ->]]%lookup_emit_inv [Hl'|[-> ->]]%lookup_emit_inv Hx Hx'; try congruence.
    by eapply Ho.
  - intros pc x [Hl|[-> ->]]%lookup_emit_inv; [by eapply Hm|done].
Qed.

Lemma preserves_set j x : neutral x -> preserves (set_insn j x).
Proof.
  intros [Hr Hi] e [Hb Ho Hw Hm Hu].
  assert (Hkeep : forall pc y c, e_insns (set_insn j x e) !! pc = Some y -> class_ref y = Some c ->
    e_insns e !! pc = Some y).
  { intros pc y c [Hl| ->]%lookup_set_inv Hy; [done|congruence]. }
  split; [| |done| |done].
  - intros pc y c Hl Hy. eapply Hb; [by eapply Hkeep|done].
  - intros pc pc' y y' c Hl Hl' Hy Hy'. by eapply Ho; [by eapply Hkeep|by eapply Hkeep| |].
  - intros pc y [Hl| ->]%lookup_set_inv; [by eapply Hm|done].
Qed.

(** Interning a class and emitting its user. *)
Lemma preserves_user set (i : nat -> Insn) :
  wf_set (code_points set) -> (forall c, class_ref (i c) = Some c) -> (forall c, allowed uni lb (i c)) ->
  preserves (fun e => emit (i (length (e_classes e))) (intern_class set e).2).
Proof.
  intros Hs Hr Hi e [Hb Ho Hw Hm Hu]. split; [| | | |done].
  - intros pc x c [Hl|[-> ->]]%lookup_emit_inv Hx; simpl; rewrite length_app; simpl.
    + specialize (Hb _ _ _ Hl Hx). lia.
    + rewrite Hr in Hx. simplify_eq. lia.
  - assert (Hfresh : forall pc x, e_insns e !! pc = Some x -> class_ref x <> Some (length (e_classes e))).
    { intros pc x Hl Hx. specialize (Hb _ _ _ Hl Hx). lia. }
    intros pc pc' x x' c [Hl|[-> ->]]%lookup_emit_inv [Hl'|[-> ->]]%lookup_emit_inv Hx Hx'; [by eapply Ho| | |done];
      rewrite Hr in *; simplify_eq; by eapply Hfresh in Hl' || eapply Hfresh in Hl.
  - simpl. apply Forall_app. auto.
  - intros pc x [Hl|[-> ->]]%lookup_emit_inv; [by eapply Hm|by apply Hi].
Qed.

Lemma preserves_seq c1 c2 : preserves c1 -> preserves c2 -> preserves (fun e => c2 (c1 e)).
Proof. intros H1 H2 e He. auto. Qed.

Lemma preserves_mark : preserves (fun e => (new_mark e).2).
Proof. by intros e []. Qed.

Lemma preserves_backward b : preserves (set_backward b).
Proof. by intros e []. Qed.

Lemma preserves_iter k c : preserves c -> preserves (Nat.iter k c).
Proof. intros Hc. induction k as [|k IH]; intros e He; simpl; auto. Qed.

Lemma preserves_patch f js : (forall j, neutral (f j)) -> preserves (fun e => fold_left (fun e j => set_insn j (f j) e) js e).
Proof.
  intros Hf. induction js as [|j js IH]; intros e He; simpl; [done|]. apply IH. by apply preserves_set.
Qed.

Lemma preserves_clear gs : preserves (clear_captures gs).
Proof.
  induction gs as [|g gs IH]; intros e He; simpl; [done|]. apply IH. by apply preserves_emit.
Qed.

Lemma preserves_flush run : Forall literal_unit run -> preserves (flush_char_run run).
Proof.
  intros Hrun e He. unfold flush_char_run.
  assert (Hr : Forall literal_unit (if backward e then rev run else run))
    by (destruct (backward e); [by apply Forall_rev|done]).
  destruct (if backward e then rev run else run) as [|a [|b l]]; [done| |]; apply preserves_emit; try done.
  apply Forall_cons in Hr as [[H0 [Hlt _]] _]. split; [done|]. split; [done|]. unfold MAX_CP. lia.
Qed.

Lemma neutral_split greedy a b : neutral (split_pref greedy a b).
Proof. by destruct greedy. Qed.

Lemma preserves_alternation {A} (comp : A -> Emitter -> Emitter) alts :
  Forall (fun a => preserves (comp a)) alts -> preserves (compile_alternation comp alts).
Proof.
  intros Hall. unfold compile_alternation.
  assert (Hloop : forall js e, class_inv uni lb e -> class_inv uni lb (alt_loop comp alts js e).2).
  { induction Hall as [|a alts Ha Hall IH]; intros js e He; [done|].
    destruct alts as [|b alts]; [by apply Ha|]. cbn [alt_loop]. apply IH.
    apply preserves_set; [done|]. apply preserves_emit; [done|]. apply Ha. by apply preserves_emit. }
  intros e He. specialize (Hloop [] e He). destruct (alt_loop comp alts [] e) as [js e']; simpl in *.
  by apply (preserves_patch (fun _ => Insn.Jump (here e')) js).
Qed.

Lemma preserves_star consumes comp greedy gs : preserves comp -> preserves (compile_star consumes comp greedy gs).
Proof.
  intros Hc e He. unfold compile_star. destruct consumes.
  - do 2 (apply preserves_set; [apply neutral_split|]). apply preserves_emit; [done|]. apply Hc.
    apply preserves_clear. by apply preserves_emit.
  - apply preserves_set; [apply neutral_split|]. do 2 (apply preserves_emit; [done|]). apply Hc.
    apply preserves_clear. do 2 (apply preserves_emit; [done|]). by apply preserves_mark.
Qed.

Lemma preserves_bounded consumes comp count greedy gs :
  preserves comp -> preserves (compile_bounded consumes comp count greedy gs).
Proof.
  intros Hc e He. unfold compile_bounded.
  assert (Hcopy : forall st, class_inv uni lb st.2 -> class_inv uni lb (bounded_copy (negb consumes) comp gs st).2).
  { intros [js e1] He1. unfold bounded_copy. simpl in He1. destruct (negb consumes); simpl.
    - apply preserves_emit; [done|]. apply Hc, preserves_clear. apply preserves_emit; [done|].
      by apply (preserves_mark (emit (Insn.Split 0 0) e1)), preserves_emit.
    - apply Hc, preserves_clear. by apply preserves_emit. }
  assert (Hall : forall k st, class_inv uni lb st.2 ->
    class_inv uni lb (Nat.iter k (bounded_copy (negb consumes) comp gs) st).2).
  { induction k as [|k IH]; intros st Hst; simpl; auto. }
  specialize (Hall count ([], e) He). destruct (Nat.iter _ _ _) as [js e']; simpl in *.
  apply (preserves_patch (fun s => split_pref greedy (s + 1) (here e')) js); [|done]. intros j. apply neutral_split.
Qed.

Lemma preserves_look behind neg comp :
  (behind = true -> lb = true) -> preserves comp -> preserves (compile_look behind neg comp).
Proof.
  intros Hlb Hc e He. unfold compile_look. apply preserves_set; [done|]. apply preserves_set; [done|]. apply preserves_emit; [done|].
  apply preserves_backward, Hc, preserves_backward. apply preserves_emit; [done|]. by apply preserves_emit.
Qed.

Lemma preserves_class set neg ic :
  wf_set (code_points set) -> (ic = true -> uni = false) -> preserves (compile_class set neg ic).
Proof.
  intros Hs Hic. apply (preserves_user set (fun c => Insn.Class c neg ic)); [done|done|].
  intros c. split; [|done]. destruct ic; simpl; auto.
Qed.

Lemma preserves_nodes nodes run :
  Forall literal_unit run ->
  Forall (fun n => preserves (compile n) /\ forall cp, run_literal n = Some cp -> literal_unit cp) nodes ->
  preserves (compile_nodes nodes run).
Proof.
  intros Hrun Hall. revert run Hrun. induction Hall as [|n nodes [Hn Hlit] Hall IH]; intros run Hrun e He.
  - by apply preserves_flush.
  - destruct (run_literal n) as [cp|] eqn:El.
    + rewrite (compile_nodes_literal _ _ _ _ _ El). apply IH; [|done].
      apply Forall_app. split; [done|]. auto using Forall_cons_2, Forall_nil_2.
    + rewrite (compile_nodes_other _ _ _ _ El). apply IH; [constructor|]. by apply Hn, preserves_flush.
Qed.

Lemma preserves_fused n e atom e' min greedy gc :
  wf_node uni gc n -> (0 <= min)%Z -> class_inv uni lb e -> e_unicode e = false ->
  fuseable_atom n e = Some (atom, e') ->
  class_inv uni lb (emit (Insn.Repeat atom min greedy false) e').
Proof.
  intros Hwf Hmin He Hu Hf. pose proof (ci_unicode _ _ _ He) as Hu'. assert (uni = false) as Hnu by congruence.
  destruct n as [|cp ic|da|set neg ic| | | | | |]; simpl in Hf; try done.
  - injection Hf as <- <-. by apply preserves_emit.
  - injection Hf as <- <-. by apply preserves_emit.
  - destruct Hwf as (Hs & Hw & Hic). rewrite Hs in Hf. injection Hf as <- <-.
    by apply (preserves_user set (fun c => Insn.Repeat (AtomClass c neg ic) min greedy false)).
Qed.

Lemma compile_preserves gc n :
  wf_node uni gc n -> (has_lookbehind n = true -> lb = true) -> preserves (compile n).
Proof.
  induction n as [|cp ic|da|s n ic|a|gs ic|l IH|l IH|n q IH|k n IH] using node_ind'; intros Hwf Hlb e He.
  - done.
  - apply preserves_emit; [|done]. split; [done|]. by split.
  - by apply preserves_emit.
  - destruct Hwf as (Hs & Hw & Hic). simpl. rewrite Hs. by apply preserves_class.
  - apply preserves_emit; [by destruct a|done].
  - by apply preserves_emit.
  - simpl in Hwf.
    assert (Hall : Forall (fun n => preserves (compile n) /\ forall cp, run_literal n = Some cp -> literal_unit cp) l).
    { apply Forall_forall. intros n Hn.
      assert (Hwn : wf_node uni gc n) by (eapply wf_nodes_In; [done|]; by apply list_elem_of_In).
      split.
      - apply (proj1 (Forall_forall _ _) IH n Hn); [done|].
        intros Hb. apply Hlb. simpl. apply existsb_exists. exists n. split; [by apply list_elem_of_In|done].
      - intros cp [-> Hp]%run_literal_inv. simpl in Hwn. split; [lia|done]. }
    rewrite compile_concat_eq. apply preserves_nodes; [constructor| |done]. destruct (backward e); [by apply Forall_rev|done].
  - destruct Hwf as [_ Hwf]. apply preserves_alternation; [|done]. apply Forall_forall. intros n Hn.
    apply (proj1 (Forall_forall _ _) IH n Hn).
    + eapply wf_nodes_In; [done|]. by apply list_elem_of_In.
    + intros Hb. apply Hlb. simpl. apply existsb_exists. exists n. split; [by apply list_elem_of_In|done].
  - destruct Hwf as (Hwf & Hmin & _). specialize (IH Hwf Hlb). simpl. unfold compile_repeat.
    set (mx := match qmax q with Some _ => _ | None => _ end). destruct (_ && consumes_input n); [by apply preserves_emit|].
    set (copies := Nat.iter _ _ e).
    assert (Hcopies : class_inv uni lb copies).
    { apply (preserves_iter _ (fun e => compile n (clear_captures (capture_indices n) e))); [|done].
      intros e' He'. by apply IH, preserves_clear. }
    assert (Hstar : forall c g gs, class_inv uni lb (compile_star c (compile n) g gs copies))
      by (intros; by apply preserves_star).
    destruct mx as [m|]; [by apply preserves_bounded|].
    destruct (e_unicode e) eqn:Eu; [done|]. destruct (fuseable_atom n e) as [[atom e']|] eqn:Ef; [|done].
    apply (preserves_fused n e atom e' _ _ gc Hwf); [unfold MAX_REPEAT; lia|done|done|done].
  - destruct Hwf as [Hwf _].
    assert (Hlb' : has_lookbehind n = true -> lb = true) by (intros Hb; apply Hlb; by destruct k).
    specialize (IH Hwf Hlb'). destruct k; simpl.
    + unfold compile_group. destruct (backward e); simpl; apply preserves_emit; try done;
        apply IH; by apply preserves_emit.
    + by apply IH.
    + by apply preserves_look.
    + apply preserves_look; [|done|done]. intros _. by apply Hlb.
Qed.

Lemma emit_root_inv gc gcount n :
  wf_node uni gc n -> (has_lookbehind n = true -> lb = true) -> class_inv uni lb (emit_root n gcount uni).
Proof.
  intros Hwf Hlb. apply preserves_emit; [done|]. eapply compile_preserves; [done|done|]. by split.
Qed.
End Invariant.

(** ** Folding *)

(** What the passes do to an instruction. *)
Definition baked (i : Insn) : Insn :=
  match folded_class i with Some _ => clear_ignore_case i | None => i end.

Lemma fold_pass_ascii cls l :
  exists cls', fold_pass fold_ascii_insn cls l = (cls', map baked l) /\
    forall c, exists k, cls' !! c = Nat.iter k fold_ascii_case <$> cls !! c /\
      (k = 0 <-> forall pc i, l !! pc = Some i -> folded_class i <> Some c).
Proof.
  revert cls. induction l as [|i l IH]; intros cls.
  - exists cls. split; [done|]. intros c. exists 0. split; [by destruct (cls !! c)|]. split; [done|done].
  - cbn [fold_pass map]. unfold fold_ascii_insn at 1, baked at 1.
    destruct (folded_class i) as [c0|] eqn:E.
    + destruct (IH (alter fold_ascii_case c0 cls)) as (cls' & -> & Hk). exists cls'. split; [done|].
      intros c. destruct (Hk c) as (k & Hc & Hk0). destruct (decide (c = c0)) as [->|Hne].
      * exists (S k). split.
        -- rewrite Hc, list_lookup_alter_eq. destruct (cls !! c0); simpl; [|done]. by rewrite <- (iter_succ_r k).
        -- split; [done|]. intros Hall. by destruct (Hall 0 i eq_refl).
      * exists k. rewrite Hc, list_lookup_alter_ne by done. split; [done|]. rewrite Hk0. split.
        -- intros Hall [|pc] x Hx; [simpl in Hx; simplify_eq; congruence|by eapply Hall].
        -- intros Hall pc x Hx. by apply (Hall (S pc) x).
    + destruct (IH cls) as (cls' & -> & Hk). exists cls'. split; [done|].
      intros c. destruct (Hk c) as (k & Hc & Hk0). exists k. split; [done|]. rewrite Hk0. split.
      * intros Hall [|pc] x Hx; [simpl in Hx; simplify_eq; congruence|by eapply Hall].
      * intros Hall pc x Hx. by apply (Hall (S pc) x).
Qed.

(** No class is folded when none is case-insensitive. *)
Lemma fold_pass_none f cls l :
  (forall cls i, folded_class i = None -> f cls i = (cls, i)) ->
  (forall pc i, l !! pc = Some i -> folded_class i = None) ->
  fold_pass f cls l = (cls, map baked l).
Proof.
  intros Hf. induction l as [|i l IH]; intros Hl; [done|]. cbn [fold_pass map].
  rewrite (Hf cls i (Hl 0 i eq_refl)). rewrite IH by (intros pc x Hx; by apply (Hl (S pc))).
  unfold baked at 2. by rewrite (Hl 0 i eq_refl).
Qed.

Lemma iter_fold_contains k set cp :
  wf_set (code_points set) ->
  wf_set (code_points (Nat.iter k fold_ascii_case set)) /\
  contains (code_points (Nat.iter k fold_ascii_case set)) cp =
    contains (code_points set) cp || (negb (k =? 0) && contains (code_points set) (ascii_other_case cp)).
Proof.
  intros Hw. revert cp. induction k as [|k IH]; intros cp; [simpl; by rewrite orb_false_r|].
  change (Nat.iter (S k) fold_ascii_case set) with (fold_ascii_case (Nat.iter k fold_ascii_case set)).
  destruct (fold_ascii_case_correct (Nat.iter k fold_ascii_case set) cp (proj1 (IH cp))) as [Hw' ->].
  split; [done|]. rewrite (proj2 (IH cp)), (proj2 (IH (ascii_other_case cp))), ascii_other_case_invol.
  destruct (contains _ cp), (contains _ (ascii_other_case cp)), (k =? 0); done.
Qed.

Lemma spec_class_ascii `{Icu} set neg cp :
  wf_set (code_points set) ->
  spec_class false set neg true cp =
  xorb (contains (code_points set) cp || contains (code_points set) (ascii_other_case cp)) neg.
Proof.
  intros Hw. unfold spec_class. f_equal. apply eq_iff_eq_true. rewrite existsb_exists, orb_true_iff.
  assert (Hmem : forall m, In m (flat_map (fun r : Z * Z => range_list r.1 r.2) (ranges (code_points set)))
    <-> contains (code_points set) m = true).
  { intros m. rewrite contains_in_ranges by done. unfold in_ranges. rewrite in_flat_map, existsb_exists.
    split; intros (r & Hr & Hm); exists r; (split; [done|]).
    - apply list_elem_of_In, range_list_elem in Hm. by apply in_range_spec.
    - apply list_elem_of_In, range_list_elem. by apply in_range_spec in Hm. }
  unfold spec_canon. split.
  - intros (m & Hm & Hc). boolprop. apply Hmem in Hm.
    assert (m = cp \/ m = ascii_other_case cp) as [->| ->]; [|auto|auto].
    unfold canonicalize, ascii_other_case, in_range in *. repeat case_match; lia.
  - intros [Hc|Hc].
    + exists cp. split; [by apply Hmem|]. apply Z.eqb_refl.
    + exists (ascii_other_case cp). split; [by apply Hmem|]. rewrite canonicalize_other_case. apply Z.eqb_refl.
Qed.

Lemma class_member_final `{Icu} prog s neg cp :
  wf_set (code_points s) -> (0 <= cp)%Z ->
  class_member prog (finalize_ascii s) neg cp false = xorb (contains (code_points s) cp) neg.
Proof.
  intros Hw Hcp. unfold class_member. destruct (cp <? 128)%Z eqn:E.
  - rewrite finalize_ascii_contains by (done || lia). by rewrite orb_false_r.
  - by rewrite andb_false_r.
Qed.

Lemma land_one_testbit x i : (0 <= i)%Z -> negb (Z.land (Z.shiftr x i) 1 =? 0)%Z = Z.testbit x i.
Proof.
  intros Hi. replace (Z.testbit x i) with (Z.testbit (Z.shiftr x i) 0)
    by (by rewrite Z.shiftr_spec, Z.add_0_l by lia).
  rewrite Z.bit0_odd. change 1%Z with (Z.ones 1). rewrite Z.land_ones by lia.
  change (2 ^ 1)%Z with 2%Z. rewrite Zmod_odd. by destruct (Z.odd _).
Qed.

Lemma bitmap_member_final s u :
  wf_set (code_points s) -> (0 <= u)%Z -> bitmap_member (finalize_ascii s) u = contains (code_points s) u.
Proof.
  intros Hw Hu. unfold bitmap_member.
  change 18446744073709551616%Z with (2 ^ 64)%Z.
  destruct (u <? 64)%Z eqn:E1; [|destruct (u <? 128)%Z eqn:E2; [|done]].
  - rewrite land_one_testbit, Z.mod_pow2_bits_low by lia.
    rewrite <- ascii_contains_testbit by done. apply finalize_ascii_contains; [done|lia].
  - rewrite land_one_testbit, Z.mod_pow2_bits_low, Z.shiftr_spec by lia.
    replace (u - 64 + 64)%Z with u by lia.
    rewrite <- ascii_contains_testbit by done. apply finalize_ascii_contains; [done|lia].
Qed.

(** ** The program after the passes *)

Lemma passes_classes uni lb e `{Icu} :
  class_inv uni lb e ->
  exists cls', fold_pass (if uni then fold_unicode_insn else fold_ascii_insn) (e_classes e) (e_insns e)
      = (cls', map baked (e_insns e)) /\ Forall (fun s => wf_set (code_points s)) cls' /\
    forall pc i c set, e_insns e !! pc = Some i -> class_ref i = Some c -> e_classes e !! c = Some set ->
      exists set', cls' !! c = Some set' /\ wf_set (code_points set') /\
        forall cp, contains (code_points set') cp =
          contains (code_points set) cp ||
          (match folded_class i with Some _ => true | None => false end &&
           contains (code_points set) (ascii_other_case cp)).
Proof.
  intros Hinv. destruct uni.
  - assert (Hnone : forall pc i, e_insns e !! pc = Some i -> folded_class i = None).
    { intros pc i Hi. destruct (folded_class i) eqn:E; [|done].
      pose proof (proj1 (ci_allowed _ _ _ Hinv pc i Hi)). rewrite E in *. intuition congruence. }
    exists (e_classes e). split; [|split; [apply Hinv|]].
    + apply fold_pass_none; [|done]. intros cls i Hi. unfold fold_unicode_insn. by rewrite Hi.
    + intros pc i c set Hi Hr Hc. exists set. split; [done|].
      split; [exact (proj1 (Forall_lookup _ _) (ci_wf _ _ _ Hinv) c set Hc)|].
      intros cp. rewrite (Hnone pc i Hi). by rewrite orb_false_r.
  - destruct (fold_pass_ascii (e_classes e) (e_insns e)) as (cls' & Hf & Hk). exists cls'. split; [done|].
    split.
    { apply Forall_lookup. intros c set' Hc. destruct (Hk c) as (k & Hck & _). rewrite Hc in Hck.
      destruct (e_classes e !! c) as [set|] eqn:Ec; [|done]. simpl in Hck. injection Hck as ->.
      apply (iter_fold_contains k set 0). exact (proj1 (Forall_lookup _ _) (ci_wf _ _ _ Hinv) c set Ec). }
    intros pc i c set Hi Hr Hc. destruct (Hk c) as (k & Hck & Hk0). rewrite Hc in Hck. simpl in Hck.
    pose proof (proj1 (Forall_lookup _ _) (ci_wf _ _ _ Hinv) c set Hc) as Hw. simpl in Hw.
    eexists. split; [exact Hck|]. split; [apply (iter_fold_contains k set 0 Hw)|]. intros cp.
    rewrite (proj2 (iter_fold_contains k set cp Hw)). do 2 f_equal.
    destruct (folded_class i) as [c0|] eqn:E.
    + pose proof (folded_ref _ _ E). assert (c0 = c) as -> by congruence.
      destruct k; [|done]. exfalso. by apply (proj1 Hk0 eq_refl pc i).
    + destruct k as [|k]; [done|]. exfalso. enough (S k = 0) by lia. apply Hk0.
      intros pc' i' Hi' Hf'. assert (pc' = pc) as -> by
        (eapply (ci_once _ _ _ Hinv); [exact Hi'|exact Hi|by apply folded_ref|done]). congruence.
Qed.

Lemma passes_realize `{Icu} uni lb e prog cls' :
  class_inv uni lb e -> prog_unicode prog = uni ->
  fold_pass (if uni then fold_unicode_insn else fold_ascii_insn) (e_classes e) (e_insns e) =
    (cls', insns prog) ->
  classes prog = map finalize_ascii cls' ->
  forall pc i, e_insns e !! pc = Some i ->
    exists i', insns prog !! pc = Some i' /\ realizes prog (e_classes e) i i'.
Proof.
  intros Hinv Hu Hfp Hcl pc i Hi.
  destruct (passes_classes uni lb e Hinv) as (cls0 & Hfp' & _ & Hcls).
  rewrite Hfp in Hfp'. injection Hfp' as <- Hins. exists (baked i).
  split; [rewrite Hins; change (map baked (e_insns e)) with (baked <$> e_insns e); by rewrite list_lookup_fmap, Hi|].
  assert (Hclass : forall c, class_ref i = Some c -> exists set set', e_classes e !! c = Some set /\
    classes prog !! c = Some (finalize_ascii set') /\ wf_set (code_points set') /\
    forall neg ic cp, (folded_class i <> None <-> ic = true) ->
      xorb (contains (code_points set') cp) neg = spec_class (prog_unicode prog) set neg ic cp).
  { intros c Hr. pose proof (ci_bound _ _ _ Hinv pc i c Hi Hr) as Hlt.
    destruct (lookup_lt_is_Some_2 _ _ Hlt) as [set Hset].
    destruct (Hcls pc i c set Hi Hr Hset) as (set' & Hc' & Hw & Hcont). exists set, set'.
    split; [done|]. split; [rewrite Hcl; change (map finalize_ascii cls') with (finalize_ascii <$> cls');
      by rewrite list_lookup_fmap, Hc'|]. split; [done|].
    intros neg ic cp Hic. rewrite Hcont.
    destruct ic.
    - destruct (folded_class i) eqn:E; [|intuition congruence].
      assert (uni = false) as Hnu by (eapply (ci_allowed _ _ _ Hinv); [exact Hi|congruence]).
      rewrite Hu, Hnu, spec_class_ascii; [done|].
      exact (proj1 (Forall_lookup _ _) (ci_wf _ _ _ Hinv) c set Hset).
    - destruct (folded_class i) eqn:E; [intuition congruence|]. by rewrite orb_false_r. }
  destruct i as [|c neg ic| | |[|c neg ic|] mn gr ps| | | | | | | | | | | | | |]; try done.
  - destruct (Hclass c eq_refl) as (set & set' & Hs & Hc & Hw & Ht). exists set, (finalize_ascii set'), false.
    split; [done|]. split; [done|]. split; [by destruct ic|]. intros cp Hcp.
    rewrite class_member_final by (done || lia). apply Ht. destruct ic; simpl; intuition congruence.
  - destruct (Hclass c eq_refl) as (set & set' & Hs & Hc & Hw & Ht).
    exists set, (AtomClass c neg false), (fun u => xorb (bitmap_member (finalize_ascii set') u) neg).
    split; [done|]. split; [by destruct ic|]. split.
    + cbn [atom_test]. by rewrite (proj2 (index_Ok _ _ _) Hc).
    + intros u Hur. rewrite bitmap_member_final by (done || lia). apply Ht. destruct ic; simpl; intuition congruence.
Qed.
