(* ===== verification/Possessive.v ===== *)
(** * Auto-possessification

    [mark_possessive] drops the give-back frames of a greedy fused repeat when
    no unit of the repeated class can start what follows.  In forward code this
    changes no result and never adds a backtrack point.  (In backward code the
    check reads the wrong end of a literal sequence: [Findings] has a
    counterexample.) *)

From S2P Require Import Prelude Unicode Classes Program Exec Backtrack Lower Spec Simulate Leaves Passes.

Section Possessive.
Context `{Icu}.
Variables (l : list Insn) (cls : list ClassSet) (gc : nat) (nm : list (list Z)) (uni : bool) (lm : nat).
Variables (pf pf' : option Prefilter) (lead lead' : bool).
Variable inp : Input.

Definition plain_prog : Program := mkProgram l cls gc nm uni lm pf lead.
Definition marked_prog : Program :=
  mkProgram (mark_possessive l cls uni) cls gc nm uni lm pf' lead'.

Hypothesis Hunits : wf_units (units inp).
Hypothesis Hmode : code_point_mode inp = false.
Hypothesis Huni : uni = false.
Hypothesis Hfinal : Forall (fun s => exists s0, s = finalize_ascii s0 /\ wf_set (code_points s0)) cls.
Hypothesis Hforward : forall pc neg behind entry,
  l !! pc = Some (Insn.Look neg behind entry) -> behind = false.

(** ** The static checks mean what the executor does *)

Lemma contains_finalized s c :
  (exists s0, s = finalize_ascii s0 /\ wf_set (code_points s0)) -> (0 <= c)%Z ->
  wf_set (code_points s) /\ ((c < 128)%Z -> ascii_contains s c = contains (code_points s) c) /\
  bitmap_member s c = contains (code_points s) c.
Proof.
  intros (s0 & -> & Hw) Hc. split; [done|]. split.
  - intros Hlt. rewrite finalize_ascii_contains; [done|done|lia].
  - rewrite bitmap_member_final; done.
Qed.

Lemma class_matches_member s neg c ic :
  (exists s0, s = finalize_ascii s0 /\ wf_set (code_points s0)) -> (0 <= c)%Z ->
  class_member plain_prog s neg c ic = class_matches s neg c ic uni.
Proof.
  intros Hs Hc. unfold class_member, class_matches. simpl prog_unicode. rewrite Huni. f_equal.
  destruct (contains_finalized s c Hs Hc) as (_ & Ha & _).
  destruct (c <? 128)%Z eqn:E.
  - pose proof (ascii_other_case_ascii c ltac:(lia)) as Ho.
    destruct (contains_finalized s (ascii_other_case c) Hs ltac:(lia)) as (_ & Ha' & _).
    rewrite Ha, Ha' by lia. rewrite andb_false_r.
    by destruct (contains _ c), ic.
  - by rewrite !andb_false_r.
Qed.

(** Units the repeat consumed are among the characters that were checked. *)
Lemma atom_members atom tst rep chars u :
  atom_test plain_prog atom = Ok tst -> repeat_atom_set atom cls = Some rep ->
  bounded_members rep REP_CAP = Some chars -> (0 <= u < 65536)%Z -> tst u = true -> In u chars.
Proof.
  intros Ht Hrep Hch Hu Htu. unfold bounded_members in Hch.
  destruct (members_within _ _ _); [|done]. injection Hch as <-.
  assert (Hmem : wf_set rep -> contains rep u = true ->
    In u (flat_map (fun r : Z * Z => range_list r.1 r.2) (ranges rep))).
  { intros Hw. rewrite contains_in_ranges by done. intros (r & Hr & Hin)%existsb_exists.
    apply in_flat_map. exists r. split; [done|]. apply list_elem_of_In, range_list_elem.
    by apply in_range_spec in Hin. }
  destruct atom as [cp []|c neg []|da]; simpl in Hrep; try done.
  - injection Hrep as <-. simpl in Ht. injection Ht as <-. unfold char_eq in Htu.
    rewrite orb_false_r in Htu. boolprop. subst u. apply Hmem; [apply insert_wf; [done|unfold MAX_CP; lia]|].
    rewrite insert_members by (done || unfold MAX_CP; lia). by rewrite Z.eqb_refl, orb_true_r.
  - destruct (cls !! c) as [set|] eqn:Ec; [|done]. injection Hrep as <-.
    cbn [atom_test] in Ht. rewrite (proj2 (index_Ok (classes plain_prog) c set) Ec) in Ht.
    injection Ht as <-.
    destruct (contains_finalized set u (proj1 (Forall_lookup _ _) Hfinal c set Ec) ltac:(lia)) as (Hw & _ & Hb).
    rewrite Hb in Htu. destruct neg.
    + destruct (negate_correct (code_points set) u Hw) as [Hwn Hn]. apply Hmem; [done|].
      rewrite Hn. rewrite (proj2 (in_range_spec _ _ _)) by (unfold MAX_CP; lia). by rewrite xorb_true_r in Htu.
    + apply Hmem; [done|]. by rewrite xorb_false_r in Htu.
Qed.

Lemma scan_units tst pos p :
  pos <= p < scan inp tst false pos -> exists u, units inp !! p = Some u /\ tst u = true.
Proof.
  unfold scan. generalize (S (length (units inp))). intros fuel. revert pos.
  induction fuel as [|fuel IH]; intros pos Hp; simpl in Hp; [lia|].
  destruct (units inp !! pos) as [u|] eqn:Eu; [|lia]. destruct (tst u) eqn:Et; [|lia].
  destruct (decide (p = pos)) as [->|Hne]; [eauto|]. apply (IH (step pos 1 false)). unfold step in *. lia.
Qed.

(** A consuming instruction that cannot take the unit [c] fails on it. *)
Lemma follower_fails i pc p c caps r d :
  l !! pc = Some i -> units inp !! p = Some c -> follower_matches i cls c uni = false ->
  match i with
  | Insn.Char _ _ | Insn.CharSeq _ | Insn.Class _ _ _ | Insn.AnyChar _ => True
  | Insn.Repeat _ min _ _ => (1 <= min)%Z
  | _ => False
  end ->
  bt plain_prog inp false pc p caps r d -> r = None.
Proof.
  intros Hi Hp Hf Hk Hb.
  assert (Hc : (0 <= c)%Z) by (pose proof (wf_units_lookup _ _ _ Hunits Hp); lia).
  assert (Hdec : decode_dir inp p false = Some (c, 1)).
  { unfold decode_dir. by rewrite decode_nonunicode, Hp. }
  assert (Hclass : forall k neg ic set, cls !! k = Some set ->
    follower_class cls k neg c ic uni = class_member plain_prog set neg c ic).
  { intros k neg ic set Ek. unfold follower_class. rewrite Ek.
    symmetry. apply class_matches_member; [|done]. exact (proj1 (Forall_lookup _ _) Hfinal k set Ek). }
  assert (Hstuck : (forall x, simple_insn plain_prog inp i false p caps = Some (Some x) -> False) /\
                   (forall x, choice_insn plain_prog inp i false pc p = Some (Some x) -> False)).
  { destruct i as [cp ic|k neg ic|sq|da|atom mn gr ps| | | | | | | | | | | | | |]; try done;
      (split; [|done]) || (split; [done|]); intros x Hx; cbn [simple_insn choice_insn follower_matches] in Hx, Hf.
    - unfold consume_char in Hx. rewrite Hdec in Hx.
      change (char_matches cp c ic uni) with (char_eq plain_prog cp c ic) in Hf. by rewrite Hf in Hx.
    - change (classes plain_prog) with cls in Hx. destruct (cls !! k) as [set|] eqn:Ek; [|done].
      rewrite (Hclass k neg ic set Ek) in Hf. unfold consume_class in Hx. by rewrite Hdec, Hf in Hx.
    - unfold consume_seq in Hx. destruct sq as [|u sq]; [done|]. cbn [andb] in Hx.
      rewrite bool_decide_eq_false_2 in Hx; [by rewrite andb_false_r in Hx|].
      cbn [length take]. rewrite (drop_S _ _ _ Hp). intros [= -> _]. by rewrite Z.eqb_refl in Hf.
    - unfold consume_any in Hx. by rewrite Hdec, Hf in Hx.
    - destruct (atom_test plain_prog atom) as [tst| | |] eqn:Et; try done.
      assert (Htc : tst c = false).
      { destruct atom as [cp ic|k neg ic|da]; cbn [atom_test] in Et.
        - injection Et as <-. exact Hf.
        - unfold index in Et. change (classes plain_prog) with cls in Et.
          destruct (cls !! k) as [set|] eqn:Ek; [|done]. injection Et as <-.
          rewrite (Hclass k neg ic set Ek) in Hf. destruct ic; [done|].
          destruct (contains_finalized set c (proj1 (Forall_lookup _ _) Hfinal k set Ek) Hc) as (_ & Ha & ->).
          unfold class_member in Hf. destruct (c <? 128)%Z eqn:E.
          + rewrite Ha, orb_false_r in Hf by lia. done.
          + by rewrite andb_false_r in Hf.
        - by injection Et as <-. }
      assert (Hscan : scan inp tst false p = p) by (unfold scan; simpl; by rewrite Hp, Htc).
      rewrite Hscan in Hx. unfold repeat_positions, abs_diff in Hx. rewrite Nat.sub_diag in Hx.
      rewrite (proj2 (Z.ltb_lt _ _)) in Hx by lia. done. }
  destruct Hstuck as [Hs Hc']. inversion Hb; subst; try done; simplify_eq/=; try done; exfalso; eauto.
Qed.

Lemma follower_loop_fails fuel pc fpc f p c caps r d :
  follower_loop fuel l pc = Some fpc -> l !! fpc = Some f -> follower_matches f cls c uni = false ->
  units inp !! p = Some c -> bt plain_prog inp false pc p caps r d -> r = None.
Proof.
  intros Hl Hf Hm Hp. revert pc caps r d Hl. induction fuel as [|fuel IH]; intros pc caps r d Hl Hb; [done|].
  cbn [follower_loop] in Hl. destruct (l !! pc) as [i|] eqn:Ei; [|done].
  destruct i as [cp ic|k neg ic|sq|da|atom mn gr ps| |t|a b|s|g|s|s|gs ic|ml|ml|iv ic|neg bh en| |]; try done.
  1-4: injection Hl as <-; rewrite Ei in Hf; simplify_eq; by eapply follower_fails.
  3-6: inversion Hb; subst; try done; change (insns plain_prog) with l in *; simplify_eq/=; try done;
    repeat case_match; simplify_eq; by eapply IH.
  - destruct (1 <=? mn)%Z eqn:E; [|done]. injection Hl as <-. rewrite Ei in Hf. simplify_eq.
    eapply follower_fails; [done|done|done| |done]. simpl. lia.
  - inversion Hb; subst; try done; change (insns plain_prog) with l in *; simplify_eq/=.
    + exfalso. by assert (Some x = None) by (by eapply IH).
    + by match goal with H : bt_list _ _ _ _ [] _ _ _ |- _ => inversion H end.
Qed.

(** ** The marks change nothing *)

Lemma marked_lookup pc i :
  l !! pc = Some i ->
  insns marked_prog !! pc =
    Some (if is_possessifiable l cls uni pc i then set_possessive i else i).
Proof. intros Hi. simpl. unfold mark_possessive. by rewrite list_lookup_imap, Hi. Qed.

(** Every position a possessified repeat would have given back fails. *)
Lemma given_back_fail atom mn pc pos e ps tst caps r d :
  is_possessifiable l cls uni pc (Insn.Repeat atom mn true false) = true ->
  atom_test plain_prog atom = Ok tst -> e = scan inp tst false pos ->
  repeat_positions mn true false false pos e = Some (e, ps) ->
  bt_list plain_prog inp false (pc + 1) ps caps r d -> r = None.
Proof.
  intros Hpo Ht He Hps. cbn [is_possessifiable] in Hpo.
  destruct (repeat_atom_set atom cls) as [rep|] eqn:Er; [|done].
  destruct (bounded_members rep REP_CAP) as [chars|] eqn:Ec; [|done].
  destruct (follower_pc l (pc + 1)) as [fpc|] eqn:Ef; [|done].
  destruct (l !! fpc) as [f|] eqn:Eff; [|done].
  assert (Hin : forall p, In p ps -> pos <= p < e).
  { unfold repeat_positions in Hps. destruct (_ <? mn)%Z eqn:E; [done|]. apply Z.ltb_ge in E. injection Hps as <-.
    pose proof (scan_loop_dir inp (S (length (units inp))) tst false pos) as Hd.
    change (pos <= scan inp tst false pos) in Hd. rewrite <- He in Hd.
    intros p (i & <- & Hi)%in_map_iff. apply in_seq in Hi. unfold step, abs_diff in *. cbn [negb]. clear He. lia. }
  clear Hps. revert r d. induction ps as [|p ps IH]; intros r d Hb; [by inversion Hb|].
  assert (Hfail : forall r' d', bt plain_prog inp false (pc + 1) p caps r' d' -> r' = None).
  { intros r' d' Hb'. destruct (scan_units tst pos p) as (u & Hu & Htu).
    { rewrite <- He. apply Hin. by left. }
    eapply (follower_loop_fails _ (pc + 1) fpc f p u); [exact Ef|done| |done|done].
    apply negb_true_iff. apply (proj1 (forallb_forall _ _) Hpo).
    eapply atom_members; try done. by eapply wf_units_lookup. }
  inversion Hb; subst.
  - match goal with H : bt _ _ _ _ _ _ _ _ |- _ => by apply Hfail in H end.
  - eapply IH; [|done]. intros q Hq. apply Hin. by right.
Qed.

Lemma possessifiable_inv pc i :
  is_possessifiable l cls uni pc i = true -> exists atom mn, i = Insn.Repeat atom mn true false.
Proof. destruct i as [| | | |atom mn [] []| | | | | | | | | | | | | |]; try done. eauto. Qed.

(** The marked instruction chooses the same first position, and gives nothing back. *)
Lemma possessive_choice atom mn pc pos tst :
  atom_test plain_prog atom = Ok tst ->
  let e := scan inp tst false pos in
  choice_insn marked_prog inp (Insn.Repeat atom mn true true) false pc pos =
    (if (Z.of_nat (abs_diff pos e) <? mn)%Z then Some None else Some (Some (pc + 1, e, (pc + 1, [])))) /\
  choice_insn plain_prog inp (Insn.Repeat atom mn true false) false pc pos =
    (if (Z.of_nat (abs_diff pos e) <? mn)%Z then Some None
     else Some ((fun '(p, ps) => (pc + 1, p, (pc + 1, ps))) <$> repeat_positions mn true false false pos e)).
Proof.
  intros Ht e. cbn [choice_insn]. change (atom_test marked_prog atom) with (atom_test plain_prog atom).
  rewrite Ht. fold e. unfold repeat_positions. by destruct (_ <? mn)%Z.
Qed.

Lemma possessive_sim :
  (forall bw pc pos caps r d, bt plain_prog inp bw pc pos caps r d -> bw = false ->
     exists d', d' <= d /\ bt marked_prog inp bw pc pos caps r d') /\
  (forall bw pc ps caps r d, bt_list plain_prog inp bw pc ps caps r d -> bw = false ->
     exists d', d' <= d /\ bt_list marked_prog inp bw pc ps caps r d').
Proof.
  apply bt_mutind.
  - intros bw pc pos caps Hi Hlen _. exists 0. split; [done|]. apply bt_match; [|done].
    by rewrite (marked_lookup _ _ Hi).
  - intros bw pc pos caps Hi _. exists 0. split; [done|]. apply bt_look_match. by rewrite (marked_lookup _ _ Hi).
  - intros bw pc pos caps i pos' caps' r d Hi Hs _ IH Hbw. destruct (IH Hbw) as (d' & Hd & Hb).
    exists d'. split; [done|]. eapply bt_next; [by rewrite (marked_lookup _ _ Hi)| |exact Hb].
    destruct (is_possessifiable _ _ _ _ i) eqn:E; [|exact Hs].
    destruct (possessifiable_inv _ _ E) as (atom & mn & ->). done.
  - intros bw pc pos caps i Hi Hs ->. exists 0. split; [done|].
    eapply bt_fail; [by rewrite (marked_lookup _ _ Hi)|].
    destruct (is_possessifiable _ _ _ _ i) eqn:E; [|exact Hs].
    destruct (possessifiable_inv _ _ E) as (atom & mn & ->). right. destruct Hs as [Hs|Hs]; [done|].
    destruct (atom_test plain_prog atom) as [tst| | |] eqn:Et; [|by cbn [choice_insn] in Hs; rewrite Et in Hs..].
    destruct (possessive_choice atom mn pc pos tst Et) as [Hm Hp]. rewrite Hp in Hs.
    cbn [set_possessive]. rewrite Hm. unfold repeat_positions in Hs. by destruct (_ <? mn)%Z.
  - intros bw pc pos caps i pc1 pos1 alts x d Hi Hc _ IH ->. destruct (IH eq_refl) as (d' & Hd & Hb).
    exists d'. split; [done|]. pose proof (marked_lookup _ _ Hi) as Hm.
    destruct (is_possessifiable l cls uni pc i) eqn:E; [|by eapply bt_hit].
    destruct (possessifiable_inv _ _ E) as (atom & mn & ->).
    destruct (atom_test plain_prog atom) as [tst| | |] eqn:Et; [|by cbn [choice_insn] in Hc; rewrite Et in Hc..].
    destruct (possessive_choice atom mn pc pos tst Et) as [Hm' Hp]. rewrite Hp in Hc.
    unfold repeat_positions in Hc. destruct (_ <? mn)%Z; [done|]. simplify_eq/=. by eapply bt_hit.
  - intros bw pc pos caps i pc1 pos1 pc2 ps r d1 d2 Hi Hc _ IH1 Hl IH2 ->.
    destruct (IH1 eq_refl) as (d1' & Hd1 & Hb1). destruct (IH2 eq_refl) as (d2' & Hd2 & Hb2).
    pose proof (marked_lookup _ _ Hi) as Hm.
    destruct (is_possessifiable l cls uni pc i) eqn:E;
      [|exists (d1' + d2'); split; [lia|]; by eapply bt_miss].
    destruct (possessifiable_inv _ _ E) as (atom & mn & ->).
    destruct (atom_test plain_prog atom) as [tst| | |] eqn:Et; [|by cbn [choice_insn] in Hc; rewrite Et in Hc..].
    destruct (possessive_choice atom mn pc pos tst Et) as [Hm' Hp]. rewrite Hp in Hc.
    destruct (_ <? mn)%Z eqn:Ez; [done|].
    destruct (repeat_positions mn true false false pos (scan inp tst false pos)) as [[p ps']|] eqn:Er; simplify_eq/=.
    assert (pos1 = scan inp tst false pos) as -> by (unfold repeat_positions in Er; rewrite Ez in Er; congruence).
    assert (r = None) as -> by (by eapply given_back_fail).
    exists (d1' + 0). split; [lia|]. eapply bt_miss; [exact Hm|exact Hm'|exact Hb1|constructor].
  - intros bw pc pos caps neg behind entry rl dl u r d Hi _ IH1 Hv _ IH2 Hbw.
    destruct (IH1 (Hforward _ _ _ _ Hi)) as (dl' & Hdl & Hb1). destruct (IH2 Hbw) as (d' & Hd & Hb2).
    exists (S dl' + d'). split; [lia|]. eapply bt_look_holds; [by rewrite (marked_lookup _ _ Hi)|done|done|done].
  - intros bw pc pos caps neg behind entry rl dl Hi _ IH1 Hv Hbw.
    destruct (IH1 (Hforward _ _ _ _ Hi)) as (dl' & Hdl & Hb1).
    exists (S dl'). split; [lia|]. eapply bt_look_fails; [by rewrite (marked_lookup _ _ Hi)|done|done].
  - intros bw pc caps _. exists 0. split; [done|constructor].
  - intros bw pc p ps caps x d _ IH Hbw. destruct (IH Hbw) as (d' & Hd & Hb).
    exists (S d'). split; [lia|]. by constructor.
  - intros bw pc p ps caps r d1 d2 _ IH1 _ IH2 Hbw. destruct (IH1 Hbw) as (d1' & Hd1 & Hb1).
    destruct (IH2 Hbw) as (d2' & Hd2 & Hb2). exists (S d1' + d2'). split; [lia|]. by apply btl_miss.
Qed.
End Possessive.

(** ** Property *)

(** Possessification is sound and never costs more.  For code without
    backward lookarounds over classes with their final bitmaps, whenever the
    unmarked program explores [d] backtrack points and ends in [r], the program
    with the marks explores at most [d], and the executor returns the slots of
    [r] from it under every budget that covers those. *)
Theorem possessification_sound `{Icu} l cls gc nm lm pf lead inp at_ r d :
  wf_units (units inp) -> code_point_mode inp = false ->
  Forall (fun s => exists s0, s = finalize_ascii s0 /\ wf_set (code_points s0)) cls ->
  (forall pc neg behind entry, l !! pc = Some (Insn.Look neg behind entry) -> behind = false) ->
  bt (mkProgram l cls gc nm false lm pf lead) inp false 0 at_
    (initial_caps (mkProgram l cls gc nm false lm pf lead) at_) r d ->
  exists d', d' <= d /\ forall config, (Z.of_nat (S d') <= step_bound config <= u64_max)%Z ->
    settles (attempt (mkProgram (mark_possessive l cls false) cls gc nm false lm pf lead) inp at_ config)
      (Ok (snd <$> r)).
Proof.
  intros Hu Hm Hf Hfwd Hb.
  destruct (proj1 (possessive_sim l cls gc nm false lm pf pf lead lead inp Hu Hm eq_refl Hf Hfwd)
    _ _ _ _ _ _ Hb eq_refl) as (d' & Hd & Hb').
  exists d'. split; [done|]. intros config Hc. by apply (attempt_sim _ _ _ config r d' Hb'); lia.
Qed.

(** [a*b] on "aac": two give-backs that fail, and none after marking. *)
Definition code_astar_b : list Insn :=
  [Insn.Repeat (AtomChar 97 false) 0 true false; Insn.Char 98 false; Insn.Match].

Lemma astar_b_bt :
  @bt ascii_icu (mkProgram code_astar_b [] 0 [] false 0 None false) (mkInput [97; 97; 99]%Z false)
    false 0 0 [Some 0; None] None 2.
Proof.
  eapply (bt_miss _ _ _ _ _ _ _ 1 2 1 [1; 0] _ 0 2); [reflexivity|vm_compute; reflexivity| |].
  - eapply bt_fail; [reflexivity|]. left. reflexivity.
  - apply (btl_miss _ _ _ _ _ _ _ _ 0 1); [eapply bt_fail; [reflexivity|]; left; reflexivity|].
    apply (btl_miss _ _ _ _ _ _ _ _ 0 0); [eapply bt_fail; [reflexivity|]; left; reflexivity|].
    constructor.
Qed.

Lemma possessification_sound_witness :
  exists d', d' <= 2 /\ forall config, (Z.of_nat (S d') <= step_bound config <= u64_max)%Z ->
    settles (@attempt ascii_icu
      (mkProgram [Insn.Repeat (AtomChar 97 false) 0 true true; Insn.Char 98 false; Insn.Match]
        [] 0 [] false 0 None false) (mkInput [97; 97; 99]%Z false) 0 config) (Ok None).
Proof.
  refine (@possessification_sound ascii_icu code_astar_b [] 0 [] 0 None false
    (mkInput [97; 97; 99]%Z false) 0 None 2 _ _ _ _ astar_b_bt).
  - repeat constructor; vm_compute; done.
  - reflexivity.
  - constructor.
  - intros [|[|[|pc]]] neg behind entry E; discriminate.
Defined.
