(* ===== verification/FirstSet.v ===== *)
(** * The first set and the scan prefilter

    [compute_first_set] walks the program from its entry over the instructions
    that consume nothing and collects what the first consuming instruction can
    take.  The work list ends with a set of program points closed under that
    walk ([closed]); induction on the backtracking semantics then shows that a
    match can only start at a code point of the set, so the scan may skip every
    other position. *)

From S2P Require Import Prelude Unicode Classes Program Exec Backtrack Lower Spec Simulate Leaves Passes Possessive.

(** Instructions of a finished program: classes finalised and case-sensitive,
    operands in range, repeats only outside Unicode mode. *)
Definition insn_ok (uni : bool) (i : Insn) : Prop :=
  match i with
  | Insn.Char cp _ => (0 <= cp <= MAX_CP)%Z
  | Insn.CharSeq run => run <> [] /\ Forall literal_unit run
  | Insn.Class _ _ ic => ic = false
  | Insn.Repeat atom mn _ _ => uni = false /\ (0 <= mn)%Z /\
      match atom with
      | AtomChar cp _ => (0 <= cp <= MAX_CP)%Z
      | AtomClass _ _ ic => ic = false
      | AtomAny _ => True
      end
  | _ => True
  end.

Definition subset (a b : CodePointSet) : Prop := forall c, contains a c = true -> contains b c = true.

Lemma union_with_subset a b : wf_set a -> wf_set b -> subset a (union_with a b) /\ subset b (union_with a b).
Proof.
  intros Ha Hb. split; intros c Hc; rewrite (proj2 (union_with_correct a b c Ha Hb)), Hc; [done|apply orb_true_r].
Qed.

(** ** The work list ends

    [first_walk] is the loop of [compute_first_set] without a bound: its runs are
    finite derivations.  Every point expanded is new and pushes at most two, so the
    bound [2 * len + 2] of [first_loop] is never what ends it. *)
Inductive first_walk (l : list Insn) (cls : list ClassSet) :
    list nat -> list nat -> CodePointSet -> bool -> option (CodePointSet * bool) -> Prop :=
  | WalkDone V out canon : first_walk l cls [] V out canon (Some (out, canon))
  | WalkSkip pc work V out canon r : pc ∈ V \/ l !! pc = None ->
      first_walk l cls work V out canon r -> first_walk l cls (pc :: work) V out canon r
  | WalkBail pc work V out canon i : pc ∉ V -> l !! pc = Some i ->
      first_insn cls pc i out canon = None -> first_walk l cls (pc :: work) V out canon None
  | WalkExpand pc work V out canon i more out' canon' r : pc ∉ V -> l !! pc = Some i ->
      first_insn cls pc i out canon = Some (more, out', canon') ->
      first_walk l cls (more ++ work) (pc :: V) out' canon' r ->
      first_walk l cls (pc :: work) V out canon r.

Lemma first_insn_pushes cls pc i out canon more out' canon' :
  first_insn cls pc i out canon = Some (more, out', canon') -> length more <= 2.
Proof.
  destruct i as [| |run| |atom| | | | | | | | | | | | | |]; simpl; repeat case_match; intros; simplify_eq; simpl; lia.
Qed.

Lemma visited_bound (n : nat) (V : list nat) : NoDup V -> Forall (fun q => q < n) V -> length V <= n.
Proof.
  intros Hn Hv. rewrite <- (length_seq n 0). apply submseteq_length, NoDup_submseteq; [done|].
  intros q Hq. apply elem_of_seq. rewrite Forall_forall in Hv. specialize (Hv q Hq). lia.
Qed.

Lemma first_loop_walks l cls fuel work V out canon :
  NoDup V -> Forall (fun q => q < length l) V -> 2 * (length l - length V) + length work < fuel ->
  first_walk l cls work V out canon (first_loop fuel l cls work V out canon).
Proof.
  revert work V out canon. induction fuel as [|fuel IH]; intros work V out canon Hn Hv Hf; [lia|].
  cbn [first_loop]. destruct work as [|pc work]; [constructor|]. simpl in Hf.
  destruct (l !! pc) as [i|] eqn:Ei; [|apply WalkSkip; [by right|apply IH; auto; lia]].
  case_bool_decide as Ev; [apply WalkSkip; [by left|apply IH; auto; lia]|].
  destruct (first_insn cls pc i out canon) as [[[more out1] canon1]|] eqn:Ef; [|by eapply WalkBail].
  pose proof (first_insn_pushes _ _ _ _ _ _ _ _ Ef). pose proof (lookup_lt_Some _ _ _ Ei).
  assert (Hv' : Forall (fun q => q < length l) (pc :: V)) by (by constructor).
  assert (Hn' : NoDup (pc :: V)) by (by constructor).
  pose proof (visited_bound _ _ Hn' Hv') as Hb. simpl in Hb.
  eapply WalkExpand; eauto. apply IH; auto. rewrite length_app. simpl. lia.
Qed.

Lemma first_walk_det l cls work V out canon r1 r2 :
  first_walk l cls work V out canon r1 -> first_walk l cls work V out canon r2 -> r1 = r2.
Proof.
  intros Hr1. revert r2. induction Hr1; intros r2 Hr2; inversion Hr2; simplify_eq; auto;
    repeat match goal with H : _ \/ _ |- _ => destruct H end; done || congruence.
Qed.

(** The search for the first set of any program ends: [first_loop] with the
    bound [2 * len + 2] returns the result of the unbounded work-list loop, and that
    result is the only one the loop can have. *)
Theorem first_set_terminates (l : list Insn) (cls : list ClassSet) (ic : bool) :
  first_walk l cls [0] [] cps_new ic (first_loop (2 * length l + 2) l cls [0] [] cps_new ic) /\
  forall r, first_walk l cls [0] [] cps_new ic r -> r = first_loop (2 * length l + 2) l cls [0] [] cps_new ic.
Proof.
  assert (Hw : first_walk l cls [0] [] cps_new ic (first_loop (2 * length l + 2) l cls [0] [] cps_new ic))
    by (apply first_loop_walks; [constructor|constructor|simpl; lia]).
  split; [done|]. intros r Hr. by apply (first_walk_det _ _ _ _ _ _ _ _ Hr Hw).
Qed.

Section FirstSet.
Context `{Icu}.
Variables (prog : Program) (inp : Input).
Local Abbreviation l := (insns prog).
Local Abbreviation cls := (classes prog).
Local Abbreviation uni := (prog_unicode prog).

Hypothesis Hunits : wf_units (units inp).
Hypothesis Hmode : code_point_mode inp = uni.
Hypothesis Hok : forall pc i, l !! pc = Some i -> insn_ok uni i.
Hypothesis Hfinal : Forall (fun s => exists s0, s = finalize_ascii s0 /\ wf_set (code_points s0)) cls.

(** Some member of the set stands for [cp]. *)
Definition starts (out : CodePointSet) (canon : bool) (cp : Z) : Prop :=
  exists m, contains out m = true /\ (m = cp \/ canon = true /\ ir_fold m uni = ir_fold cp uni).

Lemma starts_mono out out' (canon canon' : bool) cp :
  subset out out' -> (canon = true -> canon' = true) -> starts out canon cp -> starts out' canon' cp.
Proof. intros Hs Hc (m & Hm & Hor). exists m. split; [auto|]. destruct Hor as [?|[? ?]]; auto. Qed.

Definition starts_at (out : CodePointSet) (canon : bool) (pos : nat) : Prop :=
  exists cp w, decode inp pos = Some (cp, w) /\ starts out canon cp.

(** ** The work list *)

(** A processed point: what it added is in the set, its successors are in [next]. *)
Definition processed (next : nat -> Prop) (out : CodePointSet) (canon : bool) (pc : nat) : Prop :=
  forall i, l !! pc = Some i -> exists out1 c1 more out2 c2,
    wf_set out1 /\ first_insn cls pc i out1 c1 = Some (more, out2, c2) /\
    (forall q, In q more -> next q) /\ subset out2 out /\ (c2 = true -> canon = true).

Definition closed (V : list nat) (out : CodePointSet) (canon : bool) : Prop :=
  forall pc, pc ∈ V -> processed (fun q => q ∈ V \/ l !! q = None) out canon pc.

Lemma first_class_wf c neg out out' :
  wf_set out -> first_class cls c neg out = Some out' ->
  wf_set out' /\ subset out out' /\
  exists set, cls !! c = Some set /\ wf_set (code_points set) /\
    subset (if neg then negate (code_points set) else code_points set) out'.
Proof.
  intros Hw Hf. unfold first_class in Hf. destruct (cls !! c) as [set|] eqn:Ec; [|done].
  destruct (strings set); [|done]. injection Hf as <-.
  destruct (proj1 (Forall_lookup _ _) Hfinal c set Ec) as (s0 & -> & Hs0).
  change (code_points (finalize_ascii s0)) with (code_points s0).
  set (b := if neg then negate (code_points s0) else code_points s0).
  assert (Hb : wf_set b) by (unfold b; destruct neg; [by apply (negate_correct _ 0)|done]).
  destruct (union_with_subset out b Hw Hb) as [H1 H2].
  split; [by apply (union_with_correct _ _ 0)|]. split; [done|]. exists (finalize_ascii s0). done.
Qed.

Lemma insert_subset out c : wf_set out -> (0 <= c <= MAX_CP)%Z ->
  wf_set (insert out c) /\ subset out (insert out c) /\ contains (insert out c) c = true.
Proof.
  intros Hw Hc. split; [by apply insert_wf|]. split.
  - intros x Hx. rewrite insert_members by done. by rewrite Hx.
  - rewrite insert_members by done. by rewrite Z.eqb_refl, orb_true_r.
Qed.

Lemma first_insn_grows pc i out canon more out' canon' :
  insn_ok uni i -> wf_set out -> first_insn cls pc i out canon = Some (more, out', canon') ->
  wf_set out' /\ subset out out' /\ (canon = true -> canon' = true).
Proof.
  intros Hi Hw Hf.
  assert (Hid : wf_set out /\ subset out out /\ (canon = true -> canon = true)) by (repeat split; auto; by intros ?).
  destruct i as [cp ic|c neg ic|run| |atom mn g p| | | | | | | | | | | | | |]; simpl in Hf, Hi; try done; simplify_eq; try done.
  - destruct (insert_subset out cp Hw Hi) as (? & ? & _). split; [done|]. split; [done|]. by intros ->.
  - destruct (first_class _ _ _ _) as [o|] eqn:E; [|done]. simplify_eq.
    destruct (first_class_wf _ _ _ _ Hw E) as (? & ? & _). split; [done|]. split; [done|]. by intros ->.
  - destruct run as [|u run]; [done|]. simplify_eq. destruct Hi as [_ Hall].
    apply Forall_cons in Hall as [[H0 [H1 _]] _].
    destruct (insert_subset out u Hw ltac:(unfold MAX_CP; lia)) as (? & ? & _). auto.
  - destruct atom as [cp ic|c neg ic|]; [| |done].
    + simplify_eq. destruct (insert_subset out cp Hw (proj2 (proj2 Hi))) as (? & ? & _). split; [done|]. split; [done|]. by intros ->.
    + destruct (first_class _ _ _ _) as [o|] eqn:E; [|done]. simplify_eq.
      destruct (first_class_wf _ _ _ _ Hw E) as (? & ? & _). split; [done|]. split; [done|]. by intros ->.
Qed.

Lemma processed_mono (next next' : nat -> Prop) out out' (canon canon' : bool) pc :
  (forall q, next q -> next' q) -> subset out out' -> (canon = true -> canon' = true) ->
  processed next out canon pc -> processed next' out' canon' pc.
Proof.
  intros Hn Hs Hc Hp i Hi. destruct (Hp i Hi) as (o1 & c1 & more & o2 & c2 & Hw & Hf & Hm & Ho & Hcc).
  exists o1, c1, more, o2, c2. split; [done|]. split; [done|]. split; [auto|]. split; [|auto].
  intros x Hx. by apply Hs, Ho.
Qed.

Lemma first_loop_closed fuel work V out canon out' canon' :
  wf_set out -> (forall pc, pc ∈ V -> processed (fun q => q ∈ V \/ q ∈ work \/ l !! q = None) out canon pc) ->
  first_loop fuel l cls work V out canon = Some (out', canon') ->
  exists V', closed V' out' canon' /\ wf_set out' /\ (canon = true -> canon' = true) /\
    (forall pc, pc ∈ V \/ pc ∈ work -> pc ∈ V' \/ l !! pc = None).
Proof.
  revert work V out canon. induction fuel as [|fuel IH]; intros work V out canon Hw Hinv Hf; [done|].
  cbn [first_loop] in Hf. destruct work as [|pc work].
  - injection Hf as <- <-. exists V. split; [|split; [done|split; [done|]]].
    + intros pc Hpc. eapply processed_mono; [| | |by apply Hinv]; [|by intros ?|done].
      intros q [?|[[]%elem_of_nil|?]]; auto.
    + intros pc [?|[]%elem_of_nil]; auto.
  - assert (Hskip : (pc ∈ V \/ l !! pc = None) ->
      first_loop fuel l cls work V out canon = Some (out', canon') ->
      exists V', closed V' out' canon' /\ wf_set out' /\ (canon = true -> canon' = true) /\
        (forall q, q ∈ V \/ q ∈ pc :: work -> q ∈ V' \/ l !! q = None)).
    { intros Hpc Hf'. destruct (IH work V out canon Hw) as (V' & Hc & Hw' & Hcc & Hsub); [|done|].
      - intros q Hq. eapply processed_mono; [| | |by apply Hinv]; [|by intros ?|done].
        intros x [?|[[->|?]%elem_of_cons|?]]; auto. destruct Hpc; auto.
      - exists V'. split; [done|]. split; [done|]. split; [done|].
        intros q [?|[->|?]%elem_of_cons]; auto. destruct Hpc; auto. }
    destruct (l !! pc) as [i|] eqn:Ei; [|by apply Hskip; auto].
    destruct (bool_decide (pc ∈ V)) eqn:Ev; [apply bool_decide_eq_true in Ev; by apply Hskip; auto|].
    destruct (first_insn cls pc i out canon) as [[[more out1] canon1]|] eqn:Ef; [|done].
    destruct (first_insn_grows _ _ _ _ _ _ _ (Hok _ _ Ei) Hw Ef) as (Hw1 & Hs1 & Hc1).
    destruct (IH (more ++ work) (pc :: V) out1 canon1 Hw1) as (V' & Hc & Hw' & Hcc & Hsub); [|done|].
    + intros q [->|Hq]%elem_of_cons.
      * intros i' Hi'. simplify_eq. exists out, canon, more, out1, canon1.
        split; [done|]. split; [done|]. split; [|by split; [intros ?|]].
        intros x Hx. right. left. apply elem_of_app. left. by apply list_elem_of_In.
      * eapply processed_mono; [| | |by apply Hinv]; [|done|done].
        intros x [?|[[->|?]%elem_of_cons|?]]; [left; by right|left; by left|right; left; apply elem_of_app; by right|by right; right].
    + exists V'. split; [done|]. split; [done|]. split; [auto|].
      intros q [?|[->|?]%elem_of_cons]; apply Hsub; [left; by right|left; by left|right; apply elem_of_app; by right].
Qed.

(** ** What consuming instructions take *)

Lemma decode_range pos cp w : decode inp pos = Some (cp, w) -> (0 <= cp <= MAX_CP)%Z.
Proof. intros Hd. by apply (decode_dir_cp inp pos false cp w). Qed.

Lemma class_starts c neg out out' canon pos cp w set :
  wf_set out -> first_class cls c neg out = Some out' -> cls !! c = Some set ->
  decode inp pos = Some (cp, w) -> xorb (contains (code_points set) cp) neg = true ->
  starts_at out' canon pos.
Proof.
  intros Hw Hf Hc Hd Hm. destruct (first_class_wf c neg out out' Hw Hf) as (_ & _ & set' & Hc' & Hws & Hsub).
  rewrite Hc in Hc'. injection Hc' as <-.
  exists cp, w. split; [done|]. exists cp. split; [|by left]. apply Hsub.
  destruct neg; [|by rewrite xorb_false_r in Hm].
  rewrite (proj2 (negate_correct (code_points set) cp Hws)).
  pose proof (decode_range pos cp w Hd). rewrite (proj2 (in_range_spec _ _ _)) by done.
  by rewrite xorb_true_r in Hm.
Qed.

Lemma literal_starts out target (ic canon : bool) pos cp w :
  wf_set out -> (0 <= target <= MAX_CP)%Z -> decode inp pos = Some (cp, w) ->
  char_eq prog target cp ic = true -> starts_at (insert out target) (canon || ic) pos.
Proof.
  intros Hw Ht Hd He. exists cp, w. split; [done|]. exists target.
  split; [by apply insert_subset|]. unfold char_eq in He. apply orb_prop in He as [He|He]; boolprop; [auto|].
  right. destruct ic; [|done]. split; [by destruct canon|]. symmetry. exact H1.
Qed.

Lemma consumed_starts i pc pos caps p' caps' out1 c1 more out2 c2 :
  insn_ok uni i -> wf_set out1 -> first_insn cls pc i out1 c1 = Some (more, out2, c2) ->
  simple_insn prog inp i false pos caps = Some (Some (p', caps')) ->
  (In (pc + 1) more /\ p' = pos) \/ starts_at out2 c2 pos.
Proof.
  intros Hi Hw Hf Hs.
  destruct i as [cp ic|c neg ic|run|da|atom mn g p| |t|a b|s|g|s|s|gs ic|ml|ml|iv ic|ng bh en| |];
    cbn [first_insn simple_insn insn_ok] in *; try done.
  4-6: repeat case_match; simplify_eq; left; split; [by left|done].
  4-7: repeat case_match; simplify_eq; left; split; [by left|done].
  all: right.
  - injection Hf as <- <- <-. unfold consume_char, decode_dir in Hs.
    destruct (decode inp pos) as [[x w]|] eqn:Ed; [|done]. destruct (char_eq prog cp x ic) eqn:E; [|done].
    by eapply literal_starts.
  - destruct (first_class cls c neg out1) as [o|] eqn:Ec; [|done]. simplify_eq.
    destruct (cls !! c) as [set|] eqn:Es; [|done]. unfold consume_class, decode_dir in Hs.
    destruct (decode inp pos) as [[x w]|] eqn:Ed; [|done].
    destruct (class_member prog set neg x false) eqn:E; [|done].
    eapply class_starts; [exact Hw|exact Ec|exact Es|exact Ed|].
    destruct (proj1 (Forall_lookup _ _) Hfinal c set Es) as (s0 & -> & Hs0).
    rewrite class_member_final in E; [done|done|]. by apply decode_range in Ed as [? _].
  - destruct run as [|u run]; [done|]. injection Hf as <- <- <-. destruct Hi as [_ Hall].
    apply Forall_cons in Hall as [[H0 [H1 H2]] _]. unfold consume_seq in Hs. cbn [andb] in Hs.
    destruct (_ && bool_decide _) eqn:E; [|done]. boolprop. apply bool_decide_eq_true in H4.
    assert (Hu : units inp !! pos = Some u).
    { cbn [length] in H3, H4. destruct (lookup_lt_is_Some_2 (units inp) pos ltac:(lia)) as [v Hv].
      rewrite (drop_S _ _ _ Hv) in H4. cbn [take] in H4. congruence. }
    exists u, 1. split.
    + apply decode_fwd_unit; [done|]. unfold is_high_surrogate. apply in_range_false. lia.
    + exists u. split; [|by left]. apply insert_subset; [done|unfold MAX_CP; lia].
Qed.

(** A repeat that consumed something took its first unit from the set. *)
Lemma repeat_starts atom tst pos out1 (canon : bool) out2 c2 pc mn g p more :
  insn_ok uni (Insn.Repeat atom mn g p) -> wf_set out1 ->
  first_insn cls pc (Insn.Repeat atom mn g p) out1 canon = Some (more, out2, c2) ->
  atom_test prog atom = Ok tst -> scan inp tst false pos <> pos -> starts_at out2 c2 pos.
Proof.
  intros (Hu & Hmn & Ha) Hw Hf Ht Hne.
  pose proof (scan_loop_dir inp (S (length (units inp))) tst false pos) as Hd.
  change (pos <= scan inp tst false pos) in Hd.
  destruct (scan_units inp tst pos pos ltac:(lia)) as (u & Hunit & Htu).
  assert (Hdec : decode inp pos = Some (u, 1)) by (rewrite decode_nonunicode by congruence; by rewrite Hunit).
  pose proof (wf_units_lookup _ _ _ Hunits Hunit) as Hur.
  destruct atom as [cp ic|c neg ic|da]; cbn [first_insn atom_test] in Hf, Ht; [| |done].
  - simplify_eq. by eapply literal_starts.
  - destruct (first_class cls c neg out1) as [o|] eqn:Ec; [|done]. simplify_eq.
    unfold index in Ht. destruct (cls !! c) as [set|] eqn:Es; [|done]. simplify_eq/=.
    eapply class_starts; [exact Hw|exact Ec|exact Es|exact Hdec|].
    destruct (proj1 (Forall_lookup _ _) Hfinal c set Es) as (s0 & -> & Hs0).
    rewrite bitmap_member_final in Htu; [done|done|lia].
Qed.

Lemma choice_starts i pc pos pc1 p1 pc2 ps out1 c1 more out2 c2 :
  insn_ok uni i -> wf_set out1 -> first_insn cls pc i out1 c1 = Some (more, out2, c2) ->
  choice_insn prog inp i false pc pos = Some (Some (pc1, p1, (pc2, ps))) ->
  starts_at out2 c2 pos \/
  (p1 = pos /\ (forall p, In p ps -> p = pos) /\ In pc1 more /\ (ps <> [] -> In pc2 more)).
Proof.
  intros Hi Hw Hf Hc. destruct i as [| | | |atom mn g p| |t|a b| | | | | | | | | | |]; try done.
  - cbn [choice_insn] in Hc. destruct (atom_test prog atom) as [tst| | |] eqn:Et; try done.
    destruct (decide (scan inp tst false pos = pos)) as [Hs|Hs]; [right|left; by eapply repeat_starts].
    rewrite Hs in Hc. unfold repeat_positions, abs_diff in Hc. rewrite Nat.sub_diag in Hc.
    destruct (Z.of_nat (0 + 0) <? mn)%Z eqn:E; [done|].
    assert (mn = 0%Z) as -> by (destruct Hi as (_ & ? & _); boolprop; lia).
    assert (Hmore : In (pc + 1) more).
    { cbn [first_insn] in Hf. destruct atom as [cp ic|c neg ic|da]; [| |done].
      - injection Hf as <- _ _. by left.
      - destruct (first_class cls c neg out1); [|done]. injection Hf as <- _ _. by left. }
    change (step pos (Z.to_nat 0) false) with (pos + 0) in Hc. rewrite Nat.add_0_r, Nat.sub_diag in Hc.
    simpl in Hc. destruct g; [destruct p|]; simplify_eq/=;
      (split; [done|]; split; [by intros ? []|]; split; [done|done]).
  - simplify_eq/=. right. split; [done|]. split; [done|]. split; [by left|done].
  - simplify_eq/=. right. split; [done|]. split; [by intros p [<-|[]]|]. split; [right; by left|]. intros _. by left.
Qed.

(** ** Matches start in the set *)

Lemma closed_starts V out canon :
  closed V out canon ->
  (forall bw pc pos caps r d, bt prog inp bw pc pos caps r d ->
     bw = false -> pc ∈ V -> r <> None -> starts_at out canon pos) /\
  (forall bw pc ps caps r d, bt_list prog inp bw pc ps caps r d ->
     bw = false -> pc ∈ V -> r <> None -> exists p, In p ps /\ starts_at out canon p).
Proof.
  intros Hcl.
  assert (Hmono : forall pc i o1 c1 more o2 c2 pos, first_insn cls pc i o1 c1 = Some (more, o2, c2) ->
    subset o2 out -> (c2 = true -> canon = true) -> starts_at o2 c2 pos -> starts_at out canon pos).
  { intros pc i o1 c1 more o2 c2 pos _ Hs Hc (cp & w & Hd & Hst). exists cp, w. split; [done|].
    by eapply starts_mono. }
  assert (Hnext : forall q r d bw pos caps, q ∈ V \/ l !! q = None -> bt prog inp bw q pos caps r d -> q ∈ V).
  { intros q r d bw pos caps [?|Hq] Hb; [done|]. inversion Hb; congruence. }
  apply bt_mutind.
  - intros bw pc pos caps Hi _ -> Hpc _. destruct (Hcl pc Hpc _ Hi) as (? & ? & ? & ? & ? & _ & Hf & _). done.
  - intros bw pc pos caps Hi -> Hpc _. destruct (Hcl pc Hpc _ Hi) as (? & ? & ? & ? & ? & _ & Hf & _). done.
  - intros bw pc pos caps i pos' caps' r d Hi Hs Hb IH -> Hpc Hr.
    destruct (Hcl pc Hpc _ Hi) as (o1 & c1 & more & o2 & c2 & Hw & Hf & Hm & Ho & Hc).
    destruct (consumed_starts i pc pos caps pos' caps' o1 c1 more o2 c2 (Hok _ _ Hi) Hw Hf Hs) as [[Hin ->]|Hst];
      [|by eapply Hmono]. apply IH; [done|by eapply Hnext; [apply Hm|]|done].
  - done.
  - intros bw pc pos caps i pc1 pos1 [pc2 ps] x d Hi Hch Hb IH -> Hpc Hr.
    destruct (Hcl pc Hpc _ Hi) as (o1 & c1 & more & o2 & c2 & Hw & Hf & Hm & Ho & Hc).
    destruct (choice_starts i pc pos pc1 pos1 pc2 ps o1 c1 more o2 c2 (Hok _ _ Hi) Hw Hf Hch) as [Hst|(-> & _ & Hin & _)];
      [by eapply Hmono|]. apply IH; [done|by eapply Hnext; [apply Hm|]|done].
  - intros bw pc pos caps i pc1 pos1 pc2 ps r d1 d2 Hi Hch _ _ Hl IH -> Hpc Hr.
    destruct (Hcl pc Hpc _ Hi) as (o1 & c1 & more & o2 & c2 & Hw & Hf & Hm & Ho & Hc).
    destruct (choice_starts i pc pos pc1 pos1 pc2 ps o1 c1 more o2 c2 (Hok _ _ Hi) Hw Hf Hch) as [Hst|(_ & Hps & _ & Hin)];
      [by eapply Hmono|].
    destruct IH as (p & Hp & Hst); [done| |done|by rewrite (Hps p Hp) in Hst].
    inversion Hl; subst; [done| |]; eapply Hnext; [apply Hm, Hin; done|done|apply Hm, Hin; done|done].
  - intros bw pc pos caps neg behind entry rl dl u r d Hi _ _ _ _ _ -> Hpc _.
    by destruct (Hcl pc Hpc _ Hi) as (? & ? & ? & ? & ? & _ & Hf & _).
  - done.
  - done.
  - intros bw pc p ps caps x d _ IH Hbw Hpc _. exists p. split; [by left|]. by apply IH.
  - intros bw pc p ps caps r d1 d2 _ _ _ IH Hbw Hpc Hr. destruct IH as (q & Hq & Hst); [done|done|done|].
    exists q. split; [by right|done].
Qed.

Lemma first_set_starts ic set canon pos caps x d :
  compute_first_set l cls ic uni = Some (set, canon) ->
  bt prog inp false 0 pos caps (Some x) d ->
  exists out, wf_set out /\ starts_at out canon pos /\
    (if canon then canonicalize_set out uni = Some set else set = out).
Proof.
  intros Hcf Hb. unfold compute_first_set in Hcf.
  destruct (first_loop _ l cls [0] [] cps_new ic) as [[out canon']|] eqn:Ef; [|done].
  destruct (first_loop_closed (2 * length l + 2) [0] [] cps_new ic out canon' wf_set_new) as (V & Hcl & Hw & _ & Hsub);
    [by intros pc ?%elem_of_nil|exact Ef|].
  assert (H0 : 0 ∈ V).
  { destruct (Hsub 0) as [?|Hn]; [right; by apply list_elem_of_singleton|done|]. inversion Hb; congruence. }
  pose proof (proj1 (closed_starts V out canon' Hcl) _ _ _ _ _ _ Hb eq_refl H0 ltac:(done)) as Hst.
  exists out. destruct (cps_is_empty out); [done|]. destruct canon'.
  - destruct (canonicalize_set out uni) as [out'|] eqn:E; [|done]. destruct (cps_is_empty out'); [done|].
    by simplify_eq.
  - by simplify_eq.
Qed.
End FirstSet.
