(* ===== verification/Correctness.v ===== *)
(** * An attempt returns the first path of the specification

    The statement that ties the engine together: for a well-formed pattern tree,
    [attempt] on the program [lower] builds from it returns the captures of the
    first way the reference semantics matches, or no match when there is none;
    and there is one number of backtrack points below which it stops with
    [StepLimitExceeded] and from which on it answers. *)

From Stdlib Require Import String.
From S2P Require Import Prelude Unicode Classes Program Parser Exec Backtrack Lower Spec Simulate Leaves Emit Loops Passes Possessive.

(** The state a match starts in. *)
Definition start_state (gc at_ : nat) : State := mkState at_ (replicate (S gc) None).

(** The slots of a result hold the captures of a state: group 0 from the start to
    the end of the match, the others as captured. *)
Definition slots_match (gc at_ : nat) (o : option Caps) (s : option State) : Prop :=
  match o, s with
  | None, None => True
  | Some c, Some st =>
      group_range c 0 = Some (at_, s_pos st) /\
      forall g, 1 <= g <= gc -> group_range c g = mjoin (s_caps st !! g)
  | _, _ => False
  end.

Section Top.
Context `{Icu}.
Variables (n : Node) (gc : nat) (nm : list (list Z)) (uni : bool).
Variables (pf : option Prefilter) (lead : bool).
Variable inp : Input.

Hypothesis Hunits : wf_units (units inp).
Hypothesis Hmode : code_point_mode inp = uni.
Hypothesis Hwf : wf_node uni gc n.
Hypothesis Hnd : NoDup (capture_indices n).

Local Abbreviation emitted := (emit_root n gc uni).
Definition passed : list ClassSet * list Insn :=
  fold_pass (if uni then fold_unicode_insn else fold_ascii_insn) (e_classes emitted) (e_insns emitted).

(** The program before possessification. *)
Definition unmarked : Program :=
  mkProgram passed.2 (map finalize_ascii passed.1) gc nm uni (next_mark emitted - 2 * (gc + 1)) pf lead.

Lemma emitted_inv : class_inv uni (has_lookbehind n) emitted.
Proof. by eapply emit_root_inv. Qed.

Lemma unmarked_realizes pc i :
  e_insns emitted !! pc = Some i ->
  exists i', insns unmarked !! pc = Some i' /\ realizes unmarked (e_classes emitted) i i'.
Proof.
  eapply (passes_realize uni _ emitted unmarked passed.1); [apply emitted_inv|done| |done].
  change (insns unmarked) with passed.2. exact (surjective_pairing passed).
Qed.

Local Abbreviation e0 := (mkEmitter [] [] (2 * (gc + 1)) uni false).

Lemma root_compiled :
  correct_at unmarked inp (e_insns emitted) (e_classes emitted) e0 (compile n) (paths inp uni n)
    (capture_indices n) (capture_indices n).
Proof. by apply (compile_correct unmarked inp _ _ Hunits Hmode unmarked_realizes). Qed.

Lemma root_seg : seg unmarked (e_insns emitted) (e_classes emitted) e0 (compile n e0).
Proof.
  destruct root_compiled as [Ha _]. pose proof (ag_marks _ _ _ Ha) as Hm. simpl in Hm. split.
  - intros pc Hpc. rewrite bool_decide_eq_false_2 by apply not_elem_of_nil.
    apply (ag_insns 0 (compile n e0)); [apply agree_emit|lia].
  - done.
  - simpl. lia.
  - unfold slot_count. simpl. unfold emit_root. simpl. lia.
  - by rewrite (ag_unicode _ _ _ Ha).
Qed.

Lemma initial_rel at_ : Rel unmarked (fun _ => None) (initial_caps unmarked at_) (start_state gc at_).
Proof.
  unfold initial_caps. split; simpl.
  - by rewrite length_insert, length_replicate.
  - by rewrite length_replicate.
  - intros g Hg. exists None, None, None. unfold slot_count. simpl.
    rewrite !list_lookup_insert_ne by lia. rewrite !lookup_replicate_2 by lia.
    destruct g as [|g]; [lia|]. simpl. by rewrite lookup_replicate_2 by lia.
Qed.

Lemma unmarked_runs at_ :
  at_ <= length (units inp) ->
  exists r d, bt unmarked inp false 0 at_ (initial_caps unmarked at_) r d /\
    slots_match gc at_ (snd <$> r) (head (paths inp uni n false (start_state gc at_))).
Proof.
  intros Hat. destruct root_compiled as [Ha HS]. specialize (HS root_seg).
  set (vm := initial_caps unmarked at_). set (st := start_state gc at_).
  set (RR := fun x (p : nat) c => slots_match gc at_ (Some c) (Some x)).
  assert (Hlen : 2 <= length vm).
  { unfold vm, initial_caps. rewrite length_insert, length_replicate. unfold slot_count. simpl. lia. }
  assert (Hr : runs unmarked inp RR false 0 (s_pos st) vm (first_some Some (paths inp uni n false st))).
  { apply (HS (fun _ => None) RR Some); [apply initial_rel| |done| |].
    - split; [done|]. simpl. constructor; [done|]. by apply Forall_replicate.
    - intros g Hg. apply list_elem_of_In in Hg.
      pose proof (proj1 (Forall_forall _ _) (capture_range uni gc n Hwf) g Hg) as Hr.
      destruct g as [|g]; [simpl in Hr; lia|]. simpl. apply lookup_replicate_2. simpl in Hr. lia.
    - intros x vm' _ Hrel Hsame. exists (Some (s_pos x, <[1 := Some (s_pos x)]> vm')), 0.
      pose proof (rel_len _ _ _ _ Hrel) as Hl'. unfold slot_count in Hl'. simpl in Hl'.
      split; [apply bt_match; [|lia]|].
      + apply (raw_plain unmarked _ _ unmarked_realizes); [|done]. apply lookup_emit.
      + split.
        * unfold group_range. rewrite list_lookup_insert_ne by done. simpl (2 * 0). simpl (0 + 1).
          rewrite list_lookup_insert_eq by lia. rewrite (Hsame 0) by lia.
          unfold vm, initial_caps. rewrite list_lookup_insert_eq by (rewrite length_replicate; unfold slot_count; simpl; lia).
          done.
        * intros g Hg. rewrite <- (rel_group_range unmarked _ _ _ g Hrel Hg).
          unfold group_range. rewrite !list_lookup_insert_ne by lia. done. }
  destruct Hr as (r & d & Hb & Hag). exists r, d. split; [exact Hb|].
  rewrite first_some_head in Hag. fold st.
  destruct (head (paths inp uni n false st)), r as [[p c]|]; done.
Qed.

(** ** Possessification on top *)

Lemma unmarked_allowed pc i :
  insns unmarked !! pc = Some i -> exists i0, e_insns emitted !! pc = Some i0 /\ i = baked i0.
Proof.
  destruct (passes_classes uni _ emitted emitted_inv) as (cls' & Hf & _).
  change (insns unmarked) with passed.2. unfold passed. rewrite Hf. cbn [snd].
  change (map baked (e_insns emitted)) with (baked <$> e_insns emitted).
  rewrite list_lookup_fmap. destruct (e_insns emitted !! pc) as [i0|]; simpl; [|done]. intros [= <-]. eauto.
Qed.

Lemma baked_shape i :
  match i with
  | Insn.Repeat _ mn g p => exists a, baked i = Insn.Repeat a mn g p
  | Insn.Look _ _ _ => baked i = i
  | _ => match baked i with Insn.Repeat _ _ _ _ | Insn.Look _ _ _ => False | _ => True end
  end.
Proof. destruct i as [|? ? []| | |[|? ? []|]| | | | | | | | | | | | | |]; try done; eexists; reflexivity. Qed.

Lemma unmarked_final :
  Forall (fun s => exists s0, s = finalize_ascii s0 /\ wf_set (code_points s0)) (classes unmarked).
Proof.
  destruct (passes_classes uni _ emitted emitted_inv) as (cls' & Hf & Hw & _).
  change (classes unmarked) with (map finalize_ascii passed.1). unfold passed. rewrite Hf. cbn [fst].
  apply Forall_map. eapply Forall_impl; [exact Hw|]. eauto.
Qed.

Lemma unmarked_forward pc neg behind entry :
  has_lookbehind n = false -> insns unmarked !! pc = Some (Insn.Look neg behind entry) -> behind = false.
Proof.
  intros Hlb Hi. destruct (unmarked_allowed _ _ Hi) as (i0 & Hi0 & Hb).
  pose proof (proj2 (ci_allowed _ _ _ emitted_inv pc i0 Hi0)) as Ha. pose proof (baked_shape i0) as Hs.
  destruct i0 as [| | | | | | | | | | | | | | | |neg0 behind0 entry0| |]; rewrite <- Hb in Hs; try done;
    [by destruct Hs|]. injection Hs as -> -> ->. rewrite Hlb in Ha.
  destruct behind0; [|done]. by discriminate (Ha eq_refl).
Qed.

Lemma unmarked_no_repeat pc a mn g p :
  uni = true -> insns unmarked !! pc = Some (Insn.Repeat a mn g p) -> False.
Proof.
  intros Hu Hi. destruct (unmarked_allowed _ _ Hi) as (i0 & Hi0 & Hb).
  pose proof (proj2 (ci_allowed _ _ _ emitted_inv pc i0 Hi0)) as Ha. pose proof (baked_shape i0) as Hs.
  destruct i0; rewrite <- Hb in Hs; try done. simpl in Ha. destruct Ha as (_ & Ha & _). congruence.
Qed.

Lemma mark_nothing :
  uni = true -> mark_possessive (insns unmarked) (classes unmarked) uni = insns unmarked.
Proof.
  intros Hu. apply list_eq. intros pc. unfold mark_possessive. rewrite list_lookup_imap.
  destruct (insns unmarked !! pc) as [i|] eqn:Ei; [|done]. simpl.
  destruct (is_possessifiable _ _ _ _ _) eqn:E; [|done].
  apply possessifiable_inv in E as (atom & mn & ->). by destruct (unmarked_no_repeat _ _ _ _ _ Hu Ei).
Qed.

Definition marked : Program :=
  mkProgram (mark_possessive (insns unmarked) (classes unmarked) uni) (classes unmarked) gc nm uni
    (next_mark emitted - 2 * (gc + 1)) pf lead.

Lemma marked_runs at_ :
  at_ <= length (units inp) -> uni = true \/ has_lookbehind n = false ->
  exists r d, bt marked inp false 0 at_ (initial_caps marked at_) r d /\
    slots_match gc at_ (snd <$> r) (head (paths inp uni n false (start_state gc at_))).
Proof.
  intros Hat Hsafe. destruct (unmarked_runs at_ Hat) as (r & d & Hb & Hs).
  assert (uni = true \/ uni = false /\ has_lookbehind n = false) as [Eu|[Eu Hlb]]
    by (destruct Hsafe; [auto|]; destruct (decide (uni = true)); [auto|]; right; split; [by apply not_true_is_false|done]).
  - exists r, d. split; [|done]. unfold marked. rewrite mark_nothing by done. exact Hb.
  - assert (Hm : code_point_mode inp = false) by congruence.
    destruct (proj1 (possessive_sim (insns unmarked) (classes unmarked) gc nm uni
      (next_mark emitted - 2 * (gc + 1)) pf pf lead lead inp Hunits Hm Eu unmarked_final
      (fun pc neg behind entry => unmarked_forward pc neg behind entry Hlb)) _ _ _ _ _ _ Hb eq_refl)
      as (d' & _ & Hb').
    by exists r, d'.
Qed.
End Top.

(** ** The theorem on lowered programs *)

Lemma lower_marked `{Icu} parsed flags :
  exists pf lead, lower parsed flags =
    marked (root parsed) (parsed_group_count parsed) (map (default []) (parsed_group_names parsed))
      (is_unicode_mode flags) pf lead.
Proof.
  unfold lower, marked, unmarked, passed. cbv zeta. destruct (fold_pass _ _ _) as [c i].
  eexists _, _. reflexivity.
Qed.

(** What the theorems ask of a parsed pattern: a well-formed tree whose groups
    are numbered once, and no lookbehind unless in Unicode mode. *)
Record sound_pattern (parsed : Parsed) (flags : Flags) : Prop := mkSound {
  sound_wf : wf_node (is_unicode_mode flags) (parsed_group_count parsed) (root parsed);
  sound_groups : NoDup (capture_indices (root parsed));
  sound_look : is_unicode_mode flags = true \/ has_lookbehind (root parsed) = false
}.

Lemma attempt_total `{Icu} parsed flags inp at_ :
  sound_pattern parsed flags -> wf_units (units inp) -> code_point_mode inp = is_unicode_mode flags ->
  at_ <= length (units inp) ->
  exists needed o,
    slots_match (parsed_group_count parsed) at_ o
      (head (paths inp (is_unicode_mode flags) (root parsed) false
               (start_state (parsed_group_count parsed) at_))) /\
    forall config, (step_bound config <= u64_max)%Z ->
      (Z.of_nat needed <= step_bound config ->
       settles (attempt (lower parsed flags) inp at_ config) (Ok o))%Z /\
      (0 <= step_bound config < u64_max -> step_bound config < Z.of_nat needed ->
       settles (attempt (lower parsed flags) inp at_ config) (Err StepLimitExceeded))%Z.
Proof.
  intros [Hwf Hnd Hsafe] Hu Hm Hat. destruct (lower_marked parsed flags) as (pf & lead & ->).
  destruct (marked_runs (root parsed) (parsed_group_count parsed)
    (map (default []) (parsed_group_names parsed)) (is_unicode_mode flags) pf lead inp Hu Hm Hwf Hnd at_ Hat Hsafe)
    as (r & d & Hb & Hs).
  exists (S d), (snd <$> r). split; [exact Hs|]. intros config Hc.
  by apply (attempt_sim _ _ _ config r d Hb).
Qed.

(** ** A concrete pattern: [/(a|ab)(c|bcd)/] *)

Definition demo_parsed : Parsed :=
  Eval vm_compute in
    match @parse ascii_icu (chars "(a|ab)(c|bcd)") flags_default with
    | Ok p => p
    | _ => mkParsed Node.Empty 0 []
    end.

Definition demo_text : list Z := Eval vm_compute in chars "xabcd".

Lemma demo_sound : sound_pattern demo_parsed flags_default.
Proof.
  split.
  - vm_compute. repeat split; try discriminate; lia.
  - apply (bool_decide_unpack _). vm_compute. exact I.
  - by right.
Qed.

Lemma demo_units : wf_units demo_text.
Proof. repeat constructor; vm_compute; done. Qed.

(** ** Properties *)


