(* ===== verification/RunSkip.v ===== *)
(** * The leading-run skip

    After a failed attempt on a program whose first consumer is a possessive
    repeat with a positive minimum, [Matches::next] jumps over the whole run of
    units the repeat can take.  This is sound when nothing depends on where in
    the run the attempt starts: no backreference (captures are never read), no
    loop mark set before the run, and a prefilter that tells exactly the units of
    the repeat ([run_skip_safe], a decidable check of the program).  [Findings]
    shows that without these conditions matches are lost. *)

From S2P Require Import Prelude Unicode Classes Program Exec Api Backtrack Lower Spec Simulate Leaves Passes Possessive FirstSet.

(** ** The check *)

(** The slots of the groups, before the loop marks. *)
Definition mark_base (p : Program) : nat := 2 * (group_count p + 1).

(** The instructions whose effect does not depend on the captures. *)
Definition capture_blind (base : nat) (i : Insn) : bool :=
  match i with
  | Insn.BackRef _ _ => false
  | Insn.CheckProgress s => base <=? s
  | _ => true
  end.

(** The repeat that leads the program, behind saves, clears and jumps only. *)
Fixpoint lead_atom (fuel : nat) (base : nat) (l : list Insn) (pc : nat) : option (nat * RepeatAtom * Z) :=
  match fuel with
  | 0 => None
  | S fuel =>
      match l !! pc with
      | Some (Insn.Save s) => if s <? base then lead_atom fuel base l (pc + 1) else None
      | Some (Insn.ClearCapture _) => lead_atom fuel base l (pc + 1)
      | Some (Insn.Jump t) => lead_atom fuel base l t
      | Some (Insn.Repeat atom min true true) => if (1 <=? min)%Z then Some (pc, atom, min) else None
      | _ => None
      end
  end.

Definition exact_atom (a : RepeatAtom) : bool :=
  match a with AtomChar _ ic | AtomClass _ _ ic => negb ic | AtomAny _ => false end.

Definition run_skip_safe (p : Program) (ic : bool) : bool :=
  negb (lead_possessive p) ||
  (negb ic && forallb (capture_blind (mark_base p)) (insns p) &&
   match lead_atom (length (insns p) + 1) (mark_base p) (insns p) 0 with
   | Some (_, atom, _) => exact_atom atom
   | None => false
   end).

(** ** Captures do not matter *)

Section Blind.
Context `{Icu}.
Variables (prog : Program) (inp : Input).
Local Abbreviation base := (mark_base prog).
Hypothesis Hblind : forallb (capture_blind base) (insns prog) = true.

(** Slots that differ at most in the groups. *)
Definition marks_agree (caps caps' : Caps) : Prop :=
  length caps = length caps' /\ forall s, base <= s -> caps !! s = caps' !! s.

Lemma marks_agree_insert caps caps' s v : marks_agree caps caps' -> marks_agree (<[s := v]> caps) (<[s := v]> caps').
Proof.
  intros [Hl Hs]. split; [by rewrite !length_insert|]. intros s' Hs'. destruct (decide (s' = s)) as [->|Hne].
  - destruct (decide (s < length caps)); [by rewrite !list_lookup_insert_eq by lia|].
    rewrite !list_insert_ge by lia. by apply Hs.
  - rewrite !list_lookup_insert_ne by done. by apply Hs.
Qed.

Lemma marks_agree_low caps caps' s v v' : s < base -> marks_agree caps caps' ->
  marks_agree (<[s := v]> caps) (<[s := v']> caps').
Proof.
  intros Hb [Hl Hs]. split; [by rewrite !length_insert|]. intros s' Hs'.
  rewrite !list_lookup_insert_ne by lia. by apply Hs.
Qed.

Definition results_agree (r r' : option (nat * Caps)) : Prop :=
  match r, r' with
  | Some (p, c), Some (p', c') => p = p' /\ marks_agree c c'
  | None, None => True
  | _, _ => False
  end.

Lemma blind_insn pc i : insns prog !! pc = Some i -> capture_blind base i = true.
Proof.
  intros Hi. apply (proj1 (forallb_forall _ _) Hblind), list_elem_of_In, list_elem_of_lookup. eauto.
Qed.

Lemma simple_insn_blind i bw pos caps caps' r :
  capture_blind base i = true -> marks_agree caps caps' -> simple_insn prog inp i bw pos caps = Some r ->
  exists r', simple_insn prog inp i bw pos caps' = Some r' /\ results_agree r r'.
Proof.
  intros Hb Ha Hs. pose proof Ha as [Hl Hm].
  destruct i as [cp ic|k neg ic|sq|da|atom mn g ps| |t|x y|s|g|s|s|gs ic|ml|ml|iv ic|neg bh en| |];
    cbn [simple_insn capture_blind] in *; try done; rewrite <- ?Hl;
    try (apply Nat.leb_le in Hb; rewrite <- (Hm _ Hb)); repeat case_match; simplify_eq/=;
    try (eexists; split; [reflexivity|]); try (by eauto using marks_agree_insert).
  all: try (match goal with |- results_agree (_ <$> ?o) _ => by destruct o end).
  all: try (by split; eauto using marks_agree_insert).
Qed.

Lemma blind_sim :
  (forall bw pc pos caps r d, bt prog inp bw pc pos caps r d -> forall caps', marks_agree caps caps' ->
     exists r', bt prog inp bw pc pos caps' r' d /\ results_agree r r') /\
  (forall bw pc ps caps r d, bt_list prog inp bw pc ps caps r d -> forall caps', marks_agree caps caps' ->
     exists r', bt_list prog inp bw pc ps caps' r' d /\ results_agree r r').
Proof.
  apply bt_mutind.
  - intros bw pc pos caps Hi Hlen caps' Ha. eexists. split.
    + apply bt_match; [done|]. by rewrite <- (proj1 Ha).
    + split; [done|]. by apply marks_agree_insert.
  - intros bw pc pos caps Hi caps' Ha. eexists. split; [by apply bt_look_match|]. done.
  - intros bw pc pos caps i pos' caps1 r d Hi Hs _ IH caps' Ha.
    destruct (simple_insn_blind i bw pos caps caps' _ (blind_insn _ _ Hi) Ha Hs) as ([[q c]|] & Hs' & Hr); [|done].
    destruct Hr as [<- Hc]. destruct (IH c Hc) as (r' & Hb & Hr'). exists r'. split; [by eapply bt_next|done].
  - intros bw pc pos caps i Hi Hs caps' Ha. exists None. split; [|done]. eapply bt_fail; [exact Hi|].
    destruct Hs as [Hs|Hs]; [left|by right].
    destruct (simple_insn_blind i bw pos caps caps' _ (blind_insn _ _ Hi) Ha Hs) as ([[q c]|] & Hs' & Hr); done.
  - intros bw pc pos caps i pc1 pos1 alts x d Hi Hc _ IH caps' Ha. destruct (IH caps' Ha) as ([x'|] & Hb & Hr); [|by destruct x].
    exists (Some x'). split; [by eapply bt_hit|done].
  - intros bw pc pos caps i pc1 pos1 pc2 ps r d1 d2 Hi Hc _ IH1 _ IH2 caps' Ha.
    destruct (IH1 caps' Ha) as ([x'|] & Hb1 & Hr1); [done|]. destruct (IH2 caps' Ha) as (r' & Hb2 & Hr2).
    exists r'. split; [by eapply bt_miss|done].
  - intros bw pc pos caps neg behind entry rl dl u r d Hi _ IH1 Hv _ IH2 caps' Ha.
    destruct (IH1 caps' Ha) as (rl' & Hb1 & Hr1).
    assert (Hu : exists u', look_verdict neg (snd <$> rl') caps' = Some u' /\ marks_agree u u').
    { destruct neg, rl as [[q c]|], rl' as [[q' c']|]; simpl in *; try done; simplify_eq; eexists; (split; [done|]); [done|apply Hr1]. }
    destruct Hu as (u' & Hv' & Hu). destruct (IH2 u' Hu) as (r' & Hb2 & Hr2).
    exists r'. split; [by eapply bt_look_holds|done].
  - intros bw pc pos caps neg behind entry rl dl Hi _ IH1 Hv caps' Ha. destruct (IH1 caps' Ha) as (rl' & Hb1 & Hr1).
    exists None. split; [|done]. eapply bt_look_fails; [done|exact Hb1|].
    by destruct neg, rl as [[q c]|], rl' as [[q' c']|].
  - intros bw pc caps caps' Ha. exists None. split; [constructor|done].
  - intros bw pc p ps caps x d _ IH caps' Ha. destruct (IH caps' Ha) as ([x'|] & Hb & Hr); [|by destruct x].
    exists (Some x'). split; [by constructor|done].
  - intros bw pc p ps caps r d1 d2 _ IH1 _ IH2 caps' Ha.
    destruct (IH1 caps' Ha) as ([x'|] & Hb1 & Hr1); [done|]. destruct (IH2 caps' Ha) as (r' & Hb2 & Hr2).
    exists r'. split; [by apply btl_miss|done].
Qed.
End Blind.

(** ** The semantics is deterministic *)

Section Deterministic.
Context `{Icu}.
Variables (prog : Program) (inp : Input).

Lemma simple_not_choice i bw pc pos caps r : simple_insn prog inp i bw pos caps = Some r -> choice_insn prog inp i bw pc pos = None.
Proof. by destruct i. Qed.

(** Invert a second run: the instruction at [pc] settles which rule it used. *)
Ltac bt_inv Hb :=
  inversion Hb; subst; simplify_eq/=; try done;
  repeat match goal with
  | E : _ \/ _ |- _ => destruct E as [E|E]
  | E : simple_insn _ _ ?i ?bw ?pos _ = Some _, E' : choice_insn _ _ ?i ?bw ?pc ?pos = Some _ |- _ =>
      rewrite (simple_not_choice i bw pc pos _ _ E) in E'; discriminate E'
  end; simplify_eq/=; try done.

Lemma bt_det :
  (forall bw pc pos caps r d, bt prog inp bw pc pos caps r d ->
     forall r' d', bt prog inp bw pc pos caps r' d' -> r' = r) /\
  (forall bw pc ps caps r d, bt_list prog inp bw pc ps caps r d ->
     forall r' d', bt_list prog inp bw pc ps caps r' d' -> r' = r).
Proof.
  apply bt_mutind.
  - intros bw pc pos caps Hi Hlen r' d' Hb. bt_inv Hb.
  - intros bw pc pos caps Hi r' d' Hb. bt_inv Hb.
  - intros bw pc pos caps i pos' caps1 r d Hi Hs _ IH r' d' Hb. bt_inv Hb. eauto.
  - intros bw pc pos caps i Hi Hs r' d' Hb. bt_inv Hb.
  - intros bw pc pos caps i pc1 pos1 alts x d Hi Hc _ IH r' d' Hb. bt_inv Hb; [by eapply IH|].
    match goal with B : bt _ _ _ _ _ _ None _ |- _ => by apply IH in B end.
  - intros bw pc pos caps i pc1 pos1 pc2 ps r d1 d2 Hi Hc _ IH1 _ IH2 r' d' Hb. bt_inv Hb; [|by eapply IH2].
    match goal with B : bt _ _ _ _ _ _ (Some _) _ |- _ => by apply IH1 in B end.
  - intros bw pc pos caps neg behind entry rl dl u r d Hi _ IH1 Hv _ IH2 r' d' Hb. bt_inv Hb;
      match goal with B : bt _ _ behind entry _ _ _ _ |- _ => apply IH1 in B; subst end; [|congruence].
    simplify_eq. by eapply IH2.
  - intros bw pc pos caps neg behind entry rl dl Hi _ IH1 Hv r' d' Hb. bt_inv Hb;
      match goal with B : bt _ _ behind entry _ _ _ _ |- _ => apply IH1 in B; subst end; congruence.
  - intros bw pc caps r' d' Hb. by inversion Hb.
  - intros bw pc p ps caps x d _ IH r' d' Hb. inversion Hb; subst; [by eapply IH|].
    match goal with B : bt _ _ _ _ _ _ None _ |- _ => by apply IH in B end.
  - intros bw pc p ps caps r d1 d2 _ IH1 _ IH2 r' d' Hb. inversion Hb; subst; [|by eapply IH2].
    match goal with B : bt _ _ _ _ _ _ (Some _) _ |- _ => by apply IH1 in B end.
Qed.
End Deterministic.

(** ** Every start in the run fails *)

Section Run.
Context `{Icu}.
Variables (prog : Program) (inp : Input).
Local Abbreviation base := (mark_base prog).

Lemma bt_save pc s p c r d : insns prog !! pc = Some (Insn.Save s) -> bt prog inp false pc p c r d ->
  bt prog inp false (pc + 1) p (<[s := Some p]> c) r d.
Proof.
  intros Hi Hb. inversion Hb; subst; simplify_eq/=; try done.
  - destruct (_ && _); by simplify_eq.
  - match goal with E : _ \/ _ |- _ => destruct E as [E|E] end; [destruct (_ && _)|]; done.
Qed.

Lemma bt_clear pc g p c r d : insns prog !! pc = Some (Insn.ClearCapture g) -> bt prog inp false pc p c r d ->
  bt prog inp false (pc + 1) p (<[2 * g + 1 := None]> (<[2 * g := None]> c)) r d.
Proof.
  intros Hi Hb. inversion Hb; subst; simplify_eq; cbn [simple_insn choice_insn] in *; try done.
  - destruct (_ <? _); by simplify_eq.
  - match goal with E : _ \/ _ |- _ => destruct E as [E|E] end; [destruct (_ <? _)|]; done.
Qed.

Lemma bt_jump pc t p c r d : insns prog !! pc = Some (Insn.Jump t) -> bt prog inp false pc p c r d ->
  exists d', bt prog inp false t p c r d'.
Proof.
  intros Hi Hb. inversion Hb; subst; simplify_eq/=; try done; [|by eauto|].
  - match goal with E : _ \/ _ |- _ => by destruct E end.
  - match goal with B : bt_list _ _ _ _ [] _ _ _ |- _ => inversion B; subst end. eauto.
Qed.

(** Two attempts go through the lead in lockstep. *)
Lemma lead_lockstep fuel pc rpc atom min : lead_atom fuel base (insns prog) pc = Some (rpc, atom, min) ->
  insns prog !! rpc = Some (Insn.Repeat atom min true true) /\ (1 <= min)%Z /\
  forall p q c c' r r' d d', bt prog inp false pc p c r d -> bt prog inp false pc q c' r' d' ->
    marks_agree prog c c' ->
    exists c1 c1' e e', bt prog inp false rpc p c1 r e /\ bt prog inp false rpc q c1' r' e' /\ marks_agree prog c1 c1'.
Proof.
  revert pc. induction fuel as [|fuel IH]; intros pc Hl; [done|]. cbn [lead_atom] in Hl.
  destruct (insns prog !! pc) as [i|] eqn:Ei; [|done].
  destruct i as [cp ic|k neg ic|sq|da|atom' mn [] []| |t|x y|s|g|s|s|gs ic|ml|ml|iv ic|neg bh en| |]; try done.
  - destruct (1 <=? mn)%Z eqn:E; [|done]. simplify_eq. apply Z.leb_le in E.
    split; [done|]. split; [done|]. intros p q c c' r r' d d' H1 H2 Ha. eauto 10.
  - destruct (IH t Hl) as (Hr & Hm & Hlock). split; [done|]. split; [done|]. intros p q c c' r r' d d' H1 H2 Ha.
    apply (bt_jump _ _ _ _ _ _ Ei) in H1 as [e1 H1]. apply (bt_jump _ _ _ _ _ _ Ei) in H2 as [e2 H2]. by eapply Hlock.
  - destruct (s <? base) eqn:Es; [|done]. apply Nat.ltb_lt in Es.
    destruct (IH (pc + 1) Hl) as (Hr & Hm & Hlock). split; [done|]. split; [done|].
    intros p q c c' r r' d d' H1%(bt_save _ _ _ _ _ _ Ei) H2%(bt_save _ _ _ _ _ _ Ei) Ha.
    eapply Hlock; [exact H1|exact H2|]. by apply marks_agree_low.
  - destruct (IH (pc + 1) Hl) as (Hr & Hm & Hlock). split; [done|]. split; [done|].
    intros p q c c' r r' d d' H1%(bt_clear _ _ _ _ _ _ Ei) H2%(bt_clear _ _ _ _ _ _ Ei) Ha.
    eapply Hlock; [exact H1|exact H2|]. by do 2 apply marks_agree_insert.
Qed.

(** Starts in one run scan to the same end. *)
Lemma scan_run tst p q : p <= q <= length (units inp) ->
  (forall i, p <= i < q -> exists u, units inp !! i = Some u /\ tst u = true) ->
  scan inp tst false p = scan inp tst false q.
Proof.
  intros Hpq Hrun. remember (q - p) as k eqn:Hk. revert p Hpq Hrun Hk. induction k as [|k IH]; intros p Hpq Hrun Hk.
  - by replace q with p by lia.
  - destruct (Hrun p ltac:(lia)) as (u & Hu & Ht). rewrite scan_step by lia.
    unfold unit_at. rewrite Hu, Ht. unfold step. apply IH; [lia| |lia]. intros i Hi. apply Hrun. lia.
Qed.

Lemma lead_run_fails rpc atom min tst p q x d d' :
  forallb (capture_blind base) (insns prog) = true ->
  lead_atom (length (insns prog) + 1) base (insns prog) 0 = Some (rpc, atom, min) ->
  atom_test prog atom = Ok tst -> p <= q <= length (units inp) ->
  (forall i, p <= i < q -> exists u, units inp !! i = Some u /\ tst u = true) ->
  bt prog inp false 0 p (initial_caps prog p) None d ->
  bt prog inp false 0 q (initial_caps prog q) (Some x) d' -> False.
Proof.
  intros Hblind Hl Ht Hpq Hrun Hp Hq. destruct (lead_lockstep _ _ _ _ _ Hl) as (Hi & Hmin & Hlock).
  destruct (Hlock _ _ _ _ _ _ _ _ Hp Hq) as (c & c' & e & e' & Hp' & Hq' & Ha).
  { apply marks_agree_low; [unfold mark_base; lia|done]. }
  pose proof (scan_run tst p q Hpq Hrun) as Hend.
  pose proof (scan_loop_dir inp (S (length (units inp))) tst false q) as Hge. fold (scan inp tst false q) in Hge.
  assert (Hchoice : forall s, choice_insn prog inp (Insn.Repeat atom min true true) false rpc s =
    Some (if (Z.of_nat (abs_diff s (scan inp tst false s)) <? min)%Z then None
          else Some (rpc + 1, scan inp tst false s, (rpc + 1, [])))).
  { intros s. cbn [choice_insn]. rewrite Ht. unfold repeat_positions. by destruct (_ <? _)%Z. }
  assert (Hq1 : (min <= Z.of_nat (abs_diff q (scan inp tst false q)))%Z /\
    exists dq, bt prog inp false (rpc + 1) (scan inp tst false q) c' (Some x) dq).
  { inversion Hq'; subst; simplify_eq; try done; rewrite Hchoice in *;
      destruct (_ <? _)%Z eqn:E; simplify_eq; apply Z.ltb_ge in E; (split; [done|]); [by eauto|].
    match goal with B : bt_list _ _ _ _ [] _ _ _ |- _ => by inversion B end. }
  destruct Hq1 as [Hge2 [dq Hq1]].
  assert (Hp1 : exists dp, bt prog inp false (rpc + 1) (scan inp tst false q) c None dp).
  { inversion Hp'; subst; simplify_eq; try done; rewrite ?Hchoice, ?Hend in *;
      rewrite (proj2 (Z.ltb_ge _ _)) in * by (unfold abs_diff in *; lia); simplify_eq; [|by eauto].
    match goal with E : _ \/ _ |- _ => by destruct E end. }
  destruct Hp1 as [dp Hp1].
  destruct (proj1 (blind_sim prog inp Hblind) _ _ _ _ _ _ Hp1 c' Ha) as ([?|] & Hb & Hr); [done|].
  by apply (proj1 (bt_det prog inp) _ _ _ _ _ _ Hb) in Hq1.
Qed.
End Run.

(** ** The prefilter tells the units of the lead repeat *)

Section LeadSet.
Context `{Icu}.
Variable prog : Program.
Local Abbreviation l := (insns prog).
Local Abbreviation cls := (classes prog).
Hypothesis Hok : forall pc i, l !! pc = Some i -> insn_ok (prog_unicode prog) i.
Hypothesis Hfinal : Forall (fun s => exists s0, s = finalize_ascii s0 /\ wf_set (code_points s0)) cls.

Lemma lead_first_loop fuel base pc rpc atom min fuel1 visited out canon out' canon' :
  lead_atom fuel base l pc = Some (rpc, atom, min) ->
  first_loop fuel1 l cls [pc] visited out canon = Some (out', canon') ->
  out' = out \/ first_insn cls rpc (Insn.Repeat atom min true true) out canon = Some ([], out', canon').
Proof.
  revert pc fuel1 visited. induction fuel as [|fuel IH]; intros pc fuel1 visited Hl Hf; [done|].
  cbn [lead_atom] in Hl. destruct fuel1 as [|fuel1]; [done|]. cbn [first_loop] in Hf.
  destruct (l !! pc) as [i|]; [|done]. destruct (bool_decide _).
  { destruct fuel1; [done|]. simpl in Hf. left. congruence. }
  destruct i as [cp ic|k neg ic|sq|da|atom' mn [] []| |t|x y|s|g|s|s|gs ic|ml|ml|iv ic|neg bh en| |]; try done.
  - destruct (1 <=? mn)%Z eqn:E; [|done]. simplify_eq. apply Z.leb_le in E. right.
    destruct (first_insn cls rpc _ out canon) as [[[more out1] canon1]|] eqn:Ef; [|done].
    assert (more = []) as ->.
    { cbn [first_insn] in Ef. rewrite (proj2 (Z.eqb_neq min 0)) in Ef by lia.
      destruct atom; repeat case_match; by simplify_eq. }
    destruct fuel1; [done|]. simpl in Hf. congruence.
  - exact (IH _ _ _ Hl Hf).
  - destruct (s <? base); [|done]. exact (IH _ _ _ Hl Hf).
  - exact (IH _ _ _ Hl Hf).
Qed.

Lemma lead_set_exact rpc atom min base set canon :
  lead_atom (length l + 1) base l 0 = Some (rpc, atom, min) -> l !! rpc = Some (Insn.Repeat atom min true true) ->
  exact_atom atom = true ->
  compute_first_set l cls false (prog_unicode prog) = Some (set, canon) ->
  canon = false /\ wf_set set /\ exists tst, atom_test prog atom = Ok tst /\
    forall u, (0 <= u)%Z -> contains set u = true -> tst u = true.
Proof.
  intros Hl Hi Hex Hc. unfold compute_first_set in Hc.
  destruct (first_loop _ _ _ _ _ _ _) as [[out needs]|] eqn:Ef; [|done].
  destruct (cps_is_empty out) eqn:Ee; [done|].
  destruct (lead_first_loop _ _ _ _ _ _ _ _ _ _ _ _ Hl Ef) as [->|Hf]; [done|].
  pose proof (Hok _ _ Hi) as (_ & _ & Hat). cbn [first_insn] in Hf.
  destruct atom as [cp ic|c neg ic|da]; simpl in Hex; [| |done]; apply negb_true_iff in Hex; subst ic.
  - simplify_eq. simpl in Hc. simplify_eq. split; [done|].
    split; [apply insert_wf; [done|lia]|]. eexists. split; [reflexivity|].
    intros u Hu. rewrite insert_members by done. unfold char_eq. simpl.
    by intros ->.
  - unfold first_class in Hf. destruct (cls !! c) as [s|] eqn:Ec; [|done].
    destruct (strings s) eqn:Es; [|done]. simplify_eq. simpl in Hc. simplify_eq. split; [done|].
    pose proof (contains_finalized s) as Hfs. pose proof (proj1 (Forall_lookup _ _) Hfinal c s Ec) as Hs.
    destruct (Hfs 0%Z Hs ltac:(lia)) as (Hw & _ & _).
    split; [destruct neg; apply (union_with_correct cps_new _ 0); try done; by apply (negate_correct _ 0)|].
    eexists. split; [cbn [atom_test]; rewrite (proj2 (index_Ok cls c s) Ec); reflexivity|].
    intros u Hu. cbv beta. destruct (Hfs u Hs Hu) as (_ & _ & ->).
    destruct (negate_correct (code_points s) u Hw) as [Hwn Hn].
    destruct neg.
    + rewrite (proj2 (union_with_correct cps_new _ u wf_set_new Hwn)). simpl. rewrite Hn. intros Hin. apply andb_prop in Hin as [_ Hin]. by rewrite xorb_true_r.
    + rewrite (proj2 (union_with_correct cps_new _ u wf_set_new Hw)). by rewrite xorb_false_r.
Qed.
End LeadSet.
