(* ===== verification/Search.v ===== *)
(** * The scan

    [Matches::next] over the public API: skip with the prefilter, attempt,
    advance.  The prefilter never skips a position where the reference semantics
    has a match, and the scan returns the leftmost match of the specification.
    The leading-run skip is covered where [run_skip_safe] holds. *)

From S2P Require Import Prelude Unicode Classes Program Parser Lower Exec Api Backtrack Spec Simulate Leaves Emit Loops Passes Possessive FirstSet Correctness RunSkip.

(** ** The prefilter built from a first set *)

Section Prefilter.
Context `{IcuLaws}.

Lemma ir_fold_range c uni : (0 <= c <= MAX_CP)%Z -> (0 <= ir_fold c uni <= MAX_CP)%Z.
Proof.
  intros Hc. unfold ir_fold. destruct uni.
  - unfold fold_unicode. destruct (is_scalar c) eqn:E; [|done].
    pose proof (simple_fold_scalar c E) as Hs. unfold is_scalar in Hs. boolprop. unfold MAX_CP. lia.
  - unfold canonicalize, MAX_CP in *. destruct (in_range 65 90 c) eqn:E; boolprop; lia.
Qed.

Lemma fold_left_insert_map (f : Z -> Z) l s :
  fold_left (fun out cp => insert out (f cp)) l s = fold_left insert (map f l) s.
Proof. revert s. induction l as [|x l IH]; intros s; simpl; auto. Qed.

Lemma canonicalize_set_members out uni set :
  wf_set out -> canonicalize_set out uni = Some set ->
  wf_set set /\ forall m, contains out m = true -> contains set (ir_fold m uni) = true.
Proof.
  intros Hw Hc. unfold canonicalize_set in Hc. destruct (within_max_fold _ _); [|done]. injection Hc as <-.
  rewrite fold_left_insert_map. set (l := flat_map _ _).
  assert (Hmem : forall m, In m l <-> contains out m = true).
  { intros m. rewrite contains_in_ranges by done. unfold in_ranges, l. rewrite in_flat_map, existsb_exists.
    split; intros (r & Hr & Hm); exists r; (split; [done|]).
    - apply list_elem_of_In, range_list_elem in Hm. by apply in_range_spec.
    - apply list_elem_of_In, range_list_elem. by apply in_range_spec in Hm. }
  assert (Hall : Forall (fun x => 0 <= x <= MAX_CP)%Z (map (fun cp => ir_fold cp uni) l)).
  { apply Forall_forall. intros x Hx. apply list_elem_of_In, in_map_iff in Hx as (m & <- & Hm).
    apply ir_fold_range. apply Hmem in Hm. by apply contains_bounds in Hm. }
  split; [by apply insert_all_wf|]. intros m Hm. rewrite insert_all_members by done.
  apply orb_true_iff. right. apply existsb_In_Z, in_map_iff. exists m. split; [done|]. by apply Hmem.
Qed.

Lemma prefilter_starts prog out set (canon : bool) cp :
  wf_set out -> (if canon then canonicalize_set out (prog_unicode prog) = Some set else set = out) ->
  (0 <= cp <= MAX_CP)%Z -> starts prog out canon cp ->
  wf_set set /\
  cp_may_start (prefilter_build set (if canon then Some (prog_unicode prog) else None)) cp = true.
Proof.
  intros Hw Hset Hcp (m & Hm & Hor). destruct canon.
  - destruct (canonicalize_set_members out _ set Hw Hset) as [Hws Hmem]. split; [done|].
    assert (Hf : canon_of (Some (prog_unicode prog)) cp = ir_fold cp (prog_unicode prog))
      by (unfold canon_of, ir_fold; by destruct (prog_unicode prog)).
    rewrite cp_may_start_exact; rewrite ?Hf; [|done|by apply ir_fold_range].
    destruct Hor as [->|[_ <-]]; by apply Hmem.
  - subst set. split; [done|]. rewrite cp_may_start_exact by (done || (simpl; lia)). simpl.
    destruct Hor as [->|[? _]]; done.
Qed.
End Prefilter.

(** ** Lowered programs *)

Section Lowered.
Context `{IcuLaws}.
Variables (parsed : Parsed) (flags : Flags) (inp : Input).
Local Abbreviation uni := (is_unicode_mode flags).
Local Abbreviation gc := (parsed_group_count parsed).
Local Abbreviation prog := (lower parsed flags).

Hypothesis Hsound : sound_pattern parsed flags.
Hypothesis Hunits : wf_units (units inp).
Hypothesis Hmode : code_point_mode inp = uni.

(** The first way the pattern matches at a position. *)
Definition hit (at_ : nat) : option State := head (paths inp uni (root parsed) false (start_state gc at_)).

Lemma baked_ok lb i0 : allowed uni lb i0 -> insn_ok uni (baked i0).
Proof.
  intros [Hf Hi]. destruct i0 as [cp ic|c neg []|run|da|[cp ic|c neg []|da] mn g p| | | | | | | | | | | | | |];
    simpl in *; intuition.
Qed.

Lemma set_possessive_ok i : insn_ok uni i -> insn_ok uni (set_possessive i).
Proof. by destruct i. Qed.

Lemma lowered_ok pc i : insns prog !! pc = Some i -> insn_ok (prog_unicode prog) i.
Proof.
  destruct (lower_marked parsed flags) as (pf & lead & ->).
  set (u := unmarked (root parsed) gc (map (default []) (parsed_group_names parsed)) uni pf lead).
  change (insns (marked (root parsed) gc _ uni pf lead)) with (mark_possessive (insns u) (classes u) uni).
  unfold mark_possessive. rewrite list_lookup_imap. destruct (insns u !! pc) as [i1|] eqn:Ei; simpl; [|done]. intros [= <-].
  assert (Hi1 : insn_ok uni i1).
  { destruct (unmarked_allowed (root parsed) gc (map (default []) (parsed_group_names parsed)) uni pf lead
      (sound_wf _ _ Hsound) pc i1 Ei) as (i0 & Hi0 & ->).
    eapply baked_ok. by eapply (ci_allowed _ _ _ (emitted_inv _ _ _ (sound_wf _ _ Hsound))). }
  destruct (is_possessifiable _ _ _ _ _); [by apply set_possessive_ok|done].
Qed.

Lemma lowered_final :
  Forall (fun s => exists s0, s = finalize_ascii s0 /\ wf_set (code_points s0)) (classes prog).
Proof.
  destruct (lower_marked parsed flags) as (pf & lead & ->).
  apply (unmarked_final _ _ _ _ pf lead (sound_wf _ _ Hsound)).
Qed.

Lemma lowered_prefilter pf :
  prefilter prog = Some pf ->
  exists set canon, compute_first_set (insns prog) (classes prog) (ignore_case flags) uni = Some (set, canon) /\
    pf = prefilter_build set (if canon then Some uni else None).
Proof.
  unfold lower. cbv zeta. destruct (fold_pass _ _ _) as [c i]. cbn [prefilter insns classes].
  destruct (compute_first_set _ _ _ _) as [[set []]|]; intros [= <-]; eauto.
Qed.

Lemma hit_bt at_ st :
  at_ <= length (units inp) -> hit at_ = Some st ->
  exists x d, bt prog inp false 0 at_ (initial_caps prog at_) (Some x) d.
Proof.
  intros Hat Hh. destruct (lower_marked parsed flags) as (pf & lead & ->).
  destruct Hsound as [Hwf Hnd Hsafe].
  destruct (marked_runs (root parsed) gc (map (default []) (parsed_group_names parsed)) uni pf lead inp
    Hunits Hmode Hwf Hnd at_ Hat Hsafe) as (r & d & Hb & Hs).
  fold (hit at_) in Hs. rewrite Hh in Hs. destruct r as [x|]; [|done]. eauto.
Qed.

Lemma miss_bt at_ :
  at_ <= length (units inp) -> hit at_ = None ->
  exists d, bt prog inp false 0 at_ (initial_caps prog at_) None d.
Proof.
  intros Hat Hh. destruct (lower_marked parsed flags) as (pf & lead & ->).
  destruct Hsound as [Hwf Hnd Hsafe].
  destruct (marked_runs (root parsed) gc (map (default []) (parsed_group_names parsed)) uni pf lead inp
    Hunits Hmode Hwf Hnd at_ Hat Hsafe) as (r & d & Hb & Hs).
  fold (hit at_) in Hs. rewrite Hh in Hs. destruct r as [x|]; [done|]. eauto.
Qed.

Lemma hit_may_start pf at_ st :
  prefilter prog = Some pf -> at_ <= length (units inp) -> hit at_ = Some st ->
  exists set canon cp w, pf = prefilter_build set canon /\ wf_set set /\ decode inp at_ = Some (cp, w) /\
    (0 <= cp <= MAX_CP)%Z /\ cp_may_start pf cp = true.
Proof.
  intros Hpf Hat Hh. destruct (lowered_prefilter pf Hpf) as (set & canon & Hfs & ->).
  destruct (hit_bt at_ st Hat Hh) as (x & d & Hb).
  assert (Hu : prog_unicode prog = uni) by (by destruct (lower_marked parsed flags) as (pf & lead & ->)).
  destruct (first_set_starts prog inp Hunits (eq_trans Hmode (eq_sym Hu)) lowered_ok lowered_final
    (ignore_case flags) set canon at_ (initial_caps prog at_) x d) as (out & Hw & (cp & w & Hd & Hst) & Hset); [by rewrite Hu|done|].
  pose proof (decode_range inp Hunits at_ cp w Hd) as Hcp.
  destruct (prefilter_starts prog out set canon cp Hw Hset Hcp Hst) as [Hws Hmay].
  exists set, (if canon then Some uni else None), cp, w. by rewrite Hu in Hmay.
Qed.
End Lowered.

(** ** Leftmost *)

Section Leftmost.
Variables (text : list Z) (uni : bool) (hit : nat -> option State).

(** Positions the scan visits from a start. *)
Inductive visits : nat -> nat -> Prop :=
| visits_here p : visits p p
| visits_next p q : visits (advance_scan text p uni) q -> visits p q.

(** The leftmost visited position with a match, if any. *)
Definition leftmost (from : nat) (r : option (nat * State)) : Prop :=
  match r with
  | Some (q, st) => visits from q /\ q <= length text /\ hit q = Some st /\
      forall q', visits from q' -> q' < q -> hit q' = None
  | None => forall q, visits from q -> q <= length text -> hit q = None
  end.

Lemma visits_ge p q : visits p q -> p <= q.
Proof. induction 1 as [|p q _ IH]; [done|]. pose proof (advance_scan_gt text p uni). lia. Qed.

Lemma visits_inv p q : visits p q -> q = p \/ visits (advance_scan text p uni) q.
Proof. inversion 1; auto. Qed.

Lemma leftmost_step p r :
  (p <= length text -> hit p = None) -> leftmost (advance_scan text p uni) r -> leftmost p r.
Proof.
  intros Hp. destruct r as [[q st]|]; simpl.
  - intros (Hv & Hq & Hh & Hl). pose proof (visits_ge _ _ Hv). pose proof (advance_scan_gt text p uni).
    split; [by apply visits_next|]. split; [done|]. split; [done|].
    intros q' [->|Hv']%visits_inv Hlt; [apply Hp; lia|auto].
  - intros Hl q [->|Hv]%visits_inv Hq; auto.
Qed.

Lemma leftmost_hit p st : p <= length text -> hit p = Some st -> leftmost p (Some (p, st)).
Proof.
  intros Hp Hh. split; [constructor|]. split; [done|]. split; [done|].
  intros q' Hv Hlt. apply visits_ge in Hv. lia.
Qed.

Lemma leftmost_past p : length text < p -> leftmost p None.
Proof. intros Hp q Hv Hq. apply visits_ge in Hv. lia. Qed.

(** Jumping over positions without a match to one the scan visits. *)
Lemma leftmost_jump k p r :
  (forall q, p <= q < p + k -> q <= length text -> hit q = None) ->
  (forall u, text !! (p + k) = Some u -> is_low_surrogate u = false) ->
  leftmost (p + k) r -> leftmost p r.
Proof.
  revert p. induction k as [k IH] using lt_wf_ind. intros p Hno Hu Hr.
  destruct k as [|k]; [by rewrite Nat.add_0_r in Hr|].
  apply leftmost_step; [intros Hp; apply Hno; lia|].
  assert (Hadv : advance_scan text p uni = p + 1 \/ (advance_scan text p uni = p + 2 /\ k <> 0)).
  { unfold advance_scan. destruct uni; [|auto]. destruct (text !! p); [|auto].
    destruct (text !! (p + 1)) as [lo|] eqn:El; [|auto]. destruct (is_high_surrogate z); [|auto]. simpl.
    destruct (is_low_surrogate lo) eqn:E; [|auto]. right. split; [done|]. intros ->.
    rewrite (Hu lo El) in E. done. }
  destruct Hadv as [->|[-> Hk]].
  - apply (IH k); [lia| |by replace (p + 1 + k) with (p + S k) by lia|by replace (p + 1 + k) with (p + S k) by lia].
    intros q Hq. apply Hno. lia.
  - apply (IH (k - 1)); [lia| |by replace (p + 2 + (k - 1)) with (p + S k) by lia|
      by replace (p + 2 + (k - 1)) with (p + S k) by lia].
    intros q Hq. apply Hno. lia.
Qed.
End Leftmost.

(** ** [Matches::next] *)

Section Next.
Context `{IcuLaws}.
Variables (parsed : Parsed) (flags : Flags) (text : list Z).
Local Abbreviation uni := (is_unicode_mode flags).
Local Abbreviation gc := (parsed_group_count parsed).
Local Abbreviation prog := (lower parsed flags).
Local Abbreviation inp := (mkInput text (is_unicode_mode flags)).

Hypothesis Hsound : sound_pattern parsed flags.
Hypothesis Hunits : wf_units text.

Definition found : nat -> option State := hit parsed flags inp.

Lemma lowered_unicode : prog_unicode prog = uni.
Proof. by destruct (lower_marked parsed flags) as (pf & lead & ->). Qed.

Lemma first_set_wf pf :
  prefilter prog = Some pf -> exists set canon, pf = prefilter_build set canon /\ wf_set set.
Proof.
  intros Hpf. destruct (lowered_prefilter parsed flags pf Hpf) as (set & canon & Hfs & ->).
  exists set, (if canon then Some uni else None). split; [done|]. unfold compute_first_set in Hfs.
  destruct (first_loop _ _ _ [0] [] cps_new _) as [[out canon']|] eqn:Ef; [|done].
  destruct (first_loop_closed prog (lowered_ok parsed flags Hsound) (lowered_final parsed flags Hsound)
    (2 * length (insns prog) + 2) [0] [] cps_new (ignore_case flags) out canon' wf_set_new) as (V & _ & Hw & _);
    [by intros pc ?%elem_of_nil|exact Ef|].
  destruct (cps_is_empty out); [done|]. destruct canon'; [|by simplify_eq].
  destruct (canonicalize_set out uni) as [out'|] eqn:E; [|done]. destruct (cps_is_empty out'); [done|].
  simplify_eq. by apply (canonicalize_set_members out uni set).
Qed.

Lemma not_found pf pos :
  prefilter prog = Some pf -> (forall cp w, decode inp pos = Some (cp, w) -> cp_may_start pf cp = false) ->
  pos <= length text -> found pos = None.
Proof.
  intros Hpf Hno Hpos. destruct (found pos) as [st|] eqn:E; [|done].
  destruct (hit_may_start parsed flags inp Hsound Hunits eq_refl pf pos st Hpf Hpos E)
    as (set & canon & cp & w & _ & _ & Hd & _ & Hmay). by rewrite (Hno cp w Hd) in Hmay.
Qed.

Lemma position_of_spec u (l : list Z) :
  match position_of u l with
  | Some off => l !! off = Some u /\ forall i, i < off -> l !! i <> Some u
  | None => forall i, l !! i <> Some u
  end.
Proof.
  induction l as [|x l IH]; simpl; [done|]. destruct (x =? u)%Z eqn:E; boolprop.
  - subst. split; [done|]. lia.
  - destruct (position_of u l) as [off|]; simpl.
    + destruct IH as [Ho Hi]. split; [done|]. intros [|i] Hlt; [simpl; congruence|]. apply Hi. lia.
    + intros [|i]; [simpl; congruence|]. apply IH.
Qed.

Lemma decode_bmp pos u w : decode inp pos = Some (u, w) -> (u < 65536)%Z -> text !! pos = Some u.
Proof.
  unfold decode. simpl. intros Hd Hu. destruct (text !! pos) as [hi|]; [|done].
  destruct (uni && is_high_surrogate hi) eqn:E; [|by simplify_eq]. boolprop.
  destruct (text !! (pos + 1)) as [lo|]; [|by simplify_eq].
  destruct (is_low_surrogate lo) eqn:El; [|by simplify_eq]. simplify_eq.
  pose proof (combine_surrogates_bounds hi lo). intuition lia.
Qed.

Lemma single_skip pf set canon u pos r :
  prefilter prog = Some pf -> pf = prefilter_build set canon -> wf_set set -> single pf = Some u ->
  leftmost text uni found (prefilter_skip pf text uni pos) r -> leftmost text uni found pos r.
Proof.
  intros Hpf Heq Hw Hsingle Hr. assert (Hsingle' := Hsingle). rewrite Heq in Hsingle'.
  destruct (single_exact set canon u Hw Hsingle') as (-> & Hu & Hsur & Hmem).
  assert (Hno : forall q, text !! q <> Some u -> q <= length text -> found q = None).
  { intros q Hq Hle. eapply not_found; [done| |done]. intros cp w Hd. subst pf.
    pose proof (decode_dir_cp inp q false cp w Hunits Hd) as Hcp.
    rewrite cp_may_start_exact by (done || (simpl; lia)). simpl. rewrite Hmem. apply Z.eqb_neq. intros ->.
    apply Hq. exact (decode_bmp q u w Hd (proj2 Hu)). }
  assert (Hlow : is_low_surrogate u = false).
  { unfold is_low_surrogate. apply in_range_false. apply in_range_false in Hsur. lia. }
  unfold prefilter_skip in Hr. rewrite Hsingle in Hr.
  destruct (pos <=? length text) eqn:E; boolprop.
  - pose proof (position_of_spec u (drop pos text)) as Hp.
    destruct (position_of u (drop pos text)) as [off|].
    + destruct Hp as [Ho Hi]. rewrite lookup_drop in Ho. apply (leftmost_jump text uni found off); [| |done].
      * intros q Hq. apply Hno. specialize (Hi (q - pos) ltac:(lia)). rewrite lookup_drop in Hi.
        by replace (pos + (q - pos)) with q in Hi by lia.
      * intros v Hv. congruence.
    + apply (leftmost_jump text uni found (length text + 1 - pos)).
      * intros q Hq. apply Hno. specialize (Hp (q - pos)). rewrite lookup_drop in Hp.
        by replace (pos + (q - pos)) with q in Hp by lia.
      * intros v Hv. apply lookup_lt_Some in Hv. lia.
      * by replace (pos + (length text + 1 - pos)) with (length text + 1) by lia.
  - destruct r as [[q st]|]; [|by apply leftmost_past].
    destruct Hr as (Hv & Hq & _). apply visits_ge in Hv. lia.
Qed.

Lemma skip_until_leftmost pf fuel pos r :
  prefilter prog = Some pf ->
  leftmost text uni found (skip_until fuel text uni (cp_may_start pf) pos) r -> leftmost text uni found pos r.
Proof.
  intros Hpf. revert pos. induction fuel as [|fuel IH]; intros pos Hr; simpl in Hr; [done|].
  destruct (decode_at text pos uni) as [[cp w]|] eqn:Ed; [|done].
  destruct (cp_may_start pf cp) eqn:E; [done|]. apply leftmost_step; [|by apply IH].
  apply (not_found pf); [done|]. intros cp' w' Hd. unfold decode_at in Ed. congruence.
Qed.

Lemma prefilter_skip_leftmost pf pos r :
  prefilter prog = Some pf ->
  leftmost text uni found (prefilter_skip pf text uni pos) r -> leftmost text uni found pos r.
Proof.
  intros Hpf Hr. destruct (first_set_wf pf Hpf) as (set & canon & Heq & Hw).
  destruct (single pf) as [u|] eqn:Es; [by eapply single_skip|].
  unfold prefilter_skip in Hr. rewrite Es in Hr. by eapply skip_until_leftmost.
Qed.

Lemma skip_until_ge fuel stop pos : pos <= skip_until fuel text uni stop pos.
Proof.
  revert pos. induction fuel as [|fuel IH]; intros pos; simpl; [done|].
  destruct (decode_at text pos uni) as [[cp w]|]; [|done]. destruct (stop cp); [done|].
  specialize (IH (advance_scan text pos uni)). pose proof (advance_scan_gt text pos uni). lia.
Qed.

Lemma prefilter_skip_ge pf pos : pos <= length text -> pos <= prefilter_skip pf text uni pos.
Proof.
  intros Hp. unfold prefilter_skip. destruct (single pf); [|apply skip_until_ge].
  destruct (pos <=? _); [|lia]. destruct (position_of _ _); lia.
Qed.

(** ** The step after a failed attempt *)

(** With enough fuel the skip stops at the end or where it was told to. *)
Lemma skip_until_stops fuel stop pos : length text <= fuel + pos ->
  match decode_at text (skip_until fuel text uni stop pos) uni with
  | Some (cp, _) => stop cp = true
  | None => True
  end.
Proof.
  revert pos. induction fuel as [|fuel IH]; intros pos Hf; simpl.
  - unfold decode_at, decode. simpl. by rewrite (lookup_ge_None_2 text pos) by lia.
  - destruct (decode_at text pos uni) as [[cp w]|] eqn:Ed; [|by rewrite Ed].
    destruct (stop cp) eqn:E; [by rewrite Ed|]. apply IH. pose proof (advance_scan_gt text pos uni). lia.
Qed.

Lemma prefilter_skip_starts pf pos u : uni = false -> prefilter prog = Some pf ->
  text !! prefilter_skip pf text uni pos = Some u -> cp_may_start pf u = true.
Proof.
  intros Hn Hpf Hu. destruct (first_set_wf pf Hpf) as (set & canon & Heq & Hw).
  pose proof (wf_units_lookup _ _ _ Hunits Hu) as Hr. unfold prefilter_skip in Hu.
  destruct (single pf) as [x|] eqn:Es.
  - destruct (pos <=? length text) eqn:E; [|by rewrite lookup_ge_None_2 in Hu by lia].
    pose proof (position_of_spec x (drop pos text)) as Hp.
    destruct (position_of x (drop pos text)) as [off|]; [|by rewrite lookup_ge_None_2 in Hu by lia].
    destruct Hp as [Ho _]. rewrite lookup_drop, Hu in Ho. injection Ho as ->. rewrite Heq in Es |- *.
    destruct (single_exact set canon x Hw Es) as (-> & Hx & _ & Hmem).
    rewrite cp_may_start_exact by (done || (simpl; unfold MAX_CP; lia)). simpl. by rewrite Hmem, Z.eqb_refl.
  - pose proof (skip_until_stops (length text) (cp_may_start pf) pos ltac:(lia)) as Hs.
    unfold decode_at in Hs. rewrite decode_nonunicode in Hs by (simpl; congruence). simpl in Hs. by rewrite Hu in Hs.
Qed.

Lemma lowered_skip_safe pf : run_skip_safe prog (ignore_case flags) = true -> lead_possessive prog = true ->
  prefilter prog = Some pf ->
  uni = false /\ exists rpc atom mn tst, forallb (capture_blind (mark_base prog)) (insns prog) = true /\
    lead_atom (length (insns prog) + 1) (mark_base prog) (insns prog) 0 = Some (rpc, atom, mn) /\
    atom_test prog atom = Ok tst /\ forall u, (0 <= u <= MAX_CP)%Z -> cp_may_start pf u = true -> tst u = true.
Proof.
  intros Hsafe Hlead Hpf. unfold run_skip_safe in Hsafe. rewrite Hlead in Hsafe. simpl in Hsafe.
  apply andb_prop in Hsafe as [Hsafe Hex]. apply andb_prop in Hsafe as [Hic Hblind]. apply negb_true_iff in Hic.
  destruct (lead_atom _ _ _ _) as [[[rpc atom] mn]|] eqn:Hl; [|done].
  destruct (lead_lockstep prog inp _ _ _ _ _ Hl) as (Hi & _ & _).
  pose proof (lowered_ok parsed flags Hsound _ _ Hi) as (Huni & _). rewrite lowered_unicode in Huni.
  destruct (lowered_prefilter parsed flags pf Hpf) as (set & canon & Hfs & Heq). rewrite Hic in Hfs.
  rewrite <- lowered_unicode in Hfs.
  destruct (lead_set_exact prog (lowered_ok parsed flags Hsound) (lowered_final parsed flags Hsound)
    rpc atom mn _ set canon Hl Hi Hex Hfs) as (-> & Hw & tst & Ht & Hset).
  split; [done|]. exists rpc, atom, mn, tst. split; [done|]. split; [done|]. split; [done|].
  intros u Hu. rewrite Heq, cp_may_start_exact by (done || (simpl; lia)). simpl. apply Hset. lia.
Qed.

(** In the run after a failed attempt every start fails. *)
Lemma run_skip_leftmost pf pos fuel cur r : run_skip_safe prog (ignore_case flags) = true ->
  lead_possessive prog = true -> prefilter prog = Some pf -> pos <= length text -> found pos = None -> pos <= cur ->
  (forall i, pos <= i < cur -> cur <= length text -> exists u, text !! i = Some u /\ cp_may_start pf u = true) ->
  leftmost text uni found (skip_until fuel text uni (fun cp => negb (cp_may_start pf cp)) cur) r ->
  leftmost text uni found cur r.
Proof.
  intros Hsafe Hlead Hpf Hpos Hnone. destruct (lowered_skip_safe pf Hsafe Hlead Hpf)
    as (Huni & rpc & atom & mn & tst & Hblind & Hl & Ht & Htst).
  destruct (miss_bt parsed flags inp Hsound Hunits eq_refl pos Hpos Hnone) as [d Hb].
  revert cur. induction fuel as [|fuel IH]; intros cur Hle Hrun Hr; simpl in Hr; [done|].
  destruct (decode_at text cur uni) as [[cp w]|] eqn:Ed; [|done].
  destruct (cp_may_start pf cp) eqn:Em; simpl in Hr; [|done].
  unfold decode_at in Ed. rewrite decode_nonunicode in Ed by (simpl; congruence).
  simpl in Ed. destruct (text !! cur) as [u|] eqn:Eu; [|done]. simpl in Ed. injection Ed as -> <-.
  pose proof (lookup_lt_Some _ _ _ Eu) as Hlt. apply leftmost_step.
  - intros _. destruct (found cur) as [st|] eqn:Ef; [|done].
    destruct (hit_bt parsed flags inp Hsound Hunits eq_refl cur st ltac:(simpl; lia) Ef) as (x & d' & Hb').
    destruct (lead_run_fails prog inp rpc atom mn tst pos cur x d d' Hblind Hl Ht ltac:(simpl; lia)); [|done|done].
    intros i Hi. destruct (Hrun i Hi ltac:(lia)) as (v & Hv & Hm). exists v. split; [done|].
    apply Htst; [|done]. pose proof (wf_units_lookup _ _ _ Hunits Hv). unfold MAX_CP. lia.
  - assert (Hadv : advance_scan text cur uni = cur + 1) by (unfold advance_scan; by rewrite Huni).
    rewrite Hadv in Hr |- *. apply IH; [lia| |done]. intros i Hi Hlen. destruct (decide (i = cur)) as [->|Hne]; [eauto|].
    apply Hrun; lia.
Qed.

Lemma advance_leftmost pos r : run_skip_safe prog (ignore_case flags) = true -> pos <= length text -> found pos = None ->
  (forall pf u, uni = false -> prefilter prog = Some pf -> text !! pos = Some u -> cp_may_start pf u = true) ->
  leftmost text uni found (advance_after_failure prog text pos) r -> leftmost text uni found pos r.
Proof.
  intros Hsafe Hpos Hnone Hstart Hr. apply leftmost_step; [done|]. unfold advance_after_failure in Hr.
  rewrite lowered_unicode in Hr. destruct (lead_possessive prog) eqn:Hlead; [|done].
  destruct (prefilter prog) as [pf|] eqn:Hpf; [|done].
  destruct (lowered_skip_safe pf Hsafe Hlead Hpf) as (Huni & _).
  eapply run_skip_leftmost; [done|done|exact Hpf|exact Hpos|done| | |exact Hr].
  - pose proof (advance_scan_gt text pos uni). lia.
  - intros i Hi Hlen. assert (Hadv : advance_scan text pos uni = pos + 1) by (unfold advance_scan; by rewrite Huni).
    rewrite Hadv in *. assert (i = pos) as -> by lia.
    destruct (lookup_lt_is_Some_2 text pos ltac:(lia)) as [u Hu]. exists u. split; [done|]. by apply Hstart.
Qed.

Lemma advance_gt pos : pos < advance_after_failure prog text pos.
Proof.
  unfold advance_after_failure. rewrite lowered_unicode. pose proof (advance_scan_gt text pos uni).
  destruct (lead_possessive prog); [|done]. destruct (prefilter prog) as [pf|]; [|done].
  pose proof (skip_until_ge (length text) (fun cp => negb (cp_may_start pf cp)) (advance_scan text pos uni)). lia.
Qed.

(** What the iterator reports for the leftmost match, and the state it keeps:
    the next scan starts at the end of the match, or one step past an empty
    one. *)
Definition reports (ns : nat) (r : option (nat * State)) (res : option Match_ * MatchesState) : Prop :=
  match r with
  | None => res = (None, mkMatchesState ns true)
  | Some (q, st) => exists m, res =
      (Some m, mkMatchesState (if q <? s_pos st then s_pos st else advance_scan text q uni) false) /\
      m_range m = (q, s_pos st) /\ captures m = map (fun g => mjoin (s_caps st !! g)) (seq 1 gc)
  end.

Lemma build_match_spec p caps q st :
  group_count p = gc -> slots_match gc q (Some caps) (Some st) ->
  m_range (build_match p caps) = (q, s_pos st) /\
  captures (build_match p caps) = map (fun g => mjoin (s_caps st !! g)) (seq 1 gc).
Proof.
  intros Hg [H0' Hs]. split.
  - unfold group_range in H0'. simpl in H0'. unfold build_match. simpl.
    destruct (caps !! 0) as [[a|]|], (caps !! 1) as [[b|]|]; try done. by simplify_eq.
  - simpl. rewrite Hg. apply map_ext_in. intros g Hin. apply in_seq in Hin. apply Hs. lia.
Qed.

Lemma next_loop_leftmost fuel ns pos :
  run_skip_safe prog (ignore_case flags) = true -> 0 < fuel -> length text + 1 < fuel + pos ->
  exists needed r res, leftmost text uni found pos r /\ reports ns r res /\
    forall config, (needed <= step_bound config <= u64_max)%Z ->
      settles (fun efuel => next_loop fuel efuel prog text config ns pos) (Ok res.1, res.2).
Proof.
  intros Hsafe. revert pos. induction fuel as [|fuel IH]; intros pos Hpos Hf; [lia|].
  set (pos' := match prefilter prog with Some pf => prefilter_skip pf text uni pos | None => pos end).
  assert (Hskip : forall r, leftmost text uni found pos' r -> leftmost text uni found pos r).
  { intros r. unfold pos'. destruct (prefilter prog) as [pf|] eqn:Epf; [by apply prefilter_skip_leftmost|done]. }
  assert (Hge : pos <= pos' \/ length text < pos').
  { unfold pos'. destruct (prefilter prog) as [pf|]; [|auto].
    destruct (decide (pos <= length text)); [left; by apply prefilter_skip_ge|].
    unfold prefilter_skip. destruct (single pf); [|left; apply skip_until_ge].
    right. rewrite (proj2 (Nat.leb_gt _ _)) by lia. lia. }
  assert (Hunf : forall efuel config, next_loop (S fuel) efuel prog text config ns pos =
    if length text <? pos' then (Ok None, mkMatchesState ns true)
    else match attempt prog inp pos' config efuel with
         | Err e => (Err e, mkMatchesState ns true)
         | Panic => (Panic, mkMatchesState ns false)
         | OutOfFuel => (OutOfFuel, mkMatchesState ns false)
         | Ok (Some caps) =>
             (Ok (Some (build_match prog caps)),
              mkMatchesState (if pos' <? (m_range (build_match prog caps)).2
                then (m_range (build_match prog caps)).2 else advance_scan text pos' uni) false)
         | Ok None => next_loop fuel efuel prog text config ns (advance_after_failure prog text pos')
         end).
  { intros efuel config. cbn [next_loop]. rewrite lowered_unicode. reflexivity. }
  assert (Hstart : forall pf u, uni = false -> prefilter prog = Some pf -> text !! pos' = Some u ->
    cp_may_start pf u = true).
  { intros pf u Hn Epf. unfold pos'. rewrite Epf. by apply prefilter_skip_starts. }
  destruct (length text <? pos') eqn:E; boolprop.
  - exists 0%Z, None, (None, mkMatchesState ns true). split; [by apply Hskip, leftmost_past|]. split; [done|].
    intros config _. exists 0. intros efuel _. by rewrite Hunf.
  - destruct (attempt_total parsed flags inp pos' Hsound Hunits eq_refl E) as (needed & o & Hs & Hatt).
    fold (hit parsed flags inp pos') in Hs. fold (found pos') in Hs.
    destruct o as [caps|], (found pos') as [st|] eqn:Eh; try done.
    + destruct (build_match_spec prog caps pos' st) as [Hr Hc]; [by destruct (lower_marked parsed flags) as (? & ? & ->)|done|].
      exists (Z.of_nat needed), (Some (pos', st)). eexists. split; [by apply Hskip, leftmost_hit|].
      split; [exists (build_match prog caps); split; [reflexivity|done]|]. intros config Hc'.
      destruct (proj1 (Hatt config ltac:(lia)) ltac:(lia)) as [ef Hef]. exists ef. intros efuel Hle.
      rewrite Hunf, (Hef efuel Hle), Hr. reflexivity.
    + pose proof (advance_gt pos') as Hadv.
      destruct (IH (advance_after_failure prog text pos') ltac:(lia) ltac:(lia)) as (needed2 & r & res & Hl & Hrep & Hset).
      exists (Z.max (Z.of_nat needed) needed2), r, res. split; [by apply Hskip, advance_leftmost|]. split; [done|].
      intros config Hc'. destruct (proj1 (Hatt config ltac:(lia)) ltac:(lia)) as [ef1 Hef1].
      destruct (Hset config ltac:(lia)) as [ef2 Hef2]. exists (max ef1 ef2). intros efuel Hle.
      rewrite Hunf, (Hef1 efuel ltac:(lia)). apply Hef2. lia.
Qed.
End Next.

(** ** Properties *)

(** The prefilter is sound.  If the reference semantics has a match at a
    position, the code point there passes the prefilter of the lowered program,
    so the scan never skips a match. *)
Theorem prefilter_sound `{IcuLaws} parsed flags inp pf at_ st :
  sound_pattern parsed flags -> wf_units (units inp) -> code_point_mode inp = is_unicode_mode flags ->
  prefilter (lower parsed flags) = Some pf -> at_ <= length (units inp) ->
  hit parsed flags inp at_ = Some st ->
  exists cp w, decode inp at_ = Some (cp, w) /\ cp_may_start pf cp = true.
Proof.
  intros Hs Hu Hm Hpf Hat Hh.
  destruct (hit_may_start parsed flags inp Hs Hu Hm pf at_ st Hpf Hat Hh)
    as (set & canon & cp & w & _ & _ & Hd & _ & Hmay). eauto.
Qed.

Lemma prefilter_sound_witness :
  exists cp w, decode (mkInput demo_text false) 1 = Some (cp, w) /\
    @cp_may_start ascii_icu (prefilter_build (insert cps_new 97) None) cp = true.
Proof.
  apply (@prefilter_sound ascii_icu ascii_icu_laws demo_parsed flags_default (mkInput demo_text false)
    (prefilter_build (insert cps_new 97) None) 1 (mkState 5 [None; Some (1, 2); Some (2, 5)])).
  - exact demo_sound.
  - exact demo_units.
  - reflexivity.
  - vm_compute. reflexivity.
  - simpl. lia.
  - vm_compute. reflexivity.
Defined.


