(* ===== verification/Prescan.v ===== *)
(** * The parser: bounds, class escapes and the pre-scan

    Quantifier bounds as numbers of any size, and the sets of the class escapes.

    [prescan] numbers and names the groups in one pass over the code units, by a
    much coarser reading of the pattern than the grammar's: a backslash hides one
    unit, a bracket opens a class up to the next bracket.  This file shows that,
    outside [v] mode, every parsing method moves the cursor between positions the
    pre-scan cannot tell apart, unless it opens a group that the pre-scan counts.

    [scan us i b names out] says that the pre-scan, at [i] with [b] for an open
    class and [names] found so far, ends in [out]; [same us b i j] that [i] and
    [j] are interchangeable. *)

From Stdlib Require Import String.
From S2P Require Import Prelude Unicode Classes Program Parser.

(** ** Decimal bounds *)

(** The number a digit string denotes. *)
Definition digits_value (ds : list Z) : Z := fold_left (fun v d => v * 10 + d)%Z ds 0%Z.

Definition digit_ok (d : Z) : Prop := (0 <= d <= 9)%Z.

(** Digit strings as [read_decimal_digits] leaves them: no leading zero. *)
Definition canonical_digits (ds : list Z) : Prop :=
  Forall digit_ok ds /\ match ds with 0%Z :: _ => False | _ => True end.

Lemma digits_value_from v ds :
  fold_left (fun v d => v * 10 + d)%Z ds v = (v * 10 ^ Z.of_nat (length ds) + digits_value ds)%Z.
Proof.
  unfold digits_value. revert v. induction ds as [|d ds IH]; intros v; cbn [fold_left length]; [lia|].
  rewrite IH, (IH (0 * 10 + d)%Z). rewrite Nat2Z.inj_succ, Z.pow_succ_r by lia. ring.
Qed.

Lemma digits_value_cons d ds :
  digits_value (d :: ds) = (d * 10 ^ Z.of_nat (length ds) + digits_value ds)%Z.
Proof. unfold digits_value at 1. cbn [fold_left]. rewrite digits_value_from. lia. Qed.

Lemma digits_value_bounds ds :
  Forall digit_ok ds -> (0 <= digits_value ds < 10 ^ Z.of_nat (length ds))%Z.
Proof.
  induction 1 as [|d ds Hd _ IH]; [done|]. rewrite digits_value_cons. cbn [length].
  rewrite Nat2Z.inj_succ, Z.pow_succ_r by lia. unfold digit_ok in Hd. nia.
Qed.

Lemma digits_loop_exact v ds :
  (0 <= v <= u32_max)%Z -> Forall digit_ok ds ->
  digits_loop v ds = Z.min u32_max (fold_left (fun v d => v * 10 + d)%Z ds v).
Proof.
  intros Hv Hds. revert v Hv. induction Hds as [|d ds Hd Hds IH]; intros v Hv; cbn [digits_loop fold_left]; [lia|].
  pose proof (digits_value_bounds ds Hds) as Hb.
  assert (Hbig : (u32_max < v * 10 + d)%Z ->
    u32_max = Z.min u32_max (fold_left (fun v d => v * 10 + d)%Z ds (v * 10 + d)%Z)).
  { intros Hover. rewrite digits_value_from.
    assert (1 <= 10 ^ Z.of_nat (length ds))%Z by (pose proof (Z.pow_pos_nonneg 10 (Z.of_nat (length ds))); lia).
    nia. }
  unfold digit_ok in Hd. unfold u32_checked at 1. destruct (v * 10 <=? u32_max)%Z eqn:E1; boolprop; [|apply Hbig; lia].
  unfold u32_checked. destruct (v * 10 + d <=? u32_max)%Z eqn:E2; boolprop; [|apply Hbig; lia].
  apply IH. lia.
Qed.

(** Equal lengths compare lexicographically as they compare in value. *)
Lemma lex_cmp_value a b :
  Forall digit_ok a -> Forall digit_ok b -> length a = length b ->
  lex_cmp a b = Z.compare (digits_value a) (digits_value b).
Proof.
  intros Ha. revert b. induction Ha as [|x a Hx Ha IH]; intros b Hb Hlen; destruct b as [|y b]; try done.
  apply Forall_cons in Hb as [Hy Hb]. injection Hlen as Hlen. cbn [lex_cmp].
  rewrite !digits_value_cons. rewrite <- Hlen.
  pose proof (digits_value_bounds a Ha). pose proof (digits_value_bounds b Hb) as Hbb. rewrite <- Hlen in Hbb.
  unfold digit_ok in *. destruct (Z.compare_spec x y) as [->|Hlt|Hgt].
  - rewrite IH by done. symmetry.
    destruct (Z.compare_spec (digits_value a) (digits_value b)); [apply Z.compare_eq_iff|apply Z.compare_lt_iff|apply Z.compare_gt_iff]; lia.
  - symmetry. apply Z.compare_lt_iff. nia.
  - symmetry. apply Z.compare_gt_iff. nia.
Qed.

Lemma canonical_lower ds :
  canonical_digits ds -> ds <> [] -> (10 ^ (Z.of_nat (length ds) - 1) <= digits_value ds)%Z.
Proof.
  intros [Hok Hz] Hne. destruct ds as [|d ds]; [done|]. apply Forall_cons in Hok as [Hd Hok].
  rewrite digits_value_cons. pose proof (digits_value_bounds ds Hok). cbn [length].
  replace (Z.of_nat (S (length ds)) - 1)%Z with (Z.of_nat (length ds)) by lia.
  assert (1 <= d)%Z by (unfold digit_ok in Hd; destruct d; [done|lia|lia]). nia.
Qed.

(** A longer canonical string denotes a larger number. *)
Lemma canonical_longer a b :
  canonical_digits a -> canonical_digits b -> length a < length b -> (digits_value a < digits_value b)%Z.
Proof.
  intros Ha Hb Hlt. pose proof (digits_value_bounds a (proj1 Ha)) as [_ Hup].
  assert (Hlow : (10 ^ (Z.of_nat (length b) - 1) <= digits_value b)%Z)
    by (apply canonical_lower; [done|by destruct b; [simpl in Hlt; lia|]]).
  assert (10 ^ Z.of_nat (length a) <= 10 ^ (Z.of_nat (length b) - 1))%Z by (apply Z.pow_le_mono_r; lia). lia.
Qed.

Lemma decimal_digits_cmp_value a b :
  canonical_digits a -> canonical_digits b ->
  decimal_digits_cmp a b = Z.compare (digits_value a) (digits_value b).
Proof.
  intros Ha Hb. unfold decimal_digits_cmp. destruct (Nat.compare_spec (length a) (length b)) as [He|Hl|Hg].
  - apply lex_cmp_value; [apply Ha|apply Hb|done].
  - symmetry. apply Z.compare_lt_iff. by apply canonical_longer.
  - symmetry. apply Z.compare_gt_iff. by apply canonical_longer.
Qed.

Lemma digit_run_ok l : Forall digit_ok (digit_run l).
Proof.
  induction l as [|c l IH]; simpl; [constructor|]. destruct (is_digit c) eqn:E; [|constructor].
  constructor; [|done]. unfold is_digit in E. boolprop. unfold digit_ok. lia.
Qed.

Lemma strip_zeros_canonical l : Forall digit_ok l -> canonical_digits (strip_zeros l) /\
  digits_value (strip_zeros l) = digits_value l.
Proof.
  induction 1 as [|d l Hd Hl IH]; [done|]. simpl. destruct d; [|split; [|done]; split; [by constructor|done]..].
  destruct IH as [IH ->]. split; [done|]. by rewrite digits_value_cons.
Qed.

Lemma read_decimal_digits_value p :
  let ds := digit_run (drop (pos p) (p_units p)) in
  canonical_digits (read_decimal_digits p).1 /\ digits_value (read_decimal_digits p).1 = digits_value ds.
Proof. apply strip_zeros_canonical, digit_run_ok. Qed.

(** The number written in decimal at [i], and the position after it. *)
Definition written (us : list Z) (i : nat) : Z := digits_value (digit_run (drop i us)).
Definition after_digits (us : list Z) (i : nat) : nat := i + length (digit_run (drop i us)).

(** The upper bound of a braced quantifier whose lower bound starts at [i]. *)
Definition written_max (us : list Z) (i : nat) : option Z :=
  let j := after_digits us i in
  if is_ch "," (us !! j) then
    if is_ch "}" (us !! (j + 1)) then None else Some (written us (j + 1))
  else Some (written us i).

Lemma read_digits_u32 p :
  decimal_digits_to_u32 (read_decimal_digits p).1 = Z.min u32_max (written (p_units p) (pos p)).
Proof.
  destruct (read_decimal_digits_value p) as [Hp Hv]. unfold written. rewrite <- Hv.
  unfold decimal_digits_to_u32. rewrite digits_loop_exact; [done|unfold u32_max; lia|apply Hp].
Qed.

Lemma read_digits_cmp p q :
  decimal_digits_cmp (read_decimal_digits q).1 (read_decimal_digits p).1 =
  Z.compare (written (p_units q) (pos q)) (written (p_units p) (pos p)).
Proof.
  destruct (read_decimal_digits_value p) as [Hp Hvp]. destruct (read_decimal_digits_value q) as [Hq Hvq].
  rewrite decimal_digits_cmp_value by done. by rewrite Hvp, Hvq.
Qed.

(** ** Properties *)

(** Braced quantifier bounds are read as numbers of any size.  Whenever
    [parse_brace_quantifier] accepts [{lo}], [{lo,}] or [{lo,hi}], the bounds it
    returns are the written numbers capped at [u32::MAX], and it reports them
    inverted exactly when the upper number as written, of any length, is smaller
    than the lower. *)
Theorem quantifier_bounds_exact p min max inverted p' :
  parse_brace_quantifier p = Ok ((min, max, inverted), p') ->
  let us := p_units p in
  min = Z.min u32_max (written us (pos p + 1)) /\
  max = Z.min u32_max <$> written_max us (pos p + 1) /\
  inverted = match written_max us (pos p + 1) with
             | Some hi => (hi <? written us (pos p + 1))%Z
             | None => false
             end.
Proof.
  unfold parse_brace_quantifier, written_max. intros Hr. cbv zeta in *.
  pose proof (read_digits_u32 (bump 1 p)) as Hlo. pose proof (read_digits_cmp (bump 1 p)) as Hcmp.
  change (read_decimal_digits (bump 1 p)) with
    ((read_decimal_digits (bump 1 p)).1, with_pos (after_digits (p_units p) (pos p + 1)) p) in Hr.
  set (lo := (read_decimal_digits (bump 1 p)).1) in *. cbv iota beta zeta in Hr. cbn [p_units pos bump with_pos] in Hlo, Hcmp.
  set (j := after_digits (p_units p) (pos p + 1)) in *. unfold eat at 1 in Hr. unfold peek at 1 in Hr. simpl in Hr.
  assert (Hinv : forall q, match decimal_digits_cmp (read_decimal_digits q).1 lo with Lt => true | _ => false end =
    (written (p_units q) (pos q) <? written (p_units p) (pos p + 1))%Z) by (intros q; rewrite (Hcmp q); by destruct (_ ?= _)%Z eqn:E; unfold Z.ltb; rewrite E).
  destruct (is_ch "," (p_units p !! j)).
  - unfold peek in Hr. simpl in Hr. destruct (is_ch "}" (p_units p !! (j + 1))).
    + destruct (eat "}" _) as [[] p4]; [|done]. injection Hr as <- <- <- <-. by rewrite Hlo.
    + pose proof (read_digits_u32 (with_pos (j + 1) p)) as Hhi. specialize (Hinv (with_pos (j + 1) p)).
      simpl in Hhi, Hinv. destruct (eat "}" _) as [[] p4]; [|done]. injection Hr as <- <- <- <-. by rewrite Hlo, Hhi, Hinv.
  - destruct (eat "}" _) as [[] p4]; [|done]. injection Hr as <- <- <- <-. simpl. rewrite Hlo.
    split; [done|]. split; [done|]. exact (Hinv (bump 1 p)).
Qed.

(** "{2,99999999999}" *)
Lemma quantifier_bounds_exact_witness :
  parse_brace_quantifier (parser_new (chars "{2,99999999999}") flags_default) =
    Ok ((2%Z, Some u32_max, false), with_pos 15 (parser_new (chars "{2,99999999999}") flags_default)) /\
  2%Z = Z.min u32_max (written (chars "{2,99999999999}") 1) /\
  Some u32_max = Z.min u32_max <$> written_max (chars "{2,99999999999}") 1 /\
  false = match written_max (chars "{2,99999999999}") 1 with
          | Some hi => (hi <? written (chars "{2,99999999999}") 1)%Z
          | None => false
          end.
Proof.
  split; [vm_compute; reflexivity|].
  apply (quantifier_bounds_exact (parser_new (chars "{2,99999999999}") flags_default) _ _ _
    (with_pos 15 (parser_new (chars "{2,99999999999}") flags_default))).
  vm_compute. reflexivity.
Defined.

(** The class escapes denote their ECMA-262 sets: [\d] the ten digits, [\w]
    exactly the characters the word-boundary assertion calls word characters,
    and [\s] exactly WhiteSpace and LineTerminator. *)
Theorem class_escapes_exact cp :
  contains digit_set cp = is_digit cp /\
  contains word_set cp = is_word cp /\
  contains space_set cp =
    (in_range 9 13 cp || (cp =? 32)%Z || (cp =? 160)%Z || (cp =? 5760)%Z || in_range 8192 8202 cp ||
     is_line_terminator cp || (cp =? 8239)%Z || (cp =? 8287)%Z || (cp =? 12288)%Z || (cp =? 65279)%Z).
Proof.
  assert (Hset : forall s, wf_set s -> contains s cp = in_ranges (ranges s) cp) by (intros; by apply contains_in_ranges).
  rewrite !Hset by (vm_compute; intuition discriminate).
  change (ranges digit_set) with [(48, 57)]%Z.
  change (ranges word_set) with [(48, 57); (65, 90); (95, 95); (97, 122)]%Z.
  change (ranges space_set) with [(9, 13); (32, 32); (160, 160); (5760, 5760); (8192, 8202); (8232, 8233);
    (8239, 8239); (8287, 8287); (12288, 12288); (65279, 65279)]%Z.
  unfold in_ranges, is_digit, is_word, is_line_terminator. simpl. unfold in_range. lia.
Qed.

(** What is relied on of the identifier and property tables: identifier
    characters in ASCII are word characters, the names of properties and values
    are words, and the ranges of a property lie in the code space. *)
Class IcuNames `{Icu} : Prop := {
  xid_start_ascii : forall c, (0 <= c < 128)%Z -> is_xid_start c = true -> is_word c = true;
  xid_continue_ascii : forall c, (0 <= c < 128)%Z -> is_xid_continue c = true -> is_word c = true;
  ecma262_names : forall v l, new_for_ecma262 v = Some l -> forallb is_word v = true /\ Forall range_ok l;
  gc_names : forall v l, gc_strict_set v = Some l -> forallb is_word v = true /\ Forall range_ok l;
  gc_group_ranges : forall g, Forall range_ok (gc_group_set g);
  script_names : forall v l, script_strict_set v = Some l -> forallb is_word v = true /\ Forall range_ok l;
  script_ext_names : forall v l, script_strict_ext v = Some l -> forallb is_word v = true /\ Forall range_ok l
}.

Lemma ascii_icu_names : @IcuNames ascii_icu.
Proof.
  split; simpl; try done. intros c _. unfold is_word.
  intros [->| ->]%orb_prop; by rewrite ?orb_true_r.
Qed.

(** A unit the pre-scan steps over: inside a class anything but its end, outside
    anything but a class or a group opener. *)
Definition plain_at (b : bool) (c : Z) : bool :=
  negb (c =? b8 "\")%Z &&
  (if b then negb (c =? b8 "]")%Z else negb (c =? b8 "[")%Z && negb (c =? b8 "(")%Z).

Section Scan.
Context `{Icu}.
Variable us : list Z.

Definition scan_from (i : nat) (b : bool) (names out : list (option (list Z))) : Prop :=
  exists fuel, prescan_loop fuel us i b names = Ok out.

Definition same (b : bool) (i j : nat) : Prop :=
  forall names out, scan_from i b names out <-> scan_from j b names out.

#[global] Instance same_equiv b : Equivalence (same b).
Proof. split; [by intros ?|intros ?? H1 ??; by rewrite (H1 _ _)|intros ??? H1 H2 ??; by rewrite (H1 _ _)]. Qed.

(** ** Single steps *)

Ltac scan_step Hi :=
  intros ? ?; split; intros [fuel Hf];
  [ destruct fuel as [|fuel]; [done|]; exists fuel; simpl in Hf; rewrite Hi in Hf
  | exists (S fuel); simpl; rewrite Hi ].

Lemma same_escape b i : us !! i = Some (b8 "\") -> same b i (i + 2).
Proof. intros Hi. scan_step Hi; [by rewrite Z.eqb_refl in Hf|by rewrite Z.eqb_refl]. Qed.

Lemma same_plain b i c : us !! i = Some c -> plain_at b c = true -> same b i (i + 1).
Proof.
  unfold plain_at. intros Hi Hp. apply andb_prop in Hp as [Hp Hb]. apply negb_true_iff in Hp.
  scan_step Hi; rewrite Hp in *; destruct b.
  - apply negb_true_iff in Hb. by rewrite Hb in Hf.
  - apply andb_prop in Hb as [Hb1 Hb2]. apply negb_true_iff in Hb1, Hb2. by rewrite Hb1, Hb2 in Hf.
  - apply negb_true_iff in Hb. by rewrite Hb.
  - apply andb_prop in Hb as [Hb1 Hb2]. apply negb_true_iff in Hb1, Hb2. by rewrite Hb1, Hb2.
Qed.

Lemma same_plains b i n :
  (forall k, k < n -> exists c, us !! (i + k) = Some c /\ plain_at b c = true) -> same b i (i + n).
Proof.
  induction n as [|n IH]; intros Hn; [by rewrite Nat.add_0_r|].
  destruct (Hn n ltac:(lia)) as (c & Hc & Hp). transitivity (i + n).
  - apply IH. intros k Hk. apply Hn. lia.
  - rewrite (same_plain b (i + n) c Hc Hp). by rewrite <- Nat.add_assoc, (Nat.add_1_r n).
Qed.

Lemma scan_end i names out : us !! i = None -> scan_from i false names out -> out = names.
Proof. intros Hi [[|fuel] Hf]; [done|]. simpl in Hf. rewrite Hi in Hf. by injection Hf. Qed.

Lemma scan_open_class i : us !! i = Some (b8 "[") ->
  forall names out, scan_from i false names out -> scan_from (i + 1) true names out.
Proof. intros Hi names out [[|fuel] Hf]; [done|]. exists fuel. simpl in Hf. by rewrite Hi in Hf. Qed.

Lemma scan_close_class i : us !! i = Some (b8 "]") ->
  forall names out, scan_from i true names out -> scan_from (i + 1) false names out.
Proof. intros Hi names out [[|fuel] Hf]; [done|]. exists fuel. simpl in Hf. by rewrite Hi in Hf. Qed.

(** ** Groups *)

Lemma is_ch_spec c o : is_ch c o = true <-> o = Some (b8 c).
Proof.
  destruct o as [u|]; simpl; [|split; done]. rewrite Z.eqb_eq. split; [by intros ->|congruence].
Qed.

Lemma scan_open_capture i : us !! i = Some (b8 "(") -> is_ch "?" (us !! (i + 1)) = false ->
  forall names out, scan_from i false names out -> scan_from (i + 1) false (names ++ [None]) out.
Proof. intros Hi Hq names out [[|fuel] Hf]; [done|]. exists fuel. simpl in Hf. by rewrite Hi, Hq in Hf. Qed.

Lemma scan_open_named i name next : us !! i = Some (b8 "(") -> us !! (i + 1) = Some (b8 "?") ->
  us !! (i + 2) = Some (b8 "<") -> is_ch "=" (us !! (i + 3)) = false -> is_ch "!" (us !! (i + 3)) = false ->
  read_group_name us (i + 3) = Some (name, next) ->
  forall names out, scan_from i false names out -> scan_from next false (names ++ [Some name]) out.
Proof.
  intros Hi Hq Hl He Hb Hn names out [[|fuel] Hf]; [done|]. exists fuel. simpl in Hf.
  by rewrite Hi, Hq, Hl, He, Hb, Hn in Hf.
Qed.

(** An opener the pre-scan does not count: it goes on inside it. *)
Lemma scan_open_other i : us !! i = Some (b8 "(") -> us !! (i + 1) = Some (b8 "?") ->
  is_ch "<" (us !! (i + 2)) = false \/ is_ch "=" (us !! (i + 3)) = true \/ is_ch "!" (us !! (i + 3)) = true ->
  same false i (i + 2).
Proof.
  intros Hi Hq Hk. transitivity (i + 1).
  - scan_step Hi; rewrite Hq in *; simpl in *.
    + destruct Hk as [Hk|[Hk|Hk]]; rewrite Hk in Hf; by rewrite ?andb_false_r in Hf.
    + destruct Hk as [Hk|[Hk|Hk]]; rewrite Hk; by rewrite ?andb_false_r.
  - rewrite (same_plain false (i + 1) _ Hq eq_refl). by rewrite <- Nat.add_assoc.
Qed.
End Scan.

(** ** Moves of the cursor *)

(** [p'] is [p] with the cursor further on, at a position the pre-scan cannot
    tell from [i]. *)
Definition walk `{Icu} (b : bool) (i : nat) (p p' : Parser) : Prop :=
  p' = with_pos (pos p') p /\ pos p <= pos p' /\ same (p_units p) b i (pos p').

Section Walk.
Context `{Icu}.
Variable b : bool.

Lemma walk_refl p : walk b (pos p) p p.
Proof. by destruct p. Qed.

Lemma walk_trans i p p1 p2 : walk b i p p1 -> walk b (pos p1) p1 p2 -> walk b i p p2.
Proof.
  intros (E1 & H1 & S1) (E2 & H2 & S2). rewrite E1 in E2, S2. simpl in *.
  split; [exact E2|]. split; [lia|]. by rewrite S1.
Qed.

Lemma walk_from i j p p' : same (p_units p) b i j -> walk b j p p' -> walk b i p p'.
Proof. intros Hs (E & Hle & Hw). split; [done|]. split; [done|]. by rewrite Hs. Qed.

Lemma walk_units i p p' : walk b i p p' -> p_units p' = p_units p.
Proof. by intros (-> & _). Qed.

Lemma walk_flags i p p' : walk b i p p' -> p_flags p' = p_flags p.
Proof. by intros (-> & _). Qed.

Lemma walk_bump i n p : same (p_units p) b i (pos p + n) -> walk b i p (bump n p).
Proof. intros Hs. split; [done|]. simpl. split; [lia|done]. Qed.

Lemma walk_one p c : peek p = Some c -> plain_at b c = true -> walk b (pos p) p (bump 1 p).
Proof. intros Hc Hp. apply walk_bump. by eapply same_plain. Qed.

Lemma eat_spec c p :
  (eat c p = (true, bump 1 p) /\ peek p = Some (b8 c)) \/ (eat c p = (false, p) /\ is_ch c (peek p) = false).
Proof. unfold eat. destruct (is_ch c (peek p)) eqn:E; [left; apply is_ch_spec in E|right]; done. Qed.

Lemma walk_eat c p p' r : plain_at b (b8 c) = true -> eat c p = (r, p') -> walk b (pos p) p p'.
Proof.
  intros Hp He. destruct (eat_spec c p) as [[E Hc]|[E Hc]]; rewrite E in He; injection He as <- <-.
  - by eapply walk_one.
  - apply walk_refl.
Qed.

Lemma plain_at_eq c : plain_at b c =
  negb (c =? 92)%Z && (if b then negb (c =? 93)%Z else negb (c =? 91)%Z && negb (c =? 40)%Z).
Proof. done. Qed.

Lemma plain_word c : is_word c = true -> plain_at b c = true.
Proof. rewrite plain_at_eq. unfold is_word, in_range. destruct b; lia. Qed.

Lemma plain_high c : (128 <= c)%Z -> plain_at b c = true.
Proof. rewrite plain_at_eq. destruct b; lia. Qed.

Lemma digit_run_lookup l k : k < length (digit_run l) -> exists c, l !! k = Some c /\ is_digit c = true.
Proof.
  revert k. induction l as [|c l IH]; simpl; intros k Hk; [lia|].
  destruct (is_digit c) eqn:E; simpl in Hk; [|lia]. destruct k; simpl; [eauto|]. apply IH. lia.
Qed.

Lemma same_digits us i n : n <= length (digit_run (drop i us)) -> same us b i (i + n).
Proof.
  intros Hn. apply same_plains. intros k Hk.
  destruct (digit_run_lookup (drop i us) k ltac:(lia)) as (c & Hc & Hd). rewrite lookup_drop in Hc.
  exists c. split; [done|]. apply plain_word. unfold is_word. unfold is_digit in Hd. by rewrite Hd.
Qed.

Lemma hex_digit_spec c d : hex_digit c = Some d -> (0 <= d <= 15)%Z /\ plain_at b c = true.
Proof.
  intros Hd. enough (Hw : (0 <= d <= 15)%Z /\ is_word c = true) by (split; [apply Hw|apply plain_word, Hw]).
  unfold hex_digit, is_word in *. unfold in_range in *. repeat case_match; simplify_eq; lia.
Qed.
End Walk.

Ltac peek_is p := match goal with H : is_ch _ (peek p) = true |- _ => apply is_ch_spec in H end.

(** ** Numeric escapes *)

Section Escapes.
Context `{Icu}.
Variable b : bool.

Lemma read_fixed_hex_walk n v p v' p' : (0 <= v)%Z ->
  read_fixed_hex n v p = Ok (v', p') -> walk b (pos p) p p' /\ (0 <= v' < (v + 1) * 16 ^ Z.of_nat n)%Z.
Proof.
  revert v p. induction n as [|n IH]; intros v p Hv Hr; simpl in Hr.
  - injection Hr as <- <-. split; [apply walk_refl|]. simpl. lia.
  - destruct (peek p) as [c|] eqn:Ec; [|done]. destruct (hex_digit c) as [d|] eqn:Ed; [|done].
    destruct (hex_digit_spec b c d Ed) as [Hd Hp]. apply IH in Hr as [Hw Hb]; [|lia].
    split; [exact (walk_trans b _ _ _ _ (walk_one b p c Ec Hp) Hw)|].
    rewrite Nat2Z.inj_succ, Z.pow_succ_r by lia. nia.
Qed.

Lemma braced_escape_walk fuel v any p v' any' p' : (0 <= v <= MAX_CP)%Z ->
  braced_escape fuel v any p = Ok ((v', any'), p') -> walk b (pos p) p p' /\ (0 <= v' <= MAX_CP)%Z.
Proof.
  revert v any p. induction fuel as [|fuel IH]; intros v any p Hv Hr; [done|]. simpl in Hr.
  destruct (peek p) as [c|] eqn:Ec; [|injection Hr as <- <- <-; split; [apply walk_refl|done]].
  destruct (c =? b8 "}")%Z; [injection Hr as <- <- <-; split; [apply walk_refl|done]|].
  destruct (hex_digit c) as [d|] eqn:Ed; [|done]. destruct (hex_digit_spec b c d Ed) as [Hd Hp].
  destruct (1114111 <? _)%Z eqn:El; [done|]. apply Z.ltb_ge in El. apply IH in Hr as [Hw Hb].
  - split; [exact (walk_trans b _ _ _ _ (walk_one b p c Ec Hp) Hw)|done].
  - unfold MAX_CP, u32_max in *. lia.
Qed.

Lemma combine_surrogates_range hi lo : is_high_surrogate hi = true -> is_low_surrogate lo = true ->
  (0 <= combine_surrogates hi lo <= MAX_CP)%Z.
Proof.
  intros Hh Hl. unfold is_high_surrogate, is_low_surrogate in *. boolprop.
  pose proof (combine_surrogates_bounds hi lo). unfold MAX_CP.
  rewrite combine_surrogates_eq in *. lia.
Qed.

Lemma read_unicode_escape_walk p v p' :
  read_unicode_escape p = Ok (v, p') -> walk b (pos p) p p' /\ (0 <= v <= MAX_CP)%Z.
Proof.
  unfold read_unicode_escape. intros Hr.
  destruct (eat_spec "{" p) as [[E Hc]|[E Hc]]; rewrite E in Hr.
  - destruct (p_unicode (bump 1 p)); [|done]. inv_bind Hr. destruct a as [[v1 any] p1].
    apply braced_escape_walk in Hbind as [Hw Hv]; [|unfold MAX_CP; lia]. destruct any; [|done].
    destruct (eat_spec "}" p1) as [[E' Hc']|[E' Hc']]; rewrite E' in Hr; [|done]. injection Hr as <- <-.
    split; [|done]. eapply walk_trans; [eapply walk_one; [exact Hc|by destruct b]|].
    eapply walk_trans; [exact Hw|]. eapply walk_one; [exact Hc'|by destruct b].
  - inv_bind Hr. destruct a as [hi p1]. pose proof Hbind as Hhi.
    apply read_fixed_hex_walk in Hbind as [Hw Hv]; [|lia].
    assert (Hv1 : (0 <= hi <= MAX_CP)%Z) by (unfold MAX_CP; simpl in Hv; lia).
    destruct (p_unicode p1 && is_high_surrogate hi) eqn:Eu; [|by injection Hr as <- <-].
    apply andb_prop in Eu as [_ Eh].
    destruct (eat_spec "\" p1) as [[E1 Hc1]|[E1 Hc1]]; rewrite E1 in Hr.
    2: { destruct (eat "u" p1). by injection Hr as <- <-. }
    destruct (eat_spec "u" (bump 1 p1)) as [[E2 Hc2]|[E2 Hc2]]; rewrite E2 in Hr; [|by injection Hr as <- <-].
    cbn [andb] in Hr. destruct (read_fixed_hex 4 0 (bump 1 (bump 1 p1))) as [[lo p3]| | |] eqn:Elo;
      [|by injection Hr as <- <-..].
    destruct (is_low_surrogate lo) eqn:El; [|by injection Hr as <- <-].
    injection Hr as <- <-. split; [|by apply combine_surrogates_range].
    apply read_fixed_hex_walk in Elo as [Hw3 _]; [|lia].
    eapply walk_trans; [exact Hw|]. eapply walk_trans; [|exact Hw3].
    split; [done|]. simpl. split; [lia|]. rewrite <- Nat.add_assoc. by apply same_escape.
Qed.

(** After a backslash the pre-scan has passed the unit at the cursor already. *)
Lemma walk_escaped p : walk b (pos p + 1) p (bump 1 p).
Proof. by apply walk_bump. Qed.

Lemma peek_range p c : wf_units (p_units p) -> peek p = Some c -> (0 <= c <= MAX_CP)%Z.
Proof. intros Hu Hc. pose proof (wf_units_lookup _ _ _ Hu Hc). unfold MAX_CP. lia. Qed.

Lemma read_pattern_codepoint_walk p v p' : wf_units (p_units p) ->
  read_pattern_codepoint p = Ok (v, p') -> walk b (pos p + 1) p p' /\ (0 <= v <= MAX_CP)%Z.
Proof.
  unfold read_pattern_codepoint. intros Hu Hr. inv_bind Hr. apply index_Ok in Hbind.
  pose proof (peek_range p a Hu Hbind) as Ha. pose proof (walk_escaped p) as Hw.
  destruct (peek (bump 1 p)) as [lo|] eqn:El; [|by injection Hr as <- <-].
  destruct (_ && _ && _) eqn:Ep; [|by injection Hr as <- <-]. boolprop.
  injection Hr as <- <-. split; [|by apply combine_surrogates_range].
  eapply walk_trans; [exact Hw|]. eapply walk_one; [exact El|]. apply plain_high.
  unfold is_low_surrogate in *. boolprop. lia.
Qed.

Lemma octal_loop_walk more v p v' p' : (0 <= v)%Z -> octal_loop more v p = (v', p') ->
  walk b (pos p) p p' /\ (0 <= v' < (v + 1) * 8 ^ Z.of_nat more)%Z.
Proof.
  revert v p. induction more as [|more IH]; intros v p Hv Hr; simpl in Hr.
  - injection Hr as <- <-. split; [apply walk_refl|]. simpl. lia.
  - assert (Hstop : (v, p) = (v', p') ->
      walk b (pos p) p p' /\ (0 <= v' < (v + 1) * 8 ^ Z.of_nat (S more))%Z).
    { intros [= <- <-]. split; [apply walk_refl|]. rewrite Nat2Z.inj_succ, Z.pow_succ_r by lia. nia. }
    destruct (peek p) as [c|] eqn:Ec; [|auto]. destruct (is_octal c) eqn:Eo; [|auto].
    unfold is_octal in Eo. boolprop. apply IH in Hr as [Hw Hb]; [|lia]. split.
    + eapply walk_trans; [eapply walk_one; [exact Ec|]|exact Hw]. apply plain_word.
      unfold is_word, in_range. lia.
    + rewrite Nat2Z.inj_succ, Z.pow_succ_r by lia. nia.
Qed.

Lemma read_legacy_octal_walk p c v p' : peek p = Some c -> (48 <= c <= 55)%Z ->
  read_legacy_octal p = Ok (v, p') -> walk b (pos p + 1) p p' /\ (0 <= v <= MAX_CP)%Z.
Proof.
  unfold read_legacy_octal. intros Hc Hr Ho. inv_bind Ho. apply index_Ok in Hbind.
  unfold peek in Hc. rewrite Hbind in Hc. injection Hc as ->. injection Ho as Ho.
  apply octal_loop_walk in Ho as [Hw Hb]; [|lia]. split; [eapply walk_trans; [apply walk_escaped|done]|].
  unfold MAX_CP. destruct (_ <=? 3)%Z; simpl in Hb; lia.
Qed.

Lemma control_letter_walk p in_class v : control_letter p in_class = Some v ->
  walk b (pos p + 1) p (bump 2 p) /\ (0 <= v <= MAX_CP)%Z.
Proof.
  unfold control_letter. destruct (peek_at 1 p) as [l|] eqn:El; [|done]. intros Hv.
  assert (Hm : v = (l mod 32)%Z /\ is_word l = true).
  { change (b8 "_") with 95%Z in Hv. unfold is_word, is_digit in *.
    destruct (in_range 65 90 l), (in_range 97 122 l), (in_range 48 57 l), (l =? 95)%Z, in_class, (p_unicode p);
      simpl in Hv; simplify_eq; auto. }
  destruct Hm as [-> Hw]. split.
  - apply walk_bump. rewrite (same_plain _ b (pos p + 1) l El (plain_word b l Hw)). by rewrite <- Nat.add_assoc.
  - pose proof (Z.mod_pos_bound l 32). unfold MAX_CP. lia.
Qed.

Lemma parse_char_escape_walk in_class p v p' : wf_units (p_units p) ->
  parse_char_escape in_class p = Ok (v, p') -> walk b (pos p + 1) p p' /\ (0 <= v <= MAX_CP)%Z.
Proof.
  unfold parse_char_escape. intros Hu Hr. destruct (peek p) as [c|] eqn:Ec; [|done].
  pose proof (walk_escaped p) as Hw.
  do 5 (destruct (c =? b8 _)%Z; [injection Hr as <- <-; split; [done|unfold MAX_CP; lia]|]).
  destruct (c =? b8 "0")%Z eqn:E0.
  { destruct (match peek_at 1 p with Some d => _ | None => _ end).
    - destruct (p_unicode p); [done|]. apply Z.eqb_eq in E0. subst c.
      by apply (read_legacy_octal_walk p (b8 "0") v p' Ec).
    - injection Hr as <- <-. split; [done|unfold MAX_CP; lia]. }
  destruct (c =? b8 "x")%Z.
  { cbv zeta in Hr. destruct (negb _ && negb _); [by injection Hr as <- <-|].
    apply read_fixed_hex_walk in Hr as [Hw' Hv]; [|lia]. split; [by eapply walk_trans|].
    unfold MAX_CP. simpl in Hv. lia. }
  destruct (c =? b8 "u")%Z.
  { cbv zeta in Hr. assert (Hok : read_unicode_escape (bump 1 p) = Ok (v, p') \/ (v, p') = (b8 "u", bump 1 p)).
    { destruct (p_unicode (bump 1 p)); [by left|].
      destruct (read_unicode_escape (bump 1 p)); try done; [by left|right; congruence]. }
    destruct Hok as [Hok|[= -> ->]]; [|done]. apply read_unicode_escape_walk in Hok as [Hw' Hv].
    split; [by eapply walk_trans|done]. }
  destruct (c =? b8 "c")%Z eqn:E1.
  { destruct (control_letter p in_class) as [x|] eqn:El.
    - injection Hr as <- <-. by eapply control_letter_walk.
    - destruct (p_unicode p); [done|]. injection Hr as <- <-. split; [|done].
      apply Z.eqb_eq in E1. subst c. split; [by destruct p|]. split; [done|].
      symmetry. eapply same_plain; [exact Ec|by destruct b]. }
  destruct (_ && _ && _ && _); [done|]. by apply read_pattern_codepoint_walk.
Qed.

Lemma parse_class_char_escape_walk p v p' : wf_units (p_units p) ->
  parse_class_char_escape p = Ok (v, p') -> walk b (pos p + 1) p p' /\ (0 <= v <= MAX_CP)%Z.
Proof.
  unfold parse_class_char_escape. intros Hu Hr. destruct (is_ch "b" (peek p)).
  { injection Hr as <- <-. split; [apply walk_escaped|unfold MAX_CP; lia]. }
  destruct (_ && _) eqn:E; [|by apply parse_char_escape_walk in Hr].
  apply andb_prop in E as [_ E]. destruct (peek p) as [c|] eqn:Ec; [|done]. boolprop.
  apply (read_legacy_octal_walk p c v p' Ec); [lia|done].
Qed.
End Escapes.

(** ** Property escapes *)

Lemma utf16_lossy_word us : forallb is_word (utf16_lossy us) = true -> forallb is_word us = true.
Proof.
  assert (Hsur : forall u, in_range 55296 57343 u = false \/ is_word (if in_range 55296 57343 u then 65533%Z else u) = false).
  { intros u. destruct (in_range 55296 57343 u); [by right|by left]. }
  remember (length us) as n eqn:Hn. revert us Hn. induction n as [n IH] using lt_wf_ind. intros [|hi [|lo us]] ->; [done| |].
  - simpl. destruct (Hsur hi) as [->|E]; [done|by rewrite E].
  - cbn [utf16_lossy]. destruct (is_high_surrogate hi && is_low_surrogate lo) eqn:E.
    + boolprop. pose proof (combine_surrogates_bounds hi lo ltac:(done) ltac:(done)) as Hb. cbn [forallb].
      intros Hw. apply andb_prop in Hw as [Hw _]. unfold is_word, in_range in Hw. lia.
    + cbn [forallb]. intros Hw. apply andb_prop in Hw as [Hw Hr].
      destruct (Hsur hi) as [Es|Es]; [|congruence]. rewrite Es in Hw. rewrite Hw. cbn [andb].
      exact (IH (length (lo :: us)) ltac:(simpl; lia) (lo :: us) eq_refl Hr).
Qed.

Lemma is_name_word s v : forallb is_word (chars s) = true -> is_name s v = true -> forallb is_word v = true.
Proof. intros Hs Hv. unfold is_name in Hv. apply bool_decide_eq_true in Hv. by subst. Qed.

(** The scan stops at a brace; the sign it reports lies before it. *)
Lemma property_scan_spec l i eq close eq' : property_scan l i eq = (close, eq') ->
  i <= close /\ close - i <= length l /\
  (eq' = eq \/ (eq = None /\ exists e, eq' = Some e /\ i <= e < close /\ l !! (e - i) = Some (b8 "="))).
Proof.
  revert i eq. induction l as [|c l IH]; intros i eq Hs; simpl in Hs.
  - injection Hs as <- <-. split; [lia|]. split; [simpl; lia|by left].
  - destruct (c =? b8 "}")%Z; [injection Hs as <- <-; split; [lia|]; split; [simpl; lia|by left]|].
    apply IH in Hs as (Hle & Hlen & Heq). split; [lia|]. split; [simpl; lia|].
    assert (Hlater : forall e, S i <= e -> (c :: l) !! (e - i) = l !! (e - S i)).
    { intros e He. by replace (e - i) with (S (e - S i)) by lia. }
    destruct eq as [e0|].
    + destruct Heq as [->|[? _]]; [by left|done].
    + destruct (c =? b8 "=")%Z eqn:Ec.
      * right. split; [done|]. destruct Heq as [->|[? _]]; [|done]. exists i. split; [done|]. split; [lia|].
        rewrite Nat.sub_diag. apply Z.eqb_eq in Ec. by subst.
      * destruct Heq as [->|(_ & e & -> & He & Hl)]; [by left|]. right. split; [done|].
        exists e. split; [done|]. split; [lia|]. rewrite Hlater by lia. done.
Qed.

(** A value tested against fixed names is a word. *)
Ltac name_word :=
  repeat match goal with E : _ || _ = true |- _ => apply orb_prop in E as [E|E] end;
  match goal with E : is_name _ _ = true |- _ => by apply is_name_word in E end.

Section Properties.
Context `{IcuNames}.
Variable b : bool.

Definition words (v : list Z) : Prop := forallb is_word v = true.

Lemma from_ranges_wf l : Forall range_ok l -> wf_set (from_ranges l).
Proof. intros Hl. by apply (normalize_correct (mkSet l) 0). Qed.

Lemma general_category_words v set : general_category v = Some set -> words v /\ wf_set set.
Proof.
  unfold general_category. destruct (gc_strict_set v) as [l|] eqn:E.
  - intros [= <-]. apply gc_names in E as [Hw Hr]. split; [done|by apply from_ranges_wf].
  - destruct (general_category_group v) as [g|] eqn:Eg; [|done]. intros [= <-].
    split; [|apply from_ranges_wf, gc_group_ranges]. clear E. unfold general_category_group in Eg.
    repeat match type of Eg with
    | (if ?x then _ else _) = _ => destruct x eqn:?; [clear Eg|]
    end; [name_word..|done].
Qed.

Lemma binary_words v set : binary_or_general_category v = Some set -> words v /\ wf_set set.
Proof.
  unfold binary_or_general_category.
  destruct (is_name "Any" v) eqn:E1.
  { intros [= <-]. split; [name_word|]. apply insert_range_wf; [done|lia|done]. }
  destruct (is_name "ASCII" v) eqn:E2.
  { intros [= <-]. split; [name_word|]. apply insert_range_wf; [done|lia|unfold MAX_CP; lia]. }
  destruct (is_name "Assigned" v) eqn:E3.
  { destruct (general_category (chars "Cn")) as [s|] eqn:Eg; [|done]. intros [= <-].
    apply general_category_words in Eg as [_ Hs]. split; [name_word|]. by apply (negate_correct s 0). }
  cbv zeta. destruct (is_name "space" v) eqn:E4.
  - intros Hs. split; [name_word|]. destruct (new_for_ecma262 _) as [l|] eqn:El.
    + injection Hs as <-. apply ecma262_names in El as [_ Hr]. by apply from_ranges_wf.
    + by apply general_category_words in Hs as [_ Hw].
  - destruct (new_for_ecma262 _) as [l|] eqn:El; [|apply general_category_words].
    intros [= <-]. apply ecma262_names in El as [Hn Hr]. split; [done|by apply from_ranges_wf].
Qed.

Lemma script_words v ext set : script v ext = Some set -> words v /\ wf_set set.
Proof.
  unfold script. destruct ext.
  - destruct (script_strict_ext v) as [l|] eqn:E; [|done]. intros [= <-].
    apply script_ext_names in E as [Hn Hr]. split; [done|by apply from_ranges_wf].
  - destruct (script_strict_set v) as [l|] eqn:E; [|done]. intros [= <-].
    apply script_names in E as [Hn Hr]. split; [done|by apply from_ranges_wf].
Qed.

Lemma resolve_property_words name value set : resolve_property name value = Ok set ->
  words name /\ (forall v, value = Some v -> words v) /\ wf_set set.
Proof.
  assert (Hsome : forall (o : option CodePointSet), some_or_unknown o = Ok set -> o = Some set)
    by (intros [s|]; [by intros [= ->]|done]).
  unfold resolve_property. intros Hr. destruct value as [v|].
  - enough (Hnv : words name /\ words v /\ wf_set set).
    { destruct Hnv as (? & ? & ?). split; [done|]. split; [|done]. by intros ? [= <-]. }
    destruct (is_name "General_Category" name || is_name "gc" name) eqn:E1.
    { apply Hsome, general_category_words in Hr as [Hv Hs]. split; [name_word|done]. }
    destruct (is_name "Script" name || is_name "sc" name) eqn:E2.
    { apply Hsome, script_words in Hr as [Hv Hs]. split; [name_word|done]. }
    destruct (is_name "Script_Extensions" name || is_name "scx" name) eqn:E3; [|done].
    apply Hsome, script_words in Hr as [Hv Hs]. split; [name_word|done].
  - apply Hsome, binary_words in Hr as [Hn Hs]. by split.
Qed.

(** Units whose text is a word are all plain. *)
Lemma same_slice us i j : i <= j -> j <= length us -> words (utf16_lossy (take (j - i) (drop i us))) ->
  same us b i j.
Proof.
  intros Hij Hj Hw. apply utf16_lossy_word in Hw. replace j with (i + (j - i)) at 1 by lia.
  apply same_plains. intros k Hk. destruct (lookup_lt_is_Some_2 us (i + k) ltac:(lia)) as [c Hc].
  exists c. split; [done|]. apply plain_word. apply (proj1 (forallb_forall _ _) Hw), list_elem_of_In.
  apply list_elem_of_lookup. exists k. rewrite lookup_take_lt by done. by rewrite lookup_drop.
Qed.

Lemma parse_property_body_walk p set p' : parse_property_body p = Ok (set, p') ->
  walk b (pos p) p p' /\ wf_set set.
Proof.
  unfold parse_property_body, read_property_name_body. intros Hr. inv_bind Hr. destruct a as [[name value] p1].
  apply rbind_Ok in Hr as (set' & Hres & Hr). injection Hr as <- <-.
  destruct (eat_spec "{" p) as [[E Hc]|[E Hc]]; rewrite E in Hbind; [|done].
  destruct (property_scan _ _ _) as [close eq] eqn:Es. cbv zeta in Hbind.
  apply property_scan_spec in Es as (Hle & Hlen & Heq). simpl in Hle, Hlen. rewrite length_drop in Hlen.
  destruct (eat_spec "}" (with_pos close (bump 1 p))) as [[E' Hc']|[E' Hc']]; rewrite E' in Hbind; [|done].
  injection Hbind as Hnv <-. apply resolve_property_words in Hres as (Hn & Hv & Hs). split; [|done].
  assert (Hlen' : close < length (p_units p)) by (by apply lookup_lt_Some in Hc').
  eapply walk_trans; [eapply walk_one; [exact Hc|by destruct b]|].
  split; [done|]. simpl. split; [lia|]. transitivity close; [|eapply same_plain; [exact Hc'|by destruct b]].
  destruct Heq as [->|(_ & e & -> & He & Hl)]; simpl in *.
  - injection Hnv as <- _. by apply same_slice; [lia|lia|].
  - injection Hnv as <- <-. rewrite lookup_drop in Hl. replace (pos p + 1 + (e - (pos p + 1))) with e in Hl by lia.
    transitivity e; [apply same_slice; [lia|lia|done]|].
    rewrite (same_plain _ b e _ Hl) by (by destruct b). apply same_slice; [lia|lia|]. by apply Hv.
Qed.

Lemma digit_set_wf : wf_set digit_set. Proof. vm_compute. intuition discriminate. Qed.
Lemma word_set_wf : wf_set word_set. Proof. vm_compute. intuition discriminate. Qed.
Lemma space_set_wf : wf_set space_set. Proof. vm_compute. intuition discriminate. Qed.

Lemma try_class_escape_set_walk p r p' : try_class_escape_set p = Ok (r, p') ->
  match r with
  | Some (set, neg) => walk b (pos p + 1) p p' /\ wf_set set
  | None => p' = p
  end.
Proof.
  unfold try_class_escape_set. intros Hr. destruct (peek p) as [c|] eqn:Ec; [|done].
  pose proof (walk_escaped b p) as Hw.
  do 2 (destruct (c =? b8 _)%Z; [injection Hr as <- <-; split; [done|apply digit_set_wf]|]).
  do 2 (destruct (c =? b8 _)%Z; [injection Hr as <- <-; split; [done|apply word_set_wf]|]).
  do 2 (destruct (c =? b8 _)%Z; [injection Hr as <- <-; split; [done|apply space_set_wf]|]).
  destruct (_ && _); [|by injection Hr as <- <-]. inv_bind Hr. destruct a as [set p1].
  apply parse_property_body_walk in Hbind as [Hw1 Hs]. injection Hr as <- <-.
  split; [by eapply walk_trans|]. destruct (c =? b8 "P")%Z; [by apply (negate_correct set 0)|done].
Qed.
End Properties.

(** ** Group names *)

Section Names.
Context `{IcuNames}.
Variable b : bool.
Variable us : list Z.
Hypothesis Hunits : wf_units us.

Lemma name_char_plain c : (0 <= c)%Z -> is_group_name_continue c = true -> plain_at b c = true.
Proof.
  intros Hc Hn. destruct (decide (c < 128)%Z) as [Hlt|]; [|apply plain_high; lia].
  unfold is_group_name_continue, is_group_name_start in Hn.
  destruct (is_xid_start c) eqn:E1; [apply plain_word, xid_start_ascii; done|].
  destruct (is_xid_continue c) eqn:E2; [apply plain_word, xid_continue_ascii; done|].
  rewrite plain_at_eq. change (b8 "$") with 36%Z in Hn. change (b8 "_") with 95%Z in Hn. destruct b; lia.
Qed.

Lemma fixed_hex_walk n i v v' next : fixed_hex n us i v = Some (v', next) -> same us b i next /\ i <= next.
Proof.
  revert i v. induction n as [|n IH]; intros i v Hf; simpl in Hf; [by injection Hf as <- <-|].
  destruct (us !! i) as [c|] eqn:Ec; [|done]. destruct (hex_digit c) as [d|] eqn:Ed; [|done].
  apply IH in Hf as [Hs Hle]. split; [|lia]. apply (hex_digit_spec b) in Ed as [_ Hp].
  rewrite (same_plain us b i c Ec Hp). by rewrite Nat.add_1_r.
Qed.

Lemma braced_hex_walk fuel i v any ch next :
  braced_hex fuel us i v any = Some (ch, next) -> same us b i next /\ i <= next.
Proof.
  revert i v any. induction fuel as [|fuel IH]; intros i v any Hf; [done|]. simpl in Hf.
  destruct (us !! i) as [c|] eqn:Ec; [|done]. destruct (c =? b8 "}")%Z eqn:E.
  - destruct any; [|done]. unfold scalar_at in Hf. destruct (is_scalar v); [|done]. injection Hf as <- <-.
    apply Z.eqb_eq in E. subst c. split; [|lia]. rewrite <- Nat.add_1_r.
    eapply same_plain; [exact Ec|by destruct b].
  - destruct (hex_digit c) as [d|] eqn:Ed; [|done]. destruct (1114111 <? _)%Z; [done|].
    apply IH in Hf as [Hs Hle]. split; [|lia]. apply (hex_digit_spec b) in Ed as [_ Hp].
    rewrite (same_plain us b i c Ec Hp). by rewrite Nat.add_1_r.
Qed.

Lemma scalar_at_next cp n ch next : scalar_at cp n = Some (ch, next) -> next = n /\ ch = cp.
Proof. unfold scalar_at. destruct (is_scalar cp); [|done]. by intros [= <- <-]. Qed.

Lemma name_escape_walk i ch next :
  read_group_name_unicode_escape us i = Some (ch, next) -> same us b i next /\ i <= next.
Proof.
  unfold read_group_name_unicode_escape. intros Hr. destruct (is_ch "{" (us !! i)) eqn:Eb.
  - apply is_ch_spec in Eb. apply braced_hex_walk in Hr as [Hs Hle]. split; [|lia].
    rewrite (same_plain us b i _ Eb) by (by destruct b). by rewrite Nat.add_1_r.
  - destruct (read_group_name_fixed_hex us i) as [[hi n1]|] eqn:Eh; [|done].
    apply fixed_hex_walk in Eh as [Hs1 Hle1].
    destruct (_ && _ && _) eqn:Ee; [|apply scalar_at_next in Hr as [-> _]; done].
    apply andb_prop in Ee as [Ee _]. apply andb_prop in Ee as [_ Ee]. apply is_ch_spec in Ee.
    destruct (read_group_name_fixed_hex us (n1 + 2)) as [[lo n2]|] eqn:El;
      [|apply scalar_at_next in Hr as [-> _]; done].
    apply fixed_hex_walk in El as [Hs2 Hle2].
    destruct (is_low_surrogate lo); apply scalar_at_next in Hr as [-> _]; [|done].
    split; [|lia]. by rewrite Hs1, (same_escape us b n1 Ee).
Qed.

Lemma name_code_point_walk i ch next : read_group_name_code_point us i = Some (ch, next) ->
  is_group_name_continue ch = true -> same us b i next /\ i <= next.
Proof.
  unfold read_group_name_code_point. intros Hr Hn. destruct (us !! i) as [hi|] eqn:Eh; [|done].
  assert (Hone : scalar_at hi (i + 1) = Some (ch, next) -> same us b i next /\ i <= next).
  { intros [-> ->]%scalar_at_next. split; [|lia]. eapply same_plain; [exact Eh|].
    apply name_char_plain; [|done]. pose proof (wf_units_lookup _ _ _ Hunits Eh). lia. }
  destruct (us !! (i + 1)) as [lo|] eqn:El; [|auto].
  destruct (is_high_surrogate hi && is_low_surrogate lo) eqn:Es; [|auto]. boolprop.
  unfold is_high_surrogate, is_low_surrogate in *. boolprop. apply scalar_at_next in Hr as [-> _].
  split; [|lia]. transitivity (i + 1); [eapply same_plain; [exact Eh|apply plain_high; lia]|].
  replace (i + 2) with (i + 1 + 1) by lia. eapply same_plain; [exact El|apply plain_high; lia].
Qed.

Lemma group_name_loop_walk fuel i acc first name next :
  group_name_loop fuel us i acc first = Some (name, next) -> same us b i next /\ i < next.
Proof.
  revert i acc first. induction fuel as [|fuel IH]; intros i acc first Hr; [done|]. simpl in Hr.
  destruct (us !! i) as [c|] eqn:Ec; [|done]. destruct (c =? b8 ">")%Z eqn:E.
  - destruct acc; [done|]. injection Hr as <- <-. apply Z.eqb_eq in E. subst c. split; [|lia].
    rewrite <- Nat.add_1_r. eapply same_plain; [exact Ec|by destruct b].
  - destruct (if (c =? b8 "\")%Z && is_ch "u" (us !! (i + 1)) then read_group_name_unicode_escape us (i + 2)
              else read_group_name_code_point us i) as [[ch n1]|] eqn:Er; [|done].
    destruct (if first then is_group_name_start ch else is_group_name_continue ch) eqn:En; [|done]. apply IH in Hr as [Hs Hle].
    assert (Hn : is_group_name_continue ch = true)
      by (destruct first; [unfold is_group_name_continue; by rewrite En|done]).
    destruct (_ && _) eqn:Ee.
    + apply andb_prop in Ee as [Ee _]. apply Z.eqb_eq in Ee. subst c.
      apply name_escape_walk in Er as [Hs1 Hle1]. split; [|lia]. by rewrite (same_escape us b i Ec), Hs1.
    + apply name_code_point_walk in Er as [Hs1 Hle1]; [|done]. split; [|lia]. by rewrite Hs1.
Qed.

Lemma read_group_name_walk i name next :
  read_group_name us i = Some (name, next) -> same us b i next /\ i < next.
Proof. apply group_name_loop_walk. Qed.
End Names.
