(* ===== verification/ParserSound.v ===== *)
(** * What the parser returns

    Outside [v] mode a successful parse returns a tree whose capturing groups are
    numbered [1, 2, ...] in source order, exactly as many and named exactly as
    the pre-scan announced, whose backreferences name existing groups, whose
    quantifiers are ordered and within 32 bits, and whose classes are canonical
    sets without strings. *)

From Stdlib Require Import String.
From S2P Require Import Prelude Unicode Classes Program Parser Lower Prescan.

(** The names of the capturing groups, in source order. *)
Fixpoint capture_names (n : Node) : list (option (list Z)) :=
  match n with
  | Node.Group kind body =>
      (match kind with Capturing _ name => [name] | _ => [] end) ++ capture_names body
  | Node.Concat nodes | Node.Alternate nodes => flat_map capture_names nodes
  | Node.Repeat node _ => capture_names node
  | _ => []
  end.

Definition bounds_ok (q : Quantifier) : Prop :=
  (0 <= qmin q <= u32_max)%Z /\
  match qmax q with Some m => (qmin q <= m <= u32_max)%Z | None => True end.

Fixpoint tree_ok (gc : nat) (n : Node) : Prop :=
  match n with
  | Node.Char cp _ => (0 <= cp <= MAX_CP)%Z
  | Node.Class set _ _ => strings set = [] /\ wf_set (code_points set)
  | Node.BackRef gs _ => gs <> [] /\ Forall (fun g => 1 <= g <= gc) gs
  | Node.Concat nodes => foldr (fun n P => tree_ok gc n /\ P) True nodes
  | Node.Alternate alts => alts <> [] /\ foldr (fun n P => tree_ok gc n /\ P) True alts
  | Node.Repeat node q => tree_ok gc node /\ bounds_ok q
  | Node.Group kind body => tree_ok gc body
  | _ => True
  end.

Definition trees_ok (gc : nat) (l : list Node) : Prop := foldr (fun n P => tree_ok gc n /\ P) True l.

Lemma trees_ok_app gc l1 l2 : trees_ok gc l1 -> trees_ok gc l2 -> trees_ok gc (l1 ++ l2).
Proof. induction l1 as [|n l1 IH]; simpl; [done|]. intros [Hn Hl] H2. auto. Qed.

Definition seq_names (l : list Node) : list (option (list Z)) := flat_map capture_names l.
Definition seq_indices (l : list Node) : list nat := flat_map capture_indices l.

Section Sound.
Context `{IcuNames}.

(** The nodes [l] were parsed between [p] and [p']: only the cursor and the group
    counter moved, the pre-scan found the same groups on the way, and their
    numbers continue those of [p]. *)
Record parsed_as (p : Parser) (l : list Node) (p' : Parser) : Prop := mkParsedAs {
  pa_state : p' = with_next_group (next_group p + length (seq_names l)) (with_pos (pos p') p);
  pa_pos : pos p <= pos p';
  pa_scan : forall names out, scan_from (p_units p) (pos p) false names out ->
    scan_from (p_units p) (pos p') false (names ++ seq_names l) out;
  pa_indices : seq_indices l = seq (next_group p + 1) (length (seq_names l));
  pa_trees : trees_ok (total_groups p) l
}.

Lemma parsed_as_refl p : parsed_as p [] p.
Proof.
  split; simpl; try done.
  - rewrite Nat.add_0_r. by destruct p.
  - intros names out. by rewrite app_nil_r.
Qed.

Lemma parsed_as_app p l1 p1 l2 p2 :
  parsed_as p l1 p1 -> parsed_as p1 l2 p2 -> parsed_as p (l1 ++ l2) p2.
Proof.
  intros [E1 H1 S1 I1 T1] [E2 H2 S2 I2 T2]. rewrite E1 in E2, S2, I2, T2. simpl in *.
  split; unfold seq_names, seq_indices in *; rewrite ?flat_map_app, ?length_app.
  - etransitivity; [exact E2|]. unfold with_next_group, with_pos. simpl. f_equal. lia.
  - lia.
  - intros names out Hs. rewrite app_assoc. auto.
  - rewrite seq_app, I1, I2. f_equal. f_equal. lia.
  - by apply trees_ok_app.
Qed.

(** Only the cursor moved, and the pre-scan counted nothing on the way. *)
Definition hop (p p' : Parser) : Prop :=
  p' = with_pos (pos p') p /\ pos p <= pos p' /\
  forall names out, scan_from (p_units p) (pos p) false names out ->
    scan_from (p_units p) (pos p') false names out.

Lemma hop_walk p p' : walk false (pos p) p p' -> hop p p'.
Proof. intros (E & Hle & Hs). split; [done|]. split; [done|]. intros names out. apply Hs. Qed.

Lemma parsed_hop p l p' p'' : parsed_as p l p' -> hop p' p'' -> parsed_as p l p''.
Proof.
  intros [E Hle Hs Hi Ht] (E' & Hle' & Hs'). split; [|lia| |done|done].
  - etransitivity; [exact E'|]. rewrite E. done.
  - intros names out Hn. rewrite E in Hs'. apply Hs', Hs, Hn.
Qed.

(** A node without groups. *)
Lemma parsed_leaf p n p' : hop p p' -> tree_ok (total_groups p) n ->
  capture_names n = [] -> capture_indices n = [] -> parsed_as p [n] p'.
Proof.
  intros Hh Hn Hc Hi. eapply parsed_hop; [|exact Hh].
  split; unfold seq_names, seq_indices; simpl; rewrite ?Hc, ?Hi; simpl; try done.
  - rewrite Nat.add_0_r. by destruct p.
  - intros names out. by rewrite app_nil_r.
Qed.

(** Nodes built from one another without new groups. *)
Lemma parsed_as_node p l n p' : parsed_as p l p' ->
  capture_names n = seq_names l -> capture_indices n = seq_indices l ->
  (trees_ok (total_groups p) l -> tree_ok (total_groups p) n) -> parsed_as p [n] p'.
Proof.
  intros [E Hle Hs Hi Ht] Hc Hci Hok.
  split; unfold seq_names, seq_indices in *; simpl; rewrite ?app_nil_r, ?Hc, ?Hci; auto.
Qed.

(** ** Classes *)

Lemma insert_wf' set cp : wf_set set -> (0 <= cp <= MAX_CP)%Z -> wf_set (insert set cp).
Proof. intros Hs Hc. apply insert_wf; [done|lia]. Qed.

Lemma union_neg_wf set sub (neg : bool) : wf_set set -> wf_set sub ->
  wf_set (union_with set (if neg then negate sub else sub)).
Proof.
  intros Hs Hsub. assert (wf_set (if neg then negate sub else sub)) as Hn
    by (destruct neg; [by apply (negate_correct sub 0)|done]).
  by apply (union_with_correct set _ 0).
Qed.

Lemma insert_class_range_ok set lo hi p set' p' : wf_set set -> (0 <= lo <= MAX_CP)%Z -> (0 <= hi <= MAX_CP)%Z ->
  insert_class_range set lo hi p = Ok (set', p') -> p' = p /\ wf_set set'.
Proof.
  unfold insert_class_range. intros Hs Hlo Hhi Hr. destruct (hi <? lo)%Z; [done|]. injection Hr as <- <-.
  split; [done|]. apply insert_range_wf; [done|lia|lia].
Qed.

Lemma read_plain_walk b p c v p' : wf_units (p_units p) -> peek p = Some c -> plain_at b c = true ->
  read_pattern_codepoint p = Ok (v, p') -> walk b (pos p) p p' /\ (0 <= v <= MAX_CP)%Z.
Proof.
  intros Hu Hc Hp Hr. apply (read_pattern_codepoint_walk b) in Hr as [Hw Hv]; [|done]. split; [|done].
  eapply walk_from; [|exact Hw]. by eapply same_plain.
Qed.

(** An escape that starts at the cursor: the backslash, then the rest. *)
Lemma walk_backslash b p p' : peek p = Some (b8 "\") -> walk b (pos (bump 1 p) + 1) (bump 1 p) p' ->
  walk b (pos p) p p'.
Proof.
  intros Hc (E & Hle & Hs). simpl in *. split; [by rewrite E at 1|]. split; [lia|].
  rewrite <- Nat.add_assoc in Hs. by rewrite (same_escape _ b _ Hc).
Qed.

Lemma finish_class_atom_ok set lo p set' p' : wf_units (p_units p) -> wf_set set -> (0 <= lo <= MAX_CP)%Z ->
  finish_class_atom set lo p = Ok (set', p') -> walk true (pos p) p p' /\ wf_set set'.
Proof.
  intros Hu Hs Hlo Hr. unfold finish_class_atom in Hr. pose proof (insert_wf' set lo Hs Hlo) as Hins.
  destruct (is_ch "-" (peek p) && negb (is_ch "]" (peek_at 1 p))) eqn:E.
  2: { injection Hr as <- <-. split; [apply walk_refl|done]. }
  apply andb_prop in E as [E1 E2]. apply is_ch_spec in E1. apply negb_true_iff in E2.
  assert (Hdash : walk true (pos p) p (bump 1 p)) by (by eapply walk_one).
  cbv zeta in Hr. destruct (is_ch "\" (peek (bump 1 p))) eqn:Eb.
  - apply is_ch_spec in Eb. destruct (next_is_class_escape _).
    + destruct (p_unicode _); [done|]. inv_bind Hr. destruct a as [o p1].
      apply (try_class_escape_set_walk true) in Hbind. destruct o as [[sub neg]|]; [|done].
      destruct Hbind as [Hw Hsub]. injection Hr as <- <-. split.
      * eapply walk_trans; [exact Hdash|]. by eapply walk_backslash.
      * apply union_neg_wf; [|done]. apply insert_wf'; [done|]. by vm_compute.
    + inv_bind Hr. destruct a as [hi p1]. apply (parse_class_char_escape_walk true) in Hbind as [Hw Hhi]; [|done].
      apply insert_class_range_ok in Hr as [-> Hs']; [|done|done|done]. split; [|done].
      eapply walk_trans; [exact Hdash|]. by eapply walk_backslash.
  - inv_bind Hr. destruct a as [hi p1]. unfold read_pattern_codepoint in Hbind. pose proof Hbind as Hrd. inv_bind Hbind.
    apply index_Ok in Hbind0.
    assert (Hplain : plain_at true a = true).
    { unfold peek, peek_at in *. simpl in *. rewrite Hbind0 in Eb, E2. unfold plain_at. simpl in *. by rewrite Eb, E2. }
    apply (read_plain_walk true (bump 1 p) a hi p1 Hu Hbind0 Hplain) in Hrd as [Hw Hhi].
    apply insert_class_range_ok in Hr as [-> Hs']; [|done|done|done]. split; [|done]. by eapply walk_trans.
Qed.

Lemma parse_class_member_ok set c p set' p' : wf_units (p_units p) -> wf_set set ->
  peek p = Some c -> (c =? b8 "]")%Z = false ->
  parse_class_member set p = Ok (set', p') -> walk true (pos p) p p' /\ wf_set set'.
Proof.
  intros Hu Hs Hc Hb Hr. unfold parse_class_member in Hr. destruct (is_ch "\" (peek p)) eqn:Ee.
  - apply is_ch_spec in Ee. cbv zeta in Hr. inv_bind Hr. destruct a as [o p1].
    apply (try_class_escape_set_walk true) in Hbind. destruct o as [[sub neg]|].
    + destruct Hbind as [Hw Hsub]. destruct (_ && _ && _); [done|]. injection Hr as <- <-.
      split; [by eapply walk_backslash|by apply union_neg_wf].
    + subst p1. inv_bind Hr. destruct a as [lo p2].
      apply (parse_class_char_escape_walk true) in Hbind as [Hw Hlo]; [|done].
      apply walk_backslash in Hw; [|done].
      apply finish_class_atom_ok in Hr as [Hw2 Hs2]; [|by rewrite (walk_units _ _ _ _ Hw)|done|done].
      split; [by eapply walk_trans|done].
  - inv_bind Hr. destruct a as [lo p1]. rewrite Hc in Ee. simpl in Ee.
    apply (read_plain_walk true p c lo p1 Hu Hc) in Hbind as [Hw Hlo];
      [|unfold plain_at; by rewrite Ee, Hb].
    apply finish_class_atom_ok in Hr as [Hw2 Hs2]; [|by rewrite (walk_units _ _ _ _ Hw)|done|done].
    split; [by eapply walk_trans|done].
Qed.

Lemma class_members_ok fuel set p set' p' : wf_units (p_units p) -> wf_set set ->
  class_members fuel set p = Ok (set', p') ->
  wf_set set' /\ exists q, walk true (pos p) p q /\ peek q = Some (b8 "]") /\ p' = bump 1 q.
Proof.
  revert set p. induction fuel as [|fuel IH]; intros set p Hu Hs Hr; [done|]. simpl in Hr.
  destruct (peek p) as [c|] eqn:Ec; [|done]. destruct (c =? b8 "]")%Z eqn:Eb.
  - injection Hr as <- <-. apply Z.eqb_eq in Eb. subst c. split; [done|]. exists p.
    split; [apply walk_refl|done].
  - inv_bind Hr. destruct a as [set1 p1]. apply (parse_class_member_ok set c) in Hbind as [Hw Hs1]; [|done..].
    apply IH in Hr as (Hs' & q & Hq & Hpq & ->); [|by rewrite (walk_units _ _ _ _ Hw)|done].
    split; [done|]. exists q. split; [by eapply walk_trans|done].
Qed.

Lemma enter_spec p p' : enter p = Ok p' -> p' = with_depth (depth p + 1) p /\ depth p + 1 <= MAX_NESTING_DEPTH.
Proof. unfold enter. destruct (_ <? _) eqn:E; [done|]. intros [= <-]. apply Nat.ltb_ge in E. done. Qed.

(** Between entering and leaving, only the cursor moved. *)
Lemma leave_enter p q n : q = with_pos n (with_depth (depth p + 1) p) -> leave q = with_pos n p.
Proof. intros ->. unfold leave, with_depth, with_pos. simpl. f_equal. lia. Qed.

Lemma parse_class_ok p n p' : wf_units (p_units p) -> unicode_sets (p_flags p) = false ->
  peek p = Some (b8 "[") -> parse_class p = Ok (n, p') -> parsed_as p [n] p'.
Proof.
  unfold parse_class. intros Hu Hv Hc Hr. rewrite Hv in Hr. inv_bind Hr. apply enter_spec in Hbind as [-> Hd].
  cbv zeta in Hr. set (p1 := bump 1 (with_depth (depth p + 1) p)) in *.
  destruct (eat "^" p1) as [neg p2] eqn:Ee. apply (walk_eat true "^") in Ee; [|done].
  inv_bind Hr. destruct a as [set p3]. injection Hr as <- <-.
  apply class_members_ok in Hbind as (Hs & q & Hq & Hpq & ->); [|by rewrite (walk_units _ _ _ _ Ee)|done].
  pose proof (walk_trans _ _ _ _ _ Ee Hq) as (E & Hle & Hw). unfold peek in Hpq. rewrite E in Hpq. simpl in *.
  assert (El : leave (bump 1 q) = with_pos (pos q + 1) p).
  { apply leave_enter. rewrite E. done. }
  apply parsed_leaf; [|done..]. rewrite El. split; [done|]. simpl. split; [lia|].
  intros names out Hn. apply scan_close_class; [done|]. apply Hw. by apply scan_open_class.
Qed.

(** ** Escapes outside classes *)

Lemma fold_decimal_pos ds v : (1 <= v)%Z -> Forall digit_ok ds ->
  (1 <= fold_left (fun v d => Z.min (v * 10 + d) u32_max) ds v)%Z.
Proof.
  intros Hv Hd. revert v Hv. induction Hd as [|d ds Hd _ IH]; intros v Hv; simpl; [done|].
  apply IH. unfold digit_ok, u32_max in *. lia.
Qed.

Lemma read_decimal_spec p c value p' : peek p = Some c -> (49 <= c <= 57)%Z -> read_decimal p = (value, p') ->
  walk false (pos p + 1) p p' /\ (1 <= value)%Z.
Proof.
  unfold read_decimal, peek. intros Hc Hr Hd. cbv zeta in Hd. rewrite (drop_S _ _ _ Hc) in Hd. cbn [digit_run] in Hd.
  rewrite (proj2 (in_range_spec 48 57 c) ltac:(lia) : is_digit c = true) in Hd. injection Hd as <- <-. split.
  - apply walk_bump. simpl. assert (Hs : forall a n, a + S n = a + 1 + n) by lia. rewrite (Hs _ (length _)).
    apply same_digits. by rewrite Nat.add_1_r.
  - simpl. apply fold_decimal_pos; [unfold u32_max; lia|apply digit_run_ok].
Qed.

Lemma name_to_indices_range p name : total_groups p = length (p_group_names p) ->
  Forall (fun g => 1 <= g <= total_groups p) (name_to_indices p name).
Proof.
  intros Ht. apply Forall_forall. intros g Hg. unfold name_to_indices in Hg.
  apply list_elem_of_omap in Hg as (o & Ho & ->). apply elem_of_lookup_imap_1 in Ho as (i & n & Ho & Hn).
  case_bool_decide; [|done]. simplify_eq. apply lookup_lt_Some in Hn. lia.
Qed.

(** What every parsing method is called with. *)
Record ready (p : Parser) : Prop := mkReady {
  ready_units : wf_units (p_units p);
  ready_legacy : unicode_sets (p_flags p) = false;
  ready_names : total_groups p = length (p_group_names p)
}.

Definition leaf (gc : nat) (n : Node) : Prop :=
  tree_ok gc n /\ capture_names n = [] /\ capture_indices n = [].

Lemma numeric_backref_ok p c n p' : ready p -> peek p = Some c -> (49 <= c <= 57)%Z ->
  parse_numeric_backref p = Ok (n, p') -> walk false (pos p + 1) p p' /\ leaf (total_groups p) n.
Proof.
  intros [Hu _ Ht] Hc Hrange Hr. unfold parse_numeric_backref in Hr. destruct (read_decimal p) as [value p1] eqn:Ed.
  apply (read_decimal_spec p c) in Ed as [Hw Hv]; [|done..].
  destruct (value <=? _)%Z eqn:El.
  - injection Hr as <- <-. apply Z.leb_le in El. split; [done|]. split; [|done]. split; [done|].
    constructor; [lia|constructor].
  - destruct (p_unicode p); [done|]. rewrite Hc in Hr. destruct (in_range 49 55 c) eqn:Eo.
    + inv_bind Hr. destruct a as [cp p2]. injection Hr as <- <-. boolprop.
      by apply (read_legacy_octal_walk false p c cp p2 Hc ltac:(lia)) in Hbind as [Hw2 Hcp].
    + injection Hr as <- <-. split; [apply walk_escaped|]. split; [|done]. simpl. unfold MAX_CP. lia.
Qed.

Lemma named_backref_ok p n p' : ready p -> peek p = Some (b8 "k") ->
  parse_named_backref p = Ok (n, p') -> walk false (pos p + 1) p p' /\ leaf (total_groups p) n.
Proof.
  intros [Hu _ Ht] Hc Hr. unfold parse_named_backref in Hr.
  destruct (_ && is_ch "<" (peek_at 1 p)) eqn:El.
  - apply andb_prop in El as [_ El]. apply is_ch_spec in El.
    destruct (read_group_name _ _) as [[name next]|] eqn:En; [|done].
    apply (read_group_name_walk false _ Hu) in En as [Hs Hlt]. cbv zeta in Hr.
    pose proof (name_to_indices_range (with_pos next p) name Ht) as Hall.
    destruct (name_to_indices (with_pos next p) name) as [|g gs] eqn:Eg; [done|]. injection Hr as <- <-.
    split; [|by split]. split; [done|]. simpl. split; [lia|]. rewrite <- Hs.
    replace (pos p + 2) with (pos p + 1 + 1) by lia. by eapply same_plain.
  - destruct (_ || _); [done|]. injection Hr as <- <-. split; [apply walk_escaped|]. by split.
Qed.

Lemma parse_escape_atom_ok p n p' : ready p -> peek p = Some (b8 "\") ->
  parse_escape_atom p = Ok (n, p') -> parsed_as p [n] p'.
Proof.
  intros Hrd Hc Hr. unfold parse_escape_atom in Hr. cbv zeta in Hr. set (q := bump 1 p) in *.
  assert (Hq : ready q) by (by destruct Hrd).
  enough (Hgoal : walk false (pos q + 1) q p' /\ leaf (total_groups q) n).
  { destruct Hgoal as [Hw (Ht & Hn & Hi)]. apply parsed_leaf; [|done..]. by apply hop_walk, walk_backslash. }
  destruct (peek q) as [c|] eqn:Eq; [|done].
  do 2 (destruct (c =? b8 _)%Z; [injection Hr as <- <-; split; [apply walk_escaped|by split]|]).
  destruct (c =? b8 "k")%Z eqn:Ek.
  { apply Z.eqb_eq in Ek. subst c. by apply named_backref_ok. }
  destruct (in_range 49 57 c) eqn:En.
  { boolprop. by apply (numeric_backref_ok q c). }
  rewrite (ready_legacy _ Hq), andb_false_r in Hr. inv_bind Hr. destruct a as [o p1].
  apply (try_class_escape_set_walk false) in Hbind. destruct o as [[set neg]|].
  - injection Hr as <- <-. destruct Hbind as [Hw Hs]. split; [done|]. by split.
  - subst p1. inv_bind Hr. destruct a as [cp p1]. injection Hr as <- <-.
    apply (parse_char_escape_walk false) in Hbind as [Hw Hv]; [|apply Hq]. split; [done|]. by split.
Qed.

(** ** Quantifiers *)

Lemma read_digits_walk p : walk false (pos p) p (read_decimal_digits p).2.
Proof. unfold read_decimal_digits. simpl. apply walk_bump. by apply same_digits. Qed.

Lemma digits_to_u32 ds : canonical_digits ds -> decimal_digits_to_u32 ds = Z.min u32_max (digits_value ds).
Proof. intros [Hd _]. unfold decimal_digits_to_u32. rewrite digits_loop_exact; [done|unfold u32_max; lia|done]. Qed.

Lemma u32_range ds : canonical_digits ds -> (0 <= decimal_digits_to_u32 ds <= u32_max)%Z.
Proof.
  intros Hd. rewrite digits_to_u32 by done. pose proof (digits_value_bounds ds (proj1 Hd)). unfold u32_max. lia.
Qed.

Lemma brace_quantifier_ok p min max inverted p' : peek p = Some (b8 "{") ->
  parse_brace_quantifier p = Ok ((min, max, inverted), p') ->
  walk false (pos p) p p' /\ (inverted = false -> bounds_ok (mkQuant min max true)).
Proof.
  intros Hc Hr. unfold parse_brace_quantifier in Hr. cbv zeta in Hr.
  pose proof (walk_one false p _ Hc eq_refl) as Hw0.
  pose proof (read_digits_walk (bump 1 p)) as Hw1. pose proof (read_decimal_digits_value (bump 1 p)) as [Hc1 _].
  destruct (read_decimal_digits (bump 1 p)) as [lo p1]. simpl in Hw1, Hc1.
  destruct (eat "," p1) as [comma p2] eqn:E2. apply (walk_eat false ",") in E2; [|done].
  set (m := if comma then _ else _) in Hr.
  assert (Hm : walk false (pos p2) p2 m.2 /\ match m.1 with Some hi => canonical_digits hi | None => True end).
  { unfold m. destruct comma; [|split; [apply walk_refl|done]].
    destruct (is_ch "}" (peek p2)); [split; [apply walk_refl|done]|].
    pose proof (read_digits_walk p2) as Hw. pose proof (read_decimal_digits_value p2) as [Hc2 _].
    by destruct (read_decimal_digits p2). }
  destruct m as [hi p3]. destruct Hm as [Hw3 Hhi]. simpl in Hw3, Hhi.
  destruct (eat "}" p3) as [close p4] eqn:E4. apply (walk_eat false "}") in E4; [|done].
  destruct close; [|done]. injection Hr as <- <- Hinv <-. split; [eauto using walk_trans|].
  intros ->. split; simpl; [by apply u32_range|]. destruct hi as [hi|]; simpl; [|done].
  pose proof (u32_range hi Hhi) as Hu. rewrite decimal_digits_cmp_value in Hinv by done.
  rewrite !digits_to_u32 in * by done. destruct (Z.compare_spec (digits_value hi) (digits_value lo)); [lia|done|lia].
Qed.

Lemma maybe_quantify_ok atom p n p' : maybe_quantify atom p = Ok (n, p') ->
  walk false (pos p) p p' /\ (n = atom \/ exists q, n = Node.Repeat atom q /\ bounds_ok q).
Proof.
  unfold maybe_quantify. intros Hr. destruct (_ && _ && _); [done|]. cbv zeta in Hr.
  assert (Hfin : forall min max (inverted : bool) q,
    (let (lz, q) := eat "?" q in
     if inverted then p_err q "quantifier min exceeds max"
     else Ok (Node.Repeat atom (mkQuant min max (negb lz)), q)) = Ok (n, p') ->
    (inverted = false -> bounds_ok (mkQuant min max true)) ->
    walk false (pos q) q p' /\ (n = atom \/ exists q, n = Node.Repeat atom q /\ bounds_ok q)).
  { intros min max inverted q Hf Hb. destruct (eat "?" q) as [lz q'] eqn:Ee.
    apply (walk_eat false "?") in Ee; [|done]. destruct inverted; [done|]. injection Hf as <- <-.
    split; [done|]. right. eexists. split; [done|]. exact (Hb eq_refl). }
  assert (Hu : (0 <= 1 <= u32_max)%Z) by (unfold u32_max; lia).
  destruct (is_ch "*" (peek p)) eqn:E1.
  { apply is_ch_spec in E1. apply (Hfin 0%Z None false) in Hr as [Hw Hn]; [|by intros _; split; simpl; lia].
    split; [|done]. eapply walk_trans; [by eapply walk_one|done]. }
  destruct (is_ch "+" (peek p)) eqn:E2.
  { apply is_ch_spec in E2. apply (Hfin 1%Z None false) in Hr as [Hw Hn]; [|by intros _; split; simpl; lia].
    split; [|done]. eapply walk_trans; [by eapply walk_one|done]. }
  destruct (is_ch "?" (peek p)) eqn:E3.
  { apply is_ch_spec in E3. apply (Hfin 0%Z (Some 1%Z) false) in Hr as [Hw Hn]; [|by intros _; split; simpl; lia].
    split; [|done]. eapply walk_trans; [by eapply walk_one|done]. }
  destruct (is_ch "{" (peek p) && _) eqn:E4; [|injection Hr as <- <-; split; [apply walk_refl|by left]].
  apply andb_prop in E4 as [E4 _]. apply is_ch_spec in E4. inv_bind Hr. destruct a as [[[min max] inverted] p1].
  apply brace_quantifier_ok in Hbind as [Hw1 Hb]; [|done]. apply Hfin in Hr as [Hw Hn]; [|done].
  split; [by eapply walk_trans|done].
Qed.

(** ** Groups *)

Definition kind_names (o : option GroupKind) : list (option (list Z)) :=
  match o with Some (Capturing _ name) => [name] | _ => [] end.

(** A group opener read from [p]: the counter and the pre-scan advance together. *)
Record opened (p : Parser) (o : option GroupKind) (p' : Parser) : Prop := mkOpened {
  op_state : p' = with_next_group (next_group p + length (kind_names o)) (with_pos (pos p') p);
  op_pos : pos p < pos p';
  op_scan : forall names out, scan_from (p_units p) (pos p) false names out ->
    scan_from (p_units p) (pos p') false (names ++ kind_names o) out;
  op_index : forall g name, o = Some (Capturing g name) -> g = next_group p + 1
}.

(** Openers that are not captures. *)
Lemma opened_other p o n : kind_names o = [] -> pos p < n -> same (p_units p) false (pos p) n ->
  opened p o (with_pos n p).
Proof.
  intros Hk Hlt Hs. split; rewrite ?Hk; simpl; [|done| |].
  - by rewrite Nat.add_0_r.
  - intros names out. rewrite app_nil_r. apply Hs.
  - intros g name ->. done.
Qed.

Lemma group_kind_ok p o p' : wf_units (p_units p) -> peek p = Some (b8 "(") -> parse_group_kind (bump 1 p) = Ok (o, p') -> opened p o p'.
Proof.
  intros Hu Hc Hr. unfold parse_group_kind in Hr. destruct (eat_spec "?" (bump 1 p)) as [[E Hq]|[E Hq]]; rewrite E in Hr.
  2: { injection Hr as <- <-. split; simpl; [done|lia| |by intros ?? [= <- _]].
       by apply scan_open_capture. }
  unfold peek in Hc, Hq. simpl in Hq. unfold peek, peek_at in Hr. simpl in Hr.
  replace (pos p + 1 + 1) with (pos p + 2) in Hr by lia. replace (pos p + 2 + 1) with (pos p + 3) in Hr by lia.
  assert (Hbump : forall n, bump n (bump 1 (bump 1 p)) = with_pos (pos p + 2 + n) p)
    by (intros n; unfold bump, with_pos; simpl; f_equal; lia).
  rewrite ?Hbump in Hr.
  assert (Hother : forall c, p_units p !! (pos p + 2) = Some (b8 c) -> c <> "<"%char -> plain_at false (b8 c) = true ->
    same (p_units p) false (pos p) (pos p + 2 + 1)).
  { intros c Hl Hne Hp. transitivity (pos p + 2); [|by eapply same_plain].
    apply scan_open_other; [done|done|]. left. rewrite Hl. simpl. apply Z.eqb_neq. intros Hb.
    apply Hne. unfold b8 in Hb. apply N2Z.inj in Hb. rewrite <- (ascii_N_embedding c), Hb. done. }
  destruct (is_ch ":" _) eqn:E1; [apply is_ch_spec in E1; injection Hr as <- <-;
    apply opened_other; [done|lia|by eapply Hother]|].
  destruct (is_ch "=" (p_units p !! (pos p + 2))) eqn:E2; [apply is_ch_spec in E2; injection Hr as <- <-;
    apply opened_other; [done|lia|by eapply Hother]|].
  destruct (is_ch "!" (p_units p !! (pos p + 2))) eqn:E3; [apply is_ch_spec in E3; injection Hr as <- <-;
    apply opened_other; [done|lia|by eapply Hother]|].
  destruct (is_ch "<" (p_units p !! (pos p + 2))) eqn:E4.
  - apply is_ch_spec in E4.
    assert (Hbehind : forall c, is_ch c (p_units p !! (pos p + 3)) = true -> plain_at false (b8 c) = true ->
      c = "="%char \/ c = "!"%char -> same (p_units p) false (pos p) (pos p + 2 + 2)).
    { intros c Hl Hp Hcs. transitivity (pos p + 2); [apply scan_open_other; [done|done|]; right; destruct Hcs as [->| ->]; auto|].
      transitivity (pos p + 3); [replace (pos p + 3) with (pos p + 2 + 1) by lia; by eapply same_plain|].
      replace (pos p + 2 + 2) with (pos p + 3 + 1) by lia. apply is_ch_spec in Hl. by eapply same_plain. }
    destruct (is_ch "=" (p_units p !! (pos p + 3))) eqn:E5; [injection Hr as <- <-; apply opened_other; [done|lia|by apply (Hbehind "="%char); auto]|].
    destruct (is_ch "!" (p_units p !! (pos p + 3))) eqn:E6;
      [injection Hr as <- <-; apply opened_other; [done|lia|by apply (Hbehind "!"%char); auto]|].
    destruct (read_group_name _ _) as [[name next]|] eqn:En; [|done]. injection Hr as <- <-.
    pose proof (proj2 (read_group_name_walk false _ Hu _ _ _ En)) as Hlt.
    split; simpl; [done|lia| |by intros ?? [= <- _]]. by apply scan_open_named.
  - destruct (is_ch "i" _ || _ || _ || _); [|done]. injection Hr as <- <-.
    replace (bump 1 (bump 1 p)) with (with_pos (pos p + 2) p) by (unfold bump, with_pos; simpl; f_equal; lia).
    apply opened_other; [done|lia|]. apply scan_open_other; auto.
Qed.

(** Modifier letters set flags other than the Unicode modes. *)
Definition walk_flags_to (p p' : Parser) : Prop :=
  p' = with_flags (p_flags p') (with_pos (pos p') p) /\ pos p <= pos p' /\
  same (p_units p) false (pos p) (pos p') /\
  unicode (p_flags p') = unicode (p_flags p) /\ unicode_sets (p_flags p') = unicode_sets (p_flags p).

Lemma walk_flags_trans p p1 p2 : walk_flags_to p p1 -> walk_flags_to p1 p2 -> walk_flags_to p p2.
Proof.
  intros (E1 & H1 & S1 & U1 & V1) (E2 & H2 & S2 & U2 & V2). rewrite E1 in E2, S2. simpl in *.
  split; [exact E2|]. split; [lia|]. split; [by rewrite S1|]. split; congruence.
Qed.

Lemma walk_flags_walk p p' : walk false (pos p) p p' -> walk_flags_to p p'.
Proof.
  intros (E & Hle & Hs). pose proof (f_equal p_flags E) as Hf. simpl in Hf.
  split; [by rewrite Hf|]. rewrite Hf. done.
Qed.

Lemma modifier_loop_ok fuel v seen count p r p' :
  modifier_loop fuel v seen count p = Ok (r, p') -> walk_flags_to p p'.
Proof.
  revert seen count p. induction fuel as [|fuel IH]; intros seen count p Hr; [done|]. simpl in Hr.
  assert (Hrefl : walk_flags_to p p) by (apply walk_flags_walk, walk_refl).
  destruct (peek p) as [c|] eqn:Ec; [|by injection Hr as <- <-].
  destruct (modifier_index c) as [i|] eqn:Ei; [|by injection Hr as <- <-].
  destruct (bool_decide _); [done|]. apply IH in Hr. eapply walk_flags_trans; [|exact Hr].
  split; [by destruct p|]. simpl. split; [lia|]. split; [|by destruct i as [|[|i]]].
  eapply same_plain; [exact Ec|]. unfold modifier_index in Ei. apply plain_word.
  repeat match type of Ei with (if ?x then _ else _) = _ => destruct x eqn:?; [boolprop; by subst|] end. done.
Qed.

Lemma parse_modifiers_ok p u p' : parse_modifiers p = Ok (u, p') -> walk_flags_to p p'.
Proof.
  unfold parse_modifiers. intros Hr. inv_bind Hr. destruct a as [[seen added] p1]. apply modifier_loop_ok in Hbind as H1.
  destruct (eat "-" p1) as [dash p2] eqn:E2. apply (walk_eat false "-"), walk_flags_walk in E2; [|done].
  inv_bind Hr. destruct a as [[seen2 removed] p3].
  assert (H3 : walk_flags_to p2 p3).
  { destruct dash; [by eapply modifier_loop_ok|]. injection Hbind0 as _ _ <-. apply walk_flags_walk, walk_refl. }
  destruct (_ && _); [done|]. destruct (eat ":" p3) as [colon p4] eqn:E4.
  apply (walk_eat false ":"), walk_flags_walk in E4; [|done]. destruct colon; [|done]. injection Hr as _ <-.
  eauto using walk_flags_trans.
Qed.

(** ** Frames around a parse *)

Lemma parsed_ready p l p' : ready p -> parsed_as p l p' -> ready p'.
Proof. intros [Hu Hv Ht] [E _ _ _ _]. rewrite E. by split. Qed.

Lemma parsed_leave p l q : parsed_as (with_depth (depth p + 1) p) l q -> parsed_as p l (leave q).
Proof.
  intros [E Hle Hs Hi Ht]. split; [|exact Hle|exact Hs|exact Hi|exact Ht].
  rewrite E. unfold leave, with_depth, with_pos, with_next_group. simpl. f_equal. lia.
Qed.

Lemma parsed_flags p p1 l q : walk_flags_to p p1 -> parsed_as p1 l q -> parsed_as p l (with_flags (p_flags p) q).
Proof.
  intros (E1 & H1 & S1 & _ & _) [E Hle Hs Hi Ht]. rewrite E1 in Hs, Hi, Ht. simpl in *.
  split; simpl; [|lia| |done|done].
  - rewrite E, E1. by destruct p.
  - intros names out Hn. apply Hs. by apply S1.
Qed.

Lemma parsed_group p o p1 body q : opened p (Some o) p1 -> parsed_as p1 [body] q ->
  parsed_as p [Node.Group o body] q.
Proof.
  intros [E1 H1 S1 I1] [E Hle Hs Hi Ht]. rewrite E1 in E, Hs, Hi, Ht. simpl in *.
  unfold seq_names, seq_indices in *. simpl in *. rewrite ?app_nil_r in *.
  assert (Hn : match o with Capturing _ name => [name] | _ => [] end = kind_names (Some o)) by done.
  split; unfold seq_names, seq_indices; simpl; rewrite ?app_nil_r, ?Hn.
  - etransitivity; [exact E|]. unfold with_next_group, with_pos. simpl. f_equal. rewrite length_app. lia.
  - lia.
  - intros names out Hno. rewrite app_assoc. auto.
  - rewrite Hi, length_app, seq_app. destruct o as [g name| | |]; simpl in *; rewrite ?Nat.add_0_r; try done.
    by rewrite (I1 g name eq_refl).
  - exact Ht.
Qed.

Lemma parsed_close p l q c q' : plain_at false (b8 c) = true -> parsed_as p l q ->
  eat c q = (true, q') -> parsed_as p l q'.
Proof. intros Hp Hl He. eapply parsed_hop; [exact Hl|]. by eapply hop_walk, walk_eat. Qed.

Lemma parsed_quantified p atom q n p' : parsed_as p [atom] q -> maybe_quantify atom q = Ok (n, p') ->
  parsed_as p [n] p'.
Proof.
  intros Ha Hq. apply maybe_quantify_ok in Hq as [Hw Hn].
  assert (Ha' : parsed_as p [atom] p') by (eapply parsed_hop; [exact Ha|by apply hop_walk]).
  destruct Hn as [->|(qt & -> & Hb)]; [done|]. eapply parsed_as_node; [exact Ha'| | |].
  - unfold seq_names. simpl. by rewrite app_nil_r.
  - unfold seq_indices. simpl. by rewrite app_nil_r.
  - intros [Hok _]. by split.
Qed.

Lemma parsed_alternative p l p' : parsed_as p l p' -> parsed_as p [alternative_node l] p'.
Proof.
  intros Hl. eapply parsed_as_node; [exact Hl|..]; unfold seq_names, seq_indices;
    destruct l as [|n [|n2 l]]; simpl; rewrite ?app_nil_r; try done. by intros [? _].
Qed.

Lemma parsed_disjunction p l p' : l <> [] -> parsed_as p l p' -> parsed_as p [disjunction_node l] p'.
Proof.
  intros Hne Hl. eapply parsed_as_node; [exact Hl|..]; unfold seq_names, seq_indices;
    destruct l as [|n [|n2 l]]; simpl; rewrite ?app_nil_r; try done. by intros [? _].
Qed.

Lemma simple_atom_ok p r n p' : ready p -> parse_simple_atom p = Some r -> r = Ok (n, p') -> parsed_as p [n] p'.
Proof.
  intros Hrd Hs ->. unfold parse_simple_atom in Hs. destruct (peek p) as [c|] eqn:Ec; [|done].
  pose proof (peek_range p c (ready_units _ Hrd) Ec) as Hcr.
  assert (Hone : forall k, plain_at false c = true -> leaf (total_groups p) k -> parsed_as p [k] (bump 1 p)).
  { intros k Hp (? & ? & ?). apply parsed_leaf; [|done..]. by eapply hop_walk, walk_one. }
  destruct (c =? b8 "^")%Z eqn:E1.
  { injection Hs as <- <-. apply Hone; [|done]. apply Z.eqb_eq in E1. by subst. }
  destruct (c =? b8 "$")%Z eqn:E2.
  { injection Hs as <- <-. apply Hone; [|done]. apply Z.eqb_eq in E2. by subst. }
  destruct (c =? b8 ".")%Z eqn:E3.
  { injection Hs as <- <-. apply Hone; [|done]. apply Z.eqb_eq in E3. by subst. }
  destruct (c =? b8 "(")%Z eqn:E4; [done|].
  destruct (c =? b8 "[")%Z eqn:E5.
  { injection Hs as Hs. apply Z.eqb_eq in E5. subst c. destruct Hrd. by apply parse_class_ok. }
  destruct (c =? b8 "\")%Z eqn:E6.
  { injection Hs as Hs. apply Z.eqb_eq in E6. subst c. by apply parse_escape_atom_ok. }
  assert (Hp : plain_at false c = true) by (unfold plain_at; by rewrite E4, E5, E6).
  destruct (_ || _ || _); [done|].
  destruct (c =? b8 "{")%Z.
  { destruct (looks_like_quantifier p); [done|]. destruct (p_unicode p); [done|].
    injection Hs as <- <-. by apply Hone. }
  destruct (_ || _).
  { destruct (p_unicode p); [done|]. injection Hs as <- <-. by apply Hone. }
  injection Hs as Hs. inv_bind Hs. destruct a as [cp p1]. injection Hs as <- <-.
  apply (read_plain_walk false p c cp p1 (ready_units _ Hrd) Ec Hp) in Hbind as [Hw Hv].
  apply parsed_leaf; [by apply hop_walk|done..].
Qed.

(** ** The grammar *)

(** What each method of the grammar returns at a given fuel. *)
Record grammar_ok (fuel : nat) : Prop := mkGrammarOk {
  g_disjunction : forall p n p', ready p -> parse_disjunction fuel p = Ok (n, p') -> parsed_as p [n] p';
  g_alternatives : forall p0 alts p alts' p', ready p0 -> alts <> [] -> parsed_as p0 alts p ->
    alternatives_loop fuel alts p = Ok (alts', p') -> parsed_as p0 alts' p' /\ alts' <> [];
  g_alternative : forall p0 terms p n p', ready p0 -> parsed_as p0 terms p ->
    parse_alternative fuel terms p = Ok (n, p') -> parsed_as p0 [n] p';
  g_term : forall p t p', ready p -> parse_term fuel p = Ok (t, p') ->
    match t with Some n => parsed_as p [n] p' | None => p' = p end;
  g_atom : forall p n p', ready p -> parse_atom fuel p = Ok (n, p') -> parsed_as p [n] p';
  g_group : forall p n p', ready p -> peek p = Some (b8 "(") -> parse_group fuel p = Ok (n, p') ->
    parsed_as p [n] p';
  g_modifiers : forall p n p', ready p -> parse_modifier_group fuel p = Ok (n, p') -> parsed_as p [n] p'
}.

Lemma simple_atom_paren p : parse_simple_atom p = None -> peek p = Some (b8 "(").
Proof.
  unfold parse_simple_atom. destruct (peek p) as [c|]; [|done]. intros Hs.
  repeat match type of Hs with
  | (if ?x then _ else _) = None => destruct x eqn:?; try discriminate Hs
  end. by match goal with E : (c =? b8 "(")%Z = true |- _ => apply Z.eqb_eq in E; subst end.
Qed.

Lemma opened_ready p o p1 : ready p -> opened p o p1 -> ready p1.
Proof. intros [Hu Hv Ht] [E _ _ _]. rewrite E. by split. Qed.

Lemma opened_none p p1 l q : opened p None p1 -> parsed_as p1 l q -> parsed_as p l q.
Proof.
  intros [E1 H1 S1 _] [E Hle Hs Hi Ht]. simpl in *. rewrite Nat.add_0_r in E1. rewrite E1 in E, Hs, Hi, Ht. simpl in *.
  split; [|lia| |done|done].
  - rewrite E. by destruct p.
  - intros names out Hn. apply Hs. specialize (S1 names out Hn). by rewrite app_nil_r in S1.
Qed.

Lemma grammar fuel : grammar_ok fuel.
Proof.
  induction fuel as [|fuel [ID IL IA IT IAt IG IM]]; [by split|]. split.
  - intros p n p' Hrd Hr. simpl in Hr. inv_bind Hr. apply enter_spec in Hbind as [-> _].
    assert (Hrd' : ready (with_depth (depth p + 1) p)) by (by destruct Hrd).
    inv_bind Hr. destruct a as [x p1]. pose proof (IA _ _ _ _ _ Hrd' (parsed_as_refl _) Hbind) as H1.
    inv_bind Hr. destruct a as [alts p2]. apply (IL _ _ _ _ _ Hrd') in Hbind0 as [H2 Hne]; [|done|done].
    injection Hr as <- <-. apply parsed_leave. by apply parsed_disjunction.
  - intros p0 alts p alts' p' Hrd Hne Hp Hr. simpl in Hr.
    destruct (eat "|" p) as [bar p1] eqn:Eb. destruct bar.
    + pose proof (parsed_close _ _ _ "|" _ eq_refl Hp Eb) as Hp1.
      inv_bind Hr. destruct a as [x p2]. pose proof (IA _ _ _ _ _ (parsed_ready _ _ _ Hrd Hp1) (parsed_as_refl _) Hbind) as H2.
      eapply IL; [exact Hrd| | |exact Hr]; [by destruct alts|by eapply parsed_as_app].
    + destruct (eat_spec "|" p) as [[E _]|[E _]]; rewrite E in Eb; [done|]. by simplify_eq.
  - intros p0 terms p n p' Hrd Hp Hr. simpl in Hr. inv_bind Hr. destruct a as [t p1].
    apply IT in Hbind as Ht; [|by eapply parsed_ready]. destruct t as [t|].
    + eapply IA; [exact Hrd| |exact Hr]. by eapply parsed_as_app.
    + subst p1. injection Hr as <- <-. by apply parsed_alternative.
  - intros p t p' Hrd Hr. simpl in Hr. destruct (peek p) as [c|]; [|by injection Hr as <- <-].
    destruct (_ || _); [by injection Hr as <- <-|]. inv_bind Hr. destruct a as [atom p1].
    apply IAt in Hbind as H1; [|done]. inv_bind Hr. destruct a as [n p2]. injection Hr as <- <-.
    by eapply parsed_quantified.
  - intros p n p' Hrd Hr. simpl in Hr. destruct (parse_simple_atom p) as [r|] eqn:Es.
    + by eapply simple_atom_ok.
    + apply IG; [done|by apply simple_atom_paren|done].
  - intros p n p' Hrd Hc Hr. simpl in Hr. inv_bind Hr. destruct a as [o p1].
    apply group_kind_ok in Hbind as Ho; [|apply Hrd|done]. pose proof (opened_ready _ _ _ Hrd Ho) as Hrd1.
    destruct o as [o|]; [|eapply opened_none; [exact Ho|by apply IM]].
    inv_bind Hr. destruct a as [body p2]. apply ID in Hbind0 as H2; [|done].
    destruct (eat ")" p2) as [close p3] eqn:Ec. destruct close; [|done]. injection Hr as <- <-.
    eapply (parsed_close _ _ _ ")"); [done| |exact Ec]. by eapply parsed_group.
  - intros p n p' Hrd Hr. simpl in Hr. inv_bind Hr. destruct a as [u p1]. apply parse_modifiers_ok in Hbind as H1.
    assert (Hrd1 : ready p1).
    { destruct Hrd as [Hu Hv Ht], H1 as (E1 & _ & _ & _ & Hv1). rewrite E1. split; [done| |done]. simpl. congruence. }
    inv_bind Hr. destruct a as [body p2]. apply ID in Hbind0 as H2; [|done].
    destruct (eat ")" p2) as [close p3] eqn:Ec. destruct close; [|done]. injection Hr as <- <-.
    eapply parsed_flags; [exact H1|]. apply (parsed_close _ _ _ ")" p3) in H2; [|done|done].
    eapply parsed_as_node; [exact H2|..]; unfold seq_names, seq_indices; simpl; rewrite ?app_nil_r; try done.
    by intros [? _].
Qed.
End Sound.

Lemma prescan_spec `{Icu} us f p : prescan (parser_new us f) = Ok p ->
  exists names, p = mkParser us 0 f 0 (length names) names 0 /\ scan_from us 0 false [] names.
Proof.
  unfold prescan. intros Hr. inv_bind Hr. injection Hr as <-. exists a. split; [done|]. by eexists.
Qed.

Lemma parse_sound `{IcuNames} pattern f parsed :
  wf_units pattern -> unicode_sets f = false -> parse pattern f = Ok parsed ->
  parsed_group_count parsed = length (parsed_group_names parsed) /\
  capture_indices (root parsed) = seq 1 (parsed_group_count parsed) /\
  capture_names (root parsed) = parsed_group_names parsed /\
  tree_ok (parsed_group_count parsed) (root parsed).
Proof.
  intros Hu Hv Hr. unfold parse in Hr. inv_bind Hr. apply prescan_spec in Hbind as (names & -> & Hs).
  inv_bind Hr. destruct a as [n p]. destruct (pos p =? _) eqn:Ep; [|done]. apply Nat.eqb_eq in Ep.
  inv_bind Hr. injection Hr as <-.
  apply (g_disjunction _ (grammar _)) in Hbind as [E _ Hscan Hi Ht]; [|by split].
  apply Hscan in Hs. simpl in *. unfold seq_names, seq_indices in *. simpl in *. rewrite app_nil_r in *.
  rewrite E in Ep |- *. simpl in *.
  apply scan_end in Hs; [|apply lookup_ge_None_2; lia]. subst names.
  rewrite !app_nil_r in Hi. split; [done|]. split; [done|]. split; [done|]. apply Ht.
Qed.

(** ** Property *)

(** C11: a parsed pattern is well formed.  Outside [v] mode, whatever [parse]
    accepts is a tree whose capturing groups carry the numbers [1, 2, ...] in
    source order and the names the pre-scan announced, as many as [group_count],
    so that every backreference, forward or not, names an existing group; its
    quantifiers are ordered and within 32 bits, its characters and classes within
    the code space, its classes canonical and without strings. *)
Theorem parse_well_formed `{IcuNames} pattern f parsed :
  wf_units pattern -> unicode_sets f = false -> parse pattern f = Ok parsed ->
  parsed_group_count parsed = length (parsed_group_names parsed) /\
  capture_indices (root parsed) = seq 1 (parsed_group_count parsed) /\
  capture_names (root parsed) = parsed_group_names parsed /\
  tree_ok (parsed_group_count parsed) (root parsed).
Proof. apply parse_sound. Qed.

(** [/(?<x>\k<y>)[(](?<y>a{2,3})/]: a forward reference by name. *)
Lemma parse_well_formed_witness :
  exists n, @parse ascii_icu (chars "(?<x>\k<y>)[(](?<y>a{2,3})") flags_default =
      Ok (mkParsed n 2 [Some (chars "x"); Some (chars "y")]) /\
    2 = length [Some (chars "x"); Some (chars "y")] /\ capture_indices n = [1; 2] /\
    capture_names n = [Some (chars "x"); Some (chars "y")] /\ tree_ok 2 n.
Proof.
  eexists. split; [vm_compute; reflexivity|].
  eapply (@parse_well_formed ascii_icu ascii_icu_names (chars "(?<x>\k<y>)[(](?<y>a{2,3})") flags_default
    (mkParsed _ 2 [Some (chars "x"); Some (chars "y")])).
  - repeat constructor; vm_compute; done.
  - reflexivity.
  - vm_compute. reflexivity.
Defined.
