(* ===== verification/ParserTotal.v ===== *)
(** * The parser terminates

    The loops and the mutual recursion of the parser model take fuel; this file
    shows that the fuel [parse] starts them with is always enough, for every
    pattern and every mode: each method either consumes a unit before it recurs
    or goes down one of a bounded number of calls.  So [parse] returns a tree, a
    syntax error or a panic, never [OutOfFuel]. *)

From Stdlib Require Import String.
From S2P Require Import Prelude Unicode Classes Program Parser Prescan.

(** A result that is not [OutOfFuel], and when it is a value has left the cursor
    at [n] or further in the same pattern. *)
Definition fine {A} (us : list Z) (n : nat) (r : PM A) : Prop :=
  match r with
  | Ok (_, p) => p_units p = us /\ n <= pos p
  | OutOfFuel => False
  | _ => True
  end.

Lemma fine_ok {A} us n (x : A) p : p_units p = us -> n <= pos p -> fine us n (Ok (x, p)).
Proof. done. Qed.

Lemma fine_bind {A B} us n m (r : PM A) (f : A * Parser -> PM B) :
  fine us m r -> (forall x p, p_units p = us -> m <= pos p -> fine us n (f (x, p))) -> fine us n (rbind r f).
Proof. destruct r as [[x p]| | |]; simpl; intuition. Qed.

Lemma fine_pure {A B} us n (r : res RegexError A) (f : A -> PM B) :
  r <> OutOfFuel -> (forall a, fine us n (f a)) -> fine us n (rbind r f).
Proof. destruct r; simpl; auto. Qed.

Lemma fine_weaken {A} us n m (r : PM A) : n <= m -> fine us m r -> fine us n r.
Proof. destruct r as [[x p]| | |]; simpl; intuition lia. Qed.

Lemma fine_eat {A} us n c p (f : bool * Parser -> PM A) :
  p_units p = us ->
  (peek p = Some (b8 c) -> fine us n (f (true, bump 1 p))) -> fine us n (f (false, p)) -> fine us n (f (eat c p)).
Proof. intros Hu Ht Hf. destruct (eat_spec c p) as [[-> Hc]|[-> _]]; auto. Qed.

(** Case analysis on what a method tests, down to the results it returns. *)
Ltac fine_step :=
  match goal with
  | |- fine _ _ (p_err _ _) => exact I
  | |- fine _ _ (Err _) => exact I
  | |- fine _ _ Panic => exact I
  | |- fine _ _ (Ok _) => apply fine_ok; simpl; first [done|congruence|lia]
  | |- fine _ _ (let (_, _) := eat ?c ?p in _) =>
      destruct (eat_spec c p) as [[-> ?]|[-> ?]]
  | |- fine _ _ (let (_, _) := ?x in _) => destruct x eqn:?
  | |- fine _ _ (if ?x then _ else _) => destruct x eqn:?
  | |- fine _ _ (match ?x with Some _ => _ | None => _ end) => destruct x eqn:?
  end.
Ltac fine_norm := cbv beta iota zeta; cbn [andb].
Ltac fine_auto := fine_norm; repeat (fine_step; fine_norm).

(** ** Escapes *)

Lemma fine_codepoint us p : p_units p = us -> fine us (pos p + 1) (read_pattern_codepoint p).
Proof.
  intros Hu. unfold read_pattern_codepoint. apply fine_pure; [unfold index; by destruct (_ !! _)|].
  intros a. fine_auto.
Qed.

Lemma octal_loop_pos more v p : p_units (octal_loop more v p).2 = p_units p /\ pos p <= pos (octal_loop more v p).2.
Proof.
  revert v p. induction more as [|more IH]; intros v p; simpl; [done|].
  destruct (peek p) as [c|]; [|done]. destruct (is_octal c); [|done].
  destruct (IH (v * 8 + (c - 48))%Z (bump 1 p)) as [-> Hle]. simpl in Hle. split; [done|lia].
Qed.

Lemma fine_octal us p : p_units p = us -> fine us (pos p + 1) (read_legacy_octal p).
Proof.
  intros Hu. unfold read_legacy_octal. apply fine_pure; [unfold index; by destruct (_ !! _)|]. intros a. cbv zeta.
  destruct (octal_loop_pos (if (a - 48 <=? 3)%Z then 2 else 1) (a - 48)%Z (bump 1 p)) as [Hu' Hle].
  destruct (octal_loop _ _ _) as [v p1]. simpl in *. split; [congruence|done].
Qed.

Lemma fine_fixed_hex us n v p : p_units p = us -> fine us (pos p) (read_fixed_hex n v p).
Proof.
  revert v p. induction n as [|n IH]; intros v p Hu; simpl; [done|]. fine_auto.
  eapply fine_weaken; [|by apply IH]. simpl. lia.
Qed.

(** A unit at the cursor. *)
Lemma peek_lt us p c : p_units p = us -> peek p = Some c -> pos p < length us.
Proof. intros <- Hc. by apply lookup_lt_Some in Hc. Qed.

Lemma fine_braced us fuel v any p : p_units p = us -> 0 < fuel -> length us < fuel + pos p ->
  fine us (pos p) (braced_escape fuel v any p).
Proof.
  revert v any p. induction fuel as [|fuel IH]; intros v any p Hu H0 Hf; [lia|]. simpl. fine_auto.
  match goal with Hc : peek p = Some _ |- _ => apply (peek_lt us) in Hc; [|done] end.
  eapply fine_weaken; [|apply IH; [done|lia|simpl; lia]]. simpl. lia.
Qed.

Lemma fine_unicode_escape us p : p_units p = us -> fine us (pos p) (read_unicode_escape p).
Proof.
  intros Hu. unfold read_unicode_escape. fine_step.
  - destruct (p_unicode _); [|done]. eapply fine_bind.
    + apply (fine_braced us); [done|lia|]. simpl. rewrite Hu. lia.
    + intros [v any] p1 Hu1 Hle. simpl in Hle. fine_auto.
  - eapply fine_bind; [by apply fine_fixed_hex|]. intros hi p1 Hu1 Hle. fine_step; [|fine_auto].
    destruct (eat_spec "\" p1) as [[-> _]|[-> _]].
    + destruct (eat_spec "u" (bump 1 p1)) as [[-> _]|[-> _]]; [|fine_auto].
      fine_norm. pose proof (fine_fixed_hex us 4 0%Z (bump 1 (bump 1 p1)) Hu1) as Hh.
      destruct (read_fixed_hex 4 0 _) as [[lo p3]| | |]; simpl in Hh; [|fine_auto|fine_auto|done].
      destruct Hh as [Hu3 Hle3]. simpl in Hle3. fine_auto.
    + destruct (eat "u" p1). fine_auto.
Qed.

Lemma fine_char_escape us in_class p : p_units p = us -> fine us (pos p) (parse_char_escape in_class p).
Proof.
  intros Hu. unfold parse_char_escape. fine_auto.
  - eapply fine_weaken; [|by apply fine_octal]. lia.
  - eapply fine_weaken; [|by apply fine_fixed_hex]. simpl. lia.
  - eapply fine_weaken; [|by apply fine_unicode_escape]. simpl. lia.
  - pose proof (fine_unicode_escape us (bump 1 p) Hu) as Hh.
    destruct (read_unicode_escape (bump 1 p)) as [[v p1]| | |]; simpl in *; [|intuition lia|done|done]. intuition lia.
  - eapply fine_weaken; [|by apply fine_codepoint]. lia.
Qed.

Lemma fine_class_char_escape us p : p_units p = us -> fine us (pos p) (parse_class_char_escape p).
Proof.
  intros Hu. unfold parse_class_char_escape. fine_auto.
  - eapply fine_weaken; [|by apply fine_octal]. lia.
  - by apply fine_char_escape.
Qed.

(** ** Properties and class escapes *)

Section Total.
Context `{Icu}.

Lemma property_scan_ge l i eq : i <= (property_scan l i eq).1.
Proof.
  revert i eq. induction l as [|c l IH]; intros i eq; simpl; [done|]. destruct (c =? b8 "}")%Z; [done|].
  specialize (IH (S i) (match eq with None => if (c =? b8 "=")%Z then Some i else None | _ => eq end)). lia.
Qed.

Lemma fine_property_name us p : p_units p = us -> fine us (pos p) (read_property_name_body p).
Proof.
  intros Hu. unfold read_property_name_body. fine_step; [|done]. cbv zeta.
  pose proof (property_scan_ge (drop (pos (bump 1 p)) (p_units (bump 1 p))) (pos (bump 1 p)) None) as Hge.
  destruct (property_scan _ _ _) as [close eq]. simpl in Hge. fine_auto.
Qed.

Lemma some_or_unknown_fuel {A} (o : option A) : some_or_unknown o <> OutOfFuel.
Proof. by destruct o. Qed.

Lemma resolve_property_fuel name value : resolve_property name value <> OutOfFuel.
Proof. unfold resolve_property. repeat case_match; try apply some_or_unknown_fuel. done. Qed.

Lemma resolve_string_fuel name : resolve_string_property name <> OutOfFuel.
Proof. unfold resolve_string_property. by repeat case_match. Qed.

Lemma fine_property_body us p : p_units p = us -> fine us (pos p) (parse_property_body p).
Proof.
  intros Hu. unfold parse_property_body. eapply fine_bind; [by apply fine_property_name|].
  intros [name value] p1 Hu1 Hle. apply fine_pure; [apply resolve_property_fuel|]. intros a. fine_auto.
Qed.

Lemma fine_property_set_v us neg p : p_units p = us -> fine us (pos p) (parse_property_set_v neg p).
Proof.
  intros Hu. unfold parse_property_set_v. eapply fine_bind; [by apply fine_property_name|].
  intros [name value] p1 Hu1 Hle. fine_auto.
  - apply fine_pure; [apply resolve_string_fuel|]. intros a. fine_auto.
  - apply fine_pure; [apply resolve_property_fuel|]. intros a. fine_auto.
Qed.

Lemma fine_class_escape us p : p_units p = us -> fine us (pos p) (try_class_escape_set p).
Proof.
  intros Hu. unfold try_class_escape_set. fine_auto. eapply fine_bind; [by apply fine_property_body|].
  intros set p1 Hu1 Hle. simpl in Hle. fine_auto.
Qed.

(** ** Legacy classes *)

Lemma fine_class_range us set lo hi p : p_units p = us -> fine us (pos p) (insert_class_range set lo hi p).
Proof. intros Hu. unfold insert_class_range. fine_auto. Qed.

Lemma fine_class_atom us set lo p : p_units p = us -> fine us (pos p) (finish_class_atom set lo p).
Proof.
  intros Hu. unfold finish_class_atom. fine_auto.
  - eapply fine_bind; [by apply fine_class_escape|]. intros [[sub neg]|] p1 Hu1 Hle; simpl in Hle; fine_auto.
  - eapply fine_bind; [by apply fine_class_char_escape|]. intros hi p1 Hu1 Hle. simpl in Hle.
    eapply fine_weaken; [|by apply fine_class_range]. lia.
  - eapply fine_bind; [by apply fine_codepoint|]. intros hi p1 Hu1 Hle. simpl in Hle.
    eapply fine_weaken; [|by apply fine_class_range]. lia.
Qed.

Lemma fine_class_member us set p : p_units p = us -> fine us (pos p + 1) (parse_class_member set p).
Proof.
  intros Hu. unfold parse_class_member. fine_auto.
  - eapply fine_bind; [by apply fine_class_escape|]. intros [[sub neg]|] p1 Hu1 Hle; simpl in Hle; [fine_auto|].
    eapply fine_bind; [by apply fine_class_char_escape|]. intros lo p2 Hu2 Hle2.
    eapply fine_weaken; [|by apply fine_class_atom]. lia.
  - eapply fine_bind; [by apply fine_codepoint|]. intros lo p1 Hu1 Hle1.
    eapply fine_weaken; [|by apply fine_class_atom]. lia.
Qed.

Lemma fine_class_members us fuel set p : p_units p = us -> 0 < fuel -> length us < fuel + pos p ->
  fine us (pos p + 1) (class_members fuel set p).
Proof.
  revert set p. induction fuel as [|fuel IH]; intros set p Hu H0 Hf; [lia|]. simpl. fine_auto.
  match goal with Hc : peek p = Some _ |- _ => apply (peek_lt us) in Hc; [|done] end.
  eapply fine_bind; [by apply fine_class_member|]. intros set1 p1 Hu1 Hle.
  eapply fine_weaken; [|apply IH; [done|lia|lia]]. lia.
Qed.

(** ** [v]-mode classes *)

Lemma fine_finish_set us set neg p : p_units p = us -> fine us (pos p) (finish_class_set set neg p).
Proof. intros Hu. unfold finish_class_set. fine_auto. Qed.

(** A character consumes a unit; otherwise the cursor stays. *)
Lemma fine_set_character {B} us p n (f : option Z * Parser -> PM B) : p_units p = us ->
  (forall cp p1, p_units p1 = us -> pos p + 1 <= pos p1 -> fine us n (f (Some cp, p1))) ->
  fine us n (f (None, p)) -> fine us n (rbind (try_class_set_character p) f).
Proof.
  intros Hu Hs Hn. unfold try_class_set_character. destruct (peek p) as [c|]; [|done].
  destruct (_ || _); [done|]. destruct (c =? b8 "\")%Z.
  - cbv zeta. destruct (_ || _); [done|].
    pose proof (fine_class_char_escape us (bump 1 p) Hu) as Hf.
    destruct (parse_class_char_escape (bump 1 p)) as [[cp p1]| | |]; simpl in *; try done. apply Hs; apply Hf.
  - pose proof (fine_codepoint us p Hu) as Hf.
    destruct (read_pattern_codepoint p) as [[cp p1]| | |]; simpl in *; try done. apply Hs; apply Hf.
Qed.

Lemma fine_string_alternative us fuel alt p : p_units p = us -> 0 < fuel -> length us < fuel + pos p ->
  fine us (pos p) (string_alternative fuel alt p).
Proof.
  revert alt p. induction fuel as [|fuel IH]; intros alt p Hu H0 Hf; [lia|]. simpl. fine_auto.
  match goal with Hc : peek p = Some _ |- _ => apply (peek_lt us) in Hc; [|done] end.
  apply fine_set_character; [done| |done]. intros cp p1 Hu1 Hle.
  eapply fine_weaken; [|apply IH; [done|lia|lia]]. lia.
Qed.

Lemma fine_string_disjunction us fuel set p : p_units p = us -> 0 < fuel -> length us < fuel + pos p ->
  fine us (pos p) (string_disjunction fuel set p).
Proof.
  revert set p. induction fuel as [|fuel IH]; intros set p Hu H0 Hf; [lia|]. cbn [string_disjunction].
  eapply fine_bind; [apply (fine_string_alternative us); [done|lia|rewrite Hu; lia]|].
  intros alt p1 Hu1 Hle. fine_auto.
  match goal with Hc : peek p1 = Some (b8 "|") |- _ => apply (peek_lt us) in Hc; [|done] end.
  eapply fine_weaken; [|apply IH; [done|lia|simpl; lia]]. simpl. lia.
Qed.

Lemma fine_class_strings us p : p_units p = us -> fine us (pos p) (parse_class_string_disjunction p).
Proof.
  intros Hu. unfold parse_class_string_disjunction. fine_auto.
  eapply fine_weaken; [|apply (fine_string_disjunction us); [done|lia|simpl; rewrite Hu; lia]]. simpl. lia.
Qed.

(** A level of nesting uses three calls and consumes a bracket. *)
Record class_sets_total (us : list Z) (fuel : nat) : Prop := mkClassSetsTotal {
  ct_set : forall p, p_units p = us -> pos p < length us -> 4 * (length us - pos p) + 4 <= fuel ->
    fine us (pos p + 1) (parse_class_set fuel p);
  ct_operators : forall inter set p, p_units p = us -> 4 * (length us - pos p) + 7 <= fuel ->
    fine us (pos p) (class_set_operators fuel inter set p);
  ct_union : forall set p, p_units p = us -> 4 * (length us - pos p) + 7 <= fuel ->
    fine us (pos p) (class_set_union fuel set p);
  ct_member : forall acc p, p_units p = us -> 4 * (length us - pos p) + 6 <= fuel ->
    fine us (pos p + 1) (parse_class_set_union_member fuel acc p);
  ct_operand : forall p, p_units p = us -> 4 * (length us - pos p) + 5 <= fuel ->
    fine us (pos p + 1) (parse_class_set_operand fuel p)
}.

Lemma enter_fuel p : enter p <> OutOfFuel.
Proof. unfold enter. by destruct (_ <? _). Qed.

Lemma fine_enter {B} us n p (f : Parser -> PM B) :
  (forall p', p_units p' = p_units p -> pos p' = pos p -> fine us n (f p')) -> fine us n (rbind (enter p) f).
Proof. intros Hf. unfold enter. destruct (_ <? _); simpl; [done|]. by apply Hf. Qed.

Lemma class_sets us fuel : class_sets_total us fuel.
Proof.
  induction fuel as [|fuel [IS IO IU IM IA]]; [split; intros; lia|]. split.
  - intros p Hu Hlt Hf. cbn [parse_class_set]. apply fine_enter. intros p0 Hu0 Hp0. cbv zeta.
    destruct (eat "^" (bump 1 p0)) as [neg p1] eqn:Ee.
    assert (Hp1 : p_units p1 = us /\ pos p + 1 <= pos p1).
    { destruct (eat_spec "^" (bump 1 p0)) as [[E _]|[E _]]; rewrite E in Ee; injection Ee as <- <-; simpl;
        (split; [congruence|lia]). }
    destruct Hp1 as [Hu1 Hle1]. fine_step.
    { eapply fine_weaken; [|by apply fine_finish_set]. simpl. lia. }
    eapply fine_bind; [apply IM; [done|lia]|]. intros set p2 Hu2 Hle2. simpl in Hle2.
    eapply (fine_bind us _ (pos p + 1)).
    { destruct (at_double "&" p2); [|destruct (at_double "-" p2)];
        (eapply fine_weaken; [|first [apply IO|apply IU]; [done|lia]]; lia). }
    intros set2 p3 Hu3 Hle3. fine_auto. eapply fine_weaken; [|by apply fine_finish_set]. simpl. lia.
  - intros inter set p Hu Hf. cbn [class_set_operators]. fine_step; [|fine_auto].
    assert (Hlt : pos p < length us).
    { unfold at_double in *. boolprop. rewrite <- Hu.
      match goal with E : is_ch _ (peek p) = true |- _ => apply is_ch_spec, lookup_lt_Some in E end. done. }
    eapply fine_bind; [apply IA; [done|simpl; lia]|]. intros operand p1 Hu1 Hle1. simpl in Hle1.
    eapply fine_weaken; [|apply IO; [done|lia]]. lia.
  - intros set p Hu Hf. cbn [class_set_union]. fine_auto.
    match goal with Hc : peek p = Some _ |- _ => apply (peek_lt us) in Hc; [|done] end.
    eapply fine_bind; [apply IM; [done|lia]|]. intros set1 p1 Hu1 Hle1.
    eapply fine_weaken; [|apply IU; [done|lia]]. lia.
  - intros acc p Hu Hf. cbn [parse_class_set_union_member]. apply fine_set_character; [done| |].
    + intros lo p1 Hu1 Hle1. cbv beta iota. fine_step; [|fine_auto].
      apply fine_set_character; [done| |exact I]. intros hi p2 Hu2 Hle2. simpl in Hle2. fine_auto.
    + cbv beta iota. eapply fine_bind; [apply IA; [done|lia]|]. intros operand p1 Hu1 Hle1. fine_auto.
  - intros p Hu Hf. cbn [parse_class_set_operand]. fine_step.
    { match goal with E : is_ch "[" (peek p) = true |- _ => apply is_ch_spec, (peek_lt us) in E; [|done] end.
      eapply fine_bind; [apply IS; [done|done|lia]|]. intros [set neg] p1 Hu1 Hle1. fine_auto. }
    fine_step.
    { fine_step; [eapply fine_weaken; [|by apply fine_class_strings]; simpl; lia|].
      fine_step; [eapply fine_weaken; [|by apply fine_property_set_v]; simpl; lia|].
      eapply fine_bind; [by apply fine_class_escape|]. intros [[sub neg]|] p1 Hu1 Hle1; simpl in Hle1; [fine_auto|].
      eapply fine_bind; [by apply fine_class_char_escape|]. intros cp p2 Hu2 Hle2. fine_auto. }
    apply fine_set_character; [done| |exact I]. intros cp p1 Hu1 Hle1. fine_auto.
Qed.

Lemma fine_class us p : p_units p = us -> pos p < length us -> fine us (pos p + 1) (parse_class p).
Proof.
  intros Hu Hlt. unfold parse_class. fine_step.
  - eapply fine_bind; [apply (ct_set us _ (class_sets us _)); [done|done|unfold class_fuel; rewrite Hu; lia]|].
    intros [set neg] p1 Hu1 Hle1. fine_auto.
  - apply fine_enter. intros p0 Hu0 Hp0. fine_auto; (eapply fine_bind;
      [apply (fine_class_members us); [simpl; congruence|lia|simpl; rewrite Hu0, Hu; lia]|];
      intros set p2 Hu2 Hle2; simpl in Hle2; fine_auto).
Qed.

(** ** Group names and backreferences *)

Lemma fixed_hex_ge n us i v v' next : fixed_hex n us i v = Some (v', next) -> i <= next.
Proof.
  revert i v. induction n as [|n IH]; intros i v Hf; simpl in Hf; [by injection Hf as <- <-|].
  destruct (us !! i) as [c|]; [|done]. destruct (hex_digit c); [|done]. apply IH in Hf. lia.
Qed.

Lemma braced_hex_ge fuel us i v any ch next : braced_hex fuel us i v any = Some (ch, next) -> i <= next.
Proof.
  revert i v any. induction fuel as [|fuel IH]; intros i v any Hf; [done|]. simpl in Hf.
  destruct (us !! i) as [c|]; [|done]. destruct (c =? b8 "}")%Z.
  - destruct any; [|done]. apply scalar_at_next in Hf as [-> _]. lia.
  - destruct (hex_digit c); [|done]. destruct (1114111 <? _)%Z; [done|]. apply IH in Hf. lia.
Qed.

Lemma name_escape_ge us i ch next : read_group_name_unicode_escape us i = Some (ch, next) -> i <= next.
Proof.
  unfold read_group_name_unicode_escape. intros Hr. destruct (is_ch "{" _); [apply braced_hex_ge in Hr; lia|].
  destruct (read_group_name_fixed_hex us i) as [[hi n1]|] eqn:Eh; [|done]. apply fixed_hex_ge in Eh.
  destruct (_ && _ && _); [|apply scalar_at_next in Hr as [-> _]; done].
  destruct (read_group_name_fixed_hex us (n1 + 2)) as [[lo n2]|] eqn:El; [|apply scalar_at_next in Hr as [-> _]; done].
  apply fixed_hex_ge in El. destruct (is_low_surrogate lo); apply scalar_at_next in Hr as [-> _]; lia.
Qed.

Lemma name_code_point_gt us i ch next : read_group_name_code_point us i = Some (ch, next) -> i < next.
Proof.
  unfold read_group_name_code_point. intros Hr. destruct (us !! i) as [hi|]; [|done].
  destruct (us !! (i + 1)) as [lo|]; [|apply scalar_at_next in Hr as [-> _]; lia].
  destruct (_ && _); apply scalar_at_next in Hr as [-> _]; lia.
Qed.

Lemma group_name_loop_gt fuel us i acc first name next :
  group_name_loop fuel us i acc first = Some (name, next) -> i < next.
Proof.
  revert i acc first. induction fuel as [|fuel IH]; intros i acc first Hr; [done|]. simpl in Hr.
  destruct (us !! i) as [c|]; [|done]. destruct (c =? b8 ">")%Z; [destruct acc; [done|]; injection Hr as <- <-; lia|].
  destruct (if (c =? b8 "\")%Z && is_ch "u" (us !! (i + 1)) then read_group_name_unicode_escape us (i + 2)
            else read_group_name_code_point us i) as [[ch n1]|] eqn:Er; [|done].
  destruct (if first then is_group_name_start ch else is_group_name_continue ch); [|done]. apply IH in Hr.
  destruct (_ && _); [apply name_escape_ge in Er; lia|apply name_code_point_gt in Er; lia].
Qed.

Lemma fine_numeric_backref us p : p_units p = us -> fine us (pos p) (parse_numeric_backref p).
Proof.
  intros Hu. unfold parse_numeric_backref. cbv zeta. unfold read_decimal. fine_auto.
  eapply fine_bind; [by apply fine_octal|]. intros cp p1 Hu1 Hle. fine_auto.
Qed.

Lemma fine_named_backref us p : p_units p = us -> fine us (pos p) (parse_named_backref p).
Proof.
  intros Hu. unfold parse_named_backref. cbv zeta. fine_step; [|fine_auto].
  destruct (read_group_name _ _) as [[name next]|] eqn:En; [|done]. apply group_name_loop_gt in En. fine_norm.
  destruct (name_to_indices _ _); [exact I|]. apply fine_ok; simpl; [done|lia].
Qed.

Lemma fine_escape_atom us p : p_units p = us -> fine us (pos p + 1) (parse_escape_atom p).
Proof.
  intros Hu. unfold parse_escape_atom. fine_auto.
  - eapply fine_weaken; [|by apply fine_named_backref]. simpl. lia.
  - eapply fine_weaken; [|by apply fine_numeric_backref]. simpl. lia.
  - eapply fine_bind; [by apply fine_property_set_v|]. intros set p1 Hu1 Hle. simpl in Hle. fine_auto.
  - eapply fine_bind; [by apply fine_class_escape|]. intros [[set neg]|] p1 Hu1 Hle; simpl in Hle; [fine_auto|].
    eapply fine_bind; [by apply fine_char_escape|]. intros cp p2 Hu2 Hle2. fine_auto.
Qed.

(** ** Quantifiers and groups *)

(** Readers that cannot fail leave the cursor further on. *)
Definition onward {A} (p : Parser) (r : A * Parser) : Prop := p_units r.2 = p_units p /\ pos p <= pos r.2.

Lemma onward_digits p : onward p (read_decimal_digits p).
Proof. unfold onward, read_decimal_digits. simpl. split; [done|lia]. Qed.

Lemma onward_eat c p : onward p (eat c p).
Proof. unfold onward. destruct (eat_spec c p) as [[-> _]|[-> _]]; simpl; split; done || lia. Qed.

Lemma fine_brace us p : p_units p = us -> fine us (pos p) (parse_brace_quantifier p).
Proof.
  intros Hu. unfold parse_brace_quantifier. cbv zeta.
  pose proof (onward_digits (bump 1 p)) as [U1 H1]. destruct (read_decimal_digits (bump 1 p)) as [lo p1].
  pose proof (onward_eat "," p1) as [U2 H2]. destruct (eat "," p1) as [comma p2].
  set (m := if comma then _ else _).
  assert (Hm : onward p2 m).
  { unfold m. destruct comma; [|done]. destruct (is_ch "}" (peek p2)); [done|].
    pose proof (onward_digits p2) as [U H3]. by destruct (read_decimal_digits p2). }
  destruct m as [hi p3], Hm as [U3 H3]. pose proof (onward_eat "}" p3) as [U4 H4].
  destruct (eat "}" p3) as [close p4]. simpl in *. destruct close; [|done]. apply fine_ok; [congruence|lia].
Qed.

Lemma fine_quantify us atom p : p_units p = us -> fine us (pos p) (maybe_quantify atom p).
Proof.
  intros Hu. unfold maybe_quantify. fine_auto.
  eapply fine_bind; [by apply fine_brace|]. intros [[min max] inverted] p1 Hu1 Hle. fine_auto.
Qed.

Lemma fine_simple_atom us p r : p_units p = us -> parse_simple_atom p = Some r -> fine us (pos p + 1) r.
Proof.
  intros Hu Hs. unfold parse_simple_atom in Hs. destruct (peek p) as [c|] eqn:Ec; [|by injection Hs as <-].
  apply (peek_lt us) in Ec; [|done].
  repeat match type of Hs with
  | (if ?x then _ else _) = Some _ => destruct x; [simplify_eq; try done|]
  end; simplify_eq; try done; try (fine_auto; done).
  - by apply fine_class.
  - by apply fine_escape_atom.
  - eapply fine_bind; [by apply fine_codepoint|]. intros cp p1 Hu1 Hle. fine_auto.
Qed.

(** The flags seen by the modifier loops: distinct, of three. *)
Definition flags_seen (seen : list nat) : Prop := NoDup seen /\ forall i, i ∈ seen -> i < 3.

Lemma flags_seen_length seen : flags_seen seen -> length seen <= 3.
Proof.
  intros [Hnd Hlt]. change 3 with (length (seq 0 3)). apply NoDup_incl_length; [by apply NoDup_ListNoDup|].
  intros i Hi. apply in_seq. apply list_elem_of_In, Hlt in Hi. lia.
Qed.

Lemma modifier_index_lt c i : modifier_index c = Some i -> i < 3.
Proof. unfold modifier_index. repeat case_match; intros; simplify_eq; lia. Qed.

Lemma modifier_loop_total us fuel v seen count p : p_units p = us -> flags_seen seen -> 4 <= fuel + length seen ->
  fine us (pos p) (modifier_loop fuel v seen count p) /\
  forall seen' count' p', modifier_loop fuel v seen count p = Ok ((seen', count'), p') -> flags_seen seen'.
Proof.
  revert seen count p. induction fuel as [|fuel IH]; intros seen count p Hu Hs Hf.
  { pose proof (flags_seen_length seen Hs). simpl in Hf. lia. }
  simpl. destruct (peek p) as [c|]; [|by split; [|intros ??? [= <- <- <-]]].
  destruct (modifier_index c) as [i|] eqn:Ei; [|by split; [|intros ??? [= <- <- <-]]].
  case_bool_decide as Hin; [by split|].
  destruct (IH (i :: seen) (S count) (bump 1 (with_flags (set_modifier i v (p_flags p)) p))) as [Hfine Hseen]; [done| |simpl; lia|].
  - split; [apply NoDup_cons; split; [done|apply Hs]|]. intros j [->|Hj]%elem_of_cons; [by eapply modifier_index_lt|by apply Hs].
  - split; [eapply fine_weaken; [|exact Hfine]; simpl; lia|exact Hseen].
Qed.

Lemma fine_modifiers us p : p_units p = us -> fine us (pos p) (parse_modifiers p).
Proof.
  intros Hu. unfold parse_modifiers.
  destruct (modifier_loop_total us 4 true [] 0 p Hu) as [Hf Hs]; [split; [constructor|by intros i ?%elem_of_nil]|simpl; lia|].
  destruct (modifier_loop 4 true [] 0 p) as [[[seen added] p1]| | |]; simpl in *; try done.
  destruct Hf as [U1 H1]. specialize (Hs seen added p1 eq_refl).
  pose proof (onward_eat "-" p1) as [U2 H2]. destruct (eat "-" p1) as [dash p2]. simpl in U2, H2.
  eapply (fine_bind us _ (pos p)).
  - destruct dash; [|apply fine_ok; [congruence|lia]].
    eapply fine_weaken; [|apply (proj1 (modifier_loop_total us 4 false seen 0 p2 ltac:(congruence) Hs ltac:(lia)))]. lia.
  - intros [seen2 removed] p3 U3 H3. fine_auto.
Qed.

Lemma fine_group_kind us p : p_units p = us -> fine us (pos p) (parse_group_kind p).
Proof.
  intros Hu. unfold parse_group_kind. fine_auto.
  match goal with E : read_group_name _ _ = Some _ |- _ => apply group_name_loop_gt in E end.
  apply fine_ok; simpl in *; [done|lia].
Qed.

(** ** The grammar *)

(** The fuel each method needs: a group passes through six calls (seven with
    modifiers) before the next disjunction and consumes its parenthesis. *)
Record grammar_total (us : list Z) (fuel : nat) : Prop := mkGrammarTotal {
  gt_disjunction : forall p, p_units p = us -> 8 * (length us - pos p) + 8 <= fuel ->
    fine us (pos p) (parse_disjunction fuel p);
  gt_alternatives : forall alts p, p_units p = us -> 8 * (length us - pos p) + 7 <= fuel ->
    fine us (pos p) (alternatives_loop fuel alts p);
  gt_alternative : forall terms p, p_units p = us -> 8 * (length us - pos p) + 7 <= fuel ->
    fine us (pos p) (parse_alternative fuel terms p);
  gt_term : forall p, p_units p = us -> 8 * (length us - pos p) + 6 <= fuel ->
    fine us (pos p) (parse_term fuel p) /\
    forall n p', parse_term fuel p = Ok (Some n, p') -> pos p < length us /\ pos p + 1 <= pos p';
  gt_atom : forall p, p_units p = us -> pos p < length us -> 8 * (length us - pos p) + 5 <= fuel ->
    fine us (pos p + 1) (parse_atom fuel p);
  gt_group : forall p, p_units p = us -> pos p < length us -> 8 * (length us - pos p) + 4 <= fuel ->
    fine us (pos p + 1) (parse_group fuel p);
  gt_modifiers : forall p, p_units p = us -> 8 * (length us - pos p) + 9 <= fuel ->
    fine us (pos p) (parse_modifier_group fuel p)
}.

Lemma grammar_fuel us fuel : grammar_total us fuel.
Proof.
  induction fuel as [|fuel [ID IL IA IT IAt IG IM]]; [split; intros; lia|]. split.
  - intros p Hu Hf. cbn [parse_disjunction]. apply fine_enter. intros p0 Hu0 Hp0.
    eapply fine_bind; [apply (IA [] p0); [congruence|lia]|]. intros a p1 Hu1 Hle1.
    eapply fine_bind; [apply IL; [done|lia]|]. intros alts p2 Hu2 Hle2. apply fine_ok; simpl; [done|lia].
  - intros alts p Hu Hf. cbn [alternatives_loop]. fine_step; fine_norm; [|fine_auto].
    match goal with Hc : peek p = Some _ |- _ => apply (peek_lt us) in Hc; [|done] end.
    eapply fine_bind; [apply IA; [done|simpl; lia]|]. intros a p1 Hu1 Hle1. simpl in Hle1.
    eapply fine_weaken; [|apply IL; [done|lia]]. lia.
  - intros terms p Hu Hf. cbn [parse_alternative]. destruct (IT p Hu ltac:(lia)) as [Hfine Hsome].
    destruct (parse_term fuel p) as [[[t|] p1]| | |]; simpl in *; try done.
    destruct Hfine as [Hu1 _]. destruct (Hsome t p1 eq_refl) as [Hlt Hle].
    eapply fine_weaken; [|apply IA; [done|lia]]. lia.
  - intros p Hu Hf. cbn [parse_term]. destruct (peek p) as [c|] eqn:Ec; [|done].
    apply (peek_lt us) in Ec; [|done]. destruct (_ || _); [done|].
    pose proof (IAt p Hu Ec ltac:(lia)) as Ha.
    destruct (parse_atom fuel p) as [[atom p1]| | |]; simpl in *; try done. destruct Ha as [Hu1 Hle1].
    pose proof (fine_quantify us atom p1 Hu1) as Hq.
    destruct (maybe_quantify atom p1) as [[n p2]| | |]; simpl in *; try done. destruct Hq as [Hu2 Hle2].
    split; [split; [done|lia]|]. intros n' p' [= <- <-]. lia.
  - intros p Hu Hlt Hf. cbn [parse_atom]. destruct (parse_simple_atom p) as [r|] eqn:Es; [by eapply fine_simple_atom|].
    apply IG; [done|done|lia].
  - intros p Hu Hlt Hf. cbn [parse_group]. eapply fine_bind; [by apply (fine_group_kind us (bump 1 p))|].
    intros [kind|] p1 Hu1 Hle1; simpl in Hle1.
    + eapply fine_bind; [apply ID; [done|lia]|]. intros body p2 Hu2 Hle2. fine_auto.
    + eapply fine_weaken; [|apply IM; [done|lia]]. lia.
  - intros p Hu Hf. cbn [parse_modifier_group]. cbv zeta. eapply fine_bind; [by apply fine_modifiers|].
    intros u p1 Hu1 Hle1. eapply fine_bind; [apply ID; [done|lia]|]. intros body p2 Hu2 Hle2. fine_auto.
Qed.

Lemma prescan_total fuel us i b names : 0 < fuel -> length us < fuel + i -> prescan_loop fuel us i b names <> OutOfFuel.
Proof.
  revert i b names. induction fuel as [|fuel IH]; intros i b names H0 Hf; [lia|]. simpl.
  destruct (us !! i) as [c|] eqn:Ei; [|done]. apply lookup_lt_Some in Ei.
  repeat match goal with |- (if ?x then _ else _) <> _ => destruct x end; try (apply IH; lia).
  destruct (read_group_name us (i + 3)) as [[name next]|] eqn:En; [|done].
  apply group_name_loop_gt in En. apply IH; lia.
Qed.

Lemma fold_left_fuel {A B} (f : A -> B -> res RegexError A) l (acc : res RegexError A) :
  acc <> OutOfFuel -> Forall (fun x => forall a, f a x <> OutOfFuel) l ->
  fold_left (fun acc x => rbind acc (fun a => f a x)) l acc <> OutOfFuel.
Proof.
  intros Ha Hl. revert acc Ha. induction Hl as [|x l Hx _ IH]; intros acc Ha; simpl; [done|].
  apply IH. destruct acc; simpl; auto.
Qed.

Lemma validate_names_fuel n states : validate_names n states <> OutOfFuel.
Proof.
  revert states. induction n as [|cp ic|da|s n ic|a|gs ic|l IH|l IH|n q IH|k n IH] using node_ind'; intros states; simpl; try done.
  - apply (fold_left_fuel (fun st n => validate_names n st)); [done|]. exact IH.
  - apply (fold_left_fuel (fun out n => let* sts := validate_names n states in Ok (out ++ sts))); [done|].
    eapply Forall_impl; [exact IH|]. intros n Hn out. specialize (Hn states). by destruct (validate_names n states).
  - destruct k as [g [name|]| | |]; try done. unfold add_name. destruct (existsb _ _); [done|]. apply IH.
Qed.
End Total.

(** ** Property *)

(** C12: the parser terminates.  On every pattern, in every mode, the fuel [parse]
    starts its recursion and its loops with is enough: the answer is a parsed
    pattern, a syntax error or a panic of the source, never an exhausted
    model. *)
Theorem parse_terminates `{Icu} pattern f : parse pattern f <> OutOfFuel.
Proof.
  unfold parse, prescan. pose proof (prescan_total (S (length pattern)) pattern 0 false [] ltac:(lia) ltac:(lia)) as Hp.
  simpl p_units. destruct (prescan_loop _ pattern 0 false []) as [names| | |]; try done. cbn [rbind].
  set (p := mkParser _ _ _ _ _ _ _).
  pose proof (gt_disjunction pattern _ (grammar_fuel pattern (parse_fuel pattern)) p eq_refl) as Hd.
  specialize (Hd ltac:(unfold parse_fuel; simpl; lia)).
  destruct (parse_disjunction _ p) as [[root p1]| | |]; simpl in *; try done.
  destruct (_ =? _); [|done]. pose proof (validate_names_fuel root [[]]) as Hv.
  by destruct (validate_names root [[]]).
Qed.
