(* ===== verification/Names.v ===== *)
(** * Duplicate group names and the nesting limit (parser/mod.rs)

    [validate_names] walks the tree with the sets of names seen on each path so
    far.  It accepts exactly the trees in which no path through the alternatives
    meets a name twice: the rule of ECMA-262 for duplicate named groups.
    [enter] and [leave] bracket every disjunction and every class; the groups of
    an accepted pattern are never nested deeper than [MAX_NESTING_DEPTH] allows,
    so the recursions over its tree (name check, lowering) are bounded too. *)

From Stdlib Require Import String.
From S2P Require Import Prelude Unicode Classes Program Parser Lower Prescan ParserSound.

Abbreviation name := (list Z).

(** The names met on each path through the alternatives, in source order. *)
Fixpoint name_paths (n : Node) : list (list name) :=
  match n with
  | Node.Concat nodes =>
      foldr (fun n rest => flat_map (fun p => map (app p) rest) (name_paths n)) [[]] nodes
  | Node.Alternate alts => flat_map name_paths alts
  | Node.Repeat node _ => name_paths node
  | Node.Group (Capturing _ (Some x)) body => map (cons x) (name_paths body)
  | Node.Group _ body => name_paths body
  | _ => [[]]
  end.

(** Every alternation has an alternative, as the parser builds them. *)
Fixpoint alternates_ok (n : Node) : bool :=
  match n with
  | Node.Concat nodes => forallb alternates_ok nodes
  | Node.Alternate alts => match alts with [] => false | _ => forallb alternates_ok alts end
  | Node.Repeat node _ | Node.Group _ node => alternates_ok node
  | _ => true
  end.

(** A path that can follow the names [st]. *)
Definition fits (st p : list name) : Prop := NoDup p /\ forall x, x ∈ p -> x ∉ st.

Lemma fits_nil st : fits st [].
Proof. split; [constructor|]. intros x Hx. by apply elem_of_nil in Hx. Qed.

Lemma fits_perm st st' p : st ≡ₚ st' -> fits st p -> fits st' p.
Proof. intros Hp [Hn Hd]. split; [done|]. intros x Hx. rewrite <- Hp. auto. Qed.

Lemma fits_app st p1 p2 : fits st (p1 ++ p2) <-> fits st p1 /\ fits (p1 ++ st) p2.
Proof.
  unfold fits. rewrite NoDup_app. setoid_rewrite elem_of_app. split.
  - intros [(H1 & H2 & H3) H4]. split; [split; auto|]. split; [done|]. intros x Hx [?|?]; [by eapply H2|].
    by eapply H4; [right|].
  - intros [[H1 H2] [H3 H4]]. split.
    + split; [done|]. split; [|done]. intros x Hx Hx2. apply (H4 x Hx2). by left.
    + intros x [Hx|Hx] Hst; [by eapply H2|]. apply (H4 x Hx). by right.
Qed.

(** [sts] are the states [states] extended by the paths [ps]. *)
Definition extends (states ps sts : list (list name)) : Prop :=
  (forall st p, In st states -> In p ps -> exists st', In st' sts /\ st' ≡ₚ p ++ st) /\
  (forall st', In st' sts -> exists st p, In st states /\ In p ps /\ st' ≡ₚ p ++ st).

(** What the check answers on paths [ps] from [states]. *)
Definition checked (states ps : list (list name)) (r : res RegexError (list (list name))) : Prop :=
  match r with
  | Ok sts => (forall st p, In st states -> In p ps -> fits st p) /\ extends states ps sts
  | Err _ => exists st p, In st states /\ In p ps /\ ~ fits st p
  | _ => False
  end.

Lemma checked_unit states : checked states [[]] (Ok states).
Proof.
  split; [intros st p _ [<-|[]]; apply fits_nil|]. split.
  - intros st p Hst [<-|[]]. by exists st.
  - intros st Hst. exists st, []. split; [done|]. split; [by left|done].
Qed.

Lemma name_paths_some n : alternates_ok n = true -> name_paths n <> [].
Proof.
  induction n as [|cp ic|da|s n ic|a|gs ic|l IH|l IH|n q IH|k n IH] using node_ind'; simpl; try done.
  - intros Hok. induction IH as [|x l Hx _ IHl]; simpl in *; [done|]. apply andb_prop in Hok as [Ox Ol].
    specialize (Hx Ox). specialize (IHl Ol). destruct (name_paths x); [done|]. by destruct (foldr _ _ _).
  - destruct IH as [|x l Hx _]; [done|]. intros Hok. apply andb_prop in Hok as [Ox _]. specialize (Hx Ox).
    simpl. by destruct (name_paths x).
  - intros Hok. specialize (IH Hok). destruct k as [g [x|]| | |]; try done. by destruct (name_paths n).
Qed.

Lemma checked_seq states ps qs r f : qs <> [] ->
  checked states ps r -> (forall sts, r = Ok sts -> checked sts qs (f sts)) ->
  checked states (flat_map (fun p => map (app p) qs) ps) (rbind r f).
Proof.
  intros Hne Hr Hf.
  assert (Hin : forall pq, In pq (flat_map (fun p => map (app p) qs) ps) <->
    exists p q, In p ps /\ In q qs /\ pq = p ++ q).
  { intros pq. rewrite in_flat_map. split.
    - intros (p & Hp & Hpq). apply in_map_iff in Hpq as (q & <- & Hq). eauto.
    - intros (p & q & Hp & Hq & ->). exists p. split; [done|]. apply in_map_iff. eauto. }
  destruct r as [sts|e| |]; simpl in Hr |- *; try done.
  - destruct Hr as [Hfit [He1 He2]]. specialize (Hf sts eq_refl). destruct (f sts) as [out|e| |]; simpl in *; try done.
    + destruct Hf as [Hfit2 [Hf1 Hf2]]. split; [|split].
      * intros st pq Hst (p & q & Hp & Hq & ->)%Hin. apply fits_app. split; [auto|].
        destruct (He1 st p Hst Hp) as (st' & Hst' & Hperm). eapply fits_perm; [exact Hperm|auto].
      * intros st pq Hst (p & q & Hp & Hq & ->)%Hin. destruct (He1 st p Hst Hp) as (st' & Hst' & Hperm).
        destruct (Hf1 st' q Hst' Hq) as (st2 & Hst2 & Hperm2). exists st2. split; [done|].
        rewrite Hperm2, Hperm, !(assoc_L (++)). by rewrite (comm (++) q p).
      * intros st2 Hst2. destruct (Hf2 st2 Hst2) as (st' & q & Hst' & Hq & Hperm2).
        destruct (He2 st' Hst') as (st & p & Hst & Hp & Hperm). exists st, (p ++ q). split; [done|].
        split; [apply Hin; eauto|]. rewrite Hperm2, Hperm, !(assoc_L (++)). by rewrite (comm (++) q p).
    + destruct Hf as (st' & q & Hst' & Hq & Hno). destruct (He2 st' Hst') as (st & p & Hst & Hp & Hperm).
      exists st, (p ++ q). split; [done|]. split; [apply Hin; eauto|]. intros [_ Hfq]%fits_app. apply Hno.
      eapply fits_perm; [symmetry; exact Hperm|done].
  - destruct Hr as (st & p & Hst & Hp & Hno). destruct qs as [|q qs]; [done|].
    exists st, (p ++ q). split; [done|]. split; [apply Hin; exists p, q; simpl; auto|]. by intros [? _]%fits_app.
Qed.

Lemma fold_left_rbind {A B} (f : A -> B -> res RegexError A) l (r : res RegexError A) :
  fold_left (fun acc x => rbind acc (fun a => f a x)) l r =
  rbind r (fun a => fold_left (fun acc x => rbind acc (fun a => f a x)) l (Ok a)).
Proof.
  revert r. induction l as [|x l IH]; intros r; simpl; [by destruct r|].
  destruct r; simpl; [done|by rewrite IH..].
Qed.

(** The alternatives' states, side by side. *)
Lemma checked_alternatives states alts out :
  Forall (fun n => forall states, checked states (name_paths n) (validate_names n states)) alts ->
  match fold_left (fun acc n => rbind acc (fun out => let* sts := validate_names n states in Ok (out ++ sts)))
          alts (Ok out) with
  | Ok res => exists sts, res = out ++ sts /\ checked states (flat_map name_paths alts) (Ok sts)
  | Err e => checked states (flat_map name_paths alts) (Err e)
  | _ => False
  end.
Proof.
  intros Hall. revert out. induction Hall as [|n alts Hn _ IH]; intros out; simpl.
  - exists []. split; [by rewrite app_nil_r|]. split; [done|]. split; done.
  - specialize (Hn states). rewrite fold_left_rbind. destruct (validate_names n states) as [sts|e| |]; simpl in *; try done.
    + specialize (IH (out ++ sts)). destruct (fold_left _ alts _) as [res|e| |]; try done.
      * destruct IH as (sts2 & -> & Hfit2 & He2 & Hb2). destruct Hn as (Hfit & He & Hb).
        exists (sts ++ sts2). split; [by rewrite app_assoc|]. split; [|split].
        -- intros st p Hst [Hp|Hp]%in_app_or; auto.
        -- intros st p Hst [Hp|Hp]%in_app_or; [destruct (He st p Hst Hp) as (st' & ? & ?)|destruct (He2 st p Hst Hp) as (st' & ? & ?)];
             exists st'; (split; [apply in_or_app; auto|done]).
        -- intros st' [Hst|Hst]%in_app_or; [destruct (Hb st' Hst) as (st & p & ? & ? & ?)|destruct (Hb2 st' Hst) as (st & p & ? & ? & ?)];
             exists st, p; (split; [done|]; split; [apply in_or_app; auto|done]).
      * destruct IH as (st & p & Hst & Hp & Hno). exists st, p. split; [done|]. split; [apply in_or_app; auto|done].
    + destruct Hn as (st & p & Hst & Hp & Hno). exists st, p. split; [done|]. split; [apply in_or_app; auto|done].
Qed.

Lemma checked_name x states ps r : ps <> [] ->
  (forall sts, checked sts ps (r sts)) ->
  checked states (map (cons x) ps) (let* sts := add_name x states in r sts).
Proof.
  intros Hne Hr. unfold add_name. destruct (existsb _ states) eqn:E; simpl.
  - apply existsb_exists in E as (st & Hst & Hx). apply bool_decide_eq_true in Hx. destruct ps as [|p ps]; [done|].
    exists st, (x :: p). split; [done|]. split; [by left|]. intros [_ Hd]. apply (Hd x); [by apply elem_of_cons; left|done].
  - specialize (Hr (map (cons x) states)).
    assert (Hnot : forall st, In st states -> x ∉ st).
    { intros st Hst Hx. assert (existsb (fun st => bool_decide (x ∈ st)) states = true); [|congruence].
      apply existsb_exists. exists st. split; [done|]. by apply bool_decide_eq_true. }
    assert (Hcons : forall st p, In st states -> fits st (x :: p) <-> fits (x :: st) p).
    { intros st p Hst. rewrite (fits_app st [x] p). split; [by intros [_ ?]|]. intros Hf. split; [|done].
      split; [apply NoDup_singleton|]. intros y ->%list_elem_of_singleton. by apply Hnot. }
    destruct (r (map (cons x) states)) as [sts|e| |]; simpl in *; try done.
    + destruct Hr as (Hfit & He & Hb). split; [|split].
      * intros st xp Hst Hp. apply in_map_iff in Hp as (p & <- & Hp). apply Hcons; [done|]. apply Hfit; [|done].
        apply in_map_iff. eauto.
      * intros st xp Hst Hp. apply in_map_iff in Hp as (p & <- & Hp).
        destruct (He (x :: st) p) as (st' & Hst' & Hperm); [apply in_map_iff; eauto|done|].
        exists st'. split; [done|]. rewrite Hperm. symmetry. apply Permutation_middle.
      * intros st' Hst'. destruct (Hb st' Hst') as (xst & p & Hx & Hp & Hperm). apply in_map_iff in Hx as (st & <- & Hst).
        exists st, (x :: p). split; [done|]. split; [apply in_map_iff; eauto|]. rewrite Hperm. symmetry. apply Permutation_middle.
    + destruct Hr as (xst & p & Hx & Hp & Hno). apply in_map_iff in Hx as (st & <- & Hst).
      exists st, (x :: p). split; [done|]. split; [apply in_map_iff; eauto|]. by rewrite Hcons.
Qed.

Lemma validate_checked n states : alternates_ok n = true -> checked states (name_paths n) (validate_names n states).
Proof.
  revert states. induction n as [|cp ic|da|s n ic|a|gs ic|l IH|l IH|n q IH|k n IH] using node_ind';
    intros states Hok; try apply checked_unit.
  - simpl in *. revert states. induction IH as [|x l Hx _ IHl]; intros states; simpl in *; [apply checked_unit|].
    apply andb_prop in Hok as [Ox Ol]. rewrite (fold_left_rbind (fun st n => validate_names n st)).
    apply checked_seq; [by apply (name_paths_some (Node.Concat l))|by apply Hx|]. intros sts _. by apply IHl.
  - simpl in *. assert (Hall : forallb alternates_ok l = true) by (by destruct l).
    assert (Hl : Forall (fun n => forall states, checked states (name_paths n) (validate_names n states)) l).
    { apply Forall_forall. intros x Hx st. apply (proj1 (Forall_forall _ _) IH x Hx).
      apply (proj1 (forallb_forall _ _) Hall). by apply list_elem_of_In. }
    pose proof (checked_alternatives states l [] Hl) as Hc.
    destruct (fold_left _ l (Ok [])) as [res|e| |]; [|done..]. by destruct Hc as (sts & -> & Hc).
  - by apply IH.
  - simpl in *. destruct k as [g [x|]| | |]; try (by apply IH).
    apply checked_name; [by apply name_paths_some|]. intros sts. by apply IH.
Qed.

(** ** Property *)

(** The duplicate-name check is exact.  On a tree as the parser builds it,
    [validate_names] succeeds if and only if no path through the alternatives
    meets a group name twice, and otherwise reports a syntax error: a name may be
    reused across alternatives, never within one. *)
Theorem duplicate_names_exact n : alternates_ok n = true ->
  ((exists sts, validate_names n [[]] = Ok sts) <-> Forall NoDup (name_paths n)) /\
  ((exists e, validate_names n [[]] = Err e) <-> ~ Forall NoDup (name_paths n)).
Proof.
  intros Hok. pose proof (validate_checked n [[]] Hok) as Hc.
  assert (Hfit : forall p, fits [] p <-> NoDup p).
  { intros p. split; [by intros [? _]|]. intros Hn. split; [done|]. by intros x _ ?%elem_of_nil. }
  destruct (validate_names n [[]]) as [sts|e| |]; simpl in Hc; try done.
  - destruct Hc as [Hf _]. assert (Hall : Forall NoDup (name_paths n)).
    { apply Forall_forall. intros p Hp. apply (proj1 (Hfit p)), Hf; [by left|by apply list_elem_of_In]. }
    split; split; try done; [by eauto|by intros [e ?]].
  - destruct Hc as (st & p & [<-|[]] & Hp & Hno).
    assert (Hnot : ~ Forall NoDup (name_paths n)).
    { intros Hall. apply Hno, (proj2 (Hfit p)). apply (proj1 (Forall_forall _ _) Hall). by apply list_elem_of_In. }
    split; split; try done; [by intros [? ?]|by eauto].
Qed.

(** [(?<x>a)|(?<x>b)] is accepted, [(?<x>a)(?<x>b)] is not. *)
Definition named_x (c : Z) (g : nat) : Node :=
  Node.Group (Capturing g (Some [120%Z])) (Node.Char c false).

Lemma duplicate_names_exact_witness :
  (exists sts, validate_names (Node.Alternate [named_x 97 1; named_x 98 2]) [[]] = Ok sts) /\
  (exists e, validate_names (Node.Concat [named_x 97 1; named_x 98 2]) [[]] = Err e).
Proof.
  split.
  - apply (duplicate_names_exact (Node.Alternate [named_x 97 1; named_x 98 2]) eq_refl).
    repeat constructor; by intros ?%elem_of_nil.
  - apply (duplicate_names_exact (Node.Concat [named_x 97 1; named_x 98 2]) eq_refl).
    intros Hn. apply Forall_inv, NoDup_cons in Hn as [Hn _]. apply Hn. by apply elem_of_cons; left.
Defined.

(** ** The nesting limit *)

(** The depth of group nesting. *)
Fixpoint nesting (n : Node) : nat :=
  match n with
  | Node.Concat l | Node.Alternate l => foldr (fun n => Nat.max (nesting n)) 0 l
  | Node.Repeat n _ => nesting n
  | Node.Group _ n => S (nesting n)
  | _ => 0
  end.

Definition all_nested (k : nat) (l : list Node) : Prop := Forall (fun n => nesting n <= k) l.

Lemma nesting_foldr k l : all_nested k l -> foldr (fun n => Nat.max (nesting n)) 0 l <= k.
Proof. induction 1 as [|n l Hn _ IH]; simpl; lia. Qed.

Lemma nesting_alternative k l : all_nested k l -> nesting (alternative_node l) <= k.
Proof.
  intros Hl. destruct l as [|n [|n2 l]]; simpl; [lia|by inversion Hl|]. by apply (nesting_foldr k (n :: n2 :: l)).
Qed.

Lemma nesting_disjunction k l : all_nested k l -> nesting (disjunction_node l) <= k.
Proof.
  intros Hl. destruct l as [|n [|n2 l]]; simpl; [lia|by inversion Hl|]. by apply (nesting_foldr k (n :: n2 :: l)).
Qed.

Section Nesting.
Context `{IcuNames}.

(** Atoms other than groups. *)
Lemma class_nesting p n p' : parse_class p = Ok (n, p') -> nesting n = 0.
Proof.
  unfold parse_class. intros Hr. destruct (unicode_sets _).
  - inv_bind Hr. destruct a as [[set neg] p1]. by injection Hr as <- <-.
  - inv_bind Hr. cbv zeta in Hr. destruct (eat _ _). inv_bind Hr. destruct a0 as [set p1]. by injection Hr as <- <-.
Qed.

Lemma backref_nesting p n p' :
  parse_numeric_backref p = Ok (n, p') \/ parse_named_backref p = Ok (n, p') -> nesting n = 0.
Proof.
  unfold parse_numeric_backref, parse_named_backref. intros [Hr|Hr].
  - destruct (read_decimal p). destruct (_ <=? _)%Z; [by injection Hr as <- <-|]. destruct (p_unicode p); [done|].
    destruct (peek p); [|done]. destruct (in_range _ _ _); [|by injection Hr as <- <-].
    inv_bind Hr. destruct a as [cp p1]. by injection Hr as <- <-.
  - cbv zeta in Hr. destruct (_ && _).
    + destruct (read_group_name _ _) as [[x next]|]; [|done]. destruct (name_to_indices _ _); [done|]. by injection Hr as <- <-.
    + destruct (_ || _); [done|]. by injection Hr as <- <-.
Qed.

Lemma escape_nesting p n p' : parse_escape_atom p = Ok (n, p') -> nesting n = 0.
Proof.
  unfold parse_escape_atom. cbv zeta. intros Hr. destruct (peek (bump 1 p)) as [c|]; [|done].
  do 2 (destruct (c =? b8 _)%Z; [by injection Hr as <- <-|]).
  destruct (c =? b8 "k")%Z; [eapply backref_nesting; by right|].
  destruct (in_range 49 57 c); [eapply backref_nesting; by left|].
  destruct (_ && _).
  - inv_bind Hr. destruct a as [set p1]. by injection Hr as <- <-.
  - inv_bind Hr. destruct a as [[[set neg]|] p1]; [by injection Hr as <- <-|].
    inv_bind Hr. destruct a as [cp p2]. by injection Hr as <- <-.
Qed.

Lemma simple_atom_nesting p n p' : parse_simple_atom p = Some (Ok (n, p')) -> nesting n = 0.
Proof.
  unfold parse_simple_atom. intros Hs. destruct (peek p) as [c|]; [|done].
  repeat match type of Hs with
  | (if ?x then _ else _) = Some _ => destruct x; [simplify_eq; try done|]
  end; try (by injection Hs as <- <-).
  - by eapply class_nesting.
  - by eapply escape_nesting.
  - injection Hs as Hs. inv_bind Hs. destruct a as [cp p1]. by injection Hs as <- <-.
Qed.

Lemma quantify_nesting atom p n p' : maybe_quantify atom p = Ok (n, p') -> nesting n = nesting atom.
Proof. intros [_ [->|(q & -> & _)]]%maybe_quantify_ok; done. Qed.

(** ** The grammar *)

Local Abbreviation room p := (MAX_NESTING_DEPTH - depth p).

Record nesting_ok (fuel : nat) : Prop := mkNestingOk {
  n_disjunction : forall p n p', ready p -> parse_disjunction fuel p = Ok (n, p') ->
    depth p + 1 + nesting n <= MAX_NESTING_DEPTH;
  n_alternatives : forall p0 alts p alts' p', ready p0 -> alts <> [] -> parsed_as p0 alts p -> all_nested (room p0) alts ->
    alternatives_loop fuel alts p = Ok (alts', p') -> all_nested (room p0) alts';
  n_alternative : forall p0 terms p n p', ready p0 -> parsed_as p0 terms p -> all_nested (room p0) terms ->
    parse_alternative fuel terms p = Ok (n, p') -> nesting n <= room p0;
  n_term : forall p n p', ready p -> parse_term fuel p = Ok (Some n, p') -> nesting n <= room p;
  n_atom : forall p n p', ready p -> parse_atom fuel p = Ok (n, p') -> nesting n <= room p;
  n_group : forall p n p', ready p -> peek p = Some (b8 "(") -> parse_group fuel p = Ok (n, p') -> nesting n <= room p;
  n_modifiers : forall p n p', ready p -> parse_modifier_group fuel p = Ok (n, p') -> nesting n <= room p
}.

Lemma parsed_depth p l p' : parsed_as p l p' -> depth p' = depth p.
Proof. intros [E _ _ _ _]. by rewrite E. Qed.

Lemma nesting_grammar fuel : nesting_ok fuel.
Proof.
  induction fuel as [|fuel [ID IL IA IT IAt IG IM]]; [by split|].
  destruct (grammar fuel) as [GD GL GA GT GAt GG GM]. split.
  - intros p n p' Hrd Hr. simpl in Hr. inv_bind Hr. apply enter_spec in Hbind as [-> Hd].
    assert (Hrd' : ready (with_depth (depth p + 1) p)) by (by destruct Hrd).
    inv_bind Hr. destruct a as [x p1]. pose proof (GA _ _ _ _ _ Hrd' (parsed_as_refl _) Hbind) as H1.
    pose proof (IA _ _ _ _ _ Hrd' (parsed_as_refl _) (Forall_nil_2 _) Hbind) as Hx.
    inv_bind Hr. destruct a as [alts p2]. injection Hr as <- <-.
    pose proof (IL _ [x] _ _ _ Hrd' ltac:(done) H1 ltac:(by repeat constructor) Hbind0) as Ha.
    pose proof (nesting_disjunction _ _ Ha). simpl in *. lia.
  - intros p0 alts p alts' p' Hrd Hne Hp Ha Hr. simpl in Hr. destruct (eat "|" p) as [bar p1] eqn:Eb. destruct bar.
    + pose proof (parsed_close _ _ _ "|" _ eq_refl Hp Eb) as Hp1. pose proof (parsed_ready _ _ _ Hrd Hp1) as Hrd1.
      inv_bind Hr. destruct a as [x p2]. pose proof (GA _ _ _ _ _ Hrd1 (parsed_as_refl _) Hbind) as H2.
      pose proof (IA _ _ _ _ _ Hrd1 (parsed_as_refl _) (Forall_nil_2 _) Hbind) as Hx.
      rewrite (parsed_depth _ _ _ Hp1) in Hx.
      eapply IL; [exact Hrd| | | |exact Hr]; [by destruct alts|by eapply parsed_as_app|].
      apply Forall_app. split; [done|by constructor].
    + by simplify_eq.
  - intros p0 terms p n p' Hrd Hp Ha Hr. simpl in Hr. inv_bind Hr. destruct a as [t p1].
    pose proof (parsed_ready _ _ _ Hrd Hp) as Hrd1. pose proof (GT _ _ _ Hrd1 Hbind) as Ht. destruct t as [t|].
    + pose proof (IT _ _ _ Hrd1 Hbind) as Hx. rewrite (parsed_depth _ _ _ Hp) in Hx.
      eapply IA; [exact Hrd| | |exact Hr]; [by eapply parsed_as_app|]. apply Forall_app. split; [done|by constructor].
    + injection Hr as <- <-. by apply nesting_alternative.
  - intros p n p' Hrd Hr. simpl in Hr. destruct (peek p) as [c|]; [|done]. destruct (_ || _); [done|].
    inv_bind Hr. destruct a as [atom p1]. inv_bind Hr. destruct a as [x p2]. injection Hr as <- <-.
    apply quantify_nesting in Hbind0 as ->. by eapply IAt.
  - intros p n p' Hrd Hr. simpl in Hr. destruct (parse_simple_atom p) as [r|] eqn:Es.
    + subst r. apply simple_atom_nesting in Es. lia.
    + eapply IG; [done|by apply simple_atom_paren|done].
  - intros p n p' Hrd Hc Hr. simpl in Hr. inv_bind Hr. destruct a as [o p1].
    apply group_kind_ok in Hbind as Ho; [|apply Hrd|done]. pose proof (opened_ready _ _ _ Hrd Ho) as Hrd1.
    assert (Hd : depth p1 = depth p) by (destruct Ho as [E _ _ _]; by rewrite E).
    destruct o as [o|]; [|rewrite <- Hd; by eapply IM].
    inv_bind Hr. destruct a as [body p2]. apply ID in Hbind0; [|done].
    destruct (eat ")" p2) as [[] p3]; [|done]. injection Hr as <- <-. simpl. lia.
  - intros p n p' Hrd Hr. simpl in Hr. inv_bind Hr. destruct a as [u p1]. apply parse_modifiers_ok in Hbind as H1.
    destruct Hrd as [Hu Hv Ht], H1 as (E1 & _ & _ & _ & Hv1).
    assert (Hrd1 : ready p1) by (rewrite E1; split; [done| |done]; simpl; congruence).
    assert (Hd : depth p1 = depth p) by (by rewrite E1).
    inv_bind Hr. destruct a as [body p2]. apply ID in Hbind0; [|done].
    destruct (eat ")" p2) as [[] p3]; [|done]. injection Hr as <- <-. simpl. lia.
Qed.
End Nesting.

(** ** Property *)

(** The recursion limit bounds the tree.  Outside [v] mode an accepted
    pattern nests its groups, capturing or not, less than [MAX_NESTING_DEPTH]
    deep, whatever its length. *)
Theorem nesting_bounded `{IcuNames} pattern f parsed :
  wf_units pattern -> unicode_sets f = false -> parse pattern f = Ok parsed ->
  nesting (root parsed) < MAX_NESTING_DEPTH.
Proof.
  intros Hu Hv Hr. unfold parse in Hr. inv_bind Hr. apply prescan_spec in Hbind as (names & -> & _).
  inv_bind Hr. destruct a as [n p]. destruct (pos p =? _); [|done]. inv_bind Hr. injection Hr as <-.
  apply (n_disjunction _ (nesting_grammar _)) in Hbind; [|by split]. simpl in *. lia.
Qed.

Lemma nesting_bounded_witness :
  exists n, @parse ascii_icu (chars "((a)|(?:b))") flags_default = Ok (mkParsed n 2 [None; None]) /\
    nesting n = 2 /\ nesting n < MAX_NESTING_DEPTH.
Proof.
  eexists. split; [vm_compute; reflexivity|]. split; [reflexivity|].
  eapply (@nesting_bounded ascii_icu ascii_icu_names (chars "((a)|(?:b))") flags_default (mkParsed _ 2 [None; None])).
  - repeat constructor; vm_compute; done.
  - reflexivity.
  - vm_compute. reflexivity.
Defined.
