(* ===== verification/EndToEnd.v ===== *)
(** * From pattern text to matches

    The parser's guarantee and the correctness of lowering, executor and scan,
    put together: the pattern's own tree needs no hypothesis any more, only
    decidable restrictions.  [Findings] has a lost match for each of them:
    [supported] (repeat bounds, case-insensitive Unicode classes), no lookbehind
    outside Unicode mode (possessive marks in backward code) and
    [run_skip_safe] (the leading-run skip). *)

From Stdlib Require Import String.
From S2P Require Import Prelude Unicode Classes Program Parser Lower Exec Api Backtrack Spec Passes Correctness RunSkip Search.
From S2P Require Import Prescan ParserSound.

(** Patterns the theorems cover: repeat bounds within [MAX_REPEAT], and no
    case-insensitive class in Unicode mode. *)
Fixpoint supported (uni : bool) (n : Node) : bool :=
  match n with
  | Node.Class _ _ ic => negb (ic && uni)
  | Node.Concat l | Node.Alternate l => forallb (supported uni) l
  | Node.Repeat n q =>
      supported uni n && (qmin q <=? MAX_REPEAT)%Z &&
      match qmax q with Some m => (m <=? MAX_REPEAT)%Z | None => true end
  | Node.Group _ n => supported uni n
  | _ => true
  end.

Definition indices_within (gc : nat) (l : list nat) : Prop := forall g, In g l -> 1 <= g <= gc.

Lemma tree_wf uni gc n : tree_ok gc n -> indices_within gc (capture_indices n) -> supported uni n = true ->
  wf_node uni gc n.
Proof.
  assert (Hlist : forall l, Forall (fun n => tree_ok gc n -> indices_within gc (capture_indices n) ->
      supported uni n = true -> wf_node uni gc n) l ->
    foldr (fun n P => tree_ok gc n /\ P) True l -> indices_within gc (flat_map capture_indices l) ->
    forallb (supported uni) l = true -> foldr (fun n P => wf_node uni gc n /\ P) True l).
  { induction 1 as [|x l Hx Hl IH]; simpl; [done|]. intros [Tx Tl] Hi Hs. apply andb_prop in Hs as [Sx Sl].
    split; [apply Hx; [done| |done]|apply IH; [done| |done]]; intros g Hg; apply Hi, in_or_app; auto. }
  induction n as [|cp ic|da|s n ic|a|gs ic|l IH|l IH|n q IH|k n IH] using node_ind'; simpl; intros Ht Hi Hs; try done.
  - destruct Ht as [H1 H2]. split; [done|]. split; [done|]. intros ->. by destruct uni.
  - apply Ht.
  - by apply Hlist.
  - destruct Ht as [Hne Ht]. split; [done|]. by apply Hlist.
  - destruct Ht as [Ht [Hq Hm]]. boolprop. split; [by apply IH|]. split; [lia|].
    destruct (qmax q) as [m|]; [|done]. boolprop. lia.
  - split; [apply IH; [done| |done]; intros g Hg; apply Hi, in_or_app; by right|].
    destruct k as [g name| | |]; try done. apply Hi. by left.
Qed.

Lemma parse_sound_pattern `{IcuNames} pattern f parsed :
  wf_units pattern -> unicode_sets f = false -> parse pattern f = Ok parsed ->
  supported (is_unicode_mode f) (root parsed) = true ->
  is_unicode_mode f = true \/ has_lookbehind (root parsed) = false ->
  sound_pattern parsed f.
Proof.
  intros Hu Hv Hp Hs Hl. destruct (parse_sound pattern f parsed Hu Hv Hp) as (_ & Hi & _ & Ht). split; [|by rewrite Hi; apply NoDup_seq|done].
  apply tree_wf; [done| |done]. rewrite Hi. intros g Hg. apply in_seq in Hg. lia.
Qed.

(** ** Property *)


(** [/(a+)b/] on "aacaab": the first run fails and is skipped as a whole. *)
Definition run_parsed : Parsed :=
  Eval vm_compute in
    match @parse ascii_icu (chars "(a+)b") flags_default with
    | Ok p => p
    | _ => mkParsed Node.Empty 0 []
    end.
Definition run_text : list Z := Eval vm_compute in chars "aacaab".

