(* ===== verification/Iterate.v ===== *)
(** * The results of the public API (api.rs)

    The iterator makes progress for any program, compiled or not: every match
    [Matches::next] reports moves the start of the next scan strictly forward, so
    collecting all matches of a text takes at most [len + 1] of them.
    [Match::named_group] and the [NamedGroups] iterator, for patterns where
    alternatives share a group name: the participating capture wins, and the
    iterator yields every name once, in the order of first appearance. *)

From S2P Require Import Prelude Unicode Classes Program Parser Lower Exec Api.

Section Progress.
Context `{Icu}.
Variables (prog : Program) (text : list Z) (config : ExecConfig).
Local Abbreviation uni := (prog_unicode prog).

Lemma skip_until_mono fuel stop pos : pos <= skip_until fuel text uni stop pos.
Proof.
  revert pos. induction fuel as [|fuel IH]; intros pos; simpl; [done|].
  destruct (decode_at text pos uni) as [[cp w]|]; [|done]. destruct (stop cp); [done|].
  specialize (IH (advance_scan text pos uni)). pose proof (advance_scan_gt text pos uni). lia.
Qed.

(** The prefilter moves forward, or past the end. *)
Lemma prefilter_skip_mono pf pos : pos <= prefilter_skip pf text uni pos \/ length text < prefilter_skip pf text uni pos.
Proof.
  unfold prefilter_skip. destruct (single pf); [|left; apply skip_until_mono].
  destruct (pos <=? length text); [|right; lia]. destruct (position_of _ _); [left|right]; lia.
Qed.

Lemma advance_after_mono pos : pos < advance_after_failure prog text pos.
Proof.
  unfold advance_after_failure. pose proof (advance_scan_gt text pos uni).
  destruct (lead_possessive prog); [|done]. destruct (prefilter prog) as [pf|]; [|done].
  pose proof (skip_until_mono (length text) (fun cp => negb (cp_may_start pf cp)) (advance_scan text pos uni)). lia.
Qed.

Lemma next_loop_progress fuel efuel ns pos m st :
  next_loop fuel efuel prog text config ns pos = (Ok (Some m), st) ->
  pos < next_start st /\ done_ st = false /\ pos <= length text.
Proof.
  revert pos. induction fuel as [|fuel IH]; intros pos Hn; [done|]. cbn [next_loop] in Hn.
  set (pos' := match prefilter prog with Some pf => prefilter_skip pf text uni pos | None => pos end) in Hn.
  assert (Hge : pos <= pos' \/ length text < pos').
  { unfold pos'. destruct (prefilter prog); [apply prefilter_skip_mono|by left]. }
  cbv zeta in Hn. destruct (length text <? pos') eqn:E; [done|]. apply Nat.ltb_ge in E.
  destruct (attempt _ _ _ _ _) as [[caps|]| | |]; try done.
  - injection Hn as _ <-. simpl. split; [|split; [done|lia]]. pose proof (advance_scan_gt text pos' uni).
    destruct (pos' <? _) eqn:E'; [apply Nat.ltb_lt in E'|]; lia.
  - apply IH in Hn as (Hlt & Hd & Hle). pose proof (advance_after_mono pos').
    split; [lia|]. split; [done|lia].
Qed.

(** All matches from a state, at most [n] of them, as a client collects them. *)
Fixpoint collect (n efuel : nat) (st : MatchesState) : list Match_ * MatchesState :=
  match n with
  | 0 => ([], st)
  | S n =>
      match matches_next efuel prog text config st with
      | (Ok (Some m), st) => let (l, st) := collect n efuel st in (m :: l, st)
      | (_, st) => ([], st)
      end
  end.

Lemma collect_bounded n efuel st : length (collect n efuel st).1 <= length text + 1 - next_start st.
Proof.
  revert st. induction n as [|n IH]; intros st; simpl; [lia|].
  destruct (matches_next efuel prog text config st) as [[[m|]| | |] st'] eqn:Em; simpl; try lia.
  unfold matches_next in Em. destruct (done_ st); [done|]. apply next_loop_progress in Em as (Hlt & _ & Hle).
  specialize (IH st'). destruct (collect n efuel st') as [l st'']. simpl in *. lia.
Qed.
End Progress.

(** ** Properties *)

(** Every reported match moves the iterator strictly forward: after a match,
    empty or not, the next scan starts beyond the start of this one and the
    iterator is not done; so however often [next] is called on a text of [len]
    units, it reports at most [len + 1] matches. *)
Theorem iterator_progress `{Icu} prog text config efuel st m st' :
  matches_next efuel prog text config st = (Ok (Some m), st') ->
  next_start st < next_start st' /\ done_ st' = false /\
  forall n, length (collect prog text config n efuel st).1 <= length text + 1 - next_start st.
Proof.
  intros Hn. pose proof Hn as Hm. unfold matches_next in Hm. destruct (done_ st); [done|].
  apply next_loop_progress in Hm as (Hlt & Hd & _). split; [done|]. split; [done|]. intros n. apply collect_bounded.
Qed.

(** [/a*/] on "ba": an empty match at 0, then one at 1. *)
Definition prog_astar : Program :=
  mkProgram [Insn.Repeat (AtomChar 97 false) 0 true false; Insn.Match] [] 0 [] false 0 None false.

Lemma iterator_progress_witness :
  @matches_next ascii_icu 20 prog_astar [98; 97]%Z (mkConfig None) (find_utf16 0) =
    (Ok (Some (mkMatch (0, 0) [] [])), mkMatchesState 1 false) /\
  0 < 1 /\ false = false /\
  forall n, length (@collect ascii_icu prog_astar [98; 97]%Z (mkConfig None) n 20 (find_utf16 0)).1 <= 3.
Proof.
  split; [vm_compute; reflexivity|].
  apply (@iterator_progress ascii_icu prog_astar [98; 97]%Z (mkConfig None) 20 (find_utf16 0)
    (mkMatch (0, 0) [] []) (mkMatchesState 1 false)).
  vm_compute. reflexivity.
Defined.

(** ** Group accessors of a match *)

(** ** Specification *)

(** The captures recorded under a name, in group order. *)
Fixpoint captures_named (caps : list (option (nat * nat))) (gnames : list (list Z)) (name : list Z)
    {struct gnames} : list (option (nat * nat)) :=
  match gnames, caps with
  | gname :: gnames, cap :: caps =>
      (if bool_decide (gname = name) then [cap] else []) ++ captures_named caps gnames name
  | _, _ => []
  end.

(** The first one that participated. *)
Definition first_participating (l : list (option (nat * nat))) : option (nat * nat) :=
  foldr (fun c rest => match c with Some r => Some r | None => rest end) None l.

(** Non-empty names, each at its first occurrence; [seen] came before. *)
Fixpoint distinct_names (seen l : list (list Z)) : list (list Z) :=
  match l with
  | [] => []
  | name :: l =>
      if bool_decide (name = []) || bool_decide (name ∈ seen) then distinct_names (seen ++ [name]) l
      else name :: distinct_names (seen ++ [name]) l
  end.

(** ** Lemmas *)

Lemma named_group_loop_spec caps idx gnames name best :
  best = None -> idx + length gnames <= length caps ->
  named_group_loop caps idx gnames name best =
  first_participating (captures_named (drop idx caps) gnames name).
Proof.
  intros ->. revert idx. induction gnames as [|gname gnames IH]; intros idx Hlen; [done|].
  simpl in Hlen. destruct (lookup_lt_is_Some_2 caps idx ltac:(lia)) as [cap Hcap].
  cbn [named_group_loop]. rewrite (drop_S _ _ _ Hcap), Hcap. cbn [default captures_named].
  destruct (bool_decide (gname = name)); [|by rewrite IH by lia].
  simpl. destruct cap as [r|]; [done|]. by rewrite IH by lia.
Qed.

Lemma distinct_names_elem seen l name :
  In name (distinct_names seen l) <-> In name l /\ name <> [] /\ ~ In name seen.
Proof.
  revert seen. induction l as [|x l IH]; intros seen; simpl; [tauto|].
  assert (Hstep : In name (distinct_names (seen ++ [x]) l) <->
    In name l /\ name <> [] /\ ~ In name seen /\ name <> x).
  { rewrite IH, in_app_iff. simpl. intuition congruence. }
  destruct (bool_decide (x = [])) eqn:E1; [|destruct (bool_decide (x ∈ seen)) eqn:E2]; simpl;
    rewrite Hstep.
  - apply bool_decide_eq_true in E1. subst. intuition congruence.
  - apply bool_decide_eq_true in E2. apply list_elem_of_In in E2. destruct (decide (name = x)) as [->|]; intuition congruence.
  - apply bool_decide_eq_false in E1, E2. rewrite list_elem_of_In in E2.
    destruct (decide (name = x)) as [->|]; intuition congruence.
Qed.

Lemma distinct_names_NoDup seen l : NoDup (distinct_names seen l).
Proof.
  revert seen. induction l as [|x l IH]; intros seen; simpl; [constructor|].
  destruct (_ || _) eqn:E; [done|]. constructor; [|done].
  rewrite list_elem_of_In, distinct_names_elem, in_app_iff. simpl. tauto.
Qed.

(** One call of [next]: the first fresh name from the cursor on. *)
Lemma named_groups_next_spec fuel m next :
  length (group_names m) - next < fuel ->
  match named_groups_next fuel m next with
  | None => distinct_names (take next (group_names m)) (drop next (group_names m)) = []
  | Some (name, range, next') =>
      range = named_group m name /\ next < next' /\
      distinct_names (take next (group_names m)) (drop next (group_names m)) =
      name :: distinct_names (take next' (group_names m)) (drop next' (group_names m))
  end.
Proof.
  revert next. induction fuel as [|fuel IH]; intros next Hf; [lia|]. cbn [named_groups_next].
  destruct (group_names m !! next) as [name|] eqn:En.
  - pose proof (lookup_lt_Some _ _ _ En). rewrite (drop_S _ _ _ En). cbn [distinct_names].
    rewrite <- (take_S_r _ _ _ En).
    destruct (bool_decide (name = []) || bool_decide (name ∈ take next (group_names m))) eqn:E; [|auto].
    specialize (IH (S next) ltac:(lia)).
    destruct (named_groups_next fuel m (S next)) as [[[nm rg] nx]|]; [|done].
    destruct IH as (-> & Hlt & ->). split; [done|]. split; [lia|done].
  - rewrite drop_ge by (by apply lookup_ge_None). done.
Qed.

Lemma named_groups_from_spec fuel m next :
  length (group_names m) - next < fuel ->
  named_groups_from fuel m next =
  map (fun name => (name, named_group m name))
    (distinct_names (take next (group_names m)) (drop next (group_names m))).
Proof.
  revert next. induction fuel as [|fuel IH]; intros next Hf; [lia|]. cbn [named_groups_from].
  pose proof (named_groups_next_spec (S (length (group_names m))) m next ltac:(lia)) as Hn.
  destruct (named_groups_next _ m next) as [[[name range] next']|]; [|by rewrite Hn].
  destruct Hn as (-> & Hlt & ->). cbn [map]. f_equal.
  destruct (decide (next' <= length (group_names m))); [apply IH; lia|].
  rewrite (drop_ge _ next') by lia. destruct fuel as [|fuel]; [done|]. cbn [named_groups_from].
  pose proof (named_groups_next_spec (S (length (group_names m))) m next' ltac:(lia)) as Hn'.
  destruct (named_groups_next _ m next') as [[[? ?] ?]|]; [|done].
  destruct Hn' as (_ & _ & Hd). by rewrite drop_ge in Hd by lia.
Qed.

(** ** Properties *)

(** [named_group] resolves a shared name to the first participating capture
    under that name, and the empty name (an unnamed group) to nothing. *)
Theorem named_group_participating m name :
  length (group_names m) <= length (captures m) ->
  named_group m name =
  match name with
  | [] => None
  | _ => first_participating (captures_named (captures m) (group_names m) name)
  end.
Proof.
  intros Hlen. unfold named_group. destruct name as [|c name]; [done|].
  rewrite named_group_loop_spec by (done || lia). by rewrite drop_0.
Qed.

(** [(?<y>..)-..|..-(?<y>..)] after the second alternative matched. *)
Definition dup_match : Match_ := mkMatch (0, 7) [None; Some (3, 7)] [[121]; [121]]%Z.

Lemma named_group_participating_witness : named_group dup_match [121%Z] = Some (3, 7).
Proof. rewrite named_group_participating; [reflexivity|simpl; lia]. Defined.

(** The [NamedGroups] iterator yields each non-empty name exactly once, in
    order of first appearance, paired with [named_group]: all names are yielded,
    none twice, and the iteration ends. *)
Theorem named_groups_distinct m :
  named_groups m = map (fun name => (name, named_group m name)) (distinct_names [] (group_names m)) /\
  NoDup (map fst (named_groups m)) /\
  (forall name, In name (map fst (named_groups m)) <-> In name (group_names m) /\ name <> []).
Proof.
  assert (Heq : named_groups m =
    map (fun name => (name, named_group m name)) (distinct_names [] (group_names m))).
  { unfold named_groups. rewrite named_groups_from_spec by lia. by rewrite take_0, drop_0. }
  assert (Hfst : map fst (named_groups m) = distinct_names [] (group_names m)).
  { rewrite Heq, map_map. apply map_id. }
  split; [done|]. rewrite Hfst. split; [apply distinct_names_NoDup|].
  intros name. rewrite distinct_names_elem. simpl. tauto.
Qed.
