(* ===== verification/Findings.v ===== *)
(** * Counterexamples

    Concrete runs of the modelled code that show where it departs from the
    ECMAScript semantics, or panics.  They delimit the hypotheses of the
    correctness theorems: the leading-run skip, the possessive marks in backward
    code, repeat bounds over [MAX_REPEAT], negated [v]-mode classes and large
    case-insensitive Unicode classes. *)

From Stdlib Require Import String.
From S2P Require Import Prelude Unicode Classes Program Parser Lower Exec Api Spec Correctness.

(** The range and captures of the first match, with the default budget. *)
Definition first_match (i : Icu) (pattern : list Z) (f : Flags) (text : list Z)
    : res ExecError (option (nat * nat * list (option (nat * nat)))) :=
  match compile_utf16 pattern f with
  | Ok rx =>
      let* m := fst (matches_next 5000 (program rx) text (mkConfig None) (find_utf16 0)) in
      Ok ((fun m => (m_range m, captures m)) <$> m)
  | _ => Panic
  end.

(** What the reference semantics says of a parsed pattern at a position. *)
Definition spec_match (i : Icu) (pattern : list Z) (f : Flags) (text : list Z) (at_ : nat) : option nat :=
  match parse pattern f with
  | Ok p =>
      s_pos <$> head (paths (mkInput text (is_unicode_mode f)) (is_unicode_mode f) (root p) false
                        (start_state (parsed_group_count p) at_))
  | _ => None
  end.

Definition flags_i : Flags := mkFlags true false false false false.
Definition flags_u : Flags := mkFlags false false false true false.
Definition flags_iu : Flags := mkFlags true false false true false.
Definition flags_v : Flags := mkFlags false false false false true.

(** ** The parser *)

(** A class cut off after a range dash or a backslash is read past its end. *)
Example unterminated_class_range_panics :
  @parse ascii_icu (chars "[a-") flags_default = Panic /\
  @parse ascii_icu (chars "[\") flags_default = Panic /\
  @parse ascii_icu (chars "[a-\") flags_default = Panic.
Proof. vm_compute. auto. Qed.

(** A negated [v]-mode class is complemented by [finish_class_set] and marked
    negated as well: [/[^a]/v] matches "a" and nothing else. *)
Example negated_v_class_is_double_negated :
  first_match ascii_icu (chars "[^a]") flags_v (chars "a") = Ok (Some (0, 1, [])) /\
  first_match ascii_icu (chars "[^a]") flags_v (chars "b") = Ok None.
Proof. vm_compute. auto. Qed.

(** The pre-scan leaves a [v]-mode class at its first bracket: a parenthesis
    after a nested class counts as a group the parser never opens. *)
Example prescan_overcounts_in_nested_classes :
  exists p, @parse ascii_icu (chars "[[a](](b)") flags_v = Ok p /\
    parsed_group_count p = 2 /\ capture_indices (root p) = [1].
Proof. eexists. split; [vm_compute; reflexivity|]. auto. Qed.

(** ** Lowering and the scan *)

(** After a failed attempt the scan jumps over the leading run, although a
    backreference makes the attempt depend on where in the run it starts. *)
Example leading_run_skip_loses_a_match :
  first_match ascii_icu (chars "(a+)b\1c") flags_default (chars "aabac") = Ok None /\
  spec_match ascii_icu (chars "(a+)b\1c") flags_default (chars "aabac") 1 = Some 5.
Proof. vm_compute. auto. Qed.

(** The skip also tests the run with the pattern's folding when a modifier makes
    the run itself case-sensitive. *)
Example leading_run_skip_ignores_modifiers :
  first_match ascii_icu (chars "(?-i:a+)b") flags_i (chars "aAab") = Ok None /\
  spec_match ascii_icu (chars "(?-i:a+)b") flags_i (chars "aAab") 2 = Some 4.
Proof. vm_compute. auto. Qed.

(** In backward code the unit met first is the last of a literal sequence, but
    the possessive check compares its first. *)
Example possessive_mark_loses_a_lookbehind_match :
  first_match ascii_icu (chars "(?<=baa+)x") flags_default (chars "baax") = Ok None /\
  spec_match ascii_icu (chars "(?<=baa+)x") flags_default (chars "baax") 3 = Some 4.
Proof. vm_compute. auto. Qed.

(** A minimum over [MAX_REPEAT] is lowered to [Fail], whatever the text. *)
Example repeat_over_the_limit_never_matches :
  exists rx, @compile_utf16 ascii_icu (chars "a{100001}") flags_default = Ok rx /\
    insns (program rx) = [Insn.Fail; Insn.Match].
Proof. eexists. split; vm_compute; reflexivity. Qed.

(** ** Case folding in Unicode mode *)

(** Simple folding of two pairs: U+10400 to U+10428 and U+212A to [k]. *)
Definition folding_icu : Icu := {|
  simple_fold c :=
    if (c =? 66560)%Z then 66600%Z else if (c =? 8490)%Z then 107%Z else canonicalize c;
  case_closure c :=
    if (c =? 66560)%Z then [66600%Z] else if (c =? 66600)%Z then [66560%Z] else @case_closure ascii_icu c;
  is_xid_start := @is_xid_start ascii_icu;
  is_xid_continue := @is_xid_continue ascii_icu;
  new_for_ecma262 := @new_for_ecma262 ascii_icu;
  gc_strict_set := @gc_strict_set ascii_icu;
  gc_group_set := @gc_group_set ascii_icu;
  script_strict_set := @script_strict_set ascii_icu;
  script_strict_ext := @script_strict_ext ascii_icu;
  emoji_ranges := @emoji_ranges ascii_icu;
  emoji_strings := @emoji_strings ascii_icu
|}.

(** A case-insensitive backreference folds code units one by one, so a letter
    outside the basic plane is not matched by its other case, although the same
    two characters match as a literal. *)
Example unicode_backreference_folds_units :
  first_match folding_icu (chars "(\u{10400})\1") flags_iu [55297; 56320; 55297; 56360]%Z = Ok None /\
  first_match folding_icu (chars "\u{10400}") flags_iu [55297; 56360]%Z = Ok (Some (0, 2, [])).
Proof. vm_compute. auto. Qed.

(** A case-insensitive class of more than [UNICODE_FOLD_CLASS_LIMIT] code points
    is not closed under folding, and membership only tries the subject's own
    folds: a class that holds U+212A misses [k]. *)
Example large_unicode_class_is_not_folded :
  first_match folding_icu (chars "[\u2100-\u2600]") flags_iu [107]%Z = Ok None /\
  @simple_fold folding_icu 8490%Z = @simple_fold folding_icu 107%Z.
Proof. vm_compute. auto. Qed.
