(* ===== verification/Opcode.v ===== *)
(** * Bytecode: opcodes

    The opcode set of [otter-bytecode] ([lib.rs], enum [Op]) with the functions
    that classify opcodes: mnemonics, constant-pool operand positions, branches.
    Equality is decided through the discriminant, the declaration index of the
    [repr(u8)] enum. *)

From S2P Require Import Prelude.
From Stdlib Require Import String.

Module Op.
Inductive Op : Type :=
    | Nop | LoadUndefined | LoadHole | Return | LoadString | LoadNumber | LoadInt32
    | LoadBigInt | LoadRegExp | QueueMicrotask | PromiseNew | PromiseCall | LoadTrue
    | LoadFalse | LoadLength | GetStringIndex | CallMethodValue | Add | Sub | Mul | Div | Rem
    | Neg | Pow | BitwiseAnd | BitwiseOr | BitwiseXor | BitwiseNot | Shl | Shr | Ushr
    | ToNumber | Equal | NotEqual | LessThan | LessEq | GreaterThan | GreaterEq | AddImm
    | SubImm | BitwiseAndImm | LessThanImm | EqualImm | NotEqualImm | LoadNull | LogicalNot
    | ToBoolean | Jump | JumpIfTrue | JumpIfFalse | JumpIfNullish | LoadLocal | StoreLocal
    | TdzError | MakeFunction | MakeClosure | LoadUpvalue | StoreUpvalue | StoreUpvalueChecked
    | FreshUpvalue | Call | TailCall | CallWithThis | BindFunction | LoadThis | LoadNewTarget
    | Throw | EnterTry | LeaveTry | EndFinally | NewError | GeneratorStart | GetIterator
    | GetAsyncIterator | IteratorNext | IteratorClose | IteratorCloseStart | IteratorCloseEnd
    | ArrayPush | CallSpread | New | NewSpread | SuperConstructSpread | BindThisValue
    | LoadSuperProperty | LoadSuperElement | SetSuperProperty | SetSuperElement
    | JumpViaFinally | GlobalBindingExists | StoreGlobalChecked | PopParkedFinally | MakeClass
    | MathLoad | MathCall | CollectRest | ReturnValue | ReturnUndefined | NewObject
    | LoadProperty | StoreProperty | DeleteProperty | GetPrototype | SetPrototype | NewArray
    | LoadElement | StoreElement | ArrayLength | HasProperty | Instanceof | Eval
    | IsEvalIntrinsic | NewFunction | LoadGlobalThis | LoadGlobalOrThrow | CollectArguments
    | LoadGlobalOrUndefined | DefineGlobalVar | ImportMetaResolve | ImportNamespaceDynamic
    | ImportNamespace | ImportNamespaceDeferred | EvaluateModule | MarkModuleEvaluated
    | StarReexport | ModuleNamespaceObject | LoadImportBinding | PromiseFulfilledOf
    | TemporalLoad | NewCollection | NewWeakRef | NewFinalizationRegistry | SymbolLoad | TypeOf
    | DeleteElement | Await | SameValue | IsArray | LooseEqual | LooseNotEqual
    | NewBuiltinError | LoadBuiltinError | BigIntCall | ArrayConstruct | ArrayFrom | ArrayOf
    | ForInKeys | CopyDataProperties | DefineOwnProperty | ArrayBufferCall | DataViewCall
    | Yield | SharedArrayBufferCall | ToPrimitive | DeclareGlobalVar | LoadDynamic
    | StoreDynamic | TypeofDynamic | DeleteDynamic | NewPrivateName | DefineGlobalFunction
    | DeclareGlobalLex | StoreGlobalBinding | InitGlobalLex | ValidateGlobalDecl | ToObject
    | ToNumeric | PrivateGet | PrivateSet | YieldDelegate | DefineDataProperty
    | SetFunctionName | ClassCheck | ToPropertyKey | Increment | PrivateBrandCheck
    | LoadShadowedUpvalue | GetTemplateObject.
End Op.
Export Op (Op).

(** The variants in declaration order; the discriminant of a variant is its
    position. *)
Definition all_ops : list Op :=
  [Op.Nop; Op.LoadUndefined; Op.LoadHole; Op.Return; Op.LoadString; Op.LoadNumber;
    Op.LoadInt32; Op.LoadBigInt; Op.LoadRegExp; Op.QueueMicrotask; Op.PromiseNew;
    Op.PromiseCall; Op.LoadTrue; Op.LoadFalse; Op.LoadLength; Op.GetStringIndex;
    Op.CallMethodValue; Op.Add; Op.Sub; Op.Mul; Op.Div; Op.Rem; Op.Neg; Op.Pow; Op.BitwiseAnd;
    Op.BitwiseOr; Op.BitwiseXor; Op.BitwiseNot; Op.Shl; Op.Shr; Op.Ushr; Op.ToNumber; Op.Equal;
    Op.NotEqual; Op.LessThan; Op.LessEq; Op.GreaterThan; Op.GreaterEq; Op.AddImm; Op.SubImm;
    Op.BitwiseAndImm; Op.LessThanImm; Op.EqualImm; Op.NotEqualImm; Op.LoadNull; Op.LogicalNot;
    Op.ToBoolean; Op.Jump; Op.JumpIfTrue; Op.JumpIfFalse; Op.JumpIfNullish; Op.LoadLocal;
    Op.StoreLocal; Op.TdzError; Op.MakeFunction; Op.MakeClosure; Op.LoadUpvalue;
    Op.StoreUpvalue; Op.StoreUpvalueChecked; Op.FreshUpvalue; Op.Call; Op.TailCall;
    Op.CallWithThis; Op.BindFunction; Op.LoadThis; Op.LoadNewTarget; Op.Throw; Op.EnterTry;
    Op.LeaveTry; Op.EndFinally; Op.NewError; Op.GeneratorStart; Op.GetIterator;
    Op.GetAsyncIterator; Op.IteratorNext; Op.IteratorClose; Op.IteratorCloseStart;
    Op.IteratorCloseEnd; Op.ArrayPush; Op.CallSpread; Op.New; Op.NewSpread;
    Op.SuperConstructSpread; Op.BindThisValue; Op.LoadSuperProperty; Op.LoadSuperElement;
    Op.SetSuperProperty; Op.SetSuperElement; Op.JumpViaFinally; Op.GlobalBindingExists;
    Op.StoreGlobalChecked; Op.PopParkedFinally; Op.MakeClass; Op.MathLoad; Op.MathCall;
    Op.CollectRest; Op.ReturnValue; Op.ReturnUndefined; Op.NewObject; Op.LoadProperty;
    Op.StoreProperty; Op.DeleteProperty; Op.GetPrototype; Op.SetPrototype; Op.NewArray;
    Op.LoadElement; Op.StoreElement; Op.ArrayLength; Op.HasProperty; Op.Instanceof; Op.Eval;
    Op.IsEvalIntrinsic; Op.NewFunction; Op.LoadGlobalThis; Op.LoadGlobalOrThrow;
    Op.CollectArguments; Op.LoadGlobalOrUndefined; Op.DefineGlobalVar; Op.ImportMetaResolve;
    Op.ImportNamespaceDynamic; Op.ImportNamespace; Op.ImportNamespaceDeferred;
    Op.EvaluateModule; Op.MarkModuleEvaluated; Op.StarReexport; Op.ModuleNamespaceObject;
    Op.LoadImportBinding; Op.PromiseFulfilledOf; Op.TemporalLoad; Op.NewCollection;
    Op.NewWeakRef; Op.NewFinalizationRegistry; Op.SymbolLoad; Op.TypeOf; Op.DeleteElement;
    Op.Await; Op.SameValue; Op.IsArray; Op.LooseEqual; Op.LooseNotEqual; Op.NewBuiltinError;
    Op.LoadBuiltinError; Op.BigIntCall; Op.ArrayConstruct; Op.ArrayFrom; Op.ArrayOf;
    Op.ForInKeys; Op.CopyDataProperties; Op.DefineOwnProperty; Op.ArrayBufferCall;
    Op.DataViewCall; Op.Yield; Op.SharedArrayBufferCall; Op.ToPrimitive; Op.DeclareGlobalVar;
    Op.LoadDynamic; Op.StoreDynamic; Op.TypeofDynamic; Op.DeleteDynamic; Op.NewPrivateName;
    Op.DefineGlobalFunction; Op.DeclareGlobalLex; Op.StoreGlobalBinding; Op.InitGlobalLex;
    Op.ValidateGlobalDecl; Op.ToObject; Op.ToNumeric; Op.PrivateGet; Op.PrivateSet;
    Op.YieldDelegate; Op.DefineDataProperty; Op.SetFunctionName; Op.ClassCheck;
    Op.ToPropertyKey; Op.Increment; Op.PrivateBrandCheck; Op.LoadShadowedUpvalue;
    Op.GetTemplateObject].

Definition op_index (op : Op) : nat :=
  match op with
  | Op.Nop => 0 | Op.LoadUndefined => 1 | Op.LoadHole => 2 | Op.Return => 3
  | Op.LoadString => 4 | Op.LoadNumber => 5 | Op.LoadInt32 => 6 | Op.LoadBigInt => 7
  | Op.LoadRegExp => 8 | Op.QueueMicrotask => 9 | Op.PromiseNew => 10 | Op.PromiseCall => 11
  | Op.LoadTrue => 12 | Op.LoadFalse => 13 | Op.LoadLength => 14 | Op.GetStringIndex => 15
  | Op.CallMethodValue => 16 | Op.Add => 17 | Op.Sub => 18 | Op.Mul => 19 | Op.Div => 20
  | Op.Rem => 21 | Op.Neg => 22 | Op.Pow => 23 | Op.BitwiseAnd => 24 | Op.BitwiseOr => 25
  | Op.BitwiseXor => 26 | Op.BitwiseNot => 27 | Op.Shl => 28 | Op.Shr => 29 | Op.Ushr => 30
  | Op.ToNumber => 31 | Op.Equal => 32 | Op.NotEqual => 33 | Op.LessThan => 34
  | Op.LessEq => 35 | Op.GreaterThan => 36 | Op.GreaterEq => 37 | Op.AddImm => 38
  | Op.SubImm => 39 | Op.BitwiseAndImm => 40 | Op.LessThanImm => 41 | Op.EqualImm => 42
  | Op.NotEqualImm => 43 | Op.LoadNull => 44 | Op.LogicalNot => 45 | Op.ToBoolean => 46
  | Op.Jump => 47 | Op.JumpIfTrue => 48 | Op.JumpIfFalse => 49 | Op.JumpIfNullish => 50
  | Op.LoadLocal => 51 | Op.StoreLocal => 52 | Op.TdzError => 53 | Op.MakeFunction => 54
  | Op.MakeClosure => 55 | Op.LoadUpvalue => 56 | Op.StoreUpvalue => 57
  | Op.StoreUpvalueChecked => 58 | Op.FreshUpvalue => 59 | Op.Call => 60 | Op.TailCall => 61
  | Op.CallWithThis => 62 | Op.BindFunction => 63 | Op.LoadThis => 64 | Op.LoadNewTarget => 65
  | Op.Throw => 66 | Op.EnterTry => 67 | Op.LeaveTry => 68 | Op.EndFinally => 69
  | Op.NewError => 70 | Op.GeneratorStart => 71 | Op.GetIterator => 72
  | Op.GetAsyncIterator => 73 | Op.IteratorNext => 74 | Op.IteratorClose => 75
  | Op.IteratorCloseStart => 76 | Op.IteratorCloseEnd => 77 | Op.ArrayPush => 78
  | Op.CallSpread => 79 | Op.New => 80 | Op.NewSpread => 81 | Op.SuperConstructSpread => 82
  | Op.BindThisValue => 83 | Op.LoadSuperProperty => 84 | Op.LoadSuperElement => 85
  | Op.SetSuperProperty => 86 | Op.SetSuperElement => 87 | Op.JumpViaFinally => 88
  | Op.GlobalBindingExists => 89 | Op.StoreGlobalChecked => 90 | Op.PopParkedFinally => 91
  | Op.MakeClass => 92 | Op.MathLoad => 93 | Op.MathCall => 94 | Op.CollectRest => 95
  | Op.ReturnValue => 96 | Op.ReturnUndefined => 97 | Op.NewObject => 98
  | Op.LoadProperty => 99 | Op.StoreProperty => 100 | Op.DeleteProperty => 101
  | Op.GetPrototype => 102 | Op.SetPrototype => 103 | Op.NewArray => 104
  | Op.LoadElement => 105 | Op.StoreElement => 106 | Op.ArrayLength => 107
  | Op.HasProperty => 108 | Op.Instanceof => 109 | Op.Eval => 110 | Op.IsEvalIntrinsic => 111
  | Op.NewFunction => 112 | Op.LoadGlobalThis => 113 | Op.LoadGlobalOrThrow => 114
  | Op.CollectArguments => 115 | Op.LoadGlobalOrUndefined => 116 | Op.DefineGlobalVar => 117
  | Op.ImportMetaResolve => 118 | Op.ImportNamespaceDynamic => 119 | Op.ImportNamespace => 120
  | Op.ImportNamespaceDeferred => 121 | Op.EvaluateModule => 122
  | Op.MarkModuleEvaluated => 123 | Op.StarReexport => 124 | Op.ModuleNamespaceObject => 125
  | Op.LoadImportBinding => 126 | Op.PromiseFulfilledOf => 127 | Op.TemporalLoad => 128
  | Op.NewCollection => 129 | Op.NewWeakRef => 130 | Op.NewFinalizationRegistry => 131
  | Op.SymbolLoad => 132 | Op.TypeOf => 133 | Op.DeleteElement => 134 | Op.Await => 135
  | Op.SameValue => 136 | Op.IsArray => 137 | Op.LooseEqual => 138 | Op.LooseNotEqual => 139
  | Op.NewBuiltinError => 140 | Op.LoadBuiltinError => 141 | Op.BigIntCall => 142
  | Op.ArrayConstruct => 143 | Op.ArrayFrom => 144 | Op.ArrayOf => 145 | Op.ForInKeys => 146
  | Op.CopyDataProperties => 147 | Op.DefineOwnProperty => 148 | Op.ArrayBufferCall => 149
  | Op.DataViewCall => 150 | Op.Yield => 151 | Op.SharedArrayBufferCall => 152
  | Op.ToPrimitive => 153 | Op.DeclareGlobalVar => 154 | Op.LoadDynamic => 155
  | Op.StoreDynamic => 156 | Op.TypeofDynamic => 157 | Op.DeleteDynamic => 158
  | Op.NewPrivateName => 159 | Op.DefineGlobalFunction => 160 | Op.DeclareGlobalLex => 161
  | Op.StoreGlobalBinding => 162 | Op.InitGlobalLex => 163 | Op.ValidateGlobalDecl => 164
  | Op.ToObject => 165 | Op.ToNumeric => 166 | Op.PrivateGet => 167 | Op.PrivateSet => 168
  | Op.YieldDelegate => 169 | Op.DefineDataProperty => 170 | Op.SetFunctionName => 171
  | Op.ClassCheck => 172 | Op.ToPropertyKey => 173 | Op.Increment => 174
  | Op.PrivateBrandCheck => 175 | Op.LoadShadowedUpvalue => 176 | Op.GetTemplateObject => 177
  end.

Lemma all_ops_index (op : Op) : all_ops !! op_index op = Some op.
Proof. by destruct op. Qed.

Lemma op_index_inj (a b : Op) : op_index a = op_index b -> a = b.
Proof.
  intros E. pose proof (all_ops_index a) as Ha. pose proof (all_ops_index b) as Hb.
  rewrite E, Hb in Ha. congruence.
Qed.

(** Derived equality of the enum. *)
Definition op_eqb (a b : Op) : bool := Nat.eqb (op_index a) (op_index b).

Lemma op_eqb_eq a b : op_eqb a b = true <-> a = b.
Proof.
  unfold op_eqb. rewrite Nat.eqb_eq. split; [apply op_index_inj|by intros ->].
Qed.

#[export] Instance op_eq_dec : EqDecision Op.
Proof.
  intros a b. destruct (op_eqb a b) eqn:E.
  - left. by apply op_eqb_eq.
  - right. intros ->. assert (op_eqb b b = true) by (by apply op_eqb_eq). congruence.
Defined.

(** [Op::mnemonic]. *)
Definition mnemonic (op : Op) : string :=
  match op with
  | Op.AddImm => "ADD_IMM"
  | Op.SubImm => "SUB_IMM"
  | Op.BitwiseAndImm => "BIT_AND_IMM"
  | Op.LessThanImm => "LT_IMM"
  | Op.EqualImm => "EQ_IMM"
  | Op.NotEqualImm => "NE_IMM"
  | Op.Nop => "NOP"
  | Op.LoadUndefined => "LOAD_UNDEFINED"
  | Op.LoadHole => "LOAD_HOLE"
  | Op.Return => "RETURN"
  | Op.LoadString => "LOAD_STRING"
  | Op.LoadNumber => "LOAD_NUMBER"
  | Op.LoadInt32 => "LOAD_INT32"
  | Op.LoadBigInt => "LOAD_BIGINT"
  | Op.LoadRegExp => "LOAD_REGEXP"
  | Op.QueueMicrotask => "QUEUE_MICROTASK"
  | Op.PromiseNew => "PROMISE_NEW"
  | Op.PromiseCall => "PROMISE_CALL"
  | Op.LoadTrue => "LOAD_TRUE"
  | Op.LoadFalse => "LOAD_FALSE"
  | Op.LoadLength => "LOAD_LENGTH"
  | Op.GetStringIndex => "GET_STRING_INDEX"
  | Op.CallMethodValue => "CALL_METHOD_VALUE"
  | Op.CallWithThis => "CALL_WITH_THIS"
  | Op.BindFunction => "BIND_FUNCTION"
  | Op.LoadThis => "LOAD_THIS"
  | Op.LoadNewTarget => "LOAD_NEW_TARGET"
  | Op.Throw => "THROW"
  | Op.EnterTry => "ENTER_TRY"
  | Op.LeaveTry => "LEAVE_TRY"
  | Op.EndFinally => "END_FINALLY"
  | Op.NewError => "NEW_ERROR"
  | Op.GeneratorStart => "GENERATOR_START"
  | Op.GetIterator => "GET_ITERATOR"
  | Op.GetAsyncIterator => "GET_ASYNC_ITERATOR"
  | Op.IteratorNext => "ITERATOR_NEXT"
  | Op.IteratorClose => "ITERATOR_CLOSE"
  | Op.IteratorCloseStart => "ITERATOR_CLOSE_START"
  | Op.IteratorCloseEnd => "ITERATOR_CLOSE_END"
  | Op.ArrayPush => "ARRAY_PUSH"
  | Op.CallSpread => "CALL_SPREAD"
  | Op.New => "NEW"
  | Op.NewSpread => "NEW_SPREAD"
  | Op.SuperConstructSpread => "SUPER_CONSTRUCT_SPREAD"
  | Op.BindThisValue => "BIND_THIS_VALUE"
  | Op.LoadSuperProperty => "LOAD_SUPER_PROPERTY"
  | Op.LoadSuperElement => "LOAD_SUPER_ELEMENT"
  | Op.SetSuperProperty => "SET_SUPER_PROPERTY"
  | Op.SetSuperElement => "SET_SUPER_ELEMENT"
  | Op.JumpViaFinally => "JUMP_VIA_FINALLY"
  | Op.PopParkedFinally => "POP_PARKED_FINALLY"
  | Op.GlobalBindingExists => "GLOBAL_BINDING_EXISTS"
  | Op.StoreGlobalChecked => "STORE_GLOBAL_CHECKED"
  | Op.MakeClass => "MAKE_CLASS"
  | Op.CollectRest => "COLLECT_REST"
  | Op.MathLoad => "MATH_LOAD"
  | Op.MathCall => "MATH_CALL"
  | Op.Add => "ADD"
  | Op.Sub => "SUB"
  | Op.Mul => "MUL"
  | Op.Div => "DIV"
  | Op.Rem => "REM"
  | Op.Neg => "NEG"
  | Op.Pow => "POW"
  | Op.BitwiseAnd => "BIT_AND"
  | Op.BitwiseOr => "BIT_OR"
  | Op.BitwiseXor => "BIT_XOR"
  | Op.BitwiseNot => "BIT_NOT"
  | Op.Shl => "SHL"
  | Op.Shr => "SHR"
  | Op.Ushr => "USHR"
  | Op.ToNumber => "TO_NUMBER"
  | Op.Equal => "EQ"
  | Op.NotEqual => "NEQ"
  | Op.LessThan => "LT"
  | Op.LessEq => "LE"
  | Op.GreaterThan => "GT"
  | Op.GreaterEq => "GE"
  | Op.LoadNull => "LOAD_NULL"
  | Op.LogicalNot => "NOT"
  | Op.ToBoolean => "TO_BOOLEAN"
  | Op.Jump => "JUMP"
  | Op.JumpIfTrue => "JUMP_IF_TRUE"
  | Op.JumpIfFalse => "JUMP_IF_FALSE"
  | Op.JumpIfNullish => "JUMP_IF_NULLISH"
  | Op.LoadLocal => "LOAD_LOCAL"
  | Op.StoreLocal => "STORE_LOCAL"
  | Op.TdzError => "TDZ_ERROR"
  | Op.MakeFunction => "MAKE_FUNCTION"
  | Op.MakeClosure => "MAKE_CLOSURE"
  | Op.LoadUpvalue => "LOAD_UPVALUE"
  | Op.StoreUpvalue => "STORE_UPVALUE"
  | Op.StoreUpvalueChecked => "STORE_UPVALUE_CHECKED"
  | Op.FreshUpvalue => "FRESH_UPVALUE"
  | Op.Call => "CALL"
  | Op.TailCall => "TAIL_CALL"
  | Op.ReturnValue => "RETURN_VALUE"
  | Op.ReturnUndefined => "RETURN_UNDEFINED"
  | Op.NewObject => "NEW_OBJECT"
  | Op.LoadProperty => "LOAD_PROPERTY"
  | Op.StoreProperty => "STORE_PROPERTY"
  | Op.DeleteProperty => "DELETE_PROPERTY"
  | Op.GetPrototype => "GET_PROTOTYPE"
  | Op.SetPrototype => "SET_PROTOTYPE"
  | Op.NewArray => "NEW_ARRAY"
  | Op.LoadElement => "LOAD_ELEMENT"
  | Op.StoreElement => "STORE_ELEMENT"
  | Op.ArrayLength => "ARRAY_LENGTH"
  | Op.Instanceof => "INSTANCEOF"
  | Op.ImportNamespace => "IMPORT_NAMESPACE"
  | Op.ImportNamespaceDeferred => "IMPORT_NAMESPACE_DEFERRED"
  | Op.EvaluateModule => "EVALUATE_MODULE"
  | Op.MarkModuleEvaluated => "MARK_MODULE_EVALUATED"
  | Op.StarReexport => "STAR_REEXPORT"
  | Op.ModuleNamespaceObject => "MODULE_NAMESPACE_OBJECT"
  | Op.LoadImportBinding => "LOAD_IMPORT_BINDING"
  | Op.PromiseFulfilledOf => "PROMISE_FULFILLED_OF"
  | Op.Await => "AWAIT"
  | Op.SymbolLoad => "SYMBOL_LOAD"
  | Op.TypeOf => "TYPEOF"
  | Op.DeleteElement => "DELETE_ELEMENT"
  | Op.NewCollection => "NEW_COLLECTION"
  | Op.NewWeakRef => "NEW_WEAK_REF"
  | Op.NewFinalizationRegistry => "NEW_FINALIZATION_REGISTRY"
  | Op.TemporalLoad => "TEMPORAL_LOAD"
  | Op.SameValue => "SAME_VALUE"
  | Op.IsArray => "IS_ARRAY"
  | Op.ToPrimitive => "TO_PRIMITIVE"
  | Op.LooseEqual => "LOOSE_EQ"
  | Op.LooseNotEqual => "LOOSE_NEQ"
  | Op.NewBuiltinError => "NEW_BUILTIN_ERROR"
  | Op.LoadBuiltinError => "LOAD_BUILTIN_ERROR"
  | Op.ForInKeys => "FOR_IN_KEYS"
  | Op.CopyDataProperties => "COPY_DATA_PROPERTIES"
  | Op.DefineOwnProperty => "DEFINE_OWN_PROPERTY"
  | Op.ArrayConstruct => "ARRAY_CONSTRUCT"
  | Op.ArrayFrom => "ARRAY_FROM"
  | Op.ArrayOf => "ARRAY_OF"
  | Op.BigIntCall => "BIGINT_CALL"
  | Op.HasProperty => "HAS_PROPERTY"
  | Op.ImportNamespaceDynamic => "IMPORT_NAMESPACE_DYNAMIC"
  | Op.ImportMetaResolve => "IMPORT_META_RESOLVE"
  | Op.LoadGlobalThis => "LOAD_GLOBAL_THIS"
  | Op.LoadGlobalOrThrow => "LOAD_GLOBAL_OR_THROW"
  | Op.LoadGlobalOrUndefined => "LOAD_GLOBAL_OR_UNDEFINED"
  | Op.DefineGlobalVar => "DEFINE_GLOBAL_VAR"
  | Op.DeclareGlobalVar => "DECLARE_GLOBAL_VAR"
  | Op.LoadDynamic => "LOAD_DYNAMIC"
  | Op.StoreDynamic => "STORE_DYNAMIC"
  | Op.TypeofDynamic => "TYPEOF_DYNAMIC"
  | Op.DeleteDynamic => "DELETE_DYNAMIC"
  | Op.NewPrivateName => "NEW_PRIVATE_NAME"
  | Op.DefineGlobalFunction => "DEFINE_GLOBAL_FUNCTION"
  | Op.DeclareGlobalLex => "DECLARE_GLOBAL_LEX"
  | Op.StoreGlobalBinding => "STORE_GLOBAL_BINDING"
  | Op.InitGlobalLex => "INIT_GLOBAL_LEX"
  | Op.ValidateGlobalDecl => "VALIDATE_GLOBAL_DECL"
  | Op.ToObject => "TO_OBJECT"
  | Op.ToNumeric => "TO_NUMERIC"
  | Op.PrivateGet => "PRIVATE_GET"
  | Op.PrivateSet => "PRIVATE_SET"
  | Op.YieldDelegate => "YIELD_DELEGATE"
  | Op.DefineDataProperty => "DEFINE_DATA_PROPERTY"
  | Op.SetFunctionName => "SET_FUNCTION_NAME"
  | Op.ClassCheck => "CLASS_CHECK"
  | Op.ToPropertyKey => "TO_PROPERTY_KEY"
  | Op.Increment => "INCREMENT"
  | Op.PrivateBrandCheck => "PRIVATE_BRAND_CHECK"
  | Op.LoadShadowedUpvalue => "LOAD_SHADOWED_UPVALUE"
  | Op.GetTemplateObject => "GET_TEMPLATE_OBJECT"
  | Op.CollectArguments => "COLLECT_ARGUMENTS"
  | Op.Eval => "EVAL"
  | Op.IsEvalIntrinsic => "IS_EVAL_INTRINSIC"
  | Op.NewFunction => "NEW_FUNCTION"
  | Op.ArrayBufferCall => "ARRAY_BUFFER_CALL"
  | Op.DataViewCall => "DATA_VIEW_CALL"
  | Op.Yield => "YIELD"
  | Op.SharedArrayBufferCall => "SHARED_ARRAY_BUFFER_CALL"
  end%string.

(** [Op::is_const_pool_operand]. *)
Definition is_const_pool_operand (op : Op) (pos : nat) : bool :=
  match op with
  | Op.LoadString | Op.LoadNumber | Op.LoadBigInt | Op.LoadRegExp | Op.MakeFunction
  | Op.MathLoad | Op.ImportNamespace | Op.ImportNamespaceDeferred | Op.ModuleNamespaceObject
  | Op.SymbolLoad | Op.TemporalLoad | Op.LoadBuiltinError | Op.LoadGlobalOrThrow
  | Op.LoadGlobalOrUndefined | Op.LoadDynamic | Op.StoreDynamic | Op.TypeofDynamic
  | Op.DeleteDynamic | Op.NewPrivateName => Nat.eqb pos 1
  | Op.DefineGlobalVar => Nat.eqb pos 0
  | Op.DeclareGlobalVar => Nat.eqb pos 0
  | Op.DefineGlobalFunction => Nat.eqb pos 0
  | Op.DeclareGlobalLex | Op.ValidateGlobalDecl => Nat.eqb pos 0
  | Op.StoreGlobalBinding | Op.InitGlobalLex => Nat.eqb pos 1
  | Op.MarkModuleEvaluated => Nat.eqb pos 0
  | Op.EvaluateModule => Nat.eqb pos 1
  | Op.LoadProperty | Op.DeleteProperty | Op.ToPrimitive => Nat.eqb pos 2
  | Op.LoadImportBinding => Nat.eqb pos 1 || Nat.eqb pos 2
  | Op.NewCollection | Op.NewBuiltinError => Nat.eqb pos 1
  | Op.SetFunctionName => Nat.eqb pos 2
  | Op.StoreProperty => Nat.eqb pos 1
  | Op.MakeClosure => Nat.eqb pos 1
  | Op.CallMethodValue => Nat.eqb pos 2
  | Op.PromiseCall | Op.BigIntCall | Op.ArrayBufferCall | Op.DataViewCall
  | Op.SharedArrayBufferCall => false
  | _ => false
  end.

(** [Op::is_branch]. *)
Definition is_branch (op : Op) : bool :=
  match op with
  | Op.Jump | Op.JumpIfTrue | Op.JumpIfFalse | Op.JumpIfNullish | Op.Return | Op.ReturnValue
  | Op.ReturnUndefined | Op.Throw | Op.EndFinally | Op.Await | Op.Yield => true
  | _ => false
  end.
