(* ===== verification/Schema.v ===== *)
(** * Bytecode: the opcode schema

    [opcode_schema.rs]: the byte assigned to each opcode, the operand shape (a
    fixed list of kinds, or a prefix followed by a counted tail), the normal and
    exceptional successors, and the checks and word codecs driven by it.  The
    tables carry the rows of the source; the theorems at the end are the
    well-formedness facts the encoder, the decoder and the word-code builder rely
    on. *)

From S2P Require Import Prelude Opcode.

(** [NO_HANDLER_OFFSET] is [i32::MIN]. *)
Definition NO_HANDLER_OFFSET : Z := (-2147483648)%Z.

(** ** Operands *)

Module Operand.
Inductive Operand : Type :=
    | Register (reg : Z)
    | ConstIndex (idx : Z)
    | Imm32 (imm : Z).
End Operand.
Export Operand (Operand).

Module OperandKind.
Inductive OperandKind : Type := Register | ConstIndex | Imm32.
End OperandKind.
Export OperandKind (OperandKind).

#[export] Instance operand_kind_eq_dec : EqDecision OperandKind.
Proof. solve_decision. Defined.
#[export] Instance operand_eq_dec : EqDecision Operand.
Proof. solve_decision. Defined.

(** [OperandKind::of]. *)
Definition kind_of (operand : Operand) : OperandKind :=
  match operand with
  | Operand.Register _ => OperandKind.Register
  | Operand.ConstIndex _ => OperandKind.ConstIndex
  | Operand.Imm32 _ => OperandKind.Imm32
  end.

Module RegisterAccess.
Inductive RegisterAccess : Type := None_ | Read | Write.
End RegisterAccess.
Export RegisterAccess (RegisterAccess).

Module RegisterSource.
Inductive RegisterSource : Type := RegisterOperand | Imm32RegisterIndex.
End RegisterSource.
Export RegisterSource (RegisterSource).

Record OperandSpec : Type := mkSpec {
  spec_kind : OperandKind;
  register_access : RegisterAccess;
  register_source : option RegisterSource;
}.

(** The constructors [OperandSpec::value], [::register] and [::local_index]. *)
Definition spec_value (kind : OperandKind) : OperandSpec := mkSpec kind RegisterAccess.None_ None.
Definition spec_register (access : RegisterAccess) : OperandSpec :=
  mkSpec OperandKind.Register access (Some RegisterSource.RegisterOperand).
Definition spec_local_index (access : RegisterAccess) : OperandSpec :=
  mkSpec OperandKind.Imm32 access (Some RegisterSource.Imm32RegisterIndex).

Inductive OperandShape : Type :=
| Fixed (operands : list OperandSpec)
| Variadic (prefix : list OperandSpec) (count_operand_index : nat) (tail : OperandSpec).

Definition shape_fixed (shape : OperandShape) : option (list OperandSpec) :=
  match shape with Fixed operands => Some operands | Variadic _ _ _ => None end.
Definition shape_prefix (shape : OperandShape) : list OperandSpec :=
  match shape with Fixed operands => operands | Variadic prefix _ _ => prefix end.
Definition shape_variadic (shape : OperandShape) : option (nat * OperandSpec) :=
  match shape with Fixed _ => None | Variadic _ count tail => Some (count, tail) end.

Inductive OperandShapeError : Type :=
| ShapeCount (expected actual : nat)
| ShapeKind (index : nat) (expected actual : OperandKind)
| VariadicCountOverflow (count : Z).

(** ** Control flow metadata *)

Module ControlFlow.
Inductive ControlFlow : Type :=
    | Fallthrough | Jump | Branch | Call | Return | Throw | Suspend | ExceptionRegion.
End ControlFlow.
Export ControlFlow (ControlFlow).

(** The only base is the byte after the opcode. *)
Inductive RelativeTargetBase : Type := AfterOpcode.

Module Successor.
Inductive SuccessorSpec : Type :=
    | Fallthrough
    | RelativeTarget (operand_index : nat) (base : RelativeTargetBase)
    | FrameReturn.
Inductive ExceptionSuccessorSpec : Type :=
    | OptionalRelativeTarget (operand_index : nat) (base : RelativeTargetBase) (absent_value : Z)
    | DynamicFrameHandlerOrCaller
    | ResumeParkedAbruptCompletion
    | RunFinallyHandlersToFloor (floor_operand_index : nat).
End Successor.
Export Successor (SuccessorSpec, ExceptionSuccessorSpec).

Module FeedbackKind.
Inductive FeedbackKind : Type := None_ | Arithmetic | Property | Element | Call | Global.
End FeedbackKind.
Export FeedbackKind (FeedbackKind).

Module TierSupport.
Inductive TierSupport : Type := Partial | Fallback | ExperimentalOnly.
End TierSupport.
Export TierSupport (TierSupport).

Record OpcodeEffects : Type := mkEffects {
  may_throw : bool;
  may_allocate : bool;
  may_trigger_gc : bool;
  may_reenter_javascript : bool;
  safepoint_required : bool;
}.

(** ** The tables *)

Definition W : OperandSpec := spec_register RegisterAccess.Write.
Definition R : OperandSpec := spec_register RegisterAccess.Read.
Definition IMM : OperandSpec := spec_value OperandKind.Imm32.
Definition CONST : OperandSpec := spec_value OperandKind.ConstIndex.
Definition LOCAL_R : OperandSpec := spec_local_index RegisterAccess.Read.
Definition LOCAL_W : OperandSpec := spec_local_index RegisterAccess.Write.

Definition EMPTY : list OperandSpec := [].
Definition WRITE : list OperandSpec := [W].
Definition WRITE_CONST : list OperandSpec := [W; CONST].
Definition WRITE_IMM : list OperandSpec := [W; IMM].
Definition WRITE_READ : list OperandSpec := [W; R].
Definition WRITE_READ_READ : list OperandSpec := [W; R; R].
Definition LOAD_LOCAL : list OperandSpec := [W; LOCAL_R].
Definition STORE_LOCAL : list OperandSpec := [R; LOCAL_W].
Definition JUMP : list OperandSpec := [IMM].
Definition BRANCH : list OperandSpec := [IMM; R].
Definition CALL_PREFIX : list OperandSpec := [W; R; CONST].
Definition CALL_WITH_THIS_PREFIX : list OperandSpec := [W; R; R; CONST].
Definition COUNTED_VALUES_PREFIX : list OperandSpec := [W; CONST].
Definition METHOD_CALL_PREFIX : list OperandSpec := [W; R; CONST; CONST].
Definition NAMESPACE_CALL_PREFIX : list OperandSpec := [W; CONST; CONST].
Definition ENTER_TRY : list OperandSpec := [IMM; IMM; W].
Definition WRITE_READ_CONST : list OperandSpec := [W; R; CONST].
Definition WRITE_CONST_CONST : list OperandSpec := [W; CONST; CONST].
Definition READ_CONST_READ_WRITE : list OperandSpec := [R; CONST; R; W].
Definition READ_READ : list OperandSpec := [R; R].
Definition READ_READ_READ : list OperandSpec := [R; R; R].
Definition WRITE_WRITE_READ : list OperandSpec := [W; W; R].
Definition WRITE_CONST_IMM : list OperandSpec := [W; CONST; IMM].
Definition JUMP_VIA_FINALLY : list OperandSpec := [IMM; IMM].
Definition READ_CONST : list OperandSpec := [R; CONST].
Definition CONST_READ : list OperandSpec := [CONST; R].
Definition WRITE_READ_WRITE : list OperandSpec := [W; R; W].
Definition WRITE_READ_READ_READ : list OperandSpec := [W; R; R; R].
Definition WRITE_FOUR_READS : list OperandSpec := [W; R; R; R; R].
Definition WRITE_READ_IMM : list OperandSpec := [W; R; IMM].
Definition CONST_READ_IMM : list OperandSpec := [CONST; R; IMM].
Definition CONST_IMM : list OperandSpec := [CONST; IMM].
Definition READ_CONST_IMM : list OperandSpec := [R; CONST; IMM].

(** The rows of the [opcode_schema!] invocation. *)
Definition OP_BYTE_TABLE : list (Op * Z) :=
  [(Op.Nop, 0); (Op.LoadUndefined, 1); (Op.LoadHole, 2); (Op.Return, 3); (Op.LoadString, 4);
    (Op.LoadNumber, 5); (Op.LoadInt32, 6); (Op.LoadBigInt, 7); (Op.LoadRegExp, 8);
    (Op.QueueMicrotask, 9); (Op.PromiseNew, 10); (Op.PromiseCall, 11); (Op.LoadTrue, 12);
    (Op.LoadFalse, 13); (Op.LoadLength, 14); (Op.GetStringIndex, 15); (Op.CallMethodValue, 16);
    (Op.Add, 17); (Op.Sub, 18); (Op.Mul, 19); (Op.Div, 20); (Op.Rem, 21); (Op.Neg, 22);
    (Op.Pow, 23); (Op.BitwiseAnd, 24); (Op.BitwiseOr, 25); (Op.BitwiseXor, 26);
    (Op.BitwiseNot, 27); (Op.Shl, 28); (Op.Shr, 29); (Op.Ushr, 30); (Op.ToNumber, 31);
    (Op.Equal, 32); (Op.NotEqual, 33); (Op.LessThan, 34); (Op.LessEq, 35);
    (Op.GreaterThan, 36); (Op.GreaterEq, 37); (Op.LoadNull, 38); (Op.LogicalNot, 39);
    (Op.ToBoolean, 40); (Op.Jump, 41); (Op.JumpIfTrue, 42); (Op.JumpIfFalse, 43);
    (Op.JumpIfNullish, 44); (Op.LoadLocal, 45); (Op.StoreLocal, 46); (Op.TdzError, 47);
    (Op.MakeFunction, 48); (Op.MakeClosure, 49); (Op.LoadUpvalue, 50); (Op.StoreUpvalue, 51);
    (Op.Call, 52); (Op.CallWithThis, 53); (Op.BindFunction, 54); (Op.LoadThis, 55);
    (Op.LoadNewTarget, 56); (Op.Throw, 57); (Op.EnterTry, 58); (Op.LeaveTry, 59);
    (Op.EndFinally, 60); (Op.NewError, 61); (Op.GetIterator, 62); (Op.IteratorNext, 63);
    (Op.ArrayPush, 64); (Op.CallSpread, 65); (Op.New, 66); (Op.NewSpread, 67);
    (Op.SuperConstructSpread, 68); (Op.MakeClass, 69); (Op.MathLoad, 70); (Op.CollectRest, 71);
    (Op.ReturnValue, 72); (Op.ReturnUndefined, 73); (Op.NewObject, 74); (Op.LoadProperty, 75);
    (Op.StoreProperty, 76); (Op.DeleteProperty, 77); (Op.GetPrototype, 78);
    (Op.SetPrototype, 79); (Op.NewArray, 80); (Op.LoadElement, 81); (Op.StoreElement, 82);
    (Op.ArrayLength, 83); (Op.HasProperty, 84); (Op.Instanceof, 85); (Op.Eval, 86);
    (Op.NewFunction, 87); (Op.LoadGlobalThis, 88); (Op.LoadGlobalOrThrow, 89);
    (Op.CollectArguments, 90); (Op.LoadGlobalOrUndefined, 91); (Op.DefineGlobalVar, 92);
    (Op.ImportMetaResolve, 93); (Op.ImportNamespaceDynamic, 94); (Op.ImportNamespace, 95);
    (Op.PromiseFulfilledOf, 96); (Op.TemporalLoad, 97); (Op.NewCollection, 98);
    (Op.NewWeakRef, 99); (Op.NewFinalizationRegistry, 100); (Op.SymbolLoad, 101);
    (Op.TypeOf, 102); (Op.DeleteElement, 103); (Op.Await, 104); (Op.SameValue, 105);
    (Op.IsArray, 106); (Op.LooseEqual, 107); (Op.LooseNotEqual, 108);
    (Op.NewBuiltinError, 109); (Op.LoadBuiltinError, 110); (Op.BigIntCall, 111);
    (Op.ArrayConstruct, 112); (Op.ArrayFrom, 113); (Op.ArrayOf, 114);
    (Op.ArrayBufferCall, 115); (Op.DataViewCall, 116); (Op.Yield, 117);
    (Op.SharedArrayBufferCall, 118); (Op.ToPrimitive, 119); (Op.ForInKeys, 120);
    (Op.CopyDataProperties, 121); (Op.DefineOwnProperty, 122); (Op.IteratorClose, 123);
    (Op.IteratorCloseStart, 124); (Op.IteratorCloseEnd, 125); (Op.GeneratorStart, 126);
    (Op.GetAsyncIterator, 127); (Op.BindThisValue, 128); (Op.LoadSuperProperty, 129);
    (Op.LoadSuperElement, 130); (Op.SetSuperProperty, 131); (Op.SetSuperElement, 132);
    (Op.JumpViaFinally, 133); (Op.FreshUpvalue, 134); (Op.ImportNamespaceDeferred, 135);
    (Op.EvaluateModule, 136); (Op.MarkModuleEvaluated, 137); (Op.StarReexport, 138);
    (Op.ModuleNamespaceObject, 139); (Op.LoadImportBinding, 140);
    (Op.StoreUpvalueChecked, 141); (Op.DeclareGlobalVar, 142); (Op.LoadDynamic, 143);
    (Op.StoreDynamic, 144); (Op.TypeofDynamic, 145); (Op.DefineGlobalFunction, 146);
    (Op.DeclareGlobalLex, 147); (Op.StoreGlobalBinding, 148); (Op.InitGlobalLex, 149);
    (Op.ValidateGlobalDecl, 150); (Op.ToObject, 151); (Op.ToNumeric, 152);
    (Op.PrivateGet, 153); (Op.PrivateSet, 154); (Op.YieldDelegate, 155);
    (Op.DefineDataProperty, 156); (Op.SetFunctionName, 157); (Op.ClassCheck, 158);
    (Op.ToPropertyKey, 159); (Op.Increment, 160); (Op.PrivateBrandCheck, 161);
    (Op.LoadShadowedUpvalue, 162); (Op.GetTemplateObject, 163); (Op.DeleteDynamic, 164);
    (Op.NewPrivateName, 165); (Op.MathCall, 166); (Op.TailCall, 167);
    (Op.IsEvalIntrinsic, 168); (Op.PopParkedFinally, 169); (Op.GlobalBindingExists, 170);
    (Op.StoreGlobalChecked, 171); (Op.AddImm, 172); (Op.SubImm, 173); (Op.BitwiseAndImm, 174);
    (Op.LessThanImm, 175); (Op.EqualImm, 176); (Op.NotEqualImm, 177)]%Z.

(** [schema_index], generated by the macro from the same rows. *)
Definition schema_index (op : Op) : nat :=
  match op with
  | Op.Nop => 0 | Op.LoadUndefined => 1 | Op.LoadHole => 2 | Op.Return => 3
  | Op.LoadString => 4 | Op.LoadNumber => 5 | Op.LoadInt32 => 6 | Op.LoadBigInt => 7
  | Op.LoadRegExp => 8 | Op.QueueMicrotask => 9 | Op.PromiseNew => 10 | Op.PromiseCall => 11
  | Op.LoadTrue => 12 | Op.LoadFalse => 13 | Op.LoadLength => 14 | Op.GetStringIndex => 15
  | Op.CallMethodValue => 16 | Op.Add => 17 | Op.Sub => 18 | Op.Mul => 19 | Op.Div => 20
  | Op.Rem => 21 | Op.Neg => 22 | Op.Pow => 23 | Op.BitwiseAnd => 24 | Op.BitwiseOr => 25
  | Op.BitwiseXor => 26 | Op.BitwiseNot => 27 | Op.Shl => 28 | Op.Shr => 29 | Op.Ushr => 30
  | Op.ToNumber => 31 | Op.Equal => 32 | Op.NotEqual => 33 | Op.LessThan => 34
  | Op.LessEq => 35 | Op.GreaterThan => 36 | Op.GreaterEq => 37 | Op.LoadNull => 38
  | Op.LogicalNot => 39 | Op.ToBoolean => 40 | Op.Jump => 41 | Op.JumpIfTrue => 42
  | Op.JumpIfFalse => 43 | Op.JumpIfNullish => 44 | Op.LoadLocal => 45 | Op.StoreLocal => 46
  | Op.TdzError => 47 | Op.MakeFunction => 48 | Op.MakeClosure => 49 | Op.LoadUpvalue => 50
  | Op.StoreUpvalue => 51 | Op.Call => 52 | Op.CallWithThis => 53 | Op.BindFunction => 54
  | Op.LoadThis => 55 | Op.LoadNewTarget => 56 | Op.Throw => 57 | Op.EnterTry => 58
  | Op.LeaveTry => 59 | Op.EndFinally => 60 | Op.NewError => 61 | Op.GetIterator => 62
  | Op.IteratorNext => 63 | Op.ArrayPush => 64 | Op.CallSpread => 65 | Op.New => 66
  | Op.NewSpread => 67 | Op.SuperConstructSpread => 68 | Op.MakeClass => 69 | Op.MathLoad => 70
  | Op.CollectRest => 71 | Op.ReturnValue => 72 | Op.ReturnUndefined => 73 | Op.NewObject => 74
  | Op.LoadProperty => 75 | Op.StoreProperty => 76 | Op.DeleteProperty => 77
  | Op.GetPrototype => 78 | Op.SetPrototype => 79 | Op.NewArray => 80 | Op.LoadElement => 81
  | Op.StoreElement => 82 | Op.ArrayLength => 83 | Op.HasProperty => 84 | Op.Instanceof => 85
  | Op.Eval => 86 | Op.NewFunction => 87 | Op.LoadGlobalThis => 88 | Op.LoadGlobalOrThrow => 89
  | Op.CollectArguments => 90 | Op.LoadGlobalOrUndefined => 91 | Op.DefineGlobalVar => 92
  | Op.ImportMetaResolve => 93 | Op.ImportNamespaceDynamic => 94 | Op.ImportNamespace => 95
  | Op.PromiseFulfilledOf => 96 | Op.TemporalLoad => 97 | Op.NewCollection => 98
  | Op.NewWeakRef => 99 | Op.NewFinalizationRegistry => 100 | Op.SymbolLoad => 101
  | Op.TypeOf => 102 | Op.DeleteElement => 103 | Op.Await => 104 | Op.SameValue => 105
  | Op.IsArray => 106 | Op.LooseEqual => 107 | Op.LooseNotEqual => 108
  | Op.NewBuiltinError => 109 | Op.LoadBuiltinError => 110 | Op.BigIntCall => 111
  | Op.ArrayConstruct => 112 | Op.ArrayFrom => 113 | Op.ArrayOf => 114
  | Op.ArrayBufferCall => 115 | Op.DataViewCall => 116 | Op.Yield => 117
  | Op.SharedArrayBufferCall => 118 | Op.ToPrimitive => 119 | Op.ForInKeys => 120
  | Op.CopyDataProperties => 121 | Op.DefineOwnProperty => 122 | Op.IteratorClose => 123
  | Op.IteratorCloseStart => 124 | Op.IteratorCloseEnd => 125 | Op.GeneratorStart => 126
  | Op.GetAsyncIterator => 127 | Op.BindThisValue => 128 | Op.LoadSuperProperty => 129
  | Op.LoadSuperElement => 130 | Op.SetSuperProperty => 131 | Op.SetSuperElement => 132
  | Op.JumpViaFinally => 133 | Op.FreshUpvalue => 134 | Op.ImportNamespaceDeferred => 135
  | Op.EvaluateModule => 136 | Op.MarkModuleEvaluated => 137 | Op.StarReexport => 138
  | Op.ModuleNamespaceObject => 139 | Op.LoadImportBinding => 140
  | Op.StoreUpvalueChecked => 141 | Op.DeclareGlobalVar => 142 | Op.LoadDynamic => 143
  | Op.StoreDynamic => 144 | Op.TypeofDynamic => 145 | Op.DefineGlobalFunction => 146
  | Op.DeclareGlobalLex => 147 | Op.StoreGlobalBinding => 148 | Op.InitGlobalLex => 149
  | Op.ValidateGlobalDecl => 150 | Op.ToObject => 151 | Op.ToNumeric => 152
  | Op.PrivateGet => 153 | Op.PrivateSet => 154 | Op.YieldDelegate => 155
  | Op.DefineDataProperty => 156 | Op.SetFunctionName => 157 | Op.ClassCheck => 158
  | Op.ToPropertyKey => 159 | Op.Increment => 160 | Op.PrivateBrandCheck => 161
  | Op.LoadShadowedUpvalue => 162 | Op.GetTemplateObject => 163 | Op.DeleteDynamic => 164
  | Op.NewPrivateName => 165 | Op.MathCall => 166 | Op.TailCall => 167
  | Op.IsEvalIntrinsic => 168 | Op.PopParkedFinally => 169 | Op.GlobalBindingExists => 170
  | Op.StoreGlobalChecked => 171 | Op.AddImm => 172 | Op.SubImm => 173
  | Op.BitwiseAndImm => 174 | Op.LessThanImm => 175 | Op.EqualImm => 176
  | Op.NotEqualImm => 177
  end.

Definition operand_shape (op : Op) : OperandShape :=
  match op with
  | Op.Nop => Fixed EMPTY
  | Op.LoadUndefined | Op.LoadHole | Op.LoadNull | Op.LoadTrue | Op.LoadFalse | Op.LoadThis
  | Op.LoadNewTarget | Op.LoadGlobalThis => Fixed WRITE
  | Op.LoadString | Op.LoadNumber | Op.LoadBigInt | Op.LoadRegExp => Fixed WRITE_CONST
  | Op.LoadInt32 => Fixed WRITE_IMM
  | Op.Jump => Fixed JUMP
  | Op.JumpIfTrue | Op.JumpIfFalse | Op.JumpIfNullish => Fixed BRANCH
  | Op.Return | Op.ReturnValue => Fixed [R]
  | Op.ReturnUndefined => Fixed EMPTY
  | Op.Call | Op.TailCall => Variadic CALL_PREFIX 2 R
  | Op.CallWithThis => Variadic CALL_WITH_THIS_PREFIX 3 R
  | Op.New => Variadic CALL_PREFIX 2 R
  | Op.BindFunction => Variadic CALL_WITH_THIS_PREFIX 3 R
  | Op.NewArray | Op.ArrayConstruct | Op.ArrayFrom | Op.ArrayOf | Op.NewFunction => Variadic COUNTED_VALUES_PREFIX 1 R
  | Op.CallMethodValue => Variadic METHOD_CALL_PREFIX 3 R
  | Op.MathCall => Variadic NAMESPACE_CALL_PREFIX 2 R
  | Op.Throw => Fixed [R]
  | Op.EnterTry => Fixed ENTER_TRY
  | Op.EndFinally => Fixed EMPTY
  | Op.NewObject => Fixed WRITE
  | Op.LoadProperty | Op.DeleteProperty => Fixed WRITE_READ_CONST
  | Op.StoreProperty => Fixed READ_CONST_READ_WRITE
  | Op.GetPrototype | Op.ArrayLength | Op.GetIterator | Op.GetAsyncIterator => Fixed WRITE_READ
  | Op.SetPrototype | Op.ArrayPush | Op.CopyDataProperties => Fixed READ_READ
  | Op.LoadElement | Op.DeleteElement | Op.HasProperty | Op.Instanceof => Fixed WRITE_READ_READ
  | Op.StoreElement => Fixed READ_READ_READ
  | Op.IteratorNext => Fixed WRITE_WRITE_READ
  | Op.IteratorClose | Op.IteratorCloseStart | Op.IteratorCloseEnd => Fixed [R]
  | Op.ForInKeys => Fixed WRITE_READ
  | Op.LoadUpvalue => Fixed WRITE_IMM
  | Op.StoreUpvalue | Op.StoreUpvalueChecked => Fixed [R; IMM]
  | Op.FreshUpvalue => Fixed [IMM]
  | Op.LoadShadowedUpvalue => Fixed WRITE_CONST_IMM
  | Op.JumpViaFinally => Fixed JUMP_VIA_FINALLY
  | Op.PopParkedFinally => Fixed [IMM]
  | Op.QueueMicrotask => Variadic [R; CONST] 1 R
  | Op.PromiseNew => Fixed WRITE_READ_WRITE
  | Op.PromiseCall | Op.BigIntCall | Op.ArrayBufferCall | Op.DataViewCall
  | Op.SharedArrayBufferCall => Variadic NAMESPACE_CALL_PREFIX 2 R
  | Op.LoadLength | Op.TypeOf | Op.Await | Op.IsArray | Op.IsEvalIntrinsic => Fixed WRITE_READ
  | Op.GetStringIndex | Op.SameValue | Op.LooseEqual | Op.LooseNotEqual => Fixed WRITE_READ_READ
  | Op.TdzError => Fixed [IMM]
  | Op.MakeFunction | Op.MathLoad | Op.LoadGlobalOrThrow | Op.LoadGlobalOrUndefined
  | Op.ImportNamespace | Op.ImportNamespaceDeferred | Op.ModuleNamespaceObject
  | Op.TemporalLoad | Op.SymbolLoad | Op.LoadBuiltinError | Op.GetTemplateObject
  | Op.NewPrivateName | Op.EvaluateModule => Fixed WRITE_CONST
  | Op.MakeClosure => Variadic NAMESPACE_CALL_PREFIX 2 IMM
  | Op.LeaveTry | Op.GeneratorStart => Fixed EMPTY
  | Op.NewError | Op.ImportMetaResolve | Op.ImportNamespaceDynamic | Op.PromiseFulfilledOf
  | Op.NewWeakRef | Op.NewFinalizationRegistry | Op.Yield => Fixed WRITE_READ
  | Op.CallSpread => Fixed WRITE_READ_READ_READ
  | Op.NewSpread | Op.SuperConstructSpread => Fixed WRITE_READ_READ
  | Op.MakeClass => Fixed WRITE_FOUR_READS
  | Op.CollectRest | Op.CollectArguments => Fixed WRITE
  | Op.Eval | Op.Increment => Fixed WRITE_READ_IMM
  | Op.DefineGlobalVar => Fixed CONST_READ
  | Op.NewCollection | Op.NewBuiltinError => Fixed [W; CONST; R]
  | Op.ToPrimitive => Fixed WRITE_READ_CONST
  | Op.DefineOwnProperty | Op.PrivateSet | Op.DefineDataProperty => Fixed [R; R; R]
  | Op.YieldDelegate => Fixed WRITE_WRITE_READ
  | Op.SetFunctionName => Fixed [R; R; CONST]
  | Op.StoreGlobalChecked => Fixed [R; CONST; R]
  | Op.BindThisValue => Fixed [R]
  | Op.LoadSuperProperty => Fixed WRITE_READ_CONST
  | Op.LoadSuperElement => Fixed WRITE_READ_READ
  | Op.SetSuperProperty => Fixed [R; CONST; R]
  | Op.SetSuperElement => Fixed [R; R; R]
  | Op.MarkModuleEvaluated => Fixed [CONST]
  | Op.DeclareGlobalVar => Fixed CONST_IMM
  | Op.StarReexport => Fixed READ_READ
  | Op.LoadImportBinding => Fixed WRITE_CONST_CONST
  | Op.LoadDynamic | Op.TypeofDynamic | Op.DeleteDynamic => Fixed WRITE_CONST
  | Op.StoreDynamic | Op.InitGlobalLex => Fixed READ_CONST
  | Op.DefineGlobalFunction => Fixed CONST_READ_IMM
  | Op.DeclareGlobalLex | Op.ValidateGlobalDecl => Fixed CONST_IMM
  | Op.StoreGlobalBinding => Fixed READ_CONST_IMM
  | Op.ToObject | Op.ToNumeric | Op.ToPropertyKey => Fixed WRITE_READ
  | Op.ClassCheck => Fixed [IMM; R]
  | Op.PrivateGet => Fixed WRITE_READ_READ
  | Op.PrivateBrandCheck => Fixed READ_READ
  | Op.GlobalBindingExists => Fixed WRITE_CONST
  | Op.LoadLocal => Fixed LOAD_LOCAL
  | Op.StoreLocal => Fixed STORE_LOCAL
  | Op.Neg | Op.BitwiseNot | Op.ToNumber | Op.LogicalNot | Op.ToBoolean => Fixed WRITE_READ
  | Op.Add | Op.Sub | Op.Mul | Op.Div | Op.Rem | Op.Pow | Op.BitwiseAnd | Op.BitwiseOr
  | Op.BitwiseXor | Op.Shl | Op.Shr | Op.Ushr | Op.Equal | Op.NotEqual | Op.LessThan
  | Op.LessEq | Op.GreaterThan | Op.GreaterEq => Fixed WRITE_READ_READ
  | Op.AddImm | Op.SubImm | Op.BitwiseAndImm | Op.LessThanImm | Op.EqualImm | Op.NotEqualImm => Fixed WRITE_READ_IMM
  end.

Definition control_flow (op : Op) : ControlFlow :=
  match op with
  | Op.Jump | Op.JumpViaFinally => ControlFlow.Jump
  | Op.JumpIfTrue | Op.JumpIfFalse | Op.JumpIfNullish => ControlFlow.Branch
  | Op.Return | Op.ReturnValue | Op.ReturnUndefined | Op.TailCall => ControlFlow.Return
  | Op.Throw => ControlFlow.Throw
  | Op.EnterTry | Op.LeaveTry | Op.EndFinally | Op.PopParkedFinally => ControlFlow.ExceptionRegion
  | Op.Await | Op.Yield | Op.YieldDelegate | Op.GeneratorStart => ControlFlow.Suspend
  | Op.Call | Op.CallWithThis | Op.CallMethodValue | Op.CallSpread | Op.New | Op.NewSpread
  | Op.SuperConstructSpread | Op.Eval | Op.MathCall | Op.PromiseCall => ControlFlow.Call
  | _ => ControlFlow.Fallthrough
  end.

Definition feedback (op : Op) : FeedbackKind :=
  match op with
  | Op.Add | Op.Sub | Op.Mul | Op.Div | Op.Rem | Op.Pow | Op.Increment | Op.LessThan
  | Op.LessEq | Op.GreaterThan | Op.GreaterEq => FeedbackKind.Arithmetic
  | Op.LoadProperty | Op.StoreProperty | Op.HasProperty | Op.DeleteProperty => FeedbackKind.Property
  | Op.LoadElement | Op.StoreElement | Op.DeleteElement | Op.ArrayLength => FeedbackKind.Element
  | Op.Call | Op.CallWithThis | Op.CallMethodValue | Op.TailCall => FeedbackKind.Call
  | Op.LoadGlobalOrThrow | Op.LoadGlobalOrUndefined | Op.StoreGlobalBinding | Op.LoadDynamic
  | Op.StoreDynamic => FeedbackKind.Global
  | _ => FeedbackKind.None_
  end.

Definition leaf (op : Op) : bool :=
  match op with
  | Op.Nop | Op.LoadUndefined | Op.LoadHole | Op.LoadTrue | Op.LoadFalse | Op.LoadNull
  | Op.LoadLocal | Op.StoreLocal | Op.LoadThis | Op.LoadNewTarget | Op.Jump | Op.JumpIfTrue
  | Op.JumpIfFalse | Op.JumpIfNullish | Op.LeaveTry | Op.Return | Op.ReturnValue
  | Op.ReturnUndefined => true
  | _ => false
  end.

Definition baseline_support (op : Op) : TierSupport :=
  match op with
  | Op.Nop | Op.LoadUndefined | Op.LoadTrue | Op.LoadFalse | Op.LoadNull | Op.LoadString
  | Op.LoadNumber | Op.LoadInt32 | Op.Add | Op.Sub | Op.Mul | Op.Div | Op.Rem | Op.Neg
  | Op.Equal | Op.NotEqual | Op.LessThan | Op.LessEq | Op.GreaterThan | Op.GreaterEq | Op.Jump
  | Op.JumpIfTrue | Op.JumpIfFalse | Op.JumpIfNullish | Op.LoadLocal | Op.StoreLocal
  | Op.LoadProperty | Op.StoreProperty | Op.LoadElement | Op.StoreElement | Op.ArrayLength
  | Op.Call | Op.CallWithThis | Op.CallMethodValue | Op.Return | Op.ReturnValue
  | Op.ReturnUndefined => TierSupport.Partial
  | _ => TierSupport.Fallback
  end.

Definition effects (op : Op) : OpcodeEffects :=
  mkEffects (negb (leaf op)) (negb (leaf op)) (negb (leaf op)) (negb (leaf op)) (negb (leaf op)).

Definition RELATIVE_TARGET : SuccessorSpec := Successor.RelativeTarget 0 AfterOpcode.
Definition JUMP_SUCCESSORS : list SuccessorSpec := [RELATIVE_TARGET].
Definition BRANCH_SUCCESSORS : list SuccessorSpec := [RELATIVE_TARGET; Successor.Fallthrough].
Definition RETURN_SUCCESSORS : list SuccessorSpec := [Successor.FrameReturn].
Definition TAIL_CALL_SUCCESSORS : list SuccessorSpec := [Successor.FrameReturn; Successor.Fallthrough].
Definition FALLTHROUGH_SUCCESSORS : list SuccessorSpec := [Successor.Fallthrough].
Definition NO_NORMAL_SUCCESSORS : list SuccessorSpec := [].

(** [None] is the [unreachable!()] of the last arm. *)
Definition successor_shape (op : Op) : option (list SuccessorSpec) :=
  match op with
  | Op.Jump => Some JUMP_SUCCESSORS
  | Op.JumpIfTrue | Op.JumpIfFalse | Op.JumpIfNullish => Some BRANCH_SUCCESSORS
  | Op.Return | Op.ReturnValue | Op.ReturnUndefined => Some RETURN_SUCCESSORS
  | Op.TailCall => Some TAIL_CALL_SUCCESSORS
  | Op.EnterTry | Op.LeaveTry | Op.EndFinally | Op.PopParkedFinally => Some FALLTHROUGH_SUCCESSORS
  | Op.Throw => Some NO_NORMAL_SUCCESSORS
  | Op.JumpViaFinally => Some JUMP_SUCCESSORS
  | Op.Await | Op.Yield | Op.YieldDelegate | Op.GeneratorStart => Some FALLTHROUGH_SUCCESSORS
  | _ =>
      match control_flow op with
      | ControlFlow.Fallthrough | ControlFlow.Call => Some FALLTHROUGH_SUCCESSORS
      | _ => None
      end
  end.

Definition ENTER_TRY_EXCEPTION_SUCCESSORS : list ExceptionSuccessorSpec :=
  [Successor.OptionalRelativeTarget 0 AfterOpcode NO_HANDLER_OFFSET;
   Successor.OptionalRelativeTarget 1 AfterOpcode NO_HANDLER_OFFSET].
Definition THROW_EXCEPTION_SUCCESSORS : list ExceptionSuccessorSpec := [Successor.DynamicFrameHandlerOrCaller].
Definition END_FINALLY_EXCEPTION_SUCCESSORS : list ExceptionSuccessorSpec :=
  [Successor.ResumeParkedAbruptCompletion].
Definition JUMP_VIA_FINALLY_EXCEPTION_SUCCESSORS : list ExceptionSuccessorSpec :=
  [Successor.RunFinallyHandlersToFloor 1].
Definition NO_EXCEPTION_SUCCESSORS : list ExceptionSuccessorSpec := [].

Definition exception_successor_shape (op : Op) : list ExceptionSuccessorSpec :=
  match op with
  | Op.EnterTry => ENTER_TRY_EXCEPTION_SUCCESSORS
  | Op.Throw => THROW_EXCEPTION_SUCCESSORS
  | Op.EndFinally => END_FINALLY_EXCEPTION_SUCCESSORS
  | Op.JumpViaFinally => JUMP_VIA_FINALLY_EXCEPTION_SUCCESSORS
  | Op.PopParkedFinally => NO_EXCEPTION_SUCCESSORS
  | _ => if negb (may_throw (effects op)) then NO_EXCEPTION_SUCCESSORS else THROW_EXCEPTION_SUCCESSORS
  end.

Record OpcodeSchema : Type := mkSchema {
  sch_op : Op;
  sch_byte : Z;
  sch_operand_shape : OperandShape;
  sch_control_flow : ControlFlow;
  sch_successor_shape : list SuccessorSpec;
  sch_exception_successor_shape : list ExceptionSuccessorSpec;
  sch_feedback : FeedbackKind;
  sch_effects : OpcodeEffects;
  sch_baseline : TierSupport;
  sch_optimizer : TierSupport;
}.

(** [OpcodeSchema::new].  It runs at compile time, so an [unreachable!()] there
    would stop the build: [schema_table_built] shows no row does. *)
Definition schema_new (op : Op) (byte : Z) : option OpcodeSchema :=
  match successor_shape op with
  | Some successors =>
      Some (mkSchema op byte (operand_shape op) (control_flow op) successors
              (exception_successor_shape op) (feedback op) (effects op) (baseline_support op)
              TierSupport.ExperimentalOnly)
  | None => None
  end.

Definition OPCODE_SCHEMA : list OpcodeSchema :=
  omap (fun row : Op * Z => schema_new row.1 row.2) OP_BYTE_TABLE.

(** [opcode_schema]: indexing the table; the source panics out of range. *)
Definition opcode_schema (op : Op) : option OpcodeSchema := OPCODE_SCHEMA !! schema_index op.

(** ** Operand checks and word codecs *)

Definition schema_operand_shape (op : Op) : OperandShape :=
  match opcode_schema op with Some row => sch_operand_shape row | None => Fixed [] end.

Definition schema_successors (op : Op) : list SuccessorSpec :=
  match opcode_schema op with Some row => sch_successor_shape row | None => [] end.
Definition schema_exception_successors (op : Op) : list ExceptionSuccessorSpec :=
  match opcode_schema op with Some row => sch_exception_successor_shape row | None => [] end.

Definition operand_kind_at (op : Op) (index : nat) : option OperandKind :=
  let shape := schema_operand_shape op in
  match shape_prefix shape !! index with
  | Some spec => Some (spec_kind spec)
  | None =>
      match shape_variadic shape with
      | Some (_, tail) => Some (spec_kind tail)
      | None => None
      end
  end.

Definition register_access_at (op : Op) (index : nat) : RegisterAccess :=
  let shape := schema_operand_shape op in
  match shape_prefix shape !! index with
  | Some spec => register_access spec
  | None =>
      match shape_variadic shape with
      | Some (_, tail) => register_access tail
      | None => RegisterAccess.None_
      end
  end.

(** [Op::operand_count]: the length of the declared prefix (the table after the
    early return is never reached, since every row has a prefix). *)
Definition operand_count (op : Op) : nat := length (shape_prefix (schema_operand_shape op)).

(** [value as u32] of an [i32], and back. *)
Definition u32_of_i32 (x : Z) : Z := (x mod 4294967296)%Z.
Definition i32_of_u32 (x : Z) : Z := (if x <? 2147483648 then x else x - 4294967296)%Z.

Definition encode_operand_word (operand : Operand) : Z :=
  match operand with
  | Operand.Register value => value
  | Operand.ConstIndex value => value
  | Operand.Imm32 value => u32_of_i32 value
  end.

Definition decode_operand_word (kind : OperandKind) (word : Z) : option Operand :=
  match kind with
  | OperandKind.Register => if (word <=? 65535)%Z then Some (Operand.Register word) else None
  | OperandKind.ConstIndex => Some (Operand.ConstIndex word)
  | OperandKind.Imm32 => Some (Operand.Imm32 (i32_of_u32 word))
  end.

(** The loop of [verify_operand_specs]; [offset % expected.len()] panics on an
    empty list, which only an operand past the end of an empty one could meet. *)
Fixpoint verify_operand_specs (operands : list Operand) (expected : list OperandSpec)
    (index_base offset : nat) : res OperandShapeError unit :=
  match operands with
  | [] => Ok tt
  | operand :: operands =>
      match expected !! (offset mod length expected) with
      | None => Panic
      | Some spec =>
          let actual := kind_of operand in
          if bool_decide (actual = spec_kind spec)
          then verify_operand_specs operands expected index_base (S offset)
          else Err (ShapeKind (index_base + offset) (spec_kind spec) actual)
      end
  end.

(** The tail count is added to a [usize] of 64 bits. *)
Definition verify_operand_shape (op : Op) (operands : list Operand) : res OperandShapeError unit :=
  let shape := schema_operand_shape op in
  let prefix := shape_prefix shape in
  if length operands <? length prefix
  then Err (ShapeCount (length prefix) (length operands))
  else
    let* _ := verify_operand_specs (take (length prefix) operands) prefix 0 0 in
    match shape_variadic shape with
    | None =>
        if Nat.eqb (length operands) (length prefix) then Ok tt
        else Err (ShapeCount (length prefix) (length operands))
    | Some (count_operand_index, tail) =>
        match operands !! count_operand_index with
        | Some (Operand.ConstIndex count) =>
            if (u64_max <? Z.of_nat (length prefix) + count)%Z
            then Err (VariadicCountOverflow count)
            else
              if (Z.of_nat (length operands) =? Z.of_nat (length prefix) + count)%Z
              then verify_operand_specs (drop (length prefix) operands) [tail] (length prefix) 0
              else Err (ShapeCount (length prefix + Z.to_nat count) (length operands))
        | _ => Panic
        end
    end.

(** ** The tables are well formed *)

Lemma u32_i32_roundtrip imm : (-2147483648 <= imm <= 2147483647)%Z -> i32_of_u32 (u32_of_i32 imm) = imm.
Proof.
  intros H. unfold i32_of_u32, u32_of_i32. destruct (decide (0 <= imm)%Z).
  - rewrite Z.mod_small by lia. case_match; boolprop; lia.
  - replace (imm mod 4294967296)%Z with (imm + 4294967296)%Z.
    + case_match; boolprop; lia.
    + rewrite <- (Z.mod_small (imm + 4294967296) 4294967296) by lia.
      by rewrite <- Zplus_mod_idemp_r, Z.mod_same, Z.add_0_r by lia.
Qed.

(** Operands that fit their machine type. *)
Definition operand_ok (operand : Operand) : Prop :=
  match operand with
  | Operand.Register reg => (0 <= reg <= 65535)%Z
  | Operand.ConstIndex idx => (0 <= idx <= u32_max)%Z
  | Operand.Imm32 imm => (-2147483648 <= imm <= 2147483647)%Z
  end.

Lemma schema_table_built : map (fun row => (sch_op row, sch_byte row)) OPCODE_SCHEMA = OP_BYTE_TABLE.
Proof. vm_compute. reflexivity. Qed.

Lemma schema_row op : exists row, opcode_schema op = Some row /\ sch_op row = op /\
  sch_operand_shape row = operand_shape op /\ successor_shape op = Some (sch_successor_shape row) /\
  sch_exception_successor_shape row = exception_successor_shape op.
Proof. destruct op; eexists; (split; [vm_compute; reflexivity|]); vm_compute; auto. Qed.

Lemma schema_operand_shape_eq op : schema_operand_shape op = operand_shape op.
Proof. unfold schema_operand_shape. destruct (schema_row op) as (row & -> & _ & -> & _). done. Qed.

(** The kinds a well-shaped operand list has. *)
Definition shape_kinds (shape : OperandShape) (operands : list Operand) : list OperandKind :=
  match shape with
  | Fixed specs => map spec_kind specs
  | Variadic prefix count tail =>
      map spec_kind prefix ++
      match operands !! count with
      | Some (Operand.ConstIndex n) => replicate (Z.to_nat n) (spec_kind tail)
      | _ => []
      end
  end.

Definition shape_ok (op : Op) (operands : list Operand) : Prop :=
  map kind_of operands = shape_kinds (operand_shape op) operands.
#[export] Instance shape_ok_dec op operands : Decision (shape_ok op operands).
Proof. unfold shape_ok. apply _. Defined.

(** Every tail count sits at a [ConstIndex] position of its prefix, which is short. *)
Definition count_operand_ok (op : Op) : bool :=
  match operand_shape op with
  | Fixed _ => true
  | Variadic prefix count tail =>
      bool_decide (spec_kind <$> prefix !! count = Some OperandKind.ConstIndex) && (length prefix <? 8)
  end.

Lemma count_operands_ok op : count_operand_ok op = true.
Proof. by destruct op. Qed.

Lemma shape_kinds_no_panic specs operands base offset :
  0 < length specs -> verify_operand_specs operands specs base offset <> Panic.
Proof.
  intros Hs. revert offset. induction operands as [|operand operands IH]; intros offset; simpl; [done|].
  destruct (lookup_lt_is_Some_2 specs (offset mod length specs)) as [spec ->].
  - apply Nat.mod_upper_bound. lia.
  - case_bool_decide; [apply IH|done].
Qed.

Lemma verify_specs_prefix specs operands base pre :
  length operands <= length specs ->
  verify_operand_specs operands (pre ++ specs) base (length pre) = Ok tt <->
  map kind_of operands = map spec_kind (take (length operands) specs).
Proof.
  revert specs pre. induction operands as [|operand operands IH]; intros specs pre Hlen; [done|].
  destruct specs as [|spec specs]; simpl in Hlen; [lia|]. cbn [verify_operand_specs].
  rewrite length_app, Nat.mod_small by (simpl; lia).
  rewrite lookup_app_r, Nat.sub_diag by lia. simpl.
  specialize (IH specs (pre ++ [spec])). rewrite length_app, <- app_assoc in IH. simpl in IH.
  rewrite Nat.add_1_r in IH. case_bool_decide as E; rewrite ?IH by lia; split; intros H; try done.
  - rewrite H. by f_equal.
  - by injection H.
  - by injection H as ? _.
Qed.

Lemma verify_specs_tail tail operands base offset :
  verify_operand_specs operands [tail] base offset = Ok tt <->
  map kind_of operands = replicate (length operands) (spec_kind tail).
Proof.
  revert offset. induction operands as [|operand operands IH]; intros offset; [done|].
  cbn [verify_operand_specs]. rewrite Nat.mod_1_r. simpl.
  case_bool_decide as E; rewrite ?IH; split; intros H; try done.
  - rewrite H. by f_equal.
  - by injection H.
  - by injection H as ? _.
Qed.

Lemma verify_specs_all specs operands base : length operands = length specs ->
  verify_operand_specs operands specs base 0 = Ok tt <-> map kind_of operands = map spec_kind specs.
Proof.
  intros Hl. rewrite (verify_specs_prefix specs operands base []) by lia. by rewrite Hl, firstn_all.
Qed.

Lemma verify_shape_fixed op specs operands : operand_shape op = Fixed specs ->
  verify_operand_shape op operands = Ok tt <-> map kind_of operands = map spec_kind specs.
Proof.
  intros Hs. unfold verify_operand_shape. rewrite schema_operand_shape_eq, Hs. simpl.
  assert (Hlen : map kind_of operands = map spec_kind specs -> length operands = length specs)
    by (intros H; apply (f_equal length) in H; by rewrite !length_map in H).
  case_match eqn:E; boolprop; [split; [done|]; intros H; apply Hlen in H; lia|].
  destruct (Nat.eqb (length operands) (length specs)) eqn:El; boolprop.
  - rewrite <- El, firstn_all. pose proof (verify_specs_all specs operands 0 El) as Hv.
    destruct (verify_operand_specs operands specs 0 0) as [[]| | |]; simpl; split; intros H; try done;
      [by apply Hv|by apply Hv in H..].
  - split; [|by intros H%Hlen]. intros H. by destruct (verify_operand_specs _ _ _ _).
Qed.

(** After the prefix check of a variadic shape the count operand is there. *)
Lemma count_operand op prefix count tail operands : operand_shape op = Variadic prefix count tail ->
  map kind_of (take (length prefix) operands) = map spec_kind prefix ->
  exists n, operands !! count = Some (Operand.ConstIndex n).
Proof.
  intros Hs Hk. pose proof (count_operands_ok op) as Hc. unfold count_operand_ok in Hc. rewrite Hs in Hc.
  apply andb_prop in Hc as [Hc _]. apply bool_decide_eq_true in Hc.
  destruct (prefix !! count) as [cspec|] eqn:Ec; [|done]. injection Hc as Hc.
  apply (f_equal (fun k => k !! count)) in Hk.
  rewrite !map_lookup, lookup_take_lt, Ec in Hk by (by eapply lookup_lt_Some). simpl in Hk.
  destruct (operands !! count) as [[]|]; simpl in Hk; try congruence. eauto.
Qed.

Lemma verify_shape_variadic op prefix count tail operands n :
  operand_shape op = Variadic prefix count tail -> operands !! count = Some (Operand.ConstIndex n) ->
  (0 <= n <= u32_max)%Z -> map kind_of (take (length prefix) operands) = map spec_kind prefix ->
  length prefix <= length operands ->
  verify_operand_shape op operands = Ok tt <->
  map kind_of (drop (length prefix) operands) = replicate (Z.to_nat n) (spec_kind tail).
Proof.
  intros Hs Hn Hnok Hk Hlen. pose proof (count_operands_ok op) as Hc. unfold count_operand_ok in Hc.
  rewrite Hs in Hc. apply andb_prop in Hc as [_ Hshort]. boolprop.
  unfold verify_operand_shape. rewrite schema_operand_shape_eq, Hs. simpl.
  rewrite (proj2 (Nat.ltb_ge _ _) Hlen).
  rewrite (proj2 (verify_specs_all prefix (take (length prefix) operands) 0 ltac:(rewrite length_take; lia)) Hk). simpl. rewrite Hn.
  assert (Hll : map kind_of (drop (length prefix) operands) = replicate (Z.to_nat n) (spec_kind tail) ->
    length operands = length prefix + Z.to_nat n).
  { intros H. apply (f_equal length) in H. rewrite length_map, length_replicate, length_drop in H. lia. }
  case_match eqn:E1; boolprop.
  { unfold u32_max, u64_max in *. lia. }
  case_match eqn:E2; boolprop; [|split; [done|]; intros H%Hll; lia].
  rewrite verify_specs_tail. by replace (length (drop (length prefix) operands)) with (Z.to_nat n)
    by (rewrite length_drop; lia).
Qed.

Lemma verify_shape_prefix op prefix count tail operands : operand_shape op = Variadic prefix count tail ->
  verify_operand_shape op operands = Ok tt ->
  length prefix <= length operands /\ map kind_of (take (length prefix) operands) = map spec_kind prefix.
Proof.
  intros Hs. unfold verify_operand_shape. rewrite schema_operand_shape_eq, Hs. simpl.
  case_match eqn:E; boolprop; [done|]. intros H. inv_bind H. split; [lia|]. destruct a.
  eapply verify_specs_all; [|exact Hbind]. rewrite length_take. lia.
Qed.

(** The shape check accepts exactly the operand lists of the declared kinds. *)
Lemma verify_operand_shape_Ok op operands : Forall operand_ok operands ->
  verify_operand_shape op operands = Ok tt <-> shape_ok op operands.
Proof.
  intros Hok. unfold shape_ok. destruct (operand_shape op) as [specs|prefix count tail] eqn:Hs; simpl.
  { by apply verify_shape_fixed. }
  assert (Hsplit : map kind_of operands = map kind_of (take (length prefix) operands) ++
    map kind_of (drop (length prefix) operands)) by (by rewrite <- map_app, take_drop).
  split; intros H.
  - destruct (verify_shape_prefix _ _ _ _ _ Hs H) as [Hlen Hk].
    destruct (count_operand _ _ _ _ _ Hs Hk) as [n Hn]. rewrite Hn, Hsplit, Hk. f_equal.
    by eapply verify_shape_variadic; [exact Hs|exact Hn|by apply (Forall_lookup_1 _ _ _ _ Hok Hn)| | |].
  - assert (Hlen : length prefix <= length operands)
      by (apply (f_equal length) in H; rewrite length_app, !length_map in H; lia).
    rewrite Hsplit in H. apply app_inj_1 in H as [Hk Htl]; [|rewrite !length_map, length_take; lia].
    destruct (count_operand _ _ _ _ _ Hs Hk) as [n Hn]. rewrite Hn in Htl.
    by eapply verify_shape_variadic; [exact Hs|exact Hn|by apply (Forall_lookup_1 _ _ _ _ Hok Hn)| | |].
Qed.

(** No [unreachable!()] or [expect] of the check is reached, whatever the operands. *)
Lemma verify_operand_shape_no_panic op operands : verify_operand_shape op operands <> Panic.
Proof.
  unfold verify_operand_shape. rewrite schema_operand_shape_eq.
  pose proof (count_operand op) as Hcount.
  destruct (operand_shape op) as [specs|prefix count tail] eqn:Hs; simpl; (case_match eqn:Elen; [done|boolprop]).
  - intros Hp. assert (Hnp : verify_operand_specs (take (length specs) operands) specs 0 0 <> Panic).
    { destruct specs as [|spec specs]; [done|]. apply shape_kinds_no_panic. simpl. lia. }
    destruct (verify_operand_specs _ _ _ _) as [[]| | |]; simpl in Hp; try done. by case_match.
  - intros Hp. pose proof (verify_specs_all prefix (take (length prefix) operands) 0) as Hv.
    assert (Hnp : verify_operand_specs (take (length prefix) operands) prefix 0 0 <> Panic).
    { destruct prefix as [|spec specs]; [done|]. apply shape_kinds_no_panic. simpl. lia. }
    destruct (verify_operand_specs _ prefix 0 0) as [[]| | |]; simpl in Hp; try done.
    destruct (Hcount prefix count tail operands eq_refl) as [n Hn].
    { apply Hv; [rewrite length_take; lia|done]. }
    rewrite Hn in Hp. case_match; [done|]. case_match; [|done]. by eapply shape_kinds_no_panic in Hp; [|simpl; lia].
Qed.
