(* ===== verification/Encoding.v ===== *)
(** * Bytecode: the wire format

    [encoding.rs]: verification of a logical function (operand shapes, branch and
    handler targets in instruction indices), its byte layout, the two-pass encoder
    that rewrites branch operands from instruction deltas to byte deltas, and the
    decoder with its own verification of byte targets.  [VerifyError] and
    [DecodeError] are values; an [expect], [assert!], [unreachable!] or an index
    out of range is [Panic]. *)

From S2P Require Import Prelude Slices Opcode Schema.

(** [lib.rs]: the decoded instruction; [pc] is a byte offset after decoding. *)
Record Instruction : Type := mkInstr {
  ins_pc : Z;
  ins_op : Op;
  ins_operands : list Operand;
}.

Record SpanEntry : Type := mkSpan { span_pc : Z; span_range : Z * Z }.

Module VerifyError.
Inductive VerifyError : Type :=
    | FunctionTooLarge
    | InvalidOperandShape (instruction_index : nat) (error : OperandShapeError)
    | InvalidControlFlowTarget (instruction_index : nat) (target : Z)
    | InvalidControlFlowOperand (instruction_index operand_index : nat) (value : Z).
End VerifyError.
Export VerifyError (VerifyError).

Module DecodeError.
Inductive DecodeError : Type :=
    | UnexpectedEnd (offset : nat)
    | UnknownOpcode (offset : nat) (byte : Z)
    | UnknownOperandKind (offset : nat) (kind : Z)
    | InvalidOperandShape (offset : nat) (error : OperandShapeError)
    | InvalidControlFlowTarget (offset : Z) (target : Z)
    | InvalidControlFlowOperand (offset : Z) (operand_index : nat) (value : Z).
End DecodeError.
Export DecodeError (DecodeError).

(** ** Verification of logical functions *)

Definition verify_logical_target (instructions : list Instruction)
    (instruction_index operand_index : nat) (absent_value : option Z) (instruction_count : Z)
    : res VerifyError unit :=
  let* instr := index instructions instruction_index in
  match ins_operands instr !! operand_index with
  | Some (Operand.Imm32 delta) =>
      if bool_decide (absent_value = Some delta) then Ok tt
      else
        let target := (Z.of_nat instruction_index + 1 + delta)%Z in
        if in_range 0 instruction_count target then Ok tt
        else Err (VerifyError.InvalidControlFlowTarget instruction_index target)
  | _ => Panic
  end.

(** The body of the loop of [verify_logical_function]. *)
Definition verify_logical_instruction (instructions : list Instruction) (instruction_index : nat)
    (instr : Instruction) : res VerifyError unit :=
  let len := Z.of_nat (length instructions) in
  let* _ := map_err (VerifyError.InvalidOperandShape instruction_index)
              (verify_operand_shape (ins_op instr) (ins_operands instr)) in
  let* _ := for_each (fun successor =>
      match successor with
      | Successor.RelativeTarget operand_index _ =>
          verify_logical_target instructions instruction_index operand_index None len
      | _ => Ok tt
      end) (schema_successors (ins_op instr)) in
  for_each (fun successor =>
    match successor with
    | Successor.OptionalRelativeTarget operand_index _ absent_value =>
        verify_logical_target instructions instruction_index operand_index (Some absent_value) len
    | Successor.RunFinallyHandlersToFloor floor_operand_index =>
        match ins_operands instr !! floor_operand_index with
        | Some (Operand.Imm32 floor) =>
            if (floor <? 0)%Z
            then Err (VerifyError.InvalidControlFlowOperand instruction_index floor_operand_index floor)
            else Ok tt
        | _ => Panic
        end
    | Successor.DynamicFrameHandlerOrCaller | Successor.ResumeParkedAbruptCompletion => Ok tt
    end) (schema_exception_successors (ins_op instr)).

Definition verify_logical_function (instructions : list Instruction) : res VerifyError unit :=
  for_each_i (verify_logical_instruction instructions) 0 instructions.

(** ** Byte layout *)

Record FunctionLayout : Type := mkLayout {
  total_bytes : Z;
  lay_instr_to_byte_pc : list Z;
}.

Definition operand_len (operand : Operand) : Z :=
  match operand with
  | Operand.Register _ => 3
  | Operand.ConstIndex _ | Operand.Imm32 _ => 5
  end.

(** [checked_add] on a [u32]. *)
Definition add_or_too_large (x y : Z) : res VerifyError Z :=
  match u32_checked (x + y) with
  | Some z => Ok z
  | None => Err VerifyError.FunctionTooLarge
  end.

Fixpoint measure_operands (byte_len : Z) (operands : list Operand) : res VerifyError Z :=
  match operands with
  | [] => Ok byte_len
  | operand :: operands =>
      let* byte_len := add_or_too_large byte_len (operand_len operand) in
      measure_operands byte_len operands
  end.

Fixpoint layout_loop (byte_pc : Z) (pcs : list Z) (instructions : list Instruction)
    : res VerifyError FunctionLayout :=
  match instructions with
  | [] => Ok (mkLayout byte_pc pcs)
  | instr :: instructions =>
      let* byte_len := measure_operands 2 (ins_operands instr) in
      let* next := add_or_too_large byte_pc byte_len in
      layout_loop next (pcs ++ [byte_pc]) instructions
  end.

Definition layout_function (instructions : list Instruction) : res VerifyError FunctionLayout :=
  let* _ := verify_logical_function instructions in
  layout_loop 0 [] instructions.

(** ** The encoder *)

Definition OPERAND_KIND_REGISTER : Z := 0.
Definition OPERAND_KIND_CONST_INDEX : Z := 1.
Definition OPERAND_KIND_IMM32 : Z := 2.

(** [position] in the byte table, as a [u8]. *)
Fixpoint op_position (op : Op) (rows : list (Op * Z)) (i : nat) : option nat :=
  match rows with
  | [] => None
  | row :: rows => if op_eqb row.1 op then Some i else op_position op rows (S i)
  end.
Definition op_to_byte (op : Op) : option Z :=
  match op_position op OP_BYTE_TABLE 0 with
  | Some i => Some (Z.of_nat i mod 256)%Z
  | None => None
  end.
Definition op_from_byte (byte : Z) : option Op :=
  match OP_BYTE_TABLE !! Z.to_nat byte with Some row => Some row.1 | None => None end.

Definition write_operand (operand : Operand) : list Z :=
  match operand with
  | Operand.Register reg => OPERAND_KIND_REGISTER :: to_le_bytes 2 reg
  | Operand.ConstIndex idx => OPERAND_KIND_CONST_INDEX :: to_le_bytes 4 idx
  | Operand.Imm32 imm => OPERAND_KIND_IMM32 :: to_le_bytes 4 imm
  end.

(** [BytecodeWriter::pc]. *)
Definition writer_pc (bytes : list Z) : res VerifyError Z :=
  if (Z.of_nat (length bytes) <=? u32_max)%Z then Ok (Z.of_nat (length bytes)) else Panic.

(** [BytecodeWriter::write]. *)
Definition writer_write (bytes : list Z) (instr : Instruction) : res VerifyError (list Z) :=
  match op_to_byte (ins_op instr) with
  | None => Panic
  | Some opcode_byte =>
      if length (ins_operands instr) <=? 255
      then Ok (bytes ++ [opcode_byte; Z.of_nat (length (ins_operands instr))] ++
               flat_map write_operand (ins_operands instr))
      else Panic
  end.

Record JumpFixup : Type := mkFixup {
  jump_idx : nat;
  jump_byte_pc : Z;
  imm32_byte_offset : Z;
}.

Definition branch_imm32_operand_slots (op : Op) : list nat :=
  match op with
  | Op.Jump | Op.JumpIfTrue | Op.JumpIfFalse | Op.JumpIfNullish | Op.JumpViaFinally => [0]
  | Op.EnterTry => [0; 1]
  | _ => []
  end.

(** The operand loop of [write_instruction_capturing_jumps]. *)
Fixpoint write_operands (slots : list nat) (idx : nat) (byte_pc : Z) (op_idx : nat)
    (operands : list Operand) (bytes : list Z) (fixups : list JumpFixup)
    : res VerifyError (list Z * list JumpFixup) :=
  match operands with
  | [] => Ok (bytes, fixups)
  | operand :: operands =>
      let operand_start := (Z.of_nat (length bytes) mod 4294967296)%Z in
      let bytes := bytes ++ write_operand operand in
      if bool_decide (op_idx ∈ slots) then
        match operand with
        | Operand.Imm32 _ =>
            write_operands slots idx byte_pc (S op_idx) operands bytes
              (fixups ++ [mkFixup idx byte_pc (operand_start + 1)])
        | _ => Panic
        end
      else write_operands slots idx byte_pc (S op_idx) operands bytes fixups
  end.

Definition write_instruction_capturing_jumps (bytes : list Z) (instr : Instruction) (idx : nat)
    (byte_pc : Z) (fixups : list JumpFixup) : res VerifyError (list Z * list JumpFixup) :=
  match op_to_byte (ins_op instr) with
  | None => Panic
  | Some opcode_byte =>
      if length (ins_operands instr) <=? 255
      then write_operands (branch_imm32_operand_slots (ins_op instr)) idx byte_pc 0 (ins_operands instr)
             (bytes ++ [opcode_byte; Z.of_nat (length (ins_operands instr))]) fixups
      else Panic
  end.

(** [i32::from_le_bytes]. *)
Definition i32_from_le_bytes (l : list Z) : Z := i32_of_u32 (from_le_bytes l).

Definition resolve_jump_fixup (bytes : list Z) (fixup : JumpFixup) (pcs : list Z)
    (total : Z) (instruction_count : nat) : res VerifyError (list Z) :=
  let start := Z.to_nat (imm32_byte_offset fixup) in
  if length bytes <? start + 4 then Panic
  else
    let raw := i32_from_le_bytes (take 4 (drop start bytes)) in
    if (raw =? NO_HANDLER_OFFSET)%Z then Ok bytes
    else
      let target_instr_idx := (Z.of_nat (jump_idx fixup) + 1 + raw)%Z in
      if (target_instr_idx <? 0)%Z then Panic
      else
        let* target_byte_pc :=
          if Nat.eqb (Z.to_nat target_instr_idx) instruction_count then Ok total
          else index pcs (Z.to_nat target_instr_idx) in
        let byte_delta := (target_byte_pc - (jump_byte_pc fixup + 1))%Z in
        if in_range (-2147483648) 2147483647 byte_delta
        then Ok (take start bytes ++ to_le_bytes 4 byte_delta ++ drop (start + 4) bytes)
        else Panic.

Fixpoint resolve_fixups (bytes : list Z) (fixups : list JumpFixup) (pcs : list Z) (total : Z)
    (instruction_count : nat) : res VerifyError (list Z) :=
  match fixups with
  | [] => Ok bytes
  | fixup :: fixups =>
      let* bytes := resolve_jump_fixup bytes fixup pcs total instruction_count in
      resolve_fixups bytes fixups pcs total instruction_count
  end.

Record EncodedFunction : Type := mkEncoded {
  enc_code : list Z;
  enc_instr_to_byte_pc : list Z;
}.

(** The first pass. *)
Fixpoint write_all (idx : nat) (instructions : list Instruction) (bytes : list Z) (pcs : list Z)
    (fixups : list JumpFixup) : res VerifyError (list Z * list Z * list JumpFixup) :=
  match instructions with
  | [] => Ok (bytes, pcs, fixups)
  | instr :: instructions =>
      let* byte_pc := writer_pc bytes in
      let* (bytes, fixups) := write_instruction_capturing_jumps bytes instr idx byte_pc fixups in
      write_all (S idx) instructions bytes (pcs ++ [byte_pc]) fixups
  end.

Definition try_encode_function (instructions : list Instruction) : res VerifyError EncodedFunction :=
  let* _ := verify_logical_function instructions in
  let* (bytes, pcs, fixups) := write_all 0 instructions [] [] [] in
  let* total := writer_pc bytes in
  let* code := resolve_fixups bytes fixups pcs total (length instructions) in
  Ok (mkEncoded code pcs).

(** [encode_function]: an invalid function is a panic. *)
Definition encode_function (instructions : list Instruction) : res VerifyError EncodedFunction :=
  match try_encode_function instructions with
  | Err _ => Panic
  | r => r
  end.

Definition translate_spans_to_byte_pcs (spans : list SpanEntry) (pcs : list Z) (total : Z)
    : list SpanEntry :=
  map (fun entry =>
    mkSpan (match pcs !! Z.to_nat (span_pc entry) with Some pc => pc | None => total end)
      (span_range entry)) spans.

(** ** The decoder *)

Definition take_n (n : nat) (code : list Z) (pc : nat) : res DecodeError (list Z) :=
  if pc + n <=? length code then Ok (take n (drop pc code))
  else Err (DecodeError.UnexpectedEnd pc).

Definition decode_operand (code : list Z) (pc : nat) : res DecodeError (Operand * nat) :=
  match code !! pc with
  | None => Err (DecodeError.UnexpectedEnd pc)
  | Some kind =>
      if (kind =? OPERAND_KIND_REGISTER)%Z then
        let* bytes := take_n 2 code (pc + 1) in
        Ok (Operand.Register (from_le_bytes bytes), pc + 3)
      else if (kind =? OPERAND_KIND_CONST_INDEX)%Z then
        let* bytes := take_n 4 code (pc + 1) in
        Ok (Operand.ConstIndex (from_le_bytes bytes), pc + 5)
      else if (kind =? OPERAND_KIND_IMM32)%Z then
        let* bytes := take_n 4 code (pc + 1) in
        Ok (Operand.Imm32 (i32_from_le_bytes bytes), pc + 5)
      else Err (DecodeError.UnknownOperandKind pc kind)
  end.

Fixpoint decode_operands (count : nat) (code : list Z) (cursor : nat) (operands : list Operand)
    : res DecodeError (list Operand * nat) :=
  match count with
  | 0 => Ok (operands, cursor)
  | S count =>
      let* (operand, next) := decode_operand code cursor in
      decode_operands count code next (operands ++ [operand])
  end.

Definition decode_instruction (code : list Z) (pc : nat) : res DecodeError (Instruction * nat) :=
  match code !! pc with
  | None => Err (DecodeError.UnexpectedEnd pc)
  | Some opcode_byte =>
      match op_from_byte opcode_byte with
      | None => Err (DecodeError.UnknownOpcode pc opcode_byte)
      | Some op =>
          match code !! (pc + 1) with
          | None => Err (DecodeError.UnexpectedEnd (pc + 1))
          | Some operand_count =>
              let* (operands, cursor) := decode_operands (Z.to_nat operand_count) code (pc + 2) [] in
              if (u32_max <? Z.of_nat pc)%Z then Panic
              else
                let* _ := map_err (DecodeError.InvalidOperandShape pc) (verify_operand_shape op operands) in
                Ok (mkInstr (Z.of_nat pc) op operands, cursor)
          end
      end
  end.

(** An instruction takes two bytes at least, so [len + 1] turns suffice. *)
Fixpoint decode_loop (fuel : nat) (code : list Z) (pc : nat) (out : list Instruction)
    : res DecodeError (list Instruction) :=
  if pc <? length code then
    match fuel with
    | 0 => OutOfFuel
    | S fuel =>
        let* (instr, next) := decode_instruction code pc in
        decode_loop fuel code next (out ++ [instr])
    end
  else Ok out.

Definition verify_relative_target (instr : Instruction) (operand_index : nat)
    (base : RelativeTargetBase) (absent_value : option Z) (boundaries : list Z) (code_len : nat)
    : res DecodeError unit :=
  match ins_operands instr !! operand_index with
  | Some (Operand.Imm32 delta) =>
      if bool_decide (absent_value = Some delta) then Ok tt
      else
        let base := match base with AfterOpcode => (ins_pc instr + 1)%Z end in
        let target := (base + delta)%Z in
        if (target =? Z.of_nat code_len)%Z ||
           ((0 <=? target)%Z && (target <? Z.of_nat code_len)%Z &&
            binary_search_is_ok (fun pc => Z.compare pc (target mod 4294967296)) boundaries)
        then Ok tt
        else Err (DecodeError.InvalidControlFlowTarget (ins_pc instr) target)
  | _ => Panic
  end.

Definition verify_control_flow_instruction (boundaries : list Z) (code_len : nat)
    (instr : Instruction) : res DecodeError unit :=
  let* _ := for_each (fun successor =>
      match successor with
      | Successor.RelativeTarget operand_index base =>
          verify_relative_target instr operand_index base None boundaries code_len
      | _ => Ok tt
      end) (schema_successors (ins_op instr)) in
  for_each (fun successor =>
    match successor with
    | Successor.OptionalRelativeTarget operand_index base absent_value =>
        verify_relative_target instr operand_index base (Some absent_value) boundaries code_len
    | Successor.RunFinallyHandlersToFloor floor_operand_index =>
        match ins_operands instr !! floor_operand_index with
        | Some (Operand.Imm32 floor) =>
            if (floor <? 0)%Z
            then Err (DecodeError.InvalidControlFlowOperand (ins_pc instr) floor_operand_index floor)
            else Ok tt
        | _ => Panic
        end
    | Successor.DynamicFrameHandlerOrCaller | Successor.ResumeParkedAbruptCompletion => Ok tt
    end) (schema_exception_successors (ins_op instr)).

Definition verify_control_flow_targets (instructions : list Instruction) (code_len : nat)
    : res DecodeError unit :=
  for_each (verify_control_flow_instruction (map ins_pc instructions) code_len) instructions.

Definition decode_function (code : list Z) : res DecodeError (list Instruction) :=
  let* out := decode_loop (length code + 1) code 0 [] in
  let* _ := verify_control_flow_targets out (length code) in
  Ok out.
