(* ===== verification/EncodingProps.v ===== *)
(** * Bytecode: the encoder and the decoder agree

    [relocated] is what encoding means: every instruction keeps its opcode and its
    operands, except that a branch operand becomes the distance in bytes from the
    byte after the opcode to the instruction the logical delta named.  The encoder
    produces the byte image of the relocated function ([encodes]), and the decoder
    reads any such image back. *)

From S2P Require Import Prelude Slices Opcode Schema Encoding.

(** ** Opcode bytes *)

Definition op_byte (op : Op) : Z := Z.of_nat (schema_index op).

Lemma op_to_byte_eq op : op_to_byte op = Some (op_byte op).
Proof. by destruct op. Qed.

Lemma op_from_byte_eq op : op_from_byte (op_byte op) = Some op.
Proof. by destruct op. Qed.

(** ** Byte images *)

Definition encode_instr (instr : Instruction) : list Z :=
  op_byte (ins_op instr) :: Z.of_nat (length (ins_operands instr)) ::
  flat_map write_operand (ins_operands instr).
Arguments encode_instr : simpl never.

(** The byte offset of instruction [i]; of the end when [i] is the length. *)
Definition offset (instructions : list Instruction) (i : nat) : Z :=
  Z.of_nat (length (flat_map encode_instr (take i instructions))).

Definition relocate_delta (instructions : list Instruction) (i : nat) (delta : Z) : Z :=
  if (delta =? NO_HANDLER_OFFSET)%Z then delta
  else (offset instructions (Z.to_nat (Z.of_nat i + 1 + delta)) - (offset instructions i + 1))%Z.

Definition relocate_operand (instructions : list Instruction) (i : nat) (slots : list nat)
    (k : nat) (operand : Operand) : Operand :=
  match operand with
  | Operand.Imm32 delta =>
      if bool_decide (k ∈ slots) then Operand.Imm32 (relocate_delta instructions i delta) else operand
  | _ => operand
  end.

Definition relocate_operands (instructions : list Instruction) (i : nat) (op : Op)
    (operands : list Operand) : list Operand :=
  imap (relocate_operand instructions i (branch_imm32_operand_slots op)) operands.

Definition relocated (instructions : list Instruction) : list Instruction :=
  imap (fun i instr =>
    mkInstr (offset instructions i) (ins_op instr)
      (relocate_operands instructions i (ins_op instr) (ins_operands instr))) instructions.

Lemma length_write_operand operand : Z.of_nat (length (write_operand operand)) = operand_len operand.
Proof. by destruct operand. Qed.

Lemma relocate_operand_len instrs i slots k operand :
  length (write_operand (relocate_operand instrs i slots k operand)) = length (write_operand operand).
Proof.
  apply Nat2Z.inj. rewrite !length_write_operand. unfold relocate_operand. repeat case_match; done.
Qed.

Lemma relocate_operands_cons instrs i slots k operand operands :
  imap (fun j => relocate_operand instrs i slots (k + j)) (operand :: operands) =
  relocate_operand instrs i slots k operand ::
  imap (fun j => relocate_operand instrs i slots (S k + j)) operands.
Proof.
  cbn [imap]. rewrite Nat.add_0_r. f_equal. apply imap_ext. intros j x _. simpl. by rewrite Nat.add_succ_r.
Qed.

(** ** The first pass *)

(** Every branch slot holds an immediate. *)
Definition slots_imm (slots : list nat) (k : nat) (operands : list Operand) : Prop :=
  forall j operand, operands !! j = Some operand -> k + j ∈ slots -> kind_of operand = OperandKind.Imm32.

Fixpoint operand_fixups (slots : list nat) (idx : nat) (byte_pc : Z) (k : nat)
    (operands : list Operand) (start : nat) : list JumpFixup :=
  match operands with
  | [] => []
  | operand :: operands =>
      (if bool_decide (k ∈ slots) then [mkFixup idx byte_pc (Z.of_nat start + 1)] else []) ++
      operand_fixups slots idx byte_pc (S k) operands (start + length (write_operand operand))
  end.

Fixpoint function_fixups (idx : nat) (instructions : list Instruction) (start : nat) : list JumpFixup :=
  match instructions with
  | [] => []
  | instr :: instructions =>
      operand_fixups (branch_imm32_operand_slots (ins_op instr)) idx (Z.of_nat start) 0
        (ins_operands instr) (start + 2) ++
      function_fixups (S idx) instructions (start + length (encode_instr instr))
  end.

Lemma slots_imm_tail slots k operand operands :
  slots_imm slots k (operand :: operands) -> slots_imm slots (S k) operands.
Proof. intros H j o Ho Hin. apply (H (S j) o Ho). by rewrite Nat.add_succ_r. Qed.

Lemma write_operands_eq slots idx byte_pc k operands bytes fixups :
  slots_imm slots k operands ->
  (Z.of_nat (length bytes + length (flat_map write_operand operands)) <= u32_max)%Z ->
  write_operands slots idx byte_pc k operands bytes fixups =
  Ok (bytes ++ flat_map write_operand operands,
      fixups ++ operand_fixups slots idx byte_pc k operands (length bytes)).
Proof.
  revert k bytes fixups. induction operands as [|operand operands IH]; intros k bytes fixups Hs Hlen; simpl.
  { by rewrite !app_nil_r. }
  simpl in Hlen. rewrite length_app in Hlen. unfold u32_max in *.
  assert (Hnext : slots_imm slots (S k) operands) by (by eapply slots_imm_tail).
  rewrite Z.mod_small by lia.
  case_bool_decide as Hin.
  - pose proof (Hs 0 operand eq_refl) as Hk. rewrite Nat.add_0_r in Hk. specialize (Hk Hin).
    destruct operand; simpl in Hk; try done. rewrite IH by (done || rewrite length_app; lia).
    by rewrite <- !app_assoc, length_app.
  - rewrite IH by (done || rewrite length_app; lia). by rewrite <- !app_assoc, length_app.
Qed.

(** What the encoder needs of an instruction beyond what it verifies. *)
Definition encodable (instr : Instruction) : Prop :=
  slots_imm (branch_imm32_operand_slots (ins_op instr)) 0 (ins_operands instr) /\
  length (ins_operands instr) <= 255.

Fixpoint starts (start : nat) (instructions : list Instruction) : list Z :=
  match instructions with
  | [] => []
  | instr :: instructions => Z.of_nat start :: starts (start + length (encode_instr instr)) instructions
  end.

Lemma write_all_eq idx instrs bytes pcs fixups :
  Forall encodable instrs ->
  (Z.of_nat (length bytes + length (flat_map encode_instr instrs)) <= u32_max)%Z ->
  write_all idx instrs bytes pcs fixups =
  Ok (bytes ++ flat_map encode_instr instrs, pcs ++ starts (length bytes) instrs,
      fixups ++ function_fixups idx instrs (length bytes)).
Proof.
  intros Hall. revert idx bytes pcs fixups.
  induction Hall as [|instr instrs [Hs Hc] _ IH]; intros idx bytes pcs fixups Hlen;
    cbn [write_all flat_map starts function_fixups].
  { by rewrite !app_nil_r. }
  cbn [flat_map] in Hlen. rewrite length_app in Hlen.
  assert (Hel : length (encode_instr instr) = 2 + length (flat_map write_operand (ins_operands instr))) by done.
  unfold writer_pc. rewrite (proj2 (Z.leb_le _ _)) by lia. simpl.
  unfold write_instruction_capturing_jumps. rewrite op_to_byte_eq, (proj2 (Nat.leb_le _ _) Hc).
  rewrite write_operands_eq by (done || (rewrite length_app; cbn [length]; lia)). cbn [rbind].
  rewrite <- (app_assoc bytes). change ([_; _] ++ flat_map write_operand _) with (encode_instr instr).
  rewrite IH by (rewrite length_app; lia). rewrite !length_app, <- !app_assoc. done.
Qed.

Lemma starts_lookup start instrs i : i < length instrs ->
  starts start instrs !! i = Some (Z.of_nat start + offset instrs i)%Z.
Proof.
  revert start i. induction instrs as [|instr instrs IH]; intros start i Hi; simpl in Hi; [lia|].
  destruct i as [|i]; simpl.
  - f_equal. unfold offset. simpl. lia.
  - cbn [starts]. rewrite IH by lia. f_equal. unfold offset. simpl. rewrite length_app. lia.
Qed.

Lemma length_starts start instrs : length (starts start instrs) = length instrs.
Proof. revert start. induction instrs as [|i l IH]; intros start; simpl; [done|]. by rewrite IH. Qed.

(** ** The second pass *)

Lemma i32_roundtrip imm : (-2147483648 <= imm <= 2147483647)%Z ->
  i32_from_le_bytes (to_le_bytes 4 imm) = imm.
Proof.
  intros H. unfold i32_from_le_bytes. rewrite from_to_le_bytes. by apply u32_i32_roundtrip.
Qed.

Lemma drop_app_length_add {A} (l k : list A) n : drop (length l + n) (l ++ k) = drop n k.
Proof. by rewrite <- drop_drop, drop_app_length. Qed.

Section SecondPass.
Context (instrs : list Instruction).
Local Abbreviation n := (length instrs).
Local Abbreviation pcs := (starts 0 instrs).
Local Abbreviation total := (offset instrs n).

(** The function is smaller than 2 GiB, so every byte delta is an [i32]. *)
Hypothesis small : (total <= 2147483647)%Z.

Lemma offset_mono i j : i <= j -> (0 <= offset instrs i <= offset instrs j)%Z.
Proof.
  intros Hij. unfold offset. split; [lia|]. apply inj_le.
  rewrite <- (take_drop i (take j instrs)), flat_map_app, length_app, take_take, Nat.min_l by lia. lia.
Qed.

Lemma offset_total i : (0 <= offset instrs i <= total)%Z.
Proof.
  destruct (decide (i <= n)) as [Hi|Hi]; [by apply offset_mono|].
  unfold offset. rewrite (take_ge instrs i), (take_ge instrs n) by lia. lia.
Qed.

Definition delta_ok (i : nat) (delta : Z) : Prop :=
  (-2147483648 <= delta <= 2147483647)%Z /\
  (delta = NO_HANDLER_OFFSET \/ 0 <= Z.of_nat i + 1 + delta <= Z.of_nat n)%Z.

Lemma target_pc_lookup (t : nat) : t <= n ->
  (if Nat.eqb t n then Ok total else @index VerifyError Z pcs t) = Ok (offset instrs t).
Proof.
  intros Ht. destruct (Nat.eqb t n) eqn:E; boolprop; [by subst|].
  apply index_Ok. by rewrite starts_lookup by lia.
Qed.

(** Resolving one fixup rewrites the four bytes of its operand. *)
Lemma patch_operand i P Q delta : delta_ok i delta ->
  resolve_jump_fixup (P ++ write_operand (Operand.Imm32 delta) ++ Q)
    (mkFixup i (offset instrs i) (Z.of_nat (length P) + 1)) pcs total n =
  Ok (P ++ write_operand (Operand.Imm32 (relocate_delta instrs i delta)) ++ Q).
Proof using small.
  intros [Hrange Hd]. unfold resolve_jump_fixup. cbn [imm32_byte_offset jump_idx jump_byte_pc].
  replace (Z.to_nat (Z.of_nat (length P) + 1)) with (length (P ++ [OPERAND_KIND_IMM32]))
    by (rewrite length_app; simpl; lia).
  set (P' := P ++ [OPERAND_KIND_IMM32]).
  assert (Himg : forall d, P ++ write_operand (Operand.Imm32 d) ++ Q = P' ++ to_le_bytes 4 d ++ Q)
    by (intros d; unfold P'; by rewrite <- app_assoc).
  rewrite !Himg. rewrite drop_app_length.
  rewrite (take_app_length' (to_le_bytes 4 delta)) by (by rewrite length_to_le_bytes).
  rewrite i32_roundtrip by done.
  rewrite (proj2 (Nat.ltb_ge _ _)) by (rewrite !length_app, length_to_le_bytes; lia).
  unfold relocate_delta. destruct (delta =? NO_HANDLER_OFFSET)%Z eqn:E; boolprop; [done|].
  destruct Hd as [Hd|Hd]; [done|].
  rewrite (proj2 (Z.ltb_ge _ _)) by lia. rewrite target_pc_lookup by lia. cbn [rbind].
  pose proof (offset_total i). pose proof (offset_total (Z.to_nat (Z.of_nat i + 1 + delta))).
  rewrite (proj2 (in_range_spec _ _ _)) by lia.
  rewrite take_app_length, drop_app_length_add.
  by rewrite (drop_app_length' (to_le_bytes 4 delta)) by (by rewrite length_to_le_bytes).
Qed.

(** The branch operands of an instruction are valid deltas. *)
Definition deltas_ok (i : nat) (slots : list nat) (k : nat) (operands : list Operand) : Prop :=
  forall j operand, operands !! j = Some operand -> k + j ∈ slots ->
  exists delta, operand = Operand.Imm32 delta /\ delta_ok i delta.

Lemma patch_operands i slots k operands P Q F :
  deltas_ok i slots k operands ->
  resolve_fixups (P ++ flat_map write_operand operands ++ Q)
    (operand_fixups slots i (offset instrs i) k operands (length P) ++ F) pcs total n =
  resolve_fixups (P ++ flat_map write_operand
      (imap (fun j => relocate_operand instrs i slots (k + j)) operands) ++ Q) F pcs total n.
Proof using small.
  revert k P. induction operands as [|operand operands IH]; intros k P Hd; [done|].
  rewrite relocate_operands_cons. cbn [flat_map operand_fixups]. rewrite <- !app_assoc.
  assert (Hd' : deltas_ok i slots (S k) operands).
  { intros j o Ho Hin. apply (Hd (S j) o Ho). by rewrite Nat.add_succ_r. }
  assert (Hrest : forall o, length (write_operand o) = length (write_operand operand) ->
    resolve_fixups (P ++ write_operand o ++ flat_map write_operand operands ++ Q)
      (operand_fixups slots i (offset instrs i) (S k) operands (length P + length (write_operand operand)) ++ F)
      pcs total n =
    resolve_fixups (P ++ write_operand o ++ flat_map write_operand
      (imap (fun j => relocate_operand instrs i slots (S k + j)) operands) ++ Q) F pcs total n).
  { intros o Ho. rewrite <- Ho, <- length_app, !(app_assoc P). by apply IH. }
  case_bool_decide as Hin.
  - destruct (Hd 0 operand eq_refl) as (delta & -> & Hdelta); [by rewrite Nat.add_0_r|].
    cbn [app resolve_fixups]. rewrite patch_operand by done. cbn [rbind]. rewrite Hrest by done.
    unfold relocate_operand. by rewrite (bool_decide_true (k ∈ slots)).
  - cbn [app]. rewrite Hrest by done. unfold relocate_operand.
    destruct operand; try done. by rewrite (bool_decide_false (k ∈ slots)).
Qed.

Definition instr_deltas_ok (i : nat) (instr : Instruction) : Prop :=
  deltas_ok i (branch_imm32_operand_slots (ins_op instr)) 0 (ins_operands instr).

Lemma length_flat_map_ext {A} (f g : A -> list Z) l :
  Forall (fun x => length (f x) = length (g x)) l -> length (flat_map f l) = length (flat_map g l).
Proof. induction 1 as [|x l Hx _ IH]; simpl; [done|]. by rewrite !length_app, Hx, IH. Qed.

Lemma imap_flat_map_length {A} (f : nat -> A -> A) (g : A -> list Z) l :
  (forall i x, length (g (f i x)) = length (g x)) -> length (flat_map g (imap f l)) = length (flat_map g l).
Proof.
  intros H. revert f H. induction l as [|x l IH]; intros f H; simpl; [done|].
  rewrite !length_app, H, (IH (f ∘ S)); [done|]. intros i y. apply H.
Qed.

Lemma relocated_instr_length i instr :
  length (encode_instr (mkInstr (offset instrs i) (ins_op instr)
    (relocate_operands instrs i (ins_op instr) (ins_operands instr)))) = length (encode_instr instr).
Proof.
  unfold encode_instr, relocate_operands. simpl. do 2 f_equal. apply imap_flat_map_length.
  intros k o. apply relocate_operand_len.
Qed.

Definition relocate_from (i : nat) (l : list Instruction) : list Instruction :=
  imap (fun j instr => mkInstr (offset instrs (i + j)) (ins_op instr)
    (relocate_operands instrs (i + j) (ins_op instr) (ins_operands instr))) l.

Lemma relocate_from_cons i instr l : relocate_from i (instr :: l) =
  mkInstr (offset instrs i) (ins_op instr) (relocate_operands instrs i (ins_op instr) (ins_operands instr)) ::
  relocate_from (S i) l.
Proof.
  unfold relocate_from. cbn [imap]. rewrite Nat.add_0_r. f_equal. apply imap_ext.
  intros j x _. simpl. by rewrite !Nat.add_succ_r.
Qed.

Lemma patch_all pre rest B : instrs = pre ++ rest -> length B = length (flat_map encode_instr pre) ->
  (forall j instr, rest !! j = Some instr -> instr_deltas_ok (length pre + j) instr) ->
  resolve_fixups (B ++ flat_map encode_instr rest) (function_fixups (length pre) rest (length B)) pcs total n =
  Ok (B ++ flat_map encode_instr (relocate_from (length pre) rest)).
Proof using small.
  revert pre B. induction rest as [|instr rest IH]; intros pre B Heq HB Hd; [done|].
  rewrite relocate_from_cons. cbn [flat_map function_fixups].
  assert (Hoff : offset instrs (length pre) = Z.of_nat (length B)).
  { unfold offset. by rewrite Heq, take_app_length, HB. }
  set (header := [op_byte (ins_op instr); Z.of_nat (length (ins_operands instr))]).
  assert (Himg : forall ops, length ops = length (ins_operands instr) ->
    encode_instr (mkInstr (offset instrs (length pre)) (ins_op instr) ops) = header ++ flat_map write_operand ops).
  { intros ops Hops. unfold encode_instr. simpl. by rewrite Hops. }
  assert (Himg' : encode_instr instr = header ++ flat_map write_operand (ins_operands instr)) by done.
  rewrite Himg'. rewrite <- app_assoc, app_assoc.
  replace (length B + 2) with (length (B ++ header)) by (rewrite length_app; simpl; lia).
  rewrite <- Hoff, patch_operands.
  2: { intros j o Ho Hin. specialize (Hd 0 instr eq_refl j o Ho Hin). by rewrite Nat.add_0_r in Hd. }
  rewrite Himg by (unfold relocate_operands; by rewrite length_imap).
  rewrite <- (app_assoc header), (app_assoc B header), !(app_assoc (B ++ header)).
  change (imap _ (ins_operands instr)) with
    (relocate_operands instrs (length pre) (ins_op instr) (ins_operands instr)).
  set (B' := (B ++ header) ++ flat_map write_operand (relocate_operands _ _ _ _)).
  assert (HB' : length B' = length B + length (header ++ flat_map write_operand (ins_operands instr))).
  { unfold B', relocate_operands. rewrite !length_app, imap_flat_map_length; [lia|].
    intros k o. apply relocate_operand_len. }
  rewrite <- HB'. replace (S (length pre)) with (length (pre ++ [instr])) by (rewrite length_app; simpl; lia).
  apply IH.
  - by rewrite <- app_assoc.
  - rewrite HB', <- Himg', HB, flat_map_app, length_app. simpl. by rewrite app_nil_r.
  - intros j x Hx. rewrite length_app, <- Nat.add_assoc. by apply Hd.
Qed.
End SecondPass.

Lemma relocate_from_0 instrs : relocate_from instrs 0 instrs = relocated instrs.
Proof. done. Qed.

(** ** Encoding *)

Definition function_bytes (instrs : list Instruction) : Z := offset instrs (length instrs).

(** The encoder of a function whose branch operands are valid. *)
Lemma encode_passes instrs : (function_bytes instrs <= 2147483647)%Z ->
  Forall encodable instrs -> (forall i instr, instrs !! i = Some instr -> instr_deltas_ok instrs i instr) ->
  verify_logical_function instrs = Ok tt ->
  try_encode_function instrs = Ok (mkEncoded (flat_map encode_instr (relocated instrs)) (starts 0 instrs)).
Proof.
  intros Hsmall Henc Hd Hv. unfold try_encode_function. rewrite Hv. cbn [rbind].
  assert (Hfb : function_bytes instrs = Z.of_nat (length (flat_map encode_instr instrs))).
  { unfold function_bytes, offset. by rewrite firstn_all. }
  rewrite write_all_eq by (done || (unfold u32_max; simpl; lia)). cbn [rbind app length].
  unfold writer_pc. rewrite (proj2 (Z.leb_le _ _)) by (unfold u32_max; lia). cbn [rbind].
  rewrite <- Hfb. pose proof (patch_all instrs Hsmall [] instrs [] eq_refl eq_refl Hd) as Hp.
  cbn [app length] in Hp. unfold function_bytes. rewrite Hp. done.
Qed.

(** ** What verification establishes *)

(** The two tables that know about branches agree: a slot the encoder rewrites is
    a target the schema declares, and a declared target is a rewritten slot; the
    handler floor is not one. *)
Definition slot_declared (op : Op) (k : nat) : bool :=
  existsb (fun s => match s with Successor.RelativeTarget k' _ => Nat.eqb k k' | _ => false end)
    (schema_successors op) ||
  existsb (fun s => match s with
                    | Successor.OptionalRelativeTarget k' _ absent => Nat.eqb k k' && (absent =? NO_HANDLER_OFFSET)%Z
                    | _ => false
                    end) (schema_exception_successors op).

Definition branch_tables_agree (op : Op) : bool :=
  forallb (slot_declared op) (branch_imm32_operand_slots op) &&
  forallb (fun s => match s with
                    | Successor.RelativeTarget k _ => bool_decide (k ∈ branch_imm32_operand_slots op)
                    | _ => true
                    end) (schema_successors op) &&
  forallb (fun s => match s with
                    | Successor.OptionalRelativeTarget k _ absent =>
                        bool_decide (k ∈ branch_imm32_operand_slots op) && (absent =? NO_HANDLER_OFFSET)%Z
                    | Successor.RunFinallyHandlersToFloor k => bool_decide (k ∉ branch_imm32_operand_slots op)
                    | _ => true
                    end) (schema_exception_successors op).

Lemma branch_tables op : branch_tables_agree op = true.
Proof. destruct op; vm_compute; reflexivity. Qed.

#[global] Opaque schema_successors schema_exception_successors schema_operand_shape.

Lemma logical_target_Ok instrs i instr k absent len :
  instrs !! i = Some instr -> verify_logical_target instrs i k absent len = Ok tt ->
  exists delta, ins_operands instr !! k = Some (Operand.Imm32 delta) /\
    (absent = Some delta \/ 0 <= Z.of_nat i + 1 + delta <= len)%Z.
Proof.
  intros Hi H. unfold verify_logical_target in H. inv_bind H.
  apply index_Ok in Hbind. simplify_eq. destruct (ins_operands instr !! k) as [[| |delta]|]; try done.
  exists delta. split; [done|]. case_bool_decide; [by left|]. case_match eqn:E; [|done].
  right. by apply in_range_spec.
Qed.

Lemma verified_slot instrs i instr k :
  instrs !! i = Some instr -> verify_logical_instruction instrs i instr = Ok tt ->
  k ∈ branch_imm32_operand_slots (ins_op instr) ->
  exists delta, ins_operands instr !! k = Some (Operand.Imm32 delta) /\
    (delta = NO_HANDLER_OFFSET \/ 0 <= Z.of_nat i + 1 + delta <= Z.of_nat (length instrs))%Z.
Proof.
  intros Hi Hv Hk. pose proof (branch_tables (ins_op instr)) as Ht. unfold branch_tables_agree in Ht.
  apply andb_prop in Ht as [Ht _]. apply andb_prop in Ht as [Ht _].
  rewrite forallb_forall in Ht. specialize (Ht k (proj1 (list_elem_of_In _ _) Hk)).
  unfold verify_logical_instruction in Hv. inv_bind Hv. inv_bind Hv. destruct a0.
  rewrite for_each_Ok, Forall_forall in Hbind0. rewrite for_each_Ok, Forall_forall in Hv.
  apply orb_true_iff in Ht as [Ht|Ht]; apply existsb_exists in Ht as (s & Hs & Hm);
    apply list_elem_of_In in Hs.
  - specialize (Hbind0 s Hs). destruct s as [|k' b|]; try done. apply Nat.eqb_eq in Hm as <-. simpl in Hbind0.
    destruct (logical_target_Ok _ _ _ _ _ _ Hi Hbind0) as (delta & Hop & [?|?]); [done|]. eauto.
  - specialize (Hv s Hs). destruct s as [k' b absent| | |]; try done. boolprop. subst. simpl in Hv.
    destruct (logical_target_Ok _ _ _ _ _ _ Hi Hv) as (delta & Hop & [?|?]); [|eauto].
    simplify_eq. eauto.
Qed.

Lemma verified_instruction instrs i instr :
  verify_logical_function instrs = Ok tt -> instrs !! i = Some instr ->
  verify_logical_instruction instrs i instr = Ok tt.
Proof. intros Hv Hi. apply (proj1 (for_each_i_Ok _ _ _) Hv i instr Hi). Qed.

(** A function the encoder takes: operands of their machine types, at most 255 per
    instruction, at most 2 GiB of code. *)
Record encodable_function (instrs : list Instruction) : Prop := {
  fn_operands : Forall (fun instr => Forall operand_ok (ins_operands instr)) instrs;
  fn_counts : Forall (fun instr => length (ins_operands instr) <= 255) instrs;
  fn_small : (function_bytes instrs <= 2147483647)%Z;
}.

Lemma verified_deltas instrs i instr : encodable_function instrs ->
  verify_logical_function instrs = Ok tt -> instrs !! i = Some instr -> instr_deltas_ok instrs i instr.
Proof.
  intros Hf Hv Hi j o Ho Hin. simpl in Hin.
  destruct (verified_slot instrs i instr j Hi (verified_instruction _ _ _ Hv Hi) Hin) as (delta & Hop & Hd).
  simplify_eq. exists delta. split; [done|]. split; [|done].
  pose proof (Forall_lookup_1 _ _ _ _ (fn_operands _ Hf) Hi) as Hops.
  by apply (Forall_lookup_1 _ _ _ _ Hops Ho).
Qed.

Lemma verified_encodable instrs : encodable_function instrs ->
  verify_logical_function instrs = Ok tt -> Forall encodable instrs.
Proof.
  intros Hf Hv. apply Forall_lookup. intros i instr Hi. split.
  - intros j o Ho Hin. destruct (verified_deltas _ _ _ Hf Hv Hi j o Ho Hin) as (delta & -> & _). done.
  - apply (Forall_lookup_1 _ _ _ _ (fn_counts _ Hf) Hi).
Qed.

Lemma encodes instrs : encodable_function instrs -> verify_logical_function instrs = Ok tt ->
  try_encode_function instrs = Ok (mkEncoded (flat_map encode_instr (relocated instrs)) (starts 0 instrs)).
Proof.
  intros Hf Hv. apply encode_passes; [apply Hf|by apply verified_encodable| |done].
  intros i instr Hi. by apply verified_deltas.
Qed.

(** ** The decoder on byte images *)

Lemma lookup_app_at {A} (P Q : list A) x : (P ++ x :: Q) !! length P = Some x.
Proof. by rewrite lookup_app_r, Nat.sub_diag by lia. Qed.

Lemma take_n_image n P l Q : length l = n -> take_n n (P ++ l ++ Q) (length P) = Ok l.
Proof.
  intros Hl. unfold take_n. rewrite (proj2 (Nat.leb_le _ _)) by (rewrite !length_app; lia).
  by rewrite drop_app_length, take_app_length'.
Qed.

Lemma decode_operand_image P operand Q : operand_ok operand ->
  decode_operand (P ++ write_operand operand ++ Q) (length P) =
  Ok (operand, length P + length (write_operand operand)).
Proof.
  intros Hok. unfold decode_operand.
  assert (Htag : forall tag payload k, length payload = k ->
    take_n k (P ++ (tag :: payload) ++ Q) (length P + 1) = Ok payload).
  { intros tag payload k Hk. change ((tag :: payload) ++ Q) with ([tag] ++ payload ++ Q).
    rewrite app_assoc. replace (length P + 1) with (length (P ++ [tag])) by (rewrite length_app; simpl; lia).
    by apply take_n_image. }
  destruct operand as [reg|idx|imm]; cbn [write_operand app]; rewrite lookup_app_at;
    simpl Z.eqb; cbn iota; change (?t :: to_le_bytes ?k ?x ++ Q) with ((t :: to_le_bytes k x) ++ Q);
    (rewrite Htag by apply length_to_le_bytes); cbn [rbind]; simpl in Hok; unfold u32_max in Hok.
  - by rewrite from_to_le_bytes, Z.mod_small by (simpl; lia).
  - by rewrite from_to_le_bytes, Z.mod_small by (simpl; lia).
  - by rewrite i32_roundtrip.
Qed.

Lemma decode_operands_image P operands Q acc : Forall operand_ok operands ->
  decode_operands (length operands) (P ++ flat_map write_operand operands ++ Q) (length P) acc =
  Ok (acc ++ operands, length P + length (flat_map write_operand operands)).
Proof.
  intros Hok. revert P acc. induction Hok as [|operand operands Ho _ IH]; intros P acc; simpl.
  { by rewrite app_nil_r, Nat.add_0_r. }
  rewrite <- app_assoc, decode_operand_image by done. cbn [rbind].
  rewrite <- length_app, app_assoc, IH, <- app_assoc, !length_app. do 2 f_equal. lia.
Qed.

(** An instruction the decoder takes: operands of their machine types and of the
    declared shape. *)
Definition decodable (instr : Instruction) : Prop :=
  Forall operand_ok (ins_operands instr) /\ shape_ok (ins_op instr) (ins_operands instr).

Lemma decode_instruction_image P instr Q : decodable instr -> (Z.of_nat (length P) <= u32_max)%Z ->
  decode_instruction (P ++ encode_instr instr ++ Q) (length P) =
  Ok (mkInstr (Z.of_nat (length P)) (ins_op instr) (ins_operands instr), length P + length (encode_instr instr)).
Proof.
  intros [Hok Hshape] HP. unfold decode_instruction, encode_instr. cbn [app].
  rewrite lookup_app_at, op_from_byte_eq.
  set (cnt := Z.of_nat (length (ins_operands instr))). set (ob := op_byte (ins_op instr)).
  assert (H1 : (P ++ ob :: cnt :: flat_map write_operand (ins_operands instr) ++ Q) !! (length P + 1) = Some cnt).
  { rewrite lookup_app_r by lia. by replace (length P + 1 - length P) with 1 by lia. }
  rewrite H1. unfold cnt at 1. rewrite Nat2Z.id.
  change (ob :: cnt :: ?l ++ Q) with ([ob; cnt] ++ l ++ Q). rewrite app_assoc.
  replace (length P + 2) with (length (P ++ [ob; cnt])) by (rewrite length_app; simpl; lia).
  rewrite decode_operands_image by done. cbn [rbind app].
  rewrite (proj2 (Z.ltb_ge _ _)) by done.
  rewrite (proj2 (verify_operand_shape_Ok _ _ Hok)) by done. cbn [map_err rbind].
  rewrite length_app. cbn [length]. do 2 f_equal. lia.
Qed.

Fixpoint stamp (start : nat) (l : list Instruction) : list Instruction :=
  match l with
  | [] => []
  | instr :: l =>
      mkInstr (Z.of_nat start) (ins_op instr) (ins_operands instr) ::
      stamp (start + length (encode_instr instr)) l
  end.

Lemma decode_loop_image fuel P l out : length l <= fuel -> Forall decodable l ->
  (Z.of_nat (length P + length (flat_map encode_instr l)) <= u32_max)%Z ->
  decode_loop fuel (P ++ flat_map encode_instr l) (length P) out = Ok (out ++ stamp (length P) l).
Proof.
  intros Hf Hd. revert fuel P out Hf. induction Hd as [|instr l Hi _ IH]; intros fuel P out Hf HP.
  { simpl. rewrite app_nil_r. destruct fuel; simpl; by rewrite Nat.ltb_irrefl, app_nil_r. }
  cbn [flat_map stamp] in *. rewrite length_app in HP. destruct fuel as [|fuel]; simpl in Hf; [lia|].
  cbn [decode_loop].
  assert (Hpos : 2 <= length (encode_instr instr)) by (unfold encode_instr; simpl; lia).
  rewrite (proj2 (Nat.ltb_lt _ _)) by (rewrite !length_app; lia).
  rewrite decode_instruction_image by (done || lia). cbn [rbind].
  rewrite <- length_app, app_assoc, IH by (lia || (rewrite !length_app; lia)).
  by rewrite <- app_assoc.
Qed.

(** ** Decoding what was encoded *)

Lemma relocate_operand_kind instrs i slots k operand :
  kind_of (relocate_operand instrs i slots k operand) = kind_of operand.
Proof. unfold relocate_operand. repeat case_match; done. Qed.

Lemma relocate_operands_lookup instrs i op operands k :
  relocate_operands instrs i op operands !! k =
  relocate_operand instrs i (branch_imm32_operand_slots op) k <$> operands !! k.
Proof. apply list_lookup_imap. Qed.

Lemma relocate_operands_shape instrs i op operands :
  shape_ok op operands -> shape_ok op (relocate_operands instrs i op operands).
Proof.
  unfold shape_ok. intros H.
  assert (Hk : map kind_of (relocate_operands instrs i op operands) = map kind_of operands).
  { apply list_eq. intros k. rewrite !map_lookup, relocate_operands_lookup.
    destruct (operands !! k); simpl; [|done]. by rewrite relocate_operand_kind. }
  rewrite Hk, H. destruct (operand_shape op) as [|prefix count tail]; simpl; [done|].
  rewrite relocate_operands_lookup. destruct (operands !! count) as [[]|]; simpl; try done.
  by case_bool_decide.
Qed.

Lemma relocate_delta_ok instrs i delta : (function_bytes instrs <= 2147483647)%Z ->
  (-2147483648 <= delta <= 2147483647)%Z -> (-2147483648 <= relocate_delta instrs i delta <= 2147483647)%Z.
Proof.
  intros Hs Hd. unfold relocate_delta. case_match; [done|]. unfold function_bytes in Hs.
  pose proof (offset_total instrs i). pose proof (offset_total instrs (Z.to_nat (Z.of_nat i + 1 + delta))). lia.
Qed.

Lemma verified_shape instrs i instr : encodable_function instrs -> verify_logical_function instrs = Ok tt ->
  instrs !! i = Some instr -> shape_ok (ins_op instr) (ins_operands instr).
Proof.
  intros Hf Hv Hi. pose proof (verified_instruction _ _ _ Hv Hi) as H. unfold verify_logical_instruction in H.
  inv_bind H. destruct a. apply map_err_Ok in Hbind. apply verify_operand_shape_Ok in Hbind; [done|].
  apply (Forall_lookup_1 _ _ _ _ (fn_operands _ Hf) Hi).
Qed.

Lemma relocated_lookup instrs i instr : relocated instrs !! i = Some instr <->
  exists orig, instrs !! i = Some orig /\ instr = mkInstr (offset instrs i) (ins_op orig)
    (relocate_operands instrs i (ins_op orig) (ins_operands orig)).
Proof.
  unfold relocated. rewrite list_lookup_imap. destruct (instrs !! i); simpl; split.
  - intros. simplify_eq. eauto.
  - intros (? & ? & ->). by simplify_eq.
  - done.
  - by intros (? & ? & _).
Qed.

Lemma relocated_decodable instrs : encodable_function instrs -> verify_logical_function instrs = Ok tt ->
  Forall decodable (relocated instrs).
Proof.
  intros Hf Hv. apply Forall_lookup. intros i x (orig & Hi & ->)%relocated_lookup. split; simpl.
  - apply Forall_lookup. intros k o. rewrite relocate_operands_lookup.
    destruct (ins_operands orig !! k) as [o'|] eqn:Eo; simpl; [|done]. intros [= <-].
    pose proof (Forall_lookup_1 _ _ _ _ (fn_operands _ Hf) Hi) as Hops.
    pose proof (Forall_lookup_1 _ _ _ _ Hops Eo) as Ho. unfold relocate_operand.
    destruct o'; try done. case_bool_decide; [|done]. apply relocate_delta_ok; [apply Hf|done].
  - by apply relocate_operands_shape, (verified_shape instrs i).
Qed.

Lemma relocated_bytes instrs k :
  length (flat_map encode_instr (take k (relocated instrs))) = length (flat_map encode_instr (take k instrs)).
Proof.
  rewrite <- relocate_from_0. generalize instrs at 2 3 as l. intros l. generalize 0 as i. revert l k.
  induction l as [|instr l IH]; intros k i; [done|]. rewrite relocate_from_cons.
  destruct k as [|k]; [done|]. cbn [firstn flat_map]. by rewrite !length_app, relocated_instr_length, IH.
Qed.

Lemma stamp_lookup start l i : stamp start l !! i =
  (fun instr => mkInstr (Z.of_nat start + offset l i) (ins_op instr) (ins_operands instr)) <$> l !! i.
Proof.
  revert start i. induction l as [|instr l IH]; intros start i; [done|]. destruct i as [|i]; simpl.
  - unfold offset. simpl. by rewrite Z.add_0_r.
  - rewrite IH. destruct (l !! i); simpl; [|done]. do 2 f_equal. unfold offset. simpl. rewrite length_app. lia.
Qed.

Lemma stamp_relocated instrs : stamp 0 (relocated instrs) = relocated instrs.
Proof.
  apply list_eq. intros i. rewrite stamp_lookup. destruct (relocated instrs !! i) as [x|] eqn:Ex; simpl; [|done].
  apply relocated_lookup in Ex as (orig & Hi & ->). simpl. do 2 f_equal.
  unfold offset. by rewrite relocated_bytes.
Qed.

Lemma offset_step instrs i instr : instrs !! i = Some instr ->
  offset instrs (S i) = (offset instrs i + Z.of_nat (length (encode_instr instr)))%Z.
Proof.
  intros Hi. unfold offset. rewrite (take_S_r _ _ _ Hi), flat_map_app, length_app. simpl. rewrite app_nil_r. lia.
Qed.

Lemma offset_strict instrs i j : i < j -> j <= length instrs -> (offset instrs i < offset instrs j)%Z.
Proof.
  intros Hij Hj. destruct (lookup_lt_is_Some_2 instrs i) as [instr Hi]; [lia|].
  pose proof (offset_mono instrs (S i) j ltac:(lia)). rewrite (offset_step _ _ _ Hi) in H.
  assert (2 <= length (encode_instr instr)) by (unfold encode_instr; simpl; lia). lia.
Qed.

Lemma boundary_lookup instrs i : i < length instrs -> map ins_pc (relocated instrs) !! i = Some (offset instrs i).
Proof.
  intros Hi. rewrite map_lookup. unfold relocated. rewrite list_lookup_imap.
  destruct (lookup_lt_is_Some_2 instrs i Hi) as [x ->]. done.
Qed.

Lemma boundary_found instrs i : i < length instrs ->
  binary_search_is_ok (fun pc => Z.compare pc (offset instrs i)) (map ins_pc (relocated instrs)) = true.
Proof.
  intros Hi.
  assert (Hbl : forall a x, map ins_pc (relocated instrs) !! a = Some x ->
    a < length instrs /\ x = offset instrs a).
  { intros a x Ha. assert (Hlt : a < length instrs).
    { apply lookup_lt_Some in Ha. unfold relocated in Ha. by rewrite length_map, length_imap in Ha. }
    rewrite boundary_lookup in Ha by done. by simplify_eq. }
  apply binary_search_correct.
  - intros a b x y Ha Hb Hab Hc. apply Hbl in Ha as [? ->], Hb as [? ->].
    rewrite Z.compare_gt_iff in *. pose proof (offset_mono instrs a b Hab). lia.
  - intros a b x y Ha Hb Hab Hc. apply Hbl in Ha as [? ->], Hb as [? ->].
    rewrite Z.compare_lt_iff in *. pose proof (offset_strict instrs a b Hab ltac:(lia)). lia.
  - exists i, (offset instrs i). split; [by apply boundary_lookup|]. apply Z.compare_refl.
Qed.

(** A verified logical target becomes a byte target the decoder accepts. *)
Lemma target_accepted instrs i instr k absent : encodable_function instrs -> instrs !! i = Some instr ->
  k ∈ branch_imm32_operand_slots (ins_op instr) ->
  verify_logical_target instrs i k absent (Z.of_nat (length instrs)) = Ok tt ->
  (absent = None \/ absent = Some NO_HANDLER_OFFSET) ->
  verify_relative_target (mkInstr (offset instrs i) (ins_op instr)
      (relocate_operands instrs i (ins_op instr) (ins_operands instr))) k AfterOpcode absent
    (map ins_pc (relocated instrs)) (length (flat_map encode_instr instrs)) = Ok tt.
Proof.
  intros Hf Hi Hk Hv Habs. destruct (logical_target_Ok _ _ _ _ _ _ Hi Hv) as (delta & Hop & Hd).
  pose proof (fn_small _ Hf) as Hsmall. unfold function_bytes in Hsmall.
  pose proof (lookup_lt_Some _ _ _ Hi) as Hlt.
  unfold verify_relative_target. cbn [ins_operands ins_pc]. rewrite relocate_operands_lookup, Hop. simpl.
  rewrite (bool_decide_true _ Hk). unfold relocate_delta.
  assert (Hn : (Z.of_nat (length instrs) <= offset instrs (length instrs))%Z).
  { clear. unfold offset. rewrite firstn_all. apply inj_le. induction instrs as [|x l IH]; simpl; [lia|].
    rewrite length_app. assert (2 <= length (encode_instr x)) by (unfold encode_instr; simpl; lia). lia. }
  destruct (delta =? NO_HANDLER_OFFSET)%Z eqn:E; boolprop.
  { subst. rewrite bool_decide_true; [done|]. destruct Habs as [->|]; [|done].
    destruct Hd as [?|Hd]; [done|]. unfold NO_HANDLER_OFFSET in Hd. lia. }
  case_bool_decide; [done|]. destruct Hd as [Hd|Hd]; [destruct Habs; simplify_eq|].
  set (t := Z.to_nat (Z.of_nat i + 1 + delta)).
  replace (offset instrs i + 1 + (offset instrs t - (offset instrs i + 1)))%Z with (offset instrs t) by lia.
  assert (Htot : Z.of_nat (length (flat_map encode_instr instrs)) = offset instrs (length instrs)).
  { unfold offset. by rewrite firstn_all. }
  rewrite Htot. pose proof (offset_total instrs t).
  destruct (decide (t = length instrs)) as [->|Hne]; [by rewrite Z.eqb_refl|].
  assert (Ht : t < length instrs) by (unfold t in *; lia).
  pose proof (offset_strict instrs t (length instrs) Ht ltac:(lia)).
  rewrite Z.mod_small by lia. rewrite boundary_found by done.
  rewrite (proj2 (Z.leb_le _ _)), (proj2 (Z.ltb_lt (offset instrs t) _)) by lia. by rewrite orb_true_r.
Qed.

Lemma relocate_operand_other instrs i op operands k : k ∉ branch_imm32_operand_slots op ->
  relocate_operands instrs i op operands !! k = operands !! k.
Proof.
  intros Hk. rewrite relocate_operands_lookup. destruct (operands !! k) as [[]|]; simpl; try done.
  by rewrite bool_decide_false.
Qed.

Lemma control_flow_accepted instrs i instr : encodable_function instrs ->
  verify_logical_function instrs = Ok tt -> instrs !! i = Some instr ->
  verify_control_flow_instruction (map ins_pc (relocated instrs)) (length (flat_map encode_instr instrs))
    (mkInstr (offset instrs i) (ins_op instr)
       (relocate_operands instrs i (ins_op instr) (ins_operands instr))) = Ok tt.
Proof.
  intros Hf Hv Hi. pose proof (verified_instruction _ _ _ Hv Hi) as H. unfold verify_logical_instruction in H.
  inv_bind H. inv_bind H. destruct a0. clear Hbind a.
  pose proof (branch_tables (ins_op instr)) as Ht. unfold branch_tables_agree in Ht.
  apply andb_prop in Ht as [Ht Hexc]. apply andb_prop in Ht as [_ Hnorm]. rewrite forallb_forall in Hexc, Hnorm.
  rewrite for_each_Ok, Forall_forall in Hbind0. rewrite for_each_Ok, Forall_forall in H.
  unfold verify_control_flow_instruction. cbn [ins_op ins_operands].
  rewrite (proj2 (for_each_Ok _ _)); [cbn [rbind]; apply for_each_Ok|]; apply Forall_forall; intros s Hs.
  - specialize (H s Hs). specialize (Hexc s (proj1 (list_elem_of_In _ _) Hs)).
    destruct s as [k [] absent| | |k]; try done.
    + boolprop. subst. apply target_accepted; try done; [by eapply bool_decide_eq_true|by right].
    + apply bool_decide_eq_true in Hexc. rewrite relocate_operand_other by done.
      destruct (ins_operands instr !! k) as [[]|]; try done. by case_match.
  - specialize (Hbind0 s Hs). specialize (Hnorm s (proj1 (list_elem_of_In _ _) Hs)).
    destruct s as [|k []|]; try done. apply bool_decide_eq_true in Hnorm. apply target_accepted; try done. by left.
Qed.

(** ** The layout pass *)

Lemma measure_operands_eq b operands :
  (b + Z.of_nat (length (flat_map write_operand operands)) <= u32_max)%Z ->
  measure_operands b operands = Ok (b + Z.of_nat (length (flat_map write_operand operands)))%Z.
Proof.
  revert b. induction operands as [|o operands IH]; intros b Hb; cbn [measure_operands flat_map length] in *.
  { by rewrite Z.add_0_r. }
  rewrite length_app, Nat2Z.inj_add, length_write_operand in *.
  unfold add_or_too_large, u32_checked. rewrite (proj2 (Z.leb_le _ _)) by lia. cbn [rbind].
  rewrite IH by lia. f_equal. lia.
Qed.

Lemma layout_loop_eq start pcs l : (Z.of_nat (start + length (flat_map encode_instr l)) <= u32_max)%Z ->
  layout_loop (Z.of_nat start) pcs l =
  Ok (mkLayout (Z.of_nat (start + length (flat_map encode_instr l))) (pcs ++ starts start l)).
Proof.
  revert start pcs. induction l as [|instr l IH]; intros start pcs Hl; cbn [layout_loop flat_map starts length] in *.
  { by rewrite Nat.add_0_r, app_nil_r. }
  rewrite length_app in *.
  assert (Hel : length (encode_instr instr) = 2 + length (flat_map write_operand (ins_operands instr))) by done.
  rewrite measure_operands_eq by lia. cbn [rbind].
  unfold add_or_too_large, u32_checked. rewrite (proj2 (Z.leb_le _ _)) by lia. cbn [rbind].
  replace (Z.of_nat start + _)%Z with (Z.of_nat (start + length (encode_instr instr))) by lia.
  rewrite IH by lia. rewrite <- app_assoc, Nat.add_assoc. done.
Qed.

Lemma starts_relocated instrs : starts 0 instrs = map ins_pc (relocated instrs).
Proof.
  apply list_eq. intros i. destruct (decide (i < length instrs)) as [Hi|Hi].
  - by rewrite boundary_lookup, starts_lookup by done.
  - rewrite !lookup_ge_None_2; [done| |].
    + rewrite length_map. unfold relocated. rewrite length_imap. lia.
    + rewrite length_starts. lia.
Qed.

(** ** The round trip *)

(** C3: encoding a verified function and decoding its bytes gives back every
    instruction at its byte offset with the same opcode and operands, each branch
    operand turned into the byte distance to the instruction its logical delta
    named; the decoder accepts every target, and the offsets are those of the
    layout pass. *)
Theorem encode_decode_roundtrip (instrs : list Instruction) :
  encodable_function instrs -> verify_logical_function instrs = Ok tt ->
  exists enc, try_encode_function instrs = Ok enc /\
    decode_function (enc_code enc) = Ok (relocated instrs) /\
    enc_instr_to_byte_pc enc = map ins_pc (relocated instrs) /\
    layout_function instrs = Ok (mkLayout (Z.of_nat (length (enc_code enc))) (enc_instr_to_byte_pc enc)).
Proof.
  intros Hf Hv. eexists. split; [by apply encodes|]. cbn [enc_code enc_instr_to_byte_pc].
  pose proof (fn_small _ Hf) as Hsmall. unfold function_bytes, offset in Hsmall. rewrite firstn_all in Hsmall.
  assert (Hlen : length (flat_map encode_instr (relocated instrs)) = length (flat_map encode_instr instrs)).
  { pose proof (relocated_bytes instrs (length instrs)) as H. rewrite firstn_all in H.
    rewrite take_ge in H; [done|]. unfold relocated. by rewrite length_imap. }
  split; [|split; [apply starts_relocated|]].
  - unfold decode_function. rewrite Hlen.
    pose proof (decode_loop_image (length (flat_map encode_instr instrs) + 1) [] (relocated instrs) []) as Hd.
    cbn [app length] in Hd. rewrite Hd; [| |by apply relocated_decodable|unfold u32_max; lia].
    2: { unfold relocated. rewrite length_imap. clear. induction instrs as [|x l IH]; simpl; [lia|].
         assert (2 <= length (encode_instr x)) by (unfold encode_instr; simpl; lia).
         cbn [flat_map]. rewrite length_app. lia. }
    cbn [rbind]. rewrite stamp_relocated. unfold verify_control_flow_targets.
    rewrite (proj2 (for_each_Ok _ _)); [done|]. apply Forall_lookup.
    intros i x (orig & Hi & ->)%relocated_lookup. by apply control_flow_accepted.
  - unfold layout_function. rewrite Hv. cbn [rbind].
    change 0%Z with (Z.of_nat 0). rewrite (layout_loop_eq 0 [] instrs) by (unfold u32_max; lia). by rewrite Hlen.
Qed.

(** A loop with a handler: the witness of the round trip. *)
Definition sample_function : list Instruction :=
  [mkInstr 0 Op.EnterTry [Operand.Imm32 3; Operand.Imm32 NO_HANDLER_OFFSET; Operand.Register 7];
   mkInstr 1 Op.LoadInt32 [Operand.Register 0; Operand.Imm32 (-5)];
   mkInstr 2 Op.Call [Operand.Register 0; Operand.Register 1; Operand.ConstIndex 1; Operand.Register 4];
   mkInstr 3 Op.JumpIfTrue [Operand.Imm32 (-3); Operand.Register 0];
   mkInstr 4 Op.LeaveTry [];
   mkInstr 5 Op.Return [Operand.Register 0]].

Lemma encode_decode_roundtrip_witness :
  exists enc, try_encode_function sample_function = Ok enc /\
    decode_function (enc_code enc) = Ok (relocated sample_function) /\
    enc_instr_to_byte_pc enc = map ins_pc (relocated sample_function) /\
    layout_function sample_function =
      Ok (mkLayout (Z.of_nat (length (enc_code enc))) (enc_instr_to_byte_pc enc)).
Proof.
  apply (encode_decode_roundtrip sample_function).
  - split.
    + repeat (apply Forall_nil_2 || apply Forall_cons_2); unfold operand_ok, u32_max, NO_HANDLER_OFFSET; lia.
    + repeat (apply Forall_nil_2 || apply Forall_cons_2); simpl; lia.
    + vm_compute. discriminate.
  - vm_compute. reflexivity.
Defined.
