(* ===== verification/DecodeProps.v ===== *)
(** * Bytecode: what the decoder accepts

    For every byte string: the decoder neither panics nor loops, and what it
    returns is exact.  The instructions it reads spell the input again, byte for
    byte, their operands have the declared shapes, and every branch and handler
    target is the start of an instruction or the end of the code. *)

From S2P Require Import Prelude Slices Opcode Schema Encoding EncodingProps.

(** [code[a..b]]. *)
Definition seg {A} (a b : nat) (code : list A) : list A := take (b - a) (drop a code).

Lemma seg_app {A} a b c (code : list A) : a <= b -> b <= c -> seg a b code ++ seg b c code = seg a c code.
Proof.
  intros Hab Hbc. unfold seg. replace (c - a) with ((b - a) + (c - b)) by lia.
  rewrite <- (take_take_drop (drop a code)). f_equal. rewrite drop_drop. do 2 f_equal. lia.
Qed.

Lemma seg_refl {A} a (code : list A) : seg a a code = [].
Proof. unfold seg. by rewrite Nat.sub_diag. Qed.

Lemma seg_cons {A} a b (code : list A) x : code !! a = Some x -> a < b ->
  seg a b code = x :: seg (S a) b code.
Proof.
  intros Ha Hab. unfold seg. rewrite (drop_S _ _ _ Ha). by replace (b - a) with (S (b - S a)) by lia.
Qed.

Lemma seg_all {A} (code : list A) : seg 0 (length code) code = code.
Proof. unfold seg. by rewrite Nat.sub_0_r, drop_0, firstn_all. Qed.

Lemma length_seg {A} a b (code : list A) : b <= length code -> length (seg a b code) = b - a.
Proof. intros Hb. unfold seg. rewrite length_take, length_drop. lia. Qed.

Lemma Forall_seg {A} (P : A -> Prop) a b code : Forall P code -> Forall P (seg a b code).
Proof. intros H. by apply Forall_take, Forall_drop. Qed.

(** ** Reading bytes back *)

Lemma to_le_bytes_i32 l : Forall is_byte l -> length l = 4 -> to_le_bytes 4 (i32_from_le_bytes l) = l.
Proof.
  intros Hl H4. rewrite <- (to_from_le_bytes l Hl) at 2. rewrite H4.
  pose proof (from_le_bytes_bound l Hl) as Hb. rewrite H4 in Hb. change (256 ^ Z.of_nat 4)%Z with 4294967296%Z in Hb.
  unfold i32_from_le_bytes, i32_of_u32. case_match; [done|]. set (x := from_le_bytes l) in *.
  rewrite <- (to_from_le_bytes (to_le_bytes 4 (x - 4294967296)) (to_le_bytes_ok _ _)).
  rewrite from_to_le_bytes, length_to_le_bytes. f_equal. change (256 ^ Z.of_nat 4)%Z with 4294967296%Z.
  replace (x - 4294967296)%Z with (x + (-1) * 4294967296)%Z by lia. rewrite Z.mod_add, Z.mod_small by lia. done.
Qed.

Section Decoder.
Context (code : list Z) (bytes : Forall is_byte code).

Lemma take_n_Ok n pc l : take_n n code pc = Ok l ->
  l = seg pc (pc + n) code /\ pc + n <= length code /\ length l = n /\ Forall is_byte l.
Proof using bytes.
  unfold take_n. case_match eqn:E; boolprop; [|done]. intros [= <-].
  assert (Hs : take n (drop pc code) = seg pc (pc + n) code) by (unfold seg; f_equal; lia).
  rewrite Hs. split; [done|]. split; [done|]. split; [rewrite length_seg; lia|]. by apply Forall_seg.
Qed.

Lemma decode_operand_Ok pc operand next : decode_operand code pc = Ok (operand, next) ->
  seg pc next code = write_operand operand /\ pc < next <= length code /\ operand_ok operand.
Proof using bytes.
  unfold decode_operand. destruct (code !! pc) as [kind|] eqn:Ek; [|done].
  assert (Hseg : forall n l, take_n n code (pc + 1) = Ok l -> seg pc (pc + 1 + n) code = kind :: l).
  { intros n l Hl. apply take_n_Ok in Hl as (-> & _). rewrite (seg_cons _ _ _ _ Ek) by lia.
    by rewrite Nat.add_1_r. }
  destruct (kind =? OPERAND_KIND_REGISTER)%Z eqn:E0; [|destruct (kind =? OPERAND_KIND_CONST_INDEX)%Z eqn:E1;
    [|destruct (kind =? OPERAND_KIND_IMM32)%Z eqn:E2; [|done]]]; boolprop; subst kind; intros H; inv_bind H;
    injection H as <- <-; pose proof (Hseg _ _ Hbind) as Hs; apply take_n_Ok in Hbind as (_ & Hle & Hlen & Hb);
    pose proof (from_le_bytes_bound _ Hb) as Hbd; rewrite Hlen in Hbd; rewrite <- Nat.add_assoc in Hs;
    simpl plus in Hs; pose proof (to_from_le_bytes _ Hb) as Hback; rewrite Hlen in Hback;
    (split; [rewrite Hs; unfold write_operand; f_equal|split; [lia|]]).
  - done.
  - change (0 <= from_le_bytes a < 65536)%Z in Hbd. simpl. lia.
  - done.
  - change (0 <= from_le_bytes a < 4294967296)%Z in Hbd. simpl. unfold u32_max. lia.
  - by rewrite to_le_bytes_i32.
  - change (0 <= from_le_bytes a < 4294967296)%Z in Hbd. simpl. unfold i32_from_le_bytes, i32_of_u32.
    case_match; boolprop; lia.
Qed.

Lemma decode_operands_Ok count cursor acc operands next : cursor <= length code ->
  decode_operands count code cursor acc = Ok (operands, next) ->
  exists new, operands = acc ++ new /\ length new = count /\
    seg cursor next code = flat_map write_operand new /\ cursor <= next <= length code /\ Forall operand_ok new.
Proof using bytes.
  revert cursor acc. induction count as [|count IH]; intros cursor acc Hc H; simpl in H.
  { injection H as <- <-. exists []. rewrite app_nil_r, seg_refl. repeat split; try done. }
  inv_bind H. destruct a as [operand mid]. apply decode_operand_Ok in Hbind as (Hs & Hm & Ho).
  apply IH in H as (new & -> & Hl & Hseg & Hn & Hf); [|lia]. exists (operand :: new). rewrite <- app_assoc.
  split; [done|]. split; [simpl; lia|]. split; [|split; [lia|by constructor]].
  rewrite <- (seg_app cursor mid next) by lia. simpl. by rewrite Hs, Hseg.
Qed.

Lemma decode_operand_no_panic pc : decode_operand code pc <> Panic /\ decode_operand code pc <> OutOfFuel.
Proof. unfold decode_operand, take_n. repeat case_match; done. Qed.

Lemma decode_operands_no_panic count cursor acc :
  decode_operands count code cursor acc <> Panic /\ decode_operands count code cursor acc <> OutOfFuel.
Proof.
  revert cursor acc. induction count as [|count IH]; intros cursor acc; simpl; [done|].
  destruct (decode_operand_no_panic cursor). by destruct (decode_operand code cursor) as [[o n]| | |]; simpl.
Qed.

Lemma op_byte_rows : map (fun row : Op * Z => schema_index row.1) OP_BYTE_TABLE = seq 0 178.
Proof. vm_compute. reflexivity. Qed.

Lemma op_from_byte_inv byte op : is_byte byte -> op_from_byte byte = Some op -> byte = op_byte op.
Proof.
  intros Hb. unfold op_from_byte, op_byte. destruct (OP_BYTE_TABLE !! Z.to_nat byte) as [row|] eqn:E; [|done].
  intros [= <-]. pose proof (map_lookup (fun row : Op * Z => schema_index row.1) OP_BYTE_TABLE (Z.to_nat byte)) as Hm.
  rewrite op_byte_rows, E in Hm. cbn [fmap option_fmap option_map] in Hm. apply lookup_seq in Hm as [Hm _]. unfold is_byte in Hb. lia.
Qed.

Lemma decode_instruction_Ok pc instr next : decode_instruction code pc = Ok (instr, next) ->
  seg pc next code = encode_instr instr /\ pc < next <= length code /\ decodable instr /\ ins_pc instr = Z.of_nat pc.
Proof using bytes.
  unfold decode_instruction. destruct (code !! pc) as [ob|] eqn:Eo; [|done].
  destruct (op_from_byte ob) as [op|] eqn:Eop; [|done].
  destruct (code !! (pc + 1)) as [cnt|] eqn:Ec; [|done]. intros H.
  pose proof (lookup_lt_Some _ _ _ Ec) as Hlt.
  pose proof (Forall_lookup_1 _ _ _ _ bytes Eo) as Hob. pose proof (Forall_lookup_1 _ _ _ _ bytes Ec) as Hcnt.
  inv_bind H. destruct a as [operands cursor]. case_match; [done|]. inv_bind H. destruct a. simplify_eq.
  apply map_err_Ok in Hbind0.
  apply decode_operands_Ok in Hbind as (new & -> & Hl & Hseg & Hn & Hf); [|lia]. simpl in *.
  split; [|split; [lia|split; [|done]]].
  - rewrite (seg_cons _ _ _ _ Eo), (seg_cons _ _ _ cnt) by (lia || by rewrite <- Nat.add_1_r).
    unfold encode_instr. simpl. rewrite <- (op_from_byte_inv _ _ Hob Eop). replace (S (S pc)) with (pc + 2) by lia.
    rewrite Hseg. do 2 f_equal. unfold is_byte in Hcnt. lia.
  - split; [done|]. by apply verify_operand_shape_Ok.
Qed.

Lemma verify_operand_specs_fuel operands expected base off :
  verify_operand_specs operands expected base off <> OutOfFuel.
Proof.
  revert off. induction operands as [|o operands IH]; intros off; simpl; [done|]. repeat case_match; done.
Qed.

Lemma verify_operand_shape_fuel op operands : verify_operand_shape op operands <> OutOfFuel.
Proof.
  unfold verify_operand_shape. case_match; [done|].
  pose proof (verify_operand_specs_fuel (take (length (shape_prefix (schema_operand_shape op))) operands)
    (shape_prefix (schema_operand_shape op)) 0 0).
  destruct (verify_operand_specs _ _ _ _) as [[]| | |]; simpl; try done.
  repeat case_match; try done. apply verify_operand_specs_fuel.
Qed.

Lemma decode_instruction_no_panic pc : (Z.of_nat pc <= u32_max)%Z ->
  decode_instruction code pc <> Panic /\ decode_instruction code pc <> OutOfFuel.
Proof.
  intros Hpc. unfold decode_instruction. destruct (code !! pc) as [ob|]; [|done].
  destruct (op_from_byte ob) as [op|]; [|done]. destruct (code !! (pc + 1)) as [cnt|]; [|done].
  destruct (decode_operands_no_panic (Z.to_nat cnt) (pc + 2) []).
  destruct (decode_operands _ _ _ _) as [[operands cursor]| | |]; simpl; try done.
  rewrite (proj2 (Z.ltb_ge _ _)) by done.
  pose proof (verify_operand_shape_no_panic op operands). pose proof (verify_operand_shape_fuel op operands).
  by destruct (verify_operand_shape op operands) as [[]| | |].
Qed.

Lemma decode_loop_Ok fuel pc out result : pc <= length code -> decode_loop fuel code pc out = Ok result ->
  exists new, result = out ++ new /\ seg pc (length code) code = flat_map encode_instr new /\
    Forall decodable new /\ map ins_pc new = starts pc new.
Proof using bytes.
  revert pc out. induction fuel as [|fuel IH]; intros pc out Hpc H; simpl in H; case_match eqn:E; boolprop; try done.
  1,3: injection H as <-; replace pc with (length code) by lia; exists []; by rewrite app_nil_r, seg_refl.
  inv_bind H. destruct a as [instr next]. apply decode_instruction_Ok in Hbind as (Hs & Hn & Hd & Hp).
  apply IH in H as (new & -> & Hseg & Hf & Hst); [|lia]. exists (instr :: new). rewrite <- app_assoc.
  split; [done|]. split; [|split; [by constructor|]].
  - rewrite <- (seg_app pc next) by lia. cbn [flat_map]. by rewrite Hs, Hseg.
  - cbn [map starts]. rewrite Hp, Hst. do 2 f_equal. rewrite <- Hs, length_seg by lia. lia.
Qed.

Lemma decode_loop_no_panic fuel pc out : (Z.of_nat (length code) <= u32_max)%Z ->
  length code <= fuel + pc -> decode_loop fuel code pc out <> Panic /\ decode_loop fuel code pc out <> OutOfFuel.
Proof using bytes.
  intros Hlen. revert pc out. induction fuel as [|fuel IH]; intros pc out Hf; simpl; case_match eqn:E; boolprop;
    try done; [lia|].
  destruct (decode_instruction_no_panic pc) as [Hnp Hnf]; [lia|].
  destruct (decode_instruction code pc) as [[instr next]| | |] eqn:Ed; simpl; try done.
  apply IH. apply decode_instruction_Ok in Ed as (_ & ? & _). lia.
Qed.
End Decoder.

(** ** Targets *)

(** The position an encoded target names: [start + 1 + delta]. *)
Definition lands (out : list Instruction) (len : nat) (instr : Instruction) (k : nat) : Prop :=
  forall delta, ins_operands instr !! k = Some (Operand.Imm32 delta) ->
  let target := (ins_pc instr + 1 + delta)%Z in
  target = Z.of_nat len \/ exists i x, out !! i = Some x /\ ins_pc x = target.

(** Every branch lands on an instruction or on the end; so does every present
    handler; a handler floor is not negative. *)
Definition targets_land (out : list Instruction) (len : nat) : Prop :=
  forall instr, instr ∈ out ->
  (forall k base, Successor.RelativeTarget k base ∈ schema_successors (ins_op instr) -> lands out len instr k) /\
  (forall k base absent,
     Successor.OptionalRelativeTarget k base absent ∈ schema_exception_successors (ins_op instr) ->
     ins_operands instr !! k = Some (Operand.Imm32 absent) \/ lands out len instr k) /\
  (forall k, Successor.RunFinallyHandlersToFloor k ∈ schema_exception_successors (ins_op instr) ->
     exists floor, ins_operands instr !! k = Some (Operand.Imm32 floor) /\ (0 <= floor)%Z).

Lemma starts_sorted start l i j a b : starts start l !! i = Some a -> starts start l !! j = Some b -> i < j -> (a < b)%Z.
Proof.
  revert start i j. induction l as [|instr l IH]; intros start i j Ha Hb Hij; [done|]. destruct j as [|j]; [lia|].
  cbn [starts] in *. simpl in Hb. destruct i as [|i]; simpl in Ha; [|by eapply IH; eauto; lia].
  injection Ha as <-. pose proof (lookup_lt_Some _ _ _ Hb) as Hj. rewrite length_starts in Hj.
  rewrite starts_lookup in Hb by done. injection Hb as <-. unfold offset.
  assert (2 <= length (encode_instr instr)) by (unfold encode_instr; simpl; lia). lia.
Qed.

(** Every operand position the control-flow metadata names is an immediate of the
    declared prefix. *)
Definition imm_at (op : Op) (k : nat) : bool :=
  bool_decide (spec_kind <$> shape_prefix (operand_shape op) !! k = Some OperandKind.Imm32).

Definition targets_are_imm (op : Op) : bool :=
  forallb (fun s => match s with Successor.RelativeTarget k _ => imm_at op k | _ => true end)
    (schema_successors op) &&
  forallb (fun s => match s with
                    | Successor.OptionalRelativeTarget k _ _ | Successor.RunFinallyHandlersToFloor k => imm_at op k
                    | _ => true
                    end) (schema_exception_successors op).

Lemma targets_imm op : targets_are_imm op = true.
Proof. destruct op; vm_compute; reflexivity. Qed.

Lemma imm_operand instr k : decodable instr -> imm_at (ins_op instr) k = true ->
  exists imm, ins_operands instr !! k = Some (Operand.Imm32 imm).
Proof.
  intros [_ Hshape] Himm. apply bool_decide_eq_true in Himm. unfold shape_ok in Hshape.
  apply (f_equal (fun l => l !! k)) in Hshape. rewrite map_lookup in Hshape.
  assert (Hk : shape_kinds (operand_shape (ins_op instr)) (ins_operands instr) !! k = Some OperandKind.Imm32).
  { destruct (operand_shape (ins_op instr)) as [specs|prefix count tail]; simpl in *.
    - by rewrite map_lookup.
    - apply lookup_app_l_Some. by rewrite map_lookup. }
  rewrite Hk in Hshape. destruct (ins_operands instr !! k) as [[]|]; simpl in Hshape; simplify_eq. eauto.
Qed.

Section Targets.
Context (out : list Instruction) (len : nat).
Hypothesis sorted : map ins_pc out = starts 0 out.
Hypothesis good : Forall decodable out.

Lemma boundaries_search x :
  binary_search_is_ok (fun pc => Z.compare pc x) (map ins_pc out) = true <->
  exists i y, out !! i = Some y /\ ins_pc y = x.
Proof using sorted.
  rewrite binary_search_correct; rewrite ?sorted.
  - rewrite <- sorted. split.
    + intros (i & y & Hy & Hc%Z.compare_eq). rewrite map_lookup in Hy. destruct (out !! i) as [z|] eqn:Ez; [|done].
      simpl in Hy. exists i, z. split; [done|]. congruence.
    + intros (i & y & Hy & <-). exists i, (ins_pc y). rewrite map_lookup, Hy. split; [done|]. apply Z.compare_refl.
  - intros i j a b Ha Hb Hij Hc. destruct (decide (i = j)) as [->|]; [congruence|].
    rewrite Z.compare_gt_iff in *. pose proof (starts_sorted 0 out i j a b Ha Hb ltac:(lia)). lia.
  - intros i j a b Ha Hb Hij Hc. rewrite Z.compare_lt_iff in *. pose proof (starts_sorted 0 out i j a b Ha Hb Hij). lia.
Qed.

Lemma relative_target_Ok instr k base absent : (Z.of_nat len <= u32_max)%Z ->
  verify_relative_target instr k base absent (map ins_pc out) len = Ok tt ->
  (exists a, absent = Some a /\ ins_operands instr !! k = Some (Operand.Imm32 a)) \/ lands out len instr k.
Proof using sorted.
  intros Hlen H. unfold verify_relative_target in H. unfold lands.
  destruct (ins_operands instr !! k) as [[| |delta]|] eqn:Eo; try done.
  case_bool_decide as Ha; [left; eauto|]. right. intros delta' [= <-]. destruct base.
  case_match eqn:E; [|done]. apply orb_true_iff in E as [E|E]; boolprop; [by left|]. right.
  apply boundaries_search. unfold u32_max in Hlen. by rewrite Z.mod_small in H1 by lia.
Qed.

Lemma relative_target_no_panic instr k base absent : decodable instr -> imm_at (ins_op instr) k = true ->
  verify_relative_target instr k base absent (map ins_pc out) len <> Panic /\
  verify_relative_target instr k base absent (map ins_pc out) len <> OutOfFuel.
Proof.
  intros Hd Hk. destruct (imm_operand _ _ Hd Hk) as [imm Himm]. unfold verify_relative_target. rewrite Himm.
  repeat case_match; done.
Qed.

Lemma for_each_no_panic {E A} (f : A -> res E unit) (l : list A) :
  (forall x, x ∈ l -> f x <> Panic /\ f x <> OutOfFuel) -> for_each f l <> Panic /\ for_each f l <> OutOfFuel.
Proof.
  induction l as [|x l IH]; intros H; simpl; [done|]. destruct (H x (list_elem_of_here _ _)).
  destruct (f x) as [[]| | |]; simpl; try done. apply IH. intros y Hy. apply H. by right.
Qed.

Lemma control_flow_no_panic instr : decodable instr ->
  verify_control_flow_instruction (map ins_pc out) len instr <> Panic /\
  verify_control_flow_instruction (map ins_pc out) len instr <> OutOfFuel.
Proof.
  intros Hd. pose proof (targets_imm (ins_op instr)) as Ht. apply andb_prop in Ht as [Hn He].
  rewrite forallb_forall in Hn, He. unfold verify_control_flow_instruction.
  match goal with |- context [for_each ?f (schema_successors _)] =>
    destruct (for_each_no_panic f (schema_successors (ins_op instr))) as [Hp Ho];
    [|destruct (for_each f (schema_successors (ins_op instr))) as [[]| | |]; simpl; try done] end.
  - intros s Hs. specialize (Hn s (proj1 (list_elem_of_In _ _) Hs)). destruct s; try done.
    by apply relative_target_no_panic.
  - apply for_each_no_panic. intros s Hs. specialize (He s (proj1 (list_elem_of_In _ _) Hs)).
    destruct s as [k| | |k]; try done; [by apply relative_target_no_panic|].
    destruct (imm_operand _ _ Hd He) as [imm ->]. by case_match.
Qed.

Lemma control_flow_lands : (Z.of_nat len <= u32_max)%Z ->
  verify_control_flow_targets out len = Ok tt -> targets_land out len.
Proof using sorted good.
  intros Hlen H instr Hin. unfold verify_control_flow_targets in H. rewrite for_each_Ok, Forall_forall in H.
  specialize (H instr Hin). unfold verify_control_flow_instruction in H. inv_bind H. destruct a.
  rewrite for_each_Ok, Forall_forall in Hbind. rewrite for_each_Ok, Forall_forall in H.
  split; [|split].
  - intros k base Hs. specialize (Hbind _ Hs). simpl in Hbind.
    by destruct (relative_target_Ok _ _ _ _ Hlen Hbind) as [(a & ? & _)|].
  - intros k base absent Hs. specialize (H _ Hs). simpl in H.
    destruct (relative_target_Ok _ _ _ _ Hlen H) as [(a & [= <-] & ?)|]; auto.
  - intros k Hs. specialize (H _ Hs). simpl in H. destruct (ins_operands instr !! k) as [[| |floor]|]; try done.
    case_match eqn:E; boolprop; [done|]. eauto.
Qed.
End Targets.

(** C25: on every byte string of at most [u32::MAX] bytes the decoder returns an
    error or a function, without a panic; a function it returns spells the input
    again, has operands of the declared shapes, and all its branch and handler
    targets are instruction starts or the end of the code. *)
Theorem decode_sound (code : list Z) : Forall is_byte code -> (Z.of_nat (length code) <= u32_max)%Z ->
  (exists e, decode_function code = Err e) \/
  exists out, decode_function code = Ok out /\ flat_map encode_instr out = code /\
    Forall decodable out /\ targets_land out (length code).
Proof.
  intros Hb Hlen. unfold decode_function.
  destruct (decode_loop_no_panic code Hb (length code + 1) 0 [] Hlen ltac:(lia)) as [Hp Hf].
  destruct (decode_loop _ _ _ _) as [out| | |] eqn:Ed; try done; [|by left; eexists].
  apply decode_loop_Ok in Ed as (new & -> & Hs & Hd & Hst); [|done|lia]. cbn [rbind app]. rewrite seg_all in Hs.
  destruct (for_each_no_panic (verify_control_flow_instruction (map ins_pc new) (length code)) new) as [Hp' Hf'].
  { intros x Hx. apply control_flow_no_panic. by eapply Forall_forall in Hd. }
  destruct (verify_control_flow_targets new (length code)) as [[]|e| |] eqn:Ev; try done; [|left; by exists e].
  right. exists new. split; [done|]. split; [done|]. split; [done|]. by apply control_flow_lands.
Qed.

(** A jump over nothing to a [Nop]: accepted; the same jump one byte further lands
    inside the [Nop] and is refused. *)
Lemma decode_sound_witness :
  ((exists e, decode_function [41; 1; 2; 6; 0; 0; 0; 0; 0]%Z = Err e) \/
   exists out, decode_function [41; 1; 2; 6; 0; 0; 0; 0; 0]%Z = Ok out /\
     flat_map encode_instr out = [41; 1; 2; 6; 0; 0; 0; 0; 0]%Z /\
     Forall decodable out /\ targets_land out 9) /\
  decode_function [41; 1; 2; 7; 0; 0; 0; 0; 0]%Z = Err (DecodeError.InvalidControlFlowTarget 0 8).
Proof.
  split; [|vm_compute; reflexivity].
  apply (decode_sound [41; 1; 2; 6; 0; 0; 0; 0; 0]%Z).
  - repeat (apply Forall_nil_2 || apply Forall_cons_2); unfold is_byte; lia.
  - vm_compute. discriminate.
Defined.
