(* ===== verification/Wordcode.v ===== *)
(** * Bytecode: word code

    [wordcode.rs]: the instruction record with four inline operand words or a
    range of the function's overflow table, the builder with its patching
    operations, and the frozen body.  The abstract view of a body is the list of
    opcodes with their operands; the theorems show that every builder operation
    acts on that list as its name says and that reading an operand returns what
    was stored. *)

From S2P Require Import Prelude Slices Opcode Schema Encoding.

Definition INLINE_OPERAND_WORDS : nat := 4.
Definition NO_OVERFLOW_OPERANDS : Z := u32_max.

Record WordInstruction : Type := mkWord {
  w_op : Op;
  w_operand_count : Z;
  inline_operand_words : list Z;
  overflow_operand_offset : Z;
}.

Definition word_operand_count (w : WordInstruction) : nat := Z.to_nat (w_operand_count w).

Definition operands_are_inline (w : WordInstruction) : bool :=
  (overflow_operand_offset w =? NO_OVERFLOW_OPERANDS)%Z.

Definition operand_word (w : WordInstruction) (overflow : list Z) (index : nat) : option Z :=
  if word_operand_count w <=? index then None
  else if operands_are_inline w then inline_operand_words w !! index
  else overflow !! (Z.to_nat (overflow_operand_offset w) + index).

(** [FunctionCode] and [FunctionCodeBuilder] have the same two fields; [finish] and
    [to_builder] only move them. *)
Record FunctionCode : Type := mkCode {
  instructions : list WordInstruction;
  overflow_operand_words : list Z;
}.

Definition builder_new : FunctionCode := mkCode [] [].

(** [FunctionCode::operand]. *)
Definition code_operand (code : FunctionCode) (w : WordInstruction) (index : nat) : option Operand :=
  match operand_word w (overflow_operand_words code) index with
  | None => None
  | Some word =>
      match operand_kind_at (w_op w) index with
      | None => None
      | Some kind => decode_operand_word kind word
      end
  end.

(** [FunctionCodeBuilder::operand], [::op] and [::operand_count] by logical PC. *)
Definition builder_operand (code : FunctionCode) (pc : nat) (index : nat) : option Operand :=
  match instructions code !! pc with
  | None => None
  | Some w => code_operand code w index
  end.
Definition builder_op (code : FunctionCode) (pc : nat) : option Op := w_op <$> instructions code !! pc.
Definition builder_operand_count (code : FunctionCode) (pc : nat) : option nat :=
  word_operand_count <$> instructions code !! pc.

(** [next_pc]: a panic past [u32] logical PCs. *)
Definition next_pc (code : FunctionCode) : res unit Z :=
  if (Z.of_nat (length (instructions code)) <=? u32_max)%Z
  then Ok (Z.of_nat (length (instructions code))) else Panic.

(** The four inline words, unused ones zero. *)
Definition inline_words (operands : list Operand) : list Z :=
  take INLINE_OPERAND_WORDS (map encode_operand_word operands ++ replicate INLINE_OPERAND_WORDS 0%Z).

(** [FunctionCodeBuilder::push]; its panics are [Panic]. *)
Definition push (code : FunctionCode) (op : Op) (operands : list Operand) : res unit (FunctionCode * Z) :=
  match verify_operand_shape op operands with
  | Ok _ =>
      let* pc := next_pc code in
      if 255 <? length operands then Panic
      else if length operands <=? INLINE_OPERAND_WORDS then
        Ok (mkCode (instructions code ++
              [mkWord op (Z.of_nat (length operands)) (inline_words operands) NO_OVERFLOW_OPERANDS])
              (overflow_operand_words code), pc)
      else if (u32_max <? Z.of_nat (length (overflow_operand_words code)))%Z then Panic
      else
        Ok (mkCode (instructions code ++
              [mkWord op (Z.of_nat (length operands)) (replicate INLINE_OPERAND_WORDS 0%Z)
                 (Z.of_nat (length (overflow_operand_words code)))])
              (overflow_operand_words code ++ map encode_operand_word operands), pc)
  | OutOfFuel => OutOfFuel
  | _ => Panic
  end.

(** [FunctionCodeBuilder::set_operand]: [false] leaves the body as it is; the two
    indexed stores panic out of range. *)
Definition set_operand (code : FunctionCode) (pc index : nat) (operand : Operand)
    : res unit (bool * FunctionCode) :=
  match instructions code !! pc with
  | None => Ok (false, code)
  | Some w =>
      if word_operand_count w <=? index then Ok (false, code)
      else
        match operand_kind_at (w_op w) index with
        | None => Ok (false, code)
        | Some expected =>
            if bool_decide (kind_of operand = expected) then
              let word := encode_operand_word operand in
              if operands_are_inline w then
                if index <? length (inline_operand_words w) then
                  Ok (true, mkCode (<[pc := mkWord (w_op w) (w_operand_count w)
                                             (<[index := word]> (inline_operand_words w))
                                             (overflow_operand_offset w)]> (instructions code))
                              (overflow_operand_words code))
                else Panic
              else
                let at_ := Z.to_nat (overflow_operand_offset w) + index in
                if at_ <? length (overflow_operand_words code) then
                  Ok (true, mkCode (instructions code) (<[at_ := word]> (overflow_operand_words code)))
                else Panic
            else Ok (false, code)
        end
  end.

(** The operands [0..count] of one instruction, each [expect]ed to decode. *)
Fixpoint decode_all {E} (code : FunctionCode) (w : WordInstruction) (index count : nat)
    : res E (list Operand) :=
  match count with
  | 0 => Ok []
  | S count =>
      match code_operand code w index with
      | None => Panic
      | Some operand => let* rest := decode_all code w (S index) count in Ok (operand :: rest)
      end
  end.

(** [OperandView::iter] collected, and the decoding loop of [replace]. *)
Definition code_operands {E} (code : FunctionCode) (w : WordInstruction) : res E (list Operand) :=
  decode_all code w 0 (word_operand_count w).

(** The loop of [replace]. *)
Fixpoint replace_loop (code : FunctionCode) (index : nat) (op : Op) (operands : list Operand)
    (current : nat) (rest : list WordInstruction) (rebuilt : FunctionCode) : res unit FunctionCode :=
  match rest with
  | [] => Ok rebuilt
  | w :: rest =>
      let* rebuilt :=
        if Nat.eqb current index then
          let* (rebuilt, _) := push rebuilt op operands in Ok rebuilt
        else
          let* decoded := code_operands code w in
          let* (rebuilt, _) := push rebuilt (w_op w) decoded in Ok rebuilt in
      replace_loop code index op operands (S current) rest rebuilt
  end.

Definition replace (code : FunctionCode) (pc : nat) (op : Op) (operands : list Operand)
    : res unit (bool * FunctionCode) :=
  if length (instructions code) <=? pc then Ok (false, code)
  else
    let* rebuilt := replace_loop code pc op operands 0 (instructions code) builder_new in
    Ok (true, rebuilt).

(** [From<Vec<Instruction>>]: pushing the decoded instructions in order. *)
Fixpoint push_all (code : FunctionCode) (l : list (Op * list Operand)) : res unit FunctionCode :=
  match l with
  | [] => Ok code
  | (op, operands) :: l => let* (code, _) := push code op operands in push_all code l
  end.

(** The abstract view: every instruction with its operands. *)
Fixpoint view_list (code : FunctionCode) (l : list WordInstruction) : res unit (list (Op * list Operand)) :=
  match l with
  | [] => Ok []
  | w :: l =>
      let* operands := code_operands code w in
      let* rest := view_list code l in
      Ok ((w_op w, operands) :: rest)
  end.
Definition view (code : FunctionCode) : res unit (list (Op * list Operand)) :=
  view_list code (instructions code).

(** ** Verification and layout of word code ([encoding.rs]) *)

Definition verify_wordcode_target (code : FunctionCode) (instruction_index operand_index : nat)
    (absent_value : option Z) (instruction_count : Z) : res VerifyError unit :=
  let* w := index (instructions code) instruction_index in
  match code_operand code w operand_index with
  | Some (Operand.Imm32 delta) =>
      if bool_decide (absent_value = Some delta) then Ok tt
      else
        let target := (Z.of_nat instruction_index + 1 + delta)%Z in
        if in_range 0 instruction_count target then Ok tt
        else Err (VerifyError.InvalidControlFlowTarget instruction_index target)
  | _ => Panic
  end.

Definition verify_wordcode_instruction (code : FunctionCode) (instruction_index : nat)
    (w : WordInstruction) : res VerifyError unit :=
  let len := Z.of_nat (length (instructions code)) in
  let* operands := code_operands code w in
  let* _ := map_err (VerifyError.InvalidOperandShape instruction_index)
              (verify_operand_shape (w_op w) operands) in
  let* _ := for_each (fun successor =>
      match successor with
      | Successor.RelativeTarget operand_index _ =>
          verify_wordcode_target code instruction_index operand_index None len
      | _ => Ok tt
      end) (schema_successors (w_op w)) in
  for_each (fun successor =>
    match successor with
    | Successor.OptionalRelativeTarget operand_index _ absent_value =>
        verify_wordcode_target code instruction_index operand_index (Some absent_value) len
    | Successor.RunFinallyHandlersToFloor floor_operand_index =>
        match code_operand code w floor_operand_index with
        | Some (Operand.Imm32 floor) =>
            if (floor <? 0)%Z
            then Err (VerifyError.InvalidControlFlowOperand instruction_index floor_operand_index floor)
            else Ok tt
        | _ => Panic
        end
    | Successor.DynamicFrameHandlerOrCaller | Successor.ResumeParkedAbruptCompletion => Ok tt
    end) (schema_exception_successors (w_op w)).

Definition verify_wordcode_function (code : FunctionCode) : res VerifyError unit :=
  for_each_i (verify_wordcode_instruction code) 0 (instructions code).

Fixpoint measure_loop (code : FunctionCode) (byte_pc : Z) (pcs : list Z) (l : list WordInstruction)
    : res VerifyError FunctionLayout :=
  match l with
  | [] => Ok (mkLayout byte_pc pcs)
  | w :: l =>
      let* operands := code_operands code w in
      let* byte_len := measure_operands 2 operands in
      let* next := add_or_too_large byte_pc byte_len in
      measure_loop code next (pcs ++ [byte_pc]) l
  end.

Definition measure_wordcode_function (code : FunctionCode) : res VerifyError FunctionLayout :=
  measure_loop code 0 [] (instructions code).

Definition layout_wordcode_function (code : FunctionCode) : res VerifyError FunctionLayout :=
  let* _ := verify_wordcode_function code in
  measure_wordcode_function code.
