(* ===== verification/WordcodeProps.v ===== *)
(** * Bytecode: the word-code builder refines a list of instructions

    [canon l] is the one representation of the instruction list [l]: short operand
    lists inline, long ones in the overflow table in program order.  Building,
    patching and replacing map representations to representations, and reading
    returns the list. *)

From S2P Require Import Prelude Slices Opcode Schema Encoding Wordcode.

#[global] Opaque schema_operand_shape.

Definition is_long (ops : list Operand) : bool := INLINE_OPERAND_WORDS <? length ops.

Definition overflow_part (i : Op * list Operand) : list Z :=
  if is_long i.2 then map encode_operand_word i.2 else [].

Definition word_at (off : nat) (i : Op * list Operand) : WordInstruction :=
  if is_long i.2
  then mkWord i.1 (Z.of_nat (length i.2)) (replicate INLINE_OPERAND_WORDS 0%Z) (Z.of_nat off)
  else mkWord i.1 (Z.of_nat (length i.2)) (inline_words i.2) NO_OVERFLOW_OPERANDS.

Fixpoint words (off : nat) (l : list (Op * list Operand)) : list WordInstruction :=
  match l with
  | [] => []
  | i :: l => word_at off i :: words (off + length (overflow_part i)) l
  end.

Definition overflow_of (l : list (Op * list Operand)) : list Z := flat_map overflow_part l.
Definition canon (l : list (Op * list Operand)) : FunctionCode := mkCode (words 0 l) (overflow_of l).

(** What [push] checks of an instruction. *)
Definition pushable (i : Op * list Operand) : Prop :=
  shape_ok i.1 i.2 /\ Forall operand_ok i.2 /\ length i.2 <= 255.

(** The instruction and word counts stay below the [u32] sentinels. *)
Definition within_limits (l : list (Op * list Operand)) : Prop :=
  (Z.of_nat (length l) <= u32_max /\ Z.of_nat (length (overflow_of l)) < u32_max)%Z.

Lemma overflow_of_app l k : overflow_of (l ++ k) = overflow_of l ++ overflow_of k.
Proof. apply flat_map_app. Qed.

Lemma words_app off l k : words off (l ++ k) = words off l ++ words (off + length (overflow_of l)) k.
Proof.
  revert off. induction l as [|i l IH]; intros off; simpl; [by rewrite Nat.add_0_r|].
  rewrite IH, length_app. by rewrite Nat.add_assoc.
Qed.

Lemma length_words off l : length (words off l) = length l.
Proof. revert off. induction l as [|i l IH]; intros off; simpl; [done|]. by rewrite IH. Qed.

Lemma words_lookup off l pc : words off l !! pc =
  word_at (off + length (overflow_of (take pc l))) <$> l !! pc.
Proof.
  revert off pc. induction l as [|i l IH]; intros off pc; [done|]. destruct pc as [|pc]; simpl.
  - by rewrite Nat.add_0_r.
  - rewrite IH, length_app. by rewrite Nat.add_assoc.
Qed.

(** ** Operand words *)

Lemma operand_word_roundtrip operand : operand_ok operand ->
  decode_operand_word (kind_of operand) (encode_operand_word operand) = Some operand.
Proof.
  destruct operand as [reg|idx|imm]; simpl; intros H; [|done|by rewrite u32_i32_roundtrip].
  by rewrite (proj2 (Z.leb_le _ _)) by lia.
Qed.

(** A well-shaped operand list has the schema's kind at every position. *)
Lemma shape_kind_at op ops k o : shape_ok op ops -> ops !! k = Some o ->
  operand_kind_at op k = Some (kind_of o).
Proof.
  intros Hs Ho. unfold operand_kind_at. rewrite schema_operand_shape_eq.
  unfold shape_ok in Hs. apply (f_equal (fun l => l !! k)) in Hs. rewrite map_lookup, Ho in Hs. simpl in Hs.
  destruct (operand_shape op) as [specs|prefix count tail]; simpl in *.
  - rewrite map_lookup in Hs. destruct (specs !! k); simpl in *; congruence.
  - symmetry in Hs. apply lookup_app_Some in Hs as [Hs|[Hlen Hs]].
    + rewrite map_lookup in Hs. destruct (prefix !! k); simpl in *; congruence.
    + rewrite length_map in Hlen. rewrite (lookup_ge_None_2 prefix) by lia.
      case_match; try done. case_match; try done. apply lookup_replicate in Hs as [<- _]. done.
Qed.

Lemma inline_words_lookup ops k o : length ops <= INLINE_OPERAND_WORDS -> ops !! k = Some o ->
  inline_words ops !! k = Some (encode_operand_word o).
Proof.
  intros Hl Ho. pose proof (lookup_lt_Some _ _ _ Ho). unfold inline_words.
  rewrite lookup_take_lt by lia. apply lookup_app_l_Some. by rewrite map_lookup, Ho.
Qed.

Lemma long_spec ops : is_long ops = true <-> INLINE_OPERAND_WORDS < length ops.
Proof. apply Nat.ltb_lt. Qed.
Lemma short_spec ops : is_long ops = false <-> length ops <= INLINE_OPERAND_WORDS.
Proof. apply Nat.ltb_ge. Qed.

Lemma word_at_count off i : word_operand_count (word_at off i) = length i.2.
Proof. unfold word_operand_count, word_at. case_match; simpl; lia. Qed.
Lemma word_at_op off i : w_op (word_at off i) = i.1.
Proof. unfold word_at. by case_match. Qed.
Lemma word_at_inline off i : (Z.of_nat off < u32_max)%Z -> operands_are_inline (word_at off i) = negb (is_long i.2).
Proof.
  intros Ho. unfold operands_are_inline, word_at, NO_OVERFLOW_OPERANDS in *. destruct (is_long i.2); simpl.
  - apply Z.eqb_neq. lia.
  - done.
Qed.

Lemma overflow_split l pc i : l !! pc = Some i ->
  overflow_of l = overflow_of (take pc l) ++ overflow_part i ++ overflow_of (drop (S pc) l).
Proof. intros Hi. rewrite <- (take_drop_middle l pc i Hi) at 1. by rewrite overflow_of_app. Qed.

Lemma overflow_lookup l pc i k : l !! pc = Some i ->
  k < length (overflow_part i) ->
  overflow_of l !! (length (overflow_of (take pc l)) + k) = overflow_part i !! k.
Proof.
  intros Hi Hk. rewrite (overflow_split l pc i Hi), lookup_app_r by lia. replace (_ + k - _) with k by lia. by apply lookup_app_l.
Qed.

(** Reading a stored word. *)
Lemma operand_word_canon l pc i k o : within_limits l -> l !! pc = Some i -> i.2 !! k = Some o ->
  operand_word (word_at (length (overflow_of (take pc l))) i) (overflow_of l) k = Some (encode_operand_word o).
Proof.
  intros [_ Hlim] Hi Ho. pose proof (lookup_lt_Some _ _ _ Ho) as Hk.
  assert (Hoff : length (overflow_of (take pc l)) <= length (overflow_of l)).
  { rewrite <- (take_drop pc l) at 2. rewrite overflow_of_app, length_app. lia. }
  unfold operand_word. rewrite word_at_count, (proj2 (Nat.leb_gt _ _)) by done.
  rewrite word_at_inline by lia. unfold word_at. destruct (is_long i.2) eqn:El; simpl.
  - rewrite Nat2Z.id, (overflow_lookup l pc i k Hi); unfold overflow_part; rewrite El.
    + by rewrite map_lookup, Ho.
    + by rewrite length_map.
  - apply short_spec in El. by apply inline_words_lookup.
Qed.

Lemma code_operand_canon l pc i k o : within_limits l -> pushable i -> l !! pc = Some i -> i.2 !! k = Some o ->
  code_operand (canon l) (word_at (length (overflow_of (take pc l))) i) k = Some o.
Proof.
  intros Hlim (Hs & Hok & _) Hi Ho. unfold code_operand. simpl.
  rewrite (operand_word_canon l pc i k o) by done. rewrite word_at_op, (shape_kind_at _ _ _ _ Hs Ho).
  apply operand_word_roundtrip. by apply (Forall_lookup_1 _ _ _ _ Hok Ho).
Qed.

Lemma decode_all_canon {E} l pc i k : within_limits l -> pushable i -> l !! pc = Some i -> k <= length i.2 ->
  @decode_all E (canon l) (word_at (length (overflow_of (take pc l))) i) k (length i.2 - k) = Ok (drop k i.2).
Proof.
  intros Hlim Hp Hi. remember (length i.2 - k) as n eqn:Hn. revert k Hn.
  induction n as [|n IH]; intros k Hn Hk; simpl.
  - by rewrite drop_ge by lia.
  - destruct (lookup_lt_is_Some_2 i.2 k) as [o Ho]; [lia|].
    rewrite (code_operand_canon l pc i k o) by done. rewrite (IH (S k)) by lia. simpl.
    by rewrite (drop_S _ _ _ Ho).
Qed.

Lemma code_operands_canon {E} l pc i : within_limits l -> pushable i -> l !! pc = Some i ->
  @code_operands E (canon l) (word_at (length (overflow_of (take pc l))) i) = Ok i.2.
Proof.
  intros Hlim Hp Hi. unfold code_operands. rewrite word_at_count.
  pose proof (@decode_all_canon E l pc i 0 Hlim Hp Hi ltac:(lia)) as H. by rewrite Nat.sub_0_r in H.
Qed.

(** ** Building *)

Lemma push_canon l i : within_limits l -> pushable i ->
  push (canon l) i.1 i.2 = Ok (canon (l ++ [i]), Z.of_nat (length l)).
Proof.
  intros [Hlen Hov] (Hs & Hok & Hc). unfold push, next_pc, canon. simpl.
  rewrite (proj2 (verify_operand_shape_Ok _ _ Hok) Hs), length_words, (proj2 (Z.leb_le _ _) Hlen). cbn [rbind].
  rewrite (proj2 (Nat.ltb_ge _ _) Hc), words_app, overflow_of_app. simpl. unfold overflow_part, word_at.
  destruct (is_long i.2) eqn:El; simpl.
  - rewrite (proj2 (Nat.leb_gt _ _)) by (by apply long_spec). rewrite (proj2 (Z.ltb_ge _ _)) by lia.
    by rewrite app_nil_r.
  - rewrite (proj2 (Nat.leb_le _ _)) by (by apply short_spec). by rewrite app_nil_r.
Qed.

Lemma within_limits_app l k : within_limits (l ++ k) -> within_limits l.
Proof.
  unfold within_limits. rewrite overflow_of_app, !length_app. lia.
Qed.

Lemma push_all_canon l k : Forall pushable k -> within_limits (l ++ k) -> push_all (canon l) k = Ok (canon (l ++ k)).
Proof.
  intros Hk. revert l. induction Hk as [|[op ops] k Hi _ IH]; intros l Hlim; simpl; [by rewrite app_nil_r|].
  pose proof (push_canon l (op, ops) (within_limits_app _ _ Hlim) Hi) as Hpush. simpl in Hpush.
  rewrite Hpush. cbn [rbind].
  rewrite IH; by rewrite <- app_assoc.
Qed.

(** ** Reading the whole body *)

Lemma view_list_canon l pre post : within_limits l -> Forall pushable l -> l = pre ++ post ->
  view_list (canon l) (words (length (overflow_of pre)) post) = Ok post.
Proof.
  intros Hlim Hp. revert pre. induction post as [|i post IH]; intros pre Heq; simpl; [done|].
  assert (Hi : l !! length pre = Some i) by (by rewrite Heq, lookup_app_r, Nat.sub_diag by lia).
  pose proof (@code_operands_canon unit l (length pre) i Hlim (Forall_lookup_1 _ _ _ _ Hp Hi) Hi) as Hc.
  rewrite Heq, take_app_length, <- Heq in Hc. rewrite Hc. cbn [rbind].
  specialize (IH (pre ++ [i])). rewrite overflow_of_app, length_app in IH. simpl in IH. rewrite app_nil_r in IH.
  rewrite IH by (by rewrite <- app_assoc). rewrite word_at_op. by destruct i.
Qed.

Lemma view_canon l : within_limits l -> Forall pushable l -> view (canon l) = Ok l.
Proof. intros Hlim Hp. apply (view_list_canon l [] l Hlim Hp eq_refl). Qed.

(** ** Patching one operand *)

Lemma overflow_part_length op ops ops' : length ops = length ops' ->
  length (overflow_part (op, ops)) = length (overflow_part (op, ops')).
Proof. intros H. unfold overflow_part, is_long. simpl. rewrite H. case_match; [|done]. by rewrite !length_map. Qed.

Lemma words_insert off l pc op ops ops' : l !! pc = Some (op, ops) -> length ops = length ops' ->
  words off (<[pc := (op, ops')]> l) =
  <[pc := word_at (off + length (overflow_of (take pc l))) (op, ops')]> (words off l).
Proof.
  revert off pc. induction l as [|i l IH]; intros off pc Hi Hl; [done|]. destruct pc as [|pc]; simpl in *.
  - simplify_eq. rewrite Nat.add_0_r. f_equal. by rewrite (overflow_part_length op ops ops').
  - f_equal. rewrite IH by done. rewrite length_app. by rewrite Nat.add_assoc.
Qed.

Lemma overflow_insert l pc op ops k o : l !! pc = Some (op, ops) -> k < length ops ->
  overflow_of (<[pc := (op, <[k := o]> ops)]> l) =
  if is_long ops then <[length (overflow_of (take pc l)) + k := encode_operand_word o]> (overflow_of l)
  else overflow_of l.
Proof.
  intros Hi Hk. pose proof (lookup_lt_Some _ _ _ Hi) as Hlt.
  rewrite (overflow_split l pc _ Hi), insert_take_drop, overflow_of_app by done.
  simpl. unfold overflow_part. simpl.
  assert (Hlong : is_long (<[k := o]> ops) = is_long ops) by (unfold is_long; by rewrite length_insert).
  rewrite Hlong. destruct (is_long ops); [|done].
  rewrite insert_app_r, insert_app_l by (by rewrite length_map). do 2 f_equal. apply list_fmap_insert.
Qed.

Lemma inline_words_insert ops k o : length ops <= INLINE_OPERAND_WORDS -> k < length ops ->
  inline_words (<[k := o]> ops) = <[k := encode_operand_word o]> (inline_words ops).
Proof.
  intros Hl Hk. unfold inline_words.
  rewrite <- (take_insert_lt (_ ++ _)) by lia. f_equal. rewrite insert_app_l by (by rewrite length_map).
  f_equal. apply list_fmap_insert.
Qed.

Lemma length_inline_words ops : length (inline_words ops) = INLINE_OPERAND_WORDS.
Proof. unfold inline_words. rewrite length_take, length_app, length_replicate. lia. Qed.

(** Storing an operand of the declared kind changes that operand and nothing else. *)
Lemma set_operand_canon l pc op ops k o : within_limits l -> l !! pc = Some (op, ops) -> k < length ops ->
  operand_kind_at op k = Some (kind_of o) ->
  set_operand (canon l) pc k o = Ok (true, canon (<[pc := (op, <[k := o]> ops)]> l)).
Proof.
  intros [Hlen Hov] Hi Hk Hkind. unfold set_operand, canon. simpl.
  rewrite words_lookup, Hi. simpl. set (off := length (overflow_of (take pc l))).
  assert (Hoff : off + length (overflow_part (op, ops)) <= length (overflow_of l)).
  { rewrite (overflow_split l pc _ Hi), !length_app. unfold off. lia. }
  rewrite word_at_count, (proj2 (Nat.leb_gt _ _)) by done. rewrite word_at_op. cbn [fst].
  rewrite Hkind, bool_decide_true by done.
  rewrite word_at_inline by lia.
  rewrite (words_insert 0 l pc op ops) by (done || by rewrite length_insert).
  rewrite (overflow_insert l pc op ops k o Hi Hk). fold off.
  assert (Hlong : is_long (<[k := o]> ops) = is_long ops) by (unfold is_long; by rewrite length_insert).
  unfold word_at. cbn [fst snd]. rewrite Hlong, length_insert. destruct (is_long ops) eqn:El; simpl.
  - rewrite Nat2Z.id. unfold overflow_part in Hoff. simpl in Hoff. rewrite El, length_map in Hoff.
    rewrite (proj2 (Nat.ltb_lt _ _)) by lia. do 3 f_equal. symmetry. apply list_insert_id.
    rewrite words_lookup, Hi. unfold word_at. simpl. by rewrite El.
  - apply short_spec in El. rewrite length_inline_words.
    rewrite (proj2 (Nat.ltb_lt _ _)) by (unfold INLINE_OPERAND_WORDS in *; lia).
    by rewrite inline_words_insert.
Qed.

(** A store with no such instruction, no such operand or the wrong kind is refused. *)
Lemma set_operand_refused l pc k o :
  (forall op ops, l !! pc = Some (op, ops) -> length ops <= k \/ operand_kind_at op k <> Some (kind_of o)) ->
  set_operand (canon l) pc k o = Ok (false, canon l).
Proof.
  intros H. unfold set_operand, canon. simpl. rewrite words_lookup.
  destruct (l !! pc) as [[op ops]|]; simpl; [|done]. rewrite word_at_count, word_at_op. cbn [fst snd].
  destruct (length ops <=? k) eqn:E; boolprop; [done|]. destruct (H op ops eq_refl) as [?|Hk]; [lia|].
  destruct (operand_kind_at op k) as [kind|]; [|done]. rewrite bool_decide_false; [done|]. congruence.
Qed.

(** ** Replacing an instruction *)

Lemma within_limits_take l n : within_limits l -> within_limits (take n l).
Proof. intros H. rewrite <- (take_drop n l) in H. by eapply within_limits_app. Qed.

Lemma replace_loop_canon l pc i pre post : within_limits l -> Forall pushable l -> pushable i ->
  within_limits (<[pc := i]> l) -> l = pre ++ post ->
  replace_loop (canon l) pc i.1 i.2 (length pre) (words (length (overflow_of pre)) post)
    (canon (take (length pre) (<[pc := i]> l))) = Ok (canon (<[pc := i]> l)).
Proof.
  intros Hlim Hp Hi Hlim'. revert pre. induction post as [|j post IH]; intros pre Heq; simpl.
  { rewrite app_nil_r in Heq. subst. by rewrite take_ge by (rewrite length_insert; lia). }
  assert (Hj : l !! length pre = Some j) by (by rewrite Heq, lookup_app_r, Nat.sub_diag by lia).
  assert (Hstep : forall x, <[pc := i]> l !! length pre = Some x -> pushable x ->
    push (canon (take (length pre) (<[pc := i]> l))) x.1 x.2 =
    Ok (canon (take (length (pre ++ [j])) (<[pc := i]> l)), Z.of_nat (length (take (length pre) (<[pc := i]> l))))).
  { intros x Hx Hpx. rewrite push_canon by (done || by apply within_limits_take).
    rewrite <- (take_S_r _ _ _ Hx). do 4 f_equal. rewrite length_app. simpl. lia. }
  specialize (IH (pre ++ [j])). rewrite overflow_of_app, length_app in IH. simpl in IH. rewrite app_nil_r in IH.
  rewrite length_app in IH. simpl in IH. rewrite Nat.add_1_r in IH.
  rewrite length_app in Hstep. simpl in Hstep. rewrite Nat.add_1_r in Hstep.
  destruct (Nat.eqb (length pre) pc) eqn:E; boolprop.
  - subst pc. rewrite (Hstep i) by (done || (rewrite list_lookup_insert_eq; [done|]; by eapply lookup_lt_Some)).
    cbn [rbind]. apply IH. by rewrite <- app_assoc.
  - pose proof (@code_operands_canon unit l (length pre) j Hlim (Forall_lookup_1 _ _ _ _ Hp Hj) Hj) as Hc.
    rewrite Heq, take_app_length, <- Heq in Hc. rewrite Hc. cbn [rbind]. rewrite word_at_op.
    rewrite (Hstep j); [|by rewrite list_lookup_insert_ne|by apply (Forall_lookup_1 _ _ _ _ Hp Hj)].
    cbn [rbind]. apply IH. by rewrite <- app_assoc.
Qed.

Lemma replace_canon l pc i : within_limits l -> Forall pushable l -> pushable i ->
  within_limits (<[pc := i]> l) -> pc < length l ->
  replace (canon l) pc i.1 i.2 = Ok (true, canon (<[pc := i]> l)).
Proof.
  intros Hlim Hp Hi Hlim' Hpc. unfold replace. change (instructions (canon l)) with (words 0 l). rewrite length_words.
  rewrite (proj2 (Nat.leb_gt _ _) Hpc).
  pose proof (replace_loop_canon l pc i [] l Hlim Hp Hi Hlim' eq_refl) as H. simpl in H.
  change builder_new with (canon (take 0 (<[pc := i]> l))). by rewrite H.
Qed.

(** C30: the word-code builder implements a list of instructions.  On the
    representation of a list, [push] appends, [set_operand] replaces one operand of
    its declared kind and refuses any other, [replace] replaces one instruction, and
    decoding the body returns the list; no panic is reached below the [u32] limits. *)
Theorem builder_refines_list (l : list (Op * list Operand)) :
  within_limits l -> Forall pushable l ->
  push_all builder_new l = Ok (canon l) /\ view (canon l) = Ok l /\
  (forall i, pushable i -> push (canon l) i.1 i.2 = Ok (canon (l ++ [i]), Z.of_nat (length l))) /\
  (forall pc k o, set_operand (canon l) pc k o =
     match l !! pc with
     | Some (op, ops) =>
         if (k <? length ops) && bool_decide (operand_kind_at op k = Some (kind_of o))
         then Ok (true, canon (<[pc := (op, <[k := o]> ops)]> l)) else Ok (false, canon l)
     | None => Ok (false, canon l)
     end) /\
  (forall pc i, pushable i -> within_limits (<[pc := i]> l) -> pc < length l ->
     replace (canon l) pc i.1 i.2 = Ok (true, canon (<[pc := i]> l))).
Proof.
  intros Hlim Hp. split; [by apply (push_all_canon [] l)|]. split; [by apply view_canon|].
  split; [intros i Hi; by apply push_canon|]. split; [|intros pc i Hi Hl Hpc; by apply replace_canon].
  intros pc k o. destruct (l !! pc) as [[op ops]|] eqn:Ei.
  - case_match eqn:E; boolprop.
    + apply set_operand_canon; try done. by eapply bool_decide_eq_true.
    + apply set_operand_refused. intros op' ops' Heq. simplify_eq.
      apply andb_false_iff in E as [E|E]; boolprop; [by left|right; by eapply bool_decide_eq_false].
  - apply set_operand_refused. congruence.
Qed.

Lemma builder_refines_list_witness :
  let l := [(Op.Add, [Operand.Register 0; Operand.Register 1; Operand.Register 2]);
            (Op.MakeClass, [Operand.Register 3; Operand.Register 4; Operand.Register 5;
                            Operand.Register 6; Operand.Register 7])]%Z in
  push_all builder_new l = Ok (canon l) /\ view (canon l) = Ok l.
Proof.
  intros l. destruct (builder_refines_list l) as (H1 & H2 & _).
  - split; vm_compute; [discriminate|reflexivity].
  - repeat (apply Forall_nil_2 || apply Forall_cons_2); (split; [vm_compute; reflexivity|]); simpl;
      (split; [|lia]); repeat (apply Forall_nil_2 || apply Forall_cons_2); simpl; lia.
  - by split.
Defined.

(** ** Word-code verification is logical verification *)

(** The decoded instructions of the list, as the byte encoder takes them. *)
Definition as_instructions (l : list (Op * list Operand)) : list Instruction :=
  imap (fun pc i => mkInstr (Z.of_nat pc) i.1 i.2) l.

Lemma as_instructions_lookup l pc : as_instructions l !! pc = (fun i => mkInstr (Z.of_nat pc) i.1 i.2) <$> l !! pc.
Proof. apply list_lookup_imap. Qed.

(** Reading past the operands is [None] in both forms. *)
Lemma code_operand_any l pc i k : within_limits l -> pushable i -> l !! pc = Some i ->
  code_operand (canon l) (word_at (length (overflow_of (take pc l))) i) k = i.2 !! k.
Proof.
  intros Hlim Hp Hi. destruct (i.2 !! k) as [o|] eqn:Ho; [by apply code_operand_canon|].
  unfold code_operand, operand_word. apply lookup_ge_None in Ho. rewrite word_at_count.
  by rewrite (proj2 (Nat.leb_le _ _)).
Qed.

Lemma for_each_ext {E A} (f g : A -> res E unit) l : (forall x, f x = g x) -> for_each f l = for_each g l.
Proof. intros H. induction l as [|x l IH]; simpl; [done|]. by rewrite H, IH. Qed.

Lemma verify_target_agrees l pc k absent len : within_limits l -> Forall pushable l ->
  verify_wordcode_target (canon l) pc k absent len = verify_logical_target (as_instructions l) pc k absent len.
Proof.
  intros Hlim Hp. unfold verify_wordcode_target, verify_logical_target, index.
  change (instructions (canon l)) with (words 0 l). rewrite words_lookup, as_instructions_lookup.
  destruct (l !! pc) as [i|] eqn:Hi; simpl; [|done].
  by rewrite (code_operand_any l pc i k Hlim (Forall_lookup_1 _ _ _ _ Hp Hi) Hi).
Qed.

Lemma verify_instruction_agrees l pc i : within_limits l -> Forall pushable l -> l !! pc = Some i ->
  verify_wordcode_instruction (canon l) pc (word_at (length (overflow_of (take pc l))) i) =
  verify_logical_instruction (as_instructions l) pc (mkInstr (Z.of_nat pc) i.1 i.2).
Proof.
  intros Hlim Hp Hi. pose proof (Forall_lookup_1 _ _ _ _ Hp Hi) as Hpi.
  unfold verify_wordcode_instruction, verify_logical_instruction.
  rewrite (code_operands_canon l pc i) by done. cbn [rbind ins_op ins_operands]. rewrite word_at_op.
  change (length (instructions (canon l))) with (length (words 0 l)).
  replace (length (words 0 l)) with (length (as_instructions l))
    by (unfold as_instructions; by rewrite length_words, length_imap).
  destruct (map_err _ _) as [[]| | |]; simpl; try done. apply rbind_unit_ext.
  - apply for_each_ext. intros []; try done. by apply verify_target_agrees.
  - apply for_each_ext. intros []; try done; [by apply verify_target_agrees|].
    by rewrite (code_operand_any l pc i).
Qed.

Lemma for_each_i_ext {E A B} (f : nat -> A -> res E unit) (g : nat -> B -> res E unit) j l k :
  Forall2 (fun x y => True) l k ->
  (forall n x y, l !! n = Some x -> k !! n = Some y -> f (j + n) x = g (j + n) y) ->
  for_each_i f j l = for_each_i g j k.
Proof.
  intros H2. revert j. induction H2 as [|x y l k _ _ IH]; intros j H; simpl; [done|].
  pose proof (H 0 x y eq_refl eq_refl) as H0. rewrite Nat.add_0_r in H0. apply rbind_unit_ext; [done|].
  apply IH. intros n a b Ha Hb. rewrite Nat.add_succ_l, <- Nat.add_succ_r. by apply H.
Qed.

Lemma same_length_Forall2 {A B} (l : list A) (k : list B) : length l = length k -> Forall2 (fun _ _ => True) l k.
Proof. intros H. apply Forall2_same_length_lookup_2; [done|]. done. Qed.

Lemma verify_function_agrees l : within_limits l -> Forall pushable l ->
  verify_wordcode_function (canon l) = verify_logical_function (as_instructions l).
Proof.
  intros Hlim Hp. unfold verify_wordcode_function, verify_logical_function.
  change (instructions (canon l)) with (words 0 l). apply for_each_i_ext.
  - apply same_length_Forall2. unfold as_instructions. by rewrite length_words, length_imap.
  - intros pc w instr Hw Hinstr. simpl. rewrite words_lookup in Hw. rewrite as_instructions_lookup in Hinstr.
    destruct (l !! pc) as [i|] eqn:Hi; simpl in *; [|done]. simplify_eq. by apply verify_instruction_agrees.
Qed.

Lemma measure_agrees l pre post b pcs : within_limits l -> Forall pushable l -> l = pre ++ post ->
  measure_loop (canon l) b pcs (words (length (overflow_of pre)) post) =
  layout_loop b pcs (imap (fun j i => mkInstr (Z.of_nat (length pre + j)) i.1 i.2) post).
Proof.
  intros Hlim Hp. revert pre b pcs. induction post as [|i post IH]; intros pre b pcs Heq; [done|].
  cbn [words measure_loop imap layout_loop ins_operands].
  assert (Hi : l !! length pre = Some i) by (by rewrite Heq, lookup_app_r, Nat.sub_diag by lia).
  pose proof (@code_operands_canon VerifyError l (length pre) i Hlim (Forall_lookup_1 _ _ _ _ Hp Hi) Hi) as Hc.
  rewrite Heq, take_app_length, <- Heq in Hc. rewrite Hc. cbn [rbind].
  destruct (measure_operands 2 i.2) as [len| | |]; simpl; try done.
  destruct (add_or_too_large b len) as [next| | |]; simpl; try done.
  specialize (IH (pre ++ [i]) next (pcs ++ [b])).
  rewrite overflow_of_app, length_app in IH. simpl in IH. rewrite app_nil_r in IH.
  rewrite IH by (by rewrite <- app_assoc). f_equal. apply imap_ext. intros j x _. simpl.
  rewrite length_app. simpl. do 2 f_equal. lia.
Qed.

(** C31: verifying and laying out word code gives the results, errors included, of
    verifying and laying out the decoded instructions. *)
Theorem wordcode_layout_agrees (l : list (Op * list Operand)) : within_limits l -> Forall pushable l ->
  verify_wordcode_function (canon l) = verify_logical_function (as_instructions l) /\
  layout_wordcode_function (canon l) = layout_function (as_instructions l).
Proof.
  intros Hlim Hp. pose proof (verify_function_agrees l Hlim Hp) as Hv. split; [done|].
  unfold layout_wordcode_function, layout_function. rewrite Hv. apply rbind_unit_ext; [done|].
  unfold measure_wordcode_function. by rewrite (measure_agrees l [] l).
Qed.

Lemma wordcode_layout_agrees_witness :
  let l := [(Op.Jump, [Operand.Imm32 0]); (Op.Jump, [Operand.Imm32 7])]%Z in
  verify_wordcode_function (canon l) = verify_logical_function (as_instructions l) /\
  layout_wordcode_function (canon l) = layout_function (as_instructions l).
Proof.
  intros l. apply (wordcode_layout_agrees l).
  - split; vm_compute; [discriminate|reflexivity].
  - repeat (apply Forall_nil_2 || apply Forall_cons_2); (split; [vm_compute; reflexivity|]); simpl;
      (split; [|lia]); repeat (apply Forall_nil_2 || apply Forall_cons_2); simpl; lia.
Defined.
