(* ===== verification/Bytecode.v ===== *)
(** * Bytecode containers

    The compiled-module records the linker merges: [otter-bytecode/src/lib.rs] ([Function],
    [Constant], [BytecodeModule], [ModuleResolution], [ModuleInit] and what they hold) and
    the compiler's metadata of [otter-compiler/src/compiled_module.rs].  A Rust [String] is
    the list of its Unicode scalar values, so equality, the order of a [BTreeMap] and
    [encode_utf16] are those of the source. *)

From S2P Require Import Prelude Slices Opcode Schema Encoding Wordcode.

Definition str := list Z.

(** [str::encode_utf16]: one unit below U+10000, a surrogate pair above. *)
Fixpoint encode_utf16 (s : str) : list Z :=
  match s with
  | [] => []
  | c :: s =>
      if (c <? 0x10000)%Z then c :: encode_utf16 s
      else (0xD800 + Z.shiftr (c - 0x10000) 10)%Z
             :: (0xDC00 + Z.land (c - 0x10000) 0x3FF)%Z :: encode_utf16 s
  end.

(** [u32] addition of a release build. *)
Definition u32_add (x y : Z) : Z := ((x + y) mod 4294967296)%Z.

(** [len() as u32]. *)
Definition as_u32 (n : nat) : Z := (Z.of_nat n mod 4294967296)%Z.

Inductive SourceKind := JavaScript | TypeScript.
Inductive ArgumentsObjectKind := Unmapped | Mapped.
Inductive ArgumentBindingStorage :=
| StorageRegister (reg : Z)
| StorageUpvalue (idx : Z).

Record MappedArgumentBinding : Type := mkMappedArgument {
  argument_index : Z;
  formal_name : str;
  storage : ArgumentBindingStorage;
}.

Record DirectEvalBinding : Type := mkDirectEval {
  de_captured : bool;
  de_name : str;
  de_upvalue : Z;
  de_lexical : bool;
  de_is_const : bool;
  de_fn_self_name : bool;
}.

Record ClassHintSite : Type := mkClassHint {
  chs_pc : Z;
  class_function_id : Z;
}.

Record TemplateSite : Type := mkTemplateSite {
  cooked : list (option str);
  raw : list str;
}.

Record Function : Type := mkFunction {
  f_id : Z;
  f_name : str;
  f_span : Z * Z;
  locals : Z;
  scratch : Z;
  param_count : Z;
  f_length : Z;
  own_upvalue_count : Z;
  is_strict : bool;
  is_arrow : bool;
  is_method : bool;
  has_rest : bool;
  is_async : bool;
  is_generator : bool;
  is_async_generator : bool;
  is_module : bool;
  is_derived_constructor : bool;
  needs_arguments : bool;
  uses_arguments_callee : bool;
  arguments_object_kind : ArgumentsObjectKind;
  mapped_argument_bindings : list MappedArgumentBinding;
  f_module_url : str;
  direct_eval_bindings : list DirectEvalBinding;
  contains_direct_eval : bool;
  source_text : option str;
  source_text_span : option (Z * Z);
  f_code : FunctionCode;
  f_spans : list SpanEntry;
  number_hint_sites : list Z;
  class_hint_sites : list ClassHintSite;
}.

(** [Function::default()]. *)
Definition function_default : Function :=
  mkFunction 0 [] (0, 0)%Z 0 0 0 0 0 false false false false false false false false false
    false false Unmapped [] [] [] false None None builder_new [] [] [].

Module Constant.
Inductive t : Type :=
| String (utf16 : list Z)
| Number (bits : Z)
| FunctionId (index : Z)
| BigInt (decimal : str)
| RegExp (pattern_utf16 : list Z) (flags : str).
End Constant.

Record ModuleResolution : Type := mkResolution {
  referrer : str;
  mr_specifier : str;
  mr_target : str;
  mr_deferred : bool;
  dynamic : bool;
  synthetic : bool;
}.

Record ModuleInit : Type := mkModuleInit {
  mi_url : str;
  function_id : Z;
}.

Record BytecodeModule : Type := mkBytecodeModule {
  bm_module : str;
  template_sites : list TemplateSite;
  bm_source_kind : SourceKind;
  functions : list Function;
  constants : list Constant.t;
  module_resolutions : list ModuleResolution;
  module_inits : list ModuleInit;
}.

(** ** Compiler metadata *)

Record CompiledSourceSpan : Type := mkSourceSpan {
  css_function_id : Z;
  css_function_name : str;
  css_module_url : str;
  css_pc : Z;
  css_span : Z * Z;
}.

Inductive CompiledImportKind := Static | ReExport | DynamicLiteral.

Record CompiledImport : Type := mkImport {
  specifier : str;
  target : option str;
  kind : CompiledImportKind;
}.

Record CompiledExport : Type := mkExport {
  ex_name : str;
  ex_local : option str;
  ex_from : option str;
}.

Record LiveBindingSlot : Type := mkSlot {
  slot_name : str;
  slot : Z;
}.

Record NamedImport : Type := mkNamedImport {
  ni_specifier : str;
  ni_name : str;
  ni_local : str;
  is_namespace : bool;
  is_deferred : bool;
}.

Record ResolvedBinding : Type := mkResolvedBinding {
  defining_module : str;
  rb_binding : str;
}.

Record CompiledModuleMetadata : Type := mkMetadata {
  source_url : str;
  md_source_kind : SourceKind;
  md_spans : list CompiledSourceSpan;
  imports : list CompiledImport;
  exports : list CompiledExport;
  live_binding_slots : list LiveBindingSlot;
  named_imports : list NamedImport;
  resolved_exports : list (str * ResolvedBinding);
}.

Definition metadata_default : CompiledModuleMetadata :=
  mkMetadata [] JavaScript [] [] [] [] [] [].

Lemma u32_add_small x y : (0 <= x + y < 4294967296)%Z -> u32_add x y = (x + y)%Z.
Proof. intros H. unfold u32_add. by apply Z.mod_small. Qed.

Lemma as_u32_small n : (Z.of_nat n < 4294967296)%Z -> as_u32 n = Z.of_nat n.
Proof. intros H. unfold as_u32. apply Z.mod_small. lia. Qed.
