(* ===== verification/ModuleGraph.v ===== *)
(** * Module graph and linker

    [otter-runtime/src/module_graph.rs], the phase after every module is loaded and
    compiled: export resolution ([resolve_export], [validate_resolution],
    [module_exported_names], [compute_resolved_exports]), the evaluation order
    ([topological_order]), the merge of the fragments ([link], [rewrite_const_indices],
    [build_entry_body]) and [ModuleGraph::link], which composes them.

    A [BTreeMap] is the association list of its entries in key order; a [HashSet] and a
    [HashMap] that are only looked up are lists without repetition, respectively with the
    last binding first.  [path] of [resolve_export] is restored on every return, so it is
    passed by value. *)

From Stdlib Require Import String.
From S2P Require Import Prelude Slices Opcode Schema Encoding Wordcode Bytecode.

Definition MODULE_DEPTH_LIMIT : nat := 256.

Module GraphError.
Inductive t : Type :=
| Cycle (url : str)
| Resolution (url : str) (message : str).
End GraphError.

Record ModuleEdge : Type := mkEdge {
  me_target : str;
  me_deferred : bool;
}.

Record ModuleNode : Type := mkNode {
  fragment : BytecodeModule;
  metadata : CompiledModuleMetadata;
  deps : list ModuleEdge;
}.

Definition Nodes := list (str * ModuleNode).

(** [nodes.get(url)]. *)
Definition nodes_get (nodes : Nodes) (url : str) : option ModuleNode :=
  snd <$> List.find (fun kv => bool_decide (kv.1 = url)) nodes.

(** ** Export resolution *)

Module Resolution.
Inductive t : Type :=
| Null
| Ambiguous
| Resolved (module binding : str).
End Resolution.

#[export] Instance Resolution_eq_dec : EqDecision Resolution.t.
Proof. solve_decision. Defined.

Definition is_resolvable_module (nodes : Nodes) (url : str) : bool :=
  match nodes_get nodes url with
  | Some node => negb (bool_decide (source_url (metadata node) = []))
  | None => false
  end.

Definition resolve_specifier (nodes : Nodes) (from_url spec : str) : option str :=
  match nodes_get nodes from_url with
  | None => None
  | Some node =>
      match List.find (fun i => bool_decide (specifier i = spec)) (imports (metadata node)) with
      | None => None
      | Some i => target i
      end
  end.

(** The star loop of [resolve_export]; [rec] resolves the name in a target module. *)
Fixpoint star_loop (rec : str -> res unit Resolution.t) (nodes : Nodes) (url : str)
    (l : list CompiledExport) (star : Resolution.t) : res unit Resolution.t :=
  match l with
  | [] => Ok star
  | export :: l =>
      if negb (bool_decide (ex_name export = chars "*")) then star_loop rec nodes url l star
      else
        match ex_from export with
        | None => star_loop rec nodes url l star
        | Some from =>
            match resolve_specifier nodes url from with
            | None => star_loop rec nodes url l star
            | Some target =>
                let* candidate := rec target in
                match candidate with
                | Resolution.Ambiguous => Ok Resolution.Ambiguous
                | Resolution.Resolved _ _ =>
                    match star with
                    | Resolution.Null => star_loop rec nodes url l candidate
                    | Resolution.Resolved _ _ =>
                        if bool_decide (star = candidate) then star_loop rec nodes url l star
                        else Ok Resolution.Ambiguous
                    | Resolution.Ambiguous => star_loop rec nodes url l star
                    end
                | Resolution.Null => star_loop rec nodes url l star
                end
            end
        end
  end.

(** What the first export entry of the right name says to do next: a finished resolution,
    or the lookup of another name in another module. *)
Inductive DirectStep : Type :=
| Finished (r : Resolution.t)
| Through (target name : str).

Definition direct_step (nodes : Nodes) (url name : str) (node : ModuleNode) (export : CompiledExport)
    : DirectStep :=
  match ex_local export, ex_from export with
  | Some local, Some from =>
      match resolve_specifier nodes url from with
      | Some target => Through target local
      | None => Finished Resolution.Null
      end
  | None, Some from =>
      match resolve_specifier nodes url from with
      | Some target => Finished (Resolution.Resolved target (chars "*namespace*"))
      | None => Finished Resolution.Null
      end
  | _, None =>
      let local_name := default name (ex_local export) in
      match List.find (fun imp => bool_decide (ni_local imp = local_name)) (named_imports (metadata node)) with
      | Some imp =>
          match resolve_specifier nodes url (ni_specifier imp) with
          | Some target =>
              if is_namespace imp then
                Finished (Resolution.Resolved target
                  (if is_deferred imp then chars "*deferred-namespace*" else chars "*namespace*"))
              else Through target (ni_name imp)
          | None => Finished Resolution.Null
          end
      | None => Finished (Resolution.Resolved url name)
      end
  end.

Fixpoint resolve_export (fuel : nat) (nodes : Nodes) (url name : str) (path : list (str * str))
    : res unit Resolution.t :=
  match fuel with
  | 0 => OutOfFuel
  | S fuel =>
      if negb (is_resolvable_module nodes url) then Ok (Resolution.Resolved url name)
      else if bool_decide ((url, name) ∈ path) then Ok Resolution.Null
      else
        let path := path ++ [(url, name)] in
        match nodes_get nodes url with
        | None => Panic
        | Some node =>
            match List.find (fun e => bool_decide (ex_name e = name)) (exports (metadata node)) with
            | Some export =>
                match direct_step nodes url name node export with
                | Finished r => Ok r
                | Through target name => resolve_export fuel nodes target name path
                end
            | None =>
                if bool_decide (name = chars "default") then Ok Resolution.Null
                else
                  star_loop (fun target => resolve_export fuel nodes target name path) nodes url
                    (exports (metadata node)) Resolution.Null
            end
        end
  end.

(** Every name a lookup can switch to, and the fuel that covers every simple chain of
    [(module, name)] pairs. *)
Definition switch_names (nodes : Nodes) : list str :=
  flat_map (fun kv => omap ex_local (exports (metadata kv.2))
                        ++ map ni_name (named_imports (metadata kv.2))) nodes.
Definition resolve_fuel (nodes : Nodes) : nat :=
  2 + length nodes * S (length (switch_names nodes)).

(** ** Validation *)

Definition resolution_message (kind name spec : str) : str :=
  kind ++ chars " of `" ++ name ++ chars "` from `" ++ spec
    ++ chars "` does not resolve to an exported binding".

Definition check_binding (nodes : Nodes) (url spec name kind : str) : res GraphError.t unit :=
  match resolve_specifier nodes url spec with
  | None => Ok tt
  | Some target =>
      if negb (is_resolvable_module nodes target) then Ok tt
      else
        match resolve_export (resolve_fuel nodes) nodes target name [] with
        | Ok (Resolution.Resolved _ _) => Ok tt
        | Ok _ => Err (GraphError.Resolution url (resolution_message kind name spec))
        | Err _ | Panic => Panic
        | OutOfFuel => OutOfFuel
        end
  end.

Definition validate_node (nodes : Nodes) (kv : str * ModuleNode) : res GraphError.t unit :=
  let '(url, node) := kv in
  if bool_decide (source_url (metadata node) = []) then Ok tt
  else
    let* _ := for_each (fun import =>
        if is_namespace import then Ok tt
        else check_binding nodes url (ni_specifier import) (ni_name import) (chars "import"))
      (named_imports (metadata node)) in
    for_each (fun export =>
      match ex_local export, ex_from export with
      | Some local, Some from => check_binding nodes url from local (chars "re-export")
      | _, _ => Ok tt
      end) (exports (metadata node)).

Definition validate_resolution (nodes : Nodes) : res GraphError.t unit :=
  for_each (validate_node nodes) nodes.

(** ** Exported names *)

Definition push_unique (names : list str) (name : str) : list str :=
  if bool_decide (name ∈ names) then names else names ++ [name].

Definition push_non_default (names : list str) (name : str) : list str :=
  if bool_decide (name = chars "default") then names else push_unique names name.

(** The loop of [module_exported_names] over a module's exports; [rec] is the recursive
    call, which threads [seen]. *)
Fixpoint names_loop (rec : str -> list str -> res unit (list str * list str)) (nodes : Nodes) (url : str)
    (l : list CompiledExport) (names seen : list str) : res unit (list str * list str) :=
  match l with
  | [] => Ok (names, seen)
  | export :: l =>
      if bool_decide (ex_name export = chars "*") then
        match ex_from export with
        | None => names_loop rec nodes url l names seen
        | Some from =>
            match resolve_specifier nodes url from with
            | None => names_loop rec nodes url l names seen
            | Some target =>
                let* (inner, seen) := rec target seen in
                names_loop rec nodes url l (foldl push_non_default names inner) seen
            end
        end
      else names_loop rec nodes url l (push_unique names (ex_name export)) seen
  end.

Fixpoint module_exported_names (fuel : nat) (nodes : Nodes) (url : str) (seen : list str)
    : res unit (list str * list str) :=
  match fuel with
  | 0 => OutOfFuel
  | S fuel =>
      if bool_decide (url ∈ seen) then Ok ([], seen)
      else
        let seen := seen ++ [url] in
        match nodes_get nodes url with
        | None => Ok ([], seen)
        | Some node =>
            names_loop (module_exported_names fuel nodes) nodes url (exports (metadata node)) [] seen
        end
  end.

(** The nesting of star calls passes through distinct modules of the graph. *)
Definition names_fuel (nodes : Nodes) : nat := 2 + length nodes.

(** [BTreeMap::insert]. *)
Fixpoint table_insert {A} (table : list (str * A)) (k : str) (v : A) : list (str * A) :=
  match table with
  | [] => [(k, v)]
  | (k', v') :: table =>
      if bool_decide (k' = k) then (k, v) :: table else (k', v') :: table_insert table k v
  end.

Definition table_get {A} (table : list (str * A)) (k : str) : option A :=
  snd <$> List.find (fun kv => bool_decide (kv.1 = k)) table.

Fixpoint resolved_table (nodes : Nodes) (url : str) (names : list str)
    (table : list (str * ResolvedBinding)) : res unit (list (str * ResolvedBinding)) :=
  match names with
  | [] => Ok table
  | name :: names =>
      let* r := resolve_export (resolve_fuel nodes) nodes url name [] in
      match r with
      | Resolution.Resolved module binding =>
          resolved_table nodes url names (table_insert table name (mkResolvedBinding module binding))
      | _ => resolved_table nodes url names table
      end
  end.

Fixpoint compute_resolved_loop (nodes rest : Nodes) (out : list (str * list (str * ResolvedBinding)))
    : res unit (list (str * list (str * ResolvedBinding))) :=
  match rest with
  | [] => Ok out
  | (url, node) :: rest =>
      if bool_decide (source_url (metadata node) = []) then compute_resolved_loop nodes rest out
      else
        let* (names, _) := module_exported_names (names_fuel nodes) nodes url [] in
        let* table := resolved_table nodes url names [] in
        compute_resolved_loop nodes rest (table_insert out url table)
  end.

Definition compute_resolved_exports (nodes : Nodes) : res unit (list (str * list (str * ResolvedBinding))) :=
  compute_resolved_loop nodes nodes [].

(** ** Async evaluation set *)

Definition all_edges (nodes : Nodes) : list ModuleResolution :=
  flat_map (fun kv => module_resolutions (fragment kv.2)) nodes.

(** A module's [<main>] (function 0 of its fragment) is async. *)
Definition node_has_tla (node : ModuleNode) : bool :=
  match functions (fragment node) with
  | f :: _ => is_async f
  | [] => false
  end.
Definition module_has_tla (nodes : Nodes) (url : str) : bool :=
  match nodes_get nodes url with
  | Some node => node_has_tla node
  | None => false
  end.

(** One sweep over the edges: the set and whether it grew. *)
Fixpoint async_pass (l : list ModuleResolution) (async_eval : list str) (changed : bool)
    : list str * bool :=
  match l with
  | [] => (async_eval, changed)
  | edge :: l =>
      if negb (mr_deferred edge) && bool_decide (mr_target edge ∈ async_eval)
           && negb (bool_decide (referrer edge ∈ async_eval))
      then async_pass l (async_eval ++ [referrer edge]) true
      else async_pass l async_eval changed
  end.

Fixpoint async_loop (fuel : nat) (edges : list ModuleResolution) (async_eval : list str)
    : res GraphError.t (list str) :=
  match fuel with
  | 0 => OutOfFuel
  | S fuel =>
      let (async_eval, changed) := async_pass edges async_eval false in
      if changed then async_loop fuel edges async_eval else Ok async_eval
  end.

(** Every sweep but the last adds one referrer. *)
Definition async_fuel (nodes : Nodes) : nat := S (length (all_edges nodes)).

(** ** Evaluation order *)

Inductive Mark := InProgress | Done.

(** [HashMap<String, Mark>]: the last insertion first. *)
Definition Marks := list (str * Mark).

Definition marks_get (marks : Marks) (url : str) : option Mark :=
  snd <$> List.find (fun kv => bool_decide (kv.1 = url)) marks.

(** The [while] loop of [topological_order]; the top of the stack is the head. *)
Fixpoint visit_loop (fuel : nat) (nodes : Nodes) (async_eval : list str)
    (marks : Marks) (order : list str) (stack : list (str * nat))
    : res GraphError.t (Marks * list str) :=
  match fuel with
  | 0 => OutOfFuel
  | S fuel =>
      match stack with
      | [] => Ok (marks, order)
      | (url, child_idx) :: rest =>
          if MODULE_DEPTH_LIMIT <? length stack then Err (GraphError.Cycle url)
          else
            match nodes_get nodes url with
            | None => visit_loop fuel nodes async_eval ((url, Done) :: marks) (order ++ [url]) rest
            | Some node =>
                match deps node !! child_idx with
                | None => visit_loop fuel nodes async_eval ((url, Done) :: marks) (order ++ [url]) rest
                | Some edge =>
                    let stack := (url, S child_idx) :: rest in
                    if me_deferred edge && negb (bool_decide (me_target edge ∈ async_eval)) then
                      visit_loop fuel nodes async_eval marks order stack
                    else
                      match marks_get marks (me_target edge) with
                      | Some Done => visit_loop fuel nodes async_eval marks order stack
                      | Some InProgress => visit_loop fuel nodes async_eval marks order stack
                      | None =>
                          visit_loop fuel nodes async_eval ((me_target edge, InProgress) :: marks) order
                            ((me_target edge, 0) :: stack)
                      end
                end
            end
      end
  end.

(** Every iteration finishes a module or consumes one dependency entry. *)
Definition visit_fuel (nodes : Nodes) : nat :=
  3 + length nodes + 2 * length (flat_map (fun kv => deps kv.2) nodes).

Fixpoint roots_loop (nodes : Nodes) (async_eval : list str) (roots : list str)
    (marks : Marks) (order : list str) : res GraphError.t (list str) :=
  match roots with
  | [] => Ok order
  | root :: roots =>
      match marks_get marks root with
      | Some _ => roots_loop nodes async_eval roots marks order
      | None =>
          let* (marks, order) :=
            visit_loop (visit_fuel nodes) nodes async_eval ((root, InProgress) :: marks) order [(root, 0)] in
          roots_loop nodes async_eval roots marks order
      end
  end.

Definition topological_order (nodes : Nodes) (entry : str) : res GraphError.t (list str) :=
  let* async_eval := async_loop (async_fuel nodes) (all_edges nodes)
                       (map fst (filter (fun kv => node_has_tla kv.2 = true) nodes)) in
  roots_loop nodes async_eval
    (entry :: filter (fun url => url <> entry) (map fst nodes)) [] [].

(** ** Linking *)

(** The operand rewrite of [rewrite_const_indices]. *)
Definition rewrite_operand (op : Op) (offset : Z) (pos : nat) (operand : Operand) : Operand :=
  match operand with
  | Operand.ConstIndex k =>
      if is_const_pool_operand op pos then Operand.ConstIndex (u32_add k offset) else operand
  | _ => operand
  end.

Fixpoint rewrite_loop (code : FunctionCode) (offset : Z) (l : list WordInstruction)
    (rewritten : FunctionCode) : res unit FunctionCode :=
  match l with
  | [] => Ok rewritten
  | instr :: l =>
      let* operands := code_operands code instr in
      let* (rewritten, _) := push rewritten (w_op instr) (imap (rewrite_operand (w_op instr) offset) operands) in
      rewrite_loop code offset l rewritten
  end.

Definition rewrite_const_indices (code : FunctionCode) (offset : Z) : res unit FunctionCode :=
  rewrite_loop code offset (instructions code) builder_new.

Definition rewrite_constant (fn_offset : Z) (c : Constant.t) : Constant.t :=
  match c with
  | Constant.FunctionId index => Constant.FunctionId (u32_add index fn_offset)
  | other => other
  end.

(** The clone of a fragment's function with its id, module URL, class hints and code
    rewritten. *)
Definition relocate_function (url : str) (fn_offset : Z) (code : FunctionCode) (f : Function) : Function :=
  mkFunction (u32_add fn_offset (f_id f)) (f_name f) (f_span f) (locals f) (scratch f) (param_count f)
    (f_length f) (own_upvalue_count f) (is_strict f) (is_arrow f) (is_method f) (has_rest f) (is_async f)
    (is_generator f) (is_async_generator f) (is_module f) (is_derived_constructor f) (needs_arguments f)
    (uses_arguments_callee f) (arguments_object_kind f) (mapped_argument_bindings f)
    (if bool_decide (f_module_url f = []) then url else f_module_url f)
    (direct_eval_bindings f) (contains_direct_eval f) (source_text f) (source_text_span f)
    code (f_spans f) (number_hint_sites f)
    (map (fun site => mkClassHint (chs_pc site) (u32_add (class_function_id site) fn_offset))
       (class_hint_sites f)).

(** [for f in &node.fragment.functions]. *)
Fixpoint relocate_functions (url : str) (fn_offset const_offset : Z) (l : list Function)
    : res unit (list Function) :=
  match l with
  | [] => Ok []
  | f :: l =>
      let* code := rewrite_const_indices (f_code f) const_offset in
      let* rest := relocate_functions url fn_offset const_offset l in
      Ok (relocate_function url fn_offset code f :: rest)
  end.

(** The tables [link] appends to. *)
Record LinkState : Type := mkLinkState {
  ls_functions : list Function;
  ls_constants : list Constant.t;
  ls_inits : list ModuleInit;
  ls_resolutions : list ModuleResolution;
}.

Definition link_node (st : LinkState) (url : str) (node : ModuleNode) : res unit LinkState :=
  let fn_offset := as_u32 (length (ls_functions st)) in
  let const_offset := as_u32 (length (ls_constants st)) in
  let* fns := relocate_functions url fn_offset const_offset (functions (fragment node)) in
  Ok (mkLinkState (ls_functions st ++ fns)
        (ls_constants st ++ map (rewrite_constant fn_offset) (constants (fragment node)))
        (ls_inits st ++ [mkModuleInit url fn_offset])
        (ls_resolutions st ++ module_resolutions (fragment node))).

Fixpoint link_loop (nodes : Nodes) (order : list str) (st : LinkState) : res unit LinkState :=
  match order with
  | [] => Ok st
  | url :: order =>
      match nodes_get nodes url with
      | None => link_loop nodes order st
      | Some node =>
          let* st := link_node st url node in
          link_loop nodes order st
      end
  end.

(** *** The [<entry>] driver *)

(** [intern_string_const]: the first equal string, or a new constant. *)
Fixpoint find_string (target : list Z) (i : nat) (l : list Constant.t) : option nat :=
  match l with
  | [] => None
  | c :: l =>
      match c with
      | Constant.String utf16 => if bool_decide (utf16 = target) then Some i else find_string target (S i) l
      | _ => find_string target (S i) l
      end
  end.

Definition intern_string_const (cs : list Constant.t) (s : str) : list Constant.t * Z :=
  let target := encode_utf16 s in
  match find_string target 0 cs with
  | Some i => (cs, as_u32 i)
  | None => (cs ++ [Constant.String target], as_u32 (length cs))
  end.

(** [Vec::pop] takes the last element: the work stacks below are reversed, so [extend]
    puts the reverse of the children in front. *)
Definition non_deferred_children (nodes : Nodes) (url : str) : list str :=
  match nodes_get nodes url with
  | Some node => map mr_target (filter (fun edge => mr_deferred edge = false) (module_resolutions (fragment node)))
  | None => []
  end.

Fixpoint tla_loop (fuel : nat) (nodes : Nodes) (out seen stack : list str) : res unit (list str) :=
  match fuel with
  | 0 => OutOfFuel
  | S fuel =>
      match stack with
      | [] => Ok out
      | url :: stack =>
          if bool_decide (url ∈ seen) then tla_loop fuel nodes out seen stack
          else if module_has_tla nodes url then tla_loop fuel nodes (out ++ [url]) (url :: seen) stack
          else tla_loop fuel nodes out (url :: seen) (reverse (non_deferred_children nodes url) ++ stack)
      end
  end.

Definition collect_tla_descendants (nodes : Nodes) (root : str) : res unit (list str) :=
  tla_loop (2 + length (all_edges nodes)) nodes [] [] [root].

(** [adjacency: HashMap<&str, Vec<String>>], as the list of its [(referrer, targets)]
    extensions in the order they are made; [get] concatenates those of one referrer. *)
Definition Adjacency := list (str * list str).
Definition adjacency_get (adjacency : Adjacency) (url : str) : list str :=
  flat_map snd (filter (fun kv => kv.1 = url) adjacency).

Fixpoint adjacency_loop (nodes : Nodes) (l : list ModuleResolution) (adjacency : Adjacency)
    : res unit Adjacency :=
  match l with
  | [] => Ok adjacency
  | edge :: l =>
      if negb (mr_deferred edge) then
        adjacency_loop nodes l (adjacency ++ [(referrer edge, [mr_target edge])])
      else if negb (dynamic edge) then
        let* async_roots := collect_tla_descendants nodes (mr_target edge) in
        adjacency_loop nodes l
          (match async_roots with [] => adjacency | _ => adjacency ++ [(referrer edge, async_roots)] end)
      else adjacency_loop nodes l adjacency
  end.

Fixpoint reach_loop (fuel : nat) (adjacency : Adjacency) (reachable work : list str) : res unit (list str) :=
  match fuel with
  | 0 => OutOfFuel
  | S fuel =>
      match work with
      | [] => Ok reachable
      | url :: work =>
          if bool_decide (url ∈ reachable) then reach_loop fuel adjacency reachable work
          else reach_loop fuel adjacency (url :: reachable) (reverse (adjacency_get adjacency url) ++ work)
      end
  end.

Definition reach_fuel (adjacency : Adjacency) : nat := 2 + length (flat_map snd adjacency).

Record EntryBody : Type := mkEntryBody {
  eb_code : FunctionCode;
  eb_spans : list SpanEntry;
  eb_scratch : Z;
  eb_is_async : bool;
}.

(** [u16] increment of the register counter. *)
Definition u16_succ (x : Z) : Z := ((x + 1) mod 65536)%Z.

Definition emit_op (code : FunctionCode) (spans : list SpanEntry) (op : Op) (operands : list Operand)
    : res unit (FunctionCode * list SpanEntry) :=
  let* pc := next_pc code in
  let* (code, _) := push code op operands in
  Ok (code, spans ++ [mkSpan pc (0, 0)%Z]).

(** The assembler state of [build_entry_body]. *)
Record EntryAsm : Type := mkAsm {
  as_code : FunctionCode;
  as_spans : list SpanEntry;
  as_constants : list Constant.t;
  as_next_reg : Z;
  as_gates : list Z;
}.

Definition emit_evaluate (a : EntryAsm) (url : str) : res unit EntryAsm :=
  let (cs, url_const_idx) := intern_string_const (as_constants a) url in
  let dst := as_next_reg a in
  let* (code, spans) := emit_op (as_code a) (as_spans a) Op.EvaluateModule
                          [Operand.Register dst; Operand.ConstIndex url_const_idx] in
  Ok (mkAsm code spans cs (u16_succ dst) (as_gates a ++ [dst])).

Fixpoint emit_evaluates (a : EntryAsm) (urls : list str) : res unit EntryAsm :=
  match urls with
  | [] => Ok a
  | url :: urls => let* a := emit_evaluate a url in emit_evaluates a urls
  end.

Fixpoint emit_awaits (a : EntryAsm) (gates : list Z) : res unit EntryAsm :=
  match gates with
  | [] => Ok (mkAsm (as_code a) (as_spans a) (as_constants a) (as_next_reg a) [])
  | gate :: gates =>
      let* (code, spans) := emit_op (as_code a) (as_spans a) Op.Await
                              [Operand.Register (as_next_reg a); Operand.Register gate] in
      emit_awaits (mkAsm code spans (as_constants a) (u16_succ (as_next_reg a)) (as_gates a)) gates
  end.

(** The modules [<entry>] evaluates, in order, and whether it awaits. *)
Definition entry_plan (nodes : Nodes) (order : list str) (entry_url : str) : res unit (list str * bool) :=
  let* async_eval :=
    match async_loop (async_fuel nodes) (all_edges nodes) (filter (fun u => module_has_tla nodes u = true) order) with
    | Ok s => Ok s
    | _ => OutOfFuel
    end in
  let* adjacency := adjacency_loop nodes (all_edges nodes) [] in
  let* reachable := reach_loop (reach_fuel adjacency) adjacency [] [entry_url] in
  let has_async := existsb (fun url => bool_decide (url ∈ reachable) && bool_decide (url ∈ async_eval)) order in
  Ok (entry_url :: filter (fun url => url <> entry_url /\ url ∈ reachable) order, has_async).

Definition build_entry_body (nodes : Nodes) (order : list str) (entry_url : str) (cs : list Constant.t)
    : res unit (EntryBody * list Constant.t) :=
  let* (urls, has_async) := entry_plan nodes order entry_url in
  let* a := emit_evaluates (mkAsm builder_new [] cs 0 []) urls in
  let* a := if has_async then emit_awaits a (as_gates a) else Ok a in
  let* (code, spans) := emit_op (as_code a) (as_spans a) Op.ReturnUndefined [] in
  Ok (mkEntryBody code spans (as_next_reg a) has_async, as_constants a).

(** [functions[0]] once its body is known. *)
Definition entry_function (body : EntryBody) : Function :=
  mkFunction 0 (chars "<entry>") (0, 0)%Z 0 (eb_scratch body) 0 0 0 false false false false
    (eb_is_async body) false false false false false false Unmapped [] [] [] false None None
    (eb_code body) (eb_spans body) [] [].

Definition entry_placeholder : Function :=
  mkFunction 0 (chars "<entry>") (0, 0)%Z 0 0 0 0 0 false false false false
    false false false false false false false Unmapped [] [] [] false None None
    builder_new [] [] [].

Definition link (nodes : Nodes) (order : list str) (entry_url : str) : res unit BytecodeModule :=
  let* st := link_loop nodes order (mkLinkState [entry_placeholder] [] [] []) in
  let* (body, cs) := build_entry_body nodes order entry_url (ls_constants st) in
  Ok (mkBytecodeModule entry_url [] TypeScript (<[0 := entry_function body]> (ls_functions st)) cs
        (ls_resolutions st) (ls_inits st)).

(** ** [ModuleGraph::link] *)

Record LinkedProgram : Type := mkLinkedProgram {
  lp_module : BytecodeModule;
  lp_entry_url : str;
  lp_metadata : list CompiledModuleMetadata;
}.

Definition with_resolved_exports (md : CompiledModuleMetadata) (table : list (str * ResolvedBinding)) :=
  mkMetadata (source_url md) (md_source_kind md) (md_spans md) (imports md) (exports md)
    (live_binding_slots md) (named_imports md) table.

(** [resolved.remove(url)]: a second occurrence of the URL finds nothing. *)
Fixpoint linked_metadata (nodes : Nodes) (order : list str)
    (resolved : list (str * list (str * ResolvedBinding))) : list CompiledModuleMetadata :=
  match order with
  | [] => []
  | url :: order =>
      match nodes_get nodes url with
      | None => linked_metadata nodes order resolved
      | Some node =>
          let md := match table_get resolved url with
                    | Some table => with_resolved_exports (metadata node) table
                    | None => metadata node
                    end in
          let rest := linked_metadata nodes order (filter (fun kv => kv.1 <> url) resolved) in
          if bool_decide (source_url md = []) then rest else md :: rest
      end
  end.

Definition lift {E A} (m : res unit A) : res E A :=
  match m with
  | Ok a => Ok a
  | OutOfFuel => OutOfFuel
  | _ => Panic
  end.

Definition graph_link (nodes : Nodes) (entry_url : str) : res GraphError.t LinkedProgram :=
  let* _ := validate_resolution nodes in
  let* order := topological_order nodes entry_url in
  let* module := lift (link nodes order entry_url) in
  let* resolved := lift (compute_resolved_exports nodes) in
  Ok (mkLinkedProgram module entry_url (linked_metadata nodes order resolved)).
