(* ===== verification/ResolveProps.v ===== *)
(** * Export resolution is exact

    [resolve_export] against the relation it computes: the binding a name ends at when the
    re-export entries are followed.  The code cuts cycles with the active path and stops at
    the first ambiguity; the relation does neither. *)

From Stdlib Require Import String.
From stdpp Require Import relations.
From S2P Require Import Prelude Slices Opcode Schema Encoding Wordcode Bytecode ModuleGraph.

Definition key : Type := str * str.

(** ** The reference relation *)

(** The export entry that answers [name] in a modelled module. *)
Definition direct_export (node : ModuleNode) (name : str) : option CompiledExport :=
  List.find (fun e => bool_decide (ex_name e = name)) (exports (metadata node)).

(** [export * from target] is an entry of the module. *)
Definition star_target (nodes : Nodes) (url : str) (export : CompiledExport) (tgt : str) : Prop :=
  ex_name export = chars "*" /\ exists from, ex_from export = Some from /\ resolve_specifier nodes url from = Some tgt.

Inductive lookup_step (nodes : Nodes) : key -> key -> Prop :=
| step_through url name node export tgt name' :
    is_resolvable_module nodes url = true -> nodes_get nodes url = Some node ->
    direct_export node name = Some export -> direct_step nodes url name node export = Through tgt name' ->
    lookup_step nodes (url, name) (tgt, name')
| step_star url name node export tgt :
    is_resolvable_module nodes url = true -> nodes_get nodes url = Some node ->
    direct_export node name = None -> name <> chars "default" ->
    export ∈ exports (metadata node) -> star_target nodes url export tgt ->
    lookup_step nodes (url, name) (tgt, name).

Inductive lookup_end (nodes : Nodes) : key -> key -> Prop :=
| end_host url name : is_resolvable_module nodes url = false -> lookup_end nodes (url, name) (url, name)
| end_direct url name node export m b :
    is_resolvable_module nodes url = true -> nodes_get nodes url = Some node ->
    direct_export node name = Some export ->
    direct_step nodes url name node export = Finished (Resolution.Resolved m b) ->
    lookup_end nodes (url, name) (m, b).

(** [name] of module [url] denotes the binding [e] through some chain of re-exports. *)
Definition binding_of (nodes : Nodes) (url name : str) (e : key) : Prop :=
  exists k, rtc (lookup_step nodes) (url, name) k /\ lookup_end nodes k e.

(** What a resolution says about a set of bindings. *)
Definition exact (S : key -> Prop) (r : Resolution.t) : Prop :=
  match r with
  | Resolution.Null => forall e, ~ S e
  | Resolution.Resolved m b => forall e, S e <-> e = (m, b)
  | Resolution.Ambiguous => exists e1 e2, S e1 /\ S e2 /\ e1 <> e2
  end.

Lemma exact_ext (S S' : key -> Prop) r : (forall e, S e <-> S' e) -> exact S r -> exact S' r.
Proof.
  intros HS. destruct r; simpl.
  - intros H e He. apply (H e). by apply HS.
  - intros (e1 & e2 & H1 & H2 & Hne). exists e1, e2. by rewrite <- !HS.
  - intros H e. by rewrite <- HS.
Qed.

(** A resolution determines, and is determined by, the set. *)
Lemma exact_resolved_iff S r m b :
  exact S r -> r = Resolution.Resolved m b <-> forall e, S e <-> e = (m, b).
Proof.
  destruct r as [| |m' b']; simpl; intros H; split; try done.
  - intros H'. destruct (H (m, b)). by apply H'.
  - destruct H as (e1 & e2 & H1 & H2 & Hne). intros H'. apply H' in H1, H2. congruence.
  - by intros [= -> ->].
  - intros H'. assert ((m', b') = (m, b)) as [= -> ->]; [|done]. apply H', H. done.
Qed.

(** ** Simple chains *)

(** A chain that avoids the keys of [P] and never repeats one. *)
Inductive chain (nodes : Nodes) : list key -> key -> key -> Prop :=
| chain_end P k e : k ∉ P -> lookup_end nodes k e -> chain nodes P k e
| chain_next P k k' e :
    k ∉ P -> lookup_step nodes k k' -> chain nodes (P ++ [k]) k' e -> chain nodes P k e.

Lemma chain_binding nodes P k e :
  chain nodes P k e -> exists k', rtc (lookup_step nodes) k k' /\ lookup_end nodes k' e.
Proof.
  induction 1 as [P k e Hk He|P k k' e Hk Hs _ (k'' & Hr & He)].
  - exists k. split; [constructor|done].
  - exists k''. split; [by eapply rtc_l|done].
Qed.

(** The keys of a chain, in order. *)
Inductive walk (nodes : Nodes) (e : key) : list key -> Prop :=
| walk_end k : lookup_end nodes k e -> walk nodes e [k]
| walk_cons k k' l : lookup_step nodes k k' -> walk nodes e (k' :: l) -> walk nodes e (k :: k' :: l).

Lemma walk_suffix nodes e l1 k l2 : walk nodes e (l1 ++ k :: l2) -> walk nodes e (k :: l2).
Proof.
  induction l1 as [|k1 l1 IH]; [done|]. simpl. intros H. apply IH.
  inversion H as [k0 He Heq|k0 k' l' Hs Hw Heq]; subst; [|done]. by destruct l1.
Qed.

Lemma walk_chain nodes e n :
  forall k l P, length l < n -> walk nodes e (k :: l) -> Forall (.∉ P) (k :: l) -> chain nodes P k e.
Proof.
  induction n as [|n IH]; intros k l P Hn Hw HP; [lia|].
  apply Forall_cons in HP as [Hk HP].
  destruct (decide (k ∈ l)) as [Hin|Hin].
  - apply list_elem_of_split in Hin as (l1 & l2 & ->).
    apply IH with l2.
    + rewrite length_app in Hn. simpl in Hn. lia.
    + by apply (walk_suffix nodes e (k :: l1)).
    + constructor; [done|]. apply Forall_app in HP as [_ HP]. by apply Forall_cons in HP as [_ HP].
  - inversion Hw as [k0 He|k0 k' l' Hs Hw']; subst; [by apply chain_end|].
    apply chain_next with k'; [done|done|]. apply IH with l'; [simpl in Hn; lia|done|].
    apply Forall_forall. intros x Hx. rewrite elem_of_app, list_elem_of_singleton.
    intros [Hp| ->]; [|done]. by apply (proj1 (Forall_forall _ _) HP x).
Qed.

Lemma binding_walk nodes k k' e :
  rtc (lookup_step nodes) k k' -> lookup_end nodes k' e -> exists l, walk nodes e (k :: l).
Proof.
  intros Hr He. induction Hr as [k|k k1 k2 Hs Hr IH]; [exists []; by constructor|].
  destruct (IH He) as (l & Hl). exists (k1 :: l). by constructor.
Qed.

Lemma chain_nil_iff nodes url name e : chain nodes [] (url, name) e <-> binding_of nodes url name e.
Proof.
  split; [apply chain_binding|]. intros (k & Hr & He).
  destruct (binding_walk _ _ _ _ Hr He) as (l & Hl).
  apply walk_chain with (S (length l)) l; [lia|done|].
  apply Forall_forall. intros x _. apply not_elem_of_nil.
Qed.

(** ** The star loop *)

(** Rewrite with the step of the direct entry. *)
Ltac rewrite_direct :=
  match goal with H : direct_step _ _ _ _ _ = _ |- _ => rewrite H end.

Section StarLoop.
Context (rec : str -> res unit Resolution.t) (nodes : Nodes) (url : str) (C : str -> key -> Prop).

(** The bindings the star entries of [l] add. *)
Definition star_bindings (l : list CompiledExport) (e : key) : Prop :=
  exists export tgt, export ∈ l /\ star_target nodes url export tgt /\ C tgt e.

Lemma star_bindings_cons export l e :
  star_bindings (export :: l) e
    <-> (exists tgt, star_target nodes url export tgt /\ C tgt e) \/ star_bindings l e.
Proof.
  unfold star_bindings. setoid_rewrite elem_of_cons. split.
  - intros (ex & tgt & [->|Hin] & Ht & He); eauto 10.
  - intros [(tgt & Ht & He)|(ex & tgt & Hin & Ht & He)]; eauto 10.
Qed.

Lemma star_target_fun export tgt tgt' :
  star_target nodes url export tgt -> star_target nodes url export tgt' -> tgt = tgt'.
Proof. intros (_ & f & H1 & H2) (_ & f' & H1' & H2'). congruence. Qed.

(** One target's resolution joined to what is known: the code's match on the candidate. *)
Lemma exact_join (S T : key -> Prop) star candidate :
  exact S star -> exact T candidate ->
  exact (fun e => S e \/ T e)
    match candidate with
    | Resolution.Ambiguous => Resolution.Ambiguous
    | Resolution.Resolved _ _ =>
        match star with
        | Resolution.Null => candidate
        | Resolution.Resolved _ _ => if bool_decide (star = candidate) then star else Resolution.Ambiguous
        | Resolution.Ambiguous => star
        end
    | Resolution.Null => star
    end.
Proof.
  intros HS HT. destruct candidate as [| |m b].
  - apply (exact_ext S); [|done]. intros e. specialize (HT e). tauto.
  - destruct HT as (e1 & e2 & H1 & H2 & Hne). exists e1, e2. tauto.
  - destruct star as [| |m' b'].
    + intros e. rewrite <- (HT e). specialize (HS e). tauto.
    + destruct HS as (e1 & e2 & H1 & H2 & Hne). exists e1, e2. tauto.
    + case_bool_decide as Heq; simpl in *.
      * injection Heq as -> ->. intros e. rewrite HS, HT. tauto.
      * exists (m', b'), (m, b). split_and!; [left; by apply HS|right; by apply HT|congruence].
Qed.

Lemma star_loop_exact (l : list CompiledExport) : forall star r (S : key -> Prop),
  exact S star ->
  (forall export tgt r', export ∈ l -> star_target nodes url export tgt -> rec tgt = Ok r' -> exact (C tgt) r') ->
  star_loop rec nodes url l star = Ok r ->
  exact (fun e => S e \/ star_bindings l e) r.
Proof using.
  induction l as [|export l IH]; intros star r S HS Hrec; simpl.
  { intros [= <-]. apply (exact_ext S); [|done]. intros e. split; [by left|].
    intros [H|(x & t & Hx & _)]; [done|by apply elem_of_nil in Hx]. }
  assert (Hskip : (forall tgt, ~ star_target nodes url export tgt) ->
            star_loop rec nodes url l star = Ok r -> exact (fun e => S e \/ star_bindings (export :: l) e) r).
  { intros Hno Hr. apply (exact_ext (fun e => S e \/ star_bindings l e)).
    - intros e. rewrite star_bindings_cons. split; [tauto|]. intros [H|[(tgt & Ht & _)|H]]; [tauto| |tauto].
      by destruct (Hno tgt).
    - apply (IH star); [done| |done]. intros x t r' Hx. apply Hrec. by right. }
  case_bool_decide as Hstar; cbn [negb].
  2:{ apply Hskip. intros tgt [? _]. done. }
  destruct (ex_from export) as [from|] eqn:Hfrom.
  2:{ apply Hskip. intros tgt (_ & f & Hf & _). congruence. }
  destruct (resolve_specifier nodes url from) as [tgt|] eqn:Htgt.
  2:{ apply Hskip. intros tgt (_ & f & Hf & Hr). congruence. }
  assert (Ht : star_target nodes url export tgt) by (split; eauto).
  intros H. inv_bind H. rename a into candidate.
  pose proof (Hrec export tgt candidate ltac:(left) Ht Hbind) as Hc.
  pose proof (exact_join S (C tgt) star candidate HS Hc) as Hj.
  apply (exact_ext (fun e => (S e \/ C tgt e) \/ star_bindings l e)).
  { intros e. rewrite star_bindings_cons. split; [intros [[H1|H1]|H1]; eauto|].
    intros [H1|[(t & H1 & H2)|H1]]; [tauto| |tauto].
    rewrite (star_target_fun _ _ _ H1 Ht) in H2. tauto. }
  assert (Hrec' : forall export tgt r', export ∈ l -> star_target nodes url export tgt ->
            rec tgt = Ok r' -> exact (C tgt) r') by (intros x t r' Hx; apply Hrec; by right).
  destruct candidate as [| |m b].
  - by apply (IH star).
  - injection H as <-. destruct Hj as (e1 & e2 & H1 & H2 & Hne). exists e1, e2. tauto.
  - destruct star as [| |m' b'].
    + by apply (IH (Resolution.Resolved m b)).
    + by apply (IH Resolution.Ambiguous).
    + case_bool_decide as Heq; [by apply (IH (Resolution.Resolved m' b'))|].
      injection H as <-. destruct Hj as (e1 & e2 & H1 & H2 & Hne). exists e1, e2. tauto.
Qed.
End StarLoop.

(** ** Exactness at a path *)

Definition resolvable_path (nodes : Nodes) (P : list key) : Prop :=
  Forall (fun k => is_resolvable_module nodes k.1 = true) P.

Lemma resolvable_get nodes url :
  is_resolvable_module nodes url = true -> exists node, nodes_get nodes url = Some node.
Proof. unfold is_resolvable_module. destruct (nodes_get nodes url); [eauto|done]. Qed.

(** Chains through a direct entry, and chains through stars. *)
Lemma chain_direct nodes P url name node export :
  is_resolvable_module nodes url = true -> nodes_get nodes url = Some node ->
  direct_export node name = Some export -> (url, name) ∉ P ->
  forall e, chain nodes P (url, name) e <->
    match direct_step nodes url name node export with
    | Finished r => exists m b, r = Resolution.Resolved m b /\ e = (m, b)
    | Through tgt name' => chain nodes (P ++ [(url, name)]) (tgt, name') e
    end.
Proof.
  intros Hres Hget Hex HP e. split.
  - intros H. inversion H as [P' k e' Hk He|P' k k' e' Hk Hs Hc]; subst.
    + inversion He; subst; [congruence|]. simplify_eq. rewrite_direct. eauto.
    + inversion Hs; subst; simplify_eq. by rewrite_direct.
  - destruct (direct_step nodes url name node export) as [r|tgt name'] eqn:Hd.
    + intros (m & b & -> & ->). apply chain_end; [done|]. by apply end_direct with node export.
    + intros Hc. apply chain_next with (tgt, name'); [done| |done]. by apply step_through with node export.
Qed.

Lemma chain_star nodes P url name node :
  is_resolvable_module nodes url = true -> nodes_get nodes url = Some node ->
  direct_export node name = None -> name <> chars "default" -> (url, name) ∉ P ->
  forall e, chain nodes P (url, name) e <->
    star_bindings nodes url (fun tgt => chain nodes (P ++ [(url, name)]) (tgt, name)) (exports (metadata node)) e.
Proof.
  intros Hres Hget Hex Hname HP e. split.
  - intros H. inversion H as [P' k e' Hk He|P' k k' e' Hk Hs Hc]; subst.
    + inversion He; subst; congruence.
    + inversion Hs; subst; simplify_eq. by exists export, tgt.
  - intros (export & tgt & Hin & Ht & Hc). apply chain_next with (tgt, name); [done| |done].
    by apply step_star with node export.
Qed.

Lemma exact_empty (S : key -> Prop) : (forall e, ~ S e) -> exact S Resolution.Null.
Proof. done. Qed.

Lemma exact_finished nodes P url name node export r :
  is_resolvable_module nodes url = true -> nodes_get nodes url = Some node ->
  direct_export node name = Some export -> (url, name) ∉ P ->
  direct_step nodes url name node export = Finished r -> exact (chain nodes P (url, name)) r.
Proof.
  intros Hres Hget Hex HP Hd.
  pose proof (chain_direct nodes P url name node export Hres Hget Hex HP) as Hc. rewrite Hd in Hc.
  apply (exact_ext (fun e => exists m b, r = Resolution.Resolved m b /\ e = (m, b))); [by intros e; rewrite Hc|].
  assert (Hna : r <> Resolution.Ambiguous).
  { intros ->. unfold direct_step in Hd.
    repeat match type of Hd with context [match ?x with _ => _ end] => destruct x; try discriminate end. }
  destruct r as [| |m b]; simpl; [by intros e (m & b & ? & _)|done|].
  intros e. split; [by intros (m' & b' & [= -> ->] & ->)|intros ->; eauto].
Qed.

Lemma resolve_export_exact_at fuel nodes : forall url name P r,
  resolvable_path nodes P -> resolve_export fuel nodes url name P = Ok r ->
  exact (chain nodes P (url, name)) r.
Proof.
  induction fuel as [|fuel IH]; intros url name P r HP; simpl; [done|].
  destruct (is_resolvable_module nodes url) eqn:Hres; cbn [negb].
  2:{ intros [= <-] e. assert (Hk : (url, name) ∉ P).
      { intros Hin. eapply Forall_forall in HP; [|done]. simpl in HP. congruence. }
      split.
      - intros H. inversion H as [P' k e' Hk' He|P' k k' e' Hk' Hs Hc]; subst;
          [inversion He|inversion Hs]; subst; congruence.
      - intros ->. apply chain_end; [done|]. by constructor. }
  case_bool_decide as Hk.
  { intros [= <-] e H. by inversion H. }
  destruct (resolvable_get _ _ Hres) as (node & Hget). rewrite Hget.
  assert (HP' : resolvable_path nodes (P ++ [(url, name)])).
  { apply Forall_app. split; [done|]. by constructor. }
  destruct (List.find _ _) as [export|] eqn:Hfind.
  - destruct (direct_step nodes url name node export) as [r'|tgt name'] eqn:Hd.
    + intros [= <-]. by apply exact_finished with node export.
    + intros H. apply IH in H; [|done]. revert H. apply exact_ext. intros e.
      rewrite (chain_direct nodes P url name node export) by done. by rewrite Hd.
  - case_bool_decide as Hdef.
    + intros [= <-]. apply exact_empty. intros e H.
      inversion H as [P' k e' Hk' He|P' k k' e' Hk' Hs Hc]; subst.
      * inversion He; subst; unfold direct_export in *; congruence.
      * inversion Hs; subst; unfold direct_export in *; first [congruence|match goal with Hne : _ <> _ |- _ => by apply Hne end].
    + intros H. eapply star_loop_exact with (S := fun _ => False)
        (C := fun tgt => chain nodes (P ++ [(url, name)]) (tgt, name)) in H; [|by intros e []|].
      * revert H. apply exact_ext. intros e. rewrite (chain_star nodes P url name node) by done. tauto.
      * intros x tgt r' Hx Ht Hr. by apply IH.
Qed.

(** ** Enough fuel *)

Definition switch_ok (nodes : Nodes) (names : list str) : Prop := switch_names nodes ⊆ names.

Lemma nodes_get_In nodes url node : nodes_get nodes url = Some node -> (url, node) ∈ nodes.
Proof.
  unfold nodes_get. destruct (List.find _ nodes) as [[u n]|] eqn:Hf; [|done]. intros [= <-].
  apply List.find_some in Hf as [Hin Hu]. simpl in Hu. case_bool_decide; [|done]. subst.
  by apply list_elem_of_In.
Qed.

Lemma nodes_get_key nodes url node : nodes_get nodes url = Some node -> url ∈ map fst nodes.
Proof. intros H. apply nodes_get_In in H. apply list_elem_of_fmap. by exists (url, node). Qed.

Lemma switch_names_elem nodes url node name :
  nodes_get nodes url = Some node ->
  name ∈ omap ex_local (exports (metadata node)) ++ map ni_name (named_imports (metadata node)) ->
  name ∈ switch_names nodes.
Proof.
  intros Hget Hin. apply nodes_get_In in Hget. apply list_elem_of_In, in_flat_map.
  exists (url, node). split; [by apply list_elem_of_In|]. by apply list_elem_of_In.
Qed.

(** A lookup only switches to a name some entry of the graph spells. *)
Lemma direct_step_name nodes url name node export tgt name' :
  nodes_get nodes url = Some node -> direct_export node name = Some export ->
  direct_step nodes url name node export = Through tgt name' -> name' ∈ switch_names nodes.
Proof.
  intros Hget Hex Hd. apply (switch_names_elem _ _ _ _ Hget). apply find_elem_of in Hex as [Hex _].
  unfold direct_step in Hd. apply elem_of_app.
  destruct (ex_local export) as [local|] eqn:Hl, (ex_from export) as [from|] eqn:Hfr.
  - destruct (resolve_specifier nodes url from); [|discriminate]. injection Hd as _ <-.
    left. apply list_elem_of_omap. eauto.
  - destruct (List.find _ _) as [imp|] eqn:Hf; [|discriminate]. apply find_elem_of in Hf as [Hf _].
    destruct (resolve_specifier _ _ _); [|discriminate]. destruct (is_namespace imp); [discriminate|].
    injection Hd as _ <-. right. apply list_elem_of_fmap. eauto.
  - destruct (resolve_specifier nodes url from); discriminate.
  - destruct (List.find _ _) as [imp|] eqn:Hf; [|discriminate]. apply find_elem_of in Hf as [Hf _].
    destruct (resolve_specifier _ _ _); [|discriminate]. destruct (is_namespace imp); [discriminate|].
    injection Hd as _ <-. right. apply list_elem_of_fmap. eauto.
Qed.

Lemma star_loop_Ok rec nodes url l star :
  (forall export tgt, export ∈ l -> star_target nodes url export tgt -> exists r, rec tgt = Ok r) ->
  exists r, star_loop rec nodes url l star = Ok r.
Proof.
  revert star. induction l as [|export l IH]; intros star Hrec; simpl; [eauto|].
  assert (IH' : forall star, exists r, star_loop rec nodes url l star = Ok r).
  { intros s. apply IH. intros x t Hx. apply Hrec. by right. }
  case_bool_decide as Hstar; cbn [negb]; [|done].
  destruct (ex_from export) as [from|] eqn:Hfrom; [|done].
  destruct (resolve_specifier nodes url from) as [tgt|] eqn:Htgt; [|done].
  destruct (Hrec export tgt) as (c & ->); [by left|by split; eauto|]. simpl.
  destruct c, star; try case_bool_decide; eauto.
Qed.

Lemma resolve_export_Ok fuel nodes (names : list str) : switch_ok nodes names ->
  forall url name P, name ∈ names -> NoDup P -> P ⊆ list_prod (map fst nodes) names ->
  length nodes * length names < length P + fuel ->
  exists r, resolve_export fuel nodes url name P = Ok r.
Proof.
  intros Hsw. assert (Hlen : length (list_prod (map fst nodes) names) = length nodes * length names).
  { by rewrite length_prod, length_map. }
  induction fuel as [|fuel IH]; intros url name P Hname Hnd Hsub Hfuel; simpl.
  { apply NoDup_length_le in Hsub; [lia|done]. }
  destruct (is_resolvable_module nodes url) eqn:Hres; cbn [negb]; [|eauto].
  case_bool_decide as Hk; [eauto|].
  destruct (resolvable_get _ _ Hres) as (node & Hget). rewrite Hget.
  assert (NoDup (P ++ [(url, name)]) /\ P ++ [(url, name)] ⊆ list_prod (map fst nodes) names
                /\ length nodes * length names < length (P ++ [(url, name)]) + fuel) as (H1 & H2 & H3).
  { split_and!.
    - apply NoDup_app. split_and!; [done| |apply NoDup_singleton].
      intros x Hx ->%list_elem_of_singleton. done.
    - intros x. rewrite elem_of_app, list_elem_of_singleton. intros [Hx| ->]; [by apply Hsub|].
      apply list_elem_of_In, in_prod; apply list_elem_of_In; [by eapply nodes_get_key|done].
    - rewrite length_app. simpl. lia. }
  destruct (List.find _ _) as [export|] eqn:Hfind.
  - destruct (direct_step nodes url name node export) as [r'|tgt name'] eqn:Hd; [eauto|].
    apply IH; [|done|done|done]. apply Hsw. by eapply direct_step_name.
  - case_bool_decide as Hdef; [eauto|]. apply star_loop_Ok. intros x tgt _ _. by apply IH.
Qed.

Lemma resolve_export_total nodes url name :
  exists r, resolve_export (resolve_fuel nodes) nodes url name [] = Ok r.
Proof.
  apply resolve_export_Ok with (name :: switch_names nodes).
  - intros x Hx. by right.
  - by left.
  - constructor.
  - intros x Hx. by apply elem_of_nil in Hx.
  - unfold resolve_fuel. simpl. lia.
Qed.

