(* ===== verification/ExportTables.v ===== *)
(** * Validation of imports and the export tables

    [validate_resolution] accepts exactly the graphs whose named imports and re-exports each
    denote one binding, and [compute_resolved_exports] tabulates, for every module, the
    unambiguous names of its namespace. *)

From Stdlib Require Import String.
From stdpp Require Import relations.
From S2P Require Import Prelude Slices Opcode Schema Encoding Wordcode Bytecode ModuleGraph ResolveProps.
#[local] Set Warnings "-clear-no-such-hyp".

(** ** Validation *)

(** A request a source module makes: a named import, or a named re-export. *)
Inductive request (nodes : Nodes) : str -> str -> str -> str -> Prop :=
| request_import url node imp :
    (url, node) ∈ nodes -> source_url (metadata node) <> [] ->
    imp ∈ named_imports (metadata node) -> is_namespace imp = false ->
    request nodes url (ni_specifier imp) (ni_name imp) (chars "import")
| request_reexport url node export local from :
    (url, node) ∈ nodes -> source_url (metadata node) <> [] ->
    export ∈ exports (metadata node) -> ex_local export = Some local -> ex_from export = Some from ->
    request nodes url from local (chars "re-export").

(** It is bound when its target, if known and modelled, has exactly one such binding. *)
Definition request_bound (nodes : Nodes) (url spec name : str) : Prop :=
  forall tgt, resolve_specifier nodes url spec = Some tgt -> is_resolvable_module nodes tgt = true ->
  exists e, forall e', binding_of nodes tgt name e' <-> e' = e.

Lemma check_binding_spec nodes url spec name knd :
  (check_binding nodes url spec name knd = Ok tt /\ request_bound nodes url spec name)
  \/ (check_binding nodes url spec name knd = Err (GraphError.Resolution url (resolution_message knd name spec))
      /\ ~ request_bound nodes url spec name).
Proof.
  unfold check_binding, request_bound.
  destruct (resolve_specifier nodes url spec) as [tgt|]; [|by left].
  destruct (is_resolvable_module nodes tgt) eqn:Hres; cbn [negb].
  2:{ left. split; [done|]. intros t [= <-]. congruence. }
  destruct (resolve_export_total nodes tgt name) as (r & Hr).
  pose proof Hr as Hx. apply resolve_export_exact_at in Hx; [|apply Forall_nil_2].
  apply (exact_ext _ (binding_of nodes tgt name)) in Hx; [|apply chain_nil_iff].
  rewrite Hr. destruct r as [| |m b]; simpl in Hx.
  - right. split; [done|]. intros H. destruct (H tgt eq_refl Hres) as (e & He). apply (Hx e). by apply He.
  - right. split; [done|]. intros H. destruct (H tgt eq_refl Hres) as (e & He).
    destruct Hx as (e1 & e2 & H1%He & H2%He & Hne). congruence.
  - left. split; [done|]. intros t [= <-] _. by exists (m, b).
Qed.

Lemma validate_node_spec nodes url node : (url, node) ∈ nodes ->
  (validate_node nodes (url, node) = Ok tt
   /\ forall spec name knd, request [(url, node)] url spec name knd -> request_bound nodes url spec name)
  \/ exists spec name knd, request nodes url spec name knd /\ ~ request_bound nodes url spec name
       /\ validate_node nodes (url, node) = Err (GraphError.Resolution url (resolution_message knd name spec)).
Proof.
  intros Hin. unfold validate_node. case_bool_decide as Hsrc.
  { left. split; [done|]. intros spec name knd H.
    inversion H as [u n imp Hu Hs|u n ex lo fr Hu Hs]; subst; apply list_elem_of_singleton in Hu; by simplify_eq. }
  destruct (for_each_cases (fun import => if is_namespace import then Ok tt
      else check_binding nodes url (ni_specifier import) (ni_name import) (chars "import"))
      (named_imports (metadata node))) as [[-> Himp]|(imp & Hx & Hne & ->)]; cbn [rbind].
  2:{ right. destruct (is_namespace imp) eqn:Hns; [done|].
      destruct (check_binding_spec nodes url (ni_specifier imp) (ni_name imp) (chars "import"))
        as [[? _]|[-> Hnb]]; [done|].
      do 3 eexists. split_and!; [by eapply request_import|done|done]. }
  match goal with |- context [for_each ?f ?l] =>
    destruct (for_each_cases f l) as [[-> Hexp]|(ex & Hx & Hne & ->)] end.
  2:{ right. destruct (ex_local ex) as [local|] eqn:Hl; [|done].
      destruct (ex_from ex) as [from|] eqn:Hf; [|done].
      destruct (check_binding_spec nodes url from local (chars "re-export")) as [[? _]|[-> Hnb]]; [done|].
      do 3 eexists. split_and!; [by eapply request_reexport|done|done]. }
  left. split; [done|]. intros spec name knd H.
  inversion H as [u n imp Hu Hs Hi Hns|u n ex lo fr Hu Hs He Hl Hf]; subst;
    apply list_elem_of_singleton in Hu; simplify_eq.
  - eapply Forall_forall in Himp; [|done]. cbn beta in Himp. rewrite Hns in Himp.
    destruct (check_binding_spec nodes url (ni_specifier imp) (ni_name imp) (chars "import")) as [[_ ?]|[H' _]];
      [done|congruence].
  - eapply Forall_forall in Hexp; [|done]. cbn beta in Hexp. rewrite Hl, Hf in Hexp.
    destruct (check_binding_spec nodes url spec name (chars "re-export")) as [[_ ?]|[H' _]]; [done|congruence].
Qed.

Lemma request_node nodes url spec name knd :
  request nodes url spec name knd -> exists node, (url, node) ∈ nodes /\ request [(url, node)] url spec name knd.
Proof.
  intros H. inversion H as [u n imp Hu Hs|u n ex lo fr Hu Hs]; subst; exists n; (split; [done|]).
  - eapply request_import; eauto. by left.
  - eapply request_reexport; eauto. by left.
Qed.

Lemma validate_resolution_spec nodes :
  (validate_resolution nodes = Ok tt
   /\ forall url spec name knd, request nodes url spec name knd -> request_bound nodes url spec name)
  \/ exists url spec name knd, request nodes url spec name knd /\ ~ request_bound nodes url spec name
       /\ validate_resolution nodes = Err (GraphError.Resolution url (resolution_message knd name spec)).
Proof.
  unfold validate_resolution.
  destruct (for_each_cases (validate_node nodes) nodes) as [[-> Hall]|([url node] & Hx & Hne & ->)].
  - left. split; [done|]. intros url spec name knd (node & Hin & Hr)%request_node.
    rewrite Forall_forall in Hall. specialize (Hall _ Hin).
    destruct (validate_node_spec nodes url node Hin) as [[_ H]|(s & n & k & _ & _ & H)]; [eauto|congruence].
  - destruct (validate_node_spec nodes url node Hx) as [[? _]|(s & n & k & H1 & H2 & H3)]; [done|].
    right. by exists url, s, n, k.
Qed.

(** C29 (error) Validation accepts a graph exactly when every named import and every named
    re-export of a source module, whose target is known and modelled, denotes exactly one
    binding; otherwise it reports one request that does not, with its module, and fails in
    no other way. *)
Theorem validate_resolution_exact nodes :
  (validate_resolution nodes = Ok tt
   /\ forall url spec name knd, request nodes url spec name knd -> request_bound nodes url spec name)
  \/ exists url spec name knd, request nodes url spec name knd /\ ~ request_bound nodes url spec name
       /\ validate_resolution nodes = Err (GraphError.Resolution url (resolution_message knd name spec)).
Proof. apply validate_resolution_spec. Qed.

(** ** Exported names *)

(** An entry of the module itself contributes the name. *)
Definition own_name (nodes : Nodes) (url name : str) : Prop :=
  exists node export, nodes_get nodes url = Some node /\ export ∈ exports (metadata node)
    /\ ex_name export <> chars "*" /\ ex_name export = name.

Definition star_edge (nodes : Nodes) (url tgt : str) : Prop :=
  exists node export, nodes_get nodes url = Some node /\ export ∈ exports (metadata node)
    /\ star_target nodes url export tgt.

(** GetExportedNames: the module's own names, and the names other than [default] of every
    module its stars reach. *)
Definition exported_name (nodes : Nodes) (url name : str) : Prop :=
  own_name nodes url name
  \/ (name <> chars "default" /\ exists m, rtc (star_edge nodes) url m /\ own_name nodes m name).

(** What a call, or the loop over the entries [l], adds: [fresh] is the set of modules it
    newly visits, [src] the modules it starts from. *)
Record visited (nodes : Nodes) (src : str -> Prop) (names seen names' seen' : list str) : Prop := {
  v_seen : (seen ⊆ seen')%stdpp;
  v_names : (names ⊆ names')%stdpp;
  v_src : forall m, src m -> m ∈ seen';
  v_reach : forall m, m ∈ seen' -> m ∉ seen -> exists s, src s /\ rtc (star_edge nodes) s m;
  v_closed : forall m t, m ∈ seen' -> m ∉ seen -> star_edge nodes m t -> t ∈ seen';
  v_complete : forall m n, m ∈ seen' -> m ∉ seen -> own_name nodes m n -> n <> chars "default" -> n ∈ names';
}.

Lemma elem_of_push_unique names name n : n ∈ push_unique names name <-> n ∈ names \/ n = name.
Proof.
  unfold push_unique. case_bool_decide; rewrite ?elem_of_app, ?list_elem_of_singleton; [|done].
  split; [tauto|]. by intros [?| ->].
Qed.

Lemma elem_of_push_non_default inner : forall names n,
  n ∈ foldl push_non_default names inner <-> n ∈ names \/ (n ∈ inner /\ n <> chars "default").
Proof.
  induction inner as [|x inner IH]; intros names n; cbn [foldl].
  { rewrite elem_of_nil. tauto. }
  rewrite IH, elem_of_cons. unfold push_non_default. case_bool_decide as Hx.
  - split; [tauto|]. intros [?|[[-> |?] ?]]; tauto.
  - rewrite elem_of_push_unique. split; [|tauto]. intros [[?| ->]|?]; tauto.
Qed.

(** [names] holds nothing but own names of the modules just visited and of [url] itself. *)
Definition names_sound (nodes : Nodes) (own : str -> Prop) (seen names names' seen' : list str) : Prop :=
  forall n, n ∈ names' -> n ∈ names \/ own n
    \/ (n <> chars "default" /\ exists m, m ∈ seen' /\ (m ∉ seen) /\ own_name nodes m n).

Section NamesLoop.
Context (nodes : Nodes) (url : str).

Definition loop_own (l : list CompiledExport) (n : str) : Prop :=
  exists export, export ∈ l /\ ex_name export <> chars "*" /\ ex_name export = n.
Definition loop_src (l : list CompiledExport) (t : str) : Prop :=
  exists export, export ∈ l /\ star_target nodes url export t.

Definition loop_post (l : list CompiledExport) (names seen names' seen' : list str) : Prop :=
  visited nodes (loop_src l) names seen names' seen'
  /\ (forall n, loop_own l n -> n ∈ names')
  /\ names_sound nodes (loop_own l) seen names names' seen'.

(** An entry that is no star leaves the modules visited to the rest of the loop. *)
Lemma loop_post_skip export l names names1 seen names' seen' :
  (forall t, ~ star_target nodes url export t) ->
  (forall n, n ∈ names1 <-> n ∈ names \/ loop_own [export] n) ->
  loop_post l names1 seen names' seen' -> loop_post (export :: l) names seen names' seen'.
Proof.
  intros Hno Hn ([H1 H2 H3 H4 H5 H6] & Hown & Hsound). split_and!.
  - split; [done|set_solver| | |done|done].
    + intros t (ex & [-> |Hex]%elem_of_cons & Ht); [by destruct (Hno t)|]. apply H3. by exists ex.
    + intros m Hm Hm'. destruct (H4 m Hm Hm') as (s & (ex & Hex & Hs) & Hr). exists s. split; [|done].
      exists ex. split; [by right|done].
  - intros n (ex & [-> |Hex]%elem_of_cons & Hne & Heq); [|apply Hown; by exists ex].
    apply H2, Hn. right. exists export. split; [by left|done].
  - intros n Hin. destruct (Hsound n Hin) as [H|[(ex & Hex & H)|H]]; [| |by auto].
    + apply Hn in H. destruct H as [H|(ex & ->%list_elem_of_singleton & H)]; [by left|]. right; left. exists export. split; [by left|done].
    + right; left. exists ex. split; [by right|done].
Qed.

Lemma loop_post_star export t l names seen inner seen1 names' seen' :
  star_target nodes url export t ->
  visited nodes (eq t) [] seen inner seen1 -> names_sound nodes (own_name nodes t) seen [] inner seen1 ->
  (t ∈ seen -> inner = []) ->
  loop_post l (foldl push_non_default names inner) seen1 names' seen' ->
  loop_post (export :: l) names seen names' seen'.
Proof.
  intros Ht [A1 A2 A3 A4 A5 A6] Asound Aseen ([H1 H2 H3 H4 H5 H6] & Hown & Hsound).
  assert (Hsplit : forall m, m ∈ seen' -> m ∉ seen -> (m ∈ seen1 /\ m ∉ seen) \/ (m ∈ seen' /\ m ∉ seen1)).
  { intros m Hm Hm'. destruct (decide (m ∈ seen1)); auto. }
  assert (Hnames : forall n, n ∈ names \/ (n ∈ inner /\ n <> chars "default") -> n ∈ names').
  { intros n Hn. by apply H2, elem_of_push_non_default. }
  split_and!.
  - split; [set_solver|set_solver| | | |].
    + intros t' (ex & [-> |Hex]%elem_of_cons & Ht'); [|apply H3; by exists ex].
      rewrite (star_target_fun _ _ _ _ _ Ht' Ht). by apply H1, A3.
    + intros m Hm Hm'. destruct (Hsplit m Hm Hm') as [[Hs Hs']|[Hs Hs']].
      * destruct (A4 m Hs Hs') as (s & <- & Hr). exists t. split; [|done]. exists export. split; [by left|done].
      * destruct (H4 m Hs Hs') as (s & (ex & Hex & Hst) & Hr). exists s. split; [|done].
        exists ex. split; [by right|done].
    + intros m t' Hm Hm' He. destruct (Hsplit m Hm Hm') as [[Hs Hs']|[Hs Hs']]; [|by eapply H5].
      apply H1. by eapply A5.
    + intros m n Hm Hm' Ho Hn. destruct (Hsplit m Hm Hm') as [[Hs Hs']|[Hs Hs']]; [|by eapply H6].
      apply Hnames. right. split; [by eapply A6|done].
  - intros n (ex & [-> |Hex]%elem_of_cons & Hne & Heq); [|apply Hown; by exists ex]. by destruct Ht.
  - intros n Hin. destruct (Hsound n Hin) as [H|[(ex & Hex & H)|(Hd & m & Hm & Hm' & Ho)]].
    + apply elem_of_push_non_default in H as [H|[H Hd]]; [by left|]. right; right. split; [done|].
      destruct (Asound n H) as [Hnil|[Ho|(_ & m & Hm & Hm' & Ho)]]; [by apply elem_of_nil in Hnil| |].
      * destruct (decide (t ∈ seen)) as [Hts|Hts]; [rewrite (Aseen Hts) in H; by apply elem_of_nil in H|].
        exists t. split_and!; [by apply H1, A3|done|done].
      * exists m. split_and!; [by apply H1|done|done].
    + right; left. exists ex. split; [by right|done].
    + right; right. split; [done|]. exists m. split_and!; [done| |done]. intros Hs. by apply Hm', A1.
Qed.

Context (rec : str -> list str -> res unit (list str * list str)) (seen0 : list str).
Hypothesis Hrec : forall t seen, seen0 ⊆ seen -> exists names seen',
  rec t seen = Ok (names, seen') /\ visited nodes (eq t) [] seen names seen'
  /\ (t ∈ seen -> names = [])
  /\ names_sound nodes (own_name nodes t) seen [] names seen'.

Lemma names_loop_spec l : forall names seen, seen0 ⊆ seen ->
  exists names' seen', names_loop rec nodes url l names seen = Ok (names', seen') /\ loop_post l names seen names' seen'.
Proof.
  induction l as [|export l IH]; intros names seen Hseen; cbn [names_loop].
  { exists names, seen. split; [done|]. split_and!.
    - split; try done. intros m (ex & Hex & _). by apply elem_of_nil in Hex.
    - intros n (ex & Hex & _). by apply elem_of_nil in Hex.
    - intros n Hn. by left. }
  assert (Hskip : (forall t, ~ star_target nodes url export t) -> forall names1,
      (forall n, n ∈ names1 <-> n ∈ names \/ loop_own [export] n) ->
      exists names' seen', names_loop rec nodes url l names1 seen = Ok (names', seen')
        /\ loop_post (export :: l) names seen names' seen').
  { intros Hno names1 Hn. destruct (IH names1 seen Hseen) as (names' & seen' & Heq & Hp).
    exists names', seen'. split; [done|]. by eapply loop_post_skip. }
  case_bool_decide as Hstar.
  - assert (Hsame : forall n, n ∈ names <-> n ∈ names \/ loop_own [export] n).
    { intros n. split; [by left|]. intros [H|(ex & ->%list_elem_of_singleton & Hne & _)]; [done|by destruct Hne]. }
    destruct (ex_from export) as [from|] eqn:Hf.
    2:{ apply Hskip; [|done]. intros t (_ & f & Hf' & _). congruence. }
    destruct (resolve_specifier nodes url from) as [t|] eqn:Ht.
    2:{ apply Hskip; [|done]. intros t (_ & f & Hf' & Hr). congruence. }
    destruct (Hrec t seen Hseen) as (inner & seen1 & -> & Hv & Hs & Hso). cbn [rbind].
    destruct (IH (foldl push_non_default names inner) seen1) as (names' & seen' & -> & Hp).
    { pose proof (v_seen _ _ _ _ _ _ Hv). set_solver. }
    exists names', seen'. split; [done|]. eapply loop_post_star; eauto. split; eauto.
  - apply Hskip; [by intros t [? _]|]. intros n. rewrite elem_of_push_unique. split.
    + intros [H| ->]; [by left|]. right. exists export. split; [by left|done].
    + intros [H|(ex & ->%list_elem_of_singleton & _ & Heq)]; [by left|by right].
Qed.
End NamesLoop.

Lemma own_name_loop nodes url node n :
  nodes_get nodes url = Some node -> own_name nodes url n <-> loop_own (exports (metadata node)) n.
Proof.
  intros Hget. split.
  - intros (node' & ex & Hget' & Hex & Hn & Heq). simplify_eq. by exists ex.
  - intros (ex & Hex & Hn & Heq). by exists node, ex.
Qed.

Lemma star_edge_loop nodes url node t :
  nodes_get nodes url = Some node -> star_edge nodes url t <-> loop_src nodes url (exports (metadata node)) t.
Proof.
  intros Hget. split.
  - intros (node' & ex & Hget' & Hex & Ht). simplify_eq. by exists ex.
  - intros (ex & Hex & Ht). by exists node, ex.
Qed.

(** The unvisited modules of the graph. *)
Definition unseen (nodes : Nodes) (seen : list str) : nat :=
  length (filter (fun u => u ∉ seen) (map fst nodes)).

(** What a whole call adds to what it was given. *)
Lemma visited_call nodes url node seen names seen' :
  nodes_get nodes url = Some node -> url ∉ seen ->
  loop_post nodes url (exports (metadata node)) [] (seen ++ [url]) names seen' ->
  visited nodes (eq url) [] seen names seen'
  /\ names_sound nodes (own_name nodes url) seen [] names seen'.
Proof.
  intros Hget Hnew ([H1 H2 H3 H4 H5 H6] & Hown & Hsound).
  assert (Hsplit : forall m, m ∈ seen' -> m ∉ seen -> m = url \/ m ∉ seen ++ [url]).
  { intros m Hm Hm'. destruct (decide (m = url)); [by left|]. right. set_solver. }
  split.
  - split; [set_solver|done|set_solver| | |].
    + intros m Hm Hm'. exists url. split; [done|]. destruct (Hsplit m Hm Hm') as [-> |Hs]; [constructor|].
      destruct (H4 m Hm Hs) as (s & Hsrc & Hr). apply rtc_l with s; [|done]. by apply (star_edge_loop _ _ _ _ Hget).
    + intros m t Hm Hm' He. destruct (Hsplit m Hm Hm') as [-> |Hs]; [|by eapply H5].
      apply H3. by apply (star_edge_loop _ _ _ _ Hget).
    + intros m n Hm Hm' Ho Hn. destruct (Hsplit m Hm Hm') as [-> |Hs]; [|by eapply H6].
      apply Hown. by apply (own_name_loop _ _ _ _ Hget).
  - intros n Hn. destruct (Hsound n Hn) as [H|[H|(Hd & m & Hm & Hm' & Ho)]].
    + by left.
    + right; left. by apply (own_name_loop _ _ _ _ Hget).
    + right; right. split; [done|]. exists m. split_and!; [done|set_solver|done].
Qed.

Lemma module_exported_names_spec fuel nodes : forall url seen, unseen nodes seen < fuel ->
  exists names seen', module_exported_names fuel nodes url seen = Ok (names, seen')
  /\ visited nodes (eq url) [] seen names seen'
  /\ (url ∈ seen -> names = [])
  /\ (url ∉ seen -> forall n, own_name nodes url n -> n ∈ names)
  /\ names_sound nodes (own_name nodes url) seen [] names seen'.
Proof.
  induction fuel as [|fuel IH]; intros url seen Hfuel; [lia|]. cbn [module_exported_names].
  case_bool_decide as Hseen.
  { exists [], seen. split_and!; [done| |done|done|by left].
    split; [done|done|by intros m <-|done|done|done]. }
  destruct (nodes_get nodes url) as [node|] eqn:Hget.
  2:{ assert (Hno : forall n, ~ own_name nodes url n) by (intros n (nd & ? & ? & _); congruence).
      assert (Hm : forall m, m ∈ seen ++ [url] -> m ∉ seen -> m = url) by set_solver.
      exists [], (seen ++ [url]). split_and!; [done| |done| |by left].
      - split; [set_solver|done|set_solver| | |].
        + intros m H1 H2. rewrite (Hm m H1 H2). by exists url.
        + intros m t H1 H2. rewrite (Hm m H1 H2). intros (nd & ? & ? & _). congruence.
        + intros m n H1 H2. rewrite (Hm m H1 H2). intros Ho. by destruct (Hno n).
      - intros _ n Ho. by destruct (Hno n). }
  assert (Hless : forall seen1, (seen ++ [url] ⊆ seen1)%stdpp -> unseen nodes seen1 < fuel).
  { intros seen1 Hs. enough (unseen nodes seen1 < unseen nodes seen) by lia.
    apply filter_length_lt with url; [set_solver|by eapply nodes_get_key|done|set_solver]. }
  destruct (names_loop_spec nodes url (module_exported_names fuel nodes) (seen ++ [url])) with
    (l := exports (metadata node)) (names := @nil str) (seen := seen ++ [url])
    as (names & seen' & Heq & Hp); [|done|].
  { intros t seen1 Hs. destruct (IH t seen1 (Hless seen1 Hs)) as (ns & s' & H1 & H2 & H3 & _ & H5). eauto 10. }
  exists names, seen'. destruct (visited_call _ _ _ _ _ _ Hget Hseen Hp) as [Hv Hs].
  split_and!; [done|done|done| |done].
  intros _ n Ho. destruct Hp as (_ & Hown & _). apply Hown. by apply (own_name_loop _ _ _ _ Hget).
Qed.

(** From an empty [seen], the names are exactly those of the specification. *)
Lemma module_exported_names_exact nodes url :
  exists names seen', module_exported_names (names_fuel nodes) nodes url [] = Ok (names, seen')
  /\ forall n, n ∈ names <-> exported_name nodes url n.
Proof.
  destruct (module_exported_names_spec (names_fuel nodes) nodes url []) as (names & seen' & Heq & Hv & _ & Hown & Hs).
  { unfold unseen, names_fuel. etrans; [apply Nat.lt_succ_r, length_filter|]. rewrite length_map. lia. }
  assert (Hnil : forall m, m ∉ @nil str) by apply not_elem_of_nil.
  exists names, seen'. split; [done|]. intros n. split.
  - intros Hn. destruct (Hs n Hn) as [H|[H|(Hd & m & Hm & _ & Ho)]].
    + by apply elem_of_nil in H.
    + by left.
    + right. split; [done|]. exists m. split; [|done].
      by destruct (v_reach _ _ _ _ _ _ Hv m Hm (Hnil m)) as (s & <- & Hr).
  - intros [Ho|(Hd & m & Hr & Ho)]; [by apply Hown|].
    assert (Hm : m ∈ seen').
    { pose proof (v_src _ _ _ _ _ _ Hv url eq_refl) as Hu. pose proof (v_closed _ _ _ _ _ _ Hv) as Hc.
      clear Hown Hs Hv Heq Ho. induction Hr as [u|u v w He Hr IHr]; [done|].
      apply IHr. by apply (Hc u v). }
    by apply (v_complete _ _ _ _ _ _ Hv m n Hm (Hnil m)).
Qed.

(** ** The resolved-export tables *)

Lemma table_get_insert {A} (table : list (str * A)) k v k' :
  table_get (table_insert table k v) k' = if bool_decide (k = k') then Some v else table_get table k'.
Proof.
  unfold table_get. induction table as [|[k0 v0] table IH]; simpl.
  - by case_bool_decide.
  - destruct (bool_decide (k0 = k)) eqn:Hk; simpl.
    + apply bool_decide_eq_true in Hk. subst. by case_bool_decide.
    + apply bool_decide_eq_false in Hk. destruct (decide (k0 = k')) as [-> |Hne].
      * rewrite bool_decide_eq_true_2 by done. by rewrite bool_decide_eq_false_2 by congruence.
      * by rewrite (bool_decide_eq_false_2 (k0 = k')).
Qed.

(** A module's table maps a name to a binding exactly when the namespace has the name and
    it denotes that binding only. *)
Definition is_table (nodes : Nodes) (url : str) (table : list (str * ResolvedBinding)) : Prop :=
  forall n b, table_get table n = Some b <->
    exported_name nodes url n /\ (forall e, binding_of nodes url n e <-> e = (defining_module b, rb_binding b)).

Lemma resolve_export_iff nodes url n b :
  resolve_export (resolve_fuel nodes) nodes url n [] = Ok (Resolution.Resolved (defining_module b) (rb_binding b))
  <-> forall e, binding_of nodes url n e <-> e = (defining_module b, rb_binding b).
Proof.
  destruct (resolve_export_total nodes url n) as (r & Hr).
  pose proof Hr as Hx. apply resolve_export_exact_at in Hx; [|apply Forall_nil_2].
  apply (exact_ext _ (binding_of nodes url n)) in Hx; [|apply chain_nil_iff].
  rewrite <- (exact_resolved_iff _ _ _ _ Hx), Hr. split; congruence.
Qed.

Lemma resolved_table_spec nodes url names : forall table,
  exists table', resolved_table nodes url names table = Ok table'
  /\ forall n b, table_get table' n = Some b <->
       (n ∈ names /\ resolve_export (resolve_fuel nodes) nodes url n []
                     = Ok (Resolution.Resolved (defining_module b) (rb_binding b)))
       \/ (table_get table n = Some b
           /\ forall m bd, n ∈ names -> resolve_export (resolve_fuel nodes) nodes url n [] <> Ok (Resolution.Resolved m bd)).
Proof.
  induction names as [|name names IH]; intros table; cbn [resolved_table].
  { exists table. split; [done|]. intros n b. split.
    - intros H. right. split; [done|]. by intros m bd ?%elem_of_nil.
    - intros [[H _]|[H _]]; [by apply elem_of_nil in H|done]. }
  destruct (resolve_export_total nodes url name) as (r & Hr). rewrite Hr. cbn [rbind].
  assert (Hnr : (forall m bd, r <> Resolution.Resolved m bd) -> exists table',
    resolved_table nodes url names table = Ok table' /\ forall n b, table_get table' n = Some b <->
       (n ∈ name :: names /\ resolve_export (resolve_fuel nodes) nodes url n []
                     = Ok (Resolution.Resolved (defining_module b) (rb_binding b)))
       \/ (table_get table n = Some b
           /\ forall m bd, n ∈ name :: names ->
                resolve_export (resolve_fuel nodes) nodes url n [] <> Ok (Resolution.Resolved m bd))).
  { intros Hno. destruct (IH table) as (table' & Heq & Ht). exists table'. split; [done|].
    intros n b. rewrite Ht. setoid_rewrite elem_of_cons. destruct (decide (n = name)) as [-> |Hne]; [|naive_solver].
    rewrite Hr. naive_solver congruence. }
  destruct r as [| |m bd]; [by apply Hnr|by apply Hnr|].
  destruct (IH (table_insert table name (mkResolvedBinding m bd))) as (table' & Heq & Ht).
  exists table'. split; [done|]. intros n b. rewrite Ht, table_get_insert. setoid_rewrite elem_of_cons.
  case_bool_decide as Hn; [|naive_solver]. subst n. rewrite Hr. destruct b as [bm bb]. simpl.
  destruct (decide (name ∈ names)); naive_solver congruence.
Qed.

Lemma resolved_table_is_table nodes url names :
  (forall n, n ∈ names <-> exported_name nodes url n) ->
  exists table, resolved_table nodes url names [] = Ok table /\ is_table nodes url table.
Proof.
  intros Hn. destruct (resolved_table_spec nodes url names []) as (table & Heq & Ht).
  exists table. split; [done|]. intros n b. rewrite Ht, resolve_export_iff, Hn. split; [|tauto].
  intros [?|[? _]]; [tauto|done].
Qed.

Lemma compute_resolved_loop_spec nodes rest : forall out,
  exists out', compute_resolved_loop nodes rest out = Ok out'
  /\ forall url, (exists node, (url, node) ∈ rest /\ source_url (metadata node) <> [])
                 \/ (exists table, table_get out url = Some table /\ is_table nodes url table) ->
       exists table, table_get out' url = Some table /\ is_table nodes url table.
Proof.
  induction rest as [|[u nd] rest IH]; intros out; cbn [compute_resolved_loop].
  { exists out. split; [done|]. intros url [(node & H & _)|H]; [by apply elem_of_nil in H|done]. }
  case_bool_decide as Hsrc.
  - destruct (IH out) as (out' & Heq & H). exists out'. split; [done|].
    intros url [(node & [[= -> ->]|Hin]%elem_of_cons & Hne)|Ht]; [done|apply H; eauto|apply H; eauto].
  - destruct (module_exported_names_exact nodes u) as (names & seen' & -> & Hnames). cbn [rbind].
    destruct (resolved_table_is_table nodes u names Hnames) as (table & -> & Htable). cbn [rbind].
    destruct (IH (table_insert out u table)) as (out' & Heq & H). exists out'. split; [done|].
    intros url Hurl. apply H. destruct (decide (u = url)) as [-> |Hne].
    + right. exists table. by rewrite table_get_insert, bool_decide_eq_true_2.
    + destruct Hurl as [(node & [[= -> ->]|Hin]%elem_of_cons & Hs)|(t & Ht & Hi)]; [done|left; eauto|].
      right. exists t. by rewrite table_get_insert, bool_decide_eq_false_2.
Qed.

Lemma compute_resolved_spec nodes :
  exists out, compute_resolved_exports nodes = Ok out
  /\ forall url node, (url, node) ∈ nodes -> source_url (metadata node) <> [] ->
     exists table, table_get out url = Some table /\ is_table nodes url table.
Proof.
  destruct (compute_resolved_loop_spec nodes nodes []) as (out & Heq & H). exists out. split; [done|].
  intros url node Hin Hs. apply H. left. eauto.
Qed.

(** C28 (functional) The linker computes a table for every source module of the graph, and
    the table maps a name to a binding exactly when the name belongs to the module's
    namespace (its own entries, or non-[default] names of a module reached by [export *])
    and following re-exports ends at that one binding: unresolved and ambiguous names are
    left out. *)
Theorem compute_resolved_exports_exact nodes :
  exists out, compute_resolved_exports nodes = Ok out
  /\ forall url node, (url, node) ∈ nodes -> source_url (metadata node) <> [] ->
     exists table, table_get out url = Some table /\ is_table nodes url table.
Proof. apply compute_resolved_spec. Qed.
