(* ===== verification/OrderProps.v ===== *)
(** * The evaluation order

    [topological_order] visits the graph depth first and emits a module when all the
    dependencies it follows have been visited.  The async set it consults is the one of
    the specification; the loops terminate; the order lists every module once, after the
    dependencies that do not depend on it back. *)

From Stdlib Require Import String.
From stdpp Require Import relations.
From S2P Require Import Prelude Slices Opcode Schema Encoding Wordcode Bytecode ModuleGraph ResolveProps.
#[local] Set Warnings "-clear-no-such-hyp".

(** Summing over distinct URLs counts every node at most once. *)
Lemma nodes_get_sum {B} (f : ModuleNode -> list B) (ns : Nodes) U : NoDup U ->
  sum_list (map (fun u => length (match nodes_get ns u with Some node => f node | None => [] end)) U)
  <= length (flat_map (fun kv => f kv.2) ns).
Proof.
  intros HU. induction ns as [|[k nd] ns IH].
  { simpl. clear. induction U; simpl; [done|lia]. }
  simpl. rewrite length_app. etrans; [|apply Nat.add_le_mono_l, IH]. clear IH.
  induction HU as [|u U Hu HU IH]; [simpl; lia|].
  cbn [map sum_list_with id]. unfold nodes_get at 1. simpl. case_bool_decide as Hk; simpl.
  - subst k. enough (sum_list (map (fun v => length (match nodes_get ((u, nd) :: ns) v with
        Some node => f node | None => [] end)) U)
      = sum_list (map (fun v => length (match nodes_get ns v with Some node => f node | None => [] end)) U)) as ->
      by (unfold nodes_get; lia).
    f_equal. apply map_ext_in. intros v Hv. unfold nodes_get. simpl. rewrite bool_decide_eq_false_2; [done|].
    intros ->. by apply Hu, list_elem_of_In.
  - unfold nodes_get in *. simpl in *. lia.
Qed.

(** ** The async-evaluated modules *)

Definition eager_edge (nodes : Nodes) (a b : str) : Prop :=
  exists edge, edge ∈ all_edges nodes /\ mr_deferred edge = false /\ referrer edge = a /\ mr_target edge = b.

(** [AsyncEvaluation]: a chain of non-deferred edges leads to a top-level await. *)
Definition async_evaluated (nodes : Nodes) (has_tla : str -> Prop) (u : str) : Prop :=
  exists v, rtc (eager_edge nodes) u v /\ has_tla v.

Section AsyncLoop.
Context (nodes : Nodes) (start : list str).

Definition async_sound (s : list str) : Prop := forall u, u ∈ s -> async_evaluated nodes (.∈ start) u.

Lemma async_pass_changed l : forall s, snd (async_pass l s true) = true.
Proof. induction l as [|edge l IH]; intros s; cbn [async_pass]; [done|]. by case_match. Qed.

Lemma async_sound_insert s edge :
  edge ∈ all_edges nodes -> mr_deferred edge = false -> mr_target edge ∈ s ->
  async_sound s -> async_sound (s ++ [referrer edge]).
Proof.
  intros He Hd Ht Hs u [Hu| ->%list_elem_of_singleton]%elem_of_app; [by apply Hs|].
  destruct (Hs _ Ht) as (v & Hv & Hv'). exists v. split; [|done]. apply rtc_l with (mr_target edge); [|done].
  by exists edge.
Qed.

Lemma async_pass_spec l : forall s c s' c', (l ⊆ all_edges nodes)%stdpp ->
  async_pass l s c = (s', c') -> async_sound s ->
  (s ⊆ s')%stdpp /\ async_sound s'
  /\ (c' = true -> c = true \/ exists edge, edge ∈ l /\ referrer edge ∈ s' /\ ~ referrer edge ∈ s)
  /\ (c' = false -> s' = s /\ forall edge, edge ∈ l -> mr_deferred edge = false -> mr_target edge ∈ s -> referrer edge ∈ s).
Proof.
  induction l as [|edge l IH]; intros s c s' c' Hl Hp Hs; cbn [async_pass] in Hp.
  { injection Hp as -> ->. split_and!; [done|done|by left|]. intros _. split; [done|]. by intros e ?%elem_of_nil. }
  assert (Hl' : (l ⊆ all_edges nodes)%stdpp) by (intros x Hx; apply Hl; by right).
  destruct (negb (mr_deferred edge) && bool_decide (mr_target edge ∈ s)
              && negb (bool_decide (referrer edge ∈ s)))%bool eqn:Hcond.
  - apply andb_prop in Hcond as [[Hd Ht]%andb_prop Hr]. apply negb_true_iff in Hd, Hr.
    apply bool_decide_eq_true in Ht. apply bool_decide_eq_false in Hr.
    destruct (IH _ _ _ _ Hl' Hp) as (H1 & H2 & _ & _).
    { apply async_sound_insert; [apply Hl; by left|done|done|done]. }
    pose proof (async_pass_changed l (s ++ [referrer edge])) as Hc. rewrite Hp in Hc. simpl in Hc. subst c'.
    split_and!; [set_solver|done| |done].
    intros _. right. exists edge. split_and!; [by left|apply H1; set_solver|done].
  - destruct (IH _ _ _ _ Hl' Hp Hs) as (H1 & H2 & H3 & H4). split_and!; [done|done| |].
    + intros Hc. destruct (H3 Hc) as [?|(e & He & He')]; [by left|]. right. exists e. split; [by right|done].
    + intros Hc. destruct (H4 Hc) as [-> Hcl]. split; [done|].
      intros e [-> |He]%elem_of_cons Hd' Ht'; [|by apply Hcl].
      rewrite Hd', (bool_decide_eq_true_2 _ Ht') in Hcond. simpl in Hcond. by case_bool_decide.
Qed.

(** The referrers not yet in the set. *)
Definition pending (s : list str) : nat := length (filter (fun u => u ∉ s) (map referrer (all_edges nodes))).

Lemma async_loop_spec fuel : forall s, pending s < fuel -> async_sound s -> (start ⊆ s)%stdpp ->
  exists s', async_loop fuel (all_edges nodes) s = Ok s' /\ forall u, u ∈ s' <-> async_evaluated nodes (.∈ start) u.
Proof.
  induction fuel as [|fuel IH]; intros s Hf Hs Hstart; [lia|]. cbn [async_loop].
  destruct (async_pass (all_edges nodes) s false) as [s' c'] eqn:Hp.
  destruct (async_pass_spec _ _ _ _ _ (fun x Hx => Hx) Hp Hs) as (H1 & H2 & H3 & H4). destruct c'.
  - destruct (H3 eq_refl) as [?|(edge & He & Hr & Hr')]; [done|]. apply IH; [|done|set_solver].
    enough (pending s' < pending s) by lia. apply filter_length_lt with (referrer edge); [set_solver| |done|by intros ?].
    apply list_elem_of_fmap. by exists edge.
  - destruct (H4 eq_refl) as [-> Hcl]. exists s. split; [done|]. intros u. split; [apply Hs|].
    intros (v & Hr & Hv). induction Hr as [u|u w v (edge & He & Hd & <- & <-) Hr IHr]; [by apply Hstart|].
    apply Hcl; [done|done|]. by apply IHr.
Qed.

Lemma async_loop_exact :
  exists s', async_loop (async_fuel nodes) (all_edges nodes) start = Ok s'
  /\ forall u, u ∈ s' <-> async_evaluated nodes (.∈ start) u.
Proof.
  apply async_loop_spec; [|intros u Hu; exists u; split; [constructor|done]|done].
  unfold pending, async_fuel. apply Nat.lt_succ_r. etrans; [apply length_filter|]. by rewrite length_map.
Qed.
End AsyncLoop.

(** ** The depth-first visit *)

Section Visit.
Context (nodes : Nodes) (async : str -> Prop) (root : str -> Prop).

(** The dependency edges the visit follows. *)
Definition follows (edge : ModuleEdge) : Prop := me_deferred edge = false \/ async (me_target edge).
Definition followed (u v : str) : Prop :=
  exists node edge, nodes_get nodes u = Some node /\ edge ∈ deps node /\ follows edge /\ me_target edge = v.

(** Consecutive entries of the stack are joined by a followed edge. *)
Fixpoint linked (l : list str) : Prop :=
  match l with
  | v :: (u :: _) as l' => followed u v /\ linked l'
  | _ => True
  end.

Lemma linked_tail v l : linked (v :: l) -> linked l.
Proof. destruct l; [done|]. by intros [_ H]. Qed.

Lemma linked_reach v l u : linked (v :: l) -> u ∈ v :: l -> rtc followed u v.
Proof.
  revert v. induction l as [|w l IH]; intros v Hl Hu.
  - apply list_elem_of_singleton in Hu as ->. constructor.
  - apply elem_of_cons in Hu as [-> |Hu]; [constructor|]. destruct Hl as [Hf Hl].
    apply rtc_r with w; [|done]. by apply IH.
Qed.

Lemma marks_get_cons u m marks v :
  marks_get ((u, m) :: marks) v = if bool_decide (u = v) then Some m else marks_get marks v.
Proof. unfold marks_get. simpl. by case_bool_decide. Qed.

Lemma marks_get_mono u m marks v : marks_get marks v <> None -> marks_get ((u, m) :: marks) v <> None.
Proof. intros Hv. rewrite marks_get_cons. by case_bool_decide. Qed.

Record visit_inv (marks : Marks) (order : list str) (stack : list (str * nat)) : Prop := {
  vi_done : forall u, marks_get marks u = Some Done <-> u ∈ order;
  vi_progress : forall u, marks_get marks u = Some InProgress <-> u ∈ map fst stack;
  vi_order : NoDup order;
  vi_stack : NoDup (map fst stack);
  vi_linked : linked (map fst stack);
  vi_children : forall u i node j edge, (u, i) ∈ stack -> nodes_get nodes u = Some node ->
    j < i -> deps node !! j = Some edge -> follows edge -> marks_get marks (me_target edge) <> None;
  vi_closed : forall u v, u ∈ order -> followed u v -> marks_get marks v <> None;
  vi_post : forall l1 u l2 v, order = l1 ++ u :: l2 -> followed u v -> v ∈ l1 \/ rtc followed v u;
  vi_reach : forall u, marks_get marks u <> None -> exists r, root r /\ rtc followed r u;
}.

(** Advancing the child index of a frame past an edge whose target is marked, or is not
    followed. *)
Lemma visit_inv_advance marks order pre u i rest node edge :
  visit_inv marks order (pre ++ (u, i) :: rest) -> nodes_get nodes u = Some node -> deps node !! i = Some edge ->
  (follows edge -> marks_get marks (me_target edge) <> None) ->
  visit_inv marks order (pre ++ (u, S i) :: rest).
Proof.
  intros [H1 H2 H3 H4 H5 H6 H7 H8 H9] Hget Hedge Hm.
  assert (Hfst : map fst (pre ++ (u, S i) :: rest) = map fst (pre ++ (u, i) :: rest)) by by rewrite !map_app.
  split; rewrite ?Hfst; try done.
  intros u' i' node' j edge' Hin Hget' Hj Hedge' Hf.
  apply elem_of_app in Hin as [Hin|[[= -> ->]|Hin]%elem_of_cons].
  - apply (H6 u' i' node' j edge'); [set_solver|done..].
  - simplify_eq. destruct (decide (j = i)) as [-> |Hne]; [simplify_eq; by apply Hm|].
    apply (H6 u i node j edge'); [set_solver|done|lia|done|done].
  - apply (H6 u' i' node' j edge'); [set_solver|done..].
Qed.

(** Finishing the top frame. *)
Lemma visit_inv_finish marks order u i rest :
  visit_inv marks order ((u, i) :: rest) ->
  (forall node edge, nodes_get nodes u = Some node -> edge ∈ deps node -> follows edge ->
     marks_get marks (me_target edge) <> None) ->
  visit_inv ((u, Done) :: marks) (order ++ [u]) rest.
Proof.
  intros [H1 H2 H3 H4 H5 H6 H7 H8 H9] Hch.
  assert (Hu : marks_get marks u = Some InProgress) by (apply H2; by left).
  assert (Huo : u ∉ order) by (rewrite <- H1; congruence).
  cbn [map fst] in H4. apply NoDup_cons in H4 as [Hur H4].
  pose proof (marks_get_mono u Done marks) as Hmono.
  assert (Hfol : forall v, followed u v -> marks_get marks v <> None).
  { intros v (node & edge & Hn & He & Hf & <-). by eapply Hch. }
  split.
  - intros v. rewrite marks_get_cons, elem_of_app, list_elem_of_singleton. case_bool_decide; [subst; naive_solver|].
    rewrite H1. naive_solver.
  - intros v. rewrite marks_get_cons. case_bool_decide; [subst; naive_solver|]. rewrite H2. cbn [map fst].
    rewrite elem_of_cons. naive_solver.
  - apply NoDup_app. split_and!; [done| |apply NoDup_singleton]. by intros x Hx ->%list_elem_of_singleton.
  - done.
  - by eapply linked_tail.
  - intros u' i' node j edge Hin Hn Hj He Hf. apply Hmono. apply (H6 u' i' node j edge); [by right|done..].
  - intros u' v [Hu'| ->%list_elem_of_singleton]%elem_of_app Hf; apply Hmono; [by eapply H7|by apply Hfol].
  - intros l1 u' l2 v Heq Hf. destruct l2 as [|w l2 _] using rev_ind.
    + apply app_inj_tail in Heq as [-> ->]. specialize (Hfol v Hf).
      destruct (marks_get marks v) as [[]|] eqn:Hv; [|left; by apply H1|done].
      right. apply H2 in Hv. by eapply linked_reach.
    + rewrite app_comm_cons, app_assoc in Heq. apply app_inj_tail in Heq as [-> ->]. by eapply H8.
  - intros v. rewrite marks_get_cons. case_bool_decide; [|apply H9]. subst. intros _. apply H9. congruence.
Qed.

(** Entering an unmarked module. *)
Lemma visit_inv_push marks order stack v :
  visit_inv marks order stack -> marks_get marks v = None ->
  linked (v :: map fst stack) -> (exists r, root r /\ rtc followed r v) ->
  visit_inv ((v, InProgress) :: marks) order ((v, 0) :: stack).
Proof.
  intros [H1 H2 H3 H4 H5 H6 H7 H8 H9] Hv Hl Hr.
  pose proof (marks_get_mono v InProgress marks) as Hmono.
  split.
  - intros u. rewrite marks_get_cons. case_bool_decide; [subst|by rewrite H1].
    rewrite <- H1. naive_solver.
  - intros u. rewrite marks_get_cons. cbn [map fst]. rewrite elem_of_cons. case_bool_decide; [naive_solver|].
    rewrite H2. naive_solver.
  - done.
  - apply NoDup_cons. split; [|done]. intros Hin. apply H2 in Hin. simpl in Hin. congruence.
  - done.
  - intros u i node j edge [[= -> ->]|Hin]%elem_of_cons Hn Hj He Hf; [lia|]. apply Hmono. by eapply H6.
  - intros u w Hu Hf. apply Hmono. by eapply H7.
  - done.
  - intros u. rewrite marks_get_cons. case_bool_decide; [by subst|]. apply H9.
Qed.

(** *** Termination *)

Definition deps_len (u : str) : nat :=
  match nodes_get nodes u with
  | Some node => length (deps node)
  | None => 0
  end.

Definition frame_weight (f : str * nat) : nat := S (deps_len f.1 - f.2).

(** The steps left: the frames, and the modules of the universe still to be entered. *)
Definition weight (U : list str) (marks : Marks) (stack : list (str * nat)) : nat :=
  sum_list (map frame_weight stack)
  + sum_list (map (fun u => S (deps_len u)) (filter (fun u => marks_get marks u = None) U)).

Definition universe (U : list str) : Prop :=
  forall u node edge, nodes_get nodes u = Some node -> edge ∈ deps node -> me_target edge ∈ U.

Lemma weight_mark U marks v m : forall stack,
  sum_list (map (fun u => S (deps_len u)) (filter (fun u => marks_get ((v, m) :: marks) u = None) U))
  <= sum_list (map (fun u => S (deps_len u)) (filter (fun u => marks_get marks u = None) U))
  /\ (marks_get marks v = None -> v ∈ U -> weight U ((v, m) :: marks) ((v, 0) :: stack) <= weight U marks stack).
Proof.
  assert (Hmono : forall u, marks_get ((v, m) :: marks) u = None -> marks_get marks u = None).
  { intros u. rewrite marks_get_cons. by case_bool_decide. }
  intros stack. split; [by apply sum_filter_mono|]. intros Hv HU. unfold weight. cbn [map sum_list_with id].
  pose proof (sum_filter_drop (fun u => S (deps_len u)) (fun u => marks_get marks u = None)
    (fun u => marks_get ((v, m) :: marks) u = None) U v Hmono HU Hv) as Hd.
  specialize (Hd ltac:(cbn beta; rewrite marks_get_cons; by rewrite bool_decide_eq_true_2)).
  unfold frame_weight at 1. simpl in *. lia.
Qed.

(** *** The loop *)

Definition too_deep : Prop := exists l, linked l /\ NoDup l /\ MODULE_DEPTH_LIMIT < length l.

Lemma visit_loop_spec async_eval U : (forall u, u ∈ async_eval <-> async u) -> universe U -> forall fuel marks order stack,
  visit_inv marks order stack -> weight U marks stack < fuel ->
  (exists marks' order', visit_loop fuel nodes async_eval marks order stack = Ok (marks', order')
     /\ visit_inv marks' order' [] /\ forall u, marks_get marks u <> None -> marks_get marks' u <> None)
  \/ (exists url, visit_loop fuel nodes async_eval marks order stack = Err (GraphError.Cycle url) /\ too_deep).
Proof.
  intros Hasync HU. induction fuel as [|fuel IH]; intros marks order stack Hinv Hw; [lia|]. cbn [visit_loop].
  destruct stack as [|[u i] rest]; [left; eauto|].
  destruct (MODULE_DEPTH_LIMIT <? length ((u, i) :: rest)) eqn:Hdepth.
  { right. exists u. split; [done|]. exists (map fst ((u, i) :: rest)). apply Nat.ltb_lt in Hdepth.
    split_and!; [apply Hinv|apply Hinv|by rewrite length_map]. }
  assert (Hfin : (forall node edge, nodes_get nodes u = Some node -> edge ∈ deps node -> follows edge ->
     marks_get marks (me_target edge) <> None) ->
    (exists marks' order', visit_loop fuel nodes async_eval ((u, Done) :: marks) (order ++ [u]) rest
       = Ok (marks', order') /\ visit_inv marks' order' []
       /\ forall v, marks_get marks v <> None -> marks_get marks' v <> None)
    \/ (exists url, visit_loop fuel nodes async_eval ((u, Done) :: marks) (order ++ [u]) rest
         = Err (GraphError.Cycle url) /\ too_deep)).
  { intros Hch. destruct (IH ((u, Done) :: marks) (order ++ [u]) rest) as [(m' & o' & H1 & H2 & H3)|H]; [| |left|by right].
    - by eapply visit_inv_finish.
    - destruct (weight_mark U marks u Done rest) as [Hm _]. unfold weight in *. cbn [map sum_list_with id] in Hw.
      unfold frame_weight at 1 in Hw. lia.
    - exists m', o'. split_and!; [done|done|]. intros v Hv. by apply H3, marks_get_mono. }
  destruct (nodes_get nodes u) as [node|] eqn:Hget; [|by apply Hfin].
  destruct (deps node !! i) as [edge|] eqn:Hedge.
  2:{ apply Hfin. intros nd edge [= <-] [j Hj]%list_elem_of_lookup Hf.
      apply (vi_children _ _ _ Hinv u i node j edge); [by left|done| |done|done].
      apply lookup_lt_Some in Hj. apply lookup_ge_None in Hedge. lia. }
  assert (Hlen : i < deps_len u) by (unfold deps_len; rewrite Hget; by eapply lookup_lt_Some).
  assert (Hw' : S (weight U marks ((u, S i) :: rest)) < S fuel).
  { unfold weight in *. cbn [map sum_list_with id] in *. unfold frame_weight at 1 in Hw. unfold frame_weight at 1.
    cbn [fst snd] in *. lia. }
  assert (Hskip : (follows edge -> marks_get marks (me_target edge) <> None) ->
    (exists marks' order', visit_loop fuel nodes async_eval marks order ((u, S i) :: rest) = Ok (marks', order')
       /\ visit_inv marks' order' [] /\ forall v, marks_get marks v <> None -> marks_get marks' v <> None)
    \/ (exists url, visit_loop fuel nodes async_eval marks order ((u, S i) :: rest)
         = Err (GraphError.Cycle url) /\ too_deep)).
  { intros Hm. apply IH; [|lia]. by eapply (visit_inv_advance _ _ []). }
  destruct (me_deferred edge && negb (bool_decide (me_target edge ∈ async_eval)))%bool eqn:Hdef.
  { apply Hskip. intros [Hf|Hf].
    - by rewrite Hf in Hdef.
    - apply Hasync in Hf. rewrite (bool_decide_eq_true_2 _ Hf), andb_false_r in Hdef. done. }
  destruct (marks_get marks (me_target edge)) as [[]|] eqn:Hmark; [apply Hskip; congruence..|].
  assert (Hfol : followed u (me_target edge)).
  { exists node, edge. split_and!; [done|by eapply list_elem_of_lookup_2| |done]. unfold follows.
    destruct (me_deferred edge); [right|by left]. simpl in Hdef. case_bool_decide as Ha; [|done].
    by apply Hasync. }
  assert (Hpush : visit_inv ((me_target edge, InProgress) :: marks) order ((me_target edge, 0) :: (u, S i) :: rest)).
  { apply (visit_inv_advance _ _ [(me_target edge, 0)] u i rest node edge); [|done|done|].
    2:{ intros _. rewrite marks_get_cons. by rewrite bool_decide_eq_true_2. }
    apply visit_inv_push; [done|done| |].
    - split; [done|]. apply (vi_linked _ _ _ Hinv).
    - destruct (vi_reach _ _ _ Hinv u) as (r & Hr & Hru).
      + rewrite (proj2 (vi_progress _ _ _ Hinv u)); [done|by left].
      + exists r. split; [done|]. by eapply rtc_r. }
  destruct (IH _ _ _ Hpush) as [(m' & o' & H1 & H2 & H3)|H]; [|left|by right].
  - destruct (weight_mark U marks (me_target edge) InProgress ((u, S i) :: rest)) as [_ Hm].
    specialize (Hm Hmark (HU _ _ _ Hget (list_elem_of_lookup_2 _ _ _ Hedge))). lia.
  - exists m', o'. split_and!; [done|done|]. intros v Hv. by apply H3, marks_get_mono.
Qed.

(** *** The fuel *)

Lemma deps_len_sum U : NoDup U -> sum_list (map deps_len U) <= length (flat_map (fun kv => deps kv.2) nodes).
Proof.
  intros HU. rewrite <- (nodes_get_sum deps nodes U HU). apply Nat.eq_le_incl. f_equal. apply map_ext.
  intros u. unfold deps_len. by destruct (nodes_get nodes u).
Qed.

Definition graph_urls (entry : str) : list str :=
  remove_dups (entry :: map fst nodes ++ map me_target (flat_map (fun kv => deps kv.2) nodes)).

Lemma graph_urls_universe entry : universe (graph_urls entry).
Proof.
  intros u node edge Hget He. apply elem_of_remove_dups. right. apply elem_of_app. right.
  apply list_elem_of_fmap. exists edge. split; [done|]. apply list_elem_of_In, in_flat_map.
  exists (u, node). split; apply list_elem_of_In; [by apply nodes_get_In|done].
Qed.

Lemma remove_dups_length (l : list str) : length (remove_dups l) <= length l.
Proof. apply NoDup_length_le; [apply NoDup_remove_dups|]. intros x. by rewrite elem_of_remove_dups. Qed.

Lemma weight_fuel entry marks : weight (graph_urls entry) marks [] < visit_fuel nodes.
Proof.
  unfold weight. cbn [map sum_list_with id].
  assert (H1 : sum_list (map (fun u => S (deps_len u)) (filter (fun u => marks_get marks u = None) (graph_urls entry)))
               <= sum_list (map (fun u => S (deps_len u)) (filter (fun _ => True) (graph_urls entry)))).
  { by apply sum_filter_mono. }
  assert (H2 : filter (fun _ : str => True) (graph_urls entry) = graph_urls entry).
  { clear. induction (graph_urls entry) as [|x l IH]; [done|]. rewrite filter_cons_True by done. by rewrite IH. }
  assert (H3 : forall l, sum_list (map (fun u => S (deps_len u)) l) = length l + sum_list (map deps_len l)).
  { induction l as [|x l IH]; simpl; lia. }
  rewrite H2, (H3 (graph_urls entry)) in H1. pose proof (deps_len_sum (graph_urls entry) (NoDup_remove_dups _)) as H4.
  pose proof (remove_dups_length (entry :: map fst nodes ++ map me_target (flat_map (fun kv => deps kv.2) nodes))) as H5.
  fold (graph_urls entry) in H5. cbn [length] in H5. rewrite length_app, !length_map in H5.
  unfold visit_fuel. lia.
Qed.

(** *** The roots *)

Lemma roots_loop_spec async_eval entry : (forall u, u ∈ async_eval <-> async u) ->
  forall roots marks order, (forall r, r ∈ roots -> root r /\ r ∈ graph_urls entry) -> visit_inv marks order [] ->
  (exists marks' order', roots_loop nodes async_eval roots marks order = Ok order'
     /\ visit_inv marks' order' [] /\ (forall u, marks_get marks u <> None \/ u ∈ roots -> marks_get marks' u <> None))
  \/ (exists url, roots_loop nodes async_eval roots marks order = Err (GraphError.Cycle url) /\ too_deep).
Proof.
  intros Hasync. induction roots as [|r roots IH]; intros marks order Hroots Hinv; cbn [roots_loop].
  { left. exists marks, order. split_and!; [done|done|]. by intros u [?|?%elem_of_nil]. }
  assert (Hroots' : forall r, r ∈ roots -> root r /\ r ∈ graph_urls entry) by (intros x Hx; apply Hroots; by right).
  destruct (marks_get marks r) as [m|] eqn:Hr.
  - destruct (IH marks order Hroots' Hinv) as [(m' & o' & H1 & H2 & H3)|H]; [left|by right].
    exists m', o'. split_and!; [done|done|]. intros u [Hu|[-> |Hu]%elem_of_cons]; apply H3; [by left| |by right].
    left. congruence.
  - destruct (Hroots r) as [Hroot HU]; [by left|].
    destruct (visit_loop_spec async_eval (graph_urls entry) Hasync (graph_urls_universe entry) (visit_fuel nodes)
      ((r, InProgress) :: marks) order [(r, 0)]) as [(m1 & o1 & -> & H2 & H3)|(url & -> & H)]; [| | |by right; eauto].
    + apply visit_inv_push; [done|done|done|]. by exists r.
    + destruct (weight_mark (graph_urls entry) marks r InProgress []) as [_ Hm].
      eapply Nat.le_lt_trans; [by apply Hm|apply weight_fuel].
    + simpl. destruct (IH m1 o1 Hroots' H2) as [(m' & o' & H1 & H2' & H3')|H]; [left|by right].
      exists m', o'. split_and!; [done|done|]. intros u Hu. apply H3'.
      destruct Hu as [Hu|[-> |Hu]%elem_of_cons]; [left; by apply H3, marks_get_mono| |by right].
      left. apply H3. rewrite marks_get_cons. by rewrite bool_decide_eq_true_2.
Qed.

Lemma visit_inv_init : visit_inv [] [] [].
Proof.
  split; try done.
  - intros u. split; [done|]. by intros ?%elem_of_nil.
  - intros u. split; [done|]. by intros ?%elem_of_nil.
  - constructor.
  - constructor.
  - by intros u i node j edge ?%elem_of_nil.
  - by intros u v ?%elem_of_nil.
  - intros l1 u l2 v H. by destruct l1.
Qed.

(** With an empty stack every marked module is in the order. *)
Lemma visit_inv_final marks order u : visit_inv marks order [] -> marks_get marks u <> None <-> u ∈ order.
Proof.
  intros Hinv. rewrite <- (vi_done _ _ _ Hinv). split; [|congruence]. intros Hu.
  destruct (marks_get marks u) as [[]|] eqn:Hm; [|done|done].
  apply (vi_progress _ _ _ Hinv), elem_of_nil in Hm. done.
Qed.
End Visit.

(** A module whose [<main>] awaits at top level. *)
Definition tla_module (nodes : Nodes) (u : str) : Prop := exists node, (u, node) ∈ nodes /\ node_has_tla node = true.

(** The dependency edges evaluation follows: the eager ones, and the deferred ones whose
    target is async-evaluated. *)
Definition dependency (nodes : Nodes) : str -> str -> Prop :=
  followed nodes (async_evaluated nodes (tla_module nodes)).

(** The modules of the graph: the entry and the loaded modules, and whatever they depend on. *)
Definition in_graph (nodes : Nodes) (entry u : str) : Prop :=
  exists r, (r = entry \/ r ∈ map fst nodes) /\ rtc (dependency nodes) r u.

Lemma topological_order_spec nodes entry :
  (exists order, topological_order nodes entry = Ok order /\ NoDup order
     /\ (forall u, u ∈ order <-> in_graph nodes entry u)
     /\ (forall l1 u l2 v, order = l1 ++ u :: l2 -> dependency nodes u v ->
          v ∈ l1 \/ rtc (dependency nodes) v u))
  \/ (exists url, topological_order nodes entry = Err (GraphError.Cycle url)
       /\ too_deep nodes (async_evaluated nodes (tla_module nodes))).
Proof.
  unfold topological_order.
  destruct (async_loop_exact nodes (map fst (filter (fun kv => node_has_tla kv.2 = true) nodes))) as (s & -> & Hs).
  assert (Hasync : forall u, u ∈ s <-> async_evaluated nodes (tla_module nodes) u).
  { intros u. rewrite Hs. unfold async_evaluated. f_equiv. intros v. f_equiv. rewrite list_elem_of_fmap. split.
    - intros ([k nd] & -> & [Ht Hin]%list_elem_of_filter). by exists nd.
    - intros (nd & Hin & Ht). exists (v, nd). split; [done|]. by apply list_elem_of_filter. }
  clear Hs. cbn [rbind].
  set (root := fun r => r = entry \/ r ∈ map fst nodes).
  assert (Hroots : forall r, r ∈ entry :: filter (fun url => url <> entry) (map fst nodes)
            -> root r /\ r ∈ graph_urls nodes entry).
  { intros r Hr. assert (root r) as Hroot.
    { apply elem_of_cons in Hr as [-> |[_ Hr]%list_elem_of_filter]; [by left|by right]. }
    split; [done|]. apply elem_of_remove_dups. destruct Hroot as [-> |H]; [by left|]. right. apply elem_of_app. by left. }
  destruct (roots_loop_spec nodes _ root s entry Hasync _ [] [] Hroots (visit_inv_init _ _ _))
    as [(m & o & H1 & H2 & H3)|H]; [left|by right].
  exists o. split_and!; [done|apply H2| |apply H2]. intros u. rewrite <- (visit_inv_final _ _ _ _ _ u H2). split.
  - apply (vi_reach _ _ _ _ _ _ H2).
  - intros (r & Hr & Hru).
    assert (Hmr : marks_get m r <> None).
    { apply H3. right. destruct (decide (r = entry)) as [-> |Hne]; [by left|]. right.
      apply list_elem_of_filter. by destruct Hr. }
    clear Hr. induction Hru as [r|r w u Hf Hru IH]; [done|]. apply IH.
    eapply (vi_closed _ _ _ _ _ _ H2); [|done]. by apply (visit_inv_final _ _ _ _ _ r H2).
Qed.

(** C6 (termination) Ordering the graph terminates.  Unless some chain of more than 256
    distinct modules, each a followed dependency of the next, exists, it succeeds; the
    order then lists exactly the modules of the graph, each once, and every followed
    dependency of a module comes before it unless the two depend on each other. *)
Theorem topological_order_correct nodes entry :
  (exists order, topological_order nodes entry = Ok order /\ NoDup order
     /\ (forall u, u ∈ order <-> in_graph nodes entry u)
     /\ (forall l1 u l2 v, order = l1 ++ u :: l2 -> dependency nodes u v ->
          v ∈ l1 \/ rtc (dependency nodes) v u))
  \/ (exists url, topological_order nodes entry = Err (GraphError.Cycle url)
       /\ too_deep nodes (async_evaluated nodes (tla_module nodes))).
Proof. apply topological_order_spec. Qed.
