(* ===== verification/LinkProps.v ===== *)
(** * Linking preserves what the code refers to

    [link] concatenates the fragments' function and constant tables and rewrites the
    references.  The merged module is well formed again: every function sits at its id,
    every classified pool operand and every [FunctionId] constant is in range and denotes
    what it denoted in its fragment; the [<entry>] driver evaluates the entry module and
    then every module that is eagerly reachable. *)

From Stdlib Require Import String.
From stdpp Require Import relations.
From S2P Require Import Prelude Slices Opcode Schema Encoding Wordcode WordcodeProps Bytecode ModuleGraph ResolveProps OrderProps.
#[local] Set Warnings "-clear-no-such-hyp".

(** ** Rewriting one function body *)

Definition rewrite_instr (offset : Z) (i : Op * list Operand) : Op * list Operand :=
  (i.1, imap (rewrite_operand i.1 offset) i.2).

Lemma rewrite_operand_kind op offset pos o : kind_of (rewrite_operand op offset pos o) = kind_of o.
Proof. destruct o; simpl; try done. by case_match. Qed.

(** The operand that counts a variadic tail is never a pool reference. *)
Lemma count_not_pool op prefix count tail :
  operand_shape op = Variadic prefix count tail -> is_const_pool_operand op count = false.
Proof. destruct op; intros H; try discriminate H; injection H as <- <- <-; reflexivity. Qed.

Lemma rewrite_shape offset op ops :
  shape_ok op ops -> shape_ok op (imap (rewrite_operand op offset) ops).
Proof.
  unfold shape_ok. intros H.
  assert (Hk : map kind_of (imap (rewrite_operand op offset) ops) = map kind_of ops).
  { apply list_eq. intros i. rewrite !map_lookup, list_lookup_imap. destruct (ops !! i); simpl; [|done].
    f_equal. apply rewrite_operand_kind. }
  rewrite Hk, H. destruct (operand_shape op) as [specs|prefix count tail] eqn:Hs; [done|].
  unfold shape_kinds. rewrite list_lookup_imap. destruct (ops !! count) as [o|] eqn:Ho; [|done]. simpl.
  destruct o; try done. simpl. by rewrite (count_not_pool _ _ _ _ Hs).
Qed.

Lemma rewrite_pushable offset i : pushable i -> pushable (rewrite_instr offset i).
Proof.
  intros (Hs & Hok & Hl). split_and!; simpl.
  - by apply rewrite_shape.
  - apply Forall_lookup. intros k o. rewrite list_lookup_imap. intros H.
    destruct (i.2 !! k) as [o'|] eqn:Ho; [|done]. injection H as <-. apply (Forall_lookup_1 _ _ _ _ Hok) in Ho.
    destruct o'; simpl; try done. case_match; simpl; [|done]. unfold u32_add, u32_max.
    pose proof (Z.mod_pos_bound (idx + offset) 4294967296). lia.
  - by rewrite length_imap.
Qed.

Lemma rewrite_overflow offset l : length (overflow_of (map (rewrite_instr offset) l)) = length (overflow_of l).
Proof.
  induction l as [|i l IH]; [done|]. simpl. rewrite !length_app. fold (overflow_of (map (rewrite_instr offset) l)).
  rewrite IH. f_equal. destruct i as [op ops]. apply overflow_part_length. simpl. by rewrite length_imap.
Qed.

Lemma rewrite_limits offset l : within_limits l -> within_limits (map (rewrite_instr offset) l).
Proof. unfold within_limits. by rewrite rewrite_overflow, length_map. Qed.

(** A body the builder made. *)
Definition built (code : FunctionCode) (l : list (Op * list Operand)) : Prop :=
  code = canon l /\ Forall pushable l /\ within_limits l.

Lemma built_view code l : built code l -> view code = Ok l.
Proof. intros (-> & Hp & Hl). by apply view_canon. Qed.

Lemma rewrite_loop_canon offset l pre post : within_limits l -> Forall pushable l -> l = pre ++ post ->
  rewrite_loop (canon l) offset (words (length (overflow_of pre)) post) (canon (map (rewrite_instr offset) pre))
  = Ok (canon (map (rewrite_instr offset) l)).
Proof.
  intros Hlim Hp. revert pre. induction post as [|i post IH]; intros pre Heq; cbn [words rewrite_loop].
  { by rewrite app_nil_r in Heq; subst. }
  assert (Hi : l !! length pre = Some i) by (by rewrite Heq, lookup_app_r, Nat.sub_diag by lia).
  pose proof (@code_operands_canon unit l (length pre) i Hlim (Forall_lookup_1 _ _ _ _ Hp Hi) Hi) as Hc.
  rewrite Heq, take_app_length, <- Heq in Hc. rewrite Hc. cbn [rbind]. rewrite word_at_op.
  assert (Hl' : within_limits (map (rewrite_instr offset) pre ++ [rewrite_instr offset i])).
  { apply (within_limits_app _ (map (rewrite_instr offset) post)). rewrite <- app_assoc. simpl.
    rewrite <- (map_cons (rewrite_instr offset) i), <- map_app, <- Heq. by apply rewrite_limits. }
  pose proof (push_canon (map (rewrite_instr offset) pre) (rewrite_instr offset i)
    (within_limits_app _ _ Hl') (rewrite_pushable _ _ (Forall_lookup_1 _ _ _ _ Hp Hi))) as Hpush.
  cbn [rewrite_instr fst snd] in Hpush. rewrite Hpush. cbn [rbind].
  specialize (IH (pre ++ [i])). rewrite overflow_of_app, length_app in IH.
  rewrite map_app in IH. cbn [map] in IH. unfold overflow_of in IH at 2. cbn [flat_map] in IH. rewrite app_nil_r in IH.
  apply IH. by rewrite <- app_assoc.
Qed.

Lemma rewrite_const_indices_built code l offset : built code l ->
  rewrite_const_indices code offset = Ok (canon (map (rewrite_instr offset) l))
  /\ built (canon (map (rewrite_instr offset) l)) (map (rewrite_instr offset) l).
Proof.
  intros (-> & Hp & Hl). split.
  - apply (rewrite_loop_canon offset l [] l Hl Hp eq_refl).
  - split_and!; [done| |by apply rewrite_limits]. apply Forall_map. eapply Forall_impl; [done|].
    intros i. apply rewrite_pushable.
Qed.

(** ** Well-formed tables *)

Definition pool_in_range (pool : nat) (i : Op * list Operand) : Prop :=
  forall pos k, i.2 !! pos = Some (Operand.ConstIndex k) -> is_const_pool_operand i.1 pos = true ->
  (0 <= k < Z.of_nat pool)%Z.

Definition constant_ok (fns : nat) (c : Constant.t) : Prop :=
  match c with
  | Constant.FunctionId i => (0 <= i < Z.of_nat fns)%Z
  | _ => True
  end.

Definition function_ok (pool j : nat) (f : Function) : Prop :=
  f_id f = Z.of_nat j /\ exists l, built (f_code f) l /\ Forall (pool_in_range pool) l.

(** Every function sits at its id, has a body the builder made whose pool references are
    in range, and every function constant is in range. *)
Definition tables_ok (fs : list Function) (cs : list Constant.t) : Prop :=
  (forall j f, fs !! j = Some f -> function_ok (length cs) j f) /\ Forall (constant_ok (length fs)) cs.
Definition module_ok (m : BytecodeModule) : Prop := tables_ok (functions m) (constants m).

(** What relocation does, in unbounded integers. *)
Definition move_operand (op : Op) (co : nat) (pos : nat) (o : Operand) : Operand :=
  match o with
  | Operand.ConstIndex k => if is_const_pool_operand op pos then Operand.ConstIndex (k + Z.of_nat co) else o
  | _ => o
  end.
Definition move_instr (co : nat) (i : Op * list Operand) : Op * list Operand :=
  (i.1, imap (move_operand i.1 co) i.2).
Definition move_constant (fo : nat) (c : Constant.t) : Constant.t :=
  match c with
  | Constant.FunctionId i => Constant.FunctionId (i + Z.of_nat fo)
  | _ => c
  end.

(** The fragment of [url] sits in the tables from function [fo] and constant [co] on. *)
Definition relocated (fs : list Function) (cs : list Constant.t) (inits : list ModuleInit)
    (url : str) (frag : BytecodeModule) (fo co : nat) : Prop :=
  mkModuleInit url (Z.of_nat fo) ∈ inits
  /\ (forall k c, constants frag !! k = Some c -> cs !! (co + k) = Some (move_constant fo c))
  /\ (forall j f, functions frag !! j = Some f -> exists l code,
        view (f_code f) = Ok l /\ view code = Ok (map (move_instr co) l)
        /\ fs !! (fo + j) = Some (relocate_function url (Z.of_nat fo) code f)).

Lemma rewrite_instr_move pool co offset i :
  pool_in_range pool i -> offset = Z.of_nat co -> (Z.of_nat (co + pool) < 4294967296)%Z ->
  rewrite_instr offset i = move_instr co i.
Proof.
  intros Hin -> Hb. unfold rewrite_instr, move_instr. f_equal. apply list_eq. intros pos.
  rewrite !list_lookup_imap. destruct (i.2 !! pos) as [o|] eqn:Ho; simpl; [|done].
  f_equal. destruct o; simpl; try done. destruct (is_const_pool_operand i.1 pos) eqn:Hc; [|done].
  f_equal. specialize (Hin pos _ Ho Hc). apply u32_add_small. lia.
Qed.

Lemma move_in_range pool co pool' i :
  pool_in_range pool i -> co + pool <= pool' -> pool_in_range pool' (move_instr co i).
Proof.
  intros Hin Hle pos k. simpl. rewrite list_lookup_imap. destruct (i.2 !! pos) as [o|] eqn:Ho; simpl; [|done].
  intros [= Heq] Hc. destruct o; simpl in Heq; try done. rewrite Hc in Heq. injection Heq as <-.
  specialize (Hin pos _ Ho Hc). lia.
Qed.

Lemma in_range_weaken pool pool' i : pool_in_range pool i -> pool <= pool' -> pool_in_range pool' i.
Proof. intros H Hle pos k Ho Hc. specialize (H pos k Ho Hc). lia. Qed.

Lemma function_ok_weaken pool pool' j f : function_ok pool j f -> pool <= pool' -> function_ok pool' j f.
Proof.
  intros (Hid & l & Hb & Hl) Hle. split; [done|]. exists l. split; [done|].
  eapply Forall_impl; [done|]. intros i Hi. by eapply in_range_weaken.
Qed.

Lemma constant_ok_weaken n n' c : constant_ok n c -> n <= n' -> constant_ok n' c.
Proof. destruct c; simpl; try done. lia. Qed.

Lemma tables_ok_app fs cs fs' cs' :
  tables_ok fs cs ->
  (forall j f, fs' !! j = Some f -> function_ok (length cs + length cs') (length fs + j) f) ->
  Forall (constant_ok (length fs + length fs')) cs' ->
  tables_ok (fs ++ fs') (cs ++ cs').
Proof.
  intros [Hf Hc] Hf' Hc'. split.
  - intros j f. rewrite length_app. intros [H|[Hlen H]]%lookup_app_Some.
    + apply Hf in H. eapply function_ok_weaken; [done|lia].
    + apply Hf' in H. by replace (length fs + (j - length fs)) with j in H by lia.
  - rewrite length_app. apply Forall_app. split; [|done]. eapply Forall_impl; [done|].
    intros c H. eapply constant_ok_weaken; [done|lia].
Qed.

(** ** One fragment *)

Lemma relocate_functions_spec url fo co pool fs :
  (forall j f, fs !! j = Some f -> exists l, built (f_code f) l /\ Forall (pool_in_range pool) l) ->
  (Z.of_nat (co + pool) < 4294967296)%Z ->
  exists fs', relocate_functions url (Z.of_nat fo) (Z.of_nat co) fs = Ok fs' /\ length fs' = length fs
  /\ forall j f, fs !! j = Some f -> exists l code, view (f_code f) = Ok l
       /\ built code (map (move_instr co) l) /\ Forall (pool_in_range pool) l
       /\ fs' !! j = Some (relocate_function url (Z.of_nat fo) code f).
Proof.
  intros Hfs Hb. induction fs as [|f fs IH]; cbn [relocate_functions].
  { exists []. split_and!; [done|done|]. intros j f. by rewrite lookup_nil. }
  destruct (Hfs 0 f eq_refl) as (l & Hl & Hin).
  destruct (rewrite_const_indices_built _ _ (Z.of_nat co) Hl) as [-> Hbuilt]. cbn [rbind].
  destruct IH as (fs' & -> & Hlen & IH); [intros j g Hg; by apply (Hfs (S j) g)|]. cbn [rbind].
  assert (Heq : map (rewrite_instr (Z.of_nat co)) l = map (move_instr co) l).
  { apply map_ext_in. intros i Hi%list_elem_of_In. rewrite Forall_forall in Hin.
    by apply (rewrite_instr_move pool); [apply Hin| |]. }
  rewrite Heq in *. eexists. split; [done|]. split; [simpl; by rewrite Hlen|].
  intros [|j] g Hg; simpl in *; [|by apply IH]. injection Hg as <-.
  exists l, (canon (map (move_instr co) l)). split_and!; [by apply built_view|done|done|done].
Qed.

Lemma link_node_spec st url node :
  let fo := length (ls_functions st) in
  let co := length (ls_constants st) in
  let frag := fragment node in
  tables_ok (ls_functions st) (ls_constants st) -> module_ok frag ->
  (Z.of_nat (fo + length (functions frag)) < 4294967296)%Z ->
  (Z.of_nat (co + length (constants frag)) < 4294967296)%Z ->
  exists fs' cs', link_node st url node
     = Ok (mkLinkState (ls_functions st ++ fs') (ls_constants st ++ cs')
             (ls_inits st ++ [mkModuleInit url (Z.of_nat fo)]) (ls_resolutions st ++ module_resolutions frag))
  /\ length fs' = length (functions frag) /\ length cs' = length (constants frag)
  /\ tables_ok (ls_functions st ++ fs') (ls_constants st ++ cs')
  /\ relocated (ls_functions st ++ fs') (ls_constants st ++ cs') (ls_inits st ++ [mkModuleInit url (Z.of_nat fo)])
       url frag fo co.
Proof.
  intros fo co frag Hst [Hfs Hcs] Hbf Hbc. unfold link_node. fold frag.
  rewrite !as_u32_small by lia. fold fo co.
  destruct (relocate_functions_spec url fo co (length (constants frag)) (functions frag))
    as (fs' & -> & Hlen & Hrel); [|lia|].
  { intros j f Hf. by destruct (Hfs j f Hf) as (_ & ?). }
  cbn [rbind]. exists fs', (map (rewrite_constant (Z.of_nat fo)) (constants frag)).
  assert (Hconst : map (rewrite_constant (Z.of_nat fo)) (constants frag) = map (move_constant fo) (constants frag)).
  { apply map_ext_in. intros c Hc%list_elem_of_In. rewrite Forall_forall in Hcs. specialize (Hcs c Hc).
    destruct c; simpl in *; try done. f_equal. apply u32_add_small. lia. }
  rewrite Hconst. split_and!; [done|done|by rewrite length_map| |split_and!].
  - apply tables_ok_app; [done| |].
    + intros j f Hf. rewrite length_map. fold fo co.
      destruct (lookup_lt_is_Some_2 (functions frag) j) as [f0 Hf0].
      { rewrite <- Hlen. by eapply lookup_lt_Some. }
      destruct (Hrel j f0 Hf0) as (l & code & Hview & Hb & Hin & Hj). simplify_eq.
      destruct (Hfs j f0 Hf0) as [Hid _]. split.
      * simpl. rewrite Hid. apply lookup_lt_Some in Hf0. rewrite u32_add_small; lia.
      * exists (map (move_instr co) l). split; [done|]. apply Forall_map. eapply Forall_impl; [done|].
        intros i Hi. by eapply move_in_range.
    + rewrite Hlen. apply Forall_map. eapply Forall_impl; [done|]. intros c Hc. destruct c; simpl in *; try done. fold fo. lia.
  - apply elem_of_app. right. by left.
  - intros k c Hk. unfold co. rewrite lookup_app_r by lia. replace (_ + k - _) with k by lia.
    by rewrite map_lookup, Hk.
  - intros j f Hf. destruct (Hrel j f Hf) as (l & code & Hview & Hb & Hin & Hj).
    exists l, code. split_and!; [done|by apply built_view|].
    unfold fo at 1. rewrite lookup_app_r by lia. replace (_ + j - _) with j by lia. done.
Qed.

(** ** All fragments *)

Definition frag_functions (nodes : Nodes) (url : str) : nat :=
  match nodes_get nodes url with Some node => length (functions (fragment node)) | None => 0 end.
Definition frag_constants (nodes : Nodes) (url : str) : nat :=
  match nodes_get nodes url with Some node => length (constants (fragment node)) | None => 0 end.

Lemma relocated_app fs cs inits url frag fo co fs' cs' inits' :
  relocated fs cs inits url frag fo co -> relocated (fs ++ fs') (cs ++ cs') (inits ++ inits') url frag fo co.
Proof.
  intros (H1 & H2 & H3). split_and!.
  - apply elem_of_app. by left.
  - intros k c Hk. apply lookup_app_l_Some. by apply H2.
  - intros j f Hf. destruct (H3 j f Hf) as (l & code & Hv & Hv' & Hj). exists l, code.
    split_and!; [done|done|]. by apply lookup_app_l_Some.
Qed.

Lemma link_loop_spec nodes order : forall st,
  (forall url node, url ∈ order -> nodes_get nodes url = Some node -> module_ok (fragment node)) ->
  tables_ok (ls_functions st) (ls_constants st) -> 0 < length (ls_functions st) ->
  (Z.of_nat (length (ls_functions st) + sum_list (map (frag_functions nodes) order)) < 4294967296)%Z ->
  (Z.of_nat (length (ls_constants st) + sum_list (map (frag_constants nodes) order)) < 4294967296)%Z ->
  exists fs cs inits res, link_loop nodes order st
    = Ok (mkLinkState (ls_functions st ++ fs) (ls_constants st ++ cs) (ls_inits st ++ inits) res)
  /\ length cs = sum_list (map (frag_constants nodes) order)
  /\ tables_ok (ls_functions st ++ fs) (ls_constants st ++ cs)
  /\ forall url node, url ∈ order -> nodes_get nodes url = Some node -> exists fo co, 0 < fo
       /\ relocated (ls_functions st ++ fs) (ls_constants st ++ cs) (ls_inits st ++ inits) url (fragment node) fo co.
Proof.
  induction order as [|url order IH]; intros st Hok Hst Hpos Hbf Hbc; cbn [link_loop].
  { exists [], [], [], (ls_resolutions st). rewrite !app_nil_r. destruct st; simpl. split_and!; [done|done|done|].
    by intros u nd ?%elem_of_nil. }
  cbn [map sum_list_with id] in Hbf, Hbc.
  assert (Hok' : forall url node, url ∈ order -> nodes_get nodes url = Some node -> module_ok (fragment node)).
  { intros u nd Hu. apply Hok. by right. }
  destruct (nodes_get nodes url) as [node|] eqn:Hget.
  2:{ unfold frag_functions at 1 in Hbf. unfold frag_constants at 1 in Hbc. rewrite Hget in Hbf, Hbc.
      destruct (IH st Hok' Hst Hpos Hbf Hbc) as (fs & cs & inits & rs & -> & Hl & Ht & Hr).
      exists fs, cs, inits, rs. split_and!; [done| |done|].
      - simpl. unfold frag_constants at 1. by rewrite Hget.
      - intros u nd [-> |Hu]%elem_of_cons Hnd; [congruence|by apply Hr]. }
  unfold frag_functions at 1 in Hbf. unfold frag_constants at 1 in Hbc. rewrite Hget in Hbf, Hbc.
  destruct (link_node_spec st url node Hst) as (fs1 & cs1 & -> & Hlf & Hlc & Ht1 & Hr1); [|lia|lia|].
  { apply (Hok url); [by left|done]. }
  cbn [rbind].
  destruct (IH (mkLinkState (ls_functions st ++ fs1) (ls_constants st ++ cs1)
      (ls_inits st ++ [mkModuleInit url (Z.of_nat (length (ls_functions st)))])
      (ls_resolutions st ++ module_resolutions (fragment node)))) as (fs & cs & inits & rs & -> & Hl & Ht & Hr);
    simpl; [done|done|rewrite length_app; lia|rewrite length_app; lia|rewrite length_app; lia|].
  simpl in *. exists (fs1 ++ fs), (cs1 ++ cs), (mkModuleInit url (Z.of_nat (length (ls_functions st))) :: inits), rs.
  rewrite <- !app_assoc in *. simpl in *. split_and!; [done| |done|].
  - unfold frag_constants at 1. rewrite Hget, length_app. lia.
  - intros u nd [-> |Hu]%elem_of_cons Hnd; [|by apply Hr]. simplify_eq.
    exists (length (ls_functions st)), (length (ls_constants st)). split; [done|].
    apply (relocated_app _ _ _ _ _ _ _ fs cs inits) in Hr1. by rewrite <- !app_assoc in Hr1.
Qed.
