(* ===== verification/EntryProps.v ===== *)
(** * The synthesised [<entry>] driver and the linked module

    The worklists of [build_entry_body] compute reachability; the emitted body evaluates the
    entry module first and then every eagerly reachable module, awaiting their gates when
    one of them is async; and [link] as a whole yields a well-formed module in which every
    fragment sits relocated. *)

From Stdlib Require Import String.
From stdpp Require Import relations.
From S2P Require Import Prelude Slices Opcode Schema Encoding Wordcode WordcodeProps Bytecode ModuleGraph ResolveProps OrderProps LinkProps.
#[local] Set Warnings "-clear-no-such-hyp".

(** ** Top-level-await descendants *)

Definition tla_children (nodes : Nodes) (u : str) : list str :=
  if module_has_tla nodes u then [] else reverse (non_deferred_children nodes u).

(** A module with top-level await reached through modules that have none. *)
Definition tla_descendant (nodes : Nodes) (t u : str) : Prop :=
  rtc (child (tla_children nodes)) t u /\ module_has_tla nodes u = true.

Lemma tla_loop_worklist {E} nodes fuel : forall out seen stack seen',
  worklist (E := E) (tla_children nodes) fuel seen stack = Ok seen' ->
  (forall u, u ∈ out <-> u ∈ seen /\ module_has_tla nodes u = true) ->
  exists out', tla_loop fuel nodes out seen stack = Ok out'
  /\ forall u, u ∈ out' <-> u ∈ seen' /\ module_has_tla nodes u = true.
Proof.
  induction fuel as [|fuel IH]; intros out seen stack seen' Hw Hout; [done|].
  cbn [worklist tla_loop] in *. destruct stack as [|u stack]; [injection Hw as <-; eauto|].
  case_bool_decide as Hu; [by eapply IH|]. unfold tla_children in Hw at 2.
  destruct (module_has_tla nodes u) eqn:Ht; (eapply IH; [exact Hw|]); intros v.
  - rewrite elem_of_app, list_elem_of_singleton, elem_of_cons, Hout. naive_solver.
  - rewrite elem_of_cons, Hout. naive_solver congruence.
Qed.

Lemma collect_tla_descendants_exact nodes t :
  exists out, collect_tla_descendants nodes t = Ok out /\ forall u, u ∈ out <-> tla_descendant nodes t u.
Proof.
  set (U := remove_dups (map fst nodes)).
  destruct (worklist_exact (E := unit) (tla_children nodes) U (2 + length (all_edges nodes)) t) as (seen & Heq & Hs).
  - intros u Hu. unfold tla_children, non_deferred_children. destruct (nodes_get nodes u) eqn:Hget.
    + apply nodes_get_key in Hget. unfold U in Hu. by rewrite elem_of_remove_dups in Hu.
    + by case_match.
  - enough (sum_list (map (fun u => length (tla_children nodes u)) U) <= length (all_edges nodes)) by lia.
    etrans; [|apply (nodes_get_sum (fun nd => module_resolutions (fragment nd)) nodes U (NoDup_remove_dups _))].
    induction U as [|u U IH]; [done|]. simpl. enough (length (tla_children nodes u) <=
      length (match nodes_get nodes u with Some nd => module_resolutions (fragment nd) | None => [] end)) by lia.
    unfold tla_children, non_deferred_children. case_match; [simpl; lia|]. rewrite length_reverse.
    destruct (nodes_get nodes u); [|done]. rewrite length_map. apply length_filter.
  - destruct (tla_loop_worklist nodes _ [] [] [t] seen Heq) as (out & Ho & Hout).
    { intros u. split; [by intros ?%elem_of_nil|]. by intros [?%elem_of_nil _]. }
    exists out. split; [done|]. intros u. by rewrite Hout, Hs.
Qed.

(** ** Eager reachability *)

(** The edges the driver evaluates eagerly: non-deferred ones, and from an [import defer]
    to the top-level-await descendants of its target. *)
Inductive eager_step (nodes : Nodes) : str -> str -> Prop :=
| eager_static edge :
    edge ∈ all_edges nodes -> mr_deferred edge = false -> eager_step nodes (referrer edge) (mr_target edge)
| eager_deferred edge u :
    edge ∈ all_edges nodes -> mr_deferred edge = true -> dynamic edge = false ->
    tla_descendant nodes (mr_target edge) u -> eager_step nodes (referrer edge) u.

Lemma elem_of_adjacency_get adj u v : v ∈ adjacency_get adj u <-> exists l, (u, l) ∈ adj /\ v ∈ l.
Proof.
  unfold adjacency_get. rewrite list_elem_of_In, in_flat_map. split.
  - intros ([k l] & Hk & Hv). apply list_elem_of_In in Hk, Hv. apply list_elem_of_filter in Hk as [Hku Hk].
    simpl in *. subst. eauto.
  - intros (l & Hl & Hv). exists (u, l). rewrite <- !list_elem_of_In. split; [|done]. by apply list_elem_of_filter.
Qed.

Lemma adjacency_loop_spec nodes l : (l ⊆ all_edges nodes)%stdpp -> forall adj,
  exists adj', adjacency_loop nodes l adj = Ok adj'
  /\ forall u v, v ∈ adjacency_get adj' u <-> v ∈ adjacency_get adj u \/
       exists edge, edge ∈ l /\ referrer edge = u /\
         ((mr_deferred edge = false /\ mr_target edge = v)
          \/ (mr_deferred edge = true /\ dynamic edge = false /\ tla_descendant nodes (mr_target edge) v)).
Proof.
  induction l as [|edge l IH]; intros Hl adj; cbn [adjacency_loop].
  { exists adj. split; [done|]. intros u v. split; [by left|]. intros [?|(e & ?%elem_of_nil & _)]; done. }
  assert (Hl' : (l ⊆ all_edges nodes)%stdpp) by (intros x Hx; apply Hl; by right).
  assert (Hadd : forall adj1 (ts : list str), (forall u v, v ∈ adjacency_get adj1 u <->
       v ∈ adjacency_get adj u \/ (referrer edge = u /\ v ∈ ts)) ->
     (forall v, v ∈ ts <-> (mr_deferred edge = false /\ mr_target edge = v)
          \/ (mr_deferred edge = true /\ dynamic edge = false /\ tla_descendant nodes (mr_target edge) v)) ->
     exists adj', adjacency_loop nodes l adj1 = Ok adj'
     /\ forall u v, v ∈ adjacency_get adj' u <-> v ∈ adjacency_get adj u \/
       exists e, e ∈ edge :: l /\ referrer e = u /\
         ((mr_deferred e = false /\ mr_target e = v)
          \/ (mr_deferred e = true /\ dynamic e = false /\ tla_descendant nodes (mr_target e) v))).
  { intros adj1 ts Hadj Hts. destruct (IH Hl' adj1) as (adj' & Heq & H). exists adj'. split; [done|].
    intros u v. rewrite H, Hadj, Hts. setoid_rewrite elem_of_cons. split.
    - intros [[?|[? ?]]|(e & ? & ? & ?)]; [by left|right; exists edge|right; exists e]; auto.
    - intros [?|(e & [-> |?] & ? & ?)]; [by left; left|left; right|right; exists e]; auto. }
  assert (Happ : forall (ts : list str) u v, v ∈ adjacency_get (adj ++ [(referrer edge, ts)]) u <->
       v ∈ adjacency_get adj u \/ (referrer edge = u /\ v ∈ ts)).
  { intros ts u v. rewrite !elem_of_adjacency_get. setoid_rewrite elem_of_app. setoid_rewrite list_elem_of_singleton.
    naive_solver. }
  destruct (mr_deferred edge) eqn:Hd; cbn [negb].
  - destruct (dynamic edge) eqn:Hdyn; cbn [negb].
    + apply (Hadd adj []); [|set_solver]. set_solver.
    + destruct (collect_tla_descendants_exact nodes (mr_target edge)) as (roots & -> & Hr). cbn [rbind].
      apply (Hadd _ roots); [|intros v; rewrite Hr; naive_solver].
      intros u v. destruct roots as [|r roots]; [set_solver|]. apply Happ.
  - apply (Hadd _ [mr_target edge]); [apply Happ|]. intros v. rewrite list_elem_of_singleton. naive_solver.
Qed.

Lemma adjacency_sum (adj : Adjacency) U : NoDup U ->
  sum_list (map (fun u => length (adjacency_get adj u)) U) <= length (flat_map snd adj).
Proof.
  intros HU. induction adj as [|[k ts] adj IH]; [clear; induction U; simpl in *; lia|].
  cbn [flat_map snd]. rewrite length_app. etrans; [|apply Nat.add_le_mono_l, IH]. clear IH.
  induction HU as [|u U Hu HU IH]; [simpl; lia|]. cbn [map sum_list_with id].
  assert (Hg : forall v, adjacency_get ((k, ts) :: adj) v = (if decide (k = v) then ts else []) ++ adjacency_get adj v).
  { intros v. unfold adjacency_get. cbn [filter list_filter fst]. by case_decide. }
  rewrite (Hg u). case_decide as Hk; rewrite ?length_app; simpl in *; [|lia].
  subst k. enough (map (fun u0 => length (adjacency_get ((u, ts) :: adj) u0)) U = map (fun u0 => length (adjacency_get adj u0)) U)
    as -> by lia.
  apply map_ext_in. intros v Hv. rewrite Hg, decide_False; [done|]. intros ->. by apply Hu, list_elem_of_In.
Qed.

Lemma reach_loop_exact adj w :
  exists seen, reach_loop (reach_fuel adj) adj [] [w] = Ok seen
  /\ forall u, u ∈ seen <-> rtc (fun a b => b ∈ adjacency_get adj a) w u.
Proof.
  set (ch := fun u => reverse (adjacency_get adj u)). set (U := remove_dups (map fst adj)).
  destruct (worklist_exact (E := unit) ch U (reach_fuel adj) w) as (seen & Heq & Hs).
  - intros u Hu. unfold ch. enough (adjacency_get adj u = []) as -> by done.
    destruct (adjacency_get adj u) as [|v l] eqn:Hg; [done|]. exfalso.
    assert (Hv : v ∈ adjacency_get adj u) by (rewrite Hg; by left).
    apply elem_of_adjacency_get in Hv as (ts & Hts & _). unfold U in Hu. rewrite elem_of_remove_dups in Hu.
    apply Hu, list_elem_of_fmap. by exists (u, ts).
  - unfold reach_fuel. pose proof (adjacency_sum adj U (NoDup_remove_dups _)) as H.
    enough (sum_list (map (fun u => length (ch u)) U) = sum_list (map (fun u => length (adjacency_get adj u)) U)) by lia.
    f_equal. apply map_ext. intros u. unfold ch. apply length_reverse.
  - exists seen. split.
    + rewrite <- Heq. generalize (reach_fuel adj), (@nil str), [w]. clear.
      induction n as [|n IH]; intros s k; [done|]. simpl. destruct k; [done|]. case_bool_decide; by rewrite IH.
    + intros u. rewrite Hs. split; apply rtc_subrel; intros a b; unfold child, ch; by rewrite elem_of_reverse.
Qed.

(** ** The plan *)

Definition eager_reach (nodes : Nodes) (entry u : str) : Prop := rtc (eager_step nodes) entry u.

(** The modules of the order that have top-level await. *)
Definition order_tla (nodes : Nodes) (order : list str) (u : str) : Prop :=
  u ∈ order /\ module_has_tla nodes u = true.

(** Which modules [<entry>] evaluates, in which order, and whether it awaits them. *)
Definition plan_ok (nodes : Nodes) (order : list str) (entry : str) (urls : list str) (awaits : bool) : Prop :=
  (exists rest, urls = entry :: rest /\ rest `sublist_of` order
     /\ forall u, u ∈ rest <-> u ∈ order /\ u <> entry /\ eager_reach nodes entry u)
  /\ (awaits = true <-> exists u, u ∈ order /\ eager_reach nodes entry u
                        /\ async_evaluated nodes (order_tla nodes order) u).

Lemma entry_plan_spec nodes order entry :
  exists urls awaits, entry_plan nodes order entry = Ok (urls, awaits) /\ plan_ok nodes order entry urls awaits.
Proof.
  unfold entry_plan.
  destruct (async_loop_exact nodes (filter (fun u => module_has_tla nodes u = true) order)) as (s & -> & Hs).
  cbn [rbind]. destruct (adjacency_loop_spec nodes (all_edges nodes) ltac:(done) []) as (adj & -> & Hadj). cbn [rbind].
  destruct (reach_loop_exact adj entry) as (seen & -> & Hseen). cbn [rbind].
  assert (Hreach : forall u, u ∈ seen <-> eager_reach nodes entry u).
  { intros u. rewrite Hseen. unfold eager_reach. split; apply rtc_subrel; intros a b.
    - rewrite Hadj. intros [?%elem_of_nil|(e & He & <- & [[Hd <-]|(Hd & Hy & Ht)])]; [done| |].
      + by apply eager_static.
      + by apply (eager_deferred nodes e b).
    - intros H. apply Hadj. right. inversion H as [e He Hd|e u' He Hd Hy Ht]; subst; exists e; naive_solver. }
  do 2 eexists. split; [done|]. split.
  - eexists. split; [done|]. split; [apply sublist_filter|]. intros u. rewrite list_elem_of_filter, Hreach. tauto.
  - rewrite existsb_exists. split.
    + intros (u & Hu & [H1 H2]%andb_prop). exists u. apply bool_decide_eq_true in H1, H2.
      split_and!; [by apply list_elem_of_In|by apply Hreach|]. apply Hs in H2 as (v & Hv & Htl).
      exists v. split; [done|]. apply list_elem_of_filter in Htl. by destruct Htl.
    + intros (u & Hu & Hr & v & Hv & Htl). exists u. split; [by apply list_elem_of_In|].
      apply andb_true_intro. rewrite !bool_decide_eq_true. split; [by apply Hreach|]. apply Hs. exists v.
      split; [done|]. apply list_elem_of_filter. by destruct Htl.
Qed.

(** ** Emission *)

Lemma find_string_spec t l : forall i,
  match find_string t i l with
  | Some k => i <= k /\ l !! (k - i) = Some (Constant.String t)
  | None => True
  end.
Proof.
  induction l as [|c l IH]; intros i; simpl; [done|].
  assert (H : match find_string t (S i) l with
    | Some k => i <= k /\ (c :: l) !! (k - i) = Some (Constant.String t) | None => True end).
  { specialize (IH (S i)). destruct (find_string t (S i) l) as [k|]; [|done]. destruct IH as [Hle Hl].
    split; [lia|]. replace (k - i) with (S (k - S i)) by lia. done. }
  destruct c; try done. case_bool_decide; [|done]. subst. split; [lia|]. by rewrite Nat.sub_diag.
Qed.

Lemma intern_string_const_spec cs s : (Z.of_nat (length cs) < 4294967296)%Z ->
  exists cs' k, intern_string_const cs s = (cs ++ cs', k) /\ length cs' <= 1
  /\ (0 <= k)%Z /\ (cs ++ cs') !! Z.to_nat k = Some (Constant.String (encode_utf16 s))
  /\ Forall (fun c => exists u, c = Constant.String u) cs'.
Proof.
  intros Hb. unfold intern_string_const. pose proof (find_string_spec (encode_utf16 s) cs 0) as H.
  destruct (find_string (encode_utf16 s) 0 cs) as [k|].
  - rewrite Nat.sub_0_r in H. destruct H as [_ H]. pose proof (lookup_lt_Some _ _ _ H).
    exists [], (as_u32 k). rewrite app_nil_r, as_u32_small, Nat2Z.id by lia. split_and!; [done|simpl; lia|lia|done|constructor].
  - exists [Constant.String (encode_utf16 s)], (as_u32 (length cs)). rewrite as_u32_small, Nat2Z.id by lia.
    split_and!; [done|simpl; lia|lia| |].
    + by rewrite lookup_app_r, Nat.sub_diag by lia.
    + constructor; [eauto|constructor].
Qed.

Definition evaluate_instr (r k : Z) : Op * list Operand :=
  (Op.EvaluateModule, [Operand.Register r; Operand.ConstIndex k]).
Definition await_instr (r g : Z) : Op * list Operand :=
  (Op.Await, [Operand.Register r; Operand.Register g]).
Definition return_instr : Op * list Operand := (Op.ReturnUndefined, []).

Fixpoint evaluate_code (r : nat) (ks : list Z) : list (Op * list Operand) :=
  match ks with
  | [] => []
  | k :: ks => evaluate_instr (Z.of_nat r) k :: evaluate_code (S r) ks
  end.
Fixpoint await_code (r g n : nat) : list (Op * list Operand) :=
  match n with
  | 0 => []
  | S n => await_instr (Z.of_nat r) (Z.of_nat g) :: await_code (S r) (S g) n
  end.

(** Short instructions never overflow. *)
Definition short (i : Op * list Operand) : Prop := length i.2 <= INLINE_OPERAND_WORDS.
Lemma short_overflow l : Forall short l -> overflow_of l = [].
Proof.
  induction 1 as [|i l Hi _ IH]; [done|]. simpl. unfold overflow_part, is_long.
  by rewrite (proj2 (Nat.ltb_ge _ _) Hi).
Qed.

Lemma emit_op_spec l spans i : pushable i -> Forall short l -> (Z.of_nat (length l) <= 65535)%Z ->
  exists spans', emit_op (canon l) spans i.1 i.2 = Ok (canon (l ++ [i]), spans').
Proof.
  intros Hp Hs Hl. unfold emit_op, next_pc. simpl. rewrite length_words.
  assert (Hlim : within_limits l). { unfold within_limits, u32_max. rewrite short_overflow by done. simpl. lia. }
  rewrite (proj2 (Z.leb_le _ _)) by (unfold u32_max; lia). cbn [rbind].
  rewrite (push_canon l i Hlim Hp). cbn [rbind]. eauto.
Qed.

Lemma evaluate_pushable r k : (0 <= r <= 65535)%Z -> (0 <= k <= u32_max)%Z -> pushable (evaluate_instr r k).
Proof. intros Hr Hk. split_and!; [reflexivity| |simpl; lia]. by apply Forall_cons_2; [|apply Forall_cons_2; [|apply Forall_nil_2]]. Qed.
Lemma await_pushable r g : (0 <= r <= 65535)%Z -> (0 <= g <= 65535)%Z -> pushable (await_instr r g).
Proof. intros Hr Hk. split_and!; [reflexivity| |simpl; lia]. by apply Forall_cons_2; [|apply Forall_cons_2; [|apply Forall_nil_2]]. Qed.
Lemma return_pushable : pushable return_instr.
Proof. split_and!; [reflexivity|apply Forall_nil_2|simpl; lia]. Qed.

(** The state of the assembler after [evals] instructions and [n] registers. *)
Definition asm_ok (a : EntryAsm) (l : list (Op * list Operand)) : Prop :=
  as_code a = canon l /\ Forall short l /\ Forall pushable l
  /\ as_next_reg a = Z.of_nat (length l) /\ (Z.of_nat (length l) <= 65535)%Z.

Lemma emit_evaluate_spec a l url :
  asm_ok a l -> (Z.of_nat (length l) < 65535)%Z -> (Z.of_nat (length (as_constants a)) < 4294967295)%Z ->
  exists a' cs' k, emit_evaluate a url = Ok a' /\ asm_ok a' (l ++ [evaluate_instr (Z.of_nat (length l)) k])
  /\ as_constants a' = as_constants a ++ cs' /\ length cs' <= 1 /\ Forall (fun c => exists u, c = Constant.String u) cs'
  /\ as_gates a' = as_gates a ++ [Z.of_nat (length l)]
  /\ (0 <= k)%Z /\ as_constants a' !! Z.to_nat k = Some (Constant.String (encode_utf16 url)).
Proof.
  intros (Hcode & Hs & Hp & Hreg & Hlen) Hl Hb. unfold emit_evaluate.
  destruct (intern_string_const_spec (as_constants a) url) as (cs' & k & -> & Hl' & Hk & Hlook & Hstr); [lia|].
  rewrite Hcode, Hreg.
  pose proof (lookup_lt_Some _ _ _ Hlook) as Hlt. rewrite length_app in Hlt.
  assert (Hpush : pushable (evaluate_instr (Z.of_nat (length l)) k)).
  { apply evaluate_pushable; [lia|]. unfold u32_max. lia. }
  destruct (emit_op_spec l (as_spans a) _ Hpush Hs) as (spans' & He); [lia|].
  cbn [evaluate_instr fst snd] in He. rewrite He. cbn [rbind].
  do 3 eexists. split; [done|]. cbn [as_constants as_gates]. split_and!; [|done|done|done|done|done|done].
  unfold asm_ok. cbn [as_code as_next_reg]. rewrite length_app. cbn [length].
  split_and!; [done| | | |lia].
  - apply Forall_app. split; [done|]. constructor; [|constructor]. unfold short, INLINE_OPERAND_WORDS. simpl. lia.
  - apply Forall_app. split; [done|]. by constructor.
  - unfold u16_succ. rewrite Z.mod_small; lia.
Qed.

Lemma emit_evaluates_spec urls : forall a l,
  asm_ok a l -> (Z.of_nat (length l + length urls) <= 65535)%Z ->
  (Z.of_nat (length (as_constants a) + length urls) < 4294967296)%Z ->
  exists a' cs' ks, emit_evaluates a urls = Ok a' /\ asm_ok a' (l ++ evaluate_code (length l) ks)
  /\ as_constants a' = as_constants a ++ cs' /\ length cs' <= length urls
  /\ Forall (fun c => exists u, c = Constant.String u) cs'
  /\ as_gates a' = as_gates a ++ map Z.of_nat (seq (length l) (length urls))
  /\ Forall2 (fun url k => (0 <= k)%Z /\
       as_constants a' !! Z.to_nat k = Some (Constant.String (encode_utf16 url))) urls ks.
Proof.
  induction urls as [|url urls IH]; intros a l Ha Hl Hb; cbn [emit_evaluates].
  { exists a, [], []. cbn [evaluate_code map seq length]. rewrite !app_nil_r. split_and!; try done; constructor. }
  cbn [length] in *.
  destruct (emit_evaluate_spec a l url Ha) as (a1 & cs1 & k & -> & Ha1 & Hc1 & Hl1 & Hs1 & Hg1 & Hk & Hlook); [lia|lia|].
  cbn [rbind].
  destruct (IH a1 _ Ha1) as (a' & cs' & ks & -> & Ha' & Hc' & Hl' & Hs' & Hg' & Hks).
  { rewrite length_app. simpl. lia. }
  { rewrite Hc1, length_app. lia. }
  rewrite length_app in Ha', Hg'. cbn [length] in Ha', Hg'. rewrite Nat.add_1_r in Ha', Hg'.
  exists a', (cs1 ++ cs'), (k :: ks). cbn [evaluate_code]. rewrite <- app_assoc in Ha'. split_and!.
  - done.
  - done.
  - by rewrite Hc', Hc1, app_assoc.
  - rewrite length_app. lia.
  - by apply Forall_app.
  - rewrite Hg', Hg1, <- app_assoc. done.
  - constructor; [|done]. split; [done|]. rewrite Hc'. by apply lookup_app_l_Some.
Qed.

Lemma emit_awaits_spec n : forall g a l,
  asm_ok a l -> (Z.of_nat (length l + n) <= 65535)%Z -> (Z.of_nat (g + n) <= 65535)%Z ->
  exists a', emit_awaits a (map Z.of_nat (seq g n)) = Ok a' /\ asm_ok a' (l ++ await_code (length l) g n)
  /\ as_constants a' = as_constants a.
Proof.
  induction n as [|n IH]; intros g a l Ha Hl Hg; cbn [seq map emit_awaits await_code].
  { eexists. split; [done|]. by rewrite app_nil_r. }
  destruct Ha as (Hcode & Hs & Hp & Hreg & Hlen). rewrite Hcode, Hreg.
  assert (Hpush : pushable (await_instr (Z.of_nat (length l)) (Z.of_nat g))) by (apply await_pushable; lia).
  destruct (emit_op_spec l (as_spans a) _ Hpush Hs) as (spans' & He); [lia|].
  cbn [await_instr fst snd] in He. rewrite He. cbn [rbind].
  destruct (IH (S g) (mkAsm (canon (l ++ [await_instr (Z.of_nat (length l)) (Z.of_nat g)])) spans' (as_constants a)
       (u16_succ (Z.of_nat (length l))) (as_gates a)) (l ++ [await_instr (Z.of_nat (length l)) (Z.of_nat g)]))
    as (a' & Heq & Ha' & Hc'); [|rewrite length_app; simpl; lia|lia|].
  - unfold asm_ok. cbn [as_code as_next_reg]. rewrite length_app. cbn [length]. split_and!; [done| | | |lia].
    + apply Forall_app. split; [done|]. constructor; [|constructor]. unfold short, INLINE_OPERAND_WORDS. simpl. lia.
    + apply Forall_app. split; [done|]. by constructor.
    + unfold u16_succ. rewrite Z.mod_small; lia.
  - exists a'. split_and!; [done| |done]. rewrite <- app_assoc, length_app in Ha'. simpl in Ha'.
    by rewrite Nat.add_1_r in Ha'.
Qed.

(** ** The whole body *)

Definition entry_code (ks : list Z) (awaits : bool) : list (Op * list Operand) :=
  evaluate_code 0 ks ++ (if awaits then await_code (length ks) 0 (length ks) else []) ++ [return_instr].

Lemma evaluate_code_length r ks : length (evaluate_code r ks) = length ks.
Proof. revert r. induction ks as [|k ks IH]; intros r; simpl; [done|]. by rewrite IH. Qed.
Lemma await_code_length r g n : length (await_code r g n) = n.
Proof. revert r g. induction n as [|n IH]; intros r g; simpl; [done|]. by rewrite IH. Qed.

(** The registers are numbered in 16 bits and the constants in 32. *)
Definition entry_fits (order : list str) (cs : list Constant.t) : Prop :=
  (Z.of_nat (2 * S (length order)) <= 65535 /\ Z.of_nat (length cs + S (length order)) < 4294967296)%Z.

Lemma plan_length nodes order entry urls awaits :
  plan_ok nodes order entry urls awaits -> length urls <= S (length order).
Proof. intros [(rest & -> & Hsub & _) _]. apply sublist_length in Hsub. simpl. lia. Qed.

(** The strings of the plan, in the pool at the given indices. *)
Definition urls_at (cs : list Constant.t) (urls : list str) (ks : list Z) : Prop :=
  Forall2 (fun url k => (0 <= k)%Z /\ cs !! Z.to_nat k = Some (Constant.String (encode_utf16 url))) urls ks.

Lemma build_entry_body_spec nodes order entry cs : entry_fits order cs ->
  exists body cs' urls ks, build_entry_body nodes order entry cs = Ok (body, cs ++ cs')
  /\ plan_ok nodes order entry urls (eb_is_async body)
  /\ urls_at (cs ++ cs') urls ks
  /\ Forall (fun c => exists u, c = Constant.String u) cs'
  /\ built (eb_code body) (entry_code ks (eb_is_async body))
  /\ eb_scratch body = Z.of_nat (length (entry_code ks (eb_is_async body)) - 1)
  /\ length cs' <= S (length order).
Proof.
  intros [Hr Hc]. unfold build_entry_body.
  destruct (entry_plan_spec nodes order entry) as (urls & awaits & -> & Hplan). cbn [rbind].
  pose proof (plan_length _ _ _ _ _ Hplan) as Hlen.
  destruct (emit_evaluates_spec urls (mkAsm builder_new [] cs 0 []) []) as
    (a & cs' & ks & -> & Ha & Hcs & Hlc & Hstr & Hg & Hks).
  { split_and!; try done; constructor. }
  { simpl. lia. }
  { simpl. lia. }
  cbn [rbind as_constants as_gates] in *. cbn [length app] in *.
  pose proof (Forall2_length _ _ _ Hks) as Hkl.
  assert (Hfinal : forall b : bool, exists a', (if b then emit_awaits a (as_gates a) else Ok a) = Ok a'
     /\ asm_ok a' (evaluate_code 0 ks ++ if b then await_code (length ks) 0 (length ks) else [])
     /\ as_constants a' = as_constants a).
  { intros [].
    - rewrite Hg. simpl. destruct (emit_awaits_spec (length urls) 0 a _ Ha) as (a' & -> & Ha' & Hc').
      + rewrite evaluate_code_length. lia.
      + lia.
      + exists a'. rewrite evaluate_code_length, Hkl in Ha'. done.
    - exists a. by rewrite app_nil_r. }
  destruct (Hfinal awaits) as (a' & -> & Ha' & Hc'). cbn [rbind].
  destruct Ha' as (Hcode & Hs & Hp & Hreg & Hbound). rewrite Hcode.
  destruct (emit_op_spec _ (as_spans a') _ return_pushable Hs Hbound) as (spans' & He).
  cbn [return_instr fst snd] in He. rewrite He. cbn [rbind]. rewrite Hc', Hcs.
  do 4 eexists. split; [done|]. cbn [eb_is_async eb_code eb_scratch].
  split_and!; [done|by rewrite <- Hcs|done| | |lia].
  - unfold entry_code. rewrite app_assoc. split_and!; [done| |].
    + apply Forall_app. split; [done|]. constructor; [apply return_pushable|constructor].
    + unfold within_limits. rewrite short_overflow.
      * rewrite length_app. simpl. unfold u32_max. lia.
      * apply Forall_app. split; [done|]. constructor; [unfold short; simpl; lia|constructor].
  - rewrite Hreg. unfold entry_code. f_equal. rewrite !length_app. simpl. lia.
Qed.


(** ** The linked module *)

Lemma evaluate_in_range pool ks : Forall (fun k => (0 <= k < Z.of_nat pool)%Z) ks -> forall r,
  Forall (pool_in_range pool) (evaluate_code r ks).
Proof.
  induction 1 as [|k ks Hk _ IH]; intros r; simpl; constructor; [|apply IH].
  intros pos j. simpl. destruct pos as [|[|pos]]; simpl; [done| |done]. by intros [= <-] _.
Qed.

Lemma await_in_range pool n : forall r g, Forall (pool_in_range pool) (await_code r g n).
Proof.
  induction n as [|n IH]; intros r g; simpl; constructor; [|apply IH].
  intros pos j. simpl. by destruct pos as [|[|pos]].
Qed.

Lemma entry_in_range pool ks awaits : Forall (fun k => (0 <= k < Z.of_nat pool)%Z) ks ->
  Forall (pool_in_range pool) (entry_code ks awaits).
Proof.
  intros Hk. unfold entry_code. repeat (apply Forall_app; split).
  - by apply evaluate_in_range.
  - destruct awaits; [apply await_in_range|constructor].
  - constructor; [|constructor]. intros pos k. simpl. by rewrite lookup_nil.
Qed.

(** The sizes the 32-bit ids, the 32-bit pool indices and the 16-bit registers allow. *)
Definition link_fits (nodes : Nodes) (order : list str) : Prop :=
  (Z.of_nat (1 + sum_list (map (frag_functions nodes) order)) < 4294967296
   /\ Z.of_nat (sum_list (map (frag_constants nodes) order) + S (length order)) < 4294967296
   /\ Z.of_nat (2 * S (length order)) <= 65535)%Z.

(** Every fragment the order names is well formed. *)
Definition fragments_ok (nodes : Nodes) (order : list str) : Prop :=
  forall url node, url ∈ order -> nodes_get nodes url = Some node -> module_ok (fragment node).

Lemma placeholder_ok : tables_ok [entry_placeholder] [].
Proof.
  split; [|constructor]. intros [|j] f; simpl; [|done]. intros [= <-]. split; [done|]. exists [].
  split; [|constructor]. split_and!; [done|constructor|]. unfold within_limits, u32_max. simpl. lia.
Qed.

Lemma link_spec nodes order entry : fragments_ok nodes order -> link_fits nodes order ->
  exists m, link nodes order entry = Ok m /\ module_ok m
  /\ forall url node, url ∈ order -> nodes_get nodes url = Some node ->
     exists fo co, relocated (functions m) (constants m) (module_inits m) url (fragment node) fo co.
Proof.
  intros Hok (Hbf & Hbc & Hbr). unfold link.
  destruct (link_loop_spec nodes order (mkLinkState [entry_placeholder] [] [] []) Hok) as
    (fs & cs & inits & rs & -> & Hlc & Ht & Hrel); simpl; [apply placeholder_ok|lia|simpl in *; lia|lia|].
  simpl in *. destruct (build_entry_body_spec nodes order entry cs) as
    (body & cs' & urls & ks & -> & Hplan & Hks & Hstr & Hb & _ & _).
  { unfold entry_fits. rewrite Hlc. lia. }
  cbn [rbind ls_functions ls_constants ls_inits ls_resolutions]. eexists. split; [done|].
  cbn [functions constants module_inits]. destruct Ht as [Hf Hc]. split.
  - split; cbn [functions constants].
    + intros [|j] f Hj.
      * injection Hj as <-. split; [done|]. exists (entry_code ks (eb_is_async body)). split; [done|].
        apply entry_in_range. unfold urls_at in Hks. clear -Hks.
        induction Hks as [|url k urls ks [Hk Hl] _ IH]; constructor; [|done].
        apply lookup_lt_Some in Hl. lia.
      * apply (function_ok_weaken (length cs)); [by apply (Hf (S j))|]. rewrite length_app. lia.
    + apply Forall_app. split; [exact Hc|]. eapply Forall_impl; [done|]. by intros c [u ->].
  - intros url node Hu Hn. destruct (Hrel url node Hu Hn) as (fo & co & Hpos & H1 & H2 & H3). exists fo, co. split_and!.
    + done.
    + intros k c Hk. apply lookup_app_l_Some. by apply H2.
    + intros j f Hj. destruct (H3 j f Hj) as (l & code & Hv & Hv' & Hl). exists l, code. split_and!; [done|done|].
      destruct fo as [|fo]; [lia|]. done.
Qed.

