(* ===== verification/GraphProps.v ===== *)
(** * [ModuleGraph::link] as a whole

    The composition of validation, ordering, linking and the export tables, and a two-module
    graph on which the theorems of the module-graph files are instantiated. *)

From Stdlib Require Import String.
From stdpp Require Import relations.
From S2P Require Import Prelude Slices Opcode Schema Encoding Wordcode WordcodeProps Bytecode ModuleGraph ResolveProps ExportTables OrderProps LinkProps EntryProps.
#[local] Set Warnings "-clear-no-such-hyp".

Lemma table_get_filter {A} (t : list (str * A)) u url :
  url <> u -> table_get (filter (fun kv => kv.1 <> u) t) url = table_get t url.
Proof.
  intros Hne. unfold table_get. induction t as [|[k v] t IH]; [done|]. rewrite filter_cons. simpl.
  case_decide as Hk; simpl; simpl in Hk.
  - case_bool_decide; [done|]. exact IH.
  - rewrite bool_decide_eq_false_2; [exact IH|]. congruence.
Qed.

Lemma linked_metadata_spec nodes url node table : nodes_get nodes url = Some node ->
  source_url (metadata node) <> [] -> forall order resolved, NoDup order -> url ∈ order ->
  table_get resolved url = Some table ->
  with_resolved_exports (metadata node) table ∈ linked_metadata nodes order resolved.
Proof.
  intros Hget Hsrc. induction order as [|u order IH]; intros resolved Hnd Hin Ht; [by apply elem_of_nil in Hin|].
  apply NoDup_cons in Hnd as [Hu Hnd]. cbn [linked_metadata].
  destruct (decide (url = u)) as [<- |Hne].
  - rewrite Hget, Ht. cbn [source_url with_resolved_exports].
    rewrite bool_decide_eq_false_2 by done. by left.
  - apply elem_of_cons in Hin as [?|Hin]; [done|].
    assert (Hrest : with_resolved_exports (metadata node) table
              ∈ linked_metadata nodes order (filter (fun kv => kv.1 <> u) resolved)).
    { apply IH; [done|done|]. by rewrite table_get_filter. }
    destruct (nodes_get nodes u); [|by apply IH]. case_bool_decide; [done|]. by right.
Qed.

(** What a linked program promises. *)
Definition linked_ok (nodes : Nodes) (entry : str) (p : LinkedProgram) : Prop :=
  module_ok (lp_module p)
  /\ (forall url spec name knd, request nodes url spec name knd -> request_bound nodes url spec name)
  /\ (forall url node, nodes_get nodes url = Some node ->
        exists fo co, relocated (functions (lp_module p)) (constants (lp_module p)) (module_inits (lp_module p))
                        url (fragment node) fo co)
  /\ (forall url node, nodes_get nodes url = Some node -> source_url (metadata node) <> [] ->
        exists md, md ∈ lp_metadata p /\ source_url md = source_url (metadata node)
          /\ is_table nodes url (resolved_exports md)).

(** The sizes hold for the order the graph has. *)
Definition graph_fits (nodes : Nodes) (entry : str) : Prop :=
  forall order, topological_order nodes entry = Ok order -> link_fits nodes order.

(** C26 (error) Linking a graph of well-formed fragments either yields a program (a
    well-formed merged module holding every fragment relocated, in which every named import
    is bound, with the exact export table of every source module) or fails in one of two
    ways: a resolution error naming a request that is not bound, or a cycle error when a
    chain of more than 256 modules exists.  It never panics and always terminates. *)
Theorem graph_link_total nodes entry
    (Hok : forall url node, nodes_get nodes url = Some node -> module_ok (fragment node))
    (Hfits : graph_fits nodes entry) :
  match graph_link nodes entry with
  | Ok p => linked_ok nodes entry p
  | Err (GraphError.Resolution url message) =>
      exists spec name knd, request nodes url spec name knd /\ ~ request_bound nodes url spec name
        /\ message = resolution_message knd name spec
  | Err (GraphError.Cycle _) => too_deep nodes (async_evaluated nodes (tla_module nodes))
  | Panic | OutOfFuel => False
  end.
Proof.
  unfold graph_link.
  destruct (validate_resolution nodes) as [[]|e| |] eqn:Hval; cbn [rbind].
  2-4: destruct (validate_resolution_spec nodes) as [[H _]|(u & s & n & k & H1 & H2 & H3)]; [congruence|];
    rewrite Hval in H3; try discriminate H3; injection H3 as ->; eauto 10.
  destruct (validate_resolution_spec nodes) as [[_ Hbound]|(u & s & n & k & _ & _ & H)]; [|congruence].
  destruct (topological_order_spec nodes entry) as [(order & Ho & Hnd & Hgraph & _)|(url & -> & Hd)]; [|done].
  rewrite Ho. cbn [rbind].
  destruct (link_spec nodes order entry) as (m & -> & Hm & Hrel); [|by apply Hfits|].
  { intros url node _ Hget. by eapply Hok. }
  cbn [lift rbind]. destruct (compute_resolved_spec nodes) as (out & -> & Hout). cbn [lift rbind].
  assert (Hin : forall url node, nodes_get nodes url = Some node -> url ∈ order).
  { intros url node Hget. apply Hgraph. exists url. split; [right; by eapply nodes_get_key|constructor]. }
  split_and!; [done|done| |].
  - intros url node Hget. by apply Hrel; [eapply Hin|].
  - intros url node Hget Hsrc. destruct (Hout url node (nodes_get_In _ _ _ Hget) Hsrc) as (table & Ht & Hit).
    eexists. split_and!; [eapply linked_metadata_spec; eauto|done|done].
Qed.

(** ** A two-module graph *)

Module Demo.
Definition url_a : str := chars "file:///a.ts".
Definition url_b : str := chars "file:///b.ts".

Definition body (op : Op) (operands : list Operand) : FunctionCode := canon [(op, operands); return_instr].

Definition main (code : FunctionCode) : Function :=
  mkFunction 0 (chars "<main>") (0, 0)%Z 0 1 2 0 0 true false false false
    false false false true false false false Unmapped [] [] [] false None None code [] [] [].

Definition frag (url : str) (code : FunctionCode) (cs : list Constant.t) (rs : list ModuleResolution) : BytecodeModule :=
  mkBytecodeModule url [] TypeScript [main code] cs rs [].

(** [import { x } from "./b"; export * from "./b"]. *)
Definition node_a : ModuleNode :=
  mkNode (frag url_a (body Op.LoadString [Operand.Register 0; Operand.ConstIndex 0])
            [Constant.String (chars "from a")]
            [mkResolution url_a (chars "./b") url_b false false false])
    (mkMetadata url_a TypeScript [] [mkImport (chars "./b") (Some url_b) Static]
       [mkExport (chars "*") None (Some (chars "./b"))] []
       [mkNamedImport (chars "./b") (chars "x") (chars "x") false false] [])
    [mkEdge url_b false].

(** [export const x = "from b"; import "./a"]: the two modules import each other. *)
Definition node_b : ModuleNode :=
  mkNode (frag url_b (body Op.LoadString [Operand.Register 0; Operand.ConstIndex 1])
            [Constant.FunctionId 0; Constant.String (chars "from b")] [])
    (mkMetadata url_b TypeScript [] [mkImport (chars "./a") (Some url_a) Static]
       [mkExport (chars "x") (Some (chars "x")) None] [] [] [])
    [mkEdge url_a false].

Definition nodes : Nodes := [(url_a, node_a); (url_b, node_b)].

Lemma body_ok op operands pool : pushable (op, operands) -> length operands <= 4 ->
  pool_in_range pool (op, operands) -> exists l, built (body op operands) l /\ Forall (pool_in_range pool) l.
Proof.
  intros Hp Hl Hr. exists [(op, operands); return_instr]. split.
  - split_and!; [done| |].
    + apply Forall_cons_2; [done|]. apply Forall_cons_2; [apply return_pushable|apply Forall_nil_2].
    + unfold within_limits, u32_max. rewrite short_overflow; [simpl; lia|].
      apply Forall_cons_2; [done|]. apply Forall_cons_2; [unfold short; simpl; lia|apply Forall_nil_2].
  - apply Forall_cons_2; [done|]. apply Forall_cons_2; [|apply Forall_nil_2].
    intros pos k. simpl. by rewrite lookup_nil.
Qed.

Lemma load_ok pool k : (0 <= k < Z.of_nat pool)%Z -> (k <= u32_max)%Z ->
  exists l, built (body Op.LoadString [Operand.Register 0; Operand.ConstIndex k]) l /\ Forall (pool_in_range pool) l.
Proof.
  intros Hk Hu. apply body_ok; [|simpl; lia|].
  - split_and!; [reflexivity| |simpl; lia]. apply Forall_cons_2; [simpl; lia|].
    apply Forall_cons_2; [simpl; lia|apply Forall_nil_2].
  - intros pos j. simpl. destruct pos as [|[|pos]]; simpl; [done| |done]. by intros [= <-] _.
Qed.

Lemma nodes_ok url node : nodes_get nodes url = Some node -> module_ok (fragment node).
Proof.
  intros Hget. apply nodes_get_In in Hget.
  apply elem_of_cons in Hget as [[= -> ->]|[[= -> ->]|?%elem_of_nil]%elem_of_cons]; [| |done]; split.
  - intros [|j] f; simpl; [|done]. intros [= <-]. split; [done|]. apply load_ok; [simpl; lia|by unfold u32_max].
  - by constructor.
  - intros [|j] f; simpl; [|done]. intros [= <-]. split; [done|]. apply load_ok; [simpl; lia|by unfold u32_max].
  - constructor; [simpl; lia|]. by constructor.
Qed.

Lemma order_eq : topological_order nodes url_a = Ok [url_b; url_a].
Proof. vm_compute. reflexivity. Qed.

Lemma fits : link_fits nodes [url_b; url_a].
Proof. unfold link_fits. vm_compute. done. Qed.
End Demo.



(** [graph_link_total] on the demo graph, which links. *)
Lemma graph_link_total_witness :
  exists p, graph_link Demo.nodes Demo.url_a = Ok p /\ linked_ok Demo.nodes Demo.url_a p.
Proof.
  assert (Hok : match graph_link Demo.nodes Demo.url_a with Ok _ => true | _ => false end = true)
    by (vm_compute; reflexivity).
  pose proof (graph_link_total Demo.nodes Demo.url_a Demo.nodes_ok) as H.
  destruct (graph_link Demo.nodes Demo.url_a) as [p|e| |]; try discriminate Hok.
  exists p. split; [done|]. apply H. intros order Ho. rewrite Demo.order_eq in Ho. injection Ho as <-.
  apply Demo.fits.
Defined.

(** ** A pool operand the linker does not move

    [super.p] compiles to [LoadSuperProperty], whose third operand indexes the constant pool
    when it is executed, but [is_const_pool_operand] does not list it: in a module that is
    not linked first the operand keeps its fragment index and denotes a constant of another
    module. *)
Module SuperProperty.
Definition node_a : ModuleNode :=
  mkNode (Demo.frag Demo.url_a
            (Demo.body Op.LoadSuperProperty [Operand.Register 0; Operand.Register 0; Operand.ConstIndex 0])
            [Constant.String (chars "p")] [])
    (metadata Demo.node_a) (deps Demo.node_a).
Definition nodes : Nodes := [(Demo.url_a, node_a); (Demo.url_b, Demo.node_b)].

Example operand_of_super_property :
  match link nodes [Demo.url_b; Demo.url_a] Demo.url_a with
  | Ok m =>
      match functions m !! 2 with
      | Some f =>
          view (f_code f) = Ok [(Op.LoadSuperProperty, [Operand.Register 0; Operand.Register 0; Operand.ConstIndex 0]);
                                return_instr]
          /\ constants m !! 0 = Some (Constant.FunctionId 1)
          /\ constants m !! 2 = Some (Constant.String (chars "p"))
      | None => False
      end
  | _ => False
  end.
Proof. vm_compute. done. Qed.
End SuperProperty.
