(* ===== verification/Bits.v ===== *)
(** * Machine words as bit patterns

    The shapes in which the engine masks, shifts and joins [u32] and [u64] words, in
    arithmetic form: a mask of the low bits is a remainder, a mask of the high bits keeps
    the quotient, joining a shifted field with a small one is a sum. *)

From S2P Require Import Prelude.
Local Open Scope Z_scope.

(** A word of [n] bits. *)
Definition is_word (n b : Z) : Prop := 0 <= b < 2 ^ n.

(** The low [n] bits ([as u32], [& 0xFFFF], ...). *)
Definition low (n b : Z) : Z := b mod 2 ^ n.

(** [n as i32] of a [u32]. *)
Definition to_i32 (b : Z) : Z := if b <? 2147483648 then b else b - 4294967296.

Lemma low_land n m b : 0 <= n -> m = Z.ones n -> Z.land b m = low n b.
Proof. intros Hn ->. by apply Z.land_ones. Qed.

Lemma low_range n b : 0 <= n -> 0 <= low n b < 2 ^ n.
Proof. intros Hn. apply Z.mod_pos_bound. lia. Qed.

Lemma low_small n b : is_word n b -> low n b = b.
Proof. intros H. by apply Z.mod_small. Qed.

(** Masking with the bits [k .. n) of an [n]-bit word clears the low [k] bits. *)
Lemma land_high n k m b : 0 <= k -> is_word n b -> m = Z.ldiff (Z.ones n) (Z.ones k) ->
  Z.land b m = b - b mod 2 ^ k.
Proof.
  intros Hk Hb ->.
  assert (Hn : 0 <= n).
  { destruct (Z.le_gt_cases 0 n); [done|]. unfold is_word in Hb. rewrite Z.pow_neg_r in Hb by lia. lia. }
  rewrite Z.ldiff_land, Z.land_assoc, <- Z.ldiff_land, Z.land_ones by done. rewrite Z.mod_small by done.
  rewrite Z.ldiff_ones_r, Z.shiftl_mul_pow2, Z.shiftr_div_pow2 by done.
  pose proof (Z.div_mod b (2 ^ k) ltac:(lia)). lia.
Qed.

(** A word has no bit at or above its width, and conversely. *)
Lemma word_high n b i : 0 <= n -> is_word n b -> n <= i -> Z.testbit b i = false.
Proof. intros Hn Hb Hi. rewrite <- (Z.mod_small b (2 ^ n)) by done. apply Z.mod_pow2_bits_high. lia. Qed.

Lemma word_of_bits n b : 0 <= n -> (forall i, n <= i -> Z.testbit b i = false) -> is_word n b.
Proof.
  intros Hn H. assert (E : b = b mod 2 ^ n).
  { apply Z.bits_inj'. intros i Hi. destruct (Z.lt_ge_cases i n).
    - by rewrite Z.mod_pow2_bits_low.
    - rewrite Z.mod_pow2_bits_high by lia. by apply H. }
  rewrite E. apply Z.mod_pos_bound. lia.
Qed.

Lemma land_word n a b : 0 <= n -> is_word n a -> is_word n (Z.land a b).
Proof. intros Hn Ha. apply word_of_bits; [done|]. intros i Hi. by rewrite Z.land_spec, (word_high n a). Qed.

Lemma lxor_word n a b : 0 <= n -> is_word n a -> is_word n b -> is_word n (Z.lxor a b).
Proof.
  intros Hn Ha Hb. apply word_of_bits; [done|]. intros i Hi.
  by rewrite Z.lxor_spec, (word_high n a), (word_high n b).
Qed.

(** Joining fields that do not overlap. *)
Lemma lor_add k a b : 0 <= k -> is_word k b -> Z.lor (a * 2 ^ k) b = a * 2 ^ k + b.
Proof.
  intros Hk Hb. rewrite <- Z.add_lor_land.
  enough (Z.land (a * 2 ^ k) b = 0) by lia. apply Z.bits_inj'. intros i Hi.
  rewrite Z.land_spec, Z.bits_0. destruct (Z.lt_ge_cases i k) as [Hlt|Hge].
  - by rewrite Z.mul_pow2_bits_low.
  - replace b with (b mod 2 ^ k) by (by apply Z.mod_small). rewrite (Z.mod_pow2_bits_high b k i) by lia.
    apply andb_false_r.
Qed.

Lemma shiftl_mul a k : 0 <= k -> Z.shiftl a k = a * 2 ^ k.
Proof. apply Z.shiftl_mul_pow2. Qed.

(** A single bit. *)
Lemma land_bit b i : 0 <= i -> Z.land b (2 ^ i) = if Z.testbit b i then 2 ^ i else 0.
Proof.
  intros Hi. apply Z.bits_inj'. intros j Hj. rewrite Z.land_spec, Z.pow2_bits_eqb by done.
  destruct (Z.eqb_spec i j) as [->|Hne]; [rewrite andb_true_r|rewrite andb_false_r].
  - destruct (Z.testbit b j); [by rewrite Z.pow2_bits_true|by rewrite Z.bits_0].
  - destruct (Z.testbit b i); [by rewrite Z.pow2_bits_false|by rewrite Z.bits_0].
Qed.

Lemma testbit_mod b i : 0 <= i -> Z.testbit b i = ((b / 2 ^ i) mod 2 =? 1).
Proof. intros Hi. rewrite Z.testbit_eqb by done. done. Qed.

Lemma to_i32_mod n : -2147483648 <= n < 2147483648 -> to_i32 (n mod 4294967296) = n.
Proof.
  intros Hn. unfold to_i32. destruct (Z.lt_ge_cases n 0) as [Hneg|Hpos].
  - rewrite <- (Z_mod_plus_full n 1), Z.mod_small by lia. case_match; lia.
  - rewrite Z.mod_small by lia. case_match; lia.
Qed.

(** Evaluate the powers of two of concrete widths. *)
Ltac zpow :=
  unfold is_word, low in *;
  repeat match goal with
  | |- context [Z.pow 2 (Zpos ?p)] =>
      let v := eval vm_compute in (Z.pow 2 (Zpos p)) in change (Z.pow 2 (Zpos p)) with v
  | H : context [Z.pow 2 (Zpos ?p)] |- _ =>
      let v := eval vm_compute in (Z.pow 2 (Zpos p)) in change (Z.pow 2 (Zpos p)) with v in H
  end.
