(* ===== verification/Value.v ===== *)
(** * Tagged values

    [otter-vm/src/value/tag.rs] (the NaN-box), the constructors, predicates and accessors of
    [otter-vm/src/value/mod.rs] that the encoding decides, and
    [otter-vm/src/value/compressed.rs] (the 4-byte property slots).  A [Value] is its [u64]
    bit pattern; an [f64] is its bit pattern too; the heap enters as the type tag stored in
    the header of each cell and, for compressed slots, as an allocator of boxed numbers. *)

From Stdlib Require Import String.
From S2P Require Import Prelude Bits.
Local Open Scope Z_scope.

(** ** Tags *)

Definition NUMBER_TAG : Z := 0xfffe000000000000.
Definition OTHER_TAG : Z := 0x2.
Definition BOOL_TAG : Z := 0x4.
Definition UNDEFINED_TAG : Z := 0x8.
Definition DOUBLE_ENCODE_OFFSET : Z := 0x0002000000000000.
Definition NOT_CELL_MASK : Z := Z.lor NUMBER_TAG OTHER_TAG.
Definition CANONICAL_NAN : Z := 0x7ff8000000000000.
Definition VALUE_NULL : Z := OTHER_TAG.
Definition VALUE_FALSE : Z := Z.lor OTHER_TAG BOOL_TAG.
Definition VALUE_TRUE : Z := Z.lor (Z.lor OTHER_TAG BOOL_TAG) 0x1.
Definition VALUE_UNDEFINED : Z := Z.lor OTHER_TAG UNDEFINED_TAG.
Definition VALUE_HOLE : Z := Z.lor OTHER_TAG 0x10.
Definition FUNCTION_ID_TAG : Z := Z.lor OTHER_TAG 0x20.

(** [u64::wrapping_add], [u64::wrapping_sub]. *)
Definition u64_wrapping_add (x y : Z) : Z := (x + y) mod 2 ^ 64.
Definition u64_wrapping_sub (x y : Z) : Z := (x - y) mod 2 ^ 64.

Definition is_number_bits (bits : Z) : bool := negb (Z.land bits NUMBER_TAG =? 0).
Definition is_int32_bits (bits : Z) : bool := Z.land bits NUMBER_TAG =? NUMBER_TAG.
Definition is_double_bits (bits : Z) : bool := is_number_bits bits && negb (is_int32_bits bits).
Definition is_cell_bits (bits : Z) : bool := (Z.land bits NOT_CELL_MASK =? 0) && negb (bits =? 0).
Definition is_function_id_bits (bits : Z) : bool :=
  negb (is_number_bits bits) && (Z.land bits 0xFFFF =? FUNCTION_ID_TAG).
Definition box_int32 (n : Z) : Z := Z.lor NUMBER_TAG (low 32 n).
Definition unbox_int32 (bits : Z) : Z := to_i32 (low 32 bits).
Definition box_double (bits : Z) : Z := u64_wrapping_add bits DOUBLE_ENCODE_OFFSET.
Definition unbox_double (bits : Z) : Z := u64_wrapping_sub bits DOUBLE_ENCODE_OFFSET.
Definition box_function_id (id : Z) : Z := Z.lor (Z.shiftl id 16) FUNCTION_ID_TAG.
Definition unbox_function_id (bits : Z) : Z := low 32 (Z.shiftr bits 16).
Definition cell_offset (bits : Z) : Z := low 32 bits.

(** ** [Value] *)

(** [f64::is_nan] and [d == 0.0], on bits. *)
Definition f64_is_nan (bits : Z) : bool := 0x7ff0000000000000 <? Z.land bits 0x7fffffffffffffff.
Definition f64_is_zero (bits : Z) : bool := Z.land bits 0x7fffffffffffffff =? 0.

Inductive NumberValue : Type :=
| Smi (i : Z)
| Double (d : Z).

Definition value_boolean (b : bool) : Z := if b then VALUE_TRUE else VALUE_FALSE.
Definition number_i32 (n : Z) : Z := box_int32 n.
Definition number_f64 (d : Z) : Z := box_double (if f64_is_nan d then CANONICAL_NAN else d).
Definition value_number (n : NumberValue) : Z :=
  match n with
  | Smi i => number_i32 i
  | Double d => number_f64 d
  end.
Definition value_function_id (id : Z) : Z := box_function_id id.
Definition from_cell_offset (cage_base offset : Z) : Z := Z.lor cage_base offset.

Definition is_undefined (v : Z) : bool := v =? VALUE_UNDEFINED.
Definition is_null (v : Z) : bool := v =? VALUE_NULL.
Definition is_hole (v : Z) : bool := v =? VALUE_HOLE.
Definition is_nullish (v : Z) : bool := is_null v || is_undefined v.
Definition is_boolean (v : Z) : bool := (v =? VALUE_TRUE) || (v =? VALUE_FALSE).

Definition as_boolean (v : Z) : option bool := if is_boolean v then Some (v =? VALUE_TRUE) else None.
Definition as_number (v : Z) : option NumberValue :=
  if is_int32_bits v then Some (Smi (unbox_int32 v))
  else if is_number_bits v then Some (Double (unbox_double v))
  else None.
Definition as_i32 (v : Z) : option Z := if is_int32_bits v then Some (unbox_int32 v) else None.
Definition as_function_id (v : Z) : option Z := if is_function_id_bits v then Some (unbox_function_id v) else None.
Definition as_raw_gc (v : Z) : option Z := if is_cell_bits v then Some (cell_offset v) else None.

(** ** Type tags of heap bodies *)

Definition OBJECT_BODY_TYPE_TAG : Z := 0x11.
Definition BOUND_FUNCTION_BODY_TYPE_TAG : Z := 0x1c.
Definition NATIVE_FUNCTION_BODY_TYPE_TAG : Z := 0x1d.
Definition CLASS_CONSTRUCTOR_BODY_TYPE_TAG : Z := 0x1f.
Definition JS_STRING_BODY_TYPE_TAG : Z := 0x20.
Definition JS_CLOSURE_BODY_TYPE_TAG : Z := 0x23.
Definition BIG_INT_BODY_TYPE_TAG : Z := 0x25.
Definition SYMBOL_BODY_TYPE_TAG : Z := 0x26.

Inductive PtrFamily := FamObject | FamString | FamFunction | FamOther.
Inductive ValueKind :=
| KNumber | KInt32 | KSpecial | KFunctionId | KPtrObject | KPtrString | KPtrFunction | KPtrOther.
Inductive OtherFamilyKind := OtherSymbol | OtherBigInt | OtherUnknown.

#[export] Instance PtrFamily_eq_dec : EqDecision PtrFamily.
Proof. solve_decision. Defined.

Section Tags.
(** The type-tag byte of the header at each offset. *)
Context (headers : Z -> Z).

Definition header_type_tag (offset : Z) : option Z := if offset =? 0 then None else Some (headers offset).
Definition read_gc_type_tag (v : Z) : option Z :=
  match as_raw_gc v with
  | Some offset => header_type_tag offset
  | None => None
  end.

Definition tag_family (tag : Z) : PtrFamily :=
  if tag =? JS_STRING_BODY_TYPE_TAG then FamString
  else if (tag =? JS_CLOSURE_BODY_TYPE_TAG) || (tag =? BOUND_FUNCTION_BODY_TYPE_TAG)
          || (tag =? NATIVE_FUNCTION_BODY_TYPE_TAG) || (tag =? CLASS_CONSTRUCTOR_BODY_TYPE_TAG) then FamFunction
  else if (tag =? SYMBOL_BODY_TYPE_TAG) || (tag =? BIG_INT_BODY_TYPE_TAG) then FamOther
  else FamObject.

Definition ptr_family (v : Z) : option PtrFamily := tag_family <$> read_gc_type_tag v.

Definition value_kind (v : Z) : ValueKind :=
  if is_int32_bits v then KInt32
  else if is_number_bits v then KNumber
  else if is_function_id_bits v then KFunctionId
  else
    match ptr_family v with
    | Some FamObject => KPtrObject
    | Some FamString => KPtrString
    | Some FamFunction => KPtrFunction
    | Some FamOther => KPtrOther
    | None => KSpecial
    end.

Definition is_callable (v : Z) : bool := is_function_id_bits v || bool_decide (ptr_family v = Some FamFunction).
Definition is_object_like (v : Z) : bool := bool_decide (ptr_family v = Some FamObject).
Definition is_object_type (v : Z) : bool := is_object_like v || is_callable v.
Definition is_other_primitive (v : Z) : bool := bool_decide (ptr_family v = Some FamOther).
Definition is_primitive (v : Z) : bool :=
  if is_number_bits v || is_undefined v || is_null v || is_boolean v then true
  else
    match ptr_family v with
    | Some FamString | Some FamOther => true
    | _ => false
    end.
Definition is_object (v : Z) : bool := bool_decide (read_gc_type_tag v = Some OBJECT_BODY_TYPE_TAG).

Definition other_family_kind (v : Z) : option OtherFamilyKind :=
  if is_other_primitive v then
    match read_gc_type_tag v with
    | Some tag =>
        Some (if tag =? SYMBOL_BODY_TYPE_TAG then OtherSymbol
              else if tag =? BIG_INT_BODY_TYPE_TAG then OtherBigInt else OtherUnknown)
    | None => None
    end
  else None.

Definition typeof_pure (v : Z) : option string :=
  if is_undefined v || is_hole v then Some "undefined"%string
  else if is_null v then Some "object"%string
  else if is_boolean v then Some "boolean"%string
  else if is_number_bits v then Some "number"%string
  else if is_callable v then Some "function"%string
  else
    match value_kind v with
    | KPtrObject => if is_object v then None else Some "object"%string
    | KPtrString => Some "string"%string
    | KPtrOther => None
    | _ => None
    end.

Definition typeof_string (v : Z) : string :=
  match typeof_pure v with
  | Some t => t
  | None =>
      match value_kind v with
      | KPtrOther =>
          match other_family_kind v with
          | Some OtherSymbol => "symbol"%string
          | Some OtherBigInt => "bigint"%string
          | _ => "object"%string
          end
      | _ => "object"%string
      end
  end.

Definition to_boolean_pure (v : Z) : option bool :=
  if is_undefined v || is_null v || is_hole v then Some false
  else
    match as_boolean v with
    | Some b => Some b
    | None =>
        match as_number v with
        | Some (Smi i) => Some (negb (i =? 0))
        | Some (Double d) => Some (negb (f64_is_nan d || f64_is_zero d))
        | None => if is_callable v || is_object_like v then Some true else None
        end
    end.
End Tags.

(** ** Compressed slots *)

Definition TAG_BOXED : Z := 2.
Definition TAG_IMMEDIATE : Z := 4.
Definition TAG_FUNCTION_ID : Z := 6.
Definition TAG_MASK : Z := 7.
Definition FUNCTION_ID_LIMIT : Z := Z.shiftl 1 29.
Definition SMI_MIN : Z := - Z.shiftl 1 30.
Definition SMI_LIMIT : Z := Z.shiftl 1 30.
Definition IMM_UNDEFINED : Z := 0.
Definition IMM_NULL : Z := 1.
Definition IMM_TRUE : Z := 2.
Definition IMM_FALSE : Z := 3.
Definition IMM_HOLE : Z := 4.

Definition immediate (kind : Z) : Z := Z.lor (Z.shiftl kind 3) TAG_IMMEDIATE.

(** [!TAG_MASK] of a [u32]. *)
Definition NOT_TAG_MASK : Z := 0xFFFFFFF8.

Definition is_gc_offset (slot : Z) : bool :=
  if (Z.land slot 1 =? 1) || (slot =? 0) then false
  else (Z.land slot TAG_MASK =? 0) || (Z.land slot TAG_MASK =? TAG_BOXED).
Definition gc_offset (slot : Z) : Z := Z.land slot NOT_TAG_MASK.
Definition with_gc_offset (slot offset : Z) : Z := Z.lor (Z.land offset NOT_TAG_MASK) (Z.land slot TAG_MASK).

(** What the codec needs of the collected heap: boxes are allocated at non-zero 8-aligned
    32-bit offsets, hold the bits they were given, and keep them across allocations. *)
Class HeapNumbers (Heap : Type) := {
  alloc_heap_number : Heap -> Z -> option (Heap * Z);
  read_heap_number : Heap -> Z -> Z;
}.

Class HeapNumbersLaws (Heap : Type) `{HeapNumbers Heap} (live : Heap -> Z -> Prop) : Prop := {
  alloc_aligned : forall h bits h' off, alloc_heap_number h bits = Some (h', off) ->
    0 < off < 2 ^ 32 /\ off mod 8 = 0;
  alloc_live : forall h bits h' off, alloc_heap_number h bits = Some (h', off) ->
    live h' off /\ read_heap_number h' off = bits;
  alloc_frame : forall h bits h' off o, alloc_heap_number h bits = Some (h', off) -> live h o ->
    live h' o /\ read_heap_number h' o = read_heap_number h o;
}.

Section Slots.
Context {Heap : Type} `{HeapNumbers Heap} (cage_base : Z).

(** [compress]: [None] is the allocator's [OutOfMemory]. *)
Definition compress (value : Z) (heap : Heap) : option (Heap * Z) :=
  let boxed :=
    match alloc_heap_number heap value with
    | Some (heap, off) => Some (heap, Z.lor off TAG_BOXED)
    | None => None
    end in
  let rest :=
    match as_raw_gc value with
    | Some raw => Some (heap, raw)
    | None =>
        if is_undefined value then Some (heap, immediate IMM_UNDEFINED)
        else if is_null value then Some (heap, immediate IMM_NULL)
        else if value =? VALUE_TRUE then Some (heap, immediate IMM_TRUE)
        else if value =? VALUE_FALSE then Some (heap, immediate IMM_FALSE)
        else if is_hole value then Some (heap, immediate IMM_HOLE)
        else
          match as_function_id value with
          | Some id =>
              if id <? FUNCTION_ID_LIMIT then Some (heap, Z.lor (low 32 (Z.shiftl id 3)) TAG_FUNCTION_ID) else boxed
          | None => boxed
          end
    end in
  match as_i32 value with
  | Some i =>
      if (SMI_MIN <=? i) && (i <? SMI_LIMIT) then Some (heap, Z.lor (low 32 (Z.shiftl (low 32 i) 1)) 1) else rest
  | None => rest
  end.

Definition decompress (slot : Z) (heap : Heap) : Z :=
  if Z.land slot 1 =? 1 then number_i32 (Z.shiftr (to_i32 slot) 1)
  else
    let t := Z.land slot TAG_MASK in
    if t =? TAG_BOXED then read_heap_number heap (Z.land slot NOT_TAG_MASK)
    else if t =? TAG_FUNCTION_ID then value_function_id (Z.shiftr slot 3)
    else if t =? TAG_IMMEDIATE then
      let k := Z.shiftr slot 3 in
      if k =? IMM_NULL then VALUE_NULL
      else if k =? IMM_TRUE then VALUE_TRUE
      else if k =? IMM_FALSE then VALUE_FALSE
      else if k =? IMM_HOLE then VALUE_HOLE
      else VALUE_UNDEFINED
    else if slot =? 0 then VALUE_UNDEFINED
    else from_cell_offset cage_base slot.
End Slots.
