(* ===== verification/ValueProps.v ===== *)
(** * The value encoding is faithful

    Every JavaScript value has its own bit pattern, every predicate and accessor reads it
    back, and a property slot gives back the value that was put in it. *)

From Stdlib Require Import String.
From S2P Require Import Prelude Bits Value.
Local Open Scope Z_scope.

(** ** The abstract values *)

Inductive jsval : Type :=
| VInt (n : Z)
| VDouble (d : Z)
| VUndefined
| VNull
| VHole
| VBool (b : bool)
| VFunction (id : Z)
| VCell (offset : Z).

(** A 32-bit integer, a double whose NaN is the canonical one, a 32-bit function id, a
    non-zero 8-aligned cell offset. *)
Definition jsval_ok (v : jsval) : Prop :=
  match v with
  | VInt n => -2147483648 <= n < 2147483648
  | VDouble d => is_word 64 d /\ (f64_is_nan d = true -> d = CANONICAL_NAN)
  | VFunction id => is_word 32 id
  | VCell offset => 0 < offset < 4294967296 /\ offset mod 8 = 0
  | _ => True
  end.

(** The cage: 4 GiB-aligned, in the 48-bit window. *)
Definition cage_ok (cage_base : Z) : Prop := 0 <= cage_base < 281474976710656 /\ cage_base mod 4294967296 = 0.

(** The constructors of [Value]. *)
Definition bits_of (cage_base : Z) (v : jsval) : Z :=
  match v with
  | VInt n => number_i32 n
  | VDouble d => number_f64 d
  | VUndefined => VALUE_UNDEFINED
  | VNull => VALUE_NULL
  | VHole => VALUE_HOLE
  | VBool b => value_boolean b
  | VFunction id => value_function_id id
  | VCell offset => from_cell_offset cage_base offset
  end.

(** ** The predicates in arithmetic *)

Definition P49 : Z := 562949953421312.
Definition P64 : Z := 18446744073709551616.

Lemma is_number_iff b : is_word 64 b -> is_number_bits b = (P49 <=? b).
Proof.
  intros Hb. unfold is_number_bits. rewrite (land_high 64 49) by (done || reflexivity).
  unfold is_word in Hb. change (2 ^ 64) with P64 in Hb. change (2 ^ 49) with P49. unfold P49, P64 in *.
  pose proof (Z.div_mod b 562949953421312 ltac:(lia)). pose proof (Z.mod_pos_bound b 562949953421312 ltac:(lia)).
  pose proof (Z.div_pos b 562949953421312). lia.
Qed.

Lemma is_int32_iff b : is_word 64 b -> is_int32_bits b = (NUMBER_TAG <=? b).
Proof.
  intros Hb. unfold is_int32_bits. rewrite (land_high 64 49) by (done || reflexivity).
  unfold is_word in Hb. change (2 ^ 64) with P64 in Hb. change (2 ^ 49) with P49. unfold P49, P64, NUMBER_TAG in *.
  pose proof (Z.div_mod b 562949953421312 ltac:(lia)). pose proof (Z.mod_pos_bound b 562949953421312 ltac:(lia)). lia.
Qed.

Lemma not_cell_land b : is_word 64 b ->
  (Z.land b NOT_CELL_MASK =? 0) = (b <? P49) && ((b / 2) mod 2 =? 0).
Proof.
  intros Hb. unfold NOT_CELL_MASK, OTHER_TAG. rewrite Z.land_lor_distr_r.
  change 2 with (2 ^ 1) at 1. rewrite (land_bit b 1), testbit_mod by lia. change (2 ^ 1) with 2.
  pose proof (is_number_iff b Hb) as Hn. unfold is_number_bits in Hn.
  pose proof (Z.mod_pos_bound (b / 2) 2 ltac:(lia)).
  destruct (Z.eqb_spec (Z.land b NUMBER_TAG) 0) as [->|Hne]; simpl in Hn.
  - rewrite Z.lor_0_l. repeat case_match; boolprop; simpl; lia.
  - destruct (Z.eqb_spec (Z.lor (Z.land b NUMBER_TAG) (if (b / 2) mod 2 =? 1 then 2 else 0)) 0) as [H0|H0].
    + apply Z.lor_eq_0_iff in H0. by destruct H0.
    + symmetry in Hn. boolprop. rewrite (proj2 (Z.ltb_ge _ _)) by lia. done.
Qed.

Lemma is_function_id_iff b : is_word 64 b -> is_function_id_bits b = (b <? P49) && (b mod 65536 =? 34).
Proof.
  intros Hb. unfold is_function_id_bits. rewrite (is_number_iff b Hb), (low_land 16) by (done || lia || reflexivity).
  unfold low. change (2 ^ 16) with 65536. change FUNCTION_ID_TAG with 34. lia.
Qed.

(** ** The patterns in arithmetic *)

Lemma number_i32_eq n : number_i32 n = NUMBER_TAG + n mod 4294967296.
Proof.
  unfold number_i32, box_int32, low. change (2 ^ 32) with 4294967296. pose proof (Z.mod_pos_bound n 4294967296 ltac:(lia)).
  change NUMBER_TAG with (4294836224 * 2 ^ 32). apply lor_add; [lia|]. zpow. lia.
Qed.

Lemma f64_not_nan d : is_word 64 d -> f64_is_nan d = false ->
  d <= 9218868437227405312 \/ 9223372036854775808 <= d <= 18442240474082181120.
Proof.
  intros Hd. unfold f64_is_nan. rewrite (low_land 63) by (lia || reflexivity). unfold low, is_word in *.
  change (2 ^ 63) with 9223372036854775808. change (2 ^ 64) with P64 in Hd. unfold P64 in Hd. intros H. boolprop.
  pose proof (Z.div_mod d 9223372036854775808 ltac:(lia)).
  pose proof (Z.mod_pos_bound d 9223372036854775808 ltac:(lia)).
  assert (0 <= d / 9223372036854775808 < 2); [|lia].
  split; [apply Z.div_pos; lia|apply Z.div_lt_upper_bound; lia].
Qed.

Lemma number_f64_eq d : is_word 64 d -> (f64_is_nan d = true -> d = CANONICAL_NAN) ->
  number_f64 d = d + P49 /\ number_f64 d < NUMBER_TAG.
Proof.
  intros Hd Hnan. unfold number_f64, box_double, u64_wrapping_add. change DOUBLE_ENCODE_OFFSET with P49.
  change (2 ^ 64) with P64. unfold is_word in Hd. change (2 ^ 64) with P64 in Hd.
  destruct (f64_is_nan d) eqn:E.
  - rewrite (Hnan eq_refl). done.
  - apply f64_not_nan in E; [|done]. unfold P49, P64, NUMBER_TAG in *. rewrite Z.mod_small by lia. lia.
Qed.

Lemma function_id_eq id : is_word 32 id -> value_function_id id = id * 65536 + 34.
Proof.
  intros Hid. unfold value_function_id, box_function_id. rewrite shiftl_mul by lia. change (2 ^ 16) with 65536 at 1.
  change FUNCTION_ID_TAG with 34. change 65536 with (2 ^ 16). apply lor_add; [lia|]. zpow. lia.
Qed.

Lemma cell_eq cage offset : cage_ok cage -> 0 < offset < 4294967296 -> from_cell_offset cage offset = cage + offset.
Proof.
  intros [Hc Hm] Ho. unfold from_cell_offset. pose proof (Z.div_mod cage 4294967296 ltac:(lia)) as Hd.
  assert (E : cage = cage / 4294967296 * 2 ^ 32) by (change (2 ^ 32) with 4294967296; lia).
  rewrite E at 1. rewrite lor_add; [lia|lia|]. zpow. lia.
Qed.

(** Every pattern, as a range and residues: what the predicates look at. *)
Lemma bits_of_word cage v : cage_ok cage -> jsval_ok v -> is_word 64 (bits_of cage v).
Proof.
  intros Hc Hv. unfold is_word. change (2 ^ 64) with P64. unfold P64. destruct v; simpl in *; try done.
  - rewrite number_i32_eq. unfold NUMBER_TAG. pose proof (Z.mod_pos_bound n 4294967296 ltac:(lia)). lia.
  - destruct Hv as [Hd Hn]. destruct (number_f64_eq d Hd Hn) as [E Hlt]. zpow. unfold NUMBER_TAG, P49 in *. lia.
  - by destruct b.
  - rewrite function_id_eq by done. unfold is_word in Hv. change (2 ^ 32) with 4294967296 in Hv. lia.
  - destruct Hv as [Ho _]. rewrite cell_eq by done. destruct Hc. lia.
Qed.

(** ** Reading back *)

(** Rewrite every predicate to arithmetic, given the word. *)
Ltac arith_preds Hw :=
  unfold as_i32, as_number, as_boolean, as_function_id, as_raw_gc, is_cell_bits, is_boolean, is_undefined, is_null, is_hole;
  rewrite ?(is_int32_iff _ Hw), ?(is_number_iff _ Hw), ?(is_function_id_iff _ Hw), ?(not_cell_land _ Hw);
  change VALUE_TRUE with 7; change VALUE_FALSE with 6; change VALUE_UNDEFINED with 10;
  change VALUE_NULL with 2; change VALUE_HOLE with 18.

Ltac by_bool := repeat (case_match; boolprop); try lia; try done.

Lemma read_int n : -2147483648 <= n < 2147483648 -> unbox_int32 (number_i32 n) = n.
Proof.
  intros Hn. rewrite number_i32_eq. unfold unbox_int32, low. change (2 ^ 32) with 4294967296.
  change NUMBER_TAG with (4294836224 * 4294967296). rewrite Z.add_comm, Z_mod_plus_full, Z.mod_mod by lia.
  by apply to_i32_mod.
Qed.

Lemma read_double d : is_word 64 d -> (f64_is_nan d = true -> d = CANONICAL_NAN) -> unbox_double (number_f64 d) = d.
Proof.
  intros Hd Hn. destruct (number_f64_eq d Hd Hn) as [E _]. rewrite E. unfold unbox_double, u64_wrapping_sub.
  change DOUBLE_ENCODE_OFFSET with P49. rewrite Z.add_simpl_r. by apply Z.mod_small.
Qed.

Lemma read_function id : is_word 32 id -> unbox_function_id (value_function_id id) = id.
Proof.
  intros Hid. rewrite function_id_eq by done. unfold unbox_function_id. rewrite Z.shiftr_div_pow2 by lia. zpow.
  rewrite Z.div_add_l by lia. change (34 / 65536) with 0. rewrite Z.mod_small; lia.
Qed.

Lemma read_cell cage offset : cage_ok cage -> 0 < offset < 4294967296 ->
  cell_offset (from_cell_offset cage offset) = offset.
Proof.
  intros Hc Ho. rewrite cell_eq by done. destruct Hc as [Hc Hm]. unfold cell_offset. zpow.
  rewrite Z.add_mod, Hm, Z.add_0_l, Z.mod_mod by lia. apply Z.mod_small. lia.
Qed.

(** What the predicates see of a cell. *)
Lemma cell_residues cage offset : cage_ok cage -> 0 < offset < 4294967296 -> offset mod 8 = 0 ->
  let b := from_cell_offset cage offset in 8 <= b < P49 /\ b mod 8 = 0 /\ (b / 2) mod 2 = 0 /\ b mod 65536 <> 34.
Proof.
  intros Hc Ho H8. cbv zeta. rewrite cell_eq by done. destruct Hc as [Hc Hm]. unfold P49.
  assert (E : cage + offset = 8 * ((cage + offset) / 8)).
  { apply Z_div_exact_full_2; [lia|]. rewrite Z.add_mod, H8 by lia.
    rewrite (Z.div_mod cage 4294967296), Hm by lia. replace (4294967296 * (cage / 4294967296) + 0)
      with (0 + (536870912 * (cage / 4294967296)) * 8) by lia. rewrite Z_mod_plus_full. done. }
  set (q := (cage + offset) / 8) in *. rewrite E. split; [lia|]. split; [rewrite Z.mul_comm; apply Z_mod_mult|]. split.
  - replace (8 * q) with ((4 * q) * 2) by lia. rewrite Z.div_mul by lia. replace (4 * q) with (2 * q * 2) by lia. apply Z_mod_mult.
  - intros H. pose proof (Z.div_mod (8 * q) 65536 ltac:(lia)). lia.
Qed.

Lemma accessors_spec cage v (Hcage : cage_ok cage) (Hv : jsval_ok v) :
  let b := bits_of cage v in
  as_i32 b = match v with VInt n => Some n | _ => None end
  /\ as_number b = match v with VInt n => Some (Smi n) | VDouble d => Some (Double d) | _ => None end
  /\ as_boolean b = match v with VBool x => Some x | _ => None end
  /\ as_function_id b = match v with VFunction id => Some id | _ => None end
  /\ as_raw_gc b = match v with VCell offset => Some offset | _ => None end
  /\ is_undefined b = match v with VUndefined => true | _ => false end
  /\ is_null b = match v with VNull => true | _ => false end
  /\ is_hole b = match v with VHole => true | _ => false end.
Proof.
  pose proof (bits_of_word cage v Hcage Hv) as Hw. destruct v as [n|d| | | |[]|id|offset]; cbv zeta; try done.
  - cbn [bits_of] in *. arith_preds Hw. pose proof (read_int n Hv) as Hr. rewrite Hr. rewrite number_i32_eq in *.
    pose proof (Z.mod_pos_bound n 4294967296 ltac:(lia)). unfold P49, NUMBER_TAG in *.
    split_and!; by_bool.
  - cbn [bits_of jsval_ok] in *. destruct Hv as [Hd Hn]. arith_preds Hw. rewrite (read_double d Hd Hn).
    destruct (number_f64_eq d Hd Hn) as [E Hlt]. rewrite E in *. unfold is_word in Hd. unfold P49 in *.
    split_and!; by_bool.
  - cbn [bits_of jsval_ok] in *. arith_preds Hw. rewrite (read_function id Hv). rewrite function_id_eq in * by done.
    assert (Hm : (id * 65536 + 34) mod 65536 = 34) by (rewrite Z.add_comm, Z_mod_plus_full; done).
    assert (H2 : ((id * 65536 + 34) / 2) mod 2 = 1).
    { replace (id * 65536 + 34) with (17 * 2 + id * 32768 * 2) by lia. rewrite Z.div_add by lia.
      replace (17 * 2 / 2 + id * 32768) with (1 + (8 + id * 16384) * 2) by (change (17 * 2 / 2) with 17; lia).
      rewrite Z_mod_plus_full. done. }
    rewrite Hm, H2. zpow. unfold P49, NUMBER_TAG in *. split_and!; by_bool.
  - cbn [bits_of jsval_ok] in *. destruct Hv as [Ho H8]. arith_preds Hw. rewrite (read_cell cage offset Hcage Ho).
    destruct (cell_residues cage offset Hcage Ho H8) as (Hr & Hm8 & H2 & Hf). rewrite H2. unfold P49, NUMBER_TAG in *.
    split_and!; by_bool; apply Z.eqb_neq; intros E; by rewrite E in Hm8.
Qed.

(** C34 (type) Every JavaScript value has its own bit pattern: for an int32, a double
    (bit-exact, NaN canonical), a function id, a heap cell at an 8-aligned offset of the
    4 GiB-aligned cage, or an immediate, each accessor of the encoded value returns its
    payload when the value is of that kind and nothing when it is not. *)
Theorem value_accessors cage v (Hcage : cage_ok cage) (Hv : jsval_ok v) :
  let b := bits_of cage v in
  as_i32 b = match v with VInt n => Some n | _ => None end
  /\ as_number b = match v with VInt n => Some (Smi n) | VDouble d => Some (Double d) | _ => None end
  /\ as_boolean b = match v with VBool x => Some x | _ => None end
  /\ as_function_id b = match v with VFunction id => Some id | _ => None end
  /\ as_raw_gc b = match v with VCell offset => Some offset | _ => None end
  /\ is_undefined b = match v with VUndefined => true | _ => false end
  /\ is_null b = match v with VNull => true | _ => false end
  /\ is_hole b = match v with VHole => true | _ => false end.
Proof. by apply accessors_spec. Qed.

(** [value_accessors] at a negative integer and at a cell. *)
Lemma value_accessors_witness :
  as_i32 (bits_of 0x100000000 (VInt (-1))) = Some (-1) /\ as_raw_gc (bits_of 0x100000000 (VCell 4096)) = Some 4096.
Proof.
  assert (Hc : cage_ok 0x100000000) by (split; [lia|reflexivity]). split.
  - exact (proj1 (value_accessors 0x100000000 (VInt (-1)) Hc ltac:(simpl; lia))).
  - exact (proj1 (proj2 (proj2 (proj2 (proj2 (value_accessors 0x100000000 (VCell 4096) Hc
      ltac:(simpl; split; [lia|reflexivity]))))))).
Defined.

(** ** Kinds, [typeof], [ToBoolean] *)

Lemma preds_spec cage v : cage_ok cage -> jsval_ok v ->
  let b := bits_of cage v in
  is_int32_bits b = match v with VInt _ => true | _ => false end
  /\ is_number_bits b = match v with VInt _ | VDouble _ => true | _ => false end
  /\ is_function_id_bits b = match v with VFunction _ => true | _ => false end
  /\ is_boolean b = match v with VBool _ => true | _ => false end.
Proof.
  intros Hc Hv. destruct (accessors_spec cage v Hc Hv) as (H1 & H2 & H3 & H4 & _). cbv zeta in *.
  assert (Hi : is_int32_bits (bits_of cage v) = true -> is_number_bits (bits_of cage v) = true).
  { rewrite is_int32_iff, is_number_iff by by apply bits_of_word. unfold NUMBER_TAG, P49. lia. }
  unfold as_i32, as_number, as_boolean, as_function_id in *.
  destruct (is_int32_bits (bits_of cage v)), (is_number_bits (bits_of cage v)), (is_function_id_bits (bits_of cage v)),
    (is_boolean (bits_of cage v)), v; try done; by specialize (Hi eq_refl).
Qed.

Lemma read_tag_spec headers cage v : cage_ok cage -> jsval_ok v ->
  read_gc_type_tag headers (bits_of cage v) = match v with VCell offset => Some (headers offset) | _ => None end.
Proof.
  intros Hc Hv. destruct (accessors_spec cage v Hc Hv) as (_ & _ & _ & _ & H5 & _). cbv zeta in H5.
  unfold read_gc_type_tag. rewrite H5. destruct v; try done. unfold header_type_tag. simpl in Hv.
  by rewrite (proj2 (Z.eqb_neq _ _)) by lia.
Qed.

(** The families of ECMAScript types a heap body belongs to. *)
Definition cell_kind (tag : Z) : ValueKind :=
  match tag_family tag with
  | FamObject => KPtrObject
  | FamString => KPtrString
  | FamFunction => KPtrFunction
  | FamOther => KPtrOther
  end.
Definition cell_typeof (tag : Z) : string :=
  match tag_family tag with
  | FamObject => "object"%string
  | FamString => "string"%string
  | FamFunction => "function"%string
  | FamOther => if tag =? SYMBOL_BODY_TYPE_TAG then "symbol"%string else "bigint"%string
  end.

(** The coarse kind, [typeof], [ToBoolean] where it needs no heap body, and
    the primitive test of an encoded value are those of the value: [typeof] gives the
    ECMAScript type name (a heap cell by the family of its body), [ToBoolean] is false for
    undefined, null, [false], zero of either sign and NaN, true for callables and objects,
    and undecided exactly for strings, symbols and bigints. *)
Theorem value_semantics headers cage v (Hcage : cage_ok cage) (Hv : jsval_ok v) :
  let b := bits_of cage v in
  value_kind headers b = match v with
    | VInt _ => KInt32 | VDouble _ => KNumber | VFunction _ => KFunctionId
    | VCell offset => cell_kind (headers offset) | _ => KSpecial end
  /\ typeof_string headers b = match v with
    | VUndefined | VHole => "undefined"%string | VNull => "object"%string | VBool _ => "boolean"%string
    | VInt _ | VDouble _ => "number"%string | VFunction _ => "function"%string
    | VCell offset => cell_typeof (headers offset) end
  /\ to_boolean_pure headers b = match v with
    | VUndefined | VHole | VNull => Some false
    | VBool x => Some x
    | VInt n => Some (negb (n =? 0))
    | VDouble d => Some (negb (f64_is_nan d || f64_is_zero d))
    | VFunction _ => Some true
    | VCell offset => match tag_family (headers offset) with FamObject | FamFunction => Some true | _ => None end end
  /\ is_primitive headers b = match v with
    | VHole | VFunction _ => false
    | VCell offset => match tag_family (headers offset) with FamString | FamOther => true | _ => false end
    | _ => true end.
Proof.
  destruct (accessors_spec cage v Hcage Hv) as (H1 & H2 & H3 & H4 & H5 & H6 & H7 & H8).
  destruct (preds_spec cage v Hcage Hv) as (P1 & P2 & P3 & P4).
  pose proof (read_tag_spec headers cage v Hcage Hv) as Ht. cbv zeta in *.
  unfold typeof_string, typeof_pure, to_boolean_pure, is_primitive, value_kind, is_callable, is_object_like,
    other_family_kind, is_other_primitive, is_object, ptr_family.
  rewrite H2, H3, H6, H7, H8, P1, P2, P3, P4, Ht.
  destruct v as [n|d| | | |x|id|offset]; cbn [fmap option_fmap option_map orb]; try done.
  unfold cell_kind, cell_typeof. destruct (tag_family (headers offset)) eqn:Hf; try done.
  - split_and!; try done. simpl. by case_bool_decide.
  - split_and!; try done. simpl. unfold tag_family in Hf. by_bool.
Qed.

(** [value_semantics] at NaN. *)
Lemma value_semantics_witness :
  typeof_string (fun _ => 0x11) (bits_of 0x100000000 (VDouble CANONICAL_NAN)) = "number"%string.
Proof.
  exact (proj1 (proj2 (value_semantics (fun _ => 0x11) 0x100000000 (VDouble CANONICAL_NAN)
    ltac:(split; [lia|reflexivity]) ltac:(split; [split; [discriminate|reflexivity]|done])))).
Defined.
