(* ===== verification/SlotProps.v ===== *)
(** * Compressed property slots

    [compress] and [decompress] of [otter-vm/src/value/compressed.rs] against any heap that
    boxes numbers as its interface promises, and the offset view the collector uses. *)

From S2P Require Import Prelude Bits Value ValueProps.
Local Open Scope Z_scope.

(** ** Slot bits in arithmetic *)

Lemma slot_bit0 s : Z.land s 1 = s mod 2.
Proof. change 1 with (Z.ones 1). by rewrite Z.land_ones. Qed.
Lemma slot_tag s : Z.land s TAG_MASK = s mod 8.
Proof. change TAG_MASK with (Z.ones 3). by rewrite Z.land_ones. Qed.
Lemma slot_untag s : is_word 32 s -> Z.land s NOT_TAG_MASK = s - s mod 8.
Proof. intros Hs. by rewrite (land_high 32 3) by (done || reflexivity). Qed.
Lemma tag_join off t : 0 <= t < 8 -> off mod 8 = 0 -> Z.lor off t = off + t.
Proof.
  intros Ht Ho. pose proof (Z.div_mod off 8 ltac:(lia)). replace off with (off / 8 * 2 ^ 3) by (zpow; lia).
  apply lor_add; [lia|]. zpow. lia.
Qed.
Lemma mod2_of_8 s t : s mod 8 = t -> s mod 2 = t mod 2.
Proof.
  intros <-. rewrite (Z.div_mod s 8) at 1 by lia. replace (8 * (s / 8) + s mod 8) with (s mod 8 + (4 * (s / 8)) * 2) by lia.
  by rewrite Z_mod_plus_full.
Qed.

(** A slot of residue [t]: what the dispatch of [decompress] sees. *)
Lemma tagged_mod q t : 0 <= t < 8 -> (q * 8 + t) mod 8 = t.
Proof. intros Ht. rewrite Z.add_comm, Z_mod_plus_full. by apply Z.mod_small. Qed.

Section Codec.
Context {Heap : Type} `{HeapNumbers Heap} {live : Heap -> Z -> Prop} `{!HeapNumbersLaws Heap live} (cage_base : Z).
Implicit Type h : Heap.

Lemma decompress_tag s h t : s mod 8 = t -> t mod 2 = 0 ->
  decompress cage_base s h =
    if t =? TAG_BOXED then read_heap_number h (Z.land s NOT_TAG_MASK)
    else if t =? TAG_FUNCTION_ID then value_function_id (Z.shiftr s 3)
    else if t =? TAG_IMMEDIATE then
      (let k := Z.shiftr s 3 in
       if k =? IMM_NULL then VALUE_NULL else if k =? IMM_TRUE then VALUE_TRUE
       else if k =? IMM_FALSE then VALUE_FALSE else if k =? IMM_HOLE then VALUE_HOLE else VALUE_UNDEFINED)
    else if s =? 0 then VALUE_UNDEFINED else from_cell_offset cage_base s.
Proof.
  intros Ht H2. unfold decompress. rewrite slot_bit0, slot_tag, (mod2_of_8 s t Ht), Ht, H2. done.
Qed.

Lemma small_int_slot i : SMI_MIN <= i < SMI_LIMIT ->
  let s := Z.lor (low 32 (Z.shiftl (low 32 i) 1)) 1 in
  is_word 32 s /\ s mod 2 = 1 /\ Z.shiftr (to_i32 s) 1 = i.
Proof.
  change SMI_MIN with (-1073741824). change SMI_LIMIT with 1073741824. intros Hi. cbv zeta.
  rewrite shiftl_mul by lia. unfold low. change (2 ^ 32) with 4294967296. change (2 ^ 1) with 2.
  assert (E : (i mod 4294967296 * 2) mod 4294967296 = (i mod 2147483648) * 2 ^ 1).
  { change 4294967296 with (2147483648 * 2) at 2. rewrite Z.mul_mod_distr_r by lia. f_equal.
    apply Z.mod_mod_divide. by exists 2. }
  rewrite E, lor_add by (zpow; lia). change (2 ^ 1) with 2.
  pose proof (Z.mod_pos_bound i 2147483648 ltac:(lia)) as Hb.
  assert (Hm : i mod 2147483648 = i \/ (i < 0 /\ i mod 2147483648 = i + 2147483648)).
  { destruct (Z.lt_ge_cases i 0); [right|left; apply Z.mod_small; lia].
    split; [done|]. rewrite <- (Z_mod_plus_full i 1). apply Z.mod_small. lia. }
  split; [zpow; lia|]. split; [rewrite Z.add_comm, Z_mod_plus_full; done|].
  rewrite Z.shiftr_div_pow2 by lia. change (2 ^ 1) with 2. unfold to_i32.
  destruct Hm as [->|[Hneg ->]]; case_match; boolprop; try lia.
  - rewrite Z.div_add_l by lia. change (1 / 2) with 0. lia.
  - replace ((i + 2147483648) * 2 + 1 - 4294967296) with (i * 2 + 1) by lia. rewrite Z.div_add_l by lia.
    change (1 / 2) with 0. lia.
Qed.

Lemma function_slot id : 0 <= id < FUNCTION_ID_LIMIT ->
  let s := Z.lor (low 32 (Z.shiftl id 3)) TAG_FUNCTION_ID in
  s = id * 8 + 6 /\ is_word 32 s /\ s mod 8 = 6 /\ Z.shiftr s 3 = id.
Proof.
  change FUNCTION_ID_LIMIT with 536870912. change TAG_FUNCTION_ID with 6. intros Hid. cbv zeta.
  rewrite shiftl_mul by lia. unfold low. change (2 ^ 32) with 4294967296. rewrite Z.mod_small by (zpow; lia).
  rewrite lor_add by (zpow; lia). change (2 ^ 3) with 8. split_and!; [done|zpow; lia|by apply tagged_mod|].
  rewrite Z.shiftr_div_pow2 by lia. change (2 ^ 3) with 8. rewrite Z.div_add_l by lia. change (6 / 8) with 0. lia.
Qed.

(** A freshly boxed value reads back. *)
Lemma boxed_slot h bits h' off :
  alloc_heap_number h bits = Some (h', off) ->
  let s := Z.lor off TAG_BOXED in
  is_word 32 s /\ s mod 8 = TAG_BOXED /\ gc_offset s = off /\ decompress cage_base s h' = bits.
Proof.
  intros Ha. destruct (alloc_aligned h bits h' off Ha) as [Hr H8]. destruct (alloc_live h bits h' off Ha) as [_ Hread].
  cbv zeta. change TAG_BOXED with 2. rewrite tag_join by (done || lia). zpow.
  pose proof (Z.div_mod off 8 ltac:(lia)) as Hd. rewrite H8 in Hd.
  assert (Hm : (off + 2) mod 8 = 2) by (rewrite Hd, Z.mul_comm, Z.add_0_r; by apply tagged_mod).
  assert (Hw : is_word 32 (off + 2)) by (zpow; lia).
  assert (Hu : Z.land (off + 2) NOT_TAG_MASK = off) by (rewrite slot_untag, Hm by done; lia).
  split_and!; [lia|lia|done|done|]. rewrite (decompress_tag _ _ 2) by done. simpl. by rewrite Hu.
Qed.

(** What a slot may hold. *)
Definition needs_box (v : jsval) : bool :=
  match v with
  | VInt n => negb ((SMI_MIN <=? n) && (n <? SMI_LIMIT))
  | VDouble _ => true
  | VFunction id => negb (id <? FUNCTION_ID_LIMIT)
  | _ => false
  end.
Definition is_cell_val (v : jsval) : bool := match v with VCell _ => true | _ => false end.

(** The outcome a value's compression must have. *)
Definition compressed_ok h (v : jsval) (r : option (Heap * Z)) : Prop :=
  match r with
  | None => needs_box v = true /\ alloc_heap_number h (bits_of cage_base v) = None
  | Some (h', s) =>
      is_word 32 s /\ decompress cage_base s h' = bits_of cage_base v
      /\ is_gc_offset s = needs_box v || is_cell_val v
      /\ (needs_box v = false -> h' = h)
  end.

Lemma boxed_ok h v : needs_box v = true ->
  compressed_ok h v match alloc_heap_number h (bits_of cage_base v) with
                    | Some (h', off) => Some (h', Z.lor off TAG_BOXED) | None => None end.
Proof.
  intros Hb. destruct (alloc_heap_number h (bits_of cage_base v)) as [[h' off]|] eqn:Ha; simpl; [|done].
  destruct (boxed_slot h _ h' off Ha) as (Hw & Hm & _ & Hd). cbv zeta in *. rewrite Hb. split_and!; [done|done| |done].
  unfold is_gc_offset. rewrite slot_bit0, slot_tag, (mod2_of_8 _ _ Hm), Hm. simpl.
  destruct (Z.eqb_spec (Z.lor off TAG_BOXED) 0) as [E|]; [|done]. by rewrite E in Hm.
Qed.

Lemma compress_ok h v : cage_ok cage_base -> jsval_ok v -> compressed_ok h v (compress (bits_of cage_base v) h).
Proof.
  intros Hc Hv. destruct (accessors_spec cage_base v Hc Hv) as (H1 & _ & H3 & H4 & H5 & H6 & H7 & H8).
  cbv zeta in *. pose proof (boxed_ok h v) as Hbox.
  unfold compress. rewrite H1, H4, H5, H6, H7, H8. destruct v as [n|d| | | |[]|id|offset].
  - destruct ((SMI_MIN <=? n) && (n <? SMI_LIMIT))%bool eqn:Hr.
    + boolprop. destruct (small_int_slot n ltac:(lia)) as (Hw & Hm & Hs). cbv zeta in *. split_and!; [done| | |done].
      * unfold decompress. rewrite slot_bit0, Hm. simpl. by rewrite Hs.
      * unfold is_gc_offset. rewrite slot_bit0, Hm. simpl. unfold SMI_MIN, SMI_LIMIT in *. by_bool.
    + replace (bits_of cage_base (VInt n) =? VALUE_TRUE) with false; [replace (bits_of cage_base (VInt n) =? VALUE_FALSE) with false|].
      * apply Hbox. simpl. by rewrite Hr.
      * unfold as_boolean in H3. unfold is_boolean in H3. by_bool.
      * unfold as_boolean in H3. unfold is_boolean in H3. by_bool.
  - replace (bits_of cage_base (VDouble d) =? VALUE_TRUE) with false; [replace (bits_of cage_base (VDouble d) =? VALUE_FALSE) with false|].
    + by apply Hbox.
    + unfold as_boolean in H3. unfold is_boolean in H3. by_bool.
    + unfold as_boolean in H3. unfold is_boolean in H3. by_bool.
  - done.
  - done.
  - done.
  - done.
  - done.
  - replace (bits_of cage_base (VFunction id) =? VALUE_TRUE) with false; [replace (bits_of cage_base (VFunction id) =? VALUE_FALSE) with false|].
    + destruct (id <? FUNCTION_ID_LIMIT) eqn:Hl.
      * boolprop. unfold jsval_ok, is_word in Hv. destruct (function_slot id ltac:(lia)) as (_ & Hw & Hm & Hs). cbv zeta in *.
        split_and!; [done| | |done].
        -- rewrite (decompress_tag _ _ 6) by done. simpl. by rewrite Hs.
        -- unfold is_gc_offset. rewrite slot_bit0, slot_tag, (mod2_of_8 _ _ Hm), Hm. simpl.
           rewrite (proj2 (Z.ltb_lt _ _)) by done. by_bool.
      * apply Hbox. simpl. by rewrite Hl.
    + unfold as_boolean in H3. unfold is_boolean in H3. by_bool.
    + unfold as_boolean in H3. unfold is_boolean in H3. by_bool.
  - destruct Hv as [Ho H8']. split_and!; [zpow; lia| | |done].
    + rewrite (decompress_tag _ _ 0) by done. simpl. by rewrite (proj2 (Z.eqb_neq _ _)) by lia.
    + unfold is_gc_offset. rewrite slot_bit0, slot_tag, (mod2_of_8 _ _ H8'), H8'. simpl.
      by rewrite (proj2 (Z.eqb_neq _ _)) by lia.
Qed.

(** A slot whose box, if it has one, is live. *)
Definition slot_live h (s : Z) : Prop := s mod 8 = TAG_BOXED -> live h (gc_offset s).

Lemma decompress_frame h bits h' off s : alloc_heap_number h bits = Some (h', off) -> slot_live h s ->
  slot_live h' s /\ decompress cage_base s h' = decompress cage_base s h.
Proof.
  intros Ha Hl. destruct (decide (s mod 8 = TAG_BOXED)) as [Hb|Hb].
  - destruct (alloc_frame h bits h' off _ Ha (Hl Hb)) as [Hl' Hr]. split; [by intros _|].
    rewrite !(decompress_tag s _ TAG_BOXED) by done. simpl. exact Hr.
  - split; [intros E; by destruct (Hb E)|]. unfold decompress. rewrite slot_tag. by rewrite (proj2 (Z.eqb_neq _ _) Hb).
Qed.
End Codec.


(** C33 (invariant) The collector's view of a slot: for a slot that carries an offset,
    replacing the offset by another 8-aligned non-zero one keeps the slot's kind, the new
    offset is what [gc_offset] then reads, and the slot decodes to the cell at the new
    offset or to the box at the new offset. *)
Theorem slot_relocation {Heap : Type} `{HeapNumbers Heap} (cage : Z) (h : Heap) (s off : Z)
    (Hs : is_word 32 s) (Hgc : is_gc_offset s = true) (Hoff : 0 < off < 4294967296) (H8 : off mod 8 = 0) :
  let s' := with_gc_offset s off in
  is_word 32 s' /\ is_gc_offset s' = true /\ gc_offset s' = off
  /\ decompress cage s' h = if s mod 8 =? TAG_BOXED then read_heap_number h off else from_cell_offset cage off.
Proof.
  cbv zeta. unfold is_gc_offset in Hgc. rewrite slot_bit0, slot_tag in Hgc.
  destruct ((s mod 2 =? 1) || (s =? 0))%bool; [done|]. change TAG_BOXED with 2 in *.
  unfold with_gc_offset. rewrite slot_tag, slot_untag, H8, Z.sub_0_r by (zpow; lia).
  rewrite tag_join by (done || apply Z.mod_pos_bound; lia).
  assert (Hm : (off + s mod 8) mod 8 = s mod 8).
  { rewrite (Z.div_mod off 8), H8 at 1 by lia. rewrite Z.add_0_r, Z.mul_comm. apply tagged_mod, Z.mod_pos_bound. lia. }
  assert (Ht : s mod 8 = 0 \/ s mod 8 = 2).
  { apply orb_prop in Hgc as [E|E]; apply Z.eqb_eq in E; auto. }
  pose proof (Z.div_mod off 8 ltac:(lia)) as Hd. rewrite H8 in Hd.
  assert (Hw : is_word 32 (off + s mod 8)) by (zpow; lia).
  split_and!; [done| | |].
  - unfold is_gc_offset. rewrite slot_bit0, slot_tag, (mod2_of_8 _ _ Hm), Hm.
    rewrite (proj2 (Z.eqb_neq (off + s mod 8) 0)) by lia. destruct Ht as [-> | ->]; done.
  - unfold gc_offset. rewrite slot_untag, Hm by done. lia.
  - rewrite (decompress_tag _ _ _ (s mod 8)) by (done || destruct Ht as [-> | ->]; done).
    rewrite slot_untag, Hm by done. destruct Ht as [E|E]; rewrite E; simpl.
    + rewrite Z.add_0_r. by rewrite (proj2 (Z.eqb_neq _ _)) by lia.
    + f_equal. lia.
Qed.

(** ** A heap that meets the interface *)

Module BumpHeap.
(** Boxes in allocation order; the [i]-th sits at offset [8 * (i + 1)]. *)
Abbreviation Heap := (list Z).
Definition live (h : Heap) (off : Z) : Prop := exists i : nat, off = 8 * (Z.of_nat i + 1) /\ (i < length h)%nat.

#[export] Instance heap_numbers : HeapNumbers Heap := {
  alloc_heap_number h bits :=
    let off := 8 * (Z.of_nat (length h) + 1) in
    if off <? 4294967296 then Some (h ++ [bits], off) else None;
  read_heap_number h off := default 0 (h !! Z.to_nat (off / 8 - 1));
}.

Lemma read_at (h : Heap) (i : nat) : read_heap_number h (8 * (Z.of_nat i + 1)) = default 0 (h !! i).
Proof.
  simpl. replace (8 * (Z.of_nat i + 1)) with ((Z.of_nat i + 1) * 8) by lia. rewrite Z.div_mul by lia.
  replace (Z.to_nat (Z.of_nat i + 1 - 1)) with i by lia. done.
Qed.

#[export] Instance heap_laws : HeapNumbersLaws Heap live.
Proof.
  assert (Halloc : forall h bits h' off, alloc_heap_number h bits = Some (h', off) ->
    h' = h ++ [bits] /\ off = 8 * (Z.of_nat (length h) + 1) /\ off < 4294967296).
  { intros h bits h' off. cbn [alloc_heap_number heap_numbers]. case_match; [|done]. intros [= <- <-]. boolprop. split_and!; [done|done|lia]. }
  split.
  - intros h bits h' off (-> & -> & Hlt)%Halloc. split; [zpow; lia|]. rewrite Z.mul_comm. apply Z_mod_mult.
  - intros h bits h' off (-> & -> & Hlt)%Halloc. split.
    + exists (length h). split; [done|]. rewrite length_app. simpl. lia.
    + rewrite read_at, lookup_app_r, Nat.sub_diag by lia. done.
  - intros h bits h' off o (-> & -> & Hlt)%Halloc (i & -> & Hi). split.
    + exists i. split; [done|]. rewrite length_app. simpl. lia.
    + by rewrite !read_at, lookup_app_l.
Qed.
End BumpHeap.
Import BumpHeap.


(** [slot_relocation]: a cell slot moved from offset 64 to offset 4096. *)
Lemma slot_relocation_witness :
  decompress 0x100000000 (with_gc_offset 64 4096) ([] : BumpHeap.Heap) = from_cell_offset 0x100000000 4096.
Proof.
  exact (proj2 (proj2 (proj2 (slot_relocation 0x100000000 ([] : BumpHeap.Heap) 64 4096
    ltac:(split; [lia|reflexivity]) eq_refl ltac:(lia) eq_refl)))).
Defined.
