(* ===== verification/Swar.v ===== *)
(** * SWAR scanners

    [otter-vm/src/swar.rs]: the byte and code-unit searches that compare eight bytes or four
    units at a time inside one 64-bit word.  Slices are lists of [u8] or [u16] values; a
    slice past the end is a panic. *)

From S2P Require Import Prelude Bits Slices.

Definition ONES_U8 : Z := 0x0101010101010101.
Definition HIGH_U8 : Z := 0x8080808080808080.
Definition ONES_U16 : Z := 0x0001000100010001.
Definition HIGH_U16 : Z := 0x8000800080008000.

(** [u64] operations: [wrapping_mul], [wrapping_sub], [!]. *)
Definition u64_mul (x y : Z) : Z := ((x * y) mod 2 ^ 64)%Z.
Definition u64_sub (x y : Z) : Z := ((x - y) mod 2 ^ 64)%Z.
Definition u64_not (x : Z) : Z := (2 ^ 64 - 1 - x)%Z.

(** [u64::trailing_zeros] and [u64::leading_zeros]. *)
Fixpoint ctz (n : nat) (x : Z) : nat :=
  match n with
  | 0 => 0
  | S n => if Z.odd x then 0 else S (ctz n (x / 2)%Z)
  end.
Definition trailing_zeros (x : Z) : nat := ctz 64 x.
Definition leading_zeros (x : Z) : nat := if (x =? 0)%Z then 64 else 63 - Z.to_nat (Z.log2 x).

Definition byte_eq_mask (x c : Z) : Z :=
  let xor := Z.lxor x (u64_mul c ONES_U8) in
  Z.land (Z.land (u64_sub xor ONES_U8) (u64_not xor)) HIGH_U8.

Definition u16_eq_mask (x c : Z) : Z :=
  let xor := Z.lxor x (u64_mul c ONES_U16) in
  Z.land (Z.land (u64_sub xor ONES_U16) (u64_not xor)) HIGH_U16.

(** [&v[i..i + n]]. *)
Definition window (n : nat) (v : list Z) (i : nat) : res unit (list Z) :=
  if i + n <=? length v then Ok (take n (drop i v)) else Panic.

Definition bytemuck_u16_to_u64_le (units : list Z) : res unit (list Z) :=
  let* a := index units 0 in
  let* b := index units 1 in
  let* c := index units 2 in
  let* d := index units 3 in
  Ok (to_le_bytes 2 a ++ to_le_bytes 2 b ++ to_le_bytes 2 c ++ to_le_bytes 2 d).

(** The scalar tail of the forward scans. *)
Fixpoint scan_tail (fuel : nat) (v : list Z) (c : Z) (i : nat) : res unit (option nat) :=
  match fuel with
  | 0 => OutOfFuel
  | S fuel =>
      if i <? length v then
        let* x := index v i in
        if (x =? c)%Z then Ok (Some i) else scan_tail fuel v c (i + 1)
      else Ok None
  end.

Fixpoint find_byte_loop (fuel : nat) (bytes : list Z) (c : Z) (i : nat) : res unit (option nat) :=
  match fuel with
  | 0 => OutOfFuel
  | S fuel =>
      if i + 8 <=? length bytes then
        let* chunk_bytes := window 8 bytes i in
        let chunk := from_le_bytes chunk_bytes in
        let mask := byte_eq_mask chunk c in
        if negb (mask =? 0)%Z then Ok (Some (i + trailing_zeros mask / 8))
        else find_byte_loop fuel bytes c (i + 8)
      else scan_tail (S (length bytes)) bytes c i
  end.
Definition find_byte (bytes : list Z) (c : Z) (from : nat) : res unit (option nat) :=
  find_byte_loop (S (length bytes)) bytes c from.

Fixpoint find_u16_loop (fuel : nat) (units : list Z) (c : Z) (i : nat) : res unit (option nat) :=
  match fuel with
  | 0 => OutOfFuel
  | S fuel =>
      if i + 4 <=? length units then
        let* four := window 4 units i in
        let* chunk_bytes := bytemuck_u16_to_u64_le four in
        let chunk := from_le_bytes chunk_bytes in
        let mask := u16_eq_mask chunk c in
        if negb (mask =? 0)%Z then Ok (Some (i + trailing_zeros mask / 16))
        else find_u16_loop fuel units c (i + 4)
      else scan_tail (S (length units)) units c i
  end.
Definition find_u16 (units : list Z) (c : Z) (from : nat) : res unit (option nat) :=
  find_u16_loop (S (length units)) units c from.

(** The scalar head of the backward scans: [end] counts down to 0. *)
Fixpoint scan_head (v : list Z) (c : Z) (end_ : nat) : res unit (option nat) :=
  match end_ with
  | 0 => Ok None
  | S end_ =>
      let* x := index v end_ in
      if (x =? c)%Z then Ok (Some end_) else scan_head v c end_
  end.

(** The candidate lanes of one word, from the top, each verified; a lane has [w] bits and
    there are [n] of them. *)
Fixpoint lanes_down (fuel : nat) (w n : nat) (chunk c mask : Z) : res unit (option nat) :=
  match fuel with
  | 0 => OutOfFuel
  | S fuel =>
      if (mask =? 0)%Z then Ok None
      else
        let lane := (n - 1) - leading_zeros mask / w in
        let unit_ := low (Z.of_nat w) (Z.shiftr chunk (Z.of_nat (lane * w))) in
        if (unit_ =? c)%Z then Ok (Some lane)
        else
          lanes_down fuel w n chunk c
            (Z.land mask (u64_not (Z.shiftl (2 ^ (Z.of_nat w - 1)) (Z.of_nat (lane * w)))))
  end.

Fixpoint rfind_byte_loop (fuel : nat) (bytes : list Z) (c : Z) (end_ : nat) : res unit (option nat) :=
  match fuel with
  | 0 => OutOfFuel
  | S fuel =>
      if 8 <=? end_ then
        let* chunk_bytes := window 8 bytes (end_ - 8) in
        let chunk := from_le_bytes chunk_bytes in
        let* hit := lanes_down 9 8 8 chunk c (byte_eq_mask chunk c) in
        match hit with
        | Some lane => Ok (Some (end_ - 8 + lane))
        | None => rfind_byte_loop fuel bytes c (end_ - 8)
        end
      else scan_head bytes c end_
  end.
Definition rfind_byte (bytes : list Z) (c : Z) : res unit (option nat) :=
  rfind_byte_loop (S (length bytes)) bytes c (length bytes).

Fixpoint rfind_u16_loop (fuel : nat) (units : list Z) (c : Z) (end_ : nat) : res unit (option nat) :=
  match fuel with
  | 0 => OutOfFuel
  | S fuel =>
      if 4 <=? end_ then
        let* four := window 4 units (end_ - 4) in
        let* chunk_bytes := bytemuck_u16_to_u64_le four in
        let chunk := from_le_bytes chunk_bytes in
        let* hit := lanes_down 5 16 4 chunk c (u16_eq_mask chunk c) in
        match hit with
        | Some lane => Ok (Some (end_ - 4 + lane))
        | None => rfind_u16_loop fuel units c (end_ - 4)
        end
      else scan_head units c end_
  end.
Definition rfind_u16 (units : list Z) (c : Z) : res unit (option nat) :=
  rfind_u16_loop (S (length units)) units c (length units).

(** ** The scanners find what a scalar scan finds

    A 64-bit word is a list of lanes.  The zero-lane mask is computed lane by lane with a
    borrow: it marks every matching lane, marks no lane below the first match, and may mark
    a lane above it; hence the lowest mark is a match, and the marks verified from the top
    find the last match. *)

Local Open Scope Z_scope.

(** ** Words as lanes *)

Section Lanes.
Context (w : Z) (Hw : 2 <= w).
Definition base : Z := 2 ^ w.
Definition half : Z := 2 ^ (w - 1).

Lemma base_half : base = 2 * half /\ 2 <= half.
Proof.
  unfold base, half. replace w with (1 + (w - 1)) at 1 by lia. rewrite Z.pow_add_r by lia.
  split; [lia|]. change 2 with (2 ^ 1) at 1. apply Z.pow_le_mono_r; lia.
Qed.

Fixpoint from_lanes (l : list Z) : Z :=
  match l with
  | [] => 0
  | d :: l => d + base * from_lanes l
  end.

Definition is_lane (d : Z) : Prop := 0 <= d < base.
Definition width (n : nat) : Z := w * Z.of_nat n.

Lemma pow_width_S n : 2 ^ width (S n) = base * 2 ^ width n.
Proof.
  unfold width, base. rewrite <- Z.pow_add_r by lia. f_equal. lia.
Qed.
Lemma pow_width_pos n : 0 < 2 ^ width n.
Proof. apply Z.pow_pos_nonneg; unfold width; lia. Qed.

Lemma from_lanes_bound l : Forall is_lane l -> 0 <= from_lanes l < 2 ^ width (length l).
Proof.
  induction 1 as [|d l Hd _ IH]; [unfold width; simpl; rewrite Z.mul_0_r; done|].
  cbn [from_lanes length]. rewrite pow_width_S. unfold is_lane in Hd. nia.
Qed.

(** Lane-wise boolean operations. *)
Lemma land_lanes d1 x1 d2 x2 : is_lane d1 -> is_lane d2 ->
  Z.land (d1 + base * x1) (d2 + base * x2) = Z.land d1 d2 + base * Z.land x1 x2.
Proof.
  intros H1 H2. pose proof (land_word w d1 d2 ltac:(lia) H1) as H3.
  rewrite !(Z.add_comm _ (base * _)), !(Z.mul_comm base). unfold base.
  rewrite <- !lor_add by (done || lia).
  apply Z.bits_inj'. intros i Hi. rewrite !Z.land_spec, !Z.lor_spec, !Z.land_spec.
  destruct (Z.lt_ge_cases i w) as [Hlt|Hge].
  - by rewrite !Z.mul_pow2_bits_low.
  - rewrite !Z.mul_pow2_bits, Z.land_spec, !(word_high w _ i) by (done || lia). simpl. by rewrite !orb_false_r.
Qed.

Lemma lxor_lanes d1 x1 d2 x2 : is_lane d1 -> is_lane d2 ->
  Z.lxor (d1 + base * x1) (d2 + base * x2) = Z.lxor d1 d2 + base * Z.lxor x1 x2.
Proof.
  intros H1 H2. pose proof (lxor_word w d1 d2 ltac:(lia) H1 H2) as H3.
  rewrite !(Z.add_comm _ (base * _)), !(Z.mul_comm base). unfold base.
  rewrite <- !lor_add by (done || lia).
  apply Z.bits_inj'. intros i Hi. rewrite !Z.lxor_spec, !Z.lor_spec, !Z.lxor_spec.
  destruct (Z.lt_ge_cases i w) as [Hlt|Hge].
  - by rewrite !Z.mul_pow2_bits_low.
  - rewrite !Z.mul_pow2_bits, Z.lxor_spec, !(word_high w _ i) by (done || lia). simpl. by rewrite !orb_false_r.
Qed.

(** ** The mask *)

(** Lane [d] is marked under the incoming borrow [b] when [d < 1 + b]; that is also its
    outgoing borrow. *)
Definition marked (b d : Z) : bool := d <? 1 + b.
Fixpoint mask_lanes (b : Z) (l : list Z) : list Z :=
  match l with
  | [] => []
  | d :: l => (if marked b d then half else 0) :: mask_lanes (Z.b2z (marked b d)) l
  end.

Lemma land_half v : is_lane v -> Z.land v half = if half <=? v then half else 0.
Proof.
  intros Hv. destruct base_half as [Hb Hh]. unfold half at 1. rewrite land_bit by lia. fold half.
  rewrite testbit_mod by lia. fold half. unfold is_lane in Hv.
  destruct (Z.leb_spec half v).
  - assert (v / half = 1) as ->; [|done].
    symmetry. apply Z.div_unique with (v - half); lia.
  - rewrite Z.div_small by lia. done.
Qed.

Lemma mask_lane b d : is_lane d -> (b = 0 \/ b = 1) ->
  Z.land (Z.land ((d - 1 - b) mod base) (base - 1 - d)) half = if marked b d then half else 0.
Proof.
  intros Hd Hb. destruct base_half as [E Hh]. unfold is_lane in Hd.
  rewrite (Z.land_comm _ half), Z.land_assoc, !(Z.land_comm half).
  assert (Hm : 0 <= (d - 1 - b) mod base < base) by (apply Z.mod_pos_bound; lia).
  rewrite (land_half _ Hm). unfold marked. destruct (Z.ltb_spec d (1 + b)) as [Hlt|Hge].
  - assert ((d - 1 - b) mod base = d - 1 - b + base) as ->.
    { rewrite <- (Z_mod_plus_full _ 1). rewrite Z.mul_1_l. apply Z.mod_small. lia. }
    rewrite (proj2 (Z.leb_le _ _)) by lia. rewrite Z.land_comm, land_half by (unfold is_lane; lia).
    rewrite (proj2 (Z.leb_le _ _)) by lia. done.
  - rewrite Z.mod_small by lia. destruct (Z.leb_spec half (d - 1 - b)); [|by rewrite Z.land_0_l].
    rewrite Z.land_comm, land_half by (unfold is_lane; lia). by rewrite (proj2 (Z.leb_gt _ _)) by lia.
Qed.

Fixpoint ones (n : nat) : Z := match n with 0%nat => 0 | S n => 1 + base * ones n end.
Fixpoint highs (n : nat) : Z := match n with 0%nat => 0 | S n => half + base * highs n end.

Lemma mask_lanes_eq l : Forall is_lane l -> forall b, (b = 0 \/ b = 1) ->
  let n := length l in
  Z.land (Z.land ((from_lanes l - ones n - b) mod 2 ^ width n) (2 ^ width n - 1 - from_lanes l)) (highs n)
  = from_lanes (mask_lanes b l).
Proof.
  induction 1 as [|d l Hd Hl IH]; intros b Hb; cbv zeta.
  { simpl. by rewrite Z.land_0_r. }
  destruct base_half as [E Hh]. cbn [length from_lanes ones highs mask_lanes]. rewrite pow_width_S.
  set (n := length l) in *. pose proof (pow_width_pos n) as Hp. unfold is_lane in Hd.
  set (b' := Z.b2z (marked b d)). assert (Hb' : b' = 0 \/ b' = 1) by (unfold b'; destruct (marked b d); auto).
  assert (Hlow : is_lane ((d - 1 - b) mod base)) by (apply Z.mod_pos_bound; lia).
  assert (Hsub : (d + base * from_lanes l - (1 + base * ones n) - b) mod (base * 2 ^ width n)
    = (d - 1 - b) mod base + base * ((from_lanes l - ones n - b') mod 2 ^ width n)).
  { rewrite Z.rem_mul_r by lia. f_equal.
    - replace (d + base * from_lanes l - (1 + base * ones n) - b)
        with (d - 1 - b + (from_lanes l - ones n) * base) by lia. by rewrite Z_mod_plus_full.
    - f_equal. f_equal. replace (d + base * from_lanes l - (1 + base * ones n) - b)
        with ((d - 1 - b) + (from_lanes l - ones n) * base) by lia. rewrite Z.div_add by lia.
      assert ((d - 1 - b) / base = - b') as ->; [|lia]. unfold b', marked.
      destruct (Z.ltb_spec d (1 + b)); simpl.
      + symmetry. apply Z.div_unique with (d - 1 - b + base); lia.
      + rewrite Z.div_small; lia. }
  rewrite Hsub.
  replace (base * 2 ^ width n - 1 - (d + base * from_lanes l))
    with ((base - 1 - d) + base * (2 ^ width n - 1 - from_lanes l)) by lia.
  rewrite land_lanes by (done || (unfold is_lane; lia)).
  rewrite land_lanes.
  - rewrite mask_lane by done. f_equal. f_equal. by apply IH.
  - apply (land_word w); [lia|done].
  - unfold is_lane. lia.
Qed.

(** *** Marks and matches *)

Lemma length_mask_lanes b l : length (mask_lanes b l) = length l.
Proof. revert b. induction l as [|d l IH]; intros b; simpl; [done|]. by rewrite IH. Qed.

Lemma mask_lanes_values l : forall b, Forall (fun m => m = 0 \/ m = half) (mask_lanes b l).
Proof. induction l as [|d l IH]; intros b; simpl; constructor; [|apply IH]. destruct (marked b d); auto. Qed.

(** Every zero lane is marked. *)
Lemma mask_lanes_zero l : forall b j, (b = 0 \/ b = 1) -> l !! j = Some 0 -> mask_lanes b l !! j = Some half.
Proof.
  induction l as [|d l IH]; intros b [|j] Hb Hj; simpl in *; try done.
  - injection Hj as ->. unfold marked. by rewrite (proj2 (Z.ltb_lt _ _)) by lia.
  - apply IH; [|done]. destruct (marked b d); auto.
Qed.

(** The first mark is at a zero lane, and everything below it is not zero. *)
Lemma mask_lanes_first l j : Forall is_lane l ->
  (exists m, mask_lanes 0 l !! j = Some m /\ m <> 0) -> (forall i m, (i < j)%nat -> mask_lanes 0 l !! i = Some m -> m = 0) ->
  l !! j = Some 0 /\ forall i, (i < j)%nat -> l !! i <> Some 0.
Proof.
  intros Hl Hj Hlt.
  assert (Hbelow : forall i, (i < j)%nat -> l !! i <> Some 0).
  { intros i Hi H0. apply (mask_lanes_zero l 0 i) in H0; [|by left]. apply Hlt in H0; [|done].
    destruct base_half. lia. }
  split; [|done]. clear Hlt. revert j Hj Hbelow. induction Hl as [|d l Hd Hl IH]; intros j Hj Hbelow.
  { by destruct Hj as (m & Hm & _). }
  destruct j as [|j]; simpl in *.
  - destruct Hj as (m & [= <-] & Hne). unfold marked in Hne. destruct (Z.ltb_spec d (1 + 0)); [|done].
    unfold is_lane in Hd. f_equal. lia.
  - assert (Hz : marked 0 d = false).
    { unfold marked. apply Z.ltb_ge. specialize (Hbelow 0%nat ltac:(lia)). simpl in Hbelow. unfold is_lane in Hd.
      destruct (Z.eq_dec d 0); [subst; done|lia]. }
    rewrite Hz in Hj. apply IH; [done|]. intros i Hi. apply (Hbelow (S i)). lia.
Qed.

Lemma from_lanes_zero l : Forall (fun m => m = 0 \/ m = half) l ->
  from_lanes l = 0 <-> forall j m, l !! j = Some m -> m = 0.
Proof.
  destruct base_half as [E Hh]. intros Hl.
  assert (Hpos : forall l, Forall (fun m => m = 0 \/ m = half) l -> 0 <= from_lanes l).
  { induction 1 as [|m ms Hm _ IH]; simpl; [done|]. destruct Hm as [-> | ->]; nia. }
  induction Hl as [|m ms Hm Hl IH]; simpl; [split; [by intros _ j m|done]|]. specialize (Hpos ms Hl). split.
  - intros H0. assert (m = 0 /\ from_lanes ms = 0) as [-> H1] by (destruct Hm as [-> | ->]; nia).
    intros [|j] x; simpl; [by intros [= <-]|]. by apply IH.
  - intros H. rewrite (H 0%nat m eq_refl). rewrite (proj2 IH); [lia|]. intros j x Hx. by apply (H (S j)).
Qed.
End Lanes.

(** ** Counting zeros *)

Lemma ctz_shift a : forall n x, ctz (a + n) (2 ^ Z.of_nat a * x) = (a + ctz n x)%nat.
Proof.
  induction a as [|a IH]; intros n x; [by rewrite Z.mul_1_l|].
  rewrite Nat2Z.inj_succ, Z.pow_succ_r by lia. cbn [Nat.add ctz]. rewrite <- Z.mul_assoc, Z.odd_mul. simpl andb.
  cbn [Z.odd]. rewrite (Z.mul_comm 2), Z.div_mul, IH by lia. done.
Qed.

Section Count.
Context (wn : nat) (Hwn : (2 <= wn)%nat).
Abbreviation w := (Z.of_nat wn).

Lemma ctz_lanes l : Forall (fun m => m = 0 \/ m = half w) l -> from_lanes w l <> 0 ->
  exists j, (ctz (wn * length l) (from_lanes w l) / wn)%nat = j /\ (exists m, l !! j = Some m /\ m <> 0)
  /\ forall i m, (i < j)%nat -> l !! i = Some m -> m = 0.
Proof.
  destruct (base_half w ltac:(lia)) as [E Hh]. induction 1 as [|m ms Hm Hl IH]; intros Hne; [done|].
  cbn [from_lanes length] in *. rewrite Nat.mul_succ_r, Nat.add_comm.
  destruct Hm as [-> | ->].
  - rewrite Z.add_0_l in *. destruct IH as (j & Hj & Hex & Hlt); [intros H0; apply Hne; rewrite H0; lia|].
    exists (S j). split_and!; [|done|].
    + unfold base. rewrite ctz_shift. replace (wn + ctz (wn * length ms) (from_lanes w ms))%nat
        with (1 * wn + ctz (wn * length ms) (from_lanes w ms))%nat by lia. rewrite Nat.div_add_l by lia. lia.
    + intros [|i] x Hi; simpl; [by intros [= <-]|]. apply Hlt. lia.
  - exists 0%nat. split_and!.
    + replace (half w + base w * from_lanes w ms) with (2 ^ Z.of_nat (wn - 1) * (1 + 2 * from_lanes w ms)).
      2:{ rewrite E. unfold half. replace (w - 1) with (Z.of_nat (wn - 1)) by lia. lia. }
      replace (wn + wn * length ms)%nat with ((wn - 1) + S (wn * length ms))%nat by lia. rewrite ctz_shift.
      cbn [ctz]. rewrite Z.odd_add, Z.odd_mul. cbn [Z.odd]. simpl. apply Nat.div_small. lia.
    + exists (half w). split; [done|lia].
    + intros i x Hi. lia.
Qed.

(** ** The equality mask of one word *)

Definition matches (c : Z) (xs : list Z) : list Z := map (fun x => Z.lxor x c) xs.

Definition eq_mask (n : nat) (x c : Z) : Z :=
  let xor := Z.lxor x (u64_mul c (ones w n)) in
  Z.land (Z.land (u64_sub xor (ones w n)) (u64_not xor)) (highs w n).

Lemma matches_lanes c xs : is_lane w c -> Forall (is_lane w) xs -> Forall (is_lane w) (matches c xs).
Proof.
  intros Hc Hx. apply Forall_map. eapply Forall_impl; [done|]. intros x Hx'. apply (lxor_word w); [lia|done|done].
Qed.

Lemma matches_zero c xs j : matches c xs !! j = Some 0 <-> xs !! j = Some c.
Proof.
  unfold matches. rewrite map_lookup. destruct (xs !! j) as [x|]; simpl; [|done]. split.
  - intros [= H0]. apply Z.lxor_eq in H0. by subst.
  - intros [= ->]. by rewrite Z.lxor_nilpotent.
Qed.

Lemma mul_ones c n : c * ones w n = from_lanes w (replicate n c).
Proof. induction n as [|n IH]; simpl; [lia|]. rewrite <- IH. lia. Qed.

Lemma lxor_from_lanes c xs : is_lane w c -> Forall (is_lane w) xs ->
  Z.lxor (from_lanes w xs) (from_lanes w (replicate (length xs) c)) = from_lanes w (matches c xs).
Proof.
  intros Hc. induction 1 as [|x xs Hx _ IH]; [done|]. cbn [from_lanes length replicate matches map].
  rewrite (lxor_lanes w) by (done || lia). by rewrite IH.
Qed.

Lemma eq_mask_lanes xs c : is_lane w c -> Forall (is_lane w) xs -> (wn * length xs = 64)%nat ->
  eq_mask (length xs) (from_lanes w xs) c = from_lanes w (mask_lanes w 0 (matches c xs)).
Proof.
  intros Hc Hx Hn. assert (Hwd : width w (length xs) = 64) by (unfold width; lia).
  assert (Hrep : Forall (is_lane w) (replicate (length xs) c)) by by apply Forall_replicate.
  pose proof (from_lanes_bound w ltac:(lia) _ Hrep) as Hb. rewrite length_replicate, Hwd in Hb.
  unfold eq_mask, u64_mul, u64_sub, u64_not. rewrite mul_ones, (Z.mod_small (from_lanes _ _)), lxor_from_lanes by done.
  pose proof (mask_lanes_eq w ltac:(lia) (matches c xs) (matches_lanes c xs Hc Hx) 0 ltac:(by left)) as H.
  cbv zeta in H. unfold matches in H at 2 3 4 6. rewrite !length_map, Hwd, Z.sub_0_r in H. exact H.
Qed.

(** The lowest mark of the mask is the first match. *)
Lemma eq_mask_first xs c : is_lane w c -> Forall (is_lane w) xs -> (wn * length xs = 64)%nat ->
  let mask := eq_mask (length xs) (from_lanes w xs) c in
  (mask = 0 -> forall j, xs !! j <> Some c)
  /\ (mask <> 0 -> exists j, (trailing_zeros mask / wn)%nat = j /\ xs !! j = Some c
                  /\ forall i, (i < j)%nat -> xs !! i <> Some c).
Proof.
  intros Hc Hx Hn. cbv zeta. rewrite eq_mask_lanes by done. destruct (base_half w ltac:(lia)) as [E Hh].
  pose proof (mask_lanes_values w (matches c xs) 0) as Hv. split.
  - intros H0 j Hj. apply matches_zero in Hj. apply (mask_lanes_zero w _ 0) in Hj; [|by left].
    apply (proj1 (from_lanes_zero w ltac:(lia) _ Hv) H0) in Hj. lia.
  - intros Hne. destruct (ctz_lanes _ Hv Hne) as (j & Hj & Hex & Hlt).
    rewrite length_mask_lanes in Hj. unfold matches in Hj at 1. rewrite length_map, Hn in Hj.
    exists j. split; [done|].
    destruct (mask_lanes_first w ltac:(lia) (matches c xs) j (matches_lanes c xs Hc Hx) Hex Hlt) as [H0 Hbelow].
    split; [by apply matches_zero|]. intros i Hi Hxi. apply (Hbelow i Hi). by apply matches_zero.
Qed.
End Count.

(** ** Forward scans *)

(** [r] is the first position of [c] in [v] from [i] on. *)
Definition first_from (v : list Z) (c : Z) (i : nat) (r : option nat) : Prop :=
  match r with
  | Some k => (i <= k)%nat /\ v !! k = Some c /\ forall j, (i <= j < k)%nat -> v !! j <> Some c
  | None => forall j, (i <= j)%nat -> v !! j <> Some c
  end.

Lemma first_from_step v c i k r : (i <= k)%nat -> (forall j, (i <= j < k)%nat -> v !! j <> Some c) ->
  first_from v c k r -> first_from v c i r.
Proof.
  intros Hik Hno. destruct r as [x|]; simpl.
  - intros (H1 & H2 & H3). split_and!; [lia|done|]. intros j Hj. destruct (decide (j < k)%nat); [apply Hno|apply H3]; lia.
  - intros H j Hj. destruct (decide (j < k)%nat); [apply Hno|apply H]; lia.
Qed.

Lemma scan_tail_spec fuel v c : forall i, (length v - i < fuel)%nat ->
  exists r, scan_tail fuel v c i = Ok r /\ first_from v c i r.
Proof.
  induction fuel as [|fuel IH]; intros i Hf; cbn [scan_tail].
  - lia.
  - destruct (Nat.ltb_spec i (length v)) as [Hlt|Hge].
    + destruct (lookup_lt_is_Some_2 v i Hlt) as [x Hx]. unfold index. rewrite Hx. cbn [rbind].
      destruct (Z.eqb_spec x c) as [->|Hne].
      * exists (Some i). split; [done|]. split_and!; [lia|done|lia].
      * destruct (IH (i + 1)%nat) as (r & Hr & Hs); [lia|]. exists r. split; [done|].
        apply (first_from_step v c i (i + 1)); [lia| |done]. intros j Hj. replace j with i by lia. congruence.
    + exists None. split; [done|]. intros j Hj. rewrite (proj2 (lookup_ge_None v j)); [done|lia].
Qed.

Lemma window_spec n v i : (i + n <= length v)%nat ->
  window n v i = Ok (take n (drop i v)) /\ length (take n (drop i v)) = n
  /\ forall j, (j < n)%nat -> take n (drop i v) !! j = v !! (i + j)%nat.
Proof.
  intros Hl. unfold window. rewrite (proj2 (Nat.leb_le _ _) Hl). split_and!; [done| |].
  - rewrite length_take, length_drop. lia.
  - intros j Hj. by rewrite lookup_take_lt, lookup_drop.
Qed.

Lemma window_lanes w n v i : Forall (is_lane w) v -> Forall (is_lane w) (take n (drop i v)).
Proof. intros Hv. by apply Forall_take, Forall_drop. Qed.

(** Bytes are lanes of 8 bits, and four units packed in bytes are lanes of 16 bits. *)
Lemma from_le_bytes_lanes l : from_le_bytes l = from_lanes 8 l.
Proof. induction l as [|b l IH]; [done|]. cbn [from_le_bytes from_lanes]. by rewrite IH. Qed.

Lemma le_unit a : is_lane 16 a -> a mod 256 + 256 * (a / 256 mod 256) = a.
Proof.
  intros Ha. unfold is_lane, base in Ha. change (2 ^ 16) with 65536 in Ha.
  rewrite (Z.mod_small (a / 256)); [pose proof (Z.div_mod a 256); lia|].
  split; [apply Z.div_pos; lia|apply Z.div_lt_upper_bound; lia].
Qed.

Lemma pack_units four : length four = 4%nat -> Forall (is_lane 16) four ->
  exists bytes, bytemuck_u16_to_u64_le four = Ok bytes /\ from_le_bytes bytes = from_lanes 16 four.
Proof.
  destruct four as [|a [|b [|c [|d [|]]]]]; try done. intros _ H.
  apply Forall_cons in H as [Ha H]. apply Forall_cons in H as [Hb H]. apply Forall_cons in H as [Hc H].
  apply Forall_cons in H as [Hd _]. eexists. split; [done|].
  apply le_unit in Ha, Hb, Hc, Hd. cbn [to_le_bytes app from_le_bytes from_lanes]. unfold base. change (2 ^ 16) with 65536.
  lia.
Qed.

Lemma byte_eq_mask_eq x c : byte_eq_mask x c = eq_mask 8 8 x c.
Proof. reflexivity. Qed.
Lemma u16_eq_mask_eq x c : u16_eq_mask x c = eq_mask 16 4 x c.
Proof. reflexivity. Qed.

(** One word of the forward scan decides the next [n] positions. *)
Lemma word_first wn n v c i : (2 <= wn)%nat -> (wn * n = 64)%nat -> is_lane (Z.of_nat wn) c ->
  Forall (is_lane (Z.of_nat wn)) v -> (i + n <= length v)%nat ->
  let mask := eq_mask wn n (from_lanes (Z.of_nat wn) (take n (drop i v))) c in
  (mask = 0 -> forall j, (i <= j < i + n)%nat -> v !! j <> Some c)
  /\ (mask <> 0 -> first_from v c i (Some (i + trailing_zeros mask / wn)%nat)).
Proof.
  intros Hw Hn Hc Hv Hl. cbv zeta. destruct (window_spec n v i Hl) as (_ & Hlen & Hlook).
  pose proof (eq_mask_first wn Hw (take n (drop i v)) c Hc (window_lanes _ n v i Hv)) as H.
  rewrite Hlen in H. destruct (H Hn) as [H0 H1]. cbv zeta in H0, H1. split.
  - intros Hm j Hj Hvj. apply (H0 Hm (j - i)%nat). rewrite Hlook by lia. by replace (i + (j - i))%nat with j by lia.
  - intros Hm. destruct (H1 Hm) as (j & -> & Hj & Hbelow).
    assert (Hjn : (j < n)%nat) by (apply lookup_lt_Some in Hj; by rewrite Hlen in Hj). rewrite Hlook in Hj by done.
    split_and!; [lia|done|]. intros k Hk Hvk. apply (Hbelow (k - i)%nat); [lia|]. rewrite Hlook by lia.
    by replace (i + (k - i))%nat with k by lia.
Qed.

Lemma find_byte_loop_spec fuel bytes c : is_lane 8 c -> Forall (is_lane 8) bytes ->
  forall i, (length bytes - i < fuel)%nat ->
  exists r, find_byte_loop fuel bytes c i = Ok r /\ first_from bytes c i r.
Proof.
  intros Hc Hb. induction fuel as [|fuel IH]; intros i Hf; [lia|]. cbn [find_byte_loop].
  destruct (Nat.leb_spec (i + 8) (length bytes)) as [Hle|Hgt].
  - destruct (window_spec 8 bytes i Hle) as (-> & _ & _). cbn [rbind].
    rewrite from_le_bytes_lanes, byte_eq_mask_eq.
    destruct (word_first 8 8 bytes c i ltac:(lia) eq_refl Hc Hb Hle) as [H0 H1]. cbv zeta in H0, H1.
    destruct (Z.eqb_spec (eq_mask 8 8 (from_lanes 8 (take 8 (drop i bytes))) c) 0) as [E|E]; cbn [negb].
    + destruct (IH (i + 8)%nat) as (r & Hr & Hs); [lia|]. exists r. split; [done|].
      apply (first_from_step bytes c i (i + 8)); [lia| |done]. by apply H0.
    + eexists. split; [done|]. by apply H1.
  - apply scan_tail_spec. lia.
Qed.

Lemma find_u16_loop_spec fuel units c : is_lane 16 c -> Forall (is_lane 16) units ->
  forall i, (length units - i < fuel)%nat ->
  exists r, find_u16_loop fuel units c i = Ok r /\ first_from units c i r.
Proof.
  intros Hc Hb. induction fuel as [|fuel IH]; intros i Hf; [lia|]. cbn [find_u16_loop].
  destruct (Nat.leb_spec (i + 4) (length units)) as [Hle|Hgt].
  - destruct (window_spec 4 units i Hle) as (-> & Hlen & _). cbn [rbind].
    destruct (pack_units _ Hlen (window_lanes 16 4 units i Hb)) as (bytes & -> & E). cbn [rbind].
    rewrite E, u16_eq_mask_eq.
    destruct (word_first 16 4 units c i ltac:(lia) eq_refl Hc Hb Hle) as [H0 H1]. cbv zeta in H0, H1.
    destruct (Z.eqb_spec (eq_mask 16 4 (from_lanes 16 (take 4 (drop i units))) c) 0) as [E0|E0]; cbn [negb].
    + destruct (IH (i + 4)%nat) as (r & Hr & Hs); [lia|]. exists r. split; [done|].
      apply (first_from_step units c i (i + 4)); [lia| |done]. by apply H0.
    + eexists. split; [done|]. by apply H1.
  - apply scan_tail_spec. lia.
Qed.

(** ** Backward scans *)

(** [r] is the last position of [c] in [v] below [e]. *)
Definition last_below (v : list Z) (c : Z) (e : nat) (r : option nat) : Prop :=
  match r with
  | Some k => (k < e)%nat /\ v !! k = Some c /\ forall j, (k < j < e)%nat -> v !! j <> Some c
  | None => forall j, (j < e)%nat -> v !! j <> Some c
  end.

Lemma last_below_step v c e k r : (k <= e)%nat -> (forall j, (k <= j < e)%nat -> v !! j <> Some c) ->
  last_below v c k r -> last_below v c e r.
Proof.
  intros Hk Hno. destruct r as [x|]; simpl.
  - intros (H1 & H2 & H3). split_and!; [lia|done|]. intros j Hj. destruct (decide (j < k)%nat); [apply H3|apply Hno]; lia.
  - intros H j Hj. destruct (decide (j < k)%nat); [apply H|apply Hno]; lia.
Qed.

Lemma scan_head_spec v c e : (e <= length v)%nat -> exists r, scan_head v c e = Ok r /\ last_below v c e r.
Proof.
  induction e as [|e IH]; intros He; cbn [scan_head].
  { exists None. split; [done|]. intros j Hj. lia. }
  destruct (lookup_lt_is_Some_2 v e ltac:(lia)) as [x Hx]. unfold index. rewrite Hx. cbn [rbind].
  destruct (Z.eqb_spec x c) as [->|Hne].
  - exists (Some e). split; [done|]. split_and!; [lia|done|lia].
  - destruct IH as (r & Hr & Hs); [lia|]. exists r. split; [done|].
    apply (last_below_step v c (S e) e); [lia| |done]. intros j Hj. replace j with e by lia. congruence.
Qed.

Section Down.
Context (wn n : nat) (Hwn : (2 <= wn)%nat) (H64 : (wn * n = 64)%nat).
Abbreviation w := (Z.of_nat wn).

(** The value of lane [k]. *)
Lemma lane_value xs k x : Forall (is_lane w) xs -> xs !! k = Some x ->
  low w (Z.shiftr (from_lanes w xs) (Z.of_nat (k * wn))) = x.
Proof.
  intros Hx. revert k. induction Hx as [|d xs Hd Hx IH]; intros k Hk; [done|].
  rewrite Z.shiftr_div_pow2 in * by lia. unfold low, is_lane in *. fold (base w) in *.
  assert (Hpos : 0 < base w) by (unfold base; lia). destruct k as [|k].
  - injection Hk as ->. simpl. rewrite Z.div_1_r, Z.mul_comm, Z_mod_plus_full. by apply Z.mod_small.
  - cbn [from_lanes]. replace (Z.of_nat (S k * wn)) with (w + Z.of_nat (k * wn)) by lia.
    rewrite Z.pow_add_r by lia. fold (base w). rewrite <- Z.div_div by lia.
    rewrite (Z.mul_comm (base w)), Z.div_add, (Z.div_small d), Z.add_0_l by lia.
    specialize (IH k Hk). rewrite Z.shiftr_div_pow2 in IH by lia. exact IH.
Qed.

(** Splitting a word at lane [k]. *)
Lemma from_lanes_app xs ys : from_lanes w (xs ++ ys) = from_lanes w xs + 2 ^ width w (length xs) * from_lanes w ys.
Proof.
  induction xs as [|x xs IH]; cbn [app from_lanes length].
  - unfold width. rewrite Z.mul_0_r, Z.mul_1_l. done.
  - rewrite IH, pow_width_S by lia. lia.
Qed.

Lemma from_lanes_zeros m : from_lanes w (replicate m 0) = 0.
Proof. induction m as [|m IH]; simpl; [done|]. rewrite IH. lia. Qed.

Definition marks (ms : list Z) : Prop := Forall (fun m => m = 0 \/ m = half w) ms.

Lemma marks_lanes ms : marks ms -> Forall (is_lane w) ms.
Proof.
  intros Hm. destruct (base_half w ltac:(lia)). eapply Forall_impl; [done|]. intros m [-> | ->]; unfold is_lane; lia.
Qed.

(** The top mark: its bit, its lane, and what clearing it leaves. *)
Lemma top_mark pre m : marks pre -> (length pre < n)%nat ->
  let ms := pre ++ [half w] ++ replicate m 0 in length ms = n ->
  let mask := from_lanes w ms in
  mask <> 0 /\ ((n - 1) - leading_zeros mask / wn)%nat = length pre
  /\ Z.land mask (u64_not (Z.shiftl (2 ^ (w - 1)) (Z.of_nat (length pre * wn)))) = from_lanes w (pre ++ [0] ++ replicate m 0).
Proof.
  intros Hp Hlt ms Hlen mask. destruct (base_half w ltac:(lia)) as [E Hh].
  pose proof (from_lanes_bound w ltac:(lia) pre (marks_lanes pre Hp)) as Hb. set (k := length pre) in *.
  assert (Hmask : mask = from_lanes w pre + 2 ^ width w k * half w).
  { unfold mask, ms. rewrite from_lanes_app. cbn [app from_lanes]. rewrite from_lanes_zeros. fold k. lia. }
  set (i := width w k + (w - 1)).
  assert (Hi : 2 ^ width w k * half w = 2 ^ i) by (unfold i, half; rewrite Z.pow_add_r; [done|unfold width; lia|lia]).
  assert (Hi64 : 0 <= i < 64) by (unfold i, width; nia).
  assert (Hhalf : 0 <= from_lanes w pre < 2 ^ i).
  { rewrite <- Hi. nia. }
  rewrite Hi in Hmask.
  assert (Hlog : Z.log2 mask = i).
  { apply Z.log2_unique; [lia|]. rewrite Hmask. replace (Z.succ i) with (1 + i) by lia. rewrite Z.pow_add_r by lia. lia. }
  assert (Hne : mask <> 0) by lia. split; [done|]. split.
  - unfold leading_zeros. rewrite (proj2 (Z.eqb_neq _ _) Hne), Hlog.
    replace (63 - Z.to_nat i)%nat with ((n - 1 - k) * wn)%nat; [rewrite Nat.div_mul by lia; lia|].
    unfold i, width. rewrite Nat.mul_sub_distr_r, Nat.mul_sub_distr_r. nia.
  - replace (Z.shiftl (2 ^ (w - 1)) (Z.of_nat (k * wn))) with (2 ^ i).
    2:{ rewrite Z.shiftl_mul_pow2, <- Z.pow_add_r by lia. f_equal. unfold i, width. lia. }
    rewrite from_lanes_app. cbn [app from_lanes]. rewrite from_lanes_zeros. fold k.
    rewrite Z.mul_0_r, Z.add_0_r, Z.mul_0_r, Z.add_0_r.
    assert (Hword : is_word 64 mask).
    { unfold is_word. rewrite Hmask. split; [lia|]. apply Z.lt_le_trans with (2 ^ (i + 1)).
      - rewrite Z.pow_add_r by lia. lia.
      - apply Z.pow_le_mono_r; lia. }
    assert (Hnot : u64_not (2 ^ i) = Z.ldiff (Z.ones 64) (2 ^ i)).
    { unfold u64_not. rewrite <- Z.sub_nocarry_ldiff; [rewrite Z.ones_equiv; lia|].
      apply Z.bits_inj'. intros j Hj. rewrite Z.ldiff_spec, Z.bits_0, Z.pow2_bits_eqb by lia.
      destruct (Z.eqb_spec i j) as [<-|]; [|done]. by rewrite Z.ones_spec_low by lia. }
    rewrite Hnot, Z.ldiff_land, Z.land_assoc, <- Z.ldiff_land, Z.land_ones, Z.mod_small by (done || lia).
    rewrite <- Z.sub_nocarry_ldiff; [lia|].
    apply Z.bits_inj'. intros j Hj. rewrite Z.ldiff_spec, Z.bits_0, Z.pow2_bits_eqb by lia.
    destruct (Z.eqb_spec i j) as [<-|]; [|done].
    rewrite Hmask, testbit_mod by lia. rewrite Z.add_comm. rewrite <- (Z.mul_1_l (2 ^ i)) at 1.
    rewrite Z.div_add_l, Z.div_small by lia. done.
Qed.

(** The verified marks below lane [k], from the top. *)
Lemma lanes_down_spec xs c : Forall (is_lane w) xs -> length xs = n -> forall k pre fuel,
  length pre = k -> marks pre -> (k <= n)%nat -> (k < fuel)%nat ->
  (forall j, (j < k)%nat -> xs !! j = Some c -> pre !! j = Some (half w)) ->
  exists r, lanes_down fuel wn n (from_lanes w xs) c (from_lanes w (pre ++ replicate (n - k) 0)) = Ok r
  /\ last_below xs c k r.
Proof.
  intros Hx Hlen. induction k as [|k IH]; intros pre fuel Hpre Hm Hkn Hf Hmark; (destruct fuel as [|fuel]; [lia|]).
  { destruct pre; [|done]. cbn [app lanes_down]. rewrite from_lanes_zeros. simpl. exists None. split; [done|].
    intros j Hj. lia. }
  destruct pre as [|m pre _] using rev_ind; [done|]. rewrite length_app in Hpre. cbn [length] in Hpre.
  apply Forall_app in Hm as [Hm Hlast]. apply Forall_cons in Hlast as [Hlast _].
  assert (Hk : length pre = k) by lia.
  assert (Hmark' : forall j, (j < k)%nat -> xs !! j = Some c -> pre !! j = Some (half w)).
  { intros j Hj Hxj. specialize (Hmark j ltac:(lia) Hxj). rewrite lookup_app_l in Hmark by lia. done. }
  assert (Hzero : (pre ++ [0]) ++ replicate (n - S k) 0 = pre ++ replicate (n - k) 0).
  { rewrite <- app_assoc. f_equal. replace (n - k)%nat with (S (n - S k)) by lia. done. }
  destruct Hlast as [-> | ->].
  - rewrite Hzero. destruct (IH pre (S fuel) Hk Hm ltac:(lia) ltac:(lia) Hmark') as (r & Hr & Hs).
    exists r. split; [done|]. apply (last_below_step xs c (S k) k); [lia| |done].
    intros j Hj Hxj. replace j with k in * by lia. specialize (Hmark k ltac:(lia) Hxj).
    rewrite lookup_app_r, Hk, Nat.sub_diag in Hmark by lia. destruct (base_half w ltac:(lia)). injection Hmark as Hmark. lia.
  - destruct (top_mark pre (n - S k) Hm ltac:(lia)) as (Hne & Hlane & Hclear).
    { rewrite !length_app, length_replicate. simpl. lia. }
    rewrite <- app_assoc. cbn [lanes_down]. rewrite (proj2 (Z.eqb_neq _ _) Hne), Hlane, Hk.
    destruct (lookup_lt_is_Some_2 xs k ltac:(lia)) as [x Hxk]. rewrite (lane_value xs k x Hx Hxk).
    destruct (Z.eqb_spec x c) as [->|Hne'].
    + exists (Some k). split; [done|]. split_and!; [lia|done|lia].
    + rewrite Hk in Hclear. rewrite Hclear, (app_assoc pre [0]), Hzero.
      destruct (IH pre fuel Hk Hm ltac:(lia) ltac:(lia) Hmark') as (r & Hr & Hs).
      exists r. split; [done|]. apply (last_below_step xs c (S k) k); [lia| |done].
      intros j Hj. replace j with k by lia. congruence.
Qed.

Lemma word_last v c e fuel : is_lane w c -> Forall (is_lane w) v -> (n <= e <= length v)%nat -> (n < fuel)%nat ->
  let chunk := from_lanes w (take n (drop (e - n) v)) in
  exists r, lanes_down fuel wn n chunk c (eq_mask wn n chunk c) = Ok r
  /\ match r with
     | Some lane => last_below v c e (Some (e - n + lane)%nat)
     | None => forall j, (e - n <= j < e)%nat -> v !! j <> Some c
     end.
Proof.
  intros Hc Hv He Hf. cbv zeta. destruct (window_spec n v (e - n) ltac:(lia)) as (_ & Hlen & Hlook).
  set (xs := take n (drop (e - n) v)) in *. assert (Hx : Forall (is_lane w) xs) by by apply window_lanes.
  assert (Hmask : eq_mask wn n (from_lanes w xs) c = from_lanes w (mask_lanes w 0 (matches c xs) ++ replicate (n - n) 0)).
  { rewrite Nat.sub_diag, app_nil_r. rewrite <- Hlen at 1. apply eq_mask_lanes; [lia|done|done|]. by rewrite Hlen. }
  rewrite Hmask.
  destruct (lanes_down_spec xs c Hx Hlen n (mask_lanes w 0 (matches c xs)) fuel) as (r & Hr & Hs).
  - rewrite length_mask_lanes. unfold matches. by rewrite length_map.
  - apply mask_lanes_values.
  - lia.
  - done.
  - intros j _ Hj. apply mask_lanes_zero; [by left|]. by apply matches_zero.
  - exists r. split; [done|]. destruct r as [lane|]; simpl in *.
    + destruct Hs as (H1 & H2 & H3). rewrite Hlook in H2 by done. split_and!; [lia|done|].
      intros j Hj Hvj. apply (H3 (j - (e - n))%nat); [lia|]. rewrite Hlook by lia.
      by replace (e - n + (j - (e - n)))%nat with j by lia.
    + intros j Hj Hvj. apply (Hs (j - (e - n))%nat); [lia|]. rewrite Hlook by lia.
      by replace (e - n + (j - (e - n)))%nat with j by lia.
Qed.
End Down.

Lemma rfind_byte_loop_spec fuel bytes c : is_lane 8 c -> Forall (is_lane 8) bytes ->
  forall e, (e <= length bytes)%nat -> (e < fuel)%nat ->
  exists r, rfind_byte_loop fuel bytes c e = Ok r /\ last_below bytes c e r.
Proof.
  intros Hc Hb. induction fuel as [|fuel IH]; intros e He Hf; [lia|]. cbn [rfind_byte_loop].
  destruct (Nat.leb_spec 8 e) as [Hle|Hgt]; [|by apply scan_head_spec].
  destruct (window_spec 8 bytes (e - 8) ltac:(lia)) as (-> & _ & _). cbn [rbind].
  rewrite from_le_bytes_lanes, byte_eq_mask_eq.
  destruct (word_last 8 8 ltac:(lia) eq_refl bytes c e 9 Hc Hb ltac:(lia) ltac:(lia)) as (r & Hr & Hs). cbv zeta in Hr.
  change (Z.of_nat 8) with 8 in Hr. rewrite Hr. cbn [rbind]. destruct r as [lane|]; [eauto|].
  destruct (IH (e - 8)%nat ltac:(lia) ltac:(lia)) as (r & Hr' & Hs'). exists r. split; [done|].
  apply (last_below_step bytes c e (e - 8)); [lia|done|done].
Qed.

Lemma rfind_u16_loop_spec fuel units c : is_lane 16 c -> Forall (is_lane 16) units ->
  forall e, (e <= length units)%nat -> (e < fuel)%nat ->
  exists r, rfind_u16_loop fuel units c e = Ok r /\ last_below units c e r.
Proof.
  intros Hc Hb. induction fuel as [|fuel IH]; intros e He Hf; [lia|]. cbn [rfind_u16_loop].
  destruct (Nat.leb_spec 4 e) as [Hle|Hgt]; [|by apply scan_head_spec].
  destruct (window_spec 4 units (e - 4) ltac:(lia)) as (-> & Hlen & _). cbn [rbind].
  destruct (pack_units _ Hlen (window_lanes 16 4 units (e - 4) Hb)) as (bytes & -> & E). cbn [rbind].
  rewrite E, u16_eq_mask_eq.
  destruct (word_last 16 4 ltac:(lia) eq_refl units c e 5 Hc Hb ltac:(lia) ltac:(lia)) as (r & Hr & Hs). cbv zeta in Hr.
  change (Z.of_nat 16) with 16 in Hr. rewrite Hr. cbn [rbind]. destruct r as [lane|]; [eauto|].
  destruct (IH (e - 4)%nat ltac:(lia) ltac:(lia)) as (r & Hr' & Hs'). exists r. split; [done|].
  apply (last_below_step units c e (e - 4)); [lia|done|done].
Qed.


