(* ===== verification/Microtask.v ===== *)
(** The microtask queue (otter-vm/src/microtask.rs), the budget policy and the
    counters the drain writes (runtime_budget.rs, interp/stats.rs) and the drain
    loop of the interpreter ([drain_microtask_generations_inner],
    interp/exec.rs).  The body of a task, [Interpreter::invoke_microtask], runs
    JavaScript: it is a parameter of the loop, a function of everything the
    interpreter holds besides the queue, and reaches the queue by enqueueing. *)

From S2P Require Import Prelude.

Local Open Scope Z_scope.

Definition MAX_DRAIN_ITERS : Z := 1000000.

(** [x.saturating_add(1)] on [u64]. *)
Definition u64_saturating_succ (x : Z) : Z := Z.min (x + 1) u64_max.

Inductive RuntimeBudgetExceededAction := Observe | Reject.

Record RuntimeBudget : Type := mkBudget {
  on_exceeded : RuntimeBudgetExceededAction;
  max_reductions_per_turn : option Z;
  max_allocated_bytes_per_turn : option Z;
  max_host_ops_per_turn : option Z;
  max_turn_nanos : option Z;
  max_external_bytes : option Z;
  max_microtasks_per_drain : option Z
}.

Definition rejects_on_exceedance (b : RuntimeBudget) : bool :=
  match on_exceeded b with Reject => true | Observe => false end.

(** The counters of [RuntimeBudgetStats] the drain writes; the others belong to
    the rest of the interpreter. *)
Record DrainStats : Type := mkStats {
  budget_limit_observations : Z;
  microtask_drains : Z;
  microtasks_executed : Z;
  budget_rejections : Z
}.

Definition record_microtask_drain_started (s : DrainStats) : DrainStats :=
  mkStats (budget_limit_observations s) (u64_saturating_succ (microtask_drains s))
          (microtasks_executed s) (budget_rejections s).
Definition record_microtask_executed (s : DrainStats) : DrainStats :=
  mkStats (budget_limit_observations s) (microtask_drains s)
          (u64_saturating_succ (microtasks_executed s)) (budget_rejections s).
Definition record_budget_limit_observation (s : DrainStats) : DrainStats :=
  mkStats (u64_saturating_succ (budget_limit_observations s)) (microtask_drains s)
          (microtasks_executed s) (budget_rejections s).
Definition record_budget_rejection (s : DrainStats) : DrainStats :=
  mkStats (budget_limit_observations s) (microtask_drains s)
          (microtasks_executed s) (u64_saturating_succ (budget_rejections s)).

Section Queue.
(** Execution contexts, parked frames with their cold records, generators. *)
Context {Ctx Frame Cold Generator : Type}.

Inductive MicrotaskKind : Type :=
| Call
| FinalizationCallback
| AsyncResume (frame : Frame) (cold : option Cold) (await_dst : Z) (fulfilled : bool)
| AsyncGenResume (frame : Frame) (cold : option Cold) (await_dst : Z) (fulfilled : bool)
    (owner : Generator).

Record MicrotaskCapability : Type := mkCapability { cap_resolve : Z; cap_reject : Z }.

(** Values are their 64-bit words. *)
Record Microtask : Type := mkMicrotask {
  callee : Z;
  this_value : Z;
  args : list Z;
  context : option Ctx;
  result_capability : option MicrotaskCapability;
  task_kind : MicrotaskKind
}.

Record MicrotaskQueue : Type := mkQueue {
  pending : list Microtask;
  in_flight : list Microtask;
  drain_depth : Z;
  generation : Z;
  high_water : nat
}.

Definition queue_new : MicrotaskQueue := mkQueue [] [] 0 0 0.

Definition has_pending_sync (q : MicrotaskQueue) : bool :=
  match pending q with [] => false | _ => true end.

Definition enqueue (q : MicrotaskQueue) (task : Microtask) : MicrotaskQueue :=
  let pending := pending q ++ [task] in
  mkQueue pending (in_flight q) (drain_depth q) (generation q)
          (if (high_water q <? length pending)%nat then length pending else high_water q).

(** [None] is the reentrant call; the swap leaves [pending] with what
    [in_flight] held (nothing, when drains are paired). *)
Definition begin_drain (q : MicrotaskQueue) : option (nat * MicrotaskQueue) :=
  if 0 <? drain_depth q then None
  else Some (length (pending q),
             mkQueue (in_flight q) (pending q) (drain_depth q + 1) (u64_wrapping_succ (generation q))
                     (high_water q)).

Definition next_in_flight (q : MicrotaskQueue) : option (Microtask * MicrotaskQueue) :=
  match in_flight q with
  | [] => None
  | task :: rest =>
      Some (task, mkQueue (pending q) rest (drain_depth q) (generation q) (high_water q))
  end.

(** Popping the back of [in_flight] onto the front of [pending] until the first
    is empty. *)
Definition end_drain (q : MicrotaskQueue) : MicrotaskQueue :=
  mkQueue (fold_right cons (pending q) (in_flight q)) [] (Z.max 0 (drain_depth q - 1))
          (generation q) (high_water q).

Definition has_any_pending (q : MicrotaskQueue) : bool :=
  match pending q, in_flight q with [], [] => false | _, _ => true end.

(** ** The drain *)

(** What the interpreter holds besides the queue: the fields the drain reads or
    writes, and the rest. *)
Context {Rest Error : Type}.

Record Host : Type := mkHost {
  realm_context : option Ctx;
  runtime_budget : RuntimeBudget;
  runtime_budget_stats : DrainStats;
  host_rest : Rest
}.

Record Vm : Type := mkVm { microtasks : MicrotaskQueue; host : Host }.

Inductive DrainError : Type :=
| MicrotaskRunaway
| BudgetExceeded
| InvalidOperand
| TaskError (e : Error).

(** [invoke_microtask]: the interpreter afterwards, the tasks the body enqueued
    in order, and the error it ended with. *)
Variable invoke : Ctx -> Microtask -> Host -> Host * list Microtask * option Error.

Definition with_stats (h : Host) (s : DrainStats) : Host :=
  mkHost (realm_context h) (runtime_budget h) s (host_rest h).
Definition on_stats (f : DrainStats -> DrainStats) (h : Host) : Host :=
  with_stats h (f (runtime_budget_stats h)).

Definition observe_runtime_microtask_budget (h : Host) (microtasks_this_drain : Z) : bool * Host :=
  match max_microtasks_per_drain (runtime_budget h) with
  | Some limit =>
      if limit <? microtasks_this_drain then (true, on_stats record_budget_limit_observation h)
      else (false, h)
  | None => (false, h)
  end.

(** [a.or_else(|| b)]. *)
Definition or_else {A} (a b : option A) : option A := match a with Some x => Some x | None => b end.

Definition task_context (default_context : option Ctx) (h : Host) (task : Microtask) : option Ctx :=
  or_else (or_else (context task) default_context) (realm_context h).

(** The budget check of one iteration: the new [observed_microtask_budget], the
    interpreter, and whether the drain is rejected. *)
Definition budget_step (observed : bool) (iters : Z) (h : Host) : bool * Host * bool :=
  if observed then (true, h, false)
  else
    let '(observed, h) := observe_runtime_microtask_budget h iters in
    if observed && rejects_on_exceedance (runtime_budget h)
    then (observed, on_stats record_budget_rejection h, true)
    else (observed, h, false).

Definition stop (q : MicrotaskQueue) (h : Host) (e : DrainError) : res DrainError (Z * bool) * Vm :=
  (Err e, mkVm (end_drain q) h).

(** The [while let Some(task) = next_in_flight()] loop: [n] is the number of
    tasks of the generation, since nothing adds to [in_flight] while it runs. *)
Fixpoint run_generation (n : nat) (default_context : option Ctx) (vm : Vm) (iters : Z)
    (observed : bool) : res DrainError (Z * bool) * Vm :=
  match next_in_flight (microtasks vm) with
  | None => (Ok (iters, observed), vm)
  | Some (task, q) =>
      match n with
      | O => (OutOfFuel, vm)
      | S n =>
          if MAX_DRAIN_ITERS <=? iters then stop q (host vm) MicrotaskRunaway
          else
            let iters := iters + 1 in
            let h := on_stats record_microtask_executed (host vm) in
            let '(observed, h, rejected) := budget_step observed iters h in
            if rejected then stop q h BudgetExceeded
            else
              match task_context default_context h task with
              | None => stop q h InvalidOperand
              | Some context =>
                  let '(h, spawned, error) := invoke context task h in
                  let q := fold_left enqueue spawned q in
                  match error with
                  | Some e => stop q h (TaskError e)
                  | None => run_generation n default_context (mkVm q h) iters observed
                  end
              end
      end
  end.

Fixpoint generations_loop (fuel : nat) (default_context : option Ctx) (vm : Vm) (iters : Z)
    (observed : bool) : res DrainError unit * Vm :=
  match fuel with
  | O => (OutOfFuel, vm)
  | S fuel =>
      match begin_drain (microtasks vm) with
      | None => (Ok tt, vm)
      | Some (batch_len, q) =>
          if (batch_len =? 0)%nat then (Ok tt, mkVm (end_drain q) (host vm))
          else
            match run_generation batch_len default_context (mkVm q (host vm)) iters observed with
            | (Ok (iters, observed), vm) =>
                let q := end_drain (microtasks vm) in
                if has_any_pending q
                then generations_loop fuel default_context (mkVm q (host vm)) iters observed
                else (Ok tt, mkVm q (host vm))
            | (Err e, vm) => (Err e, vm)
            | (Panic, vm) => (Panic, vm)
            | (OutOfFuel, vm) => (OutOfFuel, vm)
            end
      end
  end.

(** Every generation but the last runs a task, and at most [MAX_DRAIN_ITERS]
    tasks run. *)
Definition drain_fuel : nat := Z.to_nat (MAX_DRAIN_ITERS + 2).

Definition drain_microtask_generations_inner (default_context : option Ctx) (vm : Vm)
    : res DrainError unit * Vm :=
  generations_loop drain_fuel default_context
    (mkVm (microtasks vm) (on_stats record_microtask_drain_started (host vm))) 0 false.

End Queue.

Arguments MicrotaskKind : clear implicits.
Arguments Microtask : clear implicits.
Arguments MicrotaskQueue : clear implicits.
Arguments Host : clear implicits.
Arguments Vm : clear implicits.
Arguments DrainError : clear implicits.
