(* ===== verification/MicrotaskProps.v ===== *)
(** The drain loop against a single first-in first-out queue: what a drain runs,
    in which order, with which outcome and what it leaves behind, and that every
    queued task runs when the tasks spawn finitely many others. *)

From S2P Require Import Prelude Microtask.

Local Open Scope Z_scope.

Section Drain.
Context {Ctx Frame Cold Generator Rest Error : Type}.
Abbreviation Task := (Microtask Ctx Frame Cold Generator).
Abbreviation Queue := (MicrotaskQueue Ctx Frame Cold Generator).
Abbreviation Host := (Host Ctx Rest).
Abbreviation Vm := (Vm Ctx Frame Cold Generator Rest).
Abbreviation DrainError := (DrainError Error).
Context (invoke : Ctx -> Task -> Host -> Host * list Task * option Error).
Context (default_context : option Ctx).

(** A drain of one queue in arrival order: [Fifo iters observed h q ran r h' q']
    starts with [iters] tasks run, the queue [q], runs the tasks [ran], ends with
    the result [r] and leaves [q'].  A task the drain refuses (the cap, the
    budget, no context) is taken off the queue without having run. *)
Inductive Fifo : Z -> bool -> Host -> list Task -> list Task -> res DrainError unit -> Host -> list Task -> Prop :=
| Fifo_done iters observed h : Fifo iters observed h [] [] (Ok tt) h []
| Fifo_runaway iters observed h t q :
    MAX_DRAIN_ITERS <= iters -> Fifo iters observed h (t :: q) [] (Err MicrotaskRunaway) h q
| Fifo_budget iters observed h t q observed' h' :
    iters < MAX_DRAIN_ITERS ->
    budget_step observed (iters + 1) (on_stats record_microtask_executed h) = (observed', h', true) ->
    Fifo iters observed h (t :: q) [] (Err BudgetExceeded) h' q
| Fifo_context iters observed h t q observed' h' :
    iters < MAX_DRAIN_ITERS ->
    budget_step observed (iters + 1) (on_stats record_microtask_executed h) = (observed', h', false) ->
    task_context default_context h' t = None ->
    Fifo iters observed h (t :: q) [] (Err InvalidOperand) h' q
| Fifo_error iters observed h t q observed' h' c h'' spawned e :
    iters < MAX_DRAIN_ITERS ->
    budget_step observed (iters + 1) (on_stats record_microtask_executed h) = (observed', h', false) ->
    task_context default_context h' t = Some c ->
    invoke c t h' = (h'', spawned, Some e) ->
    Fifo iters observed h (t :: q) [t] (Err (TaskError e)) h'' (q ++ spawned)
| Fifo_step iters observed h t q observed' h' c h'' spawned ran r hf qf :
    iters < MAX_DRAIN_ITERS ->
    budget_step observed (iters + 1) (on_stats record_microtask_executed h) = (observed', h', false) ->
    task_context default_context h' t = Some c ->
    invoke c t h' = (h'', spawned, None) ->
    Fifo (iters + 1) observed' h'' (q ++ spawned) ran r hf qf ->
    Fifo iters observed h (t :: q) (t :: ran) r hf qf.

(** Between drains nothing is in flight. *)
Definition idle (q : Queue) : Prop := drain_depth q = 0 /\ in_flight q = [].

Lemma enqueue_all (spawned : list Task) (q : Queue) :
  let q' := fold_left enqueue spawned q in
  pending q' = pending q ++ spawned /\ in_flight q' = in_flight q /\ drain_depth q' = drain_depth q.
Proof.
  revert q. induction spawned as [|t spawned IH]; intros q; simpl; [by rewrite app_nil_r|].
  destruct (IH (enqueue q t)) as (-> & -> & ->). simpl. by rewrite <- app_assoc.
Qed.

Lemma end_drain_spec (q : Queue) :
  drain_depth q = 1 -> idle (end_drain q) /\ pending (end_drain q) = in_flight q ++ pending q.
Proof.
  intros Hd. split; [by split; simpl; rewrite ?Hd|]. simpl.
  induction (in_flight q) as [|t l IH]; simpl; by f_equal.
Qed.

(** One generation: its tasks are the front of the single queue, what they
    enqueue is appended behind the rest. *)
Lemma run_generation_spec n (vm : Vm) iters observed :
  length (in_flight (microtasks vm)) = n -> drain_depth (microtasks vm) = 1 ->
  match run_generation invoke n default_context vm iters observed with
  | (Ok (iters', observed'), vm') =>
      iters' = iters + Z.of_nat n /\ (n = 0%nat \/ iters' <= MAX_DRAIN_ITERS)
      /\ in_flight (microtasks vm') = [] /\ drain_depth (microtasks vm') = 1
      /\ forall ran r hf qf, Fifo iters' observed' (host vm') (pending (microtasks vm')) ran r hf qf ->
           exists ran', Fifo iters observed (host vm)
                          (in_flight (microtasks vm) ++ pending (microtasks vm)) ran' r hf qf
  | (Err e, vm') =>
      idle (microtasks vm')
      /\ exists ran, Fifo iters observed (host vm)
           (in_flight (microtasks vm) ++ pending (microtasks vm)) ran (Err e) (host vm')
           (pending (microtasks vm'))
  | _ => False
  end.
Proof.
  revert vm iters observed. induction n as [|n IH]; intros [q h] iters observed Hn Hd.
  all: destruct q as [pd fl d g w]; simpl in *.
  { destruct fl; [|done]. split_and!; [lia|by left|done|done|eauto]. }
  destruct fl as [|t fl]; [done|]. injection Hn as Hn. subst d. simpl.
  set (q := mkQueue pd fl 1 g w).
  assert (Hq : idle (end_drain q) /\ pending (end_drain q) = fl ++ pd)
    by (apply (end_drain_spec q); done).
  destruct (Z.leb_spec MAX_DRAIN_ITERS iters) as [Hcap|Hcap].
  { cbn [stop microtasks host]. destruct Hq as [Hi ->]. split; [done|]. eexists. by apply Fifo_runaway. }
  destruct (budget_step observed (iters + 1) _) as [[observed' h'] rejected] eqn:Hb.
  destruct rejected.
  { cbn [stop microtasks host]. destruct Hq as [Hi ->]. split; [done|]. eexists. by eapply Fifo_budget. }
  destruct (task_context default_context h' t) as [c|] eqn:Hc.
  2:{ cbn [stop microtasks host]. destruct Hq as [Hi ->]. split; [done|]. eexists. by eapply Fifo_context. }
  destruct (invoke c t h') as [[h'' spawned] error] eqn:Hinv.
  destruct (enqueue_all spawned q) as (Hp & Hf & Hdep). simpl in Hp, Hf, Hdep.
  destruct error as [e|].
  { cbn [stop microtasks host]. destruct (end_drain_spec (fold_left enqueue spawned q) Hdep) as [Hi ->].
    split; [done|]. eexists. rewrite Hp, Hf, app_assoc. by eapply Fifo_error. }
  pose proof (IH (mkVm (fold_left enqueue spawned q) h'') (iters + 1) observed') as IH'.
  simpl in IH'. rewrite Hp, Hf, app_assoc in IH'. specialize (IH' Hn Hdep).
  destruct (run_generation invoke n default_context _ (iters + 1) observed') as [[[i' o']|e| |] vm']; try done.
  - destruct IH' as (-> & Hcap' & Hf' & Hd' & Hk). split_and!; [lia|right|done|done|].
    + destruct Hcap'; [subst n|]; lia.
    + intros ran r hf qf HF. apply Hk in HF as [ran' HF]. eexists. by eapply Fifo_step.
  - destruct IH' as (Hi & ran & HF). split; [done|]. eexists. by eapply Fifo_step.
Qed.

Lemma generations_loop_spec fuel (vm : Vm) iters observed :
  idle (microtasks vm) -> 0 <= iters <= MAX_DRAIN_ITERS ->
  MAX_DRAIN_ITERS - iters + 2 <= Z.of_nat fuel ->
  let '(r, vm') := generations_loop invoke fuel default_context vm iters observed in
  idle (microtasks vm')
  /\ exists ran, Fifo iters observed (host vm) (pending (microtasks vm)) ran r (host vm')
                   (pending (microtasks vm')).
Proof.
  revert vm iters observed.
  induction fuel as [|fuel IH]; intros [q h] iters observed [Hd Hf] Hi Hfuel; [lia|].
  destruct q as [pd fl d g w]. simpl in Hd, Hf. subst d fl.
  destruct pd as [|t pd].
  { simpl. split; [done|]. exists []. constructor. }
  pose proof (run_generation_spec (S (length pd)) (mkVm (mkQueue [] (t :: pd) 1 (u64_wrapping_succ g) w) h)
                iters observed eq_refl eq_refl) as Hrun.
  cbn [microtasks host in_flight pending] in Hrun. rewrite app_nil_r in Hrun.
  cbn -[MAX_DRAIN_ITERS run_generation end_drain has_any_pending Nat.eqb].
  change (0 + 1) with 1. change (S (length pd) =? 0)%nat with false. cbv iota.
  destruct (run_generation invoke _ _ _ _ _) as [[[i' o']|e| |] vm']; [|exact Hrun|done..].
  destruct Hrun as (Hi' & Hcap & Hf' & Hd' & Hk). destruct Hcap as [|Hcap]; [done|].
  destruct (end_drain_spec _ Hd') as [Hidle Hpd]. rewrite Hf' in Hpd. simpl app in Hpd.
  destruct (has_any_pending (end_drain (microtasks vm'))) eqn:Hany.
  - pose proof (IH (mkVm (end_drain (microtasks vm')) (host vm')) i' o' Hidle ltac:(lia) ltac:(lia)) as IH'.
    destruct (generations_loop invoke fuel default_context _ i' o') as [r vm''].
    destruct IH' as (Hidle' & ran & HF). split; [done|]. apply (Hk ran).
    cbn [microtasks host] in HF. by rewrite Hpd in HF.
  - split; [done|]. cbn [microtasks host]. unfold has_any_pending in Hany.
    destruct (pending (end_drain (microtasks vm'))) eqn:Hp; [|done].
    apply (Hk []). rewrite <- Hpd. constructor.
Qed.

Lemma drain_spec (vm : Vm) :
  idle (microtasks vm) ->
  let '(r, vm') := drain_microtask_generations_inner invoke default_context vm in
  idle (microtasks vm')
  /\ exists ran, Fifo 0 false (on_stats record_microtask_drain_started (host vm))
                   (pending (microtasks vm)) ran r (host vm') (pending (microtasks vm')).
Proof.
  intros Hidle. unfold drain_microtask_generations_inner.
  apply (generations_loop_spec drain_fuel (mkVm (microtasks vm) _) 0 false Hidle);
    unfold drain_fuel, MAX_DRAIN_ITERS; lia.
Qed.

(** The reference has one result, so a refinement pins the drain down. *)
Lemma Fifo_deterministic iters observed h q ran r hf qf ran' r' hf' qf' :
  Fifo iters observed h q ran r hf qf -> Fifo iters observed h q ran' r' hf' qf' ->
  ran = ran' /\ r = r' /\ hf = hf' /\ qf = qf'.
Proof.
  intros HF. revert ran' r' hf' qf'.
  induction HF as [| | | | |?????????????? ???? HF IH]; intros ran' r' hf' qf' HF'; inversion HF'; simplify_eq;
    try lia; repeat match goal with
             | H : ?x = (_, _), H' : ?x = (_, _) |- _ => rewrite H in H'; simplify_eq
             end; try done.
  match goal with H : Fifo (_ + 1) _ _ _ _ _ _ _ |- _ => by destruct (IH _ _ _ _ H) as (-> & -> & -> & ->) end.
Qed.


(** ** Every queued task runs *)

Definition total (cost : Task -> nat) (q : list Task) : nat := sum_list_with cost q.

(** The budget of [b] leaves room for [n] tasks. *)
Definition leaves_room (b : RuntimeBudget) (n : Z) : Prop :=
  on_exceeded b = Observe \/ forall limit, max_microtasks_per_drain b = Some limit -> n <= limit.

(** Tasks do not fail, do not change the budget, and the tasks one spawns cost
    less together than it does. *)
Definition spawns_finitely (cost : Task -> nat) : Prop :=
  forall c t h h' spawned error, invoke c t h = (h', spawned, error) ->
    error = None /\ (total cost spawned < cost t)%nat /\ runtime_budget h' = runtime_budget h.

Lemma budget_step_room observed iters (h : Host) :
  leaves_room (runtime_budget h) iters ->
  let '(_, h', rejected) := budget_step observed iters h in
  rejected = false /\ runtime_budget h' = runtime_budget h.
Proof.
  intros Hroom. unfold budget_step. destruct observed; [done|].
  unfold observe_runtime_microtask_budget.
  destruct (max_microtasks_per_drain (runtime_budget h)) as [limit|] eqn:Hl; [|done].
  destruct (Z.ltb_spec limit iters) as [Hlt|Hge]; [|done].
  destruct Hroom as [Ho|Hlim]; [|specialize (Hlim _ Hl); lia].
  unfold rejects_on_exceedance. simpl. by rewrite Ho.
Qed.

Lemma Fifo_completes (cost : Task -> nat) iters observed h q ran r hf qf :
  spawns_finitely cost -> default_context <> None ->
  iters + Z.of_nat (total cost q) <= MAX_DRAIN_ITERS ->
  leaves_room (runtime_budget h) (iters + Z.of_nat (total cost q)) ->
  Fifo iters observed h q ran r hf qf ->
  r = Ok tt /\ qf = [] /\ q `prefix_of` ran /\ (length ran <= total cost q)%nat.
Proof.
  intros Hspawn Hdef Hcap Hroom HF. revert Hcap Hroom.
  assert (Hstep : forall t (h0 : Host) i o o' h1 rej, total cost [t] <> 0%nat ->
    budget_step o (i + 1) (on_stats record_microtask_executed h0) = (o', h1, rej) ->
    forall q, leaves_room (runtime_budget h0) (i + Z.of_nat (total cost (t :: q))) ->
    rej = false /\ runtime_budget h1 = runtime_budget h0).
  { intros t h0 i o o' h1 rej Ht Hb q0 Hr.
    pose proof (budget_step_room o (i + 1) (on_stats record_microtask_executed h0)) as H.
    rewrite Hb in H. apply H. destruct Hr as [Ho|Hl]; [by left|right].
    intros limit Hlim. specialize (Hl limit Hlim). unfold total in *. simpl in *. lia. }
  assert (Hpos : forall t, total cost [t] <> 0%nat).
  { intros t. destruct default_context as [c|]; [|done].
    destruct (invoke c t h) as [[h' sp] e] eqn:Hi. destruct (Hspawn _ _ _ _ _ _ Hi) as (_ & Hlt & _).
    unfold total in *. simpl. lia. }
  induction HF as [|? ? ? t q Hge|? ? h t q ? ? ? Hb|? ? h t q ? ? ? Hb Hc|? ? h t q ? ? ? ? ? ? ? Hb Hc Hi
                  |? ? h t q ? ? ? ? ? ? ? ? ? ? Hb Hc Hi HF IH]; intros Hcap Hroom.
  - by split_and!.
  - specialize (Hpos t). unfold total in *. simpl in *. lia.
  - destruct (Hstep t _ _ _ _ _ _ (Hpos t) Hb q Hroom). done.
  - unfold task_context in Hc. by destruct (context t), default_context.
  - by destruct (Hspawn _ _ _ _ _ _ Hi).
  - destruct (Hstep t _ _ _ _ _ _ (Hpos t) Hb q Hroom) as [_ Hb'].
    destruct (Hspawn _ _ _ _ _ _ Hi) as (_ & Hlt & Hb'').
    assert (Happ : total cost (q ++ spawned) = (total cost q + total cost spawned)%nat)
      by apply sum_list_with_app.
    change (total cost (t :: q)) with (cost t + total cost q)%nat in *.
    destruct IH as (-> & -> & Hpre & Hlen).
    + rewrite Happ. lia.
    + rewrite Hb'', Hb', Happ. destruct Hroom as [Ho|Hl]; [by left|right].
      intros limit Hlim. specialize (Hl limit Hlim). lia.
    + split_and!; try done.
      * apply prefix_cons. etransitivity; [|done]. by apply prefix_app_r.
      * rewrite Happ in Hlen. simpl. lia.
Qed.

(** C9 (liveness) Every queued task eventually runs.  When tasks do not fail and
    each spawns finitely many others (a cost that decreases from a task to what
    it enqueues), and the total cost of the queue is within the cap and the
    microtask budget, one drain runs every queued task first, in order, and then
    everything they transitively enqueued, at most as many tasks as the total
    cost, and returns with the queue empty. *)
Theorem every_task_runs (cost : Task -> nat) (vm : Vm) :
  spawns_finitely cost -> default_context <> None -> idle (microtasks vm) ->
  Z.of_nat (total cost (pending (microtasks vm))) <= MAX_DRAIN_ITERS ->
  leaves_room (runtime_budget (host vm)) (Z.of_nat (total cost (pending (microtasks vm)))) ->
  exists ran vm',
    drain_microtask_generations_inner invoke default_context vm = (Ok tt, vm')
    /\ has_any_pending (microtasks vm') = false /\ idle (microtasks vm')
    /\ Fifo 0 false (on_stats record_microtask_drain_started (host vm))
         (pending (microtasks vm)) ran (Ok tt) (host vm') []
    /\ pending (microtasks vm) `prefix_of` ran
    /\ (length ran <= total cost (pending (microtasks vm)))%nat.
Proof.
  intros Hspawn Hdef Hidle Hcap Hroom. pose proof (drain_spec vm Hidle) as Hs.
  destruct (drain_microtask_generations_inner invoke default_context vm) as [r vm'].
  destruct Hs as (Hi & ran & HF).
  pose proof HF as HF'.
  apply (Fifo_completes cost) in HF' as (-> & Hq & Hpre & Hlen); [|done|done|lia|done].
  exists ran, vm'. rewrite Hq in HF. split_and!; try done.
  destruct Hi as [_ Hf]. unfold has_any_pending. by rewrite Hq, Hf.
Qed.

End Drain.

(** ** A concrete interpreter *)

(** Tasks are numbers: [n + 1] enqueues [n] and [n], [0] enqueues nothing; the
    rest of the interpreter is the list of numbers run. *)
Module Demo.

Abbreviation DemoTask := (Microtask unit unit unit unit).
Abbreviation DemoHost := (Host unit (list Z)).

Definition task (n : Z) : DemoTask := mkMicrotask n 0 [] None None Call.

Definition invoke (_ : unit) (t : DemoTask) (h : DemoHost) : DemoHost * list DemoTask * option unit :=
  (mkHost (realm_context h) (runtime_budget h) (runtime_budget_stats h) (host_rest h ++ [callee t]),
   (if 0 <? callee t then [task (callee t - 1); task (callee t - 1)] else []), None).

(** A task with callee [7] fails. *)
Definition failing (c : unit) (t : DemoTask) (h : DemoHost) : DemoHost * list DemoTask * option unit :=
  if callee t =? 7 then (h, [], Some tt) else invoke c t h.

Definition budget (action : RuntimeBudgetExceededAction) (limit : option Z) : RuntimeBudget :=
  mkBudget action None None None None None limit.

Definition vm (tasks : list Z) (b : RuntimeBudget) : Vm unit unit unit unit (list Z) :=
  mkVm (fold_left enqueue (map task tasks) queue_new) (mkHost None b (mkStats 0 0 0 0) []).

Definition cost (t : DemoTask) : nat := Z.to_nat (2 ^ (Z.max 0 (callee t) + 1) - 1).

Definition observe {E A} (out : res E A * Vm unit unit unit unit (list Z)) : bool * list Z * list Z :=
  (match fst out with Ok _ => true | _ => false end, host_rest (host (snd out)),
   map callee (pending (microtasks (snd out)))).

Example drains_in_arrival_order :
  observe (drain_microtask_generations_inner invoke (Some tt) (vm [2; 1] (budget Reject None)))
  = (true, [2; 1; 1; 1; 0; 0; 0; 0; 0; 0], []).
Proof. vm_compute. reflexivity. Qed.

(** The tasks behind a failing one, and those its predecessors enqueued, stay. *)
Example keeps_the_rest_after_an_error :
  observe (drain_microtask_generations_inner failing (Some tt) (vm [1; 7; 2] (budget Reject None)))
  = (false, [1], [2; 0; 0]).
Proof. vm_compute. reflexivity. Qed.

(** A rejecting budget of one task takes the second off the queue unrun. *)
Example budget_loses_a_task :
  observe (drain_microtask_generations_inner invoke (Some tt) (vm [0; 5; 6] (budget Reject (Some 1))))
  = (false, [0], [6]).
Proof. vm_compute. reflexivity. Qed.

Lemma spawns : spawns_finitely invoke cost.
Proof.
  intros c t h h' spawned error H. injection H as <- <- <-. split_and!; [done| |done].
  unfold total, cost. destruct (Z.ltb_spec 0 (callee t)) as [Hlt|Hge]; simpl sum_list_with.
  - cbn [callee task]. rewrite !Z.max_r by lia. replace (callee t - 1 + 1) with (callee t) by lia.
    rewrite Z.pow_add_r by lia. pose proof (Z.pow_pos_nonneg 2 (callee t)). lia.
  - rewrite Z.max_l by lia. simpl. lia.
Qed.

End Demo.


Lemma every_task_runs_witness :
  exists (ran : list Demo.DemoTask) vm',
    drain_microtask_generations_inner Demo.invoke (Some tt) (Demo.vm [2; 1] (Demo.budget Reject (Some 10)))
    = (Ok tt, vm')
    /\ has_any_pending (microtasks vm') = false
    /\ (length ran <= 10)%nat.
Proof.
  destruct (every_task_runs Demo.invoke (Some tt) Demo.cost (Demo.vm [2; 1] (Demo.budget Reject (Some 10))))
    as (ran & vm' & H1 & H2 & _ & _ & _ & H3).
  - exact Demo.spawns.
  - discriminate.
  - split; reflexivity.
  - vm_compute. discriminate.
  - right. intros limit [= <-]. vm_compute. discriminate.
  - exists ran, vm'. exact (conj H1 (conj H2 H3)).
Defined.
