(* ===== verification/Base64.v ===== *)
(** The base64 and hex codecs behind [Uint8Array.fromBase64], [toBase64],
    [setFromBase64], [fromHex], [toHex] and [setFromHex]
    (otter-vm/src/uint8_base64.rs).  A decoder returns the bytes, the number of
    code units read and the reason of a syntax error; the bytes decoded before
    an error are part of the result. *)

From Stdlib Require Import String.
From S2P Require Import Prelude Slices.

Local Open Scope Z_scope.

Inductive LastChunk := Loose | Strict | StopBeforePartial.

#[export] Instance LastChunk_eq_dec : EqDecision LastChunk.
Proof. solve_decision. Defined.

Definition is_ascii_ws (u : Z) : bool :=
  (u =? 0x09) || (u =? 0x0A) || (u =? 0x0C) || (u =? 0x0D) || (u =? 0x20).

(** [u8::try_from(u).ok()]. *)
Definition as_u8 (u : Z) : option Z := if in_range 0 255 u then Some u else None.

Definition b64_value (u : Z) (url : bool) : option Z :=
  match as_u8 u with
  | None => None
  | Some c =>
      if in_range (b8 "A") (b8 "Z") c then Some (c - b8 "A")
      else if in_range (b8 "a") (b8 "z") c then Some (c - b8 "a" + 26)
      else if in_range (b8 "0") (b8 "9") c then Some (c - b8 "0" + 52)
      else if (c =? b8 "+") && negb url then Some 62
      else if (c =? b8 "/") && negb url then Some 63
      else if (c =? b8 "-") && url then Some 62
      else if (c =? b8 "_") && url then Some 63
      else None
  end.

Definition B64_STD : list Z := chars "ABCDEFGHIJKLMNOPQRSTUVWXYZabcdefghijklmnopqrstuvwxyz0123456789+/".
Definition B64_URL : list Z := chars "ABCDEFGHIJKLMNOPQRSTUVWXYZabcdefghijklmnopqrstuvwxyz0123456789-_".

(** [x << k] and [x >> k] on [u8]. *)
Definition u8_shl (x k : Z) : Z := Z.land (Z.shiftl x k) 0xFF.
Definition u8_shr (x k : Z) : Z := Z.shiftr x k.

(** The four sextets of the chunk being read. *)
Record Chunk : Type := mkChunk { c0 : Z; c1 : Z; c2 : Z; c3 : Z }.
Definition empty_chunk : Chunk := mkChunk 0 0 0 0.

(** [chunk[clen] = v]. *)
Definition chunk_set (chunk : Chunk) (clen : nat) (v : Z) : res unit Chunk :=
  match clen with
  | 0%nat => Ok (mkChunk v (c1 chunk) (c2 chunk) (c3 chunk))
  | 1%nat => Ok (mkChunk (c0 chunk) v (c2 chunk) (c3 chunk))
  | 2%nat => Ok (mkChunk (c0 chunk) (c1 chunk) v (c3 chunk))
  | 3%nat => Ok (mkChunk (c0 chunk) (c1 chunk) (c2 chunk) v)
  | _ => Panic
  end.

Definition trailing_bits_zero (chunk : Chunk) (clen : nat) : bool :=
  match clen with
  | 2%nat => Z.land (c1 chunk) 0x0F =? 0
  | 3%nat => Z.land (c2 chunk) 0x03 =? 0
  | _ => true
  end.

Definition decode_partial (chunk : Chunk) (clen : nat) (out : list Z) : list Z :=
  let out := if (2 <=? clen)%nat
             then out ++ [Z.lor (u8_shl (c0 chunk) 2) (u8_shr (c1 chunk) 4)] else out in
  if (3 <=? clen)%nat
  then out ++ [Z.lor (u8_shl (c1 chunk) 4) (u8_shr (c2 chunk) 2)] else out.

(** [while i < n && is_ascii_ws(units[i]) { i += 1 }], on the units from [i]. *)
Fixpoint ws_run (rest : list Z) : nat :=
  match rest with
  | u :: rest => if is_ascii_ws u then S (ws_run rest) else O
  | [] => O
  end.
Definition skip_ws (units : list Z) (i : nat) : nat := i + ws_run (drop i units).

Definition Decoded : Type := list Z * nat * option string.

(** The input ended inside or between chunks. *)
Definition finish (lch : LastChunk) (max_bytes : Z) (n : nat) (bytes : list Z) (read : nat)
    (chunk : Chunk) (clen : nat) : Decoded :=
  if (0 <? clen)%nat then
    match lch with
    | StopBeforePartial => (bytes, read, None)
    | Loose =>
        if (clen =? 1)%nat then (bytes, read, Some "single trailing character"%string)
        else if max_bytes <? Z.of_nat (length bytes + (clen - 1)) then (bytes, read, None)
        else (decode_partial chunk clen bytes, n, None)
    | Strict => (bytes, read, Some "missing padding"%string)
    end
  else (bytes, n, None).

(** The end of the padding: nothing but white space may follow. *)
Definition finish_padded (units : list Z) (lch : LastChunk) (max_bytes : Z) (bytes : list Z)
    (read : nat) (chunk : Chunk) (clen i : nat) : Decoded :=
  let n := length units in
  let i := skip_ws units i in
  if negb (i =? n)%nat then (bytes, read, Some "trailing data after padding"%string)
  else if bool_decide (lch = Strict) && negb (trailing_bits_zero chunk clen)
  then (bytes, read, Some "non-zero padding bits"%string)
  else if max_bytes <? Z.of_nat (length bytes + (clen - 1)) then (bytes, read, None)
  else (decode_partial chunk clen bytes, n, None).

(** The branch on an equals sign at [i]. *)
Definition padding (units : list Z) (lch : LastChunk) (max_bytes : Z) (bytes : list Z)
    (read : nat) (chunk : Chunk) (clen i : nat) : res unit Decoded :=
  let n := length units in
  if (clen <? 2)%nat then Ok (bytes, read, Some "unexpected padding"%string)
  else
    let i := S i in
    if (clen =? 2)%nat then
      let i := skip_ws units i in
      let malformed :=
        if bool_decide (lch = StopBeforePartial) then Ok (bytes, read, None)
        else Ok (bytes, read, Some "malformed padding"%string) in
      if (i =? n)%nat then malformed
      else
        let* u := index units i in
        if negb (u =? b8 "=") then malformed
        else Ok (finish_padded units lch max_bytes bytes read chunk clen (S i))
    else Ok (finish_padded units lch max_bytes bytes read chunk clen i).

Fixpoint decode_base64_loop (fuel : nat) (units : list Z) (url : bool) (lch : LastChunk)
    (max_bytes : Z) (bytes : list Z) (read : nat) (chunk : Chunk) (clen i : nat)
    : res unit Decoded :=
  match fuel with
  | O => OutOfFuel
  | S fuel =>
      let i := skip_ws units i in
      if (i =? length units)%nat then Ok (finish lch max_bytes (length units) bytes read chunk clen)
      else
        let* c := index units i in
        if c =? b8 "=" then padding units lch max_bytes bytes read chunk clen i
        else
          match b64_value c url with
          | None => Ok (bytes, read, Some "invalid base64 character"%string)
          | Some v =>
              let* chunk := chunk_set chunk clen v in
              let clen := S clen in
              let i := S i in
              if (clen =? 4)%nat then
                if max_bytes <? Z.of_nat (length bytes + 3) then Ok (bytes, read, None)
                else
                  let bytes := bytes ++ [Z.lor (u8_shl (c0 chunk) 2) (u8_shr (c1 chunk) 4);
                                         Z.lor (u8_shl (c1 chunk) 4) (u8_shr (c2 chunk) 2);
                                         Z.lor (u8_shl (c2 chunk) 6) (c3 chunk)] in
                  if max_bytes <=? Z.of_nat (length bytes) then Ok (bytes, i, None)
                  else decode_base64_loop fuel units url lch max_bytes bytes i chunk 0 i
              else decode_base64_loop fuel units url lch max_bytes bytes read chunk clen i
          end
  end.

(** Every turn of the loop consumes a code unit. *)
Definition decode_base64 (units : list Z) (url : bool) (lch : LastChunk) (max_bytes : Z)
    : res unit Decoded :=
  if max_bytes =? 0 then Ok ([], 0%nat, None)
  else decode_base64_loop (S (length units)) units url lch max_bytes [] 0 empty_chunk 0 0.

(** [table[(n >> k & 0x3F) as usize]]. *)
Definition sextet (table : list Z) (n k : Z) : res unit Z :=
  index table (Z.to_nat (Z.land (Z.shiftr n k) 0x3F)).

Definition EQUALS : Z := b8 "=".

(** [chunks_exact(3)], and its remainder. *)
Fixpoint encode_chunks (table : list Z) (omit_padding : bool) (bytes : list Z) : res unit (list Z) :=
  match bytes with
  | [] => Ok []
  | [a] =>
      let n := Z.shiftl a 16 in
      let* s0 := sextet table n 18 in
      let* s1 := sextet table n 12 in
      Ok ([s0; s1] ++ (if omit_padding then [] else [EQUALS; EQUALS]))
  | [a; b] =>
      let n := Z.lor (Z.shiftl a 16) (Z.shiftl b 8) in
      let* s0 := sextet table n 18 in
      let* s1 := sextet table n 12 in
      let* s2 := sextet table n 6 in
      Ok ([s0; s1; s2] ++ (if omit_padding then [] else [EQUALS]))
  | a :: b :: c :: rest =>
      let n := Z.lor (Z.lor (Z.shiftl a 16) (Z.shiftl b 8)) c in
      let* s0 := sextet table n 18 in
      let* s1 := sextet table n 12 in
      let* s2 := sextet table n 6 in
      let* s3 := sextet table n 0 in
      let* out := encode_chunks table omit_padding rest in
      Ok (s0 :: s1 :: s2 :: s3 :: out)
  end.

Definition encode_base64 (bytes : list Z) (url omit_padding : bool) : res unit (list Z) :=
  encode_chunks (if url then B64_URL else B64_STD) omit_padding bytes.

(** ** Hex *)

Definition hex_value (u : Z) : option Z :=
  match as_u8 u with
  | None => None
  | Some c =>
      if in_range (b8 "0") (b8 "9") c then Some (c - b8 "0")
      else if in_range (b8 "a") (b8 "f") c then Some (c - b8 "a" + 10)
      else if in_range (b8 "A") (b8 "F") c then Some (c - b8 "A" + 10)
      else None
  end.

(** The pairs from position [i] on. *)
Fixpoint decode_hex_loop (rest : list Z) (max_bytes : Z) (bytes : list Z) (i : nat) : Decoded :=
  match rest with
  | h :: l :: rest =>
      if max_bytes <=? Z.of_nat (length bytes) then (bytes, i, None)
      else
        match hex_value h, hex_value l with
        | Some h, Some l => decode_hex_loop rest max_bytes (bytes ++ [Z.lor (u8_shl h 4) l]) (i + 2)
        | _, _ => (bytes, i, Some "invalid hex character"%string)
        end
  | _ => (bytes, i, None)
  end.

Definition decode_hex (units : list Z) (max_bytes : Z) : Decoded :=
  if negb (Nat.even (length units)) then ([], 0%nat, Some "hex string length must be even"%string)
  else decode_hex_loop units max_bytes [] 0.

Definition HEX : list Z := chars "0123456789abcdef".

Fixpoint encode_hex (bytes : list Z) : res unit (list Z) :=
  match bytes with
  | [] => Ok []
  | b :: bytes =>
      let* h := index HEX (Z.to_nat (Z.shiftr b 4)) in
      let* l := index HEX (Z.to_nat (Z.land b 0x0F)) in
      let* out := encode_hex bytes in
      Ok (h :: l :: out)
  end.

(** ** The byte-level part of [setFromBase64] and [setFromHex] *)

(** [write_into]: the decoded bytes over the front of the target. *)
Fixpoint write_into (target bytes : list Z) (k : nat) : list Z :=
  match bytes with
  | [] => target
  | b :: bytes => write_into (<[k := b]> target) bytes (S k)
  end.

Definition last_chunk_from_str (s : string) : LastChunk :=
  if String.eqb s "strict" then Strict
  else if String.eqb s "stop-before-partial" then StopBeforePartial
  else Loose.

(** The target afterwards, with [read] and [written] or the syntax error. *)
Definition set_from (target : list Z) (decoded : Decoded) : list Z * res string (nat * nat) :=
  let '(bytes, read, err) := decoded in
  let target := write_into target bytes 0 in
  match err with
  | Some e => (target, Err e)
  | None => (target, Ok (read, length bytes))
  end.
