(* ===== verification/Base64Props.v ===== *)
(** The codecs of [Base64]: decoding what was encoded gives the bytes back, and
    the decoders are total, bounded by the output budget and byte-valued. *)

From Stdlib Require Import String.
From S2P Require Import Prelude Slices Bits Base64.

Local Open Scope Z_scope.

(** Division and remainder by constants. *)
Ltac divmod := zpow; Z.to_euclidean_division_equations; lia.

Definition sextets : list Z := map Z.of_nat (seq 0 64).

Lemma elem_of_sextets x : 0 <= x < 64 -> x ∈ sextets.
Proof.
  intros Hx. apply list_elem_of_fmap. exists (Z.to_nat x). split; [lia|]. apply elem_of_seq. lia.
Qed.

(** A boolean fact about pairs of sextets, by evaluation. *)
Lemma by_pairs (P : Z -> Z -> bool) :
  forallb (fun x => forallb (P x) sextets) sextets = true ->
  forall x y, 0 <= x < 64 -> 0 <= y < 64 -> P x y = true.
Proof.
  intros H x y Hx Hy. rewrite forallb_forall in H.
  specialize (H x (proj1 (list_elem_of_In _ _) (elem_of_sextets x Hx))). rewrite forallb_forall in H.
  exact (H y (proj1 (list_elem_of_In _ _) (elem_of_sextets y Hy))).
Qed.

Lemma byte_0 x y : 0 <= x < 64 -> 0 <= y < 64 -> Z.lor (u8_shl x 2) (u8_shr y 4) = x * 4 + y / 16.
Proof.
  intros Hx Hy. apply Z.eqb_eq.
  apply (by_pairs (fun x y => Z.lor (u8_shl x 2) (u8_shr y 4) =? x * 4 + y / 16)); [|done..].
  vm_compute. reflexivity.
Qed.

Lemma byte_1 x y :
  0 <= x < 64 -> 0 <= y < 64 -> Z.lor (u8_shl x 4) (u8_shr y 2) = (x mod 16) * 16 + y / 4.
Proof.
  intros Hx Hy. apply Z.eqb_eq.
  apply (by_pairs (fun x y => Z.lor (u8_shl x 4) (u8_shr y 2) =? (x mod 16) * 16 + y / 4)); [|done..].
  vm_compute. reflexivity.
Qed.

Lemma byte_2 x y : 0 <= x < 64 -> 0 <= y < 64 -> Z.lor (u8_shl x 6) y = (x mod 4) * 64 + y.
Proof.
  intros Hx Hy. apply Z.eqb_eq.
  apply (by_pairs (fun x y => Z.lor (u8_shl x 6) y =? (x mod 4) * 64 + y)); [|done..].
  vm_compute. reflexivity.
Qed.

(** The character of a sextet. *)
Definition alphabet (url : bool) : list Z := if url then B64_URL else B64_STD.
Definition digit (url : bool) (s : Z) : Z := nth (Z.to_nat s) (alphabet url) 0.

Definition digit_ok (url : bool) (s : Z) : bool :=
  bool_decide (alphabet url !! Z.to_nat s = Some (digit url s))
  && bool_decide (b64_value (digit url s) url = Some s)
  && negb (is_ascii_ws (digit url s)) && negb (digit url s =? b8 "=").

Lemma digit_spec url s : 0 <= s < 64 ->
  @index unit Z (alphabet url) (Z.to_nat s) = Ok (digit url s)
  /\ b64_value (digit url s) url = Some s
  /\ is_ascii_ws (digit url s) = false /\ (digit url s =? b8 "=") = false.
Proof.
  intros Hs. assert (H : digit_ok url s = true).
  { assert (H : forallb (digit_ok url) sextets = true) by (destruct url; vm_compute; reflexivity).
    rewrite forallb_forall in H. apply H, list_elem_of_In, elem_of_sextets, Hs. }
  unfold digit_ok in H. boolprop.
  split_and!; [apply index_Ok; by eapply bool_decide_eq_true_1|by eapply bool_decide_eq_true_1|done|by apply Z.eqb_neq].
Qed.

Lemma sextet_digit url n k s :
  (n / 2 ^ k) mod 64 = s -> 0 <= k ->
  sextet (alphabet url) n k = Ok (digit url s).
Proof.
  intros <- Hk. unfold sextet. change 63 with (Z.ones 6). rewrite Z.land_ones, Z.shiftr_div_pow2 by lia.
  apply digit_spec. apply Z.mod_pos_bound. lia.
Qed.

Lemma join_2 a b : is_byte a -> is_byte b -> Z.lor (Z.shiftl a 16) (Z.shiftl b 8) = a * 65536 + b * 256.
Proof.
  unfold is_byte. intros Ha Hb. rewrite !shiftl_mul by lia. rewrite lor_add; zpow; lia.
Qed.

Lemma join_3 a b c : is_byte a -> is_byte b -> is_byte c ->
  Z.lor (Z.lor (Z.shiftl a 16) (Z.shiftl b 8)) c = a * 65536 + b * 256 + c.
Proof.
  intros Ha Hb Hc. rewrite join_2 by done.
  replace (a * 65536 + b * 256) with ((a * 256 + b) * 2 ^ 8) by lia.
  unfold is_byte in *. rewrite lor_add; zpow; lia.
Qed.

(** ** The text of a byte list *)

Fixpoint text_of (url omit : bool) (bytes : list Z) : list Z :=
  match bytes with
  | [] => []
  | [a] => map (digit url) [a / 4; (a mod 4) * 16] ++ (if omit then [] else [EQUALS; EQUALS])
  | [a; b] => map (digit url) [a / 4; (a mod 4) * 16 + b / 16; (b mod 16) * 4]
                ++ (if omit then [] else [EQUALS])
  | a :: b :: c :: rest =>
      map (digit url) [a / 4; (a mod 4) * 16 + b / 16; (b mod 16) * 4 + c / 64; c mod 64]
      ++ text_of url omit rest
  end.

(** Induction three bytes at a time. *)
Lemma triples_ind (P : list Z -> Prop) :
  P [] -> (forall a, P [a]) -> (forall a b, P [a; b]) ->
  (forall a b c rest, P rest -> P (a :: b :: c :: rest)) -> forall l, P l.
Proof.
  intros H0 H1 H2 H3. fix IH 1. intros [|a [|b [|c rest]]]; [done|apply H1|apply H2|apply H3, IH].
Qed.

Lemma encode_text bytes url omit :
  Forall is_byte bytes -> encode_base64 bytes url omit = Ok (text_of url omit bytes).
Proof.
  unfold encode_base64. fold (alphabet url).
  induction bytes as [|a|a b|a b c rest IH] using triples_ind; intros Hb; [done|..].
  all: rewrite ?Forall_cons in Hb; destruct_and?; cbn [encode_chunks text_of map].
  - rewrite shiftl_mul by lia. unfold is_byte in *.
    rewrite (sextet_digit url _ 18 (a / 4)), (sextet_digit url _ 12 ((a mod 4) * 16)) by divmod. done.
  - rewrite join_2 by done. unfold is_byte in *.
    rewrite (sextet_digit url _ 18 (a / 4)), (sextet_digit url _ 12 ((a mod 4) * 16 + b / 16)),
      (sextet_digit url _ 6 ((b mod 16) * 4)) by divmod. done.
  - rewrite join_3 by done. rewrite IH by done. unfold is_byte in *.
    rewrite (sextet_digit url _ 18 (a / 4)), (sextet_digit url _ 12 ((a mod 4) * 16 + b / 16)),
      (sextet_digit url _ 6 ((b mod 16) * 4 + c / 64)), (sextet_digit url _ 0 (c mod 64)) by divmod. done.
Qed.

(** ** Decoding it *)

Section Decode.
Context (units : list Z) (url : bool) (lch : LastChunk) (max_bytes : Z).

Lemma drop_tail i x (post : list Z) : drop i units = x :: post -> drop (S i) units = post.
Proof. intros H. replace (S i) with (i + 1)%nat by lia. by rewrite <- drop_drop, H. Qed.

Lemma drop_index i x (post : list Z) : drop i units = x :: post -> @index unit Z units i = Ok x.
Proof. intros H. apply index_Ok. rewrite <- (Nat.add_0_r i), <- lookup_drop. by rewrite H. Qed.

Lemma drop_in_range i x (post : list Z) : drop i units = x :: post -> (i =? length units)%nat = false.
Proof.
  intros H. apply Nat.eqb_neq. intros ->. by rewrite drop_all in H.
Qed.

Lemma skip_here i x post : drop i units = x :: post -> is_ascii_ws x = false -> skip_ws units i = i.
Proof. intros H Hx. unfold skip_ws. rewrite H. simpl. rewrite Hx. lia. Qed.

Lemma skip_end i : drop i units = [] -> skip_ws units i = i.
Proof. intros H. unfold skip_ws. rewrite H. simpl. lia. Qed.

Lemma loop_digit fuel bytes read chunk chunk' clen i s post :
  drop i units = digit url s :: post -> 0 <= s < 64 -> (clen < 3)%nat -> chunk_set chunk clen s = Ok chunk' ->
  decode_base64_loop (S fuel) units url lch max_bytes bytes read chunk clen i
  = decode_base64_loop fuel units url lch max_bytes bytes read chunk' (S clen) (S i).
Proof.
  intros Hi Hs Hc Hset. destruct (digit_spec url s Hs) as (_ & Hv & Hw & He).
  cbn [decode_base64_loop]. rewrite (skip_here _ _ _ Hi Hw), (drop_in_range _ _ _ Hi), (drop_index _ _ _ Hi).
  cbn [rbind]. rewrite He, Hv, Hset. cbn [rbind].
  destruct (Nat.eqb_spec (S clen) 4); [lia|done].
Qed.

Lemma loop_fourth fuel bytes read chunk i s post :
  drop i units = digit url s :: post -> 0 <= s < 64 ->
  0 <= c0 chunk < 64 -> 0 <= c1 chunk < 64 -> 0 <= c2 chunk < 64 ->
  Z.of_nat (length bytes + 3) <= max_bytes ->
  decode_base64_loop (S fuel) units url lch max_bytes bytes read chunk 3 i
  = let chunk := mkChunk (c0 chunk) (c1 chunk) (c2 chunk) s in
    let bytes := bytes ++ [c0 chunk * 4 + c1 chunk / 16; (c1 chunk mod 16) * 16 + c2 chunk / 4;
                           (c2 chunk mod 4) * 64 + s] in
    if max_bytes <=? Z.of_nat (length bytes) then Ok (bytes, S i, None)
    else decode_base64_loop fuel units url lch max_bytes bytes (S i) chunk 0 (S i).
Proof.
  intros Hi Hs H0 H1 H2 Hmax. destruct (digit_spec url s Hs) as (_ & Hv & Hw & He).
  cbn [decode_base64_loop]. rewrite (skip_here _ _ _ Hi Hw), (drop_in_range _ _ _ Hi), (drop_index _ _ _ Hi).
  cbn [rbind]. rewrite He, Hv. cbn [rbind chunk_set Nat.eqb c0 c1 c2 c3].
  rewrite byte_0, byte_1, byte_2 by done. destruct (Z.ltb_spec max_bytes (Z.of_nat (length bytes + 3))); [lia|done].
Qed.

Lemma loop_end fuel bytes read chunk clen i :
  drop i units = [] -> (i <= length units)%nat ->
  decode_base64_loop (S fuel) units url lch max_bytes bytes read chunk clen i
  = Ok (finish lch max_bytes (length units) bytes read chunk clen).
Proof.
  intros Hi Hle. cbn [decode_base64_loop]. rewrite (skip_end _ Hi).
  assert (i = length units) as ->; [|by rewrite Nat.eqb_refl].
  apply (f_equal length) in Hi. rewrite length_drop in Hi. simpl in Hi. lia.
Qed.

Lemma loop_padding fuel bytes read chunk clen i post :
  drop i units = EQUALS :: post ->
  decode_base64_loop (S fuel) units url lch max_bytes bytes read chunk clen i
  = padding units lch max_bytes bytes read chunk clen i.
Proof.
  intros Hi. cbn [decode_base64_loop]. rewrite (skip_here i EQUALS post Hi eq_refl), (drop_in_range _ _ _ Hi), (drop_index _ _ _ Hi).
  done.
Qed.

Lemma drop_nil_end i : drop i units = [] -> (i <= length units)%nat -> i = length units.
Proof. intros Hi Hle. apply (f_equal length) in Hi. rewrite length_drop in Hi. simpl in Hi. lia. Qed.

(** A partial chunk whose spare bits are zero, at the end of the input. *)
Lemma finish_padded_ok bytes read chunk clen i :
  drop i units = [] -> (i <= length units)%nat -> trailing_bits_zero chunk clen = true ->
  Z.of_nat (length bytes + (clen - 1)) <= max_bytes ->
  finish_padded units lch max_bytes bytes read chunk clen i = (decode_partial chunk clen bytes, length units, None).
Proof.
  intros Hi Hle Hz Hmax. unfold finish_padded. rewrite (skip_end _ Hi), (drop_nil_end _ Hi Hle), Nat.eqb_refl, Hz.
  simpl. rewrite andb_false_r. destruct (Z.ltb_spec max_bytes (Z.of_nat (length bytes + (clen - 1)))); [lia|done].
Qed.

Lemma finish_loose_ok bytes read chunk clen :
  lch = Loose -> (2 <= clen)%nat -> Z.of_nat (length bytes + (clen - 1)) <= max_bytes ->
  finish lch max_bytes (length units) bytes read chunk clen = (decode_partial chunk clen bytes, length units, None).
Proof.
  intros -> Hc Hmax. unfold finish. rewrite (proj2 (Nat.ltb_lt 0 clen)), (proj2 (Nat.eqb_neq clen 1)) by lia.
  destruct (Z.ltb_spec max_bytes (Z.of_nat (length bytes + (clen - 1)))); [lia|done].
Qed.
End Decode.

(** The modes under which the text of [bytes] is accepted whole. *)
Definition accepts (omit : bool) (lch : LastChunk) (n : nat) : Prop :=
  omit = false \/ lch = Loose \/ (n mod 3 = 0)%nat.

Lemma land_low_zero x k : 0 <= k -> Z.land (x * 2 ^ k) (Z.ones k) = 0.
Proof. intros Hk. rewrite Z.land_ones by lia. apply Z_mod_mult. Qed.

(** Read one character of the text. *)
Ltac eat_digit Hi := erewrite loop_digit; [|exact Hi|divmod|lia|reflexivity]; apply drop_tail in Hi.

Lemma drop_length_at (units text : list Z) i :
  drop i units = text -> (i <= length units)%nat -> length units = (i + length text)%nat.
Proof. intros <- Hle. rewrite length_drop. lia. Qed.

Lemma decode_text units url lch max_bytes omit bytes :
  Forall is_byte bytes -> accepts omit lch (length bytes) ->
  forall fuel acc chunk i,
  drop i units = text_of url omit bytes -> (i <= length units)%nat ->
  (length (text_of url omit bytes) < fuel)%nat ->
  Z.of_nat (length acc + length bytes) <= max_bytes ->
  decode_base64_loop fuel units url lch max_bytes acc i chunk 0 i = Ok (acc ++ bytes, length units, None).
Proof.
  induction bytes as [|a|a b|a b c rest IH] using triples_ind; intros Hb Hacc fuel acc chunk i Hi Hle Hfuel Hmax.
  all: rewrite ?Forall_cons in Hb; destruct_and?; unfold is_byte in *.
  all: pose proof (drop_length_at _ _ _ Hi Hle) as Hlen.
  all: cbn [text_of map app length] in Hi, Hfuel, Hmax, Hlen.
  - destruct fuel as [|fuel]; [lia|]. rewrite loop_end by done. by rewrite app_nil_r.
  - do 3 (destruct fuel as [|fuel]; [lia|]). eat_digit Hi. eat_digit Hi.
    assert (Hpart : forall x y, decode_partial (mkChunk (a / 4) ((a mod 4) * 16) x y) 2 acc = acc ++ [a]).
    { intros x y. cbn [decode_partial Nat.leb c0 c1]. rewrite byte_0 by divmod. do 2 f_equal. divmod. }
    destruct omit; cbn [length] in *.
    + destruct Hacc as [|[Hl|Hm]]; [done| |done].
      rewrite loop_end by (done || lia). rewrite finish_loose_ok by (done || lia).
      cbn [c0 c1 c2 c3]. by rewrite Hpart.
    + rewrite (loop_padding _ _ _ _ _ _ _ _ _ _ _ Hi). apply drop_tail in Hi.
      unfold padding. cbn [Nat.ltb Nat.leb Nat.eqb].
      rewrite (skip_here _ _ _ _ Hi eq_refl), (drop_in_range _ _ _ _ Hi), (drop_index _ _ _ _ Hi). cbn [rbind].
      change (negb (EQUALS =? b8 "=")) with false. cbv iota. apply drop_tail in Hi.
      rewrite finish_padded_ok; [by cbn [c0 c1 c2 c3]; rewrite Hpart|done|lia| |simpl; lia].
      cbn [trailing_bits_zero c1]. apply Z.eqb_eq, (land_low_zero (a mod 4) 4). lia.
  - do 4 (destruct fuel as [|fuel]; [lia|]). eat_digit Hi. eat_digit Hi. eat_digit Hi.
    assert (Hpart : forall y, decode_partial (mkChunk (a / 4) ((a mod 4) * 16 + b / 16) ((b mod 16) * 4) y) 3 acc
                              = acc ++ [a; b]).
    { intros y. cbn [decode_partial Nat.leb c0 c1 c2]. rewrite byte_0, byte_1, <- app_assoc by divmod.
      cbn [app]. do 3 f_equal; [divmod|]. f_equal. divmod. }
    destruct omit; cbn [length] in *.
    + destruct Hacc as [|[Hl|Hm]]; [done| |done].
      rewrite loop_end by (done || lia). rewrite finish_loose_ok by (done || lia).
      cbn [c0 c1 c2 c3]. by rewrite Hpart.
    + rewrite (loop_padding _ _ _ _ _ _ _ _ _ _ _ Hi). apply drop_tail in Hi.
      unfold padding. cbn [Nat.ltb Nat.leb Nat.eqb].
      rewrite finish_padded_ok; [by cbn [c0 c1 c2 c3]; rewrite Hpart|done|lia| |simpl; lia].
      cbn [trailing_bits_zero c2]. apply Z.eqb_eq, (land_low_zero (b mod 16) 2). lia.
  - do 5 (destruct fuel as [|fuel]; [lia|]). eat_digit Hi. eat_digit Hi. eat_digit Hi.
    rewrite (loop_fourth _ _ _ _ _ _ _ _ _ _ _ Hi) by (cbn [c0 c1 c2]; lia || divmod). apply drop_tail in Hi.
    cbn [c0 c1 c2]. cbv zeta.
    replace (a / 4 * 4 + ((a mod 4) * 16 + b / 16) / 16) with a by divmod.
    replace ((((a mod 4) * 16 + b / 16) mod 16) * 16 + ((b mod 16) * 4 + c / 64) / 4) with b by divmod.
    replace ((((b mod 16) * 4 + c / 64) mod 4) * 64 + c mod 64) with c by divmod.
    destruct (Z.leb_spec max_bytes (Z.of_nat (length (acc ++ [a; b; c])))) as [Hfull|Hroom].
    + rewrite length_app in Hfull. simpl in Hfull. destruct rest; [|simpl in *; lia]. simpl in Hlen.
      do 3 f_equal. lia.
    + replace (acc ++ a :: b :: c :: rest) with ((acc ++ [a; b; c]) ++ rest) by by rewrite <- app_assoc.
      apply IH; [done| |done|lia|lia|rewrite length_app; simpl; lia].
      destruct Hacc as [|[|Hm]]; [by left|by right; left|right; right].
      change (length (a :: b :: c :: rest)) with (3 + length rest)%nat in Hm.
      replace (3 + length rest)%nat with (length rest + 1 * 3)%nat in Hm by lia.
      by rewrite Nat.Div0.mod_add in Hm.
Qed.

(** ** Hex *)

Lemma hex_pair_digit x : 0 <= x < 16 ->
  exists ch, @index unit Z HEX (Z.to_nat x) = Ok ch /\ hex_value ch = Some x.
Proof.
  intros Hx. assert (H : Forall (fun x => match HEX !! Z.to_nat x with
    | Some ch => hex_value ch = Some x | None => False end) (map Z.of_nat (seq 0 16)))
    by (vm_compute; repeat constructor).
  rewrite Forall_forall in H. specialize (H x).
  destruct (HEX !! Z.to_nat x) as [ch|] eqn:E.
  - exists ch. split; [by apply index_Ok|]. apply H, list_elem_of_fmap. exists (Z.to_nat x).
    split; [lia|]. apply elem_of_seq. lia.
  - exfalso. apply H, list_elem_of_fmap. exists (Z.to_nat x). split; [lia|]. apply elem_of_seq. lia.
Qed.

Lemma hex_byte b : is_byte b -> Z.lor (u8_shl (Z.shiftr b 4) 4) (Z.land b 15) = b.
Proof.
  unfold is_byte. intros Hb. unfold u8_shl. change 15 with (Z.ones 4). change 255 with (Z.ones 8).
  rewrite !Z.land_ones, Z.shiftr_div_pow2, shiftl_mul by lia. rewrite Z.mod_small by divmod.
  rewrite lor_add by divmod. divmod.
Qed.

Lemma hex_roundtrip bytes : Forall is_byte bytes ->
  exists text, encode_hex bytes = Ok text /\ length text = (2 * length bytes)%nat
  /\ forall acc i max_bytes, Z.of_nat (length acc + length bytes) <= max_bytes ->
       decode_hex_loop text max_bytes acc i = (acc ++ bytes, (i + length text)%nat, None).
Proof.
  induction bytes as [|b bytes IH]; intros Hb.
  { exists []. split_and!; try done. intros acc i max _. simpl. by rewrite app_nil_r, Nat.add_0_r. }
  apply Forall_cons in Hb as [Hb Hbs]. destruct (IH Hbs) as (text & Henc & Hlen & Hdec).
  destruct (hex_pair_digit (Z.shiftr b 4)) as (h & Hh & Hhv).
  { unfold is_byte in Hb. rewrite Z.shiftr_div_pow2 by lia. divmod. }
  destruct (hex_pair_digit (Z.land b 15)) as (l & Hl & Hlv).
  { change 15 with (Z.ones 4). rewrite Z.land_ones by lia. divmod. }
  exists (h :: l :: text). cbn [encode_hex]. rewrite Hh, Hl, Henc. cbn [rbind].
  split_and!; [done|simpl; lia|]. intros acc i max Hmax. cbn [decode_hex_loop length] in *.
  destruct (Z.leb_spec max (Z.of_nat (length acc))); [lia|]. rewrite Hhv, Hlv, hex_byte by done.
  rewrite Hdec by (rewrite length_app; simpl; lia). rewrite <- app_assoc. by replace (i + 2 + length text)%nat with (i + S (S (length text)))%nat by lia.
Qed.

(** ** Bounds *)

(** The first [clen] sextets of the chunk are in range. *)
Definition chunk_ok (chunk : Chunk) (clen : nat) : Prop :=
  ((0 < clen)%nat -> 0 <= c0 chunk < 64) /\ ((1 < clen)%nat -> 0 <= c1 chunk < 64)
  /\ ((2 < clen)%nat -> 0 <= c2 chunk < 64) /\ ((3 < clen)%nat -> 0 <= c3 chunk < 64).

(** What every outcome satisfies. *)
Definition bounded (units : list Z) (max_bytes : Z) (d : Decoded) : Prop :=
  let '(bytes, read, _) := d in
  Forall is_byte bytes /\ Z.of_nat (length bytes) <= max_bytes /\ (read <= length units)%nat.

(** Evaluate the character literals. *)
Ltac eval_b8 :=
  repeat match goal with
  | H : context [b8 ?a] |- _ => let v := eval vm_compute in (b8 a) in change (b8 a) with v in H
  | |- context [b8 ?a] => let v := eval vm_compute in (b8 a) in change (b8 a) with v
  end.

Lemma b64_value_range c url v : b64_value c url = Some v -> 0 <= v < 64.
Proof.
  unfold b64_value, as_u8. intros H. repeat case_match; simplify_eq; boolprop;
    eval_b8; lia.
Qed.

Lemma chunk_set_ok chunk clen v : chunk_ok chunk clen -> (clen < 4)%nat -> 0 <= v < 64 ->
  exists chunk', chunk_set chunk clen v = Ok chunk' /\ chunk_ok chunk' (S clen).
Proof.
  intros (H0 & H1 & H2 & H3) Hc Hv. unfold chunk_ok in *. do 4 (destruct clen as [|clen];
    [eexists; split; [reflexivity|]; cbn [c0 c1 c2 c3]; split_and!; intros; auto with lia|]). lia.
Qed.

Lemma decode_partial_ok chunk clen bytes :
  chunk_ok chunk clen -> Forall is_byte bytes ->
  Forall is_byte (decode_partial chunk clen bytes)
  /\ ((2 <= clen <= 3)%nat -> length (decode_partial chunk clen bytes) = (length bytes + (clen - 1))%nat).
Proof.
  intros (H0 & H1 & H2 & _) Hb. unfold decode_partial.
  destruct (Nat.leb_spec 2 clen), (Nat.leb_spec 3 clen); try lia; rewrite ?length_app; simpl.
  - rewrite byte_0, byte_1 by auto with lia. specialize (H0 ltac:(lia)). specialize (H1 ltac:(lia)). specialize (H2 ltac:(lia)).
    split; [|lia]. rewrite !Forall_app, !Forall_singleton. unfold is_byte. split_and!; try done; divmod.
  - rewrite byte_0 by auto with lia. specialize (H0 ltac:(lia)). specialize (H1 ltac:(lia)).
    split; [|lia]. rewrite !Forall_app, !Forall_singleton. unfold is_byte. split_and!; try done; divmod.
  - split; [done|lia].
Qed.

Lemma ws_run_le l : (ws_run l <= length l)%nat.
Proof. induction l as [|u l IH]; simpl; [lia|]. case_match; lia. Qed.

Lemma skip_ws_le units i :
  (i <= length units)%nat -> (i <= skip_ws units i <= length units)%nat.
Proof. intros Hi. unfold skip_ws. pose proof (ws_run_le (drop i units)) as H. rewrite length_drop in H. lia. Qed.

Section Bounds.
Context (units : list Z) (url : bool) (lch : LastChunk) (max_bytes : Z).
Context (bytes : list Z) (read : nat) (chunk : Chunk) (clen : nat).
Context (Hbytes : Forall is_byte bytes) (Hmax : Z.of_nat (length bytes) <= max_bytes).
Context (Hread : (read <= length units)%nat) (Hchunk : chunk_ok chunk clen) (Hclen : (clen < 4)%nat).

Lemma finish_bounded : bounded units max_bytes (finish lch max_bytes (length units) bytes read chunk clen).
Proof.
  unfold finish. destruct (Nat.ltb_spec 0 clen); [|done]. destruct lch; try done.
  destruct (Nat.eqb_spec clen 1); [done|].
  destruct (Z.ltb_spec max_bytes (Z.of_nat (length bytes + (clen - 1)))); [done|].
  destruct (decode_partial_ok chunk clen bytes Hchunk Hbytes) as [Hb Hl].
  split_and!; [done|rewrite Hl; lia|done].
Qed.

Lemma finish_padded_bounded i :
  (2 <= clen)%nat -> bounded units max_bytes (finish_padded units lch max_bytes bytes read chunk clen i).
Proof.
  intros Hc. unfold finish_padded. destruct (negb _); [done|]. destruct (bool_decide _ && _); [done|].
  destruct (Z.ltb_spec max_bytes (Z.of_nat (length bytes + (clen - 1)))); [done|].
  destruct (decode_partial_ok chunk clen bytes Hchunk Hbytes) as [Hb Hl].
  split_and!; [done|rewrite Hl; lia|done].
Qed.

Lemma padding_bounded i : (i < length units)%nat ->
  exists d, padding units lch max_bytes bytes read chunk clen i = Ok d /\ bounded units max_bytes d.
Proof.
  intros Hi. unfold padding. destruct (Nat.ltb_spec clen 2); [eexists; split; [done|done]|].
  assert (Hmal : exists d, (if bool_decide (lch = StopBeforePartial) then Ok (bytes, read, None)
      else @Ok unit _ (bytes, read, Some "malformed padding"%string)) = Ok d /\ bounded units max_bytes d)
    by (case_match; eexists; split; done).
  destruct (Nat.eqb_spec clen 2).
  - destruct (Nat.eqb_spec (skip_ws units (S i)) (length units)) as [|Hne]; [done|].
    pose proof (skip_ws_le units (S i) Hi) as Hskip.
    destruct (lookup_lt_is_Some_2 units (skip_ws units (S i))) as [u Hu]; [lia|].
    rewrite (proj2 (index_Ok _ _ _) Hu). cbn [rbind]. destruct (negb _); [done|].
    eexists. split; [done|]. by apply finish_padded_bounded.
  - eexists. split; [done|]. by apply finish_padded_bounded.
Qed.
End Bounds.

Lemma loop_bounded units url lch max_bytes fuel bytes read chunk clen i :
  Forall is_byte bytes -> Z.of_nat (length bytes) <= max_bytes -> (read <= length units)%nat ->
  chunk_ok chunk clen -> (clen < 4)%nat -> (i <= length units)%nat -> (length units - i < fuel)%nat ->
  exists d, decode_base64_loop fuel units url lch max_bytes bytes read chunk clen i = Ok d
            /\ bounded units max_bytes d.
Proof.
  revert bytes read chunk clen i. induction fuel as [|fuel IH];
    intros bytes read chunk clen i Hb Hmax Hread Hchunk Hclen Hi Hfuel; [lia|].
  cbn [decode_base64_loop]. pose proof (skip_ws_le units i Hi) as Hskip.
  destruct (Nat.eqb_spec (skip_ws units i) (length units)) as [|Hne].
  { eexists. split; [done|]. by apply finish_bounded. }
  destruct (lookup_lt_is_Some_2 units (skip_ws units i)) as [u Hu]; [lia|].
  rewrite (proj2 (index_Ok _ _ _) Hu). cbn [rbind]. destruct (u =? b8 "=").
  { apply padding_bounded; done || lia. }
  destruct (b64_value u url) as [v|] eqn:Hv; [|eexists; split; done].
  destruct (chunk_set_ok chunk clen v Hchunk Hclen (b64_value_range _ _ _ Hv)) as (chunk' & -> & Hchunk').
  cbn [rbind]. destruct (Nat.eqb_spec (S clen) 4) as [H4|H4]; [|apply IH; done || lia].
  destruct (Z.ltb_spec max_bytes (Z.of_nat (length bytes + 3))); [eexists; split; done|].
  rewrite H4 in Hchunk'. destruct Hchunk' as (H0 & H1 & H2 & H3).
  specialize (H0 ltac:(lia)). specialize (H1 ltac:(lia)). specialize (H2 ltac:(lia)). specialize (H3 ltac:(lia)).
  rewrite byte_0, byte_1, byte_2 by done.
  match goal with |- context [bytes ++ ?t] => assert (Hb' : Forall is_byte (bytes ++ t)) end.
  { rewrite Forall_app, !Forall_cons, Forall_nil. unfold is_byte. split_and!; try done; divmod. }
  assert (Hlen : forall x y z : Z, length (bytes ++ [x; y; z]) = (length bytes + 3)%nat)
    by (intros; by rewrite length_app).
  case_match; [eexists; split; [done|split_and!; [done|rewrite Hlen; lia|lia]]|].
  apply IH; [done|rewrite Hlen; lia|lia| |lia|lia|lia]. unfold chunk_ok. split_and!; lia.
Qed.

Lemma hex_value_range c v : hex_value c = Some v -> 0 <= v < 16.
Proof.
  unfold hex_value, as_u8. intros H. repeat case_match; simplify_eq; boolprop;
    eval_b8; lia.
Qed.

Lemma pairs_ind (P : list Z -> Prop) :
  P [] -> (forall x, P [x]) -> (forall x y rest, P rest -> P (x :: y :: rest)) -> forall l, P l.
Proof. intros H0 H1 H2. fix IH 1. intros [|x [|y rest]]; [done|apply H1|apply H2, IH]. Qed.

Lemma hex_loop_bounded max_bytes rest : forall bytes i,
  Forall is_byte bytes -> Z.of_nat (length bytes) <= max_bytes ->
  let '(out, read, _) := decode_hex_loop rest max_bytes bytes i in
  Forall is_byte out /\ Z.of_nat (length out) <= max_bytes /\ (read <= i + length rest)%nat.
Proof.
  induction rest as [|x|h l rest IH] using pairs_ind; intros bytes i Hb Hmax; cbn [decode_hex_loop].
  1,2: split_and!; [done|done|simpl; lia].
  destruct (Z.leb_spec max_bytes (Z.of_nat (length bytes))); [split_and!; [done|done|simpl; lia]|].
  destruct (hex_value h) as [vh|] eqn:Eh; [|split_and!; [done|done|simpl; lia]].
  destruct (hex_value l) as [vl|] eqn:El; [|split_and!; [done|done|simpl; lia]].
  apply hex_value_range in Eh, El.
  specialize (IH (bytes ++ [Z.lor (u8_shl vh 4) vl]) (i + 2)%nat).
  destruct (decode_hex_loop rest max_bytes _ _) as [[out read] err].
  destruct IH as (Ho & Hl & Hr); [| |split_and!; [done|done|simpl; lia]].
  - rewrite Forall_app, Forall_singleton. split; [done|]. unfold u8_shl. change 255 with (Z.ones 8).
    rewrite Z.land_ones, shiftl_mul, Z.mod_small by divmod. rewrite lor_add by divmod. unfold is_byte. divmod.
  - rewrite length_app. simpl. lia.
Qed.

Lemma write_into_spec bytes : forall target k, (k + length bytes <= length target)%nat ->
  write_into target bytes k = take k target ++ bytes ++ drop (k + length bytes) target.
Proof.
  induction bytes as [|b bytes IH]; intros target k Hk; simpl in *.
  - by rewrite Nat.add_0_r, take_drop.
  - rewrite IH by (rewrite length_insert; lia). rewrite (take_S_r _ _ b), <- app_assoc by (apply list_lookup_insert_eq; lia).
    rewrite take_insert_ge, drop_insert_lt by lia. simpl. by rewrite Nat.add_succ_r.
Qed.

(** C37 (roundtrip) Encoding bytes to base64, in either alphabet, with or without padding,
    and decoding the text gives the bytes back, reads all of it and reports no error,
    under every output budget that admits them and every last-chunk mode (a text
    whose padding was omitted needs the loose mode unless the length is a multiple
    of three); likewise for hex.  The text has the expected length. *)
Theorem codec_roundtrip (bytes : list Z) (url omit : bool) (lch : LastChunk) (max_bytes : Z)
    (Hbytes : Forall is_byte bytes) (Hmax : Z.of_nat (length bytes) <= max_bytes)
    (Hmode : accepts omit lch (length bytes)) :
  (exists text, encode_base64 bytes url omit = Ok text
     /\ decode_base64 text url lch max_bytes = Ok (bytes, length text, None))
  /\ exists text, encode_hex bytes = Ok text /\ length text = (2 * length bytes)%nat
     /\ decode_hex text max_bytes = (bytes, length text, None).
Proof.
  split.
  - exists (text_of url omit bytes). split; [by apply encode_text|]. unfold decode_base64.
    destruct (Z.eqb_spec max_bytes 0) as [->|Hne].
    + destruct bytes; [done|simpl in Hmax; lia].
    + apply (decode_text _ _ _ _ omit bytes); by try lia.
  - destruct (hex_roundtrip bytes Hbytes) as (text & Henc & Hlen & Hdec). exists text. split_and!; [done|done|].
    unfold decode_hex. rewrite Hlen, Nat.even_even. simpl negb. cbv iota. rewrite (Hdec [] 0%nat) by done.
    by rewrite Hlen.
Qed.

Lemma codec_roundtrip_witness :
  (exists text, encode_base64 [72; 105; 33; 255] true false = Ok text
     /\ decode_base64 text true Strict 4 = Ok ([72; 105; 33; 255], length text, None))
  /\ exists text, encode_hex [72; 105; 33; 255] = Ok text /\ length text = 8%nat
     /\ decode_hex text 4 = ([72; 105; 33; 255], length text, None).
Proof.
  apply (codec_roundtrip [72; 105; 33; 255] true false Strict 4).
  - repeat constructor; unfold is_byte; lia.
  - simpl. lia.
  - left. reflexivity.
Defined.

(** C38 (bounds) On every string the decoders end without a panic and stay within the
    target: the bytes are bytes, at most as many as the target holds, the count of
    units read is within the string, and [setFromBase64] and [setFromHex] overwrite
    exactly the front of the target with the decoded bytes, also before they report
    a syntax error. *)
Theorem decode_into_bounded (units target : list Z) (url : bool) (lch : LastChunk) :
  (exists bytes read err,
     decode_base64 units url lch (Z.of_nat (length target)) = Ok (bytes, read, err)
     /\ bounded units (Z.of_nat (length target)) (bytes, read, err)
     /\ set_from target (bytes, read, err)
        = (bytes ++ drop (length bytes) target,
           match err with Some e => Err e | None => Ok (read, length bytes) end))
  /\ exists bytes read err,
     decode_hex units (Z.of_nat (length target)) = (bytes, read, err)
     /\ bounded units (Z.of_nat (length target)) (bytes, read, err)
     /\ set_from target (bytes, read, err)
        = (bytes ++ drop (length bytes) target,
           match err with Some e => Err e | None => Ok (read, length bytes) end).
Proof.
  assert (Hset : forall bytes read err, bounded units (Z.of_nat (length target)) (bytes, read, err) ->
    set_from target (bytes, read, err)
    = (bytes ++ drop (length bytes) target,
       match err with Some e => Err e | None => Ok (read, length bytes) end)).
  { intros bytes read err (_ & Hl & _). unfold set_from. rewrite write_into_spec by lia. by destruct err. }
  split.
  - assert (exists d, decode_base64 units url lch (Z.of_nat (length target)) = Ok d
                      /\ bounded units (Z.of_nat (length target)) d) as ([[bytes read] err] & Hd & Hb).
    { unfold decode_base64. destruct (_ =? 0); [eexists; split; [done|]; split_and!; [done|simpl; lia|lia]|].
      apply loop_bounded; simpl; try done; lia. }
    exists bytes, read, err. auto.
  - assert (bounded units (Z.of_nat (length target)) (decode_hex units (Z.of_nat (length target)))) as Hb.
    { unfold decode_hex. destruct (negb _); [split_and!; [done|simpl; lia|lia]|].
      pose proof (hex_loop_bounded (Z.of_nat (length target)) units [] 0) as H.
      destruct (decode_hex_loop units _ [] 0) as [[out read] err]. apply H; [done|simpl; lia]. }
    destruct (decode_hex units (Z.of_nat (length target))) as [[bytes read] err]. exists bytes, read, err. auto.
Qed.

(** With one byte of room, the proposal's algorithm stops at the third character
    of a chunk without looking further; the decoder reads on and reports the fourth. *)
Example full_target_still_validates :
  decode_base64 (chars "ZXh!") false Loose 1 = Ok ([], 0%nat, Some "invalid base64 character"%string).
Proof. vm_compute. reflexivity. Qed.
