(* ===== verification/Cfg.v ===== *)
(** The control-flow graph of a compiled unit (otter-jit/src/ir/cfg.rs): its
    blocks, edges and typed terminators, and [ControlFlowGraph::verify], the
    check every constructed graph passes before an analysis sees it.  Block ids
    are [nat]: a unit has fewer than [2^32] blocks, so [index as u32] loses
    nothing.  The construction from a compile snapshot is not modelled. *)

From S2P Require Import Prelude Slices.

Abbreviation BlockId := nat (only parsing).
Abbreviation InlineId := nat (only parsing).
Definition INLINE_ROOT : InlineId := 0.

Module Terminator.
Inductive Terminator : Type :=
| FallThrough
| Jump
| Branch (taken fallthrough : BlockId)
| Return
| TailCall
| Throw
| Suspend
| InlineCall (callee_entry continuation : BlockId)
| InlineReturn (continuation : BlockId).
End Terminator.
Export Terminator (Terminator).

Record Block : Type := mkBlock {
  block_id : BlockId;
  block_inline : InlineId;
  start_pc : Z;
  instr_pcs : list Z;
  terminator : Terminator;
  normal_succs : list BlockId;
  exception_succs : list BlockId;
  preds : list BlockId;
  is_loop_header : bool
}.

Record ControlFlowGraph : Type := mkCfg {
  blocks : list Block;
  entry : BlockId;
  frame_entries : list BlockId
}.

(** The errors [verify] reports (construction has more). *)
Module CfgError.
Inductive CfgError : Type :=
| EmptyFunction
| EntryNotZero (entry : BlockId)
| EntryStartMismatch (expected actual : Z)
| BlockIdMismatch (expected actual : BlockId)
| BlockOrder (previous current : BlockId)
| LeaderSetMismatch
| EmptyBlock (block : BlockId)
| InstructionOverlap (pc : Z)
| EdgeOutOfRange (block edge : BlockId)
| EdgeListNotCanonical (block : BlockId)
| PredecessorMismatch (block : BlockId)
| TerminatorMismatch (block : BlockId)
| BranchSuccessorMismatch (block : BlockId)
| UnreachableBlock (block : BlockId)
| LoopHeaderFlagMismatch (block : BlockId)
| LoopHeaderWithoutBackEdge (block : BlockId).
End CfgError.
Export CfgError (CfgError).

(** [sort_unstable] (all elements with equal keys are equal) and [dedup]. *)
Fixpoint insert_sorted (x : BlockId) (l : list BlockId) : list BlockId :=
  match l with
  | [] => [x]
  | y :: l => if x <=? y then x :: y :: l else y :: insert_sorted x l
  end.
Definition sort_unstable (l : list BlockId) : list BlockId := foldr insert_sorted [] l.

Fixpoint dedup (l : list BlockId) : list BlockId :=
  match l with
  | x :: (y :: _) as rest => if x =? y then dedup rest else x :: dedup rest
  | _ => l
  end.

Definition canonicalize (edges : list BlockId) : list BlockId := dedup (sort_unstable edges).

(** [edges.windows(2).all(|pair| pair[0] < pair[1])]. *)
Fixpoint is_canonical (edges : list BlockId) : bool :=
  match edges with
  | x :: (y :: _) as rest => (x <? y) && is_canonical rest
  | _ => true
  end.

Definition contains (l : list BlockId) (b : BlockId) : bool := bool_decide (b ∈ l).

Definition all_succs (b : Block) : list BlockId := normal_succs b ++ exception_succs b.

(** [u32::checked_add(1)], with the error of its site. *)
Definition next_or_overlap (pc x : Z) : res CfgError Z :=
  match u32_checked (x + 1) with
  | Some y => Ok y
  | None => Err (CfgError.InstructionOverlap pc)
  end.

(** The loop over the instruction PCs of one block: the expected next PC of the
    frame and of the block. *)
Fixpoint verify_pcs (expected_pc block_expected : Z) (pcs : list Z) : res CfgError Z :=
  match pcs with
  | [] => Ok expected_pc
  | pc :: pcs =>
      if ((pc <? expected_pc) || negb (pc =? block_expected))%Z
      then Err (CfgError.InstructionOverlap pc)
      else
        let* block_expected := next_or_overlap pc block_expected in
        let* expected_pc := next_or_overlap pc pc in
        verify_pcs expected_pc block_expected pcs
  end.

Definition verify_edge_range (block_count : nat) (b : Block) : res CfgError unit :=
  for_each (fun edge => if block_count <=? edge then Err (CfgError.EdgeOutOfRange (block_id b) edge)
                        else Ok tt)
           (normal_succs b ++ exception_succs b ++ preds b).

(** The order of a block after its predecessor in the table, and the PC its frame
    continues at. *)
Definition verify_order (previous : option Block) (b : Block) (expected_pc : Z) : res CfgError Z :=
  match previous with
  | None => Ok expected_pc
  | Some p =>
      if block_inline b <? block_inline p then Err (CfgError.BlockOrder (block_id p) (block_id b))
      else if (block_inline p =? block_inline b) && (start_pc b <=? start_pc p)%Z
      then Err (CfgError.BlockOrder (block_id p) (block_id b))
      else if negb (block_inline p =? block_inline b) then Ok 0%Z
      else Ok expected_pc
  end.

Fixpoint verify_blocks (block_count index : nat) (previous : option Block) (expected_pc : Z)
    (l : list Block) : res CfgError unit :=
  match l with
  | [] => Ok tt
  | b :: l =>
      if negb (block_id b =? index) then Err (CfgError.BlockIdMismatch index (block_id b))
      else
        let* expected_pc := verify_order previous b expected_pc in
        match instr_pcs b with
        | [] => Err (CfgError.EmptyBlock (block_id b))
        | first_pc :: _ =>
            if negb (first_pc =? start_pc b)%Z then Err CfgError.LeaderSetMismatch
            else
              let* expected_pc := verify_pcs expected_pc (start_pc b) (instr_pcs b) in
              let* _ := verify_edge_range block_count b in
              if negb (is_canonical (normal_succs b)) || negb (is_canonical (exception_succs b))
                 || negb (is_canonical (preds b))
              then Err (CfgError.EdgeListNotCanonical (block_id b))
              else verify_blocks block_count (S index) (Some b) expected_pc l
        end
  end.

(** [expected_preds[index]]: the blocks that name [index] as a successor. *)
Definition expected_preds (g : ControlFlowGraph) (index : BlockId) : list BlockId :=
  map block_id (filter (fun b => index ∈ all_succs b) (blocks g)).

(** Equality of the two [BTreeSet]s. *)
Definition same_set (l l' : list BlockId) : bool :=
  forallb (contains l') l && forallb (contains l) l'.

Definition verify_terminator_shape (g : ControlFlowGraph) (b : Block) : res CfgError unit :=
  let n := length (blocks g) in
  let mismatch := Err (CfgError.TerminatorMismatch (block_id b)) in
  match terminator b with
  | Terminator.FallThrough | Terminator.TailCall | Terminator.Suspend =>
      match blocks g !! (block_id b + 1) with
      | None => mismatch
      | Some next => if bool_decide (normal_succs b = [block_id next]) then Ok tt else mismatch
      end
  | Terminator.Jump => if negb (length (normal_succs b) =? 1) then mismatch else Ok tt
  | Terminator.Branch taken fallthrough =>
      if (n <=? taken) || (n <=? fallthrough)
      then Err (CfgError.EdgeOutOfRange (block_id b) (if n <=? taken then taken else fallthrough))
      else if bool_decide (normal_succs b = canonicalize [taken; fallthrough]) then Ok tt
      else Err (CfgError.BranchSuccessorMismatch (block_id b))
  | Terminator.Return | Terminator.Throw =>
      match normal_succs b with [] => Ok tt | _ => mismatch end
  | Terminator.InlineCall callee_entry continuation =>
      if (n <=? callee_entry) || (n <=? continuation)
      then Err (CfgError.EdgeOutOfRange (block_id b) callee_entry)
      else if negb (bool_decide (normal_succs b = [callee_entry])) then mismatch
      else
        let* callee := index (blocks g) callee_entry in
        if (block_inline callee =? block_inline b) || negb (start_pc callee =? 0)%Z then mismatch
        else
          let* target := index (blocks g) continuation in
          if negb (block_inline target =? block_inline b) then mismatch else Ok tt
  | Terminator.InlineReturn continuation =>
      if n <=? continuation then Err (CfgError.EdgeOutOfRange (block_id b) continuation)
      else if negb (bool_decide (normal_succs b = [continuation])) then mismatch
      else
        let* target := index (blocks g) continuation in
        if block_inline target =? block_inline b then mismatch else Ok tt
  end.

(** The reachability search: [pending] is the stack, its top first; a block's
    successors are pushed in reverse, so that the first comes off first. *)
Fixpoint reachable_loop (fuel : nat) (g : ControlFlowGraph) (reachable pending : list BlockId)
    : res CfgError (list BlockId) :=
  match fuel with
  | O => OutOfFuel
  | S fuel =>
      match pending with
      | [] => Ok reachable
      | b :: pending =>
          if contains reachable b then reachable_loop fuel g reachable pending
          else
            let* block := index (blocks g) b in
            reachable_loop fuel g (b :: reachable) (all_succs block ++ pending)
      end
  end.

(** Every block is expanded once. *)
Definition reachable_fuel (g : ControlFlowGraph) : nat :=
  3 + sum_list (map (fun b => length (all_succs b)) (blocks g)).

Definition has_back_edge (g : ControlFlowGraph) (b : Block) : bool :=
  existsb (fun pred => (block_inline pred =? block_inline b) && (start_pc b <=? start_pc pred)%Z
                       && contains (normal_succs pred) (block_id b)) (blocks g).

Definition verify_loop_header (g : ControlFlowGraph) (b : Block) : res CfgError unit :=
  if has_back_edge g b && negb (is_loop_header b) then Err (CfgError.LoopHeaderFlagMismatch (block_id b))
  else if is_loop_header b && negb (has_back_edge g b)
  then Err (CfgError.LoopHeaderWithoutBackEdge (block_id b))
  else Ok tt.

Definition verify_frame_entry (g : ControlFlowGraph) (i : nat) (e : BlockId) : res CfgError unit :=
  match blocks g !! e with
  | None => Err (CfgError.EdgeOutOfRange e e)
  | Some b =>
      if negb (block_inline b =? i) || negb (start_pc b =? 0)%Z
      then Err (CfgError.EntryStartMismatch 0 (start_pc b)) else Ok tt
  end.

Definition verify (g : ControlFlowGraph) : res CfgError unit :=
  match blocks g with
  | [] => Err CfgError.EmptyFunction
  | first :: _ =>
      if negb (entry g =? 0) then Err (CfgError.EntryNotZero (entry g))
      else if negb (start_pc first =? 0)%Z || negb (block_inline first =? INLINE_ROOT)
      then Err (CfgError.EntryStartMismatch 0 (start_pc first))
      else if negb (bool_decide (head (frame_entries g) = Some (entry g)))
      then Err (CfgError.EntryNotZero (entry g))
      else
        let* _ := for_each_i (verify_frame_entry g) 0 (frame_entries g) in
        let* _ := verify_blocks (length (blocks g)) 0 None 0 (blocks g) in
        let* _ := for_each_i (fun i b =>
                    if negb (same_set (preds b) (expected_preds g i))
                    then Err (CfgError.PredecessorMismatch (block_id b))
                    else verify_terminator_shape g b) 0 (blocks g) in
        let* reachable := reachable_loop (reachable_fuel g) g [] [entry g] in
        match List.find (fun b => negb (contains reachable b)) (seq 0 (length (blocks g))) with
        | Some b => Err (CfgError.UnreachableBlock b)
        | None => for_each (verify_loop_header g) (blocks g)
        end
  end.
