(* ===== verification/CfgProps.v ===== *)
(** What [ControlFlowGraph::verify] guarantees to the analyses: dense ids, edges
    in range, predecessor lists that are exactly the reverse of the successor
    lists, and every block reachable from the entry; and that the verifier always
    ends with a verdict. *)

From stdpp Require Import relations sorting.
From S2P Require Import Prelude Slices Cfg.

(** ** Sorting and deduplication *)

Lemma elem_of_insert_sorted x y l : y ∈ insert_sorted x l <-> y = x \/ y ∈ l.
Proof.
  induction l as [|z l IH]; simpl; [by rewrite list_elem_of_singleton, elem_of_nil; tauto|].
  case_match; rewrite !elem_of_cons; [tauto|]. rewrite IH. tauto.
Qed.

Lemma elem_of_sort x l : x ∈ sort_unstable l <-> x ∈ l.
Proof.
  induction l as [|y l IH]; simpl; [done|]. by rewrite elem_of_insert_sorted, IH, elem_of_cons.
Qed.

Lemma elem_of_dedup x l : x ∈ dedup l <-> x ∈ l.
Proof.
  induction l as [|y [|z l] IH]; simpl; [done|done|]. simpl in IH. destruct (Nat.eqb_spec y z) as [-> |Hne].
  - rewrite IH, !elem_of_cons. tauto.
  - by rewrite elem_of_cons, IH, (elem_of_cons (z :: l)).
Qed.

Lemma elem_of_canonicalize x l : x ∈ canonicalize l <-> x ∈ l.
Proof. unfold canonicalize. by rewrite elem_of_dedup, elem_of_sort. Qed.

(** Lists [is_canonical] accepts are strictly increasing. *)
Fixpoint increasing_from (lo : nat) (l : list nat) : Prop :=
  match l with [] => True | x :: l => lo <= x /\ increasing_from (S x) l end.

Lemma canonical_increasing l : is_canonical l = true <-> increasing_from 0 l.
Proof.
  assert (H : forall x l, is_canonical (x :: l) = true <-> increasing_from (S x) l).
  { intros x l'. revert x. induction l' as [|y l' IH]; intros x; [done|].
    change (is_canonical (x :: y :: l')) with ((x <? y) && is_canonical (y :: l')).
    rewrite andb_true_iff, IH. simpl. rewrite Nat.ltb_lt. done. }
  destruct l as [|x l]; [done|]. rewrite H. simpl. split; [split; [lia|done]|tauto].
Qed.

Lemma increasing_lb lo l x : increasing_from lo l -> x ∈ l -> lo <= x.
Proof.
  revert lo. induction l as [|y l IH]; intros lo Hl Hx; [by apply elem_of_nil in Hx|]. destruct Hl as [Hy Hl].
  apply elem_of_cons in Hx as [-> |Hx]; [done|]. specialize (IH _ Hl Hx). lia.
Qed.

Lemma increasing_weaken lo lo' l : lo <= lo' -> increasing_from lo' l -> increasing_from lo l.
Proof. destruct l; simpl; [done|]. intros ? [? ?]. split; [lia|done]. Qed.

Lemma increasing_NoDup lo l : increasing_from lo l -> NoDup l.
Proof.
  revert lo. induction l as [|x l IH]; intros lo; [constructor|]. intros [_ Hl]. constructor; [|by eapply IH].
  intros Hx. pose proof (increasing_lb _ _ _ Hl Hx). lia.
Qed.

(** Strictly increasing lists with the same elements are equal. *)
Lemma increasing_ext lo l l' : increasing_from lo l -> increasing_from lo l' ->
  (forall x, x ∈ l <-> x ∈ l') -> l = l'.
Proof.
  revert lo l'. induction l as [|x l IH]; intros lo [|y l'] Hl Hl' Heq; [done|..].
  - exfalso. by apply (elem_of_nil y), Heq; left.
  - exfalso. by apply (elem_of_nil x), Heq; left.
  - destruct Hl as [Hx Hl], Hl' as [Hy Hl'].
    assert (x = y) as <-.
    { assert (x ∈ y :: l') as [-> |Hx']%elem_of_cons by (apply Heq; by left); [done|].
      assert (y ∈ x :: l) as [-> |Hy']%elem_of_cons by (apply Heq; by left); [done|].
      pose proof (increasing_lb _ _ _ Hl' Hx'). pose proof (increasing_lb _ _ _ Hl Hy'). lia. }
    f_equal. apply (IH (S x)); [done|done|]. intros z. split; intros Hz.
    + assert (z ∈ x :: l') as [-> |]%elem_of_cons by (apply Heq; by right); [|done].
      pose proof (increasing_lb _ _ _ Hl Hz). lia.
    + assert (z ∈ x :: l) as [-> |]%elem_of_cons by (apply Heq; by right); [|done].
      pose proof (increasing_lb _ _ _ Hl' Hz). lia.
Qed.

(** Sorting and deduplicating any list gives a strictly increasing one. *)
Fixpoint nondecreasing_from (lo : nat) (l : list nat) : Prop :=
  match l with [] => True | x :: l => lo <= x /\ nondecreasing_from x l end.

Lemma nondecreasing_weaken lo lo' l : lo' <= lo -> nondecreasing_from lo l -> nondecreasing_from lo' l.
Proof. destruct l; simpl; [done|]. intros ? [? ?]. split; [lia|done]. Qed.

Lemma insert_sorted_ok x l lo : lo <= x -> nondecreasing_from lo l -> nondecreasing_from lo (insert_sorted x l).
Proof.
  revert lo. induction l as [|y l IH]; intros lo Hx Hl; simpl; [done|]. destruct Hl as [Hy Hl].
  destruct (Nat.leb_spec x y); simpl; [done|]. split; [done|]. apply IH; [lia|done].
Qed.

Lemma sort_nondecreasing l : nondecreasing_from 0 (sort_unstable l).
Proof. induction l as [|x l IH]; simpl; [done|]. apply insert_sorted_ok; [lia|done]. Qed.

Lemma dedup_increasing l lo : nondecreasing_from lo l -> increasing_from lo (dedup l).
Proof.
  revert lo. induction l as [|x l IH]; intros lo; [done|]. intros [Hx Hl].
  destruct l as [|y l]; [done|]. change (dedup (x :: y :: l)) with (if x =? y then dedup (y :: l) else x :: dedup (y :: l)).
  destruct (Nat.eqb_spec x y) as [-> |Hne].
  - apply IH. by eapply nondecreasing_weaken.
  - split; [done|]. apply IH. destruct Hl as [Hy Hl]. split; [lia|done].
Qed.

Lemma canonicalize_increasing l : increasing_from 0 (canonicalize l).
Proof. apply dedup_increasing, sort_nondecreasing. Qed.

(** ** Well-formed graphs *)

Definition edge (g : ControlFlowGraph) (u x : BlockId) : Prop :=
  exists b, blocks g !! u = Some b /\ x ∈ all_succs b.

Record cfg_wf (g : ControlFlowGraph) : Prop := {
  wf_ids : forall i b, blocks g !! i = Some b -> block_id b = i;
  wf_entry : entry g < length (blocks g);
  wf_range : forall i b x, blocks g !! i = Some b -> x ∈ all_succs b -> x < length (blocks g);
  wf_canonical : forall i b, blocks g !! i = Some b ->
    increasing_from 0 (normal_succs b) /\ increasing_from 0 (exception_succs b) /\ increasing_from 0 (preds b);
  wf_preds : forall i b u, blocks g !! i = Some b -> u ∈ preds b <-> edge g u i;
  wf_nonempty : forall i b, blocks g !! i = Some b -> instr_pcs b <> [];
  wf_reachable : forall i, i < length (blocks g) -> rtc (edge g) (entry g) i
}.

Lemma verify_blocks_Ok n index previous expected l :
  verify_blocks n index previous expected l = Ok tt ->
  forall i b, l !! i = Some b ->
    block_id b = index + i /\ (forall x, x ∈ all_succs b ++ preds b -> x < n)
    /\ is_canonical (normal_succs b) = true /\ is_canonical (exception_succs b) = true
    /\ is_canonical (preds b) = true /\ instr_pcs b <> [].
Proof.
  revert index previous expected. induction l as [|b0 l IH]; intros index previous expected H; [done|].
  cbn [verify_blocks] in H. destruct (block_id b0 =? index) eqn:Hid; [|done]. cbn [negb] in H.
  inv_bind H. destruct (instr_pcs b0) as [|pc0 pcs] eqn:Hpcs; [done|]. case_match; [done|]. inv_bind H. inv_bind H.
  destruct (is_canonical (normal_succs b0)) eqn:H1, (is_canonical (exception_succs b0)) eqn:H2,
    (is_canonical (preds b0)) eqn:H3; try done. cbn [negb orb] in H.
  intros [|i] b Hb; simpl in Hb.
  - simplify_eq. boolprop. split_and!; [lia| |done|done|done|by rewrite Hpcs].
    match goal with Hr : verify_edge_range n b = Ok _ |- _ => destruct a1; unfold verify_edge_range in Hr;
      apply for_each_Ok in Hr; rewrite Forall_forall in Hr end.
    intros x Hx. unfold all_succs in Hx. rewrite <- app_assoc in Hx.
    match goal with Hr : forall x, _ -> _ = Ok tt |- _ => specialize (Hr x Hx) end.
    destruct (Nat.leb_spec n x); [done|lia].
  - destruct (IH _ _ _ H i b Hb) as (? & ?). split; [lia|done].
Qed.

Lemma same_set_spec l l' : same_set l l' = true <-> forall x, x ∈ l <-> x ∈ l'.
Proof.
  unfold same_set, contains. rewrite andb_true_iff, !forallb_forall. split.
  - intros [H1 H2] x. split; intros Hx.
    + apply list_elem_of_In in Hx. by apply H1, bool_decide_eq_true_1 in Hx.
    + apply list_elem_of_In in Hx. by apply H2, bool_decide_eq_true_1 in Hx.
  - intros H. split; intros x Hx%list_elem_of_In; apply bool_decide_eq_true_2, H, Hx.
Qed.

Lemma elem_of_expected_preds g i u :
  u ∈ expected_preds g i <-> exists b, b ∈ blocks g /\ block_id b = u /\ i ∈ all_succs b.
Proof.
  unfold expected_preds. rewrite list_elem_of_fmap. split.
  - intros (b & -> & Hb). apply list_elem_of_filter in Hb as [Hi Hb]. eauto.
  - intros (b & Hb & <- & Hi). exists b. split; [done|]. by apply list_elem_of_filter.
Qed.

(** The successors of a block, none outside the graph. *)
Definition succs_of (g : ControlFlowGraph) (u : BlockId) : list BlockId :=
  match blocks g !! u with Some b => all_succs b | None => [] end.

Lemma succs_of_lookup g u b : blocks g !! u = Some b -> succs_of g u = all_succs b.
Proof. intros H. unfold succs_of. by rewrite H. Qed.

Lemma edge_succs g u x : edge g u x <-> child (succs_of g) u x.
Proof.
  unfold edge, child, succs_of. split.
  - by intros (b & -> & Hx).
  - destruct (blocks g !! u) as [b|]; [eauto|by intros ?%elem_of_nil].
Qed.

Lemma reachable_loop_worklist g fuel : (forall i b x, blocks g !! i = Some b -> x ∈ all_succs b -> x < length (blocks g)) ->
  forall seen work, (forall x, x ∈ work -> x < length (blocks g)) ->
  reachable_loop fuel g seen work = worklist (succs_of g) fuel seen work.
Proof.
  intros Hrange. induction fuel as [|fuel IH]; intros seen work Hw; [done|]. cbn [reachable_loop worklist].
  destruct work as [|u work]; [done|]. unfold contains. case_bool_decide as Hu; [apply IH; set_solver|].
  destruct (lookup_lt_is_Some_2 (blocks g) u) as [b Hb]; [apply Hw; by left|].
  rewrite (proj2 (index_Ok _ _ _) Hb). cbn [rbind].
  rewrite (succs_of_lookup g u b Hb). apply IH.
  intros x [Hx|Hx]%elem_of_app; [by eapply Hrange|apply Hw; by right].
Qed.

Lemma succs_total g :
  sum_list (map (fun u => length (succs_of g u)) (seq 0 (length (blocks g))))
  = sum_list (map (fun b => length (all_succs b)) (blocks g)).
Proof.
  f_equal. apply list_eq. intros i. rewrite !map_lookup.
  destruct (decide (i < length (blocks g))) as [Hi|Hi].
  - rewrite lookup_seq_lt by done. simpl. unfold succs_of.
    destruct (lookup_lt_is_Some_2 (blocks g) i Hi) as [b Hb]. by rewrite Hb.
  - rewrite lookup_seq_ge, (lookup_ge_None_2 (blocks g)) by lia. done.
Qed.

(** The search finds the blocks reachable from the entry. *)
Lemma reachable_exact g :
  (forall i b x, blocks g !! i = Some b -> x ∈ all_succs b -> x < length (blocks g)) ->
  entry g < length (blocks g) ->
  exists seen, reachable_loop (reachable_fuel g) g [] [entry g] = Ok seen
               /\ forall x, x ∈ seen <-> rtc (edge g) (entry g) x.
Proof.
  intros Hrange Hentry. rewrite reachable_loop_worklist; [|done|by intros x ->%list_elem_of_singleton].
  destruct (worklist_exact (E := CfgError) (succs_of g) (seq 0 (length (blocks g))) (reachable_fuel g) (entry g))
    as (seen & -> & Hs).
  - intros u Hu. unfold succs_of. rewrite lookup_ge_None_2; [done|]. rewrite elem_of_seq in Hu. lia.
  - rewrite succs_total. unfold reachable_fuel. lia.
  - exists seen. split; [done|]. intros x. rewrite Hs. split; apply rtc_subrel; intros a b; apply edge_succs.
Qed.

Lemma find_None {A} (f : A -> bool) l x : List.find f l = None -> x ∈ l -> f x = false.
Proof. intros H Hx. apply (List.find_none f l H x). by apply list_elem_of_In. Qed.

(** The contract of the verifier. *)
Lemma verify_wf g : verify g = Ok tt -> cfg_wf g.
Proof.
  unfold verify. destruct (blocks g) as [|b0 bs] eqn:Hbs; [done|]. rewrite <- Hbs.
  destruct (entry g =? 0) eqn:He; [|done]. cbn [negb]. do 2 (case_match; [done|]). intros Hver.
  inv_bind Hver. inv_bind Hver. inv_bind Hver. inv_bind Hver.
  match goal with Hv : verify_blocks _ _ _ _ _ = Ok ?x |- _ => destruct x; pose proof (verify_blocks_Ok _ _ _ _ _ Hv) as Hblk end.
  match goal with Hp : for_each_i _ 0 (blocks g) = Ok ?x |- _ => destruct x; pose proof (proj1 (for_each_i_Ok _ _ _) Hp) as Hpred end.
  apply Nat.eqb_eq in He.
  assert (Hentry : entry g < length (blocks g)) by (rewrite He, Hbs; simpl; lia).
  assert (Hrange : forall i b x, blocks g !! i = Some b -> x ∈ all_succs b -> x < length (blocks g)).
  { intros i b x Hb Hx. destruct (Hblk i b Hb) as (_ & Hr & _). apply Hr, elem_of_app. by left. }
  assert (Hids : forall i b, blocks g !! i = Some b -> block_id b = i) by (intros i b Hb; by apply Hblk).
  destruct (reachable_exact g Hrange Hentry) as (seen & Hseen & Hreach).
  match goal with Hr : reachable_loop _ _ _ _ = Ok ?x |- _ => rewrite Hseen in Hr; injection Hr as <- end.
  destruct (List.find _ _) eqn:Hfind in Hver; [done|]. split.
  - done.
  - done.
  - done.
  - intros i b Hb. destruct (Hblk i b Hb) as (_ & _ & H1 & H2 & H3 & _). by rewrite <- !canonical_increasing.
  - intros i b u Hb. specialize (Hpred i b Hb). simpl in Hpred. destruct (same_set _ _) eqn:Hs in Hpred; [|done].
    rewrite (proj1 (same_set_spec _ _) Hs u), elem_of_expected_preds. unfold edge. split.
    + intros (pb & Hpb & <- & Hi). apply list_elem_of_lookup in Hpb as [j Hj]. rewrite (Hids j pb Hj). eauto.
    + intros (pb & Hpb & Hi). exists pb. split_and!; [by eapply list_elem_of_lookup_2|by apply Hids|done].
  - intros i b Hb. by destruct (Hblk i b Hb) as (_ & _ & _ & _ & _ & ?).
  - intros i Hi. apply Hreach. apply find_None with (x := i) in Hfind; [|apply elem_of_seq; lia].
    unfold contains in Hfind. apply negb_false_iff in Hfind. by apply bool_decide_eq_true_1 in Hfind.
Qed.

(** ** The order of instructions

    An accepted graph lists its blocks by frame and PC: the sites of its
    instructions are strictly increasing. *)

Definition site_lt (a b : InlineId * Z) : Prop := a.1 < b.1 \/ (a.1 = b.1 /\ (a.2 < b.2)%Z).

Definition block_sites (b : Block) : list (InlineId * Z) := map (pair (block_inline b)) (instr_pcs b).

(** A site comes after the blocks so far. *)
Definition site_after (previous : option Block) (expected : Z) (a : InlineId * Z) : Prop :=
  match previous with
  | None => True
  | Some p => block_inline p < a.1 \/ (block_inline p = a.1 /\ (expected <= a.2)%Z)
  end.

Lemma verify_pcs_Ok l : forall expected start e', verify_pcs expected start l = Ok e' ->
  StronglySorted Z.lt l /\ Forall (fun pc => expected <= pc < e')%Z l /\ (expected <= e')%Z.
Proof.
  induction l as [|pc l IH]; intros expected start e' H; cbn [verify_pcs] in H.
  { simplify_eq. split_and!; [constructor|constructor|lia]. }
  destruct (_ || _)%bool eqn:Hor in H; [done|]. apply orb_false_elim in Hor as [Hlt _]. apply Z.ltb_ge in Hlt.
  inv_bind H. inv_bind H. unfold next_or_overlap in Hbind0. destruct (u32_checked (pc + 1)) as [x|] eqn:Hx; [|done].
  unfold u32_checked in Hx. case_match; [|done]. simplify_eq. destruct (IH _ _ _ H) as (Hs & Hall & Hle).
  rewrite Forall_forall in Hall. split_and!; [|constructor; [lia|]|lia].
  - constructor; [done|]. apply Forall_forall. intros y Hy. specialize (Hall y Hy). lia.
  - apply Forall_forall. intros y Hy. specialize (Hall y Hy). lia.
Qed.

Lemma verify_blocks_sites n index previous expected l : verify_blocks n index previous expected l = Ok tt ->
  StronglySorted site_lt (flat_map block_sites l) /\ Forall (site_after previous expected) (flat_map block_sites l).
Proof.
  revert index previous expected. induction l as [|b l IH]; intros index previous expected H; [by split; constructor|].
  cbn [verify_blocks] in H. case_match; [done|]. inv_bind H. destruct (instr_pcs b) as [|pc0 pcs] eqn:Hpcs; [done|].
  case_match; [done|]. inv_bind H. inv_bind H. case_match; [done|]. rewrite <- Hpcs in Hbind0.
  destruct (verify_pcs_Ok _ _ _ _ Hbind0) as (Hsort & Hall & Hle). destruct (IH _ _ _ H) as [Hs Ha].
  cbn [flat_map]. unfold block_sites at 1 3. rewrite Forall_forall in Hall. rewrite Forall_forall in Ha. split.
  - clear Hbind0 Hpcs. induction Hsort as [|pc l' Hl' IHs Hlt]; [done|]. cbn [map app]. constructor.
    + apply IHs. intros x Hx. apply Hall. by right.
    + apply Forall_forall. rewrite Forall_forall in Hlt. intros x [Hx|Hx]%elem_of_app.
      * apply list_elem_of_In, in_map_iff in Hx as (y & <- & Hy%list_elem_of_In). right. split; [done|]. by apply Hlt.
      * specialize (Ha x Hx). destruct (Hall pc ltac:(by left)). destruct Ha as [?|[? ?]]; [by left|right]. split; [done|simpl; lia].
  - apply Forall_forall. intros x Hx. assert (Hb : block_inline b <= x.1 /\ (block_inline b = x.1 -> a <= x.2)%Z).
    { apply elem_of_app in Hx as [Hx|Hx].
      - apply list_elem_of_In, in_map_iff in Hx as (y & <- & Hy%list_elem_of_In). specialize (Hall y Hy). simpl. lia.
      - destruct (Ha x Hx) as [?|[? ?]]; lia. }
    unfold verify_order in Hbind. unfold site_after. destruct previous as [p|].
    + destruct (Nat.ltb_spec (block_inline b) (block_inline p)); [done|].
      destruct (Nat.eqb_spec (block_inline p) (block_inline b)) as [He|He]; cbn [andb negb] in Hbind.
      * case_match; [done|]. simplify_eq. destruct (decide (block_inline b = x.1)); [right|left]; [split; [lia|tauto]|lia].
      * simplify_eq. left. lia.
    + done.
Qed.

Lemma verify_sites g : verify g = Ok tt -> StronglySorted site_lt (flat_map block_sites (blocks g)).
Proof.
  unfold verify. destruct (blocks g) as [|b0 bs]; [constructor|]. do 3 (case_match; [done|]). intros Hv.
  inv_bind Hv. inv_bind Hv. destruct a0. by destruct (verify_blocks_sites _ _ _ _ _ Hbind0).
Qed.
