(* ===== verification/Dom.v ===== *)
(** Dominance over a control-flow graph (otter-jit/src/ir/dom.rs): reverse
    postorder by an explicit-stack depth-first search, immediate dominators by the
    Cooper-Harvey-Kennedy iteration below a virtual root, dominance frontiers by
    the runner algorithm, and the self-checks of both results.  Indexing panics
    out of range, as [expect] does on a missing dominator. *)

From S2P Require Import Prelude Cfg.

Inductive EdgeSelection := Full | Normal.

#[export] Instance EdgeSelection_eq_dec : EqDecision EdgeSelection.
Proof. solve_decision. Defined.

Record DominatorTree : Type := mkDomTree {
  idom : list (option BlockId);
  rpo : list BlockId;
  dt_edges : EdgeSelection
}.

Record DominanceFrontier : Type := mkFrontier { df : list (list BlockId) }.

Module DomError.
Inductive DomError : Type :=
| ImmediateDominatorCountMismatch (expected actual : nat)
| ReversePostorderMismatch (expected actual : list BlockId)
| EntryHasImmediateDominator (dominator : BlockId)
| ImmediateDominatorOutOfRange (block dominator : BlockId)
| ImmediateDominatorIsSelf (block : BlockId)
| ImmediateDominatorCycle (block : BlockId)
| ImmediateDominatorNotBeforeBlock (block dominator : BlockId)
| ImmediateDominatorDoesNotDominatePredecessor (block dominator predecessor : BlockId)
| ImmediateDominatorFixpointMismatch (block expected actual : BlockId)
| UnexpectedDominatorRoot (block expected : BlockId)
| MissingDominatorRoot (block actual : BlockId)
| DominanceFrontierCountMismatch (expected actual : nat)
| DominanceFrontierBlockOutOfRange (owner block : BlockId)
| DominanceFrontierNotCanonical (block : BlockId)
| DominanceFrontierDefinitionMismatch (block : BlockId) (expected actual : list BlockId).
End DomError.
Export DomError (DomError).

Section Compute.
Context {E : Type} (g : ControlFlowGraph) (edges : EdgeSelection).

Definition successors (b : Block) : list BlockId :=
  canonicalize (match edges with
                | Full => normal_succs b ++ exception_succs b
                | Normal => normal_succs b
                end).

Fixpoint filter_preds (block : BlockId) (l : list BlockId) : res E (list BlockId) :=
  match l with
  | [] => Ok []
  | p :: l =>
      let* keep := match edges with
                   | Full => Ok true
                   | Normal => let* pb := index (blocks g) p in Ok (contains (normal_succs pb) block)
                   end in
      let* rest := filter_preds block l in
      Ok (if keep : bool then p :: rest else rest)
  end.

Definition predecessors (block : BlockId) : res E (list BlockId) :=
  let* b := index (blocks g) block in filter_preds block (preds b).

Definition analysis_roots : list BlockId :=
  match edges with
  | Full => [entry g]
  | Normal => canonicalize (entry g :: flat_map exception_succs (blocks g))
  end.

Definition is_analysis_root (block : BlockId) : bool :=
  (block =? entry g)
  || bool_decide (edges = Normal) && existsb (fun b => contains (exception_succs b) block) (blocks g).

(** [std::mem::replace(&mut visited[i], true)]. *)
Definition replace_true (visited : list bool) (i : nat) : res E (bool * list bool) :=
  let* old := index visited i in Ok (old, <[i := true]> visited).

(** The depth-first search from one root; the head of the list is the top of the
    stack. *)
Fixpoint dfs_loop (fuel : nat) (succs : list (list BlockId)) (visited : list bool)
    (stack : list (BlockId * nat)) (postorder : list BlockId) : res E (list bool * list BlockId) :=
  match fuel with
  | O => OutOfFuel
  | S fuel =>
      match stack with
      | [] => Ok (visited, postorder)
      | (block, successor_index) :: rest =>
          let* ss := index succs block in
          match ss !! successor_index with
          | Some successor =>
              let* (old, visited) := replace_true visited successor in
              let stack := (block, S successor_index) :: rest in
              if old : bool then dfs_loop fuel succs visited stack postorder
              else dfs_loop fuel succs visited ((successor, 0) :: stack) postorder
          | None => dfs_loop fuel succs visited rest (postorder ++ [block])
          end
      end
  end.

Definition dfs_fuel (succs : list (list BlockId)) : nat := 2 + length succs + sum_list (map length succs).

Fixpoint dfs_roots (succs : list (list BlockId)) (roots : list BlockId) (visited : list bool)
    (postorder : list BlockId) : res E (list BlockId) :=
  match roots with
  | [] => Ok postorder
  | root :: roots =>
      let* (old, visited) := replace_true visited root in
      if old : bool then dfs_roots succs roots visited postorder
      else
        let* (visited, postorder) := dfs_loop (dfs_fuel succs) succs visited [(root, 0)] postorder in
        dfs_roots succs roots visited postorder
  end.

Definition reverse_postorder : res E (list BlockId) :=
  let* postorder := dfs_roots (map successors (blocks g)) analysis_roots
                      (replicate (length (blocks g)) false) [] in
  Ok (reverse postorder).

(** ** Cooper-Harvey-Kennedy *)

Definition virtual_root : nat := length (blocks g).

(** [v[i] = x]. *)
Definition set_index {A} (v : list A) (i : nat) (x : A) : res E (list A) :=
  if i <? length v then Ok (<[i := x]> v) else Panic.

Fixpoint number_loop (len rpo_index : nat) (order : list BlockId) (pn : list nat) : res E (list nat) :=
  match order with
  | [] => Ok pn
  | block :: order =>
      let* pn := set_index pn block (len - 1 - rpo_index) in
      number_loop len (S rpo_index) order pn
  end.

Definition postorder_number (order : list BlockId) : res E (list nat) :=
  let* pn := set_index (replicate (length (blocks g) + 1) 0) virtual_root (length order) in
  number_loop (length order) 0 order pn.

(** [idom[finger].expect(..)]. *)
Definition known_idom (idom : list (option nat)) (finger : nat) : res E nat :=
  let* parent := index idom finger in
  match parent with Some parent => Ok parent | None => Panic end.

(** [while postorder_number[finger] < postorder_number[other] { finger = idom[finger] }]. *)
Fixpoint climb (fuel : nat) (idom : list (option nat)) (pn : list nat) (finger other : nat) : res E nat :=
  match fuel with
  | O => OutOfFuel
  | S fuel =>
      let* a := index pn finger in
      let* b := index pn other in
      if a <? b then let* finger := known_idom idom finger in climb fuel idom pn finger other
      else Ok finger
  end.

Fixpoint intersect (fuel : nat) (idom : list (option nat)) (pn : list nat) (finger1 finger2 : nat) : res E nat :=
  match fuel with
  | O => OutOfFuel
  | S fuel =>
      if finger1 =? finger2 then Ok finger1
      else
        let* finger1 := climb (S (length idom)) idom pn finger1 finger2 in
        let* finger2 := climb (S (length idom)) idom pn finger2 finger1 in
        intersect fuel idom pn finger1 finger2
  end.

(** Each round moves a finger up. *)
Definition intersect_fuel (idom : list (option nat)) : nat := 2 + 2 * length idom.

(** [.filter(|&predecessor| idom[predecessor].is_some())]. *)
Fixpoint processed (idom : list (option nat)) (l : list nat) : res E (list nat) :=
  match l with
  | [] => Ok []
  | p :: l =>
      let* parent := index idom p in
      let* rest := processed idom l in
      Ok (match parent with Some _ => p :: rest | None => rest end)
  end.

Fixpoint intersect_all (idom : list (option nat)) (pn : list nat) (new_idom : nat) (l : list nat) : res E nat :=
  match l with
  | [] => Ok new_idom
  | p :: l =>
      let* new_idom := intersect (intersect_fuel idom) idom pn new_idom p in
      intersect_all idom pn new_idom l
  end.

Definition block_predecessors (block : BlockId) : res E (list nat) :=
  let* ps := predecessors block in
  Ok (if is_analysis_root block then ps ++ [virtual_root] else ps).

(** One iteration of the inner loop: the table and [changed]. *)
Definition update_block (pn : list nat) (block : BlockId) (idom : list (option nat)) (changed : bool)
    : res E (list (option nat) * bool) :=
  let* ps := block_predecessors block in
  let* ps := processed idom ps in
  match ps with
  | [] => Ok (idom, changed)
  | p :: ps =>
      let* new_idom := intersect_all idom pn p ps in
      let* old := index idom block in
      if bool_decide (old = Some new_idom) then Ok (idom, changed)
      else
        let* idom := set_index idom block (Some new_idom) in
        Ok (idom, true)
  end.

Fixpoint update_all (pn : list nat) (order : list BlockId) (idom : list (option nat)) (changed : bool)
    : res E (list (option nat) * bool) :=
  match order with
  | [] => Ok (idom, changed)
  | block :: order =>
      let* (idom, changed) := update_block pn block idom changed in
      update_all pn order idom changed
  end.

Fixpoint fixpoint_loop (fuel : nat) (pn : list nat) (order : list BlockId) (idom : list (option nat))
    : res E (list (option nat)) :=
  match fuel with
  | O => OutOfFuel
  | S fuel =>
      let* (idom, changed) := update_all pn order idom false in
      if changed : bool then fixpoint_loop fuel pn order idom else Ok idom
  end.

(** A pass that changes something moves a dominator up. *)
Definition fixpoint_fuel (order : list BlockId) : nat := 2 + length order * S (length order).

Definition real_parent (parent : option nat) : option BlockId :=
  match parent with
  | Some parent => if parent =? virtual_root then None else Some parent
  | None => None
  end.

Definition compute_idoms (order : list BlockId) : res E (list (option BlockId)) :=
  let* pn := postorder_number order in
  let* idom := set_index (replicate (length (blocks g) + 1) None) virtual_root (Some virtual_root) in
  let* idom := fixpoint_loop (fixpoint_fuel order) pn order idom in
  Ok (map real_parent (removelast idom)).

Definition compute_with_edges : res E DominatorTree :=
  let* order := reverse_postorder in
  let* idom := compute_idoms order in
  Ok (mkDomTree idom order edges).
End Compute.

Definition compute {E} (g : ControlFlowGraph) : res E DominatorTree := compute_with_edges g Full.
Definition compute_normal {E} (g : ControlFlowGraph) : res E DominatorTree := compute_with_edges g Normal.

(** ** Queries *)

Section Queries.
Context {E : Type} (t : DominatorTree).

Definition immediate_dominator (block : BlockId) : res E (option BlockId) := index (idom t) block.

(** The walk up the tree: as many steps as there are blocks. *)
Fixpoint dominates_loop (fuel : nat) (a b : BlockId) : res E bool :=
  match fuel with
  | O => OutOfFuel
  | S fuel =>
      if a =? b then Ok true
      else
        let* parent := immediate_dominator b in
        match parent with
        | None => Ok false
        | Some parent => dominates_loop fuel a parent
        end
  end.

Definition dominates (a b : BlockId) : res E bool := dominates_loop (S (length (idom t))) a b.

Definition strictly_dominates (a b : BlockId) : res E bool :=
  if a =? b then Ok false else dominates a b.
End Queries.

(** ** The dominance frontier *)

Section Frontier.
Context {E : Type} (g : ControlFlowGraph) (t : DominatorTree).

(** The runner from one predecessor up to [stop]. *)
Fixpoint runner_loop (fuel : nat) (stop : option BlockId) (block : BlockId) (runner : option BlockId)
    (df : list (list BlockId)) : res E (list (list BlockId)) :=
  match fuel with
  | O => OutOfFuel
  | S fuel =>
      if bool_decide (runner = stop) then Ok df
      else
        match runner with
        | None => Ok df
        | Some current =>
            let* frontier := index df current in
            let* df := set_index df current (frontier ++ [block]) in
            let* runner := immediate_dominator t current in
            runner_loop fuel stop block runner df
        end
  end.

Fixpoint run_predecessors (stop : option BlockId) (block : BlockId) (ps : list BlockId)
    (df : list (list BlockId)) : res E (list (list BlockId)) :=
  match ps with
  | [] => Ok df
  | p :: ps =>
      let* df := runner_loop (S (S (length (idom t)))) stop block (Some p) df in
      run_predecessors stop block ps df
  end.

Definition frontier_block (b : Block) (df : list (list BlockId)) : res E (list (list BlockId)) :=
  let* ps := predecessors g (dt_edges t) (block_id b) in
  let virtual_predecessor := is_analysis_root g (dt_edges t) (block_id b) in
  if negb (2 <=? length ps + (if virtual_predecessor then 1 else 0)) then Ok df
  else
    let* stop := immediate_dominator t (block_id b) in
    run_predecessors stop (block_id b) ps df.

Fixpoint frontier_loop (l : list Block) (df : list (list BlockId)) : res E (list (list BlockId)) :=
  match l with
  | [] => Ok df
  | b :: l =>
      let* df := frontier_block b df in
      frontier_loop l df
  end.

Definition frontier_compute : res E DominanceFrontier :=
  let* df := frontier_loop (blocks g) (replicate (length (blocks g)) []) in
  Ok (mkFrontier (map canonicalize df)).
End Frontier.

(** ** The self-checks *)

Section Verify.
Context (g : ControlFlowGraph) (t : DominatorTree).

Definition check_parent (block : BlockId) : res DomError unit :=
  let* parent := index (idom t) block in
  match parent with
  | None => Ok tt
  | Some dominator =>
      if length (blocks g) <=? dominator then Err (DomError.ImmediateDominatorOutOfRange block dominator)
      else if dominator =? block then Err (DomError.ImmediateDominatorIsSelf block)
      else Ok tt
  end.

(** The parent chain of [start], marking blocks as seen. *)
Fixpoint check_chain (fuel : nat) (start : BlockId) (seen : list bool) (block : BlockId) : res DomError unit :=
  match fuel with
  | O => OutOfFuel
  | S fuel =>
      let* (old, seen) := replace_true seen block in
      if old : bool then Err (DomError.ImmediateDominatorCycle start)
      else
        let* parent := index (idom t) block in
        match parent with
        | None => Ok tt
        | Some parent => check_chain fuel start seen parent
        end
  end.

Fixpoint position_loop (position : nat) (order : list BlockId) (rpo_position : list nat)
    : res DomError (list nat) :=
  match order with
  | [] => Ok rpo_position
  | block :: order =>
      let* rpo_position := set_index rpo_position block position in
      position_loop (S position) order rpo_position
  end.

Definition check_position (rpo_position : list nat) (block : BlockId) : res DomError unit :=
  let* parent := index (idom t) block in
  match parent with
  | None => Ok tt
  | Some dominator =>
      let* p := index rpo_position dominator in
      let* q := index rpo_position block in
      if q <=? p then Err (DomError.ImmediateDominatorNotBeforeBlock block dominator) else Ok tt
  end.

Definition check_predecessors (block : BlockId) : res DomError unit :=
  let* parent := index (idom t) block in
  match parent with
  | None => Ok tt
  | Some dominator =>
      let* ps := predecessors g (dt_edges t) block in
      for_each (fun p =>
        let* d := dominates t dominator p in
        if d : bool then Ok tt
        else Err (DomError.ImmediateDominatorDoesNotDominatePredecessor block dominator p)) ps
  end.

Definition check_fixpoint (expected_idom : list (option BlockId)) (block : BlockId) : res DomError unit :=
  let* expected := index expected_idom block in
  let* actual := index (idom t) block in
  match expected, actual with
  | Some expected, Some actual =>
      if negb (actual =? expected) then Err (DomError.ImmediateDominatorFixpointMismatch block expected actual)
      else Ok tt
  | Some expected, None => Err (DomError.UnexpectedDominatorRoot block expected)
  | None, Some actual => Err (DomError.MissingDominatorRoot block actual)
  | None, None => Ok tt
  end.

Definition tree_verify : res DomError unit :=
  let block_count := length (blocks g) in
  if negb (length (idom t) =? block_count)
  then Err (DomError.ImmediateDominatorCountMismatch block_count (length (idom t)))
  else
    let* expected_rpo := reverse_postorder g (dt_edges t) in
    if negb (bool_decide (rpo t = expected_rpo))
    then Err (DomError.ReversePostorderMismatch expected_rpo (rpo t))
    else
      let* entry_parent := index (idom t) (entry g) in
      match entry_parent with
      | Some dominator => Err (DomError.EntryHasImmediateDominator dominator)
      | None =>
          let* _ := for_each check_parent (seq 0 block_count) in
          let* _ := for_each (fun start => check_chain (S (S block_count)) start (replicate block_count false) start)
                      (seq 0 block_count) in
          let* rpo_position := position_loop 0 (rpo t) (replicate block_count 0) in
          let* _ := for_each (check_position rpo_position) (seq 0 block_count) in
          let* _ := for_each check_predecessors (rpo t) in
          let* expected_idom := compute_idoms g (dt_edges t) (rpo t) in
          for_each (check_fixpoint expected_idom) (rpo t)
      end.

(** [.any(|predecessor| dom.dominates(block, predecessor))]. *)
Fixpoint dominates_any (block : BlockId) (ps : list BlockId) : res DomError bool :=
  match ps with
  | [] => Ok false
  | p :: ps =>
      let* d := dominates t block p in
      if d : bool then Ok true else dominates_any block ps
  end.

(** The frontier of [block] straight from its definition. *)
Fixpoint frontier_definition (block : BlockId) (candidates : list Block) : res DomError (list BlockId) :=
  match candidates with
  | [] => Ok []
  | candidate :: candidates =>
      let* ps := predecessors g (dt_edges t) (block_id candidate) in
      let* reaches := dominates_any block ps in
      let* inside := (if reaches : bool then
                        let* s := strictly_dominates t block (block_id candidate) in Ok (negb s)
                      else Ok false) in
      let* rest := frontier_definition block candidates in
      Ok (if inside : bool then block_id candidate :: rest else rest)
  end.

Definition check_frontier_shape (owner : BlockId) (frontier : list BlockId) : res DomError unit :=
  let* _ := for_each (fun block =>
      if length (blocks g) <=? block then Err (DomError.DominanceFrontierBlockOutOfRange owner block)
      else Ok tt) frontier in
  if negb (is_canonical frontier) then Err (DomError.DominanceFrontierNotCanonical owner) else Ok tt.

Definition check_frontier_definition (f : DominanceFrontier) (block : BlockId) : res DomError unit :=
  let* expected := frontier_definition block (blocks g) in
  let* actual := index (df f) block in
  if negb (bool_decide (actual = expected))
  then Err (DomError.DominanceFrontierDefinitionMismatch block expected actual) else Ok tt.

Definition frontier_verify (f : DominanceFrontier) : res DomError unit :=
  let block_count := length (blocks g) in
  if negb (length (df f) =? block_count)
  then Err (DomError.DominanceFrontierCountMismatch block_count (length (df f)))
  else
    let* _ := for_each_i check_frontier_shape 0 (df f) in
    for_each (check_frontier_definition f) (seq 0 block_count).
End Verify.
