(* ===== verification/RpoProps.v ===== *)
(** The depth-first search of the dominator analysis (otter-jit/src/ir/dom.rs,
    [reverse_postorder]): on a verified graph it ends, visits every block exactly
    once, and places every block that is not a root after one of its
    predecessors. *)

From stdpp Require Import relations.
From S2P Require Import Prelude Slices Cfg CfgProps Dom.
#[local] Set Warnings "-clear-no-such-hyp".

Section Dfs.
Context {E : Type} (succs : list (list nat)) (roots : list nat).
Context (Hrange : forall u ss x, succs !! u = Some ss -> x ∈ ss -> x < length succs).

Definition schild (u x : nat) : Prop := exists ss, succs !! u = Some ss /\ x ∈ ss.

(** The block below a stack entry is why it was pushed. *)
Definition pushed_by (b : nat) (rest : list (nat * nat)) : Prop :=
  match rest with [] => b ∈ roots | (p, _) :: _ => schild p b end.
Fixpoint linked (stack : list (nat * nat)) : Prop :=
  match stack with [] => True | (b, _) :: rest => pushed_by b rest /\ linked rest end.

(** Blocks on the stack or finished. *)
Definition found (stack : list (nat * nat)) (post : list nat) : list nat := map fst stack ++ post.

Record dfs_inv (visited : list bool) (stack : list (nat * nat)) (post : list nat) : Prop := {
  di_len : length visited = length succs;
  di_visited : forall x, visited !! x = Some true <-> x ∈ found stack post;
  di_nodup : NoDup (found stack post);
  di_linked : linked stack;
  di_closed : forall x y, x ∈ post -> schild x y -> y ∈ found stack post;
  di_seen : forall b i j y ss, (b, i) ∈ stack -> succs !! b = Some ss -> j < i -> ss !! j = Some y ->
    y ∈ found stack post;
  di_support : forall l1 x l2, post = l1 ++ x :: l2 ->
    x ∈ roots \/ exists p, p ∈ l2 ++ map fst stack /\ schild p x
}.

Lemma dfs_inv_lt visited stack post x : dfs_inv visited stack post -> x ∈ found stack post -> x < length succs.
Proof. intros Hi Hx. apply (di_visited _ _ _ Hi) in Hx. apply lookup_lt_Some in Hx. by rewrite <- (di_len _ _ _ Hi). Qed.

Lemma replace_true_Ok (visited : list bool) x : x < length visited ->
  exists old, visited !! x = Some old /\ replace_true (E := E) visited x = Ok (old, <[x := true]> visited).
Proof.
  intros Hx. destruct (lookup_lt_is_Some_2 visited x Hx) as [old Hold]. exists old. split; [done|].
  unfold replace_true. by rewrite (proj2 (index_Ok _ _ _) Hold).
Qed.

Lemma insert_same (visited : list bool) x : visited !! x = Some true -> <[x := true]> visited = visited.
Proof. apply list_insert_id. Qed.

(** Moving past a successor that is already found. *)
Lemma dfs_skip visited b i rest post y ss : dfs_inv visited ((b, i) :: rest) post ->
  succs !! b = Some ss -> ss !! i = Some y -> visited !! y = Some true ->
  dfs_inv visited ((b, S i) :: rest) post.
Proof.
  intros [H1 H2 H3 H4 H5 H6 H7] Hss Hy Hv. split; [done|done|done| |done| |done].
  - by destruct H4 as [H4 H4'].
  - intros c k j z ss' [[= -> ->]|Hc]%elem_of_cons Hss' Hj Hz.
    + simplify_eq. destruct (decide (j = i)) as [->|Hne]; [simplify_eq; by apply H2|].
      apply (H6 b i j z ss); [by left|done|lia|done].
    + apply (H6 c k j z ss'); [by right|done..].
Qed.

Lemma insert_true_lookup (visited : list bool) y x : y < length visited ->
  <[y := true]> visited !! x = Some true <-> x = y \/ visited !! x = Some true.
Proof.
  intros Hy. destruct (decide (x = y)) as [->|Hne].
  - rewrite list_lookup_insert_eq by done. tauto.
  - rewrite list_lookup_insert_ne by done. naive_solver.
Qed.

(** Pushing a block that was not found before, on top of the entry it was read
    from or on the empty stack. *)
Definition below (stack : list (nat * nat)) : list (nat * nat) :=
  match stack with [] => [] | (b, i) :: rest => (b, S i) :: rest end.

Lemma fst_below stack : map fst (below stack) = map fst stack.
Proof. by destruct stack as [|[]]. Qed.

Lemma dfs_push visited stack post y : dfs_inv visited stack post -> visited !! y = Some false ->
  match stack with [] => y ∈ roots | (b, i) :: _ => exists ss, succs !! b = Some ss /\ ss !! i = Some y end ->
  dfs_inv (<[y := true]> visited) ((y, 0) :: below stack) post.
Proof.
  intros [H1 H2 H3 H4 H5 H6 H7] Hv Hp.
  assert (Hfound : found ((y, 0) :: below stack) post = y :: found stack post) by (unfold found; simpl; by rewrite fst_below).
  assert (Hnot : y ∉ found stack post) by (intros Hin; apply H2 in Hin; congruence).
  split; try rewrite Hfound.
  - by rewrite length_insert.
  - intros x. rewrite insert_true_lookup by (by eapply lookup_lt_Some). by rewrite H2, elem_of_cons.
  - by apply NoDup_cons.
  - destruct stack as [|[b i] rest]; [done|]. destruct Hp as (ss & Hss & Hy). split; [|by destruct H4].
    exists ss. split; [done|]. by eapply list_elem_of_lookup_2.
  - intros x z Hx Hz. right. by apply (H5 x).
  - intros c k j z ss [[= -> ->]|Hc]%elem_of_cons Hss Hj Hz; [lia|]. destruct stack as [|[b i] rest]; [by apply elem_of_nil in Hc|].
    apply elem_of_cons in Hc as [[= -> ->]|Hc]; [|right; apply (H6 c k j z ss); [by right|done..]].
    destruct Hp as (ss' & Hss' & Hy). simplify_eq. destruct (decide (j = i)) as [->|Hne]; [simplify_eq; by left|].
    right. eapply (H6 b i j z); [by left|done|lia|done].
  - intros l1 x l2 Hpost. destruct (H7 l1 x l2 Hpost) as [?|(p & Hp' & Hc)]; [by left|]. right. exists p.
    split; [|done]. simpl. rewrite fst_below. set_solver.
Qed.

(** Finishing the top of the stack. *)
Lemma dfs_pop visited b i rest post ss : dfs_inv visited ((b, i) :: rest) post ->
  succs !! b = Some ss -> ss !! i = None -> dfs_inv visited rest (post ++ [b]).
Proof.
  intros [H1 H2 H3 H4 H5 H6 H7] Hss Hn. unfold found in *. simpl in *.
  assert (Hperm : b :: map fst rest ++ post ≡ₚ map fst rest ++ post ++ [b]) by solve_Permutation.
  assert (Hin : forall x, x ∈ b :: map fst rest ++ post <-> x ∈ map fst rest ++ post ++ [b]) by (intros x; by rewrite Hperm).
  split; unfold found.
  - done.
  - intros x. by rewrite H2, Hin.
  - by rewrite <- Hperm.
  - by destruct H4.
  - intros x y [Hx| ->%list_elem_of_singleton]%elem_of_app Hc; apply Hin; [by apply (H5 x)|].
    destruct Hc as (ss' & Hss' & Hy). simplify_eq. apply list_elem_of_lookup in Hy as [j Hj].
    apply (H6 b i j y ss); [by left|done| |done]. apply lookup_ge_None in Hn. apply lookup_lt_Some in Hj. lia.
  - intros c k j z ss' Hc Hss' Hj Hz. apply Hin. apply (H6 c k j z ss'); [by right|done..].
  - intros l1 x l2 Hpost. destruct l2 as [|z l2' _] using rev_ind.
    + apply app_inj_tail in Hpost as [-> ->]. destruct H4 as [H4 _]. destruct rest as [|[p k] rest]; [by left|].
      right. exists p. split; [by left|done].
    + rewrite app_comm_cons, app_assoc in Hpost. apply app_inj_tail in Hpost as [-> ->].
      destruct (H7 l1 x l2' eq_refl) as [?|(p & Hp & Hc)]; [by left|]. right. exists p. split; [|done]. set_solver.
Qed.

(** ** Termination *)

Definition weight (u : nat) : nat := S (length (default [] (succs !! u))).
Definition pending (visited : list bool) : nat :=
  sum_list (map weight (filter (fun u => visited !! u <> Some true) (seq 0 (length succs)))).
Definition entry_weight (e : nat * nat) : nat := S (weight e.1 - S e.2).
Definition dfs_measure (visited : list bool) (stack : list (nat * nat)) : nat :=
  pending visited + sum_list (map entry_weight stack).

Lemma pending_visit (visited : list bool) y : length visited = length succs -> visited !! y = Some false ->
  weight y + pending (<[y := true]> visited) <= pending visited.
Proof.
  intros Hl Hv. pose proof (lookup_lt_Some _ _ _ Hv) as Hy. unfold pending.
  apply (sum_filter_drop weight (fun u => visited !! u <> Some true) (fun u => <[y := true]> visited !! u <> Some true)).
  - intros x Hx Hx'. apply Hx, insert_true_lookup; auto.
  - apply elem_of_seq. lia.
  - by rewrite Hv.
  - intros H. apply H, insert_true_lookup; auto.
Qed.

Lemma measure_cons visited b i stack ss : succs !! b = Some ss ->
  dfs_measure visited ((b, i) :: stack) = S (length ss - i) + dfs_measure visited stack.
Proof. intros Hss. unfold dfs_measure, entry_weight, weight. simpl. rewrite Hss. simpl. lia. Qed.

Lemma dfs_loop_Ok fuel : forall visited stack post, dfs_inv visited stack post -> dfs_measure visited stack < fuel ->
  exists visited' post', dfs_loop (E := E) fuel succs visited stack post = Ok (visited', post')
    /\ dfs_inv visited' [] post' /\ (forall x, x ∈ found stack post -> x ∈ post')
    /\ pending visited' <= pending visited.
Proof.
  induction fuel as [|fuel IH]; intros visited stack post Hinv Hm; [lia|]. cbn [dfs_loop].
  destruct stack as [|[b i] rest]; [eauto 10|].
  assert (Hb : b < length succs) by (eapply dfs_inv_lt; [done|by left]).
  destruct (lookup_lt_is_Some_2 succs b Hb) as [ss Hss]. rewrite (proj2 (index_Ok _ _ _) Hss). cbn [rbind].
  rewrite (measure_cons _ b i rest ss Hss) in Hm.
  destruct (ss !! i) as [y|] eqn:Hy.
  - assert (Hyn : y < length visited).
    { rewrite (di_len _ _ _ Hinv). eapply Hrange; [done|]. by eapply list_elem_of_lookup_2. }
    destruct (replace_true_Ok visited y Hyn) as (old & Hold & ->). cbn [rbind].
    pose proof (lookup_lt_Some _ _ _ Hy). destruct old.
    + rewrite (insert_same visited y Hold).
      destruct (IH visited ((b, S i) :: rest) post) as (v' & p' & -> & ? & ? & ?).
      * by eapply dfs_skip.
      * rewrite (measure_cons _ b _ rest ss Hss). lia.
      * exists v', p'. done.
    + pose proof (pending_visit visited y (di_len _ _ _ Hinv) Hold) as Hpv.
      destruct (IH _ _ _ (dfs_push visited ((b, i) :: rest) post y Hinv Hold ltac:(by eexists)))
        as (v' & p' & Heq & ? & Hf & ?).
      * destruct (lookup_lt_is_Some_2 succs y) as [sy Hsy]; [by rewrite <- (di_len _ _ _ Hinv)|].
        cbn [below]. rewrite (measure_cons _ y _ _ sy Hsy), (measure_cons _ b _ _ ss Hss).
        unfold weight in Hpv. rewrite Hsy in Hpv. unfold dfs_measure in *. simpl in Hpv. lia.
      * exists v', p'. cbn [below] in Heq. rewrite Heq. split_and!; [done|done| |lia]. intros x Hx. apply Hf.
        unfold found. cbn [map]. rewrite fst_below. by right.
  - destruct (IH visited rest (post ++ [b])) as (v' & p' & -> & ? & Hf & ?).
    + by eapply dfs_pop.
    + lia.
    + exists v', p'. split_and!; [done|done| |done]. intros x Hx. apply Hf. unfold found in *. simpl in Hx. set_solver.
Qed.

Lemma weights_total : sum_list (map weight (seq 0 (length succs))) = length succs + sum_list (map length succs).
Proof.
  assert (H : map weight (seq 0 (length succs)) = map (fun ss => S (length ss)) succs).
  { apply list_eq. intros i. rewrite !map_lookup. destruct (decide (i < length succs)) as [Hi|Hi].
    - rewrite lookup_seq_lt by done. destruct (lookup_lt_is_Some_2 succs i Hi) as [ss Hss].
      rewrite Hss. simpl. unfold weight. by rewrite Hss.
    - rewrite lookup_seq_ge, (lookup_ge_None_2 succs) by lia. done. }
  rewrite H. clear. induction succs as [|ss l IH]; simpl; [done|]. rewrite IH. lia.
Qed.

Lemma pending_fuel visited : pending visited + 1 < dfs_fuel succs.
Proof.
  unfold dfs_fuel. enough (pending visited <= length succs + sum_list (map length succs)) by lia.
  rewrite <- weights_total. apply sum_filter_le.
Qed.

Context (Hroots : forall r, r ∈ roots -> r < length succs).

Lemma dfs_roots_Ok rs : (forall r, r ∈ rs -> r ∈ roots) -> forall visited post, dfs_inv visited [] post ->
  exists visited' post', dfs_roots (E := E) succs rs visited post = Ok post' /\ dfs_inv visited' [] post'
    /\ (forall x, x ∈ post -> x ∈ post') /\ (forall r, r ∈ rs -> r ∈ post').
Proof.
  induction rs as [|r rs IH]; intros Hrs visited post Hinv; cbn [dfs_roots].
  { exists visited, post. split_and!; [done|done|done|by intros ? ?%elem_of_nil]. }
  assert (Hrn : r < length succs) by (apply Hroots, Hrs; by left).
  destruct (replace_true_Ok visited r) as (old & Hold & ->); [by rewrite (di_len _ _ _ Hinv)|]. cbn [rbind].
  destruct old.
  - rewrite (insert_same visited r Hold).
    destruct (IH ltac:(set_solver) visited post Hinv) as (v' & p' & -> & ? & Hp & Hr). exists v', p'. split_and!; [done..|].
    intros x [-> |Hx]%elem_of_cons; [|auto]. apply Hp. by apply (di_visited _ _ _ Hinv) in Hold.
  - pose proof (dfs_push visited [] post r Hinv Hold ltac:(apply Hrs; by left)) as Hinv'.
    destruct (dfs_loop_Ok (dfs_fuel succs) _ _ _ Hinv') as (v1 & p1 & Heq & Hinv1 & Hp1 & _).
    + destruct (lookup_lt_is_Some_2 succs r Hrn) as [ss Hss]. cbn [below]. rewrite (measure_cons _ r _ _ ss Hss).
      pose proof (pending_visit visited r (di_len _ _ _ Hinv) Hold) as Hpv. unfold weight in Hpv. rewrite Hss in Hpv.
      pose proof (pending_fuel visited). unfold dfs_measure. simpl in *. lia.
    + cbn [below] in Heq. rewrite Heq. cbn [rbind].
      destruct (IH ltac:(set_solver) v1 p1 Hinv1) as (v' & p' & -> & ? & Hp & Hr). exists v', p'. split_and!; [done|done|..].
      * intros x Hx. apply Hp, Hp1. by right.
      * intros x [-> |Hx]%elem_of_cons; [|auto]. apply Hp, Hp1. by left.
Qed.

Lemma dfs_inv_start : dfs_inv (replicate (length succs) false) [] [].
Proof.
  split; [by rewrite length_replicate| |constructor|done|by intros x y ?%elem_of_nil|by intros ? ? ? ? ? ?%elem_of_nil|].
  - intros x. rewrite lookup_replicate. split; [by intros [? ?]|by intros ?%elem_of_nil].
  - by intros [|] x l2.
Qed.

(** The postorder: the blocks reachable from the roots, once each, every one a
    root or before a predecessor. *)
Lemma postorder_spec : exists post,
  dfs_roots (E := E) succs roots (replicate (length succs) false) [] = Ok post
  /\ NoDup post
  /\ (forall x, x ∈ post -> x < length succs)
  /\ (forall r x, r ∈ roots -> rtc schild r x -> x ∈ post)
  /\ (forall l1 x l2, post = l1 ++ x :: l2 -> x ∈ roots \/ exists p, p ∈ l2 /\ schild p x).
Proof.
  destruct (dfs_roots_Ok roots (fun r H => H) _ _ dfs_inv_start) as (v & post & Heq & Hinv & _ & Hr).
  exists post. split_and!; [done|by apply Hinv|..].
  - intros x Hx. by apply (dfs_inv_lt v [] post x).
  - intros r x Hroot Hx. apply Hr in Hroot. induction Hx as [|a b c Hc _ IH]; [done|]. apply IH.
    by apply (di_closed _ _ _ Hinv a b).
  - intros l1 x l2 Hpost. destruct (di_support _ _ _ Hinv l1 x l2 Hpost) as [?|(p & Hp & Hc)]; [by left|].
    right. exists p. split; [|done]. rewrite app_nil_r in Hp. done.
Qed.
End Dfs.

(** ** On the graph *)

Section Graph.
Context {E : Type} (g : ControlFlowGraph) (Hwf : cfg_wf g) (edges : EdgeSelection).

(** The edges an analysis follows. *)
Definition sel_succs (b : Block) : list BlockId :=
  match edges with Full => normal_succs b ++ exception_succs b | Normal => normal_succs b end.
Definition sel_edge (u x : BlockId) : Prop := exists b, blocks g !! u = Some b /\ x ∈ sel_succs b.

Lemma sel_succs_all b x : x ∈ sel_succs b -> x ∈ all_succs b.
Proof. unfold sel_succs, all_succs. destruct edges; set_solver. Qed.

Lemma schild_edge u x : schild (map (successors edges) (blocks g)) u x <-> sel_edge u x.
Proof.
  unfold schild, sel_edge, sel_succs. split.
  - intros (ss & Hss & Hx). rewrite map_lookup in Hss. apply fmap_Some in Hss as (b & Hb & ->).
    exists b. split; [done|]. exact (proj1 (elem_of_canonicalize _ _) Hx).
  - intros (b & Hb & Hx). exists (successors edges b). rewrite map_lookup, Hb. split; [done|].
    exact (proj2 (elem_of_canonicalize _ _) Hx).
Qed.

Lemma elem_of_roots x : x ∈ analysis_roots g edges <-> is_analysis_root g edges x = true.
Proof.
  unfold analysis_roots, is_analysis_root. destruct edges.
  - rewrite bool_decide_eq_false_2 by done. simpl. rewrite orb_false_r, Nat.eqb_eq. apply list_elem_of_singleton.
  - rewrite bool_decide_eq_true_2 by done. simpl.
    rewrite elem_of_canonicalize, elem_of_cons, orb_true_iff, Nat.eqb_eq. apply or_iff_compat_l.
    rewrite list_elem_of_In, in_flat_map, existsb_exists. unfold contains. split.
    + intros (b & Hb & Hx). exists b. split; [done|]. apply bool_decide_eq_true_2. by apply list_elem_of_In.
    + intros (b & Hb & Hx). exists b. split; [done|]. apply bool_decide_eq_true_1 in Hx. by apply list_elem_of_In.
Qed.

Lemma root_lt r : r ∈ analysis_roots g edges -> r < length (blocks g).
Proof.
  rewrite elem_of_roots. unfold is_analysis_root. rewrite orb_true_iff, Nat.eqb_eq. intros [-> |H]; [apply (wf_entry g Hwf)|].
  apply andb_true_iff in H as [_ H]. apply existsb_exists in H as (b & Hb & Hx). apply list_elem_of_In in Hb.
  apply list_elem_of_lookup in Hb as [i Hi]. apply (wf_range g Hwf i b r Hi). apply bool_decide_eq_true_1 in Hx.
  unfold all_succs. set_solver.
Qed.

Lemma entry_root : entry g ∈ analysis_roots g edges.
Proof. rewrite elem_of_roots. unfold is_analysis_root. by rewrite Nat.eqb_refl. Qed.

(** Handler entries are roots when exception edges are left out, so every block
    stays reachable. *)
Lemma reachable_from_roots x : x < length (blocks g) -> exists r, r ∈ analysis_roots g edges /\ rtc sel_edge r x.
Proof.
  intros Hx. apply (wf_reachable g Hwf) in Hx. revert x Hx. apply rtc_ind_r.
  - exists (entry g). split; [apply entry_root|constructor].
  - intros u x _ Hux IH. destruct Hux as (b & Hb & Hx). unfold all_succs in Hx.
    assert (x ∈ sel_succs b \/ x ∈ analysis_roots g edges) as [Hs|Hs].
    { rewrite elem_of_roots. unfold sel_succs, is_analysis_root. destruct edges; [by left|].
      apply elem_of_app in Hx as [Hx|Hx]; [by left|]. right. apply orb_true_iff. right.
      rewrite bool_decide_eq_true_2 by done. apply existsb_exists. exists b. split.
      - apply list_elem_of_In. by eapply list_elem_of_lookup_2.
      - by apply bool_decide_eq_true_2. }
    + destruct IH as (r & Hroot & Hr'). exists r. split; [done|]. eapply rtc_r; [done|by exists b].
    + exists x. split; [done|constructor].
Qed.

Lemma reverse_postorder_spec : exists order,
  reverse_postorder (E := E) g edges = Ok order
  /\ NoDup order
  /\ (forall x, x ∈ order <-> x < length (blocks g))
  /\ (forall i x, order !! i = Some x -> x ∈ analysis_roots g edges
                  \/ exists j p, j < i /\ order !! j = Some p /\ sel_edge p x).
Proof.
  set (succs := map (successors edges) (blocks g)).
  assert (Hlen : length succs = length (blocks g)) by apply length_map.
  assert (Hchild : forall u x, schild succs u x -> x < length succs).
  { intros u x Hc. apply schild_edge in Hc as (b & Hb & Hx). rewrite Hlen.
    apply (wf_range g Hwf u b x Hb). by apply sel_succs_all. }
  destruct (postorder_spec (E := E) succs (analysis_roots g edges)) as (post & Heq & Hnd & Hlt & Hreach & Hsup).
  - intros u ss x Hss Hx. apply (Hchild u). by exists ss.
  - intros r Hr. rewrite Hlen. by apply root_lt.
  - exists (reverse post). unfold reverse_postorder. fold succs. rewrite <- Hlen, Heq. cbn [rbind]. split_and!.
    + done.
    + by rewrite reverse_Permutation.
    + intros x. rewrite elem_of_reverse. split; [apply Hlt|]. intros Hx. rewrite Hlen in Hx.
      destruct (reachable_from_roots x Hx) as (r & Hr & Hrx). apply (Hreach r x Hr).
      eapply rtc_subrel; [|exact Hrx]. intros a b. apply schild_edge.
    + intros i x Hi. assert (Hsplit : post = reverse (drop (S i) (reverse post)) ++ x :: reverse (take i (reverse post))).
      { rewrite <- (reverse_involutive post) at 1. rewrite <- (take_drop_middle _ _ _ Hi) at 1.
        by rewrite reverse_app, reverse_cons, <- app_assoc. }
      destruct (Hsup _ _ _ Hsplit) as [?|(p & Hp & Hc)]; [by left|]. right.
      rewrite elem_of_reverse in Hp. apply list_elem_of_lookup in Hp as [j Hj]. apply lookup_take_Some in Hj as [Hj Hji].
      exists j, p. split_and!; [done|done|by apply schild_edge].
Qed.
End Graph.
