(* ===== verification/DomTheory.v ===== *)
(** The theory behind the Cooper-Harvey-Kennedy iteration, on an abstract graph:
    the table of immediate dominators as a tree that only moves up, its
    invariant under the update of one block in reverse postorder, and exactness
    at the fixpoint.  The argument does not need the order to come from a
    depth-first search, only that every block has a predecessor before it. *)

From stdpp Require Import relations.
From S2P Require Import Prelude.

Section Theory.
(** [V] is the virtual root, [bp x] the predecessors of the block [x] ([V] among
    those of a root), [order] the blocks in processing order, [pn] their numbers:
    higher is earlier. *)
Context (V : nat) (bp : nat -> list nat) (order : list nat) (pn : nat -> nat).

Record numbered : Prop := {
  nb_nodup : NoDup order;
  nb_root : V ∉ order;
  nb_inj : forall x y, x ∈ V :: order -> y ∈ V :: order -> pn x = pn y -> x = y;
  nb_before : forall i j x y, order !! i = Some x -> order !! j = Some y -> i < j -> pn y < pn x;
  nb_top : forall x, x ∈ order -> pn x < pn V;
  nb_closed : forall x u, x ∈ order -> u ∈ bp x -> u ∈ V :: order;
  nb_earlier : forall x, x ∈ order -> exists u, u ∈ bp x /\ pn x < pn u
}.
Context (Hnum : numbered).

(** ** Dominance *)

(** A path from the root, its last node first. *)
Inductive path : nat -> list nat -> Prop :=
| path_root : path V [V]
| path_step x u l : path u l -> x ∈ order -> u ∈ bp x -> path x (x :: l).

Definition dominated_by (x y : nat) : Prop := forall l, path x l -> y ∈ l.

(** An edge that follows the order. *)
Definition forward (u x : nat) : Prop := x ∈ order /\ u ∈ bp x /\ pn x < pn u.

Lemma forward_pn u x : rtc forward u x -> u = x \/ pn x < pn u.
Proof.
  induction 1 as [|u w x (_ & _ & Hlt) _ [<-|IH]]; [by left|by right|right; lia].
Qed.

(** Extending a path by forward edges meets only later nodes. *)
Lemma path_forward u x l y : rtc forward u x -> path u l -> pn u < pn y ->
  exists l', path x l' /\ (y ∈ l' -> y ∈ l).
Proof.
  intros Hr. revert l. induction Hr as [|u w x (Hw & Hu & Hlt) Hr IH]; intros l Hp Hy; [eauto|].
  destruct (IH (w :: l)) as (l' & Hp' & Hl'); [by eapply path_step|lia|].
  exists l'. split; [done|]. intros H%Hl'. apply elem_of_cons in H as [-> |]; [lia|done].
Qed.

Lemma dominated_root x : dominated_by x V.
Proof. intros l Hp. induction Hp; [by left|by right]. Qed.

Lemma dominated_self x : dominated_by x x.
Proof. intros l Hp. by inversion Hp; subst; left. Qed.

Lemma dominated_pred x u y : x ∈ order -> u ∈ bp x -> y <> x -> dominated_by x y -> dominated_by u y.
Proof.
  intros Hx Hu Hne Hd l Hp. specialize (Hd _ (path_step x u l Hp Hx Hu)).
  by apply elem_of_cons in Hd as [->|].
Qed.

(** ** The tree of a table *)

Section Tree.
Context (f : nat -> option nat).

Definition up (x d : nat) : Prop := x <> V /\ f x = Some d.
Definition anc : relation nat := rtc up.

(** Chains climb to the root. *)
Record climbs : Prop := {
  cl_root : f V = Some V;
  cl_up : forall x d, x <> V -> f x = Some d -> x ∈ order /\ pn x < pn d /\ f d <> None
}.
Context (Hcl : climbs).

Lemma climbs_node x : f x <> None -> x ∈ V :: order.
Proof.
  intros Hx. destruct (decide (x = V)) as [-> |Hne]; [by left|]. right.
  destruct (f x) as [d|] eqn:E; [|done]. by destruct (cl_up Hcl x d Hne E).
Qed.

Lemma anc_known x y : f x <> None -> anc x y -> f y <> None.
Proof.
  intros Hx Ha. induction Ha as [|x d y [Hne Hd] _ IH]; [done|]. apply IH. by destruct (cl_up Hcl x d Hne Hd) as (_ & _ & ?).
Qed.

Lemma anc_pn x y : anc x y -> x = y \/ pn x < pn y.
Proof.
  induction 1 as [|x d y [Hne Hd] _ IH]; [by left|]. right. destruct (cl_up Hcl x d Hne Hd) as (_ & Hlt & _).
  destruct IH as [<-|]; lia.
Qed.

Lemma anc_V y : anc V y -> y = V.
Proof. intros H. inversion H as [|? d ? [Hne _]]; by subst. Qed.

Lemma anc_step x d y : x <> V -> f x = Some d -> anc x y <-> y = x \/ anc d y.
Proof.
  intros Hne Hd. split.
  - intros H. inversion H as [|? d' ? [_ Hd'] Hr]; subst; [by left|]. rewrite Hd in Hd'. simplify_eq. by right.
  - intros [-> |H]; [constructor|]. by eapply rtc_l.
Qed.

(** Ancestors of one node are ordered. *)
Lemma anc_linear x y z : anc x y -> anc x z -> anc y z \/ anc z y.
Proof.
  intros Hy. revert z. induction Hy as [|x d y [Hne Hd] Hy IH]; intros z Hz; [by left|].
  apply (anc_step x d z Hne Hd) in Hz as [-> |Hz]; [right; by eapply rtc_l|by apply IH].
Qed.

Lemma anc_top x : f x <> None -> anc x V.
Proof.
  remember (pn V - pn x) as n eqn:Hn. revert x Hn.
  induction n as [n IH] using lt_wf_ind. intros x Hn Hx.
  destruct (decide (x = V)) as [-> |Hne]; [constructor|].
  destruct (f x) as [d|] eqn:Hd; [|done]. destruct (cl_up Hcl x d Hne Hd) as (Hin & Hlt & Hdk).
  pose proof (nb_top Hnum x Hin). eapply rtc_l; [by split|]. eapply IH; [|reflexivity|done].
  pose proof (climbs_node d Hdk) as [-> |Hd']%elem_of_cons; [lia|]. pose proof (nb_top Hnum d Hd'). lia.
Qed.

(** The node at or above [x] and [y]: nearest common ancestor. *)
Definition meet (x y z : nat) : Prop := forall w, anc z w <-> anc x w /\ anc y w.

Lemma meet_self x : meet x x x.
Proof. intros w. tauto. Qed.

Lemma meet_sym x y z : meet x y z -> meet y x z.
Proof. intros H w. rewrite (H w). tauto. Qed.

(** Moving the lower finger up keeps the common ancestors. *)
Lemma meet_up x d y z : x <> V -> f x = Some d -> f y <> None -> pn x < pn y -> meet d y z -> meet x y z.
Proof.
  intros Hne Hd Hy Hlt H w. rewrite (H w), (anc_step x d w Hne Hd). split; [tauto|]. intros [[-> |Hw] Hyw]; [|done].
  destruct (anc_pn y x Hyw); subst; lia.
Qed.

Lemma meet_known x y z : f x <> None -> meet x y z -> f z <> None.
Proof. intros Hx H. apply (anc_known x); [done|]. apply H. constructor. Qed.
End Tree.

#[local] Instance anc_preorder f : PreOrder (anc f).
Proof. unfold anc. apply _. Qed.

(** ** One update *)

Definition processed_preds (f : nat -> option nat) (x u : nat) : Prop := u ∈ bp x /\ f u <> None.

(** The nearest common ancestor of the processed predecessors. *)
Definition new_parent (f : nat -> option nat) (x d : nat) : Prop :=
  (exists u, processed_preds f x u)
  /\ forall w, anc f d w <-> forall u, processed_preds f x u -> anc f u w.

(** The state of the iteration with the first [k] blocks of the order updated in
    the current pass. *)
Record inv (f : nat -> option nat) (k : nat) : Prop := {
  in_climbs : climbs f;
  in_fresh : forall x, x ∈ take k order -> f x <> None;
  in_forward : forall x d u, x <> V -> f x = Some d -> forward u x -> rtc forward d u;
  in_frozen : forall x d u, x ∈ take k order -> f x = Some d -> forward u x -> anc f u d;
  in_below : forall x d y, x <> V -> f x = Some d ->
    (forall u, processed_preds f x u -> anc f u y) -> pn d <= pn y;
  in_dominators : forall x y, f x <> None -> dominated_by x y -> anc f x y
}.

Definition upd (f : nat -> option nat) (b d : nat) : nat -> option nat :=
  fun x => if decide (x = b) then Some d else f x.

Lemma anc_forward f k x y : inv f k -> anc f x y -> x = y \/ rtc forward y x.
Proof.
  intros Hinv Ha. induction Ha as [|x d y [Hne Hd] _ IH]; [by left|]. right.
  destruct (cl_up f (in_climbs _ _ Hinv) x d Hne Hd) as (Hin & _ & _).
  destruct (nb_earlier Hnum x Hin) as (u & Hu & Hlt).
  assert (Hdx : rtc forward d x).
  { eapply rtc_r; [by apply (in_forward _ _ Hinv x d u)|done]. }
  destruct IH as [-> |IH]; [done|]. by etrans.
Qed.

(** Going up the frozen part: ancestors of a frozen node reached from [d] by
    forward edges are ancestors of [d] or later than it. *)
Lemma frozen_climb f k d u y : inv f k -> rtc forward d u ->
  (forall x, pn u <= pn x -> x ∈ order -> x ∈ take k order) ->
  anc f u y -> anc f d y \/ (pn y < pn d).
Proof.
  intros Hinv Hr. revert y. apply rtc_nsteps in Hr as [n Hr].
  revert u Hr. induction n as [|n IH]; intros u Hr y Hfresh Hy.
  { inversion Hr; subst. by left. }
  apply nsteps_inv_r in Hr as (w & Hw & Hfw). destruct Hfw as (Hu & Hwu & Hlt).
  assert (Hut : u ∈ take k order) by (apply Hfresh; [lia|done]).
  destruct (f u) as [e|] eqn:He; [|by apply (in_fresh _ _ Hinv u) in Hut].
  assert (HuV : u <> V) by (intros ->; by apply (nb_root Hnum)).
  apply (anc_step f u e y HuV He) in Hy as [-> |Hy].
  - right. destruct (forward_pn d w) as [-> |]; [by eapply rtc_nsteps_2|done|lia].
  - apply (IH w Hw).
    + intros x Hx. apply Hfresh. lia.
    + etrans; [|exact Hy]. apply (in_frozen _ _ Hinv u e w); done.
Qed.

Section Update.
Context (f : nat -> option nat) (k b d' : nat).
Context (Hinv : inv f k) (Hb : order !! k = Some b) (Hnew : new_parent f b d').

Lemma b_in : b ∈ order. Proof. by eapply list_elem_of_lookup_2. Qed.
Lemma b_not_V : b <> V. Proof. intros E. apply (nb_root Hnum). rewrite <- E. apply b_in. Qed.

Lemma before_fresh x : x ∈ V :: order -> pn b < pn x -> x = V \/ x ∈ take k order.
Proof.
  intros [-> |Hx]%elem_of_cons Hlt; [by left|]. right. apply list_elem_of_lookup in Hx as [i Hi].
  assert (i < k).
  { destruct (Nat.lt_trichotomy i k) as [|[->|Hgt]]; [done|simplify_eq; lia|].
    pose proof (nb_before Hnum k i b x Hb Hi Hgt). lia. }
  apply (list_elem_of_lookup_2 _ i). by rewrite lookup_take_lt.
Qed.

Lemma forward_processed u : forward u b -> processed_preds f b u.
Proof.
  intros (Hbo & Hu & Hlt). split; [done|].
  destruct (before_fresh u) as [-> |Hf]; [by eapply nb_closed|done| |by apply (in_fresh _ _ Hinv)].
  by rewrite (cl_root f (in_climbs _ _ Hinv)).
Qed.

Lemma forward_pred : exists u, forward u b.
Proof. destruct (nb_earlier Hnum b b_in) as (u & Hu & Hlt). exists u. split; [apply b_in|done]. Qed.

Lemma new_anc u : processed_preds f b u -> anc f u d'.
Proof. intros Hu. apply (proj2 Hnew); [constructor|done]. Qed.

Lemma new_known : f d' <> None.
Proof. destruct (proj1 Hnew) as [u Hu]. eapply anc_known; [apply (in_climbs _ _ Hinv)| |by apply new_anc]. apply Hu. Qed.

Lemma new_above : pn b < pn d'.
Proof.
  destruct forward_pred as [u Hu]. pose proof (new_anc u (forward_processed u Hu)) as Ha.
  destruct Hu as (_ & _ & Hlt). destruct (anc_pn f (in_climbs _ _ Hinv) u d' Ha) as [<-|]; lia.
Qed.

Lemma new_forward u : forward u b -> rtc forward d' u.
Proof.
  intros Hu. destruct (anc_forward f k u d' Hinv (new_anc u (forward_processed u Hu))) as [-> |]; [constructor|done].
Qed.

(** The move goes up. *)
Lemma new_monotone d : f b = Some d -> anc f d d'.
Proof.
  intros Hd. destruct forward_pred as [u Hu].
  assert (Hle : pn d <= pn d').
  { apply (in_below _ _ Hinv b d d' b_not_V Hd). intros v Hv. by apply new_anc. }
  destruct (frozen_climb f k d u d' Hinv) as [|Hlt]; [|..|done|lia].
  - by apply (in_forward _ _ Hinv b d u b_not_V Hd).
  - intros x Hx Hxo. destruct Hu as (_ & _ & Hlt).
    destruct (before_fresh x) as [-> |]; [by right|lia|by apply (nb_root Hnum) in Hxo|done].
  - apply new_anc, forward_processed, Hu.
Qed.

Let f' := upd f b d'.

Lemma f'_b : f' b = Some d'. Proof. unfold f', upd. by rewrite decide_True. Qed.
Lemma f'_ne x : x <> b -> f' x = f x. Proof. intros H. unfold f', upd. by rewrite decide_False. Qed.
Lemma f'_known x : f x <> None -> f' x <> None.
Proof. intros H. destruct (decide (x = b)) as [-> |Hne]; [by rewrite f'_b|by rewrite f'_ne]. Qed.

Lemma f'_climbs : climbs f'.
Proof.
  pose proof (in_climbs _ _ Hinv) as Hcl. split.
  - rewrite f'_ne by (intros ->; by apply b_not_V). apply (cl_root f Hcl).
  - intros x d HxV. destruct (decide (x = b)) as [-> |Hne].
    + rewrite f'_b. intros [= <-]. split_and!; [apply b_in|apply new_above|apply f'_known, new_known].
    + rewrite f'_ne by done. intros Hd. destruct (cl_up f Hcl x d HxV Hd) as (? & ? & ?).
      split_and!; [done|done|by apply f'_known].
Qed.

(** Above [b] nothing moves. *)
Lemma anc_above x y : pn b < pn x -> anc f x y <-> anc f' x y.
Proof.
  intros Hlt. split; intros Ha.
  - induction Ha as [|x d y [Hne Hd] _ IH]; [constructor|].
    destruct (cl_up f (in_climbs _ _ Hinv) x d Hne Hd) as (_ & Hlt' & _).
    eapply rtc_l; [split; [done|]|apply IH; lia]. rewrite f'_ne; [done|]. intros ->. lia.
  - induction Ha as [|x d y [Hne Hd] _ IH]; [constructor|].
    destruct (cl_up f' f'_climbs x d Hne Hd) as (_ & Hlt' & _).
    rewrite f'_ne in Hd by (intros ->; lia). eapply rtc_l; [by split|apply IH; lia].
Qed.

Lemma anc_b y : anc f' b y <-> y = b \/ anc f d' y.
Proof. rewrite (anc_step f' b d' y b_not_V f'_b). by rewrite (anc_above d') by apply new_above. Qed.

(** Trees only lose ancestors. *)
Lemma anc_shrinks x y : f x <> None -> anc f' x y -> anc f x y.
Proof.
  intros Hx Ha. induction Ha as [|x d y [Hne Hd] _ IH]; [constructor|].
  destruct (decide (x = b)) as [-> |Hxb].
  - rewrite f'_b in Hd. injection Hd as <-. destruct (f b) as [e|] eqn:He; [|done].
    etrans; [eapply rtc_once; split; [done|exact He]|]. etrans; [by apply new_monotone|]. apply IH, new_known.
  - rewrite f'_ne in Hd by done. eapply rtc_l; [by split|]. apply IH.
    by destruct (cl_up f (in_climbs _ _ Hinv) x d Hne Hd) as (_ & _ & ?).
Qed.

Lemma anc_keeps x y : f x <> None -> anc f x y -> anc f' x y \/ (anc f x b /\ pn b < pn y).
Proof.
  intros Hx Ha. induction Ha as [|x d y [Hne Hd] Ha IH]; [left; constructor|].
  destruct (cl_up f (in_climbs _ _ Hinv) x d Hne Hd) as (Hin & Hlt & Hdk).
  destruct (decide (x = b)) as [-> |Hxb].
  - right. split; [constructor|]. destruct (anc_pn f (in_climbs _ _ Hinv) d y Ha) as [<-|]; lia.
  - destruct (IH Hdk) as [IH'|[IH' ?]].
    + left. eapply rtc_l; [split; [done|by rewrite f'_ne]|done].
    + right. split; [|done]. eapply rtc_l; [by split|done].
Qed.

Lemma update_inv : inv f' (S k).
Proof.
  pose proof (in_climbs _ _ Hinv) as Hcl.
  assert (Htake : take (S k) order = take k order ++ [b]) by (by apply take_S_r).
  assert (Hfreshb : forall x, x ∈ take k order -> pn b < pn x).
  { intros x Hx. apply list_elem_of_lookup in Hx as [i Hi]. apply lookup_take_Some in Hi as [Hi Hik].
    by apply (nb_before Hnum i k). }
  assert (Hdomb : forall y, dominated_by b y -> y <> b -> anc f d' y).
  { intros y Hy Hyb. apply (proj2 Hnew). intros u [Hu Huk]. apply (in_dominators _ _ Hinv); [done|].
    by apply (dominated_pred b u y b_in). }
  split.
  - apply f'_climbs.
  - intros x. rewrite Htake, elem_of_app, list_elem_of_singleton. intros [Hx| ->].
    + apply f'_known. by apply (in_fresh _ _ Hinv).
    + by rewrite f'_b.
  - intros x d u HxV Hd Hu. destruct (decide (x = b)) as [-> |Hne].
    + rewrite f'_b in Hd. injection Hd as <-. by apply new_forward.
    + rewrite f'_ne in Hd by done. by apply (in_forward _ _ Hinv x d u).
  - intros x d u. rewrite Htake, elem_of_app, list_elem_of_singleton. intros [Hx| ->] Hd Hu.
    + pose proof (Hfreshb x Hx) as Hlt. rewrite f'_ne in Hd by (intros ->; lia).
      apply anc_above; [destruct Hu as (_ & _ & ?); lia|]. by apply (in_frozen _ _ Hinv x d u).
    + rewrite f'_b in Hd. injection Hd as <-. apply anc_above; [by destruct Hu as (_ & _ & ?)|].
      by apply new_anc, forward_processed.
  - intros x d y HxV Hd Hall. destruct (decide (x = b)) as [-> |Hne].
    + rewrite f'_b in Hd. injection Hd as <-.
      assert (Ha : anc f d' y).
      { apply (proj2 Hnew). intros u [Hu Huk]. apply anc_shrinks; [done|]. apply Hall. split; [done|by apply f'_known]. }
      destruct (anc_pn f Hcl d' y Ha) as [<-|]; lia.
    + rewrite f'_ne in Hd by done. apply (in_below _ _ Hinv x d y HxV Hd). intros u [Hu Huk].
      apply anc_shrinks; [done|]. apply Hall. split; [done|by apply f'_known].
  - intros x y Hx Hy. destruct (decide (x = b)) as [-> |Hne].
    + apply anc_b. destruct (decide (y = b)); [by left|right]. by apply Hdomb.
    + rewrite f'_ne in Hx by done. pose proof (in_dominators _ _ Hinv x y Hx Hy) as Ha.
      destruct (anc_keeps x y Hx Ha) as [|[Hxb Hlt]]; [done|].
      (* [b] is above [x] and [y] above [b]: [y] dominates [b] *)
      assert (Hyb : dominated_by b y).
      { intros l Hl. destruct (anc_forward f k x b Hinv Hxb) as [-> |Hfw]; [by apply Hy|].
        destruct (path_forward b x l y Hfw Hl Hlt) as (l' & Hl' & Hback). by apply Hback, Hy. }
      assert (Hxb' : anc f' x b).
      { destruct (anc_keeps x b Hx Hxb) as [|[_ ?]]; [done|lia]. }
      etrans; [exact Hxb'|]. apply anc_b. right. apply Hdomb; [done|]. intros ->. lia.
Qed.
End Update.

(** ** The whole iteration *)

(** The invariant sees a table only through its entries. *)
Lemma anc_ext f f' x y : (forall z, f z = f' z) -> anc f x y -> anc f' x y.
Proof. intros Heq. apply rtc_subrel. intros a b [Hne Hb]. split; [done|]. by rewrite <- Heq. Qed.

Lemma processed_preds_ext f f' x u : (forall z, f z = f' z) -> processed_preds f x u -> processed_preds f' x u.
Proof. intros Heq [Hu Hk]. split; [done|]. by rewrite <- Heq. Qed.

Lemma inv_ext f f' k : (forall z, f z = f' z) -> inv f k -> inv f' k.
Proof.
  intros Heq [[H1 H1'] H2 H3 H4 H5 H6]. assert (Heq' : forall z, f' z = f z) by done. split.
  - split; [by rewrite Heq'|]. intros x d. rewrite !Heq'. apply H1'.
  - intros x. rewrite Heq'. apply H2.
  - intros x d u. rewrite Heq'. apply H3.
  - intros x d u. rewrite Heq'. intros Hx Hd Hu. eapply anc_ext; [exact Heq|]. by apply (H4 x).
  - intros x d y. rewrite Heq'. intros HxV Hd Hall. apply (H5 x d y HxV Hd). intros u Hu.
    eapply anc_ext; [exact Heq'|]. apply Hall. by eapply processed_preds_ext.
  - intros x y. rewrite Heq'. intros Hx Hy. eapply anc_ext; [exact Heq|]. by apply H6.
Qed.

Definition initial (x : nat) : option nat := if decide (x = V) then Some V else None.

Lemma inv_initial : inv initial 0.
Proof.
  assert (Hi : forall x d, x <> V -> initial x = Some d -> False).
  { intros x d Hne. unfold initial. by rewrite decide_False. }
  split.
  - split; [unfold initial; by rewrite decide_True|]. intros x d Hne Hd. by destruct (Hi x d).
  - by intros x ?%elem_of_nil.
  - intros x d u Hne Hd. by destruct (Hi x d).
  - by intros x d u ?%elem_of_nil.
  - intros x d y Hne Hd. by destruct (Hi x d).
  - intros x y Hx Hy. destruct (decide (x = V)) as [-> |Hne]; [|unfold initial in Hx; by rewrite decide_False in Hx].
    specialize (Hy _ path_root). apply list_elem_of_singleton in Hy as ->. constructor.
Qed.

Lemma inv_restart f k : inv f k -> inv f 0.
Proof. intros [H1 H2 H3 H4 H5 H6]. split; try done; by intros x ?%elem_of_nil || by intros x d u ?%elem_of_nil. Qed.

(** Past the end of the order, every block is updated. *)
Lemma inv_all f k : length order <= k -> inv f k -> inv f (length order).
Proof.
  intros Hk [H1 H2 H3 H4 H5 H6]. rewrite take_ge in H2, H4 by done.
  split; try done; rewrite take_ge by done; done.
Qed.

Definition gap (f : nat -> option nat) (x : nat) : nat :=
  match f x with Some d => pn V - pn d | None => S (pn V) end.
Definition measure (f : nat -> option nat) : nat := sum_list_with (gap f) order.

Lemma measure_ext f f' : (forall z, f z = f' z) -> measure f = measure f'.
Proof. intros Heq. unfold measure. induction order as [|x l IH]; [done|]. simpl. unfold gap at 1 3. by rewrite Heq, IH. Qed.

Lemma pn_le_top x : x ∈ V :: order -> pn x <= pn V.
Proof. intros [-> |Hx]%elem_of_cons; [done|]. pose proof (nb_top Hnum x Hx). lia. Qed.

Lemma gap_update f k b d' : inv f k -> order !! k = Some b -> new_parent f b d' -> f b <> Some d' ->
  gap (upd f b d') b < gap f b.
Proof.
  intros Hinv Hb Hnew Hne. unfold gap at 1, upd. rewrite decide_True by done. unfold gap.
  destruct (f b) as [d|] eqn:Hd; [|lia].
  pose proof (new_monotone f k b d' Hinv Hb Hnew d Hd) as Ha.
  destruct (anc_pn f (in_climbs _ _ Hinv) d d' Ha) as [-> |Hlt]; [done|].
  pose proof (pn_le_top d' (climbs_node f (in_climbs _ _ Hinv) d' (new_known f k b d' Hinv Hnew))). lia.
Qed.

Lemma measure_update f k b d' : inv f k -> order !! k = Some b -> new_parent f b d' -> f b <> Some d' ->
  measure (upd f b d') < measure f.
Proof.
  intros Hinv Hb Hnew Hne. pose proof (gap_update f k b d' Hinv Hb Hnew Hne) as Hgap.
  assert (Hother : forall x, x <> b -> gap (upd f b d') x = gap f x).
  { intros x Hx. unfold gap, upd. by rewrite decide_False. }
  unfold measure. apply list_elem_of_lookup_2 in Hb. revert Hb. generalize order as l.
  assert (Hle : forall l, sum_list_with (gap (upd f b d')) l <= sum_list_with (gap f) l).
  { induction l as [|x l IH]; simpl; [done|]. destruct (decide (x = b)) as [-> |Hx]; [lia|]. rewrite Hother by done. lia. }
  induction l as [|x l IH]; [by intros ?%elem_of_nil|]. intros [<- |Hin]%elem_of_cons; simpl.
  - specialize (Hle l). lia.
  - specialize (IH Hin). destruct (decide (x = b)) as [-> |Hx]; [lia|]. rewrite Hother by done. lia.
Qed.

(** A table no update changes. *)
Definition stable (f : nat -> option nat) : Prop :=
  forall b, b ∈ order -> exists d, f b = Some d /\ new_parent f b d.

Lemma stable_parent f k b d : inv f k -> stable f -> b ∈ order -> f b = Some d ->
  forall w, anc f d w <-> forall u, u ∈ bp b -> anc f u w.
Proof.
  intros Hinv Hst Hb Hd. destruct (Hst b Hb) as (d0 & Hd0 & Hnew). simplify_eq. intros w. rewrite (proj2 Hnew w).
  assert (Hk : forall u, u ∈ bp b -> f u <> None).
  { intros u Hu. apply (nb_closed Hnum b u Hb) in Hu as [-> |Hu]%elem_of_cons.
    - by rewrite (cl_root f (in_climbs _ _ Hinv)).
    - destruct (Hst u Hu) as (e & -> & _). done. }
  split; intros H u; [intros Hu; apply H; split; auto|intros [Hu _]; auto].
Qed.

(** At the fixpoint the tree is the dominator tree. *)
Lemma stable_exact f k x y : inv f k -> stable f -> x ∈ V :: order -> anc f x y <-> dominated_by x y.
Proof.
  intros Hinv Hst Hx. pose proof (in_climbs _ _ Hinv) as Hcl. split.
  - intros Ha l Hp. revert y Ha. induction Hp as [|x u l Hp IH Hxo Hu]; intros y Ha.
    + apply (anc_V f) in Ha as ->. by left.
    + destruct (Hst x Hxo) as (d & Hd & _).
      assert (HxV : x <> V) by (intros ->; by apply (nb_root Hnum)).
      destruct (proj1 (anc_step f x d y HxV Hd) Ha) as [-> |Hdy]; [by left|]. right. apply IH.
      * by eapply nb_closed.
      * by apply (proj1 (stable_parent f k x d Hinv Hst Hxo Hd y) Hdy).
  - intros Hy. apply (in_dominators _ _ Hinv); [|done]. apply elem_of_cons in Hx as [-> |Hx].
    + by rewrite (cl_root f Hcl).
    + by destruct (Hst x Hx) as (d & -> & _).
Qed.
End Theory.
