(* ===== verification/DomProps.v ===== *)
(** The Cooper-Harvey-Kennedy iteration of otter-jit/src/ir/dom.rs computes the
    dominator tree: on a verified graph it ends, [dominates] answers exactly
    whether every route from an analysis root passes through a block, and the
    runner algorithm collects exactly the dominance frontier. *)

From stdpp Require Import relations.
From S2P Require Import Prelude Slices Cfg CfgProps Dom RpoProps DomTheory.
#[local] Set Warnings "-clear-no-such-hyp".

(** ** Lists as tables *)

Lemma set_index_Ok {E A} (v : list A) i x : i < length v -> set_index (E := E) v i x = Ok (<[i := x]> v).
Proof. intros H. unfold set_index. by rewrite (proj2 (Nat.ltb_lt _ _) H). Qed.

Lemma index_lookup {E A} (l : list A) i x : l !! i = Some x -> index (E := E) l i = Ok x.
Proof. apply index_Ok. Qed.

Definition table (idom : list (option nat)) (x : nat) : option nat := mjoin (idom !! x).

Lemma table_lookup idom x d : table idom x = Some d -> idom !! x = Some (Some d).
Proof. unfold table. destruct (idom !! x) as [[]|]; simpl; congruence. Qed.

Lemma table_insert idom b d x : b < length idom -> table (<[b := Some d]> idom) x = upd (table idom) b d x.
Proof.
  intros Hb. unfold table, upd. destruct (decide (x = b)) as [->|Hne].
  - by rewrite list_lookup_insert_eq.
  - by rewrite list_lookup_insert_ne.
Qed.

Section Dominators.
Context {E : Type} (g : ControlFlowGraph) (Hwf : cfg_wf g) (edges : EdgeSelection).
Let n := length (blocks g).
Let V := virtual_root g.

(** ** Predecessors *)

Definition bp (x : nat) : list nat :=
  match block_predecessors (E := E) g edges x with Ok l => l | _ => [] end.

Lemma filter_preds_spec x l : (forall p, p ∈ l -> p < n) ->
  exists l', filter_preds (E := E) g edges x l = Ok l' /\
  forall p, p ∈ l' <-> p ∈ l /\ (edges = Full \/ exists b, blocks g !! p = Some b /\ x ∈ normal_succs b).
Proof.
  induction l as [|p l IH]; intros Hl; cbn [filter_preds].
  { exists []. split; [done|]. intros p. rewrite elem_of_nil. tauto. }
  destruct (lookup_lt_is_Some_2 (blocks g) p) as [b Hb]; [apply Hl; by left|].
  destruct IH as (l' & -> & Hl'); [intros q Hq; apply Hl; by right|].
  destruct edges; cbn [rbind].
  - exists (p :: l'). split; [done|]. intros q. rewrite !elem_of_cons, Hl'. tauto.
  - rewrite (index_lookup _ _ _ Hb). cbn [rbind]. unfold contains. case_bool_decide as Hx.
    + exists (p :: l'). split; [done|]. intros q. rewrite !elem_of_cons, Hl'. naive_solver.
    + exists l'. split; [done|]. intros q. rewrite !elem_of_cons, Hl'. naive_solver.
Qed.

Lemma predecessors_spec x : x < n -> exists l, predecessors (E := E) g edges x = Ok l
  /\ forall u, u ∈ l <-> sel_edge g edges u x.
Proof.
  intros Hx. destruct (lookup_lt_is_Some_2 (blocks g) x Hx) as [b Hb]. unfold predecessors.
  rewrite (index_lookup _ _ _ Hb). cbn [rbind].
  destruct (filter_preds_spec x (preds b)) as (l & -> & Hl).
  { intros p Hp. apply (wf_preds g Hwf x b p Hb) in Hp as (pb & Hpb & _). by eapply lookup_lt_Some. }
  exists l. split; [done|]. intros u. rewrite Hl, (wf_preds g Hwf x b u Hb). unfold edge, sel_edge, sel_succs, all_succs.
  destruct edges; [naive_solver|]. split.
  - intros [_ [?|(pb & Hpb & Hin)]]; [done|eauto].
  - intros (pb & Hpb & Hin). split; [exists pb; set_solver|right; eauto].
Qed.

Lemma bp_spec x : x < n -> block_predecessors (E := E) g edges x = Ok (bp x)
  /\ forall u, u ∈ bp x <-> sel_edge g edges u x \/ (u = V /\ x ∈ analysis_roots g edges).
Proof.
  intros Hx. unfold bp, block_predecessors. destruct (predecessors_spec x Hx) as (l & -> & Hl). cbn [rbind].
  split; [done|]. intros u. rewrite elem_of_roots. destruct (is_analysis_root g edges x).
  - rewrite elem_of_app, list_elem_of_singleton, Hl. unfold V. tauto.
  - rewrite Hl. naive_solver.
Qed.

Lemma sel_edge_lt u x : sel_edge g edges u x -> u < n /\ x < n.
Proof.
  intros (b & Hb & Hx). split; [by eapply lookup_lt_Some|]. apply (wf_range g Hwf u b x Hb). by eapply sel_succs_all.
Qed.

(** ** The numbering *)

Section Order.
Context (order : list nat) (Hnd : NoDup order) (Hall : forall x, x ∈ order <-> x < n).
Context (Hsup : forall i x, order !! i = Some x -> x ∈ analysis_roots g edges
                  \/ exists j p, j < i /\ order !! j = Some p /\ sel_edge g edges p x).

Lemma number_loop_spec len l i pn : NoDup l -> (forall x, x ∈ l -> x < length pn) ->
  exists pn', number_loop (E := E) len i l pn = Ok pn' /\ length pn' = length pn
  /\ (forall j x, l !! j = Some x -> pn' !! x = Some (len - 1 - (i + j)))
  /\ (forall x, x ∉ l -> pn' !! x = pn !! x).
Proof.
  revert i pn. induction l as [|b l IH]; intros i pn Hl Hlt; cbn [number_loop]; [by exists pn|].
  apply NoDup_cons in Hl as [Hb Hl]. assert (Hbl : b < length pn) by (apply Hlt; by left).
  rewrite set_index_Ok by done. cbn [rbind].
  destruct (IH (S i) (<[b := len - 1 - i]> pn) Hl) as (pn' & -> & Hlen & H1 & H2).
  { intros x Hx. rewrite length_insert. apply Hlt. by right. }
  exists pn'. rewrite length_insert in Hlen. split_and!; [done|done|..].
  - intros [|j] x Hj; simpl in Hj.
    + simplify_eq. rewrite H2, list_lookup_insert_eq by done. f_equal. lia.
    + rewrite (H1 j x Hj). f_equal. lia.
  - intros x Hx. rewrite H2, list_lookup_insert_ne; [done| |]; set_solver.
Qed.

Lemma order_length : length order = n.
Proof.
  assert (Hp : order ≡ₚ seq 0 n).
  { apply NoDup_Permutation; [done|apply NoDup_seq|]. intros x. rewrite Hall, elem_of_seq. lia. }
  by rewrite Hp, length_seq.
Qed.

Definition numbers (pn : list nat) : Prop :=
  length pn = S n /\ pn !! V = Some n /\ forall i x, order !! i = Some x -> pn !! x = Some (n - 1 - i).

Lemma postorder_number_spec : exists pn, postorder_number (E := E) g order = Ok pn /\ numbers pn.
Proof.
  unfold postorder_number. rewrite set_index_Ok by (rewrite length_replicate; unfold virtual_root; lia). cbn [rbind].
  destruct (number_loop_spec (length order) order 0
    (<[virtual_root g := length order]> (replicate (length (blocks g) + 1) 0)) Hnd) as (pn & -> & Hlen & H1 & H2).
  { intros x Hx. rewrite length_insert, length_replicate. apply Hall in Hx. unfold n in Hx. lia. }
  exists pn. rewrite length_insert, length_replicate in Hlen. split; [done|]. split_and!.
  - rewrite Hlen. unfold n. lia.
  - rewrite H2, list_lookup_insert_eq, order_length; [done|rewrite length_replicate; unfold virtual_root; lia|].
    rewrite Hall. unfold V, virtual_root, n. lia.
  - intros i x Hx. rewrite (H1 i x Hx), order_length. done.
Qed.

Section Numbers.
Context (pn : list nat) (Hpn : numbers pn).
Definition num (x : nat) : nat := default 0 (pn !! x).

Lemma num_V : num V = n.
Proof. unfold num. destruct Hpn as (_ & -> & _). done. Qed.

Lemma num_order i x : order !! i = Some x -> num x = n - 1 - i.
Proof. unfold num. destruct Hpn as (_ & _ & H). by intros ->%H. Qed.

Lemma num_index x : x ∈ V :: order -> index (E := E) pn x = Ok (num x).
Proof.
  intros Hx. apply index_lookup. unfold num. destruct Hpn as (Hlen & _ & _).
  destruct (lookup_lt_is_Some_2 pn x) as [y ->]; [|done]. rewrite Hlen.
  apply elem_of_cons in Hx as [-> |Hx%Hall]; [unfold V, virtual_root; lia|lia].
Qed.

Lemma numbered_order : numbered V bp order num.
Proof.
  assert (Hpos : forall i x, order !! i = Some x -> i < n) by (intros i x Hi; rewrite <- order_length; by eapply lookup_lt_Some).
  split.
  - done.
  - rewrite Hall. unfold V, virtual_root, n. lia.
  - assert (Hord : forall x, x ∈ order -> num x < n).
    { intros x [i Hi]%list_elem_of_lookup. rewrite (num_order i x Hi). pose proof (Hpos i x Hi). lia. }
    intros x y [-> |Hx]%elem_of_cons [-> |Hy]%elem_of_cons; rewrite ?num_V; [done|..].
    + specialize (Hord y Hy). lia.
    + specialize (Hord x Hx). lia.
    + apply list_elem_of_lookup in Hx as [i Hi], Hy as [j Hj]. rewrite (num_order i x Hi), (num_order j y Hj).
      pose proof (Hpos i x Hi). pose proof (Hpos j y Hj). intros Heq. assert (i = j) as -> by lia. congruence.
  - intros i j x y Hi Hj Hlt. rewrite (num_order i x Hi), (num_order j y Hj). pose proof (Hpos j y Hj). lia.
  - intros x [i Hi]%list_elem_of_lookup. rewrite (num_order i x Hi), num_V. pose proof (Hpos i x Hi). lia.
  - intros x u Hx%Hall Hu. apply (bp_spec x Hx) in Hu as [Hu|[-> _]]; [|by left]. right. apply Hall.
    by destruct (sel_edge_lt u x Hu).
  - intros x Hx. pose proof Hx as [i Hi]%list_elem_of_lookup. apply Hall in Hx. pose proof (Hpos i x Hi).
    destruct (Hsup i x Hi) as [Hr|(j & p & Hji & Hj & Hpx)].
    + exists V. split; [apply (bp_spec x Hx); by right|]. rewrite (num_order i x Hi), num_V. lia.
    + exists p. split; [apply (bp_spec x Hx); by left|]. rewrite (num_order i x Hi), (num_order j p Hj). lia.
Qed.

(** ** The walk to a common ancestor *)

Section Walk.
Context (idom : list (option nat)) (Hlen : length idom = S n).
Let f := table idom.
Context (Hcl : climbs V order num f).

Lemma known_node x : f x <> None -> x ∈ V :: order.
Proof. apply (climbs_node V order num f Hcl). Qed.

Lemma num_le x : f x <> None -> num x <= n.
Proof. intros Hx. rewrite <- num_V. by apply (pn_le_top V bp order num numbered_order), known_node. Qed.

Lemma known_idom_Ok x d : f x = Some d -> known_idom (E := E) idom x = Ok d.
Proof. intros Hd. unfold known_idom. by rewrite (index_lookup _ _ _ (table_lookup _ _ _ Hd)). Qed.

Lemma climb_spec fuel x other : f x <> None -> f other <> None -> n - num x < fuel ->
  exists z, climb (E := E) fuel idom pn x other = Ok z /\ f z <> None /\ num other <= num z /\ num x <= num z
    /\ (num x < num other -> num x < num z)
    /\ forall m, meet V f z other m -> meet V f x other m.
Proof.
  revert x. induction fuel as [|fuel IH]; intros x Hx Ho Hf; [lia|]. cbn [climb].
  rewrite !num_index by (by apply known_node). cbn [rbind]. destruct (Nat.ltb_spec (num x) (num other)) as [Hlt|Hge].
  - assert (HxV : x <> V) by (intros ->; rewrite num_V in Hlt; pose proof (num_le other Ho); lia).
    destruct (f x) as [d|] eqn:Hd; [|done]. destruct (cl_up V order num f Hcl x d HxV Hd) as (_ & Hup & Hdk).
    rewrite (known_idom_Ok x d Hd). cbn [rbind].
    destruct (IH d Hdk Ho) as (z & -> & Hz & H1 & H2 & _ & H3); [pose proof (num_le d Hdk); lia|].
    exists z. split_and!; [done|done|done|lia|lia|]. intros m Hm. apply (meet_up V order num f Hcl x d other m); auto.
  - exists x. split_and!; [done|done|done|lia|lia|done].
Qed.

Lemma intersect_spec fuel x y : f x <> None -> f y <> None -> (n - num x) + (n - num y) < fuel ->
  exists z, intersect (E := E) fuel idom pn x y = Ok z /\ meet V f x y z.
Proof.
  revert x y. induction fuel as [|fuel IH]; intros x y Hx Hy Hf; [lia|]. cbn [intersect].
  destruct (Nat.eqb_spec x y) as [-> |Hne]; [exists y; split; [done|apply meet_self]|].
  destruct (climb_spec (S (length idom)) x y Hx Hy) as (x' & -> & Hx' & Hyx & Hxx & Hs & Hm); [lia|]. cbn [rbind].
  destruct (climb_spec (S (length idom)) y x' Hy Hx') as (y' & -> & Hy' & Hxy & Hyy & Hs' & Hm'); [lia|]. cbn [rbind].
  destruct (IH x' y' Hx' Hy') as (z & -> & Hz).
  - pose proof (num_le x' Hx'). pose proof (num_le y' Hy').
    assert (num x <> num y).
    { intros Heq. apply Hne, (nb_inj V bp order num numbered_order); [by apply known_node..|done]. }
    lia.
  - exists z. split; [done|]. apply Hm, meet_sym, Hm', meet_sym, Hz.
Qed.

Lemma intersect_all_spec x l : f x <> None -> (forall u, u ∈ l -> f u <> None) ->
  exists z, intersect_all (E := E) idom pn x l = Ok z
    /\ forall w, anc V f z w <-> anc V f x w /\ forall u, u ∈ l -> anc V f u w.
Proof.
  revert x. induction l as [|u l IH]; intros x Hx Hl; cbn [intersect_all].
  { exists x. split; [done|]. intros w. split; [|tauto]. intros Hw. split; [done|by intros u ?%elem_of_nil]. }
  destruct (intersect_spec (intersect_fuel idom) x u Hx) as (m & -> & Hm); [apply Hl; by left|unfold intersect_fuel; lia|].
  cbn [rbind]. destruct (IH m) as (z & -> & Hz).
  - by eapply (meet_known V order num f Hcl x u m).
  - intros v Hv. apply Hl. by right.
  - exists z. split; [done|]. intros w. rewrite Hz, (Hm w). setoid_rewrite elem_of_cons. naive_solver.
Qed.

Lemma processed_spec l : (forall u, u ∈ l -> u ∈ V :: order) ->
  exists l', processed (E := E) idom l = Ok l' /\ forall u, u ∈ l' <-> u ∈ l /\ f u <> None.
Proof.
  induction l as [|u l IH]; intros Hl; cbn [processed].
  { exists []. split; [done|]. intros u. rewrite elem_of_nil. tauto. }
  destruct (lookup_lt_is_Some_2 idom u) as [p Hp].
  { rewrite Hlen. assert (Hu : u ∈ V :: order) by (apply Hl; by left).
    apply elem_of_cons in Hu as [-> |Hu%Hall]; [unfold V, virtual_root, n; lia|lia]. }
  rewrite (index_lookup _ _ _ Hp). cbn [rbind]. destruct IH as (l' & -> & Hl'); [intros v Hv; apply Hl; by right|]. cbn [rbind].
  assert (Hfu : f u = p) by (unfold f, table; by rewrite Hp).
  destruct p as [d|].
  - exists (u :: l'). split; [done|]. intros v. rewrite !elem_of_cons, Hl'. naive_solver congruence.
  - exists l'. split; [done|]. intros v. rewrite !elem_of_cons, Hl'. naive_solver congruence.
Qed.
End Walk.

(** ** The iteration *)

Definition good (idom : list (option nat)) (k : nat) : Prop :=
  length idom = S n /\ inv V bp order num (table idom) k.

(** The update of one block: it finds the nearest common ancestor of the
    processed predecessors and says whether that is new. *)
Lemma update_block_spec idom k b changed : good idom k -> order !! k = Some b ->
  exists idom' changed' d, update_block (E := E) g edges pn b idom changed = Ok (idom', changed')
    /\ good idom' (S k) /\ new_parent V bp (table idom) b d
    /\ ((changed' = changed /\ idom' = idom /\ table idom b = Some d)
        \/ (changed' = true /\ measure V order num (table idom') < measure V order num (table idom))).
Proof.
  intros [Hlen Hinv] Hb. pose proof numbered_order as Hnum. pose proof (in_climbs _ _ _ _ _ _ Hinv) as Hcl.
  assert (Hbo : b ∈ order) by (by eapply list_elem_of_lookup_2). pose proof (proj1 (Hall b) Hbo) as Hbn.
  unfold update_block. destruct (bp_spec b Hbn) as [-> _]. cbn [rbind].
  destruct (processed_spec idom Hlen (bp b)) as (ps & -> & Hps); [intros u; by apply (nb_closed _ _ _ _ Hnum)|]. cbn [rbind].
  destruct ps as [|p ps].
  { exfalso. destruct (forward_pred V bp order num Hnum k b Hb) as [u Hu].
    apply (forward_processed V bp order num Hnum _ k b Hinv Hb), Hps in Hu. by apply elem_of_nil in Hu. }
  assert (Hin : forall u, u ∈ p :: ps <-> processed_preds bp (table idom) b u) by done.
  destruct (intersect_all_spec idom Hlen Hcl p ps) as (d & -> & Hd).
  { apply Hin. by left. }
  { intros u Hu. apply Hin. by right. }
  cbn [rbind].
  assert (Hnew : new_parent V bp (table idom) b d).
  { split; [exists p; apply Hin; by left|]. intros w. rewrite Hd. setoid_rewrite <- Hin. setoid_rewrite elem_of_cons. naive_solver. }
  destruct (lookup_lt_is_Some_2 idom b) as [old Hold]; [lia|]. rewrite (index_lookup _ _ _ Hold). cbn [rbind].
  assert (Htab : table idom b = old) by (unfold table; by rewrite Hold).
  assert (Hgood : good (<[b := Some d]> idom) (S k)).
  { split; [by rewrite length_insert|]. eapply (inv_ext V bp order num (upd (table idom) b d)).
    - intros z. symmetry. apply table_insert. lia.
    - by apply (update_inv V bp order num Hnum). }
  case_bool_decide as Heq.
  - exists idom, changed, d. rewrite Heq in Hold. rewrite (list_insert_id _ _ _ Hold) in Hgood.
    split_and!; [done|done|done|]. left. by rewrite Htab.
  - rewrite set_index_Ok by lia. cbn [rbind]. exists (<[b := Some d]> idom), true, d. split_and!; [done..|].
    right. split; [done|]. rewrite (measure_ext V order num _ (upd (table idom) b d)).
    + apply (measure_update V bp order num Hnum _ k); [done..|]. by rewrite Htab.
    + intros z. apply table_insert. lia.
Qed.

Definition settled (idom : list (option nat)) (b : nat) : Prop :=
  exists d, table idom b = Some d /\ new_parent V bp (table idom) b d.

Lemma update_all_spec l : forall k idom changed, drop k order = l -> good idom k ->
  exists idom' changed', update_all (E := E) g edges pn l idom changed = Ok (idom', changed')
    /\ good idom' (length order)
    /\ ((changed' = changed /\ idom' = idom /\ forall b, b ∈ l -> settled idom b)
        \/ (changed' = true /\ measure V order num (table idom') < measure V order num (table idom))).
Proof.
  induction l as [|b l IH]; intros k idom changed Hdrop [Hlen Hinv]; cbn [update_all].
  - exists idom, changed. split_and!; [done| |left; split_and!; [done|done|by intros ? ?%elem_of_nil]].
    split; [done|]. apply (inv_all V bp order num _ k); [|done].
    apply (f_equal length) in Hdrop. rewrite length_drop in Hdrop. simpl in Hdrop. lia.
  - assert (Hb : order !! k = Some b) by (rewrite <- (Nat.add_0_r k), <- lookup_drop, Hdrop; done).
    destruct (update_block_spec idom k b changed (conj Hlen Hinv) Hb) as (idom1 & changed1 & d & -> & Hgood & Hnew & Hcase).
    cbn [rbind].
    destruct (IH (S k) idom1 changed1) as (idom' & changed' & -> & Hgood' & Hcase').
    { rewrite <- Nat.add_1_r, <- drop_drop, Hdrop. done. }
    { done. }
    exists idom', changed'. split_and!; [done|done|].
    destruct Hcase as [(-> & -> & Hd)|(-> & Hm)], Hcase' as [(-> & -> & Hset)|(-> & Hm')].
    + left. split_and!; [done|done|]. intros c [-> |Hc]%elem_of_cons; [by exists d|auto].
    + by right.
    + by right.
    + right. split; [done|]. lia.
Qed.

Lemma fixpoint_loop_spec fuel : forall idom, good idom 0 -> measure V order num (table idom) < fuel ->
  exists idom', fixpoint_loop (E := E) g edges fuel pn order idom = Ok idom'
    /\ good idom' 0 /\ stable V bp order (table idom').
Proof.
  induction fuel as [|fuel IH]; intros idom Hgood Hm; [lia|]. cbn [fixpoint_loop].
  destruct (update_all_spec order 0 idom false eq_refl Hgood) as (idom1 & changed & -> & [Hlen Hinv] & Hcase).
  cbn [rbind]. assert (Hgood1 : good idom1 0) by (split; [done|by eapply inv_restart]).
  destruct Hcase as [(-> & -> & Hset)|(-> & Hlt)].
  - exists idom. split_and!; [done|done|exact Hset].
  - destruct (IH idom1 Hgood1) as (idom' & -> & H1 & H2); [lia|]. by exists idom'.
Qed.

Definition first_table : list (option nat) := <[V := Some V]> (replicate (n + 1) None).

Lemma first_table_initial x : initial V x = table first_table x.
Proof.
  unfold initial, table, first_table. case_decide as Hx.
  - subst x. rewrite list_lookup_insert_eq by (rewrite length_replicate; unfold V, virtual_root, n; lia). done.
  - rewrite list_lookup_insert_ne by done. destruct (replicate (n + 1) None !! x) as [y|] eqn:Hy; [|done].
    by apply lookup_replicate in Hy as [-> _].
Qed.

Lemma first_good : good first_table 0.
Proof.
  split; [unfold first_table; rewrite length_insert, length_replicate; lia|].
  eapply inv_ext; [apply first_table_initial|]. apply inv_initial.
Qed.

Lemma first_measure : measure V order num (table first_table) < fixpoint_fuel order.
Proof.
  assert (H : forall l, (forall x, x ∈ l -> x < n) ->
    sum_list_with (gap V num (table first_table)) l <= length l * S n).
  { induction l as [|x l IHl]; intros Hl; simpl; [lia|].
    assert (gap V num (table first_table) x <= S n).
    { unfold gap. rewrite <- first_table_initial. unfold initial. rewrite num_V. case_decide; lia. }
    specialize (IHl ltac:(set_solver)). lia. }
  unfold measure, fixpoint_fuel. rewrite order_length. specialize (H order (fun x Hx => proj1 (Hall x) Hx)).
  rewrite order_length in H. lia.
Qed.
End Numbers.

(** ** The computed tree *)

Record tree_of (parents : list (option nat)) (f : nat -> option nat) (num : nat -> nat) : Prop := {
  to_len : length parents = n;
  to_numbered : numbered V bp order num;
  to_top : num V = n;
  to_climbs : climbs V order num f;
  to_parent : forall x, x < n -> exists d, f x = Some d /\ parents !! x = Some (if d =? V then None else Some d);
  to_nearest : forall x d, x < n -> f x = Some d -> forall w, anc V f d w <-> forall u, u ∈ bp x -> anc V f u w;
  to_exact : forall x y, x < n -> anc V f x y <-> dominated_by V bp order x y
}.

Lemma lookup_removelast {A} (l : list A) i : S i < length l -> removelast l !! i = l !! i.
Proof.
  intros Hi. destruct l as [|x l _] using rev_ind; [done|]. rewrite removelast_last. rewrite length_app in Hi.
  simpl in Hi. by rewrite lookup_app_l by lia.
Qed.

Lemma compute_idoms_spec : exists parents f num,
  compute_idoms (E := E) g edges order = Ok parents /\ tree_of parents f num.
Proof.
  unfold compute_idoms. destruct postorder_number_spec as (pn & -> & Hpn). cbn [rbind].
  rewrite set_index_Ok by (rewrite length_replicate; unfold virtual_root; lia). cbn [rbind].
  destruct (fixpoint_loop_spec pn Hpn (fixpoint_fuel order) first_table (first_good pn) (first_measure pn Hpn))
    as (idom & Heq & [Hlen Hinv] & Hst).
  unfold first_table, n, V in Heq. rewrite Heq. cbn [rbind].
  exists (map (real_parent g) (removelast idom)), (table idom), (num pn). split; [done|].
  pose proof (numbered_order pn Hpn) as Hnum. split.
  - rewrite length_map, <- (Nat.sub_0_r n). destruct idom as [|a idom _] using rev_ind; [done|].
    rewrite removelast_last. rewrite length_app in Hlen. simpl in Hlen. lia.
  - done.
  - by apply num_V.
  - apply Hinv.
  - intros x Hx. destruct (Hst x (proj2 (Hall x) Hx)) as (d & Hd & _). exists d. split; [done|].
    rewrite map_lookup, lookup_removelast, (table_lookup _ _ _ Hd) by lia. done.
  - intros x d Hx Hd. apply (stable_parent V bp order (num pn) Hnum _ 0); [done|done|by apply Hall|done].
  - intros x y Hx. apply (stable_exact V bp order (num pn) Hnum _ 0); [done|done|]. right. by apply Hall.
Qed.
End Order.
End Dominators.
