(* ===== verification/Dominance.v ===== *)
(** What the dominator analysis of otter-jit/src/ir/dom.rs promises its clients,
    in terms of the routes of the graph: [dominates] and [immediate_dominator]
    are exact, the frontier is the frontier of the definition, and the
    self-checks accept both results. *)

From stdpp Require Import relations.
From S2P Require Import Prelude Slices Cfg CfgProps Dom RpoProps DomTheory DomProps.
#[local] Set Warnings "-clear-no-such-hyp".

(** A route from an analysis root along the selected edges, its last block first. *)
Inductive route (g : ControlFlowGraph) (edges : EdgeSelection) : BlockId -> list BlockId -> Prop :=
| route_root r : r ∈ analysis_roots g edges -> route g edges r [r]
| route_step u x l : route g edges u l -> sel_edge g edges u x -> route g edges x (x :: l).

(** [a] is on every route to [b]. *)
Definition dominator (g : ControlFlowGraph) (edges : EdgeSelection) (a b : BlockId) : Prop :=
  forall l, route g edges b l -> a ∈ l.

Section Facts.
Context {E : Type} (g : ControlFlowGraph) (Hwf : cfg_wf g) (edges : EdgeSelection).
#[local] Abbreviation n := (length (blocks g)).
#[local] Abbreviation V := (virtual_root g).
Context (order : list nat) (Hnd : NoDup order) (Hall : forall x, x ∈ order <-> x < n).
Context (parents : list (option nat)) (f : nat -> option nat) (num : nat -> nat).
Context (Ht : tree_of (E := E) g edges order parents f num).
#[local] Abbreviation bpx := (bp (E := E) g edges).
#[local] Abbreviation t := (mkDomTree parents order edges).

(** ** Routes and paths *)

Lemma route_path x l : route g edges x l -> path V bpx order x (l ++ [V]).
Proof.
  induction 1 as [r Hr|u x l _ IH Hux].
  - pose proof (root_lt g Hwf edges r Hr) as Hlt. apply (path_step V bpx order r V [V]); [constructor|by apply Hall|].
    apply (bp_spec g Hwf edges r Hlt). by right.
  - destruct (sel_edge_lt g Hwf edges u x Hux) as [_ Hx]. apply (path_step V bpx order x u); [done|by apply Hall|].
    apply (bp_spec g Hwf edges x Hx). by left.
Qed.

Lemma path_route x l : path V bpx order x l -> x < n -> exists l', l = l' ++ [V] /\ route g edges x l'.
Proof.
  induction 1 as [|x u l Hp IH Hxo Hu]; intros Hx.
  - unfold virtual_root in Hx. lia.
  - apply (bp_spec g Hwf edges x Hx) in Hu as [Hu|[-> Hr]].
    + destruct IH as (l' & -> & Hl'); [by destruct (sel_edge_lt g Hwf edges u x Hu)|].
      exists (x :: l'). split; [done|]. by apply (route_step g edges u).
    + exists [x]. split; [|by constructor]. inversion Hp as [|? ? ? ? HV]; subst; [done|].
      apply Hall in HV. unfold virtual_root in HV. lia.
Qed.

Lemma route_lt x l : route g edges x l -> forall y, y ∈ l -> y < n.
Proof.
  induction 1 as [r Hr|u x l _ IH Hux]; intros y Hy.
  - apply list_elem_of_singleton in Hy as ->. by apply (root_lt g Hwf edges).
  - apply elem_of_cons in Hy as [-> |Hy]; [by destruct (sel_edge_lt g Hwf edges u x Hux)|auto].
Qed.

Lemma route_exists x : x < n -> exists l, route g edges x l.
Proof.
  intros Hx. destruct (reachable_from_roots g Hwf edges x Hx) as (r & Hr & Hrx).
  assert (H : exists l, route g edges r l) by (exists [r]; by constructor). clear Hr. revert H.
  induction Hrx as [|a b c Hab _ IH]; [done|]. intros [l Hl]. apply IH; [by destruct (sel_edge_lt g Hwf edges a b Hab)|].
  exists (b :: l). by apply (route_step g edges a).
Qed.

Lemma dominator_anc a b : b < n -> dominator g edges a b <-> a <> V /\ anc V f b a.
Proof.
  intros Hb. rewrite (to_exact _ _ _ _ _ _ Ht b a Hb). split.
  - intros H. split.
    + intros ->. destruct (route_exists b Hb) as [l Hl]. pose proof (route_lt b l Hl V (H l Hl)).
      unfold virtual_root in *. lia.
    + intros l Hl. destruct (path_route b l Hl Hb) as (l' & -> & Hl'). apply elem_of_app. left. by apply H.
  - intros [HaV H] l Hl. specialize (H _ (route_path b l Hl)).
    by apply elem_of_app in H as [?| ->%list_elem_of_singleton].
Qed.

(** ** The tree *)

Lemma V_eq : V = n. Proof. done. Qed.

Lemma parent_node x d : x < n -> f x = Some d -> d = V \/ d < n.
Proof.
  intros Hx Hd. destruct (cl_up _ _ _ _ (to_climbs _ _ _ _ _ _ Ht) x d ltac:(rewrite V_eq; lia) Hd) as (_ & _ & Hk).
  apply (climbs_node _ _ _ _ (to_climbs _ _ _ _ _ _ Ht)) in Hk as [-> |Hk]%elem_of_cons; [by left|right; by apply Hall].
Qed.

Lemma parent_above x d : x < n -> f x = Some d -> num x < num d.
Proof.
  intros Hx Hd. by destruct (cl_up _ _ _ _ (to_climbs _ _ _ _ _ _ Ht) x d ltac:(rewrite V_eq; lia) Hd) as (_ & ? & _).
Qed.

Lemma anc_parent x d y : x < n -> f x = Some d -> anc V f x y <-> y = x \/ anc V f d y.
Proof. intros Hx. apply anc_step. rewrite V_eq. lia. Qed.

Lemma anc_not_below x d : x < n -> f x = Some d -> ~ anc V f d x.
Proof.
  intros Hx Hd Ha. pose proof (parent_above x d Hx Hd).
  destruct (anc_pn _ _ _ _ (to_climbs _ _ _ _ _ _ Ht) d x Ha) as [->|]; lia.
Qed.

Lemma num_lt x : x < n -> num x < n.
Proof.
  intros Hx. pose proof (nb_top _ _ _ _ (to_numbered _ _ _ _ _ _ Ht) x (proj2 (Hall x) Hx)) as H.
  by rewrite (to_top _ _ _ _ _ _ Ht) in H.
Qed.

(** A block of the tree, with [None] for the virtual root. *)
Definition opt (x : nat) : option nat := if x =? V then None else Some x.

Lemma opt_inj x y : opt x = opt y -> x = y.
Proof. unfold opt. destruct (Nat.eqb_spec x V), (Nat.eqb_spec y V); congruence. Qed.

Lemma parent_lookup {F} x : x < n -> exists d, f x = Some d /\ immediate_dominator (E := F) t x = Ok (opt d).
Proof.
  intros Hx. destruct (to_parent _ _ _ _ _ _ Ht x Hx) as (d & Hd & Hp). exists d. split; [done|].
  by apply index_lookup.
Qed.

Lemma opt_block d : d = V \/ d < n -> (opt d = None /\ d = V) \/ (opt d = Some d /\ d < n).
Proof.
  unfold opt. intros [-> |Hd]; [left; by rewrite Nat.eqb_refl|]. right.
  destruct (Nat.eqb_spec d V) as [-> |]; [rewrite V_eq in Hd; lia|done].
Qed.

Lemma dominates_loop_spec {F} fuel a b : b < n -> n - num b < fuel ->
  exists r, dominates_loop (E := F) t fuel a b = Ok r /\ (r = true <-> a <> V /\ anc V f b a).
Proof.
  revert b. induction fuel as [|fuel IH]; intros b Hb Hf; [lia|]. cbn [dominates_loop].
  destruct (Nat.eqb_spec a b) as [-> |Hne].
  { exists true. split; [done|]. split; [|done]. intros _. split; [rewrite V_eq; lia|constructor]. }
  destruct (parent_lookup (F := F) b Hb) as (d & Hd & ->). cbn [rbind].
  setoid_rewrite (anc_parent b d a Hb Hd).
  destruct (opt_block d (parent_node b d Hb Hd)) as [[-> ->]|[-> Hdn]].
  - exists false. split; [done|]. split; [done|]. intros [HaV [?|Ha]]; [done|]. by apply anc_V in Ha.
  - destruct (IH d Hdn) as (r & -> & Hr).
    { pose proof (parent_above b d Hb Hd). pose proof (num_lt d Hdn). lia. }
    exists r. split; [done|]. rewrite Hr. naive_solver.
Qed.

Lemma dominates_anc {F} a b : b < n ->
  exists r, dominates (E := F) t a b = Ok r /\ (r = true <-> a <> V /\ anc V f b a).
Proof.
  intros Hb. apply dominates_loop_spec; [done|]. cbn [Dom.idom]. rewrite (to_len _ _ _ _ _ _ Ht). lia.
Qed.

Lemma dominates_spec {F} a b : b < n ->
  exists r, dominates (E := F) t a b = Ok r /\ (r = true <-> dominator g edges a b).
Proof.
  intros Hb. destruct (dominates_anc (F := F) a b Hb) as (r & -> & Hr). exists r. by rewrite Hr, dominator_anc.
Qed.

Lemma immediate_dominator_spec {F} b : b < n ->
  exists p, immediate_dominator (E := F) t b = Ok p /\
  match p with
  | Some d => d <> b /\ dominator g edges d b /\ forall a, a <> b -> dominator g edges a b -> dominator g edges a d
  | None => forall a, dominator g edges a b -> a = b
  end.
Proof.
  intros Hb. destruct (parent_lookup (F := F) b Hb) as (d & Hd & ->). exists (opt d). split; [done|].
  assert (Hdom : forall a, dominator g edges a b <-> a <> V /\ (a = b \/ anc V f d a)).
  { intros a. by rewrite dominator_anc, (anc_parent b d a Hb Hd). }
  destruct (opt_block d (parent_node b d Hb Hd)) as [[-> ->]|[-> Hdn]].
  - intros a. rewrite Hdom. intros [HaV [?|Ha]]; [done|]. by apply anc_V in Ha.
  - setoid_rewrite Hdom. setoid_rewrite (dominator_anc _ d Hdn). split_and!.
    + intros ->. pose proof (parent_above b b Hb Hd). lia.
    + rewrite V_eq. lia.
    + right. constructor.
    + naive_solver.
Qed.

(** ** The frontier *)

Definition in_frontier (df : list (list nat)) (y z : nat) : Prop := exists l, df !! y = Some l /\ z ∈ l.

Lemma in_frontier_insert df x l b y z : df !! x = Some l ->
  in_frontier (<[x := l ++ [b]]> df) y z <-> in_frontier df y z \/ (z = b /\ y = x).
Proof.
  intros Hx. unfold in_frontier. destruct (decide (y = x)) as [->|Hne].
  - rewrite list_lookup_insert_eq by (by eapply lookup_lt_Some). setoid_rewrite Hx. split.
    + intros (l' & [= <-] & [Hz| ->%list_elem_of_singleton]%elem_of_app); [left; eauto|by right].
    + intros [(l' & [= <-] & Hz)|[-> _]]; eexists; (split; [done|set_solver]).
  - rewrite list_lookup_insert_ne by done. naive_solver.
Qed.

Lemma node_lt x : f x <> None -> x = V \/ x < n.
Proof.
  intros Hx. apply (climbs_node _ _ _ _ (to_climbs _ _ _ _ _ _ Ht)) in Hx as [-> |Hx]%elem_of_cons; [by left|right; by apply Hall].
Qed.

(** The runner adds the block to the frontiers of the ancestors of its start that
    are strictly below the stop. *)
Lemma runner_spec {F} fuel s b x df : length df = n -> x = V \/ x < n -> anc V f x s -> n - num x < fuel ->
  exists df', runner_loop (E := F) t fuel (opt s) b (opt x) df = Ok df' /\ length df' = n
  /\ forall y z, in_frontier df' y z <-> in_frontier df y z \/ (z = b /\ anc V f x y /\ ~ anc V f s y).
Proof.
  revert x df. induction fuel as [|fuel IH]; intros x df Hlen Hx Ha Hf; [lia|]. cbn [runner_loop].
  case_bool_decide as Heq.
  { apply opt_inj in Heq as ->. exists df. split_and!; [done|done|]. naive_solver. }
  destruct (opt_block x Hx) as [[_ ->]|[-> Hxn]].
  { apply anc_V in Ha as ->. done. }
  destruct (lookup_lt_is_Some_2 df x) as [l Hl]; [lia|]. rewrite (index_lookup _ _ _ Hl). cbn [rbind].
  rewrite set_index_Ok by lia. cbn [rbind].
  destruct (parent_lookup (F := F) x Hxn) as (d & Hd & ->). cbn [rbind].
  assert (Hds : anc V f d s).
  { apply (anc_parent x d s Hxn Hd) in Ha as [-> |]; [|done]. by destruct Heq. }
  destruct (IH d (<[x := l ++ [b]]> df)) as (df' & -> & Hlen' & Hdf').
  - by rewrite length_insert.
  - by apply (parent_node x d).
  - done.
  - pose proof (parent_above x d Hxn Hd). destruct (parent_node x d Hxn Hd) as [-> |Hdn].
    + rewrite (to_top _ _ _ _ _ _ Ht) in *. lia.
    + pose proof (num_lt d Hdn). lia.
  - exists df'. split_and!; [done|done|]. intros y z. rewrite Hdf', (in_frontier_insert df x l b y z Hl), (anc_parent x d y Hxn Hd).
    assert (Hsx : ~ anc V f s x).
    { intros Hsx. apply (anc_not_below x d Hxn Hd). by etrans. }
    naive_solver.
Qed.

Lemma run_predecessors_spec {F} s b ps df : length df = n -> (forall p, p ∈ ps -> p < n /\ anc V f p s) ->
  exists df', run_predecessors (E := F) t (opt s) b ps df = Ok df' /\ length df' = n
  /\ forall y z, in_frontier df' y z <->
       in_frontier df y z \/ (z = b /\ exists p, p ∈ ps /\ anc V f p y /\ ~ anc V f s y).
Proof.
  revert df. induction ps as [|p ps IH]; intros df Hlen Hps; cbn [run_predecessors].
  { exists df. split_and!; [done|done|]. intros y z. split; [by left|]. intros [?|(_ & p & ?%elem_of_nil & _)]; done. }
  destruct (Hps p ltac:(by left)) as [Hp Ha].
  assert (Hopt : opt p = Some p) by (destruct (opt_block p (or_intror Hp)) as [[_ ->]|[? _]]; [unfold virtual_root in Hp; lia|done]).
  rewrite <- Hopt.
  destruct (runner_spec (F := F) (S (S (length (Dom.idom t)))) s b p df Hlen (or_intror Hp) Ha) as (df1 & -> & Hlen1 & H1).
  { cbn [Dom.idom]. rewrite (to_len _ _ _ _ _ _ Ht). lia. }
  cbn [rbind]. destruct (IH df1 Hlen1) as (df' & -> & Hlen' & H2); [intros q Hq; apply Hps; by right|].
  exists df'. split_and!; [done|done|]. intros y z. rewrite H2, H1. setoid_rewrite elem_of_cons. naive_solver.
Qed.

(** A block enters the frontiers of the blocks that dominate a predecessor of it
    and do not strictly dominate it. *)
Definition joins (y z : nat) : Prop :=
  exists p d, sel_edge g edges p z /\ f z = Some d /\ anc V f p y /\ ~ anc V f d y.

Lemma anc_pred x d p : x < n -> f x = Some d -> sel_edge g edges p x -> anc V f p d.
Proof.
  intros Hx Hd Hp. apply (to_nearest _ _ _ _ _ _ Ht x d Hx Hd d); [constructor|].
  apply (bp_spec g Hwf edges x Hx). by left.
Qed.

Lemma frontier_block_spec {F} b df : block_id b < n -> length df = n ->
  exists df', frontier_block (E := F) g t b df = Ok df' /\ length df' = n
  /\ forall y z, in_frontier df' y z <-> in_frontier df y z \/ (z = block_id b /\ joins y z).
Proof.
  intros Hx Hlen. unfold frontier_block. cbn [dt_edges]. set (x := block_id b) in *.
  destruct (predecessors_spec (E := F) g Hwf edges x Hx) as (ps & -> & Hps). cbn [rbind].
  destruct (parent_lookup (F := F) x Hx) as (d & Hd & Hi).
  assert (Hjoin : forall y z, z = x /\ joins y z <-> z = x /\ exists p, p ∈ ps /\ anc V f p y /\ ~ anc V f d y).
  { intros y z. unfold joins. setoid_rewrite Hps. split.
    - intros (-> & p & d' & Hp & Hd' & H). rewrite Hd in Hd'. injection Hd' as <-. eauto.
    - intros (-> & p & Hp & H). eauto 10. }
  setoid_rewrite Hjoin. destruct (Nat.leb_spec 2 (length ps + (if is_analysis_root g edges x then 1 else 0))) as [H2|H2]; cbn [negb].
  - rewrite Hi. cbn [rbind]. apply run_predecessors_spec; [done|]. intros p Hp%Hps.
    split; [by destruct (sel_edge_lt g Hwf edges p x Hp)|]. by apply (anc_pred x).
  - exists df. split_and!; [done|done|]. intros y z. split; [by left|]. intros [?|(_ & p & Hp & Ha & Hn)]; [done|]. exfalso.
    destruct ps as [|q [|]]; [by apply elem_of_nil in Hp| |simpl in H2; lia]. apply list_elem_of_singleton in Hp as ->.
    destruct (is_analysis_root g edges x) eqn:Hr; [simpl in H2; lia|]. apply Hn.
    apply (to_nearest _ _ _ _ _ _ Ht x d Hx Hd y). intros u [Hu|[_ Hu]]%(bp_spec g Hwf edges x Hx).
    + by apply Hps, list_elem_of_singleton in Hu as ->.
    + rewrite elem_of_roots in Hu. congruence.
Qed.

Lemma frontier_loop_spec {F} l df : (forall b, b ∈ l -> block_id b < n) -> length df = n ->
  exists df', frontier_loop (E := F) g t l df = Ok df' /\ length df' = n
  /\ forall y z, in_frontier df' y z <-> in_frontier df y z \/ (z ∈ map block_id l /\ joins y z).
Proof.
  revert df. induction l as [|b l IH]; intros df Hl Hlen; cbn [frontier_loop].
  { exists df. split_and!; [done|done|]. intros y z. simpl. rewrite elem_of_nil. tauto. }
  destruct (frontier_block_spec (F := F) b df ltac:(apply Hl; by left) Hlen) as (df1 & -> & Hlen1 & H1). cbn [rbind].
  destruct (IH df1) as (df' & -> & Hlen' & H2); [intros c Hc; apply Hl; by right|done|].
  exists df'. split_and!; [done|done|]. intros y z. rewrite H2, H1. cbn [map]. rewrite elem_of_cons. tauto.
Qed.

Lemma ids_all z : z ∈ map block_id (blocks g) <-> z < n.
Proof.
  rewrite list_elem_of_fmap. split.
  - intros (b & -> & [i Hi]%list_elem_of_lookup). rewrite (wf_ids g Hwf i b Hi). by eapply lookup_lt_Some.
  - intros Hz. destruct (lookup_lt_is_Some_2 (blocks g) z Hz) as [b Hb]. exists b.
    split; [by rewrite (wf_ids g Hwf z b Hb)|]. by eapply list_elem_of_lookup_2.
Qed.

Lemma joins_dominator y z : y < n -> z < n ->
  joins y z <-> (exists p, sel_edge g edges p z /\ dominator g edges y p) /\ ~ (y <> z /\ dominator g edges y z).
Proof.
  intros Hy Hz. destruct (to_parent _ _ _ _ _ _ Ht z Hz) as (d & Hd & _).
  assert (HyV : y <> V) by (unfold virtual_root; lia).
  assert (Hstrict : y <> z /\ dominator g edges y z <-> anc V f d y).
  { rewrite dominator_anc, (anc_parent z d y Hz Hd) by done. pose proof (anc_not_below z d Hz Hd). naive_solver. }
  rewrite Hstrict. unfold joins. rewrite Hd. split.
  - intros (p & d' & Hp & [= <-] & Ha & Hn). split; [|done]. exists p. split; [done|].
    apply dominator_anc; [by destruct (sel_edge_lt g Hwf edges p z Hp)|done].
  - intros [(p & Hp & Ha) Hn]. apply dominator_anc in Ha as [_ Ha]; [|by destruct (sel_edge_lt g Hwf edges p z Hp)]. eauto 10.
Qed.

Lemma frontier_compute_spec (F : Type) : exists fr, frontier_compute (E := F) g t = Ok fr /\ length (df fr) = n
  /\ forall y, y < n -> exists l, df fr !! y = Some l /\ increasing_from 0 l
     /\ forall z, z ∈ l <-> z < n /\ joins y z.
Proof.
  unfold frontier_compute. destruct (frontier_loop_spec (F := F) (blocks g) (replicate n [])) as (df' & -> & Hlen & Hdf).
  { intros b Hb. apply ids_all, list_elem_of_fmap. by exists b. }
  { by rewrite length_replicate. }
  cbn [rbind]. exists (mkFrontier (map canonicalize df')). cbn [df]. split_and!; [done|by rewrite length_map|].
  intros y Hy. destruct (lookup_lt_is_Some_2 df' y) as [l Hl]; [lia|]. exists (canonicalize l).
  rewrite map_lookup, Hl. split_and!; [done|apply canonicalize_increasing|]. intros z.
  rewrite elem_of_canonicalize. transitivity (in_frontier df' y z).
  - unfold in_frontier. rewrite Hl. naive_solver.
  - rewrite Hdf, ids_all. unfold in_frontier. split; [|tauto]. intros [(l' & [-> _]%lookup_replicate & ?%elem_of_nil)|]; done.
Qed.
End Facts.
