(* ===== verification/DomChecks.v ===== *)
(** The self-checks of otter-jit/src/ir/dom.rs, [DominatorTree::verify] and
    [DominanceFrontier::verify], accept the analysis of every verified graph; and
    the theorems on the analysis as a whole. *)

From stdpp Require Import relations.
From S2P Require Import Prelude Slices Cfg CfgProps Dom RpoProps DomTheory DomProps Dominance.
#[local] Set Warnings "-clear-no-such-hyp".

Lemma for_each_all {E A} (f : A -> res E unit) l : (forall x, x ∈ l -> f x = Ok tt) -> for_each f l = Ok tt.
Proof. intros H. apply for_each_Ok, Forall_forall, H. Qed.

Lemma and_iff_compat_l_impl (P Q R : Prop) : (P -> Q <-> R) -> (P /\ Q <-> P /\ R).
Proof. tauto. Qed.

Section Checks.
Context (g : ControlFlowGraph) (Hwf : cfg_wf g) (edges : EdgeSelection).
#[local] Abbreviation n := (length (blocks g)).
#[local] Abbreviation V := (virtual_root g).
Context (order : list nat) (Hnd : NoDup order) (Hall : forall x, x ∈ order <-> x < n).
Context (parents : list (option nat)) (f : nat -> option nat) (num : nat -> nat).
Context (Ht : tree_of (E := DomError) g edges order parents f num).
Context (Hrpo : reverse_postorder (E := DomError) g edges = Ok order).
Context (Hidoms : compute_idoms (E := DomError) g edges order = Ok parents).
#[local] Abbreviation t := (mkDomTree parents order edges).

Lemma parent_index x : x < n -> exists d, f x = Some d /\ (d = V \/ d < n)
  /\ index (E := DomError) parents x = Ok (opt g d).
Proof.
  intros Hx. destruct (parent_lookup g edges order parents f num Ht (F := DomError) x Hx) as (d & Hd & Hp).
  exists d. split_and!; [done| |exact Hp]. by eapply parent_node.
Qed.

(** Case analysis on the parent of a block. *)
Ltac parent x Hx d Hd Hdn :=
  let Hk := fresh in let Hi := fresh in
  destruct (parent_index x Hx) as (d & Hd & Hk & Hi); cbn [Dom.idom]; rewrite Hi; cbn [rbind];
  destruct (opt_block g d Hk) as [[-> ->]|[-> Hdn]].

Lemma check_parent_Ok x : x < n -> check_parent g t x = Ok tt.
Proof.
  intros Hx. unfold check_parent. parent x Hx d Hd Hdn; [done|].
  rewrite (proj2 (Nat.leb_gt _ _) Hdn). pose proof (parent_above g edges order parents f num Ht x d Hx Hd).
  destruct (Nat.eqb_spec d x) as [->|]; [lia|done].
Qed.

Lemma check_chain_Ok fuel start seen x : x < n -> length seen = n -> n - num x < fuel ->
  (forall y, seen !! y = Some true -> num y < num x) -> check_chain t fuel start seen x = Ok tt.
Proof.
  revert seen x. induction fuel as [|fuel IH]; intros seen x Hx Hlen Hf Hseen; [lia|]. cbn [check_chain].
  destruct (replace_true_Ok (E := DomError) seen x) as (old & Hold & ->); [lia|]. cbn [rbind].
  destruct old; [apply Hseen in Hold; lia|]. parent x Hx d Hd Hdn; [done|].
  pose proof (parent_above g edges order parents f num Ht x d Hx Hd).
  pose proof (num_lt g edges order Hall parents f num Ht d Hdn).
  apply IH; [done|by rewrite length_insert|lia|]. intros y Hy. apply insert_true_lookup in Hy as [->|Hy]; [done| |lia].
  apply Hseen in Hy. lia.
Qed.

Lemma position_loop_spec l i pos : NoDup l -> (forall x, x ∈ l -> x < length pos) ->
  exists pos', position_loop i l pos = Ok pos'
  /\ (forall j x, l !! j = Some x -> pos' !! x = Some (i + j)) /\ (forall x, x ∉ l -> pos' !! x = pos !! x).
Proof.
  revert i pos. induction l as [|b l IH]; intros i pos Hl Hlt; cbn [position_loop]; [by exists pos|].
  apply NoDup_cons in Hl as [Hb Hl]. rewrite set_index_Ok by (apply Hlt; by left). cbn [rbind].
  destruct (IH (S i) (<[b := i]> pos) Hl) as (pos' & -> & H1 & H2).
  { intros x Hx. rewrite length_insert. apply Hlt. by right. }
  exists pos'. split_and!; [done|..].
  - intros [|j] x Hj; simpl in Hj.
    + simplify_eq. rewrite H2, list_lookup_insert_eq by (done || apply Hlt; by left). f_equal. lia.
    + rewrite (H1 j x Hj). f_equal. lia.
  - intros x Hx. rewrite H2, list_lookup_insert_ne; [done| |]; set_solver.
Qed.

Lemma check_position_Ok pos x : (forall j y, order !! j = Some y -> pos !! y = Some j) -> x < n ->
  check_position t pos x = Ok tt.
Proof.
  intros Hpos Hx. unfold check_position. parent x Hx d Hd Hdn; [done|].
  apply Hall in Hx as Hi. apply Hall in Hdn as Hj. apply list_elem_of_lookup in Hi as [i Hi], Hj as [j Hj].
  rewrite !(index_lookup _ _ _ (Hpos _ _ Hi)), !(index_lookup _ _ _ (Hpos _ _ Hj)). cbn [rbind].
  destruct (Nat.leb_spec i j) as [Hij|]; [|done]. exfalso.
  pose proof (parent_above g edges order parents f num Ht x d Hx Hd) as Hlt.
  destruct (decide (i = j)) as [->|Hne]; [simplify_eq; lia|].
  pose proof (nb_before _ _ _ _ (to_numbered _ _ _ _ _ _ Ht) i j x d Hi Hj). lia.
Qed.

Lemma check_predecessors_Ok x : x < n -> check_predecessors g t x = Ok tt.
Proof.
  intros Hx. unfold check_predecessors. parent x Hx d Hd Hdn; [done|]. cbn [dt_edges].
  destruct (predecessors_spec (E := DomError) g Hwf edges x Hx) as (ps & -> & Hps). cbn [rbind].
  apply for_each_all. intros p Hp%Hps.
  destruct (dominates_anc g edges order Hall parents f num Ht (F := DomError) d p) as (r & -> & Hr).
  { by destruct (sel_edge_lt g Hwf edges p x Hp). }
  cbn [rbind]. assert (r = true) as ->; [|done]. apply Hr. split; [unfold virtual_root; lia|].
  by eapply (anc_pred g Hwf edges order parents f num Ht x d p).
Qed.

Lemma entry_parent_None : index (E := DomError) parents (entry g) = Ok None.
Proof.
  pose proof (wf_entry g Hwf) as He. destruct (parent_index (entry g) He) as (d & Hd & Hk & ->).
  assert (Ha : anc V f V d).
  { apply (to_nearest _ _ _ _ _ _ Ht (entry g) d He Hd d); [constructor|].
    apply (bp_spec g Hwf edges _ He). right. split; [done|apply entry_root]. }
  apply anc_V in Ha as ->. unfold opt. by rewrite Nat.eqb_refl.
Qed.

Lemma tree_verify_Ok : tree_verify g t = Ok tt.
Proof.
  unfold tree_verify. cbn [Dom.idom Dom.rpo dt_edges]. rewrite (to_len _ _ _ _ _ _ Ht), Nat.eqb_refl, Hrpo. cbn [negb rbind].
  rewrite bool_decide_eq_true_2, entry_parent_None by done. cbn [negb rbind].
  rewrite for_each_all by (intros x Hx%elem_of_seq; apply check_parent_Ok; lia). cbn [rbind].
  rewrite for_each_all; cycle 1.
  { intros x Hx%elem_of_seq. apply check_chain_Ok; [lia|by rewrite length_replicate|lia|].
    intros y [? _]%lookup_replicate. done. }
  cbn [rbind]. destruct (position_loop_spec order 0 (replicate n 0) Hnd) as (pos & -> & Hpos & _).
  { intros x Hx. rewrite length_replicate. by apply Hall. }
  cbn [rbind]. rewrite for_each_all by (intros x Hx%elem_of_seq; apply check_position_Ok; [done|lia]). cbn [rbind].
  rewrite for_each_all by (intros x Hx; by apply check_predecessors_Ok, Hall). cbn [rbind].
  rewrite Hidoms. cbn [rbind]. apply for_each_all. intros x Hx%Hall. unfold check_fixpoint.
  parent x Hx d Hd Hdn; [done|]. by rewrite Nat.eqb_refl.
Qed.

(** ** The frontier *)

Lemma dominates_any_spec y ps : (forall p, p ∈ ps -> p < n) ->
  exists r, dominates_any t y ps = Ok r /\ (r = true <-> exists p, p ∈ ps /\ y <> V /\ anc V f p y).
Proof.
  induction ps as [|p ps IH]; intros Hps; cbn [dominates_any].
  { exists false. split; [done|]. split; [done|]. by intros (p & ?%elem_of_nil & _). }
  destruct (dominates_anc g edges order Hall parents f num Ht (F := DomError) y p) as (d & -> & Hd); [apply Hps; by left|]. cbn [rbind].
  destruct IH as (r & Hr & Hspec); [intros q Hq; apply Hps; by right|]. setoid_rewrite elem_of_cons. destruct d.
  - exists true. split; [done|]. split; [|done]. intros _. exists p. split; [by left|by apply Hd].
  - exists r. split; [done|]. rewrite Hspec. split; [naive_solver|].
    intros (q & [-> |Hq] & Ha); [by apply Hd in Ha|eauto].
Qed.

(** The test of one candidate. *)
Lemma inside_spec y z (ps : list nat) r : y < n -> z < n -> (forall u, u ∈ ps <-> sel_edge g edges u z) ->
  (r = true <-> exists p, p ∈ ps /\ y <> V /\ anc V f p y) ->
  exists c, (if r : bool then let* s := strictly_dominates (E := DomError) t y z in Ok (negb s) else Ok false) = Ok c
    /\ (c = true <-> joins g edges f y z).
Proof.
  intros Hy Hz Hps Hr. setoid_rewrite (joins_dominator g Hwf edges order Hall parents f num Ht y z Hy Hz).
  assert (Hreach : r = true <-> exists p, sel_edge g edges p z /\ dominator g edges y p).
  { rewrite Hr. apply exist_proper. intros p. rewrite Hps. apply and_iff_compat_l_impl. intros Hp.
    symmetry. apply (dominator_anc g Hwf edges order Hall parents f num Ht y p). by destruct (sel_edge_lt g Hwf edges p z Hp). }
  destruct r; [|exists false; split; [done|]; split; [done|]; intros [H _]; by apply Hreach in H].
  unfold strictly_dominates. destruct (Nat.eqb_spec y z) as [->|Hne].
  - exists true. split; [done|]. naive_solver.
  - destruct (dominates_spec g Hwf edges order Hall parents f num Ht (F := DomError) y z Hz) as (s & -> & Hs). cbn [rbind].
    exists (negb s). split; [done|]. rewrite negb_true_iff. destruct s; naive_solver.
Qed.

Lemma frontier_definition_spec y l i : y < n -> (forall j b, l !! j = Some b -> block_id b = i + j) -> i + length l <= n ->
  exists r, frontier_definition g t y l = Ok r /\ increasing_from i r
  /\ forall z, z ∈ r <-> i <= z < i + length l /\ joins g edges f y z.
Proof.
  intros Hy. assert (HyV : y <> V) by (unfold virtual_root; lia).
  revert i. induction l as [|b l IH]; intros i Hids Hlen; cbn [frontier_definition].
  { exists []. split_and!; [done|done|]. intros z. rewrite elem_of_nil. simpl. lia. }
  simpl in Hlen. assert (Hb : block_id b = i) by (rewrite (Hids 0 b eq_refl); lia). cbn [dt_edges]. rewrite Hb.
  assert (Hi : i < n) by lia.
  destruct (predecessors_spec (E := DomError) g Hwf edges i Hi) as (ps & -> & Hps). cbn [rbind].
  destruct (dominates_any_spec y ps) as (r & -> & Hr).
  { intros p Hp%Hps. by destruct (sel_edge_lt g Hwf edges p i Hp). }
  cbn [rbind].
  destruct (IH (S i)) as (rest & Hrest & Hinc & Hz); [intros j c Hj; rewrite (Hids (S j) c Hj); lia|lia|].
  destruct (inside_spec y i ps r Hy Hi Hps Hr) as (c & -> & Hc). cbn [rbind]. rewrite Hrest. cbn [rbind].
  exists (if c then i :: rest else rest). split; [done|]. destruct c.
  - split; [split; [lia|done]|]. intros z. rewrite elem_of_cons, Hz. simpl. split.
    + intros [-> |[? ?]]; (split; [lia|]); [by apply Hc|done].
    + intros [? ?]. destruct (decide (z = i)); [by left|right; split; [lia|done]].
  - split; [apply (increasing_weaken i (S i)); [lia|done]|]. intros z. rewrite Hz. simpl. split; [intros [? ?]; split; [lia|done]|].
    intros [? Hj]. split; [|done]. destruct (decide (z = i)) as [->|]; [by apply Hc in Hj|lia].
Qed.

Lemma frontier_verify_Ok fr : length (df fr) = n ->
  (forall y, y < n -> exists l, df fr !! y = Some l /\ increasing_from 0 l
     /\ forall z, z ∈ l <-> z < n /\ joins g edges f y z) ->
  frontier_verify g t fr = Ok tt.
Proof.
  intros Hlen Hfr. unfold frontier_verify. rewrite Hlen, Nat.eqb_refl. cbn [negb].
  assert (Hshape : for_each_i (check_frontier_shape g) 0 (df fr) = Ok tt).
  { apply for_each_i_Ok. intros y l Hl. destruct (Hfr y) as (l' & Hl' & Hinc & Hz); [rewrite <- Hlen; by eapply lookup_lt_Some|].
    simplify_eq. unfold check_frontier_shape. rewrite for_each_all; cbn [rbind].
    - by rewrite (proj2 (canonical_increasing _) Hinc).
    - intros z [Hzn _]%Hz. by rewrite (proj2 (Nat.leb_gt _ _) Hzn). }
  rewrite Hshape. cbn [rbind]. apply for_each_all. intros y [_ Hy]%elem_of_seq. simpl in Hy.
  destruct (Hfr y Hy) as (l & Hl & Hinc & Hz).
  destruct (frontier_definition_spec y (blocks g) 0 Hy) as (r & Heq & Hinc' & Hr).
  { intros j b Hb. by rewrite (wf_ids g Hwf j b Hb). }
  { done. }
  unfold check_frontier_definition. rewrite Heq. cbn [rbind]. rewrite (index_lookup _ _ _ Hl). cbn [rbind].
  rewrite bool_decide_eq_true_2; [done|]. apply (increasing_ext 0); [done|done|]. intros z. rewrite Hz, Hr. simpl.
  split; (intros [? ?]; split; [lia|done]).
Qed.
End Checks.

(** ** The analysis *)

Section Analysis.
Context {E : Type} (g : ControlFlowGraph) (Hok : verify g = Ok tt) (edges : EdgeSelection).

Lemma compute_tree : exists order parents f num,
  compute_with_edges (E := E) g edges = Ok (mkDomTree parents order edges)
  /\ NoDup order /\ (forall x, x ∈ order <-> x < length (blocks g))
  /\ tree_of (E := E) g edges order parents f num
  /\ reverse_postorder (E := E) g edges = Ok order
  /\ compute_idoms (E := E) g edges order = Ok parents.
Proof.
  pose proof (verify_wf g Hok) as Hwf.
  destruct (reverse_postorder_spec (E := E) g Hwf edges) as (order & Hrpo & Hnd & Hall & Hsup).
  destruct (compute_idoms_spec (E := E) g Hwf edges order Hnd Hall Hsup) as (parents & f & num & Hidoms & Ht).
  exists order, parents, f, num. unfold compute_with_edges. rewrite Hrpo. cbn [rbind]. rewrite Hidoms. done.
Qed.
End Analysis.

(** C13: on every graph the verifier accepts, and for either choice of edges, the dominator
    analysis ends with a tree whose [dominates] answers exactly whether a block lies on every
    route from an analysis root, and whose immediate dominators are the nearest strict
    dominators ([None] exactly for blocks that only themselves dominate). *)
Theorem dominators_exact {E : Type} (g : ControlFlowGraph) (edges : EdgeSelection) :
  verify g = Ok tt ->
  exists t, compute_with_edges (E := E) g edges = Ok t
  /\ (forall a b, b < length (blocks g) ->
       exists r, dominates (E := E) t a b = Ok r /\ (r = true <-> dominator g edges a b))
  /\ (forall b, b < length (blocks g) ->
       exists p, immediate_dominator (E := E) t b = Ok p /\
       match p with
       | Some d => d <> b /\ dominator g edges d b
                   /\ forall a, a <> b -> dominator g edges a b -> dominator g edges a d
       | None => forall a, dominator g edges a b -> a = b
       end).
Proof.
  intros Hok. pose proof (verify_wf g Hok) as Hwf.
  destruct (compute_tree (E := E) g Hok edges) as (order & parents & f & num & Heq & Hnd & Hall & Ht & _).
  exists (mkDomTree parents order edges). split_and!; [done|..].
  - intros a b Hb. by eapply dominates_spec.
  - intros b Hb. by eapply immediate_dominator_spec.
Qed.

(** C35: the runner algorithm ends with exactly the dominance frontier: the frontier of [y] lists,
    in increasing order, the blocks with a predecessor that [y] dominates which [y] does not
    strictly dominate. *)
Theorem frontier_exact {E : Type} (g : ControlFlowGraph) (edges : EdgeSelection) :
  verify g = Ok tt ->
  exists t fr, compute_with_edges (E := E) g edges = Ok t /\ frontier_compute (E := E) g t = Ok fr
  /\ forall y, y < length (blocks g) -> exists l, df fr !! y = Some l /\ increasing_from 0 l
     /\ forall z, z ∈ l <-> z < length (blocks g)
          /\ (exists p, sel_edge g edges p z /\ dominator g edges y p) /\ ~ (y <> z /\ dominator g edges y z).
Proof.
  intros Hok. pose proof (verify_wf g Hok) as Hwf.
  destruct (compute_tree (E := E) g Hok edges) as (order & parents & f & num & Heq & Hnd & Hall & Ht & _).
  destruct (frontier_compute_spec (E := E) g Hwf edges order Hnd Hall parents f num Ht E) as (fr & Hfr & _ & Hspec).
  exists (mkDomTree parents order edges), fr. split_and!; [done|done|]. intros y Hy.
  destruct (Hspec y Hy) as (l & Hl & Hinc & Hz). exists l. split_and!; [done|done|]. intros z. rewrite Hz.
  apply and_iff_compat_l_impl. intros Hzn. by eapply joins_dominator.
Qed.

(** ** What the self-checks accept *)

Lemma list_eq_below {A} (l l' : list A) m : length l = m -> length l' = m ->
  (forall i x y, i < m -> l !! i = Some x -> l' !! i = Some y -> x = y) -> l = l'.
Proof.
  intros Hl Hl' H. apply list_eq_same_length with m; [lia|done|]. intros i x y Hi Hx Hy. by eapply H.
Qed.

Section Accept.
Context (g : ControlFlowGraph) (Hok : verify g = Ok tt).

Lemma tree_verify_only t : tree_verify g t = Ok tt -> compute_with_edges (E := DomError) g (dt_edges t) = Ok t.
Proof.
  intros H. destruct (compute_tree (E := DomError) g Hok (dt_edges t)) as (order & parents & f & num & -> & _ & Hall & Ht & Hrpo & Hidoms).
  unfold tree_verify in H. case_match eqn:Hlen; [done|]. apply negb_false_iff, Nat.eqb_eq in Hlen. inv_bind H. rewrite Hrpo in Hbind.
  injection Hbind as <-. case_bool_decide as Heq; [|done]. cbn [negb] in H. inv_bind H. case_match; [done|]. do 5 inv_bind H.
  inv_bind H. destruct t as [idom' rpo' edges']. cbn [Dom.idom Dom.rpo dt_edges] in *. subst rpo'.
  rewrite Hidoms in Hbind5. injection Hbind5 as <-. rewrite for_each_Ok, Forall_forall in H.
  f_equal. f_equal. apply (list_eq_below _ _ (length (blocks g))); [apply (to_len _ _ _ _ _ _ Ht)|done|].
  intros i x y Hi Hx Hy. specialize (H i (proj2 (Hall i) Hi)). unfold check_fixpoint in H. cbn [Dom.idom] in H.
  rewrite (index_lookup _ _ _ Hx), (index_lookup _ _ _ Hy) in H. cbn [rbind] in H.
  destruct x as [x'|], y as [y'|]; try done. by destruct (Nat.eqb_spec y' x') as [E|E]; [congruence|].
Qed.

Lemma frontier_verify_unique t fr fr' : frontier_verify g t fr = Ok tt -> frontier_verify g t fr' = Ok tt -> fr = fr'.
Proof.
  assert (Hspec : forall fr, frontier_verify g t fr = Ok tt -> length (df fr) = length (blocks g)
    /\ forall y, y < length (blocks g) -> check_frontier_definition g t fr y = Ok tt).
  { intros r H. unfold frontier_verify in H. case_match eqn:Hlen; [done|]. apply negb_false_iff, Nat.eqb_eq in Hlen.
    inv_bind H. split; [done|]. rewrite for_each_Ok, Forall_forall in H. intros y Hy. apply H, elem_of_seq. lia. }
  intros [Hl H]%Hspec [Hl' H']%Hspec. destruct fr as [d], fr' as [d']. cbn [df] in *. f_equal.
  apply (list_eq_below _ _ (length (blocks g))); [done|done|]. intros y l l' Hy Hd Hd'.
  specialize (H y Hy). specialize (H' y Hy). unfold check_frontier_definition in H, H'. cbn [df] in H, H'.
  rewrite (index_lookup _ _ _ Hd) in H. rewrite (index_lookup _ _ _ Hd') in H'. inv_bind H. inv_bind H'. cbn [rbind] in H, H'.
  rewrite Hbind in Hbind0. injection Hbind0 as <-. repeat case_bool_decide; simpl in *; congruence.
Qed.
End Accept.

(** On every verified graph the self-checks accept exactly the results of the analysis:
    [DominatorTree::verify] accepts a tree when it is the computed one and no other, and
    [DominanceFrontier::verify] likewise; on the computed results neither panics or loops. *)
Theorem dominance_checks_exact (g : ControlFlowGraph) (t : DominatorTree) (fr : DominanceFrontier) :
  verify g = Ok tt ->
  (tree_verify g t = Ok tt <-> compute_with_edges (E := DomError) g (dt_edges t) = Ok t)
  /\ (compute_with_edges (E := DomError) g (dt_edges t) = Ok t ->
      frontier_verify g t fr = Ok tt <-> frontier_compute (E := DomError) g t = Ok fr).
Proof.
  intros Hok. pose proof (verify_wf g Hok) as Hwf.
  destruct (compute_tree (E := DomError) g Hok (dt_edges t)) as (order & parents & f & num & Heq & Hnd & Hall & Ht & Hrpo & Hidoms).
  split.
  - split; [by apply tree_verify_only|]. rewrite Heq. intros [= <-]. by eapply tree_verify_Ok.
  - rewrite Heq. intros [= <-].
    destruct (frontier_compute_spec (E := DomError) g Hwf _ order Hnd Hall parents f num Ht DomError) as (fr0 & Hfr & Hlen & Hspec).
    assert (Hv : frontier_verify g (mkDomTree parents order (dt_edges t)) fr0 = Ok tt) by (by eapply frontier_verify_Ok).
    rewrite Hfr. split; [|by intros [= <-]]. intros H. f_equal. by eapply frontier_verify_unique.
Qed.

(** A loop with a handler: 0 -> 1, 1 -> 2 | 3, 2 -> 1, handler 3 of block 2. *)
Definition sample_cfg : ControlFlowGraph :=
  mkCfg [mkBlock 0 0 0 [0; 1]%Z Terminator.FallThrough [1] [] [] false;
         mkBlock 1 0 2 [2]%Z (Terminator.Branch 3 2) [2; 3] [] [0; 2] true;
         mkBlock 2 0 3 [3; 4]%Z Terminator.Jump [1] [3] [1] false;
         mkBlock 3 0 5 [5]%Z Terminator.Return [] [] [1; 2] false] 0 [0].

Lemma sample_verified : verify sample_cfg = Ok tt.
Proof. vm_compute. reflexivity. Qed.

Lemma dominators_exact_witness :
  exists t, compute_with_edges (E := DomError) sample_cfg Full = Ok t
  /\ exists r, dominates (E := DomError) t 1 3 = Ok r /\ (r = true <-> dominator sample_cfg Full 1 3).
Proof.
  destruct (dominators_exact (E := DomError) sample_cfg Full sample_verified) as (t & Ht & Hd & _).
  exists t. split; [exact Ht|]. apply Hd. simpl. lia.
Defined.

Lemma frontier_exact_witness :
  exists t fr, compute_with_edges (E := DomError) sample_cfg Normal = Ok t
  /\ frontier_compute (E := DomError) sample_cfg t = Ok fr.
Proof.
  destruct (frontier_exact (E := DomError) sample_cfg Normal sample_verified) as (t & fr & Ht & Hf & _).
  exists t, fr. split; assumption.
Defined.

Definition sample_tree : DominatorTree := mkDomTree [None; Some 0; Some 1; Some 1] [0; 1; 2; 3] Full.
Definition sample_frontier : DominanceFrontier := mkFrontier [[]; [1]; [1; 3]; []].

Lemma dominance_checks_exact_witness :
  tree_verify sample_cfg sample_tree = Ok tt /\ frontier_verify sample_cfg sample_tree sample_frontier = Ok tt.
Proof.
  destruct (dominance_checks_exact sample_cfg sample_tree sample_frontier sample_verified) as [[_ H1] H2].
  split; [apply H1|apply H2]; vm_compute; reflexivity.
Defined.
