(* ===== verification/Ssa.v ===== *)
(** Static single assignment form (otter-jit/src/ir/ssa.rs): its data, and
    [SsaFunction::verify], the check every constructed function passes before
    liveness and register allocation see it.  Registers and PCs are [Z], values
    and blocks are indices.  Construction by renaming is not modelled. *)

From S2P Require Import Prelude Opcode Cfg Dom.

Abbreviation ValueId := nat (only parsing).

Module ValueDef.
Inductive t : Type :=
| Param (register index : Z)
| Uninitialized (register : Z)
| InlineUndefinedReturn (block : BlockId)
| ExceptionInput (block : BlockId) (register : Z)
| InlineResult (block : BlockId) (register : Z) (inputs : list ValueId)
| Phi (block : BlockId) (register : Z) (inputs : list ValueId)
| OpResult (inline : InlineId) (pc : Z) (op : Op) (inputs : list ValueId).
End ValueDef.

Record ValueData : Type := mkValueData {
  value_id : ValueId;
  value_def : ValueDef.t;
  def_block : BlockId
}.

Record SsaInstr : Type := mkSsaInstr {
  instr_inline : InlineId;
  instr_pc : Z;
  instr_op : Op;
  inputs : list ValueId;
  input_registers : list Z;
  result : option ValueId;
  result_register : option Z
}.

Record SsaBlock : Type := mkSsaBlock {
  ssa_id : BlockId;
  phis : list ValueId;
  instrs : list SsaInstr
}.

Record SsaFrame : Type := mkSsaFrame {
  frame_register_count : Z;
  param_count : Z;
  this_value : option ValueId
}.

Record SsaFunction : Type := mkSsa {
  ssa_blocks : list SsaBlock;
  values : list ValueData;
  ssa_entry : BlockId;
  register_count : Z;
  frames : list SsaFrame
}.

(** The inputs of a merge: a phi or the result of a spliced call. *)
Definition merge_inputs (def : ValueDef.t) : option (list ValueId) :=
  match def with
  | ValueDef.Phi _ _ inputs | ValueDef.InlineResult _ _ inputs => Some inputs
  | _ => None
  end.

(** The register a block head defines ([head_register] of frame_state.rs). *)
Definition head_register (def : ValueDef.t) : option Z :=
  match def with
  | ValueDef.Param register _ | ValueDef.Uninitialized register | ValueDef.ExceptionInput _ register
  | ValueDef.InlineResult _ register _ | ValueDef.Phi _ register _ => Some register
  | ValueDef.InlineUndefinedReturn _ | ValueDef.OpResult _ _ _ _ => None
  end.

(** The errors [verify] reports (construction has more). *)
Module SsaError.
Inductive SsaError : Type :=
| RegisterOutOfRange (pc : option Z) (register register_count : Z)
| ValueIdOverflow
| BlockCountMismatch (expected actual : nat)
| BlockIdMismatch (expected actual : BlockId)
| EntryMismatch (expected actual : BlockId)
| NormalDominatorUsedForVerification
| InvalidFullDominator (e : DomError)
| DenseValueIdMismatch (expected actual : ValueId)
| ValueReferenceOutOfRange (value : ValueId)
| SingleAssignmentViolation (value : ValueId)
| MissingDefinitionSite (value : ValueId)
| DefinitionBlockMismatch (value : ValueId) (expected actual : BlockId)
| InvalidHeadDefinition (value : ValueId) (block : BlockId)
| OperationDefinitionMismatch (value : ValueId) (pc : Z)
| InstructionLayoutMismatch (block : BlockId)
| InputRegisterCountMismatch (pc : Z) (inputs registers : nat)
| ResultRegisterMismatch (pc : Z)
| PhiInputCountMismatch (value : ValueId) (expected actual : nat)
| PhiWithoutNormalJoin (value : ValueId) (block : BlockId)
| PhiAtExceptionHandler (value : ValueId) (block : BlockId)
| MissingExceptionInput (block : BlockId) (register : Z)
| DuplicateExceptionInput (block : BlockId) (register : Z)
| UnexpectedExceptionInput (value : ValueId) (block : BlockId)
| MissingEntryInput (register : Z)
| DuplicateEntryInput (register : Z)
| ParameterIndexMismatch (value : ValueId) (register index : Z)
| UseDefinitionDoesNotDominate (block : BlockId) (value : ValueId)
| UseBeforeDefinition (block : BlockId) (pc : Z) (value : ValueId)
| PhiInputDoesNotDominatePredecessor (phi input : ValueId) (predecessor : BlockId)
| NonDeterministicValueOrder (expected actual : ValueId)
| NonCanonicalHeadOrder (block : BlockId).
End SsaError.
Export SsaError (SsaError).

Inductive DefinitionPosition : Type := Head | Instruction (index : nat).

(** The tables the pass over the blocks fills. *)
Record SsaTables : Type := mkTables {
  placements : list (option DefinitionPosition);
  entry_inputs : list (list bool);
  handler_inputs : list (list bool)
}.

Definition includes_exception_edges (t : DominatorTree) : bool := bool_decide (dt_edges t = Full).

(** [normal_predecessors]: the same filter as the dominator analysis on normal edges. *)
Definition normal_predecessors {E} (g : ControlFlowGraph) (block : BlockId) : res E (list BlockId) :=
  predecessors g Normal block.

Fixpoint mark_all {E} (l : list BlockId) (handlers : list bool) : res E (list bool) :=
  match l with
  | [] => Ok handlers
  | handler :: l =>
      let* handlers := set_index handlers handler true in
      mark_all l handlers
  end.

Definition exception_handlers {E} (g : ControlFlowGraph) : res E (list bool) :=
  mark_all (flat_map exception_succs (blocks g)) (replicate (length (blocks g)) false).

Definition check_register (pc : option Z) (register count : Z) : res SsaError unit :=
  if (count <=? register)%Z then Err (SsaError.RegisterOutOfRange pc register count) else Ok tt.

Definition record_placement (table : list (option DefinitionPosition)) (value : ValueId)
    (position : DefinitionPosition) : res SsaError (list (option DefinitionPosition)) :=
  match table !! value with
  | None => Err (SsaError.ValueReferenceOutOfRange value)
  | Some (Some _) => Err (SsaError.SingleAssignmentViolation value)
  | Some None => Ok (<[value := Some position]> table)
  end.

(** [seen[usize::from(register)]] after the range check, with the error of a repeat. *)
Definition mark_input (seen : list bool) (register count : Z) (duplicate : SsaError)
    : res SsaError (list bool) :=
  let* _ := check_register None register count in
  let* (old, seen) := replace_true seen (Z.to_nat register) in
  if old : bool then Err duplicate else Ok seen.

Definition mark_entry_input (seen : list bool) (register count : Z) : res SsaError (list bool) :=
  mark_input seen register count (SsaError.DuplicateEntryInput register).

Definition mark_handler_input (seen : list bool) (block : BlockId) (register count : Z)
    : res SsaError (list bool) :=
  mark_input seen register count (SsaError.DuplicateExceptionInput block register).

(** Rust compares the head keys lexicographically. *)
Definition key_le (a b : Z * Z) : bool :=
  ((a.1 <? b.1) || ((a.1 =? b.1) && (a.2 <=? b.2)))%Z.

Section Verify.
Context (ssa : SsaFunction) (g : ControlFlowGraph).

Definition ssa_value (id : ValueId) : res SsaError ValueData :=
  match values ssa !! id with
  | Some v => Ok v
  | None => Err (SsaError.ValueReferenceOutOfRange id)
  end.

Definition frame_registers {E} (inline : InlineId) : res E Z :=
  let* f := index (frames ssa) inline in Ok (frame_register_count f).

Definition is_inline_return (b : Block) : bool :=
  match terminator b with Terminator.InlineReturn _ => true | _ => false end.

Fixpoint all_inline_return {E} (l : list BlockId) : res E bool :=
  match l with
  | [] => Ok true
  | p :: l =>
      let* b := index (blocks g) p in
      if is_inline_return b then all_inline_return l else Ok false
  end.

(** The update of one row of a table of tables. *)
Definition update_row {E} (table : list (list bool)) (i : nat) (f : list bool -> res E (list bool))
    : res E (list (list bool)) :=
  let* row := index table i in
  let* row := f row in
  Ok (<[i := row]> table).

Section Block.
Context (handlers : list bool) (block_index : nat) (block_id : BlockId) (inline : InlineId)
  (registers : Z) (frame_entry : BlockId) (npreds : list BlockId).

(** One value of a block head: its category and register, and the tables. *)
Definition verify_head_def (value : ValueId) (def : ValueDef.t) (tb : SsaTables)
    : res SsaError (SsaTables * (Z * Z)) :=
  let invalid := Err (SsaError.InvalidHeadDefinition value block_id) in
  let entry_input register :=
    let* e := update_row (entry_inputs tb) inline (fun seen => mark_entry_input seen register registers) in
    Ok (mkTables (placements tb) e (handler_inputs tb), (1%Z, register)) in
  match def with
  | ValueDef.Param register index =>
      if block_id =? ssa_entry ssa then
        if negb (index =? register)%Z then Err (SsaError.ParameterIndexMismatch value register index)
        else entry_input register
      else invalid
  | ValueDef.Uninitialized register =>
      if block_id =? frame_entry then entry_input register else invalid
  | ValueDef.InlineUndefinedReturn owner =>
      if (owner =? block_id) && (block_id =? frame_entry) && negb (inline =? INLINE_ROOT)
      then Ok (tb, (0%Z, 0%Z)) else invalid
  | ValueDef.ExceptionInput owner register =>
      let unexpected := Err (SsaError.UnexpectedExceptionInput value block_id) in
      if owner =? block_id then
        let* handler := index handlers block_index in
        if handler : bool then
          let* h := update_row (handler_inputs tb) block_index
                      (fun seen => mark_handler_input seen block_id register registers) in
          Ok (mkTables (placements tb) (entry_inputs tb) h, (1%Z, register))
        else unexpected
      else unexpected
  | ValueDef.Phi owner register inputs =>
      if owner =? block_id then
        let* handler := index handlers block_index in
        if handler : bool then Err (SsaError.PhiAtExceptionHandler value block_id)
        else if length npreds <? 2 then Err (SsaError.PhiWithoutNormalJoin value block_id)
        else if negb (length inputs =? length npreds)
        then Err (SsaError.PhiInputCountMismatch value (length npreds) (length inputs))
        else Ok (tb, (2%Z, register))
      else invalid
  | ValueDef.InlineResult owner register inputs =>
      if owner =? block_id then
        if negb (length inputs =? length npreds)
        then Err (SsaError.PhiInputCountMismatch value (length npreds) (length inputs))
        else
          let* all := all_inline_return npreds in
          if all : bool then Ok (tb, (1%Z, register)) else invalid
      else invalid
  | ValueDef.OpResult _ _ _ _ => invalid
  end.

Definition check_def_block (value : ValueId) (data : ValueData) : res SsaError unit :=
  if negb (def_block data =? block_id)
  then Err (SsaError.DefinitionBlockMismatch value block_id (def_block data)) else Ok tt.

Fixpoint verify_heads (previous : option (Z * Z)) (l : list ValueId) (tb : SsaTables)
    : res SsaError SsaTables :=
  match l with
  | [] => Ok tb
  | value :: l =>
      let* data := ssa_value value in
      let* p := record_placement (placements tb) value Head in
      let* _ := check_def_block value data in
      let* (tb, key) := verify_head_def value (value_def data) (mkTables p (entry_inputs tb) (handler_inputs tb)) in
      let* _ := check_register None key.2 registers in
      if match previous with Some previous => key_le key previous | None => false end
      then Err (SsaError.NonCanonicalHeadOrder block_id)
      else verify_heads (Some key) l tb
  end.

Definition synthetic_this {E} (i : SsaInstr) : res E bool :=
  if bool_decide (instr_op i = Op.LoadThis) && negb (instr_inline i =? INLINE_ROOT)
     && bool_decide (input_registers i = []) then
    let* f := index (frames ssa) (instr_inline i) in
    Ok match this_value f with Some v => bool_decide (inputs i = [v]) | None => false end
  else Ok false.

Definition matches_instr (i : SsaInstr) (def : ValueDef.t) : bool :=
  match def with
  | ValueDef.OpResult inline pc op ins =>
      (inline =? instr_inline i) && (pc =? instr_pc i)%Z && bool_decide (op = instr_op i)
      && bool_decide (ins = inputs i)
  | _ => false
  end.

Definition verify_result (k : nat) (i : SsaInstr) (p : list (option DefinitionPosition))
    : res SsaError (list (option DefinitionPosition)) :=
  match result i with
  | None => Ok p
  | Some value =>
      let* data := ssa_value value in
      let* p := record_placement p value (Instruction k) in
      let* _ := check_def_block value data in
      if matches_instr i (value_def data) then Ok p
      else Err (SsaError.OperationDefinitionMismatch value (instr_pc i))
  end.

Fixpoint verify_instrs (k : nat) (l : list SsaInstr) (p : list (option DefinitionPosition))
    : res SsaError (list (option DefinitionPosition)) :=
  match l with
  | [] => Ok p
  | i :: l =>
      let* synthetic := synthetic_this i in
      if negb synthetic && negb (length (input_registers i) =? length (inputs i))
      then Err (SsaError.InputRegisterCountMismatch (instr_pc i) (length (inputs i)) (length (input_registers i)))
      else
        let* _ := for_each (fun r => check_register (Some (instr_pc i)) r (register_count ssa)) (input_registers i) in
        if xorb (bool_decide (is_Some (result i))) (bool_decide (is_Some (result_register i)))
        then Err (SsaError.ResultRegisterMismatch (instr_pc i))
        else
          let* _ := match result_register i with
                    | Some r => check_register (Some (instr_pc i)) r (register_count ssa)
                    | None => Ok tt
                    end in
          let* p := verify_result k i p in
          verify_instrs (S k) l p
  end.
End Block.

Definition verify_block (handlers : list bool) (block_index : nat) (b : SsaBlock) (tb : SsaTables)
    : res SsaError SsaTables :=
  let* cb := index (blocks g) block_index in
  let inline := block_inline cb in
  let* registers := frame_registers inline in
  let* frame_entry := index (frame_entries g) inline in
  let* npreds := normal_predecessors g (ssa_id b) in
  let* tb := verify_heads handlers block_index (ssa_id b) inline registers frame_entry npreds None (phis b) tb in
  if negb (bool_decide (map instr_pc (instrs b) = instr_pcs cb))
  then Err (SsaError.InstructionLayoutMismatch (ssa_id b))
  else
    let* p := verify_instrs (ssa_id b) 0 (instrs b) (placements tb) in
    Ok (mkTables p (entry_inputs tb) (handler_inputs tb)).

Fixpoint verify_blocks (handlers : list bool) (block_index : nat) (l : list SsaBlock) (tb : SsaTables)
    : res SsaError SsaTables :=
  match l with
  | [] => Ok tb
  | b :: l =>
      let* tb := verify_block handlers block_index b tb in
      verify_blocks handlers (S block_index) l tb
  end.

(** The registers [lo..hi] are all marked in a row. *)
Definition check_marked (row : list bool) (lo hi : Z) (missing : Z -> SsaError) : res SsaError unit :=
  for_each (fun k => let register := (lo + Z.of_nat k)%Z in
                     let* m := index row (Z.to_nat register) in
                     if m : bool then Ok tt else Err (missing register))
           (seq 0 (Z.to_nat (hi - lo))).

Definition verify_frame (handlers : list bool) (tb : SsaTables) (i : nat) (f : SsaFrame) : res SsaError unit :=
  let* e := index (frame_entries g) i in
  let* handler := index handlers e in
  if handler : bool then Ok tt
  else
    let aliased := if i =? INLINE_ROOT then 0%Z else param_count f in
    if (frame_register_count f <=? aliased)%Z then Ok tt
    else
      let* row := index (entry_inputs tb) i in
      check_marked row aliased (frame_register_count f) SsaError.MissingEntryInput.

Definition verify_handler (tb : SsaTables) (block_index : nat) (handler : bool) : res SsaError unit :=
  if handler then
    let* cb := index (blocks g) block_index in
    let* registers := frame_registers (block_inline cb) in
    if (registers <=? 0)%Z then Ok tt
    else
      let* row := index (handler_inputs tb) block_index in
      check_marked row 0 registers (SsaError.MissingExceptionInput block_index)
  else Ok tt.

Section Uses.
Context (t : DominatorTree) (placed : list (option DefinitionPosition)).

Definition verify_use (b : BlockId) (k : nat) (i : SsaInstr) (input : ValueId) : res SsaError unit :=
  let* data := ssa_value input in
  let* d := dominates t (def_block data) b in
  if negb d then Err (SsaError.UseDefinitionDoesNotDominate b input)
  else if def_block data =? b then
    let* position := index placed input in
    match position with
    | Some (Instruction definition) =>
        if k <=? definition then Err (SsaError.UseBeforeDefinition b (instr_pc i) input) else Ok tt
    | _ => Ok tt
    end
  else Ok tt.

Definition verify_phi (npreds : list BlockId) (phi : ValueId) : res SsaError unit :=
  let* data := ssa_value phi in
  match value_def data with
  | ValueDef.Phi _ _ inputs =>
      if negb (length inputs =? length npreds)
      then Err (SsaError.PhiInputCountMismatch phi (length npreds) (length inputs))
      else
        for_each (fun ip : ValueId * BlockId =>
          let* data := ssa_value ip.1 in
          let* d := dominates t (def_block data) ip.2 in
          if d : bool then Ok tt
          else Err (SsaError.PhiInputDoesNotDominatePredecessor phi ip.1 ip.2)) (zip inputs npreds)
  | _ => Ok tt
  end.

Definition verify_uses (b : SsaBlock) : res SsaError unit :=
  let* _ := for_each_i (fun k i => for_each (verify_use (ssa_id b) k i) (inputs i)) 0 (instrs b) in
  let* npreds := normal_predecessors g (ssa_id b) in
  for_each (verify_phi npreds) (phis b).
End Uses.

(** Values are numbered in the order of their definitions. *)
Fixpoint check_order (next : Z) (l : list ValueId) : res SsaError Z :=
  match l with
  | [] => Ok next
  | actual :: l =>
      if negb (Z.of_nat actual =? next)%Z
      then Err (SsaError.NonDeterministicValueOrder (Z.to_nat next) actual)
      else
        match u32_checked (next + 1) with
        | None => Err SsaError.ValueIdOverflow
        | Some next => check_order next l
        end
  end.

Definition definitions_of (b : SsaBlock) : list ValueId := phis b ++ omap result (instrs b).

Fixpoint check_orders (next : Z) (order : list BlockId) : res SsaError Z :=
  match order with
  | [] => Ok next
  | block :: order =>
      let* b := index (ssa_blocks ssa) block in
      let* next := check_order next (definitions_of b) in
      check_orders next order
  end.

Definition check_ids (expected : nat -> nat -> SsaError) (ids : list nat) : res SsaError unit :=
  for_each_i (fun i id => if negb (id =? i) then Err (expected i id) else Ok tt) 0 ids.

Definition ssa_verify (full_dom : DominatorTree) : res SsaError unit :=
  if negb (includes_exception_edges full_dom) then Err SsaError.NormalDominatorUsedForVerification
  else
    let* _ := map_err SsaError.InvalidFullDominator (tree_verify g full_dom) in
    if negb (length (ssa_blocks ssa) =? length (blocks g))
    then Err (SsaError.BlockCountMismatch (length (blocks g)) (length (ssa_blocks ssa)))
    else if negb (ssa_entry ssa =? entry g) then Err (SsaError.EntryMismatch (entry g) (ssa_entry ssa))
    else
      let* _ := check_ids SsaError.BlockIdMismatch (map ssa_id (ssa_blocks ssa)) in
      let* _ := check_ids SsaError.DenseValueIdMismatch (map value_id (values ssa)) in
      let* handlers := exception_handlers g in
      let rows := map (fun f => replicate (Z.to_nat (frame_register_count f)) false) (frames ssa) in
      let* handler_rows := (fix rows_of l :=
        match l with
        | [] => Ok []
        | b :: l =>
            let* registers := frame_registers (block_inline b) in
            let* rest := rows_of l in
            Ok (replicate (Z.to_nat registers) false :: rest)
        end) (blocks g) in
      let* tb := verify_blocks handlers 0 (ssa_blocks ssa)
                   (mkTables (replicate (length (values ssa)) None) rows handler_rows) in
      let* _ := for_each_i (fun i p => match p with
                                       | Some _ => Ok tt
                                       | None => Err (SsaError.MissingDefinitionSite i)
                                       end) 0 (placements tb) in
      let* _ := for_each_i (verify_frame handlers tb) 0 (frames ssa) in
      let* _ := for_each_i (verify_handler tb) 0 handlers in
      let* _ := for_each (verify_uses full_dom (placements tb)) (ssa_blocks ssa) in
      let* normal_dom := compute_normal g in
      let* next := check_orders 0 (rpo normal_dom) in
      if negb (next =? Z.of_nat (length (values ssa)))%Z
      then Err (SsaError.MissingDefinitionSite (Z.to_nat next)) else Ok tt.
End Verify.
