(* ===== verification/SsaProps.v ===== *)
(** What [SsaFunction::verify] guarantees to the analyses that follow: every use
    refers to a value, every value has one definition, the definition of a used
    value dominates the use and precedes it in its block, and merges have one
    input per normal predecessor. *)

From stdpp Require Import relations.
From S2P Require Import Prelude Opcode Cfg CfgProps Dom RpoProps DomProps Ssa.
#[local] Set Warnings "-clear-no-such-hyp".

(** The position at which a block defines a value. *)
Inductive defines (b : SsaBlock) (v : ValueId) : DefinitionPosition -> Prop :=
| defines_head : v ∈ phis b -> defines b v Head
| defines_instr k i : instrs b !! k = Some i -> result i = Some v -> defines b v (Instruction k).

(** The definition a value has at its position: a block head defines no
    operation, an instruction defines the operation it is. *)
Definition def_matches (b : SsaBlock) (p : DefinitionPosition) (def : ValueDef.t) : Prop :=
  match p with
  | Head => forall inline pc op ins, def <> ValueDef.OpResult inline pc op ins
  | Instruction k => forall i, instrs b !! k = Some i ->
      def = ValueDef.OpResult (instr_inline i) (instr_pc i) (instr_op i) (inputs i)
  end.

(** The result of an instruction has a register, and so has each operand but a
    receiver the call supplies. *)
Definition instr_checked (ssa : SsaFunction) (i : SsaInstr) : Prop :=
  (is_Some (result i) <-> is_Some (result_register i))
  /\ exists synthetic, synthetic_this (E := SsaError) ssa i = Ok synthetic
     /\ (synthetic = false -> length (input_registers i) = length (inputs i)).

Record ssa_wf (ssa : SsaFunction) (g : ControlFlowGraph) (t : DominatorTree) : Prop := {
  sw_full : dt_edges t = Full;
  sw_tree : tree_verify g t = Ok tt;
  sw_len : length (ssa_blocks ssa) = length (blocks g);
  sw_entry : ssa_entry ssa = entry g;
  sw_ids : forall i b, ssa_blocks ssa !! i = Some b -> ssa_id b = i;
  sw_defined : forall i b v p, ssa_blocks ssa !! i = Some b -> defines b v p ->
    exists d, values ssa !! v = Some d /\ def_block d = i;
  sw_inputs : forall i b v d ins, ssa_blocks ssa !! i = Some b -> v ∈ phis b -> values ssa !! v = Some d ->
    merge_inputs (value_def d) = Some ins ->
    exists npreds, normal_predecessors (E := SsaError) g i = Ok npreds /\ length ins = length npreds;
  sw_once : forall i b p i' b' p' v, ssa_blocks ssa !! i = Some b -> ssa_blocks ssa !! i' = Some b' ->
    defines b v p -> defines b' v p' -> i = i' /\ p = p';
  sw_placed : forall v, v < length (values ssa) -> exists i b p, ssa_blocks ssa !! i = Some b /\ defines b v p;
  sw_use : forall i b k ins v, ssa_blocks ssa !! i = Some b -> instrs b !! k = Some ins -> v ∈ inputs ins ->
    exists d, values ssa !! v = Some d /\ dominates (E := SsaError) t (def_block d) i = Ok true
      /\ (forall k', defines b v (Instruction k') -> k' < k);
  sw_dense : forall v d, values ssa !! v = Some d -> value_id d = v;
  sw_def : forall i b v p d, ssa_blocks ssa !! i = Some b -> defines b v p -> values ssa !! v = Some d ->
    def_matches b p (value_def d);
  sw_frames : forall i b, ssa_blocks ssa !! i = Some b ->
    exists cb, blocks g !! i = Some cb /\ block_inline cb < length (frames ssa) /\ block_inline cb < length (frame_entries g);
  sw_head_register : forall i b v d r cb f, ssa_blocks ssa !! i = Some b -> v ∈ phis b -> values ssa !! v = Some d ->
    head_register (value_def d) = Some r -> blocks g !! i = Some cb -> frames ssa !! block_inline cb = Some f ->
    (r < frame_register_count f)%Z;
  sw_instr : forall i b k ins, ssa_blocks ssa !! i = Some b -> instrs b !! k = Some ins -> instr_checked ssa ins;
  sw_heads : forall i b, ssa_blocks ssa !! i = Some b -> NoDup (phis b);
  sw_layout : forall i b, ssa_blocks ssa !! i = Some b ->
    exists cb, blocks g !! i = Some cb /\ map instr_pc (instrs b) = instr_pcs cb;
  sw_phi_use : forall i b v d owner register ins npreds j p u, ssa_blocks ssa !! i = Some b -> v ∈ phis b ->
    values ssa !! v = Some d -> value_def d = ValueDef.Phi owner register ins ->
    normal_predecessors (E := SsaError) g i = Ok npreds -> npreds !! j = Some p -> ins !! j = Some u ->
    exists du, values ssa !! u = Some du /\ dominates (E := SsaError) t (def_block du) p = Ok true
}.

(** ** Placements *)

Definition extends (p p' : list (option DefinitionPosition)) : Prop :=
  length p' = length p /\ forall v x, p !! v = Some (Some x) -> p' !! v = Some (Some x).

#[local] Instance extends_preorder : PreOrder extends.
Proof.
  split.
  - by split.
  - intros a b c [H1 H2] [H3 H4]. split; [congruence|auto].
Qed.

Lemma record_placement_Ok p v x p' : record_placement p v x = Ok p' ->
  p !! v = Some None /\ p' = <[v := Some x]> p /\ extends p p'.
Proof.
  unfold record_placement. destruct (p !! v) as [[]|] eqn:Hv; [done| |done]. intros [= <-]. split_and!; [done|done|].
  split; [by rewrite length_insert|]. intros u y Hu. rewrite list_lookup_insert_ne; [done|]. intros ->. congruence.
Qed.

Lemma record_placement_at p v x p' : record_placement p v x = Ok p' -> p' !! v = Some (Some x).
Proof.
  intros (Hv & -> & _)%record_placement_Ok. apply list_lookup_insert_eq. by eapply lookup_lt_Some.
Qed.

(** Only the recorded value is new. *)
Lemma record_placement_new p v x p' u y : record_placement p v x = Ok p' -> p' !! u = Some (Some y) ->
  p !! u = Some (Some y) \/ (u = v /\ y = x).
Proof.
  intros (Hv & -> & _)%record_placement_Ok. destruct (decide (u = v)) as [->|Hne].
  - rewrite list_lookup_insert_eq by (by eapply lookup_lt_Some). intros [= ->]. by right.
  - rewrite list_lookup_insert_ne by done. by left.
Qed.

Section Facts.
Context (ssa : SsaFunction) (g : ControlFlowGraph).

Lemma ssa_value_Ok v d : ssa_value ssa v = Ok d <-> values ssa !! v = Some d.
Proof. unfold ssa_value. destruct (values ssa !! v); split; congruence. Qed.

Lemma check_def_block_Ok b v d : check_def_block b v d = Ok tt -> def_block d = b.
Proof. unfold check_def_block. destruct (Nat.eqb_spec (def_block d) b); by simpl. Qed.

Lemma check_register_Ok pc r count u : check_register pc r count = Ok u -> (r < count)%Z.
Proof. unfold check_register. destruct (Z.leb_spec count r); [done|lia]. Qed.

Section Block.
Context (handlers : list bool) (block_index : nat) (bid : BlockId) (inline : InlineId)
  (registers : Z) (frame_entry : BlockId) (npreds : list BlockId).

Lemma verify_head_def_Ok v d tb tb' key :
  verify_head_def ssa g handlers block_index bid inline registers frame_entry npreds v d tb = Ok (tb', key) ->
  placements tb' = placements tb /\ (forall ins, merge_inputs d = Some ins -> length ins = length npreds)
  /\ (forall inline pc op ins, d <> ValueDef.OpResult inline pc op ins)
  /\ forall r, head_register d = Some r -> key.2 = r.
Proof.
  intros H. apply and_assoc. split; cycle 1.
  { split; [by destruct d|]. revert H. unfold verify_head_def. intros H r Hr. destruct d; simplify_eq/=; repeat case_match;
      try discriminate; repeat (inv_bind H; repeat case_match; try discriminate); by simplify_eq/=. }
  revert H. unfold verify_head_def. intros H. destruct d; simpl; repeat case_match; try discriminate;
    try inv_bind H; simplify_eq/=; try (split; [done|done]); repeat case_match; try discriminate;
    try inv_bind H; simplify_eq/=; (split; [done|]); try done; intros ins [= <-].
  - match goal with Hn : negb (_ =? _) = false |- _ => apply negb_false_iff, Nat.eqb_eq in Hn; done end.
  - match goal with Hn : negb (_ =? _) = false |- _ => apply negb_false_iff, Nat.eqb_eq in Hn; done end.
Qed.

Lemma verify_heads_Ok l : forall previous tb tb',
  verify_heads ssa g handlers block_index bid inline registers frame_entry npreds previous l tb = Ok tb' ->
  extends (placements tb) (placements tb')
  /\ (forall v, v ∈ l -> placements tb' !! v = Some (Some Head)
      /\ exists d, values ssa !! v = Some d /\ def_block d = bid
         /\ (forall ins, merge_inputs (value_def d) = Some ins -> length ins = length npreds)
         /\ (forall inline pc op ins, value_def d <> ValueDef.OpResult inline pc op ins)
         /\ forall r, head_register (value_def d) = Some r -> (r < registers)%Z)
  /\ (forall v x, placements tb' !! v = Some (Some x) -> placements tb !! v = Some (Some x) \/ (v ∈ l /\ x = Head))
  /\ NoDup l /\ (forall v, v ∈ l -> placements tb !! v = Some None).
Proof.
  induction l as [|v l IH]; intros previous tb tb' H; cbn [verify_heads] in H.
  { simplify_eq. split_and!; [done|by intros ? ?%elem_of_nil|by left|constructor|by intros ? ?%elem_of_nil]. }
  inv_bind H. inv_bind H. inv_bind H. inv_bind H. destruct a2 as [tb1 key]. inv_bind H. case_match; [done|].
  apply ssa_value_Ok in Hbind. destruct a1. apply check_def_block_Ok in Hbind1.
  apply verify_head_def_Ok in Hbind2 as (Hp & Hins & Hnop & Hreg).
  assert (Hreg' : forall r, head_register (value_def a) = Some r -> (r < registers)%Z).
  { intros r Hr. rewrite (Hreg r Hr) in Hbind3. by apply check_register_Ok in Hbind3. }
  cbn [placements] in Hp.
  destruct (IH _ _ _ H) as (Hext & Hin & Hnew & Hnd & Hun). rewrite Hp in Hext, Hnew, Hun.
  pose proof (record_placement_at _ _ _ _ Hbind0) as Hat.
  pose proof (record_placement_Ok _ _ _ _ Hbind0) as (Hnone & Hins0 & Hext0). split_and!.
  - by etrans.
  - intros u [-> |Hu]%elem_of_cons; [|auto]. split; [|exists a; split_and!; done].
    apply Hext. by eapply record_placement_at.
  - intros u x Hu. destruct (Hnew u x Hu) as [Hu'|[? ->]]; [|right; split; [by right|done]].
    destruct (record_placement_new _ _ _ _ _ _ Hbind0 Hu') as [?|[-> ->]]; [by left|right; split; [by left|done]].
  - constructor; [|done]. intros Hv. specialize (Hun v Hv). congruence.
  - intros u [-> |Hu]%elem_of_cons; [done|]. specialize (Hun u Hu).
    destruct (decide (u = v)) as [-> |Hne]; [congruence|]. by rewrite Hins0, list_lookup_insert_ne in Hun.
Qed.

Lemma matches_instr_true i def : matches_instr i def = true ->
  def = ValueDef.OpResult (instr_inline i) (instr_pc i) (instr_op i) (inputs i).
Proof. destruct def; simpl; try done. intros H. boolprop. by do 2 case_bool_decide; subst. Qed.

Lemma verify_result_Ok k i p p' : verify_result ssa bid k i p = Ok p' ->
  extends p p'
  /\ (forall v, result i = Some v -> p' !! v = Some (Some (Instruction k))
      /\ exists d, values ssa !! v = Some d /\ def_block d = bid
         /\ value_def d = ValueDef.OpResult (instr_inline i) (instr_pc i) (instr_op i) (inputs i))
  /\ (forall v x, p' !! v = Some (Some x) -> p !! v = Some (Some x) \/ (result i = Some v /\ x = Instruction k)).
Proof.
  unfold verify_result. destruct (result i) as [r|].
  - intros H. inv_bind H. inv_bind H. inv_bind H. case_match eqn:Hm; [|done]. simplify_eq. destruct a1.
    apply matches_instr_true in Hm.
    apply ssa_value_Ok in Hbind. apply check_def_block_Ok in Hbind1.
    pose proof (record_placement_Ok _ _ _ _ Hbind0) as (_ & _ & Hext). split_and!; [done|..].
    + intros v [= <-]. split; [by eapply record_placement_at|eauto].
    + intros v x Hv. destruct (record_placement_new _ _ _ _ _ _ Hbind0 Hv) as [?|[-> ->]]; [by left|by right].
  - intros [= <-]. split_and!; [done|done|by left].
Qed.

Lemma verify_instrs_Ok l : forall k p p', verify_instrs ssa bid k l p = Ok p' ->
  extends p p'
  /\ (forall j i v, l !! j = Some i -> result i = Some v -> p' !! v = Some (Some (Instruction (k + j)))
      /\ exists d, values ssa !! v = Some d /\ def_block d = bid
         /\ value_def d = ValueDef.OpResult (instr_inline i) (instr_pc i) (instr_op i) (inputs i))
  /\ (forall v x, p' !! v = Some (Some x) -> p !! v = Some (Some x)
      \/ exists j i, l !! j = Some i /\ result i = Some v /\ x = Instruction (k + j))
  /\ (forall j i, l !! j = Some i -> instr_checked ssa i).
Proof.
  induction l as [|i l IH]; intros k p p' H; cbn [verify_instrs] in H.
  { simplify_eq. split_and!; [done|done|by left|done]. }
  inv_bind H. case_match eqn:Hcount; [done|]. inv_bind H. case_match eqn:Hxor; [done|]. inv_bind H. inv_bind H.
  destruct (verify_result_Ok _ _ _ _ Hbind2) as (Hext & Hres & Hnew). destruct (IH _ _ _ H) as (Hext' & Hres' & Hnew' & Hchk).
  assert (Hck : instr_checked ssa i).
  { split.
    - do 2 case_bool_decide; try discriminate Hxor; tauto.
    - exists a. split; [done|]. intros ->. by apply negb_false_iff, Nat.eqb_eq in Hcount. }
  split_and!; [by etrans|..|].
  - intros [|j] i' v Hi Hv; simpl in Hi.
    + simplify_eq. destruct (Hres v Hv) as [? ?]. rewrite Nat.add_0_r. split; [by apply Hext'|done].
    + destruct (Hres' j i' v Hi Hv) as [? ?]. rewrite Nat.add_succ_r. done.
  - intros v x Hv. destruct (Hnew' v x Hv) as [Hv'|(j & i' & Hi & Hr & ->)].
    + destruct (Hnew v x Hv') as [?|[? ->]]; [by left|]. right. exists 0, i. by rewrite Nat.add_0_r.
    + right. exists (S j), i'. by rewrite Nat.add_succ_r.
  - intros [|j] i' Hi'; simpl in Hi'; [by simplify_eq|]. by apply (Hchk j).
Qed.
End Block.

(** What is checked of a block on its own. *)
Definition block_checked (i : nat) (b : SsaBlock) : Prop :=
  exists cb f, blocks g !! i = Some cb /\ map instr_pc (instrs b) = instr_pcs cb
  /\ frames ssa !! block_inline cb = Some f /\ block_inline cb < length (frame_entries g)
  /\ (forall v d r, v ∈ phis b -> values ssa !! v = Some d -> head_register (value_def d) = Some r ->
      (r < frame_register_count f)%Z)
  /\ (forall k ins, instrs b !! k = Some ins -> instr_checked ssa ins).

(** The whole pass: what is placed is exactly what a block defines. *)
Lemma verify_block_Ok handlers i b tb tb' : verify_block ssa g handlers i b tb = Ok tb' ->
  extends (placements tb) (placements tb')
  /\ (forall v p, defines b v p -> placements tb' !! v = Some (Some p)
      /\ exists d, values ssa !! v = Some d /\ def_block d = ssa_id b /\ def_matches b p (value_def d))
  /\ (forall v d ins, v ∈ phis b -> values ssa !! v = Some d -> merge_inputs (value_def d) = Some ins ->
      exists npreds, normal_predecessors (E := SsaError) g (ssa_id b) = Ok npreds /\ length ins = length npreds)
  /\ (forall v x, placements tb' !! v = Some (Some x) -> placements tb !! v = Some (Some x) \/ defines b v x)
  /\ NoDup (phis b) /\ block_checked i b.
Proof.
  unfold verify_block. intros H. do 5 inv_bind H. case_bool_decide as Hlay; [|done]. cbn [negb] in H.
  inv_bind H. simplify_eq. cbn [placements]. apply index_Ok in Hbind.
  apply verify_heads_Ok in Hbind3 as (Hext & Hin & Hnew & Hnd & _). apply verify_instrs_Ok in Hbind4 as (Hext' & Hin' & Hnew' & Hchk).
  split_and!; [by etrans|..].
  - intros v p [Hv|k i' Hi Hr].
    + destruct (Hin v Hv) as (Hp & d & ? & ? & _ & ? & _). split; [by apply Hext'|eauto].
    + destruct (Hin' k i' v Hi Hr) as (Hp & d & ? & ? & ?). split; [done|]. exists d. split_and!; [done|done|].
      intros i'' Hi''. by simplify_eq.
  - intros v d ins Hv Hd Hm. destruct (Hin v Hv) as (_ & d' & Hd' & _ & Hins & _ & _). simplify_eq. eauto.
  - intros v x Hv. destruct (Hnew' v x Hv) as [Hv'|(j & i' & Hi & Hr & ->)]; [|right; by eapply defines_instr].
    destruct (Hnew v x Hv') as [?|[? ->]]; [by left|right; by constructor].
  - done.
  - unfold frame_registers in Hbind0. inv_bind Hbind0. simplify_eq. apply index_Ok in Hbind3, Hbind1.
    exists a, a5. split_and!; [done|done|done|by eapply lookup_lt_Some| |done].
    intros v d r Hv Hd Hr. destruct (Hin v Hv) as (_ & d' & Hd' & _ & _ & _ & Hreg). simplify_eq. by apply Hreg.
Qed.

Lemma verify_ssa_blocks_Ok handlers l : forall i tb tb', verify_blocks ssa g handlers i l tb = Ok tb' ->
  extends (placements tb) (placements tb')
  /\ (forall b v p, b ∈ l -> defines b v p -> placements tb' !! v = Some (Some p)
      /\ exists d, values ssa !! v = Some d /\ def_block d = ssa_id b /\ def_matches b p (value_def d))
  /\ (forall b v d ins, b ∈ l -> v ∈ phis b -> values ssa !! v = Some d -> merge_inputs (value_def d) = Some ins ->
      exists npreds, normal_predecessors (E := SsaError) g (ssa_id b) = Ok npreds /\ length ins = length npreds)
  /\ (forall v x, placements tb' !! v = Some (Some x) ->
      placements tb !! v = Some (Some x) \/ exists b, b ∈ l /\ defines b v x)
  /\ (forall j b, l !! j = Some b ->
      NoDup (phis b) /\ block_checked (i + j) b).
Proof.
  induction l as [|b l IH]; intros i tb tb' H; cbn [verify_blocks] in H.
  { simplify_eq. split_and!; [done|by intros ? ? ? ?%elem_of_nil|by intros ? ? ? ? ?%elem_of_nil|by left|done]. }
  inv_bind H. apply verify_block_Ok in Hbind as (Hext & Hdef & Hins & Hnew & Hlay).
  destruct (IH _ _ _ H) as (Hext' & Hdef' & Hins' & Hnew' & Hlay').
  split_and!; [by etrans|..].
  - intros c v p [-> |Hc]%elem_of_cons Hd; [|by eapply Hdef']. destruct (Hdef v p Hd) as [? ?]. split; [by apply Hext'|done].
  - intros c v d ins [-> |Hc]%elem_of_cons; [apply Hins|by apply Hins'].
  - intros v x Hv. destruct (Hnew' v x Hv) as [Hv'|(c & Hc & Hd)]; [|right; exists c; split; [by right|done]].
    destruct (Hnew v x Hv') as [?|Hd]; [by left|right; exists b; split; [by left|done]].
  - intros [|j] c Hc; simpl in Hc; [by simplify_eq; rewrite Nat.add_0_r|]. rewrite Nat.add_succ_r. by apply Hlay'.
Qed.
End Facts.

Lemma check_ids_Ok e l : check_ids e l = Ok tt -> forall i x, l !! i = Some x -> x = i.
Proof.
  unfold check_ids. rewrite for_each_i_Ok. intros H i x Hx. specialize (H i x Hx). simpl in H.
  destruct (Nat.eqb_spec x i); by simpl in H.
Qed.

Lemma verify_uses_Ok ssa g t placed b : verify_uses ssa g t placed b = Ok tt ->
  (forall k ins v, instrs b !! k = Some ins -> v ∈ inputs ins -> verify_use ssa t placed (ssa_id b) k ins v = Ok tt)
  /\ exists npreds, normal_predecessors (E := SsaError) g (ssa_id b) = Ok npreds
     /\ forall phi, phi ∈ phis b -> verify_phi ssa t npreds phi = Ok tt.
Proof.
  unfold verify_uses. intros H. inv_bind H. inv_bind H. destruct a. rewrite for_each_i_Ok in Hbind. split.
  - intros k ins v Hi Hv. specialize (Hbind k ins Hi). rewrite for_each_Ok, Forall_forall in Hbind. by apply Hbind.
  - exists a0. split; [done|]. rewrite for_each_Ok, Forall_forall in H. done.
Qed.

Lemma verify_use_Ok ssa t placed b k i v : verify_use ssa t placed b k i v = Ok tt ->
  exists d, values ssa !! v = Some d /\ dominates (E := SsaError) t (def_block d) b = Ok true
    /\ (def_block d = b -> forall k', placed !! v = Some (Some (Instruction k')) -> k' < k).
Proof.
  unfold verify_use. intros H. inv_bind H. inv_bind H. apply ssa_value_Ok in Hbind. destruct a0; [|done]. cbn [negb] in H.
  exists a. split_and!; [done|done|]. intros Hb k' Hk. rewrite Hb, Nat.eqb_refl in H.
  rewrite (index_lookup _ _ _ Hk) in H. cbn [rbind] in H. destruct (Nat.leb_spec k k'); [done|lia].
Qed.

Lemma verify_phi_Ok ssa t npreds phi d owner register ins j p u : verify_phi ssa t npreds phi = Ok tt ->
  values ssa !! phi = Some d -> value_def d = ValueDef.Phi owner register ins ->
  npreds !! j = Some p -> ins !! j = Some u ->
  exists du, values ssa !! u = Some du /\ dominates (E := SsaError) t (def_block du) p = Ok true.
Proof.
  unfold verify_phi. intros H Hd Hdef Hp Hu. inv_bind H. apply ssa_value_Ok in Hbind. simplify_eq. rewrite Hdef in H.
  case_match; [done|]. rewrite for_each_Ok, Forall_forall in H.
  assert (Hz : zip ins npreds !! j = Some (u, p)) by (by apply lookup_zip_Some).
  apply list_elem_of_lookup_2, H in Hz. cbn [fst snd] in Hz. inv_bind Hz. inv_bind Hz. apply ssa_value_Ok in Hbind0.
  destruct a1; [|done]. eauto.
Qed.

(** The contract of the verifier. *)
Lemma ssa_verify_wf ssa g t : ssa_verify ssa g t = Ok tt -> ssa_wf ssa g t.
Proof.
  unfold ssa_verify, includes_exception_edges. case_bool_decide as Hfull; [|done]. cbn [negb]. intros H. inv_bind H.
  assert (Htree : tree_verify g t = Ok tt) by (destruct (tree_verify g t) as [[]| | |]; done).
  do 2 (case_match; [done|]). do 10 inv_bind H.
  repeat match goal with Hn : negb (_ =? _) = false |- _ => apply negb_false_iff, Nat.eqb_eq in Hn end.
  repeat match goal with a : unit |- _ => destruct a end.
  match goal with Hv : verify_blocks _ _ _ _ _ _ = Ok ?x |- _ =>
    set (tb := x) in *; apply verify_ssa_blocks_Ok in Hv as ((Hplen & _) & Hdef & Hins & Hnew & Hlay) end.
  cbn [placements] in Hplen, Hnew. rewrite length_replicate in Hplen.
  assert (Hid : forall i b, ssa_blocks ssa !! i = Some b -> ssa_id b = i).
  { intros i b Hb. match goal with Hc : check_ids _ (map ssa_id _) = _ |- _ => apply (check_ids_Ok _ _ Hc i) end.
    by rewrite map_lookup, Hb. }
  assert (Hdef' : forall i b v p, ssa_blocks ssa !! i = Some b -> defines b v p ->
    placements tb !! v = Some (Some p)
    /\ exists d, values ssa !! v = Some d /\ def_block d = i /\ def_matches b p (value_def d)).
  { intros i b v p Hb Hd. rewrite <- (Hid i b Hb). apply Hdef; [by eapply list_elem_of_lookup_2|done]. }
  match goal with Hu : for_each (verify_uses _ _ _ _) _ = Ok _ |- _ => rewrite for_each_Ok, Forall_forall in Hu; rename Hu into Huses end.
  assert (Huse : forall i b, ssa_blocks ssa !! i = Some b -> verify_uses ssa g t (placements tb) b = Ok tt).
  { intros i b Hb. apply Huses. by eapply list_elem_of_lookup_2. }
  match goal with Hp : for_each_i _ 0 (placements tb) = Ok _ |- _ => rewrite for_each_i_Ok in Hp; rename Hp into Hplaced end.
  split; try done.
  - intros i b v p Hb Hd. destruct (Hdef' i b v p Hb Hd) as (_ & d & ? & ? & _). eauto.
  - intros i b v d ins Hb Hv Hd Hm. destruct (Hins b v d ins) as (npreds & Hn & Hl); [by eapply list_elem_of_lookup_2|done..|].
    rewrite (Hid i b Hb) in Hn. eauto.
  - intros i b p i' b' p' v Hb Hb' Hd Hd'. destruct (Hdef' i b v p Hb Hd) as (Hp & d & Hv & <- & _).
    destruct (Hdef' i' b' v p' Hb' Hd') as (Hp' & d' & Hv' & <- & _). simplify_eq. done.
  - intros v Hv. destruct (lookup_lt_is_Some_2 (placements tb) v) as [x Hx]; [lia|].
    specialize (Hplaced v x Hx). destruct x as [x|]; [|done].
    destruct (Hnew v x Hx) as [Hr|(b & Hb & Hd)]; [by apply lookup_replicate in Hr as [? _]|].
    apply list_elem_of_lookup in Hb as [i Hi]. eauto.
  - intros i b k ins v Hb Hi Hv. destruct (verify_uses_Ok _ _ _ _ _ (Huse i b Hb)) as [Hall _].
    specialize (Hall k ins v Hi Hv). rewrite (Hid i b Hb) in Hall. apply verify_use_Ok in Hall as (d & Hd & Hdom & Hord).
    exists d. split_and!; [done|done|]. intros k' Hk. destruct (Hdef' i b v _ Hb Hk) as (Hp & d' & Hd' & Hdb & _). simplify_eq. auto.
  - intros v d Hv. match goal with Hc : check_ids _ (map value_id _) = _ |- _ => apply (check_ids_Ok _ _ Hc v) end.
    by rewrite map_lookup, Hv.
  - intros i b v p d Hb Hd Hv. destruct (Hdef' i b v p Hb Hd) as (_ & d' & Hv' & _ & Hm). by simplify_eq.
  - intros i b Hb. destruct (Hlay i b Hb) as (_ & cb & f & Hcb & _ & Hf & He & _). exists cb.
    split_and!; [done|by eapply lookup_lt_Some|done].
  - intros i b v d r cb f Hb Hv Hd Hr Hcb Hf. destruct (Hlay i b Hb) as (_ & cb' & f' & Hcb' & _ & Hf' & _ & Hreg & _).
    simpl in Hcb'. simplify_eq. by apply (Hreg v d r).
  - intros i b k ins Hb Hk. destruct (Hlay i b Hb) as (_ & cb & f & _ & _ & _ & _ & _ & Hchk). by apply (Hchk k).
  - intros i b Hb. by destruct (Hlay i b Hb).
  - intros i b Hb. destruct (Hlay i b Hb) as (_ & cb & f & Hcb & Hm & _). by exists cb.
  - intros i b v d owner register ins npreds j p u Hb Hv Hd Hvd Hn Hp Hu.
    destruct (verify_uses_Ok _ _ _ _ _ (Huse i b Hb)) as (_ & npreds' & Hn' & Hall). rewrite (Hid i b Hb), Hn in Hn'. injection Hn' as <-.
    apply (verify_phi_Ok ssa t npreds v d owner register ins j p u); auto.
Qed.

(** ** Spliced callees

    Runs of the verifier where its checks differ from the frames they are about. *)

Module Spliced.
(** A root frame that calls a spliced callee: block 2 is the callee. *)
Definition spliced_cfg : ControlFlowGraph :=
  mkCfg [mkBlock 0 0 0 [0]%Z (Terminator.InlineCall 2 1) [2] [] [] false;
         mkBlock 1 0 1 [1]%Z Terminator.Return [] [] [2] false;
         mkBlock 2 1 0 [0]%Z (Terminator.InlineReturn 1) [1] [] [0] false] 0 [0; 2].

Definition spliced_tree : DominatorTree := mkDomTree [None; Some 2; Some 0] [0; 2; 1] Full.

(** The callee has two registers and returns its second; the root has [root] registers. *)
Definition spliced_ssa (root : Z) : SsaFunction :=
  mkSsa [mkSsaBlock 0 [0] [mkSsaInstr 0 0 Op.Nop [] [] None None];
         mkSsaBlock 1 [3] [mkSsaInstr 0 1 Op.ReturnValue [3] [0%Z] None None];
         mkSsaBlock 2 [1; 2] [mkSsaInstr 1 0 Op.ReturnValue [2] [1%Z] None None]]
        [mkValueData 0 (ValueDef.Uninitialized 0) 0;
         mkValueData 1 (ValueDef.Uninitialized 0) 2;
         mkValueData 2 (ValueDef.Uninitialized 1) 2;
         mkValueData 3 (ValueDef.InlineResult 1 0 [2]) 1]
        0 root [mkSsaFrame 1 0 None; mkSsaFrame 2 0 None].

(** The register count of the root frame bounds the registers of every frame: the
    callee's second register is rejected when the root has one register, and
    accepted when the field says two, with nothing else changed. *)
Example callee_register_rejected :
  Cfg.verify spliced_cfg = Ok tt
  /\ ssa_verify (spliced_ssa 1) spliced_cfg spliced_tree = Err (SsaError.RegisterOutOfRange (Some 0%Z) 1 1)
  /\ ssa_verify (spliced_ssa 2) spliced_cfg spliced_tree = Ok tt.
Proof. vm_compute. auto. Qed.

(** A callee without registers that returns undefined: its constant names register 0. *)
Definition empty_callee (callee_registers : Z) : SsaFunction :=
  mkSsa [mkSsaBlock 0 [0] [mkSsaInstr 0 0 Op.Nop [] [] None None];
         mkSsaBlock 1 [2] [mkSsaInstr 0 1 Op.ReturnValue [2] [0%Z] None None];
         mkSsaBlock 2 [1] [mkSsaInstr 1 0 Op.ReturnUndefined [] [] None None]]
        [mkValueData 0 (ValueDef.Uninitialized 0) 0;
         mkValueData 1 (ValueDef.InlineUndefinedReturn 2) 2;
         mkValueData 2 (ValueDef.InlineResult 1 0 [1]) 1]
        0 1 [mkSsaFrame 1 0 None; mkSsaFrame callee_registers 0 None].

Example registerless_callee_rejected :
  ssa_verify (empty_callee 0) spliced_cfg spliced_tree = Err (SsaError.RegisterOutOfRange None 0 0).
Proof. vm_compute. reflexivity. Qed.

(** The inputs of a call result are not checked: a value that does not exist passes. *)
Definition dangling_result : SsaFunction :=
  mkSsa (ssa_blocks (spliced_ssa 2))
        (<[3 := mkValueData 3 (ValueDef.InlineResult 1 0 [9]) 1]> (values (spliced_ssa 2)))
        0 2 (frames (spliced_ssa 2)).

Example dangling_call_result_accepted : ssa_verify dangling_result spliced_cfg spliced_tree = Ok tt.
Proof. vm_compute. reflexivity. Qed.
End Spliced.
