(* ===== verification/Liveness.v ===== *)
(** Liveness of SSA values (otter-jit/src/ir/liveness.rs): the backward fixpoint
    over normal edges, the instruction-level query and the self-check.  A
    [BTreeSet] of values is a finite set; where its order shows (the value an
    error names) it is enumerated in increasing order. *)

From stdpp Require Import gmap sorting.
From S2P Require Import Prelude Opcode Cfg Dom Ssa.

Abbreviation ValueSet := (gset nat) (only parsing).

Record Liveness : Type := mkLiveness { live_in : list ValueSet; live_out : list ValueSet }.

Inductive LivenessSet : Type := LiveIn | LiveOut.

Module LivenessError.
Inductive LivenessError : Type :=
| BlockCountMismatch (expected live_in live_out : nat)
| NormalDominatorUsedForVerification
| InvalidFullDominator (e : DomError)
| ValueOutOfRange (block : BlockId) (set : LivenessSet) (value : ValueId) (value_count : nat)
| DefinitionDoesNotDominate (block : BlockId) (set : LivenessSet) (value : ValueId) (definition : BlockId)
| EntryLiveInNotEmpty (values : ValueSet)
| LiveOutInconsistent (block : BlockId) (expected actual : ValueSet)
| FixpointUnstable (block : BlockId) (expected_live_in actual_live_in expected_live_out actual_live_out : ValueSet)
| UpwardExposedUseMissing (block : BlockId) (value : ValueId).
End LivenessError.
Export LivenessError (LivenessError).

Record BlockFacts : Type := mkFacts { phi_defs : ValueSet; instr_defs : ValueSet; uses : ValueSet }.

(** The pass over the instructions of a block: [defined] is what the block has
    defined so far. *)
Fixpoint scan_instrs (defined : ValueSet) (l : list SsaInstr) (defs exposed : ValueSet) : ValueSet * ValueSet :=
  match l with
  | [] => (defs, exposed)
  | i :: l =>
      let exposed := exposed ∪ (list_to_set (inputs i) ∖ defined) in
      match result i with
      | Some r => scan_instrs ({[r]} ∪ defined) l ({[r]} ∪ defs) exposed
      | None => scan_instrs defined l defs exposed
      end
  end.

Definition block_fact (b : SsaBlock) : BlockFacts :=
  let heads : ValueSet := list_to_set (phis b) in
  let (defs, exposed) := scan_instrs heads (instrs b) ∅ ∅ in
  mkFacts heads defs exposed.

Definition block_facts (ssa : SsaFunction) : list BlockFacts := map block_fact (ssa_blocks ssa).

Section Compute.
Context {E : Type} (ssa : SsaFunction) (g : ControlFlowGraph).

(** [.position(|candidate| candidate == predecessor)] over the normal predecessors. *)
Fixpoint position (l : list BlockId) (b : BlockId) : option nat :=
  match l with
  | [] => None
  | c :: l => if c =? b then Some 0 else S <$> position l b
  end.

Fixpoint phi_inputs_at (l : list ValueId) (k : nat) : res E ValueSet :=
  match l with
  | [] => Ok ∅
  | phi :: l =>
      let* data := index (values ssa) phi in
      match merge_inputs (value_def data) with
      | Some inputs =>
          let* v := index inputs k in
          let* rest := phi_inputs_at l k in
          Ok ({[v]} ∪ rest)
      | None => phi_inputs_at l k
      end
  end.

Definition phi_uses (predecessor successor : BlockId) : res E ValueSet :=
  let* npreds := normal_predecessors g successor in
  match position npreds predecessor with
  | None => Panic
  | Some k =>
      let* b := index (ssa_blocks ssa) successor in
      phi_inputs_at (phis b) k
  end.

Fixpoint live_out_of (facts : list BlockFacts) (live_in : list ValueSet) (block : BlockId)
    (succs : list BlockId) (acc : ValueSet) : res E ValueSet :=
  match succs with
  | [] => Ok acc
  | s :: succs =>
      let* i := index live_in s in
      let* f := index facts s in
      let* u := phi_uses block s in
      live_out_of facts live_in block succs (acc ∪ (i ∖ phi_defs f) ∪ u)
  end.

Definition recompute_live_out (facts : list BlockFacts) (live_in : list ValueSet) (block : BlockId)
    : res E ValueSet :=
  let* b := index (blocks g) block in
  live_out_of facts live_in block (normal_succs b) ∅.

(** One block of the pass: the new sets, and whether either changed. *)
Definition pass_block (facts : list BlockFacts) (block : BlockId) (l : Liveness) (changed : bool)
    : res E (Liveness * bool) :=
  let* out := recompute_live_out facts (live_in l) block in
  let* f := index facts block in
  let inn := if block =? ssa_entry ssa then ∅ else phi_defs f ∪ uses f ∪ (out ∖ instr_defs f) in
  let* old_out := index (live_out l) block in
  let out_changed := negb (bool_decide (old_out = out)) in
  let* old_in := index (live_in l) block in
  let in_changed := negb (bool_decide (old_in = inn)) in
  Ok (mkLiveness (if in_changed then <[block := inn]> (live_in l) else live_in l)
                 (if out_changed then <[block := out]> (live_out l) else live_out l),
      changed || out_changed || in_changed).

Fixpoint backward_pass (facts : list BlockFacts) (order : list BlockId) (l : Liveness) (changed : bool)
    : res E (Liveness * bool) :=
  match order with
  | [] => Ok (l, changed)
  | block :: order =>
      let* (l, changed) := pass_block facts block l changed in
      backward_pass facts order l changed
  end.

Fixpoint liveness_loop (fuel : nat) (facts : list BlockFacts) (order : list BlockId) (l : Liveness)
    : res E Liveness :=
  match fuel with
  | O => OutOfFuel
  | S fuel =>
      let* (l, changed) := backward_pass facts order l false in
      if changed : bool then liveness_loop fuel facts order l else Ok l
  end.

(** Every value a block can make live. *)
Definition mentioned : list ValueId :=
  flat_map (fun b => phis b ++ flat_map inputs (instrs b)) (ssa_blocks ssa)
  ++ flat_map (fun d => default [] (merge_inputs (value_def d))) (values ssa).

(** A pass that changes something adds a mentioned value to a set. *)
Definition liveness_fuel : nat := 2 + 2 * length (blocks g) * length mentioned.

Definition liveness_compute : res E Liveness :=
  let n := length (blocks g) in
  let* normal_dom := compute_normal g in
  liveness_loop liveness_fuel (block_facts ssa) (reverse (rpo normal_dom))
    (mkLiveness (replicate n ∅) (replicate n ∅)).
End Compute.

(** The instructions after [instruction_index], last first. *)
Fixpoint live_before (l : list SsaInstr) (live : ValueSet) : ValueSet :=
  match l with
  | [] => live
  | i :: l =>
      let live := live_before l live in
      let live := match result i with Some r => live ∖ {[r]} | None => live end in
      live ∪ list_to_set (inputs i)
  end.

Definition live_after_instruction (l : Liveness) (ssa : SsaFunction) (block : BlockId) (k : nat)
    : option ValueSet :=
  match ssa_blocks ssa !! block with
  | None => None
  | Some b =>
      if length (instrs b) <=? k then None
      else
        match live_out l !! block with
        | None => None
        | Some live => Some (live_before (drop (S k) (instrs b)) live)
        end
  end.

(** ** The self-check *)

(** The members of a set in increasing order. *)
Definition in_order (s : ValueSet) : list ValueId := merge_sort (≤) (elements s).

Section Verify.
Context (ssa : SsaFunction) (g : ControlFlowGraph) (l : Liveness) (full_dom : DominatorTree).

Definition check_range (block : BlockId) (set : LivenessSet) (s : ValueSet) : res LivenessError unit :=
  match List.find (fun v => length (values ssa) <=? v) (in_order s) with
  | Some v => Err (LivenessError.ValueOutOfRange block set v (length (values ssa)))
  | None => Ok tt
  end.

(** The two sets of a block, in the order the checks visit them. *)
Definition both_sets (check : BlockId -> LivenessSet -> ValueSet -> res LivenessError unit) (block : BlockId)
    : res LivenessError unit :=
  let* i := index (live_in l) block in
  let* _ := check block LiveIn i in
  let* o := index (live_out l) block in
  check block LiveOut o.

Definition check_live_out (facts : list BlockFacts) (block : BlockId) : res LivenessError unit :=
  let* expected := recompute_live_out ssa g facts (live_in l) block in
  let* actual := index (live_out l) block in
  if bool_decide (expected = actual) then Ok tt
  else Err (LivenessError.LiveOutInconsistent block expected actual).

Definition check_stable (next : Liveness) (block : BlockId) : res LivenessError unit :=
  let* ni := index (live_in next) block in
  let* i := index (live_in l) block in
  let* no := index (live_out next) block in
  let* o := index (live_out l) block in
  if bool_decide (ni = i) && bool_decide (no = o) then Ok tt
  else Err (LivenessError.FixpointUnstable block ni i no o).

Definition check_dominance (block : BlockId) (set : LivenessSet) (s : ValueSet) : res LivenessError unit :=
  for_each (fun v =>
    let* data := index (values ssa) v in
    let* d := dominates full_dom (def_block data) block in
    if d : bool then Ok tt
    else Err (LivenessError.DefinitionDoesNotDominate block set v (def_block data))) (in_order s).

Definition check_exposed (block : BlockId) (f : BlockFacts) : res LivenessError unit :=
  let* i := index (live_in l) block in
  match head (in_order (uses f ∖ i)) with
  | Some v => Err (LivenessError.UpwardExposedUseMissing block v)
  | None => Ok tt
  end.

Definition liveness_verify : res LivenessError unit :=
  let n := length (blocks g) in
  if negb (length (live_in l) =? n) || negb (length (live_out l) =? n)
  then Err (LivenessError.BlockCountMismatch n (length (live_in l)) (length (live_out l)))
  else if negb (includes_exception_edges full_dom) then Err LivenessError.NormalDominatorUsedForVerification
  else
    let* _ := map_err LivenessError.InvalidFullDominator (tree_verify g full_dom) in
    let* _ := for_each (both_sets check_range) (seq 0 n) in
    let facts := block_facts ssa in
    let* _ := for_each (check_live_out facts) (seq 0 n) in
    let* normal_dom := compute_normal g in
    let* (next, _) := backward_pass ssa g facts (reverse (rpo normal_dom)) l false in
    let* _ := for_each (check_stable next) (seq 0 n) in
    let* _ := for_each (both_sets check_dominance) (seq 0 n) in
    let* i := index (live_in l) (ssa_entry ssa) in
    if negb (bool_decide (i = ∅)) then Err (LivenessError.EntryLiveInNotEmpty i)
    else for_each_i check_exposed 0 facts.
End Verify.
