(* ===== verification/LivenessProps.v ===== *)
(** Liveness is exact (otter-jit/src/ir/liveness.rs): on a verified graph and SSA
    function the fixpoint ends, a value is live at the end of a block exactly when
    a path of normal edges leads from there to a use of it without passing its
    definition, and the instruction-level query refines this. *)

From stdpp Require Import gmap relations sorting.
From S2P Require Import Prelude Slices Opcode Cfg CfgProps Dom RpoProps DomProps Dominance DomChecks Ssa SsaProps Liveness.
#[local] Set Warnings "-clear-no-such-hyp".

(** ** Uses and definitions *)

(** [v] is read by an instruction of the block before the block defines it. *)
Definition exposed (b : SsaBlock) (v : ValueId) : Prop :=
  (v ∉ phis b) /\ exists k i, instrs b !! k = Some i /\ v ∈ inputs i
                /\ forall k', k' < k -> ~ defines b v (Instruction k').

Definition has_normal_edge (g : ControlFlowGraph) (i p : BlockId) : bool :=
  match blocks g !! p with Some b => contains (normal_succs b) i | None => false end.

Definition normal_preds (g : ControlFlowGraph) (i : BlockId) : list BlockId :=
  match blocks g !! i with Some b => List.filter (has_normal_edge g i) (preds b) | None => [] end.

(** A merge of block [s] reads [v] on the edge from [u]. *)
Definition phi_input (ssa : SsaFunction) (g : ControlFlowGraph) (u s : BlockId) (v : ValueId) : Prop :=
  exists b phi d ins j, ssa_blocks ssa !! s = Some b /\ phi ∈ phis b /\ values ssa !! phi = Some d
    /\ merge_inputs (value_def d) = Some ins /\ normal_preds g s !! j = Some u /\ ins !! j = Some v.

(** [v] is needed at the end of a block: a path of normal edges from there, through
    blocks that do not define it, reaches a use of it. *)
Inductive needed (ssa : SsaFunction) (g : ControlFlowGraph) (v : ValueId) : BlockId -> Prop :=
| needed_phi u s : sel_edge g Normal u s -> phi_input ssa g u s v -> needed ssa g v u
| needed_use u s b : sel_edge g Normal u s -> s <> ssa_entry ssa -> ssa_blocks ssa !! s = Some b ->
    exposed b v -> needed ssa g v u
| needed_through u s b : sel_edge g Normal u s -> s <> ssa_entry ssa -> ssa_blocks ssa !! s = Some b ->
    (forall p, ~ defines b v p) -> needed ssa g v s -> needed ssa g v u.

(** What the analysis calls live at the start of a block: its merges, its exposed
    uses, and what it passes through; nothing at the function entry. *)
Definition live_at_start (ssa : SsaFunction) (g : ControlFlowGraph) (i : BlockId) (v : ValueId) : Prop :=
  i <> ssa_entry ssa /\ exists b, ssa_blocks ssa !! i = Some b
  /\ (v ∈ phis b \/ exposed b v \/ (needed ssa g v i /\ forall k, ~ defines b v (Instruction k))).

(** ** The facts of a block *)

(** The instructions of a list before and after its head. *)
Definition results_in (l : list SsaInstr) (v : ValueId) : Prop := exists k i, l !! k = Some i /\ result i = Some v.
Definition exposed_in (l : list SsaInstr) (v : ValueId) : Prop :=
  exists k i, l !! k = Some i /\ v ∈ inputs i /\ forall k' i', k' < k -> l !! k' = Some i' -> result i' <> Some v.

Lemma results_in_cons i l v : results_in (i :: l) v <-> result i = Some v \/ results_in l v.
Proof.
  split.
  - intros ([|k] & i' & Hk & Hr); simpl in Hk; [simplify_eq; by left|right; by exists k, i'].
  - intros [Hr|(k & i' & Hk & Hr)]; [by exists 0, i|by exists (S k), i'].
Qed.

Lemma exposed_in_cons i l v : exposed_in (i :: l) v <-> v ∈ inputs i \/ (result i <> Some v /\ exposed_in l v).
Proof.
  split.
  - intros ([|k] & i' & Hk & Hv & Hlt); simpl in Hk; [simplify_eq; by left|]. right.
    split; [by apply (Hlt 0 i); [lia|]|]. exists k, i'. split_and!; [done|done|].
    intros k' i'' Hk' Hi''. apply (Hlt (S k') i''); [lia|done].
  - intros [Hv|(Hr & k & i' & Hk & Hv & Hlt)]; [by exists 0, i; split_and!; [..|intros; lia]|].
    exists (S k), i'. split_and!; [done|done|]. intros [|k'] i'' Hk' Hi''; simpl in Hi''; [by simplify_eq|].
    apply (Hlt k' i''); [lia|done].
Qed.

Lemma scan_instrs_spec l : forall defined defs exp defs' exp',
  scan_instrs defined l defs exp = (defs', exp') ->
  (forall v, v ∈ defs' <-> v ∈ defs \/ results_in l v)
  /\ (forall v, v ∈ exp' <-> v ∈ exp \/ ((v ∉ defined) /\ exposed_in l v)).
Proof.
  induction l as [|i l IH]; intros defined defs exp defs' exp' H; cbn [scan_instrs] in H.
  { simplify_eq. unfold results_in, exposed_in. split; intros v; naive_solver. }
  destruct (result i) as [r|] eqn:Hr; destruct (IH _ _ _ _ _ H) as [Hd He]; (split; intros v; [rewrite Hd, results_in_cons|rewrite He, exposed_in_cons]).
  - rewrite Hr. set_solver.
  - rewrite elem_of_union, elem_of_difference, elem_of_list_to_set, elem_of_union, elem_of_singleton.
    rewrite Hr. destruct (decide (v = r)) as [->|]; [naive_solver|]. destruct (decide (v ∈ defined)); naive_solver.
  - rewrite Hr. naive_solver.
  - rewrite elem_of_union, elem_of_difference, elem_of_list_to_set. rewrite Hr.
    destruct (decide (v ∈ defined)); naive_solver.
Qed.

Lemma block_fact_spec b :
  (forall v, v ∈ phi_defs (block_fact b) <-> v ∈ phis b)
  /\ (forall v, v ∈ instr_defs (block_fact b) <-> exists k, defines b v (Instruction k))
  /\ (forall v, v ∈ uses (block_fact b) <-> exposed b v).
Proof.
  unfold block_fact. destruct (scan_instrs _ _ _ _) as [defs exp] eqn:H. apply scan_instrs_spec in H as [Hd He].
  cbn [phi_defs instr_defs uses]. split_and!; intros v.
  - apply elem_of_list_to_set.
  - rewrite Hd. split.
    + intros [?%elem_of_empty|(k & i & Hi & Hr)]; [done|]. exists k. by eapply defines_instr.
    + intros (k & Hk). right. inversion Hk as [|? i Hi Hr]; subst. by exists k, i.
  - rewrite He, elem_of_list_to_set. unfold exposed, exposed_in. split.
    + intros [?%elem_of_empty|(Hn & k & i & Hi & Hv & Hlt)]; [done|]. split; [done|]. exists k, i. split_and!; [done|done|].
      intros k' Hk' Hd'. inversion Hd' as [|? i' Hi' Hr']; subst. by apply (Hlt k' i').
    + intros (Hn & k & i & Hi & Hv & Hlt). right. split; [done|]. exists k, i. split_and!; [done|done|].
      intros k' i' Hk' Hi' Hr'. apply (Hlt k' Hk'). by eapply defines_instr.
Qed.

(** ** The equations *)

Section Liveness.
Context {E : Type} (ssa : SsaFunction) (g : ControlFlowGraph) (t : DominatorTree).
Context (Hok : verify g = Ok tt) (Hssa : ssa_wf ssa g t).
#[local] Abbreviation n := (length (blocks g)).
#[local] Abbreviation facts := (block_facts ssa).

Lemma Hwf : cfg_wf g. Proof. by apply verify_wf. Qed.

Lemma filter_preds_pure {F} x l : (forall p, p ∈ l -> p < n) ->
  filter_preds (E := F) g Normal x l = Ok (List.filter (has_normal_edge g x) l).
Proof.
  induction l as [|p l IH]; intros Hl; [done|]. cbn [filter_preds List.filter].
  destruct (lookup_lt_is_Some_2 (blocks g) p) as [b Hb]; [apply Hl; by left|].
  rewrite (index_lookup _ _ _ Hb). cbn [rbind]. rewrite IH by (intros q Hq; apply Hl; by right). cbn [rbind].
  unfold has_normal_edge. rewrite Hb. by destruct (contains _ _).
Qed.

Lemma normal_predecessors_pure {F} i : i < n -> normal_predecessors (E := F) g i = Ok (normal_preds g i).
Proof.
  intros Hi. unfold normal_predecessors, predecessors, normal_preds.
  destruct (lookup_lt_is_Some_2 (blocks g) i Hi) as [b Hb]. rewrite (index_lookup _ _ _ Hb), Hb. cbn [rbind].
  apply filter_preds_pure. intros p Hp. apply (wf_preds g Hwf i b p Hb) in Hp as (pb & Hpb & _). by eapply lookup_lt_Some.
Qed.

Lemma elem_of_normal_preds i u : i < n -> u ∈ normal_preds g i <-> sel_edge g Normal u i.
Proof.
  intros Hi. destruct (predecessors_spec (E := unit) g Hwf Normal i Hi) as (l & Hl & Hel). rewrite <- Hel.
  pose proof (normal_predecessors_pure (F := unit) i Hi) as Hp. unfold normal_predecessors in Hp.
  rewrite Hl in Hp. by injection Hp as ->.
Qed.

Lemma NoDup_normal_preds i : NoDup (normal_preds g i).
Proof.
  unfold normal_preds. destruct (blocks g !! i) as [b|] eqn:Hb; [|constructor]. apply NoDup_ListNoDup, List.NoDup_filter, NoDup_ListNoDup.
  destruct (wf_canonical g Hwf i b Hb) as (_ & _ & H). by eapply increasing_NoDup.
Qed.

Lemma position_Some l u j : NoDup l -> position l u = Some j <-> l !! j = Some u.
Proof.
  revert j. induction l as [|c l IH]; intros j Hnd; [done|]. apply NoDup_cons in Hnd as [Hc Hnd]. cbn [position].
  destruct (Nat.eqb_spec c u) as [->|Hne].
  - split; [by intros [= <-]|]. destruct j as [|j]; [done|]. simpl. intros Hj. by apply list_elem_of_lookup_2 in Hj.
  - destruct j as [|j]; simpl; [split; [by destruct (position l u)|congruence]|]. rewrite <- IH by done.
    destruct (position l u); simpl; naive_solver.
Qed.

Lemma phi_inputs_at_spec i b l j : ssa_blocks ssa !! i = Some b -> (forall phi, phi ∈ l -> phi ∈ phis b) ->
  j < length (normal_preds g i) ->
  exists X, phi_inputs_at (E := E) ssa l j = Ok X /\ forall v, v ∈ X <->
    exists phi d ins, phi ∈ l /\ values ssa !! phi = Some d /\ merge_inputs (value_def d) = Some ins /\ ins !! j = Some v.
Proof.
  intros Hb. induction l as [|phi l IH]; intros Hl Hj; cbn [phi_inputs_at].
  { exists ∅. split; [done|]. intros v. split; [by intros ?%elem_of_empty|by intros (? & ? & ? & ?%elem_of_nil & _)]. }
  destruct IH as (X & HX & Hspec); [intros p Hp; apply Hl; by right|done|].
  assert (Hphi : phi ∈ phis b) by (apply Hl; by left).
  destruct (sw_defined _ _ _ Hssa i b phi Head Hb (defines_head b phi Hphi)) as (d & Hd & _).
  rewrite (index_lookup _ _ _ Hd). cbn [rbind]. destruct (merge_inputs (value_def d)) as [ins|] eqn:Hm.
  - destruct (sw_inputs _ _ _ Hssa i b phi d ins Hb Hphi Hd Hm) as (np & Hnp & Hins).
    rewrite normal_predecessors_pure in Hnp by (rewrite <- (sw_len _ _ _ Hssa); by eapply lookup_lt_Some).
    injection Hnp as <-. destruct (lookup_lt_is_Some_2 ins j) as [v0 Hv0]; [lia|].
    rewrite (index_lookup _ _ _ Hv0). cbn [rbind]. rewrite HX. cbn [rbind]. exists ({[v0]} ∪ X). split; [done|].
    intros v. rewrite elem_of_union, elem_of_singleton, Hspec. setoid_rewrite elem_of_cons. naive_solver.
  - exists X. split; [done|]. intros v. rewrite Hspec. setoid_rewrite elem_of_cons. naive_solver.
Qed.

Lemma phi_uses_spec u s : sel_edge g Normal u s ->
  exists X, phi_uses (E := E) ssa g u s = Ok X /\ forall v, v ∈ X <-> phi_input ssa g u s v.
Proof.
  intros He. destruct (sel_edge_lt g Hwf Normal u s He) as [_ Hs]. unfold phi_uses.
  rewrite normal_predecessors_pure by done. cbn [rbind].
  pose proof (proj2 (elem_of_normal_preds s u Hs) He) as [j Hj]%list_elem_of_lookup.
  rewrite (proj2 (position_Some _ _ _ (NoDup_normal_preds s)) Hj).
  destruct (lookup_lt_is_Some_2 (ssa_blocks ssa) s) as [b Hb]; [by rewrite (sw_len _ _ _ Hssa)|].
  rewrite (index_lookup _ _ _ Hb). cbn [rbind].
  destruct (phi_inputs_at_spec s b (phis b) j Hb (fun _ H => H)) as (X & -> & HX); [by eapply lookup_lt_Some|].
  exists X. split; [done|]. intros v. rewrite HX. unfold phi_input. split.
  - intros (phi & d & ins & H1 & H2 & H3 & H4). exists b, phi, d, ins, j. done.
  - intros (b' & phi & d & ins & j' & Hb' & H1 & H2 & H3 & H4 & H5). simplify_eq.
    assert (j' = j) as -> by (eapply NoDup_lookup; [apply NoDup_normal_preds|done|done]). eauto 10.
Qed.

(** Membership in the set of a block, by index. *)
Definition at_block (sets : list (gset nat)) (i : BlockId) (v : ValueId) : Prop :=
  exists X, sets !! i = Some X /\ v ∈ X.

(** What the successors of a block demand, given their live-in sets. *)
Definition demand (li : list (gset nat)) (u : BlockId) (v : ValueId) : Prop :=
  exists s, sel_edge g Normal u s
  /\ ((at_block li s v /\ forall b, ssa_blocks ssa !! s = Some b -> v ∉ phis b) \/ phi_input ssa g u s v).

Definition start_of (i : BlockId) (out : gset nat) (v : ValueId) : Prop :=
  i <> ssa_entry ssa /\ exists b, ssa_blocks ssa !! i = Some b
  /\ (v ∈ phis b \/ exposed b v \/ (v ∈ out /\ forall k, ~ defines b v (Instruction k))).

Lemma facts_lookup i : i < n -> exists b, ssa_blocks ssa !! i = Some b /\ facts !! i = Some (block_fact b).
Proof.
  intros Hi. destruct (lookup_lt_is_Some_2 (ssa_blocks ssa) i) as [b Hb]; [by rewrite (sw_len _ _ _ Hssa)|].
  exists b. split; [done|]. unfold block_facts. by rewrite map_lookup, Hb.
Qed.

Lemma live_out_of_spec li u ss acc : length li = n -> (forall s, s ∈ ss -> sel_edge g Normal u s) ->
  exists X, live_out_of (E := E) ssa g facts li u ss acc = Ok X /\ forall v, v ∈ X <-> v ∈ acc \/
    exists s, s ∈ ss /\ ((at_block li s v /\ forall b, ssa_blocks ssa !! s = Some b -> v ∉ phis b) \/ phi_input ssa g u s v).
Proof.
  intros Hlen. revert acc. induction ss as [|s ss IH]; intros acc Hss; cbn [live_out_of].
  { exists acc. split; [done|]. intros v. split; [by left|]. intros [?|(s & ?%elem_of_nil & _)]; done. }
  pose proof (Hss s ltac:(by left)) as He. destruct (sel_edge_lt g Hwf Normal u s He) as [_ Hs].
  destruct (lookup_lt_is_Some_2 li s) as [I HI]; [lia|]. rewrite (index_lookup _ _ _ HI). cbn [rbind].
  destruct (facts_lookup s Hs) as (b & Hb & Hf). rewrite (index_lookup _ _ _ Hf). cbn [rbind].
  destruct (phi_uses_spec u s He) as (U & -> & HU). cbn [rbind].
  destruct (IH (acc ∪ I ∖ phi_defs (block_fact b) ∪ U)) as (X & -> & HX); [intros s' Hs'; apply Hss; by right|].
  exists X. split; [done|]. intros v. rewrite HX, !elem_of_union, elem_of_difference, HU, (proj1 (block_fact_spec b)).
  assert (Hat : v ∈ I /\ (v ∉ phis b) <-> at_block li s v /\ forall b, ssa_blocks ssa !! s = Some b -> v ∉ phis b).
  { unfold at_block. rewrite HI. split.
    - intros [HvI Hvp]. split; [eauto|]. intros b' Hb'. by simplify_eq.
    - intros [(I' & [= <-] & HvI) Hvp]. split; [done|]. by apply Hvp. }
  rewrite Hat. setoid_rewrite elem_of_cons. split; [naive_solver|]. intros [?|(s' & [-> |?] & ?)]; naive_solver.
Qed.

Lemma recompute_live_out_spec li u : length li = n -> u < n ->
  exists X, recompute_live_out (E := E) ssa g facts li u = Ok X /\ forall v, v ∈ X <-> demand li u v.
Proof.
  intros Hlen Hu. unfold recompute_live_out. destruct (lookup_lt_is_Some_2 (blocks g) u Hu) as [b Hb].
  rewrite (index_lookup _ _ _ Hb). cbn [rbind].
  assert (Hs : forall s, s ∈ normal_succs b <-> sel_edge g Normal u s).
  { intros s. unfold sel_edge, sel_succs. split; [eauto|]. intros (b' & Hb' & H). by simplify_eq. }
  destruct (live_out_of_spec li u (normal_succs b) ∅ Hlen) as (X & -> & HX); [intros s; apply Hs|].
  exists X. split; [done|]. intros v. rewrite HX. unfold demand. setoid_rewrite Hs. set_solver.
Qed.

(** ** The iteration *)

Lemma at_block_insert sets i X j v : i < length sets ->
  at_block (<[i := X]> sets) j v <-> (j = i /\ v ∈ X) \/ (j <> i /\ at_block sets j v).
Proof.
  intros Hi. unfold at_block. destruct (decide (j = i)) as [->|Hne].
  - rewrite list_lookup_insert_eq by done. naive_solver.
  - rewrite list_lookup_insert_ne by done. naive_solver.
Qed.

Record live_inv (l : Liveness) : Prop := {
  lv_in_len : length (live_in l) = n;
  lv_out_len : length (live_out l) = n;
  lv_out : forall i v, at_block (live_out l) i v -> demand (live_in l) i v;
  lv_in : forall i v O, live_out l !! i = Some O -> at_block (live_in l) i v -> start_of i O v;
  lv_sound : forall i v, at_block (live_out l) i v -> needed ssa g v i;
  lv_universe : forall i v, at_block (live_in l) i v \/ at_block (live_out l) i v -> v ∈ mentioned ssa
}.

Definition stable_at (l : Liveness) (i : BlockId) : Prop :=
  exists X Y, live_out l !! i = Some X /\ live_in l !! i = Some Y
  /\ (forall v, v ∈ X <-> demand (live_in l) i v) /\ (forall v, v ∈ Y <-> start_of i X v).

Lemma demand_mono li li' u v : (forall i w, at_block li i w -> at_block li' i w) -> demand li u v -> demand li' u v.
Proof. intros Hsub (s & He & [[Hs Hp]|Hp]); exists s; (split; [done|]); [left; auto|by right]. Qed.

Lemma start_mono i O O' v : (forall w, w ∈ O -> w ∈ O') -> start_of i O v -> start_of i O' v.
Proof. intros Hsub (Hne & b & Hb & H). split; [done|]. exists b. split; [done|]. naive_solver. Qed.

(** A demanded value is needed when the live-in sets are sound. *)
Lemma demand_needed l u v : live_inv l -> demand (live_in l) u v -> needed ssa g v u.
Proof.
  intros Hinv (s & He & [[Hs Hp]|Hp]); [|by eapply needed_phi].
  destruct (sel_edge_lt g Hwf Normal u s He) as [_ Hsn].
  destruct (lookup_lt_is_Some_2 (live_out l) s) as [O HO]; [by rewrite (lv_out_len _ Hinv)|].
  destruct (lv_in _ Hinv s v O HO Hs) as (Hne & b & Hb & [Hv|[Hv|[Hv Hd]]]).
  - by apply Hp in Hv.
  - by eapply needed_use.
  - eapply needed_through; [done|done|done| |by apply (lv_sound _ Hinv); exists O].
    intros p Hdef. inversion Hdef as [Hin|k i Hi Hr]; subst; [by apply (Hp b Hb)|by apply (Hd k)].
Qed.

Lemma demand_mentioned l u v : live_inv l -> demand (live_in l) u v -> v ∈ mentioned ssa.
Proof.
  intros Hinv (s & He & [[Hs _]|(b & phi & d & ins & j & _ & _ & Hd & Hm & _ & Hj)]); [by apply (lv_universe _ Hinv s); left|].
  unfold mentioned. apply elem_of_app. right. apply list_elem_of_In, in_flat_map. exists d.
  split; [apply list_elem_of_In; by eapply list_elem_of_lookup_2|]. rewrite Hm. simpl. apply list_elem_of_In. by eapply list_elem_of_lookup_2.
Qed.

Lemma start_mentioned i O v : (forall w, w ∈ O -> w ∈ mentioned ssa) -> start_of i O v -> v ∈ mentioned ssa.
Proof.
  intros HO (_ & b & Hb & [Hv|[(_ & k & ins & Hi & Hv & _)|[Hv _]]]); [..|auto].
  - unfold mentioned. apply elem_of_app. left. apply list_elem_of_In, in_flat_map. exists b.
    split; [apply list_elem_of_In; by eapply list_elem_of_lookup_2|]. apply in_app_iff. left. by apply list_elem_of_In.
  - unfold mentioned. apply elem_of_app. left. apply list_elem_of_In, in_flat_map. exists b.
    split; [apply list_elem_of_In; by eapply list_elem_of_lookup_2|]. apply in_app_iff. right. apply in_flat_map. exists ins.
    split; apply list_elem_of_In; [by eapply list_elem_of_lookup_2|done].
Qed.

(** Recomputing the sets of one block. *)
Lemma update_inv_live l i X Y : live_inv l -> i < n ->
  (forall v, v ∈ X <-> demand (live_in l) i v) -> (forall v, v ∈ Y <-> start_of i X v) ->
  live_inv (mkLiveness (<[i := Y]> (live_in l)) (<[i := X]> (live_out l)))
  /\ (forall O, live_out l !! i = Some O -> O ⊆ X) /\ (forall I, live_in l !! i = Some I -> I ⊆ Y).
Proof.
  intros Hinv Hi HX HY. pose proof (lv_in_len _ Hinv) as Hil. pose proof (lv_out_len _ Hinv) as Hol.
  assert (HO : forall O, live_out l !! i = Some O -> O ⊆ X).
  { intros O HO v Hv. apply HX, (lv_out _ Hinv). by exists O. }
  assert (HI : forall I, live_in l !! i = Some I -> I ⊆ Y).
  { intros I HI v Hv. apply HY. destruct (lookup_lt_is_Some_2 (live_out l) i) as [O HO']; [lia|].
    eapply start_mono; [|apply (lv_in _ Hinv i v O HO'); by exists I]. intros w. by apply HO. }
  assert (Hin : forall j w, at_block (live_in l) j w -> at_block (<[i := Y]> (live_in l)) j w).
  { intros j w Hw. apply at_block_insert; [lia|]. destruct (decide (j = i)) as [->|]; [|by right].
    left. split; [done|]. destruct Hw as (I & HIl & Hw). by apply (HI I HIl). }
  split; [|done]. split; cbn [live_in live_out].
  - by rewrite length_insert.
  - by rewrite length_insert.
  - intros j v Hv. apply at_block_insert in Hv as [[-> Hv]|[Hne Hv]]; [| |lia].
    + eapply demand_mono; [exact Hin|]. by apply HX.
    + eapply demand_mono; [exact Hin|]. by apply (lv_out _ Hinv).
  - intros j v O HjO Hv. apply at_block_insert in Hv as [[-> Hv]|[Hne Hv]]; [| |lia].
    + rewrite list_lookup_insert_eq in HjO by lia. simplify_eq. by apply HY.
    + rewrite list_lookup_insert_ne in HjO by done. by apply (lv_in _ Hinv j v O).
  - intros j v Hv. apply at_block_insert in Hv as [[-> Hv]|[Hne Hv]]; [| |lia].
    + apply (demand_needed l); [done|]. by apply HX.
    + by apply (lv_sound _ Hinv).
  - assert (HXm : forall w, w ∈ X -> w ∈ mentioned ssa) by (intros w Hw; apply (demand_mentioned l i); [done|by apply HX]).
    intros j v [Hv|Hv]; apply at_block_insert in Hv as [[-> Hv]|[Hne Hv]]; try lia.
    + eapply start_mentioned; [exact HXm|by apply HY].
    + apply (lv_universe _ Hinv j). by left.
    + by apply HXm.
    + apply (lv_universe _ Hinv j). by right.
Qed.

Lemma pass_block_spec l i changed : live_inv l -> i < n ->
  exists X Y changed', pass_block (E := E) ssa g facts i l changed
      = Ok (mkLiveness (<[i := Y]> (live_in l)) (<[i := X]> (live_out l)), changed')
  /\ (forall v, v ∈ X <-> demand (live_in l) i v) /\ (forall v, v ∈ Y <-> start_of i X v)
  /\ ((changed' = changed /\ live_out l !! i = Some X /\ live_in l !! i = Some Y)
      \/ (changed' = true /\ (live_out l !! i <> Some X \/ live_in l !! i <> Some Y))).
Proof.
  intros Hinv Hi. pose proof (lv_in_len _ Hinv) as Hil. pose proof (lv_out_len _ Hinv) as Hol. unfold pass_block.
  destruct (recompute_live_out_spec (live_in l) i Hil Hi) as (X & -> & HX). cbn [rbind].
  destruct (facts_lookup i Hi) as (b & Hb & Hf). rewrite (index_lookup _ _ _ Hf). cbn [rbind].
  set (Y := if i =? ssa_entry ssa then ∅ else _).
  assert (HY : forall v, v ∈ Y <-> start_of i X v).
  { intros v. unfold Y, start_of. destruct (block_fact_spec b) as (H1 & H2 & H3). destruct (Nat.eqb_spec i (ssa_entry ssa)) as [Heq|Hne].
    - split; [by intros ?%elem_of_empty|by intros [? _]].
    - rewrite !elem_of_union, elem_of_difference, H1, H2, H3. split.
      + intros H. split; [done|]. exists b. split; [done|]. naive_solver.
      + intros (_ & b' & Hb' & H). simplify_eq. naive_solver. }
  destruct (lookup_lt_is_Some_2 (live_out l) i) as [O HO]; [lia|]. rewrite (index_lookup _ _ _ HO). cbn [rbind].
  destruct (lookup_lt_is_Some_2 (live_in l) i) as [I HI]; [lia|]. rewrite (index_lookup _ _ _ HI). cbn [rbind].
  exists X, Y. eexists. split; [|split_and!; [done|done|]].
  - f_equal. f_equal. f_equal; case_bool_decide as Heq; cbn [negb]; try done; symmetry; apply list_insert_id; congruence.
  - rewrite HO, HI. destruct (decide (O = X)) as [->|HOX], (decide (I = Y)) as [->|HIY]; cbn [negb];
      rewrite ?bool_decide_eq_true_2, ?bool_decide_eq_false_2 by done; cbn [negb]; rewrite ?orb_false_r, ?orb_true_r.
    + by left.
    + right. split; [done|]. right. congruence.
    + right. split; [done|]. left. congruence.
    + right. split; [done|]. left. congruence.
Qed.

(** ** Termination *)

Definition sizes (sets : list (gset nat)) : nat := sum_list (map size sets).
Definition live_size (l : Liveness) : nat := sizes (live_in l) + sizes (live_out l).

Lemma sizes_insert sets i X Y : sets !! i = Some X -> sizes (<[i := Y]> sets) + size X = sizes sets + size Y.
Proof.
  unfold sizes. revert i. induction sets as [|Z sets IH]; intros [|i] H; simpl in *; [done|done|simplify_eq; lia|].
  specialize (IH i H). lia.
Qed.

Lemma size_of_list (l : list nat) : size (list_to_set l : gset nat) <= length l.
Proof.
  induction l as [|x l IH]; [by rewrite list_to_set_nil, size_empty|]. cbn [length].
  rewrite list_to_set_cons, size_union_alt, size_singleton.
  assert (size ((list_to_set l : gset nat) ∖ {[x]}) <= size (list_to_set l : gset nat)) by (apply subseteq_size; set_solver). lia.
Qed.

Lemma size_le_mentioned sets : (forall i v, at_block sets i v -> v ∈ mentioned ssa) ->
  sizes sets <= length sets * length (mentioned ssa).
Proof.
  unfold sizes. induction sets as [|X sets IH]; intros H; simpl; [done|].
  assert (HX : size X <= length (mentioned ssa)).
  { assert (Hsub : X ⊆ (list_to_set (mentioned ssa) : gset nat)).
    { intros v Hv. apply elem_of_list_to_set, (H 0). by exists X. }
    apply subseteq_size in Hsub. etrans; [exact Hsub|apply size_of_list]. }
  specialize (IH (fun i v Hv => H (S i) v Hv)). lia.
Qed.

Lemma update_size l i X Y : live_inv l -> i < n ->
  (forall O, live_out l !! i = Some O -> O ⊆ X) -> (forall I, live_in l !! i = Some I -> I ⊆ Y) ->
  live_size l <= live_size (mkLiveness (<[i := Y]> (live_in l)) (<[i := X]> (live_out l)))
  /\ (live_out l !! i <> Some X \/ live_in l !! i <> Some Y ->
      live_size l < live_size (mkLiveness (<[i := Y]> (live_in l)) (<[i := X]> (live_out l)))).
Proof.
  intros Hinv Hi HX HY. destruct (lookup_lt_is_Some_2 (live_out l) i) as [O HO]; [by rewrite (lv_out_len _ Hinv)|].
  destruct (lookup_lt_is_Some_2 (live_in l) i) as [I HI]; [by rewrite (lv_in_len _ Hinv)|].
  unfold live_size. cbn [live_in live_out].
  pose proof (sizes_insert _ _ _ Y HI) as H1. pose proof (sizes_insert _ _ _ X HO) as H2.
  pose proof (subseteq_size _ _ (HX O HO)) as H3. pose proof (subseteq_size _ _ (HY I HI)) as H4.
  split; [lia|]. rewrite HO, HI. intros [Hne|Hne].
  - assert (O ⊂ X) as H%subset_size by (apply strict_spec_alt; split; [auto|congruence]). lia.
  - assert (I ⊂ Y) as H%subset_size by (apply strict_spec_alt; split; [auto|congruence]). lia.
Qed.

Lemma backward_pass_spec order l changed : (forall i, i ∈ order -> i < n) -> live_inv l ->
  exists l' changed', backward_pass (E := E) ssa g facts order l changed = Ok (l', changed') /\ live_inv l'
  /\ live_size l <= live_size l'
  /\ ((changed' = changed /\ l' = l /\ forall i, i ∈ order -> stable_at l i)
      \/ (changed' = true /\ live_size l < live_size l')).
Proof.
  revert l changed. induction order as [|i order IH]; intros l changed Hord Hinv; cbn [backward_pass].
  { exists l, changed. split_and!; [done|done|done|]. left. split_and!; [done|done|by intros ? ?%elem_of_nil]. }
  assert (Hi : i < n) by (apply Hord; by left).
  destruct (pass_block_spec l i changed Hinv Hi) as (X & Y & changed1 & -> & HX & HY & Hcase). cbn [rbind].
  destruct (update_inv_live l i X Y Hinv Hi HX HY) as (Hinv1 & HO & HI).
  destruct (update_size l i X Y Hinv Hi HO HI) as [Hle Hlt]. set (l1 := mkLiveness _ _) in *.
  destruct (IH l1 changed1) as (l' & changed' & -> & Hinv' & Hle' & Hcase'); [intros j Hj; apply Hord; by right|done|].
  exists l', changed'. split_and!; [done|done|lia|].
  destruct Hcase as [(-> & HOX & HIY)|(-> & Hne)]; [|right; destruct Hcase' as [(-> & _ & _)|(-> & _)]; (split; [done|]); specialize (Hlt Hne); lia].
  assert (l1 = l) as Heq by (unfold l1; rewrite !list_insert_id by done; by destruct l). rewrite Heq in *.
  destruct Hcase' as [(-> & -> & Hst)|(-> & Hlt')]; [|by right].
  left. split_and!; [done|done|]. intros j [-> |Hj]%elem_of_cons; [|auto]. by exists X, Y.
Qed.

Lemma liveness_loop_spec fuel order l : (forall i, i ∈ order -> i < n) -> live_inv l ->
  2 * n * length (mentioned ssa) - live_size l < fuel ->
  exists l', liveness_loop (E := E) ssa g fuel facts order l = Ok l' /\ live_inv l' /\ forall i, i ∈ order -> stable_at l' i.
Proof.
  intros Hord. revert l. induction fuel as [|fuel IH]; intros l Hinv Hf; [lia|]. cbn [liveness_loop].
  destruct (backward_pass_spec order l false Hord Hinv) as (l1 & changed & -> & Hinv1 & _ & Hcase). cbn [rbind].
  destruct Hcase as [(-> & -> & Hst)|(-> & Hlt)]; [by exists l|]. apply IH; [done|].
  assert (Hb : live_size l1 <= 2 * n * length (mentioned ssa)).
  { unfold live_size. pose proof (size_le_mentioned (live_in l1) (fun i v H => lv_universe _ Hinv1 i v (or_introl H))).
    pose proof (size_le_mentioned (live_out l1) (fun i v H => lv_universe _ Hinv1 i v (or_intror H))).
    rewrite (lv_in_len _ Hinv1) in *. rewrite (lv_out_len _ Hinv1) in *. lia. }
  lia.
Qed.

Lemma live_inv_start : live_inv (mkLiveness (replicate n ∅) (replicate n ∅)).
Proof.
  assert (Hno : forall i v, ~ at_block (replicate n ∅) i v).
  { intros i v (X & [-> _]%lookup_replicate & ?%elem_of_empty). done. }
  split; cbn [live_in live_out]; [by rewrite length_replicate|by rewrite length_replicate|..].
  - intros i v []%Hno.
  - intros i v O _ []%Hno.
  - intros i v []%Hno.
  - intros i v [[]%Hno|[]%Hno].
Qed.

(** ** Exactness *)

Lemma needed_live l v u : live_inv l -> (forall i, i < n -> stable_at l i) -> needed ssa g v u -> at_block (live_out l) u v.
Proof.
  intros Hinv Hst Hn. induction Hn as [u s He Hp|u s b He Hne Hb Hx|u s b He Hne Hb Hd _ IH].
  all: destruct (sel_edge_lt g Hwf Normal u s He) as [Hu Hs]; destruct (Hst u Hu) as (X & Y & HX & _ & HXd & _);
    exists X; (split; [done|]); apply HXd; exists s; (split; [done|]).
  - by right.
  - left. destruct (Hst s Hs) as (X' & Y' & _ & HY' & _ & HYs). split.
    + exists Y'. split; [done|]. apply HYs. split; [done|]. exists b. split; [done|]. right. by left.
    + intros b' Hb'. simplify_eq. by destruct Hx.
  - left. destruct (Hst s Hs) as (X' & Y' & HX' & HY' & _ & HYs). split.
    + exists Y'. split; [done|]. apply HYs. split; [done|]. exists b. split; [done|]. right. right.
      destruct IH as (X'' & HX'' & Hv). simplify_eq. split; [done|]. intros k. apply Hd.
    + intros b' Hb' Hv. simplify_eq. by apply (Hd Head), defines_head.
Qed.

Lemma liveness_compute_spec : exists l, liveness_compute (E := E) ssa g = Ok l /\ live_inv l
  /\ (forall i, i < n -> stable_at l i)
  /\ (forall i v, i < n -> at_block (live_out l) i v <-> needed ssa g v i)
  /\ (forall i v, i < n -> at_block (live_in l) i v <-> live_at_start ssa g i v).
Proof.
  unfold liveness_compute, compute_normal.
  destruct (compute_tree (E := E) g Hok Normal) as (order & parents & f & num & -> & _ & Hall & _). cbn [rbind rpo].
  destruct (liveness_loop_spec (liveness_fuel ssa g) (reverse order) _ (fun i Hi => proj1 (Hall i) (proj1 (elem_of_reverse _ _) Hi))
    live_inv_start) as (l & -> & Hinv & Hst0).
  { unfold liveness_fuel. lia. }
  assert (Hst : forall i, i < n -> stable_at l i) by (intros i Hi; by apply Hst0, elem_of_reverse, Hall).
  assert (Hout : forall i v, i < n -> at_block (live_out l) i v <-> needed ssa g v i).
  { intros i v Hi. split; [apply (lv_sound _ Hinv)|by apply needed_live]. }
  exists l. split_and!; [done|done|done|done|]. intros i v Hi.
  destruct (Hst i Hi) as (X & Y & HX & HY & _ & HYs).
  assert (HXn : v ∈ X <-> needed ssa g v i) by (rewrite <- (Hout i v Hi); unfold at_block; rewrite HX; naive_solver).
  transitivity (v ∈ Y); [unfold at_block; rewrite HY; naive_solver|].
  rewrite HYs. unfold start_of, live_at_start. by setoid_rewrite HXn.
Qed.
End Liveness.
