(* ===== verification/LivenessChecks.v ===== *)
(** The theorems on liveness as a whole: exactness at blocks and instructions,
    and that the self-check accepts the analysis of every verified function. *)

From stdpp Require Import gmap relations sorting.
From S2P Require Import Prelude Slices Opcode Cfg CfgProps Dom RpoProps DomProps Dominance DomChecks Ssa SsaProps Liveness LivenessProps.
#[local] Set Warnings "-clear-no-such-hyp".

Lemma live_before_spec l live v : v ∈ live_before l live <-> exposed_in l v \/ (v ∈ live /\ ~ results_in l v).
Proof.
  induction l as [|i l IH]; cbn [live_before].
  { split; [intros Hv; right; split; [done|by intros (k & i & Hk & _)]|]. intros [(k & i & Hk & _)|[? _]]; done. }
  rewrite elem_of_union, elem_of_list_to_set, exposed_in_cons, results_in_cons.
  assert (Hr : v ∈ match result i with Some r => live_before l live ∖ {[r]} | None => live_before l live end
    <-> result i <> Some v /\ v ∈ live_before l live).
  { destruct (result i) as [r|]; [|naive_solver]. rewrite elem_of_difference, elem_of_singleton. naive_solver. }
  rewrite Hr, IH. destruct (decide (result i = Some v)); naive_solver.
Qed.

(** C22: on a verified graph and SSA function the liveness fixpoint ends with exact sets: a value is
    live out of a block iff a path of normal edges from its end reaches a use of the value without
    passing a definition of it, live in iff it is a merge of the block, used in it before any
    definition, or passed through (nothing is live into the function entry); and after an
    instruction iff a later instruction of the block reads it before the block defines it again,
    or it is live out and not defined later in the block. *)
Theorem liveness_exact {E : Type} (ssa : SsaFunction) (g : ControlFlowGraph) (t : DominatorTree) :
  verify g = Ok tt -> ssa_verify ssa g t = Ok tt ->
  exists l, liveness_compute (E := E) ssa g = Ok l
  /\ (forall i v, i < length (blocks g) -> at_block (live_out l) i v <-> needed ssa g v i)
  /\ (forall i v, i < length (blocks g) -> at_block (live_in l) i v <-> live_at_start ssa g i v)
  /\ (forall i b k, ssa_blocks ssa !! i = Some b -> k < length (instrs b) ->
      exists X, live_after_instruction l ssa i k = Some X
      /\ forall v, v ∈ X <-> exposed_in (drop (S k) (instrs b)) v
                            \/ (needed ssa g v i /\ ~ results_in (drop (S k) (instrs b)) v)).
Proof.
  intros Hok Hver. pose proof (ssa_verify_wf _ _ _ Hver) as Hssa.
  destruct (liveness_compute_spec (E := E) ssa g t Hok Hssa) as (l & Hl & Hinv & _ & Hout & Hin).
  exists l. split_and!; [done|done|done|]. intros i b k Hb Hk.
  assert (Hi : i < length (blocks g)) by (rewrite <- (sw_len _ _ _ Hssa); by eapply lookup_lt_Some).
  unfold live_after_instruction. rewrite Hb, (proj2 (Nat.leb_gt _ _) Hk).
  destruct (lookup_lt_is_Some_2 (live_out l) i) as [O HO]; [by rewrite (lv_out_len _ _ _ Hinv)|]. rewrite HO.
  eexists. split; [done|]. intros v. rewrite live_before_spec, <- (Hout i v Hi). unfold at_block. rewrite HO. naive_solver.
Qed.

(** ** Live values are dominated by their definitions *)

(** The verifier of SSA form checks the inputs of phis, not those of the results of
    spliced calls; this is what it would check of them. *)
Definition inline_inputs_dominated (ssa : SsaFunction) (g : ControlFlowGraph) : Prop :=
  forall i b v d owner register ins j p u, ssa_blocks ssa !! i = Some b -> v ∈ phis b -> values ssa !! v = Some d ->
    value_def d = ValueDef.InlineResult owner register ins ->
    normal_preds g i !! j = Some p -> ins !! j = Some u ->
    exists du, values ssa !! u = Some du /\ dominator g Full (def_block du) p.

Section Checks.
Context (ssa : SsaFunction) (g : ControlFlowGraph) (t : DominatorTree).
Context (Hok : verify g = Ok tt) (Hssa : ssa_wf ssa g t) (Hinline : inline_inputs_dominated ssa g).
#[local] Abbreviation n := (length (blocks g)).

Lemma tree_dominates {F} a b : b < n ->
  exists r, dominates (E := F) t a b = Ok r /\ (r = true <-> dominator g Full a b).
Proof.
  intros Hb. pose proof (tree_verify_only g Hok t (sw_tree _ _ _ Hssa)) as Ht. rewrite (sw_full _ _ _ Hssa) in Ht.
  destruct (compute_tree (E := DomError) g Hok Full) as (order & parents & f & num & Heq & Hnd & Hall & Htree & _).
  rewrite Heq in Ht. injection Ht as <-. eapply dominates_spec; [by apply verify_wf|done|done|done].
Qed.

Lemma dominates_true {F} a b : b < n -> dominates (E := F) t a b = Ok true <-> dominator g Full a b.
Proof. intros Hb. destruct (tree_dominates (F := F) a b Hb) as (r & -> & <-). split; [by intros [= ->]|by intros ->]. Qed.

Lemma dominator_refl i : dominator g Full i i.
Proof. intros l Hl. by inversion Hl; subst; left. Qed.

Lemma dominator_pred a u s : sel_edge g Full u s -> a <> s -> dominator g Full a s -> dominator g Full a u.
Proof.
  intros He Hne Hd l Hl. specialize (Hd _ (route_step g Full u s l Hl He)). by apply elem_of_cons in Hd as [->|].
Qed.

Lemma normal_full u s : sel_edge g Normal u s -> sel_edge g Full u s.
Proof. intros (b & Hb & Hs). exists b. split; [done|]. simpl. apply elem_of_app. by left. Qed.

Lemma block_lt i b : ssa_blocks ssa !! i = Some b -> i < n.
Proof. intros Hb. rewrite <- (sw_len _ _ _ Hssa). by eapply lookup_lt_Some. Qed.

(** A value whose defining block is [i] is defined there. *)
Lemma defined_in v d i b : values ssa !! v = Some d -> def_block d = i -> ssa_blocks ssa !! i = Some b ->
  exists p, defines b v p.
Proof.
  intros Hd Hi Hb. destruct (sw_placed _ _ _ Hssa v) as (j & c & p & Hc & Hp); [by eapply lookup_lt_Some|].
  destruct (sw_defined _ _ _ Hssa j c v p Hc Hp) as (d' & Hd' & Hj). simplify_eq. eauto.
Qed.

(** An exposed use: the definition strictly dominates the block. *)
Lemma exposed_dominated i b v : ssa_blocks ssa !! i = Some b -> exposed b v ->
  exists d, values ssa !! v = Some d /\ def_block d <> i /\ dominator g Full (def_block d) i.
Proof.
  intros Hb (Hphi & k & ins & Hi & Hv & Hbefore). destruct (sw_use _ _ _ Hssa i b k ins v Hb Hi Hv) as (d & Hd & Hdom & Hord).
  exists d. split_and!; [done| |by apply (dominates_true (F := SsaError)); [by eapply block_lt|]].
  intros Heq. destruct (defined_in v d i b Hd Heq Hb) as [p Hp]. destruct Hp as [Hp|k' i' Hi' Hr]; [done|].
  assert (Hdef : defines b v (Instruction k')) by (by eapply defines_instr). apply (Hbefore k'); [by apply Hord|done].
Qed.

Lemma phi_input_dominated u s v : s < n -> phi_input ssa g u s v ->
  exists d, values ssa !! v = Some d /\ dominator g Full (def_block d) u.
Proof.
  intros Hs (b & phi & d & ins & j & Hb & Hphi & Hd & Hm & Hu & Hv).
  assert (Hul : u < n).
  { assert (Hin : u ∈ normal_preds g s) by (by eapply list_elem_of_lookup_2).
    apply (elem_of_normal_preds g Hok s u Hs) in Hin. by destruct (sel_edge_lt g (verify_wf g Hok) Normal u s Hin). }
  destruct (value_def d) eqn:Hdef; simplify_eq/=.
  - by eapply Hinline.
  - destruct (sw_phi_use _ _ _ Hssa s b phi d block register ins (normal_preds g s) j u v Hb Hphi Hd Hdef
      (normal_predecessors_pure g Hok (F := SsaError) s Hs) Hu Hv) as (du & Hdu & Hdom).
    exists du. split; [done|]. by apply (dominates_true (F := SsaError)).
Qed.

Lemma needed_dominated v u : needed ssa g v u -> exists d, values ssa !! v = Some d /\ dominator g Full (def_block d) u.
Proof.
  induction 1 as [u s He Hp|u s b He Hne Hb Hx|u s b He Hne Hb Hd _ (d & Hvd & Hdom)].
  - eapply phi_input_dominated; [|done]. by destruct (sel_edge_lt g (verify_wf g Hok) Normal u s He).
  - destruct (exposed_dominated s b v Hb Hx) as (d & Hd & Hds & Hdom). exists d. split; [done|].
    eapply dominator_pred; [by apply normal_full|done|done].
  - exists d. split; [done|]. eapply dominator_pred; [by apply normal_full| |done].
    intros Heq. destruct (defined_in v d s b Hvd Heq Hb) as [p Hp]. by apply (Hd p).
Qed.

Lemma start_dominated i v : live_at_start ssa g i v -> exists d, values ssa !! v = Some d /\ dominator g Full (def_block d) i.
Proof.
  intros (_ & b & Hb & [Hv|[Hv|[Hv _]]]).
  - destruct (sw_defined _ _ _ Hssa i b v Head Hb (defines_head b v Hv)) as (d & Hd & <-). exists d. split; [done|apply dominator_refl].
  - destruct (exposed_dominated i b v Hb Hv) as (d & Hd & _ & Hdom). eauto.
  - by apply needed_dominated.
Qed.

(** Nothing is exposed in the entry block. *)
Lemma entry_not_exposed b v : ssa_blocks ssa !! entry g = Some b -> ~ exposed b v.
Proof.
  intros Hb Hx. destruct (exposed_dominated _ _ _ Hb Hx) as (d & _ & Hne & Hdom).
  specialize (Hdom [entry g] (route_root g Full (entry g) ltac:(by apply entry_root))).
  by apply list_elem_of_singleton in Hdom.
Qed.

(** ** The self-check *)

Lemma elem_of_in_order v (s : gset nat) : v ∈ in_order s <-> v ∈ s.
Proof. unfold in_order. by rewrite merge_sort_Permutation, elem_of_elements. Qed.

Context (l : Liveness) (Hinv : live_inv ssa g l) (Hst : forall i, i < n -> stable_at ssa g l i).
Context (Hout : forall i v, i < n -> at_block (live_out l) i v <-> needed ssa g v i).
Context (Hin : forall i v, i < n -> at_block (live_in l) i v <-> live_at_start ssa g i v).

Lemma live_dominated i v : i < n -> at_block (live_in l) i v \/ at_block (live_out l) i v ->
  exists d, values ssa !! v = Some d /\ dominator g Full (def_block d) i.
Proof. intros Hi [Hv|Hv]; [apply Hin in Hv; [by apply start_dominated|done]|apply Hout in Hv; [by apply needed_dominated|done]]. Qed.

(** Both sets of a block pass a check that accepts sets of dominated values. *)
Lemma both_sets_Ok check i : i < n ->
  (forall which X, (forall v, v ∈ X -> exists d, values ssa !! v = Some d /\ dominator g Full (def_block d) i) ->
    check i which X = Ok tt) ->
  both_sets l check i = Ok tt.
Proof.
  intros Hi Hcheck. unfold both_sets.
  destruct (lookup_lt_is_Some_2 (live_in l) i) as [I HI]; [by rewrite (lv_in_len _ _ _ Hinv)|].
  destruct (lookup_lt_is_Some_2 (live_out l) i) as [O HO]; [by rewrite (lv_out_len _ _ _ Hinv)|].
  rewrite (index_lookup _ _ _ HI). cbn [rbind]. rewrite Hcheck by (intros v Hv; apply live_dominated; [done|left; by exists I]).
  cbn [rbind]. rewrite (index_lookup _ _ _ HO). cbn [rbind].
  apply Hcheck. intros v Hv. apply live_dominated; [done|right; by exists O].
Qed.

Lemma check_range_Ok i which X : (forall v, v ∈ X -> exists d, values ssa !! v = Some d /\ dominator g Full (def_block d) i) ->
  check_range ssa i which X = Ok tt.
Proof.
  intros HX. unfold check_range. destruct (List.find _ _) as [v|] eqn:Hf; [|done]. exfalso.
  apply List.find_some in Hf as [Hv%list_elem_of_In Hle]. apply elem_of_in_order, HX in Hv as (d & Hd & _).
  apply lookup_lt_Some in Hd. apply Nat.leb_le in Hle. lia.
Qed.

Lemma check_dominance_Ok i which X : i < n ->
  (forall v, v ∈ X -> exists d, values ssa !! v = Some d /\ dominator g Full (def_block d) i) ->
  check_dominance ssa t i which X = Ok tt.
Proof.
  intros Hi HX. unfold check_dominance. apply for_each_all. intros v Hv%elem_of_in_order%HX. destruct Hv as (d & Hd & Hdom).
  rewrite (index_lookup _ _ _ Hd). cbn [rbind]. by rewrite (proj2 (dominates_true (F := LivenessError) _ _ Hi) Hdom).
Qed.

Lemma check_live_out_Ok i : i < n -> check_live_out ssa g l (block_facts ssa) i = Ok tt.
Proof.
  intros Hi. unfold check_live_out.
  destruct (recompute_live_out_spec (E := LivenessError) ssa g t Hok Hssa (live_in l) i (lv_in_len _ _ _ Hinv) Hi) as (X & -> & HX).
  cbn [rbind]. destruct (Hst i Hi) as (X' & _ & HO & _ & HX' & _). rewrite (index_lookup _ _ _ HO). cbn [rbind].
  rewrite bool_decide_eq_true_2; [done|]. apply set_eq. intros v. by rewrite HX, HX'.
Qed.

Lemma backward_pass_stable order changed : (forall i, i ∈ order -> i < n) ->
  backward_pass (E := LivenessError) ssa g (block_facts ssa) order l changed = Ok (l, changed).
Proof.
  induction order as [|i order IH]; intros Hord; [done|]. cbn [backward_pass].
  assert (Hi : i < n) by (apply Hord; by left).
  destruct (pass_block_spec (E := LivenessError) ssa g t Hok Hssa l i changed Hinv Hi) as (X & Y & changed' & -> & HX & HY & Hcase).
  destruct (Hst i Hi) as (X' & Y' & HO & HI & HX' & HY').
  assert (X = X') as -> by (apply set_eq; intros v; by rewrite HX, HX').
  assert (Y = Y') as -> by (apply set_eq; intros v; by rewrite HY, HY').
  destruct Hcase as [(-> & _ & _)|(_ & [Hne|Hne])]; [|done|done]. cbn [rbind].
  rewrite !list_insert_id by done. destruct l. apply IH. intros j Hj. apply Hord. by right.
Qed.

Lemma check_exposed_Ok i b : ssa_blocks ssa !! i = Some b -> check_exposed l i (block_fact b) = Ok tt.
Proof.
  intros Hb. pose proof (block_lt i b Hb) as Hi. unfold check_exposed.
  destruct (lookup_lt_is_Some_2 (live_in l) i) as [I HI]; [by rewrite (lv_in_len _ _ _ Hinv)|].
  rewrite (index_lookup _ _ _ HI). cbn [rbind].
  destruct (in_order (uses (block_fact b) ∖ I)) as [|v rest] eqn:Ho; [done|]. exfalso.
  assert (Hv : v ∈ uses (block_fact b) ∖ I) by (apply elem_of_in_order; rewrite Ho; by left).
  apply elem_of_difference in Hv as [Hu Hn]. apply (block_fact_spec b) in Hu. apply Hn.
  assert (Hat : at_block (live_in l) i v); [|destruct Hat as (I' & HI' & ?); by simplify_eq].
  apply Hin; [done|]. split; [|exists b; split; [done|]; right; by left].
  intros ->. rewrite (sw_entry _ _ _ Hssa) in Hb. by apply (entry_not_exposed b v Hb).
Qed.

Lemma liveness_verify_Ok : liveness_verify ssa g l t = Ok tt.
Proof.
  unfold liveness_verify. rewrite (lv_in_len _ _ _ Hinv), (lv_out_len _ _ _ Hinv), Nat.eqb_refl. cbn [negb orb].
  unfold includes_exception_edges. rewrite bool_decide_eq_true_2 by apply (sw_full _ _ _ Hssa). cbn [negb].
  rewrite (sw_tree _ _ _ Hssa). cbn [map_err rbind].
  rewrite for_each_all; cycle 1.
  { intros i Hi%elem_of_seq. apply both_sets_Ok; [lia|]. intros which X HX. by apply check_range_Ok. }
  cbn [rbind]. rewrite for_each_all by (intros i Hi%elem_of_seq; apply check_live_out_Ok; lia). cbn [rbind].
  unfold compute_normal. destruct (compute_tree (E := LivenessError) g Hok Normal) as (order & parents & f & num & -> & _ & Hall & _).
  cbn [rbind rpo]. rewrite backward_pass_stable by (intros i Hi; by apply Hall, elem_of_reverse). cbn [rbind].
  rewrite for_each_all; cycle 1.
  { intros i Hi%elem_of_seq. unfold check_stable. destruct (Hst i ltac:(lia)) as (X & Y & HX & HY & _).
    rewrite (index_lookup _ _ _ HX), (index_lookup _ _ _ HY). cbn [rbind]. by rewrite !bool_decide_eq_true_2. }
  cbn [rbind]. rewrite for_each_all; cycle 1.
  { intros i Hi%elem_of_seq. apply both_sets_Ok; [lia|]. intros which X HX. apply check_dominance_Ok; [lia|done]. }
  cbn [rbind]. pose proof (wf_entry g (verify_wf g Hok)) as He. rewrite (sw_entry _ _ _ Hssa).
  destruct (Hst (entry g) He) as (X & Y & _ & HY & _ & HYs). rewrite (index_lookup _ _ _ HY). cbn [rbind].
  rewrite bool_decide_eq_true_2; cbn [negb].
  - apply for_each_i_Ok. intros i f' Hf. unfold block_facts in Hf. rewrite map_lookup in Hf. apply fmap_Some in Hf as (b & Hb & ->).
    by apply check_exposed_Ok.
  - apply set_eq. intros v. rewrite HYs. split; [|by intros ?%elem_of_empty]. intros [Hne _]. by rewrite (sw_entry _ _ _ Hssa) in Hne.
Qed.
End Checks.

(** [Liveness::verify] accepts the liveness computed for every verified SSA function whose
    spliced-call results merge dominated values: the sets are in range, satisfy the equations, are
    a fixpoint, hold only values whose definition dominates the block, leave the entry empty and
    contain every exposed use. *)
Theorem liveness_check_passes (ssa : SsaFunction) (g : ControlFlowGraph) (t : DominatorTree) :
  verify g = Ok tt -> ssa_verify ssa g t = Ok tt -> inline_inputs_dominated ssa g ->
  exists l, liveness_compute (E := LivenessError) ssa g = Ok l /\ liveness_verify ssa g l t = Ok tt.
Proof.
  intros Hok Hver Hinline. pose proof (ssa_verify_wf _ _ _ Hver) as Hssa.
  destruct (liveness_compute_spec (E := LivenessError) ssa g t Hok Hssa) as (l & Hl & Hinv & Hst & Hout & Hin).
  exists l. split; [done|]. by apply liveness_verify_Ok.
Qed.

(** The loop of [sample_cfg] with one register: block 1 merges the value of block 0 with the one
    computed in block 2, and the handler reloads the register. *)
Definition sample_ssa : SsaFunction :=
  mkSsa [mkSsaBlock 0 [0] [mkSsaInstr 0 0 Op.Nop [0] [0%Z] None None;
                           mkSsaInstr 0 1 Op.Nop [] [] (Some 1) (Some 0%Z)];
         mkSsaBlock 1 [2] [mkSsaInstr 0 2 Op.JumpIfTrue [2] [0%Z] None None];
         mkSsaBlock 2 [] [mkSsaInstr 0 3 Op.Nop [2] [0%Z] (Some 4) (Some 0%Z);
                          mkSsaInstr 0 4 Op.Jump [] [] None None];
         mkSsaBlock 3 [3] [mkSsaInstr 0 5 Op.ReturnValue [3] [0%Z] None None]]
        [mkValueData 0 (ValueDef.Param 0 0) 0;
         mkValueData 1 (ValueDef.OpResult 0 1 Op.Nop []) 0;
         mkValueData 2 (ValueDef.Phi 1 0 [1; 4]) 1;
         mkValueData 3 (ValueDef.ExceptionInput 3 0) 3;
         mkValueData 4 (ValueDef.OpResult 0 3 Op.Nop [2]) 2]
        0 1 [mkSsaFrame 1 1 None].

Lemma sample_ssa_verified : ssa_verify sample_ssa sample_cfg sample_tree = Ok tt.
Proof. vm_compute. reflexivity. Qed.

Lemma sample_no_inline : inline_inputs_dominated sample_ssa sample_cfg.
Proof.
  intros i b v d owner register ins j p u _ _ Hd Hdef.
  do 5 (destruct v as [|v]; [injection Hd as <-; discriminate Hdef|]). done.
Qed.

Lemma liveness_exact_witness :
  exists l, liveness_compute (E := LivenessError) sample_ssa sample_cfg = Ok l
  /\ (at_block (live_out l) 2 4 <-> needed sample_ssa sample_cfg 4 2).
Proof.
  destruct (liveness_exact (E := LivenessError) sample_ssa sample_cfg sample_tree sample_verified sample_ssa_verified)
    as (l & Hl & Hout & _).
  exists l. split; [exact Hl|]. apply Hout. simpl. lia.
Defined.

Lemma liveness_check_passes_witness :
  exists l, liveness_compute (E := LivenessError) sample_ssa sample_cfg = Ok l
  /\ liveness_verify sample_ssa sample_cfg l sample_tree = Ok tt.
Proof.
  exact (liveness_check_passes sample_ssa sample_cfg sample_tree sample_verified sample_ssa_verified sample_no_inline).
Defined.
