(* ===== verification/Repr.v ===== *)
(** Representation selection (otter-jit/src/ir/repr.rs): the widening fixpoint
    that gives every SSA value a machine representation, the conversions its
    uses need, and the self-check.  Of the inline tree only the instruction
    overlays are read: the constant of a [LoadNumber] and the arithmetic
    feedback.  An [f64] is its bit pattern. *)

From stdpp Require Import gmap.
From S2P Require Import Prelude Opcode Cfg Ssa.

Inductive Representation : Type := Int32 | Float64 | Tagged.

Inductive ConversionKind : Type :=
| CheckedTaggedToInt32
| CheckedTaggedToFloat64
| Int32ToFloat64
| BoxInt32
| BoxFloat64.

#[export] Instance Representation_eq_dec : EqDecision Representation.
Proof. solve_decision. Defined.

#[export] Instance ConversionKind_eq_dec : EqDecision ConversionKind.
Proof. solve_decision. Defined.

Record Conversion : Type := mkConversion {
  conv_inline : InlineId;
  at_pc : Z;
  operand_index : nat;
  conv_value : ValueId;
  conv_from : Representation;
  conv_to : Representation;
  conv_kind : ConversionKind;
  may_deopt : bool
}.

#[export] Instance Conversion_eq_dec : EqDecision Conversion.
Proof. solve_decision. Defined.

Record ReprMap : Type := mkReprMap { reprs : list Representation; conversions : list Conversion }.

#[export] Instance ReprMap_eq_dec : EqDecision ReprMap.
Proof. solve_decision. Defined.

Module ReprError.
Inductive ReprError : Type :=
| RepresentationCountMismatch (expected actual : nat)
| ValueRepresentationMismatch (value : ValueId) (expected actual : Representation)
| PhiRepresentationMismatch (phi : ValueId) (expected actual : Representation)
| UnexpectedConversion (at_pc : Z) (operand_index : nat)
| MissingConversion (at_pc : Z) (operand_index : nat)
| DuplicateConversion (at_pc : Z) (operand_index : nat)
| SpuriousConversion (at_pc : Z) (operand_index : nat)
| ConversionMismatch (at_pc : Z) (operand_index : nat) (expected actual : Conversion)
| ConversionOrderMismatch (index : nat)
| UnsupportedConversion (at_pc : Z) (operand_index : nat) (from to : Representation)
| NonDeterministic.
End ReprError.
Export ReprError (ReprError).

(** ** Feedback *)

(** [ArithFeedback] of otter-vm/src/jit_feedback.rs: a byte of observations. *)
Definition ARITH_INT32 : Z := 1.
Definition ARITH_FLOAT64 : Z := 2.
Definition NON_NUMERIC : Z := 28.

Definition is_int32_only (feedback : Z) : bool := (feedback =? ARITH_INT32)%Z.

Definition is_numeric_only (feedback : Z) : bool :=
  (negb (feedback =? 0) && (Z.land feedback NON_NUMERIC =? 0))%Z.

Record InstructionMetadata : Type := mkMeta { load_number : option Z; arith_feedback : Z }.

(** The instruction overlays of each frame. *)
Record InlineFrame : Type := mkFrame { instructions : list InstructionMetadata }.

Abbreviation InlineTree := (list InlineFrame) (only parsing).

Definition overlay {E} (tree : InlineTree) (inline : InlineId) (pc : Z) : res E (option InstructionMetadata) :=
  let* f := index tree inline in
  Ok (instructions f !! Z.to_nat pc).

Definition load_number_at {E} (tree : InlineTree) (inline : InlineId) (pc : Z) : res E (option Z) :=
  let* i := overlay tree inline pc in
  Ok match i with Some i => load_number i | None => None end.

Definition feedback_at {E} (tree : InlineTree) (inline : InlineId) (pc : Z) : res E Z :=
  let* i := overlay tree inline pc in
  Ok match i with Some i => arith_feedback i | None => 0%Z end.

(** ** Numbers *)

Definition f64_exponent (bits : Z) : Z := Z.land (Z.shiftr bits 52) 0x7ff.
Definition f64_negative (bits : Z) : bool := Z.testbit bits 63.
Definition f64_is_finite (bits : Z) : bool := negb (f64_exponent bits =? 0x7ff)%Z.

(** A finite number in units of 2^-1074, the smallest subnormal: an integer. *)
Definition f64_units (bits : Z) : Z :=
  let mantissa := Z.land bits 0xfffffffffffff in
  let e := f64_exponent bits in
  let magnitude := if (e =? 0)%Z then mantissa else Z.shiftl (mantissa + 0x10000000000000) (e - 1) in
  if f64_negative bits then (- magnitude)%Z else magnitude.

Definition i32_units (n : Z) : Z := Z.shiftl n 1074.

(** [number as i32] on a finite number in the range of [i32] truncates toward zero. *)
Definition f64_as_i32 (bits : Z) : Z := Z.quot (f64_units bits) (i32_units 1).

Definition is_exact_i32 (number : Z) : bool :=
  f64_is_finite number
  && negb ((f64_units number =? 0)%Z && f64_negative number)
  && (i32_units (- 2147483648) <=? f64_units number)%Z
  && (f64_units number <=? i32_units 2147483647)%Z
  && (f64_units number =? i32_units (f64_as_i32 number))%Z.

Definition number_representation (number : Z) : Representation :=
  if is_exact_i32 number then Int32 else Float64.

(** ** The rules *)

Definition meet (left right : Representation) : Representation :=
  match left, right with
  | Tagged, _ | _, Tagged => Tagged
  | Float64, _ | _, Float64 => Float64
  | Int32, Int32 => Int32
  end.

(** Moves and conversions that keep the representation of their input. *)
Definition is_transparent (op : Op) : bool :=
  match op with
  | Op.LoadLocal | Op.StoreLocal | Op.ToPrimitive | Op.ToNumeric => true
  | _ => false
  end.

Definition int32_closed (op : Op) : bool :=
  match op with
  | Op.Add | Op.Sub | Op.Mul | Op.Increment | Op.AddImm | Op.SubImm | Op.BitwiseAndImm | Op.Neg
  | Op.BitwiseOr | Op.BitwiseAnd | Op.BitwiseXor | Op.Shl | Op.Shr => true
  | _ => false
  end.

Definition comparison (op : Op) : bool :=
  match op with
  | Op.LessThan | Op.LessEq | Op.GreaterThan | Op.GreaterEq | Op.Equal | Op.NotEqual
  | Op.LessThanImm | Op.EqualImm | Op.NotEqualImm => true
  | _ => false
  end.

Definition float_op (op : Op) : bool :=
  match op with Op.Div | Op.Rem | Op.Pow => true | _ => false end.

Definition selected_result_representation (op : Op) (feedback : Z) : Representation :=
  if int32_closed op && is_int32_only feedback then Int32
  else if int32_closed op && is_numeric_only feedback then Float64
  else if float_op op && is_numeric_only feedback then Float64
  else Tagged.

Definition verified_result_representation (op : Op) (feedback : Z) : Representation :=
  if int32_closed op then
    if is_int32_only feedback then Int32 else if is_numeric_only feedback then Float64 else Tagged
  else if float_op op && is_numeric_only feedback then Float64
  else Tagged.

Definition selected_input_representation (op : Op) (feedback : Z) : Representation :=
  if int32_closed op && is_int32_only feedback then Int32
  else if comparison op && is_int32_only feedback then Int32
  else if (int32_closed op || float_op op || comparison op) && is_numeric_only feedback then Float64
  else Tagged.

Definition verified_input_representation (op : Op) (feedback : Z) : Representation :=
  let numeric := int32_closed op || comparison op || float_op op in
  if is_int32_only feedback && (int32_closed op || comparison op) then Int32
  else if is_numeric_only feedback && numeric then Float64
  else Tagged.

Definition selected_non_phi_representation {E} (tree : InlineTree) (def : ValueDef.t) : res E Representation :=
  match def with
  | ValueDef.OpResult _ _ Op.LoadInt32 _ => Ok Int32
  | ValueDef.OpResult inline pc Op.LoadNumber _ =>
      let* n := load_number_at tree inline pc in
      Ok match n with Some n => number_representation n | None => Float64 end
  | ValueDef.OpResult inline pc op _ =>
      let* f := feedback_at tree inline pc in
      Ok (selected_result_representation op f)
  | _ => Ok Tagged
  end.

Definition verified_non_phi_representation {E} (tree : InlineTree) (def : ValueDef.t) : res E Representation :=
  match def with
  | ValueDef.OpResult _ _ Op.LoadInt32 _ => Ok Int32
  | ValueDef.OpResult inline pc Op.LoadNumber _ =>
      let* n := load_number_at tree inline pc in
      Ok match n with Some n => if is_exact_i32 n then Int32 else Float64 | None => Float64 end
  | ValueDef.OpResult inline pc op _ =>
      let* f := feedback_at tree inline pc in
      Ok (verified_result_representation op f)
  | _ => Ok Tagged
  end.

Definition conversion_kind (from to : Representation) : option (ConversionKind * bool) :=
  match from, to with
  | Tagged, Int32 => Some (CheckedTaggedToInt32, true)
  | Tagged, Float64 => Some (CheckedTaggedToFloat64, true)
  | Int32, Float64 => Some (Int32ToFloat64, false)
  | Int32, Tagged => Some (BoxInt32, false)
  | Float64, Tagged => Some (BoxFloat64, false)
  | _, _ => None
  end.

Definition verified_conversion_kind (from to : Representation) : option (ConversionKind * bool) :=
  if bool_decide (from = Tagged) && bool_decide (to = Int32) then Some (CheckedTaggedToInt32, true)
  else if bool_decide (from = Tagged) && bool_decide (to = Float64) then Some (CheckedTaggedToFloat64, true)
  else if bool_decide (from = Int32) && bool_decide (to = Float64) then Some (Int32ToFloat64, false)
  else if bool_decide (from = Int32) && bool_decide (to = Tagged) then Some (BoxInt32, false)
  else if bool_decide (from = Float64) && bool_decide (to = Tagged) then Some (BoxFloat64, false)
  else None.

Definition lossless_phi_conversion (from to : Representation) : option ConversionKind :=
  match from, to with
  | Int32, Float64 => Some Int32ToFloat64
  | Int32, Tagged => Some BoxInt32
  | Float64, Tagged => Some BoxFloat64
  | _, _ => None
  end.

(** [ReprMap::representation]. *)
Definition representation {E} (reprs : list Representation) (value : ValueId) : res E Representation :=
  index reprs value.

(** ** Stable sorting by a key *)

Fixpoint insert_by {A} (le : A -> A -> bool) (x : A) (l : list A) : list A :=
  match l with
  | [] => [x]
  | y :: l' => if le x y then x :: l else y :: insert_by le x l'
  end.

(** A stable sort ([sort_by_key]; [sort_unstable] where equal keys are equal elements). *)
Definition sort_by {A} (le : A -> A -> bool) (l : list A) : list A := foldr (insert_by le) [] l.

Abbreviation ConversionKey := (InlineId * Z * nat)%type (only parsing).

Definition conversion_key (c : Conversion) : ConversionKey := (conv_inline c, at_pc c, operand_index c).

(** The derived order on the key triple. *)
Definition key3_le (a b : ConversionKey) : bool :=
  let '(i, p, o) := a in
  let '(i', p', o') := b in
  (i <? i') || ((i =? i') && ((p <? p')%Z || ((p =? p')%Z && (o <=? o')))).

(** ** Selection *)

Section Compute.
Context {E : Type} (tree : InlineTree) (ssa : SsaFunction).

Definition initial_repr (def : ValueDef.t) : res E Representation :=
  match def with
  | ValueDef.Phi _ _ _ | ValueDef.InlineResult _ _ _ => Ok Int32
  | ValueDef.OpResult _ _ op _ =>
      if is_transparent op then Ok Int32 else selected_non_phi_representation tree def
  | _ => selected_non_phi_representation tree def
  end.

Fixpoint initial_reprs (l : list ValueData) : res E (list Representation) :=
  match l with
  | [] => Ok []
  | v :: l =>
      let* r := initial_repr (value_def v) in
      let* rest := initial_reprs l in
      Ok (r :: rest)
  end.

Fixpoint meet_all (rs : list Representation) (acc : Representation) (l : list ValueId) : res E Representation :=
  match l with
  | [] => Ok acc
  | v :: l =>
      let* r := representation rs v in
      meet_all rs (meet acc r) l
  end.

(** The widened representation of a value the loop visits; [None]: [continue]. *)
Definition widened (rs : list Representation) (def : ValueDef.t) : res E (option Representation) :=
  match def with
  | ValueDef.Phi _ _ ins | ValueDef.InlineResult _ _ ins =>
      let* r := meet_all rs Int32 ins in Ok (Some r)
  | ValueDef.OpResult _ _ op [input] =>
      if is_transparent op then let* r := representation rs input in Ok (Some r) else Ok None
  | _ => Ok None
  end.

Definition widen_value (v : ValueData) (rs : list Representation) (changed : bool)
    : res E (list Representation * bool) :=
  let* w := widened rs (value_def v) in
  match w with
  | None => Ok (rs, changed)
  | Some w =>
      let* slot := index rs (value_id v) in
      if bool_decide (slot = w) then Ok (rs, changed) else Ok (<[value_id v := w]> rs, true)
  end.

Fixpoint widen_pass (l : list ValueData) (rs : list Representation) (changed : bool)
    : res E (list Representation * bool) :=
  match l with
  | [] => Ok (rs, changed)
  | v :: l =>
      let* (rs, changed) := widen_value v rs changed in
      widen_pass l rs changed
  end.

Fixpoint widen_loop (fuel : nat) (rs : list Representation) : res E (list Representation) :=
  match fuel with
  | O => OutOfFuel
  | S fuel =>
      let* (rs, changed) := widen_pass (values ssa) rs false in
      if changed : bool then widen_loop fuel rs else Ok rs
  end.

(** A pass that changes anything widens a value, and a value widens at most twice. *)
Definition widen_fuel : nat := S (2 * length (values ssa)).

(** What an instruction requires of its inputs; [input_rule] is the selected or
    the verified table. *)
Definition required_of (input_rule : Op -> Z -> Representation) (rs : list Representation) (i : SsaInstr)
    : res E Representation :=
  if is_transparent (instr_op i) then
    match result i with
    | None => Panic
    | Some r => representation rs r
    end
  else
    let* f := feedback_at tree (instr_inline i) (instr_pc i) in
    Ok (input_rule (instr_op i) f).

Fixpoint input_conversions (rs : list Representation) (i : SsaInstr) (required : Representation) (k : nat)
    (l : list ValueId) : res E (list Conversion) :=
  match l with
  | [] => Ok []
  | v :: l =>
      let* from := representation rs v in
      let* rest := input_conversions rs i required (S k) l in
      Ok match conversion_kind from required with
         | Some (kind, may_deopt) =>
             mkConversion (instr_inline i) (instr_pc i) k v from required kind may_deopt :: rest
         | None => rest
         end
  end.

Fixpoint instr_conversions (rs : list Representation) (l : list SsaInstr) : res E (list Conversion) :=
  match l with
  | [] => Ok []
  | i :: l =>
      let* required := required_of selected_input_representation rs i in
      let* here := input_conversions rs i required 0 (inputs i) in
      let* rest := instr_conversions rs l in
      Ok (here ++ rest)
  end.

Definition conversion_le (c d : Conversion) : bool := key3_le (conversion_key c) (conversion_key d).

(** [ReprMap::compute]. *)
Definition repr_compute : res E ReprMap :=
  let* rs := initial_reprs (values ssa) in
  let* rs := widen_loop widen_fuel rs in
  let* cs := instr_conversions rs (flat_map instrs (ssa_blocks ssa)) in
  Ok (mkReprMap rs (sort_by conversion_le cs)).
End Compute.

(** ** The self-check *)

Section Verify.
Context (tree : InlineTree) (ssa : SsaFunction) (m : ReprMap).

Definition check_value (v : ValueData) : res ReprError unit :=
  let rs := reprs m in
  match value_def v with
  | ValueDef.Phi _ _ ins | ValueDef.InlineResult _ _ ins =>
      let* expected := meet_all rs Int32 ins in
      let* actual := representation rs (value_id v) in
      if bool_decide (actual = expected) then Ok tt
      else Err (ReprError.PhiRepresentationMismatch (value_id v) expected actual)
  | def =>
      let* expected :=
        match def with
        | ValueDef.OpResult _ _ op [input] =>
            if is_transparent op then representation rs input else verified_non_phi_representation tree def
        | _ => verified_non_phi_representation tree def
        end in
      let* actual := representation rs (value_id v) in
      if bool_decide (actual = expected) then Ok tt
      else Err (ReprError.ValueRepresentationMismatch (value_id v) expected actual)
  end.

(** [windows(2)]: each conversion with the next. *)
Fixpoint check_conversion_order (i : nat) (l : list Conversion) : res ReprError unit :=
  match l with
  | c :: (d :: _) as l' =>
      if key3_le (conversion_key c) (conversion_key d) then check_conversion_order (S i) l'
      else Err (ReprError.ConversionOrderMismatch (S i))
  | _ => Ok tt
  end.

(** The [BTreeMap] from keys to the conversions stored under them. *)
Abbreviation Stored := (gmap ConversionKey (list Conversion)) (only parsing).

Definition store (s : Stored) (c : Conversion) : Stored :=
  <[conversion_key c := default [] (s !! conversion_key c) ++ [c]]> s.

Definition stored_conversions : Stored := foldl store ∅ (conversions m).

(** The keys in increasing order. *)
Definition ordered_keys (s : Stored) : list ConversionKey := sort_by key3_le (map fst (map_to_list s)).

Definition check_duplicates (s : Stored) : res ReprError unit :=
  match List.find (fun k => 1 <? length (default [] (s !! k))) (ordered_keys s) with
  | Some (_, pc, k) => Err (ReprError.DuplicateConversion pc k)
  | None => Ok tt
  end.

Definition check_input (i : SsaInstr) (required : Representation) (k : nat) (value : ValueId) (s : Stored)
    : res ReprError Stored :=
  let key := (instr_inline i, instr_pc i, k) in
  let* from := representation (reprs m) value in
  let found := default [] (s !! key) in
  let s := delete key s in
  if bool_decide (from = required) then
    match found with
    | [] => Ok s
    | _ => Err (ReprError.SpuriousConversion (instr_pc i) k)
    end
  else
    match verified_conversion_kind from required with
    | None => Err (ReprError.UnsupportedConversion (instr_pc i) k from required)
    | Some (kind, may_deopt) =>
        let expected := mkConversion (instr_inline i) (instr_pc i) k value from required kind may_deopt in
        match found with
        | [] => Err (ReprError.MissingConversion (instr_pc i) k)
        | [actual] =>
            if bool_decide (actual = expected) then Ok s
            else Err (ReprError.ConversionMismatch (instr_pc i) k expected actual)
        | _ => Err (ReprError.DuplicateConversion (instr_pc i) k)
        end
    end.

Fixpoint check_inputs (i : SsaInstr) (required : Representation) (k : nat) (l : list ValueId) (s : Stored)
    : res ReprError Stored :=
  match l with
  | [] => Ok s
  | v :: l =>
      let* s := check_input i required k v s in
      check_inputs i required (S k) l s
  end.

Fixpoint check_instrs (l : list SsaInstr) (s : Stored) : res ReprError Stored :=
  match l with
  | [] => Ok s
  | i :: l =>
      let* required := required_of tree verified_input_representation (reprs m) i in
      let* s := check_inputs i required 0 (inputs i) s in
      check_instrs l s
  end.

(** [ReprMap::verify]. *)
Definition repr_verify : res ReprError unit :=
  if negb (length (reprs m) =? length (values ssa))
  then Err (ReprError.RepresentationCountMismatch (length (values ssa)) (length (reprs m)))
  else
    let* _ := for_each check_value (values ssa) in
    let* _ := check_conversion_order 0 (conversions m) in
    let* _ := check_duplicates stored_conversions in
    let* remaining := check_instrs (flat_map instrs (ssa_blocks ssa)) stored_conversions in
    match ordered_keys remaining with
    | (_, pc, k) :: _ => Err (ReprError.UnexpectedConversion pc k)
    | [] =>
        let* first := repr_compute tree ssa in
        let* second := repr_compute tree ssa in
        if bool_decide (first = second) then Ok tt else Err ReprError.NonDeterministic
    end.
End Verify.
