(* ===== verification/Regalloc.v ===== *)
(** Linear-scan register allocation (otter-jit/src/ir/regalloc.rs): live
    intervals over a dense numbering of the program points, one scan per
    register class, the moves that realise phis on edges, and the self-check.
    Representations come from [Repr].  Positions, registers and spill slots are
    indices; the places where the code checks that they fit [u32] are kept.
    Assertions active only in debug builds are not modelled. *)

From stdpp Require Import gmap.
From S2P Require Import Prelude Opcode Cfg Dom Ssa Liveness Repr.

(** ** Data *)

Inductive RegClass : Type := Gpr | Fp.

Inductive Location : Type :=
| Register (class : RegClass) (register : nat)
| Spill (class : RegClass) (slot : nat).

#[export] Instance RegClass_eq_dec : EqDecision RegClass.
Proof. solve_decision. Defined.

#[export] Instance Location_eq_dec : EqDecision Location.
Proof. solve_decision. Defined.

#[export] Instance Location_countable : Countable Location.
Proof.
  refine (inj_countable'
    (fun l => match l with
              | Register Gpr r => inl (inl r) | Register Fp r => inl (inr r)
              | Spill Gpr s => inr (inl s) | Spill Fp s => inr (inr s)
              end)
    (fun x => match x with
              | inl (inl r) => Register Gpr r | inl (inr r) => Register Fp r
              | inr (inl s) => Spill Gpr s | inr (inr s) => Spill Fp s
              end) _).
  by intros [[] ?|[] ?].
Defined.

Definition from_representation (r : Representation) : RegClass :=
  match r with Int32 | Tagged => Gpr | Float64 => Fp end.

Definition ALL : list RegClass := [Gpr; Fp].

Record RegisterBudget : Type := mkBudget { gpr : nat; fp : nat }.

Definition budget_count (b : RegisterBudget) (class : RegClass) : nat :=
  match class with Gpr => gpr b | Fp => fp b end.

Record SpillSlotCounts : Type := mkSpills { spill_gpr : nat; spill_fp : nat }.

Definition spill_count (s : SpillSlotCounts) (class : RegClass) : nat :=
  match class with Gpr => spill_gpr s | Fp => spill_fp s end.

Definition set_spills (s : SpillSlotCounts) (class : RegClass) (count : nat) : SpillSlotCounts :=
  match class with Gpr => mkSpills count (spill_fp s) | Fp => mkSpills (spill_gpr s) count end.

(** [Location::class]. *)
Definition class_of (l : Location) : RegClass :=
  match l with Register class _ | Spill class _ => class end.

Record LiveInterval : Type := mkInterval { iv_value : ValueId; iv_start : nat; iv_end : nat }.

Record Move : Type := mkMove { src : Location; dst : Location; conversion : option ConversionKind }.

#[export] Instance Move_eq_dec : EqDecision Move.
Proof. solve_decision. Defined.

Record EdgeMoves : Type := mkEdge { predecessor : BlockId; em_block : BlockId; moves : list Move }.

Record Allocation : Type := mkAllocation {
  locations : list Location;
  intervals : list LiveInterval;
  edge_moves : list EdgeMoves;
  register_budget : RegisterBudget;
  spill_slot_counts : SpillSlotCounts
}.

Module RegallocError.
Inductive RegallocError : Type :=
| BlockCountMismatch (cfg ssa : nat)
| InstructionCountMismatch (block : BlockId) (cfg ssa : nat)
| PositionOverflow
| SpillSlotOverflow
| ValueOutOfRange (value : ValueId) (value_count : nat)
| DuplicateDefinition (value : ValueId)
| MissingDefinition (value : ValueId)
| EmptyBlock (block : BlockId)
| PhiInputCountMismatch (phi : ValueId) (expected actual : nat)
| LocationCountMismatch (expected actual : nat)
| IntervalCountMismatch (expected actual : nat)
| IntervalValueOrder (expected actual : ValueId)
| IntervalStartMismatch (value : ValueId) (expected actual : nat)
| IntervalEndMismatch (value : ValueId) (expected actual : nat)
| LocationClassMismatch (value : ValueId) (expected actual : RegClass)
| ScratchAssignedToValue (value : ValueId) (class : RegClass) (register : nat)
| RegisterOutOfRange (value : ValueId) (class : RegClass) (register register_count : nat)
| RegisterInterference (first second : ValueId) (class : RegClass) (register : nat)
| SpillSlotOutOfRange (value : ValueId) (class : RegClass) (slot spill_slot_count : nat)
| SpillSlotAliasing (first second : ValueId) (class : RegClass) (slot : nat)
| SpillSlotCountMismatch (class : RegClass) (expected actual : nat)
| PhiConversionUnsupported (phi input : ValueId) (from to : Representation)
| MoveClassMismatch (predecessor block : BlockId) (source destination : RegClass)
| MoveConversionMismatch (predecessor block : BlockId) (conversion : ConversionKind)
    (source destination : RegClass)
| LinearScanLocationMismatch (value : ValueId) (expected actual : Location)
| EdgeOrderMismatch (index : nat) (expected actual : option (BlockId * BlockId))
| ParallelDestinationConflict (predecessor block : BlockId) (destination : Location)
| InvalidMoveLocation (predecessor block : BlockId) (location : Location)
| UninitializedMoveSource (predecessor block : BlockId) (source : Location)
| PhiMoveIncomplete (predecessor block : BlockId) (phi : ValueId) (expected : Location)
    (actual : option Location)
| EdgeMovesMismatch (predecessor block : BlockId) (expected actual : list Move).
End RegallocError.
Export RegallocError (RegallocError).

Inductive PointKind : Type := PointHead | PointInstruction (index : nat).

Record ProgramPoint : Type := mkPoint { pt_block : BlockId; pt_position : nat; pt_kind : PointKind }.

Record Linearization : Type := mkLinear {
  points : list ProgramPoint;
  definition_positions : list (option nat);
  block_last_positions : list nat
}.

(** [u32::try_from] of a length, and [checked_add(1)]. *)
Definition fits_u32 (n : nat) : bool := (Z.of_nat n <=? u32_max)%Z.

Definition value_index (value : ValueId) (value_count : nat) : res RegallocError nat :=
  if value_count <=? value then Err (RegallocError.ValueOutOfRange value value_count) else Ok value.

(** ** Linearization *)

Definition push_point (pts : list ProgramPoint) (definitions : list (option nat)) (block : BlockId)
    (kind : PointKind) (defined : option ValueId) (value_count : nat)
    : res RegallocError (list ProgramPoint * list (option nat)) :=
  let position := length pts in
  if fits_u32 position then
    let point := mkPoint block position kind in
    match defined with
    | None => Ok (pts ++ [point], definitions)
    | Some value =>
        let* i := value_index value value_count in
        let* old := index definitions i in
        match old with
        | Some _ => Err (RegallocError.DuplicateDefinition value)
        | None => Ok (pts ++ [point], <[i := Some position]> definitions)
        end
    end
  else Err RegallocError.PositionOverflow.

Fixpoint push_heads (block : BlockId) (value_count : nat) (l : list ValueId) (pts : list ProgramPoint)
    (definitions : list (option nat)) : res RegallocError (list ProgramPoint * list (option nat)) :=
  match l with
  | [] => Ok (pts, definitions)
  | h :: l =>
      let* (pts, definitions) := push_point pts definitions block PointHead (Some h) value_count in
      push_heads block value_count l pts definitions
  end.

Fixpoint push_instrs (block : BlockId) (value_count k : nat) (l : list SsaInstr) (pts : list ProgramPoint)
    (definitions : list (option nat)) : res RegallocError (list ProgramPoint * list (option nat)) :=
  match l with
  | [] => Ok (pts, definitions)
  | i :: l =>
      let* (pts, definitions) :=
        push_point pts definitions block (PointInstruction k) (result i) value_count in
      push_instrs block value_count (S k) l pts definitions
  end.

(** [points.last().filter(|point| point.block == block)]. *)
Definition last_of (pts : list ProgramPoint) (block : BlockId) : option ProgramPoint :=
  match last pts with
  | Some p => if pt_block p =? block then Some p else None
  | None => None
  end.

Fixpoint linearize_blocks (ssa : SsaFunction) (block : BlockId) (l : list Block) (pts : list ProgramPoint)
    (definitions : list (option nat)) (lasts : list nat)
    : res RegallocError (list ProgramPoint * list (option nat) * list nat) :=
  match l with
  | [] => Ok (pts, definitions, lasts)
  | cb :: l =>
      let* sb := index (ssa_blocks ssa) block in
      if negb (length (instr_pcs cb) =? length (instrs sb))
      then Err (RegallocError.InstructionCountMismatch block (length (instr_pcs cb)) (length (instrs sb)))
      else
        let n := length (values ssa) in
        let* (pts, definitions) := push_heads block n (phis sb) pts definitions in
        let* (pts, definitions) := push_instrs block n 0 (instrs sb) pts definitions in
        match last_of pts block with
        | None => Err (RegallocError.EmptyBlock block)
        | Some p => linearize_blocks ssa (S block) l pts definitions (lasts ++ [pt_position p])
        end
  end.

Definition check_defined (value : nat) (position : option nat) : res RegallocError unit :=
  match position with None => Err (RegallocError.MissingDefinition value) | Some _ => Ok tt end.

Definition linearize (ssa : SsaFunction) (g : ControlFlowGraph) : res RegallocError Linearization :=
  if negb (length (ssa_blocks ssa) =? length (blocks g))
  then Err (RegallocError.BlockCountMismatch (length (blocks g)) (length (ssa_blocks ssa)))
  else
    let* (pts, definitions, lasts) :=
      linearize_blocks ssa 0 (blocks g) [] (replicate (length (values ssa)) None) [] in
    let* _ := for_each_i check_defined 0 definitions in
    Ok (mkLinear pts definitions lasts).

(** ** Intervals *)

Definition definition_of (value : ValueId) (position : option nat) : res RegallocError nat :=
  match position with None => Err (RegallocError.MissingDefinition value) | Some p => Ok p end.

Definition extend_interval (value_count : nat) (ivs : list LiveInterval) (value : ValueId) (position : nat)
    : res RegallocError (list LiveInterval) :=
  let* i := value_index value value_count in
  let* iv := index ivs i in
  Ok (<[i := mkInterval (iv_value iv) (iv_start iv) (iv_end iv `max` position)]> ivs).

(** [required_ends[index] = required_ends[index].max(position)] of the check. *)
Definition raise_end (value_count : nat) (ends : list nat) (value : ValueId) (position : nat)
    : res RegallocError (list nat) :=
  let* i := value_index value value_count in
  let* e := index ends i in
  Ok (<[i := e `max` position]> ends).

(** The uses that extend an interval.  [build_intervals] and
    [verify_intervals] run the same loops, one over intervals and one over
    required ends: [extend] is the step.  (The check looks a value up before
    the position of its predecessor; both are in range once linearized.) *)
Section Uses.
Context {S : Type} (extend : S -> ValueId -> nat -> res RegallocError S).
Context (ssa : SsaFunction) (g : ControlFlowGraph) (liveness : Liveness) (linear : Linearization).

Fixpoint extend_all (position : nat) (l : list ValueId) (s : S) : res RegallocError S :=
  match l with
  | [] => Ok s
  | v :: l =>
      let* s := extend s v position in
      extend_all position l s
  end.

Fixpoint extend_simultaneous_block_heads (l : list SsaBlock) (s : S) : res RegallocError S :=
  match l with
  | [] => Ok s
  | b :: l =>
      match last (phis b) with
      | None => extend_simultaneous_block_heads l s
      | Some last_head =>
          let* i := value_index last_head (length (values ssa)) in
          let* d := index (definition_positions linear) i in
          let* last_position := definition_of last_head d in
          let* s := extend_all last_position (phis b) s in
          extend_simultaneous_block_heads l s
      end
  end.

Fixpoint extend_points (l : list ProgramPoint) (s : S) : res RegallocError S :=
  match l with
  | [] => Ok s
  | p :: l =>
      match pt_kind p with
      | PointHead => extend_points l s
      | PointInstruction k =>
          let* b := index (ssa_blocks ssa) (pt_block p) in
          let* i := index (instrs b) k in
          let* s := extend_all (pt_position p) (inputs i) s in
          extend_points l s
      end
  end.

(** The inputs of one merge, each at the end of its predecessor. *)
Fixpoint extend_inputs (l : list (ValueId * BlockId)) (s : S) : res RegallocError S :=
  match l with
  | [] => Ok s
  | (input, p) :: l =>
      let* last := index (block_last_positions linear) p in
      let* s := extend s input last in
      extend_inputs l s
  end.

Fixpoint extend_merges (npreds : list BlockId) (l : list ValueId) (s : S) : res RegallocError S :=
  match l with
  | [] => Ok s
  | h :: l =>
      let* i := value_index h (length (values ssa)) in
      let* data := index (values ssa) i in
      match merge_inputs (value_def data) with
      | None => extend_merges npreds l s
      | Some ins =>
          if negb (length ins =? length npreds)
          then Err (RegallocError.PhiInputCountMismatch h (length npreds) (length ins))
          else
            let* s := extend_inputs (zip ins npreds) s in
            extend_merges npreds l s
      end
  end.

(** [liveness.live_out(block)] is visited in increasing order. *)
Fixpoint extend_phi_and_live_out_intervals (block : BlockId) (l : list SsaBlock) (s : S)
    : res RegallocError S :=
  match l with
  | [] => Ok s
  | b :: l =>
      let* npreds := normal_predecessors g block in
      let* s := extend_merges npreds (phis b) s in
      let* last := index (block_last_positions linear) block in
      let* out := index (live_out liveness) block in
      let* s := extend_all last (in_order out) s in
      extend_phi_and_live_out_intervals (Datatypes.S block) l s
  end.

Definition extend_uses (s : S) : res RegallocError S :=
  let* s := extend_simultaneous_block_heads (ssa_blocks ssa) s in
  let* s := extend_points (points linear) s in
  extend_phi_and_live_out_intervals 0 (ssa_blocks ssa) s.
End Uses.

Fixpoint start_intervals (value : nat) (l : list (option nat)) : res RegallocError (list LiveInterval) :=
  match l with
  | [] => Ok []
  | position :: l =>
      let* start := definition_of value position in
      let* rest := start_intervals (S value) l in
      Ok (mkInterval value start start :: rest)
  end.

Definition build_intervals (ssa : SsaFunction) (g : ControlFlowGraph) (liveness : Liveness)
    (linear : Linearization) : res RegallocError (list LiveInterval) :=
  let* ivs := start_intervals 0 (definition_positions linear) in
  extend_uses (extend_interval (length (values ssa))) ssa g liveness linear ivs.

(** ** Linear scan *)

Definition pair_le (a b : nat * nat) : bool := (a.1 <? b.1) || ((a.1 =? b.1) && (a.2 <=? b.2)).

Definition start_le (x y : LiveInterval) : bool :=
  pair_le (iv_start x, iv_value x) (iv_start y, iv_value y).

Definition end_le (x y : LiveInterval) : bool :=
  pair_le (iv_end x, iv_value x) (iv_end y, iv_value y).

(** The binary search finds where the key goes in the sorted active list. *)
Definition insert_active (active : list LiveInterval) (interval : LiveInterval) : list LiveInterval :=
  insert_by end_le interval active.

(** [BTreeSet::insert] on the free registers in increasing order. *)
Fixpoint set_insert (x : nat) (l : list nat) : list nat :=
  match l with
  | [] => [x]
  | y :: l' => if x <? y then x :: l else if x =? y then l else y :: set_insert x l'
  end.

Definition intervals_overlap (first second : LiveInterval) : bool :=
  (iv_start first <=? iv_end second) && (iv_start second <=? iv_end first).

(** The register of an active interval ([unreachable!] otherwise). *)
Definition active_register {E} (locs : list (option Location)) (value : ValueId) : res E nat :=
  let* l := index locs value in
  match l with Some (Register _ register) => Ok register | _ => Panic end.

(** The intervals that ended before [start] give their registers back. *)
Fixpoint expire {E} (locs : list (option Location)) (start : nat) (active : list LiveInterval)
    (free : list nat) : res E (list LiveInterval * list nat) :=
  match active with
  | [] => Ok ([], free)
  | old :: active =>
      if iv_end old <? start then
        let* register := active_register locs (iv_value old) in
        expire locs start active (set_insert register free)
      else
        let* (retained, free) := expire locs start active free in
        Ok (old :: retained, free)
  end.

Record ScanState : Type := mkScan {
  active : list LiveInterval;
  free : list nat;
  next_spill : nat;
  slots : list (option Location)
}.

Definition next_spill_slot (n : nat) : res RegallocError nat :=
  if fits_u32 (S n) then Ok (S n) else Err RegallocError.SpillSlotOverflow.

Section Scan.
Context (class : RegClass) (register_count : nat).

Definition spill_current (s : ScanState) (interval : LiveInterval) : res RegallocError ScanState :=
  let* locs := set_index (slots s) (iv_value interval) (Some (Spill class (next_spill s))) in
  let* n := next_spill_slot (next_spill s) in
  Ok (mkScan (active s) (free s) n locs).

(** The last active interval ends furthest: it is spilled, and its register taken. *)
Definition steal (s : ScanState) (spill interval : LiveInterval) : res RegallocError ScanState :=
  let* register := active_register (slots s) (iv_value spill) in
  let* locs := set_index (slots s) (iv_value spill) (Some (Spill class (next_spill s))) in
  let* n := next_spill_slot (next_spill s) in
  let* locs := set_index locs (iv_value interval) (Some (Register class register)) in
  Ok (mkScan (insert_active (removelast (active s)) interval) (free s) n locs).

Definition take_free (s : ScanState) (interval : LiveInterval) : res RegallocError ScanState :=
  match free s with
  | [] => Panic
  | register :: rest =>
      let* locs := set_index (slots s) (iv_value interval) (Some (Register class register)) in
      Ok (mkScan (insert_active (active s) interval) rest (next_spill s) locs)
  end.

Definition scan_interval (s : ScanState) (interval : LiveInterval) : res RegallocError ScanState :=
  let* (retained, free) := expire (slots s) (iv_start interval) (active s) (free s) in
  let s := mkScan retained free (next_spill s) (slots s) in
  if register_count =? 0 then spill_current s interval
  else if length (active s) =? register_count then
    match last (active s) with
    | None => Panic
    | Some spill =>
        if iv_end interval <? iv_end spill then steal s spill interval else spill_current s interval
    end
  else take_free s interval.

Fixpoint scan_intervals (order : list LiveInterval) (s : ScanState) : res RegallocError ScanState :=
  match order with
  | [] => Ok s
  | interval :: order =>
      let* s := scan_interval s interval in
      scan_intervals order s
  end.

Definition linear_scan_class (ivs : list LiveInterval) (locs : list (option Location))
    : res RegallocError (nat * list (option Location)) :=
  let* s := scan_intervals (sort_by start_le ivs) (mkScan [] (seq 0 register_count) 0 locs) in
  Ok (next_spill s, slots s).
End Scan.

(** The intervals whose value belongs to [class]. *)
Fixpoint class_intervals {E} (reprs : list Representation) (class : RegClass) (l : list LiveInterval)
    : res E (list LiveInterval) :=
  match l with
  | [] => Ok []
  | iv :: l =>
      let* r := representation reprs (iv_value iv) in
      let* rest := class_intervals reprs class l in
      Ok (if bool_decide (from_representation r = class) then iv :: rest else rest)
  end.

Fixpoint scan_classes (ivs : list LiveInterval) (reprs : list Representation) (budget : RegisterBudget)
    (classes : list RegClass) (locs : list (option Location)) (spills : SpillSlotCounts)
    : res RegallocError (list (option Location) * SpillSlotCounts) :=
  match classes with
  | [] => Ok (locs, spills)
  | class :: classes =>
      let* civs := class_intervals reprs class ivs in
      let* (count, locs) := linear_scan_class class (budget_count budget class) civs locs in
      scan_classes ivs reprs budget classes locs (set_spills spills class count)
  end.

Fixpoint expect_all {E A} (l : list (option A)) : res E (list A) :=
  match l with
  | [] => Ok []
  | None :: _ => Panic
  | Some x :: l => let* rest := expect_all l in Ok (x :: rest)
  end.

Definition linear_scan (ivs : list LiveInterval) (reprs : list Representation) (budget : RegisterBudget)
    : res RegallocError (list Location * SpillSlotCounts) :=
  let* (locs, spills) := scan_classes ivs reprs budget ALL (replicate (length ivs) None) (mkSpills 0 0) in
  let* locs := expect_all locs in
  Ok (locs, spills).
