(* ===== verification/Moves.v ===== *)
(** Phi moves on edges (otter-jit/src/ir/regalloc.rs): what each phi needs on
    an edge, the parallel copy this asks for, and its sequentialization with
    one scratch register per class. *)

From stdpp Require Import gmap.
From S2P Require Import Prelude Opcode Cfg Dom Ssa Liveness Repr Regalloc.

(** [Iterator::any] with a predicate that may panic. *)
Fixpoint any_of {E A} (f : A -> res E bool) (l : list A) : res E bool :=
  match l with
  | [] => Ok false
  | x :: l =>
      let* b := f x in
      if b : bool then Ok true else any_of f l
  end.

Definition normal_edges (g : ControlFlowGraph) : list (BlockId * BlockId) :=
  sort_by pair_le (flat_map (fun b => map (pair (block_id b)) (normal_succs b)) (blocks g)).

Section Phis.
Context {E : Type} (ssa : SsaFunction).

(** The head [phi] merges [value]. *)
Definition merges (value phi : ValueId) : res E bool :=
  let* data := index (values ssa) phi in
  Ok match merge_inputs (value_def data) with
     | Some ins => bool_decide (value ∈ ins)
     | None => false
     end.

Definition instr_uses (value : ValueId) (b : SsaBlock) : bool :=
  existsb (fun i => bool_decide (value ∈ inputs i)) (instrs b).

Definition used_in (value : ValueId) (b : SsaBlock) : res E bool :=
  if instr_uses value b then Ok true else any_of (merges value) (phis b).

Definition is_dead_phi (value : ValueId) : res E bool :=
  match values ssa !! value with
  | None => Ok false
  | Some data =>
      match merge_inputs (value_def data) with
      | None => Ok false
      | Some _ =>
          let* used := any_of (used_in value) (ssa_blocks ssa) in
          Ok (negb used)
      end
  end.

Definition has_non_dead_use (value : ValueId) : res E bool :=
  any_of (fun b =>
    if instr_uses value b then Ok true
    else any_of (fun phi =>
           let* dead := is_dead_phi phi in
           if dead : bool then Ok false else merges value phi) (phis b)) (ssa_blocks ssa).
End Phis.

Section Requirements.
Context (ssa : SsaFunction) (g : ControlFlowGraph) (reprs : list Representation) (locs : list Location).

Definition check_location (value : ValueId) (r : Representation) (l : Location) : res RegallocError unit :=
  if bool_decide (class_of l = from_representation r) then Ok tt
  else Err (RegallocError.LocationClassMismatch value (from_representation r) (class_of l)).

Definition phi_conversion (phi input : ValueId) (input_repr phi_repr : Representation)
    : res RegallocError (option ConversionKind) :=
  if bool_decide (input_repr = phi_repr) then Ok None
  else
    match lossless_phi_conversion input_repr phi_repr with
    | Some c => Ok (Some c)
    | None => Err (RegallocError.PhiConversionUnsupported phi input input_repr phi_repr)
    end.

(** What one live merge needs on the edge from predecessor [k]; [None] for a
    head that is not a merge. *)
Definition requirement (npreds : list BlockId) (k : nat) (phi : ValueId) : res RegallocError (option Move) :=
  let* phi_index := value_index phi (length (values ssa)) in
  let* data := index (values ssa) phi_index in
  match merge_inputs (value_def data) with
  | None => Ok None
  | Some ins =>
      if negb (length ins =? length npreds)
      then Err (RegallocError.PhiInputCountMismatch phi (length npreds) (length ins))
      else
        let* input := index ins k in
        let* input_index := value_index input (length (values ssa)) in
        let* phi_repr := representation reprs phi in
        let* input_repr := representation reprs input in
        let* conv := phi_conversion phi input input_repr phi_repr in
        let* input_location := index locs input_index in
        let* phi_location := index locs phi_index in
        let* _ := check_location input input_repr input_location in
        let* _ := check_location phi phi_repr phi_location in
        Ok (Some (mkMove input_location phi_location conv))
  end.

Fixpoint requirements (npreds : list BlockId) (k : nat) (l : list ValueId)
    : res RegallocError (list (ValueId * Move)) :=
  match l with
  | [] => Ok []
  | phi :: l =>
      let* dead := is_dead_phi ssa phi in
      if dead : bool then requirements npreds k l
      else
        let* r := requirement npreds k phi in
        let* rest := requirements npreds k l in
        Ok match r with Some m => (phi, m) :: rest | None => rest end
  end.

Definition phi_move_requirements (predecessor block : BlockId) : res RegallocError (list (ValueId * Move)) :=
  let* npreds := normal_predecessors g block in
  match position npreds predecessor with
  | None => Panic
  | Some k =>
      let* b := index (ssa_blocks ssa) block in
      requirements npreds k (phis b)
  end.

(** A copy of a location to itself without conversion does nothing. *)
Definition is_move (m : Move) : bool :=
  negb (bool_decide (src m = dst m)) || bool_decide (is_Some (conversion m)).

Definition parallel_phi_moves (predecessor block : BlockId) : res RegallocError (list Move) :=
  let* rs := phi_move_requirements predecessor block in
  Ok (List.filter is_move (map snd rs)).
End Requirements.

(** ** Sequentialization *)

Definition validate_move_shape (predecessor block : BlockId) (m : Move) : res RegallocError unit :=
  let source := class_of (src m) in
  let destination := class_of (dst m) in
  let mismatch c := Err (RegallocError.MoveConversionMismatch predecessor block c source destination) in
  let check c valid : res RegallocError unit := if valid : bool then Ok tt else mismatch c in
  match conversion m with
  | None =>
      if bool_decide (source = destination) then Ok tt
      else Err (RegallocError.MoveClassMismatch predecessor block source destination)
  | Some Int32ToFloat64 => check Int32ToFloat64 (bool_decide (source = Gpr) && bool_decide (destination = Fp))
  | Some BoxInt32 => check BoxInt32 (bool_decide (source = Gpr) && bool_decide (destination = Gpr))
  | Some BoxFloat64 => check BoxFloat64 (bool_decide (source = Fp) && bool_decide (destination = Gpr))
  | Some CheckedTaggedToInt32 => mismatch CheckedTaggedToInt32
  | Some CheckedTaggedToFloat64 => mismatch CheckedTaggedToFloat64
  end.

Section Sequentialize.
Context (budget : RegisterBudget) (predecessor block : BlockId).

(** The moves that do something, one per destination, in order. *)
Fixpoint collect_pending (l : list Move) (destinations : gmap Location (Location * option ConversionKind))
    (pending : list Move) : res RegallocError (list Move) :=
  match l with
  | [] => Ok pending
  | m :: l =>
      if negb (is_move m) then collect_pending l destinations pending
      else
        let source := (src m, conversion m) in
        let rest := <[dst m := source]> destinations in
        match destinations !! dst m with
        | Some previous =>
            if bool_decide (previous = source) then collect_pending l rest pending
            else Err (RegallocError.ParallelDestinationConflict predecessor block (dst m))
        | None => collect_pending l rest (pending ++ [m])
        end
  end.

(** No pending move still reads the destination of [candidate]. *)
Definition is_ready (pending : list Move) (candidate : Move) : bool :=
  negb (existsb (fun m => bool_decide (src m = dst candidate)) pending).

(** [position] of the first ready move, with [remove]: the move and the others. *)
Fixpoint take_ready (pending before after : list Move) : option (Move * list Move) :=
  match after with
  | [] => None
  | m :: after =>
      if is_ready pending m then Some (m, before ++ after)
      else take_ready pending (before ++ [m]) after
  end.

Definition scratch_of (saved : Location) : Location :=
  Register (class_of saved) (budget_count budget (class_of saved)).

Definition redirect (saved scratch : Location) (m : Move) : Move :=
  if bool_decide (src m = saved) then mkMove scratch (dst m) (conversion m) else m.

Fixpoint sequence_loop (fuel : nat) (pending result : list Move) : res RegallocError (list Move) :=
  match fuel with
  | O => OutOfFuel
  | S fuel =>
      match pending with
      | [] => Ok result
      | first :: _ =>
          match take_ready pending [] pending with
          | Some (m, pending) => sequence_loop fuel pending (result ++ [m])
          | None =>
              let saved := dst first in
              let scratch := scratch_of saved in
              sequence_loop fuel (map (redirect saved scratch) pending)
                (result ++ [mkMove saved scratch None])
          end
      end
  end.

(** Every round emits a move, or makes the first pending move ready. *)
Definition sequence_fuel (pending : list Move) : nat := S (2 * length pending).

Definition sequentialize_parallel_moves (parallel : list Move) : res RegallocError (list Move) :=
  let* _ := for_each (validate_move_shape predecessor block) parallel in
  let* pending := collect_pending parallel ∅ [] in
  sequence_loop (sequence_fuel pending) pending [].
End Sequentialize.

Definition build_edge (ssa : SsaFunction) (g : ControlFlowGraph) (reprs : list Representation)
    (locs : list Location) (budget : RegisterBudget) (edge : BlockId * BlockId) : res RegallocError EdgeMoves :=
  let* parallel := parallel_phi_moves ssa g reprs locs edge.1 edge.2 in
  let* ms := sequentialize_parallel_moves budget edge.1 edge.2 parallel in
  Ok (mkEdge edge.1 edge.2 ms).

(** [map(..).collect::<Result<Vec<_>, _>>()]. *)
Fixpoint collect_results {E A B} (f : A -> res E B) (l : list A) : res E (list B) :=
  match l with
  | [] => Ok []
  | x :: l =>
      let* y := f x in
      let* rest := collect_results f l in
      Ok (y :: rest)
  end.

Definition build_edge_moves (ssa : SsaFunction) (g : ControlFlowGraph) (reprs : list Representation)
    (locs : list Location) (budget : RegisterBudget) : res RegallocError (list EdgeMoves) :=
  collect_results (build_edge ssa g reprs locs budget) (normal_edges g).
