(* ===== verification/Allocate.v ===== *)
(** The allocation of a function and its self-check ([Allocation] of
    otter-jit/src/ir/regalloc.rs). *)

From stdpp Require Import gmap.
From S2P Require Import Prelude Opcode Cfg Dom Ssa Liveness Repr Regalloc Moves.

(** [Allocation::compute]. *)
Definition allocate (ssa : SsaFunction) (g : ControlFlowGraph) (liveness : Liveness)
    (reprs : list Representation) (budget : RegisterBudget) : res RegallocError Allocation :=
  let* linear := linearize ssa g in
  let* ivs := build_intervals ssa g liveness linear in
  let* (locs, spills) := linear_scan ivs reprs budget in
  let* edges := build_edge_moves ssa g reprs locs budget in
  Ok (mkAllocation locs ivs edges budget spills).

(** [Allocation::location]. *)
Definition location {E} (a : Allocation) (value : ValueId) : res E Location := index (locations a) value.

Definition rebuild_edge_moves (a : Allocation) (ssa : SsaFunction) (g : ControlFlowGraph)
    (reprs : list Representation) : res RegallocError Allocation :=
  let* edges := build_edge_moves ssa g reprs (locations a) (register_budget a) in
  Ok (mkAllocation (locations a) (intervals a) edges (register_budget a) (spill_slot_counts a)).

(** ** The self-check *)

Definition check_start (linear : Linearization) (i : nat) (iv : LiveInterval) : res RegallocError unit :=
  if negb (iv_value iv =? i) then Err (RegallocError.IntervalValueOrder i (iv_value iv))
  else
    let* d := index (definition_positions linear) i in
    let* start := definition_of i d in
    if negb (iv_start iv =? start) then Err (RegallocError.IntervalStartMismatch i start (iv_start iv))
    else Ok tt.

Definition check_end (ivs : list LiveInterval) (i : nat) (expected : nat) : res RegallocError unit :=
  let* iv := index ivs i in
  if negb (iv_end iv =? expected) then Err (RegallocError.IntervalEndMismatch i expected (iv_end iv))
  else Ok tt.

(** Once its start is checked, the required end of an interval begins there. *)
Definition verify_intervals (ivs : list LiveInterval) (ssa : SsaFunction) (g : ControlFlowGraph)
    (liveness : Liveness) (linear : Linearization) : res RegallocError unit :=
  let* _ := for_each_i (check_start linear) 0 ivs in
  let* ends := extend_uses (raise_end (length (values ssa))) ssa g liveness linear (map iv_start ivs) in
  for_each_i (check_end ivs) 0 ends.

Section Verify.
Context (a : Allocation).

Definition check_value_location (reprs : list Representation) (value : ValueId) (l : Location)
    : res RegallocError unit :=
  let* r := representation reprs value in
  let expected := from_representation r in
  if negb (bool_decide (class_of l = expected))
  then Err (RegallocError.LocationClassMismatch value expected (class_of l))
  else
    match l with
    | Register class register =>
        let count := budget_count (register_budget a) class in
        if register =? count then Err (RegallocError.ScratchAssignedToValue value class register)
        else if count <? register then Err (RegallocError.RegisterOutOfRange value class register count)
        else Ok tt
    | Spill _ _ => Ok tt
    end.

Definition verify_locations (reprs : list Representation) : res RegallocError unit :=
  for_each_i (check_value_location reprs) 0 (locations a).

Definition check_pair (i j : nat) : res RegallocError unit :=
  let* first := index (intervals a) i in
  let* second := index (intervals a) j in
  if intervals_overlap first second then
    let* l := index (locations a) i in
    let* l' := index (locations a) j in
    match l, l' with
    | Register c r, Register c' r' =>
        if bool_decide (c = c') && (r =? r')
        then Err (RegallocError.RegisterInterference (iv_value first) (iv_value second) c r)
        else Ok tt
    | _, _ => Ok tt
    end
  else Ok tt.

Definition verify_interference : res RegallocError unit :=
  let n := length (intervals a) in
  for_each (fun i => for_each (check_pair i) (seq (S i) (n - S i))) (seq 0 n).

(** The owners of the spill slots of one class; values count up from [value]. *)
Fixpoint spill_owners (class : RegClass) (count : nat) (value : ValueId) (l : list Location)
    (owners : gmap nat ValueId) : res RegallocError (gmap nat ValueId) :=
  match l with
  | [] => Ok owners
  | Register _ _ :: l => spill_owners class count (S value) l owners
  | Spill c slot :: l =>
      if negb (bool_decide (c = class)) then spill_owners class count (S value) l owners
      else if count <=? slot then Err (RegallocError.SpillSlotOutOfRange value class slot count)
      else
        match owners !! slot with
        | Some first => Err (RegallocError.SpillSlotAliasing first value class slot)
        | None => spill_owners class count (S value) l (<[slot := value]> owners)
        end
  end.

Definition verify_spill_class (class : RegClass) : res RegallocError unit :=
  let count := spill_count (spill_slot_counts a) class in
  let* owners := spill_owners class count 0 (locations a) ∅ in
  let expected := size owners in
  if negb (fits_u32 expected) then Err RegallocError.SpillSlotOverflow
  else if negb (expected =? count) || negb (bool_decide (in_order (dom owners) = seq 0 count))
  then Err (RegallocError.SpillSlotCountMismatch class expected count)
  else Ok tt.

Definition verify_spills : res RegallocError unit := for_each verify_spill_class ALL.

(** The replayed scan gives the stored locations. *)
Definition check_replay (i : nat) (p : Location * Location) : res RegallocError unit :=
  if bool_decide (p.1 = p.2) then Ok tt
  else Err (RegallocError.LinearScanLocationMismatch i p.1 p.2).

Definition check_spill_count (expected : SpillSlotCounts) (class : RegClass) : res RegallocError unit :=
  if spill_count expected class =? spill_count (spill_slot_counts a) class then Ok tt
  else Err (RegallocError.SpillSlotCountMismatch class (spill_count expected class)
              (spill_count (spill_slot_counts a) class)).

Definition valid_move_location (l : Location) : bool :=
  match l with
  | Register class register => register <=? budget_count (register_budget a) class
  | Spill class slot => slot <? spill_count (spill_slot_counts a) class
  end.

Definition check_edge_order (expected : list (BlockId * BlockId)) (i : nat) : res RegallocError unit :=
  let actual := (fun e => (predecessor e, em_block e)) <$> edge_moves a !! i in
  if bool_decide (expected !! i = actual) then Ok tt
  else Err (RegallocError.EdgeOrderMismatch i (expected !! i) actual).

Definition check_move_locations (e : EdgeMoves) (m : Move) : res RegallocError unit :=
  let* _ := validate_move_shape (predecessor e) (em_block e) m in
  for_each (fun l => if valid_move_location l then Ok tt
                     else Err (RegallocError.InvalidMoveLocation (predecessor e) (em_block e) l))
    [src m; dst m].

(** The symbolic run of the moves: which original location each one holds. *)
Fixpoint simulate_moves (e : EdgeMoves) (l : list Move) (contents : gmap Location Location)
    : res RegallocError (gmap Location Location) :=
  match l with
  | [] => Ok contents
  | m :: l =>
      match contents !! src m with
      | None => Err (RegallocError.UninitializedMoveSource (predecessor e) (em_block e) (src m))
      | Some value => simulate_moves e l (<[dst m := value]> contents)
      end
  end.

Definition initial_contents : gmap Location Location :=
  foldl (fun c l => <[l := l]> c) ∅ (locations a).

Definition check_delivered (e : EdgeMoves) (contents : gmap Location Location) (r : ValueId * Move)
    : res RegallocError unit :=
  let actual := contents !! dst r.2 in
  if bool_decide (actual = Some (src r.2)) then Ok tt
  else Err (RegallocError.PhiMoveIncomplete (predecessor e) (em_block e) r.1 (src r.2) actual).

Section Edges.
Context (ssa : SsaFunction) (g : ControlFlowGraph) (reprs : list Representation).

Definition verify_edge (e : EdgeMoves) : res RegallocError unit :=
  let* parallel := parallel_phi_moves ssa g reprs (locations a) (predecessor e) (em_block e) in
  let* _ := for_each (check_move_locations e) (moves e) in
  let* contents := simulate_moves e (moves e) initial_contents in
  let* rs := phi_move_requirements ssa g reprs (locations a) (predecessor e) (em_block e) in
  let* _ := for_each (check_delivered e contents) rs in
  let* expected := sequentialize_parallel_moves (register_budget a) (predecessor e) (em_block e) parallel in
  if bool_decide (expected = moves e) then Ok tt
  else Err (RegallocError.EdgeMovesMismatch (predecessor e) (em_block e) expected (moves e)).

Definition verify_edge_moves : res RegallocError unit :=
  let expected := normal_edges g in
  let* _ := for_each (check_edge_order expected) (seq 0 (length expected `max` length (edge_moves a))) in
  for_each verify_edge (edge_moves a).

(** [Allocation::verify]. *)
Definition allocation_verify (liveness : Liveness) : res RegallocError unit :=
  let value_count := length (values ssa) in
  if negb (length (locations a) =? value_count)
  then Err (RegallocError.LocationCountMismatch value_count (length (locations a)))
  else if negb (length (intervals a) =? value_count)
  then Err (RegallocError.IntervalCountMismatch value_count (length (intervals a)))
  else
    let* linear := linearize ssa g in
    let* _ := verify_intervals (intervals a) ssa g liveness linear in
    let* _ := verify_locations reprs in
    let* _ := verify_interference in
    let* _ := verify_spills in
    let* (expected, spills) := linear_scan (intervals a) reprs (register_budget a) in
    let* _ := for_each_i check_replay 0 (zip expected (locations a)) in
    let* _ := for_each (check_spill_count spills) ALL in
    verify_edge_moves.
End Edges.
End Verify.
