(* ===== verification/FrameState.v ===== *)
(** Deoptimization frame states (otter-jit/src/ir/frame_state.rs): the SSA value
    of every interpreter register before every instruction, found by a walk of the
    dominator forest of normal edges, with the check of the table; and what
    otter-jit/src/optimizing/pipeline.rs does with them, giving colliding values
    homes of their own.  A stack of values is a list with its top first. *)

From stdpp Require Import gmap.
From S2P Require Import Prelude Slices Opcode Cfg Dom Ssa Liveness Repr Regalloc Moves Allocate.

(** The guards of a method call are read by the emitted code only. *)
Inductive InlineCallKind : Type := Plain (callee_register : Z) | Method (receiver_register : Z).

Record InlineCallSite : Type := mkCallSite {
  site_parent : InlineId;
  call_pc : Z;
  call_result_register : Z;
  kind : InlineCallKind;
  argument_registers : list Z
}.

Record AbstractFrameState : Type := mkState {
  state_inline : InlineId;
  state_pc : Z;
  state_block : BlockId;
  registers : list (option ValueId);
  caller : option nat
}.

Abbreviation FrameStateTable := (list AbstractFrameState) (only parsing).

Module FrameStateError.
Inductive FrameStateError : Type :=
| InvalidSsa (e : SsaError)
| HeadValueOutOfRange (block : BlockId) (value : ValueId)
| InvalidHeadDefinition (block : BlockId) (value : ValueId)
| HeadRegisterOutOfRange (block : BlockId) (register register_count : Z)
| ResultRegisterMismatch (pc : Z)
| ResultValueOutOfRange (pc : Z) (value : ValueId)
| ResultRegisterOutOfRange (pc : Z) (register register_count : Z)
| NormalDominatorUsedForVerification
| InvalidFullDominator (e : DomError)
| SsaBlockCountMismatch (expected actual : nat)
| SsaInstructionLayoutMismatch (block : BlockId)
| StateCountMismatch (expected actual : nat)
| StatePcMismatch (index : nat) (expected actual : Z)
| StateBlockMismatch (pc : Z) (expected actual : BlockId)
| RegisterCountMismatch (pc : Z) (expected actual : nat)
| ValueOutOfRange (pc : Z) (register : nat) (value : ValueId) (value_count : nat)
| ValueDefinitionDoesNotDominate (pc : Z) (register : nat) (value : ValueId) (definition block : BlockId)
| OperandRegisterCountMismatch (pc : Z) (inputs registers : nat)
| OperandRegisterOutOfRange (pc : Z) (operand_index : nat) (register register_count : Z)
| OperandValueMismatch (pc : Z) (operand_index : nat) (register : Z) (expected : ValueId) (actual : option ValueId).
End FrameStateError.
Export FrameStateError (FrameStateError).

(** ** The walk *)

Definition u16_max : Z := 65535.

(** The windows of the frames in one array; [u16] addition wraps. *)
Definition register_base (ssa : SsaFunction) (inline : InlineId) : Z :=
  foldl (fun acc f => (acc + frame_register_count f) mod 65536)%Z 0%Z (take inline (frames ssa)).

Definition variable (ssa : SsaFunction) (inline : InlineId) (register : Z) : nat :=
  Z.to_nat (register_base ssa inline) + Z.to_nat register.

(** The stacks, and the slots pushed since the block was entered, last first. *)
Record Walk : Type := mkWalk { stacks : list (list ValueId); pushed : list nat }.

Definition push_slot {E} (w : Walk) (slot : nat) (value : ValueId) : res E Walk :=
  let* stack := index (stacks w) slot in
  Ok (mkWalk (<[slot := value :: stack]> (stacks w)) (slot :: pushed w)).

Inductive Event : Type := Enter (block : BlockId) | Exit (pushed : list nat).

Fixpoint pop_slots {E} (l : list nat) (s : list (list ValueId)) : res E (list (list ValueId)) :=
  match l with
  | [] => Ok s
  | slot :: l =>
      let* stack := index s slot in
      match stack with
      | [] => Panic
      | _ :: stack => pop_slots l (<[slot := stack]> s)
      end
  end.

Section Build.
Context (call_sites : list (option InlineCallSite)) (ssa : SsaFunction) (g : ControlFlowGraph).

(** The parameters of a spliced frame are the arguments of the caller. *)
Fixpoint bind_arguments (block : BlockId) (inline : InlineId) (frame_registers : Z) (site : InlineCallSite)
    (parameter : nat) (l : list Z) (w : Walk) : res FrameStateError Walk :=
  match l with
  | [] => Ok w
  | argument :: l =>
      if (u16_max <? Z.of_nat parameter)%Z
      then Err (FrameStateError.HeadRegisterOutOfRange block u16_max frame_registers)
      else
        let* stack := index (stacks w) (variable ssa (site_parent site) argument) in
        let* w := match stack with
                  | value :: _ => push_slot w (variable ssa inline (Z.of_nat parameter)) value
                  | [] => Ok w
                  end in
        bind_arguments block inline frame_registers site (S parameter) l w
  end.

Fixpoint push_block_heads (block : BlockId) (inline : InlineId) (frame_registers : Z) (l : list ValueId) (w : Walk)
    : res FrameStateError Walk :=
  match l with
  | [] => Ok w
  | value :: l =>
      match values ssa !! value with
      | None => Err (FrameStateError.HeadValueOutOfRange block value)
      | Some data =>
          match head_register (value_def data) with
          | None => push_block_heads block inline frame_registers l w
          | Some register =>
              if (frame_registers <=? register)%Z
              then Err (FrameStateError.HeadRegisterOutOfRange block register frame_registers)
              else
                let* w := push_slot w (variable ssa inline register) value in
                push_block_heads block inline frame_registers l w
          end
      end
  end.

(** [stacks[base..base + frame_registers]], each stack's last value. *)
Definition window {E} (inline : InlineId) (frame_registers : Z) (s : list (list ValueId))
    : res E (list (option ValueId)) :=
  let start := Z.to_nat (register_base ssa inline) in
  let len := Z.to_nat frame_registers in
  if length s <? start + len then Panic else Ok (map head (take len (drop start s))).

Definition push_result (inline : InlineId) (frame_registers : Z) (i : SsaInstr) (w : Walk)
    : res FrameStateError Walk :=
  match result i, result_register i with
  | Some value, Some register =>
      match values ssa !! value with
      | None => Err (FrameStateError.ResultValueOutOfRange (instr_pc i) value)
      | Some _ =>
          if (frame_registers <=? register)%Z
          then Err (FrameStateError.ResultRegisterOutOfRange (instr_pc i) register frame_registers)
          else push_slot w (variable ssa inline register) value
      end
  | None, None => Ok w
  | _, _ => Err (FrameStateError.ResultRegisterMismatch (instr_pc i))
  end.

Fixpoint walk_instrs (block : BlockId) (inline : InlineId) (frame_registers : Z) (l : list SsaInstr)
    (w : Walk) (states : list AbstractFrameState) : res FrameStateError (Walk * list AbstractFrameState) :=
  match l with
  | [] => Ok (w, states)
  | i :: l =>
      let* regs := window inline frame_registers (stacks w) in
      let states := states ++ [mkState inline (instr_pc i) block regs None] in
      let* w := push_result inline frame_registers i w in
      walk_instrs block inline frame_registers l w states
  end.

(** [Event::Enter]. *)
Definition enter_block (block : BlockId) (s : list (list ValueId)) (states : list AbstractFrameState)
    : res FrameStateError (Walk * list AbstractFrameState) :=
  let* cb := index (blocks g) block in
  let inline := block_inline cb in
  let* f := index (frames ssa) inline in
  let frame_registers := frame_register_count f in
  let w := mkWalk s [] in
  let* frame_entry := index (frame_entries g) inline in
  let* w :=
    if block =? frame_entry then
      let* site := index call_sites inline in
      match site with
      | Some site => bind_arguments block inline frame_registers site 0 (argument_registers site) w
      | None => Ok w
      end
    else Ok w in
  let* b := index (ssa_blocks ssa) block in
  let* w := push_block_heads block inline frame_registers (phis b) w in
  walk_instrs block inline frame_registers (instrs b) w states.

Fixpoint walk_loop (fuel : nat) (children : list (list BlockId)) (events : list Event)
    (s : list (list ValueId)) (states : list AbstractFrameState)
    : res FrameStateError (list (list ValueId) * list AbstractFrameState) :=
  match fuel with
  | O => OutOfFuel
  | S fuel =>
      match events with
      | [] => Ok (s, states)
      | Exit pushed :: events =>
          let* s := pop_slots pushed s in
          walk_loop fuel children events s states
      | Enter block :: events =>
          let* (w, states) := enter_block block s states in
          let* cs := index children block in
          walk_loop fuel children (map Enter cs ++ Exit (pushed w) :: events) (stacks w) states
      end
  end.

(** A block is entered once and left once. *)
Definition walk_fuel : nat := S (2 * length (blocks g)).

Fixpoint walk_roots (children : list (list BlockId)) (roots : list BlockId)
    (s : list (list ValueId)) (states : list AbstractFrameState)
    : res FrameStateError (list AbstractFrameState) :=
  match roots with
  | [] => Ok states
  | root :: roots =>
      let* (s, states) := walk_loop walk_fuel children [Enter root] s states in
      walk_roots children roots s states
  end.

Fixpoint children_of {E} (t : DominatorTree) (order : list BlockId) (children : list (list BlockId))
    : res E (list (list BlockId)) :=
  match order with
  | [] => Ok children
  | block :: order =>
      let* parent := immediate_dominator t block in
      match parent with
      | None => children_of t order children
      | Some parent =>
          let* cs := index children parent in
          children_of t order (<[parent := cs ++ [block]]> children)
      end
  end.

Fixpoint forest_roots {E} (t : DominatorTree) (order : list BlockId) : res E (list BlockId) :=
  match order with
  | [] => Ok []
  | block :: order =>
      let* parent := immediate_dominator t block in
      let* rest := forest_roots t order in
      Ok match parent with None => block :: rest | Some _ => rest end
  end.

Definition total_registers : nat := sum_list (map (fun f => Z.to_nat (frame_register_count f)) (frames ssa)).

Definition state_le (a b : AbstractFrameState) : bool :=
  (state_inline a <? state_inline b) || ((state_inline a =? state_inline b) && (state_pc a <=? state_pc b)%Z).

(** The states of a spliced frame link to the state of its caller at the call. *)
Fixpoint link_callers (i : nat) (l : list (option InlineCallSite)) (states : list AbstractFrameState)
    : res FrameStateError (list AbstractFrameState) :=
  match l with
  | [] => Ok states
  | None :: l => link_callers (S i) l states
  | Some site :: l =>
      match list_find (fun s => state_inline s = site_parent site /\ state_pc s = call_pc site) states with
      | None => Err (FrameStateError.ResultRegisterMismatch (call_pc site))
      | Some (at_, _) =>
          link_callers (S i) l
            (map (fun s => if state_inline s =? i
                           then mkState (state_inline s) (state_pc s) (state_block s) (registers s) (Some at_)
                           else s) states)
      end
  end.
End Build.

(** ** The check of the table *)

Section Check.
Context (ssa : SsaFunction) (g : ControlFlowGraph) (full_dom : DominatorTree).

Definition check_slot (s : AbstractFrameState) (register : nat) (slot : option ValueId) : res FrameStateError unit :=
  match slot with
  | None => Ok tt
  | Some value =>
      match values ssa !! value with
      | None => Err (FrameStateError.ValueOutOfRange (state_pc s) register value (length (values ssa)))
      | Some data =>
          let* d := dominates full_dom (def_block data) (state_block s) in
          if d : bool then Ok tt
          else Err (FrameStateError.ValueDefinitionDoesNotDominate
                      (state_pc s) register value (def_block data) (state_block s))
      end
  end.

Definition check_operand (s : AbstractFrameState) (i : SsaInstr) (k : nat) (operand : Z * ValueId)
    : res FrameStateError unit :=
  match registers s !! Z.to_nat operand.1 with
  | None => Err (FrameStateError.OperandRegisterOutOfRange (instr_pc i) k operand.1 (register_count ssa))
  | Some actual =>
      if bool_decide (actual = Some operand.2) then Ok tt
      else Err (FrameStateError.OperandValueMismatch (instr_pc i) k operand.1 operand.2 actual)
  end.

Definition check_state (cb : Block) (index_ : nat) (i : SsaInstr) (s : AbstractFrameState) : res FrameStateError unit :=
  if negb (state_pc s =? instr_pc i)%Z
  then Err (FrameStateError.StatePcMismatch index_ (instr_pc i) (state_pc s))
  else if negb (state_block s =? block_id cb)
  then Err (FrameStateError.StateBlockMismatch (state_pc s) (block_id cb) (state_block s))
  else if negb (state_inline s =? block_inline cb)
  then Err (FrameStateError.StateBlockMismatch (state_pc s) (block_id cb) (state_block s))
  else
    let* frame_registers := frame_registers ssa (block_inline cb) in
    if negb (length (registers s) =? Z.to_nat frame_registers)
    then Err (FrameStateError.RegisterCountMismatch (state_pc s) (Z.to_nat frame_registers) (length (registers s)))
    else
      let* _ := for_each_i (check_slot s) 0 (registers s) in
      let* synthetic := synthetic_this ssa i in
      if negb synthetic && negb (length (input_registers i) =? length (inputs i))
      then Err (FrameStateError.OperandRegisterCountMismatch
                  (instr_pc i) (length (inputs i)) (length (input_registers i)))
      else for_each_i (check_operand s i) 0 (zip (input_registers i) (inputs i)).

Fixpoint check_block_states (cb : Block) (l : list SsaInstr) (state_index : nat) (states : FrameStateTable)
    : res FrameStateError nat :=
  match l with
  | [] => Ok state_index
  | i :: l =>
      let* s := index states state_index in
      let* _ := check_state cb state_index i s in
      check_block_states cb l (S state_index) states
  end.

Fixpoint check_states (l : list Block) (state_index : nat) (states : FrameStateTable) : res FrameStateError unit :=
  match l with
  | [] => Ok tt
  | cb :: l =>
      let* b := index (ssa_blocks ssa) (block_id cb) in
      if negb (bool_decide (map instr_pc (instrs b) = instr_pcs cb))
      then Err (FrameStateError.SsaInstructionLayoutMismatch (block_id cb))
      else
        let* state_index := check_block_states cb (instrs b) state_index states in
        check_states l state_index states
  end.

(** [FrameStateTable::verify]. *)
Definition frame_states_verify (states : FrameStateTable) : res FrameStateError unit :=
  if negb (includes_exception_edges full_dom) then Err FrameStateError.NormalDominatorUsedForVerification
  else
    let* _ := map_err FrameStateError.InvalidFullDominator (tree_verify g full_dom) in
    if negb (length (ssa_blocks ssa) =? length (blocks g))
    then Err (FrameStateError.SsaBlockCountMismatch (length (blocks g)) (length (ssa_blocks ssa)))
    else
      let expected_count := sum_list (map (fun b => length (instr_pcs b)) (blocks g)) in
      if negb (length states =? expected_count)
      then Err (FrameStateError.StateCountMismatch expected_count (length states))
      else check_states (blocks g) 0 states.
End Check.

(** [FrameStateTable::build_inlined].  Computing the dominators reports no error of its own. *)
Definition build_inlined (call_sites : list (option InlineCallSite)) (ssa : SsaFunction) (g : ControlFlowGraph)
    : res FrameStateError FrameStateTable :=
  let* full_dom := map_err FrameStateError.InvalidFullDominator (compute g) in
  let* _ := map_err FrameStateError.InvalidSsa (ssa_verify ssa g full_dom) in
  let* normal_dom := compute_normal g in
  let* children := children_of normal_dom (rpo normal_dom) (replicate (length (blocks g)) []) in
  let* roots := forest_roots normal_dom (rpo normal_dom) in
  let* states := walk_roots call_sites ssa g children roots (replicate (total_registers ssa) []) [] in
  let* states := link_callers 0 call_sites (sort_by state_le states) in
  let* _ := frame_states_verify ssa g full_dom states in
  Ok states.

(** [FrameStateTable::build]: nothing is spliced in. *)
Definition build (ssa : SsaFunction) (g : ControlFlowGraph) : res FrameStateError FrameStateTable :=
  build_inlined [None] ssa g.

(** [FrameStateTable::at]: binary search by frame and PC. *)
Definition site_compare (inline : InlineId) (pc : Z) (s : AbstractFrameState) : Datatypes.comparison :=
  match Nat.compare (state_inline s) inline with Eq => Z.compare (state_pc s) pc | c => c end.

Definition frame_state_at (states : FrameStateTable) (inline : InlineId) (pc : Z) : option AbstractFrameState :=
  s ← states !! bsearch_loop (length states) (site_compare inline pc) states 0 (length states);
  match site_compare inline pc s with Eq => Some s | _ => None end.

(** ** Homes for deoptimization *)

Module Pipeline.
(** The errors of [OptimizationError] from the check of the graph to the final allocation. *)
Inductive OptimizationError : Type :=
| CfgVerification (e : CfgError)
| DominanceVerification (e : DomError)
| SsaVerification (e : SsaError)
| LivenessVerification (e : LivenessError)
| RepresentationVerification (e : ReprError)
| RegisterAllocation (e : RegallocError)
| AllocationVerification (e : RegallocError)
| FrameStateConstruction (e : FrameStateError)
| FrameStateVerification (e : FrameStateError)
| TotalSpillSlotOverflow
| DeoptSpillOverflow
| LegalizedPhiMoves (e : RegallocError).

(** The part of [OptimizedUnit] the analyses fill. *)
Record Analyses : Type := mkAnalyses {
  unit_dom : DominatorTree;
  unit_liveness : Liveness;
  unit_reprs : ReprMap;
  unit_allocation : Allocation
}.

(** [OptimizationPipeline::analyze] up to the check of the allocation.
    Computing the dominators reports no error of its own. *)
Definition analyze (tree : list InlineFrame) (cfg : ControlFlowGraph) (ssa : SsaFunction)
    (budget : RegisterBudget) : res OptimizationError Analyses :=
  let* _ := map_err CfgVerification (verify cfg) in
  let* dom := map_err DominanceVerification (compute cfg) in
  let* _ := map_err DominanceVerification (tree_verify cfg dom) in
  let* _ := map_err SsaVerification (ssa_verify ssa cfg dom) in
  let* liveness := liveness_compute ssa cfg in
  let* _ := map_err LivenessVerification (liveness_verify ssa cfg liveness dom) in
  let* m := repr_compute tree ssa in
  let* _ := map_err RepresentationVerification (repr_verify tree ssa m) in
  let* allocation := map_err RegisterAllocation (allocate ssa cfg liveness (reprs m) budget) in
  let* _ := map_err AllocationVerification (allocation_verify allocation ssa cfg (reprs m) liveness) in
  Ok (mkAnalyses dom liveness m allocation).

(** A value that deoptimization writes as a literal ([rematerialized_deopt_slot] of
    otter-jit/src/ir/deopt_lower.rs): its representation; the literal is undefined or zero. *)
Definition rematerialized {E} (ssa : SsaFunction) (reprs : list Representation) (value : ValueId)
    : res E (option Representation) :=
  match values ssa !! value with
  | None => Ok None
  | Some data =>
      match value_def data with
      | ValueDef.Uninitialized _ | ValueDef.InlineUndefinedReturn _ => Ok (Some Tagged)
      | _ =>
          let* dead := is_dead_phi ssa value in
          if dead : bool then let* r := representation reprs value in Ok (Some r) else Ok None
      end
  end.

(** [spill_slot_counts] is a [u32]; a fresh slot takes the count and advances it. *)
Definition fresh_home {E} (overflow : E) (spills : SpillSlotCounts) (class : RegClass)
    : res E (Location * SpillSlotCounts) :=
  let slot := spill_count spills class in
  if fits_u32 (S slot) then Ok (Spill class slot, set_spills spills class (S slot)) else Err overflow.

(** One state: its values in register order, with the owners of the locations so far. *)
Fixpoint legalize_registers (ssa : SsaFunction) (reprs : list Representation) (l : list ValueId)
    (owners : gmap Location ValueId) (locs : list Location) (spills : SpillSlotCounts)
    : res OptimizationError (list Location * SpillSlotCounts) :=
  match l with
  | [] => Ok (locs, spills)
  | value :: l =>
      let* literal := rematerialized ssa reprs value in
      match literal with
      | Some _ => legalize_registers ssa reprs l owners locs spills
      | None =>
          let* at_ := index locs value in
          if match owners !! at_ with Some owner => negb (owner =? value) | None => false end then
            let* (home, spills) := fresh_home DeoptSpillOverflow spills (class_of at_) in
            let* locs := set_index locs value home in
            legalize_registers ssa reprs l (<[home := value]> owners) locs spills
          else legalize_registers ssa reprs l (<[at_ := value]> owners) locs spills
      end
  end.

Fixpoint legalize_states (ssa : SsaFunction) (reprs : list Representation) (states : FrameStateTable)
    (locs : list Location) (spills : SpillSlotCounts) : res OptimizationError (list Location * SpillSlotCounts) :=
  match states with
  | [] => Ok (locs, spills)
  | s :: states =>
      let* (locs, spills) := legalize_registers ssa reprs (omap id (registers s)) ∅ locs spills in
      legalize_states ssa reprs states locs spills
  end.

Definition legalize_deopt_locations (a : Allocation) (states : FrameStateTable) (ssa : SsaFunction)
    (reprs : list Representation) : res OptimizationError Allocation :=
  let* (locs, spills) := legalize_states ssa reprs states (locations a) (spill_slot_counts a) in
  Ok (mkAllocation locs (intervals a) (edge_moves a) (register_budget a) spills).

Definition total_spill_slots (a : Allocation) : res OptimizationError nat :=
  let n := spill_gpr (spill_slot_counts a) + spill_fp (spill_slot_counts a) in
  if fits_u32 n then Ok n else Err TotalSpillSlotOverflow.

(** The rest of the unit: the frame states, the final allocation, and the spill
    slots of the linear scan and of the final allocation. *)
Record Homes : Type := mkHomes {
  unit_frame_states : FrameStateTable;
  final_allocation : Allocation;
  linear_scan_spill_slot_count : nat;
  spill_slot_count : nat
}.

(** [OptimizationPipeline::analyze] from the frame states to the final allocation. *)
Definition assign_homes (call_sites : list (option InlineCallSite)) (cfg : ControlFlowGraph) (ssa : SsaFunction)
    (a : Analyses) : res OptimizationError Homes :=
  let reprs := reprs (unit_reprs a) in
  let* states := map_err FrameStateConstruction (build_inlined call_sites ssa cfg) in
  let* _ := map_err FrameStateVerification (frame_states_verify ssa cfg (unit_dom a) states) in
  let* scan_count := total_spill_slots (unit_allocation a) in
  let* legal := legalize_deopt_locations (unit_allocation a) states ssa reprs in
  let* final := map_err LegalizedPhiMoves (rebuild_edge_moves legal ssa cfg reprs) in
  let* count := total_spill_slots final in
  Ok (mkHomes states final scan_count count).
End Pipeline.
