(* ===== verification/Deopt.v ===== *)
(** The inline tree and deoptimization metadata: the check of the tree
    (otter-jit/src/ir/inline.rs), the table that tells the virtual machine how to
    rebuild interpreter frames with its schema check (otter-vm/src/deopt.rs), and
    the lowering of frame states to that table with its check
    (otter-jit/src/ir/deopt_lower.rs).  Of a function body the model has the
    function id, the register and parameter counts and, for each instruction, its
    canonical PC, its byte PC and its opcode. *)

From stdpp Require Import gmap.
From S2P Require Import Prelude Slices Bits Swar Value Opcode Cfg Dom Ssa Liveness Repr Regalloc Moves Allocate FrameState.

(** ** The inline tree *)

Module Inline.
Record BodyInstr : Type := mkBodyInstr { instruction_pc : Z; instr_byte_pc : Z; body_op : Op }.

(** [InlineFrame]: one body of the unit, with its code block. *)
Record UnitFrame : Type := mkUnitFrame {
  frame_id : InlineId;
  call_site : option InlineCallSite;
  function_id : Z;
  body_register_count : Z;
  param_count : Z;
  body : list BodyInstr;
  is_method : bool
}.

Inductive InlineError : Type :=
| Empty
| IdMismatch (index : nat) (id : InlineId)
| RootShape (id : InlineId)
| ParentOrder (id parent : InlineId)
| CallPcOutOfRange (id : InlineId) (call_pc : Z)
| CallSiteNotACall (id : InlineId) (call_pc : Z)
| DuplicateCallSite (parent : InlineId) (call_pc : Z)
| ArityMismatch (id : InlineId)
| RecursiveFrame (id : InlineId) (function_id : Z)
| BodyTooLarge (id : InlineId) (instructions : nat)
| TooDeep (id : InlineId) (depth : nat)
| InstructionOrder (id : InlineId) (index : nat) (pc : Z).

Definition MAX_INLINE_INSTRUCTIONS : nat := 64.
Definition MAX_INLINE_DEPTH : nat := 1.

Section Tree.
Context (frames : list UnitFrame).

(** The frames from one to the root; a parent precedes its frame, so the number
    of frames is fuel enough. *)
Fixpoint depth_loop (fuel : nat) (current : UnitFrame) (depth : nat) : res InlineError nat :=
  match fuel with
  | O => OutOfFuel
  | S fuel =>
      match call_site current with
      | None => Ok depth
      | Some site =>
          let* parent := index frames (site_parent site) in
          depth_loop fuel parent (S depth)
      end
  end.

Fixpoint path_contains (fuel : nat) (id : InlineId) (function : Z) : res InlineError bool :=
  match fuel with
  | O => OutOfFuel
  | S fuel =>
      let* frame := index frames id in
      if (function_id frame =? function)%Z then Ok true
      else match call_site frame with
           | None => Ok false
           | Some site => path_contains fuel (site_parent site) function
           end
  end.

Definition check_body (frame : UnitFrame) : res InlineError unit :=
  for_each_i (fun position i =>
    if (instruction_pc i =? Z.of_nat position)%Z then Ok tt
    else Err (InstructionOrder (frame_id frame) position (instruction_pc i))) 0 (body frame).

Definition expected_op (site : InlineCallSite) : Op :=
  match kind site with Plain _ => Op.Call | Method _ => Op.CallMethodValue end.

(** The call a spliced frame replaces. *)
Definition check_call (index_ : nat) (frame : UnitFrame) (site : InlineCallSite)
    (claimed : list (InlineId * Z)) : res InlineError unit :=
  if index_ <=? site_parent site then Err (ParentOrder (frame_id frame) (site_parent site))
  else
    let* parent := index frames (site_parent site) in
    match body parent !! Z.to_nat (call_pc site) with
    | None => Err (CallPcOutOfRange (frame_id frame) (call_pc site))
    | Some instruction =>
        if negb (bool_decide (body_op instruction = expected_op site))
        then Err (CallSiteNotACall (frame_id frame) (call_pc site))
        else if bool_decide ((site_parent site, call_pc site) ∈ claimed)
        then Err (DuplicateCallSite (site_parent site) (call_pc site))
        else if negb (Z.of_nat (length (argument_registers site)) =? param_count frame)%Z
        then Err (ArityMismatch (frame_id frame))
        else if negb (Bool.eqb (match kind site with Method _ => true | Plain _ => false end) (is_method frame))
        then Err (CallSiteNotACall (frame_id frame) (call_pc site))
        else
          let* recursive := path_contains (S (length frames)) (site_parent site) (function_id frame) in
          if recursive : bool then Err (RecursiveFrame (frame_id frame) (function_id frame))
          else
            let* depth := depth_loop (S (length frames)) frame 0 in
            if MAX_INLINE_DEPTH <? depth then Err (TooDeep (frame_id frame) depth) else Ok tt
    end.

Fixpoint check_frames (index_ : nat) (l : list UnitFrame) (claimed : list (InlineId * Z)) : res InlineError unit :=
  match l with
  | [] => Ok tt
  | frame :: l =>
      if negb (frame_id frame =? index_) then Err (IdMismatch index_ (frame_id frame))
      else
        let* _ := check_body frame in
        if (MAX_INLINE_INSTRUCTIONS <? length (body frame)) && negb (frame_id frame =? 0)
        then Err (BodyTooLarge (frame_id frame) (length (body frame)))
        else
          match call_site frame with
          | None => if index_ =? 0 then check_frames (S index_) l claimed else Err (RootShape (frame_id frame))
          | Some site =>
              let* _ := check_call index_ frame site claimed in
              check_frames (S index_) l ((site_parent site, call_pc site) :: claimed)
          end
  end.
End Tree.

(** [InlineTree::verify]. *)
Definition inline_verify (frames : list UnitFrame) : res InlineError unit :=
  match frames with
  | [] => Err Empty
  | root :: _ =>
      match call_site root with
      | Some _ => Err (RootShape (frame_id root))
      | None => check_frames frames 0 frames []
      end
  end.
End Inline.
Export Inline (UnitFrame, BodyInstr).

(** ** The table of the virtual machine *)

Module Table.
Inductive DeoptRepr : Type := DTagged | DInt32 | DFloat64.

Inductive DeoptLocation : Type :=
| MachineRegister (id : Z)
| StackSlot (offset : Z)
| Literal (raw : Z).

Record DeoptSlot : Type := mkSlot { slot_location : DeoptLocation; slot_repr : DeoptRepr }.

Record DeoptFrame : Type := mkDeoptFrame { resume_function : Z; resume_byte_pc : Z; slots : list DeoptSlot }.

(** [FrameState]: the frames of an exit, outermost first. *)
Abbreviation FrameChain := (list DeoptFrame) (only parsing).

#[export] Instance DeoptRepr_eq_dec : EqDecision DeoptRepr.
Proof. solve_decision. Defined.
#[export] Instance DeoptLocation_eq_dec : EqDecision DeoptLocation.
Proof. solve_decision. Defined.
#[export] Instance DeoptSlot_eq_dec : EqDecision DeoptSlot.
Proof. solve_decision. Defined.
#[export] Instance DeoptFrame_eq_dec : EqDecision DeoptFrame.
Proof. solve_decision. Defined.

(** [DeoptRepr::reconstitute]: the value of a raw word; [raw as u32 as i32] keeps
    the low 32 bits, which [number_i32] boxes. *)
Definition reconstitute (r : DeoptRepr) (raw : Z) : Z :=
  match r with
  | DTagged => raw
  | DInt32 => number_i32 (to_i32 (low 32 raw))
  | DFloat64 => number_f64 raw
  end.

Record DeoptVerifyLimits : Type := mkLimits {
  max_frame_slots : nat;
  machine_register_count : Z;
  min_stack_slot_offset : Z;
  max_stack_slot_offset : Z
}.

Inductive DeoptVerifyError : Type :=
| InvalidStackSlotRange (min max : Z)
| FrameSlotCountOutOfRange (byte_pc : Z) (max actual : nat)
| DuplicateLocation (byte_pc : Z) (first_slot second_slot : nat) (location : DeoptLocation)
| MachineRegisterOutOfRange (byte_pc : Z) (slot : nat) (register register_count : Z)
| StackSlotOutOfRange (byte_pc : Z) (slot : nat) (offset min max : Z)
| StackSlotMisaligned (byte_pc : Z) (slot : nat) (offset : Z)
| EmptyFrameChain.

Definition location_key (l : DeoptLocation) : option (Z * Z) :=
  match l with
  | MachineRegister register => Some (0, register)%Z
  | StackSlot offset => Some (1, offset)%Z
  | Literal _ => None
  end.

Definition check_location (limits : DeoptVerifyLimits) (byte_pc : Z) (slot_index : nat) (l : DeoptLocation)
    : res DeoptVerifyError unit :=
  match l with
  | MachineRegister register =>
      if (machine_register_count limits <=? register)%Z
      then Err (MachineRegisterOutOfRange byte_pc slot_index register (machine_register_count limits))
      else Ok tt
  | StackSlot offset =>
      if ((offset <? min_stack_slot_offset limits) || (max_stack_slot_offset limits <? offset))%Z
      then Err (StackSlotOutOfRange byte_pc slot_index offset (min_stack_slot_offset limits) (max_stack_slot_offset limits))
      else if negb (Z.rem offset 8 =? 0)%Z then Err (StackSlotMisaligned byte_pc slot_index offset)
      else Ok tt
  | Literal _ => Ok tt
  end.

(** The slots in order, with the first slot of every location so far. *)
Fixpoint check_slots (limits : DeoptVerifyLimits) (byte_pc : Z) (slot_index : nat) (l : list DeoptSlot)
    (seen : gmap (Z * Z) nat) : res DeoptVerifyError unit :=
  match l with
  | [] => Ok tt
  | slot :: l =>
      let key := location_key (slot_location slot) in
      match k ← key; seen !! k with
      | Some first_slot => Err (DuplicateLocation byte_pc first_slot slot_index (slot_location slot))
      | None =>
          let* _ := check_location limits byte_pc slot_index (slot_location slot) in
          check_slots limits byte_pc (S slot_index) l
            match key with Some k => <[k := slot_index]> seen | None => seen end
      end
  end.

(** [DeoptFrame::verify]. *)
Definition deopt_frame_verify (limits : DeoptVerifyLimits) (f : DeoptFrame) : res DeoptVerifyError unit :=
  if max_frame_slots limits <? length (slots f)
  then Err (FrameSlotCountOutOfRange (resume_byte_pc f) (max_frame_slots limits) (length (slots f)))
  else check_slots limits (resume_byte_pc f) 0 (slots f) ∅.

(** [FrameState::verify]. *)
Definition chain_verify (limits : DeoptVerifyLimits) (chain : FrameChain) : res DeoptVerifyError unit :=
  if (max_stack_slot_offset limits <? min_stack_slot_offset limits)%Z
  then Err (InvalidStackSlotRange (min_stack_slot_offset limits) (max_stack_slot_offset limits))
  else
    match chain with
    | [] => Err EmptyFrameChain
    | _ => for_each (deopt_frame_verify limits) chain
    end.

(** [DeoptTable::verify]. *)
Definition deopt_table_verify (limits : DeoptVerifyLimits) (table : list FrameChain) : res DeoptVerifyError unit :=
  if (max_stack_slot_offset limits <? min_stack_slot_offset limits)%Z
  then Err (InvalidStackSlotRange (min_stack_slot_offset limits) (max_stack_slot_offset limits))
  else for_each (chain_verify limits) table.

(** [FrameState::innermost]. *)
Definition innermost {E} (chain : FrameChain) : res E DeoptFrame :=
  match last chain with Some f => Ok f | None => Panic end.
End Table.

(** ** Stack maps and safepoints *)

Module Maps.
(** [StackMap]: 64-bit words, bit [i mod 64] of word [i / 64] for slot [i]. *)
Abbreviation StackMap := (list Z) (only parsing).

Fixpoint mark_slots {E} (slot_count : nat) (tagged : list nat) (bits : StackMap) : res E StackMap :=
  match tagged with
  | [] => Ok bits
  | slot :: tagged =>
      let* bits :=
        if slot <? slot_count then
          let* word := index bits (slot / 64) in
          Ok (<[slot / 64 := Z.lor word (Z.shiftl 1 (Z.of_nat (slot mod 64)))]> bits)
        else Ok bits in
      mark_slots slot_count tagged bits
  end.

Definition from_tagged_slots {E} (slot_count : nat) (tagged : list nat) : res E StackMap :=
  mark_slots slot_count tagged (replicate ((slot_count + 63) / 64) 0%Z).

Definition is_tagged (map : StackMap) (i : nat) : bool :=
  match map !! (i / 64) with
  | Some word => negb (Z.land word (Z.shiftl 1 (Z.of_nat (i mod 64))) =? 0)%Z
  | None => false
  end.

(** The set bits of a word from the lowest, each cleared by [bits &= bits - 1]; a
    word has 64 bits. *)
Fixpoint visit_word {E} (fuel : nat) (base : nat) (bits : Z) : res E (list nat) :=
  match fuel with
  | O => OutOfFuel
  | S fuel =>
      if (bits =? 0)%Z then Ok []
      else
        let* rest := visit_word fuel base (Z.land bits (bits - 1)) in
        Ok (base + trailing_zeros bits :: rest)
  end.

(** The slots [for_each_tagged] visits, in its order. *)
Fixpoint visit_words {E} (w : nat) (map : StackMap) : res E (list nat) :=
  match map with
  | [] => Ok []
  | word :: map =>
      let* here := visit_word 65 (w * 64) word in
      let* rest := visit_words (S w) map in
      Ok (here ++ rest)
  end.

Definition for_each_tagged {E} (map : StackMap) : res E (list nat) := visit_words 0 map.

Record Safepoint : Type := mkSafepoint { safepoint_byte_pc : Z; tagged : StackMap }.

(** [SafepointTable::from_safepoints] and [lookup]. *)
Definition from_safepoints (points : list Safepoint) : list Safepoint :=
  sort_by (fun p q => safepoint_byte_pc p <=? safepoint_byte_pc q)%Z points.

Definition safepoint_lookup (table : list Safepoint) (byte_pc : Z) : option StackMap :=
  let cmp p := Z.compare (safepoint_byte_pc p) byte_pc in
  p ← table !! bsearch_loop (length table) cmp table 0 (length table);
  match cmp p with Eq => Some (tagged p) | _ => None end.
End Maps.

(** ** Lowering *)

Module Lowering.
Import Inline Table.

Inductive DeoptLoweringError : Type :=
| InvalidRepresentations (e : ReprError)
| AllocationLocationCountMismatch (expected actual : nat)
| AllocationClassMismatch (value : ValueId) (expected actual : RegClass)
| AbstractStateCountMismatch (expected actual : nat)
| SsaInstructionCountMismatch (expected actual : nat)
| AbstractStateOrderMismatch (expected actual : Z)
| InstructionPcMismatch (expected actual : Z)
| AbstractSlotCountMismatch (pc : Z) (expected actual : nat)
| ValueOutOfRange (pc : Z) (register : Z) (value : ValueId) (value_count : nat)
| AllocatedRegisterOutOfRange (value : ValueId) (class : RegClass) (register register_count : nat)
| SpillSlotOutOfRange (value : ValueId) (class : RegClass) (slot spill_slot_count : nat)
| SpillSlotOffsetOverflow (slot : Z)
| DuplicateBytePc (byte_pc : Z)
| ConcreteStateCountMismatch (expected actual : nat)
| MissingConcreteState (pc byte_pc : Z)
| ReifiedFrameShape (function_id : Z) (declared expected : nat)
| CallerDoesNotResumeAfterACall (function_id byte_pc : Z)
| ResumePcOutOfRange (function_id byte_pc : Z)
| ConcreteSlotCountMismatch (byte_pc : Z) (expected actual : nat)
| SlotLocationMismatch (byte_pc : Z) (register : Z) (expected actual : DeoptLocation)
| SlotRepresentationMismatch (byte_pc : Z) (register : Z) (expected actual : DeoptRepr)
| InvalidDeoptTable (e : DeoptVerifyError)
| NonDeterministic.

Definition STACK_SLOT_BYTES : Z := 8.
Definition i32_max : Z := 2147483647.

Definition deopt_repr (r : Representation) : DeoptRepr :=
  match r with Int32 => DInt32 | Float64 => DFloat64 | Tagged => DTagged end.

(** The literal of a representation: undefined or zero. *)
Definition literal_slot (r : Representation) : DeoptSlot :=
  mkSlot (Literal match r with Tagged => VALUE_UNDEFINED | _ => 0%Z end) (deopt_repr r).

Definition rematerialized_deopt_slot {E} (ssa : SsaFunction) (reprs : list Representation) (value : option ValueId)
    : res E (option DeoptSlot) :=
  match value with
  | None => Ok (Some (literal_slot Tagged))
  | Some value =>
      let* r := Pipeline.rematerialized ssa reprs value in
      Ok (literal_slot <$> r)
  end.

(** [slot * 8] as an [i32]; the product is checked as a [u32] first. *)
Definition spill_offset (slot : Z) : res DeoptLoweringError Z :=
  let bytes := (slot * STACK_SLOT_BYTES)%Z in
  if (bytes <=? i32_max)%Z then Ok bytes else Err (SpillSlotOffsetOverflow slot).

Section Slots.
Context (ssa : SsaFunction) (a : Allocation) (reprs : list Representation).

(** The place of a location in the numbering of registers and spill slots: those
    of the floating-point class follow the general ones. *)
Definition lower_location (value : ValueId) (l : Location) : res DeoptLoweringError DeoptLocation :=
  match l with
  | Register class allocated =>
      if budget_count (register_budget a) class <=? allocated
      then Err (AllocatedRegisterOutOfRange value class allocated (budget_count (register_budget a) class))
      else Ok (MachineRegister match class with
                               | Gpr => Z.of_nat allocated
                               | Fp => Z.of_nat (gpr (register_budget a) + allocated)
                               end)
  | Spill class slot =>
      if spill_count (spill_slot_counts a) class <=? slot
      then Err (SpillSlotOutOfRange value class slot (spill_count (spill_slot_counts a) class))
      else
        let* unified :=
          match class with
          | Gpr => Ok (Z.of_nat slot)
          | Fp => if fits_u32 (spill_gpr (spill_slot_counts a) + slot)
                  then Ok (Z.of_nat (spill_gpr (spill_slot_counts a) + slot))
                  else Err (SpillSlotOffsetOverflow (Z.of_nat slot))
          end in
        let* offset := spill_offset unified in
        Ok (StackSlot offset)
  end.

Definition lower_slot (register : nat) (value : option ValueId) (pc : Z) : res DeoptLoweringError DeoptSlot :=
  let* literal := rematerialized_deopt_slot ssa reprs value in
  match literal with
  | Some slot => Ok slot
  | None =>
      match value with
      | None => Panic
      | Some value =>
          if length (values ssa) <=? value
          then Err (ValueOutOfRange pc (Z.of_nat register mod 65536) value (length (values ssa)))
          else
            let* r := representation reprs value in
            let expected_class := from_representation r in
            let* l := location a value in
            if negb (bool_decide (class_of l = expected_class))
            then Err (AllocationClassMismatch value expected_class (class_of l))
            else
              let* l := lower_location value l in
              Ok (mkSlot l (deopt_repr r))
      end
  end.

Fixpoint lower_slots (register : nat) (l : list (option ValueId)) (pc : Z) : res DeoptLoweringError (list DeoptSlot) :=
  match l with
  | [] => Ok []
  | value :: l =>
      let* slot := lower_slot register value pc in
      let* rest := lower_slots (S register) l pc in
      Ok (slot :: rest)
  end.
End Slots.

(** The byte PC of an instruction; [byte_pc] of the source is the same function
    of the snapshot the unit is compiled from. *)
Definition byte_pc_at (l : list BodyInstr) (pc : Z) : res DeoptLoweringError Z :=
  match l !! Z.to_nat pc with
  | Some instruction => Ok (instr_byte_pc instruction)
  | None => Err (InstructionPcMismatch (Z.min u32_max (Z.of_nat (length l))) pc)
  end.

Inductive ResumeAt : Type := AtInstruction | AfterCall.

Section Build.
Context (view : list BodyInstr) (tree : list InlineFrame) (unit : list UnitFrame) (ssa : SsaFunction).
Context (states : FrameStateTable) (a : Allocation) (m : ReprMap).

Definition lower_frame (s : AbstractFrameState) (resume : ResumeAt) : res DeoptLoweringError DeoptFrame :=
  let* frame := index unit (state_inline s) in
  let* sl := lower_slots ssa a (reprs m) 0 (registers s) (state_pc s) in
  let pc := match resume with AtInstruction => state_pc s | AfterCall => ((state_pc s + 1) mod 4294967296)%Z end in
  let* byte_pc := byte_pc_at (body frame) pc in
  Ok (mkDeoptFrame (function_id frame) byte_pc sl).

(** The frame of a state below those of its callers; a caller precedes its callees
    in the table, so the number of states is fuel enough. *)
Fixpoint lower_chain (fuel : nat) (s : AbstractFrameState) (resume : ResumeAt) (chain : FrameChain)
    : res DeoptLoweringError FrameChain :=
  match fuel with
  | O => OutOfFuel
  | S fuel =>
      let* f := lower_frame s resume in
      match caller s with
      | None => Ok (f :: chain)
      | Some k =>
          let* s := index states k in
          lower_chain fuel s AfterCall (f :: chain)
      end
  end.

Definition site_of_instr (i : SsaInstr) : InlineId * Z := (instr_inline i, instr_pc i).

Definition site_le (x y : InlineId * Z) : bool :=
  (x.1 <? y.1) || ((x.1 =? y.1) && (x.2 <=? y.2)%Z).

Definition validate_state (s : AbstractFrameState) : res DeoptLoweringError Datatypes.unit :=
  let* frame := index unit (state_inline s) in
  let* instruction := index (body frame) (Z.to_nat (state_pc s)) in
  if negb (instruction_pc instruction =? state_pc s)%Z
  then Err (InstructionPcMismatch (state_pc s) (instruction_pc instruction))
  else
    let* width := frame_registers ssa (state_inline s) in
    if negb (length (registers s) =? Z.to_nat width)
    then Err (AbstractSlotCountMismatch (state_pc s) (Z.to_nat width) (length (registers s)))
    else
      let* _ := lower_slots ssa a (reprs m) 0 (registers s) (state_pc s) in
      Ok tt.

Definition validate_inputs : res DeoptLoweringError Datatypes.unit :=
  let* _ := map_err InvalidRepresentations (repr_verify tree ssa m) in
  if negb (length (locations a) =? length (values ssa))
  then Err (AllocationLocationCountMismatch (length (values ssa)) (length (locations a)))
  else
    let ssa_sites := sort_by site_le (map site_of_instr (flat_map instrs (ssa_blocks ssa))) in
    let state_sites := map (fun s => (state_inline s, state_pc s)) states in
    if negb (bool_decide (ssa_sites = state_sites))
    then Err (AbstractStateCountMismatch (length ssa_sites) (length state_sites))
    else for_each validate_state states.

Definition lower_table : res DeoptLoweringError (list FrameChain) :=
  let* _ := validate_inputs in
  collect_results (fun s => lower_chain (S (length states)) s AtInstruction []) states.

Definition verify_limits : res DeoptLoweringError DeoptVerifyLimits :=
  let count := spill_gpr (spill_slot_counts a) + spill_fp (spill_slot_counts a) in
  if negb (fits_u32 count) then Err (SpillSlotOffsetOverflow u32_max)
  else
    let* max_offset := if count =? 0 then Ok 0%Z else spill_offset (Z.of_nat (count - 1)) in
    Ok (mkLimits (Z.to_nat (register_count ssa)) (Z.of_nat (gpr (register_budget a) + fp (register_budget a))) 0%Z max_offset).

(** ** The check of the lowering *)

Definition is_call (o : Op) : bool := bool_decide (o = Op.Call) || bool_decide (o = Op.CallMethodValue).

(** A rebuilt frame is one the interpreter could have built. *)
Definition check_frame (chain_length depth : nat) (f : DeoptFrame) : res DeoptLoweringError Datatypes.unit :=
  match list_find (fun b => function_id b = resume_function f) unit with
  | None => Err (ReifiedFrameShape (resume_function f) (length (slots f)) 0)
  | Some (_, b) =>
      let expected := Z.to_nat (body_register_count b) in
      if negb (length (slots f) =? expected)
      then Err (ReifiedFrameShape (resume_function f) (length (slots f)) expected)
      else
        match list_find (fun i => instr_byte_pc i = resume_byte_pc f) (body b) with
        | None => Err (ResumePcOutOfRange (resume_function f) (resume_byte_pc f))
        | Some (resume, _) =>
            let call := match resume with O => None | S r => body b !! r end in
            if (depth + 1 <? chain_length) && negb (match call with Some i => is_call (body_op i) | None => false end)
            then Err (CallerDoesNotResumeAfterACall (resume_function f) (resume_byte_pc f))
            else Ok tt
        end
  end.

Definition check_chain (chain : FrameChain) : res DeoptLoweringError Datatypes.unit :=
  for_each_i (check_frame (length chain)) 0 chain.

(** A slot of the table against the slot of the allocation. *)
Definition check_slot_of (s : AbstractFrameState) (byte_pc : Z) (concrete : DeoptFrame) (register : nat) (value : option ValueId)
    : res DeoptLoweringError Datatypes.unit :=
  let r := (Z.of_nat register mod 65536)%Z in
  let* expected := lower_slot ssa a (reprs m) register value (state_pc s) in
  let* actual := index (slots concrete) (Z.to_nat r) in
  if negb (bool_decide (slot_location actual = slot_location expected))
  then Err (SlotLocationMismatch byte_pc r (slot_location expected) (slot_location actual))
  else if negb (bool_decide (slot_repr actual = slot_repr expected))
  then Err (SlotRepresentationMismatch byte_pc r (slot_repr expected) (slot_repr actual))
  else Ok tt.

Definition check_exit (table : list FrameChain) (exit : nat) (s : AbstractFrameState) : res DeoptLoweringError Datatypes.unit :=
  let* byte_pc := byte_pc_at view (state_pc s) in
  match table !! exit with
  | None => Err (MissingConcreteState (state_pc s) byte_pc)
  | Some chain =>
      let* concrete := innermost chain in
      let* width := frame_registers ssa (state_inline s) in
      if negb (length (slots concrete) =? Z.to_nat width)
      then Err (ConcreteSlotCountMismatch byte_pc (Z.to_nat width) (length (slots concrete)))
      else for_each_i (check_slot_of s byte_pc concrete) 0 (registers s)
  end.

(** [DeoptLowering::verify]. *)
Definition lowering_verify (table : list FrameChain) : res DeoptLoweringError Datatypes.unit :=
  let* _ := validate_inputs in
  let* limits := verify_limits in
  let* _ := map_err InvalidDeoptTable (deopt_table_verify limits table) in
  if negb (length table =? length states) then Err (ConcreteStateCountMismatch (length states) (length table))
  else
    let* _ := for_each check_chain table in
    let* _ := for_each_i (check_exit table) 0 states in
    let* first := lower_table in
    let* second := lower_table in
    if negb (bool_decide (first = second)) || negb (bool_decide (table = first)) then Err NonDeterministic
    else Ok tt.

(** [DeoptLowering::build]. *)
Definition deopt_build : res DeoptLoweringError (list FrameChain) :=
  let* table := lower_table in
  let* _ := lowering_verify table in
  Ok table.

(** [DeoptLowering::exit_at]. *)
Definition exit_at (inline : InlineId) (pc : Z) : option nat :=
  fst <$> list_find (fun s => state_inline s = inline /\ state_pc s = pc) states.
End Build.
End Lowering.
