(* ===== verification/MoveProps.v ===== *)
(** The sequentialized moves of an edge realise the parallel copy
    ([sequentialize_parallel_moves] of regalloc.rs): the loop terminates, no
    move overwrites a location that is still to be read, and one scratch
    register per class is enough even when several cycles are broken. *)

From stdpp Require Import gmap.
From S2P Require Import Prelude Opcode Cfg Dom Ssa Liveness Repr Regalloc Moves.
#[local] Set Warnings "-clear-no-such-hyp".

(** ** Running moves *)

Section Run.
Context {V : Type} (convert : ConversionKind -> V -> V).

Definition converted (c : option ConversionKind) (v : V) : V :=
  match c with Some c => convert c v | None => v end.

(** One copy on a machine whose locations hold values of type [V]. *)
Definition exec_move (s : Location -> V) (m : Move) : Location -> V :=
  fun l => if decide (l = dst m) then converted (conversion m) (s (src m)) else s l.

Definition run_moves (ms : list Move) (s : Location -> V) : Location -> V := foldl exec_move s ms.

(** All moves of [P] at once: every source is read before any write. *)
Fixpoint parallel_copy (P : list Move) (s : Location -> V) (l : Location) : V :=
  match P with
  | [] => s l
  | m :: P => if decide (l = dst m) then converted (conversion m) (s (src m)) else parallel_copy P s l
  end.

Lemma parallel_copy_in P s m : NoDup (map dst P) -> m ∈ P ->
  parallel_copy P s (dst m) = converted (conversion m) (s (src m)).
Proof.
  induction P as [|m' P IH]; simpl; [by intros _ ?%elem_of_nil|].
  intros [Hnin Hnd]%NoDup_cons [-> |Hin]%elem_of_cons; [by rewrite decide_True|].
  rewrite decide_False; [auto|]. intros He. apply Hnin. rewrite <- He. by apply list_elem_of_fmap_2.
Qed.

Lemma parallel_copy_notin P s l : l ∉ map dst P -> parallel_copy P s l = s l.
Proof.
  induction P as [|m P IH]; simpl; [done|]. intros [Hne Hnin]%not_elem_of_cons. rewrite decide_False by done. auto.
Qed.

Lemma exec_move_ne s m l : l <> dst m -> exec_move s m l = s l.
Proof. intros. unfold exec_move. by rewrite decide_False. Qed.

Lemma exec_move_eq s m : exec_move s m (dst m) = converted (conversion m) (s (src m)).
Proof. unfold exec_move. by rewrite decide_True. Qed.
End Run.

(** ** The rounds of the loop *)

Section Rounds.
Context (budget : RegisterBudget).

Definition is_scratch (l : Location) : Prop := exists class, l = Register class (budget_count budget class).

#[local] Abbreviation save saved := (mkMove saved (scratch_of budget saved) None).
#[local] Abbreviation redirected saved P := (map (redirect saved (scratch_of budget saved)) P).

(** The moves the loop emits for a pending list, by rounds. *)
Inductive sequenced : list Move -> list Move -> Prop :=
| sequenced_done : sequenced [] []
| sequenced_ready before m after ms :
    is_ready (before ++ m :: after) m = true -> sequenced (before ++ after) ms ->
    sequenced (before ++ m :: after) (m :: ms)
| sequenced_break first P ms :
    Forall (fun m => is_ready (first :: P) m = false) (first :: P) ->
    sequenced (redirected (dst first) (first :: P)) ms ->
    sequenced (first :: P) (save (dst first) :: ms).

Lemma is_ready_true P m : is_ready P m = true <-> forall m', m' ∈ P -> src m' <> dst m.
Proof.
  unfold is_ready. rewrite negb_true_iff. split.
  - intros H m' Hin He. apply not_true_iff_false in H. apply H. apply existsb_exists.
    exists m'. rewrite <- list_elem_of_In, bool_decide_eq_true. done.
  - intros H. apply not_true_iff_false. rewrite existsb_exists. intros (m' & Hin%list_elem_of_In & He).
    apply bool_decide_eq_true in He. by apply (H m').
Qed.

Lemma is_ready_false P m : is_ready P m = false <-> dst m ∈ map src P.
Proof.
  rewrite <- not_true_iff_false, is_ready_true, list_elem_of_fmap. split.
  - intros H. destruct (decide (Exists (fun m' => src m' = dst m) P)) as [(m' & Hin & He)%Exists_exists|Hn].
    + exists m'. auto.
    + exfalso. apply H. intros m' Hin He. apply Hn, Exists_exists. eauto.
  - intros (m' & He & Hin) H. by apply (H m').
Qed.

Lemma take_ready_spec P before after :
  match take_ready P before after with
  | Some (m, rest) => exists a b, after = a ++ m :: b /\ rest = before ++ a ++ b /\ is_ready P m = true
  | None => Forall (fun m => is_ready P m = false) after
  end.
Proof.
  revert before. induction after as [|m after IH]; intros before; simpl; [done|].
  destruct (is_ready P m) eqn:Hm; [by exists [], after|].
  specialize (IH (before ++ [m])). destruct (take_ready P (before ++ [m]) after) as [[m' rest]|]; [|by constructor].
  destruct IH as (a & b & -> & -> & ?). exists (m :: a), b. by rewrite <- app_assoc.
Qed.

Lemma redirect_fields saved scratch m :
  dst (redirect saved scratch m) = dst m /\ conversion (redirect saved scratch m) = conversion m
  /\ src (redirect saved scratch m) = if decide (src m = saved) then scratch else src m.
Proof. unfold redirect. case_bool_decide; by case_decide. Qed.

Lemma redirect_dst saved scratch P : map dst (map (redirect saved scratch) P) = map dst P.
Proof. rewrite map_map. apply map_ext. intros m. unfold redirect. by case_bool_decide. Qed.

(** Breaking a cycle makes its first move ready. *)
Lemma break_ready first P : ~ is_scratch (dst first) ->
  exists m, m ∈ redirected (dst first) (first :: P) /\ is_ready (redirected (dst first) (first :: P)) m = true.
Proof.
  intros Hs. exists (redirect (dst first) (scratch_of budget (dst first)) first). split; [by left|].
  apply is_ready_true. intros m' (m & -> & _)%list_elem_of_fmap.
  rewrite (proj1 (redirect_fields _ _ first)), (proj2 (proj2 (redirect_fields _ _ m))).
  case_decide as He; [|done]. intros Heq. apply Hs. rewrite <- Heq. by eexists.
Qed.

(** The loop terminates within its fuel, one round less when a move is ready. *)
Lemma sequence_loop_Ok fuel : forall P out, Forall (fun m => ~ is_scratch (dst m)) P ->
  2 * length P < fuel \/ (2 * length P = fuel /\ exists m, m ∈ P /\ is_ready P m = true) ->
  exists ms, sequence_loop budget fuel P out = Ok (out ++ ms) /\ sequenced P ms.
Proof.
  induction fuel as [|fuel IH]; intros P out HP Hf.
  { destruct P as [|m P]; simpl in Hf; [|lia].
    destruct Hf as [|[_ (m & Hin & _)]]; [lia|by apply elem_of_nil in Hin]. }
  destruct P as [|first P]; cbn [sequence_loop].
  { exists []. rewrite app_nil_r. split; [done|constructor]. }
  pose proof (take_ready_spec (first :: P) [] (first :: P)) as Ht.
  destruct (take_ready _ _ _) as [[m rest]|].
  - destruct Ht as (a & b & HPe & -> & Hr). simpl. rewrite HPe in HP, Hr, Hf |- *.
    assert (HP' : Forall (fun m => ~ is_scratch (dst m)) (a ++ b)).
    { apply Forall_app in HP as [? [_ ?]%Forall_cons]. by apply Forall_app. }
    rewrite length_app in Hf. simpl in Hf.
    destruct (IH (a ++ b) (out ++ [m]) HP') as (ms & He & Hs); [left; rewrite length_app; lia|].
    exists (m :: ms). rewrite He, <- app_assoc. split; [done|by constructor].
  - assert (Hlt : 2 * length (first :: P) < S fuel).
    { destruct Hf as [?|[_ (m & Hin & Hm)]]; [done|]. rewrite Forall_forall in Ht. specialize (Ht m Hin). congruence. }
    destruct (IH (redirected (dst first) (first :: P)) (out ++ [save (dst first)])) as (ms & He & Hs).
    + apply Forall_map. eapply Forall_impl; [exact HP|]. intros m Hm. simpl. unfold redirect. by case_bool_decide.
    + apply Forall_cons in HP as [Hfs _]. destruct (break_ready first P Hfs) as (m & Hin & Hm).
      destruct (decide (2 * length (first :: P) = fuel)) as [Heq|Hne].
      * right. rewrite length_map. eauto.
      * left. rewrite length_map. lia.
    + exists (save (dst first) :: ms). rewrite He, <- app_assoc. split; [done|by constructor].
Qed.

(** When no move is ready the sources are exactly the destinations: all
    pending moves form cycles and no one reads a scratch register. *)
Lemma blocked_sources P : NoDup (map dst P) -> Forall (fun m => is_ready P m = false) P ->
  map src P ≡ₚ map dst P.
Proof.
  intros Hnd Hb. symmetry. apply NoDup_Permutation_bis.
  - by apply NoDup_ListNoDup.
  - by rewrite !length_map.
  - intros l Hl%list_elem_of_In. apply list_elem_of_In. apply list_elem_of_fmap in Hl as (m & -> & Hin).
    rewrite Forall_forall in Hb. by apply is_ready_false, Hb.
Qed.

Definition targets_ok (P : list Move) : Prop :=
  NoDup (map dst P) /\ forall m, m ∈ P -> ~ is_scratch (dst m).

Lemma targets_remove before m after : targets_ok (before ++ m :: after) -> targets_ok (before ++ after).
Proof.
  intros [Hnd Hs]. split.
  - rewrite map_app. rewrite map_app in Hnd. simpl in Hnd. rewrite <- Permutation_middle in Hnd.
    by apply NoDup_cons in Hnd as [_ ?].
  - intros m' [?|?]%elem_of_app; apply Hs, elem_of_app; [by left|right; by right].
Qed.

Lemma targets_redirect saved scratch P : targets_ok P -> targets_ok (map (redirect saved scratch) P).
Proof.
  intros [Hnd Hs]. split; [by rewrite redirect_dst|].
  intros m (m0 & -> & Hin)%list_elem_of_fmap. unfold redirect. case_bool_decide; by apply (Hs m0).
Qed.

Lemma blocked_not_scratch P m : targets_ok P -> Forall (fun m => is_ready P m = false) P -> m ∈ P ->
  ~ is_scratch (src m).
Proof.
  intros [Hnd Hs] Hb Hin. pose proof (blocked_sources P Hnd Hb) as Hp.
  assert (Hd : src m ∈ map dst P) by (rewrite <- Hp; by apply list_elem_of_fmap_2).
  apply list_elem_of_fmap in Hd as (m' & -> & Hin'). by apply Hs.
Qed.

Lemma scratch_is saved : is_scratch (scratch_of budget saved).
Proof. by eexists. Qed.

(** The heart: outside the scratch registers, running the moves is the parallel copy. *)
Lemma sequenced_correct {V} (convert : ConversionKind -> V -> V) P ms : sequenced P ms -> targets_ok P ->
  forall s l, ~ is_scratch l -> run_moves convert ms s l = parallel_copy convert P s l.
Proof.
  induction 1 as [|before m after ms Hr _ IH|first P ms Hb _ IH]; intros Hok s l Hl; [done| |].
  - change (run_moves convert ms (exec_move convert s m) l = parallel_copy convert (before ++ m :: after) s l).
    rewrite IH by (done || by eapply targets_remove). pose proof Hok as [Hnd _].
    pose proof (targets_remove _ _ _ Hok) as [Hnd' _]. rewrite is_ready_true in Hr.
    destruct (decide (l ∈ map dst (before ++ m :: after))) as [Hin|Hnin].
    + apply list_elem_of_fmap in Hin as (m' & -> & Hin). rewrite (parallel_copy_in _ (before ++ m :: after)) by done.
      destruct (decide (m' ∈ before ++ after)) as [Hin'|Hnin'].
      * rewrite parallel_copy_in by done. rewrite exec_move_ne; [done|]. by apply Hr.
      * assert (m' = m) as ->.
        { apply elem_of_app in Hin as [?|[?|?]%elem_of_cons]; [|done|];
            exfalso; apply Hnin', elem_of_app; [by left|by right]. }
        rewrite parallel_copy_notin; [apply exec_move_eq|]. rewrite map_app in Hnd |- *. simpl in Hnd.
        rewrite <- Permutation_middle in Hnd. by apply NoDup_cons in Hnd as [? _].
    + rewrite (parallel_copy_notin _ (before ++ m :: after)) by done.
      rewrite map_app in Hnin. rewrite parallel_copy_notin.
      * apply exec_move_ne. intros ->. apply Hnin, elem_of_app. right. by left.
      * rewrite map_app. intros [?|?]%elem_of_app; apply Hnin, elem_of_app; [by left|right; by right].
  - change (run_moves convert ms (exec_move convert s (save (dst first))) l = parallel_copy convert (first :: P) s l).
    rewrite IH by (done || by apply targets_redirect). pose proof Hok as [Hnd Hs].
    set (Q := first :: P) in *. set (s' := exec_move convert s (save (dst first))).
    destruct (decide (l ∈ map dst Q)) as [Hin|Hnin].
    + apply list_elem_of_fmap in Hin as (m & -> & Hin). rewrite (parallel_copy_in _ Q) by done.
      assert (Hm : redirect (dst first) (scratch_of budget (dst first)) m ∈ redirected (dst first) Q)
        by (by apply list_elem_of_fmap_2).
      pose proof (parallel_copy_in convert _ s' _ (proj1 (targets_redirect _ _ _ Hok)) Hm) as He.
      destruct (redirect_fields (dst first) (scratch_of budget (dst first)) m) as (Hd & Hc & Hsr).
      rewrite Hd, Hc, Hsr in He. rewrite He. f_equal. case_decide as Hsrc.
      * unfold s'. rewrite (exec_move_eq _ s (save (dst first))). simpl. congruence.
      * apply exec_move_ne. simpl. intros Heq. apply (blocked_not_scratch Q m Hok Hb Hin).
        rewrite Heq. apply scratch_is.
    + rewrite !parallel_copy_notin by (done || by rewrite redirect_dst).
      apply exec_move_ne. simpl. intros ->. apply Hl, scratch_is.
Qed.

(** The emitted moves use the given locations and scratch registers only. *)
Lemma sequenced_locations (L : Location -> Prop) P ms : sequenced P ms -> (forall l, is_scratch l -> L l) ->
  (forall m, m ∈ P -> L (src m) /\ L (dst m)) -> forall m, m ∈ ms -> L (src m) /\ L (dst m).
Proof.
  intros Hseq Hsc. induction Hseq as [|before m after ms Hr _ IH|first P ms Hb _ IH]; intros HP.
  - by intros m ?%elem_of_nil.
  - intros m' [-> |Hin]%elem_of_cons; [apply HP, elem_of_app; right; by left|].
    apply IH; [|done]. intros m0 [?|?]%elem_of_app; apply HP, elem_of_app; [by left|right; by right].
  - intros m' [-> |Hin]%elem_of_cons.
    + split; [apply HP; by left|apply Hsc, scratch_is].
    + apply IH; [|done]. intros m0 (m & -> & Hm)%list_elem_of_fmap.
      destruct (redirect_fields (dst first) (scratch_of budget (dst first)) m) as (Hd & _ & Hs).
      rewrite Hd, Hs. destruct (HP m Hm). split; [|done]. case_decide; [apply Hsc, scratch_is|done].
Qed.

Lemma shape_classes p b m m' : class_of (src m) = class_of (src m') -> class_of (dst m) = class_of (dst m') ->
  conversion m = conversion m' -> validate_move_shape p b m = validate_move_shape p b m'.
Proof. intros H1 H2 H3. unfold validate_move_shape. by rewrite H1, H2, H3. Qed.

Lemma sequenced_shapes p b P ms : sequenced P ms ->
  Forall (fun m => validate_move_shape p b m = Ok tt) P -> Forall (fun m => validate_move_shape p b m = Ok tt) ms.
Proof.
  induction 1 as [|before m after ms Hr _ IH|first P ms Hb _ IH]; intros HP; [done| |].
  - apply Forall_app in HP as [H1 [H2 H3]%Forall_cons]. constructor; [done|]. by apply IH, Forall_app.
  - constructor.
    + unfold validate_move_shape. simpl. by rewrite bool_decide_true.
    + apply IH, Forall_map. eapply Forall_impl; [exact HP|]. intros m Hm. simpl. rewrite <- Hm.
      destruct (redirect_fields (dst first) (scratch_of budget (dst first)) m) as (Hd & Hc & Hs).
      apply shape_classes; [|by rewrite Hd|done]. rewrite Hs. case_decide as He; [|done]. by rewrite He.
Qed.

(** ** The pending moves *)

(** Moves that do something and write the same location agree. *)
Definition consistent (P : list Move) : Prop :=
  forall m m', m ∈ P -> m' ∈ P -> is_move m = true -> is_move m' = true -> dst m = dst m' -> m = m'.

Definition recorded (D : gmap Location (Location * option ConversionKind)) (P : list Move) : Prop :=
  forall d x, D !! d = Some x <-> exists m, m ∈ P /\ dst m = d /\ x = (src m, conversion m).

Lemma recorded_snoc D P m : recorded D P -> D !! dst m = None ->
  recorded (<[dst m := (src m, conversion m)]> D) (P ++ [m]).
Proof.
  intros HD Hn d x. rewrite lookup_insert_Some. split.
  - intros [[<- <-]|[Hne (m' & Hin & <- & ->)%HD]]; [exists m|exists m']; rewrite elem_of_app.
    + split; [right; by left|done].
    + split; [by left|done].
  - intros (m' & [Hin| ->%list_elem_of_singleton]%elem_of_app & <- & ->); [right|by left].
    assert (Hs : D !! dst m' = Some (src m', conversion m')) by (apply HD; eauto).
    split; [|done]. intros He. rewrite He in Hn. congruence.
Qed.

Lemma same_fields m m' : dst m = dst m' -> (src m, conversion m) = (src m', conversion m') -> m = m'.
Proof. destruct m, m'. simpl. intros -> [= -> ->]. done. Qed.

Lemma collect_pending_spec p b l : forall D P, recorded D P -> NoDup (map dst P) ->
  match collect_pending p b l D P with
  | Ok P' => NoDup (map dst P') /\ forall m, m ∈ P' <-> m ∈ P \/ (m ∈ l /\ is_move m = true)
  | Err e => exists m m', m' ∈ l /\ is_move m' = true /\ (m ∈ P \/ (m ∈ l /\ is_move m = true))
      /\ dst m = dst m' /\ m <> m' /\ e = RegallocError.ParallelDestinationConflict p b (dst m')
  | _ => False
  end.
Proof.
  induction l as [|m l IH]; intros D P HD Hnd; cbn [collect_pending].
  { split; [done|]. intros m. split; [by left|]. by intros [?|[?%elem_of_nil _]]. }
  destruct (is_move m) eqn:Hm; cbn [negb].
  2:{ specialize (IH D P HD Hnd). destruct (collect_pending p b l D P) as [P'|e| |]; [| |done|done].
      - destruct IH as [? IH]. split; [done|]. intros m0. rewrite IH, elem_of_cons. split; [tauto|].
        intros [?|[[-> |?] ?]]; [by left|congruence|by right].
      - destruct IH as (m0 & m1 & ? & ? & Hor & ? & ? & ?). exists m0, m1.
        split_and!; [by right|done|rewrite elem_of_cons; tauto|done|done|done]. }
  destruct (D !! dst m) as [x|] eqn:HDm.
  - pose proof (proj1 (HD _ _) HDm) as (m0 & Hin0 & Hd0 & ->). case_bool_decide as Hx.
    + assert (m0 = m) as -> by (by apply same_fields). rewrite insert_id by done.
      specialize (IH D P HD Hnd). destruct (collect_pending p b l D P) as [P'|e| |]; [| |done|done].
      * destruct IH as [? IH]. split; [done|]. intros m0. rewrite IH, elem_of_cons. split; [tauto|].
        intros [?|[[-> |?] ?]]; [by left|by left|by right].
      * destruct IH as (m0 & m1 & ? & ? & Hor & ? & ? & ?). exists m0, m1.
        split_and!; [by right|done|rewrite elem_of_cons; tauto|done|done|done].
    + exists m0, m. split_and!; [by left|done|by left|done| |done]. intros ->. done.
  - assert (Hnin : dst m ∉ map dst P).
    { intros (m' & He & Hin)%list_elem_of_fmap. assert (D !! dst m = Some (src m', conversion m')) by (apply HD; eauto).
      congruence. }
    specialize (IH _ (P ++ [m]) (recorded_snoc D P m HD HDm)).
    rewrite map_app in IH. specialize (IH ltac:(apply NoDup_app; split_and!;
      [done|intros x Hx ->%list_elem_of_singleton; done|apply NoDup_singleton])).
    destruct (collect_pending p b l _ (P ++ [m])) as [P'|e| |]; [| |done|done].
    + destruct IH as [? IH]. split; [done|]. intros m0. rewrite IH, elem_of_app, list_elem_of_singleton, elem_of_cons.
      split; [intuition (subst; auto)|]. intros [?|[[-> |?] ?]]; auto.
    + destruct IH as (m0 & m1 & ? & ? & Hor & ? & ? & ?). exists m0, m1. split_and!; [by right|done| |done|done|done].
      rewrite elem_of_app, list_elem_of_singleton in Hor. rewrite elem_of_cons. intuition (subst; auto).
Qed.

Lemma pending_inj P m m' : NoDup (map dst P) -> m ∈ P -> m' ∈ P -> dst m = dst m' -> m = m'.
Proof.
  induction P as [|m0 P IH]; simpl; [by intros _ ?%elem_of_nil|].
  intros [Hnin Hnd]%NoDup_cons [-> |H1]%elem_of_cons [-> |H2]%elem_of_cons He; [done| | |auto];
    exfalso; apply Hnin; [rewrite He|rewrite <- He]; by apply list_elem_of_fmap_2.
Qed.

(** What the sequentialization does on every parallel copy that writes no scratch register. *)
Lemma sequentialize_spec p b parallel : (forall m, m ∈ parallel -> ~ is_scratch (dst m)) ->
  match sequentialize_parallel_moves budget p b parallel with
  | Ok ms => Forall (fun m => validate_move_shape p b m = Ok tt) parallel /\ consistent parallel
      /\ exists P, targets_ok P /\ (forall m, m ∈ P <-> m ∈ parallel /\ is_move m = true) /\ sequenced P ms
  | Err _ => ~ Forall (fun m => validate_move_shape p b m = Ok tt) parallel \/ ~ consistent parallel
  | _ => False
  end.
Proof.
  intros Hs. unfold sequentialize_parallel_moves.
  assert (Hv : forall m, (exists u, validate_move_shape p b m = Ok u) \/ exists e, validate_move_shape p b m = Err e).
  { intros m. unfold validate_move_shape. repeat case_match; eauto. }
  destruct (for_each_cases (validate_move_shape p b) parallel) as [[-> Hok]|(m & Hin & Hne & ->)].
  2:{ destruct (Hv m) as [[[] He]|[e He]]; [done|]. rewrite He. cbn [rbind]. left. intros Hall.
      rewrite Forall_forall in Hall. by apply Hne, Hall. }
  cbn [rbind]. pose proof (collect_pending_spec p b parallel ∅ []) as Hc.
  specialize (Hc ltac:(intros d x; split; [by rewrite lookup_empty|by intros (? & ?%elem_of_nil & _)]) (NoDup_nil_2)).
  destruct (collect_pending p b parallel ∅ []) as [P|e| |]; cbn [rbind]; [| |done|done].
  - destruct Hc as [Hnd HP]. assert (HP' : forall m, m ∈ P <-> m ∈ parallel /\ is_move m = true).
    { intros m. rewrite HP, elem_of_nil. tauto. }
    assert (Hok' : targets_ok P) by (split; [done|]; intros m [? ?]%HP'; auto).
    destruct (sequence_loop_Ok (sequence_fuel P) P []) as (ms & -> & Hseq).
    { apply Forall_forall, Hok'. }
    { left. unfold sequence_fuel. lia. }
    simpl. split_and!; [done| |eauto]. intros m m' ? ? ? ? ?. apply (pending_inj P); [done|by apply HP'|by apply HP'|done].
  - destruct Hc as (m & m' & Hin & Hm & Hor & Hd & Hne & _). right. intros Hcon. apply Hne.
    destruct Hor as [?%elem_of_nil|[? ?]]; [done|]. by apply Hcon.
Qed.
End Rounds.

(** C20: sequentialized phi moves realise the parallel copy.  For every list of
    parallel moves that writes no scratch register, sequentialization
    terminates without a panic.  When it succeeds, running the emitted moves
    on any machine (any values, any meaning of the conversions, any contents
    of the scratch registers) leaves in each destination the converted
    original value of its source and changes no other location outside the
    scratch registers, and every emitted move has a legal class and conversion
    shape.  It fails only on an illegal shape or on two different moves into
    one destination. *)
Theorem parallel_moves_correct (budget : RegisterBudget) (p b : BlockId) (parallel : list Move) :
  (forall m, m ∈ parallel -> ~ is_scratch budget (dst m)) ->
  match sequentialize_parallel_moves budget p b parallel with
  | Ok ms =>
      (forall (V : Type) (convert : ConversionKind -> V -> V) (s : Location -> V) l, ~ is_scratch budget l ->
         (forall m, m ∈ parallel -> is_move m = true -> dst m = l ->
            run_moves convert ms s l = converted convert (conversion m) (s (src m)))
         /\ ((forall m, m ∈ parallel -> is_move m = true -> dst m <> l) -> run_moves convert ms s l = s l))
      /\ Forall (fun m => validate_move_shape p b m = Ok tt) ms
  | Err _ => ~ Forall (fun m => validate_move_shape p b m = Ok tt) parallel \/ ~ consistent parallel
  | _ => False
  end.
Proof.
  intros Hs. pose proof (sequentialize_spec budget p b parallel Hs) as Hspec.
  destruct (sequentialize_parallel_moves budget p b parallel) as [ms|e| |]; [|done|done|done].
  destruct Hspec as (Hshape & _ & P & Hok & HP & Hseq). split.
  - intros V convert s l Hl. rewrite (sequenced_correct budget convert P ms Hseq Hok s l Hl). split.
    + intros m Hin Hm <-. apply parallel_copy_in; [apply Hok|by apply HP].
    + intros Hno. apply parallel_copy_notin. intros (m & -> & [? ?]%HP)%list_elem_of_fmap. by apply (Hno m).
  - apply (sequenced_shapes budget p b P); [done|]. apply Forall_forall. intros m [Hin _]%HP.
    rewrite Forall_forall in Hshape. auto.
Qed.

(** Two swaps and a boxing in place: three cycles. *)
Definition sample_moves : list Move :=
  [mkMove (Register Gpr 0) (Register Gpr 1) None; mkMove (Register Gpr 1) (Register Gpr 0) None;
   mkMove (Register Gpr 2) (Spill Gpr 0) None; mkMove (Spill Gpr 0) (Register Gpr 2) None;
   mkMove (Register Gpr 3) (Register Gpr 3) (Some BoxInt32)].

Lemma parallel_moves_correct_witness :
  exists ms, sequentialize_parallel_moves (mkBudget 4 0) 0 1 sample_moves = Ok ms
  /\ forall (s : Location -> nat), run_moves (fun _ v => S v) ms s (Register Gpr 3) = S (s (Register Gpr 3)).
Proof.
  pose proof (parallel_moves_correct (mkBudget 4 0) 0 1 sample_moves) as H.
  assert (Hs : forall m, m ∈ sample_moves -> ~ is_scratch (mkBudget 4 0) (dst m)).
  { apply Forall_forall. repeat constructor; simpl; intros [[] ?]; discriminate. }
  specialize (H Hs). destruct (sequentialize_parallel_moves (mkBudget 4 0) 0 1 sample_moves) as [ms|e| |] eqn:He;
    [|vm_compute in He; discriminate|done|done].
  exists ms. split; [reflexivity|]. intros s. destruct H as [H _].
  specialize (H nat (fun _ v => S v) s (Register Gpr 3)). apply H with (m := mkMove (Register Gpr 3) (Register Gpr 3) (Some BoxInt32)).
  - intros [[] ?]; discriminate.
  - unfold sample_moves. do 4 right. left.
  - reflexivity.
  - reflexivity.
Defined.
