(* ===== verification/ScanProps.v ===== *)
(** Soundness of the linear scan ([linear_scan_class], [linear_scan] of
    regalloc.rs): every interval gets a register below the budget or a spill
    slot of its own, and intervals that overlap never share a register. *)

From stdpp Require Import sorting.
From S2P Require Import Prelude Opcode Cfg Dom DomProps Ssa Liveness Repr Regalloc.
#[local] Set Warnings "-clear-no-such-hyp".

(** ** Sorting *)

Section Sort.
Context {A : Type} (le : A -> A -> bool).

Lemma insert_by_Permutation x l : insert_by le x l ≡ₚ x :: l.
Proof.
  induction l as [|y l IH]; simpl; [done|]. destruct (le x y); [done|]. rewrite IH. apply Permutation_swap.
Qed.

Lemma sort_by_Permutation l : sort_by le l ≡ₚ l.
Proof. induction l as [|x l IH]; [done|]. unfold sort_by in *. simpl. by rewrite insert_by_Permutation, IH. Qed.

Context (Htotal : forall x y, le x y = true \/ le y x = true).
Context (Htrans : forall x y z, le x y = true -> le y z = true -> le x z = true).

Lemma insert_by_sorted x l : StronglySorted (fun x y => le x y = true) l ->
  StronglySorted (fun x y => le x y = true) (insert_by le x l).
Proof.
  induction l as [|y l IH]; intros Hs; simpl; [by repeat constructor|].
  apply StronglySorted_cons in Hs as [Hy Hs]. destruct (le x y) eqn:Hxy.
  - repeat constructor; try done. eapply Forall_impl; [exact Hy|]. simpl. intros z Hz. by eapply Htrans.
  - constructor; [auto|]. rewrite insert_by_Permutation. constructor; [|done]. destruct (Htotal x y); congruence.
Qed.

Lemma sort_by_sorted l : StronglySorted (fun x y => le x y = true) (sort_by le l).
Proof. induction l as [|x l IH]; [constructor|]. by apply insert_by_sorted. Qed.
End Sort.

Lemma pair_le_spec a b : pair_le a b = true <-> a.1 < b.1 \/ (a.1 = b.1 /\ a.2 <= b.2).
Proof. unfold pair_le. rewrite orb_true_iff, andb_true_iff, Nat.ltb_lt, Nat.eqb_eq, Nat.leb_le. done. Qed.

Lemma pair_le_total a b : pair_le a b = true \/ pair_le b a = true.
Proof. rewrite !pair_le_spec. lia. Qed.

Lemma pair_le_trans a b c : pair_le a b = true -> pair_le b c = true -> pair_le a c = true.
Proof. rewrite !pair_le_spec. lia. Qed.

(** The active list stays in the order its binary search needs. *)
Definition by_end (l : list LiveInterval) : Prop := StronglySorted (fun x y => end_le x y = true) l.

Lemma insert_active_sorted l iv : by_end l -> by_end (insert_active l iv).
Proof. apply insert_by_sorted; intros; [apply pair_le_total|by eapply pair_le_trans]. Qed.

Lemma by_end_app_l l l' : by_end (l ++ l') -> by_end l.
Proof.
  induction l as [|x l IH]; simpl; [constructor|]. intros [Hx Hs]%StronglySorted_cons.
  constructor; [by apply IH|]. by apply Forall_app in Hx as [? _].
Qed.

Lemma overflow_mono k m : k <= m -> fits_u32 k = false -> fits_u32 m = false.
Proof. unfold fits_u32. rewrite !Z.leb_gt. lia. Qed.

(** ** The state of a scan *)

(** The register an interval holds. *)
Definition reg_at (locs : list (option Location)) (iv : LiveInterval) : option nat :=
  match locs !! iv_value iv with Some (Some (Register _ r)) => Some r | _ => None end.

Section Class.
Context (class : RegClass) (n : nat) (locs0 : list (option Location)).

(** [seen] has been processed and every later interval starts at [cur] or after. *)
Record scan_inv (seen : list LiveInterval) (cur : nat) (s : ScanState) : Prop := {
  si_len : length (slots s) = length locs0;
  si_other : forall v, (forall iv, iv ∈ seen -> iv_value iv <> v) -> slots s !! v = locs0 !! v;
  si_class : forall iv, iv ∈ seen -> exists l, slots s !! iv_value iv = Some (Some l) /\ class_of l = class;
  si_active : forall iv, iv ∈ active s -> iv ∈ seen;
  si_sorted : by_end (active s);
  si_regs : map (reg_at (slots s)) (active s) ++ map Some (free s) ≡ₚ map Some (seq 0 n);
  si_bound : forall iv r, iv ∈ seen -> reg_at (slots s) iv = Some r -> r < n;
  si_past : forall iv r, iv ∈ seen -> reg_at (slots s) iv = Some r -> iv ∈ active s \/ iv_end iv < cur;
  si_disjoint : forall iv iv' r, iv ∈ seen -> iv' ∈ seen -> iv_value iv <> iv_value iv' ->
    reg_at (slots s) iv = Some r -> reg_at (slots s) iv' = Some r -> intervals_overlap iv iv' = false;
  si_spills : forall k, k < next_spill s <-> exists iv, iv ∈ seen /\ slots s !! iv_value iv = Some (Some (Spill class k));
  si_spill_inj : forall iv iv' k, iv ∈ seen -> iv' ∈ seen ->
    slots s !! iv_value iv = Some (Some (Spill class k)) -> slots s !! iv_value iv' = Some (Some (Spill class k)) ->
    iv_value iv = iv_value iv';
  si_count : next_spill s + length (active s) <= length seen;
  si_fits : fits_u32 (next_spill s) = true
}.

Lemma set_insert_Permutation x l : x ∉ l -> set_insert x l ≡ₚ x :: l.
Proof.
  induction l as [|y l IH]; simpl; [done|]. intros [Hne Hnin]%not_elem_of_cons.
  destruct (x <? y); [done|]. destruct (Nat.eqb_spec x y); [done|]. rewrite IH by done. apply Permutation_swap.
Qed.

Lemma expire_Ok {E} locs start act : forall fr,
  Forall (fun iv => is_Some (reg_at locs iv)) act -> NoDup (map (reg_at locs) act ++ map Some fr) ->
  exists fr', expire (E := E) locs start act fr = Ok (filter (fun iv => start <= iv_end iv) act, fr')
    /\ map (reg_at locs) (filter (fun iv => start <= iv_end iv) act) ++ map Some fr'
       ≡ₚ map (reg_at locs) act ++ map Some fr.
Proof.
  induction act as [|iv act IH]; intros fr Hall Hnd; cbn [expire]; [by exists fr|].
  apply Forall_cons in Hall as [[r Hr] Hall]. simpl in Hnd. rewrite Hr in Hnd. apply NoDup_cons in Hnd as [Hnin Hnd].
  rewrite filter_cons. destruct (Nat.ltb_spec (iv_end iv) start) as [Hlt|Hge].
  - rewrite decide_False by lia. unfold active_register. unfold reg_at in Hr.
    destruct (locs !! iv_value iv) as [[[c r'|]|]|] eqn:Hl; simplify_eq.
    rewrite (proj2 (index_Ok locs _ _) Hl). cbn [rbind].
    assert (Hfr : r ∉ fr). { intros Hin. apply Hnin, elem_of_app. right. by apply list_elem_of_fmap_2. }
    destruct (IH (set_insert r fr) Hall) as (fr' & -> & Hp).
    { rewrite (set_insert_Permutation r fr Hfr). simpl. rewrite <- Permutation_middle. by constructor. }
    exists fr'. split; [done|]. rewrite Hp, (set_insert_Permutation r fr Hfr). simpl.
    unfold reg_at at 2. rewrite Hl. by rewrite <- Permutation_middle.
  - rewrite decide_True by lia. destruct (IH fr Hall Hnd) as (fr' & -> & Hp). exists fr'. split; [done|].
    simpl. by rewrite Hp.
Qed.

Lemma by_end_filter start l : by_end l -> by_end (filter (fun iv => start <= iv_end iv) l).
Proof.
  induction l as [|x l IH]; [done|]. intros [Hx Hs]%StronglySorted_cons. rewrite filter_cons.
  case_decide; [|auto]. constructor; [by apply IH|]. apply Forall_forall. intros y [_ Hy]%list_elem_of_filter.
  rewrite Forall_forall in Hx. auto.
Qed.

Lemma regs_NoDup seen cur s : scan_inv seen cur s -> NoDup (map (reg_at (slots s)) (active s) ++ map Some (free s)).
Proof. intros H. rewrite (si_regs _ _ _ H). apply NoDup_fmap; [by intros ? ? [=]|apply NoDup_seq]. Qed.

Lemma active_reg seen cur s iv : scan_inv seen cur s -> iv ∈ active s -> exists r, reg_at (slots s) iv = Some r /\ r < n.
Proof.
  intros H Hin. assert (Hr : reg_at (slots s) iv ∈ map Some (seq 0 n)).
  { rewrite <- (si_regs _ _ _ H). apply elem_of_app. left. by apply list_elem_of_fmap_2. }
  apply list_elem_of_fmap in Hr as (r & -> & [_ Hr]%elem_of_seq). eauto.
Qed.

(** Giving registers back keeps the invariant, with the clock moved on. *)
Lemma expire_inv {E} seen cur s start : scan_inv seen cur s -> cur <= start ->
  exists act fr, expire (E := E) (slots s) start (active s) (free s) = Ok (act, fr)
    /\ scan_inv seen start (mkScan act fr (next_spill s) (slots s)).
Proof.
  intros H Hle. destruct (expire_Ok (E := E) (slots s) start (active s) (free s)) as (fr & Hex & Hp).
  { apply Forall_forall. intros iv Hin. destruct (active_reg _ _ _ _ H Hin) as (r & -> & _). eauto. }
  { by eapply regs_NoDup. }
  eexists _, fr. split; [exact Hex|]. destruct H. constructor; cbn [active free next_spill slots]; auto.
  - intros iv [_ Hin]%list_elem_of_filter. auto.
  - by apply by_end_filter.
  - by rewrite Hp.
  - intros iv r Hin Hr. destruct (si_past0 iv r Hin Hr) as [Ha|Ha]; [|right; lia].
    destruct (decide (start <= iv_end iv)); [left; by apply list_elem_of_filter|right; lia].
  - etrans; [|exact si_count0]. apply Nat.add_le_mono_l, length_filter.
Qed.

(** ** One interval *)

Context (seen : list LiveInterval) (iv : LiveInterval).
Context (Hfresh : forall iv', iv' ∈ seen -> iv_value iv' <> iv_value iv).
Context (Hrange : iv_value iv < length locs0) (Hse : iv_start iv <= iv_end iv).

Lemma reg_at_insert_ne locs v l iv' : iv_value iv' <> v -> reg_at (<[v := l]> locs) iv' = reg_at locs iv'.
Proof. intros. unfold reg_at. by rewrite list_lookup_insert_ne. Qed.

Lemma map_reg_ext locs v l act : (forall iv', iv' ∈ act -> iv_value iv' <> v) ->
  map (reg_at (<[v := l]> locs)) act = map (reg_at locs) act.
Proof.
  intros H. apply map_ext_in. intros iv' Hin%list_elem_of_In. by apply reg_at_insert_ne, H.
Qed.

Lemma reg_at_insert_eq locs v l iv' : iv_value iv' = v -> v < length locs ->
  reg_at (<[v := Some l]> locs) iv' = match l with Register _ r => Some r | Spill _ _ => None end.
Proof. intros <- Hlt. unfold reg_at. rewrite list_lookup_insert_eq by done. by destruct l. Qed.

(** Both directions of a lookup in an updated table. *)
Lemma slot_insert (locs : list (option Location)) v l w x : v < length locs ->
  <[v := Some l]> locs !! w = Some (Some x) <-> (w = v /\ x = l) \/ (w <> v /\ locs !! w = Some (Some x)).
Proof.
  intros Hlt. destruct (decide (w = v)) as [-> |Hne].
  - rewrite list_lookup_insert_eq by done. split; [intros [= ->]; by left|]. by intros [[_ ->]|[? _]].
  - rewrite list_lookup_insert_ne by done. split; [by right|]. by intros [[? _]|[_ ?]].
Qed.

(** The next spill slot given to one value of [seen']: the slots stay dense and unshared. *)
Lemma new_spill seen0 (seen' : list LiveInterval) cur s new : scan_inv seen0 cur s -> new ∈ seen' ->
  iv_value new < length (slots s) -> (forall iv', iv' ∈ seen0 -> iv' ∈ seen') ->
  (forall iv', iv' ∈ seen' -> iv_value iv' <> iv_value new -> iv' ∈ seen0) ->
  (forall iv' k, iv' ∈ seen0 -> iv_value iv' = iv_value new -> slots s !! iv_value iv' <> Some (Some (Spill class k))) ->
  let locs := <[iv_value new := Some (Spill class (next_spill s))]> (slots s) in
  (forall k, k < S (next_spill s) <-> exists iv', iv' ∈ seen' /\ locs !! iv_value iv' = Some (Some (Spill class k)))
  /\ (forall iv1 iv2 k, iv1 ∈ seen' -> iv2 ∈ seen' -> locs !! iv_value iv1 = Some (Some (Spill class k)) ->
       locs !! iv_value iv2 = Some (Some (Spill class k)) -> iv_value iv1 = iv_value iv2).
Proof.
  intros H Hin Hv Hsub Hsup Hno locs.
  assert (Hfresh' : forall iv' k, iv' ∈ seen' -> iv_value iv' <> iv_value new ->
    slots s !! iv_value iv' = Some (Some (Spill class k)) -> k < next_spill s).
  { intros iv' k Hin' Hne Hs. apply (si_spills _ _ _ H). eauto. }
  split.
  - intros k. split.
    + intros Hk. destruct (decide (k = next_spill s)) as [-> |Hne].
      * exists new. split; [done|]. unfold locs. by rewrite list_lookup_insert_eq.
      * destruct (proj1 (si_spills _ _ _ H k)) as (iv' & Hin' & Hs); [lia|]. exists iv'. split; [auto|].
        unfold locs. rewrite list_lookup_insert_ne; [done|]. intros He. by apply (Hno iv' k).
    + intros (iv' & Hin' & Hs). apply slot_insert in Hs as [[_ [= ->]]|[? Hs]]; [lia| |done].
      specialize (Hfresh' iv' k). intuition lia.
  - intros iv1 iv2 k H1 H2 Hs1 Hs2. apply slot_insert in Hs1; [|done]. apply slot_insert in Hs2; [|done].
    destruct Hs1 as [[? E1]|[? Hs1]], Hs2 as [[? E2]|[? Hs2]]; [congruence| | |].
    + injection E1 as ->. specialize (Hfresh' iv2 (next_spill s)). intuition lia.
    + injection E2 as ->. specialize (Hfresh' iv1 (next_spill s)). intuition lia.
    + apply (si_spill_inj _ _ _ H iv1 iv2 k); auto.
Qed.

Lemma spill_inv cur s : fits_u32 (S (next_spill s)) = true -> scan_inv seen cur s ->
  scan_inv (iv :: seen) cur (mkScan (active s) (free s) (S (next_spill s))
                               (<[iv_value iv := Some (Spill class (next_spill s))]> (slots s))).
Proof.
  intros Hfit H. pose proof (si_len _ _ _ H) as Hlen.
  assert (Hv : iv_value iv < length (slots s)) by lia.
  assert (Hreg : forall iv', iv' ∈ iv :: seen ->
    reg_at (<[iv_value iv := Some (Spill class (next_spill s))]> (slots s)) iv' <> None ->
    iv' ∈ seen /\ reg_at (<[iv_value iv := Some (Spill class (next_spill s))]> (slots s)) iv' = reg_at (slots s) iv').
  { intros iv' [-> |Hin]%elem_of_cons Hr; [by rewrite reg_at_insert_eq in Hr|].
    split; [done|]. by apply reg_at_insert_ne, Hfresh. }
  pose proof (new_spill seen (iv :: seen) cur s iv H ltac:(by left) Hv ltac:(by right)) as Hspill. specialize (Hspill
    ltac:(by intros iv' [-> |?]%elem_of_cons) ltac:(intros iv' k Hin ?; exfalso; by apply (Hfresh iv' Hin))).
  constructor; cbn [active free next_spill slots].
  - by rewrite length_insert.
  - intros v Hno. rewrite list_lookup_insert_ne by (apply Hno; by left). apply (si_other _ _ _ H).
    intros iv' Hin. apply Hno. by right.
  - intros iv' [-> |Hin]%elem_of_cons.
    + eexists. by rewrite list_lookup_insert_eq.
    + rewrite list_lookup_insert_ne by (apply not_eq_sym; auto). by apply (si_class _ _ _ H).
  - intros iv' Hin. right. by apply (si_active _ _ _ H).
  - apply (si_sorted _ _ _ H).
  - rewrite map_reg_ext; [apply (si_regs _ _ _ H)|]. intros iv' Hin. by apply Hfresh, (si_active _ _ _ H).
  - intros iv' r Hin Hr. destruct (Hreg iv' Hin) as [? He]; [congruence|]. apply (si_bound _ _ _ H iv' r); [done|congruence].
  - intros iv' r Hin Hr. destruct (Hreg iv' Hin) as [? He]; [congruence|]. apply (si_past _ _ _ H iv' r); [done|congruence].
  - intros iv1 iv2 r H1 H2 Hne Hr1 Hr2. destruct (Hreg iv1 H1) as [? ?]; [congruence|].
    destruct (Hreg iv2 H2) as [? ?]; [congruence|]. apply (si_disjoint _ _ _ H iv1 iv2 r); [done|done|done|congruence|congruence].
  - apply Hspill.
  - apply Hspill.
  - pose proof (si_count _ _ _ H). simpl. lia.
  - done.
Qed.

(** A free register is held by no active interval. *)
Lemma free_not_active cur s r rest iv' : scan_inv seen cur s -> free s = r :: rest -> iv' ∈ active s ->
  reg_at (slots s) iv' <> Some r.
Proof.
  intros H Hf Hin Hr. pose proof (regs_NoDup _ _ _ H) as Hnd. rewrite Hf in Hnd.
  apply NoDup_app in Hnd as (_ & Hnd & _). apply (Hnd (Some r)); [|by left].
  rewrite <- Hr. by apply list_elem_of_fmap_2.
Qed.

Lemma take_inv s r rest : scan_inv seen (iv_start iv) s -> free s = r :: rest ->
  scan_inv (iv :: seen) (iv_start iv)
    (mkScan (insert_active (active s) iv) rest (next_spill s) (<[iv_value iv := Some (Register class r)]> (slots s))).
Proof.
  intros H Hf. pose proof (si_len _ _ _ H) as Hlen.
  assert (Hv : iv_value iv < length (slots s)) by lia.
  assert (Hins : insert_active (active s) iv ≡ₚ iv :: active s) by apply insert_by_Permutation.
  assert (Hreg : forall iv', iv' ∈ seen ->
    reg_at (<[iv_value iv := Some (Register class r)]> (slots s)) iv' = reg_at (slots s) iv').
  { intros iv' Hin. by apply reg_at_insert_ne, Hfresh. }
  assert (Hnew : reg_at (<[iv_value iv := Some (Register class r)]> (slots s)) iv = Some r).
  { by rewrite reg_at_insert_eq. }
  assert (Hlt : r < n).
  { assert (Hr : Some r ∈ map Some (seq 0 n)).
    { rewrite <- (si_regs _ _ _ H), Hf. apply elem_of_app. right. by left. }
    apply list_elem_of_fmap in Hr as (? & [= <-] & ?%elem_of_seq). lia. }
  assert (Hold : forall iv', iv' ∈ seen -> reg_at (slots s) iv' = Some r -> iv_end iv' < iv_start iv).
  { intros iv' Hin Hr. destruct (si_past _ _ _ H iv' r Hin Hr) as [Ha|?]; [|done].
    exfalso. by apply (free_not_active _ _ _ _ _ H Hf Ha). }
  constructor; cbn [active free next_spill slots].
  - by rewrite length_insert.
  - intros v Hno. rewrite list_lookup_insert_ne by (apply Hno; by left). apply (si_other _ _ _ H).
    intros iv' Hin. apply Hno. by right.
  - intros iv' [-> |Hin]%elem_of_cons.
    + eexists. by rewrite list_lookup_insert_eq.
    + rewrite list_lookup_insert_ne by (apply not_eq_sym; auto). by apply (si_class _ _ _ H).
  - intros iv'. rewrite Hins. intros [-> |Hin]%elem_of_cons; [by left|]. right. by apply (si_active _ _ _ H).
  - apply insert_active_sorted, (si_sorted _ _ _ H).
  - rewrite Hins. simpl. rewrite Hnew, map_reg_ext by (intros iv' Hin; by apply Hfresh, (si_active _ _ _ H)).
    rewrite <- (si_regs _ _ _ H), Hf. simpl. by rewrite <- Permutation_middle.
  - intros iv' r' [-> |Hin]%elem_of_cons Hr; [congruence|]. rewrite Hreg in Hr by done. by apply (si_bound _ _ _ H iv').
  - intros iv' r' [-> |Hin]%elem_of_cons Hr; [left; rewrite Hins; by left|]. rewrite Hreg in Hr by done.
    destruct (si_past _ _ _ H iv' r' Hin Hr); [left; rewrite Hins; by right|by right].
  - intros iv1 iv2 r' [-> |H1]%elem_of_cons [-> |H2]%elem_of_cons Hne Hr1 Hr2; [done| | |].
    + rewrite Hreg in Hr2 by done. unfold intervals_overlap. assert (iv_end iv2 < iv_start iv) by (apply Hold; congruence).
      apply andb_false_intro1, Nat.leb_gt. lia.
    + rewrite Hreg in Hr1 by done. unfold intervals_overlap. assert (iv_end iv1 < iv_start iv) by (apply Hold; congruence).
      apply andb_false_intro2, Nat.leb_gt. lia.
    + rewrite Hreg in Hr1, Hr2 by done. by apply (si_disjoint _ _ _ H iv1 iv2 r').
  - intros k. rewrite (si_spills _ _ _ H). split.
    + intros (iv' & Hin & Hs). exists iv'. split; [by right|]. by rewrite list_lookup_insert_ne by (apply not_eq_sym; auto).
    + intros (iv' & Hin & Hs). apply slot_insert in Hs as [[_ [=]]|[? Hs]]; [|done].
      apply elem_of_cons in Hin as [-> |Hin]; [done|eauto].
  - intros iv1 iv2 k H1 H2 Hs1 Hs2. apply slot_insert in Hs1 as [[_ [=]]|[? Hs1]]; [|done].
    apply slot_insert in Hs2 as [[_ [=]]|[? Hs2]]; [|done].
    apply elem_of_cons in H1 as [-> |H1]; [done|]. apply elem_of_cons in H2 as [-> |H2]; [done|].
    by apply (si_spill_inj _ _ _ H iv1 iv2 k).
  - pose proof (si_count _ _ _ H). rewrite Hins. simpl. lia.
  - apply (si_fits _ _ _ H).
Qed.

(** Spilling the last active interval frees its register. *)
Lemma evict_inv cur s sp r : fits_u32 (S (next_spill s)) = true -> NoDup (map iv_value seen) -> scan_inv seen cur s -> last (active s) = Some sp ->
  reg_at (slots s) sp = Some r ->
  scan_inv seen cur (mkScan (removelast (active s)) (r :: free s) (S (next_spill s))
                       (<[iv_value sp := Some (Spill class (next_spill s))]> (slots s))).
Proof.
  intros Hfit Hnd H Hlast Hr. pose proof (si_len _ _ _ H) as Hlen.
  assert (HA : active s = removelast (active s) ++ [sp]).
  { apply last_Some in Hlast as (l & ->). by rewrite removelast_last. }
  set (A := removelast (active s)) in *.
  assert (Hsp : sp ∈ seen). { apply (si_active _ _ _ H). rewrite HA. apply elem_of_app. right. by left. }
  assert (Hv : iv_value sp < length (slots s)).
  { destruct (si_class _ _ _ H sp Hsp) as (l & Hl & _). by eapply lookup_lt_Some. }
  assert (Hsame : forall iv', iv' ∈ seen -> iv_value iv' = iv_value sp -> iv' = sp).
  { intros iv' Hin He. apply list_elem_of_lookup in Hin as [i Hi]. apply list_elem_of_lookup in Hsp as [j Hj].
    assert (i = j) as ->; [|congruence]. apply (NoDup_lookup (map iv_value seen) i j (iv_value sp) Hnd); rewrite map_lookup, ?Hi, ?Hj; simpl; congruence. }
  assert (HnA : forall iv', iv' ∈ A -> iv_value iv' <> iv_value sp).
  { intros iv' Hin He. assert (iv' = sp) as ->.
    { apply Hsame; [|done]. apply (si_active _ _ _ H). rewrite HA. apply elem_of_app. by left. }
    pose proof (regs_NoDup _ _ _ H) as Hn. rewrite HA, map_app in Hn. apply NoDup_app in Hn as (Hn & _ & _).
    apply NoDup_app in Hn as (_ & Hn & _). apply (Hn (reg_at (slots s) sp)); [by apply list_elem_of_fmap_2|by left]. }
  assert (Hreg : forall iv' r', reg_at (<[iv_value sp := Some (Spill class (next_spill s))]> (slots s)) iv' = Some r' ->
    iv_value iv' <> iv_value sp /\ reg_at (slots s) iv' = Some r').
  { intros iv' r' Hr'. destruct (decide (iv_value iv' = iv_value sp)) as [He|Hne].
    - by rewrite reg_at_insert_eq in Hr'.
    - by rewrite reg_at_insert_ne in Hr'. }
  assert (Hspill : forall iv' k, iv' ∈ seen -> iv_value iv' = iv_value sp -> slots s !! iv_value iv' <> Some (Some (Spill class k))).
  { intros iv' k _ -> Hk. unfold reg_at in Hr. by rewrite Hk in Hr. }
  apply (new_spill seen seen cur s sp H Hsp Hv ltac:(done) ltac:(done)) in Hspill.
  constructor; cbn [active free next_spill slots].
  - by rewrite length_insert.
  - intros v Hno. rewrite list_lookup_insert_ne by (by apply Hno). by apply (si_other _ _ _ H).
  - intros iv' Hin. destruct (decide (iv_value iv' = iv_value sp)) as [He|Hne].
    + rewrite He. eexists. by rewrite list_lookup_insert_eq.
    + rewrite list_lookup_insert_ne by done. by apply (si_class _ _ _ H).
  - intros iv' Hin. apply (si_active _ _ _ H). rewrite HA. apply elem_of_app. by left.
  - eapply by_end_app_l. rewrite <- HA. apply (si_sorted _ _ _ H).
  - rewrite map_reg_ext by done. rewrite <- (si_regs _ _ _ H), HA, map_app. simpl. rewrite Hr.
    by rewrite <- app_assoc.
  - intros iv' r' Hin [? Hr']%Hreg. by apply (si_bound _ _ _ H iv').
  - intros iv' r' Hin [Hne Hr']%Hreg. destruct (si_past _ _ _ H iv' r' Hin Hr') as [Ha|?]; [|by right].
    rewrite HA in Ha. apply elem_of_app in Ha as [?| ->%list_elem_of_singleton]; [by left|done].
  - intros iv1 iv2 r' H1 H2 Hne [? Hr1]%Hreg [? Hr2]%Hreg. by apply (si_disjoint _ _ _ H iv1 iv2 r').
  - apply Hspill.
  - apply Hspill.
  - pose proof (si_count _ _ _ H) as Hc. rewrite HA, length_app in Hc. simpl in Hc. lia.
  - done.
Qed.

Lemma scan_interval_Ok cur s : NoDup (map iv_value seen) -> scan_inv seen cur s -> cur <= iv_start iv ->
  match scan_interval class n s iv with
  | Ok s' => scan_inv (iv :: seen) (iv_start iv) s'
  | Err e => e = RegallocError.SpillSlotOverflow /\ fits_u32 (length (iv :: seen)) = false
  | _ => False
  end.
Proof.
  intros Hnd H0 Hle. unfold scan_interval.
  destruct (expire_inv (E := RegallocError) seen cur s (iv_start iv) H0 Hle) as (act & fr & -> & H). cbn [rbind].
  clear H0. revert H. generalize (mkScan act fr (next_spill s) (slots s)). clear s act fr. intros s H.
  pose proof (si_len _ _ _ H) as Hlen. pose proof (si_count _ _ _ H) as Hcnt.
  assert (Hspill : match spill_current class s iv with
    | Ok s' => scan_inv (iv :: seen) (iv_start iv) s'
    | Err e => e = RegallocError.SpillSlotOverflow /\ fits_u32 (length (iv :: seen)) = false
    | _ => False end).
  { unfold spill_current, next_spill_slot. rewrite set_index_Ok by lia. cbn [rbind].
    destruct (fits_u32 (S (next_spill s))) eqn:Hfit; cbn [rbind]; [by apply spill_inv|].
    split; [done|]. apply (overflow_mono (S (next_spill s))); [simpl; lia|done]. }
  destruct (Nat.eqb_spec n 0) as [|Hn]; [done|]. destruct (Nat.eqb_spec (length (active s)) n) as [Hfull|Hfull].
  - destruct (last (active s)) as [sp|] eqn:Hlast; [|apply last_None in Hlast; rewrite Hlast in Hfull; simpl in Hfull; lia].
    destruct (iv_end iv <? iv_end sp); [|done]. unfold steal.
    assert (Hin : sp ∈ active s) by (by apply last_Some_elem_of).
    destruct (active_reg _ _ _ _ H Hin) as (r & Hr & _). unfold active_register. pose proof Hr as Hr'. unfold reg_at in Hr'.
    destruct (slots s !! iv_value sp) as [[[c r'|]|]|] eqn:Hl; simplify_eq.
    rewrite (proj2 (index_Ok (slots s) _ _) Hl). cbn [rbind]. rewrite set_index_Ok by (by eapply lookup_lt_Some).
    cbn [rbind]. unfold next_spill_slot. destruct (fits_u32 (S (next_spill s))) eqn:Hfit; cbn [rbind].
    + rewrite set_index_Ok by (rewrite length_insert; lia). cbn [rbind].
      apply (take_inv _ _ _ (evict_inv _ _ _ _ Hfit Hnd H Hlast Hr) eq_refl).
    + split; [done|]. apply (overflow_mono (S (next_spill s))); [simpl; lia|done].
  - unfold take_free. pose proof (Permutation_length (si_regs _ _ _ H)) as Hl.
    rewrite length_app, !length_map, length_seq in Hl.
    destruct (free s) as [|r rest] eqn:Hf; [simpl in Hl; lia|]. rewrite set_index_Ok by lia. cbn [rbind].
    by apply take_inv.
Qed.
End Class.

(** The locations of the intervals of one class. *)
Record class_view (class : RegClass) (n : nat) (ivs : list LiveInterval) (count : nat)
    (locs : list (option Location)) : Prop := {
  cv_class : forall iv, iv ∈ ivs -> exists l, locs !! iv_value iv = Some (Some l) /\ class_of l = class;
  cv_bound : forall iv r, iv ∈ ivs -> reg_at locs iv = Some r -> r < n;
  cv_disjoint : forall iv iv' r, iv ∈ ivs -> iv' ∈ ivs -> iv_value iv <> iv_value iv' ->
    reg_at locs iv = Some r -> reg_at locs iv' = Some r -> intervals_overlap iv iv' = false;
  cv_spills : forall k, k < count <-> exists iv, iv ∈ ivs /\ locs !! iv_value iv = Some (Some (Spill class k));
  cv_spill_inj : forall iv iv' k, iv ∈ ivs -> iv' ∈ ivs -> locs !! iv_value iv = Some (Some (Spill class k)) ->
    locs !! iv_value iv' = Some (Some (Spill class k)) -> iv_value iv = iv_value iv';
  cv_fits : fits_u32 count = true
}.

(** It depends on the entries of those intervals only. *)
Lemma class_view_ext class n ivs count locs locs' :
  (forall iv, iv ∈ ivs -> locs' !! iv_value iv = locs !! iv_value iv) ->
  class_view class n ivs count locs -> class_view class n ivs count locs'.
Proof.
  intros He [H1 H2 H3 H4 H5 H6].
  assert (Hr : forall iv, iv ∈ ivs -> reg_at locs' iv = reg_at locs iv) by (intros iv Hin; unfold reg_at; by rewrite He).
  constructor.
  - intros iv Hin. rewrite He by done. auto.
  - intros iv r Hin. rewrite Hr by done. eauto.
  - intros iv iv' r Hin Hin'. rewrite !Hr by done. eauto.
  - intros k. rewrite H4. split; intros (iv & Hin & Hs); exists iv; (split; [done|]); rewrite <- Hs; [|symmetry]; auto.
  - intros iv iv' k Hin Hin'. rewrite !He by done. eauto.
  - done.
Qed.

Section Loop.
Context (class : RegClass) (n : nat) (locs0 : list (option Location)).

Lemma scan_intervals_Ok order : forall seen cur s, scan_inv class n locs0 seen cur s ->
  NoDup (map iv_value (order ++ seen)) -> Forall (fun iv => iv_value iv < length locs0) order ->
  Forall (fun iv => cur <= iv_start iv /\ iv_start iv <= iv_end iv) order ->
  StronglySorted (fun x y => start_le x y = true) order ->
  match scan_intervals class n order s with
  | Ok s' => exists cur', scan_inv class n locs0 (rev order ++ seen) cur' s'
  | Err e => e = RegallocError.SpillSlotOverflow /\ fits_u32 (length order + length seen) = false
  | _ => False
  end.
Proof.
  induction order as [|iv order IH]; intros seen cur s H Hnd Hr Hb Hs; cbn [scan_intervals]; [by exists cur|].
  apply Forall_cons in Hr as [Hr0 Hr]. apply Forall_cons in Hb as [[Hc Hse] Hb].
  apply StronglySorted_cons in Hs as [Hsx Hs]. simpl in Hnd. apply NoDup_cons in Hnd as [Hnin Hnd].
  rewrite map_app in Hnin, Hnd. pose proof (scan_interval_Ok class n locs0 seen iv) as Hstep.
  specialize (Hstep ltac:(intros iv' Hin He; apply Hnin, elem_of_app; right; rewrite <- He; by apply list_elem_of_fmap_2)).
  specialize (Hstep Hr0 Hse cur s ltac:(by apply NoDup_app in Hnd as (_ & _ & ?)) H Hc).
  destruct (scan_interval class n s iv) as [s'|e| |]; cbn [rbind]; [| |done|done].
  - specialize (IH (iv :: seen) (iv_start iv) s' Hstep).
    assert (Hnd' : NoDup (map iv_value (order ++ iv :: seen))).
    { rewrite map_app. simpl. rewrite <- Permutation_middle. by constructor. }
    specialize (IH Hnd' Hr).
    replace (length (iv :: order) + length seen) with (length order + length (iv :: seen)) by (simpl; lia).
    simpl rev. rewrite <- app_assoc. apply IH; [|done]. apply Forall_forall. intros iv' Hin. rewrite Forall_forall in Hb, Hsx.
    specialize (Hsx iv' Hin). apply pair_le_spec in Hsx. simpl in Hsx. destruct (Hb iv' Hin). lia.
  - destruct Hstep as [-> Hf]. split; [done|]. apply (overflow_mono (length (iv :: seen))); [simpl; lia|done].
Qed.

(** What the scan of one class leaves in the table of locations. *)
Record class_result (ivs : list LiveInterval) (count : nat) (locs : list (option Location)) : Prop := {
  cr_len : length locs = length locs0;
  cr_other : forall v, (forall iv, iv ∈ ivs -> iv_value iv <> v) -> locs !! v = locs0 !! v;
  cr_view : class_view class n ivs count locs
}.

Lemma linear_scan_class_Ok ivs : NoDup (map iv_value ivs) -> Forall (fun iv => iv_value iv < length locs0) ivs ->
  Forall (fun iv => iv_start iv <= iv_end iv) ivs ->
  match linear_scan_class class n ivs locs0 with
  | Ok (count, locs) => class_result ivs count locs
  | Err e => e = RegallocError.SpillSlotOverflow /\ fits_u32 (length ivs) = false
  | _ => False
  end.
Proof.
  intros Hnd Hr Hse. unfold linear_scan_class. pose proof (sort_by_Permutation start_le ivs) as Hp.
  set (order := sort_by start_le ivs) in *.
  pose proof (scan_intervals_Ok order [] 0 (mkScan [] (seq 0 n) 0 locs0)) as Hl. rewrite app_nil_r in Hl.
  assert (Hinit : scan_inv class n locs0 [] 0 (mkScan [] (seq 0 n) 0 locs0)).
  { constructor; cbn [active free next_spill slots]; try done; try (intros; by (exfalso; eapply not_elem_of_nil)).
    - constructor.
    - intros k. split; [lia|]. by intros (? & ?%elem_of_nil & _). }
  specialize (Hl Hinit ltac:(by rewrite Hp) ltac:(by rewrite Hp)). rewrite Nat.add_0_r in Hl.
  specialize (Hl ltac:(rewrite Hp; eapply Forall_impl; [exact Hse|]; simpl; lia)).
  specialize (Hl (sort_by_sorted start_le (fun x y => pair_le_total _ _) (fun x y z => pair_le_trans _ _ _) ivs)).
  destruct (scan_intervals class n order _) as [s|e| |]; cbn [rbind]; [|by rewrite <- Hp|done|done].
  destruct Hl as [cur Hi]. rewrite app_nil_r in Hi.
  assert (Hin : forall iv, iv ∈ rev order <-> iv ∈ ivs). { intros iv. by rewrite <- Permutation_rev, Hp. }
  destruct Hi as [H1 H2 H3 _ _ _ H7 _ H9 H10 H11 _ H13]. setoid_rewrite Hin in H2. setoid_rewrite Hin in H3.
  setoid_rewrite Hin in H7. setoid_rewrite Hin in H9. setoid_rewrite Hin in H10. setoid_rewrite Hin in H11.
  constructor; [done|done|by constructor].
Qed.
End Loop.

(** ** Both classes *)

Lemma class_intervals_Ok {E} reprs class ivs : Forall (fun iv => iv_value iv < length reprs) ivs ->
  exists civs, class_intervals (E := E) reprs class ivs = Ok civs /\ sublist civs ivs
    /\ forall iv, iv ∈ civs <-> iv ∈ ivs /\ from_representation <$> reprs !! iv_value iv = Some class.
Proof.
  induction ivs as [|iv ivs IH]; intros Hall; cbn [class_intervals].
  { exists []. split_and!; [done|constructor|]. intros iv. rewrite elem_of_nil. tauto. }
  apply Forall_cons in Hall as [Hiv Hall]. destruct (lookup_lt_is_Some_2 _ _ Hiv) as [r Hr].
  unfold representation. rewrite (proj2 (index_Ok reprs _ _) Hr). cbn [rbind].
  destruct (IH Hall) as (civs & -> & Hsub & Hin). cbn [rbind]. eexists. split; [done|].
  case_bool_decide as Hc; (split; [by constructor|]); intros iv'; rewrite ?elem_of_cons, Hin; (split; [|]).
  - intros [-> |[? ?]]; [rewrite Hr; simpl; by rewrite Hc; auto|auto].
  - intros [[-> |?] ?]; auto.
  - intros [? ?]. auto.
  - intros [[-> |?] He]; [|auto]. rewrite Hr in He. by injection He.
Qed.

Lemma expect_all_Ok {E A} (l : list (option A)) : Forall is_Some l -> exists l', expect_all (E := E) l = Ok l' /\ l = map Some l'.
Proof.
  induction 1 as [|o l [x ->] _ IH]; cbn [expect_all]; [by exists []|]. destruct IH as (l' & -> & ->). by exists (x :: l').
Qed.

(** What the allocator promises about the locations of a list of intervals,
    interval [v] at index [v]. *)
Record scan_sound (ivs : list LiveInterval) (reprs : list Representation) (budget : RegisterBudget)
    (locs : list Location) (spills : SpillSlotCounts) : Prop := {
  ss_len : length locs = length ivs;
  ss_class : forall v l r, locs !! v = Some l -> reprs !! v = Some r -> class_of l = from_representation r;
  ss_bound : forall v c r, locs !! v = Some (Register c r) -> r < budget_count budget c;
  ss_disjoint : forall v w iv iv' c r, v <> w -> ivs !! v = Some iv -> ivs !! w = Some iv' ->
    locs !! v = Some (Register c r) -> locs !! w = Some (Register c r) -> intervals_overlap iv iv' = false;
  ss_spills : forall c k, k < spill_count spills c <-> exists v, locs !! v = Some (Spill c k);
  ss_spill_inj : forall v w c k, locs !! v = Some (Spill c k) -> locs !! w = Some (Spill c k) -> v = w;
  ss_fits : forall c, fits_u32 (spill_count spills c) = true
}.

Definition dense (ivs : list LiveInterval) : Prop := forall v iv, ivs !! v = Some iv -> iv_value iv = v.

Lemma dense_NoDup ivs : dense ivs -> NoDup (map iv_value ivs).
Proof.
  intros Hd. apply NoDup_alt. intros i j v Hi Hj. rewrite map_lookup in Hi, Hj.
  apply fmap_Some in Hi as (iv & Hi & ->). apply fmap_Some in Hj as (iv' & Hj & He).
  rewrite <- (Hd _ _ Hi), <- (Hd _ _ Hj). done.
Qed.

Section Both.
Context (ivs : list LiveInterval) (reprs : list Representation) (budget : RegisterBudget).
Context (Hdense : dense ivs) (Hreprs : length reprs = length ivs).
Context (Hse : Forall (fun iv => iv_start iv <= iv_end iv) ivs).

(** The class of each value's interval. *)
Definition in_class (c : RegClass) (v : nat) : Prop := from_representation <$> reprs !! v = Some c.

Lemma class_scan class locs0 : length locs0 = length ivs ->
  exists civs, class_intervals (E := RegallocError) reprs class ivs = Ok civs
  /\ match linear_scan_class class (budget_count budget class) civs locs0 with
     | Ok (count, locs) => class_result class (budget_count budget class) locs0 civs count locs
     | Err e => e = RegallocError.SpillSlotOverflow /\ fits_u32 (length ivs) = false
     | _ => False
     end
  /\ forall iv, iv ∈ civs <-> exists v, ivs !! v = Some iv /\ in_class class v.
Proof.
  intros Hlen. assert (Hall : Forall (fun iv => iv_value iv < length ivs) ivs).
  { apply Forall_forall. intros iv [v Hv]%list_elem_of_lookup. rewrite (Hdense _ _ Hv). by eapply lookup_lt_Some. }
  destruct (class_intervals_Ok (E := RegallocError) reprs class ivs) as (civs & Hc & Hsub & Hin); [by rewrite Hreprs|].
  exists civs. split; [done|]. assert (Hincl : forall iv, iv ∈ civs -> iv ∈ ivs) by (intros iv [? _]%Hin; done). split.
  - pose proof (linear_scan_class_Ok class (budget_count budget class) locs0 civs) as H.
    specialize (H (sublist_NoDup _ _ (dense_NoDup _ Hdense) (fmap_sublist iv_value _ _ Hsub))).
    rewrite Forall_forall in Hall, Hse. rewrite Hlen in H.
    specialize (H ltac:(apply Forall_forall; auto) ltac:(apply Forall_forall; auto)).
    destruct (linear_scan_class _ _ civs locs0) as [[count locs]|e| |]; [done| |done|done].
    destruct H as [-> Hf]. split; [done|]. apply (overflow_mono (length civs)); [by apply sublist_length|done].
  - intros iv. rewrite Hin. unfold in_class. split.
    + intros [[v Hv]%list_elem_of_lookup Hr]. exists v. by rewrite <- (Hdense _ _ Hv) at 2.
    + intros (v & Hv & Hr). rewrite (Hdense _ _ Hv). split; [by eapply list_elem_of_lookup_2|done].
Qed.

(** The views of the classes make a sound allocation. *)
Lemma combine_views table spills (civs : RegClass -> list LiveInterval) : length table = length ivs ->
  (forall c, class_view c (budget_count budget c) (civs c) (spill_count spills c) table) ->
  (forall c iv, iv ∈ civs c <-> exists v, ivs !! v = Some iv /\ in_class c v) ->
  exists locs, expect_all (E := RegallocError) table = Ok locs /\ scan_sound ivs reprs budget locs spills.
Proof.
  intros Hlen Hview Hciv.
  assert (Hv : forall v, v < length ivs -> exists c iv l, ivs !! v = Some iv /\ iv_value iv = v /\ iv ∈ civs c
    /\ in_class c v /\ table !! v = Some (Some l) /\ class_of l = c).
  { intros v Hlt. destruct (lookup_lt_is_Some_2 ivs v Hlt) as [iv Hiv]. rewrite <- Hreprs in Hlt.
    destruct (lookup_lt_is_Some_2 reprs v Hlt) as [r Hr]. pose proof (Hdense _ _ Hiv) as He.
    assert (Hc : in_class (from_representation r) v) by (unfold in_class; by rewrite Hr).
    assert (Hin : iv ∈ civs (from_representation r)) by (apply Hciv; eauto).
    destruct (cv_class _ _ _ _ _ (Hview (from_representation r)) iv Hin) as (l & Hl & Hcl). rewrite He in Hl.
    exists (from_representation r), iv, l. done. }
  destruct (expect_all_Ok (E := RegallocError) table) as (locs & -> & ->).
  { apply Forall_lookup. intros v o Ho. destruct (Hv v) as (c & iv & l & _ & _ & _ & _ & Hl & _).
    { rewrite <- Hlen. by eapply lookup_lt_Some. }
    rewrite Ho in Hl. injection Hl as ->. eauto. }
  exists locs. split; [done|]. rewrite length_map in Hlen.
  assert (Hat : forall v l, locs !! v = Some l -> exists iv, ivs !! v = Some iv /\ iv_value iv = v
    /\ iv ∈ civs (class_of l) /\ in_class (class_of l) v /\ map Some locs !! iv_value iv = Some (Some l)).
  { intros v l Hl. destruct (Hv v) as (c & iv & l' & Hiv & He & Hin & Hc & Hl' & Hcl).
    { rewrite <- Hlen. by eapply lookup_lt_Some. }
    exists iv. rewrite He. rewrite map_lookup, Hl in Hl' |- *. simpl in Hl'. injection Hl' as <-. by rewrite Hcl. }
  assert (Hreg : forall iv v c r, iv_value iv = v -> locs !! v = Some (Register c r) -> reg_at (map Some locs) iv = Some r).
  { intros iv v c r <- Hl. unfold reg_at. by rewrite map_lookup, Hl. }
  constructor.
  - done.
  - intros v l r Hl Hr. destruct (Hat v l Hl) as (iv & _ & _ & _ & Hc & _). unfold in_class in Hc.
    rewrite Hr in Hc. by injection Hc.
  - intros v c r Hl. destruct (Hat v _ Hl) as (iv & _ & He & Hin & _).
    apply (cv_bound _ _ _ _ _ (Hview c) iv); [done|by eapply Hreg].
  - intros v w iv iv' c r Hne Hv1 Hw1 Hl Hl'. destruct (Hat v _ Hl) as (iv1 & H1 & He & Hin & _).
    destruct (Hat w _ Hl') as (iv2 & H2 & He' & Hin' & _).
    assert (iv1 = iv) as -> by congruence. assert (iv2 = iv') as -> by congruence. simpl in Hin, Hin'.
    apply (cv_disjoint _ _ _ _ _ (Hview c) iv iv' r); [done|done|congruence|by eapply Hreg|by eapply Hreg].
  - intros c k. rewrite (cv_spills _ _ _ _ _ (Hview c)). split.
    + intros (iv & _ & Hs). rewrite map_lookup in Hs. apply fmap_Some in Hs as (l & Hl & [= <-]). eauto.
    + intros (v & Hl). destruct (Hat v _ Hl) as (iv & _ & _ & Hin & _ & Hs). eauto.
  - intros v w c k Hl Hl'. destruct (Hat v _ Hl) as (iv1 & _ & <- & Hin & _ & Hs).
    destruct (Hat w _ Hl') as (iv2 & _ & <- & Hin' & _ & Hs').
    by apply (cv_spill_inj _ _ _ _ _ (Hview c) iv1 iv2 k).
  - intros c. apply (cv_fits _ _ _ _ _ (Hview c)).
Qed.

Lemma linear_scan_Ok :
  match linear_scan ivs reprs budget with
  | Ok (locs, spills) => scan_sound ivs reprs budget locs spills
  | Err e => e = RegallocError.SpillSlotOverflow /\ fits_u32 (length ivs) = false
  | _ => False
  end.
Proof.
  unfold linear_scan, ALL. cbn [scan_classes].
  destruct (class_scan Gpr (replicate (length ivs) None)) as (g & -> & Hg & Hing); [apply length_replicate|]. cbn [rbind].
  destruct (linear_scan_class Gpr _ g _) as [[kg locs1]|e| |]; cbn [rbind]; [|done|done|done].
  destruct (class_scan Fp locs1) as (f & -> & Hf & Hinf); [by rewrite (cr_len _ _ _ _ _ _ Hg), length_replicate|]. cbn [rbind].
  destruct (linear_scan_class Fp _ f locs1) as [[kf locs2]|e| |]; cbn [rbind]; [|done|done|done].
  assert (Hlen : length locs2 = length ivs).
  { by rewrite (cr_len _ _ _ _ _ _ Hf), (cr_len _ _ _ _ _ _ Hg), length_replicate. }
  assert (Hkeep : forall iv, iv ∈ g -> locs2 !! iv_value iv = locs1 !! iv_value iv).
  { intros iv (v & Hv & Hc)%Hing. apply (cr_other _ _ _ _ _ _ Hf). intros iv' (v' & Hv' & Hc')%Hinf He.
    rewrite (Hdense _ _ Hv), (Hdense _ _ Hv') in He. subst v'. unfold in_class in *. congruence. }
  set (civs := fun c => match c with Gpr => g | Fp => f end).
  assert (Hview : forall c, class_view c (budget_count budget c) (civs c) (spill_count (mkSpills kg kf) c) locs2).
  { intros []; [|apply (cr_view _ _ _ _ _ _ Hf)].
    apply (class_view_ext _ _ _ _ locs1); [done|apply (cr_view _ _ _ _ _ _ Hg)]. }
  assert (Hciv : forall c iv, iv ∈ civs c <-> exists v, ivs !! v = Some iv /\ in_class c v).
  { intros []; [apply Hing|apply Hinf]. }
  destruct (combine_views locs2 (mkSpills kg kf) civs Hlen Hview Hciv) as (locs & Hex & Hsound).
  rewrite Hex. exact Hsound.
Qed.
End Both.
