(* ===== verification/LinearProps.v ===== *)
(** The dense numbering of program points ([linearize] of regalloc.rs): on
    verified SSA it succeeds unless the function has more than 2^32 points, and
    numbers the heads and instructions of the blocks in order. *)

From S2P Require Import Prelude Opcode Cfg CfgProps Dom Ssa SsaProps Liveness Repr Regalloc ScanProps.
#[local] Set Warnings "-clear-no-such-hyp".

(** The points of a block: its heads, then its instructions, each with the value it defines. *)
Definition instr_items (l : list SsaInstr) : list (PointKind * option ValueId) :=
  imap (fun k i => (PointInstruction k, result i)) l.

Definition items (b : SsaBlock) : list (PointKind * option ValueId) :=
  map (fun v => (PointHead, Some v)) (phis b) ++ instr_items (instrs b).

(** The number of points before block [i]. *)
Definition base (l : list SsaBlock) (i : nat) : nat := sum_list (map (fun b => length (items b)) (take i l)).

Definition point_kind_of (p : DefinitionPosition) : PointKind :=
  match p with Head => PointHead | Instruction k => PointInstruction k end.

Lemma items_length b : length (items b) = length (phis b) + length (instrs b).
Proof. unfold items, instr_items. by rewrite length_app, length_map, length_imap. Qed.

Lemma items_head b m v : phis b !! m = Some v -> items b !! m = Some (PointHead, Some v).
Proof. intros H. unfold items. apply lookup_app_l_Some. by rewrite map_lookup, H. Qed.

Lemma items_instr b k i : instrs b !! k = Some i -> items b !! (length (phis b) + k) = Some (PointInstruction k, result i).
Proof.
  intros H. unfold items. rewrite lookup_app_r; rewrite length_map; [|lia].
  replace (length (phis b) + k - length (phis b)) with k by lia. unfold instr_items. by rewrite list_lookup_imap, H.
Qed.

Lemma items_inv b m k o : items b !! m = Some (k, o) ->
  (exists v, k = PointHead /\ o = Some v /\ phis b !! m = Some v)
  \/ (exists j i, k = PointInstruction j /\ m = length (phis b) + j /\ instrs b !! j = Some i /\ o = result i).
Proof.
  unfold items. intros [H|[Hle H]]%lookup_app_Some.
  - rewrite map_lookup in H. apply fmap_Some in H as (v & Hv & [= -> ->]). left. eauto.
  - rewrite length_map in Hle, H. unfold instr_items in H. rewrite list_lookup_imap in H.
    apply fmap_Some in H as (i & Hi & [= -> ->]). right. exists (m - length (phis b)), i. split_and!; [done|lia|done|done].
Qed.

Lemma items_define b m k v : items b !! m = Some (k, Some v) -> exists p, defines b v p /\ k = point_kind_of p.
Proof.
  intros [(u & -> & [= ->] & Hv)|(j & i & -> & _ & Hi & Hr)]%items_inv.
  - exists Head. split; [|done]. constructor. by eapply list_elem_of_lookup_2.
  - exists (Instruction j). split; [|done]. by eapply defines_instr.
Qed.

Lemma define_items b v p : defines b v p -> exists m, items b !! m = Some (point_kind_of p, Some v).
Proof.
  intros [Hv|k i Hi Hr].
  - apply list_elem_of_lookup in Hv as [m Hm]. exists m. by apply items_head.
  - exists (length (phis b) + k). rewrite (items_instr b k i Hi), Hr. done.
Qed.

(** ** Pushing a list of points *)

Fixpoint push_items (block n : nat) (l : list (PointKind * option ValueId)) (pts : list ProgramPoint)
    (defs : list (option nat)) : res RegallocError (list ProgramPoint * list (option nat)) :=
  match l with
  | [] => Ok (pts, defs)
  | it :: l =>
      let* (pts, defs) := push_point pts defs block it.1 it.2 n in
      push_items block n l pts defs
  end.

Lemma push_heads_items block n l : forall pts defs,
  push_heads block n l pts defs = push_items block n (map (fun v => (PointHead, Some v)) l) pts defs.
Proof.
  induction l as [|v l IH]; intros pts defs; [done|]. cbn [push_heads push_items map fst snd].
  destruct (push_point _ _ _ _ _ _) as [[? ?]| | |]; cbn [rbind]; auto.
Qed.

Lemma push_instrs_items block n l : forall k pts defs, push_instrs block n k l pts defs
  = push_items block n (imap (fun j i => (PointInstruction (k + j), result i)) l) pts defs.
Proof.
  induction l as [|i l IH]; intros k pts defs; [done|]. cbn [push_instrs push_items imap fst snd].
  rewrite Nat.add_0_r. destruct (push_point _ _ _ _ _ _) as [[? ?]| | |]; cbn [rbind]; [|done|done|done].
  rewrite IH. f_equal. apply imap_ext. intros j x _. simpl. by rewrite Nat.add_succ_r.
Qed.

Lemma push_items_app block n l l' : forall pts defs, push_items block n (l ++ l') pts defs
  = let* (pts, defs) := push_items block n l pts defs in push_items block n l' pts defs.
Proof.
  induction l as [|it l IH]; intros pts defs; [done|]. cbn [push_items app].
  destruct (push_point _ _ _ _ _ _) as [[? ?]| | |]; cbn [rbind]; auto.
Qed.

(** The pushes of a block. *)
Lemma push_block block n b pts defs :
  (let* (pts, defs) := push_heads block n (phis b) pts defs in push_instrs block n 0 (instrs b) pts defs)
  = push_items block n (items b) pts defs.
Proof.
  unfold items. rewrite push_items_app, push_heads_items.
  destruct (push_items _ _ _ _ _) as [[? ?]| | |]; cbn [rbind]; [|done|done|done]. apply push_instrs_items.
Qed.

Definition fresh_items (l : list (PointKind * option ValueId)) (defs : list (option nat)) : Prop :=
  (forall j j' k k' v, l !! j = Some (k, Some v) -> l !! j' = Some (k', Some v) -> j = j')
  /\ (forall j k v, l !! j = Some (k, Some v) -> defs !! v = Some None).

Lemma fresh_items_cons it l defs : fresh_items (it :: l) defs -> fresh_items l defs.
Proof. intros [H1 H2]. split; [intros j j' k k' v Hj Hj'; specialize (H1 (S j) (S j') k k' v Hj Hj'); lia|intros j k v Hj; by apply (H2 (S j) k v)]. Qed.

Lemma push_items_Ok block n l : forall pts defs, length defs = n -> fresh_items l defs ->
  match push_items block n l pts defs with
  | Ok (pts', defs') => pts' = pts ++ imap (fun j it => mkPoint block (length pts + j) it.1) l
      /\ length defs' = n
      /\ (forall j k v, l !! j = Some (k, Some v) -> defs' !! v = Some (Some (length pts + j)))
      /\ (forall v, (forall j k, l !! j <> Some (k, Some v)) -> defs' !! v = defs !! v)
  | Err e => e = RegallocError.PositionOverflow /\ fits_u32 (length pts + length l) = false
  | _ => False
  end.
Proof.
  induction l as [|[k o] l IH]; intros pts defs Hn Hf; cbn [push_items fst snd].
  { rewrite app_nil_r. done. }
  unfold push_point. destruct (fits_u32 (length pts)) eqn:Hfit; cbn [rbind].
  2:{ split; [done|]. apply (overflow_mono (length pts)); [lia|done]. }
  set (point := mkPoint block (length pts) k).
  assert (Hpts : forall q, pts ++ imap (fun j it => mkPoint block (length pts + j) it.1) ((k, o) :: q)
    = (pts ++ [point]) ++ imap (fun j it => mkPoint block (length (pts ++ [point]) + j) it.1) q).
  { intros q. rewrite <- app_assoc. f_equal. cbn [imap fst]. rewrite Nat.add_0_r. unfold point. simpl. f_equal.
    apply imap_ext. intros j x _. simpl. rewrite length_app. simpl. f_equal. lia. }
  destruct o as [v|]; cbn [rbind].
  2:{ specialize (IH (pts ++ [point]) defs Hn (fresh_items_cons _ _ _ Hf)). rewrite Hpts.
      destruct (push_items block n l _ defs) as [[pts' defs']|e| |]; [|rewrite length_app, <- Nat.add_assoc in IH; exact IH|done|done].
      destruct IH as (-> & Hl & Hd & Ho). split_and!; [done|done| |].
      - intros [|j] k' v Hj; [done|]. rewrite (Hd j k' v Hj), length_app. simpl. do 2 f_equal. lia.
      - intros v Hv. apply Ho. intros j k'. apply (Hv (S j) k'). }
  pose proof Hf as [Hu Hnone]. pose proof (Hnone 0 k v eq_refl) as Hv.
  assert (Hlt : v < n) by (rewrite <- Hn; by eapply lookup_lt_Some).
  unfold value_index. rewrite (proj2 (Nat.leb_gt _ _) Hlt). cbn [rbind].
  rewrite (proj2 (index_Ok defs v None) Hv). cbn [rbind]. rewrite Hpts.
  assert (Hnv : forall j k', l !! j <> Some (k', Some v)).
  { intros j k' Hj. specialize (Hu 0 (S j) k k' v eq_refl Hj). lia. }
  specialize (IH (pts ++ [point]) (<[v := Some (length pts)]> defs)).
  rewrite length_insert in IH. specialize (IH Hn).
  assert (Hf' : fresh_items l (<[v := Some (length pts)]> defs)).
  { destruct (fresh_items_cons _ _ _ Hf) as [Hu' Hn']. split; [done|]. intros j k' w Hj.
    rewrite list_lookup_insert_ne; [by apply (Hn' j k')|]. intros ->. by apply (Hnv j k'). }
  specialize (IH Hf'). destruct (push_items block n l _ _) as [[pts' defs']|e| |];
    [|rewrite length_app, <- Nat.add_assoc in IH; exact IH|done|done].
  destruct IH as (-> & Hl & Hd & Ho). split_and!; [done|done| |].
  - intros [|j] k' w Hj; simpl in Hj.
    + injection Hj as <- <-. rewrite Ho by done. rewrite list_lookup_insert_eq by lia. by rewrite Nat.add_0_r.
    + rewrite (Hd j k' w Hj), length_app. simpl. do 2 f_equal. lia.
  - intros w Hw. rewrite Ho by (intros j k'; apply (Hw (S j) k')).
    apply list_lookup_insert_ne. intros ->. by apply (Hw 0 k).
Qed.

(** ** The blocks *)

Section Linear.
Context (ssa : SsaFunction) (g : ControlFlowGraph) (t : DominatorTree).
Context (Hwf : cfg_wf g) (Hssa : ssa_wf ssa g t).
#[local] Abbreviation n := (length (values ssa)).
#[local] Abbreviation bs := (ssa_blocks ssa).

(** Value [v] is defined at point [m] of block [j]. *)
Definition defined_at (v j m : nat) : Prop := exists b k, bs !! j = Some b /\ items b !! m = Some (k, Some v).

Lemma defined_once v j m j' m' : defined_at v j m -> defined_at v j' m' -> j = j' /\ m = m'.
Proof.
  intros (b & k & Hb & Hm) (b' & k' & Hb' & Hm'). destruct (items_define _ _ _ _ Hm) as (p & Hd & ->).
  destruct (items_define _ _ _ _ Hm') as (p' & Hd' & ->).
  destruct (sw_once _ _ _ Hssa _ _ _ _ _ _ _ Hb Hb' Hd Hd') as [<- <-]. split; [done|]. simplify_eq.
  apply items_inv in Hm as [(u & Hk & [= <-] & Hu)|(i & x & Hk & -> & _)];
    apply items_inv in Hm' as [(u' & Hk' & [= <-] & Hu')|(i' & x' & Hk' & -> & _)]; [|congruence|congruence|congruence].
  by eapply NoDup_lookup; [apply (sw_heads _ _ _ Hssa j b Hb)| |].
Qed.

Lemma defined_somewhere v : v < n <-> exists j m, defined_at v j m.
Proof.
  split.
  - intros Hv. destruct (sw_placed _ _ _ Hssa v Hv) as (j & b & p & Hb & Hd).
    destruct (define_items _ _ _ Hd) as [m Hm]. exists j, m, b. eauto.
  - intros (j & m & b & k & Hb & Hm). destruct (items_define _ _ _ _ Hm) as (p & Hd & _).
    destruct (sw_defined _ _ _ Hssa _ _ _ _ Hb Hd) as (d & Hv & _). by eapply lookup_lt_Some.
Qed.

Lemma base_S i b : bs !! i = Some b -> base bs (S i) = base bs i + length (items b).
Proof. intros Hb. unfold base. rewrite (take_S_r _ _ _ Hb), map_app, sum_list_with_app. simpl. lia. Qed.

Lemma base_le i j : i <= j -> base bs i <= base bs j.
Proof.
  intros Hij. unfold base. replace (take i bs) with (take i (take j bs)) by (by rewrite take_take, Nat.min_l).
  rewrite <- (take_drop i (take j bs)) at 2. rewrite map_app, sum_list_with_app. lia.
Qed.

Lemma base_mono i : i < length bs -> base bs (S i) <= base bs (length bs).
Proof. intros Hi. apply base_le. lia. Qed.

Lemma items_nonempty i b : bs !! i = Some b -> length (items b) <> 0.
Proof.
  intros Hb. destruct (sw_layout _ _ _ Hssa i b Hb) as (cb & Hcb & Hl). rewrite items_length.
  pose proof (wf_nonempty g Hwf i cb Hcb) as Hne. rewrite <- Hl in Hne. by destruct (instrs b); simpl in *; [|lia].
Qed.

(** The tables after the blocks before [i]. *)
Record lin_inv (i : nat) (pts : list ProgramPoint) (defs : list (option nat)) (lasts : list nat) : Prop := {
  li_len : length pts = base bs i;
  li_points : forall q p, pts !! q = Some p <-> exists j b m it, j < i /\ bs !! j = Some b /\ items b !! m = Some it
    /\ q = base bs j + m /\ p = mkPoint j q it.1;
  li_dlen : length defs = n;
  li_defs : forall v q, defs !! v = Some (Some q) <-> exists j m, j < i /\ defined_at v j m /\ q = base bs j + m;
  li_lasts : length lasts = i;
  li_last : forall j b, j < i -> bs !! j = Some b -> lasts !! j = Some (base bs j + (length (items b) - 1))
}.

Lemma lin_fresh i pts defs lasts b : lin_inv i pts defs lasts -> bs !! i = Some b -> fresh_items (items b) defs.
Proof.
  intros H Hb. split.
  - intros j j' k k' v Hj Hj'. assert (H1 : defined_at v i j) by (exists b; eauto). assert (H2 : defined_at v i j') by (exists b; eauto).
    by destruct (defined_once _ _ _ _ _ H1 H2).
  - intros j k v Hj. assert (Hd : defined_at v i j) by (exists b; eauto).
    assert (Hlt : v < length defs) by (rewrite (li_dlen _ _ _ _ H); apply defined_somewhere; eauto).
    destruct (lookup_lt_is_Some_2 _ _ Hlt) as [[q|] Hq]; [|done]. apply (li_defs _ _ _ _ H) in Hq as (j' & m & Hj' & Hd' & _).
    destruct (defined_once _ _ _ _ _ Hd Hd'). lia.
Qed.

Lemma item_of_value b v : (exists j k, items b !! j = Some (k, Some v)) \/ forall j k, items b !! j <> Some (k, Some v).
Proof.
  destruct (decide (Some v ∈ map snd (items b))) as [Hin|Hnin].
  - left. apply list_elem_of_fmap in Hin as ([k o] & He & [j Hj]%list_elem_of_lookup). simpl in He. subst o. eauto.
  - right. intros j k Hj. apply Hnin, list_elem_of_fmap. exists (k, Some v). split; [done|by eapply list_elem_of_lookup_2].
Qed.

Lemma lin_defs_step i b (defs defs' : list (option nat)) pts lasts v q : lin_inv i pts defs lasts -> bs !! i = Some b ->
  (forall j k v, items b !! j = Some (k, Some v) -> defs' !! v = Some (Some (base bs i + j))) ->
  (forall v, (forall j k, items b !! j <> Some (k, Some v)) -> defs' !! v = defs !! v) ->
  defs' !! v = Some (Some q) <-> exists j m, j < S i /\ defined_at v j m /\ q = base bs j + m.
Proof.
  intros H Hb Hd Ho. destruct (item_of_value b v) as [(m & k & Hm)|Hno].
  - assert (Hdm : defined_at v i m) by (exists b; eauto). rewrite (Hd _ _ _ Hm). split.
    + intros [= <-]. exists i, m. split_and!; [lia|done|done].
    + intros (j & m' & _ & Hd' & ->). by destruct (defined_once _ _ _ _ _ Hdm Hd') as [<- <-].
  - rewrite Ho, (li_defs _ _ _ _ H) by done. split; intros (j & m & Hj & Hdm & ->); exists j, m; (split_and!; [|done|done]).
    + lia.
    + destruct (decide (j = i)) as [-> |]; [|lia]. destruct Hdm as (b' & k & Hb' & Hm). simplify_eq. by apply Hno in Hm.
Qed.

Lemma lin_step i b pts defs lasts : lin_inv i pts defs lasts -> bs !! i = Some b ->
  match push_items i n (items b) pts defs with
  | Ok (pts', defs') => exists p, last_of pts' i = Some p /\ lin_inv (S i) pts' defs' (lasts ++ [pt_position p])
  | Err e => e = RegallocError.PositionOverflow /\ fits_u32 (base bs (length bs)) = false
  | _ => False
  end.
Proof.
  intros H Hb. pose proof (push_items_Ok i n (items b) pts defs (li_dlen _ _ _ _ H) (lin_fresh _ _ _ _ _ H Hb)) as Hp.
  destruct (push_items i n (items b) pts defs) as [[pts' defs']|e| |]; [| |done|done].
  2:{ destruct Hp as [-> Hf]. split; [done|]. rewrite (li_len _ _ _ _ H) in Hf.
      rewrite <- (base_S i b Hb) in Hf. apply (overflow_mono (base bs (S i))); [|done]. apply base_mono. by eapply lookup_lt_Some. }
  destruct Hp as (-> & Hdl & Hd & Ho). rewrite (li_len _ _ _ _ H) in *. pose proof (items_nonempty i b Hb) as Hne.
  set (new := imap (fun j it => mkPoint i (base bs i + j) it.1) (items b)).
  assert (Hnl : length new = length (items b)) by apply length_imap.
  destruct (lookup_lt_is_Some_2 (items b) (length (items b) - 1)) as [it Hit]; [lia|].
  assert (Hlast : last (pts ++ new) = Some (mkPoint i (base bs i + (length (items b) - 1)) it.1)).
  { rewrite last_lookup, length_app, Hnl. rewrite lookup_app_r by lia. unfold new. rewrite list_lookup_imap.
    replace (pred (length pts + length (items b)) - length pts) with (length (items b) - 1) by lia. by rewrite Hit. }
  eexists. split; [unfold last_of; rewrite Hlast; simpl; by rewrite Nat.eqb_refl|]. simpl. constructor.
  - rewrite length_app, (base_S i b Hb), (li_len _ _ _ _ H). lia.
  - intros q p. rewrite lookup_app_Some, (li_points _ _ _ _ H), (li_len _ _ _ _ H). unfold new. split.
    + intros [(j & b' & m & it' & Hj & ?)|[Hq Hl]]; [exists j, b', m, it'; split; [lia|done]|].
      rewrite list_lookup_imap in Hl. apply fmap_Some in Hl as (it' & Hit' & ->).
      exists i, b, (q - base bs i), it'. split_and!; [lia|done|done|lia|]. f_equal. lia.
    + intros (j & b' & m & it' & Hj & Hb' & Hm & -> & ->). destruct (decide (j = i)) as [-> |Hji].
      * right. simplify_eq. split; [lia|]. rewrite list_lookup_imap.
        replace (base bs i + m - base bs i) with m by lia. by rewrite Hm.
      * left. exists j, b', m, it'. split_and!; [lia|done|done|done|done].
  - done.
  - intros v q. by apply (lin_defs_step i b defs defs' pts lasts).
  - rewrite length_app, (li_lasts _ _ _ _ H). simpl. lia.
  - intros j b' Hj Hb'. destruct (decide (j = i)) as [-> |Hji].
    + simplify_eq. rewrite lookup_app_r by (rewrite (li_lasts _ _ _ _ H); lia). by rewrite (li_lasts _ _ _ _ H), Nat.sub_diag.
    + rewrite lookup_app_l by (rewrite (li_lasts _ _ _ _ H); lia). apply (li_last _ _ _ _ H); [lia|done].
Qed.
Lemma linearize_blocks_Ok l : forall i pts defs lasts, l = drop i (blocks g) -> i <= length bs ->
  lin_inv i pts defs lasts ->
  match linearize_blocks ssa i l pts defs lasts with
  | Ok (pts', defs', lasts') => lin_inv (length bs) pts' defs' lasts'
  | Err e => e = RegallocError.PositionOverflow /\ fits_u32 (base bs (length bs)) = false
  | _ => False
  end.
Proof.
  pose proof (sw_len _ _ _ Hssa) as Hlen. induction l as [|cb l IH]; intros i pts defs lasts Hl Hi H; cbn [linearize_blocks].
  { assert (i = length bs) as ->; [|done]. apply (f_equal length) in Hl. rewrite length_drop in Hl. simpl in Hl. lia. }
  assert (Hcb : blocks g !! i = Some cb).
  { pose proof (lookup_drop (blocks g) i 0) as Hx. rewrite <- Hl, Nat.add_0_r in Hx. done. }
  assert (Hlt : i < length bs) by (rewrite Hlen; by eapply lookup_lt_Some).
  destruct (lookup_lt_is_Some_2 bs i Hlt) as [b Hb]. rewrite (proj2 (index_Ok bs i b) Hb). cbn [rbind].
  destruct (sw_layout _ _ _ Hssa i b Hb) as (cb' & Hcb' & Hlay). rewrite Hcb in Hcb'. injection Hcb' as <-.
  rewrite <- Hlay, length_map, Nat.eqb_refl. cbn [negb].
  pose proof (lin_step i b pts defs lasts H Hb) as Hstep. rewrite <- push_block in Hstep.
  destruct (push_heads i n (phis b) pts defs) as [[pts1 defs1]|e| |]; cbn [rbind] in Hstep |- *; [|done|done|done].
  destruct (push_instrs i n 0 (instrs b) pts1 defs1) as [[pts2 defs2]|e| |]; cbn [rbind] in Hstep |- *; [|done|done|done].
  destruct Hstep as (p & -> & Hinv). apply IH; [|lia|done].
  rewrite <- Nat.add_1_r, <- drop_drop, <- Hl. done.
Qed.

(** The numbering of a verified function. *)
Lemma linearize_Ok :
  match linearize ssa g with
  | Ok linear => lin_inv (length bs) (points linear) (definition_positions linear) (block_last_positions linear)
  | Err e => e = RegallocError.PositionOverflow /\ fits_u32 (base bs (length bs)) = false
  | _ => False
  end.
Proof.
  unfold linearize. rewrite (proj2 (Nat.eqb_eq _ _) (sw_len _ _ _ Hssa)). cbn [negb].
  assert (Hinit : lin_inv 0 [] (replicate n None) []).
  { constructor; try done.
    - intros q p. split; [done|]. intros (? & ? & ? & ? & ? & _). lia.
    - apply length_replicate.
    - intros v q. split; [by intros [? _]%lookup_replicate|]. intros (? & ? & ? & _). lia.
    - intros. lia. }
  pose proof (linearize_blocks_Ok (blocks g) 0 [] (replicate n None) [] eq_refl (Nat.le_0_l _) Hinit) as H.
  destruct (linearize_blocks _ _ _ _ _ _) as [[[pts defs] lasts]|e| |]; cbn [rbind]; [|done|done|done].
  rewrite (proj2 (for_each_i_Ok check_defined 0 defs)); [exact H|]. intros v x Hx. simpl.
  destruct x as [q|]; [done|]. exfalso. assert (Hv : v < n) by (rewrite <- (li_dlen _ _ _ _ H); by eapply lookup_lt_Some).
  apply defined_somewhere in Hv as (j & m & Hd). assert (Hj : j < length bs).
  { destruct Hd as (b & _ & Hb & _). by eapply lookup_lt_Some. }
  assert (Hq : defs !! v = Some (Some (base bs j + m))) by (apply (li_defs _ _ _ _ H); eauto). congruence.
Qed.
End Linear.
