(* ===== verification/IntervalProps.v ===== *)
(** The live intervals of a verified function ([build_intervals],
    [verify_intervals] of regalloc.rs): building them succeeds, the check
    accepts them, and an interval reaches every point that needs its value. *)

From stdpp Require Import gmap sorting.
From S2P Require Import Prelude Opcode Cfg CfgProps Dom RpoProps DomProps Dominance DomChecks Ssa SsaProps Liveness LivenessProps LivenessChecks Repr Regalloc Allocate ScanProps LinearProps.
#[local] Set Warnings "-clear-no-such-hyp".

(** ** The loops as one list of extensions *)

Fixpoint extend_list {S E : Type} (ext : S -> nat -> nat -> res E S) (l : list (nat * nat)) (s : S) : res E S :=
  match l with
  | [] => Ok s
  | (v, q) :: l =>
      let* s := ext s v q in
      extend_list ext l s
  end.

Lemma extend_list_app {S E} (ext : S -> nat -> nat -> res E S) l l' s :
  extend_list ext (l ++ l') s = let* s := extend_list ext l s in extend_list ext l' s.
Proof.
  revert s. induction l as [|[v q] l IH]; intros s; [done|]. cbn [extend_list app].
  destruct (ext s v q); cbn [rbind]; auto.
Qed.

Lemma extend_all_list {S} (ext : S -> nat -> nat -> res RegallocError S) q l s :
  extend_all ext q l s = extend_list ext (map (fun v => (v, q)) l) s.
Proof.
  revert s. induction l as [|v l IH]; intros s; [done|]. cbn [extend_all extend_list map].
  destruct (ext s v q); cbn [rbind]; auto.
Qed.

(** A loop that makes the extensions [reqs], whatever is extended. *)
Definition realises (L : forall S, (S -> nat -> nat -> res RegallocError S) -> S -> res RegallocError S)
    (reqs : list (nat * nat)) : Prop := forall S ext s, L S ext s = extend_list ext reqs s.

Section Intervals.
Context (ssa : SsaFunction) (g : ControlFlowGraph) (t : DominatorTree) (live : Liveness) (linear : Linearization).
Context (Hok : verify g = Ok tt) (Hssa : ssa_wf ssa g t) (Hinline : inline_inputs_dominated ssa g).
Context (Hlive : live_inv ssa g live) (Hout : forall i v, i < length (blocks g) -> at_block (live_out live) i v <-> needed ssa g v i).
Context (Hlin : lin_inv ssa (length (ssa_blocks ssa)) (points linear) (definition_positions linear) (block_last_positions linear)).
#[local] Abbreviation n := (length (values ssa)).
#[local] Abbreviation bs := (ssa_blocks ssa).

Definition last_point (i : nat) (b : SsaBlock) : nat := base bs i + (length (items b) - 1).

(** The points that need a value: the last head of the block that merges it,
    its uses, the ends of the blocks it is merged from or live out of. *)
Inductive required (v : nat) : nat -> Prop :=
| required_head i b : bs !! i = Some b -> v ∈ phis b -> required v (base bs i + (length (phis b) - 1))
| required_use i b k ins : bs !! i = Some b -> instrs b !! k = Some ins -> v ∈ inputs ins ->
    required v (base bs i + (length (phis b) + k))
| required_merge s p b : phi_input ssa g p s v -> bs !! p = Some b -> required v (last_point p b)
| required_out i b : bs !! i = Some b -> needed ssa g v i -> required v (last_point i b).

Definition in_range_reqs (reqs : list (nat * nat)) : Prop := forall v q, (v, q) ∈ reqs -> v < n.

Lemma in_range_app l l' : in_range_reqs l -> in_range_reqs l' -> in_range_reqs (l ++ l').
Proof. intros H H' v q [?|?]%elem_of_app; [by eapply H|by eapply H']. Qed.

Lemma in_range_map q l : (forall v, v ∈ l -> v < n) -> in_range_reqs (map (fun v => (v, q)) l).
Proof. intros H v q' (u & [= -> ->] & Hu)%list_elem_of_fmap. auto. Qed.

Lemma head_range i b v : bs !! i = Some b -> v ∈ phis b -> v < n.
Proof.
  intros Hb Hv. destruct (sw_defined _ _ _ Hssa i b v Head Hb) as (d & Hd & _); [by constructor|]. by eapply lookup_lt_Some.
Qed.

Lemma last_lookup_block i b : bs !! i = Some b -> block_last_positions linear !! i = Some (last_point i b).
Proof. intros Hb. apply (li_last _ _ _ _ _ Hlin); [by eapply lookup_lt_Some|done]. Qed.

Lemma heads_realised l : (forall b, b ∈ l -> b ∈ bs) -> exists reqs,
  realises (fun S ext s => extend_simultaneous_block_heads ext ssa linear l s) reqs /\ in_range_reqs reqs
  /\ forall i b v, bs !! i = Some b -> b ∈ l -> v ∈ phis b -> (v, base bs i + (length (phis b) - 1)) ∈ reqs.
Proof.
  induction l as [|b l IH]; intros Hl.
  { exists []. split_and!; [done|by intros ? ? ?%elem_of_nil|by intros ? ? ? ? ?%elem_of_nil]. }
  destruct IH as (reqs & Hr & Hin & Hall); [intros c Hc; apply Hl; by right|].
  pose proof (Hl b ltac:(by left)) as [i Hi]%list_elem_of_lookup.
  destruct (last (phis b)) as [h|] eqn:Hlast.
  - assert (Hh : phis b !! (length (phis b) - 1) = Some h).
    { rewrite last_lookup in Hlast. by replace (length (phis b) - 1) with (pred (length (phis b))) by lia. }
    assert (Hd : definition_positions linear !! h = Some (Some (base bs i + (length (phis b) - 1)))).
    { apply (li_defs _ _ _ _ _ Hlin). exists i, (length (phis b) - 1).
      split_and!; [by eapply lookup_lt_Some| |done]. exists b, PointHead. split; [done|by apply items_head]. }
    assert (Hhn : h < n) by (eapply head_range; [exact Hi|by eapply list_elem_of_lookup_2]).
    exists (map (fun v => (v, base bs i + (length (phis b) - 1))) (phis b) ++ reqs). split_and!.
    + intros S ext s. cbn [extend_simultaneous_block_heads]. rewrite Hlast. unfold value_index.
      rewrite (proj2 (Nat.leb_gt _ _) Hhn). cbn [rbind]. rewrite (proj2 (index_Ok _ _ _) Hd). cbn [rbind definition_of].
      rewrite extend_list_app, <- extend_all_list. destruct (extend_all _ _ _ _); cbn [rbind]; [apply Hr|done..].
    + apply in_range_app; [|done]. apply in_range_map. intros v. by eapply head_range.
    + intros i' b' v Hb' [-> |Hin']%elem_of_cons Hv; apply elem_of_app.
      * left. pose proof (sw_ids _ _ _ Hssa _ _ Hi). pose proof (sw_ids _ _ _ Hssa _ _ Hb'). simplify_eq.
        apply list_elem_of_fmap. eauto.
      * right. by apply Hall.
  - exists reqs. split_and!; [|done|].
    + intros S ext s. cbn [extend_simultaneous_block_heads]. rewrite Hlast. apply Hr.
    + intros i' b' v Hb' [-> |Hin']%elem_of_cons Hv; [|by apply Hall].
      apply last_None in Hlast. rewrite Hlast in Hv. by apply elem_of_nil in Hv.
Qed.

Lemma points_realised l : (forall p, p ∈ l -> p ∈ points linear) -> exists reqs,
  realises (fun S ext s => extend_points ext ssa l s) reqs /\ in_range_reqs reqs
  /\ forall i b k ins v, bs !! i = Some b -> instrs b !! k = Some ins -> v ∈ inputs ins ->
     mkPoint i (base bs i + (length (phis b) + k)) (PointInstruction k) ∈ l ->
     (v, base bs i + (length (phis b) + k)) ∈ reqs.
Proof.
  induction l as [|p l IH]; intros Hl.
  { exists []. split_and!; [done|by intros ? ? ?%elem_of_nil|by intros ? ? ? ? ? ? ? ? ?%elem_of_nil]. }
  destruct IH as (reqs & Hr & Hin & Hall); [intros c Hc; apply Hl; by right|].
  pose proof (Hl p ltac:(by left)) as [q Hq]%list_elem_of_lookup.
  apply (li_points _ _ _ _ _ Hlin) in Hq as (i & b & m & [kind o] & _ & Hb & Hm & Hq & ->). cbn [fst] in *.
  apply items_inv in Hm as [(v & -> & _)|(k & ins & -> & -> & Hi & _)].
  - exists reqs. split_and!; [|done|].
    + intros S ext s. cbn [extend_points pt_kind]. apply Hr.
    + intros i' b' k' ins' v' Hb' Hi' Hv' [Hp|Hp]%elem_of_cons; [discriminate|]. by apply (Hall i' b' k' ins').
  - exists (map (fun v => (v, q)) (inputs ins) ++ reqs). split_and!.
    + intros S ext s. cbn [extend_points pt_kind pt_block pt_position]. rewrite (proj2 (index_Ok bs i b) Hb). cbn [rbind].
      rewrite (proj2 (index_Ok (instrs b) k ins) Hi). cbn [rbind]. rewrite extend_list_app, <- extend_all_list.
      destruct (extend_all _ _ _ _); cbn [rbind]; [apply Hr|done..].
    + apply in_range_app; [|done]. apply in_range_map. intros v Hv.
      destruct (sw_use _ _ _ Hssa i b k ins v Hb Hi Hv) as (d & Hd & _). by eapply lookup_lt_Some.
    + intros i' b' k' ins' v' Hb' Hi' Hv' [Hp|Hp]%elem_of_cons; apply elem_of_app; [left|right; by apply (Hall i' b' k' ins')].
      injection Hp as He <- ->. rewrite He in Hb'. assert (b' = b) as -> by congruence. assert (ins' = ins) as -> by congruence.
      apply list_elem_of_fmap. eauto.
Qed.
(** The inputs of one merge. *)
Lemma merge_realised phi d ins s b : bs !! s = Some b -> phi ∈ phis b -> values ssa !! phi = Some d ->
  merge_inputs (value_def d) = Some ins -> exists reqs,
  realises (fun S ext st => extend_inputs ext linear (zip ins (normal_preds g s)) st) reqs /\ in_range_reqs reqs
  /\ forall j p v pb, normal_preds g s !! j = Some p -> ins !! j = Some v -> bs !! p = Some pb ->
     (v, last_point p pb) ∈ reqs.
Proof.
  intros Hs Hphi Hd Hm. assert (Hz : forall u p, (u, p) ∈ zip ins (normal_preds g s) ->
    u < n /\ exists pb, bs !! p = Some pb).
  { intros u p [j Hj]%list_elem_of_lookup. apply lookup_zip_Some in Hj as [Hu Hp].
    assert (Hpi : phi_input ssa g p s u) by (exists b, phi, d, ins, j; done).
    assert (Hsn : s < length (blocks g)) by (rewrite <- (sw_len _ _ _ Hssa); by eapply lookup_lt_Some).
    destruct (phi_input_dominated ssa g t Hok Hssa Hinline p s u Hsn Hpi) as (du & Hdu & _). split; [by eapply lookup_lt_Some|].
    apply lookup_lt_is_Some. rewrite (sw_len _ _ _ Hssa).
    assert (He : p ∈ normal_preds g s) by (by eapply list_elem_of_lookup_2).
    apply (elem_of_normal_preds g Hok) in He as (cb & Hcb & _); [|done]. by eapply lookup_lt_Some. }
  enough (Hgen : forall l, (forall u p, (u, p) ∈ l -> u < n /\ exists pb, bs !! p = Some pb) -> exists reqs,
    realises (fun S ext st => extend_inputs ext linear l st) reqs /\ in_range_reqs reqs
    /\ forall u p pb, (u, p) ∈ l -> bs !! p = Some pb -> (u, last_point p pb) ∈ reqs).
  { destruct (Hgen _ Hz) as (reqs & Hr & Hin & Hall). exists reqs. split_and!; [done|done|].
    intros j p v pb Hp Hv Hpb. apply Hall; [|done]. eapply list_elem_of_lookup_2. by apply lookup_zip_Some. }
  clear Hz. intros l. induction l as [|[u p] l IH]; intros Hl.
  { exists []. split_and!; [done|by intros ? ? ?%elem_of_nil|by intros ? ? ? ?%elem_of_nil]. }
  destruct IH as (reqs & Hr & Hin & Hall); [intros u' p' Hup; apply Hl; by right|].
  destruct (Hl u p) as (Hu & pb & Hpb); [by left|]. exists ((u, last_point p pb) :: reqs). split_and!.
  - intros S ext st. cbn [extend_inputs extend_list]. rewrite (proj2 (index_Ok _ _ _) (last_lookup_block p pb Hpb)).
    cbn [rbind]. destruct (ext st u (last_point p pb)); cbn [rbind]; [apply Hr|done..].
  - intros v q [[= -> ->]|Hv]%elem_of_cons; [done|by eapply Hin].
  - intros u' p' pb' [[= -> ->]|Hup]%elem_of_cons Hpb'; [|right; by apply Hall]. simplify_eq. by left.
Qed.

Lemma merges_realised s b l : bs !! s = Some b -> (forall phi, phi ∈ l -> phi ∈ phis b) -> exists reqs,
  realises (fun S ext st => extend_merges ext ssa linear (normal_preds g s) l st) reqs /\ in_range_reqs reqs
  /\ forall phi d ins j p v pb, phi ∈ l -> values ssa !! phi = Some d -> merge_inputs (value_def d) = Some ins ->
     normal_preds g s !! j = Some p -> ins !! j = Some v -> bs !! p = Some pb -> (v, last_point p pb) ∈ reqs.
Proof.
  intros Hs. assert (Hsn : s < length (blocks g)) by (rewrite <- (sw_len _ _ _ Hssa); by eapply lookup_lt_Some).
  induction l as [|phi l IH]; intros Hl.
  { exists []. split_and!; [done|by intros ? ? ?%elem_of_nil|by intros ? ? ? ? ? ? ? ?%elem_of_nil]. }
  destruct IH as (reqs & Hr & Hin & Hall); [intros u Hu; apply Hl; by right|].
  pose proof (Hl phi ltac:(by left)) as Hphi. pose proof (head_range s b phi Hs Hphi) as Hlt.
  destruct (lookup_lt_is_Some_2 _ _ Hlt) as [d Hd].
  assert (Hstep : forall S ext st, extend_merges (S := S) ext ssa linear (normal_preds g s) (phi :: l) st =
    match merge_inputs (value_def d) with
    | None => extend_merges ext ssa linear (normal_preds g s) l st
    | Some ins => if negb (length ins =? length (normal_preds g s))
        then Err (RegallocError.PhiInputCountMismatch phi (length (normal_preds g s)) (length ins))
        else let* st := extend_inputs ext linear (zip ins (normal_preds g s)) st in
             extend_merges ext ssa linear (normal_preds g s) l st
    end).
  { intros S ext st. cbn [extend_merges]. unfold value_index. rewrite (proj2 (Nat.leb_gt _ _) Hlt). cbn [rbind].
    by rewrite (proj2 (index_Ok (values ssa) phi d) Hd). }
  destruct (merge_inputs (value_def d)) as [ins|] eqn:Hm.
  - destruct (merge_realised phi d ins s b Hs Hphi Hd Hm) as (reqs1 & Hr1 & Hin1 & Hall1).
    destruct (sw_inputs _ _ _ Hssa s b phi d ins Hs Hphi Hd Hm) as (npreds & Hn & Hlen).
    rewrite (normal_predecessors_pure g Hok s Hsn) in Hn. injection Hn as <-.
    exists (reqs1 ++ reqs). split_and!; [|by apply in_range_app|].
    + intros S ext st. rewrite Hstep, Hlen, Nat.eqb_refl. cbn [negb]. rewrite extend_list_app, <- Hr1.
      destruct (extend_inputs _ _ _ _); cbn [rbind]; [apply Hr|done..].
    + intros phi' d' ins' j p v pb [-> |Hphi']%elem_of_cons Hd' Hm' Hp Hv Hpb; apply elem_of_app.
      * left. simplify_eq. by eapply Hall1.
      * right. by eapply Hall.
  - exists reqs. split_and!; [|done|].
    + intros S ext st. rewrite Hstep. apply Hr.
    + intros phi' d' ins' j p v pb [-> |Hphi']%elem_of_cons Hd' Hm' Hp Hv Hpb; [congruence|by eapply Hall].
Qed.

Lemma out_range i v : i < length (blocks g) -> at_block (live_out live) i v -> v < n.
Proof.
  intros Hi Hv. apply Hout in Hv; [|done]. destruct (needed_dominated ssa g t Hok Hssa Hinline v i Hv) as (d & Hd & _).
  by eapply lookup_lt_Some.
Qed.

Lemma outs_realised l : forall i, l = drop i bs -> exists reqs,
  realises (fun S ext st => extend_phi_and_live_out_intervals ext ssa g live linear i l st) reqs /\ in_range_reqs reqs
  /\ (forall s p v pb, i <= s -> phi_input ssa g p s v -> bs !! p = Some pb -> (v, last_point p pb) ∈ reqs)
  /\ (forall j b v, i <= j -> bs !! j = Some b -> needed ssa g v j -> (v, last_point j b) ∈ reqs).
Proof.
  induction l as [|b l IH]; intros i Hl.
  { assert (Hi : length bs <= i) by (apply (f_equal length) in Hl; rewrite length_drop in Hl; simpl in Hl; lia).
    exists []. split_and!; [done|by intros ? ? ?%elem_of_nil| |].
    - intros s p v pb Hs (b & phi & d & ins & j & Hb & _). apply lookup_lt_Some in Hb. lia.
    - intros j b v Hj Hb. apply lookup_lt_Some in Hb. lia. }
  assert (Hb : bs !! i = Some b).
  { pose proof (lookup_drop bs i 0) as Hx. by rewrite <- Hl, Nat.add_0_r in Hx. }
  assert (Hi : i < length (blocks g)) by (rewrite <- (sw_len _ _ _ Hssa); by eapply lookup_lt_Some).
  destruct (IH (S i)) as (reqs & Hr & Hin & Hmerge & Hneed).
  { by rewrite <- Nat.add_1_r, <- drop_drop, <- Hl. }
  destruct (merges_realised i b (phis b) Hb ltac:(done)) as (reqs1 & Hr1 & Hin1 & Hall1).
  destruct (lookup_lt_is_Some_2 (live_out live) i) as [O HO]; [by rewrite (lv_out_len _ _ _ Hlive)|].
  assert (HOs : forall v, v ∈ in_order O <-> at_block (live_out live) i v).
  { intros v. rewrite elem_of_in_order. unfold at_block. rewrite HO. naive_solver. }
  exists (reqs1 ++ map (fun v => (v, last_point i b)) (in_order O) ++ reqs). split_and!.
  - intros S ext st. cbn [extend_phi_and_live_out_intervals]. rewrite (normal_predecessors_pure g Hok i Hi). cbn [rbind].
    rewrite !extend_list_app, <- Hr1. destruct (extend_merges _ _ _ _ _ _); cbn [rbind]; [|done..].
    rewrite (proj2 (index_Ok _ _ _) (last_lookup_block i b Hb)). cbn [rbind].
    rewrite (proj2 (index_Ok _ _ _) HO). cbn [rbind]. rewrite extend_list_app, <- extend_all_list.
    destruct (extend_all _ _ _ _); cbn [rbind]; [apply Hr|done..].
  - apply in_range_app; [done|]. apply in_range_app; [|done]. apply in_range_map. intros v Hv%HOs. by eapply out_range.
  - intros s p v pb Hs Hpi Hpb. rewrite !elem_of_app. destruct (decide (s = i)) as [-> |Hne].
    + destruct Hpi as (b' & phi & d & ins & j & Hb' & Hphi & Hd & Hm & Hp & Hv). simplify_eq. left. by eapply Hall1.
    + right. right. eapply Hmerge; [|done|done]. lia.
  - intros j b' v Hj Hb' Hneeded. rewrite !elem_of_app. destruct (decide (j = i)) as [-> |Hne].
    + simplify_eq. right. left. apply list_elem_of_fmap. exists v. split; [done|]. by apply HOs, Hout.
    + right. right. apply Hneed; [lia|done|done].
Qed.

(** All the uses of a function, as one list. *)
Lemma uses_realised : exists reqs,
  realises (fun S ext st => extend_uses ext ssa g live linear st) reqs /\ in_range_reqs reqs
  /\ forall v q, required v q -> (v, q) ∈ reqs.
Proof.
  destruct (heads_realised bs ltac:(done)) as (r1 & H1 & R1 & A1).
  destruct (points_realised (points linear) ltac:(done)) as (r2 & H2 & R2 & A2).
  destruct (outs_realised bs 0 eq_refl) as (r3 & H3 & R3 & A3 & A4).
  exists (r1 ++ r2 ++ r3). split_and!.
  - intros S ext st. unfold extend_uses. rewrite extend_list_app, <- H1.
    destruct (extend_simultaneous_block_heads _ _ _ _ _) as [s1|e| |]; cbn [rbind]; [|done..].
    rewrite extend_list_app, <- H2. destruct (extend_points _ _ _ _) as [s2|e| |]; cbn [rbind]; [|done..]. apply H3.
  - by repeat apply in_range_app.
  - intros v q Hq. rewrite !elem_of_app. destruct Hq as [i b Hb Hv|i b k ins Hb Hi Hv|s p b Hpi Hb|i b Hb Hn].
    + left. apply A1; [done|by eapply list_elem_of_lookup_2|done].
    + right. left. apply (A2 i b k ins v Hb Hi Hv). eapply list_elem_of_lookup_2, (li_points _ _ _ _ _ Hlin).
      exists i, b, (length (phis b) + k), (PointInstruction k, result ins).
      split_and!; [by eapply lookup_lt_Some|done|by apply items_instr|done|done].
    + right. right. apply (A3 s p v b); [lia|done|done].
    + right. right. apply A4; [lia|done|done].
Qed.
(** ** Building and checking *)

Lemma start_intervals_Ok l : forall v, Forall is_Some l ->
  exists ivs, start_intervals v l = Ok ivs /\ length ivs = length l
  /\ forall j q, l !! j = Some (Some q) -> ivs !! j = Some (mkInterval (v + j) q q).
Proof.
  induction l as [|o l IH]; intros v Hall; cbn [start_intervals]; [by exists []|].
  apply Forall_cons in Hall as [[q ->] Hall]. destruct (IH (S v) Hall) as (ivs & -> & Hlen & Hat). cbn [rbind definition_of].
  eexists. split_and!; [done|simpl; by rewrite Hlen|]. intros [|j] q' Hq; simpl in Hq |- *.
  - injection Hq as ->. by rewrite Nat.add_0_r.
  - rewrite (Hat j q' Hq). do 2 f_equal. lia.
Qed.

(** Extending intervals, and the ends the check computes, in lock step. *)
Lemma extend_list_Ok reqs : forall ivs, length ivs = n -> in_range_reqs reqs ->
  exists ivs', extend_list (extend_interval n) reqs ivs = Ok ivs' /\ length ivs' = n
  /\ extend_list (raise_end n) reqs (map iv_end ivs) = Ok (map iv_end ivs')
  /\ forall v iv, ivs !! v = Some iv -> exists iv', ivs' !! v = Some iv' /\ iv_value iv' = iv_value iv
     /\ iv_start iv' = iv_start iv /\ iv_end iv <= iv_end iv' /\ forall q, (v, q) ∈ reqs -> q <= iv_end iv'.
Proof.
  induction reqs as [|[v q] reqs IH]; intros ivs Hlen Hin.
  { exists ivs. split_and!; [done|done|done|]. intros v iv Hv. exists iv. split_and!; [done..|by intros q ?%elem_of_nil]. }
  assert (Hv : v < n) by (eapply (Hin v q); by left). destruct (lookup_lt_is_Some_2 ivs v) as [iv Hiv]; [lia|].
  set (ivs1 := <[v := mkInterval (iv_value iv) (iv_start iv) (iv_end iv `max` q)]> ivs).
  destruct (IH ivs1) as (ivs' & He & Hl & Hr & Hall); [unfold ivs1; by rewrite length_insert|intros u p Hu; eapply (Hin u p); by right|].
  exists ivs'. split_and!; [|done| |].
  - cbn [extend_list]. unfold extend_interval at 1, value_index. rewrite (proj2 (Nat.leb_gt _ _) Hv). cbn [rbind].
    by rewrite (proj2 (index_Ok ivs v iv) Hiv).
  - cbn [extend_list]. unfold raise_end at 1, value_index. rewrite (proj2 (Nat.leb_gt _ _) Hv). cbn [rbind].
    assert (Hm : map iv_end ivs !! v = Some (iv_end iv)) by (by rewrite map_lookup, Hiv).
    rewrite (proj2 (index_Ok _ _ _) Hm). cbn [rbind]. rewrite <- Hr. f_equal. unfold ivs1.
    change (map iv_end) with (fmap (M := list) iv_end). by rewrite list_fmap_insert.
  - intros u iu Hu. destruct (decide (u = v)) as [-> |Hne].
    + assert (iu = iv) as -> by congruence.
      assert (H1 : ivs1 !! v = Some (mkInterval (iv_value iv) (iv_start iv) (iv_end iv `max` q))).
      { unfold ivs1. apply list_lookup_insert_eq. lia. }
      destruct (Hall v _ H1) as (iv' & Hiv' & Hval & Hst & Hend & Hq). exists iv'. cbn [iv_value iv_start iv_end] in *.
      split_and!; [done|done|done|lia|]. intros q' [[= ->]|Hq']%elem_of_cons; [lia|auto].
    + assert (H1 : ivs1 !! u = Some iu) by (unfold ivs1; by rewrite list_lookup_insert_ne).
      destruct (Hall u _ H1) as (iv' & Hiv' & Hval & Hst & Hend & Hq). exists iv'.
      split_and!; [done..|]. intros q' [[= -> ->]|Hq']%elem_of_cons; [done|auto].
Qed.

(** What the intervals of a verified function are. *)
Record intervals_ok (ivs : list LiveInterval) : Prop := {
  io_len : length ivs = n;
  io_dense : dense ivs;
  io_order : Forall (fun iv => iv_start iv <= iv_end iv) ivs;
  io_start : forall v iv j m, ivs !! v = Some iv -> defined_at ssa v j m -> iv_start iv = base bs j + m;
  io_end : forall v iv q, ivs !! v = Some iv -> required v q -> q <= iv_end iv
}.

Lemma build_intervals_Ok : exists ivs, build_intervals ssa g live linear = Ok ivs
  /\ verify_intervals ivs ssa g live linear = Ok tt /\ intervals_ok ivs.
Proof.
  pose proof (li_dlen _ _ _ _ _ Hlin) as Hdl. set (defs := definition_positions linear) in *.
  assert (Hpos : forall v j m, defined_at ssa v j m -> defs !! v = Some (Some (base bs j + m))).
  { intros v j m Hd. apply (li_defs _ _ _ _ _ Hlin). exists j, m. split_and!; [|done|done].
    destruct Hd as (b & _ & Hb & _). by eapply lookup_lt_Some. }
  assert (Hsome : Forall is_Some defs).
  { apply Forall_lookup. intros v o Ho. assert (Hv : v < n) by (rewrite <- Hdl; by eapply lookup_lt_Some).
    apply (defined_somewhere ssa g t Hssa) in Hv as (j & m & Hd). rewrite (Hpos _ _ _ Hd) in Ho. injection Ho as <-. eauto. }
  destruct (start_intervals_Ok defs 0 Hsome) as (ivs0 & H0 & Hl0 & Hat0). rewrite Hdl in Hl0.
  destruct uses_realised as (reqs & Hreal & Hrange & Hreq).
  destruct (extend_list_Ok reqs ivs0 Hl0 Hrange) as (ivs & He & Hl & Hraise & Hall).
  assert (Hat : forall v iv, ivs !! v = Some iv -> exists q, defs !! v = Some (Some q) /\ iv_value iv = v /\ iv_start iv = q
    /\ q <= iv_end iv /\ forall q, (v, q) ∈ reqs -> q <= iv_end iv).
  { intros v iv Hv. destruct (lookup_lt_is_Some_2 defs v) as [o Ho]; [rewrite Hdl, <- Hl; by eapply lookup_lt_Some|].
    rewrite Forall_lookup in Hsome. destruct (Hsome v o Ho) as [q ->].
    destruct (Hall v _ (Hat0 v q Ho)) as (iv' & Hiv' & ? & ? & ? & ?). simplify_eq. exists q. simpl in *. done. }
  exists ivs. split_and!.
  - unfold build_intervals. fold defs. rewrite H0. cbn [rbind]. rewrite <- He. apply Hreal.
  - assert (Hstart : map iv_start ivs = map iv_end ivs0).
    { apply list_eq. intros v. rewrite !map_lookup. destruct (ivs !! v) as [iv|] eqn:Hv.
      - destruct (Hat v iv Hv) as (q & Hq & _ & Hs & _). rewrite (Hat0 v q Hq). simpl. by rewrite Hs.
      - apply lookup_ge_None in Hv. rewrite (proj2 (lookup_ge_None ivs0 v)); [done|lia]. }
    unfold verify_intervals. rewrite (proj2 (for_each_i_Ok (check_start linear) 0 ivs)).
    + cbn [rbind]. rewrite Hstart, Hreal, Hraise. cbn [rbind]. apply for_each_i_Ok. intros v e Hv. simpl.
      rewrite map_lookup in Hv. apply fmap_Some in Hv as (iv & Hiv & ->). unfold check_end.
      rewrite (proj2 (index_Ok _ _ _) Hiv). cbn [rbind]. by rewrite Nat.eqb_refl.
    + intros v iv Hv. simpl. destruct (Hat v iv Hv) as (q & Hq & Hval & Hs & _). unfold check_start.
      rewrite Hval, Nat.eqb_refl. cbn [negb]. fold defs. rewrite (proj2 (index_Ok _ _ _) Hq). cbn [rbind definition_of].
      by rewrite Hs, Nat.eqb_refl.
  - constructor; [done|..].
    + intros v iv Hv. by destruct (Hat v iv Hv) as (q & _ & ? & _).
    + apply Forall_lookup. intros v iv Hv. destruct (Hat v iv Hv) as (q & _ & _ & -> & ? & _). done.
    + intros v iv j m Hv Hd. destruct (Hat v iv Hv) as (q & Hq & _ & -> & _). rewrite (Hpos v j m Hd) in Hq. by injection Hq.
    + intros v iv q Hv Hq. destruct (Hat v iv Hv) as (_ & _ & _ & _ & _ & Hr). by apply Hr, Hreq.
Qed.
End Intervals.
