(* ===== verification/EdgeProps.v ===== *)
(** The phi moves of an allocation ([build_edge_moves], [verify_edge_moves] of
    regalloc.rs): when the merges of each block have locations of their own,
    the moves of every normal edge exist, deliver every live merge and pass the
    check. *)

From stdpp Require Import gmap sorting.
From S2P Require Import Prelude Opcode Cfg CfgProps Dom RpoProps DomProps Dominance DomChecks Ssa SsaProps Liveness LivenessProps LivenessChecks Repr Regalloc Moves Allocate MoveProps ScanProps.
#[local] Set Warnings "-clear-no-such-hyp".

Lemma any_of_Ok {E A} (f : A -> res E bool) l : (forall x, x ∈ l -> exists r, f x = Ok r) -> exists r, any_of f l = Ok r.
Proof.
  induction l as [|x l IH]; intros Hl; cbn [any_of]; [eauto|]. destruct (Hl x) as [r ->]; [by left|]. cbn [rbind].
  destruct r; [eauto|]. apply IH. intros y Hy. apply Hl. by right.
Qed.

(** ** The symbolic run of the check *)

Lemma run_moves_ext {V} (convert : ConversionKind -> V -> V) ms : forall s s', (forall l, s l = s' l) ->
  forall l, run_moves convert ms s l = run_moves convert ms s' l.
Proof.
  induction ms as [|m ms IH]; intros s s' H l; [apply H|]. apply IH. intros l'. unfold exec_move. case_decide; by rewrite ?H.
Qed.

#[local] Abbreviation keep := (fun (_ : ConversionKind) (v : option Location) => v).

Lemma simulate_moves_Ok budget e P ms : sequenced budget P ms -> forall c,
  (forall m, m ∈ P -> is_Some (c !! src m)) ->
  exists c', simulate_moves e ms c = Ok c' /\ forall l, c' !! l = run_moves keep ms (fun l => c !! l) l.
Proof.
  assert (Hstep : forall (c : gmap Location Location) m v, c !! src m = Some v -> forall l,
    exec_move keep (fun l => c !! l) m l = <[dst m := v]> c !! l).
  { intros c m v Hv l. unfold exec_move. case_decide as He; [subst l|].
    - rewrite lookup_insert_eq, <- Hv. by destruct (conversion m).
    - by rewrite lookup_insert_ne. }
  assert (Hkeep : forall (c : gmap Location Location) l l' v, is_Some (c !! l) -> is_Some (<[l' := v]> c !! l)).
  { intros c l l' v Hc. destruct (decide (l = l')) as [-> |]; [rewrite lookup_insert_eq|rewrite lookup_insert_ne]; eauto. }
  induction 1 as [|before m after ms Hr _ IH|first P ms Hb _ IH]; intros c Hc; cbn [simulate_moves]; [by exists c|..].
  - destruct (Hc m) as [v Hv]; [apply elem_of_app; right; by left|]. rewrite Hv.
    destruct (IH (<[dst m := v]> c)) as (c' & -> & Hrun).
    { intros m' Hin. apply Hkeep, Hc. apply elem_of_app in Hin as [?|?]; apply elem_of_app; [by left|right; by right]. }
    exists c'. split; [done|]. intros l. rewrite Hrun. symmetry. apply (run_moves_ext keep ms). intros l'. by apply Hstep.
  - assert (Hf : dst first ∈ map src (first :: P)).
    { apply (proj1 (is_ready_false (first :: P) first)). by apply Forall_cons in Hb as [? _]. }
    apply list_elem_of_fmap in Hf as (m0 & He0 & Hin0). destruct (Hc m0 Hin0) as [v Hv]. rewrite <- He0 in Hv.
    cbn [src dst]. rewrite Hv. destruct (IH (<[scratch_of budget (dst first) := v]> c)) as (c' & -> & Hrun).
    { intros m' (m & -> & Hin)%list_elem_of_fmap.
      destruct (redirect_fields (dst first) (scratch_of budget (dst first)) m) as (_ & _ & ->).
      case_decide; [rewrite lookup_insert_eq; eauto|by apply Hkeep, Hc]. }
    exists c'. split; [done|]. intros l. rewrite Hrun. symmetry.
    apply (run_moves_ext keep ms). intros l'. by apply (Hstep c (mkMove (dst first) (scratch_of budget (dst first)) None)).
Qed.

Lemma initial_contents_at a l : l ∈ locations a -> initial_contents a !! l = Some l.
Proof.
  unfold initial_contents. enough (H : forall ls (c : gmap Location Location), (l ∈ ls \/ c !! l = Some l) ->
    foldl (fun c l => <[l := l]> c) c ls !! l = Some l) by (intros; apply H; by left).
  induction ls as [|x ls IH]; intros c Hl; simpl; [by destruct Hl as [?%elem_of_nil|?]|].
  apply IH. destruct (decide (l = x)) as [-> |Hne]; [right; by rewrite lookup_insert_eq|].
  destruct Hl as [[?|?]%elem_of_cons|?]; [done|by left|right; by rewrite lookup_insert_ne].
Qed.

Section Edges.
Context (ssa : SsaFunction) (g : ControlFlowGraph) (t : DominatorTree).
Context (Hok : verify g = Ok tt) (Hssa : ssa_wf ssa g t) (Hinline : inline_inputs_dominated ssa g).
Context (reprs : list Representation) (locs : list Location) (budget : RegisterBudget).
#[local] Abbreviation n := (length (values ssa)).
#[local] Abbreviation bs := (ssa_blocks ssa).
Context (Hreprs : length reprs = n) (Hlocs : length locs = n).
Context (Hclass : forall v l r, locs !! v = Some l -> reprs !! v = Some r -> class_of l = from_representation r).
Context (Hscratch : forall v l, locs !! v = Some l -> ~ is_scratch budget l).
Context (Hapart : forall i b u w, bs !! i = Some b -> u ∈ phis b -> w ∈ phis b -> u <> w -> locs !! u <> locs !! w).

(** The merge [phi] reads [input] from predecessor number [k] of its block. *)
Definition reads (phi input : ValueId) (k : nat) : Prop :=
  exists d ins, values ssa !! phi = Some d /\ merge_inputs (value_def d) = Some ins /\ ins !! k = Some input.

(** A conversion that widens without loss, or none between equal representations. *)
Definition widening (from to : Representation) (c : option ConversionKind) : Prop :=
  match c with None => from = to | Some c => from <> to /\ lossless_phi_conversion from to = Some c end.

(** The move a live merge needs. *)
Definition needs (k : nat) (phi : ValueId) (m : Move) : Prop :=
  exists input ri rp, reads phi input k /\ reprs !! input = Some ri /\ reprs !! phi = Some rp
  /\ locs !! input = Some (src m) /\ locs !! phi = Some (dst m) /\ widening ri rp (conversion m).

(** The only way the moves of an edge can fail. *)
Definition unsupported (e : RegallocError) : Prop :=
  exists phi input from to k, e = RegallocError.PhiConversionUnsupported phi input from to /\ reads phi input k
  /\ reprs !! input = Some from /\ reprs !! phi = Some to /\ from <> to /\ lossless_phi_conversion from to = None.

Lemma head_lt i b v : bs !! i = Some b -> v ∈ phis b -> v < n.
Proof.
  intros Hb Hv. destruct (sw_defined _ _ _ Hssa i b v Head Hb) as (d & Hd & _); [by constructor|]. by eapply lookup_lt_Some.
Qed.

Lemma merges_Ok {E} value phi : phi < n -> exists r, merges (E := E) ssa value phi = Ok r.
Proof.
  intros Hlt. destruct (lookup_lt_is_Some_2 _ _ Hlt) as [d Hd]. unfold merges. rewrite (proj2 (index_Ok _ _ _) Hd).
  cbn [rbind]. eauto.
Qed.

Lemma is_dead_phi_Ok {E} value : exists r, is_dead_phi (E := E) ssa value = Ok r.
Proof.
  unfold is_dead_phi. destruct (values ssa !! value) as [d|]; [|eauto]. destruct (merge_inputs (value_def d)); [|eauto].
  destruct (any_of_Ok (used_in (E := E) ssa value) (ssa_blocks ssa)) as [r ->]; [|cbn [rbind]; eauto].
  intros b [i Hb]%list_elem_of_lookup. unfold used_in. destruct (instr_uses value b); [eauto|].
  apply any_of_Ok. intros phi Hphi. apply merges_Ok. by eapply head_lt.
Qed.

Lemma check_location_Ok v r l : class_of l = from_representation r -> check_location v r l = Ok tt.
Proof. intros H. unfold check_location. by rewrite bool_decide_true. Qed.

Lemma requirement_Ok i b k phi p : bs !! i = Some b -> phi ∈ phis b -> normal_preds g i !! k = Some p ->
  match requirement ssa reprs locs (normal_preds g i) k phi with
  | Ok (Some m) => needs k phi m
  | Ok None => forall d, values ssa !! phi = Some d -> merge_inputs (value_def d) = None
  | Err e => unsupported e
  | _ => False
  end.
Proof.
  intros Hb Hphi Hp. pose proof (head_lt i b phi Hb Hphi) as Hlt.
  assert (Hi : i < length (blocks g)) by (rewrite <- (sw_len _ _ _ Hssa); by eapply lookup_lt_Some).
  destruct (lookup_lt_is_Some_2 _ _ Hlt) as [d Hd]. unfold requirement, value_index, representation.
  rewrite (proj2 (Nat.leb_gt _ _) Hlt). cbn [rbind]. rewrite (proj2 (index_Ok _ _ _) Hd). cbn [rbind].
  destruct (merge_inputs (value_def d)) as [ins|] eqn:Hm; [|intros d' Hd'; congruence].
  destruct (sw_inputs _ _ _ Hssa i b phi d ins Hb Hphi Hd Hm) as (npreds & Hn & Hlen).
  rewrite (normal_predecessors_pure g Hok i Hi) in Hn. injection Hn as <-. rewrite Hlen, Nat.eqb_refl. cbn [negb].
  destruct (lookup_lt_is_Some_2 ins k) as [input Hin]; [rewrite Hlen; by eapply lookup_lt_Some|].
  rewrite (proj2 (index_Ok _ _ _) Hin). cbn [rbind].
  assert (Hpi : phi_input ssa g p i input) by (exists b, phi, d, ins, k; done).
  destruct (phi_input_dominated ssa g t Hok Hssa Hinline p i input Hi Hpi) as (du & Hdu & _).
  assert (Hilt : input < n) by (by eapply lookup_lt_Some). rewrite (proj2 (Nat.leb_gt _ _) Hilt). cbn [rbind].
  destruct (lookup_lt_is_Some_2 reprs phi) as [rp Hrp]; [lia|]. destruct (lookup_lt_is_Some_2 reprs input) as [ri Hri]; [lia|].
  destruct (lookup_lt_is_Some_2 locs phi) as [lp Hlp]; [lia|]. destruct (lookup_lt_is_Some_2 locs input) as [li Hli]; [lia|].
  rewrite (proj2 (index_Ok _ _ _) Hrp). cbn [rbind]. rewrite (proj2 (index_Ok _ _ _) Hri). cbn [rbind].
  assert (Hrd : reads phi input k) by (exists d, ins; done).
  assert (Hfin : forall c, widening ri rp c -> match (let* il := index locs input in let* pl := index locs phi in
      let* _ := check_location input ri il in let* _ := check_location phi rp pl in Ok (Some (mkMove il pl c))) with
    | Ok (Some m) => needs k phi m
    | Ok None => forall d, values ssa !! phi = Some d -> merge_inputs (value_def d) = None
    | Err e => unsupported e
    | _ => False end).
  { intros c Hc. rewrite (proj2 (index_Ok _ _ _) Hli). cbn [rbind]. rewrite (proj2 (index_Ok _ _ _) Hlp). cbn [rbind].
    rewrite check_location_Ok by (by eapply Hclass). cbn [rbind]. rewrite check_location_Ok by (by eapply Hclass). cbn [rbind].
    exists input, ri, rp. done. }
  unfold phi_conversion. case_bool_decide as Heq; cbn [rbind]; [by apply (Hfin None)|].
  destruct (lossless_phi_conversion ri rp) as [c|] eqn:Hc; cbn [rbind]; [by apply (Hfin (Some c))|].
  exists phi, input, ri, rp, k. done.
Qed.

Lemma requirements_Ok i b k p l : bs !! i = Some b -> (forall phi, phi ∈ l -> phi ∈ phis b) -> NoDup l ->
  normal_preds g i !! k = Some p ->
  match requirements ssa reprs locs (normal_preds g i) k l with
  | Ok rs => NoDup (map fst rs) /\ (forall phi m, (phi, m) ∈ rs -> phi ∈ l /\ needs k phi m)
      /\ (forall phi input, phi ∈ l -> is_dead_phi (E := RegallocError) ssa phi = Ok false -> reads phi input k ->
          exists m, (phi, m) ∈ rs)
  | Err e => unsupported e
  | _ => False
  end.
Proof.
  intros Hb Hl Hnd Hp. induction l as [|phi l IH]; cbn [requirements].
  { split_and!; [constructor|by intros ? ? ?%elem_of_nil|by intros ? ? ?%elem_of_nil]. }
  apply NoDup_cons in Hnd as [Hnin Hnd]. specialize (IH ltac:(intros u Hu; apply Hl; by right) Hnd).
  destruct (is_dead_phi_Ok (E := RegallocError) phi) as [dead Hdead]. rewrite Hdead. cbn [rbind]. destruct dead.
  - destruct (requirements _ _ _ _ _ l) as [rs|e| |]; [|done|done|done]. destruct IH as (H1 & H2 & H3). split_and!; [done|..].
    + intros u m Hum. destruct (H2 u m Hum). split; [by right|done].
    + intros u input [-> |Hu]%elem_of_cons Hd Hr; [congruence|by eapply H3].
  - pose proof (requirement_Ok i b k phi p Hb (Hl phi ltac:(by left)) Hp) as Hr.
    destruct (requirement _ _ _ _ _ phi) as [o|e| |]; cbn [rbind]; [|done|done|done].
    destruct (requirements _ _ _ _ _ l) as [rs|e| |]; cbn [rbind]; [|done|done|done]. destruct IH as (H1 & H2 & H3).
    destruct o as [m|].
    + split_and!.
      * simpl. constructor; [|done]. intros ([u m'] & He & Hin)%list_elem_of_fmap. simpl in He. subst u.
        by destruct (H2 phi m' Hin).
      * intros u m' [[= -> ->]|Hum]%elem_of_cons; [split; [by left|done]|]. destruct (H2 u m' Hum). split; [by right|done].
      * intros u input [-> |Hu]%elem_of_cons Hd Hrd; [exists m; by left|].
        destruct (H3 u input Hu Hd Hrd) as [m' ?]. exists m'. by right.
    + split_and!; [done|..].
      * intros u m' Hum. destruct (H2 u m' Hum). split; [by right|done].
      * intros u input [-> |Hu]%elem_of_cons Hd Hrd; [|by eapply H3].
        destruct Hrd as (d & ins & Hv & Hm & _). specialize (Hr d Hv). congruence.
Qed.

(** The moves needed on a normal edge. *)
Lemma phi_move_requirements_Ok p i : sel_edge g Normal p i ->
  exists k b, normal_preds g i !! k = Some p /\ bs !! i = Some b /\ position (normal_preds g i) p = Some k /\
  match phi_move_requirements ssa g reprs locs p i with
  | Ok rs => NoDup (map fst rs) /\ (forall phi m, (phi, m) ∈ rs -> phi ∈ phis b /\ needs k phi m)
      /\ (forall phi input, phi ∈ phis b -> is_dead_phi (E := RegallocError) ssa phi = Ok false -> reads phi input k ->
          exists m, (phi, m) ∈ rs)
  | Err e => unsupported e
  | _ => False
  end.
Proof.
  intros He. pose proof (verify_wf g Hok) as Hwf0. assert (Hi : i < length (blocks g)).
  { destruct He as (cb & Hcb & Hs). apply (wf_range g Hwf0 p cb); [done|]. apply elem_of_app. by left. }
  pose proof (proj2 (elem_of_normal_preds g Hok i p Hi) He) as [k Hk]%list_elem_of_lookup.
  destruct (lookup_lt_is_Some_2 bs i) as [b Hb]; [by rewrite (sw_len _ _ _ Hssa)|].
  pose proof (proj2 (position_Some (normal_preds g i) p k (NoDup_normal_preds g Hok i)) Hk) as Hpos.
  exists k, b. split_and!; [done|done|done|]. unfold phi_move_requirements.
  rewrite (normal_predecessors_pure g Hok i Hi). cbn [rbind]. rewrite Hpos.
  rewrite (proj2 (index_Ok _ _ _) Hb). cbn [rbind].
  apply (requirements_Ok i b k p); [done|done|by apply (sw_heads _ _ _ Hssa i b)|done].
Qed.
Lemma needs_shape k phi m p i : needs k phi m -> validate_move_shape p i m = Ok tt.
Proof.
  intros (input & ri & rp & _ & Hri & Hrp & Hsrc & Hdst & Hw). unfold validate_move_shape.
  rewrite (Hclass _ _ _ Hsrc Hri), (Hclass _ _ _ Hdst Hrp). destruct (conversion m) as [c|]; simpl in Hw.
  - destruct Hw as [_ Hw]. destruct ri, rp; simpl in Hw; try discriminate; injection Hw as <-; done.
  - subst rp. by rewrite bool_decide_true.
Qed.

(** What the moves of an edge are: a sequence that realises the needed copies. *)
Record edge_good (p i : BlockId) (rs : list (ValueId * Move)) (ms P : list Move) : Prop := {
  eg_reqs : phi_move_requirements ssa g reprs locs p i = Ok rs;
  eg_moves : sequentialize_parallel_moves budget p i (List.filter is_move (map snd rs)) = Ok ms;
  eg_targets : targets_ok budget P;
  eg_pending : forall m, m ∈ P <-> exists phi, (phi, m) ∈ rs /\ is_move m = true;
  eg_sequence : sequenced budget P ms;
  eg_shapes : Forall (fun m => validate_move_shape p i m = Ok tt) ms;
  eg_needs : exists k, normal_preds g i !! k = Some p /\ forall phi m, (phi, m) ∈ rs -> needs k phi m;
  eg_heads : forall b phi m, bs !! i = Some b -> (phi, m) ∈ rs -> phi ∈ phis b;
  eg_inj : forall phi phi' m m', (phi, m) ∈ rs -> (phi', m') ∈ rs -> dst m = dst m' -> m = m';
  eg_live : forall k b phi input, normal_preds g i !! k = Some p -> bs !! i = Some b -> phi ∈ phis b ->
    is_dead_phi (E := RegallocError) ssa phi = Ok false -> reads phi input k -> exists m, (phi, m) ∈ rs
}.

Lemma build_edge_Ok p i : sel_edge g Normal p i ->
  match build_edge ssa g reprs locs budget (p, i) with
  | Ok e => predecessor e = p /\ em_block e = i /\ exists rs P, edge_good p i rs (moves e) P
  | Err e => unsupported e
  | _ => False
  end.
Proof.
  intros He. destruct (phi_move_requirements_Ok p i He) as (k & b & Hk & Hb & _ & Hreq). unfold build_edge, parallel_phi_moves.
  cbn [fst snd]. destruct (phi_move_requirements ssa g reprs locs p i) as [rs|e| |] eqn:Hrs; cbn [rbind]; [|done|done|done].
  destruct Hreq as (Hnd & Hneeds & Hlive). set (parallel := List.filter is_move (map snd rs)).
  assert (Hpar : forall m, m ∈ parallel <-> exists phi, (phi, m) ∈ rs /\ is_move m = true).
  { intros m. unfold parallel. rewrite list_elem_of_In, List.filter_In, <- list_elem_of_In, list_elem_of_fmap. split.
    - intros [([phi m'] & -> & Hin) Hm]. eauto.
    - intros (phi & Hin & Hm). split; [|done]. by exists (phi, m). }
  assert (Hinj : forall phi phi' m m', (phi, m) ∈ rs -> (phi', m') ∈ rs -> dst m = dst m' -> m = m').
  { intros phi phi' m m' H1 H2 Hd. destruct (Hneeds _ _ H1) as (Hp1 & ? & ? & ? & _ & _ & _ & _ & Hl1 & _).
    destruct (Hneeds _ _ H2) as (Hp2 & ? & ? & ? & _ & _ & _ & _ & Hl2 & _).
    destruct (decide (phi = phi')) as [<- |Hne]; [|exfalso; apply (Hapart i b phi phi'); [done..|congruence]].
    apply list_elem_of_lookup in H1 as [j1 H1]. apply list_elem_of_lookup in H2 as [j2 H2].
    assert (j1 = j2) as ->; [|congruence].
    apply (NoDup_lookup _ j1 j2 phi Hnd); rewrite map_lookup; [rewrite H1|rewrite H2]; done. }
  assert (Hsc : forall m, m ∈ parallel -> ~ is_scratch budget (dst m)).
  { intros m (phi & Hin & _)%Hpar. destruct (Hneeds _ _ Hin) as (_ & ? & ? & ? & _ & _ & _ & _ & Hl & _). by eapply Hscratch. }
  assert (Hshape : Forall (fun m => validate_move_shape p i m = Ok tt) parallel).
  { apply Forall_forall. intros m (phi & Hin & _)%Hpar. eapply needs_shape. by apply (Hneeds phi). }
  pose proof (sequentialize_spec budget p i parallel Hsc) as Hseq.
  destruct (sequentialize_parallel_moves budget p i parallel) as [ms|e| |] eqn:Hms; cbn [rbind]; [| |done|done].
  - destruct Hseq as (_ & _ & P & Htg & HP & Hsq). cbn [predecessor em_block moves]. split_and!; [done|done|].
    exists rs, P. constructor; try done.
    + intros m. rewrite HP, Hpar. naive_solver.
    + apply (sequenced_shapes budget p i P); [done|]. apply Forall_forall. intros m [Hin _]%HP.
      rewrite Forall_forall in Hshape. auto.
    + exists k. split; [done|]. intros phi m Hin. by apply Hneeds.
    + intros b' phi m Hb' Hin. assert (b' = b) as -> by congruence. by apply (Hneeds phi m).
    + intros k' b' phi input Hk' Hb' Hphi Hd Hr. assert (k' = k) as ->.
      { apply (NoDup_lookup _ k' k p (NoDup_normal_preds g Hok i)); done. }
      assert (b' = b) as -> by congruence. by eapply Hlive.
  - exfalso. destruct Hseq as [?|Hcon]; [done|]. apply Hcon. intros m m' (phi & H1 & _)%Hpar (phi' & H2 & _)%Hpar _ _ Hd.
    by eapply Hinj.
Qed.

(** Outside the scratch registers, the moves of an edge put the converted input in
    the location of each needed merge and keep the other locations. *)
Lemma edge_run {V} (convert : ConversionKind -> V -> V) p i rs ms P s : edge_good p i rs ms P ->
  (forall phi m, (phi, m) ∈ rs -> run_moves convert ms s (dst m) = converted convert (conversion m) (s (src m)))
  /\ forall l, ~ is_scratch budget l -> (forall phi m, (phi, m) ∈ rs -> dst m <> l) -> run_moves convert ms s l = s l.
Proof.
  intros H. assert (Hrun : forall l, ~ is_scratch budget l -> run_moves convert ms s l = parallel_copy convert P s l).
  { apply (sequenced_correct budget convert P ms (eg_sequence _ _ _ _ _ H) (eg_targets _ _ _ _ _ H)). }
  assert (HP : forall phi m l, (phi, m) ∈ rs -> is_move m = false -> dst m = l -> l ∉ map dst P).
  { intros phi m l Hin Hm <- (m' & Hd & Hin')%list_elem_of_fmap.
    apply (eg_pending _ _ _ _ _ H) in Hin' as (phi' & Hin' & Hm').
    rewrite (eg_inj _ _ _ _ _ H phi phi' m m' Hin Hin' Hd) in Hm. congruence. }
  destruct (eg_needs _ _ _ _ _ H) as (k & _ & Hneeds). split.
  - intros phi m Hin. rewrite Hrun.
    2:{ destruct (Hneeds _ _ Hin) as (? & ? & ? & _ & _ & _ & _ & Hl & _). by eapply Hscratch. }
    destruct (is_move m) eqn:Hm.
    + apply parallel_copy_in; [apply (eg_targets _ _ _ _ _ H)|]. apply (eg_pending _ _ _ _ _ H). eauto.
    + rewrite parallel_copy_notin by (by eapply HP). unfold is_move in Hm. apply orb_false_iff in Hm as [Hs Hc].
      apply negb_false_iff, bool_decide_eq_true in Hs. apply bool_decide_eq_false in Hc.
      destruct (conversion m); [exfalso; eauto|]. simpl. by rewrite Hs.
  - intros l Hl Hno. rewrite Hrun by done. apply parallel_copy_notin.
    intros (m & -> & (phi & Hin & _)%(eg_pending _ _ _ _ _ H))%list_elem_of_fmap. by apply (Hno phi m).
Qed.

(** ** The check accepts the moves *)

Context (a : Allocation) (Hal : locations a = locs) (Hab : register_budget a = budget).
Context (Hspill : forall v c k, locs !! v = Some (Spill c k) -> k < spill_count (spill_slot_counts a) c).

Lemma valid_value_location v l : locs !! v = Some l -> (forall c r, l = Register c r -> r < budget_count budget c) ->
  valid_move_location a l = true.
Proof.
  intros Hl Hb. unfold valid_move_location. destruct l as [c r|c k].
  - apply Nat.leb_le. rewrite Hab. specialize (Hb c r eq_refl). lia.
  - apply Nat.ltb_lt. by eapply Hspill.
Qed.

Context (Hbound : forall v c r, locs !! v = Some (Register c r) -> r < budget_count budget c).

Lemma verify_edge_Ok e rs P : edge_good (predecessor e) (em_block e) rs (moves e) P ->
  verify_edge a ssa g reprs e = Ok tt.
Proof.
  intros H. unfold verify_edge, parallel_phi_moves. rewrite Hal, (eg_reqs _ _ _ _ _ H). cbn [rbind].
  destruct (eg_needs _ _ _ _ _ H) as (k & _ & Hneeds).
  assert (Hat : forall phi m, (phi, m) ∈ rs -> src m ∈ locs /\ dst m ∈ locs /\ valid_move_location a (src m) = true
    /\ valid_move_location a (dst m) = true).
  { intros phi m Hin. destruct (Hneeds _ _ Hin) as (input & ri & rp & _ & _ & _ & Hs & Hd & _).
    split_and!; [by eapply list_elem_of_lookup_2|by eapply list_elem_of_lookup_2|..];
      (eapply valid_value_location; [done|]; intros c r He; rewrite He in *; by eapply Hbound). }
  rewrite (proj2 (for_each_Ok (check_move_locations a e) (moves e))).
  2:{ apply Forall_forall. intros m Hm. unfold check_move_locations. pose proof (eg_shapes _ _ _ _ _ H) as Hsh.
      rewrite Forall_forall in Hsh. rewrite (Hsh m Hm). cbn [rbind].
      destruct (sequenced_locations budget (fun l => valid_move_location a l = true) P (moves e) (eg_sequence _ _ _ _ _ H))
        with (m := m) as [Hs Hd]; [| |done|].
      - intros l [c ->]. unfold valid_move_location. rewrite Hab. by apply Nat.leb_le.
      - intros m' (phi & Hin & _)%(eg_pending _ _ _ _ _ H). by apply (Hat phi m').
      - cbn [for_each]. by rewrite Hs, Hd. }
  cbn [rbind]. destruct (simulate_moves_Ok budget e P (moves e) (eg_sequence _ _ _ _ _ H) (initial_contents a)) as (c & -> & Hrun).
  { intros m (phi & Hin & _)%(eg_pending _ _ _ _ _ H). exists (src m). apply initial_contents_at. rewrite Hal. by apply (Hat phi m). }
  cbn [rbind]. rewrite (proj2 (for_each_Ok (check_delivered e c) rs)).
  2:{ apply Forall_forall. intros [phi m] Hin. unfold check_delivered. cbn [fst snd].
      rewrite Hrun, (proj1 (edge_run keep _ _ _ _ _ _ H) phi m Hin).
      rewrite bool_decide_true; [done|]. destruct (Hat phi m Hin) as (Hs & _).
      rewrite (initial_contents_at a (src m)) by (by rewrite Hal). by destruct (conversion m). }
  cbn [rbind]. rewrite Hab, (eg_moves _ _ _ _ _ H). cbn [rbind]. by rewrite bool_decide_true.
Qed.
End Edges.
