(* ===== verification/AllocProps.v ===== *)
(** Register allocation as a whole ([Allocation::compute] and
    [Allocation::verify] of regalloc.rs): allocation of a verified function
    fails only for lack of numbers or for a phi that cannot be widened, and
    otherwise passes its own verifier; values live at once are kept apart; the
    moves of each edge deliver its merges. *)

From stdpp Require Import gmap sorting.
From S2P Require Import Prelude Slices Opcode Cfg CfgProps Dom RpoProps DomProps Dominance DomChecks Ssa SsaProps Liveness LivenessProps LivenessChecks Repr Regalloc Moves Allocate MoveProps ScanProps LinearProps IntervalProps EdgeProps.
#[local] Set Warnings "-clear-no-such-hyp".

Lemma collect_results_Ok {E A B} (f : A -> res E B) l :
  match collect_results f l with
  | Ok ys => Forall2 (fun x y => f x = Ok y) l ys
  | r => exists x, x ∈ l /\ match f x, r with Err e, Err e' => e = e' | Panic, Panic => True | OutOfFuel, OutOfFuel => True | _, _ => False end
  end.
Proof.
  induction l as [|x l IH]; cbn [collect_results]; [constructor|].
  destruct (f x) as [y|e| |] eqn:Hx; cbn [rbind]; [|exists x; rewrite Hx; split; [by left|done]..].
  destruct (collect_results f l) as [ys|e| |]; cbn [rbind]; [by constructor|..];
    destruct IH as (z & Hz & ?); exists z; (split; [by right|done]).
Qed.

Lemma elem_of_normal_edges g p i : cfg_wf g -> (p, i) ∈ normal_edges g <-> sel_edge g Normal p i.
Proof.
  intros Hwf. unfold normal_edges. rewrite sort_by_Permutation, list_elem_of_In, in_flat_map. split.
  - intros (b & Hb & Hin). apply list_elem_of_In, list_elem_of_lookup in Hb as [j Hj].
    apply in_map_iff in Hin as (x & [= <- <-] & Hx%list_elem_of_In). rewrite (wf_ids g Hwf j b Hj). by exists b.
  - intros (b & Hb & Hin). exists b. split; [by apply list_elem_of_In; eapply list_elem_of_lookup_2|].
    apply in_map_iff. exists i. rewrite (wf_ids g Hwf p b Hb). split; [done|by apply list_elem_of_In].
Qed.

Lemma overlap_true iu iw q : iv_start iu <= q -> q <= iv_end iu -> iv_start iw <= q -> q <= iv_end iw ->
  intervals_overlap iu iw = true.
Proof. intros. unfold intervals_overlap. apply andb_true_iff. split; apply Nat.leb_le; lia. Qed.

(** ** The checks on locations *)

Lemma not_scratch reprs budget ivs locs spills v l : scan_sound ivs reprs budget locs spills -> locs !! v = Some l ->
  ~ is_scratch budget l.
Proof. intros Hs Hl [c ->]. pose proof (ss_bound _ _ _ _ _ Hs v c _ Hl). lia. Qed.

Section Locations.
Context (ssa : SsaFunction) (reprs : list Representation) (budget : RegisterBudget).
Context (ivs : list LiveInterval) (locs : list Location) (spills : SpillSlotCounts) (edges : list EdgeMoves).
Context (Hs : scan_sound ivs reprs budget locs spills) (Hreprs : length reprs = length ivs).
#[local] Abbreviation a := (mkAllocation locs ivs edges budget spills).

Lemma locations_apart u w iu iw : u <> w -> ivs !! u = Some iu -> ivs !! w = Some iw ->
  intervals_overlap iu iw = true -> locs !! u <> locs !! w.
Proof.
  intros Hne Hu Hw Ho He. destruct (lookup_lt_is_Some_2 locs u) as [l Hl].
  { rewrite (ss_len _ _ _ _ _ Hs). by eapply lookup_lt_Some. }
  rewrite Hl in He. symmetry in He. destruct l as [c r|c k].
  - rewrite (ss_disjoint _ _ _ _ _ Hs u w iu iw c r) in Ho; done.
  - by apply Hne, (ss_spill_inj _ _ _ _ _ Hs u w c k).
Qed.

Lemma verify_locations_Ok : verify_locations a reprs = Ok tt.
Proof.
  apply for_each_i_Ok. intros v l Hl. cbn [locations] in Hl. simpl. unfold check_value_location, representation.
  destruct (lookup_lt_is_Some_2 reprs v) as [r Hr].
  { rewrite Hreprs, <- (ss_len _ _ _ _ _ Hs). by eapply lookup_lt_Some. }
  rewrite (proj2 (index_Ok _ _ _) Hr). cbn [rbind]. rewrite bool_decide_true by (by eapply (ss_class _ _ _ _ _ Hs)).
  cbn [negb register_budget]. destruct l as [c x|c k]; [|done]. pose proof (ss_bound _ _ _ _ _ Hs v c x Hl) as Hb.
  destruct (Nat.eqb_spec x (budget_count budget c)); [lia|]. destruct (Nat.ltb_spec (budget_count budget c) x); [lia|done].
Qed.

Lemma verify_interference_Ok : verify_interference a = Ok tt.
Proof.
  apply for_each_Ok, Forall_forall. intros i [_ Hi]%elem_of_seq. apply for_each_Ok, Forall_forall.
  intros j [Hij Hj]%elem_of_seq. cbn [intervals] in *. unfold check_pair. cbn [intervals locations].
  destruct (lookup_lt_is_Some_2 ivs i) as [iv Hiv]; [lia|]. destruct (lookup_lt_is_Some_2 ivs j) as [jv Hjv]; [lia|].
  rewrite (proj2 (index_Ok _ _ _) Hiv). cbn [rbind]. rewrite (proj2 (index_Ok _ _ _) Hjv). cbn [rbind].
  destruct (intervals_overlap iv jv) eqn:Ho; [|done].
  destruct (lookup_lt_is_Some_2 locs i) as [l Hl]; [rewrite (ss_len _ _ _ _ _ Hs); lia|].
  destruct (lookup_lt_is_Some_2 locs j) as [l' Hl']; [rewrite (ss_len _ _ _ _ _ Hs); lia|].
  rewrite (proj2 (index_Ok _ _ _) Hl). cbn [rbind]. rewrite (proj2 (index_Ok _ _ _) Hl'). cbn [rbind].
  destruct l as [c r|c k], l' as [c' r'|c' k']; try done. case_bool_decide as Hc; [|done]. subst c'.
  destruct (Nat.eqb_spec r r') as [<- |]; [|done]. exfalso.
  apply (locations_apart i j iv jv); [lia|done|done|done|congruence].
Qed.

Lemma spill_owners_Ok class l : forall v owners, l = drop v locs ->
  (forall slot u, owners !! slot = Some u <-> u < v /\ locs !! u = Some (Spill class slot)) ->
  exists owners', spill_owners class (spill_count spills class) v l owners = Ok owners'
  /\ forall slot u, owners' !! slot = Some u <-> locs !! u = Some (Spill class slot).
Proof.
  induction l as [|x l IH]; intros v owners Hl Ho; cbn [spill_owners].
  { exists owners. split; [done|]. intros slot u. rewrite Ho. split; [tauto|]. intros Hu. split; [|done].
    apply lookup_lt_Some in Hu. apply (f_equal length) in Hl. rewrite length_drop in Hl. simpl in Hl. lia. }
  assert (Hx : locs !! v = Some x). { pose proof (lookup_drop locs v 0) as H. by rewrite <- Hl, Nat.add_0_r in H. }
  assert (Hl' : l = drop (S v) locs) by (by rewrite <- Nat.add_1_r, <- drop_drop, <- Hl).
  assert (Hskip : (forall slot, x <> Spill class slot) ->
    forall slot u, owners !! slot = Some u <-> u < S v /\ locs !! u = Some (Spill class slot)).
  { intros Hne slot u. rewrite Ho. split; intros [Hu ?]; (split; [|done]); [lia|].
    destruct (decide (u = v)) as [-> |]; [|lia]. exfalso. apply (Hne slot). congruence. }
  destruct x as [c r|c slot]; [by apply IH; [|apply Hskip]|].
  case_bool_decide as Hc; cbn [negb]; [|apply IH; [done|]; apply Hskip; congruence]. subst c.
  assert (Hlt : slot < spill_count spills class) by (apply (ss_spills _ _ _ _ _ Hs); eauto).
  rewrite (proj2 (Nat.leb_gt _ _) Hlt). destruct (owners !! slot) as [u|] eqn:Hslot.
  { apply Ho in Hslot as [Hu Hsl]. pose proof (ss_spill_inj _ _ _ _ _ Hs u v class slot Hsl Hx). lia. }
  apply IH; [done|]. intros slot' u. rewrite lookup_insert_Some, Ho. split.
  - intros [[<- <-]|[Hne [Hu ?]]]; (split; [lia|done]).
  - intros [Hu Hsl]. destruct (decide (u = v)) as [-> |Hne]; [left; split; congruence|]. right. split; [|split; [lia|done]].
    intros <-. by apply Hne, (ss_spill_inj _ _ _ _ _ Hs u v class slot).
Qed.

Lemma in_order_seq (X : gset nat) k : (forall x, x ∈ X <-> x < k) -> in_order X = seq 0 k.
Proof.
  intros HX. unfold in_order. apply (Sorted_unique (≤)).
  - apply Sorted_merge_sort. intros x y. lia.
  - apply StronglySorted_Sorted. clear. generalize 0. induction k as [|k IH]; intros m; simpl; constructor; [apply IH|].
    apply Forall_forall. intros x [? _]%elem_of_seq. lia.
  - rewrite merge_sort_Permutation. apply NoDup_Permutation; [apply NoDup_elements|apply NoDup_seq|].
    intros x. rewrite elem_of_elements, HX, elem_of_seq. lia.
Qed.

Lemma verify_spills_Ok : verify_spills a = Ok tt.
Proof.
  apply for_each_Ok, Forall_forall. intros class _. unfold verify_spill_class. cbn [spill_slot_counts locations].
  destruct (spill_owners_Ok class locs 0 ∅) as (owners & -> & Ho); [done| |].
  { intros slot u. rewrite lookup_empty. split; [done|]. intros [? _]. lia. }
  cbn [rbind]. set (count := spill_count spills class).
  assert (Hdom : forall x, x ∈ dom owners <-> x < count).
  { intros x. rewrite elem_of_dom. unfold count. rewrite (ss_spills _ _ _ _ _ Hs class x).
    split; intros [u Hu]; exists u; by apply Ho. }
  pose proof (in_order_seq (dom owners) count Hdom) as Hord.
  assert (Hsize : size owners = count).
  { rewrite <- size_dom. apply (f_equal length) in Hord. rewrite length_seq in Hord. unfold in_order in Hord.
    by rewrite merge_sort_Permutation in Hord. }
  rewrite Hsize. unfold count. rewrite (ss_fits _ _ _ _ _ Hs class), Nat.eqb_refl. cbn [negb orb].
  fold count. by rewrite bool_decide_true.
Qed.
End Locations.

(** ** The allocation of a verified function *)

Section Allocation.
Context {F : Type} (ssa : SsaFunction) (g : ControlFlowGraph) (t : DominatorTree) (live : Liveness).
Context (reprs : list Representation) (budget : RegisterBudget).
Context (Hok : verify g = Ok tt) (Hssa : ssa_wf ssa g t) (Hinline : inline_inputs_dominated ssa g).
Context (Hlive : liveness_compute (E := F) ssa g = Ok live) (Hreprs : length reprs = length (values ssa)).
#[local] Abbreviation n := (length (values ssa)).
#[local] Abbreviation bs := (ssa_blocks ssa).

(** Locations that live intervals allow, with the moves of every normal edge. *)
Record placed (a : Allocation) : Prop := {
  pl_intervals : intervals_ok ssa g (intervals a);
  pl_sound : scan_sound (intervals a) reprs budget (locations a) (spill_slot_counts a);
  pl_budget : register_budget a = budget;
  pl_edges : Forall2 (fun x e => predecessor e = x.1 /\ em_block e = x.2
    /\ exists rs P, edge_good ssa g reprs (locations a) budget x.1 x.2 rs (moves e) P) (normal_edges g) (edge_moves a)
}.

(** What holds of a finished allocation. *)
Record allocated (a : Allocation) : Prop := {
  al_linear : exists linear, linearize ssa g = Ok linear /\ verify_intervals (intervals a) ssa g live linear = Ok tt;
  al_scan : linear_scan (intervals a) reprs budget = Ok (locations a, spill_slot_counts a);
  al_placed : placed a
}.

(** Why allocation can fail: more than 2^32 points or values, or a merge whose
    input has no lossless widening to its representation. *)
Definition failure (e : RegallocError) : Prop :=
  (e = RegallocError.PositionOverflow /\ fits_u32 (base bs (length bs)) = false)
  \/ (e = RegallocError.SpillSlotOverflow /\ fits_u32 n = false)
  \/ unsupported ssa reprs e.

(** The merges of a block are simultaneous. *)
Lemma heads_apart ivs locs spills i b u w : intervals_ok ssa g ivs -> scan_sound ivs reprs budget locs spills ->
  bs !! i = Some b -> u ∈ phis b -> w ∈ phis b -> u <> w -> locs !! u <> locs !! w.
Proof.
  intros Hi Hs Hb Hu Hw Hne. assert (Hat : forall v, v ∈ phis b -> exists iv, ivs !! v = Some iv
    /\ iv_start iv <= base bs i + (length (phis b) - 1) /\ base bs i + (length (phis b) - 1) <= iv_end iv).
  { intros v Hv. pose proof (head_lt ssa g t Hssa i b v Hb Hv) as Hlt. rewrite <- (io_len _ _ _ Hi) in Hlt.
    destruct (lookup_lt_is_Some_2 _ _ Hlt) as [iv Hiv]. exists iv. split_and!; [done| |].
    - pose proof Hv as [m Hm]%list_elem_of_lookup. rewrite (io_start _ _ _ Hi v iv i m Hiv).
      + apply lookup_lt_Some in Hm. lia.
      + exists b, PointHead. split; [done|by apply items_head].
    - apply (io_end _ _ _ Hi v iv _ Hiv). by apply (required_head ssa g v i b). }
  destruct (Hat u Hu) as (iu & Hiu & ? & ?). destruct (Hat w Hw) as (iw & Hiw & ? & ?).
  apply (locations_apart reprs budget ivs locs spills Hs u w iu iw Hne Hiu Hiw). by eapply overlap_true.
Qed.

Lemma build_edge_moves_Ok ivs locs spills : intervals_ok ssa g ivs -> scan_sound ivs reprs budget locs spills ->
  match build_edge_moves ssa g reprs locs budget with
  | Ok edges => placed (mkAllocation locs ivs edges budget spills)
  | Err e => unsupported ssa reprs e
  | _ => False
  end.
Proof.
  intros Hi Hs. pose proof (verify_wf g Hok) as Hwf. pose proof (io_len _ _ _ Hi) as Hlen.
  assert (Hfail : forall x, x ∈ normal_edges g -> match build_edge ssa g reprs locs budget x with
    | Ok e => predecessor e = x.1 /\ em_block e = x.2 /\ exists rs P, edge_good ssa g reprs locs budget x.1 x.2 rs (moves e) P
    | Err e => unsupported ssa reprs e | _ => False end).
  { intros [p i] Hx%(elem_of_normal_edges g p i Hwf).
    apply (build_edge_Ok ssa g t Hok Hssa Hinline); [done|rewrite (ss_len _ _ _ _ _ Hs); done|..|done].
    - apply (ss_class _ _ _ _ _ Hs).
    - intros v l. by apply (not_scratch reprs budget ivs locs spills).
    - intros j b u w. by apply (heads_apart ivs locs spills). }
  unfold build_edge_moves. pose proof (collect_results_Ok (build_edge ssa g reprs locs budget) (normal_edges g)) as Hc.
  destruct (collect_results _ _) as [edges|e| |].
  - constructor; try done. cbn [locations edge_moves].
    apply Forall2_same_length_lookup. pose proof (Forall2_length _ _ _ Hc) as Hlen'. split; [done|].
    intros j x e Hx He. rewrite Forall2_lookup in Hc. specialize (Hc j). rewrite Hx, He in Hc.
    assert (Hf : build_edge ssa g reprs locs budget x = Ok e) by (by inversion Hc).
    specialize (Hfail x ltac:(by eapply list_elem_of_lookup_2)). by rewrite Hf in Hfail.
  - destruct Hc as (x & Hx & Hf). specialize (Hfail x Hx). destruct (build_edge _ _ _ _ _ x); [done|by subst e|done|done].
  - destruct Hc as (x & Hx & Hf). specialize (Hfail x Hx). by destruct (build_edge _ _ _ _ _ x).
  - destruct Hc as (x & Hx & Hf). specialize (Hfail x Hx). by destruct (build_edge _ _ _ _ _ x).
Qed.

Lemma allocate_spec :
  match allocate ssa g live reprs budget with Ok a => allocated a | Err e => failure e | _ => False end.
Proof.
  pose proof (verify_wf g Hok) as Hwf. destruct (liveness_compute_spec (E := F) ssa g t Hok Hssa)
    as (live' & Hl' & Hinv & _ & Hout & _). rewrite Hlive in Hl'. injection Hl' as <-.
  unfold allocate. pose proof (linearize_Ok ssa g t Hwf Hssa) as Hlin.
  destruct (linearize ssa g) as [linear|e| |] eqn:Hle; cbn [rbind]; [|by left|done|done].
  destruct (build_intervals_Ok ssa g t live linear Hok Hssa Hinline Hinv Hout Hlin) as (ivs & -> & Hver & Hi). cbn [rbind].
  pose proof (io_len _ _ _ Hi) as Hlen.
  pose proof (linear_scan_Ok ivs reprs budget (io_dense _ _ _ Hi) ltac:(lia) (io_order _ _ _ Hi)) as Hs.
  destruct (linear_scan ivs reprs budget) as [[locs spills]|e| |] eqn:Hscan; cbn [rbind]; [|by right; left; rewrite <- Hlen|done|done].
  pose proof (build_edge_moves_Ok ivs locs spills Hi Hs) as He.
  destruct (build_edge_moves ssa g reprs locs budget) as [edges|e| |]; cbn [rbind]; [|by right; right|done|done].
  constructor; [eauto|done|done].
Qed.

Lemma allocation_verify_Ok a : allocated a -> allocation_verify a ssa g reprs live = Ok tt.
Proof.
  intros [(linear & Hle & Hver) Hscan [Hi Hs Hb Hedges]]. pose proof (io_len _ _ _ Hi) as Hlen.
  pose proof (ss_len _ _ _ _ _ Hs) as Hll. destruct a as [locs ivs edges budget0 spills].
  cbn [locations intervals edge_moves register_budget spill_slot_counts] in *. subst budget0.
  unfold allocation_verify. cbn [locations intervals register_budget].
  rewrite Hll, Hlen, Nat.eqb_refl. cbn [negb]. rewrite Hle. cbn [rbind]. rewrite Hver. cbn [rbind].
  rewrite (verify_locations_Ok reprs budget ivs locs spills edges Hs ltac:(lia)). cbn [rbind].
  rewrite (verify_interference_Ok reprs budget ivs locs spills edges Hs ltac:(lia)). cbn [rbind].
  rewrite (verify_spills_Ok reprs budget ivs locs spills edges Hs ltac:(lia)). cbn [rbind]. rewrite Hscan. cbn [rbind].
  rewrite (proj2 (for_each_i_Ok check_replay 0 (zip locs locs))).
  2:{ intros j [l l'] Hj. apply lookup_zip_Some in Hj as [H1 H2]. unfold check_replay. rewrite bool_decide_true; [done|]. simpl. congruence. }
  cbn [rbind]. rewrite (proj2 (for_each_Ok _ ALL)).
  2:{ apply Forall_forall. intros c _. unfold check_spill_count. cbn [spill_slot_counts]. by rewrite Nat.eqb_refl. }
  cbn [rbind]. unfold verify_edge_moves. cbn [edge_moves].
  rewrite (proj2 (for_each_Ok _ (seq 0 _))).
  2:{ apply Forall_forall. intros j _. unfold check_edge_order. cbn [edge_moves]. rewrite bool_decide_true; [done|].
      rewrite Forall2_lookup in Hedges. specialize (Hedges j).
      inversion Hedges as [x e (Hp & Hb & _) Hx He|Hx He]; simpl; [|done]. rewrite Hp, Hb. by destruct x. }
  cbn [rbind]. apply for_each_Ok, Forall_forall. intros e [j Hj]%list_elem_of_lookup.
  rewrite Forall2_lookup in Hedges. specialize (Hedges j). rewrite Hj in Hedges.
  inversion Hedges as [x e' (Hp & Hb & rs & P & Hg) Hx He|]; subst e'. rewrite <- Hp, <- Hb in Hg.
  apply (verify_edge_Ok ssa g reprs locs budget) with (rs := rs) (P := P); try done.
  - lia.
  - intros v l. by apply (not_scratch reprs budget ivs locs spills).
  - intros v c k Hv. apply (ss_spills _ _ _ _ _ Hs). eauto.
  - apply (ss_bound _ _ _ _ _ Hs).
Qed.
(** ** Values live at once *)

(** A value live after an instruction is still needed at or after that point. *)
Lemma live_end a i b k X v iv : allocated a -> bs !! i = Some b -> k < length (instrs b) ->
  live_after_instruction live ssa i k = Some X -> v ∈ X -> intervals a !! v = Some iv ->
  base bs i + (length (phis b) + k) <= iv_end iv.
Proof.
  intros Ha Hb Hk HX Hv Hiv. pose proof (pl_intervals _ (al_placed _ Ha)) as Hi.
  destruct (liveness_compute_spec (E := F) ssa g t Hok Hssa) as (live' & Hl' & Hinv & _ & Hout & _).
  rewrite Hlive in Hl'. injection Hl' as <-.
  assert (Hin : i < length (blocks g)) by (rewrite <- (sw_len _ _ _ Hssa); by eapply lookup_lt_Some).
  unfold live_after_instruction in HX. rewrite Hb, (proj2 (Nat.leb_gt _ _) Hk) in HX.
  destruct (live_out live !! i) as [O|] eqn:HO; [|done]. injection HX as <-.
  apply live_before_spec in Hv as [(j & ins & Hj & Hu & _)|[Hv _]].
  - rewrite lookup_drop in Hj. pose proof (io_end _ _ _ Hi v iv _ Hiv (required_use ssa g v i b (S k + j) ins Hb Hj Hu)). lia.
  - assert (Hn : needed ssa g v i) by (apply Hout; [done|]; unfold at_block; eauto).
    pose proof (io_end _ _ _ Hi v iv _ Hiv (required_out ssa g v i b Hb Hn)) as He.
    unfold last_point in He. rewrite items_length in He. lia.
Qed.

(** It was defined at or before that point, when its block does not come later. *)
Lemma live_start a i b k X v iv d : allocated a -> bs !! i = Some b -> k < length (instrs b) ->
  live_after_instruction live ssa i k = Some X -> v ∈ X -> intervals a !! v = Some iv ->
  values ssa !! v = Some d -> def_block d <= i -> iv_start iv <= base bs i + (length (phis b) + k).
Proof.
  intros Ha Hb Hk HX Hv Hiv Hd Hle. pose proof (pl_intervals _ (al_placed _ Ha)) as Hi.
  assert (Hlt : v < n) by (by eapply lookup_lt_Some).
  pose proof (proj1 (defined_somewhere ssa g t Hssa v) Hlt) as (j & m & Hdef).
  rewrite (io_start _ _ _ Hi v iv j m Hiv Hdef). destruct Hdef as (b' & kind & Hb' & Hm).
  destruct (items_define _ _ _ _ Hm) as (p & Hp & ->).
  destruct (sw_defined _ _ _ Hssa j b' v p Hb' Hp) as (d' & Hd' & Hj).
  assert (d' = d) as -> by congruence. subst j.
  assert (Hml : m < length (items b')) by (by eapply lookup_lt_Some).
  destruct (decide (def_block d = i)) as [He|Hne].
  2:{ pose proof (base_S ssa (def_block d) b' Hb'). pose proof (base_le ssa (S (def_block d)) i ltac:(lia)). lia. }
  rewrite He in *. assert (b' = b) as -> by congruence. apply items_inv in Hm as [(u & _ & _ & Hu)|(j & x & Hkind & -> & Hx & Hr)].
  { apply lookup_lt_Some in Hu. lia. }
  destruct (decide (j <= k)) as [|Hgt]; [lia|]. exfalso.
  unfold live_after_instruction in HX. rewrite Hb, (proj2 (Nat.leb_gt _ _) Hk) in HX.
  destruct (live_out live !! i) as [O|] eqn:HO; [|done]. injection HX as <-.
  assert (Hdj : defines b v (Instruction j)) by (by eapply defines_instr).
  apply live_before_spec in Hv as [(q & ins & Hq & Hu & Hno)|[_ Hno]].
  - rewrite lookup_drop in Hq. destruct (sw_use _ _ _ Hssa _ b (S k + q) ins v Hb Hq Hu) as (_ & _ & _ & Hord).
    specialize (Hord j Hdj). apply (Hno (j - S k) x); [lia| |done]. rewrite lookup_drop. by replace (S k + (j - S k)) with j by lia.
  - apply Hno. exists (j - S k), x. rewrite lookup_drop. by replace (S k + (j - S k)) with j by lia.
Qed.
(** A value that enters a block alive, from a block before it, spans the heads of the block. *)
Lemma entering_apart a i b phi w dw : placed a -> bs !! i = Some b -> phi ∈ phis b -> w ∉ phis b ->
  live_at_start ssa g i w -> values ssa !! w = Some dw -> def_block dw < i -> locations a !! w <> locations a !! phi.
Proof.
  intros Ha Hb Hphi Hw [_ (b' & Hb' & Hlv)] Hdw Hlt. assert (b' = b) as -> by congruence.
  pose proof (pl_intervals _ Ha) as Hi. pose proof (pl_sound _ Ha) as Hs. set (q := base bs i + (length (phis b) - 1)).
  pose proof (head_lt ssa g t Hssa i b phi Hb Hphi) as Hphin. assert (Hwn : w < n) by (by eapply lookup_lt_Some).
  destruct (lookup_lt_is_Some_2 (intervals a) phi) as [ip Hip]; [by rewrite (io_len _ _ _ Hi)|].
  destruct (lookup_lt_is_Some_2 (intervals a) w) as [iw Hiw]; [by rewrite (io_len _ _ _ Hi)|].
  assert (Hne : phi <> w) by (intros ->; done). intros He.
  apply (locations_apart reprs budget _ _ _ Hs w phi iw ip); [done|done|done| |done].
  apply (overlap_true _ _ q); unfold q.
  - pose proof (proj1 (defined_somewhere ssa g t Hssa w) Hwn) as (j & m & Hdef).
    rewrite (io_start _ _ _ Hi w iw j m Hiw Hdef). destruct Hdef as (bj & kind & Hbj & Hm).
    destruct (items_define _ _ _ _ Hm) as (p & Hp & ->).
    destruct (sw_defined _ _ _ Hssa j bj w p Hbj Hp) as (d' & Hd' & Hj). assert (d' = dw) as -> by congruence. subst j.
    apply lookup_lt_Some in Hm. pose proof (base_S ssa (def_block dw) bj Hbj). pose proof (base_le ssa (S (def_block dw)) i ltac:(lia)). lia.
  - destruct Hlv as [?|[(_ & k & ins & Hk & Hu & _)|[Hn _]]]; [done|..].
    + pose proof (io_end _ _ _ Hi w iw _ Hiw (required_use ssa g w i b k ins Hb Hk Hu)). lia.
    + pose proof (io_end _ _ _ Hi w iw _ Hiw (required_out ssa g w i b Hb Hn)) as Hend.
      unfold last_point in Hend. rewrite items_length in Hend. lia.
  - pose proof Hphi as [m Hm]%list_elem_of_lookup. rewrite (io_start _ _ _ Hi phi ip i m Hip).
    + apply lookup_lt_Some in Hm. lia.
    + exists b, PointHead. split; [done|by apply items_head].
  - apply (io_end _ _ _ Hi phi ip _ Hip). by apply (required_head ssa g phi i b).
Qed.
(** The moves of an edge put the widened input of each live merge of the block in
    its location and keep the values that enter the block alive. *)
Definition delivers (a : Allocation) (p i : BlockId) (b : SsaBlock) (k : nat) : Prop :=
  exists e, e ∈ edge_moves a /\ predecessor e = p /\ em_block e = i
  /\ forall (V : Type) (convert : ConversionKind -> V -> V) (s : Location -> V),
     (forall phi input lphi linput, phi ∈ phis b -> is_dead_phi (E := RegallocError) ssa phi = Ok false -> reads ssa phi input k ->
        locations a !! phi = Some lphi -> locations a !! input = Some linput ->
        exists ri rp c, reprs !! input = Some ri /\ reprs !! phi = Some rp /\ widening ri rp c
        /\ run_moves convert (moves e) s lphi = converted convert c (s linput))
     /\ (forall w dw lw, w ∉ phis b -> live_at_start ssa g i w -> values ssa !! w = Some dw -> def_block dw < i ->
        locations a !! w = Some lw -> run_moves convert (moves e) s lw = s lw).

Lemma placed_delivers a p i b k : placed a -> bs !! i = Some b -> normal_preds g i !! k = Some p -> delivers a p i b k.
Proof.
  intros H Hb Hk. pose proof (verify_wf g Hok) as Hwf.
  assert (Hin : i < length (blocks g)) by (rewrite <- (sw_len _ _ _ Hssa); by eapply lookup_lt_Some).
  assert (Hedge : (p, i) ∈ normal_edges g).
  { apply (elem_of_normal_edges g p i Hwf), (elem_of_normal_preds g Hok i p Hin). by eapply list_elem_of_lookup_2. }
  apply list_elem_of_lookup in Hedge as [j Hj]. pose proof (pl_edges _ H) as Hes. rewrite Forall2_lookup in Hes.
  specialize (Hes j). rewrite Hj in Hes. inversion Hes as [x e (Hp & Hi & rs & P & Hg) Hx He|]. subst x. symmetry in He. cbn [fst snd] in *.
  exists e. split_and!; [by eapply list_elem_of_lookup_2|done|done|]. intros V convert s.
  pose proof (pl_sound _ H) as Hs. assert (Hscr : forall v l, locations a !! v = Some l -> ~ is_scratch budget l).
  { intros v l. by apply (not_scratch reprs budget (intervals a) (locations a) (spill_slot_counts a)). }
  pose proof (edge_run ssa g reprs (locations a) budget Hscr convert p i rs (moves e) P s Hg) as [Hmove Hkeep].
  destruct (eg_needs _ _ _ _ _ _ _ _ _ _ Hg) as (k' & Hk' & Hneeds). split.
  - intros phi input lphi linput Hphi Hdead Hrd Hlphi Hlin.
    destruct (eg_live _ _ _ _ _ _ _ _ _ _ Hg k b phi input Hk Hb Hphi Hdead Hrd) as [m Hm].
    destruct (Hneeds _ _ Hm) as (input' & ri & rp & Hrd' & Hri & Hrp & Hsrc & Hdst & Hw).
    assert (k' = k) as ->. { apply (NoDup_lookup _ k' k p (NoDup_normal_preds g Hok i)); done. }
    assert (input' = input) as ->.
    { destruct Hrd as (d & ins & ? & ? & ?), Hrd' as (d' & ins' & ? & ? & ?). congruence. }
    exists ri, rp, (conversion m). split_and!; [done..|]. rewrite Hlphi in Hdst. injection Hdst as ->.
    rewrite Hlin in Hsrc. injection Hsrc as ->. by apply (Hmove phi m).
  - intros w dw lw Hw Hlv Hdw Hlt Hlw. apply Hkeep; [by eapply Hscr|]. intros phi m Hm Hd.
    destruct (Hneeds _ _ Hm) as (_ & _ & _ & _ & _ & _ & _ & Hdst & _).
    apply (entering_apart a i b phi w dw); [done|done| |done|done|done|done|].
    + by apply (eg_heads _ _ _ _ _ _ _ _ _ _ Hg b phi m).
    + rewrite Hlw, Hdst. by rewrite Hd.
Qed.
End Allocation.


(** C19: values that are live at the same time never share a location: two
    different values live after the same instruction, both defined in that block
    or in a block that precedes it in block order, are in different registers or
    spill slots. *)
Theorem live_values_apart (ssa : SsaFunction) (g : ControlFlowGraph) (t : DominatorTree) (live : Liveness)
    (reprs : list Representation) (budget : RegisterBudget) (a : Allocation) i b k X u w du dw :
  verify g = Ok tt -> ssa_verify ssa g t = Ok tt -> inline_inputs_dominated ssa g ->
  liveness_compute (E := RegallocError) ssa g = Ok live -> length reprs = length (values ssa) ->
  allocate ssa g live reprs budget = Ok a ->
  ssa_blocks ssa !! i = Some b -> k < length (instrs b) -> live_after_instruction live ssa i k = Some X ->
  u ∈ X -> w ∈ X -> u <> w -> values ssa !! u = Some du -> values ssa !! w = Some dw ->
  def_block du <= i -> def_block dw <= i ->
  exists lu lw, location (E := RegallocError) a u = Ok lu /\ location (E := RegallocError) a w = Ok lw /\ lu <> lw.
Proof.
  intros Hok Hver Hinline Hlive Hreprs Ha Hb Hk HX Hu Hw Hne Hdu Hdw Hbu Hbw. pose proof (ssa_verify_wf _ _ _ Hver) as Hssa.
  pose proof (allocate_spec ssa g t live reprs budget Hok Hssa Hinline Hlive Hreprs) as H. rewrite Ha in H.
  pose proof (al_placed _ _ _ _ _ _ H) as Hpl.
  pose proof (io_len _ _ _ (pl_intervals _ _ _ _ _ Hpl)) as Hlen. pose proof (pl_sound _ _ _ _ _ Hpl) as Hs.
  destruct (lookup_lt_is_Some_2 (intervals a) u) as [iu Hiu]; [rewrite Hlen; by eapply lookup_lt_Some|].
  destruct (lookup_lt_is_Some_2 (intervals a) w) as [iw Hiw]; [rewrite Hlen; by eapply lookup_lt_Some|].
  destruct (lookup_lt_is_Some_2 (locations a) u) as [lu Hlu]; [rewrite (ss_len _ _ _ _ _ Hs); by eapply lookup_lt_Some|].
  destruct (lookup_lt_is_Some_2 (locations a) w) as [lw Hlw]; [rewrite (ss_len _ _ _ _ _ Hs); by eapply lookup_lt_Some|].
  exists lu, lw. unfold location. rewrite (proj2 (index_Ok _ _ _) Hlu), (proj2 (index_Ok _ _ _) Hlw). split_and!; [done|done|].
  intros ->. eapply (locations_apart reprs budget _ _ _ Hs u w iu iw Hne Hiu Hiw); [|congruence].
  apply (overlap_true _ _ (base (ssa_blocks ssa) i + (length (phis b) + k)));
    [eapply (live_start ssa g t live reprs budget) with (v := u)|eapply (live_end ssa g t live reprs budget) with (v := u)
    |eapply (live_start ssa g t live reprs budget) with (v := w)|eapply (live_end ssa g t live reprs budget) with (v := w)]; done.
Qed.


(** ** A loop that swaps two values *)

Definition swap_ssa : SsaFunction :=
  mkSsa [mkSsaBlock 0 [0; 1] [mkSsaInstr 0 0 Op.Nop [0] [0%Z] (Some 2) (Some 0%Z);
                              mkSsaInstr 0 1 Op.Nop [] [] None None];
         mkSsaBlock 1 [3; 4] [mkSsaInstr 0 2 Op.JumpIfTrue [3] [0%Z] None None];
         mkSsaBlock 2 [] [mkSsaInstr 0 3 Op.Nop [3] [0%Z] None None;
                          mkSsaInstr 0 4 Op.Jump [] [] None None];
         mkSsaBlock 3 [5; 6] [mkSsaInstr 0 5 Op.ReturnValue [5] [0%Z] None None]]
        [mkValueData 0 (ValueDef.Param 0 0) 0;
         mkValueData 1 (ValueDef.Param 1 1) 0;
         mkValueData 2 (ValueDef.OpResult 0 0 Op.Nop [0]) 0;
         mkValueData 3 (ValueDef.Phi 1 0 [2; 4]) 1;
         mkValueData 4 (ValueDef.Phi 1 1 [1; 3]) 1;
         mkValueData 5 (ValueDef.ExceptionInput 3 0) 3;
         mkValueData 6 (ValueDef.ExceptionInput 3 1) 3]
        0 2 [mkSsaFrame 2 2 None].

Definition swap_reprs : list Representation := [Tagged; Tagged; Int32; Tagged; Tagged; Tagged; Tagged].

Definition swap_budget : RegisterBudget := mkBudget 3 1.

Definition swap_live : Liveness :=
  match liveness_compute (E := RegallocError) swap_ssa sample_cfg with Ok l => l | _ => mkLiveness [] [] end.

Definition swap_allocation : Allocation :=
  match allocate swap_ssa sample_cfg swap_live swap_reprs swap_budget with
  | Ok a => a
  | _ => mkAllocation [] [] [] swap_budget (mkSpills 0 0)
  end.

Lemma swap_verified : ssa_verify swap_ssa sample_cfg sample_tree = Ok tt.
Proof. vm_compute. reflexivity. Qed.

Lemma swap_no_inline : inline_inputs_dominated swap_ssa sample_cfg.
Proof.
  intros i b v d owner register ins j p u _ _ Hd Hdef.
  do 7 (destruct v as [|v]; [injection Hd as <-; discriminate Hdef|]). done.
Qed.

Lemma swap_live_Ok : liveness_compute (E := RegallocError) swap_ssa sample_cfg = Ok swap_live.
Proof. vm_compute. reflexivity. Qed.

Lemma swap_allocated : allocate swap_ssa sample_cfg swap_live swap_reprs swap_budget = Ok swap_allocation.
Proof. vm_compute. reflexivity. Qed.


Lemma live_values_apart_witness :
  exists lu lw, location (E := RegallocError) swap_allocation 1 = Ok lu
  /\ location (E := RegallocError) swap_allocation 2 = Ok lw /\ lu <> lw.
Proof.
  eapply (live_values_apart swap_ssa sample_cfg sample_tree swap_live swap_reprs swap_budget swap_allocation 0 _ 0 _ 1 2
    _ _ sample_verified swap_verified swap_no_inline swap_live_Ok eq_refl swap_allocated eq_refl).
  - simpl. lia.
  - reflexivity.
  - vm_compute. reflexivity.
  - vm_compute. reflexivity.
  - discriminate.
  - reflexivity.
  - reflexivity.
  - simpl. lia.
  - simpl. lia.
Defined.

