(* ===== verification/ReprProps.v ===== *)
(** Representation selection is the least solution of its rules, passes its own
    check up to the one conversion it has no kind for, and never leaves a merge
    input that register allocation cannot widen. *)

From stdpp Require Import gmap sorting.
From S2P Require Import Prelude Slices Opcode Cfg CfgProps Dom RpoProps DomProps Dominance DomChecks Ssa SsaProps Liveness LivenessProps LivenessChecks Repr Regalloc Moves Allocate FrameState MoveProps ScanProps LinearProps IntervalProps EdgeProps AllocProps.
#[local] Set Warnings "-clear-no-such-hyp".

(** ** The lattice *)

Definition rank (r : Representation) : nat := match r with Int32 => 0 | Float64 => 1 | Tagged => 2 end.

Definition below (r s : Representation) : Prop := rank r <= rank s.

#[export] Instance below_preorder : PreOrder below.
Proof. unfold below. split; [intros x|intros x y z]; lia. Qed.

Lemma below_antisymm r s : below r s -> below s r -> r = s.
Proof. destruct r, s; unfold below; simpl; lia || done. Qed.

Lemma rank_meet r s : rank (meet r s) = rank r `max` rank s.
Proof. by destruct r, s. Qed.

Lemma rank_top r : rank r <= 2.
Proof. destruct r; simpl; lia. Qed.

Lemma below_lossless r s : below r s -> r <> s -> lossless_phi_conversion r s <> None.
Proof. destruct r, s; unfold below; simpl; lia || done. Qed.

(** The two statements of each table agree. *)
Lemma result_rule_agree op f : selected_result_representation op f = verified_result_representation op f.
Proof.
  unfold selected_result_representation, verified_result_representation.
  destruct (int32_closed op); simpl; [|done]. by destruct (is_int32_only f), (is_numeric_only f), (float_op op).
Qed.

Lemma input_rule_agree op f : selected_input_representation op f = verified_input_representation op f.
Proof.
  unfold selected_input_representation, verified_input_representation.
  by destruct (int32_closed op), (comparison op), (float_op op), (is_int32_only f), (is_numeric_only f).
Qed.

Lemma non_phi_agree {E} tree def :
  selected_non_phi_representation (E := E) tree def = verified_non_phi_representation tree def.
Proof.
  unfold selected_non_phi_representation, verified_non_phi_representation, number_representation.
  destruct def as [| | | | | |inline pc op ins]; try done.
  destruct op; try done; unfold feedback_at; destruct (overlay _ _ _); simpl; by rewrite ?result_rule_agree.
Qed.

Lemma conversion_kind_agree from to : conversion_kind from to = verified_conversion_kind from to.
Proof. by destruct from, to. Qed.

(** The order on the keys. *)
Lemma key3_le_spec (i i' : InlineId) (p p' : Z) (o o' : nat) : key3_le (i, p, o) (i', p', o') = true
  <-> i < i' \/ (i = i' /\ ((p < p')%Z \/ (p = p' /\ o <= o'))).
Proof.
  unfold key3_le. rewrite !orb_true_iff, !andb_true_iff, !orb_true_iff, !andb_true_iff.
  rewrite Nat.ltb_lt, Nat.eqb_eq, Z.ltb_lt, Z.eqb_eq, Nat.leb_le. done.
Qed.

Lemma key3_le_total a b : key3_le a b = true \/ key3_le b a = true.
Proof. destruct a as [[i p] o], b as [[i' p'] o']. rewrite !key3_le_spec. lia. Qed.

Lemma key3_le_trans a b c : key3_le a b = true -> key3_le b c = true -> key3_le a c = true.
Proof. destruct a as [[i p] o], b as [[i' p'] o'], c as [[j q] r]. rewrite !key3_le_spec. lia. Qed.

Lemma check_conversion_order_Ok l : forall i, StronglySorted (fun c d => conversion_le c d = true) l ->
  check_conversion_order i l = Ok tt.
Proof.
  induction l as [|c [|d l] IH]; intros i Hs; [done..|]. apply StronglySorted_cons in Hs as [Hc Hs].
  change (check_conversion_order i (c :: d :: l)) with (if key3_le (conversion_key c) (conversion_key d)
    then check_conversion_order (S i) (d :: l) else Err (ReprError.ConversionOrderMismatch (S i))).
  apply Forall_cons in Hc as [Hcd _]. unfold conversion_le in Hcd. rewrite Hcd. by apply IH.
Qed.

(** ** The rules as equations *)

Section Selection.
Context {E : Type} (tree : list InlineFrame) (ssa : SsaFunction).
#[local] Abbreviation n := (length (values ssa)).

(** Every instruction belongs to a frame of the tree. *)
Definition frames_exist : Prop :=
  forall b i, b ∈ ssa_blocks ssa -> i ∈ instrs b -> instr_inline i < length tree.

(** Moves and conversions have one input and a result. *)
Definition moves_shaped : Prop :=
  forall b i, b ∈ ssa_blocks ssa -> i ∈ instrs b -> is_transparent (instr_op i) = true ->
    exists r u, result i = Some r /\ inputs i = [u].

(** The values a definition reads. *)
Definition def_inputs (def : ValueDef.t) : list ValueId :=
  match def with
  | ValueDef.Phi _ _ ins | ValueDef.InlineResult _ _ ins | ValueDef.OpResult _ _ _ ins => ins
  | _ => []
  end.

(** What selection relies on: everything it reads exists. *)
Record analysable : Prop := {
  an_dense : forall v d, values ssa !! v = Some d -> value_id d = v;
  an_inputs : forall v d u, values ssa !! v = Some d -> u ∈ def_inputs (value_def d) -> u < n;
  an_uses : forall b i u, b ∈ ssa_blocks ssa -> i ∈ instrs b -> u ∈ inputs i -> u < n;
  an_results : forall b i u, b ∈ ssa_blocks ssa -> i ∈ instrs b -> result i = Some u -> u < n;
  an_frames : frames_exist;
  an_def_frames : forall v d inline pc op ins, values ssa !! v = Some d ->
    value_def d = ValueDef.OpResult inline pc op ins ->
    inline < length tree /\ (is_transparent op = true -> exists u, ins = [u]);
  an_moves : moves_shaped
}.

Context (Han : analysable).

(** A solution of the rules: a merge is the least upper bound of its inputs, a
    move has the representation of its input, and everything else the one its
    operation and feedback select. *)
Record solves (rs : list Representation) : Prop := {
  so_len : length rs = n;
  so_merge : forall v d ins, values ssa !! v = Some d -> merge_inputs (value_def d) = Some ins ->
    exists r, rs !! v = Some r
    /\ forall c, below r c <-> forall u ru, u ∈ ins -> rs !! u = Some ru -> below ru c;
  so_move : forall v d inline pc op u, values ssa !! v = Some d ->
    value_def d = ValueDef.OpResult inline pc op [u] -> is_transparent op = true -> rs !! v = rs !! u;
  so_rule : forall v d, values ssa !! v = Some d -> merge_inputs (value_def d) = None ->
    (forall inline pc op ins, value_def d = ValueDef.OpResult inline pc op ins -> is_transparent op = false) ->
    exists r, verified_non_phi_representation (E := E) tree (value_def d) = Ok r /\ rs !! v = Some r
}.

Definition at_value (rs : list Representation) (v : ValueId) : Representation := default Tagged (rs !! v).

(** [widened] without the lookups that cannot fail. *)
Definition wide (rs : list Representation) (def : ValueDef.t) : option Representation :=
  match def with
  | ValueDef.Phi _ _ ins | ValueDef.InlineResult _ _ ins =>
      Some (foldl (fun acc u => meet acc (at_value rs u)) Int32 ins)
  | ValueDef.OpResult _ _ op [u] => if is_transparent op then Some (at_value rs u) else None
  | _ => None
  end.

Lemma wide_merge rs def ins : merge_inputs def = Some ins ->
  wide rs def = Some (foldl (fun acc u => meet acc (at_value rs u)) Int32 ins) /\ def_inputs def = ins.
Proof. destruct def; cbn [merge_inputs wide def_inputs]; try done; by intros [= ->]. Qed.

Lemma at_value_lookup rs v : v < length rs -> rs !! v = Some (at_value rs v).
Proof. intros H. unfold at_value. by destruct (lookup_lt_is_Some_2 rs v H) as [r ->]. Qed.

Lemma representation_at {F} rs v : v < length rs -> representation (E := F) rs v = Ok (at_value rs v).
Proof. intros H. apply index_Ok. by apply at_value_lookup. Qed.

Lemma meet_all_Ok {F} rs ins : forall acc, (forall u, u ∈ ins -> u < length rs) ->
  meet_all (E := F) rs acc ins = Ok (foldl (fun acc u => meet acc (at_value rs u)) acc ins).
Proof.
  induction ins as [|u ins IH]; intros acc H; cbn [meet_all foldl]; [done|].
  rewrite representation_at by (apply H; by left). cbn [rbind]. apply IH. intros w Hw. apply H. by right.
Qed.

Lemma widened_Ok {F} rs v d : values ssa !! v = Some d -> length rs = n ->
  widened (E := F) rs (value_def d) = Ok (wide rs (value_def d)).
Proof.
  intros Hd Hlen. pose proof (fun u => an_inputs Han v d u Hd) as Hin. rewrite <- Hlen in Hin.
  destruct (value_def d) as [| | | | | |inline pc op [|u [|u' ins]]]; cbn [widened wide]; try done.
  - by rewrite meet_all_Ok by done.
  - by rewrite meet_all_Ok by done.
  - destruct (is_transparent op); [|done]. by rewrite representation_at by (apply Hin; by left).
Qed.

Lemma rank_fold rs ins acc c : rank (foldl (fun acc u => meet acc (at_value rs u)) acc ins) <= c
  <-> rank acc <= c /\ forall u, u ∈ ins -> rank (at_value rs u) <= c.
Proof.
  revert acc. induction ins as [|u ins IH]; intros acc; cbn [foldl].
  - split; [|tauto]. intros H. split; [done|]. by intros u ?%elem_of_nil.
  - rewrite IH, rank_meet. split.
    + intros [H1 H2]. split; [lia|]. intros w [-> |Hw]%elem_of_cons; [lia|auto].
    + intros [H1 H2]. pose proof (H2 u ltac:(by left)). split; [lia|]. intros w Hw. apply H2. by right.
Qed.

(** The rules are monotone. *)
Definition leq (rs rs' : list Representation) : Prop := forall v, below (at_value rs v) (at_value rs' v).

Lemma wide_mono rs rs' def w : leq rs rs' -> wide rs def = Some w ->
  exists w', wide rs' def = Some w' /\ below w w'.
Proof.
  intros Hle. assert (Hfold : forall ins, below (foldl (fun acc u => meet acc (at_value rs u)) Int32 ins)
    (foldl (fun acc u => meet acc (at_value rs' u)) Int32 ins)).
  { intros ins. apply rank_fold. split; [simpl; lia|]. intros u Hu. etrans; [apply Hle|].
    pose proof (proj1 (rank_fold rs' ins Int32 _) (Nat.le_refl _)) as [_ H]. by apply H. }
  destruct def as [| | | | | |inline pc op [|u [|u' ins]]]; cbn [wide]; try done.
  - intros [= <-]. eauto.
  - intros [= <-]. eauto.
  - destruct (is_transparent op); [|done]. intros [= <-]. eauto.
Qed.

Lemma overlay_Ok {F} inline pc : inline < length tree -> exists o, overlay (E := F) tree inline pc = Ok o.
Proof.
  intros H. unfold overlay. destruct (lookup_lt_is_Some_2 tree inline H) as [f Hf].
  rewrite (proj2 (index_Ok _ _ _) Hf). cbn [rbind]. eauto.
Qed.

Lemma non_phi_Ok {F} v d : values ssa !! v = Some d ->
  exists r, verified_non_phi_representation (E := F) tree (value_def d) = Ok r.
Proof.
  intros Hd. destruct (value_def d) as [| | | | | |inline pc op ins] eqn:Hdef; cbn; eauto.
  destruct (an_def_frames Han v d inline pc op ins Hd Hdef) as [Hf _].
  destruct (overlay_Ok (F := F) inline pc Hf) as [o Ho].
  destruct op; unfold feedback_at, load_number_at; rewrite ?Ho; cbn [rbind]; eauto.
Qed.

Lemma non_phi_op {F} inline pc op ins : verified_non_phi_representation (E := F) tree (ValueDef.OpResult inline pc op ins) =
  if bool_decide (op = Op.LoadInt32) then Ok Int32
  else if bool_decide (op = Op.LoadNumber) then
    let* x := load_number_at tree inline pc in
    Ok match x with Some x => if is_exact_i32 x then Int32 else Float64 | None => Float64 end
  else let* f := feedback_at tree inline pc in Ok (verified_result_representation op f).
Proof. by destruct op. Qed.

Lemma non_phi_error {F} def r : verified_non_phi_representation (E := E) tree def = Ok r ->
  verified_non_phi_representation (E := F) tree def = Ok r.
Proof.
  destruct def as [| | | | | |inline pc op ins]; [by intros [= <-]..|]. rewrite !non_phi_op.
  unfold load_number_at, feedback_at, overlay, index. case_bool_decide; [by intros [= <-]|].
  case_bool_decide; (destruct (tree !! inline) as [f|]; cbn [rbind]; congruence).
Qed.

(** Outside the moves and merges the initial representation is the rule's. *)
Definition settled (rs : list Representation) (v : ValueId) (d : ValueData) : Prop :=
  match wide rs (value_def d) with
  | Some w => at_value rs v = w
  | None => verified_non_phi_representation (E := E) tree (value_def d) = Ok (at_value rs v)
  end.

Definition solved (rs : list Representation) : Prop :=
  length rs = n /\ forall v d, values ssa !! v = Some d -> settled rs v d.

Lemma solved_solves rs : solved rs -> solves rs.
Proof.
  intros [Hlen Hs].
  assert (Hat : forall v d, values ssa !! v = Some d -> rs !! v = Some (at_value rs v)).
  { intros v d Hd. apply at_value_lookup. rewrite Hlen. by eapply lookup_lt_Some. }
  split; [done|..].
  - intros v d ins Hd Hm. specialize (Hs v d Hd). unfold settled in Hs.
    exists (at_value rs v). split; [by eapply Hat|]. intros c. unfold below.
    assert (at_value rs v = foldl (fun acc u => meet acc (at_value rs u)) Int32 ins) as ->.
    { by rewrite (proj1 (wide_merge rs _ _ Hm)) in Hs. }
    rewrite rank_fold. split.
    + intros [_ H] u ru Hu Hru. specialize (H u Hu). unfold at_value in H. by rewrite Hru in H.
    + intros H. split; [simpl; lia|]. intros u Hu. apply (H u); [done|].
      apply at_value_lookup. rewrite Hlen. apply (an_inputs Han v d); [done|]. by rewrite (proj2 (wide_merge rs _ _ Hm)).
  - intros v d inline pc op u Hd Hdef Ht. specialize (Hs v d Hd). unfold settled in Hs. rewrite Hdef in Hs.
    cbn [wide] in Hs. rewrite Ht in Hs. rewrite (Hat v d Hd), Hs. symmetry. apply at_value_lookup. rewrite Hlen.
    apply (an_inputs Han v d); [done|]. rewrite Hdef. by left.
  - intros v d Hd Hm Hop. specialize (Hs v d Hd). exists (at_value rs v). split; [|by eapply Hat].
    unfold settled in Hs. destruct (wide rs (value_def d)) eqn:Hw; [|done]. exfalso.
    destruct (value_def d) as [| | | | | |inline pc op [|u [|u' ins]]]; try done.
    cbn [wide] in Hw. by rewrite (Hop inline pc op [u] eq_refl) in Hw.
Qed.

Lemma solves_solved rs : solves rs -> solved rs.
Proof.
  intros [Hlen Hm Hv Hr]. split; [done|]. intros v d Hd.
  assert (Hmerge : forall ins, merge_inputs (value_def d) = Some ins ->
    at_value rs v = foldl (fun acc u => meet acc (at_value rs u)) Int32 ins).
  { intros ins Hmi. destruct (Hm v d ins Hd Hmi) as (r & Hrv & Hlub). unfold at_value at 1. rewrite Hrv. simpl.
    assert (Hin : forall u, u ∈ ins -> rs !! u = Some (at_value rs u)).
    { intros u Hu. apply at_value_lookup. rewrite Hlen. apply (an_inputs Han v d); [done|]. by rewrite (proj2 (wide_merge rs _ _ Hmi)). }
    apply below_antisymm.
    + apply Hlub. intros u ru Hu Hru. rewrite (Hin u Hu) in Hru. injection Hru as <-.
      pose proof (proj1 (rank_fold rs ins Int32 _) (Nat.le_refl _)) as [_ H]. by apply H.
    + apply rank_fold. split; [simpl; lia|]. intros u Hu. apply (proj1 (Hlub r) (PreOrder_Reflexive r) u); [done|by apply Hin]. }
  assert (Hrule : merge_inputs (value_def d) = None ->
    (forall inline pc op ins, value_def d = ValueDef.OpResult inline pc op ins -> is_transparent op = false) ->
    verified_non_phi_representation (E := E) tree (value_def d) = Ok (at_value rs v)).
  { intros H1 H2. destruct (Hr v d Hd H1 H2) as (r & H & Hrv). unfold at_value. by rewrite Hrv. }
  unfold settled. destruct (value_def d) as [| | | | | |inline pc op ins] eqn:Hdef; try (by apply Hrule); [by apply Hmerge..|].
  destruct (an_def_frames Han v d inline pc op ins Hd Hdef) as [_ Hone]. destruct (is_transparent op) eqn:Ht.
  - destruct (Hone eq_refl) as [u ->]. cbn [wide]. rewrite Ht. unfold at_value. by rewrite (Hv v d inline pc op u Hd Hdef Ht).
  - assert (wide rs (ValueDef.OpResult inline pc op ins) = None) as ->.
    { destruct ins as [|u [|u' ins]]; cbn [wide]; try done. by rewrite Ht. }
    apply Hrule; [done|]. intros inline' pc' op' ins' [= <- <- <- <-]. done.
Qed.

(** ** The widening loop *)

(** What holds throughout: values only have to rise, and stay below any solution. *)
Record rising (rs : list Representation) : Prop := {
  ri_len : length rs = n;
  ri_up : forall v d w, values ssa !! v = Some d -> wide rs (value_def d) = Some w -> below (at_value rs v) w;
  ri_fixed : forall v d, values ssa !! v = Some d -> wide rs (value_def d) = None ->
    verified_non_phi_representation (E := E) tree (value_def d) = Ok (at_value rs v);
  ri_least : forall s, solved s -> leq rs s
}.

Lemma initial_repr_Ok {F} rs v d : values ssa !! v = Some d -> exists r, initial_repr (E := F) tree (value_def d) = Ok r
  /\ match wide rs (value_def d) with
     | Some _ => r = Int32
     | None => verified_non_phi_representation (E := E) tree (value_def d) = Ok r
     end.
Proof.
  intros Hd. destruct (non_phi_Ok (F := E) v d Hd) as [r Hr].
  pose proof (non_phi_error (F := F) _ _ Hr) as Hr'.
  destruct (value_def d) as [| | | | | |inline pc op ins] eqn:Hdef; cbn [initial_repr wide]; rewrite ?non_phi_agree; eauto.
  destruct (an_def_frames Han v d inline pc op ins Hd Hdef) as [_ Hone]. destruct (is_transparent op) eqn:Ht.
  - destruct (Hone eq_refl) as [u ->]. eauto.
  - exists r. split; [done|]. by destruct ins as [|u [|u' ins]].
Qed.

Lemma initial_reprs_lookup {F} l rs : initial_reprs (E := F) tree l = Ok rs ->
  length rs = length l /\ forall v d, l !! v = Some d -> initial_repr (E := F) tree (value_def d) = Ok (at_value rs v).
Proof.
  revert rs. induction l as [|x l IH]; intros rs H; cbn [initial_reprs] in H; [by simplify_eq|].
  inv_bind H. inv_bind H. simplify_eq. destruct (IH _ Hbind0) as [Hlen Hat]. split; [simpl; lia|].
  intros [|v] d Hd; simpl in Hd; [by simplify_eq|]. by apply Hat.
Qed.

Lemma initial_reprs_Ok {F} : exists rs, initial_reprs (E := F) tree (values ssa) = Ok rs /\ rising rs.
Proof.
  assert (Htot : forall l, (forall d, d ∈ l -> exists r, initial_repr (E := F) tree (value_def d) = Ok r) ->
    exists rs, initial_reprs (E := F) tree l = Ok rs).
  { induction l as [|d l IH]; intros H; cbn [initial_reprs]; [eauto|]. destruct (H d ltac:(by left)) as [r ->].
    destruct IH as [rs ->]; [intros x Hx; apply H; by right|]. cbn [rbind]. eauto. }
  destruct (Htot (values ssa)) as [rs Hrs].
  { intros d [v Hv]%list_elem_of_lookup. destruct (initial_repr_Ok (F := F) [] v d Hv) as (r & Hr & _). eauto. }
  exists rs. split; [done|]. destruct (initial_reprs_lookup _ _ Hrs) as [Hlen Hat].
  assert (Hval : forall s v d, values ssa !! v = Some d -> match wide s (value_def d) with
    | Some _ => at_value rs v = Int32
    | None => verified_non_phi_representation (E := E) tree (value_def d) = Ok (at_value rs v) end).
  { intros s v d Hd. destruct (initial_repr_Ok (F := F) s v d Hd) as (r & Hr & Hw). rewrite (Hat v d Hd) in Hr. by injection Hr as ->. }
  split; [done|..].
  - intros v d w Hd Hw. pose proof (Hval rs v d Hd) as H. rewrite Hw in H. rewrite H. unfold below. simpl. lia.
  - intros v d Hd Hw. pose proof (Hval rs v d Hd) as H. by rewrite Hw in H.
  - intros s [Hslen Hs] v. destruct (values ssa !! v) as [d|] eqn:Hd.
    + pose proof (Hval s v d Hd) as H. pose proof (Hs v d Hd) as H'. unfold settled in H'.
      destruct (wide s (value_def d)); [rewrite H; unfold below; simpl; lia|]. rewrite H in H'. by injection H' as ->.
    + apply lookup_ge_None in Hd. unfold at_value. by rewrite !lookup_ge_None_2 by lia.
Qed.

Definition total (rs : list Representation) : nat := sum_list_with rank rs.

Lemma total_le rs : total rs <= 2 * length rs.
Proof. induction rs as [|r rs IH]; simpl; [lia|]. pose proof (rank_top r). unfold total in *. lia. Qed.

Lemma total_insert rs v w : v < length rs -> total (<[v := w]> rs) + rank (at_value rs v) = total rs + rank w.
Proof.
  revert v. induction rs as [|r rs IH]; intros [|v] Hv; simpl in Hv; try lia.
  - unfold at_value. simpl. lia.
  - specialize (IH v ltac:(lia)). unfold at_value, total in *. simpl in *. lia.
Qed.

Lemma at_value_insert rs v w u : v < length rs ->
  at_value (<[v := w]> rs) u = if decide (u = v) then w else at_value rs u.
Proof.
  intros Hv. unfold at_value. case_decide as He; [by subst u; rewrite list_lookup_insert_eq|].
  by rewrite list_lookup_insert_ne.
Qed.

Lemma wide_None rs rs' def : wide rs def = None -> wide rs' def = None.
Proof.
  destruct def as [| | | | | |inline pc op [|u [|u' ins]]]; cbn [wide]; try done. by destruct (is_transparent op).
Qed.

(** Raising a value to what its rule asks keeps the invariant. *)
Lemma rising_insert rs v d w : rising rs -> values ssa !! v = Some d -> wide rs (value_def d) = Some w ->
  at_value rs v <> w -> rising (<[v := w]> rs) /\ total rs < total (<[v := w]> rs).
Proof.
  intros Hr Hd Hw Hne. pose proof (ri_up _ Hr v d w Hd Hw) as Hup.
  assert (Hv : v < length rs) by (rewrite (ri_len _ Hr); by eapply lookup_lt_Some).
  pose proof (fun u => at_value_insert rs v w u Hv) as Hat.
  assert (Hle : leq rs (<[v := w]> rs)). { intros u. rewrite Hat. case_decide; [by subst u|done]. }
  split; [split|].
  - rewrite length_insert. apply Hr.
  - intros u du wu Hdu Hwu. destruct (wide rs (value_def du)) as [w0|] eqn:Hw0.
    + destruct (wide_mono _ _ _ _ Hle Hw0) as (w1 & Hw1 & Hb). assert (w1 = wu) as -> by congruence. rewrite Hat.
      case_decide; [subst u; assert (w0 = w) as -> by congruence; done|]. etrans; [|exact Hb]. by eapply ri_up.
    + by rewrite (wide_None _ (<[v:=w]> rs) _ Hw0) in Hwu.
  - intros u du Hdu Hwu. pose proof (wide_None _ rs _ Hwu) as Hw0. rewrite Hat. case_decide; [congruence|]. by apply Hr.
  - intros s Hs u. rewrite Hat. case_decide; [|by apply Hr]. subst u.
    destruct (wide_mono rs s _ _ (ri_least _ Hr s Hs) Hw) as (w' & Hw' & Hb). destruct Hs as [_ Hs].
    specialize (Hs v d Hd). unfold settled in Hs. rewrite Hw' in Hs. by rewrite Hs.
  - pose proof (total_insert rs v w Hv). unfold below in Hup.
    assert (rank (at_value rs v) <> rank w). { intros He. apply Hne, below_antisymm; unfold below; lia. } lia.
Qed.

Lemma widen_value_Ok {F} v d rs c : rising rs -> values ssa !! v = Some d ->
  exists rs' c', widen_value (E := F) d rs c = Ok (rs', c') /\ rising rs'
  /\ ((rs' = rs /\ c' = c /\ settled rs v d) \/ (c' = true /\ total rs < total rs')).
Proof.
  intros Hr Hd. unfold widen_value. rewrite (widened_Ok rs v d Hd (ri_len _ Hr)). cbn [rbind]. unfold settled.
  destruct (wide rs (value_def d)) as [w|] eqn:Hw.
  2:{ exists rs, c. split_and!; [done|done|]. left. split_and!; [done..|]. by apply Hr. }
  rewrite (an_dense Han v d Hd). assert (Hv : v < length rs) by (rewrite (ri_len _ Hr); by eapply lookup_lt_Some).
  rewrite (proj2 (index_Ok _ _ _) (at_value_lookup rs v Hv)). cbn [rbind]. case_bool_decide as He.
  - exists rs, c. split_and!; [done|done|]. by left.
  - destruct (rising_insert rs v d w Hr Hd Hw He) as [? ?]. eexists _, _. split_and!; [done|done|]. by right.
Qed.

Lemma widen_pass_Ok {F} l : forall k rs c, l = drop k (values ssa) -> rising rs ->
  exists rs' c', widen_pass (E := F) l rs c = Ok (rs', c') /\ rising rs'
  /\ ((rs' = rs /\ c' = c /\ forall v d, l !! v = Some d -> settled rs (k + v) d) \/ (c' = true /\ total rs < total rs')).
Proof.
  induction l as [|d l IH]; intros k rs c Hl Hr; cbn [widen_pass].
  { exists rs, c. split_and!; [done|done|]. by left. }
  assert (Hd : values ssa !! k = Some d). { pose proof (lookup_drop (values ssa) k 0) as H. by rewrite <- Hl, Nat.add_0_r in H. }
  assert (Hl' : l = drop (S k) (values ssa)) by (by rewrite <- Nat.add_1_r, <- drop_drop, <- Hl).
  destruct (widen_value_Ok (F := F) k d rs c Hr Hd) as (rs1 & c1 & -> & Hr1 & Hs). cbn [rbind].
  destruct (IH (S k) rs1 c1 Hl' Hr1) as (rs' & c' & -> & Hr' & Hs'). exists rs', c'. split_and!; [done|done|].
  destruct Hs as [(-> & -> & Hst)|[-> Hlt]], Hs' as [(-> & -> & Hst')|[-> Hlt']]; [left|right; split; [done|lia]..].
  split_and!; [done|done|]. intros [|v] d' Hd'; simpl in Hd'; [by simplify_eq; rewrite Nat.add_0_r|].
  rewrite Nat.add_succ_r. by apply Hst'.
Qed.

Lemma widen_loop_Ok {F} fuel : forall rs, rising rs -> 2 * n < fuel + total rs ->
  exists rs', widen_loop (E := F) ssa fuel rs = Ok rs' /\ rising rs' /\ solved rs'.
Proof.
  induction fuel as [|fuel IH]; intros rs Hr Hf.
  { pose proof (total_le rs). rewrite (ri_len _ Hr) in *. lia. }
  cbn [widen_loop]. destruct (widen_pass_Ok (F := F) (values ssa) 0 rs false eq_refl Hr) as (rs' & c' & -> & Hr' & Hs).
  cbn [rbind]. destruct Hs as [(-> & -> & Hst)|[-> Hlt]].
  - exists rs. split_and!; [done|done|]. split; [apply Hr|]. intros v d Hd. by apply Hst.
  - apply IH; [done|lia].
Qed.

(** ** The conversions of the uses *)

Definition site_feedback (i : SsaInstr) : Z :=
  default 0%Z (f ← tree !! instr_inline i; m ← instructions f !! Z.to_nat (instr_pc i); Some (arith_feedback m)).

(** What an instruction requires of its inputs, and the conversions that adapts them. *)
Definition required_repr (rs : list Representation) (i : SsaInstr) : Representation :=
  if is_transparent (instr_op i) then default Tagged (at_value rs <$> result i)
  else verified_input_representation (instr_op i) (site_feedback i).

Fixpoint convs (rs : list Representation) (i : SsaInstr) (k : nat) (l : list ValueId) : list Conversion :=
  match l with
  | [] => []
  | v :: l =>
      match conversion_kind (at_value rs v) (required_repr rs i) with
      | Some (kind, deopt) =>
          [mkConversion (instr_inline i) (instr_pc i) k v (at_value rs v) (required_repr rs i) kind deopt]
      | None => []
      end ++ convs rs i (S k) l
  end.

Definition all_convs (rs : list Representation) (l : list SsaInstr) : list Conversion :=
  flat_map (fun i => convs rs i 0 (inputs i)) l.

#[local] Abbreviation all_instrs := (flat_map instrs (ssa_blocks ssa)).

Lemma elem_of_all_instrs i : i ∈ all_instrs <-> exists b, b ∈ ssa_blocks ssa /\ i ∈ instrs b.
Proof.
  rewrite list_elem_of_In, in_flat_map. split; intros (b & Hb & Hi); exists b; by rewrite !list_elem_of_In in *.
Qed.

Lemma feedback_at_eq {F} i : instr_inline i < length tree ->
  feedback_at (E := F) tree (instr_inline i) (instr_pc i) = Ok (site_feedback i).
Proof.
  intros H. unfold feedback_at, overlay, site_feedback, index. destruct (lookup_lt_is_Some_2 tree _ H) as [f ->].
  cbn [rbind mbind option_bind]. by destruct (instructions f !! Z.to_nat (instr_pc i)).
Qed.

Lemma required_of_Ok {F} rs i : i ∈ all_instrs -> length rs = n ->
  required_of (E := F) tree verified_input_representation rs i = Ok (required_repr rs i)
  /\ required_of (E := F) tree selected_input_representation rs i = Ok (required_repr rs i).
Proof.
  intros (b & Hb & Hi)%elem_of_all_instrs Hlen. unfold required_of, required_repr.
  destruct (is_transparent (instr_op i)) eqn:Ht.
  - destruct (an_moves Han b i Hb Hi Ht) as (r & u & Hr & _). rewrite Hr. cbn.
    rewrite representation_at; [done|]. rewrite Hlen. by apply (an_results Han b i).
  - rewrite feedback_at_eq by (by apply (an_frames Han b)). cbn [rbind]. by rewrite input_rule_agree.
Qed.

Lemma input_conversions_Ok {F} rs i l : forall k, (forall u, u ∈ l -> u < length rs) ->
  input_conversions (E := F) rs i (required_repr rs i) k l = Ok (convs rs i k l).
Proof.
  induction l as [|v l IH]; intros k H; cbn [input_conversions convs]; [done|].
  rewrite representation_at by (apply H; by left). cbn [rbind]. rewrite IH by (intros u Hu; apply H; by right). cbn [rbind].
  by destruct (conversion_kind _ _) as [[kind deopt]|].
Qed.

Lemma instr_inputs_lt (rs : list Representation) i u : i ∈ all_instrs -> length rs = n -> u ∈ inputs i -> u < length rs.
Proof. intros (b & Hb & Hi)%elem_of_all_instrs -> Hu. by apply (an_uses Han b i). Qed.

Lemma instr_conversions_Ok {F} rs l : (forall i, i ∈ l -> i ∈ all_instrs) -> length rs = n ->
  instr_conversions (E := F) tree rs l = Ok (all_convs rs l).
Proof.
  induction l as [|i l IH]; intros Hl Hlen; cbn [instr_conversions]; [done|].
  assert (Hi : i ∈ all_instrs) by (apply Hl; by left). rewrite (proj2 (required_of_Ok rs i Hi Hlen)). cbn [rbind].
  rewrite input_conversions_Ok by (intros u; by apply (instr_inputs_lt rs i u)). cbn [rbind].
  rewrite IH; [done| |done]. intros j Hj. apply Hl. by right.
Qed.

(** Selection finishes with the least solution and the conversions of every use. *)
Lemma repr_compute_Ok {F} : exists rs,
  repr_compute (E := F) tree ssa = Ok (mkReprMap rs (sort_by conversion_le (all_convs rs all_instrs)))
  /\ solved rs /\ forall s, solved s -> leq rs s.
Proof.
  unfold repr_compute. destruct (initial_reprs_Ok (F := F)) as (rs0 & -> & Hr0). cbn [rbind].
  destruct (widen_loop_Ok (F := F) (widen_fuel ssa) rs0 Hr0) as (rs & -> & Hr & Hs); [unfold widen_fuel; lia|].
  cbn [rbind]. rewrite instr_conversions_Ok by (done || apply Hs). exists rs. split_and!; [done|done|apply Hr].
Qed.

(** ** The self-check of the computed map *)

Definition site (i : SsaInstr) : InlineId * Z := (instr_inline i, instr_pc i).

(** Every instruction has a frame and PC of its own. *)
Definition distinct_sites : Prop := NoDup (map site all_instrs).

(** A use with no conversion kind: a double where an integer is required. *)
Definition narrowing (rs : list Representation) (i : SsaInstr) (k : nat) : Prop :=
  exists v, inputs i !! k = Some v /\ at_value rs v = Float64 /\ required_repr rs i = Int32.

(** A map that holds exactly these conversions, one under each key. *)
Definition owned (s : gmap ConversionKey (list Conversion)) (cs : list Conversion) : Prop :=
  forall key l, s !! key = Some l <-> exists c, c ∈ cs /\ conversion_key c = key /\ l = [c].

Lemma owned_delete s c cs : (forall c', c' ∈ cs -> conversion_key c' <> conversion_key c) -> owned s (c :: cs) ->
  s !! conversion_key c = Some [c] /\ owned (delete (conversion_key c) s) cs.
Proof.
  intros Hne Hs. split; [apply Hs; exists c; split_and!; [by left|done|done]|]. intros key l. rewrite lookup_delete_Some, (Hs key l). split.
  - intros [Hk (c' & [-> |Hc]%elem_of_cons & <- & ->)]; [done|eauto].
  - intros (c' & Hc & <- & ->). split; [intros He; by apply (Hne c' Hc)|]. exists c'. split_and!; [by right|done|done].
Qed.

Lemma owned_absent s key cs : (forall c, c ∈ cs -> conversion_key c <> key) -> owned s cs ->
  s !! key = None /\ owned (delete key s) cs.
Proof.
  intros Hne Hs. assert (Hn : s !! key = None).
  { destruct (s !! key) as [l|] eqn:Hl; [|done]. apply Hs in Hl as (c & Hc & Hk & _). by destruct (Hne c Hc). }
  split; [done|]. by rewrite delete_id.
Qed.

Lemma owned_store cs : forall s old, owned s old -> NoDup (map conversion_key (cs ++ old)) -> owned (foldl store s cs) (cs ++ old).
Proof.
  induction cs as [|c cs IH]; intros s old Hs Hnd; simpl in *; [done|].
  apply NoDup_cons in Hnd as [Hc Hnd].
  assert (Hne : forall c', c' ∈ cs ++ old -> conversion_key c' <> conversion_key c).
  { intros c' Hc' He. apply Hc. rewrite <- He. apply list_elem_of_In, in_map, list_elem_of_In. done. }
  assert (Hn : s !! conversion_key c = None).
  { destruct (s !! conversion_key c) as [x|] eqn:Hx; [|done]. apply Hs in Hx as (c' & Hc' & Hk & _).
    exfalso. apply (Hne c'); [|done]. apply elem_of_app. by right. }
  assert (Hs' : owned (store s c) (c :: old)).
  { unfold store. rewrite Hn. simpl. intros key l. rewrite lookup_insert_Some, (Hs key l). split.
    - intros [[<- <-]|[_ (c' & ? & ? & ?)]]; [exists c; split_and!; [by left|done|done]|]. exists c'. split_and!; [by right|done|done].
    - intros (c' & [-> |Hc']%elem_of_cons & <- & ->); [by left|]. right. split; [|eauto].
      intros He. apply (Hne c'); [|done]. apply elem_of_app. by right. }
  assert (Hnd' : NoDup (map conversion_key (cs ++ c :: old))).
  { rewrite <- Permutation_middle. by constructor. }
  intros key l. rewrite (IH _ _ Hs' Hnd' key l).
  split; intros (c' & Hc' & ?); exists c'; (split; [|done]); rewrite ?elem_of_cons, ?elem_of_app in *; rewrite ?elem_of_cons in *; tauto.
Qed.

(** The keys of the conversions of an instruction. *)
Lemma convs_key rs i l : forall k c, c ∈ convs rs i k l -> exists j, conversion_key c = (site i, j) /\ k <= j.
Proof.
  induction l as [|v l IH]; intros k c; cbn [convs]; [by intros ?%elem_of_nil|]. rewrite elem_of_app. intros [Hc|Hc].
  - destruct (conversion_kind _ _) as [[kind deopt]|]; [|by apply elem_of_nil in Hc]. apply list_elem_of_singleton in Hc as ->.
    exists k. split; [done|lia].
  - destruct (IH (S k) c Hc) as (j & ? & ?). exists j. split; [done|lia].
Qed.

Lemma all_convs_site rs l c : c ∈ all_convs rs l -> exists i j, i ∈ l /\ conversion_key c = (site i, j).
Proof.
  unfold all_convs. rewrite list_elem_of_In, in_flat_map. intros (i & Hi & Hc).
  rewrite <- !list_elem_of_In in *. destruct (convs_key _ _ _ _ _ Hc) as (j & ? & _). eauto.
Qed.

Lemma convs_NoDup rs i l : forall k, NoDup (map conversion_key (convs rs i k l)).
Proof.
  induction l as [|v l IH]; intros k; cbn [convs]; [constructor|].
  destruct (conversion_kind _ _) as [[kind deopt]|]; [|apply IH]. simpl. constructor; [|apply IH].
  rewrite list_elem_of_In, in_map_iff. intros (c & Hk & Hc%list_elem_of_In).
  destruct (convs_key _ _ _ _ _ Hc) as (j & Hj & Hle). rewrite Hj in Hk. injection Hk. intros. lia.
Qed.

Lemma all_convs_NoDup rs l : NoDup (map site l) -> NoDup (map conversion_key (all_convs rs l)).
Proof.
  induction l as [|i l IH]; [constructor|]. simpl. intros [Hi Hnd]%NoDup_cons. unfold all_convs in *. simpl.
  rewrite map_app. apply NoDup_app. split_and!; [apply convs_NoDup| |by apply IH].
  intros key Hk Hk'. apply list_elem_of_In, in_map_iff in Hk as (c & <- & Hc%list_elem_of_In).
  apply list_elem_of_In, in_map_iff in Hk' as (c' & Hkk & Hc'%list_elem_of_In).
  destruct (convs_key _ _ _ _ _ Hc) as (j & Hj & _). destruct (all_convs_site _ _ _ Hc') as (i' & j' & Hi' & Hj').
  rewrite Hj, Hj' in Hkk. apply Hi. rewrite list_elem_of_In, in_map_iff. exists i'. rewrite <- list_elem_of_In. split; congruence.
Qed.

Section Check.
Context (rs : list Representation) (cs : list Conversion) (Hs : solved rs).
#[local] Abbreviation m := (mkReprMap rs cs).

Lemma kind_None from to : conversion_kind from to = None -> from <> to -> from = Float64 /\ to = Int32.
Proof. by destruct from, to. Qed.

Lemma check_inputs_Ok i l : forall k s rest, (forall u, u ∈ l -> u < length rs) ->
  owned s (convs rs i k l ++ rest) -> (forall c j, c ∈ rest -> conversion_key c <> (site i, j)) ->
  match check_inputs m i (required_repr rs i) k l s with
  | Ok s' => owned s' rest /\ forall v, v ∈ l -> ~ (at_value rs v = Float64 /\ required_repr rs i = Int32)
  | Err e => exists j v, l !! j = Some v /\ at_value rs v = Float64 /\ required_repr rs i = Int32
      /\ e = ReprError.UnsupportedConversion (instr_pc i) (k + j) Float64 Int32
  | _ => False
  end.
Proof.
  induction l as [|v l IH]; intros k s rest Hin Ho Hrest; cbn [check_inputs].
  { split; [done|]. by intros v ?%elem_of_nil. }
  unfold check_input. cbn [reprs]. rewrite representation_at by (apply Hin; by left). cbn [rbind].
  set (key := (instr_inline i, instr_pc i, k)). cbn [convs] in Ho. rewrite <- app_assoc in Ho.
  assert (Htail : forall c, c ∈ convs rs i (S k) l ++ rest -> conversion_key c <> key).
  { intros c [Hc|Hc]%elem_of_app; [|by apply Hrest]. destruct (convs_key _ _ _ _ _ Hc) as (j & -> & Hj).
    unfold key. intros [= ->]. lia. }
  assert (Hnext : forall s', owned s' (convs rs i (S k) l ++ rest) ->
    ~ (at_value rs v = Float64 /\ required_repr rs i = Int32) ->
    match check_inputs m i (required_repr rs i) (S k) l s' with
    | Ok s' => owned s' rest /\ forall u, u ∈ v :: l -> ~ (at_value rs u = Float64 /\ required_repr rs i = Int32)
    | Err e => exists j u, (v :: l) !! j = Some u /\ at_value rs u = Float64 /\ required_repr rs i = Int32
        /\ e = ReprError.UnsupportedConversion (instr_pc i) (k + j) Float64 Int32
    | _ => False
    end).
  { intros s' Ho' Hv. specialize (IH (S k) s' rest ltac:(intros u Hu; apply Hin; by right) Ho' Hrest).
    destruct (check_inputs m i (required_repr rs i) (S k) l s') as [s''|e| |]; [|..|done|done].
    - destruct IH as [? IH]. split; [done|]. intros u [-> |Hu]%elem_of_cons; [done|by apply IH].
    - destruct IH as (j & u & ? & ? & ? & ->). exists (S j), u. by rewrite Nat.add_succ_r. }
  rewrite <- conversion_kind_agree. case_bool_decide as Heq.
  - assert (Hk : conversion_kind (at_value rs v) (required_repr rs i) = None) by (rewrite Heq; by destruct (required_repr rs i)).
    rewrite Hk in Ho. destruct (owned_absent s key _ Htail Ho) as [-> Ho']. simpl. apply Hnext; [done|]. intros [H1 H2]. congruence.
  - destruct (conversion_kind (at_value rs v) (required_repr rs i)) as [[kind deopt]|] eqn:Hk.
    + set (c := mkConversion _ _ _ _ _ _ _ _) in Ho. destruct (owned_delete s c _ Htail Ho) as [Hc Ho'].
      change (conversion_key c) with key in *. rewrite Hc. cbn [from_option id]. fold c. rewrite bool_decide_true by done. cbn [rbind].
      apply Hnext; [done|]. intros [H1 H2]. by rewrite H1, H2 in Hk.
    + destruct (kind_None _ _ Hk Heq) as [H1 H2]. cbn [rbind]. exists 0, v. rewrite H1, H2, Nat.add_0_r. done.
Qed.

Lemma check_instrs_Ok l : forall s, (forall i, i ∈ l -> i ∈ all_instrs) -> NoDup (map site l) -> owned s (all_convs rs l) ->
  match check_instrs tree m l s with
  | Ok s' => owned s' [] /\ forall i k, i ∈ l -> ~ narrowing rs i k
  | Err e => exists i k, i ∈ l /\ narrowing rs i k /\ e = ReprError.UnsupportedConversion (instr_pc i) k Float64 Int32
  | _ => False
  end.
Proof.
  induction l as [|i l IH]; intros s Hl Hnd Ho; cbn [check_instrs].
  { split; [done|]. by intros i k ?%elem_of_nil. }
  simpl in Hnd. apply NoDup_cons in Hnd as [Hi Hnd]. assert (Hii : i ∈ all_instrs) by (apply Hl; by left).
  destruct Hs as [Hlen _]. cbn [reprs]. rewrite (proj1 (required_of_Ok rs i Hii Hlen)). cbn [rbind].
  assert (Hsite : forall c j, c ∈ all_convs rs l -> conversion_key c <> (site i, j)).
  { intros c j Hc Hk. destruct (all_convs_site _ _ _ Hc) as (i' & j' & Hi' & Hk'). rewrite Hk' in Hk. apply (f_equal fst) in Hk. cbn [fst] in Hk.
    apply Hi. rewrite list_elem_of_In, in_map_iff. exists i'. rewrite <- list_elem_of_In. done. }
  pose proof (check_inputs_Ok i (inputs i) 0 s (all_convs rs l) (fun u => instr_inputs_lt rs i u Hii Hlen) Ho Hsite) as Hc.
  destruct (check_inputs m i (required_repr rs i) 0 (inputs i) s) as [s'|e| |]; cbn [rbind]; [|..|done|done].
  - destruct Hc as [Ho' Hnn]. specialize (IH s' ltac:(intros j Hj; apply Hl; by right) Hnd Ho').
    destruct (check_instrs tree m l s') as [s''|e| |]; [|..|done|done].
    + destruct IH as [? IH]. split; [done|]. intros j k [-> |Hj]%elem_of_cons; [|by apply IH].
      intros (v & Hv & H1 & H2). apply (Hnn v); [by eapply list_elem_of_lookup_2|done].
    + destruct IH as (j & k & ? & ? & ->). exists j, k. split_and!; [by right|done|done].
  - destruct Hc as (j & v & Hv & H1 & H2 & ->). exists i, j. split_and!; [by left|by exists v|done].
Qed.

Lemma check_values_Ok : for_each (check_value tree m) (values ssa) = Ok tt.
Proof.
  apply for_each_Ok, Forall_forall. intros d [v Hd]%list_elem_of_lookup. destruct Hs as [Hlen Hset].
  assert (Hv : v < length rs) by (rewrite Hlen; by eapply lookup_lt_Some). specialize (Hset v d Hd). unfold settled in Hset.
  pose proof (an_inputs Han v d) as Hin. rewrite <- Hlen in Hin. specialize (Hin) with (1 := Hd).
  unfold check_value. cbn [reprs]. rewrite (an_dense Han v d Hd), (representation_at rs v Hv).
  assert (Hrule : wide rs (value_def d) = None ->
    verified_non_phi_representation (E := ReprError) tree (value_def d) = Ok (at_value rs v)).
  { intros Hw. rewrite Hw in Hset. by apply non_phi_error. }
  destruct (value_def d) as [| | | | | |inline pc op ins].
  1-4: rewrite (Hrule eq_refl); cbn [rbind]; by rewrite bool_decide_true.
  1-2: rewrite meet_all_Ok by done; cbn [rbind]; by rewrite bool_decide_true.
  assert (Hgoal : verified_non_phi_representation (E := ReprError) tree (ValueDef.OpResult inline pc op ins) = Ok (at_value rs v)
    -> (let* expected := verified_non_phi_representation tree (ValueDef.OpResult inline pc op ins) in
        let* actual := Ok (at_value rs v) in
        if bool_decide (actual = expected) then Ok tt
        else Err (ReprError.ValueRepresentationMismatch v expected actual)) = Ok tt).
  { intros ->. cbn [rbind]. by rewrite bool_decide_true. }
  destruct ins as [|u [|u' ins]]; [by apply Hgoal, Hrule| |by apply Hgoal, Hrule].
  cbn [wide] in Hset, Hrule. destruct (is_transparent op); [|by apply Hgoal, Hrule].
  rewrite (representation_at rs u) by (apply Hin; by left). cbn [rbind]. by rewrite bool_decide_true.
Qed.

(** The computed map passes its check, unless a use has no conversion kind. *)
Lemma repr_verify_Ok : cs = sort_by conversion_le (all_convs rs all_instrs) -> distinct_sites ->
  match repr_verify tree ssa m with
  | Ok _ => forall i k, i ∈ all_instrs -> ~ narrowing rs i k
  | Err e => exists i k, i ∈ all_instrs /\ narrowing rs i k
      /\ e = ReprError.UnsupportedConversion (instr_pc i) k Float64 Int32
  | _ => False
  end.
Proof.
  intros Hcs Hsites. unfold repr_verify. cbn [reprs conversions]. destruct Hs as [Hlen _].
  rewrite Hlen, Nat.eqb_refl. cbn [negb]. rewrite check_values_Ok. cbn [rbind].
  assert (Hsort : StronglySorted (fun c d => conversion_le c d = true) cs).
  { rewrite Hcs. apply sort_by_sorted; intros *; [apply key3_le_total|apply key3_le_trans]. }
  rewrite (check_conversion_order_Ok cs 0 Hsort). cbn [rbind].
  assert (Hperm : cs ≡ₚ all_convs rs all_instrs) by (rewrite Hcs; apply sort_by_Permutation).
  assert (Ho : owned (stored_conversions m) (all_convs rs all_instrs)).
  { intros key l. pose proof (owned_store cs ∅ []) as H. rewrite app_nil_r in H. unfold stored_conversions. cbn [conversions].
    rewrite (H ltac:(intros k x; rewrite lookup_empty; split; [done|by intros (? & ?%elem_of_nil & _)])
      ltac:(rewrite Hperm; by apply all_convs_NoDup) key l).
    by split; intros (c & Hc & ?); exists c; rewrite Hperm in *. }
  assert (Hdup : check_duplicates (stored_conversions m) = Ok tt).
  { unfold check_duplicates. destruct (List.find _ _) as [key|] eqn:Hf; [|done]. apply find_elem_of in Hf as [_ Hf]. exfalso.
    destruct (stored_conversions m !! key) as [l|] eqn:Hl; [|done]. apply Ho in Hl as (c & _ & _ & ->). done. }
  rewrite Hdup. cbn [rbind]. pose proof (check_instrs_Ok all_instrs (stored_conversions m) ltac:(done) Hsites Ho) as Hc.
  destruct (check_instrs tree m all_instrs (stored_conversions m)) as [s'|e| |]; cbn [rbind]; [|done..].
  destruct Hc as [Ho' Hnn]. assert (s' = ∅) as ->.
  { apply map_eq. intros key. rewrite lookup_empty. destruct (s' !! key) as [l|] eqn:Hl; [|done].
    by apply Ho' in Hl as (c & ?%elem_of_nil & _). }
  unfold ordered_keys. rewrite map_to_list_empty. cbn [map sort_by foldr].
  destruct (repr_compute_Ok (F := ReprError)) as (rs' & -> & _). cbn [rbind]. by rewrite bool_decide_true.
Qed.
End Check.
End Selection.

(** ** Verified functions *)

Lemma verified_analysable tree ssa g t : verify g = Ok tt -> ssa_wf ssa g t -> inline_inputs_dominated ssa g ->
  frames_exist tree ssa -> moves_shaped ssa -> analysable tree ssa.
Proof.
  intros Hok Hssa Hinline Hframes Hmoves.
  assert (Huse : forall b i u, b ∈ ssa_blocks ssa -> i ∈ instrs b -> u ∈ inputs i -> u < length (values ssa)).
  { intros b i u [j Hb]%list_elem_of_lookup [k Hi]%list_elem_of_lookup Hu.
    destruct (sw_use _ _ _ Hssa j b k i u Hb Hi Hu) as (d & Hd & _). by eapply lookup_lt_Some. }
  assert (Hdef : forall v d, values ssa !! v = Some d -> exists j b p, ssa_blocks ssa !! j = Some b /\ defines b v p
    /\ def_matches b p (value_def d)).
  { intros v d Hd. destruct (sw_placed _ _ _ Hssa v) as (j & b & p & Hb & Hp); [by eapply lookup_lt_Some|].
    exists j, b, p. split_and!; [done|done|]. by eapply (sw_def _ _ _ Hssa). }
  assert (Hop : forall v d inline pc op ins, values ssa !! v = Some d -> value_def d = ValueDef.OpResult inline pc op ins ->
    exists b i, b ∈ ssa_blocks ssa /\ i ∈ instrs b /\ instr_inline i = inline /\ instr_op i = op /\ inputs i = ins).
  { intros v d inline pc op ins Hd Hv. destruct (Hdef v d Hd) as (j & b & p & Hb & Hp & Hm). rewrite Hv in Hm.
    destruct Hp as [|k i Hi Hr]; [by destruct (Hm inline pc op ins)|]. specialize (Hm i Hi).
    exists b, i. split_and!; [by eapply list_elem_of_lookup_2|by eapply list_elem_of_lookup_2|congruence..]. }
  split; [apply (sw_dense _ _ _ Hssa)| |done| |done| |done].
  - intros v d u Hd Hu. destruct (merge_inputs (value_def d)) as [ins|] eqn:Hm.
    + destruct (Hdef v d Hd) as (j & b & p & Hb & Hp & Hmd).
      assert (Hphi : v ∈ phis b).
      { destruct Hp as [|k i Hi Hr]; [done|]. by rewrite (Hmd i Hi) in Hm. }
      destruct (sw_inputs _ _ _ Hssa j b v d ins Hb Hphi Hd Hm) as (npreds & Hn & Hlen).
      assert (Hj : j < length (blocks g)) by (rewrite <- (sw_len _ _ _ Hssa); by eapply lookup_lt_Some).
      pose proof (normal_predecessors_pure g Hok (F := SsaError) j Hj) as Hp'. assert (npreds = normal_preds g j) as -> by congruence.
      assert (Hu' : u ∈ ins) by (rewrite <- (proj2 (wide_merge [] _ _ Hm)); done).
      apply list_elem_of_lookup in Hu' as [k Hk]. destruct (lookup_lt_is_Some_2 (normal_preds g j) k) as [x Hx].
      { rewrite <- Hlen. by eapply lookup_lt_Some. }
      assert (exists du, values ssa !! u = Some du) as [du Hdu]; [|by eapply lookup_lt_Some].
      destruct (value_def d) as [| | | |owner register ins'|owner register ins'|] eqn:Hv; try done; injection Hm as ->.
      * destruct (Hinline j b v d owner register ins k x u Hb Hphi Hd Hv Hx Hk) as (du & ? & _). eauto.
      * destruct (sw_phi_use _ _ _ Hssa j b v d owner register ins _ k x u Hb Hphi Hd Hv Hn Hx Hk) as (du & ? & _). eauto.
    + destruct (value_def d) as [| | | | | |inline pc op ins] eqn:Hv; try (by apply elem_of_nil in Hu); try done.
      destruct (Hop v d inline pc op ins Hd Hv) as (b & i & Hb & Hi & _ & _ & Hin). apply (Huse b i u Hb Hi). by rewrite Hin.
  - intros b i u [j Hb]%list_elem_of_lookup [k Hi]%list_elem_of_lookup Hr.
    destruct (sw_defined _ _ _ Hssa j b u (Instruction k) Hb) as (d & Hd & _); [by eapply defines_instr|]. by eapply lookup_lt_Some.
  - intros v d inline pc op ins Hd Hv. destruct (Hop v d inline pc op ins Hd Hv) as (b & i & Hb & Hi & <- & <- & <-).
    split; [by eapply Hframes|]. intros Ht. destruct (Hmoves b i Hb Hi Ht) as (_ & u & _ & Hin). eauto.
Qed.

(** No merge input is above its merge, so every one has a lossless widening. *)
Lemma solves_supported {E} tree ssa rs e : solves (E := E) tree ssa rs -> ~ unsupported ssa rs e.
Proof.
  intros Hs (phi & input & from & to & k & _ & (d & ins & Hd & Hm & Hk) & Hfrom & Hto & Hne & Hnone).
  destruct (so_merge _ _ _ Hs phi d ins Hd Hm) as (r & Hr & Hlub). assert (r = to) as -> by congruence.
  apply (below_lossless from to); [|done|done].
  apply (proj1 (Hlub to) (PreOrder_Reflexive to) input); [by eapply list_elem_of_lookup_2|done].
Qed.



(** What the analyses hand on. *)
Record analyzed (tree : list InlineFrame) (ssa : SsaFunction) (g : ControlFlowGraph) (t : DominatorTree)
    (budget : RegisterBudget) (a : Pipeline.Analyses) : Prop := {
  an_dom : Pipeline.unit_dom a = t;
  an_reprs : solves (E := ReprError) tree ssa (reprs (Pipeline.unit_reprs a));
  an_checked : repr_verify tree ssa (Pipeline.unit_reprs a) = Ok tt;
  an_liveness : liveness_compute (E := Pipeline.OptimizationError) ssa g = Ok (Pipeline.unit_liveness a);
  an_live : liveness_verify ssa g (Pipeline.unit_liveness a) t = Ok tt;
  an_allocation : allocated ssa g (Pipeline.unit_liveness a) (reprs (Pipeline.unit_reprs a)) budget (Pipeline.unit_allocation a)
}.

Lemma analyze_cases (tree : list InlineFrame) (ssa : SsaFunction) (g : ControlFlowGraph) (t : DominatorTree)
    (budget : RegisterBudget) :
  verify g = Ok tt -> ssa_verify ssa g t = Ok tt -> inline_inputs_dominated ssa g ->
  frames_exist tree ssa -> moves_shaped ssa -> distinct_sites ssa ->
  match Pipeline.analyze tree g ssa budget with
  | Ok a => analyzed tree ssa g t budget a
  | Err (Pipeline.RepresentationVerification e) => exists rs i k, solves (E := ReprError) tree ssa rs
      /\ i ∈ flat_map instrs (ssa_blocks ssa) /\ narrowing tree rs i k
      /\ e = ReprError.UnsupportedConversion (instr_pc i) k Float64 Int32
  | Err (Pipeline.RegisterAllocation e) =>
      (e = RegallocError.PositionOverflow /\ fits_u32 (base (ssa_blocks ssa) (length (ssa_blocks ssa))) = false)
      \/ (e = RegallocError.SpillSlotOverflow /\ fits_u32 (length (values ssa)) = false)
  | _ => False
  end.
Proof.
  intros Hok Hver Hinline Hframes Hmoves Hsites. pose proof (ssa_verify_wf _ _ _ Hver) as Hssa.
  pose proof (verified_analysable tree ssa g t Hok Hssa Hinline Hframes Hmoves) as Han.
  unfold Pipeline.analyze. rewrite Hok. cbn [map_err rbind].
  pose proof (tree_verify_only g Hok t (sw_tree _ _ _ Hssa)) as Hdom. rewrite (sw_full _ _ _ Hssa) in Hdom.
  unfold compute. rewrite Hdom. cbn [map_err rbind]. rewrite (sw_tree _ _ _ Hssa). cbn [map_err rbind]. rewrite Hver. cbn [map_err rbind].
  destruct (liveness_compute_spec (E := Pipeline.OptimizationError) ssa g t Hok Hssa) as (live & Hlive & Hinv & Hst & Hout & Hin).
  rewrite Hlive. cbn [rbind]. assert (Hlv : liveness_verify ssa g live t = Ok tt) by (by apply liveness_verify_Ok).
  rewrite Hlv. cbn [map_err rbind].
  destruct (repr_compute_Ok (E := ReprError) tree ssa Han (F := Pipeline.OptimizationError)) as (rs & -> & Hs & _). cbn [rbind].
  pose proof (solved_solves _ _ Han _ Hs) as Hsol.
  pose proof (repr_verify_Ok tree ssa Han rs _ Hs eq_refl Hsites) as Hrv.
  destruct (repr_verify tree ssa _) as [[]|e| |] eqn:Hchk; cbn [map_err rbind]; [clear Hrv| |done|done].
  2:{ destruct Hrv as (i & k & ? & ? & ->). exists rs, i, k. done. }
  cbn [reprs]. pose proof (allocate_spec ssa g t live rs budget Hok Hssa Hinline Hlive (so_len _ _ _ Hsol)) as Ha.
  destruct (allocate ssa g live rs budget) as [a|e| |]; cbn [map_err rbind]; [| |done|done].
  - pose proof (allocation_verify_Ok ssa g live rs budget (so_len _ _ _ Hsol) a Ha) as Hav. rewrite Hav.
    cbn [map_err rbind]. by constructor.
  - destruct Ha as [?|[?|Hu]]; [by left|by right|]. by destruct (solves_supported _ _ _ _ Hsol Hu).
Qed.


(** ** A loop on numbers

    A first value is computed and stored, and the loop adds to it. *)

Definition numeric_ssa (first : Op) (operands : list (ValueId * Z)) (second : Op) : SsaFunction :=
  mkSsa [mkSsaBlock 0 [0; 1] [mkSsaInstr 0 0 first (map fst operands) (map snd operands) (Some 2) (Some 0%Z);
                              mkSsaInstr 0 1 second [2] [0%Z] (Some 3) (Some 1%Z)];
         mkSsaBlock 1 [4] [mkSsaInstr 0 2 Op.JumpIfTrue [4] [1%Z] None None];
         mkSsaBlock 2 [] [mkSsaInstr 0 3 Op.Add [4; 4] [1%Z; 1%Z] (Some 7) (Some 1%Z);
                          mkSsaInstr 0 4 Op.Jump [] [] None None];
         mkSsaBlock 3 [5; 6] [mkSsaInstr 0 5 Op.ReturnValue [5] [0%Z] None None]]
        [mkValueData 0 (ValueDef.Param 0 0) 0;
         mkValueData 1 (ValueDef.Param 1 1) 0;
         mkValueData 2 (ValueDef.OpResult 0 0 first (map fst operands)) 0;
         mkValueData 3 (ValueDef.OpResult 0 1 second [2]) 0;
         mkValueData 4 (ValueDef.Phi 1 1 [3; 7]) 1;
         mkValueData 5 (ValueDef.ExceptionInput 3 0) 3;
         mkValueData 6 (ValueDef.ExceptionInput 3 1) 3;
         mkValueData 7 (ValueDef.OpResult 0 3 Op.Add [4; 4]) 2]
        0 2 [mkSsaFrame 2 2 None].

(** The feedback of the three operations. *)
Definition numeric_tree (first second sum : Z) : list InlineFrame :=
  [mkFrame (map (mkMeta None) [first; second; 0; sum; 0; 0]%Z)].

(** A constant stored and summed with doubles: the merge is a double. *)
Definition counter_ssa : SsaFunction := numeric_ssa Op.LoadInt32 [] Op.StoreLocal.
Definition counter_tree : list InlineFrame := numeric_tree 0 0 (ARITH_INT32 + ARITH_FLOAT64).

(** [a % b + k] on integers: the remainder of two int32 is an int32, so both sites
    saw only int32 operands. *)
Definition remainder_ssa : SsaFunction := numeric_ssa Op.Rem [(0, 0%Z); (1, 1%Z)] Op.AddImm.
Definition remainder_tree : list InlineFrame := numeric_tree ARITH_INT32 ARITH_INT32 ARITH_INT32.

Lemma counter_verified : ssa_verify counter_ssa sample_cfg sample_tree = Ok tt.
Proof. vm_compute. reflexivity. Qed.

Lemma counter_no_inline : inline_inputs_dominated counter_ssa sample_cfg.
Proof.
  intros i b v d owner register ins j p u _ _ Hd Hdef.
  do 8 (destruct v as [|v]; [injection Hd as <-; discriminate Hdef|]). done.
Qed.

Lemma counter_frames : frames_exist counter_tree counter_ssa.
Proof.
  intros b i Hb Hi. apply list_elem_of_In in Hb. apply list_elem_of_In in Hi. simpl in Hb.
  decompose [or] Hb; subst; try done; simpl in Hi; decompose [or] Hi; subst; try done; simpl; lia.
Qed.

Lemma counter_moves : moves_shaped counter_ssa.
Proof.
  intros b i Hb Hi Ht. apply list_elem_of_In in Hb. apply list_elem_of_In in Hi. simpl in Hb.
  decompose [or] Hb; subst; try done; simpl in Hi; decompose [or] Hi; subst; try done; simpl; eauto.
Qed.

Lemma counter_sites : distinct_sites counter_ssa.
Proof. apply (bool_decide_unpack _). vm_compute. reflexivity. Qed.

Definition counter_map : ReprMap :=
  match repr_compute (E := ReprError) counter_tree counter_ssa with Ok m => m | _ => mkReprMap [] [] end.

Lemma counter_computed : repr_compute (E := ReprError) counter_tree counter_ssa = Ok counter_map.
Proof. vm_compute. reflexivity. Qed.




(** The remainder of two integers is held as a double and the addition requires an
    integer: the representations the compiler computed are rejected by its own
    check, although the feedback of both operations is all int32. *)
Example remainder_rejected :
  ssa_verify remainder_ssa sample_cfg sample_tree = Ok tt
  /\ Pipeline.analyze remainder_tree sample_cfg remainder_ssa swap_budget
     = Err (Pipeline.RepresentationVerification (ReprError.UnsupportedConversion 1 0 Float64 Int32)).
Proof. vm_compute. auto. Qed.
