(* ===== verification/FrameProps.v ===== *)
(** Deoptimization frame states: the walk with its stacks computes, before every
    instruction, the nearest definition of each register up the dominator forest,
    and the homes given to the values of a state are its own. *)

From stdpp Require Import gmap sorting.
From S2P Require Import Prelude Slices Opcode Cfg CfgProps Dom RpoProps DomProps Dominance DomChecks Ssa SsaProps Liveness LivenessProps LivenessChecks Repr Regalloc Moves Allocate FrameState MoveProps ScanProps LinearProps IntervalProps EdgeProps AllocProps ReprProps.
#[local] Set Warnings "-clear-no-such-hyp".

(** ** The registers as an environment *)

Section Reaching.
Context (call_sites : list (option InlineCallSite)) (ssa : SsaFunction) (g : ControlFlowGraph).
#[local] Abbreviation Env := (list (option ValueId)).

Fixpoint env_arguments (inline : InlineId) (site : InlineCallSite) (parameter : nat) (l : list Z) (e : Env) : Env :=
  match l with
  | [] => e
  | argument :: l =>
      env_arguments inline site (S parameter) l
        match e !! variable ssa (site_parent site) argument with
        | Some (Some v) => <[variable ssa inline (Z.of_nat parameter) := Some v]> e
        | _ => e
        end
  end.

Fixpoint env_heads (inline : InlineId) (l : list ValueId) (e : Env) : Env :=
  match l with
  | [] => e
  | v :: l =>
      env_heads inline l
        match d ← values ssa !! v; head_register (value_def d) with
        | Some r => <[variable ssa inline r := Some v]> e
        | None => e
        end
  end.

Definition env_result (inline : InlineId) (e : Env) (i : SsaInstr) : Env :=
  match result i, result_register i with
  | Some v, Some r => <[variable ssa inline r := Some v]> e
  | _, _ => e
  end.

(** The registers at the first instruction of a block, and at its end, from those
    at the end of its immediate dominator. *)
Definition entry_env (block : BlockId) (inline : InlineId) (heads : list ValueId) (e : Env) : Env :=
  env_heads inline heads
    (if bool_decide (frame_entries g !! inline = Some block) then
       match call_sites !! inline with
       | Some (Some site) => env_arguments inline site 0 (argument_registers site) e
       | _ => e
       end
     else e).

Definition before (block : BlockId) (inline : InlineId) (b : SsaBlock) (k : nat) (e : Env) : Env :=
  foldl (env_result inline) (entry_env block inline (phis b) e) (take k (instrs b)).

(** The definitions that reach a block: none at a root of the dominator forest,
    those at the end of the immediate dominator elsewhere. *)
Inductive reaching (t : DominatorTree) : BlockId -> Env -> Prop :=
| reaching_root b : idom t !! b = Some None -> reaching t b (replicate (total_registers ssa) None)
| reaching_child p b cp bp e : idom t !! b = Some (Some p) -> blocks g !! p = Some cp -> ssa_blocks ssa !! p = Some bp ->
    reaching t p e -> reaching t b (before p (block_inline cp) bp (length (instrs bp)) e).

(** The window of a frame. *)
Definition env_window (inline : InlineId) (count : Z) (e : Env) : Env :=
  take (Z.to_nat count) (drop (Z.to_nat (register_base ssa inline)) e).

Fixpoint block_states (block : BlockId) (inline : InlineId) (count : Z) (l : list SsaInstr) (e : Env)
    : list AbstractFrameState :=
  match l with
  | [] => []
  | i :: l => mkState inline (instr_pc i) block (env_window inline count e) None
              :: block_states block inline count l (env_result inline e i)
  end.

(** What the walk relies on: registers are unsigned and fit the windows, every
    frame has its entry among the call sites, and calls name registers of the
    frames they connect. *)
Record unit_ok : Prop := {
  uo_frames : forall f, f ∈ frames ssa -> (0 <= frame_register_count f)%Z;
  uo_total : (Z.of_nat (total_registers ssa) <= u16_max)%Z;
  uo_heads : forall v d r, values ssa !! v = Some d -> head_register (value_def d) = Some r -> (0 <= r)%Z;
  uo_results : forall b i r, b ∈ ssa_blocks ssa -> i ∈ instrs b -> result_register i = Some r -> (0 <= r)%Z;
  uo_cover : length call_sites = length (frames ssa);
  uo_sites : forall i site, call_sites !! i = Some (Some site) ->
    exists f fp, frames ssa !! i = Some f /\ frames ssa !! site_parent site = Some fp
    /\ (Z.of_nat (length (argument_registers site)) <= frame_register_count f)%Z
    /\ Forall (fun a => 0 <= a < frame_register_count fp)%Z (argument_registers site)
}.

Context (Huo : unit_ok) (full : DominatorTree) (Hssa : ssa_wf ssa g full).

(** The one error of the walk: a result outside the window of its frame. *)
Definition result_beyond (e : FrameStateError) : Prop :=
  exists b i r f, b ∈ ssa_blocks ssa /\ i ∈ instrs b /\ result_register i = Some r /\ f ∈ frames ssa
  /\ (frame_register_count f <= r)%Z /\ e = FrameStateError.ResultRegisterOutOfRange (instr_pc i) r (frame_register_count f).

(** ** The windows *)

Lemma register_base_sum inline : inline <= length (frames ssa) ->
  register_base ssa inline = Z.of_nat (sum_list (map (fun f => Z.to_nat (frame_register_count f)) (take inline (frames ssa)))).
Proof.
  intros Hi. unfold register_base. pose proof (uo_frames Huo) as Hf. pose proof (uo_total Huo) as Ht. unfold total_registers in Ht.
  rewrite <- (take_drop inline (frames ssa)) in Ht. rewrite map_app, sum_list_with_app in Ht.
  assert (Hpre : forall f, f ∈ take inline (frames ssa) -> (0 <= frame_register_count f)%Z).
  { intros f Hin. apply Hf. rewrite <- (take_drop inline (frames ssa)). apply elem_of_app. by left. }
  revert Hpre Ht. generalize (take inline (frames ssa)). intros l. unfold u16_max.
  induction l as [|f l IH] using rev_ind; intros Hpre Ht; [done|]. rewrite foldl_app. cbn [foldl].
  rewrite map_app in *. cbn [map] in *. rewrite !sum_list_with_app in *. cbn [sum_list_with id] in *.
  rewrite IH; [|intros x Hx; apply Hpre, elem_of_app; by left|lia].
  pose proof (Hpre f ltac:(apply elem_of_app; right; by left)).
  rewrite Z.mod_small; lia.
Qed.

Lemma window_le inline f : frames ssa !! inline = Some f ->
  Z.to_nat (register_base ssa inline) + Z.to_nat (frame_register_count f) <= total_registers ssa.
Proof.
  intros Hf. rewrite register_base_sum by (apply lookup_lt_Some in Hf; lia). rewrite Nat2Z.id. unfold total_registers.
  rewrite <- (take_drop_middle (frames ssa) inline f Hf) at 2. rewrite map_app, sum_list_with_app. cbn [map sum_list_with id]. lia.
Qed.

Lemma variable_lt inline f r : frames ssa !! inline = Some f -> (0 <= r < frame_register_count f)%Z ->
  variable ssa inline r < total_registers ssa.
Proof. intros Hf Hr. pose proof (window_le inline f Hf). unfold variable. lia. Qed.

(** ** One block *)

Definition env_of (s : list (list ValueId)) : Env := map head s.

(** A walk that can be undone to the stacks it began with. *)
Record undoes (s0 : list (list ValueId)) (w : Walk) : Prop := {
  un_len : length (stacks w) = total_registers ssa;
  un_pop : forall E, pop_slots (E := E) (pushed w) (stacks w) = Ok s0
}.

Lemma push_slot_Ok {E} s0 w slot v : undoes s0 w -> slot < total_registers ssa ->
  exists w', push_slot (E := E) w slot v = Ok w' /\ undoes s0 w' /\ env_of (stacks w') = <[slot := Some v]> (env_of (stacks w)).
Proof.
  intros [Hlen Hpop] Hslot. unfold push_slot. destruct (lookup_lt_is_Some_2 (stacks w) slot) as [st Hst]; [lia|].
  rewrite (proj2 (index_Ok _ _ _) Hst). cbn [rbind]. eexists. split_and!; [done|split|].
  - cbn [stacks]. by rewrite length_insert.
  - intros F. cbn [stacks pushed pop_slots]. unfold index. rewrite list_lookup_insert_eq by lia. cbn [rbind].
    rewrite list_insert_insert_eq, list_insert_id by done. apply Hpop.
  - cbn [stacks]. unfold env_of. by rewrite list_fmap_insert.
Qed.

Lemma env_of_lookup s slot st : s !! slot = Some st -> env_of s !! slot = Some (head st).
Proof. intros H. unfold env_of. by rewrite map_lookup, H. Qed.

Lemma bind_arguments_Ok block inline f site l : forall k s0 w, frames ssa !! inline = Some f ->
  (Z.of_nat (k + length l) <= frame_register_count f)%Z ->
  (exists fp, frames ssa !! site_parent site = Some fp /\ Forall (fun a => 0 <= a < frame_register_count fp)%Z l) ->
  undoes s0 w ->
  exists w', bind_arguments ssa block inline (frame_register_count f) site k l w = Ok w'
  /\ undoes s0 w' /\ env_of (stacks w') = env_arguments inline site k l (env_of (stacks w)).
Proof.
  induction l as [|a l IH]; intros k s0 w Hf Hlen (fp & Hfp & Hall) Hu; cbn [bind_arguments env_arguments]; [by exists w|].
  apply Forall_cons in Hall as [Ha Hall]. cbn [length] in Hlen.
  destruct (Z.ltb_spec u16_max (Z.of_nat k)); [pose proof (window_le inline f Hf); pose proof (uo_total Huo); lia|].
  pose proof (variable_lt _ fp a Hfp Ha) as Hlt. destruct (lookup_lt_is_Some_2 (stacks w) (variable ssa (site_parent site) a)) as [st Hst].
  { by rewrite (un_len _ _ Hu). }
  rewrite (proj2 (index_Ok _ _ _) Hst), (env_of_lookup _ _ _ Hst). cbn [rbind]. destruct st as [|v st]; cbn [head rbind].
  - apply IH; [done|lia|eauto|done].
  - destruct (push_slot_Ok (E := FrameStateError) s0 w (variable ssa inline (Z.of_nat k)) v Hu) as (w' & -> & Hu' & He').
    { apply (variable_lt inline f); [done|lia]. }
    cbn [rbind]. rewrite <- He'. apply IH; [done|lia|eauto|done].
Qed.

Lemma push_block_heads_Ok block cb b f l : forall s0 w, blocks g !! block = Some cb -> ssa_blocks ssa !! block = Some b ->
  frames ssa !! block_inline cb = Some f -> (forall v, v ∈ l -> v ∈ phis b) -> undoes s0 w ->
  exists w', push_block_heads ssa block (block_inline cb) (frame_register_count f) l w = Ok w'
  /\ undoes s0 w' /\ env_of (stacks w') = env_heads (block_inline cb) l (env_of (stacks w)).
Proof.
  induction l as [|v l IH]; intros s0 w Hcb Hb Hf Hl Hu; cbn [push_block_heads env_heads]; [by exists w|].
  assert (Hphi : v ∈ phis b) by (apply Hl; by left). assert (Hl' : forall u, u ∈ l -> u ∈ phis b) by (intros u ?; apply Hl; by right).
  destruct (sw_defined _ _ _ Hssa block b v Head Hb ltac:(by constructor)) as (d & Hv & _). rewrite Hv. cbn [mbind option_bind].
  destruct (head_register (value_def d)) as [r|] eqn:Hr; [|by apply IH].
  pose proof (sw_head_register _ _ _ Hssa block b v d r cb f Hb Hphi Hv Hr Hcb Hf).
  destruct (Z.leb_spec (frame_register_count f) r); [lia|].
  pose proof (uo_heads Huo v d r Hv Hr).
  destruct (push_slot_Ok (E := FrameStateError) s0 w (variable ssa (block_inline cb) r) v Hu) as (w' & -> & Hu' & He').
  { apply (variable_lt (block_inline cb) f); [done|lia]. }
  cbn [rbind]. rewrite <- He'. by apply IH.
Qed.

Lemma push_result_Ok block b k inline f i s0 w : ssa_blocks ssa !! block = Some b -> instrs b !! k = Some i ->
  frames ssa !! inline = Some f -> undoes s0 w ->
  match push_result ssa inline (frame_register_count f) i w with
  | Ok w' => undoes s0 w' /\ env_of (stacks w') = env_result inline (env_of (stacks w)) i
  | Err e => result_beyond e
  | _ => False
  end.
Proof.
  intros Hb Hi Hf Hu. unfold push_result, env_result. destruct (sw_instr _ _ _ Hssa block b k i Hb Hi) as [Hres _].
  pose proof (list_elem_of_lookup_2 _ _ _ Hb) as Hbin. pose proof (list_elem_of_lookup_2 _ _ _ Hi) as Hiin.
  destruct (result i) as [v|] eqn:Hv, (result_register i) as [r|] eqn:Hr; [|by destruct Hres as [[? [=]] _]|by destruct Hres as [_ [? [=]]]|done].
  destruct (sw_defined _ _ _ Hssa block b v (Instruction k) Hb ltac:(by eapply defines_instr)) as (d & -> & _).
  destruct (Z.leb_spec (frame_register_count f) r).
  { exists b, i, r, f. split_and!; try done. by eapply list_elem_of_lookup_2. }
  pose proof (uo_results Huo b i r Hbin Hiin Hr).
  destruct (push_slot_Ok (E := FrameStateError) s0 w (variable ssa inline r) v Hu) as (w' & -> & Hu' & He'); [|done].
  apply (variable_lt inline f); [done|lia].
Qed.

Lemma window_Ok {E} inline f s0 w : frames ssa !! inline = Some f -> undoes s0 w ->
  window (E := E) ssa inline (frame_register_count f) (stacks w) = Ok (env_window inline (frame_register_count f) (env_of (stacks w))).
Proof.
  intros Hf Hu. unfold window, env_window, env_of. pose proof (window_le inline f Hf). rewrite (un_len _ _ Hu).
  destruct (Nat.ltb_spec (total_registers ssa) (Z.to_nat (register_base ssa inline) + Z.to_nat (frame_register_count f))); [lia|].
  by rewrite skipn_map, firstn_map.
Qed.

Lemma walk_instrs_Ok block b inline f l : forall k s0 w states, ssa_blocks ssa !! block = Some b -> l = drop k (instrs b) ->
  frames ssa !! inline = Some f -> undoes s0 w ->
  match walk_instrs ssa block inline (frame_register_count f) l w states with
  | Ok (w', states') => undoes s0 w' /\ env_of (stacks w') = foldl (env_result inline) (env_of (stacks w)) l
      /\ states' = states ++ block_states block inline (frame_register_count f) l (env_of (stacks w))
  | Err e => result_beyond e
  | _ => False
  end.
Proof.
  induction l as [|i l IH]; intros k s0 w states Hb Hl Hf Hu; cbn [walk_instrs foldl block_states]; [by rewrite app_nil_r|].
  rewrite (window_Ok inline f s0 w Hf Hu). cbn [rbind].
  assert (Hi : instrs b !! k = Some i). { pose proof (lookup_drop (instrs b) k 0) as H. by rewrite <- Hl, Nat.add_0_r in H. }
  assert (Hl' : l = drop (S k) (instrs b)) by (by rewrite <- Nat.add_1_r, <- drop_drop, <- Hl).
  pose proof (push_result_Ok block b k inline f i s0 w Hb Hi Hf Hu) as Hp.
  destruct (push_result ssa inline (frame_register_count f) i w) as [w1|e| |]; cbn [rbind]; [|done..]. destruct Hp as [Hu1 He1].
  specialize (IH (S k) s0 w1 (states ++ [mkState inline (instr_pc i) block (env_window inline (frame_register_count f) (env_of (stacks w))) None])
    Hb Hl' Hf Hu1). rewrite <- He1.
  destruct (walk_instrs _ _ _ _ l _ _) as [[w' states']|e| |]; [|done..]. destruct IH as (? & ? & ->).
  split_and!; [done|done|]. by rewrite <- app_assoc.
Qed.

(** The states of a block, from the registers that reach it. *)
Definition states_from (block : BlockId) (e : Env) : list AbstractFrameState :=
  match blocks g !! block, ssa_blocks ssa !! block with
  | Some cb, Some b =>
      match frames ssa !! block_inline cb with
      | Some f => block_states block (block_inline cb) (frame_register_count f) (instrs b)
                    (entry_env block (block_inline cb) (phis b) e)
      | None => []
      end
  | _, _ => []
  end.

Lemma enter_block_Ok block s states : block < length (blocks g) ->
  length s = total_registers ssa ->
  match enter_block call_sites ssa g block s states with
  | Ok (w, states') => undoes s w /\ states' = states ++ states_from block (env_of s)
      /\ exists cb b, blocks g !! block = Some cb /\ ssa_blocks ssa !! block = Some b
      /\ env_of (stacks w) = before block (block_inline cb) b (length (instrs b)) (env_of s)
  | Err e => result_beyond e
  | _ => False
  end.
Proof.
  intros Hblock Hs. pose proof (sw_len _ _ _ Hssa) as Hlen. assert (Hu : undoes s (mkWalk s [])) by done.
  destruct (lookup_lt_is_Some_2 (blocks g) block Hblock) as [cb Hcb]. destruct (lookup_lt_is_Some_2 (ssa_blocks ssa) block) as [b Hb]; [lia|].
  destruct (sw_frames _ _ _ Hssa block b Hb) as (cb' & Hcb' & Hif & Hie). assert (cb' = cb) as -> by congruence.
  assert (Hic : block_inline cb < length call_sites) by (by rewrite (uo_cover Huo)).
  destruct (lookup_lt_is_Some_2 _ _ Hif) as [f Hf]. destruct (lookup_lt_is_Some_2 _ _ Hic) as [site Hsite].
  destruct (lookup_lt_is_Some_2 _ _ Hie) as [fe Hfe].
  unfold enter_block, states_from. rewrite Hcb, Hb, Hf, (proj2 (index_Ok _ _ _) Hcb). cbn [rbind].
  rewrite (proj2 (index_Ok _ _ _) Hf). cbn [rbind]. rewrite (proj2 (index_Ok _ _ _) Hfe). cbn [rbind].
  set (args := if block =? fe then _ else _).
  assert (Hargs : exists w, args = Ok w /\ undoes s w
    /\ env_of (stacks w) = (if bool_decide (frame_entries g !! block_inline cb = Some block) then
       match call_sites !! block_inline cb with
       | Some (Some site) => env_arguments (block_inline cb) site 0 (argument_registers site) (env_of s)
       | _ => env_of s
       end else env_of s)).
  { subst args. rewrite Hfe, Hsite. destruct (Nat.eqb_spec block fe) as [-> |Hne].
    - rewrite bool_decide_true by done. rewrite (proj2 (index_Ok _ _ _) Hsite). cbn [rbind]. destruct site as [site|]; [|by eexists].
      destruct (uo_sites Huo _ _ Hsite) as (f' & fp & Hf' & Hfp & Hlen' & Hall). assert (f' = f) as -> by congruence.
      apply (bind_arguments_Ok fe (block_inline cb) f site (argument_registers site) 0 s (mkWalk s [])); eauto.
    - rewrite bool_decide_false by congruence. by eexists. }
  destruct Hargs as (w & -> & Hu1 & He1). cbn [rbind]. rewrite (proj2 (index_Ok _ _ _) Hb). cbn [rbind].
  destruct (push_block_heads_Ok block cb b f (phis b) s w Hcb Hb Hf ltac:(done) Hu1) as (w1 & -> & Hu2 & He2). cbn [rbind].
  rewrite He1 in He2. change (env_heads _ _ _) with (entry_env block (block_inline cb) (phis b) (env_of s)) in He2.
  pose proof (walk_instrs_Ok block b (block_inline cb) f (instrs b) 0 s w1 states Hb eq_refl Hf Hu2) as Hw.
  destruct (walk_instrs _ _ _ _ _ _ _) as [[w' states']|e| |]; [|done..]. destruct Hw as (? & He' & ->). rewrite He2 in *.
  split_and!; [done|done|]. exists cb, b. split_and!; [done|done|]. unfold before. by rewrite firstn_all.
Qed.

(** ** The walk of the forest *)

Section Forest.
Context (t : DominatorTree) (num : nat -> nat).
#[local] Abbreviation n := (length (blocks g)).
Context (Hnd : NoDup (rpo t)) (Hall : forall x, x ∈ rpo t <-> x < n).
Context (Hpar : forall x, x < n -> idom t !! x = Some None
  \/ exists p, idom t !! x = Some (Some p) /\ p < n /\ num x < num p /\ num p < n).

Definition kids (p : BlockId) : list BlockId := filter (fun x => idom t !! x = Some (Some p)) (rpo t).

Lemma parent_Ok {E} x : x < n -> exists p, immediate_dominator (E := E) t x = Ok p /\ idom t !! x = Some p
  /\ forall q, p = Some q -> q < n.
Proof.
  intros Hx. unfold immediate_dominator, index. destruct (Hpar x Hx) as [-> |(p & -> & Hp & _)]; eexists; split_and!; try done.
  by intros q [= <-].
Qed.

Lemma children_of_Ok {E} l : forall cs, (forall x, x ∈ l -> x < n) -> length cs = n ->
  exists cs', children_of (E := E) t l cs = Ok cs' /\ length cs' = n
  /\ forall p, cs' !! p = (fun c => c ++ filter (fun x => idom t !! x = Some (Some p)) l) <$> cs !! p.
Proof.
  induction l as [|x l IH]; intros cs Hl Hlen; cbn [children_of].
  { exists cs. split_and!; [done|done|]. intros p. destruct (cs !! p); [|done]. simpl. by rewrite app_nil_r. }
  destruct (parent_Ok (E := E) x (Hl x ltac:(by left))) as (q & -> & Hq & Hqn). cbn [rbind].
  assert (Hl' : forall y, y ∈ l -> y < n) by (intros y Hy; apply Hl; by right). destruct q as [q|].
  - specialize (Hqn q eq_refl). destruct (lookup_lt_is_Some_2 cs q) as [c Hc]; [lia|]. rewrite (proj2 (index_Ok _ _ _) Hc). cbn [rbind].
    destruct (IH (<[q := c ++ [x]]> cs) Hl' ltac:(by rewrite length_insert)) as (cs' & -> & Hlen' & Hcs').
    exists cs'. split_and!; [done|done|]. intros p. rewrite Hcs', filter_cons, Hq. destruct (decide (p = q)) as [-> |Hne].
    + rewrite list_lookup_insert_eq, Hc, decide_True by (done || lia). simpl. by rewrite <- app_assoc.
    + rewrite list_lookup_insert_ne, decide_False by congruence. done.
  - destruct (IH cs Hl' Hlen) as (cs' & -> & Hlen' & Hcs'). exists cs'. split_and!; [done|done|].
    intros p. by rewrite Hcs', filter_cons, Hq, decide_False.
Qed.

Lemma children_kids {E} : exists cs, children_of (E := E) t (rpo t) (replicate n []) = Ok cs
  /\ forall p, p < n -> cs !! p = Some (kids p).
Proof.
  destruct (children_of_Ok (E := E) (rpo t) (replicate n [])) as (cs & -> & _ & Hcs); [by intros x ?%Hall|apply length_replicate|].
  exists cs. split; [done|]. intros p Hp. by rewrite Hcs, lookup_replicate_2.
Qed.

Lemma forest_roots_Ok {E} l : (forall x, x ∈ l -> x < n) ->
  forest_roots (E := E) t l = Ok (filter (fun x => idom t !! x = Some None) l).
Proof.
  induction l as [|x l IH]; intros Hl; cbn [forest_roots]; [done|].
  destruct (parent_Ok (E := E) x (Hl x ltac:(by left))) as (q & -> & Hq & _). cbn [rbind].
  rewrite IH by (intros y Hy; apply Hl; by right). cbn [rbind]. rewrite filter_cons, Hq.
  by destruct q; [rewrite decide_False|rewrite decide_True].
Qed.

Definition pending (evs : list Event) : list BlockId := omap (fun e => match e with Enter b => Some b | Exit _ => None end) evs.

Definition exits (evs : list Event) : nat := length evs - length (pending evs).

(** The event stack: each block to enter will see the registers that reach it. *)
Fixpoint ok_events (s0 : list (list ValueId)) (evs : list Event) (s : list (list ValueId)) : Prop :=
  match evs with
  | [] => s = s0
  | Enter b :: evs => reaching t b (env_of s) /\ ok_events s0 evs s
  | Exit p :: evs => exists s', (forall E, pop_slots (E := E) p s = Ok s') /\ length s' = total_registers ssa /\ ok_events s0 evs s'
  end.

Record visiting (s0 : list (list ValueId)) (roots entered : list BlockId) (evs : list Event) (s : list (list ValueId))
    (states : list AbstractFrameState) : Prop := {
  vi_nodup : NoDup (pending evs ++ entered);
  vi_lt : forall x, x ∈ pending evs ++ entered -> x < n;
  vi_ok : ok_events s0 evs s;
  vi_len : length s = total_registers ssa;
  vi_up : forall x p, x ∈ pending evs ++ entered -> idom t !! x = Some (Some p) -> p ∈ entered;
  vi_down : forall p x, p ∈ entered -> x ∈ kids p -> x ∈ pending evs ++ entered;
  vi_roots : forall x, x ∈ pending evs ++ entered -> idom t !! x = Some None -> x ∈ roots;
  vi_states : exists log, states = flat_map (fun be => states_from be.1 be.2) log /\ map fst log ≡ₚ entered
    /\ Forall (fun be => reaching t be.1 be.2) log
}.

Lemma elem_of_kids p x : x ∈ kids p <-> idom t !! x = Some (Some p) /\ x < n.
Proof. unfold kids. by rewrite list_elem_of_filter, Hall. Qed.

Lemma pending_children cs evs : pending (map Enter cs ++ evs) = cs ++ pending evs.
Proof. induction cs as [|c cs IH]; [done|]. unfold pending in *. simpl. f_equal. exact IH. Qed.

Lemma pending_le evs : length (pending evs) <= length evs.
Proof.
  induction evs as [|[b|p] evs IH]; [done|..].
  - change (pending (Enter b :: evs)) with (b :: pending evs). simpl. lia.
  - change (pending (Exit p :: evs)) with (pending evs). simpl. lia.
Qed.

Lemma ok_children s0 cs evs s : (forall c, c ∈ cs -> reaching t c (env_of s)) -> ok_events s0 evs s ->
  ok_events s0 (map Enter cs ++ evs) s.
Proof.
  induction cs as [|c cs IH]; intros Hc Hok; [done|]. simpl. split; [apply Hc; by left|]. apply IH; [|done].
  intros x Hx. apply Hc. by right.
Qed.

(** Entering a block. *)
Lemma visiting_enter s0 roots entered b evs s states w cb bb : visiting s0 roots entered (Enter b :: evs) s states ->
  undoes s w -> blocks g !! b = Some cb -> ssa_blocks ssa !! b = Some bb ->
  env_of (stacks w) = before b (block_inline cb) bb (length (instrs bb)) (env_of s) ->
  visiting s0 roots (b :: entered) (map Enter (kids b) ++ Exit (pushed w) :: evs) (stacks w)
    (states ++ states_from b (env_of s)).
Proof.
  intros Hv Hu Hcb Hbb He. pose proof (vi_nodup _ _ _ _ _ _ Hv) as Hn. pose proof (vi_lt _ _ _ _ _ _ Hv) as Hlt.
  change (pending (Enter b :: evs)) with (b :: pending evs) in *. destruct (vi_ok _ _ _ _ _ _ Hv) as [Hb Hok].
  cbn [app] in Hn. apply NoDup_cons in Hn as [Hbn Hn]. rewrite elem_of_app in Hbn.
  assert (Hpend : pending (map Enter (kids b) ++ Exit (pushed w) :: evs) = kids b ++ pending evs) by (by rewrite pending_children).
  assert (Hfresh : forall x, x ∈ kids b -> x <> b /\ x ∉ pending evs ++ entered).
  { intros x [Hx Hxn]%elem_of_kids. assert (Hno : x ∈ (b :: pending evs) ++ entered -> False).
    { intros Hin. apply Hbn. right. by apply (vi_up _ _ _ _ _ _ Hv x b). }
    split; [intros ->; apply Hno; by left|]. intros Hin. apply Hno. by right. }
  assert (Hin : forall x, x ∈ (kids b ++ pending evs) ++ b :: entered <-> x ∈ kids b \/ x = b \/ x ∈ pending evs ++ entered).
  { intros x. rewrite !elem_of_app, elem_of_cons. tauto. }
  assert (Hold : forall x, x = b \/ x ∈ pending evs ++ entered <-> x ∈ (b :: pending evs) ++ entered).
  { intros x. cbn [app]. by rewrite elem_of_cons. }
  split; rewrite ?Hpend.
  - rewrite <- app_assoc. apply NoDup_app. split_and!; [by apply NoDup_filter| |].
    + intros x Hx Hx'. destruct (Hfresh x Hx) as [Hne Hnot]. apply Hnot. rewrite elem_of_app in *. rewrite elem_of_cons in Hx'. tauto.
    + rewrite <- Permutation_middle. constructor; [by rewrite elem_of_app|done].
  - intros x [Hx|Hx%Hold]%Hin; [by apply elem_of_kids in Hx as [_ ?]|by apply Hlt].
  - apply ok_children.
    + intros c [Hc _]%elem_of_kids. rewrite He. by apply (reaching_child t b c cb bb (env_of s)).
    + exists s. split_and!; [apply Hu|apply Hv|done].
  - apply Hu.
  - intros x p [Hx|Hx%Hold]%Hin Hp; [|right; by apply (vi_up _ _ _ _ _ _ Hv x p)].
    apply elem_of_kids in Hx as [Hx _]. assert (p = b) as -> by congruence. by left.
  - intros p x [-> |Hp]%elem_of_cons Hx; apply Hin; [by left|]. right. apply Hold. by apply (vi_down _ _ _ _ _ _ Hv p x).
  - intros x [Hx|Hx%Hold]%Hin Hr; [|by apply (vi_roots _ _ _ _ _ _ Hv)]. apply elem_of_kids in Hx as [Hx _]. congruence.
  - destruct (vi_states _ _ _ _ _ _ Hv) as (log & -> & Hp & Hr). exists (log ++ [(b, env_of s)]).
    rewrite flat_map_app, map_app, Forall_app. simpl. rewrite app_nil_r. split_and!; [done| |done|by repeat constructor].
    rewrite Hp. by rewrite (Permutation_app_comm entered [b]).
Qed.

Lemma visiting_exit s0 roots entered p evs s states s' : visiting s0 roots entered (Exit p :: evs) s states ->
  pop_slots (E := FrameStateError) p s = Ok s' -> visiting s0 roots entered evs s' states.
Proof.
  intros [? ? Hok ? ? ? ? ?] Hpop. destruct Hok as (s1 & Hpop1 & Hlen & Hok). rewrite Hpop1 in Hpop. injection Hpop as <-.
  by split.
Qed.

Lemma walk_loop_Ok cs s0 roots fuel : forall entered evs s states, (forall p, p < n -> cs !! p = Some (kids p)) ->
  visiting s0 roots entered evs s states -> 2 * (n - length entered) + exits evs < fuel ->
  match walk_loop call_sites ssa g fuel cs evs s states with
  | Ok (s', states') => s' = s0 /\ exists entered', visiting s0 roots entered' [] s0 states' /\ pending evs ++ entered ⊆ entered'
  | Err e => result_beyond e
  | _ => False
  end.
Proof.
  induction fuel as [|fuel IH]; intros entered evs s states Hcs Hv Hf; [lia|]. cbn [walk_loop]. destruct evs as [|[b|p] evs].
  - destruct (vi_ok _ _ _ _ _ _ Hv). split; [done|]. by exists entered.
  - assert (Hb : b < n) by (apply (vi_lt _ _ _ _ _ _ Hv); by left).
    pose proof (enter_block_Ok b s states Hb (vi_len _ _ _ _ _ _ Hv)) as He.
    destruct (enter_block _ _ _ b s states) as [[w states1]|e| |]; cbn [rbind]; [|done..].
    destruct He as (Hu & -> & cb & bb & Hcb & Hbb & Henv). rewrite (proj2 (index_Ok _ _ _) (Hcs b Hb)). cbn [rbind].
    pose proof (visiting_enter _ _ _ _ _ _ _ w cb bb Hv Hu Hcb Hbb Henv) as Hv'.
    assert (Hlen : S (length entered) <= n).
    { pose proof (NoDup_length_le (pending (Enter b :: evs) ++ entered) (seq 0 n) (vi_nodup _ _ _ _ _ _ Hv)) as H.
      rewrite length_app, length_seq in H. cbn in H. apply Nat.le_trans with (S (length (pending evs) + length entered)); [lia|].
      apply H. intros x Hx. apply elem_of_seq. pose proof (vi_lt _ _ _ _ _ _ Hv x Hx). lia. }
    specialize (IH _ _ _ _ Hcs Hv'). unfold exits in IH, Hf. rewrite pending_children, !length_app, length_map in IH.
    cbn [length] in IH, Hf. change (pending (Exit _ :: evs)) with (pending evs) in *. change (pending (Enter b :: evs)) with (b :: pending evs) in *.
    cbn [length] in Hf. pose proof (pending_le evs). specialize (IH ltac:(lia)).
    destruct (walk_loop _ _ _ _ _ _ _ _) as [[s' states']|e| |]; [|done..]. destruct IH as (? & entered' & Hv2 & Hsub).
    split; [done|]. exists entered'. split; [done|]. intros x Hx. apply Hsub. rewrite !elem_of_app, ?elem_of_cons in *. tauto.
  - destruct (vi_ok _ _ _ _ _ _ Hv) as (s1 & Hpop & _ & _). rewrite (Hpop FrameStateError). cbn [rbind].
    pose proof (visiting_exit _ _ _ _ _ _ _ s1 Hv (Hpop _)) as Hv'.
    change (pending (Exit p :: evs)) with (pending evs). apply IH; [done|done|]. unfold exits in *.
    change (pending (Exit p :: evs)) with (pending evs) in *. cbn [length] in Hf. pose proof (pending_le evs). lia.
Qed.

#[local] Abbreviation s0 := (replicate (total_registers ssa) []).

Lemma env_of_start : env_of s0 = replicate (total_registers ssa) None.
Proof. unfold env_of. by rewrite fmap_replicate. Qed.

Lemma visiting_root roots entered states r : visiting s0 roots entered [] s0 states -> idom t !! r = Some None -> r < n ->
  r ∉ roots -> visiting s0 (r :: roots) entered [Enter r] s0 states.
Proof.
  intros Hv Hr Hrn Hnot. assert (Hfresh : r ∉ entered) by (intros Hin; apply Hnot, (vi_roots _ _ _ _ _ _ Hv); done).
  split; change (pending [Enter r]) with [r]; cbn [app].
  - constructor; [done|apply (vi_nodup _ _ _ _ _ _ Hv)].
  - intros x [-> |Hx]%elem_of_cons; [done|by apply (vi_lt _ _ _ _ _ _ Hv)].
  - split; [|done]. rewrite env_of_start. by constructor.
  - apply length_replicate.
  - intros x p [-> |Hx]%elem_of_cons Hp; [congruence|by apply (vi_up _ _ _ _ _ _ Hv x p)].
  - intros p x Hp Hx. right. by apply (vi_down _ _ _ _ _ _ Hv p x).
  - intros x [-> |Hx]%elem_of_cons Hn; [by left|]. right. by apply (vi_roots _ _ _ _ _ _ Hv).
  - apply (vi_states _ _ _ _ _ _ Hv).
Qed.

Lemma visiting_start : visiting s0 [] [] [] s0 [].
Proof.
  split; try (by intros ? ?%elem_of_nil); try (by intros ? ? ?%elem_of_nil); try done.
  - constructor.
  - apply length_replicate.
  - by exists [].
Qed.

Lemma walk_roots_Ok cs l : forall roots entered states, (forall p, p < n -> cs !! p = Some (kids p)) ->
  (forall r, r ∈ l -> idom t !! r = Some None /\ r < n) -> NoDup (l ++ roots) ->
  visiting s0 roots entered [] s0 states ->
  match walk_roots call_sites ssa g cs l s0 states with
  | Ok states' => exists roots' entered', visiting s0 roots' entered' [] s0 states' /\ l ⊆ entered' /\ entered ⊆ entered'
  | Err e => result_beyond e
  | _ => False
  end.
Proof.
  induction l as [|r l IH]; intros roots entered states Hcs Hl Hnd' Hv; cbn [walk_roots].
  { exists roots, entered. split_and!; [done|by intros x ?%elem_of_nil|done]. }
  cbn [app] in Hnd'. apply NoDup_cons in Hnd' as [Hrn Hnd']. destruct (Hl r ltac:(by left)) as [Hr Hrlt].
  assert (Hnot : r ∉ roots) by (intros ?; apply Hrn, elem_of_app; by right).
  pose proof (walk_loop_Ok cs s0 (r :: roots) (walk_fuel g) entered [Enter r] s0 states Hcs (visiting_root roots entered states r Hv Hr Hrlt Hnot)) as Hw.
  specialize (Hw ltac:(unfold walk_fuel, exits; cbn; lia)).
  destruct (walk_loop _ _ _ _ _ _ _ _) as [[s1 states1]|e| |]; cbn [rbind]; [|done..]. destruct Hw as (-> & entered1 & Hv1 & Hsub).
  specialize (IH (r :: roots) entered1 states1 Hcs (fun x Hx => Hl x ltac:(by right)) ltac:(rewrite <- Permutation_middle; by constructor) Hv1).
  destruct (walk_roots _ _ _ _ _ _ _) as [states'|e| |]; [|done..]. destruct IH as (roots' & entered' & Hv' & Hl' & He').
  exists roots', entered'. split_and!; [done| |].
  - intros x [-> |Hx]%elem_of_cons; [|by apply Hl']. apply He', Hsub. by left.
  - intros x Hx. apply He', Hsub. by right.
Qed.

Lemma all_entered roots entered states : visiting s0 roots entered [] s0 states ->
  (forall x, x < n -> idom t !! x = Some None -> x ∈ entered) -> forall x, x < n -> x ∈ entered.
Proof.
  intros Hv Hroots x. remember (n - num x) as k eqn:Hk. revert x Hk. induction k as [k IH] using lt_wf_ind. intros x -> Hx.
  destruct (Hpar x Hx) as [Hr|(p & Hp & Hpn & Hnum & Hnp)]; [by apply Hroots|].
  apply (vi_down _ _ _ _ _ _ Hv p x); [|by apply elem_of_kids]. apply (IH (n - num p)); [lia|done|done].
Qed.

(** Every block has one environment that reaches it. *)
Lemma reaching_unique b e e' : reaching t b e -> reaching t b e' -> e = e'.
Proof.
  intros H. revert e'. induction H as [b Hb|p b cp bp e Hb Hcp Hbp He IH]; intros e' H'; inversion H'; subst; try congruence.
  match goal with Hq : idom t !! b = Some (Some ?q) |- _ => assert (q = p) as -> by congruence end.
  simplify_eq. f_equal. by apply IH.
Qed.

(** The states of all blocks, in block order. *)
Definition expected_states (envs : list Env) : list AbstractFrameState :=
  flat_map (fun be => states_from be.1 be.2) (zip (seq 0 n) envs).

Lemma walk_states {E} cs : children_of (E := E) t (rpo t) (replicate n []) = Ok cs ->
  match walk_roots call_sites ssa g cs (filter (fun x => idom t !! x = Some None) (rpo t)) s0 [] with
  | Ok states => exists envs, length envs = n /\ (forall b e, envs !! b = Some e -> reaching t b e)
      /\ states ≡ₚ expected_states envs
  | Err e => result_beyond e
  | _ => False
  end.
Proof.
  intros Hcs. destruct (children_kids (E := E)) as (cs' & Hcs' & Hkids). rewrite Hcs in Hcs'. injection Hcs' as <-.
  pose proof (walk_roots_Ok cs (filter (fun x => idom t !! x = Some None) (rpo t)) [] [] [] Hkids) as Hw.
  specialize (Hw ltac:(by intros r [? ?%Hall]%list_elem_of_filter) ltac:(rewrite app_nil_r; by apply NoDup_filter) visiting_start).
  destruct (walk_roots _ _ _ _ _ _ _) as [states|e| |]; [|done..]. destruct Hw as (roots & entered & Hv & Hroots & _).
  assert (Hent : forall x, x < n -> x ∈ entered).
  { apply (all_entered roots entered states Hv). intros x Hx Hr. apply Hroots, list_elem_of_filter. split; [done|by apply Hall]. }
  destruct (vi_states _ _ _ _ _ _ Hv) as (log & -> & Hlog & Hreach).
  assert (Hperm : entered ≡ₚ seq 0 n).
  { apply NoDup_Permutation; [apply (vi_nodup _ _ _ _ _ _ Hv)|apply NoDup_seq|]. intros x. rewrite elem_of_seq.
    split; [intros Hx; pose proof (vi_lt _ _ _ _ _ _ Hv x Hx); lia|intros [_ Hx]; by apply Hent]. }
  rewrite Hperm in Hlog. symmetry in Hlog. apply Permutation_map_inv in Hlog as (log' & Hlog' & Hp).
  rewrite Forall_forall in Hreach. exists (map snd log').
  assert (Hzip : zip (seq 0 n) (map snd log') = log').
  { rewrite Hlog'. clear. induction log' as [|[x e] l IH]; [done|]. simpl. by rewrite IH. }
  assert (Hlen : length log' = n) by (apply (f_equal length) in Hlog'; by rewrite length_seq, length_map in Hlog').
  split_and!; [by rewrite length_map| |].
  - intros b e He. rewrite map_lookup in He. apply fmap_Some in He as ([b' e'] & Hb' & ->). simpl.
    assert (b' = b) as ->.
    { apply (f_equal (.!! b)) in Hlog'. rewrite map_lookup, Hb' in Hlog'. apply lookup_seq in Hlog' as [? _]. done. }
    apply (Hreach (b, e')). rewrite Hp. by eapply list_elem_of_lookup_2.
  - unfold expected_states. rewrite Hzip. by apply Permutation_flat_map.
Qed.
End Forest.
End Reaching.

(** ** Dominance without exception edges

    Handlers are roots of the analysis on normal edges, so a block that dominates
    there dominates on all edges. *)

Lemma route_sub g edges b l p : route g edges b l -> p ∈ l -> exists l', route g edges p l' /\ forall x, x ∈ l' -> x ∈ l.
Proof.
  induction 1 as [r Hr|u x l Hl IH Hux]; intros Hp.
  - apply list_elem_of_singleton in Hp as ->. exists [r]. split; [by constructor|done].
  - apply elem_of_cons in Hp as [-> |Hp].
    + exists (x :: l). split; [by apply (route_step g edges u)|done].
    + destruct (IH Hp) as (l' & ? & Hsub). exists l'. split; [done|]. intros y Hy. right. by apply Hsub.
Qed.

Lemma dominator_trans g edges a p b : dominator g edges a p -> dominator g edges p b -> dominator g edges a b.
Proof. intros Hap Hpb l Hl. destruct (route_sub g edges b l p Hl (Hpb l Hl)) as (l' & Hl' & Hsub). by apply Hsub, Hap. Qed.

Lemma route_normal g b l : route g Full b l -> exists l', route g Normal b l' /\ forall x, x ∈ l' -> x ∈ l.
Proof.
  induction 1 as [r Hr|u x l Hl IH (ub & Hub & Hx)].
  - apply list_elem_of_singleton in Hr as ->. exists [entry g]. split; [|done]. constructor. apply elem_of_canonicalize. by left.
  - destruct IH as (l' & Hl' & Hsub). unfold sel_succs in Hx. apply elem_of_app in Hx as [Hx|Hx].
    + exists (x :: l'). split; [|intros y [-> |Hy]%elem_of_cons; [by left|right; by apply Hsub]].
      apply (route_step g Normal u); [done|]. by exists ub.
    + exists [x]. split; [|intros y ->%list_elem_of_singleton; by left]. constructor. apply elem_of_canonicalize.
      right. apply list_elem_of_In, in_flat_map. exists ub. rewrite <- !list_elem_of_In. split; [by eapply list_elem_of_lookup_2|done].
Qed.

Lemma dominator_full g a b : dominator g Normal a b -> dominator g Full a b.
Proof. intros H l Hl. destruct (route_normal g b l Hl) as (l' & Hl' & Hsub). by apply Hsub, H. Qed.

(** ** The order of the table *)

Definition state_site (s : AbstractFrameState) : InlineId * Z := (state_inline s, state_pc s).

Lemma state_le_spec s s' : state_le s s' = true <-> site_lt (state_site s) (state_site s') \/ state_site s = state_site s'.
Proof.
  unfold state_le, site_lt, state_site. rewrite orb_true_iff, andb_true_iff, Nat.ltb_lt, Nat.eqb_eq, Z.leb_le. simpl.
  split; [|intros [[?|[? ?]]|[= -> ->]]; lia]. intros [?|[? ?]]; [by left; left|].
  destruct (decide (state_pc s = state_pc s')); [right; congruence|left; right; lia].
Qed.

Lemma state_le_total s s' : state_le s s' = true \/ state_le s' s = true.
Proof. rewrite !state_le_spec. unfold site_lt, state_site. simpl. destruct (decide (state_inline s = state_inline s')) as [->|], (decide (state_pc s = state_pc s')) as [->|]; try (left; by right); lia. Qed.

Lemma state_le_trans s1 s2 s3 : state_le s1 s2 = true -> state_le s2 s3 = true -> state_le s1 s3 = true.
Proof.
  unfold state_le. rewrite !orb_true_iff, !andb_true_iff, !Nat.ltb_lt, !Nat.eqb_eq, !Z.leb_le. lia.
Qed.

Lemma sorted_states_unique l : forall l', l' ≡ₚ l -> StronglySorted site_lt (map state_site l) ->
  StronglySorted (fun s s' => state_le s s' = true) l' -> l' = l.
Proof.
  induction l as [|x l IH]; intros l' Hp Hs Hs'; [by apply Permutation_nil_r in Hp|]. destruct l' as [|y l']; [by apply Permutation_nil_cons in Hp|].
  cbn [map] in Hs. apply StronglySorted_cons in Hs as [Hx Hs], Hs' as [Hy Hs']. rewrite Forall_forall in Hx. rewrite Forall_forall in Hy.
  assert (y = x) as ->.
  { assert (Hyin : y ∈ x :: l) by (rewrite <- Hp; by left). apply elem_of_cons in Hyin as [?|Hyin]; [done|].
    assert (Hxin : x ∈ y :: l') by (rewrite Hp; by left). apply elem_of_cons in Hxin as [?|Hxin]; [done|]. exfalso.
    specialize (Hx (state_site y) ltac:(apply list_elem_of_In, in_map, list_elem_of_In; done)). specialize (Hy x Hxin).
    apply state_le_spec in Hy as [Hy|Hy]; [|rewrite Hy in Hx]; unfold site_lt in *; lia. }
  f_equal. apply IH; [by apply Permutation_cons_inv in Hp|done|done].
Qed.

(** ** The table *)

Definition same_state (s s' : AbstractFrameState) : Prop :=
  state_inline s = state_inline s' /\ state_pc s = state_pc s' /\ state_block s = state_block s' /\ registers s = registers s'.

#[local] Instance same_state_preorder : PreOrder same_state.
Proof. split; [done|]. intros a b c (? & ? & ? & ?) (? & ? & ? & ?). split_and!; congruence. Qed.

(** A call site at which the table has no state. *)
Definition call_unknown (call_sites : list (option InlineCallSite)) (states : list AbstractFrameState) (e : FrameStateError) : Prop :=
  exists site, Some site ∈ call_sites /\ e = FrameStateError.ResultRegisterMismatch (call_pc site)
  /\ forall s, s ∈ states -> state_site s <> (site_parent site, call_pc site).

Lemma same_state_unknown l l' sites e : Forall2 same_state l l' -> call_unknown sites l' e -> call_unknown sites l e.
Proof.
  intros Hl (site & Hsite & He & Hno). exists site. split_and!; [done|done|]. intros s Hs.
  apply list_elem_of_lookup in Hs as [k Hk]. destruct (Forall2_lookup_l _ _ _ _ _ Hl Hk) as (s' & Hk' & Hi & Hp & _).
  pose proof (Hno s' ltac:(by eapply list_elem_of_lookup_2)) as H. unfold state_site in *. congruence.
Qed.

Lemma link_callers_Ok l : forall i states,
  match link_callers i l states with
  | Ok states' => Forall2 same_state states states'
  | Err e => call_unknown l states e
  | _ => False
  end.
Proof.
  assert (Hrefl : forall states, Forall2 same_state states states) by (intros states; apply Forall_Forall2_diag, Forall_forall; intros x _; reflexivity).
  assert (Hmono : forall o l states e, call_unknown l states e -> call_unknown (o :: l) states e).
  { intros o l0 states e (site & ? & ?). exists site. split; [by right|done]. }
  induction l as [|[site|] l IH]; intros i states; cbn [link_callers]; [done| |].
  - destruct (list_find _ states) as [[at_ s]|] eqn:Hfind.
    + set (states1 := map _ states). assert (Hs : Forall2 same_state states states1).
      { apply Forall2_fmap_r. apply Forall_Forall2_diag, Forall_forall. intros x _. simpl. destruct (state_inline x =? i); by split_and!. }
      specialize (IH (S i) states1). destruct (link_callers (S i) l states1) as [states'|e| |]; [|..|done|done].
      * by transitivity states1.
      * apply Hmono. by eapply same_state_unknown.
    + apply list_find_None in Hfind. rewrite Forall_forall in Hfind. exists site. split_and!; [by left|done|].
      intros s Hs [= H1 H2]. by apply (Hfind s).
  - specialize (IH (S i) states). destruct (link_callers (S i) l states) as [states'|e| |]; [done|by apply Hmono|done|done].
Qed.

(** The state of a spliced frame names the state of its call. *)
Definition linked (call_sites : list (option InlineCallSite)) (states : list AbstractFrameState) (s : AbstractFrameState) : Prop :=
  match call_sites !! state_inline s with
  | Some (Some site) => exists k c, caller s = Some k /\ states !! k = Some c /\ state_site c = (site_parent site, call_pc site)
  | _ => caller s = None
  end.

Lemma link_callers_linked l : forall i states states', link_callers i l states = Ok states' ->
  forall j s s', states !! j = Some s -> states' !! j = Some s' ->
  match (if state_inline s <? i then None else l !! (state_inline s - i)) with
  | Some (Some site) => exists k c, caller s' = Some k /\ states' !! k = Some c /\ state_site c = (site_parent site, call_pc site)
  | _ => caller s' = caller s
  end.
Proof.
  induction l as [|o l IH]; intros i states states' H j s s' Hs Hs'.
  { cbn in H. simplify_eq. by destruct (state_inline s <? i). }
  pose proof (link_callers_Ok (o :: l) i states) as Hsame. rewrite H in Hsame. cbn [link_callers] in H.
  assert (Hskip : state_inline s <> i -> (if state_inline s <? i then None else (o :: l) !! (state_inline s - i))
    = (if state_inline s <? S i then None else l !! (state_inline s - S i))).
  { intros Hne. destruct (Nat.ltb_spec (state_inline s) i), (Nat.ltb_spec (state_inline s) (S i)); try lia; try done.
    replace (state_inline s - i) with (S (state_inline s - S i)) by lia. done. }
  assert (Hhere : state_inline s = i -> (if state_inline s <? i then None else (o :: l) !! (state_inline s - i)) = Some o).
  { intros ->. rewrite Nat.ltb_irrefl, Nat.sub_diag. done. }
  assert (Hlow : state_inline s = i -> (if state_inline s <? S i then None else l !! (state_inline s - S i)) = None).
  { intros ->. by rewrite (proj2 (Nat.ltb_lt i (S i)) (Nat.lt_succ_diag_r i)). }
  destruct o as [site|].
  - destruct (list_find _ states) as [[at_ s0]|] eqn:Hfind; [|done]. apply list_find_Some in Hfind as (Hat & [Hi Hp] & _).
    set (link := fun s => if state_inline s =? i then mkState (state_inline s) (state_pc s) (state_block s) (registers s) (Some at_) else s) in H.
    assert (Hinl : state_inline (link s) = state_inline s) by (unfold link; by destruct (state_inline s =? i)).
    specialize (IH (S i) (map link states) states' H j (link s) s' ltac:(by rewrite map_lookup, Hs) Hs'). rewrite Hinl in IH.
    destruct (decide (state_inline s = i)) as [He|Hne].
    + rewrite (Hlow He) in IH. rewrite (Hhere He). unfold link in IH. rewrite He, Nat.eqb_refl in IH. cbn [caller] in IH.
      destruct (Forall2_lookup_l _ _ _ _ _ Hsame Hat) as (c & Hc & H1 & H2 & _). exists at_, c. split_and!; [done|done|].
      unfold state_site. congruence.
    + rewrite (Hskip Hne). assert (link s = s) as Hl. { unfold link. by destruct (Nat.eqb_spec (state_inline s) i). }
      by rewrite Hl in IH.
  - specialize (IH (S i) states states' H j s s' Hs Hs'). destruct (decide (state_inline s = i)) as [He|Hne].
    + rewrite (Hlow He) in IH. by rewrite (Hhere He).
    + by rewrite (Hskip Hne).
Qed.

Lemma for_each_i_cases {E A} (f : nat -> A -> res E unit) l : forall i,
  (for_each_i f i l = Ok tt /\ forall j x, l !! j = Some x -> f (i + j) x = Ok tt)
  \/ exists j x, l !! j = Some x /\ f (i + j) x <> Ok tt /\ for_each_i f i l = f (i + j) x.
Proof.
  induction l as [|x l IH]; intros i; cbn [for_each_i]; [by left|]. destruct (f i x) as [[]|e| |] eqn:Hx; cbn [rbind].
  2-4: right; exists 0, x; rewrite Nat.add_0_r, Hx; done.
  destruct (IH (S i)) as [[-> Hall]|(j & y & Hy & Hne & ->)].
  - left. split; [done|]. intros [|j] y Hy; simpl in Hy; [by simplify_eq; rewrite Nat.add_0_r|]. rewrite Nat.add_succ_r. by apply Hall.
  - right. exists (S j), y. by rewrite Nat.add_succ_r.
Qed.

(** An operand that disagrees with the register it was read from. *)
Definition operand_mismatch (ssa : SsaFunction) (i : SsaInstr) (regs : list (option ValueId)) (e : FrameStateError) : Prop :=
  exists k r v, zip (input_registers i) (inputs i) !! k = Some (r, v) /\ regs !! Z.to_nat r <> Some (Some v)
  /\ e = match regs !! Z.to_nat r with
         | None => FrameStateError.OperandRegisterOutOfRange (instr_pc i) k r (register_count ssa)
         | Some actual => FrameStateError.OperandValueMismatch (instr_pc i) k r v actual
         end.

Definition operands_agree (i : SsaInstr) (regs : list (option ValueId)) : Prop :=
  forall k r v, zip (input_registers i) (inputs i) !! k = Some (r, v) -> regs !! Z.to_nat r = Some (Some v).

Lemma check_operands_cases ssa s i :
  (for_each_i (check_operand ssa s i) 0 (zip (input_registers i) (inputs i)) = Ok tt /\ operands_agree i (registers s))
  \/ exists e, for_each_i (check_operand ssa s i) 0 (zip (input_registers i) (inputs i)) = Err e /\ operand_mismatch ssa i (registers s) e.
Proof.
  destruct (for_each_i_cases (check_operand ssa s i) (zip (input_registers i) (inputs i)) 0) as [[-> Hall]|(k & [r v] & Hk & Hne & ->)].
  - left. split; [done|]. intros k r v Hk. specialize (Hall k (r, v) Hk). unfold check_operand in Hall. cbn [fst snd] in Hall.
    destruct (registers s !! Z.to_nat r) as [actual|]; [|done]. case_bool_decide; [by subst|done].
  - right. unfold check_operand in *. cbn [fst snd Nat.add] in *. destruct (registers s !! Z.to_nat r) as [actual|] eqn:Hr.
    + case_bool_decide; [done|]. eexists. split; [done|]. exists k, r, v. rewrite Hr. split_and!; [done|congruence|done].
    + eexists. split; [done|]. exists k, r, v. by rewrite Hr.
Qed.

Lemma synthetic_this_error {F G} ssa i b : synthetic_this (E := F) ssa i = Ok b -> synthetic_this (E := G) ssa i = Ok b.
Proof.
  unfold synthetic_this, index. case_match; [|congruence]. destruct (frames ssa !! instr_inline i); cbn [rbind]; congruence.
Qed.

Section Table.
Context (call_sites : list (option InlineCallSite)) (ssa : SsaFunction) (g : ControlFlowGraph) (full : DominatorTree).
Context (Huo : unit_ok call_sites ssa) (Hok : verify g = Ok tt) (Hssa : ssa_wf ssa g full).
#[local] Abbreviation n := (length (blocks g)).

(** The values of an environment are defined, in blocks that dominate. *)
Record env_ok (block : BlockId) (e : list (option ValueId)) : Prop := {
  eo_len : length e = total_registers ssa;
  eo_values : forall slot v, e !! slot = Some (Some v) ->
    exists d, values ssa !! v = Some d /\ dominator g Full (def_block d) block
}.

Lemma env_ok_insert block e slot v : env_ok block e ->
  (exists d, values ssa !! v = Some d /\ dominator g Full (def_block d) block) -> env_ok block (<[slot := Some v]> e).
Proof.
  intros [Hlen Hv] Hd. split; [by rewrite length_insert|]. intros slot' v' H.
  apply list_lookup_insert_Some in H as [(_ & [= ->] & _)|[_ H]]; [done|by eapply Hv].
Qed.

Lemma env_ok_dominated p b e : dominator g Full p b -> env_ok p e -> env_ok b e.
Proof.
  intros Hp [Hlen Hv]. split; [done|]. intros slot v H. destruct (Hv slot v H) as (d & Hd & Hdom). exists d. split; [done|].
  by eapply dominator_trans.
Qed.

Lemma env_arguments_ok block inline site l : forall k e, env_ok block e -> env_ok block (env_arguments ssa inline site k l e).
Proof.
  induction l as [|a l IH]; intros k e He; cbn [env_arguments]; [done|]. apply IH.
  destruct (e !! variable ssa (site_parent site) a) as [[v|]|] eqn:Hv; [|done..]. apply env_ok_insert; [done|]. by eapply (eo_values _ _ He).
Qed.

Lemma env_heads_ok block b inline l : ssa_blocks ssa !! block = Some b -> (forall v, v ∈ l -> v ∈ phis b) ->
  forall e, env_ok block e -> env_ok block (env_heads ssa inline l e).
Proof.
  intros Hb. induction l as [|v l IH]; intros Hl e He; cbn [env_heads]; [done|].
  apply IH; [intros u Hu; apply Hl; by right|]. destruct (d ← values ssa !! v; _) as [r|]; [|done]. apply env_ok_insert; [done|].
  destruct (sw_defined _ _ _ Hssa block b v Head Hb ltac:(constructor; apply Hl; by left)) as (d & Hd & <-).
  exists d. split; [done|apply dominator_refl].
Qed.

Lemma entry_env_ok block b inline e : ssa_blocks ssa !! block = Some b -> env_ok block e ->
  env_ok block (entry_env call_sites ssa g block inline (phis b) e).
Proof.
  intros Hb He. unfold entry_env. apply (env_heads_ok block b); [done|done|]. case_bool_decide; [|done].
  destruct (call_sites !! inline) as [[site|]|]; [by apply env_arguments_ok|done..].
Qed.

Lemma before_ok block b inline k e : ssa_blocks ssa !! block = Some b -> env_ok block e ->
  env_ok block (before call_sites ssa g block inline b k e).
Proof.
  intros Hb He. unfold before. induction k as [|k IH]; [by apply entry_env_ok|].
  destruct (instrs b !! k) as [i|] eqn:Hi.
  - rewrite (take_S_r _ _ _ Hi), foldl_app. cbn [foldl]. set (e' := foldl _ _ _) in *. unfold env_result.
    destruct (result i) as [v|] eqn:Hv, (result_register i); [|done..]. apply env_ok_insert; [done|].
    destruct (sw_defined _ _ _ Hssa block b v (Instruction k) Hb ltac:(by eapply defines_instr)) as (d & Hd & <-).
    exists d. split; [done|apply dominator_refl].
  - apply lookup_ge_None in Hi. rewrite take_ge in * by lia. done.
Qed.

Section Tree.
Context {F : Type} (order : list nat) (parents : list (option nat)) (f : nat -> option nat) (num : nat -> nat).
Context (Hnd : NoDup order) (Hall : forall x, x ∈ order <-> x < n) (Ht : tree_of (E := F) g Normal order parents f num).
#[local] Abbreviation t := (mkDomTree parents order Normal).
#[local] Abbreviation reach := (reaching call_sites ssa g t).

Lemma forest_parents x : x < n -> parents !! x = Some None
  \/ exists p, parents !! x = Some (Some p) /\ p < n /\ num x < num p /\ num p < n.
Proof.
  intros Hx. destruct (to_parent _ _ _ _ _ _ Ht x Hx) as (d & Hd & ->).
  pose proof (parent_node g Normal order Hall parents f num Ht x d Hx Hd) as Hk.
  destruct (opt_block g d Hk) as [[Ho ->]|[Ho Hdn]]; unfold opt in Ho; rewrite Ho; [by left|]. right. exists d.
  split_and!; [done|done|by apply (parent_above g Normal order parents f num Ht)|by apply (num_lt g Normal order Hall parents f num Ht)].
Qed.

Lemma reaching_ok b e : b < n -> reach b e -> env_ok b e.
Proof.
  intros Hb H. induction H as [b Hr|p b cp bp e Hp Hcp Hbp He IH].
  - split; [apply length_replicate|]. intros slot v Hv. by apply lookup_replicate in Hv as [? _].
  - assert (Hpn : p < n) by (by eapply lookup_lt_Some). apply (env_ok_dominated p).
    + apply dominator_full. destruct (immediate_dominator_spec g (verify_wf g Hok) Normal order Hall parents f num Ht (F := unit) b Hb)
        as (q & Hq & Hspec). unfold immediate_dominator in Hq. apply index_Ok in Hq. cbn [idom] in *.
      assert (q = Some p) as -> by congruence. by destruct Hspec as (_ & ? & _).
    + apply before_ok; [done|by apply IH].
Qed.

Lemma check_slots_Ok s inline fr e : frames ssa !! inline = Some fr -> state_block s < n -> env_ok (state_block s) e ->
  registers s = env_window ssa inline (frame_register_count fr) e ->
  length (registers s) = Z.to_nat (frame_register_count fr) /\ for_each_i (check_slot ssa full s) 0 (registers s) = Ok tt.
Proof.
  intros Hfr Hlt [Hlen Hv] Hregs. split.
  - rewrite Hregs. unfold env_window. rewrite length_take, length_drop, Hlen. pose proof (window_le call_sites ssa Huo inline fr Hfr). lia.
  - apply for_each_i_Ok. intros r [v|] Hr; [|done]. rewrite Hregs in Hr. unfold env_window in Hr.
    apply lookup_take_Some in Hr as [Hr _]. rewrite lookup_drop in Hr. destruct (Hv _ v Hr) as (d & Hd & Hdom).
    unfold check_slot. rewrite Hd. apply (dominates_true ssa g full Hok Hssa (F := FrameStateError)) in Hdom as ->; done.
Qed.

(** The check of one state of the walk: only its operands can disagree. *)
Lemma check_state_cases block cb b fr k i e s idx : blocks g !! block = Some cb -> ssa_blocks ssa !! block = Some b ->
  frames ssa !! block_inline cb = Some fr -> instrs b !! k = Some i -> env_ok block e ->
  same_state (mkState (block_inline cb) (instr_pc i) block (env_window ssa (block_inline cb) (frame_register_count fr) e) None) s ->
  (check_state ssa full cb idx i s = Ok tt /\ operands_agree i (registers s))
  \/ exists er, check_state ssa full cb idx i s = Err er /\ operand_mismatch ssa i (registers s) er.
Proof.
  intros Hcb Hb Hfr Hi He (Hin & Hpc & Hbl & Hregs). cbn [state_inline state_pc state_block registers] in *.
  assert (Hlt : block < n) by (by eapply lookup_lt_Some). unfold check_state. rewrite <- Hpc, <- Hbl, <- Hin.
  rewrite (wf_ids g (verify_wf g Hok) block cb Hcb), Z.eqb_refl, !Nat.eqb_refl. cbn [negb].
  unfold frame_registers. rewrite (proj2 (index_Ok _ _ _) Hfr). cbn [rbind].
  destruct (check_slots_Ok s (block_inline cb) fr e Hfr) as [Hlen Hslots]; [by rewrite <- Hbl|by rewrite <- Hbl|done|].
  rewrite Hlen, Nat.eqb_refl, Hslots. cbn [negb rbind].
  destruct (sw_instr _ _ _ Hssa block b k i Hb Hi) as (_ & synthetic & Hsyn & Hcount).
  rewrite (synthetic_this_error (G := FrameStateError) _ _ _ Hsyn). cbn [rbind].
  assert (Hc : negb synthetic && negb (length (input_registers i) =? length (inputs i)) = false).
  { destruct synthetic; [done|]. by rewrite Hcount, Nat.eqb_refl. }
  rewrite Hc. apply check_operands_cases.
Qed.

#[local] Abbreviation wenv block cb b k e := (before call_sites ssa g block (block_inline cb) b k e).
#[local] Abbreviation state_of block cb fr i e :=
  (mkState (block_inline cb) (instr_pc i) block (env_window ssa (block_inline cb) (frame_register_count fr) e) None).

Lemma block_states_drop block cb b fr k i e : instrs b !! k = Some i ->
  block_states ssa block (block_inline cb) (frame_register_count fr) (drop k (instrs b)) (wenv block cb b k e)
  = state_of block cb fr i (wenv block cb b k e)
    :: block_states ssa block (block_inline cb) (frame_register_count fr) (drop (S k) (instrs b)) (wenv block cb b (S k) e).
Proof.
  intros Hi. rewrite (drop_S _ _ _ Hi). cbn [block_states]. f_equal. f_equal. unfold before.
  by rewrite (take_S_r _ _ _ Hi), foldl_app.
Qed.

(** The instructions whose operands are checked. *)
Definition mismatch (er : FrameStateError) : Prop :=
  exists block cb b fr k i e, blocks g !! block = Some cb /\ ssa_blocks ssa !! block = Some b
  /\ frames ssa !! block_inline cb = Some fr /\ instrs b !! k = Some i /\ reach block e
  /\ operand_mismatch ssa i (env_window ssa (block_inline cb) (frame_register_count fr) (wenv block cb b k e)) er.

Definition agreed (s : AbstractFrameState) : Prop :=
  exists block cb b fr k i e, blocks g !! block = Some cb /\ ssa_blocks ssa !! block = Some b
  /\ frames ssa !! block_inline cb = Some fr /\ instrs b !! k = Some i /\ reach block e
  /\ same_state (state_of block cb fr i (wenv block cb b k e)) s /\ operands_agree i (registers s).

Lemma agreed_values s v : agreed s -> Some v ∈ registers s ->
  exists d, values ssa !! v = Some d /\ dominator g Full (def_block d) (state_block s).
Proof.
  intros (block & cb & b & fr & k & i & e & Hcb & Hb & _ & _ & He & (_ & _ & Hbl & Hregs) & _) [r Hr]%list_elem_of_lookup.
  cbn [state_block registers] in *. rewrite <- Hregs in Hr. apply lookup_take_Some in Hr as [Hr _]. rewrite lookup_drop in Hr.
  rewrite <- Hbl. eapply eo_values, Hr. apply before_ok; [done|]. apply reaching_ok; [by eapply lookup_lt_Some|done].
Qed.

Lemma agreed_width s : agreed s ->
  exists f, frames ssa !! state_inline s = Some f /\ length (registers s) = Z.to_nat (frame_register_count f).
Proof.
  intros (block & cb & b & fr & k & i & e & Hcb & Hb & Hfr & _ & He & (Hin & _ & _ & Hregs) & _).
  cbn [state_inline registers] in *. exists fr. rewrite <- Hin, <- Hregs. split; [done|]. unfold env_window. rewrite length_take, length_drop.
  rewrite (eo_len block); [pose proof (window_le call_sites ssa Huo _ fr Hfr); lia|].
  apply before_ok; [done|]. apply reaching_ok; [by eapply lookup_lt_Some|done].
Qed.

Lemma check_block_states_cases block cb b fr e states : blocks g !! block = Some cb -> ssa_blocks ssa !! block = Some b ->
  frames ssa !! block_inline cb = Some fr -> reach block e -> forall l k idx seg rest, l = drop k (instrs b) ->
  drop idx states = seg ++ rest ->
  Forall2 same_state (block_states ssa block (block_inline cb) (frame_register_count fr) l (wenv block cb b k e)) seg ->
  match check_block_states ssa full cb l idx states with
  | Ok idx' => idx' = idx + length seg /\ Forall agreed seg
  | Err er => mismatch er
  | _ => False
  end.
Proof.
  intros Hcb Hb Hfr He. assert (Hlt : block < n) by (by eapply lookup_lt_Some).
  induction l as [|i l IH]; intros k idx seg rest Hl Hdrop Hsame; cbn [check_block_states].
  { cbn [block_states] in Hsame. apply Forall2_nil_inv_l in Hsame as ->. simpl. split; [lia|constructor]. }
  assert (Hi : instrs b !! k = Some i). { pose proof (lookup_drop (instrs b) k 0) as H. by rewrite <- Hl, Nat.add_0_r in H. }
  assert (Hl' : l = drop (S k) (instrs b)) by (by rewrite <- Nat.add_1_r, <- drop_drop, <- Hl).
  rewrite Hl, (block_states_drop block cb b fr k i e Hi), <- Hl' in Hsame.
  apply Forall2_cons_inv_l in Hsame as (s & seg' & Hs & Hsame & ->). cbn [app] in Hdrop.
  assert (Hidx : states !! idx = Some s). { pose proof (lookup_drop states idx 0) as H. by rewrite Hdrop, Nat.add_0_r in H. }
  assert (Hdrop' : drop (S idx) states = seg' ++ rest) by (by rewrite <- Nat.add_1_r, <- drop_drop, Hdrop).
  rewrite (proj2 (index_Ok _ _ _) Hidx). cbn [rbind].
  pose proof (before_ok block b (block_inline cb) k e Hb (reaching_ok block e Hlt He)) as Hek.
  destruct (check_state_cases block cb b fr k i (wenv block cb b k e) s idx Hcb Hb Hfr Hi Hek Hs) as [[-> Hag]|(er & -> & Hmis)]; cbn [rbind].
  - specialize (IH (S k) (S idx) seg' rest Hl' Hdrop' Hsame).
    destruct (check_block_states ssa full cb l (S idx) states) as [idx'|er| |]; [|done..]. destruct IH as [-> Hall'].
    split; [simpl; lia|]. constructor; [|done]. exists block, cb, b, fr, k, i, e. done.
  - destruct Hs as (_ & _ & _ & Hregs). cbn [registers] in Hregs. rewrite <- Hregs in Hmis. exists block, cb, b, fr, k, i, e. done.
Qed.

Lemma check_states_cases envs states : length envs = n -> (forall b e, envs !! b = Some e -> reach b e) ->
  forall l k idx rest, l = drop k (blocks g) -> rest = drop k envs ->
  Forall2 same_state (flat_map (fun be => states_from call_sites ssa g be.1 be.2) (zip (seq k (length rest)) rest)) (drop idx states) ->
  match check_states ssa full l idx states with
  | Ok _ => Forall agreed (drop idx states)
  | Err er => mismatch er
  | _ => False
  end.
Proof.
  intros Hlen Henv. induction l as [|cb l IH]; intros k idx rest Hl Hrest Hsame; cbn [check_states].
  { assert (rest = []) as ->. { apply length_zero_iff_nil. apply (f_equal length) in Hl. apply (f_equal length) in Hrest.
      rewrite length_drop in Hl. rewrite length_drop in Hrest. simpl in Hl. lia. }
    cbn in Hsame. apply Forall2_nil_inv_l in Hsame as ->. constructor. }
  assert (Hcb : blocks g !! k = Some cb). { pose proof (lookup_drop (blocks g) k 0) as H. by rewrite <- Hl, Nat.add_0_r in H. }
  assert (Hl' : l = drop (S k) (blocks g)) by (by rewrite <- Nat.add_1_r, <- drop_drop, <- Hl).
  assert (Hk : k < n) by (by eapply lookup_lt_Some).
  destruct (lookup_lt_is_Some_2 envs k) as [e He]; [lia|]. rewrite (drop_S _ _ _ He) in Hrest. subst rest.
  destruct (lookup_lt_is_Some_2 (ssa_blocks ssa) k) as [b Hb]; [by rewrite (sw_len _ _ _ Hssa)|].
  destruct (sw_frames _ _ _ Hssa k b Hb) as (cb' & Hcb' & Hin & _). assert (cb' = cb) as -> by congruence.
  destruct (lookup_lt_is_Some_2 _ _ Hin) as [fr Hfr]. rewrite (wf_ids g (verify_wf g Hok) k cb Hcb), (proj2 (index_Ok _ _ _) Hb). cbn [rbind].
  destruct (sw_layout _ _ _ Hssa k b Hb) as (cb' & Hcb'' & Hlay). assert (cb' = cb) as -> by congruence.
  rewrite bool_decide_true by done. cbn [negb]. cbn [length seq zip_with flat_map fst snd] in Hsame. unfold states_from at 1 in Hsame.
  rewrite Hcb, Hb, Hfr in Hsame. apply Forall2_app_inv_l in Hsame as (seg & rest' & Hseg & Hsame & Hdrop).
  pose proof (check_block_states_cases k cb b fr e states Hcb Hb Hfr (Henv k e He) (instrs b) 0 idx seg rest' eq_refl Hdrop Hseg) as Hc.
  destruct (check_block_states ssa full cb (instrs b) idx states) as [idx'|er| |]; cbn [rbind]; [|done..]. destruct Hc as [-> Hag].
  assert (Hdrop' : drop (idx + length seg) states = rest') by (by rewrite <- drop_drop, Hdrop, drop_app_length).
  specialize (IH (S k) (idx + length seg) (drop (S k) envs) Hl' eq_refl). rewrite Hdrop' in IH. specialize (IH Hsame).
  destruct (check_states ssa full l (idx + length seg) states) as [u|er| |]; [|done..]. rewrite Hdrop. by apply Forall_app.
Qed.

Lemma block_states_sites block inline count l : forall e,
  map state_site (block_states ssa block inline count l e) = map (pair inline) (map instr_pc l).
Proof. induction l as [|i l IH]; intros e; [done|]. cbn [block_states map]. by rewrite IH. Qed.

Lemma expected_sites envs : length envs = n ->
  map state_site (expected_states call_sites ssa g envs) = flat_map block_sites (blocks g).
Proof.
  intros Hlen. unfold expected_states.
  assert (Hgen : forall l k rest, l = drop k (blocks g) -> length rest = length l ->
    map state_site (flat_map (fun be => states_from call_sites ssa g be.1 be.2) (zip (seq k (length l)) rest)) = flat_map block_sites l).
  { induction l as [|cb l IH]; intros k rest Hl Hr; [done|]. destruct rest as [|e rest]; [done|]. simpl in Hr.
    assert (Hcb : blocks g !! k = Some cb). { pose proof (lookup_drop (blocks g) k 0) as H. by rewrite <- Hl, Nat.add_0_r in H. }
    assert (Hl' : l = drop (S k) (blocks g)) by (by rewrite <- Nat.add_1_r, <- drop_drop, <- Hl).
    destruct (lookup_lt_is_Some_2 (ssa_blocks ssa) k) as [b Hb]; [rewrite (sw_len _ _ _ Hssa); by eapply lookup_lt_Some|].
    destruct (sw_frames _ _ _ Hssa k b Hb) as (cb' & Hcb' & Hin & _). assert (cb' = cb) as -> by congruence.
    destruct (lookup_lt_is_Some_2 _ _ Hin) as [fr Hfr].
    destruct (sw_layout _ _ _ Hssa k b Hb) as (cb' & Hcb'' & Hlay). assert (cb' = cb) as -> by congruence.
    cbn [length seq zip_with flat_map fst snd]. rewrite map_app, IH by (done || lia). f_equal. unfold states_from.
    rewrite Hcb, Hb, Hfr, block_states_sites, Hlay. done. }
  apply (Hgen (blocks g) 0 envs); [by rewrite drop_0|done].
Qed.

Lemma states_verify_cases envs states : length envs = n -> (forall b e, envs !! b = Some e -> reach b e) ->
  Forall2 same_state (expected_states call_sites ssa g envs) states ->
  match frame_states_verify ssa g full states with
  | Ok _ => Forall agreed states
  | Err er => mismatch er
  | _ => False
  end.
Proof.
  intros Hlen Henv Hsame. unfold frame_states_verify, includes_exception_edges.
  rewrite bool_decide_true by apply (sw_full _ _ _ Hssa). cbn [negb]. rewrite (sw_tree _ _ _ Hssa). cbn [map_err rbind].
  rewrite (sw_len _ _ _ Hssa), Nat.eqb_refl. cbn [negb].
  assert (Hcount : length states = sum_list (map (fun b => length (instr_pcs b)) (blocks g))).
  { rewrite <- (Forall2_length _ _ _ Hsame), <- (length_map state_site), (expected_sites envs Hlen). clear.
    induction (blocks g) as [|b l IH]; [done|]. cbn [flat_map map sum_list_with id]. rewrite length_app, IH. unfold block_sites.
    by rewrite length_map. }
  rewrite Hcount, Nat.eqb_refl. cbn [negb].
  pose proof (check_states_cases envs states Hlen Henv (blocks g) 0 0 envs ltac:(by rewrite drop_0) ltac:(by rewrite drop_0)) as Hc.
  rewrite drop_0 in Hc. apply Hc. unfold expected_states in Hsame. by rewrite Hlen.
Qed.

(** The sorted states of the walk are those of the blocks in order. *)
Lemma sorted_states envs states : length envs = n -> states ≡ₚ expected_states call_sites ssa g envs ->
  sort_by state_le states = expected_states call_sites ssa g envs.
Proof.
  intros Hlen Hp. apply sorted_states_unique.
  - by rewrite sort_by_Permutation.
  - rewrite expected_sites by done. by apply verify_sites.
  - apply sort_by_sorted; intros *; [apply state_le_total|apply state_le_trans].
Qed.
End Tree.
End Table.

(** Why frame states can fail to be built: a result outside the window of its
    frame, a spliced call without a state, or an operand that is not the value
    its register holds. *)
Definition frame_failure (call_sites : list (option InlineCallSite)) (ssa : SsaFunction) (g : ControlFlowGraph)
    (t : DominatorTree) (er : FrameStateError) : Prop :=
  result_beyond ssa er
  \/ (exists site, Some site ∈ call_sites /\ er = FrameStateError.ResultRegisterMismatch (call_pc site)
      /\ (site_parent site, call_pc site) ∉ flat_map block_sites (blocks g))
  \/ mismatch call_sites ssa g (rpo t) (idom t) er.

Lemma sorted_lookup {A} (R : A -> A -> Prop) l : StronglySorted R l ->
  forall i j x y, l !! i = Some x -> l !! j = Some y -> i < j -> R x y.
Proof.
  induction 1 as [|a l Hl IH Ha]; intros i j x y Hi Hj Hij; [done|]. destruct j as [|j]; [lia|]. cbn in Hj.
  destruct i as [|i]; [|apply (IH i j); [done|done|lia]]. injection Hi as ->. rewrite Forall_forall in Ha. apply Ha. by eapply list_elem_of_lookup_2.
Qed.

(** In a table ordered by frame and PC the lookup finds every state. *)
Lemma frame_state_at_found table s : StronglySorted site_lt (map state_site table) -> s ∈ table ->
  frame_state_at table (state_inline s) (state_pc s) = Some s.
Proof.
  intros Hsort [i Hi]%list_elem_of_lookup. set (cmp := site_compare (state_inline s) (state_pc s)).
  assert (Hlt : forall j k x y, table !! j = Some x -> table !! k = Some y -> j < k -> site_lt (state_site x) (state_site y)).
  { intros j k x y Hj Hk Hjk. apply (sorted_lookup site_lt _ Hsort j k); [rewrite map_lookup, Hj|rewrite map_lookup, Hk|]; done. }
  assert (Hcmp : forall x, match cmp x with Lt => site_lt (state_site x) (state_site s) | Eq => state_site x = state_site s
    | Gt => site_lt (state_site s) (state_site x) end).
  { intros x. unfold cmp, site_compare, site_lt, state_site. simpl. destruct (Nat.compare_spec (state_inline x) (state_inline s)); [|by left..].
    destruct (Z.compare_spec (state_pc x) (state_pc s)); [congruence|by right..]. }
  assert (Heq : cmp s = Eq). { specialize (Hcmp s). unfold site_lt in Hcmp. destruct (cmp s); [done|lia..]. }
  destruct (binary_search_found cmp table) with (i := i) (x := s) as (y & Hy & Hc); [..|done|done|].
  - intros j k x y Hj Hk Hjk Hx. pose proof (Hcmp x) as H1. rewrite Hx in H1. pose proof (Hcmp y) as H2.
    destruct (decide (j = k)) as [-> |Hne]; [congruence|]. pose proof (Hlt j k x y Hj Hk ltac:(lia)). unfold site_lt in *.
    destruct (cmp y); [rewrite H2 in *; lia|lia|done].
  - intros j k x y Hj Hk Hjk Hx. pose proof (Hcmp y) as H1. rewrite Hx in H1. pose proof (Hcmp x) as H2.
    pose proof (Hlt j k x y Hj Hk Hjk). unfold site_lt in *. destruct (cmp x); [rewrite H2 in *; lia|done|lia].
  - unfold frame_state_at. fold cmp. rewrite Hy. cbn [mbind option_bind]. fold cmp. rewrite Hc. f_equal.
    specialize (Hcmp y). rewrite Hc in Hcmp. set (k := bsearch_loop _ _ _ _ _) in Hy.
    destruct (lt_eq_lt_dec k i) as [[Hki| ->]|Hki]; [|congruence|].
    + pose proof (Hlt k i y s Hy Hi Hki). rewrite Hcmp in *. unfold site_lt in *. lia.
    + pose proof (Hlt i k s y Hi Hy Hki). rewrite Hcmp in *. unfold site_lt in *. lia.
Qed.

(** What a finished table holds: one state per instruction, in frame and PC
    order, found by the lookup, each with the registers that reach it, the operands of its
    instruction among them, as wide as its frame, with values whose definitions
    dominate it and the state of its call. *)
Record exact_table (call_sites : list (option InlineCallSite)) (ssa : SsaFunction) (g : ControlFlowGraph)
    (t : DominatorTree) (table : list AbstractFrameState) : Prop := {
  et_sites : map state_site table = flat_map block_sites (blocks g);
  et_states : Forall (agreed call_sites ssa g (rpo t) (idom t)) table;
  et_values : forall s v, s ∈ table -> Some v ∈ registers s ->
    exists d, values ssa !! v = Some d /\ dominator g Full (def_block d) (state_block s);
  et_width : forall s, s ∈ table ->
    exists f, frames ssa !! state_inline s = Some f /\ length (registers s) = Z.to_nat (frame_register_count f);
  et_linked : Forall (linked call_sites table) table;
  et_lookup : forall s, s ∈ table -> frame_state_at table (state_inline s) (state_pc s) = Some s
}.

Lemma same_states_sites l l' : Forall2 same_state l l' -> map state_site l = map state_site l'.
Proof. induction 1 as [|s s' l l' (? & ? & _) _ IH]; [done|]. cbn [map]. rewrite IH. unfold state_site. congruence. Qed.

Lemma block_states_caller ssa block inline count l : forall e s, s ∈ block_states ssa block inline count l e -> caller s = None.
Proof.
  induction l as [|i l IH]; intros e s; cbn [block_states]; [by intros ?%elem_of_nil|].
  intros [-> |Hs]%elem_of_cons; [done|by eapply IH].
Qed.

Lemma build_cases call_sites ssa g full : verify g = Ok tt -> ssa_verify ssa g full = Ok tt -> unit_ok call_sites ssa ->
  exists t, compute_normal (E := FrameStateError) g = Ok t
  /\ match build_inlined call_sites ssa g with
     | Ok table => exact_table call_sites ssa g t table
     | Err er => frame_failure call_sites ssa g t er
     | _ => False
     end.
Proof.
  intros Hok Hver Huo. pose proof (ssa_verify_wf _ _ _ Hver) as Hssa. unfold build_inlined.
  pose proof (tree_verify_only g Hok full (sw_tree _ _ _ Hssa)) as Hdom. rewrite (sw_full _ _ _ Hssa) in Hdom.
  unfold compute. rewrite Hdom. cbn [map_err rbind]. rewrite Hver. cbn [map_err rbind].
  destruct (compute_tree (E := FrameStateError) g Hok Normal) as (order & parents & f & num & Hnorm & Hnd & Hall & Ht & _ & _).
  unfold compute_normal. rewrite Hnorm. cbn [rbind rpo]. exists (mkDomTree parents order Normal). split; [done|].
  set (t := mkDomTree parents order Normal).
  pose proof (forest_parents g order parents f num Hall Ht) as Hpar.
  destruct (children_kids g t num Hall Hpar (E := FrameStateError)) as (cs & Hcs & _). change (rpo t) with order in Hcs. rewrite Hcs. cbn [rbind].
  rewrite (forest_roots_Ok g t num Hpar order) by (intros x; apply Hall). cbn [rbind].
  pose proof (walk_states call_sites ssa g Huo full Hssa t num Hnd Hall Hpar cs Hcs) as Hw.
  change (rpo t) with order in Hw. destruct (walk_roots _ _ _ _ _ _ _) as [states|er| |]; cbn [rbind]; [|by left|done|done].
  destruct Hw as (envs & Hlen & Henv & Hperm). rewrite (sorted_states call_sites ssa g full Hok Hssa envs states Hlen Hperm).
  pose proof (expected_sites call_sites ssa g full Hssa envs Hlen) as Hsites.
  pose proof (link_callers_Ok call_sites 0 (expected_states call_sites ssa g envs)) as Hlink.
  destruct (link_callers 0 call_sites _) as [table|er| |] eqn:Htab; cbn [rbind]; [|..|done|done].
  - pose proof (states_verify_cases call_sites ssa g full Huo Hok Hssa order parents f num Hall Ht envs table Hlen Henv Hlink) as Hv.
    destruct (frame_states_verify ssa g full table) as [u|er| |]; cbn [rbind]; [|by right; right|done|done].
    pose proof Hsites as Hmap. rewrite (same_states_sites _ _ Hlink) in Hmap. split; [done|done| | | |].
    4:{ intros s Hs. apply frame_state_at_found; [|done]. rewrite Hmap. by apply verify_sites. }
    2:{ intros s Hs. apply (agreed_width call_sites ssa g full Huo Hok Hssa order parents f num Hall Ht). by eapply Forall_forall. }
    { intros s v Hs. apply (agreed_values call_sites ssa g full Hok Hssa order parents f num Hall Ht). by eapply Forall_forall. }
    apply Forall_forall. intros s [j Hj]%list_elem_of_lookup.
    destruct (Forall2_lookup_r _ _ _ _ _ Hlink Hj) as (s0 & Hj0 & Hin & _).
    pose proof (link_callers_linked call_sites 0 _ table Htab j s0 s Hj0 Hj) as Hl. cbn [Nat.ltb Nat.leb] in Hl.
    rewrite Nat.sub_0_r, Hin in Hl. unfold linked.
    assert (Hc0 : caller s0 = None).
    { apply list_elem_of_lookup_2 in Hj0. unfold expected_states in Hj0. apply list_elem_of_In, in_flat_map in Hj0 as ([b e] & _ & Hs0).
      apply list_elem_of_In in Hs0. unfold states_from in Hs0. cbn [fst snd] in Hs0.
      destruct (blocks g !! b) as [cb|], (ssa_blocks ssa !! b) as [sb|]; try (by apply elem_of_nil in Hs0).
      destruct (frames ssa !! block_inline cb); [by eapply block_states_caller|by apply elem_of_nil in Hs0]. }
    destruct (call_sites !! state_inline s) as [[site|]|]; [done|congruence|congruence].
  - right. left. destruct Hlink as (site & Hsite & -> & Hno). exists site. split_and!; [done|done|]. rewrite <- Hsites.
    rewrite list_elem_of_In, in_map_iff. intros (s & Hs & Hin%list_elem_of_In). by apply (Hno s).
Qed.


(** ** The states of the loop that swaps *)

Lemma swap_unit : unit_ok [None] swap_ssa.
Proof.
  split; [..|done|].
  - by intros f [-> |[]%elem_of_nil]%elem_of_cons.
  - by vm_compute.
  - intros v d r Hd Hr. do 7 (destruct v as [|v]; [injection Hd as <-; try discriminate Hr; injection Hr as <-; done|]). done.
  - intros b i r Hb Hi Hr. apply list_elem_of_In in Hb. apply list_elem_of_In in Hi. simpl in Hb.
    decompose [or] Hb; subst; try done; simpl in Hi; decompose [or] Hi; subst; try done; simpl in Hr; by simplify_eq.
  - by intros [|[]] site.
Qed.

Definition swap_states : FrameStateTable :=
  match build swap_ssa sample_cfg with Ok s => s | _ => [] end.

Lemma swap_states_built : build_inlined [None] swap_ssa sample_cfg = Ok swap_states.
Proof. vm_compute. reflexivity. Qed.


(** ** Homes of the values in a state *)

Lemma spill_count_set spills c c' k : spill_count (set_spills spills c k) c' = if decide (c' = c) then k else spill_count spills c'.
Proof. by destruct c, c'. Qed.

Section Homes.
Context (ssa : SsaFunction) (reprs : list Representation) (budget : RegisterBudget) (ivs : list LiveInterval).
#[local] Abbreviation sound := (scan_sound ivs reprs budget).

(** A slot past the count is free. *)
Lemma fresh_unused locs spills c v : sound locs spills -> locs !! v <> Some (Spill c (spill_count spills c)).
Proof. intros Hs Hv. pose proof (proj2 (ss_spills _ _ _ _ _ Hs c _) (ex_intro _ v Hv)). lia. Qed.

(** Each slot belongs to one value, so there are fewer slots than values outside a register. *)
Lemma slots_le locs spills : sound locs spills ->
  (spill_gpr spills + spill_fp spills <= length locs)
  /\ forall v c r, locs !! v = Some (Register c r) -> spill_gpr spills + spill_fp spills < length locs.
Proof.
  intros Hs. set (L := map (Spill Gpr) (seq 0 (spill_gpr spills)) ++ map (Spill Fp) (seq 0 (spill_fp spills))).
  assert (HL : length L = spill_gpr spills + spill_fp spills) by (unfold L; by rewrite length_app, !length_map, !length_seq).
  assert (Hin : forall x, x ∈ L -> x ∈ locs /\ exists c k, x = Spill c k).
  { intros x [Hx|Hx]%elem_of_app; apply list_elem_of_fmap in Hx as (k & -> & Hk%elem_of_seq); (split; [|eauto]).
    - destruct (proj1 (ss_spills _ _ _ _ _ Hs Gpr k) ltac:(simpl; lia)) as [v Hv]. by eapply list_elem_of_lookup_2.
    - destruct (proj1 (ss_spills _ _ _ _ _ Hs Fp k) ltac:(simpl; lia)) as [v Hv]. by eapply list_elem_of_lookup_2. }
  assert (Hnd : NoDup L).
  { unfold L. apply NoDup_app. split_and!; [apply NoDup_fmap; [congruence|apply NoDup_seq]| |apply NoDup_fmap; [congruence|apply NoDup_seq]].
    intros x (k & -> & _)%list_elem_of_fmap (k' & ? & _)%list_elem_of_fmap. congruence. }
  rewrite <- HL. split.
  - apply submseteq_length, NoDup_submseteq; [done|]. intros x Hx. by apply Hin.
  - intros v c r Hv. change (S (length L) <= length locs). change (length (Register c r :: L) <= length locs).
    apply submseteq_length, NoDup_submseteq.
    + apply NoDup_cons. split; [|done]. by intros [_ (? & ? & ?)]%Hin.
    + intros x [-> |Hx]%elem_of_cons; [by eapply list_elem_of_lookup_2|by apply Hin].
Qed.

(** A value of a register moved to the next slot keeps the locations sound. *)
Lemma move_sound locs spills v c r : sound locs spills -> locs !! v = Some (Register c r) ->
  fits_u32 (S (spill_count spills c)) = true ->
  sound (<[v := Spill c (spill_count spills c)]> locs) (set_spills spills c (S (spill_count spills c))).
Proof.
  intros Hs Hv Hfit. set (home := Spill c (spill_count spills c)).
  assert (Hlt : v < length locs) by (by eapply lookup_lt_Some).
  assert (Hat : forall w l, <[v := home]> locs !! w = Some l -> (w = v /\ l = home) \/ (w <> v /\ locs !! w = Some l)).
  { intros w l. destruct (decide (w = v)) as [-> |Hne].
    - rewrite list_lookup_insert_eq by done. intros [= <-]. by left.
    - rewrite list_lookup_insert_ne by done. by right. }
  split.
  - rewrite length_insert. apply (ss_len _ _ _ _ _ Hs).
  - intros w l x [[-> ->]|[_ Hw]]%Hat Hx; [|by eapply ss_class]. by rewrite <- (ss_class _ _ _ _ _ Hs v _ x Hv Hx).
  - intros w c' r' [[_ ?]|[_ Hw]]%Hat; [done|by eapply ss_bound].
  - intros u w iu iw c' r' Hne Hu Hw [[_ ?]|[_ Hlu]]%Hat [[_ ?]|[_ Hlw]]%Hat; [done..|]. by eapply (ss_disjoint _ _ _ _ _ Hs u w).
  - intros c' k. rewrite spill_count_set. case_decide as Hc.
    + subst c'. rewrite Nat.lt_succ_r, Nat.le_lteq, (ss_spills _ _ _ _ _ Hs c k). split.
      * intros [[w Hw]| ->]; [|exists v; by rewrite list_lookup_insert_eq].
        exists w. rewrite list_lookup_insert_ne; [done|]. intros <-. congruence.
      * intros [w [[_ [= ->]]|[_ Hw]]%Hat]; [by right|left; by exists w].
    + rewrite (ss_spills _ _ _ _ _ Hs c' k). split; intros [w Hw].
      * exists w. rewrite list_lookup_insert_ne; [done|]. intros <-. congruence.
      * apply Hat in Hw as [[_ [= ? ?]]|[_ Hw]]; [done|by exists w].
  - intros u w c' k [[-> Hu]|[Hnu Hu]]%Hat [[-> Hw]|[Hnw Hw]]%Hat; [done|..|by eapply (ss_spill_inj _ _ _ _ _ Hs)].
    + rewrite Hu in Hw. by destruct (fresh_unused locs spills c w Hs).
    + rewrite Hw in Hu. by destruct (fresh_unused locs spills c u Hs).
  - intros c'. rewrite spill_count_set. case_decide; [done|]. apply (ss_fits _ _ _ _ _ Hs).
Qed.

(** What a pass over the states may change: a value keeps its location, or goes to
    a slot of its class because it clashed with another one there; values with
    different locations keep different locations. *)
Record rehomed (clash : ValueId -> ValueId -> Prop) (locs locs' : list Location) : Prop := {
  rh_kept : forall v l, locs !! v = Some l -> locs' !! v = Some l
    \/ (exists k, locs' !! v = Some (Spill (class_of l) k)) /\ exists u, clash u v /\ locs !! u = Some l;
  rh_apart : forall u w, locs !! u <> locs !! w -> locs' !! u <> locs' !! w
}.

Lemma rehomed_refl clash locs : rehomed clash locs locs.
Proof. split; [by left|done]. Qed.

Lemma rehomed_trans clash l1 l2 l3 : rehomed clash l1 l2 -> rehomed clash l2 l3 -> rehomed clash l1 l3.
Proof.
  intros [Hk1 Ha1] [Hk2 Ha2]. split; [|auto]. intros v l Hv.
  destruct (Hk1 v l Hv) as [Hv2|[[k Hv2] Hu]]; destruct (Hk2 v _ Hv2) as [Hv3|[Hv3 (u & Hc & Hu2)]]; [by left|..|by eauto|by eauto].
  right. split; [done|]. exists u. split; [done|]. rewrite <- Hv.
  destruct (decide (l1 !! u = l1 !! v)) as [|Hne]; [done|]. by destruct (Ha1 u v Hne); rewrite Hu2.
Qed.

Lemma rehomed_move (clash : ValueId -> ValueId -> Prop) locs spills u v l : sound locs spills ->
  locs !! u = Some l -> locs !! v = Some l -> clash u v ->
  rehomed clash locs (<[v := Spill (class_of l) (spill_count spills (class_of l))]> locs).
Proof.
  intros Hs Hu Hv Hc. assert (Hlt : v < length locs) by (by eapply lookup_lt_Some).
  pose proof (fun w => fresh_unused locs spills (class_of l) w Hs) as Hfree. split.
  - intros w lw Hw. destruct (decide (w = v)) as [-> |Hne]; [|left; by rewrite list_lookup_insert_ne].
    assert (lw = l) as -> by congruence. right. split; [|by exists u]. eexists. by rewrite list_lookup_insert_eq.
  - intros x y Hxy. destruct (decide (x = v)) as [-> |Hx], (decide (y = v)) as [-> |Hy]; [done|..].
    + rewrite list_lookup_insert_eq, list_lookup_insert_ne by done. intros He. by apply (Hfree y).
    + rewrite list_lookup_insert_ne, list_lookup_insert_eq by done. by apply Hfree.
    + by rewrite !list_lookup_insert_ne by done.
Qed.

Context (g : ControlFlowGraph) (full : DominatorTree) (Hssa : ssa_wf ssa g full).
Context (Hreprs : length reprs = length (values ssa)) (Hivs : length ivs = length (values ssa)).
#[local] Abbreviation n := (length (values ssa)).

(** A value the deoptimizer writes as a literal needs no home. *)
Definition literal (v : ValueId) : Prop := exists r, Pipeline.rematerialized (E := Pipeline.OptimizationError) ssa reprs v = Ok (Some r).

Lemma rematerialized_Ok v : v < n -> exists o, Pipeline.rematerialized (E := Pipeline.OptimizationError) ssa reprs v = Ok o.
Proof.
  intros Hv. unfold Pipeline.rematerialized. destruct (values ssa !! v) as [d|]; [|eauto].
  destruct (is_dead_phi_Ok ssa g full Hssa (E := Pipeline.OptimizationError) v) as [dead ->].
  destruct (lookup_lt_is_Some_2 reprs v) as [r Hr]; [lia|]. cbn [rbind]. unfold representation.
  rewrite (proj2 (index_Ok _ _ _) Hr). destruct (value_def d), dead; cbn [rbind]; eauto.
Qed.

(** The owners are the values seen in the state so far, at their locations. *)
Definition owned (seen : list ValueId) (locs : list Location) (owners : gmap Location ValueId) : Prop :=
  forall at_ u, owners !! at_ = Some u <-> u ∈ seen /\ locs !! u = Some at_.

Lemma owned_unseen seen locs owners v at_ : owned seen locs owners -> locs !! v = Some at_ -> owners !! at_ <> Some v -> v ∉ seen.
Proof. intros Ho Hv Hne Hin. by apply Hne, Ho. Qed.

Lemma owned_kept seen locs owners v at_ : owned seen locs owners -> locs !! v = Some at_ ->
  owners !! at_ = None \/ owners !! at_ = Some v -> owned (v :: seen) locs (<[at_ := v]> owners).
Proof.
  intros Ho Hv Hown a w. rewrite elem_of_cons. destruct (decide (a = at_)) as [-> |Ha].
  - rewrite lookup_insert_eq. split; [intros [= <-]; tauto|]. intros [[-> |Hw] Hlw]; [done|].
    pose proof (proj2 (Ho at_ w) (conj Hw Hlw)). destruct Hown; congruence.
  - rewrite lookup_insert_ne by done. rewrite (Ho a w). split; [tauto|]. intros [[-> |?] Hlw]; [congruence|done].
Qed.

Lemma owned_moved seen locs spills owners v c : sound locs spills -> owned seen locs owners -> v ∉ seen -> v < length locs ->
  owned (v :: seen) (<[v := Spill c (spill_count spills c)]> locs) (<[Spill c (spill_count spills c) := v]> owners).
Proof.
  intros Hs Ho Hvs Hlt a w. set (home := Spill c (spill_count spills c)). rewrite elem_of_cons.
  destruct (decide (a = home)) as [-> |Ha].
  - rewrite lookup_insert_eq. split; [intros [= <-]; split; [by left|by rewrite list_lookup_insert_eq]|].
    intros [_ Hw]. destruct (decide (w = v)) as [-> |Hwv]; [done|]. rewrite list_lookup_insert_ne in Hw by done.
    by destruct (fresh_unused locs spills c w Hs).
  - rewrite lookup_insert_ne by done. rewrite (Ho a w). destruct (decide (w = v)) as [-> |Hwv].
    + rewrite list_lookup_insert_eq by done. split; [tauto|]. intros [_ [= ->]]. done.
    + rewrite list_lookup_insert_ne by done. tauto.
Qed.

(** The values of a state that need a home. *)
Definition housed (seen l : list ValueId) (u : ValueId) : Prop := u ∈ seen \/ u ∈ l /\ ~ literal u.

Lemma housed_literal seen v l u : literal v -> housed seen (v :: l) u <-> housed seen l u.
Proof. intros Hv. unfold housed. rewrite elem_of_cons. split; [intros [?|[[-> |?] ?]]|intros [?|[? ?]]]; tauto. Qed.

Lemma housed_value seen v l u : ~ literal v -> housed seen (v :: l) u <-> housed (v :: seen) l u.
Proof. intros Hv. unfold housed. rewrite !elem_of_cons. split; [intros [?|[[-> |?] ?]]|intros [[-> |?]|[? ?]]]; tauto. Qed.

Definition apart (locs : list Location) (P : ValueId -> Prop) : Prop :=
  forall u w, P u -> P w -> u <> w -> locs !! u <> locs !! w.

Definition registers_legal (clash : ValueId -> ValueId -> Prop) (locs : list Location) (P : ValueId -> Prop)
    (o : res Pipeline.OptimizationError (list Location * SpillSlotCounts)) : Prop :=
  match o with
  | Ok (locs', spills') => sound locs' spills' /\ rehomed clash locs locs' /\ apart locs' P
  | Err e => e = Pipeline.DeoptSpillOverflow /\ fits_u32 n = false
  | _ => False
  end.

Lemma registers_legal_from clash locs locs1 (P Q : ValueId -> Prop) o : (forall u, P u <-> Q u) -> rehomed clash locs locs1 ->
  registers_legal clash locs1 Q o -> registers_legal clash locs P o.
Proof.
  intros HPQ Hr. destruct o as [[locs' spills']|e| |]; [|done..]. intros (? & ? & Hap).
  split_and!; [done|by eapply rehomed_trans|]. intros u w Hu Hw. apply Hap; by apply HPQ.
Qed.

Lemma legalize_registers_cases clash l : forall owners locs spills seen, sound locs spills ->
  (forall v, v ∈ l -> v < n) -> (forall v, v ∈ seen -> v < n) -> owned seen locs owners ->
  (forall u w, housed seen l u -> housed seen l w -> u <> w -> clash u w) ->
  registers_legal clash locs (housed seen l) (Pipeline.legalize_registers ssa reprs l owners locs spills).
Proof.
  induction l as [|v l IH]; intros owners locs spills seen Hs Hl Hseen Hown Hclash; cbn [Pipeline.legalize_registers].
  { split_and!; [done|apply rehomed_refl|]. intros u w [Hu|[Hu _]] [Hw|[Hw _]] Hne He; [|by apply elem_of_nil in Hw|by apply elem_of_nil in Hu..].
    destruct (lookup_lt_is_Some_2 locs u) as [lu Hlu]; [rewrite (ss_len _ _ _ _ _ Hs), Hivs; auto|].
    pose proof (proj2 (Hown lu u) (conj Hu Hlu)) as H1. pose proof (proj2 (Hown lu w) (conj Hw (eq_trans (eq_sym He) Hlu))) as H2. congruence. }
  assert (Hv : v < n) by (apply Hl; by left). assert (Hl' : forall w, w ∈ l -> w < n) by (intros w ?; apply Hl; by right).
  destruct (rematerialized_Ok v Hv) as [o Ho]. rewrite Ho. cbn [rbind]. destruct o as [r|].
  { assert (Hin : forall u, housed seen (v :: l) u <-> housed seen l u) by (intros u; apply housed_literal; by exists r).
    apply (registers_legal_from clash locs locs _ _ _ Hin (rehomed_refl _ _)). apply IH; [done..|].
    intros u w Hu Hw. apply Hclash; by apply Hin. }
  assert (Hnl : ~ literal v) by (intros [r Hr]; congruence).
  assert (Hin : forall u, housed seen (v :: l) u <-> housed (v :: seen) l u) by (intros u; by apply housed_value).
  assert (Hstep : forall locs1 spills1 owners1, sound locs1 spills1 -> rehomed clash locs locs1 -> owned (v :: seen) locs1 owners1 ->
    registers_legal clash locs (housed seen (v :: l)) (Pipeline.legalize_registers ssa reprs l owners1 locs1 spills1)).
  { intros locs1 spills1 owners1 Hs1 Hr1 Ho1. apply (registers_legal_from clash locs locs1 _ _ _ Hin Hr1). apply IH; [done..| |done|].
    - intros w [-> |?]%elem_of_cons; auto.
    - intros u w Hu Hw. apply Hclash; by apply Hin. }
  destruct (lookup_lt_is_Some_2 locs v) as [at_ Hat]; [rewrite (ss_len _ _ _ _ _ Hs); lia|].
  rewrite (proj2 (index_Ok _ _ _) Hat). cbn [rbind].
  destruct (owners !! at_) as [u|] eqn:Hu; [destruct (Nat.eqb_spec u v) as [-> |Hne]|]; cbn [negb].
  - apply Hstep; [done|apply rehomed_refl|]. by apply owned_kept; [..|right].
  - pose proof (proj1 (Hown at_ u) Hu) as [Hus Hlu].
    assert (Hvs : v ∉ seen) by (eapply owned_unseen; [done..|congruence]).
    destruct at_ as [c r|c k]; [|by destruct Hne; apply (ss_spill_inj _ _ _ _ _ Hs u v c k)].
    assert (Hlt : v < length locs) by (by eapply lookup_lt_Some).
    unfold Pipeline.fresh_home. cbn [class_of]. destruct (fits_u32 (S (spill_count spills c))) eqn:Hfit; cbn [rbind].
    2:{ split; [done|]. pose proof (proj2 (slots_le locs spills Hs) v c r Hat) as Hle. rewrite (ss_len _ _ _ _ _ Hs), Hivs in Hle.
        revert Hfit. unfold fits_u32. rewrite !Z.leb_gt. destruct c; simpl; lia. }
    unfold set_index. rewrite (proj2 (Nat.ltb_lt v (length locs)) Hlt). cbn [rbind].
    apply Hstep; [by eapply move_sound| |by apply owned_moved].
    apply (rehomed_move clash locs spills u v (Register c r)); try done. apply Hclash; [by left| |done]. right. split; [by left|done].
  - apply Hstep; [done|apply rehomed_refl|]. by apply owned_kept; [..|left].
Qed.

(** Two values of one state that both need a home. *)
Definition clashes (states : FrameStateTable) (u w : ValueId) : Prop :=
  exists s, s ∈ states /\ Some u ∈ registers s /\ Some w ∈ registers s /\ ~ literal u /\ ~ literal w /\ u <> w.

Lemma legalize_states_cases clash states : forall locs spills, sound locs spills ->
  (forall s v, s ∈ states -> Some v ∈ registers s -> v < n) -> (forall u w, clashes states u w -> clash u w) ->
  match Pipeline.legalize_states ssa reprs states locs spills with
  | Ok (locs', spills') => sound locs' spills' /\ rehomed clash locs locs' /\ forall u w, clashes states u w -> locs' !! u <> locs' !! w
  | Err e => e = Pipeline.DeoptSpillOverflow /\ fits_u32 n = false
  | _ => False
  end.
Proof.
  induction states as [|s states IH]; intros locs spills Hs Hlt Hclash; cbn [Pipeline.legalize_states].
  { split_and!; [done|apply rehomed_refl|]. by intros u w (s & []%elem_of_nil & _). }
  assert (Hreg : forall v, v ∈ omap id (registers s) <-> Some v ∈ registers s).
  { intros v. rewrite list_elem_of_omap. split; [intros (o & Ho & <-); done|]. intros Hv. by exists (Some v). }
  assert (Hhere : forall u w, clashes (s :: states) u w <-> (housed [] (omap id (registers s)) u /\ housed [] (omap id (registers s)) w /\ u <> w) \/ clashes states u w).
  { intros u w. unfold housed. rewrite !Hreg. split.
    - intros (s' & [-> |Hs']%elem_of_cons & Hc); [left; tauto|right; by exists s'].
    - intros [([[]%elem_of_nil|Hu] & [[]%elem_of_nil|Hw] & Hne)|(s' & Hs' & Hc)]; [exists s|exists s']; rewrite elem_of_cons; tauto. }
  assert (H : registers_legal clash locs (housed [] (omap id (registers s)))
    (Pipeline.legalize_registers ssa reprs (omap id (registers s)) ∅ locs spills)).
  { apply legalize_registers_cases; [done|..].
    - intros v Hv%Hreg. by apply (Hlt s); [left|].
    - by intros v []%elem_of_nil.
    - intros a u. rewrite lookup_empty. split; [done|]. by intros [[]%elem_of_nil _].
    - intros u w Hu Hw Hne. apply Hclash, Hhere. by left. }
  destruct (Pipeline.legalize_registers _ _ _ _ _ _) as [[locs1 spills1]|e| |]; cbn [rbind]; [|done..]. destruct H as (Hs1 & Hr1 & Hap1).
  specialize (IH locs1 spills1 Hs1 ltac:(intros s' v Hs'; apply Hlt; by right) ltac:(intros u w Hc; apply Hclash, Hhere; by right)).
  destruct (Pipeline.legalize_states _ _ _ _ _) as [[locs' spills']|e| |]; [|done..]. destruct IH as (Hs' & Hr' & Hap').
  split_and!; [done|by eapply rehomed_trans|]. intros u w [(Hu & Hw & Hne)|Hc]%Hhere; [|by apply Hap'].
  by apply (rh_apart _ _ _ Hr'), Hap1.
Qed.

(** What the final homes of the values are. *)
Record legal (states : FrameStateTable) (locs locs' : list Location) (spills' : SpillSlotCounts) : Prop := {
  le_sound : sound locs' spills';
  le_moved : rehomed (clashes states) locs locs';
  le_apart : forall u w, clashes states u w -> locs' !! u <> locs' !! w
}.
End Homes.

(** ** The rest of the pipeline *)

Section Final.
Context (tree : list InlineFrame) (call_sites : list (option InlineCallSite)) (ssa : SsaFunction) (g : ControlFlowGraph).
Context (t : DominatorTree) (budget : RegisterBudget) (a : Pipeline.Analyses).
Context (Hok : verify g = Ok tt) (Hver : ssa_verify ssa g t = Ok tt) (Hinline : inline_inputs_dominated ssa g).
Context (Huo : unit_ok call_sites ssa) (Han : analyzed tree ssa g t budget a).
#[local] Abbreviation reprs := (reprs (Pipeline.unit_reprs a)).
#[local] Abbreviation al := (Pipeline.unit_allocation a).
#[local] Abbreviation n := (length (values ssa)).

Lemma total_slots_cases b : placed ssa g reprs budget b ->
  match Pipeline.total_spill_slots b with
  | Ok k => k = spill_gpr (spill_slot_counts b) + spill_fp (spill_slot_counts b) /\ k <= n
  | Err e => e = Pipeline.TotalSpillSlotOverflow /\ fits_u32 n = false
  | _ => False
  end.
Proof.
  intros [Hi Hs _ _]. pose proof (proj1 (slots_le _ _ _ _ _ Hs)) as Hle. rewrite (ss_len _ _ _ _ _ Hs), (io_len _ _ _ Hi) in Hle.
  unfold Pipeline.total_spill_slots. destruct (fits_u32 _) eqn:Hf; [done|]. split; [done|]. revert Hf. unfold fits_u32. rewrite !Z.leb_gt. lia.
Qed.

(** What the pipeline ends with: exact states, homes of their own for the values of
    a state, and phi moves between those homes. *)
Record homed (td : DominatorTree) (h : Pipeline.Homes) : Prop := {
  ho_states : exact_table call_sites ssa g td (Pipeline.unit_frame_states h);
  ho_legal : legal ssa reprs budget (intervals al) (Pipeline.unit_frame_states h) (locations al)
    (locations (Pipeline.final_allocation h)) (spill_slot_counts (Pipeline.final_allocation h));
  ho_moves : forall i b k p, ssa_blocks ssa !! i = Some b -> normal_preds g i !! k = Some p ->
    delivers ssa g reprs (Pipeline.final_allocation h) p i b k;
  ho_budget : register_budget (Pipeline.final_allocation h) = budget;
  ho_slots : Pipeline.spill_slot_count h <= n
}.

Lemma build_checked table : build_inlined call_sites ssa g = Ok table -> frame_states_verify ssa g t table = Ok tt.
Proof.
  pose proof (ssa_verify_wf _ _ _ Hver) as Hssa. unfold build_inlined.
  pose proof (tree_verify_only g Hok t (sw_tree _ _ _ Hssa)) as Hdom. rewrite (sw_full _ _ _ Hssa) in Hdom.
  unfold compute. rewrite Hdom. cbn [map_err rbind]. intros H. repeat inv_bind H. injection H as <-.
  repeat match goal with x : unit |- _ => destruct x end. done.
Qed.

Lemma legalize_cases td table : exact_table call_sites ssa g td table ->
  match Pipeline.legalize_deopt_locations al table ssa reprs with
  | Ok b => intervals b = intervals al /\ register_budget b = budget
      /\ legal ssa reprs budget (intervals al) table (locations al) (locations b) (spill_slot_counts b)
  | Err e => e = Pipeline.DeoptSpillOverflow /\ fits_u32 n = false
  | _ => False
  end.
Proof.
  intros Hex. pose proof (al_placed _ _ _ _ _ _ (an_allocation _ _ _ _ _ _ Han)) as [Hi Hs Hb _].
  assert (Hlt : forall s v, s ∈ table -> Some v ∈ registers s -> v < n).
  { intros s v Hin Hv. destruct (et_values _ _ _ _ _ Hex s v Hin Hv) as (d & Hd & _). by eapply lookup_lt_Some. }
  pose proof (legalize_states_cases ssa reprs budget (intervals al) g t (ssa_verify_wf _ _ _ Hver)
    (so_len _ _ _ (an_reprs _ _ _ _ _ _ Han)) (io_len _ _ _ Hi) (clashes ssa reprs table) table (locations al) (spill_slot_counts al) Hs Hlt) as H.
  unfold Pipeline.legalize_deopt_locations. destruct (Pipeline.legalize_states _ _ _ _ _) as [[locs' spills']|e| |]; cbn [rbind]; [|by apply H..].
  cbn [intervals register_budget locations spill_slot_counts]. split_and!; [done|done|]. destruct H as (? & ? & ?); [done|by split].
Qed.

Lemma assign_homes_cases : exists td, compute_normal (E := FrameStateError) g = Ok td
  /\ match Pipeline.assign_homes call_sites g ssa a with
     | Ok h => homed td h
     | Err (Pipeline.FrameStateConstruction er) => frame_failure call_sites ssa g td er
     | Err Pipeline.DeoptSpillOverflow | Err Pipeline.TotalSpillSlotOverflow => fits_u32 n = false
     | _ => False
     end.
Proof.
  destruct (build_cases call_sites ssa g t Hok Hver Huo) as (td & Htd & Hb). exists td. split; [done|]. unfold Pipeline.assign_homes.
  pose proof (build_checked) as Hchk. destruct (build_inlined call_sites ssa g) as [table|er| |]; cbn [map_err rbind]; [|done..].
  rewrite (an_dom _ _ _ _ _ _ Han), (Hchk table eq_refl). cbn [map_err rbind].
  pose proof (al_placed _ _ _ _ _ _ (an_allocation _ _ _ _ _ _ Han)) as Hpl. pose proof (an_reprs _ _ _ _ _ _ Han) as Hsol.
  pose proof (total_slots_cases al Hpl) as Ht.
  destruct (Pipeline.total_spill_slots al) as [scan|e| |]; cbn [rbind]; [|by destruct Ht as [-> ?]|done..].
  pose proof (legalize_cases td table Hb) as Hl.
  destruct (Pipeline.legalize_deopt_locations _ _ _ _) as [b|e| |]; cbn [rbind]; [|by destruct Hl as [-> ?]|done..].
  destruct Hl as (Hi & Hbud & Hl). unfold rebuild_edge_moves. rewrite Hbud.
  pose proof (build_edge_moves_Ok ssa g t reprs budget Hok (ssa_verify_wf _ _ _ Hver) Hinline (so_len _ _ _ Hsol)
    (intervals al) (locations b) (spill_slot_counts b) (pl_intervals _ _ _ _ _ Hpl) (le_sound _ _ _ _ _ _ _ _ Hl)) as He.
  destruct (build_edge_moves _ _ _ _ _) as [edges|e| |]; cbn [map_err rbind]; [|by destruct (solves_supported _ _ _ _ Hsol He)|done..].
  rewrite Hi. pose proof (total_slots_cases _ He) as Hc.
  destruct (Pipeline.total_spill_slots _) as [k|e| |]; cbn [rbind]; [|by destruct Hc as [-> ?]|done..].
  split; cbn [Pipeline.unit_frame_states Pipeline.final_allocation Pipeline.spill_slot_count locations spill_slot_counts]; [done|done| |done|apply Hc].
  intros i sb j p. by apply (placed_delivers ssa g t reprs budget Hok (ssa_verify_wf _ _ _ Hver) (so_len _ _ _ Hsol)).
Qed.
End Final.


(** The loop on integers: the merge of the loop reuses the register of the value
    before it, which the states of the loop still name. *)
Definition integers_tree : list InlineFrame := numeric_tree 0 0 ARITH_INT32.

Definition integers_analyses : Pipeline.Analyses :=
  match Pipeline.analyze integers_tree sample_cfg counter_ssa swap_budget with
  | Ok a => a
  | _ => Pipeline.mkAnalyses sample_tree (mkLiveness [] []) (mkReprMap [] []) swap_allocation
  end.

Lemma integers_analyzed : Pipeline.analyze integers_tree sample_cfg counter_ssa swap_budget = Ok integers_analyses.
Proof. vm_compute. reflexivity. Qed.

Lemma counter_unit : unit_ok [None] counter_ssa.
Proof.
  split; [..|done|].
  - by intros f [-> |[]%elem_of_nil]%elem_of_cons.
  - by vm_compute.
  - intros v d r Hd Hr. do 8 (destruct v as [|v]; [injection Hd as <-; try discriminate Hr; injection Hr as <-; done|]). done.
  - intros b i r Hb Hi Hr. apply list_elem_of_In in Hb. apply list_elem_of_In in Hi. simpl in Hb.
    decompose [or] Hb; subst; try done; simpl in Hi; decompose [or] Hi; subst; try done; simpl in Hr; by simplify_eq.
  - by intros [|[]] site.
Qed.

Lemma integers_frames : frames_exist integers_tree counter_ssa.
Proof.
  intros b i Hb Hi. apply list_elem_of_In in Hb. apply list_elem_of_In in Hi. simpl in Hb.
  decompose [or] Hb; subst; try done; simpl in Hi; decompose [or] Hi; subst; try done; simpl; lia.
Qed.

