(* ===== verification/DeoptProps.v ===== *)
(** Inline trees and deoptimization metadata: what an accepted tree satisfies, and
    what the table lowered from the frame states rebuilds. *)

From stdpp Require Import gmap sorting.
From S2P Require Import Prelude Slices Bits Swar Value Opcode Cfg CfgProps Dom RpoProps DomProps Dominance DomChecks Ssa SsaProps Liveness LivenessProps LivenessChecks Repr Regalloc Moves Allocate FrameState Deopt MoveProps ScanProps LinearProps IntervalProps EdgeProps AllocProps ReprProps FrameProps.
Import Inline Table Lowering.
#[local] Set Warnings "-clear-no-such-hyp".

(** ** The inline tree *)

Section InlineTree.
Context (unit : list UnitFrame).

(** What the check of a tree establishes for the frame at an index. *)
Record frame_ok (i : nat) (u : UnitFrame) : Prop := {
  fo_id : frame_id u = i;
  fo_pcs : forall p x, body u !! p = Some x -> instruction_pc x = Z.of_nat p;
  fo_small : i <> 0 -> length (body u) <= MAX_INLINE_INSTRUCTIONS;
  fo_site : match call_site u with
    | None => i = 0
    | Some site => i <> 0 /\ site_parent site < i
        /\ Z.of_nat (length (argument_registers site)) = param_count u
        /\ exists w x, unit !! site_parent site = Some w /\ body w !! Z.to_nat (call_pc site) = Some x
           /\ body_op x = expected_op site
    end
}.

(** The parents of the frames below an index precede them. *)
Definition parents_below (n : nat) : Prop :=
  forall j u site, j < n -> unit !! j = Some u -> call_site u = Some site -> site_parent site < j.

Lemma path_contains_Ok n : n <= length unit -> parents_below n -> forall fuel id f, id < n -> id < fuel ->
  exists b, path_contains unit fuel id f = Ok b.
Proof.
  intros Hn Hp fuel. induction fuel as [|fuel IH]; intros id f Hid Hf; [lia|]. cbn [path_contains].
  destruct (lookup_lt_is_Some_2 unit id) as [u Hu]; [lia|]. rewrite (proj2 (index_Ok _ _ _) Hu). cbn [rbind].
  destruct (function_id u =? f)%Z; [eauto|]. destruct (call_site u) as [site|] eqn:Hs; [|eauto].
  pose proof (Hp id u site Hid Hu Hs). apply IH; lia.
Qed.

Lemma depth_loop_Ok n : n <= length unit -> parents_below n -> forall fuel id u d, id < n -> id < fuel -> unit !! id = Some u ->
  exists k, depth_loop unit fuel u d = Ok k.
Proof.
  intros Hn Hp fuel. induction fuel as [|fuel IH]; intros id u d Hid Hf Hu; [lia|]. cbn [depth_loop].
  destruct (call_site u) as [site|] eqn:Hs; [|eauto]. pose proof (Hp id u site Hid Hu Hs).
  destruct (lookup_lt_is_Some_2 unit (site_parent site)) as [w Hw]; [lia|]. rewrite (proj2 (index_Ok _ _ _) Hw). cbn [rbind].
  apply (IH (site_parent site)); [lia|lia|done].
Qed.

Lemma check_call_cases i u site claimed : parents_below i -> i <> 0 -> unit !! i = Some u -> call_site u = Some site ->
  match check_call unit i u site claimed with
  | Ok _ => site_parent site < i /\ Z.of_nat (length (argument_registers site)) = param_count u
      /\ exists w x, unit !! site_parent site = Some w /\ body w !! Z.to_nat (call_pc site) = Some x /\ body_op x = expected_op site
  | Err _ => True
  | _ => False
  end.
Proof.
  intros Hp Hi Hu Hs. pose proof (lookup_lt_Some _ _ _ Hu) as Hlt. unfold check_call.
  destruct (Nat.leb_spec i (site_parent site)) as [|Hpar]; [done|].
  destruct (lookup_lt_is_Some_2 unit (site_parent site)) as [w Hw]; [lia|]. rewrite (proj2 (index_Ok _ _ _) Hw). cbn [rbind].
  destruct (body w !! Z.to_nat (call_pc site)) as [x|] eqn:Hx; [|done]. case_bool_decide as Hop; cbn [negb]; [|done].
  case_bool_decide; [done|]. destruct (Z.eqb_spec (Z.of_nat (length (argument_registers site))) (param_count u)) as [Har|]; cbn [negb]; [|done].
  destruct (Bool.eqb _ _); cbn [negb]; [|done].
  assert (Hp' : parents_below (S i)).
  { intros j v site' Hj Hv Hs'. destruct (decide (j = i)) as [-> |Hne]; [|apply (Hp j v site'); [lia|done|done]]. congruence. }
  destruct (path_contains_Ok (S i) ltac:(lia) Hp' (S (length unit)) (site_parent site) (function_id u)) as [b ->]; [lia|lia|].
  cbn [rbind]. destruct b; [done|].
  destruct (depth_loop_Ok (S i) ltac:(lia) Hp' (S (length unit)) i u 0) as [k ->]; [lia|lia|done|]. cbn [rbind].
  destruct (MAX_INLINE_DEPTH <? k); [done|]. eauto 10.
Qed.

Lemma check_body_cases u :
  match check_body u with
  | Ok _ => forall p x, body u !! p = Some x -> instruction_pc x = Z.of_nat p
  | Err _ => True
  | _ => False
  end.
Proof.
  unfold check_body. set (f := fun position i => if (instruction_pc i =? Z.of_nat position)%Z then Ok tt else _).
  destruct (for_each_i_cases f (body u) 0) as [[-> Hall]|(k & x & _ & Hne & ->)].
  - intros p x Hx. specialize (Hall p x Hx). unfold f in Hall. cbn in Hall. by destruct (Z.eqb_spec (instruction_pc x) (Z.of_nat p)).
  - unfold f in *. cbn in *. by destruct (Z.eqb_spec (instruction_pc x) (Z.of_nat k)).
Qed.

Lemma check_frames_cases l : forall i claimed, l = drop i unit -> (forall j u, j < i -> unit !! j = Some u -> frame_ok j u) ->
  match check_frames unit i l claimed with
  | Ok _ => forall j u, unit !! j = Some u -> frame_ok j u
  | Err _ => True
  | _ => False
  end.
Proof.
  induction l as [|u l IH]; intros i claimed Hl Hok; cbn [check_frames].
  { intros j u Hu. apply Hok; [|done]. apply lookup_lt_Some in Hu. apply (f_equal length) in Hl. rewrite length_drop in Hl. simpl in Hl. lia. }
  assert (Hu : unit !! i = Some u). { pose proof (lookup_drop unit i 0) as H. by rewrite <- Hl, Nat.add_0_r in H. }
  assert (Hl' : l = drop (S i) unit) by (by rewrite <- Nat.add_1_r, <- drop_drop, <- Hl).
  assert (Hp : parents_below i).
  { intros j v site Hj Hv Hs. pose proof (fo_site _ _ (Hok j v Hj Hv)) as H. rewrite Hs in H. apply H. }
  destruct (Nat.eqb_spec (frame_id u) i) as [Hid|]; cbn [negb]; [|done].
  assert (Hnext : frame_ok i u -> forall j v, j < S i -> unit !! j = Some v -> frame_ok j v).
  { intros Hfo j v Hj Hv. destruct (decide (j = i)) as [-> |]; [congruence|]. apply Hok; [lia|done]. }
  pose proof (check_body_cases u) as Hpcs. destruct (check_body u) as [[]|e| |]; cbn [rbind]; [|done..].
  destruct ((MAX_INLINE_INSTRUCTIONS <? length (body u)) && negb (frame_id u =? 0)) eqn:Hsm; [done|].
  assert (Hsmall : i <> 0 -> length (body u) <= MAX_INLINE_INSTRUCTIONS).
  { intros Hi. rewrite Hid in Hsm. apply andb_false_iff in Hsm as [Hsm%Nat.ltb_ge|Hsm%negb_false_iff%Nat.eqb_eq]; lia. }
  destruct (call_site u) as [site|] eqn:Hs.
  - destruct (decide (i = 0)) as [-> |Hi0].
    { unfold check_call. by destruct (Nat.leb_spec 0 (site_parent site)); [|lia]. }
    pose proof (check_call_cases i u site claimed Hp Hi0 Hu Hs) as Hc.
    destruct (check_call unit i u site claimed) as [[]|e| |]; cbn [rbind]; [|done..]. apply IH; [done|]. apply Hnext.
    split; [done|done|done|]. rewrite Hs. tauto.
  - destruct (Nat.eqb_spec i 0) as [-> |]; [|done]. apply IH; [done|]. apply Hnext. split; [done|done|done|]. by rewrite Hs.
Qed.

Lemma inline_verify_cases :
  match inline_verify unit with
  | Ok _ => forall i u, unit !! i = Some u -> frame_ok i u
  | Err _ => True
  | _ => False
  end.
Proof.
  unfold inline_verify. destruct unit as [|root l] eqn:Hunit; [done|]. destruct (call_site root); [done|]. rewrite <- Hunit.
  apply check_frames_cases; [done|]. intros j u Hj. lia.
Qed.
End InlineTree.

(** ** What a slot reads *)

(** The location a place of the table stands for. *)
Definition machine_location (a : Allocation) (l : DeoptLocation) : option Location :=
  match l with
  | MachineRegister id =>
      let id := Z.to_nat id in
      Some (if id <? gpr (register_budget a) then Register Gpr id else Register Fp (id - gpr (register_budget a)))
  | StackSlot offset =>
      let slot := Z.to_nat (offset / STACK_SLOT_BYTES) in
      Some (if slot <? spill_gpr (spill_slot_counts a) then Spill Gpr slot else Spill Fp (slot - spill_gpr (spill_slot_counts a)))
  | Literal _ => None
  end.

(** The value a slot gives on a machine that holds a word in each location. *)
Definition read_slot (a : Allocation) (machine : Location -> Z) (s : DeoptSlot) : Z :=
  reconstitute (slot_repr s)
    match slot_location s, machine_location a (slot_location s) with
    | Literal raw, _ => raw
    | _, Some l => machine l
    | _, None => 0%Z
    end.

(** Undefined for a tagged literal, zero for a number. *)
Definition literal_value (r : Representation) : Z :=
  match r with Tagged => VALUE_UNDEFINED | Int32 => number_i32 0 | Float64 => number_f64 0 end.

Section Slots.
Context (ssa : SsaFunction) (g : ControlFlowGraph) (full : DominatorTree) (reprs : list Representation) (a : Allocation).
Context (ivs : list LiveInterval) (Hssa : ssa_wf ssa g full).
Context (Hs : scan_sound ivs reprs (register_budget a) (locations a) (spill_slot_counts a)).
Context (Hreprs : length reprs = length (values ssa)) (Hivs : length ivs = length (values ssa)).
#[local] Abbreviation n := (length (values ssa)).
#[local] Abbreviation total := (spill_gpr (spill_slot_counts a) + spill_fp (spill_slot_counts a)).

(** More spill slots than signed 32-bit byte offsets. *)
Definition many_spills : Prop := (i32_max < STACK_SLOT_BYTES * (Z.of_nat total - 1))%Z.

Definition overflow (e : DeoptLoweringError) : Prop := (exists slot, e = SpillSlotOffsetOverflow slot) /\ many_spills.

(** What interpreter register [o] holds when the machine holds [machine]. *)
Definition register_value (machine : Location -> Z) (o : option ValueId) (x : Z) : Prop :=
  match o with
  | None => x = VALUE_UNDEFINED
  | Some v =>
      (exists r, Pipeline.rematerialized (E := DeoptLoweringError) ssa reprs v = Ok (Some r) /\ x = literal_value r)
      \/ (Pipeline.rematerialized (E := DeoptLoweringError) ssa reprs v = Ok None
          /\ exists r l, reprs !! v = Some r /\ locations a !! v = Some l /\ x = reconstitute (deopt_repr r) (machine l))
  end.

Lemma read_literal machine r : read_slot a machine (literal_slot r) = literal_value r.
Proof. by destruct r. Qed.

Lemma spill_offset_cases slot : (0 <= slot < Z.of_nat total)%Z ->
  match spill_offset slot with
  | Ok o => o = (slot * 8)%Z /\ (o <= i32_max)%Z
  | Err e => overflow e
  | _ => False
  end.
Proof.
  clear - a. intros Hslot. unfold spill_offset, STACK_SLOT_BYTES. destruct (Z.leb_spec (slot * 8) i32_max); [done|].
  split; [by eexists|]. unfold many_spills, STACK_SLOT_BYTES. lia.
Qed.

(** The place of a location of the allocation, and that it names no other one. *)
Definition place_ok (l : Location) (o : res DeoptLoweringError DeoptLocation) : Prop :=
  match o with
  | Ok d => machine_location a d = Some l
  | Err e => overflow e
  | _ => False
  end.

Lemma lower_register v c r : locations a !! v = Some (Register c r) -> place_ok (Register c r) (lower_location a v (Register c r)).
Proof.
  intros Hl. pose proof (ss_bound _ _ _ _ _ Hs v c r Hl) as Hr. cbn [lower_location]. rewrite (proj2 (Nat.leb_gt _ _) Hr).
  unfold place_ok, machine_location. destruct c; rewrite Nat2Z.id; simpl in Hr.
  - by rewrite (proj2 (Nat.ltb_lt _ _) Hr).
  - rewrite (proj2 (Nat.ltb_ge _ _)) by lia. repeat f_equal. lia.
Qed.

Lemma place_stack l slot : slot < total ->
  machine_location a (StackSlot (Z.of_nat slot * 8)) = Some l ->
  place_ok l (let* offset := spill_offset (Z.of_nat slot) in Ok (StackSlot offset)).
Proof.
  intros Hslot Hm. pose proof (spill_offset_cases (Z.of_nat slot) ltac:(lia)) as Ho.
  destruct (spill_offset (Z.of_nat slot)) as [o|e| |]; [|exact Ho..]. destruct Ho as [-> _]. exact Hm.
Qed.

Lemma machine_stack slot : machine_location a (StackSlot (Z.of_nat slot * 8))
  = Some (if slot <? spill_gpr (spill_slot_counts a) then Spill Gpr slot else Spill Fp (slot - spill_gpr (spill_slot_counts a))).
Proof. unfold machine_location, STACK_SLOT_BYTES. by rewrite Z.div_mul, Nat2Z.id by lia. Qed.

Lemma many_spills_u32 slot : fits_u32 slot = false -> slot <= total -> many_spills.
Proof. clear - a. unfold fits_u32, many_spills, u32_max, i32_max, STACK_SLOT_BYTES. rewrite Z.leb_gt. lia. Qed.

Lemma lower_spill v c k : locations a !! v = Some (Spill c k) -> place_ok (Spill c k) (lower_location a v (Spill c k)).
Proof.
  intros Hl. pose proof (proj2 (ss_spills _ _ _ _ _ Hs c k) (ex_intro _ v Hl)) as Hk. cbn [lower_location]. rewrite (proj2 (Nat.leb_gt _ _) Hk).
  destruct c; simpl in Hk.
  - apply place_stack; [lia|]. rewrite machine_stack. by rewrite (proj2 (Nat.ltb_lt _ _) Hk).
  - destruct (fits_u32 (spill_gpr (spill_slot_counts a) + k)) eqn:Hf.
    + apply place_stack; [lia|]. rewrite machine_stack, (proj2 (Nat.ltb_ge _ _)) by lia. repeat f_equal. lia.
    + split; [by eexists|]. apply (many_spills_u32 _ Hf). lia.
Qed.

Lemma lower_location_cases v l : locations a !! v = Some l -> place_ok l (lower_location a v l).
Proof. destruct l; [apply lower_register|apply lower_spill]. Qed.

(** The slot of a register: how it reads and where it is. *)
Definition slot_ok (o : option ValueId) (s : DeoptSlot) : Prop :=
  (forall machine, register_value machine o (read_slot a machine s))
  /\ match slot_location s with
     | Literal _ => True
     | d => exists v l, o = Some v /\ ~ literal ssa reprs v /\ locations a !! v = Some l /\ machine_location a d = Some l
            /\ lower_location a v l = Ok d
     end.

(** The answers of these queries do not depend on the error type of their caller. *)
Lemma any_of_uniform {A} (f : forall E : Type, A -> res E bool) l :
  (forall x, x ∈ l -> exists r, forall E, f E x = Ok r) -> exists r, forall E, any_of (f E) l = Ok r.
Proof.
  induction l as [|x l IH]; intros H; [by exists false|]. destruct (H x ltac:(by left)) as [r Hr].
  destruct IH as [r' Hr']; [intros y Hy; apply H; by right|]. exists (if r then true else r'). intros E. cbn [any_of]. rewrite Hr. cbn [rbind].
  by destruct r.
Qed.

Lemma is_dead_phi_uniform v : exists b, forall E, is_dead_phi (E := E) ssa v = Ok b.
Proof.
  unfold is_dead_phi. destruct (values ssa !! v) as [d|]; [|by exists false]. destruct (merge_inputs (value_def d)); [|by exists false].
  destruct (any_of_uniform (fun E => used_in (E := E) ssa v) (ssa_blocks ssa)) as [r Hr].
  - intros b [i Hb]%list_elem_of_lookup. unfold used_in. destruct (instr_uses v b); [by exists true|].
    apply (any_of_uniform (fun E => merges (E := E) ssa v)). intros phi Hphi. pose proof (head_lt ssa g full Hssa i b phi Hb Hphi) as Hlt.
    destruct (lookup_lt_is_Some_2 _ _ Hlt) as [dp Hdp]. unfold merges. eexists. intros E. rewrite (proj2 (index_Ok _ _ _) Hdp). cbn [rbind]. done.
  - exists (negb r). intros E. by rewrite Hr.
Qed.

Lemma rematerialized_uniform v : v < n -> exists o, forall E, Pipeline.rematerialized (E := E) ssa reprs v = Ok o.
Proof.
  intros Hv. unfold Pipeline.rematerialized. destruct (values ssa !! v) as [d|]; [|by exists None].
  destruct (is_dead_phi_uniform v) as [b Hb]. destruct (lookup_lt_is_Some_2 reprs v) as [r Hr]; [lia|].
  exists (match value_def d with ValueDef.Uninitialized _ | ValueDef.InlineUndefinedReturn _ => Some Tagged | _ => if b then Some r else None end).
  intros E. rewrite Hb. cbn [rbind]. unfold representation. rewrite (proj2 (index_Ok _ _ _) Hr). by destruct (value_def d), b.
Qed.

Lemma lower_slot_cases register o pc : (forall v, o = Some v -> v < n) ->
  match lower_slot ssa a reprs register o pc with
  | Ok s => slot_ok o s
  | Err e => overflow e
  | _ => False
  end.
Proof.
  intros Hlt. unfold lower_slot, rematerialized_deopt_slot. destruct o as [v|]; cbn [rbind]; [|by split].
  specialize (Hlt v eq_refl). destruct (rematerialized_uniform v Hlt) as [o Ho]. rewrite Ho. cbn [rbind fmap option_fmap option_map].
  destruct o as [r|]; cbn [fmap option_fmap option_map].
  { split; [|done]. intros machine. left. exists r. rewrite read_literal. by rewrite Ho. }
  rewrite (proj2 (Nat.leb_gt _ _) Hlt). destruct (lookup_lt_is_Some_2 reprs v) as [r Hr]; [lia|].
  destruct (lookup_lt_is_Some_2 (locations a) v) as [l Hl]; [rewrite (ss_len _ _ _ _ _ Hs); lia|].
  unfold representation, location. rewrite (proj2 (index_Ok _ _ _) Hr). cbn [rbind]. rewrite (proj2 (index_Ok _ _ _) Hl). cbn [rbind].
  rewrite (ss_class _ _ _ _ _ Hs v l r Hl Hr), bool_decide_true by done. cbn [negb].
  pose proof (lower_location_cases v l Hl) as Hp. destruct (lower_location a v l) as [d|e| |] eqn:Hd; cbn [rbind]; [|done..].
  assert (Hnl : ~ literal ssa reprs v) by (intros [r' Hr']; by rewrite Ho in Hr').
  split; cbn [slot_location]; [|destruct d; [by exists v, l..|done]].
  intros machine. right. rewrite Ho. split; [done|]. exists r, l. split_and!; [done|done|]. unfold read_slot. cbn [slot_location slot_repr].
  cbn [place_ok] in Hp. rewrite Hp. by destruct d.
Qed.

Lemma lower_slots_cases l pc : forall register, (forall v, Some v ∈ l -> v < n) ->
  match lower_slots ssa a reprs register l pc with
  | Ok sl => Forall2 slot_ok l sl
  | Err e => overflow e
  | _ => False
  end.
Proof.
  induction l as [|o l IH]; intros register Hlt; cbn [lower_slots]; [constructor|].
  pose proof (lower_slot_cases register o pc ltac:(intros v ->; apply Hlt; by left)) as Ho.
  destruct (lower_slot _ _ _ _ _ _) as [s|e| |]; cbn [rbind]; [|done..].
  specialize (IH (S register) ltac:(intros v Hv; apply Hlt; by right)).
  destruct (lower_slots _ _ _ _ _ _) as [sl|e| |]; cbn [rbind]; [|done..]. by constructor.
Qed.

(** The slots in order are the slots of the registers. *)
Lemma lower_slots_lookup l pc : forall register sl, lower_slots ssa a reprs register l pc = Ok sl -> forall k o, l !! k = Some o ->
  exists s, sl !! k = Some s /\ lower_slot ssa a reprs (register + k) o pc = Ok s.
Proof.
  induction l as [|o l IH]; intros register sl H k o' Hk; [done|]. cbn [lower_slots] in H. repeat inv_bind H. injection H as <-.
  destruct k as [|k]; cbn in Hk.
  - injection Hk as <-. rewrite Nat.add_0_r. eauto.
  - destruct (IH (S register) _ Hbind0 k o' Hk) as (s & Hs' & Hl). exists s. split; [done|]. by rewrite <- Nat.add_succ_comm.
Qed.
End Slots.

(** ** The register of a value

    Outside the arguments of spliced frames a value is only ever in the register it
    is defined in, so in a frame that is not spliced no value is in two registers. *)

Section Once.
Context (call_sites : list (option InlineCallSite)) (ssa : SsaFunction) (g : ControlFlowGraph) (full : DominatorTree).
Context (Huo : unit_ok call_sites ssa) (Hssa : ssa_wf ssa g full).

(** Slot [k] is that of the register [v] is defined in. *)
Definition own_slot (v : ValueId) (k : nat) : Prop :=
  exists i b cb r p, ssa_blocks ssa !! i = Some b /\ blocks g !! i = Some cb /\ k = variable ssa (block_inline cb) r /\ defines b v p
  /\ match p with
     | Head => (d ← values ssa !! v; head_register (value_def d)) = Some r
     | Instruction j => (ins ← instrs b !! j; result_register ins) = Some r
     end.

Lemma own_slot_unique v k k' : own_slot v k -> own_slot v k' -> k = k'.
Proof.
  intros (i & b & cb & r & p & Hb & Hcb & -> & Hd & Hr) (i' & b' & cb' & r' & p' & Hb' & Hcb' & -> & Hd' & Hr').
  destruct (sw_once _ _ _ Hssa i b p i' b' p' v Hb Hb' Hd Hd') as [-> ->]. assert (b' = b) as -> by congruence. assert (cb' = cb) as -> by congruence.
  destruct p'; congruence.
Qed.

(** Slot [k] is that of a parameter of a spliced frame. *)
Definition argument_slot (k : nat) : Prop :=
  exists inline site p, call_sites !! inline = Some (Some site) /\ p < length (argument_registers site) /\ k = variable ssa inline (Z.of_nat p).

Definition env_own (e : list (option ValueId)) : Prop := forall k v, e !! k = Some (Some v) -> own_slot v k \/ argument_slot k.

Lemma env_own_insert e k v : env_own e -> own_slot v k \/ argument_slot k -> env_own (<[k := Some v]> e).
Proof. intros He Hk k' v' H. apply list_lookup_insert_Some in H as [(-> & [= ->] & _)|[_ H]]; [done|by apply He]. Qed.

Lemma env_arguments_own inline site l : call_sites !! inline = Some (Some site) -> forall k e,
  k + length l <= length (argument_registers site) -> env_own e -> env_own (env_arguments ssa inline site k l e).
Proof.
  intros Hsite. induction l as [|x l IH]; intros k e Hk He; cbn [env_arguments length] in *; [done|]. apply IH; [lia|].
  destruct (e !! variable ssa (site_parent site) x) as [[v|]|]; [|done..]. apply env_own_insert; [done|]. right. exists inline, site, k. split_and!; [done|lia|done].
Qed.

Lemma env_heads_own i b cb l : ssa_blocks ssa !! i = Some b -> blocks g !! i = Some cb -> (forall v, v ∈ l -> v ∈ phis b) ->
  forall e, env_own e -> env_own (env_heads ssa (block_inline cb) l e).
Proof.
  intros Hb Hcb. induction l as [|v l IH]; intros Hl e He; cbn [env_heads]; [done|]. apply IH; [intros u Hu; apply Hl; by right|].
  destruct (d ← values ssa !! v; _) as [r|] eqn:Hr; [|done]. apply env_own_insert; [done|]. left. exists i, b, cb, r, Head.
  split_and!; [done|done|done| |done]. constructor. apply Hl. by left.
Qed.

Lemma before_own i b cb k e : ssa_blocks ssa !! i = Some b -> blocks g !! i = Some cb -> env_own e ->
  env_own (before call_sites ssa g i (block_inline cb) b k e).
Proof.
  intros Hb Hcb He. unfold before. induction k as [|k IH].
  - cbn [take foldl]. unfold entry_env. apply (env_heads_own i b cb); [done|done|done|]. case_bool_decide; [|done].
    destruct (call_sites !! block_inline cb) as [[site|]|] eqn:Hsite; [|done..]. by apply env_arguments_own.
  - destruct (instrs b !! k) as [ins|] eqn:Hi.
    + rewrite (take_S_r _ _ _ Hi), foldl_app. cbn [foldl]. unfold env_result at 1.
      destruct (result ins) as [v|] eqn:Hv, (result_register ins) as [r|] eqn:Hr; [|done..]. apply env_own_insert; [done|]. left.
      exists i, b, cb, r, (Instruction k). split_and!; [done|done|done|by eapply defines_instr|]. by rewrite Hi.
    + apply lookup_ge_None in Hi. rewrite take_ge in * by lia. done.
Qed.

Lemma reaching_own t b e : reaching call_sites ssa g t b e -> env_own e.
Proof.
  induction 1 as [b Hr|p b cp bp e Hp Hcp Hbp He IH]; [|by apply before_own].
  intros k v Hv. by apply lookup_replicate in Hv as [? _].
Qed.

(** The windows of the frames do not overlap. *)
Lemma windows_apart i j f f' r r' : frames ssa !! i = Some f -> frames ssa !! j = Some f' ->
  (0 <= r < frame_register_count f)%Z -> (0 <= r' < frame_register_count f')%Z -> variable ssa i r = variable ssa j r' -> i = j.
Proof.
  assert (Hlt : forall i j f f' r r', frames ssa !! i = Some f -> frames ssa !! j = Some f' ->
    (0 <= r < frame_register_count f)%Z -> i < j -> variable ssa i r < variable ssa j r').
  { clear i j f f' r r'. intros i j f f' r r' Hf Hf' Hr Hij. unfold variable.
    pose proof (lookup_lt_Some _ _ _ Hf). pose proof (lookup_lt_Some _ _ _ Hf').
    rewrite !(register_base_sum call_sites ssa Huo), !Nat2Z.id by lia.
    assert (Htake : take j (frames ssa) = take i (frames ssa) ++ f :: take (j - S i) (drop (S i) (frames ssa))).
    { rewrite <- (take_drop_middle (frames ssa) i f Hf) at 1. rewrite take_app, length_take, Nat.min_l by lia.
      rewrite take_take, Nat.min_r by lia. f_equal. destruct (j - i) as [|d] eqn:Hd; [lia|]. cbn [take]. repeat f_equal. lia. }
    rewrite Htake, map_app, sum_list_with_app. cbn [map sum_list_with id]. lia. }
  intros Hf Hf' Hr Hr' He. destruct (lt_eq_lt_dec i j) as [[Hij| ->]|Hij]; [|done|].
  - pose proof (Hlt i j f f' r r' Hf Hf' Hr Hij). lia.
  - pose proof (Hlt j i f' f r' r Hf' Hf Hr' Hij). lia.
Qed.

Lemma value_once t table s r r' v : exact_table call_sites ssa g t table -> s ∈ table -> (call_sites !! state_inline s = Some None) ->
  registers s !! r = Some (Some v) -> registers s !! r' = Some (Some v) -> r = r'.
Proof.
  intros Hex Hs Hsite. pose proof (et_states _ _ _ _ _ Hex) as Hall. rewrite Forall_forall in Hall.
  destruct (Hall s Hs) as (block & cb & b & fr & k & i & e & Hcb & Hb & Hfr & _ & He & (Hin & _ & _ & Hregs) & _).
  cbn [state_inline registers] in *. rewrite <- Hregs. rewrite <- Hin in Hsite.
  pose proof (before_own block b cb k e Hb Hcb (reaching_own _ _ _ He)) as Hown.
  assert (Hat : forall q, env_window ssa (block_inline cb) (frame_register_count fr)
      (before call_sites ssa g block (block_inline cb) b k e) !! q = Some (Some v) -> own_slot v (Z.to_nat (register_base ssa (block_inline cb)) + q)).
  { intros q Hq. apply lookup_take_Some in Hq as [Hq Hlt]. rewrite lookup_drop in Hq. destruct (Hown _ _ Hq) as [?|(inline & site & p & Hc & Hp & Hk)]; [done|].
    exfalso. destruct (uo_sites _ _ Huo inline site Hc) as (f' & fp & Hf' & _ & Hlen & _).
    assert (block_inline cb = inline); [|congruence].
    apply (windows_apart (block_inline cb) inline fr f' (Z.of_nat q) (Z.of_nat p) Hfr Hf'); [lia|lia|]. unfold variable in *. rewrite Nat2Z.id. lia. }
  intros H1%Hat H2%Hat. pose proof (own_slot_unique _ _ _ H1 H2). lia.
Qed.
End Once.

(** ** The frames of an exit *)

(** What the lowering relies on: the bodies of the unit have the register windows
    of the SSA frames and the instructions of its blocks, which name their frames; byte PCs are distinct in a
    body, a function has one body, and an instruction follows every spliced call. *)
Record bodies_ok (view : list BodyInstr) (unit : list UnitFrame) (ssa : SsaFunction) (g : ControlFlowGraph) : Prop := {
  bo_view : exists root, unit !! 0 = Some root /\ body root = view;
  bo_root : exists f, frames ssa !! 0 = Some f /\ frame_register_count f = register_count ssa;
  bo_registers : forall i f, frames ssa !! i = Some f -> exists u, unit !! i = Some u /\ body_register_count u = frame_register_count f;
  bo_sites : forall inline pc, (inline, pc) ∈ flat_map block_sites (blocks g) ->
    (0 <= pc)%Z /\ exists u, unit !! inline = Some u /\ Z.to_nat pc < length (body u);
  bo_inline : forall i b cb ins, ssa_blocks ssa !! i = Some b -> blocks g !! i = Some cb -> ins ∈ instrs b ->
    instr_inline ins = block_inline cb;
  bo_after : forall u site w, u ∈ unit -> call_site u = Some site -> unit !! site_parent site = Some w ->
    S (Z.to_nat (call_pc site)) < length (body w);
  bo_bytes : forall u, u ∈ unit -> NoDup (map instr_byte_pc (body u)) /\ (Z.of_nat (length (body u)) <= u32_max)%Z;
  bo_functions : forall u w, u ∈ unit -> w ∈ unit -> function_id u = function_id w ->
    body u = body w /\ body_register_count u = body_register_count w
}.

Section Exits.
Context (view : list BodyInstr) (tree : list InlineFrame) (unit : list UnitFrame) (ssa : SsaFunction) (g : ControlFlowGraph).
Context (t td : DominatorTree) (states : FrameStateTable) (a : Allocation) (m : ReprMap) (ivs : list LiveInterval).
Context (Hok : verify g = Ok tt) (Hssa : ssa_wf ssa g t) (Huo : unit_ok (map call_site unit) ssa).
Context (Hin : inline_verify unit = Ok tt) (Hb : bodies_ok view unit ssa g).
Context (Hex : exact_table (map call_site unit) ssa g td states).
Context (Hs : scan_sound ivs (reprs m) (register_budget a) (locations a) (spill_slot_counts a)).
Context (Hapart : forall u w, clashes ssa (reprs m) states u w -> locations a !! u <> locations a !! w).
Context (Hrv : repr_verify tree ssa m = Ok tt) (Hreprs : length (reprs m) = length (values ssa)) (Hivs : length ivs = length (values ssa)).
#[local] Abbreviation n := (length (values ssa)).
#[local] Abbreviation overflow := (overflow a).

Lemma unit_frame i u : unit !! i = Some u -> frame_ok unit i u.
Proof. intros Hu. pose proof (inline_verify_cases unit) as H. rewrite Hin in H. by apply H. Qed.

(** The body of a state. *)
Lemma state_body s : s ∈ states -> (0 <= state_pc s)%Z /\ exists u x, unit !! state_inline s = Some u
  /\ body u !! Z.to_nat (state_pc s) = Some x /\ instruction_pc x = state_pc s.
Proof.
  intros Hin'. destruct (bo_sites _ _ _ _ Hb (state_inline s) (state_pc s)) as (H0 & u & Hu & Hlt).
  { rewrite <- (et_sites _ _ _ _ _ Hex). change (state_inline s, state_pc s) with (state_site s). by apply list_elem_of_fmap_2. }
  split; [done|]. destruct (lookup_lt_is_Some_2 _ _ Hlt) as [x Hx]. exists u, x. split_and!; [done|done|].
  rewrite (fo_pcs _ _ _ (unit_frame _ _ Hu) _ _ Hx). lia.
Qed.

(** The state of a spliced call. *)
Definition call_state (s : AbstractFrameState) : Prop :=
  exists u site, u ∈ unit /\ call_site u = Some site /\ state_site s = (site_parent site, call_pc site).

Lemma caller_cases k s : states !! k = Some s ->
  caller s = None \/ exists j c, caller s = Some j /\ states !! j = Some c /\ j < k /\ call_state c.
Proof.
  intros Hk. pose proof (et_linked _ _ _ _ _ Hex) as Hl. rewrite Forall_forall in Hl. specialize (Hl s ltac:(by eapply list_elem_of_lookup_2)).
  unfold linked in Hl. rewrite map_lookup in Hl. destruct (unit !! state_inline s) as [u|] eqn:Hu; cbn in Hl; [|by left].
  destruct (call_site u) as [site|] eqn:Hsite; [|by left]. destruct Hl as (j & c & Hc & Hj & Hsc). right. exists j, c.
  split_and!; [done|done| |].
  - pose proof (fo_site _ _ _ (unit_frame _ _ Hu)) as H. rewrite Hsite in H. destruct H as (_ & Hlt & _).
    pose proof (et_sites _ _ _ _ _ Hex) as Hsites. pose proof (verify_sites g Hok) as Hsort. rewrite <- Hsites in Hsort.
    destruct (decide (j < k)) as [|Hge]; [done|]. exfalso. destruct (decide (j = k)) as [-> |Hne].
    + assert (c = s) as -> by congruence. unfold state_site in Hsc. injection Hsc as Hi _. lia.
    + pose proof (sorted_lookup _ _ Hsort k j (state_site s) (state_site c)) as Hlt'. rewrite !map_lookup, Hk, Hj in Hlt'.
      specialize (Hlt' eq_refl eq_refl ltac:(lia)). rewrite Hsc in Hlt'. unfold site_lt, state_site in Hlt'. simpl in Hlt'. lia.
  - exists u, site. split_and!; [by eapply list_elem_of_lookup_2|done|done].
Qed.

(** What a rebuilt frame is: the slots of the registers, the function, and the
    instruction itself or, in a caller, the one after the call. *)
Record rebuilt (s : AbstractFrameState) (resume : ResumeAt) (f : DeoptFrame) : Prop := {
  rb_lowered : lower_slots ssa a (reprs m) 0 (registers s) (state_pc s) = Ok (slots f);
  rb_values : Forall2 (slot_ok ssa (reprs m) a) (registers s) (slots f);
  rb_frame : exists u x, unit !! state_inline s = Some u /\ resume_function f = function_id u /\ resume_byte_pc f = instr_byte_pc x
    /\ match resume with
       | AtInstruction => body u !! Z.to_nat (state_pc s) = Some x
       | AfterCall => body u !! S (Z.to_nat (state_pc s)) = Some x
           /\ exists c, body u !! Z.to_nat (state_pc s) = Some c /\ is_call (body_op c) = true
       end
}.

Lemma byte_pc_at_Ok l pc x : l !! Z.to_nat pc = Some x -> byte_pc_at l pc = Ok (instr_byte_pc x).
Proof. intros Hx. unfold byte_pc_at. by rewrite Hx. Qed.

Lemma state_values s v : s ∈ states -> Some v ∈ registers s -> v < n.
Proof. intros Hin' Hv. destruct (et_values _ _ _ _ _ Hex s v Hin' Hv) as (d & Hd & _). by eapply lookup_lt_Some. Qed.

Lemma lower_frame_cases s resume : s ∈ states -> (resume = AfterCall -> call_state s) ->
  match lower_frame unit ssa a m s resume with
  | Ok f => rebuilt s resume f
  | Err e => overflow e
  | _ => False
  end.
Proof.
  intros Hin' Hcall. destruct (state_body s Hin') as (H0 & u & x & Hu & Hx & Hpc). unfold lower_frame.
  rewrite (proj2 (index_Ok _ _ _) Hu). cbn [rbind].
  pose proof (lower_slots_cases ssa g t (reprs m) a ivs Hssa Hs Hreprs Hivs (registers s) (state_pc s) 0 (fun v => state_values s v Hin')) as Hsl.
  destruct (lower_slots _ _ _ _ _ _) as [sl|e| |] eqn:Hlow; cbn [rbind]; [|done..]. destruct resume.
  - rewrite (byte_pc_at_Ok _ _ x Hx). cbn [rbind]. split; [done|done|]. exists u, x. done.
  - destruct (Hcall eq_refl) as (w & site & Hw & Hsite & Hss). unfold state_site in Hss. injection Hss as Hi Hp.
    assert (Hus : u ∈ unit) by (by eapply list_elem_of_lookup_2). rewrite Hi in Hu.
    pose proof (bo_after _ _ _ _ Hb w site u Hw Hsite Hu) as Hafter. destruct (lookup_lt_is_Some_2 _ _ Hafter) as [y Hy].
    rewrite <- Hp in Hy, Hafter.
    assert (Hnext : ((state_pc s + 1) mod 4294967296 = state_pc s + 1)%Z).
    { apply Z.mod_small. pose proof (proj2 (bo_bytes _ _ _ _ Hb u Hus)) as Hlen. unfold u32_max in Hlen. lia. }
    rewrite Hnext, (byte_pc_at_Ok _ _ y) by (rewrite Z2Nat.inj_add by lia; by rewrite Nat.add_1_r). cbn [rbind].
    split; [done|done|]. exists u, y. rewrite Hi. split_and!; [done..|]. exists x. split; [done|].
    apply list_elem_of_lookup in Hw as [k Hw]. pose proof (fo_site _ _ _ (unit_frame _ _ Hw)) as H. rewrite Hsite in H.
    destruct H as (_ & _ & _ & w' & x' & Hw' & Hx' & Hop). assert (w' = u) as -> by congruence. rewrite <- Hp in Hx'.
    assert (x' = x) as -> by congruence. rewrite Hop. by unfold expected_op; destruct (kind site).
Qed.

(** The frames of a state below those of its callers. *)
Inductive chain_of : AbstractFrameState -> ResumeAt -> list DeoptFrame -> Prop :=
| chain_root s resume f : caller s = None -> rebuilt s resume f -> chain_of s resume [f]
| chain_call s resume f k c fs : caller s = Some k -> states !! k = Some c -> rebuilt s resume f ->
    chain_of c AfterCall fs -> chain_of s resume (fs ++ [f]).

Lemma lower_chain_cases fuel : forall k s resume chain, states !! k = Some s -> k < fuel -> (resume = AfterCall -> call_state s) ->
  match lower_chain unit ssa states a m fuel s resume chain with
  | Ok l => exists fs, l = fs ++ chain /\ chain_of s resume fs
  | Err e => overflow e
  | _ => False
  end.
Proof.
  induction fuel as [|fuel IH]; intros k s resume chain Hk Hf Hcall; [lia|]. cbn [lower_chain].
  pose proof (lower_frame_cases s resume ltac:(by eapply list_elem_of_lookup_2) Hcall) as Hfr.
  destruct (lower_frame _ _ _ _ _ _) as [f|e| |]; cbn [rbind]; [|done..].
  destruct (caller_cases k s Hk) as [Hc|(j & c & Hc & Hj & Hlt & Hcs)]; rewrite Hc.
  - exists [f]. split; [done|]. by constructor.
  - rewrite (proj2 (index_Ok _ _ _) Hj). cbn [rbind]. specialize (IH j c AfterCall (f :: chain) Hj ltac:(lia) (fun _ => Hcs)).
    destruct (lower_chain _ _ _ _ _ _ _ _ _) as [l|e| |]; [|done..]. destruct IH as (fs & -> & Hfs).
    exists (fs ++ [f]). split; [by rewrite <- app_assoc|]. by eapply chain_call.
Qed.

(** ** The inputs *)

Lemma sort_by_id {A} (le : A -> A -> bool) l : StronglySorted (fun x y => le x y = true) l -> sort_by le l = l.
Proof.
  induction 1 as [|x l _ IH Hx]; [done|]. unfold sort_by in *. cbn [foldr]. rewrite IH. destruct l as [|y l]; [done|]. cbn [insert_by].
  apply Forall_cons in Hx as [-> _]. done.
Qed.

Lemma instr_sites : map site_of_instr (flat_map instrs (ssa_blocks ssa)) = flat_map block_sites (blocks g).
Proof.
  assert (Hgen : forall bs cbs, length bs = length cbs ->
    (forall k b cb, bs !! k = Some b -> cbs !! k = Some cb -> map site_of_instr (instrs b) = block_sites cb) ->
    map site_of_instr (flat_map instrs bs) = flat_map block_sites cbs).
  { induction bs as [|b bs IH]; intros [|cb cbs] Hlen H; [done|done|done|]. cbn [flat_map]. rewrite map_app, (H 0 b cb), (IH cbs); [done|by injection Hlen| |done|done].
    intros k b' cb' Hb' Hcb'. by apply (H (S k)). }
  apply Hgen; [apply (sw_len _ _ _ Hssa)|]. intros k b cb Hbk Hcb.
  destruct (sw_layout _ _ _ Hssa k b Hbk) as (cb' & Hcb' & Hlay). assert (cb' = cb) as -> by congruence.
  unfold block_sites. rewrite <- Hlay, map_map. apply map_ext_in. intros i Hi%list_elem_of_In. unfold site_of_instr.
  by rewrite (bo_inline _ _ _ _ Hb k b cb i Hbk Hcb Hi).
Qed.

Lemma sorted_sites : sort_by site_le (map site_of_instr (flat_map instrs (ssa_blocks ssa))) = map state_site states.
Proof.
  rewrite instr_sites, (et_sites _ _ _ _ _ Hex). apply sort_by_id. pose proof (verify_sites g Hok) as H.
  induction H as [|x l _ IH Hx]; constructor; [done|]. eapply Forall_impl; [exact Hx|]. intros y Hy. unfold site_le, site_lt in *.
  rewrite orb_true_iff, andb_true_iff, Nat.ltb_lt, Nat.eqb_eq, Z.leb_le. lia.
Qed.

Lemma validate_state_cases s : s ∈ states ->
  match validate_state unit ssa a m s with Ok _ => True | Err e => overflow e | _ => False end.
Proof.
  intros Hin'. destruct (state_body s Hin') as (H0 & u & x & Hu & Hx & Hpc). unfold validate_state.
  rewrite (proj2 (index_Ok _ _ _) Hu). cbn [rbind]. rewrite (proj2 (index_Ok _ _ _) Hx). cbn [rbind]. rewrite Hpc, Z.eqb_refl. cbn [negb].
  destruct (et_width _ _ _ _ _ Hex s Hin') as (f & Hf & Hw). unfold frame_registers. rewrite (proj2 (index_Ok _ _ _) Hf). cbn [rbind].
  rewrite Hw, Nat.eqb_refl. cbn [negb].
  pose proof (lower_slots_cases ssa g t (reprs m) a ivs Hssa Hs Hreprs Hivs (registers s) (state_pc s) 0 (fun v => state_values s v Hin')) as Hsl.
  by destruct (lower_slots _ _ _ _ _ _).
Qed.

Lemma for_each_outcome {E A} (f : A -> res E Datatypes.unit) (P : E -> Prop) l :
  (forall x, x ∈ l -> match f x with Ok _ => True | Err e => P e | _ => False end) ->
  match for_each f l with Ok _ => True | Err e => P e | _ => False end.
Proof.
  intros H. destruct (for_each_cases f l) as [[-> _]|(x & Hx & _ & ->)]; [done|by apply H].
Qed.

Lemma validate_inputs_cases : match validate_inputs tree unit ssa states a m with Ok _ => True | Err e => overflow e | _ => False end.
Proof.
  unfold validate_inputs. rewrite Hrv. cbn [map_err rbind]. rewrite (ss_len _ _ _ _ _ Hs), Hivs, Nat.eqb_refl. cbn [negb].
  rewrite sorted_sites. change (fun s => (state_inline s, state_pc s)) with state_site. rewrite bool_decide_true by done. cbn [negb].
  apply for_each_outcome. apply validate_state_cases.
Qed.

Lemma lower_table_cases :
  match lower_table tree unit ssa states a m with
  | Ok table => Forall2 (fun s => chain_of s AtInstruction) states table
  | Err e => overflow e
  | _ => False
  end.
Proof.
  unfold lower_table. pose proof validate_inputs_cases as Hv. destruct (validate_inputs _ _ _ _ _ _) as [u|e| |]; cbn [rbind]; [|done..].
  set (f := fun s => lower_chain unit ssa states a m (S (length states)) s AtInstruction []).
  assert (Hf : forall s, s ∈ states -> match f s with Ok l => chain_of s AtInstruction l | Err e => overflow e | _ => False end).
  { intros s [k Hk]%list_elem_of_lookup. pose proof (lower_chain_cases (S (length states)) k s AtInstruction [] Hk) as H.
    unfold f. destruct (lower_chain _ _ _ _ _ _ _ _ _) as [l|e| |]; [|by apply H; [apply lookup_lt_Some in Hk; lia|]..].
    destruct H as (fs & -> & Hfs); [apply lookup_lt_Some in Hk; lia|done|]. by rewrite app_nil_r. }
  pose proof (collect_results_Ok f states) as Hc. destruct (collect_results f states) as [table|e| |].
  - apply Forall2_same_length_lookup. split; [by eapply Forall2_length|]. intros k s l Hks Hkl.
    assert (Hfs : f s = Ok l) by (by eapply (Forall2_lookup_lr _ _ _ _ _ _ Hc)). specialize (Hf s ltac:(by eapply list_elem_of_lookup_2)).
    by rewrite Hfs in Hf.
  - destruct Hc as (s & Hin' & Hfs). specialize (Hf s Hin'). destruct (f s); by simplify_eq.
  - destruct Hc as (s & Hin' & Hfs). specialize (Hf s Hin'). by destruct (f s).
  - destruct Hc as (s & Hin' & Hfs). specialize (Hf s Hin'). by destruct (f s).
Qed.

(** ** The limits *)

#[local] Abbreviation total := (spill_gpr (spill_slot_counts a) + spill_fp (spill_slot_counts a)).

Definition the_limits : DeoptVerifyLimits :=
  mkLimits (Z.to_nat (register_count ssa)) (Z.of_nat (gpr (register_budget a) + fp (register_budget a))) 0
    (if total =? 0 then 0%Z else (Z.of_nat (total - 1) * 8)%Z).

Lemma verify_limits_cases : match verify_limits ssa a with Ok l => l = the_limits | Err e => overflow e | _ => False end.
Proof.
  unfold verify_limits, the_limits. destruct (fits_u32 total) eqn:Hf; cbn [negb].
  2:{ split; [by eexists|]. by apply (many_spills_u32 a _ Hf). }
  destruct (Nat.eqb_spec total 0) as [H0|H0]; cbn [rbind]; [done|].
  pose proof (spill_offset_cases a (Z.of_nat (total - 1)) ltac:(lia)) as Ho. destruct (spill_offset _) as [o|e| |]; cbn [rbind]; [|done..].
  by destruct Ho as [-> _].
Qed.

Lemma place_stack_in slot d : slot < total -> (let* o := spill_offset (Z.of_nat slot) in Ok (StackSlot o)) = Ok d ->
  forall pc idx, Table.check_location the_limits pc idx d = Ok tt.
Proof.
  intros Hslot H pc idx. inv_bind H. injection H as <-. pose proof (spill_offset_cases a (Z.of_nat slot) ltac:(lia)) as Ho. rewrite Hbind in Ho.
  destruct Ho as [-> _]. cbn [Table.check_location the_limits min_stack_slot_offset max_stack_slot_offset].
  rewrite (proj2 (Nat.eqb_neq total 0)) by lia. rewrite (proj2 (Z.ltb_ge _ _)) by lia. rewrite (proj2 (Z.ltb_ge _ _)) by lia. cbn [orb].
  rewrite Z.rem_mul by lia. done.
Qed.

Lemma place_in v l d : locations a !! v = Some l -> lower_location a v l = Ok d ->
  forall pc idx, Table.check_location the_limits pc idx d = Ok tt.
Proof.
  intros Hl H. destruct l as [c r|c k]; cbn [lower_location] in H.
  - destruct (Nat.leb_spec (budget_count (register_budget a) c) r) as [|Hr]; [done|]. injection H as <-. intros pc idx. cbn [Table.check_location the_limits machine_register_count].
    destruct c; simpl in Hr; (rewrite (proj2 (Z.leb_gt _ _)); [done|lia]).
  - destruct (Nat.leb_spec (spill_count (spill_slot_counts a) c) k) as [|Hk]; [done|]. destruct c; simpl in Hk.
    + apply (place_stack_in k); [lia|exact H].
    + destruct (fits_u32 _); [|done]. apply (place_stack_in (spill_gpr (spill_slot_counts a) + k)); [lia|exact H].
Qed.

(** ** The schema check *)

(** Why the lowering can fail: more spill slots than byte offsets; a spliced frame
    wider than the root; one value in two registers of a spliced frame; a spliced
    instruction numbered past the end of the root. *)
Inductive deopt_failure : DeoptLoweringError -> Prop :=
| fail_overflow e : overflow e -> deopt_failure e
| fail_wide s byte_pc : s ∈ states -> state_inline s <> 0 -> Z.to_nat (register_count ssa) < length (registers s) ->
    deopt_failure (InvalidDeoptTable (FrameSlotCountOutOfRange byte_pc (Z.to_nat (register_count ssa)) (length (registers s))))
| fail_twice s byte_pc r r' v d : s ∈ states -> state_inline s <> 0 -> r < r' -> registers s !! r = Some (Some v) -> registers s !! r' = Some (Some v) ->
    deopt_failure (InvalidDeoptTable (DuplicateLocation byte_pc r r' d))
| fail_view s : s ∈ states -> state_inline s <> 0 -> length view <= Z.to_nat (state_pc s) ->
    deopt_failure (InstructionPcMismatch (Z.min u32_max (Z.of_nat (length view))) (state_pc s)).

Lemma check_slots_cases pc all : (forall j s, all !! j = Some s -> forall idx, Table.check_location the_limits pc idx (slot_location s) = Ok tt) ->
  forall l idx seen, l = drop idx all ->
  (forall key j, seen !! key = Some j -> j < idx /\ exists s, all !! j = Some s /\ location_key (slot_location s) = Some key) ->
  match Table.check_slots the_limits pc idx l seen with
  | Ok _ => True
  | Err e => exists i j s s', i < j /\ all !! i = Some s /\ all !! j = Some s' /\ location_key (slot_location s) = location_key (slot_location s')
      /\ location_key (slot_location s) <> None /\ e = DuplicateLocation pc i j (slot_location s')
  | _ => False
  end.
Proof.
  intros Hloc. induction l as [|s l IH]; intros idx seen Hl Hseen; cbn [Table.check_slots]; [done|].
  assert (Hidx : all !! idx = Some s). { pose proof (lookup_drop all idx 0) as H. by rewrite <- Hl, Nat.add_0_r in H. }
  assert (Hl' : l = drop (S idx) all) by (by rewrite <- Nat.add_1_r, <- drop_drop, <- Hl).
  destruct (location_key (slot_location s)) as [key|] eqn:Hkey; cbn [mbind option_bind].
  - destruct (seen !! key) as [j|] eqn:Hj.
    { destruct (Hseen key j Hj) as (Hlt & s' & Hs' & Hk'). exists j, idx, s', s. rewrite Hk'. split_and!; [done|done|done|done|done|done]. }
    rewrite (Hloc idx s Hidx). cbn [rbind]. apply IH; [done|]. intros k j' Hk. destruct (decide (k = key)) as [-> |Hne].
    + rewrite lookup_insert_eq in Hk. injection Hk as <-. split; [lia|eauto].
    + rewrite lookup_insert_ne in Hk by done. destruct (Hseen k j' Hk) as [? ?]. split; [lia|done].
  - rewrite (Hloc idx s Hidx). cbn [rbind]. apply IH; [done|]. intros k j' Hk. destruct (Hseen k j' Hk) as [? ?]. split; [lia|done].
Qed.

Lemma key_location d d' : location_key d = location_key d' -> location_key d <> None -> d = d'.
Proof. destruct d, d'; cbn; congruence. Qed.

Lemma frame_verify_cases s resume f : s ∈ states -> rebuilt s resume f ->
  match deopt_frame_verify the_limits f with Ok _ => True | Err e => deopt_failure (InvalidDeoptTable e) | _ => False end.
Proof.
  intros Hin' Hr. pose proof (rb_values _ _ _ Hr) as Hv. pose proof (Forall2_length _ _ _ Hv) as Hlen. unfold deopt_frame_verify.
  cbn [the_limits max_frame_slots]. destruct (Nat.ltb_spec (Z.to_nat (register_count ssa)) (length (slots f))) as [Hw|_].
  { rewrite <- Hlen in *. apply fail_wide; [done| |done]. intros H0. destruct (et_width _ _ _ _ _ Hex s Hin') as (fr & Hfr & Hwid).
    rewrite H0 in Hfr. destruct (bo_root _ _ _ _ Hb) as (fr' & Hfr' & Hc). assert (fr' = fr) as -> by congruence. rewrite Hwid, Hc in Hw. lia. }
  assert (Hslot : forall j sl, slots f !! j = Some sl -> exists o, registers s !! j = Some o /\ slot_ok ssa (reprs m) a o sl).
  { intros j sl Hj. destruct (Forall2_lookup_r _ _ _ _ _ Hv Hj) as (o & ? & ?). eauto. }
  assert (Hloc : forall j sl, slots f !! j = Some sl -> forall idx, Table.check_location the_limits (resume_byte_pc f) idx (slot_location sl) = Ok tt).
  { intros j sl Hj idx. destruct (Hslot j sl Hj) as (o & _ & _ & Hat). destruct (slot_location sl) eqn:Hd; [..|done];
      destruct Hat as (v & l & _ & _ & Hl & _ & Hlow); by apply (place_in v l). }
  pose proof (check_slots_cases (resume_byte_pc f) (slots f) Hloc (slots f) 0 ∅ ltac:(by rewrite drop_0) ltac:(intros k j; by rewrite lookup_empty)) as Hc.
  destruct (Table.check_slots the_limits (resume_byte_pc f) 0 (slots f) ∅) as [u|e| |]; [done| |done|done].
  destruct Hc as (i & j & s1 & s2 & Hij & H1 & H2 & Hk & Hne & ->).
  destruct (Hslot i s1 H1) as (o1 & Ho1 & _ & Hs1). destruct (Hslot j s2 H2) as (o2 & Ho2 & _ & Hs2).
  apply key_location in Hk; [|done]. rewrite <- Hk in *.
  assert (Hat : exists v1 v2 l, o1 = Some v1 /\ o2 = Some v2 /\ ~ literal ssa (reprs m) v1 /\ ~ literal ssa (reprs m) v2
    /\ locations a !! v1 = Some l /\ locations a !! v2 = Some l).
  { destruct (slot_location s1); [..|done]; destruct Hs1 as (v1 & l1 & ? & ? & ? & ? & _), Hs2 as (v2 & l2 & ? & ? & ? & ? & _);
      (exists v1, v2, l1; split_and!; [done..|congruence]). }
  destruct Hat as (v1 & v2 & l & -> & -> & Hn1 & Hn2 & Hl1 & Hl2). destruct (decide (v1 = v2)) as [<- |Hv12].
  { apply (fail_twice s _ i j v1); [done| |done|done|done]. intros H0.
    assert (i = j); [|lia]. eapply (value_once _ _ _ _ Huo Hssa); [exact Hex|exact Hin'| |exact Ho1|exact Ho2].
    rewrite H0, map_lookup. destruct (bo_view _ _ _ _ Hb) as (root & Hroot & _). rewrite Hroot. cbn.
    pose proof (fo_site _ _ _ (unit_frame _ _ Hroot)) as Hsite. by destruct (call_site root) as [site|]; [destruct Hsite|]. }
 
  exfalso. apply (Hapart v1 v2); [|congruence]. exists s. split_and!; [done|by eapply list_elem_of_lookup_2|by eapply list_elem_of_lookup_2|done|done|done].
Qed.

(** The frames of a chain are those of states; all but the last are callers. *)
Lemma chain_frames s resume fs : chain_of s resume fs -> s ∈ states -> forall k f, fs !! k = Some f ->
  exists s' r', s' ∈ states /\ rebuilt s' r' f /\ (r' = AfterCall \/ (k + 1 = length fs /\ r' = resume)).
Proof.
  induction 1 as [s resume f Hc Hr|s resume f j c fs Hc Hj Hr _ IH]; intros Hin' k f' Hk.
  - destruct k as [|k]; [|done]. injection Hk as <-. exists s, resume. split_and!; [done|done|by right].
  - rewrite length_app. cbn [length]. destruct (decide (k < length fs)) as [Hlt|Hge].
    + rewrite lookup_app_l in Hk by done. destruct (IH ltac:(by eapply list_elem_of_lookup_2) k f' Hk) as (s' & r' & Hs' & Hr' & Hlast).
      exists s', r'. split_and!; [done|done|]. left. by destruct Hlast as [|[_ ?]].
    + rewrite lookup_app_r in Hk by lia. destruct (k - length fs) as [|d] eqn:Hd; [|done]. injection Hk as <-. exists s, resume.
      split_and!; [done|done|]. right. split; [lia|done].
Qed.

Lemma chain_last s resume fs : chain_of s resume fs -> exists f, last fs = Some f /\ rebuilt s resume f.
Proof. intros []; [by eexists|]. eexists. by rewrite last_snoc. Qed.

Lemma table_verify_cases table : Forall2 (fun s => chain_of s AtInstruction) states table ->
  match deopt_table_verify the_limits table with Ok _ => True | Err e => deopt_failure (InvalidDeoptTable e) | _ => False end.
Proof.
  intros Ht. unfold deopt_table_verify. assert (Hrange : (max_stack_slot_offset the_limits <? min_stack_slot_offset the_limits)%Z = false).
  { apply Z.ltb_ge. cbn. destruct (total =? 0); lia. }
  rewrite Hrange. apply for_each_outcome. intros chain [k Hk]%list_elem_of_lookup.
  destruct (Forall2_lookup_r _ _ _ _ _ Ht Hk) as (s & Hks & Hch). assert (Hin' : s ∈ states) by (by eapply list_elem_of_lookup_2).
  unfold chain_verify. rewrite Hrange. destruct chain as [|f0 rest]; [by apply chain_last in Hch as (? & ? & _)|].
  apply (for_each_outcome _ (fun e => deopt_failure (InvalidDeoptTable e))). intros f [j Hj]%list_elem_of_lookup.
  destruct (chain_frames s AtInstruction _ Hch Hin' j f Hj) as (s' & r' & Hs' & Hr' & _). by eapply frame_verify_cases.
Qed.

(** ** The rebuilt frames and the exits *)

Lemma list_find_unique {A} (key : A -> Z) (l : list A) k x : NoDup (map key l) -> l !! k = Some x ->
  list_find (fun i => key i = key x) l = Some (k, x).
Proof.
  intros Hnd Hk. apply list_find_Some. split_and!; [done|done|]. intros j y Hj Hlt He.
  assert (j = k) by (eapply NoDup_lookup; [exact Hnd|rewrite map_lookup, Hj; simpl; by rewrite He|by rewrite map_lookup, Hk]). lia.
Qed.

Lemma check_frame_Ok s r f len depth : s ∈ states -> rebuilt s r f -> r = AfterCall \/ depth + 1 = len ->
  check_frame unit len depth f = Ok tt.
Proof.
  intros Hin' Hr Hlast. destruct (rb_frame _ _ _ Hr) as (u & x & Hu & Hfn & Hpc & Hx). assert (Hus : u ∈ unit) by (by eapply list_elem_of_lookup_2).
  unfold check_frame. destruct (list_find (fun b => function_id b = resume_function f) unit) as [[i b]|] eqn:Hfind.
  2:{ apply list_find_None in Hfind. rewrite Forall_forall in Hfind. by destruct (Hfind u Hus). }
  apply list_find_Some in Hfind as (Hi & Hid & _). assert (Hbs : b ∈ unit) by (by eapply list_elem_of_lookup_2).
  destruct (bo_functions _ _ _ _ Hb b u Hbs Hus ltac:(congruence)) as [Hbody Hcount]. rewrite Hbody, Hcount.
  pose proof (Forall2_length _ _ _ (rb_values _ _ _ Hr)) as Hlen. destruct (et_width _ _ _ _ _ Hex s Hin') as (fr & Hfr & Hw).
  destruct (bo_registers _ _ _ _ Hb _ _ Hfr) as (u' & Hu' & Hreg). assert (u' = u) as -> by congruence.
  rewrite Hreg, <- Hlen, Hw, Nat.eqb_refl. cbn [negb]. rewrite Hpc. pose proof (proj1 (bo_bytes _ _ _ _ Hb u Hus)) as Hnd. destruct r.
  - rewrite (list_find_unique instr_byte_pc _ _ _ Hnd Hx). destruct Hlast as [|Hlast]; [done|]. by rewrite (proj2 (Nat.ltb_ge _ _)) by lia.
  - destruct Hx as [Hx (c & Hc & Hcall)]. rewrite (list_find_unique instr_byte_pc _ _ _ Hnd Hx), Hc, Hcall. cbn [negb]. by rewrite andb_false_r.
Qed.

Lemma check_chains_Ok table : Forall2 (fun s => chain_of s AtInstruction) states table -> for_each (check_chain unit) table = Ok tt.
Proof.
  intros Ht. apply for_each_Ok, Forall_forall. intros chain [k Hk]%list_elem_of_lookup.
  destruct (Forall2_lookup_r _ _ _ _ _ Ht Hk) as (s & Hks & Hch). assert (Hin' : s ∈ states) by (by eapply list_elem_of_lookup_2).
  apply for_each_i_Ok. intros j f Hj. destruct (chain_frames s AtInstruction _ Hch Hin' j f Hj) as (s' & r' & Hs' & Hr' & Hlast).
  apply (check_frame_Ok s' r'); [done|done|]. cbn. tauto.
Qed.

Lemma for_each_i_bound {E A} (f : nat -> A -> res E Datatypes.unit) (P : E -> Prop) l : forall i,
  (forall j x, l !! j = Some x -> match f (i + j) x with Ok _ => True | Err e => P e | _ => False end) ->
  match for_each_i f i l with Ok _ => True | Err e => P e | _ => False end.
Proof.
  induction l as [|x l IH]; intros i H; cbn [for_each_i]; [done|]. pose proof (H 0 x eq_refl) as Hx. rewrite Nat.add_0_r in Hx.
  destruct (f i x) as [u|e| |]; cbn [rbind]; [|done..]. apply IH. intros j y Hj. rewrite Nat.add_succ_comm. by apply (H (S j)).
Qed.

Lemma check_slot_of_Ok s f byte_pc r o : s ∈ states -> rebuilt s AtInstruction f -> registers s !! r = Some o ->
  check_slot_of ssa a m s byte_pc f r o = Ok tt.
Proof.
  intros Hin' Hr Hro. destruct (lower_slots_lookup ssa (reprs m) a _ _ 0 _ (rb_lowered _ _ _ Hr) r o Hro) as (sl & Hsl & Hlow).
  assert (Hsmall : Z.to_nat (Z.of_nat r mod 65536) = r).
  { destruct (et_width _ _ _ _ _ Hex s Hin') as (fr & Hfr & Hw). pose proof (window_le (map call_site unit) ssa Huo _ _ Hfr).
    pose proof (uo_total _ _ Huo) as Ht. unfold u16_max in Ht. apply lookup_lt_Some in Hro. rewrite Z.mod_small by lia. lia. }
  unfold check_slot_of. cbn [Nat.add] in Hlow. rewrite Hlow. cbn [rbind]. rewrite Hsmall, (proj2 (index_Ok _ _ _) Hsl). cbn [rbind].
  by rewrite !bool_decide_true by done.
Qed.

Lemma check_exit_cases table k s : Forall2 (fun s => chain_of s AtInstruction) states table -> states !! k = Some s ->
  match check_exit view ssa a m table k s with Ok _ => True | Err e => deopt_failure e | _ => False end.
Proof.
  intros Ht Hk. assert (Hin' : s ∈ states) by (by eapply list_elem_of_lookup_2). unfold check_exit, byte_pc_at.
  destruct (view !! Z.to_nat (state_pc s)) as [x|] eqn:Hx; cbn [rbind].
  2:{ apply fail_view; [done| |by apply lookup_ge_None]. intros H0. destruct (state_body s Hin') as (_ & u & x & Hu & Hbx & _).
      destruct (bo_view _ _ _ _ Hb) as (root & Hroot & Hview). rewrite H0, Hroot in Hu. injection Hu as <-. congruence. }
  destruct (Forall2_lookup_l _ _ _ _ _ Ht Hk) as (chain & Hc & Hch). rewrite Hc.
  destruct (chain_last _ _ _ Hch) as (f & Hf & Hr). unfold innermost. rewrite Hf. cbn [rbind].
  destruct (et_width _ _ _ _ _ Hex s Hin') as (fr & Hfr & Hw). unfold frame_registers. rewrite (proj2 (index_Ok _ _ _) Hfr). cbn [rbind].
  rewrite <- (Forall2_length _ _ _ (rb_values _ _ _ Hr)), Hw, Nat.eqb_refl. cbn [negb].
  apply for_each_i_bound. intros r o Hro. cbn [Nat.add]. by rewrite (check_slot_of_Ok s f).
Qed.

Lemma lowering_verify_cases table : lower_table tree unit ssa states a m = Ok table ->
  Forall2 (fun s => chain_of s AtInstruction) states table ->
  match lowering_verify view tree unit ssa states a m table with Ok _ => True | Err e => deopt_failure e | _ => False end.
Proof.
  intros Hlow Ht. unfold lowering_verify. pose proof validate_inputs_cases as Hv.
  destruct (validate_inputs _ _ _ _ _ _) as [u|e| |]; cbn [rbind]; [|by apply fail_overflow|done|done].
  pose proof verify_limits_cases as Hl. destruct (verify_limits ssa a) as [limits|e| |]; cbn [rbind]; [subst limits|by apply fail_overflow|done|done].
  pose proof (table_verify_cases table Ht) as Htv. destruct (deopt_table_verify the_limits table) as [u'|e| |]; cbn [map_err rbind]; [|done..].
  rewrite (Forall2_length _ _ _ Ht), Nat.eqb_refl. cbn [negb]. rewrite (check_chains_Ok table Ht). cbn [rbind].
  pose proof (for_each_i_bound (check_exit view ssa a m table) deopt_failure states 0 (fun j s Hj => check_exit_cases table j s Ht Hj)) as Hx.
  destruct (for_each_i _ 0 states) as [u''|e| |]; cbn [rbind]; [|done..]. rewrite Hlow. cbn [rbind]. by rewrite !bool_decide_true by done.
Qed.

Lemma deopt_build_cases :
  match deopt_build view tree unit ssa states a m with
  | Ok table => Forall2 (fun s => chain_of s AtInstruction) states table
  | Err e => deopt_failure e
  | _ => False
  end.
Proof.
  unfold deopt_build. pose proof lower_table_cases as Ht. destruct (lower_table _ _ _ _ _ _) as [table|e| |] eqn:Hlow; cbn [rbind]; [|by apply fail_overflow|done|done].
  pose proof (lowering_verify_cases table Hlow Ht) as Hv. by destruct (lowering_verify _ _ _ _ _ _ _ _).
Qed.
End Exits.


(** ** A spliced call

    The root passes its first register to a callee of three instructions, which adds
    to it twice and returns the sum; [tail] instructions of the root follow the call.
    [second] defines the second register of the root. *)

Definition call_cfg (tail : list Z) : ControlFlowGraph :=
  mkCfg [mkBlock 0 0 0 [0]%Z (Terminator.InlineCall 2 1) [2] [] [] false;
         mkBlock 1 0 1 tail Terminator.Return [] [] [2] false;
         mkBlock 2 1 0 [0; 1; 2]%Z (Terminator.InlineReturn 1) [1] [] [0] false] 0 [0; 2].

Definition call_ssa (tail : list SsaInstr) (params : Z) (second : ValueDef.t) : SsaFunction :=
  mkSsa [mkSsaBlock 0 [0; 1] [mkSsaInstr 0 0 Op.Call [] [] None None];
         mkSsaBlock 1 [5] tail;
         mkSsaBlock 2 [2] [mkSsaInstr 1 0 Op.AddImm [0] [0%Z] (Some 3) (Some 1%Z);
                           mkSsaInstr 1 1 Op.AddImm [3] [1%Z] (Some 4) (Some 1%Z);
                           mkSsaInstr 1 2 Op.ReturnValue [4] [1%Z] None None]]
        [mkValueData 0 (ValueDef.Param 0 0) 0;
         mkValueData 1 second 0;
         mkValueData 2 (ValueDef.Uninitialized 1) 2;
         mkValueData 3 (ValueDef.OpResult 1 0 Op.AddImm [0]) 2;
         mkValueData 4 (ValueDef.OpResult 1 1 Op.AddImm [3]) 2;
         mkValueData 5 (ValueDef.InlineResult 1 1 [4]) 1]
        0 2 [mkSsaFrame 2 params None; mkSsaFrame 2 1 None].

Definition root_body (ops : list Op) : list BodyInstr :=
  zip_with (fun k o => mkBodyInstr (Z.of_nat k) (Z.of_nat (8 * k)) o) (seq 0 (length ops)) ops.

Definition call_unit (ops : list Op) : list UnitFrame :=
  [mkUnitFrame 0 None 10 2 1 (root_body ops) false;
   mkUnitFrame 1 (Some (mkCallSite 0 0 1 (Plain 1) [0%Z])) 11 2 1 (root_body [Op.AddImm; Op.AddImm; Op.ReturnValue]) false].

Definition call_tree (tail : nat) : list InlineFrame :=
  [mkFrame (replicate (S tail) (mkMeta None 0)); mkFrame (map (mkMeta None) [ARITH_INT32; ARITH_INT32; 0]%Z)].

Definition call_dom : DominatorTree := mkDomTree [None; Some 2; Some 0] [0; 2; 1] Full.

(** The whole pipeline on such a unit. *)
Definition call_exits (tail : list SsaInstr) (params : Z) (second : ValueDef.t) (ops : list Op)
    : option (res DeoptLoweringError (list (list DeoptFrame))) :=
  let g := call_cfg (map instr_pc tail) in
  let ssa := call_ssa tail params second in
  match Pipeline.analyze (call_tree (length tail)) g ssa (mkBudget 3 1) with
  | Ok a =>
      match Pipeline.assign_homes (map call_site (call_unit ops)) g ssa a with
      | Ok h => Some (deopt_build (root_body ops) (call_tree (length tail)) (call_unit ops) ssa
                        (Pipeline.unit_frame_states h) (Pipeline.final_allocation h) (Pipeline.unit_reprs a))
      | _ => None
      end
  | _ => None
  end.

Definition return_sum (pc : Z) : SsaInstr := mkSsaInstr 0 pc Op.ReturnValue [5] [1%Z] None None.
Definition long_tail : list SsaInstr := [mkSsaInstr 0 1 Op.Nop [] [] None None; return_sum 2].

(** The callee has three instructions and the root two: the check looks up the third
    PC of the callee in the root and rejects the lowering; one more instruction in
    the root makes it pass. *)
Example callee_pc_read_in_root :
  inline_verify (call_unit [Op.Call; Op.ReturnValue]) = Ok tt
  /\ call_exits [return_sum 1] 1 (ValueDef.Uninitialized 1) [Op.Call; Op.ReturnValue] = Some (Err (InstructionPcMismatch 2 2))
  /\ exists table, call_exits long_tail 1 (ValueDef.Uninitialized 1) [Op.Call; Op.Nop; Op.ReturnValue] = Some (Ok table).
Proof. vm_compute. split; [reflexivity|]. split; [reflexivity|]. eexists. reflexivity. Qed.

(** The second register of the root is a parameter that nothing uses after the call.
    The exit before the second addition reads machine register 1 twice: as the
    integer sum of the callee and as the tagged parameter of the caller, which the
    sum has overwritten; a small integer read as a tagged word is a cell. *)
Example caller_home_overwritten :
  (table ← call_exits long_tail 2 (ValueDef.Param 1 1) [Op.Call; Op.Nop; Op.ReturnValue];
   match table with Ok l => map slots <$> l !! 4 | _ => None end)
  = Some [[mkSlot (MachineRegister 0) DTagged; mkSlot (MachineRegister 1) DTagged];
          [mkSlot (MachineRegister 0) DTagged; mkSlot (MachineRegister 1) DInt32]]
  /\ is_cell_bits (reconstitute DTagged 8) = true.
Proof. vm_compute. auto. Qed.

(** The unit of the theorem's instance. *)
Definition long_ssa : SsaFunction := call_ssa long_tail 1 (ValueDef.Uninitialized 1).
Definition long_cfg : ControlFlowGraph := call_cfg [1; 2]%Z.
Definition long_ops : list Op := [Op.Call; Op.Nop; Op.ReturnValue].

Lemma long_verified : verify long_cfg = Ok tt /\ ssa_verify long_ssa long_cfg call_dom = Ok tt /\ inline_verify (call_unit long_ops) = Ok tt.
Proof. vm_compute. auto. Qed.

Lemma long_inline : inline_inputs_dominated long_ssa long_cfg.
Proof.
  intros i b v d owner register ins j p u Hb Hv Hd Hdef Hp Hu.
  do 5 (destruct v as [|v]; [injection Hd as <-; discriminate Hdef|]). destruct v as [|v]; [|done].
  injection Hd as <-. injection Hdef as <- <- <-. destruct j as [|j]; [|done]. injection Hu as <-.
  exists (mkValueData 4 (ValueDef.OpResult 1 1 Op.AddImm [3]) 2). split; [done|]. cbn [def_block].
  destruct i as [|[|[|i]]]; [..|done]; injection Hb as <-; [by apply list_elem_of_In in Hv as [?|[?|[]]]| |by apply list_elem_of_In in Hv as [?|[]]].
  vm_compute in Hp. injection Hp as <-. apply dominator_refl.
Qed.

(** Facts about each of the instructions, by inspection. *)
Lemma long_instrs (P : SsaInstr -> Prop) : Forall P (flat_map instrs (ssa_blocks long_ssa)) ->
  forall b i, b ∈ ssa_blocks long_ssa -> i ∈ instrs b -> P i.
Proof.
  intros H b i Hb Hi. rewrite Forall_forall in H. apply H. apply list_elem_of_In, in_flat_map. exists b. by rewrite <- !list_elem_of_In.
Qed.

Lemma long_frames : frames_exist (call_tree 2) long_ssa.
Proof. refine (long_instrs (fun i => instr_inline i < 2) _). repeat (constructor; [cbn; lia|]). constructor. Qed.

Lemma long_moves : moves_shaped long_ssa.
Proof.
  refine (long_instrs (fun i => is_transparent (instr_op i) = true -> exists r u, result i = Some r /\ inputs i = [u]) _). repeat (constructor; [done|]). constructor. Qed.

Lemma long_sites : distinct_sites long_ssa.
Proof. apply (bool_decide_unpack _). vm_compute. reflexivity. Qed.

Lemma long_unit : unit_ok (map call_site (call_unit long_ops)) long_ssa.
Proof.
  split; [..|done|].
  - by intros f [-> |[-> |[]%elem_of_nil]%elem_of_cons]%elem_of_cons.
  - by vm_compute.
  - intros v d r Hd Hr. do 6 (destruct v as [|v]; [injection Hd as <-; try discriminate Hr; injection Hr as <-; done|]). done.
  - intros b i r Hb Hi. revert r. refine (long_instrs (fun i => forall r, result_register i = Some r -> (0 <= r)%Z) _ b i Hb Hi).
    repeat (constructor; [intros r Hr; cbn in Hr; by simplify_eq|]). constructor.
  - intros [|[|i]] site H; [done| |done]. injection H as <-. exists (mkSsaFrame 2 1 None), (mkSsaFrame 2 1 None).
    split_and!; [done|done|done|]. by repeat constructor.
Qed.

Lemma long_bodies : bodies_ok (root_body long_ops) (call_unit long_ops) long_ssa long_cfg.
Proof.
  split.
  - by eexists.
  - by eexists.
  - intros [|[|i]] f Hf; [..|done]; injection Hf as <-; by eexists.
  - intros inline pc Hs. assert (H : Forall (fun x => (0 <= x.2)%Z /\ exists u, call_unit long_ops !! x.1 = Some u /\ Z.to_nat x.2 < length (body u))
      (flat_map block_sites (blocks long_cfg))).
    { repeat (constructor; [cbn; split; [lia|eexists; split; [done|cbn; lia]]|]). constructor. }
    rewrite Forall_forall in H. by apply (H (inline, pc)).
  - intros i b cb ins Hb Hcb Hi. destruct i as [|[|[|i]]]; [..|done]; injection Hb as <-; injection Hcb as <-; apply list_elem_of_In in Hi; cbn in Hi;
      decompose [or] Hi; by subst.
  - intros u site w Hu Hsite Hw. apply list_elem_of_In in Hu as [<- |[<- |[]]]; [done|]. injection Hsite as <-. injection Hw as <-. cbn. lia.
  - intros u Hu. split; [|by apply list_elem_of_In in Hu as [<- |[<- |[]]]].
    apply list_elem_of_In in Hu as [<- |[<- |[]]]; apply (bool_decide_unpack _); vm_compute; reflexivity.
  - intros u w Hu Hw. apply list_elem_of_In in Hu as [<- |[<- |[]]]; apply list_elem_of_In in Hw as [<- |[<- |[]]]; done.
Qed.

Definition long_analyses : Pipeline.Analyses :=
  match Pipeline.analyze (call_tree 2) long_cfg long_ssa (mkBudget 3 1) with
  | Ok a => a
  | _ => Pipeline.mkAnalyses call_dom (mkLiveness [] []) (mkReprMap [] []) swap_allocation
  end.

Definition long_homes : Pipeline.Homes :=
  match Pipeline.assign_homes (map call_site (call_unit long_ops)) long_cfg long_ssa long_analyses with
  | Ok h => h
  | _ => Pipeline.mkHomes [] swap_allocation 0 0
  end.

Lemma long_assigned : Pipeline.analyze (call_tree 2) long_cfg long_ssa (mkBudget 3 1) = Ok long_analyses
  /\ Pipeline.assign_homes (map call_site (call_unit long_ops)) long_cfg long_ssa long_analyses = Ok long_homes.
Proof. vm_compute. auto. Qed.


(** The result of the addition is in no state: its block ends with it, and the merge
    that takes it is dead.  It still shares the register of the tagged parameter that
    the states after the merge name. *)
Definition branch_cfg : ControlFlowGraph :=
  mkCfg [mkBlock 0 0 0 [0]%Z (Terminator.Branch 2 1) [1; 2] [] [] false;
         mkBlock 1 0 1 [1]%Z Terminator.FallThrough [2] [] [0] false;
         mkBlock 2 0 2 [2; 3]%Z Terminator.Return [] [] [0; 1] false] 0 [0].

Definition branch_ssa : SsaFunction :=
  mkSsa [mkSsaBlock 0 [0; 1] [mkSsaInstr 0 0 Op.JumpIfFalse [0] [0%Z] None None];
         mkSsaBlock 1 [] [mkSsaInstr 0 1 Op.Add [1; 1] [1%Z; 1%Z] (Some 2) (Some 1%Z)];
         mkSsaBlock 2 [3] [mkSsaInstr 0 2 Op.LoadInt32 [] [] (Some 4) (Some 1%Z);
                           mkSsaInstr 0 3 Op.ReturnValue [4] [1%Z] None None]]
        [mkValueData 0 (ValueDef.Param 0 0) 0;
         mkValueData 1 (ValueDef.Param 1 1) 0;
         mkValueData 2 (ValueDef.OpResult 0 1 Op.Add [1; 1]) 1;
         mkValueData 3 (ValueDef.Phi 2 1 [1; 2]) 2;
         mkValueData 4 (ValueDef.OpResult 0 2 Op.LoadInt32 []) 2]
        0 2 [mkSsaFrame 2 2 None].

Example unnamed_result_overwrites_home :
  match Pipeline.analyze [mkFrame (map (mkMeta None) [0; ARITH_INT32; 0; 0]%Z)] branch_cfg branch_ssa (mkBudget 3 1) with
  | Ok a =>
      match Pipeline.assign_homes [None] branch_cfg branch_ssa a with
      | Ok h => Some (map (fun s => registers s) (Pipeline.unit_frame_states h), take 3 (reprs (Pipeline.unit_reprs a)),
                      take 3 (locations (Pipeline.final_allocation h)))
      | _ => None
      end
  | _ => None
  end
  = Some ([[Some 0; Some 1]; [Some 0; Some 1]; [Some 0; Some 3]; [Some 0; Some 4]], [Tagged; Tagged; Int32],
          [Register Gpr 0; Register Gpr 1; Register Gpr 0]).
Proof. vm_compute. reflexivity. Qed.

(** ** Stack maps *)

Section StackMaps.
Import Maps.
#[local] Open Scope Z_scope.

Lemma ctz_decompose k : forall x, 0 < x < 2 ^ Z.of_nat k -> (ctz k x < k)%nat /\ exists q, x = 2 ^ Z.of_nat (ctz k x) * (2 * q + 1).
Proof.
  induction k as [|k IH]; intros x Hx; [simpl in Hx; lia|]. cbn [ctz]. rewrite Nat2Z.inj_succ, Z.pow_succ_r in Hx by lia.
  destruct (Z.odd x) eqn:Ho.
  - split; [lia|]. apply Z.odd_spec in Ho as [q ->]. exists q. change (Z.of_nat 0) with 0. lia.
  - assert (He : x = 2 * (x / 2)). { apply Z.div_exact; [lia|]. rewrite Zmod_odd, Ho. done. }
    destruct (IH (x / 2)) as (Hlt & q & Hq); [lia|]. split; [lia|]. exists q. rewrite Nat2Z.inj_succ, Z.pow_succ_r by lia. lia.
Qed.

(** Clearing the lowest bit. *)
Lemma land_pred s m : 0 <= s -> Z.land (2 ^ s * (2 * m + 1)) (2 ^ s * (2 * m + 1) - 1) = 2 ^ s * (2 * m).
Proof.
  intros Hs. apply Z.bits_inj'. intros j Hj. rewrite Z.land_spec. pose proof (Z.pow_pos_nonneg 2 s ltac:(lia) Hs) as Hp.
  rewrite !(Z.mul_comm (2 ^ s)). destruct (Z.lt_ge_cases j s) as [Hlt|Hge].
  { by rewrite !Z.mul_pow2_bits_low. }
  assert (Hdiv : ((2 * m + 1) * 2 ^ s - 1) / 2 ^ s = 2 * m). { symmetry. apply (Z.div_unique_pos _ _ _ (2 ^ s - 1)); [lia|ring]. }
  rewrite !Z.mul_pow2_bits by lia. replace (Z.testbit ((2 * m + 1) * 2 ^ s - 1) j) with (Z.testbit (2 * m) (j - s)).
  2:{ transitivity (Z.testbit (((2 * m + 1) * 2 ^ s - 1) / 2 ^ s) (j - s)); [by rewrite Hdiv|].
      rewrite Z.div_pow2_bits by lia. by replace (j - s + s) with j by lia. }
  destruct (Z.eq_dec (j - s) 0) as [-> |Hne]; [by rewrite Z.testbit_even_0, andb_false_r|].
  replace (j - s) with (Z.succ (j - s - 1)) by lia. rewrite Z.testbit_odd_succ, Z.testbit_even_succ by lia. by rewrite andb_diag.
Qed.

Lemma low_bits s m j : 0 <= j <= s -> Z.testbit (2 ^ s * (2 * m + 1)) j = (j =? s).
Proof.
  intros Hj. rewrite Z.mul_comm. destruct (Z.eqb_spec j s) as [-> |Hne]; [|apply Z.mul_pow2_bits_low; lia].
  rewrite Z.mul_pow2_bits, Z.sub_diag by lia. apply Z.testbit_odd_0.
Qed.

Lemma high_bits s m j : 0 <= s < j -> Z.testbit (2 ^ s * (2 * m + 1)) j = Z.testbit (2 ^ s * (2 * m)) j.
Proof.
  intros Hj. rewrite !(Z.mul_comm (2 ^ s)), !Z.mul_pow2_bits by lia. replace (j - s) with (Z.succ (j - s - 1)) by lia.
  by rewrite Z.testbit_odd_succ, Z.testbit_even_succ by lia.
Qed.
#[local] Close Scope Z_scope.

(** The loop visits the set bits of a word in ascending order. *)
Lemma visit_word_Ok {E} base fuel : forall s bits, is_word 64 bits -> (forall j, j < s -> Z.testbit bits (Z.of_nat j) = false) ->
  64 < fuel + s -> s <= 64 ->
  exists l, visit_word (E := E) fuel base bits = Ok l /\ StronglySorted lt l
  /\ forall i, i ∈ l <-> exists j, s <= j < 64 /\ i = base + j /\ Z.testbit bits (Z.of_nat j) = true.
Proof.
  induction fuel as [|fuel IH]; intros s bits Hw Hlow Hf Hs; [lia|]. cbn [visit_word]. destruct (Z.eqb_spec bits 0) as [-> |Hne].
  { exists []. split_and!; [done|constructor|]. intros i. split; [by intros ?%elem_of_nil|]. intros (j & _ & _ & Hj). by rewrite Z.bits_0 in Hj. }
  unfold is_word in Hw. destruct (ctz_decompose 64 bits ltac:(change (Z.of_nat 64) with 64%Z; lia)) as (Hlt & m & Hm). fold (trailing_zeros bits) in *.
  set (z := trailing_zeros bits) in *. assert (Hsz : s <= z).
  { destruct (decide (s <= z)) as [|Hgt]; [done|]. specialize (Hlow z ltac:(lia)). rewrite Hm, low_bits, Z.eqb_refl in Hlow by lia. done. }
  assert (Hland : Z.land bits (bits - 1) = (2 ^ Z.of_nat z * (2 * m))%Z) by (rewrite Hm; apply land_pred; lia).
  assert (Hafter : forall j, z < j -> Z.testbit (Z.land bits (bits - 1)) (Z.of_nat j) = Z.testbit bits (Z.of_nat j)).
  { intros j Hj. rewrite Hland, Hm. symmetry. apply high_bits. lia. }
  destruct (IH (S z) (Z.land bits (bits - 1))) as (l & -> & Hsort & Hl); [by apply land_word| |lia|lia|].
  { intros j Hj. rewrite Z.land_spec. rewrite Hm at 1. rewrite low_bits by lia. destruct (Z.eqb_spec (Z.of_nat j) (Z.of_nat z)) as [He|]; [|done].
    rewrite andb_true_l. assert (j = z) as -> by lia. pose proof (f_equal (fun x => Z.testbit x (Z.of_nat z)) Hland) as Hb. cbn beta in Hb.
    rewrite Z.land_spec in Hb. rewrite Hm in Hb at 1. rewrite low_bits, Z.eqb_refl in Hb by lia. rewrite andb_true_l in Hb. rewrite Hb.
    rewrite Z.mul_comm, Z.mul_pow2_bits, Z.sub_diag by lia. apply Z.testbit_even_0. }
  cbn [rbind]. exists (base + z :: l). split_and!; [done| |].
  - constructor; [done|]. apply Forall_forall. intros i (j & ? & -> & _)%Hl. lia.
  - intros i. rewrite elem_of_cons, Hl. split.
    + intros [-> |(j & Hj & -> & Hb)]; [exists z|exists j]; (split; [lia|split; [done|]]).
      * by rewrite Hm, low_bits, Z.eqb_refl by lia.
      * by rewrite <- Hafter by lia.
    + intros (j & Hj & -> & Hb). destruct (lt_eq_lt_dec j z) as [[Hjz| ->]|Hjz]; [|by left|right].
      * rewrite Hm, low_bits in Hb by lia. apply Z.eqb_eq in Hb. lia.
      * exists j. split; [lia|]. split; [done|]. by rewrite Hafter.
Qed.

Lemma is_tagged_bit map i : is_tagged map i = match map !! (i / 64) with Some w => Z.testbit w (Z.of_nat (i mod 64)) | None => false end.
Proof.
  unfold is_tagged. destruct (map !! (i / 64)) as [w|]; [|done]. rewrite shiftl_mul, Z.mul_1_l, land_bit by lia.
  destruct (Z.testbit w _); [|done]. pose proof (Z.pow_pos_nonneg 2 (Z.of_nat (i mod 64)) ltac:(lia) ltac:(lia)). apply negb_true_iff, Z.eqb_neq. lia.
Qed.

Lemma mark_word w k : is_word 64 w -> k < 64 -> is_word 64 (Z.lor w (Z.shiftl 1 (Z.of_nat k)))
  /\ forall j, j < 64 -> Z.testbit (Z.lor w (Z.shiftl 1 (Z.of_nat k))) (Z.of_nat j) = Z.testbit w (Z.of_nat j) || (j =? k).
Proof.
  intros Hw Hk. rewrite shiftl_mul, Z.mul_1_l by lia. split.
  - apply word_of_bits; [lia|]. intros i Hi. rewrite Z.lor_spec, (word_high 64 w) by (done || lia). rewrite Z.pow2_bits_false by lia. done.
  - intros j Hj. rewrite Z.lor_spec, Z.pow2_bits_eqb by lia. f_equal. destruct (Nat.eqb_spec j k); [subst; apply Z.eqb_refl|apply Z.eqb_neq; lia].
Qed.

Lemma slot_index i : i = 64 * (i / 64) + i mod 64 /\ i mod 64 < 64.
Proof. split; [apply Nat.div_mod_eq|by apply Nat.mod_upper_bound]. Qed.

Lemma mark_slots_Ok {E} n l : forall map, n <= 64 * length map -> Forall (is_word 64) map ->
  exists map', mark_slots (E := E) n l map = Ok map' /\ Forall (is_word 64) map'
  /\ forall i, is_tagged map' i = is_tagged map i || bool_decide (i < n /\ i ∈ l).
Proof.
  induction l as [|s l IH]; intros map Hlen Hw; cbn [mark_slots].
  { exists map. split_and!; [done|done|]. intros i. rewrite bool_decide_false, orb_false_r; [done|]. by intros [_ []%elem_of_nil]. }
  destruct (Nat.ltb_spec s n) as [Hlt|Hge]; cbn [rbind].
  - destruct (slot_index s) as [Hs Hk]. assert (Hd : s / 64 < length map) by lia. destruct (lookup_lt_is_Some_2 _ _ Hd) as [w Hwd].
    rewrite (proj2 (index_Ok _ _ _) Hwd). cbn [rbind]. destruct (mark_word w (s mod 64)) as [Hw' Hbit]; [by eapply Forall_lookup_1|done|].
    destruct (IH (<[s / 64 := Z.lor w (Z.shiftl 1 (Z.of_nat (s mod 64)))]> map)) as (map' & -> & Hall & Htag);
      [by rewrite length_insert|by apply Forall_insert|].
    exists map'. split_and!; [done|done|]. intros i. rewrite Htag. destruct (slot_index i) as [Hi Hik].
    assert (Hup : is_tagged (<[s / 64 := Z.lor w (Z.shiftl 1 (Z.of_nat (s mod 64)))]> map) i = is_tagged map i || (i =? s)).
    { rewrite !is_tagged_bit. destruct (decide (i / 64 = s / 64)) as [He|Hne].
      - rewrite He, list_lookup_insert_eq, Hwd, Hbit by done. f_equal. destruct (Nat.eqb_spec i s) as [-> |]; [apply Nat.eqb_refl|apply Nat.eqb_neq; lia].
      - rewrite list_lookup_insert_ne by done. rewrite (proj2 (Nat.eqb_neq i s)), orb_false_r by congruence. done. }
    rewrite Hup, <- orb_assoc. f_equal. destruct (Nat.eqb_spec i s) as [-> |Hne]; cbn [orb].
    + symmetry. apply bool_decide_eq_true. split; [done|by left].
    + apply bool_decide_ext. rewrite elem_of_cons. naive_solver.
  - destruct (IH map Hlen Hw) as (map' & -> & Hall & Htag). exists map'. split_and!; [done|done|]. intros i. rewrite Htag. f_equal.
    apply bool_decide_ext. rewrite elem_of_cons. split; [tauto|]. intros [? [-> |?]]; [lia|done].
Qed.

Lemma visit_words_Ok {E} map : forall w, Forall (is_word 64) map ->
  exists l, visit_words (E := E) w map = Ok l /\ StronglySorted lt l /\ forall i, i ∈ l <-> exists j, i = w * 64 + j /\ is_tagged map j = true.
Proof.
  induction map as [|x map IH]; intros w Hw; cbn [visit_words].
  { exists []. split_and!; [done|constructor|]. intros i. split; [by intros ?%elem_of_nil|]. by intros (j & _ & Hj). }
  apply Forall_cons in Hw as [Hx Hw]. destruct (visit_word_Ok (E := E) (w * 64) 65 0 x Hx) as (here & -> & Hs1 & H1); [lia|lia|lia|].
  destruct (IH (S w) Hw) as (rest & -> & Hs2 & H2). cbn [rbind]. exists (here ++ rest).
  assert (Hhd : forall j, j < 64 -> is_tagged (x :: map) j = Z.testbit x (Z.of_nat j)).
  { intros j Hj. rewrite is_tagged_bit, Nat.div_small, Nat.mod_small by done. done. }
  assert (Htl : forall j, is_tagged (x :: map) (64 + j) = is_tagged map j).
  { intros j. rewrite !is_tagged_bit. replace (64 + j) with (j + 1 * 64) by lia. rewrite Nat.div_add, Nat.Div0.mod_add by lia. by rewrite Nat.add_1_r. }
  split_and!; [done| |].
  - apply StronglySorted_app. split_and!; [|done|done]. intros a b (j & Hj & -> & _)%H1 (k & -> & _)%H2. lia.
  - intros i. rewrite elem_of_app, H1, H2. split.
    + intros [(j & Hj & -> & Hb)|(j & -> & Hb)]; [exists j; by rewrite Hhd by lia|]. exists (64 + j). rewrite Htl. split; [lia|done].
    + intros (j & -> & Hb). destruct (decide (j < 64)) as [Hlt|Hge].
      * left. exists j. rewrite <- Hhd by done. split; [lia|done].
      * right. exists (j - 64). rewrite <- Htl. replace (64 + (j - 64)) with j by lia. split; [lia|done].
Qed.

(** C36: A stack map marks exactly the tagged slots it is built from, those past the
    slot count ignored; and the bit loop over its words visits exactly the marked
    slots, each once, in ascending order. *)
Theorem stack_map_exact {E} (slot_count : nat) (slots : list nat) :
  exists map, from_tagged_slots (E := E) slot_count slots = Ok map
  /\ (forall i, is_tagged map i = true <-> i < slot_count /\ i ∈ slots)
  /\ exists visited, for_each_tagged (E := E) map = Ok visited /\ StronglySorted lt visited
     /\ forall i, i ∈ visited <-> i < slot_count /\ i ∈ slots.
Proof.
  set (start := replicate ((slot_count + 63) / 64) 0%Z).
  destruct (mark_slots_Ok (E := E) slot_count slots start) as (map & Hm & Hw & Htag).
  { unfold start. rewrite length_replicate. pose proof (Nat.div_mod_eq (slot_count + 63) 64). pose proof (Nat.mod_upper_bound (slot_count + 63) 64). lia. }
  { apply Forall_replicate. split; [done|]. apply Z.pow_pos_nonneg; lia. }
  assert (Hset : forall i, is_tagged map i = true <-> i < slot_count /\ i ∈ slots).
  { intros i. rewrite Htag, is_tagged_bit. unfold start. destruct (replicate _ 0%Z !! (i / 64)) as [w|] eqn:Hr.
    - apply lookup_replicate in Hr as [-> _]. rewrite Z.bits_0, orb_false_l. apply bool_decide_eq_true.
    - rewrite orb_false_l. apply bool_decide_eq_true. }
  exists map. split_and!; [exact Hm|done|]. destruct (visit_words_Ok (E := E) map 0 Hw) as (l & Hl & Hs & Hin). exists l.
  split_and!; [exact Hl|done|]. intros i. rewrite Hin, <- Hset. cbn [Nat.mul Nat.add]. split; [by intros (j & -> & ?)|eauto].
Qed.

(** A table of safepoints at distinct PCs answers with the map of the PC. *)
Lemma safepoint_lookup_exact points : NoDup (map safepoint_byte_pc points) -> forall pc m,
  safepoint_lookup (from_safepoints points) pc = Some m <-> exists p, p ∈ points /\ safepoint_byte_pc p = pc /\ tagged p = m.
Proof.
  intros Hnd pc m. set (le := fun p q => (safepoint_byte_pc p <=? safepoint_byte_pc q)%Z). unfold from_safepoints. fold le.
  set (table := sort_by le points). pose proof (sort_by_Permutation le points : table ≡ₚ points) as Hperm.
  assert (Hsort : StronglySorted (fun p q => le p q = true) table).
  { apply sort_by_sorted; unfold le; intros; rewrite !Z.leb_le in *; lia. }
  assert (Hlt : forall i j p q, table !! i = Some p -> table !! j = Some q -> i <= j -> (safepoint_byte_pc p <= safepoint_byte_pc q)%Z).
  { intros i j p q Hi Hj Hij. destruct (decide (i = j)) as [-> |Hne]; [assert (p = q) as -> by congruence; lia|].
    apply Z.leb_le. apply (sorted_lookup _ _ Hsort i j p q Hi Hj). lia. }
  assert (Hnd' : NoDup (map safepoint_byte_pc table)) by (by rewrite Hperm).
  unfold safepoint_lookup. set (cmp := fun p => Z.compare (safepoint_byte_pc p) pc). split.
  - destruct (table !! _) as [p|] eqn:Hp; cbn; [|done]. unfold cmp. destruct (Z.compare_spec (safepoint_byte_pc p) pc) as [He| |]; [|done..].
    intros [= <-]. exists p. split_and!; [|done|done]. rewrite <- Hperm. by eapply list_elem_of_lookup_2.
  - intros (p & Hp & Hpc & <-). rewrite <- Hperm in Hp. apply list_elem_of_lookup in Hp as [i Hi].
    destruct (binary_search_found cmp table) with (i := i) (x := p) as (q & Hq & Hc); [..|done| |].
    + intros j k x y Hj Hk Hjk. unfold cmp. rewrite !Z.compare_gt_iff. pose proof (Hlt j k x y Hj Hk Hjk). lia.
    + intros j k x y Hj Hk Hjk. unfold cmp. rewrite !Z.compare_lt_iff. pose proof (Hlt j k x y Hj Hk ltac:(lia)). lia.
    + unfold cmp. by rewrite Z.compare_eq_iff.
    + rewrite Hq. cbn. fold (cmp q). rewrite Hc. apply Z.compare_eq_iff in Hc. do 2 f_equal.
      assert (bsearch_loop (length table) cmp table 0 (length table) = i) as Hb; [|rewrite Hb in Hq; congruence].
      eapply NoDup_lookup; [exact Hnd'|rewrite map_lookup, Hq; simpl; by rewrite Hc|rewrite map_lookup, Hi; simpl; by rewrite Hpc].
Qed.
End StackMaps.
